(* ===== verification/_CoqProject ===== *)
-Q . S2P
Prelude.v
LedgerEntry.v
Views.v
RawStateTable.v
ApplyStateTable.v
Serializer.v
LedgerHeader.v
Radix.v
Base58.v
Base58Limbs.v
Base58Fast.v
Base58Decode.v
Base58Props.v
SHAMapNodeID.v
SHAMap.v
SHAMapSpec.v
SHAMapMap.v
SHAMapHash.v
Ledger.v
LedgerSpec.v
StackedViews.v
ApplyToLedger.v
Instances.v
ViewProps.v
BuildLedger.v
CanonicalTXSet.v
ApplyTxs.v
ApplyTxsProps.v
SHAMapProps.v
SHAMapDelta.v
SHAMapWalk.v
SHAMapWalkProps.v
SHAMapProof.v
SHAMapProofProps.v
SHAMapSync.v
SHAMapSyncSpec.v
SHAMapMissing.v
SHAMapMissingLoop.v
SHAMapAcquire.v
SHAMapVisit.v
SHAMapServe.v
SHAMapSyncProps.v
ApplyView.v
Directory.v
DirectorySpec.v
DirectoryReads.v
DirectoryProps.v
Consensus.v
LedgerTrie.v
LedgerTrieSpec.v
LedgerTrieOps.v
LedgerTriePreferred.v
RCLValidations.v
LedgerTrieProps.v
StateMonad.v
ConsensusTypes.v
ConsensusState.v
ConsensusRound.v
ConsensusLaws.v
ConsensusDisputes.v
ConsensusPosition.v
ConsensusRun.v
ConsensusTimer.v
ConsensusLive.v
ConsensusRoundProps.v
RCLCxTx.v
RCLCxTxProps.v
AgedMap.v
Validations.v
ValidationsSpec.v
ValidationsRun.v
ValidationsAges.v
ValidationsProps.v
Number.v
NumberSpec.v
NumberOps.v
NumberAdd.v
NumberProps.v
