(* ===== verification/Prelude.v ===== *)
(** * Verification of the XRP Ledger server (xrpld)

    A shallow embedding of the core of the server: pure functions are
    functions, code that throws returns a [result], code that edits a ledger
    threads its state, and loops that are not structural run on fuel that is
    shown to be enough.  Code outside the repository (the SHA-512 digest, the
    binary form of a ledger entry) is a class of parameters, which Instances
    instantiates.  No digest of 256 bits is injective, so no theorem
    asks for it: where the digest is relied on, the items and nodes of the tree
    at hand are not to collide with each other ([no_clash], [digest_good]) or,
    where peers may send anything, with anything else ([unforgeable]), and keys
    of the same kind are to be distinct ([IndexLaws], [PageKeys]); where the
    binary form is relied on, the entries written are to survive it
    ([ledger_takes]; [raw_takes] for a view in general).  Instances meets these
    conditions on examples with a digest of 256 bits.  [XRPL_ASSERT]s are debug-only and are not part of
    the behaviour; logging and JSON dumps are left out.

    ** The parts of the program and their files

    - The ledger state.  LedgerEntry: entries, keylets and the store of shared
      entries that views hand pointers to ([STLedgerEntry], [Keylet]).  Views:
      the interfaces [ReadView], [RawView], ... as classes with laws
      (ReadView.h, RawView.h).  RawStateTable, ApplyStateTable: the two change
      buffers (ledger/detail).  StackedViews: [OpenView], [ApplyViewBase],
      [Sandbox] over any base.  ApplyToLedger: an open view applied to a
      ledger.  ViewProps: the claims about views.
    - Encoding.  Serializer: [Serializer], [SerialIter] and the
      length-prefixed forms.  LedgerHeader: headers, their hash, close times
      (LedgerHeader.cpp, LedgerTiming.h).  Radix: numbers as lists of digits.
      Base58: the alphabet, the checksum and the reference codec of
      tokens.cpp.  Base58Limbs: the codec in use, on 64-bit limbs (tokens.cpp,
      b58_utils.h).  Base58Fast, Base58Decode: what either of them
      computes.  Base58Props: the claims.
    - The Merkle tree.  SHAMapNodeID, SHAMap: positions and the radix tree
      (shamap/SHAMap.cpp, SHAMapInnerNode.cpp).  SHAMapSpec, SHAMapMap: its
      canonical shape and the finite map it stands for.  SHAMapHash: node
      hashes and serialized nodes.  SHAMapProps: the claims.  SHAMapDelta:
      [SHAMap::compare] (SHAMapDelta.cpp), its loops as a list of reports.
      SHAMapWalk: [walkMap], [walkMapParallel] and
      [Ledger::walkLedger], which look for missing nodes, the workers of the
      parallel walk interleaved in any order.  SHAMapWalkProps: their claim.
    - Proofs and synchronisation (SHAMapSync.cpp).  SHAMapProof: proof paths,
      and what the digest is relied on for.  SHAMapProofProps: the claims.
      SHAMapSync: trees of which only a part is there, the sources of nodes
      ([Env]: cache, store, filter), [addRootNode], [addKnownNode] and
      [getMissingNodes] with its background reads (also SHAMap.cpp).
      SHAMapSyncSpec: being a part of the wanted tree, which adding nodes
      keeps; places with their identifiers and hashes; the marks of nodes that
      have all below them.  SHAMapMissing: updates, invariant and measure of
      the search for missing nodes.  SHAMapMissingLoop: its steps and loops.  SHAMapAcquire: sessions in which a map is
      acquired, and rounds with a peer.  SHAMapVisit: [visitNodes],
      [visitLeaves], [visitDifferences], [deepCompare] and [getNodeFat], and
      what is visited.  SHAMapServe: what is served.  SHAMapSyncProps: the
      claims.
    - Closed ledgers.  Ledger: [Ledger] over two trees (ledger/Ledger.cpp).
      LedgerSpec: its laws as a view.  BuildLedger: [buildLedgerImpl]
      (BuildLedger.cpp), the skip lists, [hashOfSeq] (View.cpp).
      CanonicalTXSet: the order of transactions (CanonicalTXSet.cpp,
      SeqProxy.h).  ApplyTxs: [applyTransaction], batches (tx/apply.cpp) and
      the passes of [buildLedger], over any transaction engine.
      ApplyTxsProps: their outcome.
    - Directories.  ApplyView: the interface transactors edit a ledger
      through, with a monad and symbolic rules for it (ApplyView.h).
      Directory: the paged lists of ApplyView.cpp, Dir.cpp and
      DirectoryHelpers.cpp.  DirectorySpec, DirectoryReads: what they do to
      the list of pages.  DirectoryProps: the claims.
    - Consensus.  Consensus: the decision functions of Consensus.cpp, the
      thresholds of ConsensusParms.h, the votes of DisputedTx.h.  LedgerTrie:
      the compressed trie of validated ledgers (LedgerTrie.h).
      LedgerTrieSpec, LedgerTrieOps: the trie as a table of
      votes by history.  LedgerTriePreferred: the preferred ledger, one
      sequence number at a time.  RCLValidations: [RCLValidatedLedger]
      (RCLValidations.cpp), the ledger type the server uses the trie with.
      LedgerTrieProps: the claims.  AgedMap: containers whose elements age
      (aged_unordered_container.h).  Validations: the tracking of validations
      (Validations.h).  ValidationsSpec: the trie as the tally of the nodes'
      last ledgers.  ValidationsRun, ValidationsAges: runs of
      operations, pending ledgers, expiry.  ValidationsProps: the claims.
    - Rounds of consensus (Consensus.h).  StateMonad: programs that read and
      write a state and may throw, with rules for what they return.
      ConsensusTypes: proposals, modes, phases, timers, results, and what the
      template asks of its types ([Traits]).  ConsensusState: the members of
      the class, the questions it asks its adaptor and the events it tells it.
      ConsensusRound: its member functions, one definition each.
      ConsensusLaws: what sets of transactions promise, and what the adaptor
      does ([TraitsLaws], [RoundLaws]).  ConsensusDisputes,
      ConsensusPosition, ConsensusRun, ConsensusTimer: the
      invariant, kept by disputes, by messages of peers, by our position, by
      the phases, by the timer and the start of a round.  ConsensusLive:
      progress, agreement and the order of messages.
      ConsensusRoundProps: a small adaptor that satisfies the laws, and the
      claims.  RCLCxTx: the types the server uses for [Traits]: sets of
      transactions over a SHAMap, ledgers, signed proposals (RCLCxTx.h,
      RCLCxLedger.h, RCLCxPeerPos.h/.cpp), which meet [TraitsLaws].  RCLCxTxProps: the claims about them and about
      [SHAMap::compare].
    - Arithmetic.  Number: the decimal floating point of Number.h and
      Number.cpp, with the rounding mode and the mantissa scale as arguments.
      NumberSpec: guard digits as fractions, and rounding.
      NumberOps, NumberAdd: normalization and the operations.  NumberProps:
      the claims.

    ** How they interact

    A consensus round agrees on transactions and a close time; the agreed
    transactions are applied to an [OpenView] over the last ledger, each
    through a [Sandbox] whose [ApplyStateTable] is replayed on success;
    [OpenView::apply] replays the [RawStateTable] into the new [Ledger], whose
    state is a [SHAMap]; the header commits to the roots of its maps, and the
    skip lists inside the state let later ledgers name their ancestors.  The
    client theorems are stated against the interfaces of Views and ApplyView,
    which [Ledger], [OpenView] and [ApplyViewBase] implement.  [Validations]
    keeps the validations of closed ledgers that arrive and has the trie of
    ledgers count them, which picks the chain to work on.  A round of
    [Consensus] keeps our set of transactions and those of the peers, which
    are trees whose comparison yields the disputes; it is verified against the
    laws of [Traits], which the trees satisfy.  Trees a server does not have
    are acquired node by node; what a peer serves for a node is what the map
    being acquired takes, and both are checked against the root hash.

    ** What the theorems show

    - Views: a stack of views shows the base overlaid with its changes, reads,
      iteration and successor queries agree with that map; a sequence of edits
      of a sandbox does what the edits say ([session_spec]), and applying it
      transfers exactly the recorded ones.
    - Encodings: what is written reads back, and only canonical forms are
      accepted.  The fast codec of identifiers does what the reference codec
      does, round trips included, and never writes past its arrays.
    - The tree refines a finite map, its shape does not depend on the order of
      the operations, and its root hash commits to its contents.
    - Chains of built ledgers: every recorded ancestor is found again.
    - Applying transactions: the order all servers agree on, that the passes
      deal with every transaction and end in a final one, and that a batch is
      committed as a whole, or what is left when filing one of its
      transactions throws.
    - Directories refine a list of pages, with or without empty ones; which
      traversals visit all keys, and where the iterator stops.
    - Consensus: when a round may be declared done, the tallies of disputes,
      the agreement of nodes that see the same votes.
    - Rounds: after any sequence of calls the disputes are what the node and
      its peers disagree on; every call returns; a round is accepted only on
      agreement, and is accepted if all agree; nodes with the same view accept
      the same set; proposals may arrive in any order and are sent in order;
      a node proposes only on the right ledger; how the rounding of the
      thresholds of a pause goes.
    - Comparison and walks: two trees are compared completely up to the limit,
      the sets of transactions of the server are finite maps, and what the
      walks for missing nodes do and do not find.
    - Proof paths: which paths are accepted, and that those made are; two ways
      in which more is accepted, or read, than should be.
    - Synchronisation: whatever peers send in whatever order, short of inner
      nodes with hash zero in a branch that is set, a map being acquired stays a part of the wanted one and is taken to be complete only
      when it is; the search for missing nodes returns and finds what is
      missing; with a peer that has the map it is acquired; which nodes
      are visited and served; and how a root with a branch that is not there,
      and a node below it, get in.
    - The trie of ledgers refines a table of votes, its preferred ledger is
      the one described by the comment in the code, and the walk terminates.
    - Validations: whatever the operations and the network do, the trie is the
      tally of ledgers the nodes did validate and nothing throws; sequence
      numbers increase; an acquired ledger is counted; what expires, and two
      ways in which votes and expiry go against the documentation.
    - Numbers stay normal, order and equality are those of their values, and
      on the scale with the rounding fix results are the exact ones rounded as
      the mode asks, outside three families of sums; what the code does in two
      of them.

    ** Bounds and fuel

    The depth of a SHAMap is at most 64, which bounds its recursions; page
    walks take fuel beyond the number of pages; [getPreferred] goes at most as
    deep as the trie; the digit loops of [Number] run at most 40 times since a
    128-bit mantissa has 39 digits.  Machine integers are [N] or [Z] with the wrap-around of
    their width written out where an operation can reach it.  The laws of the
    trie ask for ledgers whose known ancestors go back to the first one: an
    [RCLValidatedLedger] knows at most 256 ancestors, and two ledgers whose
    known ranges do not meet are taken to differ from sequence number one on.
    An operation of [Validations] reads each clock once.  [timerEntry]
    starts a round anew when the network prefers another ledger, and a round
    may call [timerEntry]; they take fuel beyond the number of times the adaptor will still change its
    mind, which the laws bound ([budget]), and more fuel gives the same
    result.  The walks over trees take as much fuel as there are nodes; the
    visits eighteen times that ([visit_fuel]), for sixteen branches and what
    the stack needs.  [getMissingNodes] takes fuel [sync_fuel], which depends
    on the wanted tree only: every pass of its outer loop hooks a node or ends
    it, and a pass is bounded by the branches there are.  The
    comparison of sets stops at 65536 differences: claims that need all of
    them ask that no more transactions circulate.  The weights of
    [shouldPause] are 32-bit floats, modelled by the standard library's
    specification of IEEE numbers.

    ** Not modelled

    The network and overlay, job queues, timers, storage back ends and
    databases, RPC and JSON are input and output.  Cryptographic primitives
    are parameters.  The individual transactors and the transaction engine are
    a parameter of ApplyTxs: they work on serialized objects, of which only
    the primitive encodings are modelled; for the same reason metadata, the
    transaction queue and the votes on fees and amendments are left out.  Nor
    are payment paths, token amounts over [Number], its roots and text form,
    and the adaptor between consensus and the server, whose questions and
    events are the interface of the rounds.  Of the trees, copy-on-write
    sharing between snapshots and flushing to the store are not modelled, nor
    the flag for a full map with the report it triggers when a node of it is
    missing, nor the note a filter gets that a node it supplied was used.  [InboundLedger], which drives the acquisition of trees over the
    network, is modelled only by the sessions of SHAMapAcquire. *)

From stdpp Require Export strings numbers sorting gmap list.

(** ** Errors

    The C++ code reports broken preconditions by throwing
    [std::logic_error] / [std::runtime_error]; an operation that can throw
    returns a [result], whose [Throw] carries the message of the source. *)
Inductive result (A : Type) : Type :=
| Ok (a : A)
| Throw (msg : string).
Arguments Ok {A} _.
Arguments Throw {A} _.

#[export] Instance result_ret : MRet result := @Ok.
#[export] Instance result_bind : MBind result := fun A B f r =>
  match r with Ok a => f a | Throw m => Throw m end.
#[export] Instance result_fmap : FMap result := fun A B f r =>
  match r with Ok a => Ok (f a) | Throw m => Throw m end.

Definition is_ok {A} (r : result A) : bool :=
  match r with Ok _ => true | Throw _ => false end.

Definition from_option_throw {A} (msg : string) (o : option A) : result A :=
  match o with Some a => Ok a | None => Throw msg end.

Fixpoint foldM {A S} (f : S -> A -> result S) (s : S) (l : list A) : result S :=
  match l with
  | [] => Ok s
  | x :: l => match f s x with Ok s' => foldM f s' l | Throw m => Throw m end
  end.

Lemma foldM_app {A S} (f : S -> A -> result S) s l1 l2 :
  foldM f s (l1 ++ l2) = (s' ← foldM f s l1; foldM f s' l2).
Proof.
  revert s; induction l1 as [|x l1 IH]; intros s; simpl; [done|].
  destruct (f s x); [apply IH|done].
Qed.

Lemma bind_Ok {A B} (r : result A) (f : A -> result B) b :
  (a ← r; f a) = Ok b <-> exists a, r = Ok a /\ f a = Ok b.
Proof. destruct r; cbn; naive_solver. Qed.

(** ** Bits *)

Lemma lor_above a d n : (0 <= n -> 0 <= a < 2 ^ n -> Z.lor a (d * 2 ^ n) = a + d * 2 ^ n)%Z.
Proof.
  intros Hn Ha. rewrite <-Z.shiftl_mul_pow2 by done.
  assert (Z.land a (Z.shiftl d n) = 0)%Z as Hz.
  { apply Z.bits_inj'. intros i Hi. rewrite Z.land_spec, Z.bits_0, Z.shiftl_spec by done.
    destruct (Z.ltb_spec i n).
    - rewrite (Z.testbit_neg_r d) by lia. apply andb_false_r.
    - rewrite <-(Z.mod_small a (2 ^ n)%Z) by done. by rewrite Z.mod_pow2_bits_high by lia. }
  by rewrite <-Z.lxor_lor, Z.add_nocarry_lxor.
Qed.

(** ** Lists *)

Lemma list_sum_cons x l : list_sum (x :: l) = (x + list_sum l)%nat.
Proof. done. Qed.

Lemma filter_none {A} (P : A -> Prop) `{forall x, Decision (P x)} (l : list A) :
  (forall x, x ∈ l -> ~ P x) -> filter P l = [].
Proof.
  induction l as [|x l IH]; intros Hn; [done|].
  rewrite filter_cons_False by (apply Hn; by left). apply IH. intros y ?. apply Hn. by right.
Qed.

Lemma filter_all {A} (P : A -> Prop) `{forall x, Decision (P x)} (l : list A) :
  (forall x, x ∈ l -> P x) -> filter P l = l.
Proof.
  induction l as [|x l IH]; intros Hn; [done|].
  rewrite filter_cons_True by (apply Hn; by left). f_equal. apply IH. intros y ?. apply Hn. by right.
Qed.

Lemma StronglySorted_filter {A} (R : relation A) (P : A -> Prop)
    `{forall x, Decision (P x)} l :
  StronglySorted R l -> StronglySorted R (filter P l).
Proof.
  induction 1 as [|x l Hs IH Hall]; [constructor|].
  rewrite filter_cons. case_decide; [constructor; [done|]|done].
  rewrite Forall_forall in *. intros y Hy. apply Hall.
  by apply list_elem_of_filter in Hy as [_ ?].
Qed.

(** An element that occurs once splits a list in one way. *)
Lemma NoDup_app_cons_inj {A} (x : A) l1 l1' l2 l2' :
  NoDup (l1 ++ x :: l2) -> l1 ++ x :: l2 = l1' ++ x :: l2' -> l2 = l2'.
Proof.
  revert l1'; induction l1 as [|y l1 IH]; intros [|y' l1'] Hnd E; cbn in *; simplify_eq; try done.
  - apply NoDup_cons in Hnd as [Hx _]. destruct Hx. apply elem_of_app; right; by left.
  - apply NoDup_cons in Hnd as [Hx _]. destruct Hx. apply elem_of_app; right; by left.
  - apply NoDup_cons in Hnd as [_ Hnd]. by eapply IH.
Qed.

(** ** Ordered maps

    [std::map<Key, V>] is a [gmap N V] whose iteration order is the order
    of the keys: [ordered m] lists the bindings the way a range-based for
    loop visits them, and [upper_bound m k] is the suffix an iterator
    returned by [m.upper_bound(k)] has left to visit. *)
Section ordered.
Context {A : Type}.
Implicit Types (m : gmap N A) (k : N).

Definition key_le (x y : N * A) : Prop := (x.1 <= y.1)%N.
Definition key_lt (x y : N * A) : Prop := (x.1 < y.1)%N.

#[export] Instance key_le_dec x y : Decision (key_le x y).
Proof. unfold key_le. apply _. Defined.
#[export] Instance key_le_total : Total key_le.
Proof. intros x y. unfold key_le. lia. Qed.
#[export] Instance key_le_trans : Transitive key_le.
Proof. intros x y z. unfold key_le. lia. Qed.

Definition ordered m : list (N * A) := merge_sort key_le (map_to_list m).

Definition upper_bound m k : list (N * A) :=
  filter (fun x => (k < x.1)%N) (ordered m).

Lemma elem_of_ordered m k x : (k, x) ∈ ordered m <-> m !! k = Some x.
Proof.
  unfold ordered. rewrite (merge_sort_Permutation key_le (map_to_list m)).
  apply elem_of_map_to_list.
Qed.

Lemma NoDup_fst_ordered m : NoDup (ordered m).*1.
Proof.
  unfold ordered. rewrite (merge_sort_Permutation key_le (map_to_list m)).
  apply NoDup_fst_map_to_list.
Qed.

Lemma StronglySorted_lt_of_le (l : list (N * A)) :
  StronglySorted key_le l -> NoDup l.*1 -> StronglySorted key_lt l.
Proof.
  induction 1 as [|x l Hs IH Hall]; intros Hnd; constructor; csimpl in *.
  - apply IH. by apply NoDup_cons in Hnd as [_ ?].
  - apply NoDup_cons in Hnd as [Hx _]. rewrite Forall_forall in *.
    intros y Hy. specialize (Hall y Hy). unfold key_le, key_lt in *.
    assert (x.1 <> y.1); [|lia].
    intros E. apply Hx. rewrite E. by apply list_elem_of_fmap_2.
Qed.

Lemma ordered_sorted m : StronglySorted key_lt (ordered m).
Proof.
  apply StronglySorted_lt_of_le; [|apply NoDup_fst_ordered].
  apply StronglySorted_merge_sort; apply _.
Qed.

Lemma upper_bound_sorted m k : StronglySorted key_lt (upper_bound m k).
Proof. apply StronglySorted_filter, ordered_sorted. Qed.

Lemma elem_of_upper_bound m k k' x :
  (k', x) ∈ upper_bound m k <-> (k < k')%N /\ m !! k' = Some x.
Proof.
  unfold upper_bound. by rewrite list_elem_of_filter, elem_of_ordered.
Qed.

Lemma key_sorted_unique (l1 l2 : list (N * A)) :
  StronglySorted key_lt l1 -> StronglySorted key_lt l2 ->
  (forall x, x ∈ l1 <-> x ∈ l2) -> l1 = l2.
Proof.
  intros H1. revert l2.
  induction H1 as [|x l1 Hs IH Hall]; intros l2 H2 Heq.
  - destruct l2 as [|y l2]; [done|].
    exfalso. by apply (not_elem_of_nil y), Heq; left.
  - destruct H2 as [|y l2 Hs2 Hall2];
      [exfalso; by apply (not_elem_of_nil x), Heq; left|].
    rewrite Forall_forall in Hall, Hall2. unfold key_lt in *.
    assert (x = y) as ->.
    { pose proof (proj1 (Heq x) ltac:(by left)) as [|Hx]%elem_of_cons; [done|].
      pose proof (proj2 (Heq y) ltac:(by left)) as [|Hy]%elem_of_cons; [done|].
      specialize (Hall _ Hy). specialize (Hall2 _ Hx). lia. }
    f_equal. apply IH; [done|]. intros z. split; intros Hz.
    + assert (z ∈ y :: l2) as [->|?]%elem_of_cons by (apply Heq; by right);
        [specialize (Hall _ Hz); lia|done].
    + assert (z ∈ y :: l1) as [->|?]%elem_of_cons by (apply Heq; by right);
        [specialize (Hall2 _ Hz); lia|done].
Qed.
End ordered.

(** The bounded successor of [key] among the keys satisfying [P]: what every
    [ReadView::succ(key, last)] promises. *)
Definition is_succ (P : N -> Prop) (key : N) (last : option N) (r : option N) : Prop :=
  match r with
  | Some k => P k /\ (key < k)%N /\ (forall l, last = Some l -> (k < l)%N) /\
              (forall k', P k' -> (key < k')%N -> (k <= k')%N)
  | None => forall k', P k' -> (key < k')%N -> exists l, last = Some l /\ (l <= k')%N
  end.

Lemma is_succ_unique P key last r1 r2 :
  is_succ P key last r1 -> is_succ P key last r2 -> r1 = r2.
Proof.
  destruct r1 as [k1|], r2 as [k2|]; simpl; intros H1 H2; [..|done].
  - destruct H1 as (P1 & L1 & _ & M1), H2 as (P2 & L2 & _ & M2).
    specialize (M1 _ P2 L2). specialize (M2 _ P1 L1). f_equal. lia.
  - destruct H1 as (P1 & L1 & B1 & _).
    destruct (H2 _ P1 L1) as (l & -> & ?). specialize (B1 _ eq_refl). lia.
  - destruct H2 as (P2 & L2 & B2 & _).
    destruct (H1 _ P2 L2) as (l & -> & ?). specialize (B2 _ eq_refl). lia.
Qed.

Lemma is_succ_ext (P Q : N -> Prop) key last r :
  (forall k, P k <-> Q k) -> is_succ P key last r -> is_succ Q key last r.
Proof. intros HPQ. destruct r; simpl; naive_solver. Qed.

(** Case analysis on every [match] and [decide] of the goal, discharging the
    contradictory branches. *)
Ltac cases_all := repeat (case_match || case_decide); simplify_eq/=; try done.
