(* ===== verification/LedgerEntry.v ===== *)
(** * Ledger entries, keylets and the object store

    The data the ledger views exchange: [STLedgerEntry] (aliased [SLE] in
    the source), [Keylet], and the heap of shared [SLE] objects.  Views hand
    out [std::shared_ptr<SLE>] values that callers mutate in place and that
    [erase] and [update] compare by identity, so a shared pointer is a
    location of an explicit store here, never a copy of the object. *)

From S2P Require Import Prelude.

(** [LedgerEntryType] is a 16-bit enumeration (ledger_entries.macro); its
    values are kept as numbers, with the ones the code distinguishes named. *)
Definition ltANY : N := 0.
Definition ltCHILD : N := 0x1CD2.
Definition ltDIR_NODE : N := 0x64.
Definition ltACCOUNT_ROOT : N := 0x61.
Definition ltRIPPLE_STATE : N := 0x72.
Definition ltLEDGER_HASHES : N := 0x68.
Definition ltAMENDMENTS : N := 0x66.
Definition ltFEE_SETTINGS : N := 0x73.
Definition ltNEGATIVE_UNL : N := 0x4e.

(** The field values the modelled code reads and writes: integers, hashes,
    accounts, vectors of hashes, blobs, amounts (XRP drops or not) and arrays
    of inner objects. *)
Inductive STPrim : Type :=
| PUInt (n : N)
| PVL (b : list Z).

#[export] Instance STPrim_eq_dec : EqDecision STPrim.
Proof. solve_decision. Defined.

Inductive STValue : Type :=
| VUInt (n : N)
| VHash (h : N)
| VAccount (a : N)
| VVector256 (l : list N)
| VVL (b : list Z)
| VAmount (native : bool) (v : Z)
| VArray (l : list (gmap string STPrim)).

#[export] Instance STValue_eq_dec : EqDecision STValue.
Proof. solve_decision. Defined.

#[export] Instance STPrim_countable : Countable STPrim.
Proof.
  refine (inj_countable' (fun v => match v with PUInt n => inl n | PVL b => inr b end)
    (fun x => match x with inl n => PUInt n | inr b => PVL b end) _).
  by intros [].
Defined.

#[export] Instance STValue_countable : Countable STValue.
Proof.
  refine (inj_countable' (fun v => match v with
      | VUInt n => inl (inl (inl n)) | VHash n => inl (inl (inr n))
      | VAccount n => inl (inr (inl n)) | VVector256 l => inl (inr (inr l))
      | VVL b => inr (inl (inl b)) | VAmount b z => inr (inl (inr (b, z)))
      | VArray l => inr (inr l) end)
    (fun x => match x with
      | inl (inl (inl n)) => VUInt n | inl (inl (inr n)) => VHash n
      | inl (inr (inl n)) => VAccount n | inl (inr (inr l)) => VVector256 l
      | inr (inl (inl b)) => VVL b | inr (inl (inr (b, z))) => VAmount b z
      | inr (inr l) => VArray l end) _).
  by intros [].
Defined.

Record SLE : Type := mkSLE {
  sle_type : N;
  sle_key : N;
  sle_fields : gmap string STValue
}.

#[export] Instance SLE_eq_dec : EqDecision SLE.
Proof. solve_decision. Defined.

#[export] Instance SLE_countable : Countable SLE.
Proof.
  refine (inj_countable' (fun s => (sle_type s, sle_key s, sle_fields s))
    (fun x => mkSLE x.1.1 x.1.2 x.2) _).
  by intros [].
Defined.

Record Keylet : Type := mkKeylet { kl_type : N; kl_key : N }.

Definition keylet_unchecked (key : N) : Keylet := mkKeylet ltANY key.

(** [Keylet::check]. *)
Definition check (k : Keylet) (sle : SLE) : bool :=
  if (kl_type k =? ltANY)%N then true
  else if (kl_type k =? ltCHILD)%N then negb (sle_type sle =? ltDIR_NODE)%N
  else ((sle_type sle =? kl_type k)%N && (sle_key sle =? kl_key k)%N).

(** Keys are [uint256]; a key of zero names no entry ([Ledger::read] rejects
    it). *)
Definition is_uint256 (k : N) : Prop := (k < 2 ^ 256)%N.
Definition key_ok (k : N) : Prop := k <> 0%N /\ is_uint256 k.

(** ** The object store *)

Abbreviation Heap := (gmap N SLE).

(** [std::make_shared<SLE>(x)]: a location not in use. *)
Definition alloc (h : Heap) (s : SLE) : N * Heap :=
  let p := fresh (dom h) in (p, <[p := s]> h).

(** [sle->key()] of a shared entry. *)
Definition key_of (h : Heap) (p : N) : result N :=
  match h !! p with Some s => Ok (sle_key s) | None => Throw "null SLE" end.

Lemma key_of_Ok h p s : h !! p = Some s -> key_of h p = Ok (sle_key s).
Proof. intros Hp. unfold key_of. by rewrite Hp. Qed.

(** Mutating an entry through a pointer keeps its key and type: [key_] and
    [type_] have no setters after construction. *)
Definition store_le (h h' : Heap) : Prop :=
  forall p s, h !! p = Some s ->
    exists s', h' !! p = Some s' /\ sle_key s' = sle_key s /\ sle_type s' = sle_type s.

#[export] Instance store_le_preorder : PreOrder store_le.
Proof.
  split; [intros h p s Hp; by exists s|].
  intros h1 h2 h3 H12 H23 p s (s2 & (s3 & ? & ? & ?)%H23 & ? & ?)%H12.
  exists s3; naive_solver congruence.
Qed.

Lemma alloc_fresh h s : h !! (alloc h s).1 = None.
Proof. apply not_elem_of_dom, is_fresh. Qed.

Lemma alloc_lookup h s : (alloc h s).2 !! (alloc h s).1 = Some s.
Proof. simpl. by rewrite lookup_insert_eq. Qed.

Lemma alloc_other h s p s' : h !! p = Some s' -> (alloc h s).2 !! p = Some s'.
Proof.
  intros Hp. simpl. rewrite lookup_insert_ne; [done|].
  intros E. pose proof (alloc_fresh h s) as Hf. simpl in Hf. congruence.
Qed.

(** The field accessors of [STObject] the code uses. *)
Definition getFieldU (f : string) (s : SLE) : N :=
  match sle_fields s !! f with Some (VUInt n) => n | _ => 0%N end.

Definition getFieldV256 (f : string) (s : SLE) : list N :=
  match sle_fields s !! f with Some (VVector256 l) => l | _ => [] end.

Definition getFieldVL (f : string) (s : SLE) : list Z :=
  match sle_fields s !! f with Some (VVL b) => b | _ => [] end.

Definition getFieldArray (f : string) (s : SLE) : list (gmap string STPrim) :=
  match sle_fields s !! f with Some (VArray l) => l | _ => [] end.

Definition isFieldPresent (f : string) (s : SLE) : bool :=
  match sle_fields s !! f with Some _ => true | None => false end.

Definition makeFieldAbsent (f : string) (s : SLE) : SLE :=
  mkSLE (sle_type s) (sle_key s) (delete f (sle_fields s)).

Definition setField (f : string) (v : STValue) (s : SLE) : SLE :=
  mkSLE (sle_type s) (sle_key s) (<[f := v]> (sle_fields s)).
