(* ===== verification/Views.v ===== *)
(** * The view interfaces: [ReadView] and [RawView]

    Every ledger view (a closed [Ledger], an [OpenView], the sandboxes built
    on [ApplyViewBase]) is stacked on another view and presents the two
    abstract classes of ReadView.h and RawView.h.  The classes below are
    those interfaces; the [Laws] classes say what an implementation promises
    to the view stacked on top of it: it behaves as the finite map
    [rv_map] of its entries. [rv_ptrs] is the set of shared entries the view
    holds: the map of a view depends on the store at these locations only. *)

From S2P Require Import Prelude LedgerEntry.

Class ReadView (V : Type) : Type := {
  rv_exists : Heap -> V -> Keylet -> bool;
  rv_read : Heap -> V -> Keylet -> option SLE;
  rv_succ : Heap -> V -> N -> option N -> option N
}.

Class RawView (V : Type) : Type := {
  raw_erase : Heap -> V -> N -> result V;
  raw_insert : Heap -> V -> N -> result V;
  raw_replace : Heap -> V -> N -> result V;
  raw_destroyXRP : V -> Z -> V
}.

(** The entry a keylet selects from a map of entries. *)
Definition map_read (m : gmap N SLE) (k : Keylet) : option SLE :=
  match m !! kl_key k with
  | Some s => if check k s then Some s else None
  | None => None
  end.

(** What a read-only view promises.  [rv_exists] may skip the type check of
    the keylet (a closed ledger does), so it is only bounded by [rv_read]
    from below and by the presence of the key from above. *)
Class ReadViewLaws (V : Type) `{ReadView V} : Type := {
  rv_wf : Heap -> V -> Prop;
  rv_map : Heap -> V -> gmap N SLE;
  rv_ptrs : V -> gset N;
  rv_ptrs_dom h v : rv_wf h v -> rv_ptrs v ⊆ dom h;
  rv_frame h h' v : rv_wf h v -> (forall p, p ∈ rv_ptrs v -> h' !! p = h !! p) ->
    rv_wf h' v /\ rv_map h' v = rv_map h v;
  rv_map_key h v k s : rv_wf h v -> rv_map h v !! k = Some s -> sle_key s = k;
  rv_read_spec h v k : rv_wf h v -> key_ok (kl_key k) ->
    rv_read h v k = map_read (rv_map h v) k;
  rv_map_ok h v k s : rv_wf h v -> rv_map h v !! k = Some s -> key_ok k;
  rv_exists_sound h v k : rv_wf h v -> is_uint256 (kl_key k) -> rv_exists h v k = true ->
    is_Some (rv_map h v !! kl_key k);
  rv_exists_complete h v k : rv_wf h v -> is_uint256 (kl_key k) ->
    is_Some (map_read (rv_map h v) k) -> rv_exists h v k = true;
  rv_succ_spec h v key last : rv_wf h v -> is_uint256 key ->
    is_succ (fun k => is_Some (rv_map h v !! k)) key last (rv_succ h v key last)
}.

(** Views whose [sles] range visits their own entries: a closed ledger and an
    [OpenView].  ([ApplyViewBase] forwards the range to its base.) *)
Class SlesView (V : Type) : Type := {
  rv_sles : Heap -> V -> result (list SLE);
  rv_slesUpperBound : Heap -> V -> N -> result (list SLE)
}.

Class SlesViewLaws (V : Type) `{SlesView V, ReadViewLaws V} : Prop := {
  rv_sles_spec h v : rv_wf h v -> rv_sles h v = Ok (ordered (rv_map h v)).*2;
  rv_slesUpperBound_spec h v k : rv_wf h v -> is_uint256 k ->
    rv_slesUpperBound h v k = Ok (upper_bound (rv_map h v) k).*2
}.

(** What a target of raw changes promises: under the documented
    preconditions the change succeeds and is the change of the map.
    [raw_takes old s] is what the target asks of an entry [s] that is put in
    the place of [old]: a buffer asks nothing, a closed ledger that the entry
    survives its binary form and does not collide with the one it replaces. *)
Class RawViewLaws (V : Type) `{RawView V, ReadViewLaws V} : Type := {
  rv_destroyed : V -> Z;
  raw_takes : option SLE -> SLE -> Prop;
  raw_insert_spec h v p s : rv_wf h v -> h !! p = Some s -> key_ok (sle_key s) ->
    rv_map h v !! sle_key s = None -> raw_takes None s ->
    exists v', raw_insert h v p = Ok v' /\ rv_wf h v' /\
      rv_map h v' = <[sle_key s := s]> (rv_map h v) /\ rv_destroyed v' = rv_destroyed v;
  raw_replace_spec h v p s : rv_wf h v -> h !! p = Some s -> key_ok (sle_key s) ->
    is_Some (rv_map h v !! sle_key s) -> raw_takes (rv_map h v !! sle_key s) s ->
    exists v', raw_replace h v p = Ok v' /\ rv_wf h v' /\
      rv_map h v' = <[sle_key s := s]> (rv_map h v) /\ rv_destroyed v' = rv_destroyed v;
  raw_erase_spec h v p s : rv_wf h v -> h !! p = Some s -> key_ok (sle_key s) ->
    is_Some (rv_map h v !! sle_key s) ->
    exists v', raw_erase h v p = Ok v' /\ rv_wf h v' /\
      rv_map h v' = delete (sle_key s) (rv_map h v) /\ rv_destroyed v' = rv_destroyed v;
  raw_destroyXRP_spec h v z : rv_wf h v ->
    rv_wf h (raw_destroyXRP v z) /\ rv_map h (raw_destroyXRP v z) = rv_map h v /\
    rv_destroyed (raw_destroyXRP v z) = (rv_destroyed v + z)%Z
}.

Arguments raw_takes V {_ _ _ _} _ _ : assert.

(** ** Buffered changes over a map

    Both state tables keep a map of pending items over a base.  [overlay]
    is the map they denote, given what one item does to the base entry. *)
Section overlay.
Context {X : Type} (eff : X -> option SLE -> option SLE).

Definition overlay (items : gmap N X) (m : gmap N SLE) : gmap N SLE :=
  merge (fun ox os => match ox with Some x => eff x os | None => os end) items m.

Lemma lookup_overlay items m k :
  overlay items m !! k =
  match items !! k with Some x => eff x (m !! k) | None => m !! k end.
Proof.
  unfold overlay. rewrite lookup_merge. unfold diag_None.
  destruct (items !! k), (m !! k); done.
Qed.

Lemma overlay_empty m : overlay ∅ m = m.
Proof. apply map_eq. intros k. by rewrite lookup_overlay, lookup_empty. Qed.

(** Setting an item of [k] whose effect is [o] is changing [k] to [o]. *)
Lemma overlay_insert items m k x o :
  eff x (m !! k) = o ->
  overlay (<[k := x]> items) m = partial_alter (fun _ => o) k (overlay items m).
Proof.
  intros E. apply map_eq. intros j. rewrite lookup_overlay.
  destruct (decide (k = j)) as [->|Hne].
  - by rewrite lookup_insert_eq, lookup_partial_alter_eq.
  - rewrite lookup_insert_ne, lookup_partial_alter_ne by done.
    by rewrite lookup_overlay.
Qed.

Lemma overlay_insert_Some items m k x s :
  eff x (m !! k) = Some s ->
  overlay (<[k := x]> items) m = <[k := s]> (overlay items m).
Proof. apply overlay_insert. Qed.

Lemma overlay_insert_None items m k x :
  eff x (m !! k) = None ->
  overlay (<[k := x]> items) m = delete k (overlay items m).
Proof. apply overlay_insert. Qed.

Lemma overlay_delete items m k :
  overlay (delete k items) m = partial_alter (fun _ => m !! k) k (overlay items m).
Proof.
  apply map_eq. intros j. rewrite lookup_overlay.
  destruct (decide (k = j)) as [->|Hne].
  - by rewrite lookup_delete_eq, lookup_partial_alter_eq.
  - rewrite lookup_delete_ne, lookup_partial_alter_ne by done.
    by rewrite lookup_overlay.
Qed.

Lemma overlay_delete_None items m k :
  m !! k = None -> overlay (delete k items) m = delete k (overlay items m).
Proof. intros E. rewrite overlay_delete, E. done. Qed.
End overlay.

(** ** Replaying buffered items into a target

    The [apply] loops of both tables visit the items in key order and send
    each to the target.  If one visit does to the target's map what [eff]
    says, the whole loop turns the map of the target into the overlay. *)
Section replay.
Context {V : Type} `{RawViewLaws V} {X : Type}.
Context (h : Heap) (eff : X -> option SLE -> option SLE).
Context (step : V -> N * X -> result V) (pre : N -> X -> option SLE -> Prop).

Hypothesis step_spec : forall v k x,
  rv_wf h v -> pre k x (rv_map h v !! k) ->
  exists v', step v (k, x) = Ok v' /\ rv_wf h v' /\
    rv_map h v' = partial_alter (eff x) k (rv_map h v) /\
    rv_destroyed v' = rv_destroyed v.

Lemma replay_list l v :
  NoDup l.*1 -> rv_wf h v ->
  (forall k x, (k, x) ∈ l -> pre k x (rv_map h v !! k)) ->
  exists v', foldM step v l = Ok v' /\ rv_wf h v' /\
    rv_map h v' = overlay eff (list_to_map l) (rv_map h v) /\
    rv_destroyed v' = rv_destroyed v.
Proof.
  revert v. induction l as [|[k x] l IH]; intros v Hnd Hwf Hpre; simpl.
  - exists v. by rewrite overlay_empty.
  - apply NoDup_cons in Hnd as [Hk Hnd].
    destruct (step_spec v k x) as (v1 & -> & Hwf1 & Hm1 & Hd1);
      [done|apply Hpre; by left|].
    destruct (IH v1) as (v2 & E2 & Hwf2 & Hm2 & Hd2); [done|done| |].
    { intros k' x' Hin. rewrite Hm1, lookup_partial_alter_ne.
      - apply Hpre. by right.
      - intros ->. apply Hk. by apply (list_elem_of_fmap_2 fst) in Hin. }
    exists v2. split_and!; [done|done| |congruence].
    rewrite Hm2, Hm1. apply map_eq. intros j. rewrite !lookup_overlay.
    destruct (decide (k = j)) as [->|Hne].
    + rewrite lookup_insert_eq, lookup_partial_alter_eq.
      by rewrite not_elem_of_list_to_map_1.
    + by rewrite lookup_insert_ne, lookup_partial_alter_ne.
Qed.

Lemma replay_ordered (items : gmap N X) v :
  rv_wf h v -> (forall k x, items !! k = Some x -> pre k x (rv_map h v !! k)) ->
  exists v', foldM step v (ordered items) = Ok v' /\ rv_wf h v' /\
    rv_map h v' = overlay eff items (rv_map h v) /\
    rv_destroyed v' = rv_destroyed v.
Proof.
  intros Hwf Hpre.
  destruct (replay_list (ordered items) v) as (v' & ? & ? & E & ?);
    [apply NoDup_fst_ordered|done| |].
  { intros k x ?%elem_of_ordered. by apply Hpre. }
  exists v'. split_and!; try done. rewrite E. f_equal.
  apply map_eq. intros k. apply option_eq. intros x.
  rewrite <-elem_of_list_to_map by apply NoDup_fst_ordered.
  apply elem_of_ordered.
Qed.
End replay.

(** ** Successor queries over buffered changes

    [ApplyStateTable::succ] and [RawStateTable::succ] are the same code over
    different item types; [erased] tells the items that hide a base entry. *)
Section succ_merge.
Context {V : Type} `{ReadView V} {X : Type} (erased : X -> bool).

(** The do-while loop: the base successor that is not erased here. *)
Fixpoint succ_base (fuel : nat) (h : Heap) (base : V) (items : gmap N X)
    (next : N) (last : option N) : option N :=
  match fuel with
  | O => None
  | S fuel =>
      match rv_succ h base next last with
      | None => None
      | Some n =>
          match items !! n with
          | Some x => if erased x then succ_base fuel h base items n last else Some n
          | None => Some n
          end
      end
  end.

(** The for loop from [upper_bound(key)]: the first item that is not an
    erase, if it is below what the base gave. *)
Fixpoint succ_items (l : list (N * X)) (next : option N) : option N :=
  match l with
  | [] => next
  | (k, x) :: l =>
      if erased x then succ_items l next
      else match next with
           | None => Some k
           | Some n => if (k <? n)%N then Some k else Some n
           end
  end.

(** The do-while loop runs at most once per erased item and once more. *)
Definition succ_merge (h : Heap) (base : V) (items : gmap N X) (key : N)
    (last : option N) : option N :=
  let next := succ_base (S (size items)) h base items key last in
  let next := succ_items (upper_bound items key) next in
  match last, next with
  | Some l, Some n => if (l <=? n)%N then None else next
  | _, _ => next
  end.
End succ_merge.

Section succ_merge_spec.
Context {V : Type} `{ReadViewLaws V} {X : Type} (erased : X -> bool).
Implicit Types (items : gmap N X).

Definition hidden items (k : N) : Prop :=
  exists x, items !! k = Some x /\ erased x = true.
Definition shown items (k : N) : Prop :=
  exists x, items !! k = Some x /\ erased x = false.

Definition items_after items (k : N) : gmap N X :=
  filter (fun x => (k < x.1)%N) items.

Lemma items_after_shrinks items k n x :
  items !! n = Some x -> (k < n)%N ->
  (size (items_after items n) < size (items_after items k))%nat.
Proof.
  intros Hn Hlt. apply map_subset_size. split.
  - apply map_filter_subseteq_ext. intros i y _. simpl. lia.
  - intros Hsub. assert (items_after items k !! n = Some x) as E.
    { apply map_lookup_filter_Some. simpl. split; [done|lia]. }
    pose proof (lookup_weaken _ _ _ _ E Hsub) as E2.
    apply map_lookup_filter_Some in E2 as [_ E2]. simpl in E2. lia.
Qed.

Lemma succ_base_spec fuel h base items next last :
  rv_wf h base -> is_uint256 next -> (size (items_after items next) < fuel)%nat ->
  is_succ (fun k => is_Some (rv_map h base !! k) /\ ~ hidden items k) next last
    (succ_base erased fuel h base items next last).
Proof.
  intros Hwf. revert next. induction fuel as [|fuel IH]; intros next Hu Hf; [lia|].
  simpl. pose proof (rv_succ_spec h base next last Hwf Hu) as Hs.
  destruct (rv_succ h base next last) as [n|]; simpl in Hs;
    [|intros k' [Hk' _]; by apply Hs].
  destruct Hs as (Hin & Hlt & Hlast & Hmin).
  assert (~ hidden items n -> is_succ (fun k => is_Some (rv_map h base !! k) /\
    ~ hidden items k) next last (Some n)) as Hdone.
  { intros Hh. split_and!; try done. intros k' [Hk' _]. by apply Hmin. }
  destruct (items !! n) as [x|] eqn:Hn;
    [destruct (erased x) eqn:He|];
    [|apply Hdone; intros (? & ? & ?); congruence..].
  pose proof (items_after_shrinks items next n x Hn Hlt).
  destruct Hin as [sn Hsn]. destruct (rv_map_ok _ _ _ _ Hwf Hsn) as [_ Hun].
  specialize (IH n Hun ltac:(lia)).
  assert (forall k', (is_Some (rv_map h base !! k') /\ ~ hidden items k') ->
    (next < k')%N -> (n < k')%N) as Hskip.
  { intros k' [Hk' Hh'] Hlt'. specialize (Hmin _ Hk' Hlt').
    assert (n <> k'); [|lia]. intros ->. apply Hh'. by exists x. }
  destruct (succ_base erased fuel h base items n last) as [r|]; simpl in *.
  - destruct IH as ([? ?] & ? & ? & Hm). split_and!; try done; [lia|].
    intros k' Hk' Hlt'. apply Hm; [done|]. by apply Hskip.
  - intros k' Hk' Hlt'. apply IH; [done|]. by apply Hskip.
Qed.

(** The first item not erased among sorted items, against a candidate. *)
Lemma succ_items_spec (l : list (N * X)) next :
  StronglySorted key_lt l ->
  match succ_items erased l next with
  | Some r => (next = Some r \/ exists x, (r, x) ∈ l /\ erased x = false) /\
      (forall n, next = Some n -> (r <= n)%N) /\
      (forall k x, (k, x) ∈ l -> erased x = false -> (r <= k)%N)
  | None => next = None /\ forall k x, (k, x) ∈ l -> erased x = true
  end.
Proof.
  induction 1 as [|[k x] l Hs IH Hall]; simpl.
  - destruct next as [n|]; [|split; [done|]; by intros k x ?%not_elem_of_nil].
    split_and!; [by left|intros ? [= <-]; lia|by intros k x ?%not_elem_of_nil].
  - destruct (erased x) eqn:He.
    + destruct (succ_items erased l next) as [r|].
      * destruct IH as (Hr & Hn & Hl). split_and!; [|done|].
        { destruct Hr as [->|(y & Hy & ?)]; [by left|right; exists y].
          split; [by right|done]. }
        intros k' x' [[= -> ->]|Hin]%elem_of_cons ?; [congruence|by eapply Hl].
      * destruct IH as [-> Hl]. split; [done|].
        intros k' x' [[= -> ->]|Hin]%elem_of_cons; [done|by eapply Hl].
    + assert (forall k' x', (k', x') ∈ (k, x) :: l -> (k <= k')%N) as Hmin.
      { intros k' x' [[= -> ->]|Hin]%elem_of_cons; [lia|].
        rewrite Forall_forall in Hall. specialize (Hall _ Hin).
        unfold key_lt in Hall. simpl in Hall. lia. }
      assert (exists y, (k, y) ∈ (k, x) :: l /\ erased y = false) as Hk.
      { exists x. split; [by left|done]. }
      assert (forall r, (r <= k)%N -> forall k' x', (k', x') ∈ (k, x) :: l ->
        erased x' = false -> (r <= k')%N) as Hle.
      { intros r Hr k' x' Hin _. specialize (Hmin _ _ Hin). lia. }
      destruct next as [n|]; [destruct (N.ltb_spec k n)|]; split_and!;
        try (by right); try (by left); try (intros ? [= <-]); try lia;
        try done; apply Hle; lia.
Qed.

Lemma succ_merge_spec h base items key last :
  rv_wf h base -> is_uint256 key ->
  is_succ (fun k => shown items k \/ (is_Some (rv_map h base !! k) /\ ~ hidden items k))
    key last (succ_merge erased h base items key last).
Proof.
  intros Hwf Hu. unfold succ_merge.
  assert (size (items_after items key) < S (size items))%nat as Hfuel.
  { apply Nat.lt_succ_r, map_subseteq_size, map_filter_subseteq. }
  pose proof (succ_base_spec (S (size items)) h base items key last Hwf Hu Hfuel) as Hb.
  pose proof (succ_items_spec (upper_bound items key)
    (succ_base erased (S (size items)) h base items key last)
    (upper_bound_sorted _ _)) as Hi.
  set (nb := succ_base erased (S (size items)) h base items key last) in *.
  assert (forall k, shown items k -> (key < k)%N ->
    exists x, (k, x) ∈ upper_bound items key /\ erased x = false) as Hsh.
  { intros k (x & Hk & ?) Hlt. exists x. by rewrite elem_of_upper_bound. }
  destruct (succ_items erased (upper_bound items key) nb) as [r|].
  - destruct Hi as (Hr & Hn & Hl).
    assert (shown items r \/ is_Some (rv_map h base !! r) /\ ~ hidden items r) as HP.
    { destruct Hr as [E|(x & Hx & ?)].
      - right. rewrite E in Hb. apply Hb.
      - left. exists x. by apply elem_of_upper_bound in Hx as [_ ?]. }
    assert (key < r)%N as Hlt.
    { destruct Hr as [E|(x & Hx & ?)]; [rewrite E in Hb; apply Hb|].
      by apply elem_of_upper_bound in Hx as [? _]. }
    assert (forall k', shown items k' \/ (is_Some (rv_map h base !! k') /\
      ~ hidden items k') -> (key < k')%N ->
      (r <= k')%N \/ exists l, last = Some l /\ (l <= k')%N) as Hmin.
    { intros k' [Hs|Hb'] Hlt'.
      - left. destruct (Hsh _ Hs Hlt') as (x & ? & ?). by eapply Hl.
      - destruct nb as [n|]; [left|right; by apply Hb].
        destruct Hb as (_ & _ & _ & Hm). specialize (Hm _ Hb' Hlt').
        specialize (Hn _ eq_refl). lia. }
    destruct last as [l|]; [destruct (N.leb_spec l r)|]; simpl.
    + intros k' HP' Hlt'. exists l. split; [done|].
      destruct (Hmin _ HP' Hlt') as [?|(? & [= <-] & ?)]; lia.
    + split_and!; try done; [by intros ? [= <-]|].
      intros k' HP' Hlt'. destruct (Hmin _ HP' Hlt') as [?|(? & [= <-] & ?)]; lia.
    + split_and!; try done. intros k' HP' Hlt'.
      by destruct (Hmin _ HP' Hlt') as [?|(? & [=] & ?)].
  - destruct Hi as [E Hl]. rewrite E in Hb.
    assert (forall k', shown items k' \/ (is_Some (rv_map h base !! k') /\
      ~ hidden items k') -> (key < k')%N -> exists l, last = Some l /\ (l <= k')%N).
    { intros k' [Hs|Hb'] Hlt'; [|by apply Hb].
      destruct (Hsh _ Hs Hlt') as (x & Hx & ?).
      specialize (Hl _ _ Hx). congruence. }
    by destruct last.
Qed.
End succ_merge_spec.
