(* ===== verification/RawStateTable.v ===== *)
(** * The buffer of raw changes of an open ledger

    [detail::RawStateTable] (RawStateTable.h/.cpp): the entries an [OpenView]
    has changed over its base.  Each [items_] binding is an action and the
    shared entry it concerns; reads, successor queries and the merged [sles]
    iteration combine the items with the base. *)

From S2P Require Import Prelude LedgerEntry Views.

Inductive Action : Type := Erase | Insert | Replace.

#[export] Instance Action_eq_dec : EqDecision Action.
Proof. solve_decision. Defined.

Record SleAction : Type := mkSleAction { action : Action; sle : N }.

Record RawStateTable : Type := mkRawStateTable {
  items_ : gmap N SleAction;
  dropsDestroyed_ : Z
}.

Definition empty_table : RawStateTable := mkRawStateTable ∅ 0.

Definition set_items (t : RawStateTable) (m : gmap N SleAction) : RawStateTable :=
  mkRawStateTable m (dropsDestroyed_ t).

Definition is_erase (a : SleAction) : bool := bool_decide (action a = Erase).

Section with_base.
Context {V : Type} `{ReadView V}.

Definition exists_ (h : Heap) (base : V) (t : RawStateTable) (k : Keylet) : bool :=
  match items_ t !! kl_key k with
  | None => rv_exists h base k
  | Some item =>
      if decide (action item = Erase) then false
      else match h !! sle item with
           | Some s => if check k s then true else false
           | None => false
           end
  end.

Definition succ (h : Heap) (base : V) (t : RawStateTable) (key : N)
    (last : option N) : option N :=
  succ_merge is_erase h base (items_ t) key last.

Definition read (h : Heap) (base : V) (t : RawStateTable) (k : Keylet) : option SLE :=
  match items_ t !! kl_key k with
  | None => rv_read h base k
  | Some item =>
      if decide (action item = Erase) then None
      else match h !! sle item with
           | Some s => if check k s then Some s else None
           | None => None
           end
  end.
End with_base.

Definition erase (h : Heap) (t : RawStateTable) (p : N) : result RawStateTable :=
  k ← key_of h p;
  match items_ t !! k with
  | None => Ok (set_items t (<[k := mkSleAction Erase p]> (items_ t)))
  | Some item =>
      match action item with
      | Erase => Throw "RawStateTable::erase: already erased"
      | Insert => Ok (set_items t (delete k (items_ t)))
      | Replace => Ok (set_items t (<[k := mkSleAction Erase p]> (items_ t)))
      end
  end.

Definition insert (h : Heap) (t : RawStateTable) (p : N) : result RawStateTable :=
  k ← key_of h p;
  match items_ t !! k with
  | None => Ok (set_items t (<[k := mkSleAction Insert p]> (items_ t)))
  | Some item =>
      match action item with
      | Erase => Ok (set_items t (<[k := mkSleAction Replace p]> (items_ t)))
      | Insert => Throw "RawStateTable::insert: already inserted"
      | Replace => Throw "RawStateTable::insert: already exists"
      end
  end.

Definition replace (h : Heap) (t : RawStateTable) (p : N) : result RawStateTable :=
  k ← key_of h p;
  match items_ t !! k with
  | None => Ok (set_items t (<[k := mkSleAction Replace p]> (items_ t)))
  | Some item =>
      match action item with
      | Erase => Throw "RawStateTable::replace: was erased"
      | Insert | Replace =>
          Ok (set_items t (<[k := mkSleAction (action item) p]> (items_ t)))
      end
  end.

Definition destroyXRP (t : RawStateTable) (fee : Z) : RawStateTable :=
  mkRawStateTable (items_ t) (dropsDestroyed_ t + fee).

(** One pass of the loop of [apply]. *)
Definition apply_item {V} `{RawView V} (h : Heap) (to : V) (elem : N * SleAction) : result V :=
  match action elem.2 with
  | Erase => raw_erase h to (sle elem.2)
  | Insert => raw_insert h to (sle elem.2)
  | Replace => raw_replace h to (sle elem.2)
  end.

Definition apply {V} `{RawView V} (h : Heap) (t : RawStateTable) (to : V) : result V :=
  foldM (apply_item h) (raw_destroyXRP to (dropsDestroyed_ t)) (ordered (items_ t)).

(** ** The merged [sles] iterator

    [SlesIterImpl]: [iter0_] ranges over the base entries and [iter1_] over
    the items; the cached [sle0_] / [sle1_] are the entries under them, null
    at the end of the range. *)
Record SlesIterImpl : Type := mkIter {
  iter1_ : list (N * SleAction);
  iter0_ : list SLE
}.

Definition sle0_ (it : SlesIterImpl) : option SLE := head (iter0_ it).
Definition sle1_ (h : Heap) (it : SlesIterImpl) : option SLE :=
  x ← head (iter1_ it); h !! sle x.2.

Definition inc0 (it : SlesIterImpl) : SlesIterImpl := mkIter (iter1_ it) (tail (iter0_ it)).
Definition inc1 (it : SlesIterImpl) : SlesIterImpl := mkIter (tail (iter1_ it)) (iter0_ it).

(** [skip], by recursion on the items left; dereferencing a null [sle0_] or
    [sle1_] is the undefined behaviour the [Throw] stands for. *)
Fixpoint skip_loop (h : Heap) (l1 : list (N * SleAction)) (l0 : list SLE)
    : result SlesIterImpl :=
  match l1 with
  | [] => Ok (mkIter [] l0)
  | (_, item) :: l1' =>
      if decide (action item = Erase) then
        match l0, h !! sle item with
        | s0 :: l0', Some s1 =>
            if (sle_key s0 =? sle_key s1)%N then
              match l0' with
              | [] => Ok (mkIter l1' [])
              | _ => skip_loop h l1' l0'
              end
            else Ok (mkIter l1 l0)
        | _, _ => Throw "null SLE"
        end
      else Ok (mkIter l1 l0)
  end.

Definition skip (h : Heap) (it : SlesIterImpl) : result SlesIterImpl :=
  skip_loop h (iter1_ it) (iter0_ it).

(** The constructor. *)
Definition makeIter (h : Heap) (iter1 : list (N * SleAction)) (iter0 : list SLE)
    : result SlesIterImpl :=
  match iter1 with
  | [] => Ok (mkIter iter1 iter0)
  | _ => skip h (mkIter iter1 iter0)
  end.

Definition increment (h : Heap) (it : SlesIterImpl) : result SlesIterImpl :=
  match sle1_ h it, sle0_ it with
  | Some _, None => Ok (inc1 it)
  | None, Some _ => Ok (inc0 it)
  | Some s1, Some s0 =>
      if (sle_key s1 =? sle_key s0)%N then skip h (inc0 (inc1 it))
      else if (sle_key s1 <? sle_key s0)%N then skip h (inc1 it)
      else skip h (inc0 it)
  | None, None => Throw "null SLE"
  end.

Definition dereference (h : Heap) (it : SlesIterImpl) : option SLE :=
  match sle1_ h it, sle0_ it with
  | None, s0 => s0
  | s1, None => s1
  | Some s1, Some s0 => if (sle_key s1 <=? sle_key s0)%N then Some s1 else Some s0
  end.

(** Equality with the end iterator. *)
Definition at_end (it : SlesIterImpl) : bool :=
  match iter1_ it, iter0_ it with [], [] => true | _, _ => false end.

(** A range-based for loop from an iterator to the end. *)
Fixpoint collect (fuel : nat) (h : Heap) (it : SlesIterImpl) : result (list SLE) :=
  if at_end it then Ok []
  else match fuel with
       | O => Throw "out of fuel"
       | S fuel =>
           s ← from_option_throw "null SLE" (dereference h it);
           it' ← increment h it;
           rest ← collect fuel h it';
           Ok (s :: rest)
       end.

(** Every increment drops an element of one of the two ranges. *)
Definition collect_all (h : Heap) (it : SlesIterImpl) : result (list SLE) :=
  collect (length (iter1_ it) + length (iter0_ it)) h it.

Section sles_range.
Context {V : Type} `{SlesView V}.

Definition slesBegin (h : Heap) (base : V) (t : RawStateTable) : result SlesIterImpl :=
  l0 ← rv_sles h base; makeIter h (ordered (items_ t)) l0.

Definition slesUpperBound (h : Heap) (base : V) (t : RawStateTable) (k : N)
    : result SlesIterImpl :=
  l0 ← rv_slesUpperBound h base k; makeIter h (upper_bound (items_ t) k) l0.
End sles_range.

(** ** The map a table denotes over its base *)

Definition item_eff (h : Heap) (a : SleAction) (_ : option SLE) : option SLE :=
  match action a with Erase => None | Insert | Replace => h !! sle a end.

Definition table_ptrs (t : RawStateTable) : gset N :=
  list_to_set ((fun x => sle x.2) <$> map_to_list (items_ t)).

Section laws.
Context {V : Type} `{ReadViewLaws V}.
Implicit Types (h : Heap) (base : V) (t : RawStateTable).

Definition table_map h base t : gmap N SLE :=
  overlay (item_eff h) (items_ t) (rv_map h base).

(** The representation invariant: an item is filed under the key of its
    entry, and is an insertion exactly when the base lacks the key. *)
Record table_wf h base t : Prop := {
  wf_base : rv_wf h base;
  wf_item k a : items_ t !! k = Some a ->
    exists s, h !! sle a = Some s /\ sle_key s = k /\ key_ok k;
  wf_insert k a : items_ t !! k = Some a ->
    (action a = Insert <-> rv_map h base !! k = None)
}.

Lemma elem_of_table_ptrs t p :
  p ∈ table_ptrs t <-> exists k a, items_ t !! k = Some a /\ sle a = p.
Proof.
  unfold table_ptrs. rewrite elem_of_list_to_set, list_elem_of_fmap.
  setoid_rewrite elem_of_map_to_list'. split.
  - intros ([k a] & -> & ?). eauto.
  - intros (k & a & ? & <-). by exists (k, a).
Qed.

Lemma table_ptrs_dom h base t : table_wf h base t -> table_ptrs t ⊆ dom h.
Proof.
  intros Hwf p (k & a & Hk & <-)%elem_of_table_ptrs.
  destruct (wf_item _ _ _ Hwf _ _ Hk) as (s & Hs & _). apply elem_of_dom. eauto.
Qed.

Lemma table_frame h h' base t :
  table_wf h base t -> (forall p, p ∈ rv_ptrs base ∪ table_ptrs t -> h' !! p = h !! p) ->
  table_wf h' base t /\ table_map h' base t = table_map h base t.
Proof.
  intros Hwf Heq.
  destruct (rv_frame h h' base (wf_base _ _ _ Hwf)) as [Hb Hm]; [set_solver|].
  assert (forall k a, items_ t !! k = Some a -> h' !! sle a = h !! sle a) as Hp.
  { intros k a Hk. apply Heq, elem_of_union_r, elem_of_table_ptrs. eauto. }
  split.
  - split; [done| |].
    + intros k a Hk. rewrite (Hp _ _ Hk). by eapply wf_item.
    + intros k a Hk. rewrite Hm. by eapply wf_insert.
  - apply map_eq. intros k. unfold table_map. rewrite !lookup_overlay, Hm.
    destruct (items_ t !! k) as [a|] eqn:Hk; [|done].
    unfold item_eff. by rewrite (Hp _ _ Hk).
Qed.

Lemma table_map_key h base t k s :
  table_wf h base t -> table_map h base t !! k = Some s -> sle_key s = k.
Proof.
  intros Hwf. unfold table_map. rewrite lookup_overlay.
  destruct (items_ t !! k) as [a|] eqn:Hk.
  - destruct (wf_item _ _ _ Hwf _ _ Hk) as (s' & Hs & Hkey & _).
    unfold item_eff. destruct (action a); naive_solver congruence.
  - by apply rv_map_key, (wf_base _ _ _ Hwf).
Qed.

Lemma table_map_ok h base t k s :
  table_wf h base t -> table_map h base t !! k = Some s -> key_ok k.
Proof.
  intros Hwf. unfold table_map. rewrite lookup_overlay.
  destruct (items_ t !! k) as [a|] eqn:Hk; [intros _|by apply rv_map_ok, (wf_base _ _ _ Hwf)].
  by destruct (wf_item _ _ _ Hwf _ _ Hk) as (? & _ & _ & ?).
Qed.

Lemma read_map h base t k :
  table_wf h base t -> key_ok (kl_key k) ->
  read h base t k = map_read (table_map h base t) k.
Proof.
  intros Hwf Hz. unfold read, map_read, table_map. rewrite lookup_overlay.
  destruct (items_ t !! kl_key k) as [a|] eqn:Hk.
  - unfold item_eff. destruct (action a); by case_decide.
  - by apply rv_read_spec; [apply (wf_base _ _ _ Hwf)|].
Qed.

Lemma exists_sound h base t k :
  table_wf h base t -> is_uint256 (kl_key k) -> exists_ h base t k = true ->
  is_Some (table_map h base t !! kl_key k).
Proof.
  intros Hwf Hu. unfold exists_, table_map. rewrite lookup_overlay.
  destruct (items_ t !! kl_key k) as [a|] eqn:Hk.
  - unfold item_eff. destruct (action a); case_decide; try done;
      by destruct (h !! sle a); eauto.
  - by apply rv_exists_sound; [apply (wf_base _ _ _ Hwf)|].
Qed.

Lemma exists_complete h base t k :
  table_wf h base t -> is_uint256 (kl_key k) -> is_Some (map_read (table_map h base t) k) ->
  exists_ h base t k = true.
Proof.
  intros Hwf Hu. unfold exists_, map_read, table_map. rewrite lookup_overlay.
  destruct (items_ t !! kl_key k) as [a|] eqn:Hk.
  - unfold item_eff. destruct (action a); case_decide; try done;
      intros [s Hs]; destruct (h !! sle a); try done; by destruct (check _ _).
  - intros Hs. apply rv_exists_complete; [apply (wf_base _ _ _ Hwf)|done|].
    unfold map_read. done.
Qed.

Lemma succ_spec h base t key last :
  table_wf h base t -> is_uint256 key ->
  is_succ (fun k => is_Some (table_map h base t !! k)) key last (succ h base t key last).
Proof.
  intros Hwf Hu. unfold succ. eapply is_succ_ext;
    [|apply succ_merge_spec; [apply (wf_base _ _ _ Hwf)|done]].
  intros k. unfold shown, hidden, table_map, is_erase. rewrite lookup_overlay.
  destruct (items_ t !! k) as [a|] eqn:Hk; [|naive_solver].
  destruct (wf_item _ _ _ Hwf _ _ Hk) as (s & Hs & _). unfold item_eff.
  destruct (decide (action a = Erase)) as [Ha|Ha]; [rewrite Ha|].
  - split; [|by intros []]. intros [(x & [= <-] & Hx)|[_ []]].
    + by rewrite Ha in Hx.
    + exists a. by rewrite Ha.
  - split; [|by left; exists a; rewrite bool_decide_eq_false].
    by destruct (action a); rewrite ?Hs.
Qed.

(** Filing an item whose action agrees with the base keeps the invariant. *)
Lemma table_wf_insert h base t p s a :
  table_wf h base t -> h !! p = Some s -> key_ok (sle_key s) ->
  (a = Insert <-> rv_map h base !! sle_key s = None) ->
  table_wf h base (set_items t (<[sle_key s := mkSleAction a p]> (items_ t))).
Proof.
  intros [Hb Hi Ha] Hp Hz Hact. split; [done|intros k x..]; simpl;
    rewrite lookup_insert_Some; intros [[<- <-]|[? ?]]; simpl; eauto.
Qed.

Lemma table_wf_delete h base t k :
  table_wf h base t -> table_wf h base (set_items t (delete k (items_ t))).
Proof.
  intros [Hb Hi Ha]. split; [done|intros k' x..]; simpl;
    rewrite lookup_delete_Some; intros [? ?]; eauto.
Qed.

Lemma lookup_table_map h base t k :
  table_map h base t !! k =
  match items_ t !! k with
  | Some a => match action a with Erase => None | _ => h !! sle a end
  | None => rv_map h base !! k
  end.
Proof. unfold table_map. rewrite lookup_overlay. by destruct (items_ t !! k). Qed.

Lemma insert_map h base t p s :
  table_wf h base t -> h !! p = Some s -> key_ok (sle_key s) ->
  table_map h base t !! sle_key s = None ->
  exists t', insert h t p = Ok t' /\ table_wf h base t' /\
    table_map h base t' = <[sle_key s := s]> (table_map h base t) /\
    dropsDestroyed_ t' = dropsDestroyed_ t.
Proof.
  intros Hwf Hp Hz. rewrite lookup_table_map. unfold insert.
  rewrite (key_of_Ok _ _ _ Hp); simpl.
  destruct (items_ t !! sle_key s) as [a|] eqn:Hk.
  - destruct (wf_item _ _ _ Hwf _ _ Hk) as (s' & Hs' & _).
    pose proof (wf_insert _ _ _ Hwf _ _ Hk) as Hins.
    destruct (action a) eqn:Hact; rewrite ?Hs'; intros E; try done.
    eexists. split_and!; [done| |by apply overlay_insert_Some|done].
    apply table_wf_insert; naive_solver.
  - intros E. eexists. split_and!; [done| |by apply overlay_insert_Some|done].
    apply table_wf_insert; naive_solver.
Qed.

Lemma replace_map h base t p s :
  table_wf h base t -> h !! p = Some s -> key_ok (sle_key s) ->
  is_Some (table_map h base t !! sle_key s) ->
  exists t', replace h t p = Ok t' /\ table_wf h base t' /\
    table_map h base t' = <[sle_key s := s]> (table_map h base t) /\
    dropsDestroyed_ t' = dropsDestroyed_ t.
Proof.
  intros Hwf Hp Hz. rewrite lookup_table_map. unfold replace.
  rewrite (key_of_Ok _ _ _ Hp); simpl.
  destruct (items_ t !! sle_key s) as [a|] eqn:Hk.
  - pose proof (wf_insert _ _ _ Hwf _ _ Hk) as Hins.
    destruct (action a) eqn:Hact; [by intros []|..]; intros _;
      (eexists; split_and!; [done| |by apply overlay_insert_Some|done]);
      apply table_wf_insert; naive_solver.
  - intros [s' E]. eexists. split_and!; [done| |by apply overlay_insert_Some|done].
    apply table_wf_insert; naive_solver.
Qed.

Lemma erase_map h base t p s :
  table_wf h base t -> h !! p = Some s -> key_ok (sle_key s) ->
  is_Some (table_map h base t !! sle_key s) ->
  exists t', erase h t p = Ok t' /\ table_wf h base t' /\
    table_map h base t' = delete (sle_key s) (table_map h base t) /\
    dropsDestroyed_ t' = dropsDestroyed_ t.
Proof.
  intros Hwf Hp Hz. rewrite lookup_table_map. unfold erase.
  rewrite (key_of_Ok _ _ _ Hp); simpl.
  destruct (items_ t !! sle_key s) as [a|] eqn:Hk.
  - pose proof (wf_insert _ _ _ Hwf _ _ Hk) as Hins.
    destruct (action a) eqn:Hact; [by intros []|..]; intros _.
    + eexists. split_and!; [done|by apply table_wf_delete| |done].
      apply overlay_delete_None. naive_solver.
    + eexists. split_and!; [done| |by apply overlay_insert_None|done].
      apply table_wf_insert; naive_solver.
  - intros [s' E]. eexists. split_and!; [done| |by apply overlay_insert_None|done].
    apply table_wf_insert; naive_solver.
Qed.
End laws.

(** Replaying a table into a target that shows the same entries as its base
    makes the target show the table's entries. *)
Section apply_laws.
Context {V W : Type} `{ReadViewLaws V} `{RawViewLaws W}.

Lemma apply_item_spec h (w : W) k a s :
  rv_wf h w -> h !! sle a = Some s -> sle_key s = k -> key_ok k ->
  (action a = Insert <-> rv_map h w !! k = None) ->
  (action a <> Erase -> raw_takes W (rv_map h w !! k) s) ->
  exists w', apply_item h w (k, a) = Ok w' /\ rv_wf h w' /\
    rv_map h w' = partial_alter (item_eff h a) k (rv_map h w) /\
    rv_destroyed w' = rv_destroyed w.
Proof.
  intros Hw Hs <- Hz Hact Htk. unfold apply_item, item_eff; simpl.
  assert (forall o, partial_alter (fun _ : option SLE => o) (sle_key s) (rv_map h w) =
    match o with Some x => <[sle_key s := x]> (rv_map h w)
               | None => delete (sle_key s) (rv_map h w) end) as Ho
    by (by intros [|]).
  destruct (action a) eqn:Ea; rewrite Ho, ?Hs.
  - apply raw_erase_spec; try done. apply not_eq_None_Some. naive_solver.
  - assert (rv_map h w !! sle_key s = None) as Hn by naive_solver. rewrite Hn in Htk.
    apply raw_insert_spec; try done. by apply Htk.
  - apply raw_replace_spec; try done; [apply not_eq_None_Some; naive_solver|by apply Htk].
Qed.

(** What a target asks of the entries of a table. *)
Definition takes_table h (base : V) t : Prop :=
  forall k a s, items_ t !! k = Some a -> action a <> Erase -> h !! sle a = Some s ->
    raw_takes W (rv_map h base !! k) s.

Lemma apply_map h (base : V) t (w : W) :
  table_wf h base t -> rv_wf h w -> rv_map h w = rv_map h base -> takes_table h base t ->
  exists w', apply h t w = Ok w' /\ rv_wf h w' /\
    rv_map h w' = table_map h base t /\
    rv_destroyed w' = (rv_destroyed w + dropsDestroyed_ t)%Z.
Proof.
  intros Hwf Hw Hm Htk. unfold apply.
  destruct (raw_destroyXRP_spec h w (dropsDestroyed_ t) Hw) as (Hw1 & Hm1 & Hd1).
  destruct (replay_ordered h (item_eff h) (apply_item h)
    (fun k a o => exists s, h !! sle a = Some s /\ sle_key s = k /\ key_ok k /\
       (action a = Insert <-> o = None) /\ (action a <> Erase -> raw_takes W o s))) with (items := items_ t)
    (v := raw_destroyXRP w (dropsDestroyed_ t)) as (w' & E & Hw' & Hm' & Hd');
    [|done| |].
  - intros v k a Hv (s & Hs & Hk & Hz & Ha & Ht). by eapply apply_item_spec.
  - intros k a Hk. destruct (wf_item _ _ _ Hwf _ _ Hk) as (s & ? & ? & ?).
    exists s. split_and!; try done; rewrite Hm1, Hm; [by eapply wf_insert|]. intros Hne. by eapply Htk.
  - exists w'. split_and!; [done|done| |lia].
    by rewrite Hm', Hm1, Hm.
Qed.
End apply_laws.

Arguments takes_table {V} W {_ _ _ _ _ _} _ _ _ : assert.

(** ** The merged iteration visits exactly the table's entries, in order *)

Definition sle_lt (s s' : SLE) : Prop := (sle_key s < sle_key s')%N.

Lemma SS_cons {A} (R : relation A) x l :
  StronglySorted R (x :: l) <-> (forall y, y ∈ l -> R x y) /\ StronglySorted R l.
Proof.
  split.
  - intros [? ?]%StronglySorted_inv. by rewrite <-Forall_forall.
  - intros [? ?]. constructor; [done|]. by rewrite Forall_forall.
Qed.

Section iteration.
Context (h : Heap).
Implicit Types (xs : list (N * SleAction)) (ys : list SLE) (s : SLE).

Record iter_inv xs ys : Prop := {
  ii_sorted1 : StronglySorted key_lt xs;
  ii_sorted0 : StronglySorted sle_lt ys;
  ii_item k a : (k, a) ∈ xs -> exists s, h !! sle a = Some s /\ sle_key s = k;
  ii_erase k a : (k, a) ∈ xs -> action a = Erase -> exists s, s ∈ ys /\ sle_key s = k
}.

(** What is left to visit. *)
Definition pending xs ys s : Prop :=
  (exists a, (sle_key s, a) ∈ xs /\ action a <> Erase /\ h !! sle a = Some s) \/
  (s ∈ ys /\ sle_key s ∉ xs.*1).

(** The iterator never rests on an entry its table has erased. *)
Definition skipped xs ys : Prop :=
  forall k a s xs' ys', xs = (k, a) :: xs' -> ys = s :: ys' ->
    action a = Erase -> sle_key s <> k.

Lemma iter_inv_tail1 k a xs ys :
  iter_inv ((k, a) :: xs) ys -> iter_inv xs ys.
Proof.
  intros [H1 H0 Hi He]. apply SS_cons in H1 as [_ ?].
  split; [done|done|intros; eapply Hi; by right|intros; eapply He; [by right|done]].
Qed.

Lemma iter_inv_tail0 s xs ys :
  iter_inv xs (s :: ys) -> (forall k a, (k, a) ∈ xs -> (sle_key s < k)%N) ->
  iter_inv xs ys.
Proof.
  intros [H1 H0 Hi He] Hlt. apply SS_cons in H0 as [_ ?].
  split; [done|done|done|]. intros k a Hin Ha.
  destruct (He k a Hin Ha) as (s' & [->|?]%elem_of_cons & <-); [|eauto].
  specialize (Hlt _ _ Hin). lia.
Qed.

Lemma ii_lt1 k a xs ys k' a' :
  iter_inv ((k, a) :: xs) ys -> (k', a') ∈ xs -> (k < k')%N.
Proof. intros [[H1 _]%SS_cons _ _ _] Hin. by specialize (H1 _ Hin). Qed.

Lemma ii_lt0 s xs ys s' :
  iter_inv xs (s :: ys) -> s' ∈ ys -> (sle_key s < sle_key s')%N.
Proof. intros [_ [H0 _]%SS_cons _ _] Hin. by specialize (H0 _ Hin). Qed.

Lemma fst_elem xs k a : (k, a) ∈ xs -> k ∈ xs.*1.
Proof. apply (list_elem_of_fmap_2 fst). Qed.

Lemma elem_fst xs k : k ∈ xs.*1 -> exists a, (k, a) ∈ xs.
Proof. intros ([k' a] & -> & ?)%list_elem_of_fmap. by exists a. Qed.

(** Dropping an erased entry from both ranges hides nothing else. *)
Lemma pending_erase k a s xs ys s' :
  iter_inv ((k, a) :: xs) (s :: ys) -> action a = Erase -> sle_key s = k ->
  pending ((k, a) :: xs) (s :: ys) s' <-> pending xs ys s'.
Proof.
  intros Hinv Ha <-. unfold pending. csimpl. split.
  - intros [(b & [[= _ ->]|Hb]%elem_of_cons & Hne & Hs)|[[->|Hs]%elem_of_cons Hk]].
    + done.
    + left; eauto.
    + destruct Hk. by left.
    + right. split; [done|]. intros ?. apply Hk. by right.
  - intros [(b & Hb & Hne & Hs)|[Hs Hk]].
    + left. exists b. split_and!; try done. by right.
    + right. split; [by right|]. intros [E|?]%elem_of_cons; [|done].
      pose proof (ii_lt0 _ _ _ _ Hinv Hs). lia.
Qed.

Lemma skip_spec xs ys :
  iter_inv xs ys ->
  exists xs' ys', skip_loop h xs ys = Ok (mkIter xs' ys') /\ iter_inv xs' ys' /\
    skipped xs' ys' /\ (length xs' + length ys' <= length xs + length ys)%nat /\
    (forall s, pending xs' ys' s <-> pending xs ys s).
Proof.
  revert ys. induction xs as [|[k a] xs IH]; intros ys Hinv; simpl.
  { exists [], ys. split_and!; try done. }
  case_decide as Ha; [|exists ((k, a) :: xs), ys; split_and!; try done;
    by intros ????? [= <- <- <-] _ ?].
  destruct (ii_item _ _ Hinv k a) as (s1 & Hs1 & Hk1); [by left|]. rewrite Hs1.
  destruct (ii_erase _ _ Hinv k a) as (s & Hs & Hks); [by left|done|].
  destruct ys as [|s0 ys]; [by apply not_elem_of_nil in Hs|].
  destruct (N.eqb_spec (sle_key s0) (sle_key s1)) as [E|E];
    [|exists ((k, a) :: xs), (s0 :: ys); split_and!; try done;
      intros ????? [= <- <- <-] [= <- <-]; congruence].
  assert (iter_inv xs ys) as Hinv'.
  { eapply iter_inv_tail0; [by eapply iter_inv_tail1|].
    intros k' a' Hin. pose proof (ii_lt1 _ _ _ _ _ _ Hinv Hin). lia. }
  assert (forall s', pending ((k, a) :: xs) (s0 :: ys) s' <-> pending xs ys s') as Hp
    by (intros; apply pending_erase; congruence).
  destruct ys as [|s0' ys'].
  - exists xs, []. split_and!; [done|done|done|simpl; lia|by intros; rewrite Hp].
  - destruct (IH _ Hinv') as (xs' & ys'' & -> & ? & ? & ? & Hp').
    exists xs', ys''. split_and!; try done; [simpl in *; lia|].
    intros s'. by rewrite Hp', Hp.
Qed.

(** One step: the entry under the iterator is the least one pending, and
    incrementing leaves the others. *)
Definition visits xs ys s xs' ys' : Prop :=
  pending xs ys s /\
  (forall s', pending xs ys s' <-> s' = s \/ pending xs' ys' s') /\
  (forall s', pending xs' ys' s' -> (sle_key s < sle_key s')%N).

Lemma pending_ge k xs ys s' :
  (forall k' a, (k', a) ∈ xs -> (k < k')%N) ->
  (forall s, s ∈ ys -> (k < sle_key s)%N) ->
  pending xs ys s' -> (k < sle_key s')%N.
Proof. intros H1 H0 [(a & Ha & _)|[Hs _]]; [by eapply H1|by apply H0]. Qed.

Lemma visit_item k a s xs ys ys' :
  iter_inv ((k, a) :: xs) ys -> action a <> Erase -> h !! sle a = Some s ->
  sle_key s = k -> (forall s', s' ∈ ys <-> s' ∈ ys' \/ s' ∈ ys /\ sle_key s' = k) ->
  (forall s', s' ∈ ys' -> (k < sle_key s')%N) ->
  visits ((k, a) :: xs) ys s xs ys'.
Proof.
  intros Hinv Ha Hs <- Hys Hlt.
  assert (pending ((sle_key s, a) :: xs) ys s) as Hp
    by (left; exists a; split_and!; [by left|done|done]).
  split_and!; [done| |].
  - intros s'. unfold pending; csimpl. split.
    + intros [(b & [[= E ->]|Hb]%elem_of_cons & Hne & Hs')|[Hin Hk]].
      * left. congruence.
      * right. left. eauto.
      * right. right. apply Hys in Hin as [?|[_ E]].
        -- split; [done|]. intros ?. apply Hk. by right.
        -- destruct Hk. rewrite E. by left.
    + intros [->|[(b & Hb & Hne & Hs')|[Hin Hk]]]; [done| |].
      * left. exists b. split_and!; try done. by right.
      * right. split; [apply Hys; by left|].
        intros [E|?]%elem_of_cons; [|done]. specialize (Hlt _ Hin). lia.
  - intros s'. apply pending_ge; [|done].
    intros k' a'. by apply (ii_lt1 _ _ _ _ _ _ Hinv).
Qed.

Lemma visit_base s xs ys :
  iter_inv xs (s :: ys) -> (forall k a, (k, a) ∈ xs -> (sle_key s < k)%N) ->
  visits xs (s :: ys) s xs ys.
Proof.
  intros Hinv Hlt.
  assert (sle_key s ∉ xs.*1) as Hk
    by (intros [a Hin]%elem_fst; specialize (Hlt _ _ Hin); lia).
  split_and!.
  - right. split; [by left|done].
  - intros s'. unfold pending. rewrite elem_of_cons. split; [naive_solver|].
    intros [->|[?|[? ?]]]; [right; split; [by left|done]|by left|right; eauto].
  - intros s'. apply pending_ge; [done|]. intros s''. by apply (ii_lt0 _ _ _ _ Hinv).
Qed.

Lemma skip_visits xs ys s xs1 ys1 :
  iter_inv xs1 ys1 -> visits xs ys s xs1 ys1 ->
  exists xs' ys', skip h (mkIter xs1 ys1) = Ok (mkIter xs' ys') /\
    iter_inv xs' ys' /\ skipped xs' ys' /\ visits xs ys s xs' ys' /\
    (length xs' + length ys' <= length xs1 + length ys1)%nat.
Proof.
  intros Hinv (Hp & Hi & Hl).
  destruct (skip_spec _ _ Hinv) as (xs' & ys' & ? & ? & ? & ? & Hp').
  exists xs', ys'. split_and!; try done. split_and!; [done|..].
  - intros s'. by rewrite Hp', Hi.
  - intros s' Hs'. by apply Hl, Hp'.
Qed.

(** Dereferencing and incrementing an iterator that is not at the end. *)
Definition steps xs ys : Prop :=
  exists s xs' ys', dereference h (mkIter xs ys) = Some s /\
    increment h (mkIter xs ys) = Ok (mkIter xs' ys') /\
    iter_inv xs' ys' /\ skipped xs' ys' /\ visits xs ys s xs' ys' /\
    (length xs' + length ys' < length xs + length ys)%nat.

Lemma steps_items k a xs : iter_inv ((k, a) :: xs) [] -> steps ((k, a) :: xs) [].
Proof.
  intros Hinv. destruct (ii_item _ _ Hinv k a) as (s & Hs & Hk); [by left|].
  assert (action a <> Erase) as Ha.
  { intros Ha. destruct (ii_erase _ _ Hinv k a) as (? & ?%not_elem_of_nil & _);
      [by left|done|done]. }
  exists s, xs, []. unfold dereference, increment, sle1_; simpl. rewrite Hs.
  split_and!; [done|done|by eapply iter_inv_tail1|done| |lia].
  eapply visit_item; try done; [naive_solver|by intros ? ?%not_elem_of_nil].
Qed.

Lemma steps_base s ys : iter_inv [] (s :: ys) -> steps [] (s :: ys).
Proof.
  intros Hinv. exists s, [], ys. unfold dereference, increment, sle1_; simpl.
  split_and!; [done|done| |done| |lia].
  - eapply iter_inv_tail0; [done|by intros ? ? ?%not_elem_of_nil].
  - apply visit_base; [done|by intros ? ? ?%not_elem_of_nil].
Qed.

Lemma steps_both k a xs s0 ys :
  iter_inv ((k, a) :: xs) (s0 :: ys) -> skipped ((k, a) :: xs) (s0 :: ys) ->
  steps ((k, a) :: xs) (s0 :: ys).
Proof.
  intros Hinv Hsk. destruct (ii_item _ _ Hinv k a) as (s1 & Hs1 & Hk); [by left|].
  unfold steps, dereference, increment, sle1_, inc0, inc1; simpl. rewrite Hs1, Hk; simpl.
  destruct (N.eqb_spec k (sle_key s0)) as [E|E]; [|destruct (N.ltb_spec k (sle_key s0))].
  - rewrite (proj2 (N.leb_le _ _)) by lia.
    assert (iter_inv xs ys) as Hinv'.
    { eapply iter_inv_tail0; [by eapply iter_inv_tail1|].
      intros k' a' Hin. pose proof (ii_lt1 _ _ _ _ _ _ Hinv Hin). lia. }
    destruct (skip_visits ((k, a) :: xs) (s0 :: ys) s1 xs ys)
      as (xs' & ys' & ? & ? & ? & ? & ?); [done| |exists s1, xs', ys'; split_and!; try done; lia].
    eapply visit_item; try done; [by intros ?; eapply Hsk| |].
    + intros s'. rewrite elem_of_cons. naive_solver.
    + intros s' Hin. pose proof (ii_lt0 _ _ _ _ Hinv Hin). lia.
  - rewrite (proj2 (N.leb_le _ _)) by lia.
    assert (forall s', s' ∈ s0 :: ys -> (k < sle_key s')%N) as Hlt.
    { intros s' [->|Hin]%elem_of_cons; [lia|].
      pose proof (ii_lt0 _ _ _ _ Hinv Hin). lia. }
    destruct (skip_visits ((k, a) :: xs) (s0 :: ys) s1 xs (s0 :: ys))
      as (xs' & ys' & ? & ? & ? & ? & ?);
      [by eapply iter_inv_tail1| |exists s1, xs', ys'; split_and!; try done; simpl in *; lia].
    eapply visit_item; try done; [|naive_solver].
    intros Ha. destruct (ii_erase _ _ Hinv k a) as (s' & Hin & ?); [by left|done|].
    specialize (Hlt _ Hin). lia.
  - rewrite (proj2 (N.leb_gt _ _)) by lia.
    assert (forall k' a', (k', a') ∈ (k, a) :: xs -> (sle_key s0 < k')%N) as Hlt.
    { intros k' a' [[= -> ->]|Hin]%elem_of_cons; [lia|].
      pose proof (ii_lt1 _ _ _ _ _ _ Hinv Hin). lia. }
    destruct (skip_visits ((k, a) :: xs) (s0 :: ys) s0 ((k, a) :: xs) ys)
      as (xs' & ys' & ? & ? & ? & ? & ?);
      [by eapply iter_inv_tail0|by apply visit_base|].
    exists s0, xs', ys'. split_and!; try done; simpl in *; lia.
Qed.

Lemma collect_spec fuel xs ys :
  iter_inv xs ys -> skipped xs ys -> (length xs + length ys <= fuel)%nat ->
  exists r, collect fuel h (mkIter xs ys) = Ok r /\ StronglySorted sle_lt r /\
    forall s, s ∈ r <-> pending xs ys s.
Proof.
  revert xs ys. induction fuel as [|fuel IH]; intros xs ys Hinv Hsk Hlen.
  - destruct xs, ys; try (simpl in Hlen; lia). exists []. split_and!; [done|constructor|].
    intros s. unfold pending. split; [by intros ?%not_elem_of_nil|].
    by intros [(? & ?%not_elem_of_nil & _)|[?%not_elem_of_nil _]].
  - destruct (at_end (mkIter xs ys)) eqn:Hend.
    { destruct xs, ys; try done. exists []. split_and!; [done|constructor|].
      intros s. unfold pending. split; [by intros ?%not_elem_of_nil|].
      by intros [(? & ?%not_elem_of_nil & _)|[?%not_elem_of_nil _]]. }
    assert (steps xs ys) as (s & xs' & ys' & Hd & Hi & Hinv' & Hsk' & (Hp & Hv & Hl) & ?).
    { destruct xs as [|[k a] xs], ys; try done;
        [by apply steps_base|by apply steps_items|by apply steps_both]. }
    destruct (IH xs' ys') as (r & Hr & Hs & Hin); [done|done|lia|].
    exists (s :: r). cbn [collect]. rewrite Hend, Hd; simpl. rewrite Hi; simpl.
    rewrite Hr; simpl. split_and!; [done| |].
    + apply SS_cons. split; [|done]. intros s' ?%Hin. by apply Hl.
    + intros s'. rewrite elem_of_cons, Hin, Hv. done.
Qed.

Lemma collect_all_spec xs ys :
  iter_inv xs ys ->
  exists it r, makeIter h xs ys = Ok it /\ collect_all h it = Ok r /\
    StronglySorted sle_lt r /\ forall s, s ∈ r <-> pending xs ys s.
Proof.
  intros Hinv.
  assert (exists xs' ys', makeIter h xs ys = Ok (mkIter xs' ys') /\ iter_inv xs' ys' /\
    skipped xs' ys' /\ forall s, pending xs' ys' s <-> pending xs ys s)
    as (xs' & ys' & E & Hinv' & Hsk & Hp).
  { destruct xs as [|x xs]; [by exists [], ys|].
    destruct (skip_spec _ _ Hinv) as (xs' & ys' & ? & ? & ? & ? & ?).
    exists xs', ys'. done. }
  destruct (collect_spec (length xs' + length ys') xs' ys') as (r & ? & ? & Hr); try done.
  exists (mkIter xs' ys'), r. split_and!; try done. intros s. by rewrite Hr, Hp.
Qed.
End iteration.

(** A key-sorted list of entries is determined by the map it enumerates. *)
Lemma sorted_sles_unique (r : list SLE) (l : list (N * SLE)) :
  StronglySorted sle_lt r -> StronglySorted key_lt l ->
  (forall k s, (k, s) ∈ l <-> s ∈ r /\ sle_key s = k) -> r = l.*2.
Proof.
  intros Hr Hl Heq.
  assert ((fun s => (sle_key s, s)) <$> r = l) as <-.
  { apply key_sorted_unique; [|done|].
    - by apply (StronglySorted_fmap _ sle_lt key_lt).
    - intros [k s]. rewrite Heq, list_elem_of_fmap. naive_solver. }
  rewrite <-list_fmap_compose. symmetry. apply list_fmap_id.
Qed.

Lemma sorted_snd (l : list (N * SLE)) :
  StronglySorted key_lt l -> (forall k s, (k, s) ∈ l -> sle_key s = k) ->
  StronglySorted sle_lt l.*2.
Proof.
  intros Hl. induction Hl as [|[k s] l Hl IH Hall]; intros Hk; csimpl; [constructor|].
  apply SS_cons. split; [|apply IH; intros; apply Hk; by right].
  intros s' ([k' s''] & -> & Hin)%list_elem_of_fmap.
  rewrite Forall_forall in Hall. specialize (Hall _ Hin).
  unfold sle_lt, key_lt in *; simpl in *.
  rewrite (Hk k s), (Hk k' s'') by (by constructor). done.
Qed.

Section sles_laws.
Context {V : Type} `{SlesViewLaws V}.

(** Iterating over the items and the base entries whose keys satisfy
    [keep] visits the table's entries whose keys do. *)
Lemma iteration_map h (base : V) t xs l0 l (keep : N -> Prop) :
  table_wf h base t ->
  StronglySorted key_lt xs -> StronglySorted key_lt l0 -> StronglySorted key_lt l ->
  (forall k a, (k, a) ∈ xs <-> keep k /\ items_ t !! k = Some a) ->
  (forall k s, (k, s) ∈ l0 <-> keep k /\ rv_map h base !! k = Some s) ->
  (forall k s, (k, s) ∈ l <-> keep k /\ table_map h base t !! k = Some s) ->
  exists it, makeIter h xs l0.*2 = Ok it /\ collect_all h it = Ok l.*2.
Proof.
  intros Hwf Hxs Hl0 Hl Ix I0 Il.
  assert (forall k s, (k, s) ∈ l0 -> sle_key s = k) as Hk0.
  { intros k s [_ Hs]%I0. by eapply rv_map_key; [apply (wf_base _ _ _ Hwf)|]. }
  destruct (collect_all_spec h xs l0.*2) as (it & r & ? & ? & Hr & Hpend).
  - split; [done|by apply sorted_snd| |].
    + intros k a [_ Hk]%Ix. destruct (wf_item _ _ _ Hwf _ _ Hk) as (s & ? & ? & _). eauto.
    + intros k a [Hkeep Hk]%Ix Ha. destruct (rv_map h base !! k) as [s|] eqn:Hs.
      * assert ((k, s) ∈ l0) as Hin by (by apply I0). exists s.
        split; [by apply (list_elem_of_fmap_2 snd) in Hin|by eapply Hk0].
      * apply (wf_insert _ _ _ Hwf _ _ Hk) in Hs. congruence.
  - exists it. split; [done|]. rewrite <-(sorted_sles_unique r l); try done.
    intros k s. rewrite Il, Hpend, lookup_table_map. unfold pending. split.
    + intros [Hkeep Hk]. destruct (items_ t !! k) as [a|] eqn:Ha.
      * destruct (wf_item _ _ _ Hwf _ _ Ha) as (s' & Hs' & <- & _).
        destruct (action a) eqn:Hact; [done|..];
          (assert (s' = s) as -> by congruence; split; [|done]; left; exists a;
           split_and!; [by apply Ix|congruence|done]).
      * assert ((k, s) ∈ l0) as Hin by (by apply I0). pose proof (Hk0 _ _ Hin) as <-.
        split; [|done]. right. split; [by apply (list_elem_of_fmap_2 snd) in Hin|].
        intros [a [_ ?]%Ix]%elem_fst. congruence.
    + intros [[(a & [Hkeep Ha]%Ix & Hact & Hs)|[Hin Hni]] <-].
      * rewrite Ha. split; [done|]. by destruct (action a).
      * apply list_elem_of_fmap in Hin as ([k s'] & -> & Hin). simpl.
        pose proof (Hk0 _ _ Hin) as E. simpl in *. rewrite E in *.
        apply I0 in Hin as [Hkeep Hs]. split; [done|].
        destruct (items_ t !! k) as [a|] eqn:Ha; [|done].
        destruct Hni. eapply fst_elem. by apply Ix.
Qed.

Lemma slesBegin_spec h (base : V) t :
  table_wf h base t ->
  (it ← slesBegin h base t; collect_all h it) = Ok (ordered (table_map h base t)).*2.
Proof.
  intros Hwf. unfold slesBegin. rewrite rv_sles_spec by apply (wf_base _ _ _ Hwf). cbn.
  destruct (iteration_map h base t (ordered (items_ t)) (ordered (rv_map h base))
    (ordered (table_map h base t)) (fun _ => True)) as (it & -> & ?);
    try done; try apply ordered_sorted;
    intros; rewrite elem_of_ordered; naive_solver.
Qed.

Lemma slesUpperBound_spec h (base : V) t k :
  table_wf h base t -> is_uint256 k ->
  (it ← slesUpperBound h base t k; collect_all h it) =
  Ok (upper_bound (table_map h base t) k).*2.
Proof.
  intros Hwf Hu. unfold slesUpperBound.
  rewrite rv_slesUpperBound_spec by (try apply (wf_base _ _ _ Hwf); done). cbn.
  destruct (iteration_map h base t (upper_bound (items_ t) k) (upper_bound (rv_map h base) k)
    (upper_bound (table_map h base t) k) (fun k' => (k < k')%N)) as (it & -> & ?);
    try done; try apply upper_bound_sorted;
    intros; apply elem_of_upper_bound.
Qed.
End sles_laws.
