(* ===== verification/ApplyStateTable.v ===== *)
(** * The buffer of changes of a transaction sandbox

    [detail::ApplyStateTable] (ApplyStateTable.h/.cpp): the working set of
    [ApplyViewBase].  Entries are checked out with [peek] (a private copy the
    caller mutates in place), then recorded with [update], [insert] and
    [erase]; [apply] replays the recorded ones into another view. *)

From S2P Require Import Prelude LedgerEntry Views.

Inductive Action : Type := Cache | Erase | Insert | Modify.

#[export] Instance Action_eq_dec : EqDecision Action.
Proof. solve_decision. Defined.

Record ApplyStateTable : Type := mkApplyStateTable {
  items_ : gmap N (Action * N);
  dropsDestroyed_ : Z
}.

Definition empty_table : ApplyStateTable := mkApplyStateTable ∅ 0.

Definition set_items (t : ApplyStateTable) (m : gmap N (Action * N)) : ApplyStateTable :=
  mkApplyStateTable m (dropsDestroyed_ t).

Definition is_erase (x : Action * N) : bool := bool_decide (x.1 = Erase).

(** The body of the loop of [apply(RawView&)]. *)
Definition apply_item {W} `{RawView W} (h : Heap) (to : W) (item : N * (Action * N)) : result W :=
  match item.2.1 with
  | Cache => Ok to
  | Erase => raw_erase h to item.2.2
  | Insert => raw_insert h to item.2.2
  | Modify => raw_replace h to item.2.2
  end.

Definition apply {W} `{RawView W} (h : Heap) (t : ApplyStateTable) (to : W) : result W :=
  foldM (apply_item h) (raw_destroyXRP to (dropsDestroyed_ t)) (ordered (items_ t)).

Definition size (t : ApplyStateTable) : nat :=
  foldr (fun (item : N * (Action * N)) ret =>
    match item.2.1 with
    | Erase | Insert | Modify => S ret
    | Cache => ret
    end) 0%nat (ordered (items_ t)).

Section with_base.
Context {V : Type} `{ReadView V}.
Implicit Types (h : Heap) (base : V) (t : ApplyStateTable) (k : Keylet).

(** The calls [visit] makes: key, isDelete, before, after. *)
Definition visit h base t : list (N * bool * option SLE * option SLE) :=
  omap (fun item : N * (Action * N) =>
    let '(key, (a, p)) := item in
    match a with
    | Erase => Some (key, true, rv_read h base (keylet_unchecked key), h !! p)
    | Insert => Some (key, false, None, h !! p)
    | Modify => Some (key, false, rv_read h base (keylet_unchecked key), h !! p)
    | Cache => None
    end) (ordered (items_ t)).

Definition exists_ h base t k : bool :=
  match items_ t !! kl_key k with
  | None => rv_exists h base k
  | Some (a, p) =>
      match a with
      | Erase => false
      | Cache | Insert | Modify =>
          match h !! p with Some s => check k s | None => false end
      end
  end.

Definition succ h base t (key : N) (last : option N) : option N :=
  succ_merge is_erase h base (items_ t) key last.

Definition read h base t k : option SLE :=
  match items_ t !! kl_key k with
  | None => rv_read h base k
  | Some (a, p) =>
      match a with
      | Erase => None
      | Cache | Insert | Modify =>
          match h !! p with
          | Some s => if check k s then Some s else None
          | None => None
          end
      end
  end.

(** [peek] returns a pointer into the working set, checking a copy out of
    the base the first time. *)
Definition peek h base t k : Heap * ApplyStateTable * option N :=
  match items_ t !! kl_key k with
  | None =>
      match rv_read h base k with
      | None => (h, t, None)
      | Some s =>
          match items_ t !! sle_key s with
          | None =>
              let '(p, h') := alloc h s in
              (h', set_items t (<[sle_key s := (Cache, p)]> (items_ t)), Some p)
          | Some (_, q) => (h, t, Some q)
          end
      end
  | Some (a, p) =>
      match a with
      | Erase => (h, t, None)
      | Cache | Insert | Modify =>
          match h !! p with
          | Some s => if check k s then (h, t, Some p) else (h, t, None)
          | None => (h, t, None)
          end
      end
  end.
End with_base.

Definition erase (h : Heap) (t : ApplyStateTable) (p : N) : result ApplyStateTable :=
  k ← key_of h p;
  match items_ t !! k with
  | None => Throw "ApplyStateTable::erase: missing key"
  | Some (a, q) =>
      if decide (q = p) then
        match a with
        | Erase => Throw "ApplyStateTable::erase: double erase"
        | Insert => Ok (set_items t (delete k (items_ t)))
        | Cache | Modify => Ok (set_items t (<[k := (Erase, q)]> (items_ t)))
        end
      else Throw "ApplyStateTable::erase: unknown SLE"
  end.

Definition rawErase (h : Heap) (t : ApplyStateTable) (p : N) : result ApplyStateTable :=
  k ← key_of h p;
  match items_ t !! k with
  | None => Ok (set_items t (<[k := (Erase, p)]> (items_ t)))
  | Some (a, q) =>
      match a with
      | Erase => Throw "ApplyStateTable::rawErase: double erase"
      | Insert => Ok (set_items t (delete k (items_ t)))
      | Cache | Modify => Ok (set_items t (<[k := (Erase, p)]> (items_ t)))
      end
  end.

Definition insert (h : Heap) (t : ApplyStateTable) (p : N) : result ApplyStateTable :=
  k ← key_of h p;
  match items_ t !! k with
  | None => Ok (set_items t (<[k := (Insert, p)]> (items_ t)))
  | Some (a, q) =>
      match a with
      | Cache => Throw "ApplyStateTable::insert: already cached"
      | Insert => Throw "ApplyStateTable::insert: already inserted"
      | Modify => Throw "ApplyStateTable::insert: already modified"
      | Erase => Ok (set_items t (<[k := (Modify, p)]> (items_ t)))
      end
  end.

Definition replace (h : Heap) (t : ApplyStateTable) (p : N) : result ApplyStateTable :=
  k ← key_of h p;
  match items_ t !! k with
  | None => Ok (set_items t (<[k := (Modify, p)]> (items_ t)))
  | Some (a, q) =>
      match a with
      | Erase => Throw "ApplyStateTable::replace: already erased"
      | Cache => Ok (set_items t (<[k := (Modify, p)]> (items_ t)))
      | Insert | Modify => Ok (set_items t (<[k := (a, p)]> (items_ t)))
      end
  end.

Definition update (h : Heap) (t : ApplyStateTable) (p : N) : result ApplyStateTable :=
  k ← key_of h p;
  match items_ t !! k with
  | None => Throw "ApplyStateTable::update: missing key"
  | Some (a, q) =>
      if decide (q = p) then
        match a with
        | Erase => Throw "ApplyStateTable::update: erased"
        | Cache => Ok (set_items t (<[k := (Modify, q)]> (items_ t)))
        | Insert | Modify => Ok t
        end
      else Throw "ApplyStateTable::update: unknown SLE"
  end.

Definition destroyXRP (t : ApplyStateTable) (fee : Z) : ApplyStateTable :=
  mkApplyStateTable (items_ t) (dropsDestroyed_ t + fee).

(** ** The maps a table denotes over its base

    [view_eff] is what readers of the sandbox see of an item, the mutations
    made through a checked-out pointer included; [commit_eff] is what
    [apply] writes: an entry that is only cached is not written. *)

Definition view_eff (h : Heap) (x : Action * N) (_ : option SLE) : option SLE :=
  match x.1 with Erase => None | _ => h !! x.2 end.

Definition commit_eff (h : Heap) (x : Action * N) (old : option SLE) : option SLE :=
  match x.1 with Cache => old | Erase => None | Insert | Modify => h !! x.2 end.

Definition table_ptrs (t : ApplyStateTable) : gset N :=
  list_to_set ((fun x => x.2.2) <$> map_to_list (items_ t)).

Lemma ast_elem_of_table_ptrs t p :
  p ∈ table_ptrs t <-> exists k a, items_ t !! k = Some (a, p).
Proof.
  unfold table_ptrs. rewrite elem_of_list_to_set, list_elem_of_fmap.
  setoid_rewrite elem_of_map_to_list'. split.
  - intros ([k [a q]] & -> & ?). eauto.
  - intros (k & a & ?). by exists (k, (a, p)).
Qed.

Section laws.
Context {V : Type} `{ReadViewLaws V}.
Implicit Types (h : Heap) (base : V) (t : ApplyStateTable).

Definition table_map h base t : gmap N SLE :=
  overlay (view_eff h) (items_ t) (rv_map h base).

Definition committed_map h base t : gmap N SLE :=
  overlay (commit_eff h) (items_ t) (rv_map h base).

(** The representation invariant: an item is filed under the key of its
    entry, and is an insertion exactly when the base lacks the key. *)
Record table_wf h base t : Prop := {
  wf_base : rv_wf h base;
  wf_item k a p : items_ t !! k = Some (a, p) ->
    exists s, h !! p = Some s /\ sle_key s = k /\ key_ok k;
  wf_insert k a p : items_ t !! k = Some (a, p) ->
    (a = Insert <-> rv_map h base !! k = None)
}.

Lemma ast_lookup_table_map h base t k :
  table_map h base t !! k =
  match items_ t !! k with
  | Some (a, p) => match a with Erase => None | _ => h !! p end
  | None => rv_map h base !! k
  end.
Proof. unfold table_map. rewrite lookup_overlay. by destruct (items_ t !! k) as [[]|]. Qed.

Lemma ast_table_ptrs_dom h base t : table_wf h base t -> table_ptrs t ⊆ dom h.
Proof.
  intros Hwf p (k & a & Hk)%ast_elem_of_table_ptrs.
  destruct (wf_item _ _ _ Hwf _ _ _ Hk) as (s & Hs & _). apply elem_of_dom. eauto.
Qed.

Lemma ast_table_frame h h' base t :
  table_wf h base t -> (forall p, p ∈ rv_ptrs base ∪ table_ptrs t -> h' !! p = h !! p) ->
  table_wf h' base t /\ table_map h' base t = table_map h base t.
Proof.
  intros Hwf Heq.
  destruct (rv_frame h h' base (wf_base _ _ _ Hwf)) as [Hb Hm]; [set_solver|].
  assert (forall k a p, items_ t !! k = Some (a, p) -> h' !! p = h !! p) as Hp.
  { intros k a p Hk. apply Heq, elem_of_union_r, ast_elem_of_table_ptrs. eauto. }
  split; [split; [done| |]|].
  - intros k a p Hk. rewrite (Hp _ _ _ Hk). by eapply wf_item.
  - intros k a p Hk. rewrite Hm. by eapply wf_insert.
  - apply map_eq. intros k. rewrite !ast_lookup_table_map, Hm.
    destruct (items_ t !! k) as [[a p]|] eqn:Hk; [|done]. by rewrite (Hp _ _ _ Hk).
Qed.

Lemma ast_table_map_key h base t k s :
  table_wf h base t -> table_map h base t !! k = Some s -> sle_key s = k.
Proof.
  intros Hwf. rewrite ast_lookup_table_map.
  destruct (items_ t !! k) as [[a p]|] eqn:Hk.
  - destruct (wf_item _ _ _ Hwf _ _ _ Hk) as (s' & Hs & Hkey & _).
    rewrite Hs. destruct a; naive_solver.
  - by apply rv_map_key, (wf_base _ _ _ Hwf).
Qed.

Lemma ast_table_map_ok h base t k s :
  table_wf h base t -> table_map h base t !! k = Some s -> key_ok k.
Proof.
  intros Hwf. unfold table_map. rewrite lookup_overlay.
  destruct (items_ t !! k) as [[a p]|] eqn:Hk; [intros _|by apply rv_map_ok, (wf_base _ _ _ Hwf)].
  by destruct (wf_item _ _ _ Hwf _ _ _ Hk) as (? & _ & _ & ?).
Qed.

Lemma ast_read_map h base t k :
  table_wf h base t -> key_ok (kl_key k) ->
  read h base t k = map_read (table_map h base t) k.
Proof.
  intros Hwf Hz. unfold read, map_read. rewrite ast_lookup_table_map.
  destruct (items_ t !! kl_key k) as [[a p]|] eqn:Hk; [by destruct a|].
  by apply rv_read_spec; [apply (wf_base _ _ _ Hwf)|].
Qed.

Lemma ast_exists_sound h base t k :
  table_wf h base t -> is_uint256 (kl_key k) -> exists_ h base t k = true ->
  is_Some (table_map h base t !! kl_key k).
Proof.
  intros Hwf Hu. unfold exists_. rewrite ast_lookup_table_map.
  destruct (items_ t !! kl_key k) as [[a p]|] eqn:Hk.
  - destruct a; try done; destruct (h !! p); eauto; done.
  - by apply rv_exists_sound; [apply (wf_base _ _ _ Hwf)|].
Qed.

Lemma ast_exists_complete h base t k :
  table_wf h base t -> is_uint256 (kl_key k) -> is_Some (map_read (table_map h base t) k) ->
  exists_ h base t k = true.
Proof.
  intros Hwf Hu. unfold exists_, map_read. rewrite ast_lookup_table_map.
  destruct (items_ t !! kl_key k) as [[a p]|] eqn:Hk.
  - destruct a; try (by intros []); intros [s Hs];
      destruct (h !! p); try done; by destruct (check _ _).
  - intros Hs. by apply rv_exists_complete; [apply (wf_base _ _ _ Hwf)|done|].
Qed.

Lemma ast_succ_spec h base t key last :
  table_wf h base t -> is_uint256 key ->
  is_succ (fun k => is_Some (table_map h base t !! k)) key last (succ h base t key last).
Proof.
  intros Hwf Hu. unfold succ. eapply is_succ_ext;
    [|apply succ_merge_spec; [apply (wf_base _ _ _ Hwf)|done]].
  intros k. unfold shown, hidden, is_erase. rewrite ast_lookup_table_map.
  destruct (items_ t !! k) as [[a p]|] eqn:Hk; [|naive_solver].
  destruct (wf_item _ _ _ Hwf _ _ _ Hk) as (s & Hs & _).
  destruct (decide (a = Erase)) as [->|Ha].
  - split; [|by intros []]. intros [(x & [= <-] & Hx)|[_ []]]; [done|by exists (Erase, p)].
  - split; [by destruct a; rewrite ?Hs|].
    left; exists (a, p). by rewrite bool_decide_eq_false.
Qed.

(** Filing an item whose action agrees with the base keeps the invariant. *)
Lemma ast_table_wf_insert h base t p s a :
  table_wf h base t -> h !! p = Some s -> key_ok (sle_key s) ->
  (a = Insert <-> rv_map h base !! sle_key s = None) ->
  table_wf h base (set_items t (<[sle_key s := (a, p)]> (items_ t))).
Proof.
  intros [Hb Hi Ha] Hp Hz Hact. split; [done|intros k x q..]; simpl;
    rewrite lookup_insert_Some; intros [[<- [= <- <-]]|[? ?]]; simpl; eauto.
Qed.

Lemma ast_table_wf_delete h base t k :
  table_wf h base t -> table_wf h base (set_items t (delete k (items_ t))).
Proof.
  intros [Hb Hi Ha]. split; [done|intros k' x q..]; simpl;
    rewrite lookup_delete_Some; intros [? ?]; eauto.
Qed.

Lemma ast_insert_map h base t p s :
  table_wf h base t -> h !! p = Some s -> key_ok (sle_key s) ->
  table_map h base t !! sle_key s = None ->
  exists t', insert h t p = Ok t' /\ table_wf h base t' /\
    table_map h base t' = <[sle_key s := s]> (table_map h base t) /\
    dropsDestroyed_ t' = dropsDestroyed_ t.
Proof.
  intros Hwf Hp Hz. rewrite ast_lookup_table_map. unfold insert.
  rewrite (key_of_Ok _ _ _ Hp); cbn.
  destruct (items_ t !! sle_key s) as [[a q]|] eqn:Hk.
  - destruct (wf_item _ _ _ Hwf _ _ _ Hk) as (s' & Hs' & _).
    pose proof (wf_insert _ _ _ Hwf _ _ _ Hk) as Hins.
    destruct a; rewrite ?Hs'; intros E; try done.
    eexists. split_and!; [done| |by apply overlay_insert_Some|done].
    apply ast_table_wf_insert; naive_solver.
  - intros E. eexists. split_and!; [done| |by apply overlay_insert_Some|done].
    apply ast_table_wf_insert; naive_solver.
Qed.

Lemma ast_replace_map h base t p s :
  table_wf h base t -> h !! p = Some s -> key_ok (sle_key s) ->
  is_Some (table_map h base t !! sle_key s) ->
  exists t', replace h t p = Ok t' /\ table_wf h base t' /\
    table_map h base t' = <[sle_key s := s]> (table_map h base t) /\
    dropsDestroyed_ t' = dropsDestroyed_ t.
Proof.
  intros Hwf Hp Hz. rewrite ast_lookup_table_map. unfold replace.
  rewrite (key_of_Ok _ _ _ Hp); cbn.
  destruct (items_ t !! sle_key s) as [[a q]|] eqn:Hk.
  - pose proof (wf_insert _ _ _ Hwf _ _ _ Hk) as Hins.
    destruct a; [|by intros []|..]; intros _;
      (eexists; split_and!; [done| |by apply overlay_insert_Some|done]);
      apply ast_table_wf_insert; naive_solver.
  - intros [s' E]. eexists. split_and!; [done| |by apply overlay_insert_Some|done].
    apply ast_table_wf_insert; naive_solver.
Qed.

Lemma rawErase_map h base t p s :
  table_wf h base t -> h !! p = Some s -> key_ok (sle_key s) ->
  is_Some (table_map h base t !! sle_key s) ->
  exists t', rawErase h t p = Ok t' /\ table_wf h base t' /\
    table_map h base t' = delete (sle_key s) (table_map h base t) /\
    dropsDestroyed_ t' = dropsDestroyed_ t.
Proof.
  intros Hwf Hp Hz. rewrite ast_lookup_table_map. unfold rawErase.
  rewrite (key_of_Ok _ _ _ Hp); cbn.
  destruct (items_ t !! sle_key s) as [[a q]|] eqn:Hk.
  - pose proof (wf_insert _ _ _ Hwf _ _ _ Hk) as Hins.
    destruct a; [|by intros []|..]; intros _;
      (eexists; split_and!; [done| |..|done]);
      try (by apply overlay_insert_None); try (apply ast_table_wf_insert; naive_solver).
    + by apply ast_table_wf_delete.
    + apply overlay_delete_None. naive_solver.
  - intros [s' E]. eexists. split_and!; [done| |by apply overlay_insert_None|done].
    apply ast_table_wf_insert; naive_solver.
Qed.

(** A pointer the table holds for an entry that is not erased. *)
Definition holds h t (p : N) (s : SLE) : Prop :=
  h !! p = Some s /\ exists a, items_ t !! sle_key s = Some (a, p) /\ a <> Erase.

Lemma ast_erase_map h base t p s :
  table_wf h base t -> holds h t p s ->
  exists t', erase h t p = Ok t' /\ table_wf h base t' /\
    table_map h base t' = delete (sle_key s) (table_map h base t).
Proof.
  intros Hwf [Hp (a & Hk & Ha)]. unfold erase. rewrite (key_of_Ok _ _ _ Hp); cbn.
  rewrite Hk. rewrite decide_True by done.
  destruct (wf_item _ _ _ Hwf _ _ _ Hk) as (? & _ & _ & Hz).
  pose proof (wf_insert _ _ _ Hwf _ _ _ Hk) as Hins.
  destruct a; [|done|..]; (eexists; split_and!; [done|..]);
    try (by apply overlay_insert_None); try (apply ast_table_wf_insert; naive_solver).
  - by apply ast_table_wf_delete.
  - apply overlay_delete_None. naive_solver.
Qed.

Lemma update_map h base t p s :
  table_wf h base t -> holds h t p s ->
  exists t' a, update h t p = Ok t' /\ table_wf h base t' /\
    table_map h base t' = table_map h base t /\
    items_ t' = <[sle_key s := (a, p)]> (items_ t) /\ a <> Cache /\ a <> Erase /\
    dropsDestroyed_ t' = dropsDestroyed_ t.
Proof.
  intros Hwf [Hp (a & Hk & Ha)]. unfold update. rewrite (key_of_Ok _ _ _ Hp); cbn.
  rewrite Hk. rewrite decide_True by done.
  destruct (wf_item _ _ _ Hwf _ _ _ Hk) as (? & _ & _ & Hz).
  pose proof (wf_insert _ _ _ Hwf _ _ _ Hk) as Hins.
  destruct a; [|done|exists t, Insert|exists t, Modify];
    [|split_and!; try done; by rewrite insert_id..].
  exists (set_items t (<[sle_key s := (Modify, p)]> (items_ t))), Modify.
  split_and!; try done; [apply ast_table_wf_insert; naive_solver|].
  etrans; [by apply overlay_insert_Some|]. apply insert_id.
  by rewrite ast_lookup_table_map, Hk.
Qed.

(** Checking an entry out changes nothing a reader sees. *)
Lemma peek_map h base t k h' t' r :
  table_wf h base t -> key_ok (kl_key k) -> peek h base t k = (h', t', r) ->
  table_wf h' base t' /\ table_map h' base t' = table_map h base t /\
  rv_map h' base = rv_map h base /\
  match r with
  | Some p => exists s, map_read (table_map h base t) k = Some s /\ holds h' t' p s
  | None => map_read (table_map h base t) k = None
  end.
Proof.
  intros Hwf Hz. rewrite <-ast_read_map by done. unfold peek, read.
  destruct (items_ t !! kl_key k) as [[a p]|] eqn:Hk.
  - destruct (wf_item _ _ _ Hwf _ _ _ Hk) as (s & Hs & Hsk & _). rewrite Hs.
    assert (a <> Erase -> holds h t p s) as Hh.
    { intros Ha. split; [done|]. rewrite Hsk. eauto. }
    destruct a; [|by intros [= <- <- <-]|..]; destruct (check k s);
      intros [= <- <- <-]; split_and!; try done; eauto.
  - destruct (rv_read h base k) as [s|] eqn:Hr; [|by intros [= <- <- <-]].
    pose proof (rv_read_spec h base k (wf_base _ _ _ Hwf) Hz) as Hrs.
    rewrite Hr in Hrs. unfold map_read in Hrs.
    destruct (rv_map h base !! kl_key k) as [s'|] eqn:Hb; [|done].
    destruct (check k s'); [|done]. injection Hrs as <-.
    pose proof (rv_map_key _ _ _ _ (wf_base _ _ _ Hwf) Hb) as Hsk.
    rewrite Hsk, Hk. intros [= <- <- <-].
    destruct (ast_table_frame h (alloc h s).2 base t Hwf) as [Hwf' Hm].
    { intros p Hp. assert (p ∈ dom h) as [x Hx]%elem_of_dom.
      { apply elem_of_union in Hp as [?|?];
          [by apply (rv_ptrs_dom _ _ (wf_base _ _ _ Hwf))|by eapply ast_table_ptrs_dom]. }
      rewrite Hx. by apply alloc_other. }
    destruct (rv_frame h (alloc h s).2 base (wf_base _ _ _ Hwf)) as [_ Hbm].
    { intros p Hp. pose proof (rv_ptrs_dom _ _ (wf_base _ _ _ Hwf) _ Hp) as [x Hx]%elem_of_dom.
      rewrite Hx. by apply alloc_other. }
    pose proof (alloc_lookup h s) as Hal. simpl in Hal, Hwf', Hm, Hbm.
    split_and!; [|..|done|].
    + rewrite <-Hsk. apply ast_table_wf_insert; [done..|congruence|]. rewrite Hsk, Hbm, Hb. done.
    + etrans; [apply overlay_insert_Some; simpl; done|].
      fold (table_map (<[fresh (dom h) := s]> h) base t). rewrite Hm.
      apply insert_id. by rewrite ast_lookup_table_map, Hk.
    + exists s. split; [done|]. split; [done|]. exists Cache.
      simpl. rewrite Hsk. by rewrite lookup_insert_eq.
Qed.
End laws.

(** ** Editing sessions

    A transactor drives the table by checking entries out, mutating them
    through the pointers it got, and recording what it did. *)
Section sessions.
Context {V : Type} `{ReadViewLaws V}.
Implicit Types (h : Heap) (t : ApplyStateTable).

Inductive edit (base : V) : Heap * ApplyStateTable -> Heap * ApplyStateTable -> Prop :=
| edit_peek h t k h' t' r :
    key_ok (kl_key k) -> peek h base t k = (h', t', r) -> edit base (h, t) (h', t')
| edit_write h t p s s' :
    holds h t p s -> sle_key s' = sle_key s -> sle_type s' = sle_type s ->
    edit base (h, t) (<[p := s']> h, t)
| edit_update h t p s t' :
    holds h t p s -> update h t p = Ok t' -> edit base (h, t) (h, t')
| edit_insert h t s t' :
    key_ok (sle_key s) -> table_map h base t !! sle_key s = None ->
    insert (alloc h s).2 t (alloc h s).1 = Ok t' -> edit base (h, t) ((alloc h s).2, t')
| edit_erase h t p s t' :
    holds h t p s -> erase h t p = Ok t' -> edit base (h, t) (h, t')
| edit_destroyXRP h t fee : edit base (h, t) (h, destroyXRP t fee).

(** The entries checked out are private copies: none is shared with the
    base, so writing through them cannot change it. *)
Definition session_inv (base : V) (m : gmap N SLE) (c : Heap * ApplyStateTable) : Prop :=
  table_wf c.1 base c.2 /\ rv_map c.1 base = m /\ table_ptrs c.2 ## rv_ptrs base.

(** Filing a private entry, or dropping one, shares nothing with the base. *)
Lemma disj_insert t t' k a p (X : gset N) :
  items_ t' = <[k := (a, p)]> (items_ t) -> p ∉ X -> table_ptrs t ## X ->
  table_ptrs t' ## X.
Proof.
  intros E Hp Hd q (k' & b & Hk)%ast_elem_of_table_ptrs Hq. rewrite E in Hk.
  apply lookup_insert_Some in Hk as [[_ [= _ <-]]|[_ Hk]]; [done|].
  apply (Hd q); [|done]. apply ast_elem_of_table_ptrs. eauto.
Qed.

Lemma disj_delete t k (X : gset N) :
  table_ptrs t ## X -> table_ptrs (set_items t (delete k (items_ t))) ## X.
Proof.
  intros Hd q (k' & b & Hk)%ast_elem_of_table_ptrs Hq. simpl in Hk.
  apply lookup_delete_Some in Hk as [_ Hk].
  apply (Hd q); [|done]. apply ast_elem_of_table_ptrs. eauto.
Qed.

Lemma holds_ptr h t p s : holds h t p s -> p ∈ table_ptrs t.
Proof. intros [_ (a & Hk & _)]. apply ast_elem_of_table_ptrs. eauto. Qed.

(** Every entry has one pointer: writing through it changes one key. *)
Lemma holds_inj h base t p s k a :
  table_wf h base t -> holds h t p s -> items_ t !! k = Some (a, p) -> k = sle_key s.
Proof.
  intros Hwf [Hp _] Hk. destruct (wf_item _ _ _ Hwf _ _ _ Hk) as (s' & Hs' & <- & _).
  congruence.
Qed.

Lemma write_map h base t p s s' :
  table_wf h base t -> table_ptrs t ## rv_ptrs base -> holds h t p s ->
  sle_key s' = sle_key s ->
  table_wf (<[p := s']> h) base t /\ rv_map (<[p := s']> h) base = rv_map h base /\
  table_map (<[p := s']> h) base t = <[sle_key s := s']> (table_map h base t).
Proof.
  intros Hwf Hdisj Hh Hk. pose proof (holds_ptr _ _ _ _ Hh) as Hin.
  destruct (rv_frame h (<[p := s']> h) base (wf_base _ _ _ Hwf)) as [Hb Hm].
  { intros q Hq. apply lookup_insert_ne. set_solver. }
  split_and!; [split; [done| |]|done|].
  - intros k a q Hi. destruct (wf_item _ _ _ Hwf _ _ _ Hi) as (x & Hx & Hxk & Hz).
    destruct (decide (p = q)) as [<-|Hne].
    + exists s'. rewrite lookup_insert_eq. split_and!; try done.
      rewrite Hk. symmetry. by eapply holds_inj.
    + exists x. by rewrite lookup_insert_ne.
  - intros k a q Hi. rewrite Hm. by eapply wf_insert.
  - apply map_eq. intros k. rewrite ast_lookup_table_map, Hm.
    destruct (decide (sle_key s = k)) as [<-|Hne].
    + destruct Hh as [_ (a & Hi & Ha)]. rewrite Hi, !lookup_insert_eq. by destruct a.
    + rewrite lookup_insert_ne, ast_lookup_table_map by done.
      destruct (items_ t !! k) as [[a q]|] eqn:Hi; [|done].
      assert (p <> q); [|by rewrite lookup_insert_ne].
      intros <-. apply Hne. symmetry. by eapply holds_inj.
Qed.

Lemma alloc_frame h (base : V) t s :
  table_wf h base t ->
  table_wf (alloc h s).2 base t /\ rv_map (alloc h s).2 base = rv_map h base /\
  table_map (alloc h s).2 base t = table_map h base t /\
  (alloc h s).1 ∉ rv_ptrs base.
Proof.
  intros Hwf.
  assert (forall q, q ∈ dom h -> (alloc h s).2 !! q = h !! q) as Heq.
  { intros q [x Hx]%elem_of_dom. rewrite Hx. by apply alloc_other. }
  pose proof (rv_ptrs_dom _ _ (wf_base _ _ _ Hwf)) as Hdom.
  pose proof (ast_table_ptrs_dom _ _ _ Hwf) as Hdom'.
  destruct (ast_table_frame h (alloc h s).2 base t Hwf) as [? ?]; [set_solver|].
  destruct (rv_frame h (alloc h s).2 base (wf_base _ _ _ Hwf)) as [_ ?]; [set_solver|].
  split_and!; try done. intros Hin. apply Hdom, elem_of_dom in Hin as [x Hx].
  pose proof (alloc_fresh h s). congruence.
Qed.

Lemma edit_inv base m c c' :
  edit base c c' -> session_inv base m c -> session_inv base m c'.
Proof.
  intros [h t k h' t' r Hz Hp|h t p s s' Hh Hk Ht|h t p s t' Hh Hu|h t s t' Hz Hn Hi
         |h t p s t' Hh He|h t fee] (Hwf & Hm & Hd); unfold session_inv in *;
    cbn [fst snd] in *.
  - destruct (peek_map h base t k h' t' r) as (Hwf' & _ & Hb & _); [done..|].
    split_and!; [done|congruence|].
    unfold peek in Hp. destruct (items_ t !! kl_key k) as [[a p]|].
    + destruct a; try destruct (h !! p) as [x|]; try destruct (check k x);
        injection Hp as <- <- <-; done.
    + destruct (rv_read h base k) as [x|]; [|by injection Hp as <- <- <-].
      destruct (items_ t !! sle_key x) as [[? ?]|]; injection Hp as <- <- <-; [done|].
      destruct (alloc_frame h base t x Hwf) as (_ & _ & _ & Hf). by eapply disj_insert.
  - destruct (write_map h base t p s s') as (? & ? & _); [done..|].
    split_and!; [done|congruence|done].
  - destruct (update_map h base t p s Hwf Hh) as (t1 & a & E & Hwf1 & _ & Hit & _).
    rewrite E in Hu. injection Hu as <-. split_and!; try done.
    pose proof (holds_ptr _ _ _ _ Hh) as Hin.
    eapply disj_insert; [done| |done]. intros ?. by apply (Hd p).
  - destruct (alloc_frame h base t s Hwf) as (Hwf' & Hb & Hm' & Hf).
    destruct (ast_insert_map (alloc h s).2 base t (alloc h s).1 s) as (t1 & E & Hwf1 & _);
      [done|apply alloc_lookup|done|by rewrite Hm'|].
    rewrite E in Hi. injection Hi as <-. split_and!; [done|congruence|].
    unfold insert in E. rewrite (key_of_Ok _ _ _ (alloc_lookup h s)) in E; cbn in E.
    destruct (items_ t !! sle_key s) as [[[] ?]|]; try done;
      injection E as <-; by eapply disj_insert.
  - destruct (ast_erase_map h base t p s Hwf Hh) as (t1 & E & Hwf1 & _).
    rewrite E in He. injection He as <-. split_and!; try done.
    destruct Hh as [Hp (a & Hk & Ha)]. unfold erase in E.
    rewrite (key_of_Ok _ _ _ Hp) in E; cbn in E. rewrite Hk, decide_True in E by done.
    assert (p ∉ rv_ptrs base).
    { intros ?. apply (Hd p); [|done]. apply ast_elem_of_table_ptrs. eauto. }
    destruct a; try done; injection E as <-;
      first [by apply disj_delete|by eapply disj_insert].
  - split_and!; [|done|done]. destruct Hwf as [? ? ?]. by split.
Qed.

Lemma session_inv_init h (base : V) :
  rv_wf h base -> session_inv base (rv_map h base) (h, empty_table).
Proof.
  intros Hwf. split_and!; simpl; [|done|].
  - split; [done|intros k a p; simpl; by rewrite lookup_empty..].
  - unfold table_ptrs; simpl. rewrite map_to_list_empty. set_solver.
Qed.

Lemma session_inv_reachable h (base : V) c :
  rv_wf h base -> rtc (edit base) (h, empty_table) c ->
  session_inv base (rv_map h base) c.
Proof.
  intros Hwf Hr. pose proof (session_inv_init h base Hwf) as Hi.
  induction Hr as [|c1 c2 c3 He _ IH]; [done|]. by eapply IH, edit_inv.
Qed.

(** *** Sessions as programs

    The same edits named by what the caller asks for, with the pointer a
    caller holds found under its key, and what they come to: the entries the
    sandbox shows, the keys the caller holds a pointer for, those it recorded
    a change of, and the fees burned. *)
Inductive Edit : Type :=
| EPeek (k : Keylet)
| EWrite (s : SLE)
| EUpdate (key : N)
| EInsert (s : SLE)
| EErase (key : N)
| EDestroyXRP (fee : Z).

Definition held_ptr t (key : N) : result N :=
  match items_ t !! key with Some (_, p) => Ok p | None => Throw "no pointer" end.

Definition run_edit (base : V) (c : Heap * ApplyStateTable) (e : Edit) : result (Heap * ApplyStateTable) :=
  let '(h, t) := c in
  match e with
  | EPeek k => Ok (peek h base t k).1
  | EWrite s => p ← held_ptr t (sle_key s); Ok (<[p := s]> h, t)
  | EUpdate key => p ← held_ptr t key; t' ← update h t p; Ok (h, t')
  | EInsert s => t' ← insert (alloc h s).2 t (alloc h s).1; Ok ((alloc h s).2, t')
  | EErase key => p ← held_ptr t key; t' ← erase h t p; Ok (h, t')
  | EDestroyXRP fee => Ok (h, destroyXRP t fee)
  end.

Definition run_edits (base : V) (c : Heap * ApplyStateTable) (es : list Edit) : result (Heap * ApplyStateTable) :=
  foldM (run_edit base) c es.
End sessions.

Record Session : Type := mkSession {
  shows : gmap N SLE;
  held : gset N;
  recorded : gset N;
  burned : Z
}.

Definition new_session (m : gmap N SLE) : Session := mkSession m ∅ ∅ 0.

Definition edit_spec (a : Session) (e : Edit) : Session :=
  let '(mkSession m hd rec z) := a in
  match e with
  | EPeek k => mkSession m (match map_read m k with Some _ => {[kl_key k]} ∪ hd | None => hd end) rec z
  | EWrite s => mkSession (<[sle_key s := s]> m) hd rec z
  | EUpdate key => mkSession m hd ({[key]} ∪ rec) z
  | EInsert s => mkSession (<[sle_key s := s]> m) ({[sle_key s]} ∪ hd) ({[sle_key s]} ∪ rec) z
  | EErase key => mkSession (delete key m) (hd ∖ {[key]}) ({[key]} ∪ rec) z
  | EDestroyXRP fee => mkSession m hd rec (z + fee)
  end.

(** What the code asks of a caller: keys are those of entries, a pointer is
    used while it is held, an entry keeps its key and type, and an entry is
    inserted only where none is shown. *)
Definition legal (a : Session) (e : Edit) : Prop :=
  match e with
  | EPeek k => key_ok (kl_key k)
  | EWrite s => sle_key s ∈ held a /\ sle_type <$> shows a !! sle_key s = Some (sle_type s)
  | EUpdate key | EErase key => key ∈ held a
  | EInsert s => key_ok (sle_key s) /\ shows a !! sle_key s = None
  | EDestroyXRP _ => True
  end.

#[export] Instance legal_dec a e : Decision (legal a e).
Proof. destruct e; unfold legal, key_ok, is_uint256; apply _. Defined.

Fixpoint legal_all (a : Session) (es : list Edit) : Prop :=
  match es with [] => True | e :: es => legal a e /\ legal_all (edit_spec a e) es end.

#[export] Instance legal_all_dec a es : Decision (legal_all a es).
Proof. revert a. induction es as [|e es IH]; intros a; simpl; apply _. Defined.

Definition session_spec (a : Session) (es : list Edit) : Session := foldl edit_spec a es.

Section session_spec.
Context {V : Type} `{ReadViewLaws V}.
Implicit Types (h : Heap) (t : ApplyStateTable).

(** What the item of a key tells of the session, over the base map [m]. *)
Definition filed (m : gmap N SLE) (a : Session) (k : N) (item : option (Action * N)) : Prop :=
  match item with
  | None => (k ∈ recorded a -> m !! k = None) /\ k ∉ held a
  | Some (Cache, _) => k ∉ recorded a
  | Some (Erase, _) => k ∈ recorded a /\ k ∉ held a
  | Some (Insert, _) | Some (Modify, _) => k ∈ recorded a
  end.

Lemma filed_other m a a' k item :
  (k ∈ recorded a' <-> k ∈ recorded a) -> (k ∈ held a' <-> k ∈ held a) ->
  filed m a k item -> filed m a' k item.
Proof. intros Hr Hh. destruct item as [[[] ?]|]; simpl; tauto. Qed.

Record session_is (base : V) (m : gmap N SLE) (a : Session) (c : Heap * ApplyStateTable) : Prop := {
  si_inv : session_inv base m c;
  si_shows : table_map c.1 base c.2 = shows a;
  si_filed k : filed m a k (items_ c.2 !! k);
  si_burned : dropsDestroyed_ c.2 = burned a
}.

Lemma session_held base m a h t k :
  session_is base m a (h, t) -> k ∈ held a ->
  exists p s, held_ptr t k = Ok p /\ holds h t p s /\ sle_key s = k /\ shows a !! k = Some s.
Proof.
  intros [(Hwf & _) Hs Hf _] Hk. simpl in *. specialize (Hf k). unfold held_ptr.
  destruct (items_ t !! k) as [[x p]|] eqn:Hi; [|by destruct Hf].
  destruct (wf_item _ _ _ Hwf _ _ _ Hi) as (s & Hp & Hsk & _).
  assert (x <> Erase) as Hx by (intros ->; by destruct Hf).
  exists p, s. rewrite <-Hs, ast_lookup_table_map, Hi. split_and!; [done| |done|by destruct x].
  split; [done|]. exists x. by rewrite Hsk.
Qed.

Lemma peek_items h (base : V) t k h' t' r :
  table_wf h base t -> key_ok (kl_key k) -> peek h base t k = (h', t', r) ->
  dropsDestroyed_ t' = dropsDestroyed_ t /\
  (t' = t \/ exists p, is_Some (rv_map h base !! kl_key k) /\ items_ t !! kl_key k = None /\
     items_ t' = <[kl_key k := (Cache, p)]> (items_ t)).
Proof.
  intros Hwf Hz. unfold peek. destruct (items_ t !! kl_key k) as [[x p]|].
  - destruct x; try destruct (h !! p) as [y|]; try destruct (check k y); intros [= <- <- <-]; auto.
  - destruct (rv_read h base k) as [s|] eqn:Hr; [|intros [= <- <- <-]; auto].
    pose proof (rv_read_spec h base k (wf_base _ _ _ Hwf) Hz) as Hrs. rewrite Hr in Hrs.
    unfold map_read in Hrs. destruct (rv_map h base !! kl_key k) as [s'|] eqn:Hb; [|done].
    destruct (check k s'); [|done]. injection Hrs as <-.
    rewrite (rv_map_key _ _ _ _ (wf_base _ _ _ Hwf) Hb).
    destruct (items_ t !! kl_key k) as [[]|]; intros [= <- <- <-]; [auto|].
    split; [done|right]. eauto.
Qed.

Lemma erase_items h (base : V) t p s t' :
  table_wf h base t -> holds h t p s -> erase h t p = Ok t' ->
  dropsDestroyed_ t' = dropsDestroyed_ t /\
  (items_ t' = <[sle_key s := (Erase, p)]> (items_ t) \/
   items_ t' = delete (sle_key s) (items_ t) /\ rv_map h base !! sle_key s = None).
Proof.
  intros Hwf [Hp (x & Hi & Hx)]. unfold erase. rewrite (key_of_Ok _ _ _ Hp); cbn.
  rewrite Hi, decide_True by done. pose proof (wf_insert _ _ _ Hwf _ _ _ Hi) as Hins.
  destruct x; intros [= <-]; simpl; naive_solver.
Qed.

Lemma insert_items h t p s t' :
  h !! p = Some s -> insert h t p = Ok t' ->
  exists x, items_ t' = <[sle_key s := (x, p)]> (items_ t) /\ (x = Insert \/ x = Modify).
Proof.
  intros Hp. unfold insert. rewrite (key_of_Ok _ _ _ Hp); cbn.
  destruct (items_ t !! sle_key s) as [[[] q]|]; intros [= <-]; simpl; eauto.
Qed.

(** A step of a session, once the item under one key is known. *)
Lemma session_is_step base m a a' c c' key :
  session_is base m a c -> edit base c c' ->
  table_map c'.1 base c'.2 = shows a' -> dropsDestroyed_ c'.2 = burned a' ->
  filed m a' key (items_ c'.2 !! key) ->
  (forall k, k <> key -> items_ c'.2 !! k = items_ c.2 !! k /\
     (k ∈ recorded a' <-> k ∈ recorded a) /\ (k ∈ held a' <-> k ∈ held a)) ->
  session_is base m a' c'.
Proof.
  intros [Hi Hs Hf Hb] He Hs' Hb' Hk Ho. split; [by eapply edit_inv|done| |done].
  intros k. destruct (decide (k = key)) as [->|Hne]; [done|].
  destruct (Ho k Hne) as (-> & ? & ?). by eapply filed_other.
Qed.

Lemma run_peek base m a h t k :
  session_is base m a (h, t) -> legal a (EPeek k) ->
  session_is base m (edit_spec a (EPeek k)) (peek h base t k).1.
Proof.
  intros Hsi Hk. simpl in Hk. destruct (peek h base t k) as [[h' t'] r] eqn:E. simpl.
  assert (edit base (h, t) (h', t')) as He by (by eapply edit_peek).
  pose proof (si_inv _ _ _ _ Hsi) as (Hwf & Hm & _). simpl in Hwf, Hm.
  destruct (peek_map h base t k h' t' r Hwf Hk E) as (Hwf' & Hmap & _ & Hr).
  destruct (peek_items h base t k h' t' r Hwf Hk E) as [Hd Hit].
  destruct a as [mm hd rec z]. pose proof (si_shows _ _ _ _ Hsi) as Hs.
  pose proof (si_burned _ _ _ _ Hsi) as Hb. simpl in *. rewrite Hs in Hr, Hmap.
  pose proof (si_filed _ _ _ _ Hsi (kl_key k)) as Hf. simpl in Hf.
  eapply (session_is_step base m _ _ (h, t) (h', t') (kl_key k)); try done; [by simpl; rewrite Hd| |].
  - simpl. destruct Hit as [->|(p & [x Hx] & Hn & ->)].
    + destruct r as [p|]; [|by rewrite Hr].
      destruct Hr as (s & Hs' & Hp & y & Hi & Hy). rewrite Hs'.
      assert (sle_key s = kl_key k) as Hsk.
      { unfold map_read in Hs'. destruct (mm !! kl_key k) as [s'|] eqn:Em; [|done].
        destruct (check k s'); [|done]. injection Hs' as ->. rewrite <-Hs in Em.
        exact (ast_table_map_key _ _ _ _ _ Hwf Em). }
      rewrite Hsk in Hi. rewrite Hi in Hf |- *. by destruct y.
    + rewrite lookup_insert_eq. rewrite Hn in Hf. simpl. intros Hin. destruct Hf as [Hf _].
      rewrite <-Hm, Hx in Hf. by specialize (Hf Hin).
  - intros k' Hne. split_and!; [|done|simpl; destruct (map_read mm k); set_solver].
    simpl. destruct Hit as [->|(p & _ & _ & ->)]; [done|]. by rewrite lookup_insert_ne.
Qed.

#[local] Opaque alloc.

Lemma run_edit_spec base m a c e :
  session_is base m a c -> legal a e ->
  exists c', run_edit base c e = Ok c' /\ session_is base m (edit_spec a e) c'.
Proof.
  intros Hsi Hl. destruct c as [h t]. pose proof (si_inv _ _ _ _ Hsi) as (Hwf & Hm & Hd).
  pose proof (si_shows _ _ _ _ Hsi) as Hs. pose proof (si_burned _ _ _ _ Hsi) as Hb.
  pose proof (si_filed _ _ _ _ Hsi) as Hf.
  destruct e as [k|s|key|s|key|fee]; [eexists; split; [done|by apply run_peek]|..];
    destruct a as [mm hd rec z]; simpl in *.
  - destruct Hl as [Hk Ht]. destruct (session_held _ _ _ _ _ _ Hsi Hk) as (p & s0 & -> & Hh & Hsk & Hsh).
    simpl in Hsh. rewrite Hsh in Ht. injection Ht as Ht. cbn.
    destruct (write_map h base t p s0 s) as (_ & _ & Hmap); [done..|].
    eexists; split; [done|]. eapply (session_is_step base m _ _ (h, t) _ (sle_key s)); try done;
      [by eapply edit_write|by simpl; rewrite Hmap, Hsk, Hs|apply Hf].
  - destruct (session_held _ _ _ _ _ _ Hsi Hl) as (p & s0 & -> & Hh & <- & _). cbn.
    destruct (update_map h base t p s0 Hwf Hh) as (t' & x & E & _ & Hmap & Hit & Hc & Her & Hdr).
    rewrite E. eexists; split; [done|]. eapply (session_is_step base m _ _ (h, t) _ (sle_key s0));
      try done; [by eapply edit_update|by simpl; rewrite Hmap|by simpl; rewrite Hdr| |]; simpl; rewrite Hit.
    + rewrite lookup_insert_eq. destruct x; try done; set_solver.
    + intros k Hne. rewrite lookup_insert_ne by done. set_solver.
  - destruct Hl as [Hz Hn]. destruct (alloc_frame h base t s Hwf) as (Hwf' & _ & Hm' & _).
    pose proof (alloc_lookup h s) as Hal. rewrite <-Hs in Hn.
    destruct (ast_insert_map (alloc h s).2 base t (alloc h s).1 s) as (t' & E & _ & Hmap & Hdr);
      [done..|by rewrite Hm'|]. rewrite E; cbn. eexists; split; [done|].
    destruct (insert_items _ _ _ _ _ Hal E) as (x & Hit & Hx).
    eapply (session_is_step base m _ _ (h, t) _ (sle_key s)); try done;
      [by eapply edit_insert|by simpl; rewrite Hmap, Hm', Hs|by simpl; rewrite Hdr| |]; simpl; rewrite Hit.
    + rewrite lookup_insert_eq. destruct Hx as [-> | ->]; set_solver.
    + intros k Hne. rewrite lookup_insert_ne by done. set_solver.
  - destruct (session_held _ _ _ _ _ _ Hsi Hl) as (p & s0 & -> & Hh & <- & _). cbn.
    destruct (ast_erase_map h base t p s0 Hwf Hh) as (t' & E & _ & Hmap). rewrite E; cbn.
    destruct (erase_items h base t p s0 t' Hwf Hh E) as [Hdr Hit]. eexists; split; [done|].
    eapply (session_is_step base m _ _ (h, t) _ (sle_key s0)); try done;
      [by eapply edit_erase|by simpl; rewrite Hmap, Hs|by simpl; rewrite Hdr| |]; simpl.
    + destruct Hit as [-> | [-> Hn]]; [rewrite lookup_insert_eq|rewrite lookup_delete_eq]; simpl;
        [set_solver|]. rewrite <-Hm. split; [done|set_solver].
    + intros k Hne. destruct Hit as [-> | [-> _]];
        [rewrite lookup_insert_ne by done|rewrite lookup_delete_ne by done]; set_solver.
  - eexists; split; [done|]. eapply (session_is_step base m _ _ (h, t) _ 0%N); try done;
      [by apply edit_destroyXRP|by simpl; rewrite <-Hb|apply Hf].
Qed.

Lemma session_is_init h (base : V) :
  rv_wf h base -> session_is base (rv_map h base) (new_session (rv_map h base)) (h, empty_table).
Proof.
  intros Hwf. split; [by apply session_inv_init| |intros k; simpl; rewrite lookup_empty; simpl; set_solver|done]. simpl.
  apply map_eq. intros k. rewrite ast_lookup_table_map; simpl. by rewrite lookup_empty.
Qed.

Lemma run_edits_spec (base : V) m es a c :
  session_is base m a c -> legal_all a es ->
  exists c', run_edits base c es = Ok c' /\ session_is base m (session_spec a es) c'.
Proof.
  revert a c. induction es as [|e es IH]; intros a c Hsi; [by exists c|]. intros [Hl Hes].
  destruct (run_edit_spec base m a c e Hsi Hl) as (c1 & E & H1).
  destruct (IH _ _ H1 Hes) as (c2 & E2 & H2). exists c2. split; [|done].
  unfold run_edits in *; simpl. by rewrite E.
Qed.

(** The entries [apply] will write, and what it leaves. *)
Lemma session_committed base m a h t k :
  session_is base m a (h, t) ->
  committed_map h base t !! k = if decide (k ∈ recorded a) then shows a !! k else m !! k.
Proof.
  intros [(Hwf & Hm & _) Hs Hf _]. simpl in *. specialize (Hf k).
  unfold committed_map. rewrite lookup_overlay, <-Hs, ast_lookup_table_map, Hm.
  destruct (items_ t !! k) as [[[] p]|]; simpl in *; unfold commit_eff; simpl;
    destruct (decide _); try done; tauto.
Qed.

Lemma session_pending base m a h t k x p s :
  session_is base m a (h, t) -> items_ t !! k = Some (x, p) -> x = Insert \/ x = Modify ->
  h !! p = Some s -> k ∈ recorded a /\ shows a !! k = Some s.
Proof.
  intros [_ Hs Hf _] Hi Hx Hp. simpl in *. specialize (Hf k). rewrite Hi in Hf.
  rewrite <-Hs, ast_lookup_table_map, Hi. by destruct Hx as [-> | ->].
Qed.
End session_spec.

(** ** Replaying a table into a target *)
Section apply_laws.
Context {V W : Type} `{ReadViewLaws V} `{RawViewLaws W}.

Lemma ast_apply_item_spec h (w : W) k a p s :
  rv_wf h w -> h !! p = Some s -> sle_key s = k -> key_ok k ->
  (a = Insert <-> rv_map h w !! k = None) ->
  (a = Insert \/ a = Modify -> raw_takes W (rv_map h w !! k) s) ->
  exists w', apply_item h w (k, (a, p)) = Ok w' /\ rv_wf h w' /\
    rv_map h w' = partial_alter (commit_eff h (a, p)) k (rv_map h w) /\
    rv_destroyed w' = rv_destroyed w.
Proof.
  intros Hw Hs <- Hz Hact Htk. unfold apply_item; simpl.
  assert (forall o, commit_eff h (a, p) (rv_map h w !! sle_key s) = o ->
    partial_alter (commit_eff h (a, p)) (sle_key s) (rv_map h w) =
    partial_alter (fun _ => o) (sle_key s) (rv_map h w)) as Ho.
  { intros o E. apply partial_alter_ext. naive_solver. }
  destruct a; simpl in *.
  - exists w. split_and!; try done. symmetry. by apply partial_alter_id.
  - rewrite (Ho _ eq_refl). apply raw_erase_spec; try done.
    apply not_eq_None_Some. naive_solver.
  - rewrite (Ho _ eq_refl); unfold commit_eff; simpl. rewrite Hs.
    pose proof (proj1 Hact eq_refl) as En. rewrite En in Htk. apply raw_insert_spec; auto.
  - rewrite (Ho _ eq_refl); unfold commit_eff; simpl. rewrite Hs.
    apply raw_replace_spec; auto. apply not_eq_None_Some. naive_solver.
Qed.

Lemma ast_apply_map h (base : V) t (w : W) :
  table_wf h base t -> rv_wf h w -> rv_map h w = rv_map h base ->
  (forall k a p s, items_ t !! k = Some (a, p) -> a = Insert \/ a = Modify -> h !! p = Some s ->
     raw_takes W (rv_map h base !! k) s) ->
  exists w', apply h t w = Ok w' /\ rv_wf h w' /\
    rv_map h w' = committed_map h base t /\
    rv_destroyed w' = (rv_destroyed w + dropsDestroyed_ t)%Z.
Proof.
  intros Hwf Hw Hm Htk. unfold apply.
  destruct (raw_destroyXRP_spec h w (dropsDestroyed_ t) Hw) as (Hw1 & Hm1 & Hd1).
  destruct (replay_ordered h (commit_eff h) (apply_item h)
    (fun k x o => exists s, h !! x.2 = Some s /\ sle_key s = k /\ key_ok k /\
       (x.1 = Insert <-> o = None) /\ (x.1 = Insert \/ x.1 = Modify -> raw_takes W o s))) with (items := items_ t)
    (v := raw_destroyXRP w (dropsDestroyed_ t)) as (w' & E & Hw' & Hm' & Hd');
    [|done| |].
  - intros v k [a p] Hv (s & Hs & Hk & Hz & Ha & Ht). by eapply ast_apply_item_spec.
  - intros k [a p] Hk. destruct (wf_item _ _ _ Hwf _ _ _ Hk) as (s & ? & ? & ?).
    exists s. rewrite Hm1, Hm. split_and!; [done..|by eapply wf_insert|]. intros Hx. exact (Htk k a p s Hk Hx ltac:(done)).
  - exists w'. split_and!; [done|done| |lia].
    by rewrite Hm', Hm1, Hm.
Qed.
End apply_laws.
