(* ===== verification/Serializer.v ===== *)
(** * The binary serializer

    [Serializer] and [SerialIter] (Serializer.h/.cpp): the growable byte
    buffer every canonical form is assembled in, and the iterator that takes
    it apart.  Bytes are integers in [0, 255]; [int], [std::size_t] and the
    fixed-width results keep the wrap-around the conversions have. *)

From S2P Require Import Prelude.

Local Open Scope Z_scope.

(** ** Machine integers *)

Definition u8 (z : Z) : Z := z mod 2 ^ 8.
Definition u64 (z : Z) : Z := z mod 2 ^ 64.
(** Two's complement reading of the low [w] bits. *)
Definition signed (w z : Z) : Z :=
  let r := z mod 2 ^ w in if r <? 2 ^ (w - 1) then r else r - 2 ^ w.
Definition i32 (z : Z) : Z := signed 32 z.
Definition i64 (z : Z) : Z := signed 64 z.

Abbreviation Blob := (list Z).

Definition is_byte (b : Z) : Prop := 0 <= b < 256.

(** [v.size()], a [std::size_t]. *)
Definition blob_size (v : Blob) : Z := Z.of_nat (length v).

(** ** Serializer *)

Record Serializer : Type := mkSerializer { data_ : Blob }.

Definition empty_serializer : Serializer := mkSerializer [].

(** [int const ret = data_.size()]. *)
Definition getDataLength (s : Serializer) : Z := i32 (blob_size (data_ s)).

Definition push_back (bs : Blob) (s : Serializer) : Serializer := mkSerializer (data_ s ++ bs).

Definition addRaw (v : Blob) (s : Serializer) : Z * Serializer :=
  (getDataLength s, push_back v s).

Definition add8 (b : Z) (s : Serializer) : Z * Serializer := (getDataLength s, push_back [b] s).

Definition add16 (i : Z) (s : Serializer) : Z * Serializer :=
  (getDataLength s, push_back [u8 (Z.shiftr i 8); u8 (Z.land i 0xff)] s).

Definition add32 (i : Z) (s : Serializer) : Z * Serializer :=
  (getDataLength s, push_back
    [u8 (Z.land (Z.shiftr i 24) 0xff); u8 (Z.land (Z.shiftr i 16) 0xff);
     u8 (Z.land (Z.shiftr i 8) 0xff); u8 (Z.land i 0xff)] s).

Definition add64 (i : Z) (s : Serializer) : Z * Serializer :=
  (getDataLength s, push_back
    [u8 (Z.land (Z.shiftr i 56) 0xff); u8 (Z.land (Z.shiftr i 48) 0xff);
     u8 (Z.land (Z.shiftr i 40) 0xff); u8 (Z.land (Z.shiftr i 32) 0xff);
     u8 (Z.land (Z.shiftr i 24) 0xff); u8 (Z.land (Z.shiftr i 16) 0xff);
     u8 (Z.land (Z.shiftr i 8) 0xff); u8 (Z.land i 0xff)] s).

(** The big-endian bytes of a [BaseUInt] of [n] bytes. *)
Fixpoint be_bytes (n : nat) (v : Z) : Blob :=
  match n with
  | O => []
  | S n => u8 (Z.shiftr v (8 * Z.of_nat n)) :: be_bytes n v
  end.

Definition addBitString (n : nat) (v : Z) (s : Serializer) : Z * Serializer :=
  addRaw (be_bytes n v) s.

Definition addFieldID (type name : Z) (s : Serializer) : Z * Serializer :=
  let ret := getDataLength s in
  if type <? 16 then
    if name <? 16 then (ret, push_back [u8 (Z.lor (Z.shiftl type 4) name)] s)
    else (ret, push_back [u8 (Z.shiftl type 4); u8 name] s)
  else if name <? 16 then (ret, push_back [u8 name; u8 type] s)
  else (ret, push_back [u8 0; u8 type; u8 name] s).

(** The bytes [addEncoded] builds. *)
Definition encoded (length : Z) : result Blob :=
  if length <=? 192 then Ok [u8 length]
  else if length <=? 12480 then
    let length := length - 193 in
    Ok [u8 (193 + u8 (Z.shiftr length 8)); u8 (Z.land length 0xff)]
  else if length <=? 918744 then
    let length := length - 12481 in
    Ok [u8 (241 + u8 (Z.shiftr length 16)); u8 (Z.land (Z.shiftr length 8) 0xff);
        u8 (Z.land length 0xff)]
  else Throw "lenlen".

Definition addEncoded (length : Z) (s : Serializer) : result (Z * Serializer) :=
  bytes ← encoded length; Ok (addRaw bytes s).

(** The size is narrowed to [int] by the call of [addEncoded]. *)
Definition addVL (v : Blob) (s : Serializer) : result (Z * Serializer) :=
  '(ret, s) ← addEncoded (i32 (blob_size v)) s;
  Ok (ret, (addRaw v s).2).

Definition encodeLengthLength (length : Z) : result Z :=
  if length <? 0 then Throw "len<0"
  else if length <=? 192 then Ok 1
  else if length <=? 12480 then Ok 2
  else if length <=? 918744 then Ok 3
  else Throw "len>918744".

Definition decodeLengthLength (b1 : Z) : result Z :=
  if b1 <? 0 then Throw "b1<0"
  else if b1 <=? 192 then Ok 1
  else if b1 <=? 240 then Ok 2
  else if b1 <=? 254 then Ok 3
  else Throw "b1>254".

Definition decodeVLLength1 (b1 : Z) : result Z :=
  if b1 <? 0 then Throw "b1<0" else if 254 <? b1 then Throw "b1>254" else Ok b1.

Definition decodeVLLength2 (b1 b2 : Z) : result Z :=
  if b1 <? 193 then Throw "b1<193"
  else if 240 <? b1 then Throw "b1>240"
  else Ok (193 + (b1 - 193) * 256 + b2).

Definition decodeVLLength3 (b1 b2 b3 : Z) : result Z :=
  if b1 <? 241 then Throw "b1<241"
  else if 254 <? b1 then Throw "b1>254"
  else Ok (12481 + (b1 - 241) * 65536 + b2 * 256 + b3).

(** [get8(int&, int)]: the comparison is on [std::size_t]. *)
Definition get8_at (offset : Z) (s : Serializer) : option Z :=
  if blob_size (data_ s) <=? u64 offset then None else data_ s !! Z.to_nat offset.

Definition chop (bytes : Z) (s : Serializer) : bool * Serializer :=
  if blob_size (data_ s) <? u64 bytes then (false, s)
  else (true, mkSerializer (take (Z.to_nat (blob_size (data_ s) - bytes)) (data_ s))).

(** The loop of [getInteger<Integer>] for an unsigned [Integer] of [kBytes]. *)
Fixpoint getInteger_loop (kBytes : Z) (number : Z) (ptr : Blob) : Z :=
  match ptr with
  | [] => number
  | b :: ptr => getInteger_loop kBytes (Z.lor (Z.shiftl number 8 mod 2 ^ (8 * kBytes)) b) ptr
  end.

(** Indexing the buffer out of range is undefined; the check on
    [offset + kBytes] is on [std::size_t]. *)
Definition getInteger (kBytes : nat) (offset : Z) (s : Serializer) : result (option Z) :=
  if blob_size (data_ s) <? u64 (offset + Z.of_nat kBytes) then Ok None
  else if offset <? 0 then Throw "out of range"
  else Ok (Some (getInteger_loop (Z.of_nat kBytes) 0
                   (take kBytes (drop (Z.to_nat offset) (data_ s))))).

(** ** SerialIter

    [p_] points into the buffer the iterator was made from; it is the index
    of the next byte of [buf_] here. *)
Record SerialIter : Type := mkSerialIter {
  buf_ : Blob;
  p_ : Z;
  remain_ : Z;
  used_ : Z
}.

Definition makeSerialIter (data : Blob) : SerialIter := mkSerialIter data 0 (blob_size data) 0.

Definition iter_empty (it : SerialIter) : bool := remain_ it =? 0.

Definition getBytesLeft (it : SerialIter) : Z := i32 (remain_ it).

Definition reset (it : SerialIter) : SerialIter :=
  mkSerialIter (buf_ it) (p_ it - used_ it) (remain_ it + used_ it) 0.

(** [p_ += n; used_ += n; remain_ -= n]. *)
Definition advance (n : Z) (it : SerialIter) : SerialIter :=
  mkSerialIter (buf_ it) (p_ it + n) (remain_ it - n) (used_ it + n).

(** The [n] bytes from [p_] on; reading past the buffer is undefined. *)
Definition bytes_at (n : Z) (it : SerialIter) : result Blob :=
  if (0 <=? p_ it) && (p_ it + n <=? blob_size (buf_ it))
  then Ok (take (Z.to_nat n) (drop (Z.to_nat (p_ it)) (buf_ it)))
  else Throw "out of range".

(** The shape every getter shares: [remain_ < n] throws [msg] (an [int] [n]
    is converted to [std::size_t]), else the bytes are read and passed. *)
Definition fetch (msg : string) (n : Z) (it : SerialIter) : result (Blob * SerialIter) :=
  if remain_ it <? u64 n then Throw msg
  else t ← bytes_at n it; Ok (t, advance n it).

Definition skip (length : Z) (it : SerialIter) : result SerialIter :=
  if remain_ it <? u64 length then Throw "invalid SerialIter skip"
  else Ok (advance length it).

(** The sum of shifted bytes of [get16], [get32] and [get64]. *)
Fixpoint be_sum (t : Blob) : Z :=
  match t with
  | [] => 0
  | b :: t => Z.shiftl b (8 * Z.of_nat (length t)) + be_sum t
  end.

Definition get8 (it : SerialIter) : result (Z * SerialIter) :=
  '(t, it) ← fetch "invalid SerialIter get8" 1 it; Ok (be_sum t, it).

Definition get16 (it : SerialIter) : result (Z * SerialIter) :=
  '(t, it) ← fetch "invalid SerialIter get16" 2 it; Ok (be_sum t mod 2 ^ 16, it).

Definition get32 (it : SerialIter) : result (Z * SerialIter) :=
  '(t, it) ← fetch "invalid SerialIter get32" 4 it; Ok (be_sum t mod 2 ^ 32, it).

Definition get64 (it : SerialIter) : result (Z * SerialIter) :=
  '(t, it) ← fetch "invalid SerialIter get64" 8 it; Ok (be_sum t mod 2 ^ 64, it).

Definition geti32 (it : SerialIter) : result (Z * SerialIter) :=
  '(t, it) ← fetch "invalid SerialIter geti32" 4 it; Ok (i32 (be_sum t), it).

Definition geti64 (it : SerialIter) : result (Z * SerialIter) :=
  '(t, it) ← fetch "invalid SerialIter geti64" 8 it; Ok (i64 (be_sum t), it).

(** [getBitString<8 n>]. *)
Definition getBitString (n : nat) (it : SerialIter) : result (Z * SerialIter) :=
  '(t, it) ← fetch "invalid SerialIter getBitString" (Z.of_nat n) it; Ok (be_sum t, it).

Definition getFieldID (it : SerialIter) : result (Z * Z * SerialIter) :=
  '(type, it) ← get8 it;
  let name := Z.land type 15 in
  let type := Z.shiftr type 4 in
  '(type, it) ←
    (if type =? 0 then
       '(type, it) ← get8 it;
       if type <? 16 then Throw "gFID: uncommon type out of range" else Ok (type, it)
     else Ok (type, it));
  '(name, it) ←
    (if name =? 0 then
       '(name, it) ← get8 it;
       if name <? 16 then Throw "gFID: uncommon name out of range" else Ok (name, it)
     else Ok (name, it));
  Ok (type, name, it).

Definition getRaw (size : Z) (it : SerialIter) : result (Blob * SerialIter) :=
  if remain_ it <? u64 size then Throw "invalid SerialIter getRaw"
  else if size =? 0 then Ok ([], it)
  else t ← bytes_at size it; Ok (t, advance size it).

Definition getVLDataLength (it : SerialIter) : result (Z * SerialIter) :=
  '(b1, it) ← get8 it;
  lenLen ← decodeLengthLength b1;
  if lenLen =? 1 then datLen ← decodeVLLength1 b1; Ok (datLen, it)
  else if lenLen =? 2 then
    '(b2, it) ← get8 it;
    datLen ← decodeVLLength2 b1 b2; Ok (datLen, it)
  else
    '(b2, it) ← get8 it;
    '(b3, it) ← get8 it;
    datLen ← decodeVLLength3 b1 b2 b3; Ok (datLen, it).

Definition getSlice (bytes : Z) (it : SerialIter) : result (Blob * SerialIter) :=
  fetch "invalid SerialIter getSlice" bytes it.

Definition getVL (it : SerialIter) : result (Blob * SerialIter) :=
  '(n, it) ← getVLDataLength it; getRaw n it.

(** ** Big-endian numbers *)

Lemma u8_land z : u8 (Z.land z 0xff) = u8 z.
Proof.
  unfold u8. change 0xff with (Z.ones 8). rewrite Z.land_ones by lia.
  by rewrite Z.mod_mod.
Qed.

Lemma u8_byte z : is_byte (u8 z).
Proof. unfold is_byte, u8. apply Z.mod_pos_bound. lia. Qed.

Lemma u8_id z : is_byte z -> u8 z = z.
Proof. unfold is_byte, u8. intros. rewrite Z.mod_small; lia. Qed.

Lemma length_be_bytes n v : length (be_bytes n v) = n.
Proof. induction n; simpl; congruence. Qed.

Lemma be_bytes_byte n v : Forall is_byte (be_bytes n v).
Proof. induction n; simpl; constructor; [apply u8_byte|done]. Qed.

Lemma be_sum_bound t : Forall is_byte t -> 0 <= be_sum t < 2 ^ (8 * Z.of_nat (length t)).
Proof.
  induction 1 as [|b t Hb Ht IH]; simpl; [lia|].
  rewrite Z.shiftl_mul_pow2 by lia.
  replace (8 * Z.of_nat (S (length t))) with (8 + 8 * Z.of_nat (length t)) by lia.
  rewrite Z.pow_add_r by lia. unfold is_byte in Hb. nia.
Qed.

Lemma be_sum_be_bytes n v : be_sum (be_bytes n v) = v mod 2 ^ (8 * Z.of_nat n).
Proof.
  induction n as [|n IH]; simpl; [by rewrite Z.mod_1_r|].
  rewrite length_be_bytes, IH, Z.shiftl_mul_pow2, Z.shiftr_div_pow2 by lia. unfold u8.
  replace (8 * Z.of_nat (S n)) with (8 * Z.of_nat n + 8) by lia.
  rewrite (Z.pow_add_r 2 (8 * Z.of_nat n) 8) by lia.
  rewrite (Z.rem_mul_r v (2 ^ (8 * Z.of_nat n)) (2 ^ 8)) by lia. lia.
Qed.

(** Only the low bytes count. *)
Lemma be_bytes_ext n v w :
  v mod 2 ^ (8 * Z.of_nat n) = w mod 2 ^ (8 * Z.of_nat n) -> be_bytes n v = be_bytes n w.
Proof.
  revert v w. induction n as [|n IHn]; intros v w Hvw; simpl; [done|].
  replace (8 * Z.of_nat (S n)) with (8 * Z.of_nat n + 8) in Hvw by lia.
  rewrite (Z.pow_add_r 2 (8 * Z.of_nat n) 8) in Hvw by lia.
  rewrite !(Z.rem_mul_r _ (2 ^ (8 * Z.of_nat n)) (2 ^ 8)) in Hvw by lia.
  unfold u8. rewrite !Z.shiftr_div_pow2 by lia.
  pose proof (Z.mod_pos_bound v (2 ^ (8 * Z.of_nat n)) ltac:(lia)).
  pose proof (Z.mod_pos_bound w (2 ^ (8 * Z.of_nat n)) ltac:(lia)).
  destruct (Z.div_mod_unique (2 ^ (8 * Z.of_nat n)) ((v / 2 ^ (8 * Z.of_nat n)) mod 2 ^ 8)
    ((w / 2 ^ (8 * Z.of_nat n)) mod 2 ^ 8) (v mod 2 ^ (8 * Z.of_nat n))
    (w mod 2 ^ (8 * Z.of_nat n))) as [-> ?]; [by left|by left|lia|].
  f_equal. by apply IHn.
Qed.

Lemma be_bytes_mod n v : be_bytes n (v mod 2 ^ (8 * Z.of_nat n)) = be_bytes n v.
Proof. apply be_bytes_ext. by rewrite Z.mod_mod by lia. Qed.

Lemma be_bytes_be_sum t : Forall is_byte t -> be_bytes (length t) (be_sum t) = t.
Proof.
  induction 1 as [|b t Hb Ht IH]; simpl; [done|].
  pose proof (be_sum_bound t Ht) as Hs. rewrite Z.shiftl_mul_pow2, Z.shiftr_div_pow2 by lia.
  rewrite Z.div_add_l, (Z.div_small (be_sum t)), Z.add_0_r by lia. rewrite u8_id by done.
  f_equal.
  etrans; [|exact IH]. apply be_bytes_ext. rewrite Z.add_comm, Z.mod_add by lia. done.
Qed.

(** The shifts of [add16], [add32] and [add64] are the big-endian bytes. *)
Lemma add16_bytes i s : data_ (add16 i s).2 = data_ s ++ be_bytes 2 i.
Proof. unfold add16, push_back. simpl. by rewrite u8_land. Qed.

Lemma add32_bytes i s : data_ (add32 i s).2 = data_ s ++ be_bytes 4 i.
Proof. unfold add32, push_back. simpl data_. by rewrite !u8_land. Qed.

Lemma add64_bytes i s : data_ (add64 i s).2 = data_ s ++ be_bytes 8 i.
Proof. unfold add64, push_back. simpl data_. by rewrite !u8_land. Qed.

Lemma signed_mod w z : 0 < w -> signed w (z mod 2 ^ w) = signed w z.
Proof. intros Hw. unfold signed. by rewrite Z.mod_mod by lia. Qed.

Lemma signed_id w z : 0 < w -> - 2 ^ (w - 1) <= z < 2 ^ (w - 1) -> signed w z = z.
Proof.
  intros Hw Hz. unfold signed.
  assert (2 ^ w = 2 * 2 ^ (w - 1)) as Hp.
  { replace w with (1 + (w - 1)) at 1 by lia. by rewrite Z.pow_add_r by lia. }
  destruct (Z_lt_le_dec z 0).
  - rewrite <-(Z.mod_add z 1 (2 ^ w)), Z.mod_small by lia.
    destruct (Z.ltb_spec (z + 1 * 2 ^ w) (2 ^ (w - 1))); lia.
  - rewrite Z.mod_small by lia. destruct (Z.ltb_spec z (2 ^ (w - 1))); lia.
Qed.

(** ** Iterators

    [iter_at pre bs] is the iterator of the buffer [pre ++ bs] that has
    consumed [pre]; these are the iterators the operations reach. *)
Definition iter_at (pre bs : Blob) : SerialIter :=
  mkSerialIter (pre ++ bs) (blob_size pre) (blob_size bs) (blob_size pre).

Lemma blob_size_app v w : blob_size (v ++ w) = blob_size v + blob_size w.
Proof. unfold blob_size. rewrite length_app. lia. Qed.

Lemma blob_size_nonneg v : 0 <= blob_size v.
Proof. unfold blob_size. lia. Qed.

Lemma makeSerialIter_at data : makeSerialIter data = iter_at [] data.
Proof. done. Qed.

Lemma reset_at pre bs : reset (iter_at pre bs) = iter_at [] (pre ++ bs).
Proof.
  unfold reset, iter_at. simpl. rewrite blob_size_app. f_equal; unfold blob_size; simpl; lia.
Qed.

(** A buffer fits the address space. *)
Definition fits (bs : Blob) : Prop := blob_size bs < 2 ^ 64.

Lemma fits_app_l v w : fits (v ++ w) -> fits v.
Proof. unfold fits. rewrite blob_size_app. pose proof (blob_size_nonneg w). lia. Qed.

Lemma fits_app_r v w : fits (v ++ w) -> fits w.
Proof. unfold fits. rewrite blob_size_app. pose proof (blob_size_nonneg v). lia. Qed.

Lemma u64_size t : fits t -> u64 (blob_size t) = blob_size t.
Proof.
  unfold fits, u64. intros. apply Z.mod_small. pose proof (blob_size_nonneg t). lia.
Qed.

Lemma bytes_at_app pre t bs : bytes_at (blob_size t) (iter_at pre (t ++ bs)) = Ok t.
Proof.
  unfold bytes_at, iter_at. cbn [p_ buf_]. rewrite !blob_size_app.
  pose proof (blob_size_nonneg pre). pose proof (blob_size_nonneg bs).
  rewrite (proj2 (Z.leb_le 0 _)), (proj2 (Z.leb_le (_ + _) _)) by lia. cbn [andb].
  unfold blob_size. by rewrite !Nat2Z.id, drop_app_length, take_app_length.
Qed.

Lemma advance_app pre t bs :
  advance (blob_size t) (iter_at pre (t ++ bs)) = iter_at (pre ++ t) bs.
Proof.
  unfold advance, iter_at. cbn. rewrite !blob_size_app, app_assoc. f_equal. lia.
Qed.

(** Fetching is splitting the bytes that are left ... *)
Lemma fetch_app msg pre t bs :
  fits t -> fetch msg (blob_size t) (iter_at pre (t ++ bs)) = Ok (t, iter_at (pre ++ t) bs).
Proof.
  intros Hf. unfold fetch. cbn [remain_ iter_at]. rewrite u64_size, blob_size_app by done.
  pose proof (blob_size_nonneg bs). rewrite (proj2 (Z.ltb_ge _ _)) by lia.
  rewrite bytes_at_app. cbn [mbind result_bind]. by rewrite advance_app.
Qed.

(** ... and throws exactly when there are too few. *)
Lemma fetch_short msg pre bs n :
  0 <= n < 2 ^ 64 -> blob_size bs < n -> fetch msg n (iter_at pre bs) = Throw msg.
Proof.
  intros Hn Hlt. unfold fetch. cbn [remain_ iter_at]. unfold u64.
  rewrite Z.mod_small by lia. by rewrite (proj2 (Z.ltb_lt _ _)).
Qed.

Lemma fetch_inv msg n pre bs t it :
  0 <= n < 2 ^ 64 -> fetch msg n (iter_at pre bs) = Ok (t, it) ->
  exists bs', bs = t ++ bs' /\ blob_size t = n /\ it = iter_at (pre ++ t) bs'.
Proof.
  intros Hn E. destruct (Z_lt_le_dec (blob_size bs) n) as [Hlt|Hge];
    [by rewrite fetch_short in E|].
  assert (blob_size (take (Z.to_nat n) bs) = n) as Ht.
  { unfold blob_size in *. rewrite length_take. lia. }
  pose proof (fetch_app msg pre (take (Z.to_nat n) bs) (drop (Z.to_nat n) bs)
    ltac:(unfold fits; lia)) as E'.
  rewrite Ht, take_drop, E in E'. injection E' as -> ->.
  eexists. split_and!; [by rewrite take_drop|done|done].
Qed.

(** ** Reading back what was written *)

Lemma get8_cons pre b bs : get8 (iter_at pre (b :: bs)) = Ok (b, iter_at (pre ++ [b]) bs).
Proof.
  unfold get8. change (b :: bs) with ([b] ++ bs). change 1 with (blob_size [b]).
  rewrite fetch_app by done. cbn [mbind result_bind be_sum]. by rewrite Z.shiftl_0_r, Z.add_0_r.
Qed.

Lemma get8_nil pre : get8 (iter_at pre []) = Throw "invalid SerialIter get8".
Proof. done. Qed.

Lemma fetch_be_bytes msg n pre i rest :
  (n <= 64)%nat ->
  fetch msg (Z.of_nat n) (iter_at pre (be_bytes n i ++ rest)) =
  Ok (be_bytes n i, iter_at (pre ++ be_bytes n i) rest).
Proof.
  intros Hn. assert (blob_size (be_bytes n i) = Z.of_nat n) as E
    by (unfold blob_size; by rewrite length_be_bytes).
  rewrite <-E at 1. apply fetch_app. unfold fits. lia.
Qed.

(** Each getter on the big-endian bytes of a number. *)
Lemma get16_be pre i rest :
  get16 (iter_at pre (be_bytes 2 i ++ rest)) = Ok (i mod 2 ^ 16, iter_at (pre ++ be_bytes 2 i) rest).
Proof.
  unfold get16. rewrite (fetch_be_bytes _ 2) by lia. cbn [mbind result_bind].
  by rewrite be_sum_be_bytes, Z.mod_mod by lia.
Qed.

Lemma get32_be pre i rest :
  get32 (iter_at pre (be_bytes 4 i ++ rest)) = Ok (i mod 2 ^ 32, iter_at (pre ++ be_bytes 4 i) rest).
Proof.
  unfold get32. rewrite (fetch_be_bytes _ 4) by lia. cbn [mbind result_bind].
  by rewrite be_sum_be_bytes, Z.mod_mod by lia.
Qed.

Lemma get64_be pre i rest :
  get64 (iter_at pre (be_bytes 8 i ++ rest)) = Ok (i mod 2 ^ 64, iter_at (pre ++ be_bytes 8 i) rest).
Proof.
  unfold get64. rewrite (fetch_be_bytes _ 8) by lia. cbn [mbind result_bind].
  by rewrite be_sum_be_bytes, Z.mod_mod by lia.
Qed.

Lemma geti32_be pre i rest :
  geti32 (iter_at pre (be_bytes 4 i ++ rest)) = Ok (i32 i, iter_at (pre ++ be_bytes 4 i) rest).
Proof.
  unfold geti32. rewrite (fetch_be_bytes _ 4) by lia. cbn [mbind result_bind].
  rewrite be_sum_be_bytes. unfold i32. by rewrite (signed_mod 32) by lia.
Qed.

Lemma geti64_be pre i rest :
  geti64 (iter_at pre (be_bytes 8 i ++ rest)) = Ok (i64 i, iter_at (pre ++ be_bytes 8 i) rest).
Proof.
  unfold geti64. rewrite (fetch_be_bytes _ 8) by lia. cbn [mbind result_bind].
  rewrite be_sum_be_bytes. unfold i64. by rewrite (signed_mod 64) by lia.
Qed.

Lemma getBitString_be n pre i rest :
  (n <= 64)%nat ->
  getBitString n (iter_at pre (be_bytes n i ++ rest)) =
  Ok (i mod 2 ^ (8 * Z.of_nat n), iter_at (pre ++ be_bytes n i) rest).
Proof.
  intros Hn. unfold getBitString. rewrite fetch_be_bytes by done. cbn [mbind result_bind].
  by rewrite be_sum_be_bytes.
Qed.

(** The iterator at what was appended between [s] and [s'], before [rest]. *)
Definition appended (s s' : Serializer) : Blob := drop (length (data_ s)) (data_ s').
Definition reader (s s' : Serializer) (rest : Blob) : SerialIter :=
  iter_at (data_ s) (appended s s' ++ rest).

Lemma reader_at s s' enc rest :
  data_ s' = data_ s ++ enc -> reader s s' rest = iter_at (data_ s) (enc ++ rest).
Proof. intros E. unfold reader, appended. by rewrite E, drop_app_length. Qed.

(** *** Field identifiers *)

Definition fieldID_bytes (type name : Z) : Blob :=
  if type <? 16 then
    if name <? 16 then [u8 (Z.lor (Z.shiftl type 4) name)] else [u8 (Z.shiftl type 4); u8 name]
  else if name <? 16 then [u8 name; u8 type] else [u8 0; u8 type; u8 name].

Lemma addFieldID_bytes type name s :
  data_ (addFieldID type name s).2 = data_ s ++ fieldID_bytes type name.
Proof. unfold addFieldID, fieldID_bytes. by destruct (type <? 16), (name <? 16). Qed.

(** The two halves of a byte. *)
Lemma nibbles_split b : is_byte b ->
  0 <= Z.shiftr b 4 < 16 /\ 0 <= Z.land b 15 < 16 /\ b = Z.lor (Z.shiftl (Z.shiftr b 4) 4) (Z.land b 15).
Proof.
  intros Hb. unfold is_byte in Hb. rewrite Z.shiftr_div_pow2 by lia.
  change 15 with (Z.ones 4). rewrite Z.land_ones by lia.
  split_and!; [Z.to_euclidean_division_equations; lia..|].
  rewrite <-Z.shiftr_div_pow2, <-Z.land_ones, <-Z.ldiff_ones_r by lia.
  symmetry. apply Z.lor_ldiff_and.
Qed.

Lemma nibbles_join t n : 0 <= t < 16 -> 0 <= n < 16 ->
  is_byte (Z.lor (Z.shiftl t 4) n) /\ Z.land (Z.lor (Z.shiftl t 4) n) 15 = n /\
  Z.shiftr (Z.lor (Z.shiftl t 4) n) 4 = t.
Proof.
  intros Ht Hn.
  assert (Z.land (Z.lor (Z.shiftl t 4) n) 15 = n) as E1.
  { change 15 with (Z.ones 4). rewrite Z.land_ones by lia.
    rewrite <-Z.land_ones, Z.land_lor_distr_l, !Z.land_ones by lia.
    rewrite Z.shiftl_mul_pow2, Z.mod_mul, Z.mod_small by lia. done. }
  assert (Z.shiftr (Z.lor (Z.shiftl t 4) n) 4 = t) as E2.
  { rewrite Z.shiftr_lor, Z.shiftr_shiftl_l, Z.sub_diag, Z.shiftl_0_r by lia.
    rewrite (Z.shiftr_div_pow2 n), Z.div_small, Z.lor_0_r by lia. done. }
  split_and!; try done. unfold is_byte.
  rewrite Z.shiftr_div_pow2 in E2 by lia. change 15 with (Z.ones 4) in E1.
  rewrite Z.land_ones in E1 by lia. Z.to_euclidean_division_equations. lia.
Qed.

Lemma getFieldID_spec pre type name rest :
  1 <= type <= 255 -> 1 <= name <= 255 ->
  getFieldID (iter_at pre (fieldID_bytes type name ++ rest)) =
  Ok (type, name, iter_at (pre ++ fieldID_bytes type name) rest).
Proof.
  intros Ht Hn. unfold fieldID_bytes, getFieldID.
  destruct (Z.ltb_spec type 16) as [Ht'|Ht'], (Z.ltb_spec name 16) as [Hn'|Hn'];
    cbn [app]; rewrite get8_cons; cbn [mbind result_bind].
  - destruct (nibbles_join type name) as (? & E1 & E2); [lia..|]. rewrite u8_id, E1, E2 by done.
    by rewrite (proj2 (Z.eqb_neq type 0)), (proj2 (Z.eqb_neq name 0)) by lia.
  - destruct (nibbles_join type 0) as (? & E1 & E2); [lia..|]. rewrite Z.lor_0_r in *.
    rewrite (u8_id (Z.shiftl type 4)), E1, E2 by done.
    rewrite (proj2 (Z.eqb_neq type 0)) by lia. cbn [mbind result_bind].
    rewrite Z.eqb_refl, get8_cons. cbn [mbind result_bind].
    rewrite u8_id by (unfold is_byte; lia). rewrite (proj2 (Z.ltb_ge name 16)) by lia.
    cbn [mbind result_bind]. by rewrite <-app_assoc.
  - destruct (nibbles_join 0 name) as (? & E1 & E2); [lia..|]. rewrite Z.shiftl_0_l, Z.lor_0_l in *.
    rewrite (u8_id name), E1, E2, Z.eqb_refl, get8_cons by done. cbn [mbind result_bind].
    rewrite u8_id by (unfold is_byte; lia). rewrite (proj2 (Z.ltb_ge type 16)) by lia.
    cbn [mbind result_bind]. rewrite (proj2 (Z.eqb_neq name 0)) by lia.
    cbn [mbind result_bind]. by rewrite <-app_assoc.
  - change (Z.land (u8 0) 15) with 0. change (Z.shiftr (u8 0) 4) with 0.
    rewrite Z.eqb_refl, get8_cons. cbn [mbind result_bind].
    rewrite (u8_id type) by (unfold is_byte; lia). rewrite (proj2 (Z.ltb_ge type 16)) by lia.
    cbn [mbind result_bind]. rewrite get8_cons. cbn [mbind result_bind].
    rewrite (u8_id name) by (unfold is_byte; lia). rewrite (proj2 (Z.ltb_ge name 16)) by lia.
    cbn [mbind result_bind]. by rewrite <-!app_assoc.
Qed.

Lemma get8_inv pre bs b it :
  get8 (iter_at pre bs) = Ok (b, it) ->
  exists bs', bs = b :: bs' /\ it = iter_at (pre ++ [b]) bs'.
Proof.
  destruct bs as [|b' bs]; [by rewrite get8_nil|]. rewrite get8_cons.
  intros [= <- <-]. by exists bs.
Qed.

(** Each identifier has one encoding: what [getFieldID] accepts is what
    [addFieldID] writes. *)
Lemma getFieldID_inv pre bs type name it :
  Forall is_byte bs -> getFieldID (iter_at pre bs) = Ok (type, name, it) ->
  1 <= type <= 255 /\ 1 <= name <= 255 /\
  exists rest, bs = fieldID_bytes type name ++ rest /\
    it = iter_at (pre ++ fieldID_bytes type name) rest.
Proof.
  intros Hbs E. unfold getFieldID in E.
  apply bind_Ok in E as ([b it1] & (bs1 & -> & ->)%get8_inv & E).
  apply Forall_cons in Hbs as [Hb Hbs].
  destruct (nibbles_split b Hb) as (Ht & Hn & Hsp).
  apply bind_Ok in E as ([ty it2] & E2 & E). apply bind_Ok in E as ([nm it3] & E3 & [= <- <- <-]).
  set (pre1 := pre ++ [b]) in *.
  assert (exists l2 bs2, bs1 = l2 ++ bs2 /\ it2 = iter_at (pre1 ++ l2) bs2 /\
    1 <= ty <= 255 /\ (l2 = [] /\ ty = Z.shiftr b 4 /\ ty < 16 \/
                       l2 = [ty] /\ Z.shiftr b 4 = 0 /\ 16 <= ty))
    as (l2 & bs2 & -> & -> & Hty & Hc2).
  { destruct (Z.eqb_spec (Z.shiftr b 4) 0) as [Hz|Hz].
    - apply bind_Ok in E2 as ([t it'] & (bs2 & -> & ->)%get8_inv & E2).
      apply Forall_cons in Hbs as [Hb2 _]. unfold is_byte in Hb2.
      destruct (Z.ltb_spec t 16); [done|]. injection E2 as <- <-.
      exists [t], bs2. split_and!; try done; [lia..|]. right. split_and!; [done..|lia].
    - injection E2 as <- <-. exists [], bs1. rewrite app_nil_r. split_and!; try done; [lia..|].
      left. split_and!; [done..|lia]. }
  apply Forall_app in Hbs as [_ Hbs].
  assert (exists l3 bs3, bs2 = l3 ++ bs3 /\ it3 = iter_at ((pre1 ++ l2) ++ l3) bs3 /\
    1 <= nm <= 255 /\ (l3 = [] /\ nm = Z.land b 15 /\ nm < 16 \/
                       l3 = [nm] /\ Z.land b 15 = 0 /\ 16 <= nm))
    as (l3 & bs3 & -> & -> & Hnm & Hc3).
  { destruct (Z.eqb_spec (Z.land b 15) 0) as [Hz|Hz].
    - apply bind_Ok in E3 as ([t it'] & (bs3 & -> & ->)%get8_inv & E3).
      apply Forall_cons in Hbs as [Hb2 _]. unfold is_byte in Hb2.
      destruct (Z.ltb_spec t 16); [done|]. injection E3 as <- <-.
      exists [t], bs3. split_and!; try done; [lia..|]. right. split_and!; [done..|lia].
    - injection E3 as <- <-. exists [], bs2. rewrite app_nil_r. split_and!; try done; [lia..|].
      left. split_and!; [done..|lia]. }
  split_and!; [lia..|]. exists bs3.
  assert (fieldID_bytes ty nm = b :: l2 ++ l3) as ->; [|].
  { unfold fieldID_bytes.
    destruct Hc2 as [(-> & E4 & ?)|(-> & E4 & ?)], Hc3 as [(-> & E5 & ?)|(-> & E5 & ?)];
      destruct (Z.ltb_spec ty 16), (Z.ltb_spec nm 16); try lia;
      rewrite ?(u8_id ty), ?(u8_id nm) by (unfold is_byte; lia); cbn [app].
    - by rewrite E4, E5, <-Hsp, u8_id.
    - rewrite E5, Z.lor_0_r in Hsp. by rewrite E4, <-Hsp, u8_id.
    - rewrite E4, Z.shiftl_0_l, Z.lor_0_l in Hsp. by rewrite E5, <-Hsp.
    - rewrite E4, E5 in Hsp. by rewrite Hsp. }
  unfold pre1. cbn [app]. by rewrite <-!app_assoc.
Qed.

(** *** Variable-length data *)

Ltac u8_arith :=
  unfold u8 in *; change 0xff with (Z.ones 8) in *;
  rewrite ?Z.land_ones, ?Z.shiftr_div_pow2 in * by lia;
  Z.to_euclidean_division_equations; lia.

(** The three low bytes of a length. *)
Lemma three_bytes m : 0 <= m < 14 * 65536 ->
  u8 (241 + u8 (Z.shiftr m 16)) = 241 + m / 65536 /\ 0 <= m / 65536 < 14 /\
  u8 (Z.land (Z.shiftr m 8) 0xff) = (m / 256) mod 256 /\ u8 (Z.land m 0xff) = m mod 256 /\
  m = m / 65536 * 65536 + (m / 256) mod 256 * 256 + m mod 256.
Proof.
  intros Hm. rewrite !u8_land, !Z.shiftr_div_pow2 by lia. unfold u8.
  change (2 ^ 16) with 65536. change (2 ^ 8) with 256.
  assert (m / 65536 = m / 256 / 256) as Hd by (by rewrite Z.div_div).
  assert (0 <= m / 65536 < 14) by (Z.to_euclidean_division_equations; lia).
  rewrite !(Z.mod_small (m / 65536)), (Z.mod_small (241 + _)) by lia.
  split_and!; try done; [lia..|]. rewrite Hd. Z.to_euclidean_division_equations. lia.
Qed.

Lemma getVLDataLength_spec pre n enc rest :
  0 <= n -> encoded n = Ok enc ->
  getVLDataLength (iter_at pre (enc ++ rest)) = Ok (n, iter_at (pre ++ enc) rest).
Proof.
  intros Hn. unfold encoded, getVLDataLength.
  destruct (Z.leb_spec n 192) as [H1|H1];
    [|destruct (Z.leb_spec n 12480) as [H2|H2]; [|destruct (Z.leb_spec n 918744) as [H3|H3]; [|done]]];
    intros [= <-]; cbn [app]; rewrite get8_cons; cbn [mbind result_bind].
  - rewrite u8_id by (unfold is_byte; lia). unfold decodeLengthLength, decodeVLLength1.
    rewrite (proj2 (Z.ltb_ge n 0)), (proj2 (Z.leb_le n 192)) by lia. cbn [mbind result_bind].
    by rewrite (proj2 (Z.ltb_ge 254 n)) by lia.
  - remember (u8 (193 + _)) as b1 eqn:E1. remember (u8 (Z.land _ _)) as b2 eqn:E2.
    assert (193 <= b1 <= 240 /\ 193 + (b1 - 193) * 256 + b2 = n) as [Hb1 <-] by u8_arith.
    clear E1 E2.
    unfold decodeLengthLength, decodeVLLength2.
    rewrite (proj2 (Z.ltb_ge b1 0)), (proj2 (Z.leb_gt b1 192)), (proj2 (Z.leb_le b1 240)) by lia.
    cbn [mbind result_bind]. rewrite get8_cons. cbn [mbind result_bind].
    rewrite (proj2 (Z.ltb_ge b1 193)), (proj2 (Z.ltb_ge 240 b1)) by lia.
    cbn [mbind result_bind]. by rewrite <-app_assoc.
  - destruct (three_bytes (n - 12481)) as (-> & Hr & -> & -> & Hm); [lia|].
    revert Hm Hr. generalize ((n - 12481) / 65536) as q, (((n - 12481) / 256) mod 256) as b2,
      ((n - 12481) mod 256) as b3. intros q b2 b3 Hm Hr.
    assert (241 <= 241 + q <= 254 /\ 12481 + (241 + q - 241) * 65536 + b2 * 256 + b3 = n)
      as [Hb1 <-] by lia.
    clear Hm. generalize (241 + q) as b1, Hb1. clear Hb1. intros b1 Hb1.
    unfold decodeLengthLength, decodeVLLength3.
    rewrite (proj2 (Z.ltb_ge b1 0)), (proj2 (Z.leb_gt b1 192)), (proj2 (Z.leb_gt b1 240)),
      (proj2 (Z.leb_le b1 254)) by lia.
    cbn [mbind result_bind]. rewrite get8_cons. cbn [mbind result_bind].
    rewrite get8_cons. cbn [mbind result_bind].
    rewrite (proj2 (Z.ltb_ge b1 241)), (proj2 (Z.ltb_ge 254 b1)) by lia.
    cbn [mbind result_bind]. by rewrite <-!app_assoc.
Qed.

(** A length that the encoder can write has one encoding; the decoder also
    reads 918745 to 929984, which the encoder refuses. *)
Lemma getVLDataLength_inv pre bs n it :
  Forall is_byte bs -> getVLDataLength (iter_at pre bs) = Ok (n, it) ->
  0 <= n <= 929984 /\
  exists enc rest, bs = enc ++ rest /\ it = iter_at (pre ++ enc) rest /\
    (n <= 918744 -> encoded n = Ok enc).
Proof.
  intros Hbs E. unfold getVLDataLength in E.
  apply bind_Ok in E as ([b1 it1] & (bs1 & -> & ->)%get8_inv & E).
  apply Forall_cons in Hbs as [Hb1 Hbs]. unfold is_byte in Hb1.
  apply bind_Ok in E as (ll & Ell & E). unfold decodeLengthLength in Ell.
  destruct (Z.ltb_spec b1 0); [done|].
  destruct (Z.leb_spec b1 192) as [H1|H1]; [|destruct (Z.leb_spec b1 240) as [H2|H2];
    [|destruct (Z.leb_spec b1 254) as [H3|H3]; [|done]]]; injection Ell as <-;
    cbn [Z.eqb Pos.eqb] in E.
  - apply bind_Ok in E as (x & Ex & [= <- <-]). unfold decodeVLLength1 in Ex.
    destruct (b1 <? 0), (254 <? b1); try done. injection Ex as <-.
    split; [lia|]. exists [b1], bs1. split_and!; try done. intros _. unfold encoded.
    rewrite (proj2 (Z.leb_le b1 192)), u8_id by (unfold is_byte; lia). done.
  - apply bind_Ok in E as ([b2 it2] & (bs2 & -> & ->)%get8_inv & E).
    apply Forall_cons in Hbs as [Hb2 _]. unfold is_byte in Hb2.
    apply bind_Ok in E as (x & Ex & [= <- <-]). unfold decodeVLLength2 in Ex.
    destruct (b1 <? 193), (240 <? b1); try done. injection Ex as <-.
    split; [lia|]. exists [b1; b2], bs2. rewrite <-app_assoc. split_and!; try done. intros _.
    unfold encoded. rewrite (proj2 (Z.leb_gt _ 192)), (proj2 (Z.leb_le _ 12480)) by lia.
    do 2 f_equal; [|f_equal]; u8_arith.
  - apply bind_Ok in E as ([b2 it2] & (bs2 & -> & ->)%get8_inv & E).
    apply bind_Ok in E as ([b3 it3] & (bs3 & -> & ->)%get8_inv & E).
    apply Forall_cons in Hbs as [Hb2 [Hb3 _]%Forall_cons]. unfold is_byte in Hb2, Hb3.
    apply bind_Ok in E as (x & Ex & [= <- <-]). unfold decodeVLLength3 in Ex.
    destruct (b1 <? 241), (254 <? b1); try done. injection Ex as <-.
    split; [lia|]. exists [b1; b2; b3], bs3. rewrite <-!app_assoc. split_and!; try done. intros Hx.
    unfold encoded. rewrite (proj2 (Z.leb_gt _ 192)), (proj2 (Z.leb_gt _ 12480)),
      (proj2 (Z.leb_le _ 918744)) by lia.
    destruct (three_bytes (12481 + (b1 - 241) * 65536 + b2 * 256 + b3 - 12481))
      as (-> & _ & -> & -> & _); [lia|].
    do 2 f_equal; [|f_equal; [|f_equal]]; Z.to_euclidean_division_equations; lia.
Qed.

Lemma getRaw_fetch n it :
  n <> 0 -> getRaw n it = fetch "invalid SerialIter getRaw" n it.
Proof. intros Hn. unfold getRaw, fetch. by rewrite (proj2 (Z.eqb_neq n 0)). Qed.

Lemma getRaw_nil it : 0 <= remain_ it -> getRaw 0 it = Ok ([], it).
Proof. intros Hr. unfold getRaw. change (u64 0) with 0. by rewrite (proj2 (Z.ltb_ge _ 0)). Qed.

Lemma getRaw_app pre t bs :
  fits t -> getRaw (blob_size t) (iter_at pre (t ++ bs)) = Ok (t, iter_at (pre ++ t) bs).
Proof.
  intros Hf. destruct t as [|b t].
  - rewrite app_nil_r. apply getRaw_nil. apply blob_size_nonneg.
  - rewrite getRaw_fetch, fetch_app by done. done.
Qed.

Lemma getRaw_inv n pre bs t it :
  0 <= n < 2 ^ 64 -> getRaw n (iter_at pre bs) = Ok (t, it) ->
  exists bs', bs = t ++ bs' /\ blob_size t = n /\ it = iter_at (pre ++ t) bs'.
Proof.
  intros Hn. destruct (Z.eq_dec n 0) as [->|Hz].
  - rewrite getRaw_nil by apply blob_size_nonneg. intros [= <- <-].
    exists bs. by rewrite app_nil_r.
  - rewrite getRaw_fetch by done. by apply fetch_inv.
Qed.

Lemma i32_small z : 0 <= z < 2 ^ 31 -> i32 z = z.
Proof. intros. apply signed_id; lia. Qed.

Lemma encoded_Ok n : 0 <= n -> is_ok (encoded n) = (n <=? 918744).
Proof.
  intros Hn. unfold encoded.
  destruct (Z.leb_spec n 192), (Z.leb_spec n 12480), (Z.leb_spec n 918744); try done; lia.
Qed.

Lemma encoded_Throw n m : encoded n = Throw m -> m = "lenlen"%string.
Proof. unfold encoded. repeat case_match; congruence. Qed.

(** ** Properties *)

(** Integers survive a round trip through the buffer: what [add16],
    [add32] and [add64] append is read back by [get16], [get32], [get64],
    [geti32] and [geti64] as the same value, unsigned or signed, and the
    iterator is left right after it. *)
Theorem integer_roundtrip s rest i :
  (0 <= i < 2 ^ 16 ->
     get16 (reader s (add16 i s).2 rest) = Ok (i, iter_at (data_ (add16 i s).2) rest)) /\
  (0 <= i < 2 ^ 32 ->
     get32 (reader s (add32 i s).2 rest) = Ok (i, iter_at (data_ (add32 i s).2) rest)) /\
  (- 2 ^ 31 <= i < 2 ^ 31 ->
     geti32 (reader s (add32 i s).2 rest) = Ok (i, iter_at (data_ (add32 i s).2) rest)) /\
  (0 <= i < 2 ^ 64 ->
     get64 (reader s (add64 i s).2 rest) = Ok (i, iter_at (data_ (add64 i s).2) rest)) /\
  (- 2 ^ 63 <= i < 2 ^ 63 ->
     geti64 (reader s (add64 i s).2 rest) = Ok (i, iter_at (data_ (add64 i s).2) rest)).
Proof.
  rewrite (reader_at _ _ _ _ (add16_bytes i s)), (reader_at _ _ _ _ (add32_bytes i s)),
    (reader_at _ _ _ _ (add64_bytes i s)), add16_bytes, add32_bytes, add64_bytes.
  split_and!; intros Hi.
  - by rewrite get16_be, Z.mod_small.
  - by rewrite get32_be, Z.mod_small.
  - rewrite geti32_be. unfold i32. by rewrite signed_id by lia.
  - by rewrite get64_be, Z.mod_small.
  - rewrite geti64_be. unfold i64. by rewrite signed_id by lia.
Qed.

Lemma integer_roundtrip_witness :
  geti32 (reader empty_serializer (add32 (-2) empty_serializer).2 [7]) =
  Ok (-2, iter_at [255; 255; 255; 254] [7]).
Proof. apply (integer_roundtrip empty_serializer [7] (-2)). lia. Defined.

(** Field identifiers are encoded canonically and losslessly: on any byte
    string [getFieldID] returns the pair (type, name) exactly when the string
    starts with the bytes [addFieldID] writes for that pair, and every pair
    it returns is in the range the encoding is for; it stops right after. *)
Theorem fieldID_canonical pre bs type name it :
  Forall is_byte bs ->
  getFieldID (iter_at pre bs) = Ok (type, name, it) <->
  1 <= type <= 255 /\ 1 <= name <= 255 /\
  exists rest, let s' := (addFieldID type name (mkSerializer pre)).2 in
    bs = appended (mkSerializer pre) s' ++ rest /\ it = iter_at (data_ s') rest.
Proof.
  intros Hbs. cbv zeta. setoid_rewrite addFieldID_bytes. unfold appended.
  setoid_rewrite addFieldID_bytes. simpl data_. rewrite drop_app_length. split.
  - by apply getFieldID_inv.
  - intros (? & ? & rest & -> & ->). by apply getFieldID_spec.
Qed.

Lemma fieldID_canonical_witness :
  getFieldID (iter_at [9] [0; 17; 20; 5]) = Ok (17, 20, iter_at [9; 0; 17; 20] [5]).
Proof.
  apply (fieldID_canonical [9] [0; 17; 20; 5]); [repeat constructor; unfold is_byte; lia|].
  split_and!; [lia..|]. by exists [5].
Defined.

(** Variable-length data survives a round trip: [addVL] throws exactly on
    blobs longer than 918744 bytes, and what it appends otherwise is read
    back by [getVL] as the same blob, leaving the iterator right after it. *)
Theorem addVL_roundtrip v s rest :
  blob_size v < 2 ^ 31 ->
  match addVL v s with
  | Ok (ret, s') => blob_size v <= 918744 /\ ret = getDataLength s /\
      getVL (reader s s' rest) = Ok (v, iter_at (data_ s') rest)
  | Throw m => 918744 < blob_size v /\ m = "lenlen"%string
  end.
Proof.
  intros Hv. pose proof (blob_size_nonneg v) as Hv0. unfold addVL, addEncoded.
  rewrite i32_small by lia. pose proof (encoded_Ok (blob_size v) Hv0) as Hok.
  destruct (encoded (blob_size v)) as [enc|m] eqn:E; cbn [mbind result_bind addRaw].
  - symmetry in Hok. apply Z.leb_le in Hok. split_and!; try done.
    rewrite (reader_at _ _ (enc ++ v)) by (simpl; by rewrite <-app_assoc).
    unfold getVL. rewrite <-app_assoc, (getVLDataLength_spec _ (blob_size v)) by done.
    cbn [mbind result_bind]. rewrite getRaw_app by (unfold fits; lia). done.
  - symmetry in Hok. apply Z.leb_gt in Hok. split; [done|]. by eapply encoded_Throw.
Qed.

Lemma addVL_roundtrip_witness :
  getVL (reader empty_serializer (mkSerializer [2; 10; 20]) [3]) =
  Ok ([10; 20], iter_at [2; 10; 20] [3]).
Proof. apply (addVL_roundtrip [10; 20] empty_serializer [3]). vm_compute. reflexivity. Defined.

(** The encoding of variable-length data is canonical: whenever [getVL]
    reads a blob that [addVL] can write, the bytes it consumed are the ones
    [addVL] writes for that blob. *)
Theorem getVL_canonical pre bs v it :
  Forall is_byte bs -> getVL (iter_at pre bs) = Ok (v, it) -> blob_size v <= 918744 ->
  exists ret s' rest, addVL v (mkSerializer pre) = Ok (ret, s') /\
    bs = appended (mkSerializer pre) s' ++ rest /\ it = iter_at (data_ s') rest.
Proof.
  intros Hbs E Hv. unfold getVL in E. apply bind_Ok in E as ([n it1] & E1 & E).
  destruct (getVLDataLength_inv _ _ _ _ Hbs E1) as (Hn & enc & bs1 & -> & -> & Henc).
  apply getRaw_inv in E as (rest & -> & <- & ->); [|lia].
  unfold addVL, addEncoded. rewrite i32_small, (Henc Hv) by lia.
  eexists _, _, rest. split; [done|]. unfold appended, push_back. simpl.
  by rewrite <-!app_assoc, drop_app_length, <-app_assoc.
Qed.

Lemma getVL_canonical_witness :
  exists ret s' rest, addVL [10; 20] (mkSerializer [1]) = Ok (ret, s') /\
    [2; 10; 20; 3] = appended (mkSerializer [1]) s' ++ rest /\
    iter_at [1; 2; 10; 20] [3] = iter_at (data_ s') rest.
Proof.
  apply (getVL_canonical [1] [2; 10; 20; 3]);
    [repeat constructor; unfold is_byte; lia|reflexivity|vm_compute; congruence].
Defined.
