(* ===== verification/LedgerHeader.v ===== *)
(** * Ledger headers and close times

    [LedgerHeader] with its canonical form (LedgerHeader.h/.cpp) and the
    close-time arithmetic of LedgerTiming.h.  Times are 32-bit counts of
    seconds ([NetClock]); hashes are 256-bit numbers. *)

From S2P Require Import Prelude LedgerEntry Serializer.

Local Open Scope Z_scope.

Record LedgerHeader : Type := mkLedgerHeader {
  seq : Z;
  parentCloseTime : Z;
  hash : N;
  txHash : N;
  accountHash : N;
  parentHash : N;
  drops : Z;
  validated : bool;
  accepted : bool;
  closeFlags : Z;
  closeTimeResolution : Z;
  closeTime : Z
}.

(** [LedgerHeader{}]. *)
Definition default_header : LedgerHeader := mkLedgerHeader 0 0 0 0 0 0 0 false false 0 0 0.

Definition kSLcfNoConsensusTime : Z := 1.

Definition getCloseAgree (info : LedgerHeader) : bool :=
  Z.land (closeFlags info) kSLcfNoConsensusTime =? 0.

Definition u32 (z : Z) : Z := z mod 2 ^ 32.

(** [s.addBitString(h)] of a [uint256]. *)
Definition add256 (h : N) (s : Serializer) : Serializer := (addBitString 32 (Z.of_N h) s).2.

(** [addRaw(LedgerHeader const&, Serializer&, bool)]. *)
Definition addRawHeader (info : LedgerHeader) (includeHash : bool) (s : Serializer) : Serializer :=
  let s := (add32 (seq info) s).2 in
  let s := (add64 (drops info) s).2 in
  let s := add256 (parentHash info) s in
  let s := add256 (txHash info) s in
  let s := add256 (accountHash info) s in
  let s := (add32 (parentCloseTime info) s).2 in
  let s := (add32 (closeTime info) s).2 in
  let s := (add8 (u8 (closeTimeResolution info)) s).2 in
  let s := (add8 (u8 (closeFlags info)) s).2 in
  if includeHash then add256 (hash info) s else s.

(** [sit.get256()]. *)
Definition get256 (sit : SerialIter) : result (N * SerialIter) :=
  '(v, sit) ← getBitString 32 sit; Ok (Z.to_N v, sit).

Definition deserializeHeader (data : Blob) (hasHash : bool) : result LedgerHeader :=
  let sit := makeSerialIter data in
  '(seq, sit) ← get32 sit;
  '(drops, sit) ← get64 sit;
  '(parentHash, sit) ← get256 sit;
  '(txHash, sit) ← get256 sit;
  '(accountHash, sit) ← get256 sit;
  '(parentCloseTime, sit) ← get32 sit;
  '(closeTime, sit) ← get32 sit;
  '(closeTimeResolution, sit) ← get8 sit;
  '(closeFlags, sit) ← get8 sit;
  '(hash, sit) ← (if hasHash then get256 sit else Ok (0%N, sit));
  Ok (mkLedgerHeader seq parentCloseTime hash txHash accountHash parentHash (i64 drops)
        false false closeFlags closeTimeResolution closeTime).

(** [deserializeHeader(data + 4, hasHash)]; advancing a [Slice] past its end
    throws. *)
Definition deserializePrefixedHeader (data : Blob) (hasHash : bool) : result LedgerHeader :=
  if blob_size data <? 4 then Throw "too small" else deserializeHeader (drop 4 data) hasHash.

(** [HashPrefix::LedgerMaster]: the characters LWR. *)
Definition makeHashPrefix (a b c : Z) : Z :=
  Z.shiftl a 24 + Z.shiftl b 16 + Z.shiftl c 8.
Definition LedgerMaster : Z := makeHashPrefix 76 87 82.

(** [hash_append] of an integer of [n] bytes to a big-endian hasher, and of a
    [uint256]. *)
Definition hash_append_int (n : nat) (v : Z) : Blob := be_bytes n v.
Definition hash_append_uint256 (v : N) : Blob := be_bytes 32 (Z.of_N v).

(** [calculateLedgerHash], over the digest [sha512Half] of the appended
    bytes. *)
Definition calculateLedgerHash (sha512Half : Blob -> N) (info : LedgerHeader) : N :=
  sha512Half
    (hash_append_int 4 LedgerMaster ++
     hash_append_int 4 (u32 (seq info)) ++
     hash_append_int 8 (u64 (drops info)) ++
     hash_append_uint256 (parentHash info) ++
     hash_append_uint256 (txHash info) ++
     hash_append_uint256 (accountHash info) ++
     hash_append_int 4 (u32 (parentCloseTime info)) ++
     hash_append_int 4 (u32 (closeTime info)) ++
     hash_append_int 1 (u8 (closeTimeResolution info)) ++
     hash_append_int 1 (u8 (closeFlags info))).

(** ** Close times *)

Definition kLedgerPossibleTimeResolutions : list Z := [10; 20; 30; 60; 90; 120].
Definition kLedgerDefaultTimeResolution : Z := 30.
Definition kLedgerGenesisTimeResolution : Z := 10.
Definition kIncreaseLedgerTimeResolutionEvery : Z := 8.
Definition kDecreaseLedgerTimeResolutionEvery : Z := 1.

(** [std::find] as an index. *)
Fixpoint find_index (x : Z) (l : list Z) : option nat :=
  match l with
  | [] => None
  | y :: l => if x =? y then Some 0%nat else S <$> find_index x l
  end.

Definition getNextLedgerTimeResolution (previousResolution : Z) (previousAgree : bool)
    (ledgerSeq : Z) : Z :=
  match find_index previousResolution kLedgerPossibleTimeResolutions with
  | None => previousResolution
  | Some iter =>
      let slower :=
        if negb previousAgree && (ledgerSeq mod kDecreaseLedgerTimeResolutionEvery =? 0)
        then kLedgerPossibleTimeResolutions !! S iter else None in
      match slower with
      | Some r => r
      | None =>
          if previousAgree && (ledgerSeq mod kIncreaseLedgerTimeResolutionEvery =? 0) then
            match iter with
            | O => previousResolution
            | S i => default previousResolution (kLedgerPossibleTimeResolutions !! i)
            end
          else previousResolution
      end
  end.

(** The counts are 32 bits wide and wrap around. *)
Definition roundCloseTime (closeTime closeResolution : Z) : Z :=
  if closeTime =? 0 then closeTime
  else let t := u32 (closeTime + closeResolution / 2) in
       u32 (t - t mod closeResolution).

Definition effCloseTime (closeTime resolution priorCloseTime : Z) : Z :=
  if closeTime =? 0 then closeTime
  else Z.max (roundCloseTime closeTime resolution) (u32 (priorCloseTime + 1)).

(** ** The canonical form *)

(** The headers the canonical form is for: every field fits its width there. *)
Record header_ok (info : LedgerHeader) : Prop := {
  ok_seq : 0 <= seq info < 2 ^ 32;
  ok_parentCloseTime : 0 <= parentCloseTime info < 2 ^ 32;
  ok_hash : is_uint256 (hash info);
  ok_txHash : is_uint256 (txHash info);
  ok_accountHash : is_uint256 (accountHash info);
  ok_parentHash : is_uint256 (parentHash info);
  ok_drops : - 2 ^ 63 <= drops info < 2 ^ 63;
  ok_closeFlags : 0 <= closeFlags info < 256;
  ok_closeTimeResolution : 0 <= closeTimeResolution info < 256;
  ok_closeTime : 0 <= closeTime info < 2 ^ 32
}.

(** What the canonical form keeps of a header. *)
Definition wire_header (info : LedgerHeader) (includeHash : bool) : LedgerHeader :=
  mkLedgerHeader (seq info) (parentCloseTime info) (if includeHash then hash info else 0%N)
    (txHash info) (accountHash info) (parentHash info) (drops info) false false
    (closeFlags info) (closeTimeResolution info) (closeTime info).

Definition header_bytes (info : LedgerHeader) (includeHash : bool) : Blob :=
  be_bytes 4 (seq info) ++ be_bytes 8 (drops info) ++
  be_bytes 32 (Z.of_N (parentHash info)) ++ be_bytes 32 (Z.of_N (txHash info)) ++
  be_bytes 32 (Z.of_N (accountHash info)) ++ be_bytes 4 (parentCloseTime info) ++
  be_bytes 4 (closeTime info) ++ u8 (closeTimeResolution info) :: u8 (closeFlags info) ::
  (if includeHash then be_bytes 32 (Z.of_N (hash info)) else []).

Lemma addRawHeader_bytes info b s :
  data_ (addRawHeader info b s) = data_ s ++ header_bytes info b.
Proof.
  unfold addRawHeader, header_bytes, add256, addBitString, addRaw, add8. cbv zeta.
  destruct b; cbn [snd push_back data_];
    rewrite ?add32_bytes; cbn [snd push_back data_]; rewrite ?add32_bytes; cbn [snd push_back data_];
    rewrite ?add64_bytes, ?add32_bytes, <-!app_assoc; cbn [app]; by rewrite ?app_nil_r.
Qed.

Lemma get256_be pre h rest :
  is_uint256 h ->
  get256 (iter_at pre (be_bytes 32 (Z.of_N h) ++ rest)) =
  Ok (h, iter_at (pre ++ be_bytes 32 (Z.of_N h)) rest).
Proof.
  intros Hh. unfold get256. rewrite getBitString_be by lia. cbn [mbind result_bind].
  rewrite Z.mod_small, N2Z.id; [done|]. unfold is_uint256 in Hh. lia.
Qed.

Lemma deserializeHeader_bytes info b rest :
  header_ok info -> deserializeHeader (header_bytes info b ++ rest) b = Ok (wire_header info b).
Proof.
  intros []. unfold deserializeHeader, header_bytes. cbv zeta. rewrite makeSerialIter_at.
  rewrite <-!app_assoc. cbn [app].
  rewrite get32_be. cbn [mbind result_bind]. rewrite get64_be. cbn [mbind result_bind].
  do 3 (rewrite get256_be by done; cbn [mbind result_bind]).
  do 2 (rewrite get32_be; cbn [mbind result_bind]).
  do 2 (rewrite get8_cons; cbn [mbind result_bind]).
  unfold wire_header. destruct b; [rewrite get256_be by done|]; cbn [mbind result_bind];
    unfold i64; rewrite (signed_mod 64), signed_id, !Z.mod_small, !u8_id by (unfold is_byte; lia);
    done.
Qed.

(** ** Close times *)

Lemma find_index_Some x l i : find_index x l = Some i -> l !! i = Some x.
Proof.
  revert i. induction l as [|y l IH]; intros i; simpl; [done|].
  destruct (Z.eqb_spec x y) as [->|Hne]; [by intros [= <-]|].
  destruct (find_index x l) as [j|]; [|done]. intros [= <-]. by apply IH.
Qed.

Lemma find_index_elem x l : x ∈ l -> exists i, find_index x l = Some i.
Proof.
  induction 1 as [x l|x y l Hin IH]; simpl; [rewrite Z.eqb_refl; eauto|].
  destruct (Z.eqb_spec x y); [eauto|]. destruct IH as [i ->]. by exists (S i).
Qed.

(** ** Properties *)

(** The canonical form of a header is lossless: deserializing what
    [addRaw] writes gives the header back (with the fields the form does not
    carry at their defaults), whether or not the hash is included and
    whatever follows it, behind a 4-byte prefix too. *)
Theorem header_roundtrip info includeHash rest prefix :
  header_ok info -> length prefix = 4%nat ->
  let data := data_ (addRawHeader info includeHash empty_serializer) ++ rest in
  deserializeHeader data includeHash = Ok (wire_header info includeHash) /\
  deserializePrefixedHeader (prefix ++ data) includeHash = Ok (wire_header info includeHash).
Proof.
  intros Hok Hp. cbv zeta. rewrite addRawHeader_bytes. cbn [data_ empty_serializer app].
  assert (deserializeHeader (header_bytes info includeHash ++ rest) includeHash =
    Ok (wire_header info includeHash)) as E by (by apply deserializeHeader_bytes).
  split; [done|]. unfold deserializePrefixedHeader. rewrite blob_size_app.
  pose proof (blob_size_nonneg (header_bytes info includeHash ++ rest)) as Hs.
  rewrite (proj2 (Z.ltb_ge _ 4)) by (unfold blob_size in *; lia).
  by rewrite drop_app_length' by done.
Qed.

Lemma header_roundtrip_witness :
  let info := mkLedgerHeader 7 100 5 6 7 8 (-9) true true 1 30 120 in
  header_ok info /\
  deserializeHeader (data_ (addRawHeader info true empty_serializer) ++ [1; 2]) true =
  Ok (mkLedgerHeader 7 100 5 6 7 8 (-9) false false 1 30 120).
Proof.
  split; [by split|].
  apply (header_roundtrip (mkLedgerHeader 7 100 5 6 7 8 (-9) true true 1 30 120) true [1; 2]
           [0; 0; 0; 0]); [by split|done].
Defined.

(** The bytes [calculateLedgerHash] feeds to the digest are the canonical
    form that [addRaw] writes, behind the ledger hash prefix: the hash of a
    ledger commits to its serialized header.  The code repeats the field
    list and only a comment says that the two have to match. *)
Theorem ledgerHash_commits_header sha512Half info :
  calculateLedgerHash sha512Half info =
  sha512Half (data_ (addRawHeader info false (add32 LedgerMaster empty_serializer).2)).
Proof.
  unfold calculateLedgerHash, hash_append_int, hash_append_uint256. f_equal.
  rewrite addRawHeader_bytes, add32_bytes. unfold header_bytes, u32, u64, u8.
  rewrite !(be_bytes_mod 4), (be_bytes_mod 8).
  rewrite <-!app_assoc. cbn [data_ empty_serializer app be_bytes]. unfold u8.
  by rewrite !Z.shiftr_0_r, !Z.mod_mod.
Qed.

(** [roundCloseTime] returns the multiple of the resolution nearest to
    the time, the later one at a midpoint, as long as the sum does not
    overflow the 32-bit clock; time zero is left alone. *)
Theorem roundCloseTime_nearest t r :
  0 < t -> 0 < r -> t + r < 2 ^ 32 ->
  exists q, roundCloseTime t r = q * r /\
    - r < 2 * (roundCloseTime t r - t) <= r /\
    forall q', 2 * Z.abs (q' * r - t) < r -> q' = q.
Proof.
  intros Ht Hr Hov. unfold roundCloseTime. rewrite (proj2 (Z.eqb_neq t 0)) by lia. cbv zeta.
  assert (0 <= r / 2 <= r) by (Z.to_euclidean_division_equations; lia).
  unfold u32. rewrite (Z.mod_small (t + r / 2)) by lia.
  pose proof (Z.mod_pos_bound (t + r / 2) r Hr) as Hm.
  pose proof (Z.div_mod (t + r / 2) r ltac:(lia)) as Hd.
  pose proof (Z.mod_le (t + r / 2) r ltac:(lia) Hr) as Hle.
  rewrite Z.mod_small by lia.
  exists ((t + r / 2) / r). remember ((t + r / 2) mod r) as m. remember ((t + r / 2) / r) as q.
  assert (r = 2 * (r / 2) \/ r = 2 * (r / 2) + 1) as Hpar
    by (Z.to_euclidean_division_equations; lia).
  split_and!; [lia..|]. intros q' Hq'. nia.
Qed.

Lemma roundCloseTime_nearest_witness :
  exists q, roundCloseTime 45 30 = q * 30 /\ - 30 < 2 * (roundCloseTime 45 30 - 45) <= 30 /\
    forall q', 2 * Z.abs (q' * 30 - 45) < 30 -> q' = q.
Proof. apply (roundCloseTime_nearest 45 30); lia. Defined.
