(* ===== verification/Radix.v ===== *)
(** * Numbers as lists of digits

    Digits in a base, the most significant first ([val]) or last ([lval]),
    and the lists without leading zeros, of which there is one for each
    number. *)

From S2P Require Import Prelude Serializer.
Local Open Scope Z_scope.

Section radix.
Context (b : Z) (Hb : 1 < b).
Implicit Types (l : list Z).

Definition digit (d : Z) : Prop := 0 <= d < b.

Definition val l : Z := foldl (fun a d => a * b + d) 0 l.
Fixpoint lval l : Z := match l with [] => 0 | d :: l => d + b * lval l end.

Lemma foldl_val a l : foldl (fun a d => a * b + d) a l = a * b ^ Z.of_nat (length l) + val l.
Proof using Hb.
  unfold val. revert a. induction l as [|d l IH]; intros a; cbn [foldl length]; [cbn; lia|].
  rewrite IH, (IH (0 * b + d)). rewrite Nat2Z.inj_succ, Z.pow_succ_r by lia. ring.
Qed.
Lemma val_app l1 l2 : val (l1 ++ l2) = val l1 * b ^ Z.of_nat (length l2) + val l2.
Proof using Hb. unfold val at 1. by rewrite foldl_app, foldl_val. Qed.
Lemma val_cons d l : val (d :: l) = d * b ^ Z.of_nat (length l) + val l.
Proof using Hb. change (d :: l) with ([d] ++ l). rewrite val_app. done. Qed.
Lemma val_snoc l d : val (l ++ [d]) = val l * b + d.
Proof. unfold val. by rewrite foldl_app. Qed.

Lemma lval_reverse l : lval (reverse l) = val l.
Proof using Hb.
  induction l as [|d l IH] using rev_ind; [done|]. rewrite reverse_app. cbn. rewrite IH, val_snoc. lia.
Qed.
Lemma val_reverse l : val (reverse l) = lval l.
Proof using Hb. by rewrite <-lval_reverse, reverse_involutive. Qed.

Lemma lval_app l1 l2 : lval (l1 ++ l2) = lval l1 + b ^ Z.of_nat (length l1) * lval l2.
Proof using Hb.
  induction l1 as [|d l1 IH]; cbn [app lval length]; [lia|]. rewrite IH, Nat2Z.inj_succ, Z.pow_succ_r by lia. ring.
Qed.

Lemma lval_bound l : Forall digit l -> 0 <= lval l < b ^ Z.of_nat (length l).
Proof using Hb.
  induction 1 as [|d l Hd _ IH]; cbn [lval length]; [lia|]. rewrite Nat2Z.inj_succ, Z.pow_succ_r by lia.
  unfold digit in Hd. nia.
Qed.
Lemma val_bound l : Forall digit l -> 0 <= val l < b ^ Z.of_nat (length l).
Proof using Hb.
  intros Hl. rewrite <-lval_reverse, <-(length_reverse l). apply lval_bound. by apply Forall_reverse.
Qed.

(** ** Leading zeros *)

Fixpoint zeros l : nat := match l with d :: l => if d =? 0 then S (zeros l) else 0 | [] => 0 end.
Definition strip l : list Z := drop (zeros l) l.

Lemma zeros_strip l : l = replicate (zeros l) 0 ++ strip l.
Proof. unfold strip. induction l as [|d l IH]; cbn; [done|]. destruct (Z.eqb_spec d 0) as [->|]; cbn; [by f_equal|done]. Qed.
Lemma val_zeros n l : val (replicate n 0 ++ l) = val l.
Proof using Hb. induction n as [|n IH]; cbn [replicate app]; [done|]. rewrite val_cons, IH. lia. Qed.
Lemma val_strip l : val (strip l) = val l.
Proof using Hb. by rewrite (zeros_strip l) at 2; rewrite val_zeros. Qed.
Lemma strip_sub l : Forall digit l -> Forall digit (strip l).
Proof. apply Forall_drop. Qed.

(** A list that does not start with a zero. *)
Definition lean l : Prop := match l with d :: _ => d <> 0 | [] => True end.
Lemma strip_lean l : lean (strip l).
Proof. unfold strip. induction l as [|d l IH]; cbn; [done|]. destruct (Z.eqb_spec d 0) as [->|]; cbn; done. Qed.
Lemma zeros_lean n l : lean l -> zeros (replicate n 0 ++ l) = n /\ strip (replicate n 0 ++ l) = l.
Proof.
  intros Hl. assert (zeros l = 0%nat) as E by (destruct l as [|d l]; cbn in *; [done|]; by rewrite (proj2 (Z.eqb_neq d 0))).
  induction n as [|n [IH1 IH2]]; cbn [replicate app].
  - unfold strip. by rewrite E.
  - unfold strip in *. cbn. split; [by rewrite IH1|exact IH2].
Qed.

Lemma lean_val l : Forall digit l -> lean l -> l <> [] -> b ^ Z.of_nat (pred (length l)) <= val l.
Proof using Hb.
  destruct l as [|d l]; [done|]. intros [Hd Hl]%Forall_cons Hne _. cbn in Hne. rewrite val_cons. cbn [length pred].
  pose proof (val_bound l Hl). unfold digit in Hd. nia.
Qed.

(** Two lean lists of digits with the same value are the same. *)
Lemma digits_inj l1 l2 : Forall digit l1 -> Forall digit l2 -> length l1 = length l2 -> val l1 = val l2 -> l1 = l2.
Proof using Hb.
  revert l2. induction l1 as [|d1 l1 IH] using rev_ind; intros l2 H1 H2 Hlen E.
  { by destruct l2. }
  destruct l2 as [|d2 l2 _] using rev_ind; [by rewrite length_app in Hlen; cbn in Hlen; lia|].
  rewrite !length_app in Hlen. cbn in Hlen. rewrite !val_snoc in E.
  apply Forall_app in H1 as [H1 [D1 _]%Forall_cons], H2 as [H2 [D2 _]%Forall_cons]. unfold digit in *.
  assert (val l1 = val l2 /\ d1 = d2) as [Ev ->]
    by (apply (Z.div_mod_unique b); [by left|by left|lia]). f_equal. apply IH; [done..|lia|done].
Qed.
Lemma lean_inj l1 l2 : Forall digit l1 -> Forall digit l2 -> lean l1 -> lean l2 -> val l1 = val l2 -> l1 = l2.
Proof using Hb.
  intros H1 H2 L1 L2 E. apply digits_inj; [done..| |done].
  assert (forall a c, Forall digit a -> Forall digit c -> lean c -> val a = val c -> (length c <= length a)%nat) as Hle.
  { intros a c Ha Hc Lc Ev. destruct c as [|d c]; [cbn; lia|].
    pose proof (lean_val _ Hc Lc ltac:(done)) as Hlow. pose proof (val_bound _ Ha) as Hup. rewrite <-Ev in Hlow.
    assert (b ^ Z.of_nat (pred (length (d :: c))) < b ^ Z.of_nat (length a)) as Hlt by lia.
    apply Z.pow_lt_mono_r_iff in Hlt; [|lia..]. cbn in *. lia. }
  pose proof (Hle l1 l2 H1 H2 L2 E). pose proof (Hle l2 l1 H2 H1 L1 (eq_sym E)). lia.
Qed.

(** A number in front keeps or gives up the zeros. *)
Lemma strip_app l1 l2 : val l1 <> 0 -> Forall digit l1 -> strip (l1 ++ l2) = strip l1 ++ l2.
Proof using Hb.
  unfold strip. induction l1 as [|d l1 IH]; intros Hv Hd; [done|]. apply Forall_cons in Hd as [_ Hd]. cbn [app zeros].
  destruct (Z.eqb_spec d 0) as [->|Hne]; [|done]. cbn [drop]. apply IH; [|done]. intros E. apply Hv. rewrite val_cons, E. lia.
Qed.
Lemma strip_zero l1 l2 : val l1 = 0 -> Forall digit l1 -> strip (l1 ++ l2) = strip l2.
Proof using Hb.
  unfold strip. induction l1 as [|d l1 IH]; intros Hv Hd; [done|]. apply Forall_cons in Hd as [Hd Hl]. cbn [app zeros].
  rewrite val_cons in Hv. pose proof (val_bound l1 Hl). unfold digit in Hd.
  assert (0 < b ^ Z.of_nat (length l1)) by (apply Z.pow_pos_nonneg; lia).
  assert (d = 0) as -> by nia. cbn [Z.eqb drop]. apply IH; [lia|done].
Qed.
Lemma strip_length l : (length (strip l) <= length l)%nat.
Proof. unfold strip. rewrite length_drop. lia. Qed.

(** Digits in groups of [n] are digits to the base [b ^ n]. *)
Lemma val_groups (n : nat) l (ls : list (list Z)) : (0 < n)%nat -> Forall (fun g => length g = n) ls ->
  val (l ++ concat ls) = foldl (fun a g => a * b ^ Z.of_nat n + val g) (val l) ls.
Proof using Hb.
  intros Hn Hls. revert l. induction Hls as [|g ls Hg _ IH]; intros l; cbn [concat foldl]; [by rewrite app_nil_r|].
  rewrite app_assoc, IH, val_app, Hg. done.
Qed.

(** ** Multiplying in place

    The loop that multiplies by [m] and adds a carry, from the last digit on. *)
Fixpoint carry_loop (m carry : Z) l : list Z * Z :=
  match l with
  | [] => ([], carry)
  | d :: l => let c := carry + m * d in let '(l', carry') := carry_loop m (c / b) l in (c mod b :: l', carry')
  end.

Lemma carry_loop_spec m carry l : let '(l', carry') := carry_loop m carry l in
  lval l' + b ^ Z.of_nat (length l) * carry' = m * lval l + carry /\ length l' = length l /\ Forall digit l'.
Proof using Hb.
  revert carry. induction l as [|d l IH]; intros carry; cbn [carry_loop].
  { cbn [lval length]. split_and!; [lia|done|constructor]. }
  specialize (IH ((carry + m * d) / b)). destruct (carry_loop m _ l) as [l' carry']. destruct IH as (E & Hl & Hd).
  cbn [lval length]. split_and!; [|by rewrite Hl|constructor; [|done]].
  - rewrite Nat2Z.inj_succ, Z.pow_succ_r by lia. pose proof (Z.div_mod (carry + m * d) b ltac:(lia)). nia.
  - unfold digit. apply Z.mod_pos_bound. lia.
Qed.
Lemma carry_loop_fits m carry l : 0 <= m -> 0 <= carry -> Forall digit l -> m * lval l + carry < b ^ Z.of_nat (length l) ->
  let '(l', carry') := carry_loop m carry l in carry' = 0 /\ lval l' = m * lval l + carry /\ length l' = length l /\ Forall digit l'.
Proof using Hb.
  intros Hm Hc Hd Hlt. pose proof (carry_loop_spec m carry l) as H. destruct (carry_loop m carry l) as [l' carry'].
  destruct H as (E & Hl & Hd'). pose proof (lval_bound _ Hd'). pose proof (lval_bound _ Hd). rewrite Hl in *.
  assert (carry' = 0) as -> by nia. split_and!; [done|lia|done..].
Qed.
End radix.
