(* ===== verification/Base58.v ===== *)
(** * Base 58 identifiers

    Account, node and seed identifiers in text (protocol/tokens.cpp): type,
    token and checksum in base 58.  Here the alphabet, the checksum and the
    reference codec; Base58Limbs has the one in use.  Bytes and characters
    are numbers below 256. *)

From S2P Require Import Prelude Serializer Radix.
Local Open Scope Z_scope.

Definition char_codes (s : string) : list Z := (fun c => Z.of_N (Ascii.N_of_ascii c)) <$> String.list_ascii_of_string s.

Definition kAlphabetForward : list Z := char_codes "rpshnaf39wBUDNEGHJKLM4PQRST7VWXYZ2bcdeCg65jkm8oFqi1tuvAxyz".

Definition kAlphabetReverse : list Z :=
  (foldl (fun '(m, j) c => (<[Z.to_nat c := j]> m, j + 1)) (replicate 256 (-1), 0) kAlphabetForward).1.

Definition forward (d : Z) : Z := default 0 (kAlphabetForward !! Z.to_nat d).
Definition backward (c : Z) : Z := default (-1) (kAlphabetReverse !! Z.to_nat c).

(** The SHA-256 digest, a parameter. *)
Class Sha256 : Type := sha256 : Blob -> Blob.

Definition checksum `{Sha256} (message : Blob) : Blob := take 4 (sha256 (sha256 message)).

(** ** The reference *)

Module b58_ref.

Definition encodeBase58 (message : Blob) (tempSize : nat) : list Z :=
  let zeroes := zeros message in
  let b58 := foldl (fun b58 byte => reverse (carry_loop 58 256 byte (reverse b58)).1)
    (replicate tempSize 0) (drop zeroes message) in
  replicate zeroes (forward 0) ++ (forward <$> drop (zeros b58) b58).

(** The loop over the characters, which gives up at one that is no digit. *)
Fixpoint decode_loop (s : list Z) (b256 : list Z) : option (list Z) :=
  match s with
  | [] => Some b256
  | c :: s => if backward c =? -1 then None else decode_loop s (reverse (carry_loop 256 58 (backward c) (reverse b256)).1)
  end.

Fixpoint leading (s : list Z) : nat := match s with c :: s => if backward c =? 0 then S (leading s) else 0 | [] => 0 end.

Definition decodeBase58 (s : list Z) : Blob :=
  let zeroes := leading s in
  let rest := drop zeroes s in
  let remain := length rest in
  if (64 <? remain)%nat then []
  else
    match decode_loop rest (replicate (remain * 733 / 1000 + 1) 0) with
    | None => []
    | Some b256 => replicate zeroes 0 ++ drop (zeros b256) b256
    end.

Definition encodeBase58Token `{Sha256} (type : Z) (token : Blob) : list Z :=
  let expanded := (1 + length token + 4)%nat in
  let bufsize := (expanded * 3)%nat in
  let data := type :: token in
  encodeBase58 (data ++ checksum data) (bufsize - expanded).

Definition decodeBase58Token `{Sha256} (s : list Z) (type : Z) : Blob :=
  let ret := decodeBase58 s in
  if (length ret <? 6)%nat then []
  else if negb (type =? default 0 (ret !! 0%nat)) then []
  else
    let guard := checksum (take (length ret - 4) ret) in
    if negb (bool_decide (guard = drop (length ret - 4) ret)) then []
    else take (length ret - 1 - 4) (drop 1 ret).
End b58_ref.
