(* ===== verification/Base58Limbs.v ===== *)
(** * Base 58 identifiers: the codec in use

    The routines of detail/b58_utils.h and the codec of protocol/tokens.cpp
    that works on limbs of 64 bits.  Arrays are lists of their length; writing
    past the end of one is [OutOfBounds]. *)

From S2P Require Import Prelude Serializer Radix Base58.
Local Open Scope Z_scope.

Module b58_fast.

Inductive TokenCodecErrc : Type :=
| Success | InputTooLarge | InputTooSmall | BadB58Character | OutputTooSmall | MismatchedTokenType
| MismatchedChecksum | InvalidEncodingChar | OverflowAdd | Unknown.

Inductive B58Result (A : Type) : Type := Value (a : A) | Unexpected (e : TokenCodecErrc) | OutOfBounds.
#[global] Arguments Value {A}. #[global] Arguments Unexpected {A}. #[global] Arguments OutOfBounds {A}.
#[export] Instance B58Result_bind : MBind B58Result := fun A B f r =>
  match r with Value a => f a | Unexpected e => Unexpected e | OutOfBounds => OutOfBounds end.

(** [a[i] = v]. *)
Definition write (i : nat) (v : Z) (a : list Z) : B58Result (list Z) :=
  if (i <? length a)%nat then Value (<[i := v]> a) else OutOfBounds.
Definition at_ (a : list Z) (i : nat) : Z := default 0 (a !! i).

Definition divRem (a b : Z) : Z * Z := (a / b, a mod b).
Definition u128 (z : Z) : Z := z mod 2 ^ 128.
Definition carryingMul (a b carry : Z) : Z * Z :=
  let c := u128 (u128 (a * b) + carry) in (Z.land c 0xffffffffffffffff, u64 (Z.shiftr c 64)).
Definition carryingAdd (a b : Z) : Z * Z :=
  let c := u128 (a + b) in (Z.land c 0xffffffffffffffff, u64 (Z.shiftr c 64)).

Fixpoint add_loop (carry : Z) (a : list Z) : B58Result (list Z) :=
  match a with
  | [] => if negb (carry =? 0) then Unexpected OverflowAdd else Value []
  | v :: a =>
      if carry =? 0 then Value (v :: a)
      else let '(v, carry) := carryingAdd v 1 in a ← add_loop carry a; Value (v :: a)
  end.
Definition inplaceBigintAdd (a : list Z) (b : Z) : B58Result (list Z) :=
  match a with
  | [] | [_] => Unexpected InputTooSmall
  | v :: a => let '(v, carry) := carryingAdd v b in a ← add_loop carry a; Value (v :: a)
  end.

Fixpoint mul_loop (b carry : Z) (a : list Z) : list Z * Z :=
  match a with
  | [] => ([], carry)
  | coeff :: a => let '(coeff, carry) := carryingMul coeff b carry in
      let '(a, carry) := mul_loop b carry a in (coeff :: a, carry)
  end.
Definition inplaceBigintMul (a : list Z) (b : Z) : B58Result (list Z) :=
  match a with
  | [] => Unexpected InputTooSmall
  | _ =>
      let lastIndex := (length a - 1)%nat in
      if negb (at_ a lastIndex =? 0) then Unexpected InputTooLarge
      else let '(a', carry) := mul_loop b 0 (take lastIndex a) in Value (a' ++ [carry])
  end.

(** The limbs are taken from the most significant one down. *)
Fixpoint div_loop (divisor prevRem : Z) (a : list Z) : list Z * Z :=
  match a with
  | [] => ([], prevRem)
  | low :: a =>
      let curNum := Z.lor (Z.shiftl prevRem 64) low in
      let d := curNum / divisor in
      let r := curNum - divisor * d in
      let '(a, prevRem) := div_loop divisor (u64 r) a in (u64 d :: a, prevRem)
  end.
Definition inplaceBigintDivRem (numerator : list Z) (divisor : Z) : list Z * Z :=
  match reverse numerator with
  | [] => ([], 0)
  | last :: rest =>
      let '(q, prevRem) := divRem last divisor in
      let '(rest, prevRem) := div_loop divisor prevRem rest in (reverse (q :: rest), prevRem)
  end.

Fixpoint b58_loop (fuel : nat) (input : Z) (i : nat) (result : list Z) : list Z :=
  match fuel with
  | O => result
  | S fuel =>
      if 0 <? input then let '(input, rem) := divRem input 58 in b58_loop fuel input (S i) (<[(10 - 1 - i)%nat := rem]> result)
      else result
  end.
Definition b5810ToB58Be (input : Z) : list Z := b58_loop 11 input 0 (replicate 10 0).

Definition kB5810 : Z := 430804206899405824.

(** The bytes as limbs, the lowest first. *)
Fixpoint limbs_of (n : nat) (input : Blob) : list Z :=
  match n with
  | O => []
  | S n =>
      match input with
      | [] => []
      | _ =>
          let srcIEnd := length input in
          if (8 <=? srcIEnd)%nat then be_sum (drop (srcIEnd - 8) input) :: limbs_of n (take (srcIEnd - 8) input)
          else [foldl (fun be b => Z.lor (u64 (Z.shiftl be 8)) b) 0 input]
      end
  end.

(** The coefficients to base 58^10, as long as there are limbs. *)
Fixpoint coeffs_loop (fuel : nat) (base264Coeff : list Z) (cur264End : nat) (base5810Coeff : list Z) (num5810Coeffs : nat)
    : B58Result (list Z * nat) :=
  match fuel with
  | O => OutOfBounds
  | S fuel =>
      if (cur264End =? 0)%nat then Value (base5810Coeff, num5810Coeffs)
      else
        let '(quot, rem) := inplaceBigintDivRem (take cur264End base264Coeff) kB5810 in
        let base264Coeff := quot ++ drop cur264End base264Coeff in
        base5810Coeff ← write num5810Coeffs rem base5810Coeff;
        let cur264End := if at_ base264Coeff (cur264End - 1) =? 0 then (cur264End - 1)%nat else cur264End in
        coeffs_loop fuel base264Coeff cur264End base5810Coeff (S num5810Coeffs)
  end.

(** Characters written from [outIndex] on. *)
Fixpoint write_all (cs : list Z) (out : list Z) (outIndex : nat) : B58Result (list Z * nat) :=
  match cs with
  | [] => Value (out, outIndex)
  | c :: cs => out ← write outIndex c out; write_all cs out (S outIndex)
  end.

(** The coefficients from the last one down. *)
Fixpoint digits_loop (i : nat) (base5810Coeff : list Z) (skipZeros : bool) (out : list Z) (outIndex : nat)
    : B58Result (list Z * nat) :=
  match i with
  | O => Value (out, outIndex)
  | S i =>
      let c := at_ base5810Coeff i in
      if skipZeros && (c =? 0) then digits_loop i base5810Coeff skipZeros out outIndex
      else if kB5810 <=? c then Unexpected InputTooLarge
      else
        let b58Be := b5810ToB58Be c in
        let toSkip := if skipZeros then zeros b58Be else 0%nat in
        if skipZeros && (length out <? (i + 1) * 10 - toSkip)%nat then Unexpected OutputTooSmall
        else
          '(out, outIndex) ← write_all (forward <$> drop toSkip b58Be) out outIndex;
          digits_loop i base5810Coeff false out outIndex
  end.

Definition b256ToB58Be (input : Blob) (out : list Z) : B58Result (list Z) :=
  if (38 <? length input)%nat then Unexpected InputTooLarge
  else
    let inputZeros := zeros input in
    let input := drop inputZeros input in
    let base264Coeff := limbs_of 5 input in
    '(base5810Coeff, num5810Coeffs) ← coeffs_loop 8 base264Coeff (length base264Coeff) (replicate 6 0) 0;
    '(out, outIndex) ← write_all (replicate inputZeros (forward 0)) out 0;
    '(out, outIndex) ← digits_loop num5810Coeffs base5810Coeff true out outIndex;
    Value (take outIndex out).

Fixpoint leading (input : list Z) : nat :=
  match input with c :: input => if c =? forward 0 then S (leading input) else 0 | [] => 0 end.

(** One character goes into the coefficient [k]. *)
Definition push_char (c : Z) (k : nat) (b5810Coeff : list Z) : B58Result (list Z) :=
  let curVal := backward c in
  if curVal <? 0 then Unexpected InvalidEncodingChar
  else write k (u64 (u64 (at_ b5810Coeff k * 58) + curVal)) b5810Coeff.

Fixpoint push_partial (cs : list Z) (b5810Coeff : list Z) : B58Result (list Z) :=
  match cs with [] => Value b5810Coeff | c :: cs => b5810Coeff ← push_char c 0 b5810Coeff; push_partial cs b5810Coeff end.

(** The characters of the full coefficients, one of each in turn. *)
Fixpoint push_round (js : list nat) (i : nat) (input : list Z) (partial_coeff_len numPartialCoeffs : nat) (b5810Coeff : list Z)
    : B58Result (list Z) :=
  match js with
  | [] => Value b5810Coeff
  | j :: js =>
      b5810Coeff ← push_char (at_ input (partial_coeff_len + (j * 10) + i)) (numPartialCoeffs + j) b5810Coeff;
      push_round js i input partial_coeff_len numPartialCoeffs b5810Coeff
  end.
Fixpoint push_full (is_ : list nat) (num_full_coeffs : nat) (input : list Z) (partial_coeff_len numPartialCoeffs : nat)
    (b5810Coeff : list Z) : B58Result (list Z) :=
  match is_ with
  | [] => Value b5810Coeff
  | i :: is_ =>
      b5810Coeff ← push_round (seq 0 num_full_coeffs) i input partial_coeff_len numPartialCoeffs b5810Coeff;
      push_full is_ num_full_coeffs input partial_coeff_len numPartialCoeffs b5810Coeff
  end.

(** A part of the array of limbs is handed to a function. *)
Definition on_prefix (n : nat) (f : list Z -> B58Result (list Z)) (a : list Z) : B58Result (list Z) :=
  if (n <=? length a)%nat then a' ← f (take n a); Value (a' ++ drop n a) else OutOfBounds.

Fixpoint limbs_loop (cs : list Z) (result : list Z) (curResultSize : nat) : B58Result (list Z * nat) :=
  match cs with
  | [] => Value (result, curResultSize)
  | c :: cs =>
      result ← on_prefix (curResultSize + 1) (fun a => inplaceBigintMul a kB5810) result;
      result ← on_prefix (curResultSize + 1) (fun a => inplaceBigintAdd a c) result;
      limbs_loop cs result (if negb (at_ result curResultSize =? 0) then S curResultSize else curResultSize)
  end.

Definition b58ToB256Be (input : list Z) (out : list Z) : B58Result Blob :=
  if (52 <? length input)%nat then Unexpected InputTooLarge
  else if (length out <? 8)%nat then Unexpected OutputTooSmall
  else
    let inputZeros := leading input in
    let num_full_coeffs := (length input / 10)%nat in
    let partial_coeff_len := (length input mod 10)%nat in
    let numPartialCoeffs := if (partial_coeff_len =? 0)%nat then 0%nat else 1%nat in
    let numB5810Coeffs := (num_full_coeffs + numPartialCoeffs)%nat in
    b5810Coeff ← push_partial (take partial_coeff_len input) (replicate 6 0);
    b5810Coeff ← push_full (seq 0 10) num_full_coeffs input partial_coeff_len numPartialCoeffs b5810Coeff;
    result ← write 0 (at_ b5810Coeff 0) (replicate 5 0);
    '(result, curResultSize) ← limbs_loop (take (numB5810Coeffs - 1) (drop 1 b5810Coeff)) result 1;
    '(out, curOutI) ← write_all (replicate inputZeros 0) out 0;
    let top := be_bytes 8 (at_ result (curResultSize - 1)) in
    '(out, curOutI) ← write_all (drop (zeros top) top) out curOutI;
    if (length out <? curOutI + 8 * (curResultSize - 1))%nat then Unexpected OutputTooSmall
    else
      '(out, curOutI) ← write_all (flat_map (be_bytes 8) (reverse (take (curResultSize - 1) result))) out curOutI;
      Value (take curOutI out).

Definition encodeBase58Token_span `{Sha256} (tokenType : Z) (input : Blob) (out : list Z) : B58Result (list Z) :=
  if (128 - 5 <? length input)%nat then Unexpected InputTooLarge
  else match input with
  | [] => Unexpected InputTooSmall
  | _ => let data := tokenType :: input in b256ToB58Be (data ++ checksum data) out
  end.

Definition decodeBase58Token_span `{Sha256} (type : Z) (s : list Z) (outBuf : list Z) : B58Result Blob :=
  ret ← b58ToB256Be s (replicate 64 0);
  if (length ret <? 6)%nat then Unexpected InputTooSmall
  else if negb (type =? at_ ret 0) then Unexpected MismatchedTokenType
  else
    let guard := checksum (take (length ret - 4) ret) in
    if negb (bool_decide (guard = drop (length ret - 4) ret)) then Unexpected MismatchedChecksum
    else
      let outSize := (length ret - 1 - 4)%nat in
      if (length outBuf <? outSize)%nat then Unexpected OutputTooSmall
      else Value (take outSize (drop 1 ret)).

(** The text forms; empty on any error. *)
Definition encodeBase58Token `{Sha256} (type : Z) (token : Blob) : list Z :=
  match encodeBase58Token_span type token (replicate 128 0) with Value sr => sr | _ => [] end.
Definition decodeBase58Token `{Sha256} (s : list Z) (type : Z) : Blob :=
  match decodeBase58Token_span type s (replicate 64 0) with Value sr => sr | _ => [] end.
End b58_fast.
