(* ===== verification/Base58Fast.v ===== *)
(** * What base 58 text stands for

    A text stands for bytes if it has as many leading zeros and the same
    value; there is one text for each list of bytes, and both codecs compute
    it.  This file shows it for the reference codec and for the encoder on
    limbs, Base58Decode for its decoder. *)

From S2P Require Import Prelude Serializer Radix Base58 Base58Limbs.
Import b58_fast.
Local Open Scope Z_scope.

(** ** The alphabet *)

Definition alphabet_ok : bool :=
  forallb (fun n => let d := Z.of_nat n in (backward (forward d) =? d) && (0 <=? forward d) && (forward d <? 256)) (seq 0 58) &&
  forallb (fun n => let c := Z.of_nat n in
    (backward c =? -1) || ((0 <=? backward c) && (backward c <? 58) && (forward (backward c) =? c))) (seq 0 256).
Lemma alphabet_checked : alphabet_ok = true.
Proof. vm_compute. reflexivity. Qed.

Lemma forall_seq (f : nat -> bool) n i : forallb f (seq 0 n) = true -> (i < n)%nat -> f i = true.
Proof. rewrite forallb_forall. intros Hf Hi. apply Hf, in_seq. lia. Qed.

Lemma backward_forward d : digit 58 d -> backward (forward d) = d /\ is_byte (forward d).
Proof.
  intros Hd. pose proof alphabet_checked as [H _]%andb_prop. apply (forall_seq _ _ (Z.to_nat d)) in H; [|unfold digit in Hd; lia].
  cbv beta zeta in H. rewrite Z2Nat.id in H by (unfold digit in Hd; lia). apply andb_prop in H as [[H1 H2]%andb_prop H3].
  unfold is_byte. lia.
Qed.
Lemma forward_backward c : is_byte c -> backward c = -1 \/ (digit 58 (backward c) /\ forward (backward c) = c).
Proof.
  intros Hc. unfold is_byte in Hc. pose proof alphabet_checked as [_ H]%andb_prop. apply (forall_seq _ _ (Z.to_nat c)) in H; [|lia].
  cbv beta zeta in H. rewrite Z2Nat.id in H by lia. unfold digit. lia.
Qed.

(** A character of the alphabet. *)
Definition b58_char (c : Z) : Prop := is_byte c /\ backward c <> -1.
Lemma b58_char_digit c : b58_char c -> digit 58 (backward c) /\ forward (backward c) = c.
Proof. intros [Hc Hn]. by destruct (forward_backward c Hc). Qed.
Lemma forward_inj d e : digit 58 d -> digit 58 e -> forward d = forward e -> d = e.
Proof. intros [Hd _]%backward_forward [He _]%backward_forward E. congruence. Qed.
Lemma backward_zero c : is_byte c -> backward c = 0 <-> c = forward 0.
Proof.
  intros Hc. split; [|intros ->; by apply backward_forward]. intros E. destruct (forward_backward c Hc) as [?|[_ <-]]; congruence.
Qed.

(** ** Texts *)

Definition byte_val : Blob -> Z := val 256.
Definition b58_val : list Z -> Z := val 58.

Record stands_for (text : list Z) (bytes : Blob) (ds : list Z) : Prop := {
  sf_text : text = replicate (zeros bytes) (forward 0) ++ (forward <$> ds);
  sf_digits : Forall (digit 58) ds;
  sf_lean : lean ds;
  sf_val : b58_val ds = byte_val bytes
}.

Lemma stands_for_unique t1 t2 bytes d1 d2 : stands_for t1 bytes d1 -> stands_for t2 bytes d2 -> t1 = t2.
Proof.
  intros [-> D1 L1 V1] [-> D2 L2 V2]. do 2 f_equal. apply (lean_inj 58); [lia|done..|]. unfold b58_val in *. congruence.
Qed.

Lemma forward_zeros n ds : Forall (digit 58) ds -> lean ds ->
  b58_ref.leading (replicate n (forward 0) ++ (forward <$> ds)) = n.
Proof.
  intros Hd Hl. induction n as [|n IH].
  - destruct ds as [|d ds]; [done|]. cbn. apply Forall_cons in Hd as [Hd _]. destruct (backward_forward d Hd) as [-> _].
    cbn in Hl. by rewrite (proj2 (Z.eqb_neq d 0)).
  - cbn [replicate app b58_ref.leading]. destruct (backward_forward 0 ltac:(unfold digit; lia)) as [-> _]. cbn. by rewrite IH.
Qed.

(** The bytes are unique, too. *)
Lemma stands_for_bytes text b1 b2 d1 d2 : stands_for text b1 d1 -> stands_for text b2 d2 ->
  Forall is_byte b1 -> Forall is_byte b2 -> b1 = b2.
Proof.
  intros [E1 D1 L1 V1] [E2 D2 L2 V2] B1 B2.
  assert (zeros b1 = zeros b2) as Ez.
  { rewrite <-(forward_zeros (zeros b1) d1 D1 L1), <-(forward_zeros (zeros b2) d2 D2 L2). by rewrite <-E1, <-E2. }
  rewrite E1, Ez in E2. apply app_inv_head in E2.
  assert (d1 = d2) as ->.
  { clear -E2 D1 D2. revert d2 E2 D2. induction D1 as [|d d1 Hd _ IH]; intros [|e d2] E D2; [done..|].
    injection E as Ed E. apply Forall_cons in D2 as [He D2]. f_equal; [by apply forward_inj|by apply IH]. }
  rewrite (zeros_strip b1), (zeros_strip b2), Ez. f_equal.
  apply (lean_inj 256); [lia|by apply strip_sub|by apply strip_sub|apply strip_lean|apply strip_lean|].
  rewrite !(val_strip 256) by lia. unfold byte_val in *. congruence.
Qed.

(** ** The reference *)

(** The value of a buffer under repeated multiplication. *)
Lemma ref_loop_spec (b m : Z) (l buf : list Z) : 1 < b -> 1 < m -> Forall (digit m) l -> Forall (digit b) buf ->
  (val b buf + 1) * m ^ Z.of_nat (length l) <= b ^ Z.of_nat (length buf) ->
  let buf' := foldl (fun buf d => reverse (carry_loop b m d (reverse buf)).1) buf l in
  Forall (digit b) buf' /\ length buf' = length buf /\ val b buf' = foldl (fun a d => a * m + d) (val b buf) l.
Proof.
  intros Hb Hm Hl. revert buf. induction Hl as [|d l Hd Hl IH]; intros buf Hbuf Hlt; [done|]. cbn [foldl length] in *.
  rewrite Nat2Z.inj_succ, Z.pow_succ_r in Hlt by lia. unfold digit in Hd. pose proof (val_bound b Hb buf Hbuf).
  assert (0 < m ^ Z.of_nat (length l)) by (apply Z.pow_pos_nonneg; lia).
  pose proof (carry_loop_fits b Hb m d (reverse buf) ltac:(lia) ltac:(lia) (proj2 (Forall_reverse _ _) Hbuf)) as Hc.
  rewrite length_reverse, lval_reverse in Hc by done. destruct (carry_loop b m d (reverse buf)) as [l' carry']. cbn [fst].
  destruct Hc as (_ & Hv & Hlen & Hd'); [nia|].
  assert (val b (reverse l') = val b buf * m + d) as E by (rewrite val_reverse by done; lia).
  specialize (IH (reverse l')). rewrite length_reverse, E, Hlen in IH. apply IH; [by apply Forall_reverse|]. nia.
Qed.

Lemma encodeBase58_stands message n : Forall is_byte message -> 256 ^ Z.of_nat (length message) <= 58 ^ Z.of_nat n ->
  exists ds, stands_for (b58_ref.encodeBase58 message n) message ds.
Proof.
  intros Hm Hn. unfold b58_ref.encodeBase58.
  pose proof (ref_loop_spec 58 256 (strip message) (replicate n 0) ltac:(lia) ltac:(lia)) as H. cbv zeta in H.
  rewrite length_replicate in H. rewrite <-(app_nil_r (replicate n 0)), val_zeros in H by lia. rewrite app_nil_r in H. cbn [val foldl] in H.
  destruct H as (H1 & H2 & H3).
  - by apply strip_sub.
  - apply Forall_replicate. unfold digit. lia.
  - etransitivity; [|exact Hn]. change (val 58 [] + 1) with 1. rewrite Z.mul_1_l. apply Z.pow_le_mono_r; [lia|].
    unfold strip. rewrite length_drop. lia.
  - fold (strip message). set (b58 := foldl _ _ _) in *. fold (strip b58). exists (strip b58). split; [done|by apply strip_sub|apply strip_lean|].
    unfold b58_val, byte_val. rewrite val_strip, H3 by lia. change (val 58 []) with 0. fold (val 256 (strip message)). by rewrite val_strip by lia.
Qed.

(** *** Decoding *)

Lemma leading_split s : Forall is_byte s ->
  s = replicate (b58_ref.leading s) (forward 0) ++ drop (b58_ref.leading s) s /\ lean (backward <$> drop (b58_ref.leading s) s).
Proof.
  induction 1 as [|c s Hc _ [IH1 IH2]]; cbn [b58_ref.leading]; [done|]. destruct (Z.eqb_spec (backward c) 0) as [E|E]; [|done].
  cbn [replicate app drop]. split; [|done]. apply (backward_zero c Hc) in E as ->. by f_equal.
Qed.

Lemma forward_digits s : Forall b58_char s -> forward <$> (backward <$> s) = s /\ Forall (digit 58) (backward <$> s).
Proof.
  induction 1 as [|c s [H1 H2]%b58_char_digit _ [IH1 IH2]]; [done|]. cbn. split; [by rewrite H2, IH1|by constructor].
Qed.

Lemma decode_loop_valid s buf : Forall b58_char s ->
  b58_ref.decode_loop s buf = Some (foldl (fun buf d => reverse (carry_loop 256 58 d (reverse buf)).1) buf (backward <$> s)).
Proof.
  intros Hs. revert buf. induction Hs as [|c s [_ Hc] _ IH]; intros buf; [done|]. cbn [b58_ref.decode_loop].
  rewrite (proj2 (Z.eqb_neq _ _) Hc). apply IH.
Qed.
Lemma decode_loop_invalid s buf : Exists (fun c => backward c = -1) s -> b58_ref.decode_loop s buf = None.
Proof.
  intros Hs. revert buf. induction Hs as [c s Hc|c s _ IH]; intros buf; cbn [b58_ref.decode_loop].
  - by rewrite (proj2 (Z.eqb_eq _ _) Hc).
  - destruct (_ =? _); [done|apply IH].
Qed.

(** The bytes of a text: its leading zeros, and its value. *)
Lemma stands_for_text s bs : Forall b58_char s -> lean bs ->
  byte_val bs = b58_val (backward <$> drop (b58_ref.leading s) s) ->
  stands_for s (replicate (b58_ref.leading s) 0 ++ bs) (backward <$> drop (b58_ref.leading s) s).
Proof.
  intros Hs Hl Hv. assert (Forall is_byte s) as Hb by (eapply Forall_impl; [exact Hs|by intros c [? _]]).
  destruct (leading_split s Hb) as [E Hlean]. destruct (forward_digits _ (Forall_drop _ (b58_ref.leading s) _ Hs)) as [F D].
  destruct (zeros_lean (b58_ref.leading s) bs Hl) as [Ez _]. split; [by rewrite Ez, F|done|done|].
  unfold byte_val. rewrite val_zeros by lia. by rewrite <-Hv.
Qed.

Lemma b256_checked : forallb (fun n => 58 ^ Z.of_nat n <=? 256 ^ Z.of_nat (n * 733 / 1000 + 1)) (seq 0 65) = true.
Proof. vm_compute. reflexivity. Qed.
Lemma b256_size n : (n <= 64)%nat -> 58 ^ Z.of_nat n <= 256 ^ Z.of_nat (n * 733 / 1000 + 1).
Proof. intros Hn. apply Z.leb_le, (forall_seq _ 65 n b256_checked). lia. Qed.

Lemma decodeBase58_stands s : Forall b58_char s -> (length (drop (b58_ref.leading s) s) <= 64)%nat ->
  exists ds, stands_for s (b58_ref.decodeBase58 s) ds /\ Forall is_byte (b58_ref.decodeBase58 s).
Proof.
  intros Hs Hlen. unfold b58_ref.decodeBase58. rewrite (proj2 (Nat.ltb_ge _ _) Hlen).
  set (rest := drop (b58_ref.leading s) s) in *. assert (Forall b58_char rest) as Hr by (by apply Forall_drop).
  destruct (forward_digits rest Hr) as [_ Hd]. rewrite (decode_loop_valid rest _ Hr).
  pose proof (ref_loop_spec 256 58 (backward <$> rest) (replicate (length rest * 733 / 1000 + 1) 0) ltac:(lia) ltac:(lia) Hd) as H.
  cbv zeta in H. rewrite length_replicate, length_fmap in H.
  assert (val 256 (replicate (length rest * 733 / 1000 + 1) 0) = 0) as E0.
  { rewrite <-(app_nil_r (replicate _ 0)), val_zeros by lia. done. }
  rewrite E0 in H. destruct H as (H1 & _ & H3).
  - apply Forall_replicate. unfold digit. lia.
  - rewrite Z.mul_1_l. by apply b256_size.
  - set (b256 := foldl _ _ _) in *. fold (strip b256). exists (backward <$> rest). split.
    + apply stands_for_text; [done|apply strip_lean|]. unfold byte_val, b58_val. rewrite val_strip, H3 by lia. done.
    + apply Forall_app. split; [apply Forall_replicate; unfold is_byte; lia|]. by apply strip_sub.
Qed.

Lemma decodeBase58_invalid s : Forall is_byte s -> Exists (fun c => backward c = -1) s -> b58_ref.decodeBase58 s = [].
Proof.
  intros Hb Hs. unfold b58_ref.decodeBase58. destruct (64 <? _)%nat; [done|]. rewrite decode_loop_invalid; [done|].
  destruct (leading_split s Hb) as [E _]. rewrite E in Hs. apply Exists_app in Hs as [Hs|Hs]; [|done].
  apply Exists_exists in Hs as (c & [-> _]%elem_of_replicate & Hc). destruct (backward_forward 0) as [E0 _]; [unfold digit; lia|]. lia.
Qed.

(** * The fast codec computes the same text *)

Definition limb : Z -> Prop := digit (2 ^ 64).
Definition lv : list Z -> Z := lval (2 ^ 64).

(** ** Limbs *)

Lemma limb_split c : 0 <= c < 2 ^ 128 -> Z.land (u128 c) 0xffffffffffffffff = c mod 2 ^ 64 /\ u64 (Z.shiftr (u128 c) 64) = c / 2 ^ 64.
Proof.
  intros Hc. unfold u128, u64. rewrite Z.mod_small by done. change 0xffffffffffffffff with (Z.ones 64).
  rewrite Z.land_ones, Z.shiftr_div_pow2 by lia. split; [done|]. apply Z.mod_small. split; [apply Z.div_pos; lia|].
  apply Z.div_lt_upper_bound; lia.
Qed.
Lemma carryingAdd_spec a b : limb a -> limb b -> carryingAdd a b = ((a + b) mod 2 ^ 64, (a + b) / 2 ^ 64).
Proof. unfold limb, digit. intros Ha Hb. unfold carryingAdd. destruct (limb_split (a + b)) as [-> ->]; [lia|done]. Qed.
Lemma carryingMul_spec a b carry : limb a -> limb b -> limb carry ->
  carryingMul a b carry = ((a * b + carry) mod 2 ^ 64, (a * b + carry) / 2 ^ 64) /\ limb ((a * b + carry) / 2 ^ 64).
Proof.
  unfold limb, digit. intros Ha Hb Hc. assert (0 <= a * b <= (2 ^ 64 - 1) * (2 ^ 64 - 1)) as Hab by nia.
  unfold carryingMul. assert (u128 (a * b) = a * b) as -> by (apply Z.mod_small; lia).
  destruct (limb_split (a * b + carry)) as [-> ->]; [lia|]. split; [done|]. split; [apply Z.div_pos; lia|].
  apply Z.div_lt_upper_bound; lia.
Qed.

Lemma mul_loop_spec b carry a : limb b -> limb carry -> Forall limb a -> let '(a', carry') := mul_loop b carry a in
  lv a' + 2 ^ (64 * Z.of_nat (length a)) * carry' = lv a * b + carry /\ length a' = length a /\ Forall limb a' /\ limb carry'.
Proof.
  intros Hb Hc Ha. revert carry Hc. induction Ha as [|v a Hv _ IH]; intros carry Hc; cbn [mul_loop].
  { cbn. split_and!; [lia|done|constructor|done]. }
  destruct (carryingMul_spec v b carry Hv Hb Hc) as [-> Hl]. specialize (IH _ Hl). destruct (mul_loop b _ a) as [a' carry'].
  destruct IH as (E & Hlen & Hf & Hc'). cbn [length]. split_and!; [|by rewrite Hlen| |done].
  - unfold lv in *. cbn [lval]. pose proof (Z.div_mod (v * b + carry) (2 ^ 64) ltac:(lia)).
    replace (64 * Z.of_nat (S (length a))) with (64 + 64 * Z.of_nat (length a)) by lia. rewrite Z.pow_add_r by lia. nia.
  - constructor; [|done]. apply Z.mod_pos_bound. lia.
Qed.

Lemma pow64 n : (2 ^ 64) ^ Z.of_nat n = 2 ^ (64 * Z.of_nat n).
Proof. rewrite <-Z.pow_mul_r by lia. done. Qed.
Lemma lv_bound a : Forall limb a -> 0 <= lv a < 2 ^ (64 * Z.of_nat (length a)).
Proof. intros Ha. rewrite <-pow64. apply lval_bound; [lia|done]. Qed.
Lemma lv_app a1 a2 : lv (a1 ++ a2) = lv a1 + 2 ^ (64 * Z.of_nat (length a1)) * lv a2.
Proof. unfold lv. rewrite lval_app, pow64 by lia. done. Qed.

Lemma inplaceBigintMul_spec a b : Forall limb a -> limb b ->
  exists a', inplaceBigintMul (a ++ [0]) b = Value a' /\ lv a' = lv a * b /\ length a' = S (length a) /\ Forall limb a'.
Proof.
  intros Ha Hb. pose proof (mul_loop_spec b 0 a Hb ltac:(split; lia) Ha) as Hm.
  unfold inplaceBigintMul. rewrite length_app. cbn [length]. replace (length a + 1 - 1)%nat with (length a) by lia.
  assert (at_ (a ++ [0]) (length a) = 0) as -> by (unfold at_; by rewrite list_lookup_middle).
  rewrite take_app_length. destruct (mul_loop b 0 a) as [a' carry]. destruct Hm as (E & Hl & Hf & Hc).
  exists (a' ++ [carry]). split_and!; [by destruct a| |rewrite length_app; cbn; lia|by apply Forall_app; split; [|constructor]].
  rewrite lv_app, Hl. unfold lv at 2. cbn [lval]. lia.
Qed.

Lemma add_loop_spec carry a : 0 <= carry <= 1 -> Forall limb a -> lv a + carry < 2 ^ (64 * Z.of_nat (length a)) ->
  exists a', add_loop carry a = Value a' /\ lv a' = lv a + carry /\ length a' = length a /\ Forall limb a'.
Proof.
  intros Hc Ha. revert carry Hc. induction Ha as [|v a Hv Ha IH]; intros carry Hc Hlt; cbn [add_loop].
  { cbn in Hlt. assert (carry = 0) as -> by lia. by exists []. }
  destruct (Z.eqb_spec carry 0) as [->|Hne].
  { exists (v :: a). split_and!; [done|lia|done|by constructor]. }
  assert (carry = 1) as -> by lia. rewrite carryingAdd_spec by (done || split; lia).
  pose proof (Z.div_mod (v + 1) (2 ^ 64) ltac:(lia)) as Hdm. pose proof (Z.mod_pos_bound (v + 1) (2 ^ 64) ltac:(lia)).
  unfold limb, digit in Hv. unfold lv in *. cbn [lval length] in *.
  replace (64 * Z.of_nat (S (length a))) with (64 + 64 * Z.of_nat (length a)) in Hlt by lia. rewrite Z.pow_add_r in Hlt by lia.
  destruct (IH ((v + 1) / 2 ^ 64)) as (a' & -> & E & Hl & Hf); [nia|nia|].
  exists ((v + 1) mod 2 ^ 64 :: a'). split_and!; [done| |by rewrite <-Hl|by constructor]. cbn [lval]. lia.
Qed.

Lemma inplaceBigintAdd_spec a b : Forall limb a -> limb b -> (2 <= length a)%nat -> lv a + b < 2 ^ (64 * Z.of_nat (length a)) ->
  exists a', inplaceBigintAdd a b = Value a' /\ lv a' = lv a + b /\ length a' = length a /\ Forall limb a'.
Proof.
  intros Ha Hb Hlen Hlt. destruct a as [|v a]; [cbn in Hlen; lia|]. apply Forall_cons in Ha as [Hv Ha].
  assert (inplaceBigintAdd (v :: a) b = let '(v, carry) := carryingAdd v b in a ← add_loop carry a; Value (v :: a)) as ->.
  { destruct a; [cbn in Hlen; lia|done]. }
  rewrite carryingAdd_spec by done.
  pose proof (Z.div_mod (v + b) (2 ^ 64) ltac:(lia)). pose proof (Z.mod_pos_bound (v + b) (2 ^ 64) ltac:(lia)).
  unfold limb, digit in Hv, Hb. unfold lv in *. cbn [lval length] in *.
  replace (64 * Z.of_nat (S (length a))) with (64 + 64 * Z.of_nat (length a)) in Hlt by lia. rewrite Z.pow_add_r in Hlt by lia.
  destruct (add_loop_spec ((v + b) / 2 ^ 64) a) as (a' & -> & E & Hl & Hf); [nia|done|unfold lv; nia|].
  exists ((v + b) mod 2 ^ 64 :: a'). split_and!; [done| |by cbn; rewrite Hl|by constructor]. unfold lv in E. cbn [lval]. lia.
Qed.

(** *** Division *)

Lemma kB5810_eq : kB5810 = 58 ^ 10.
Proof. done. Qed.
Lemma kB5810_limb : 1 < kB5810 < 2 ^ 64.
Proof. unfold kB5810. lia. Qed.

(** The limbs from the top down, with the remainder so far. *)
Lemma div_loop_spec D r a : 0 < D < 2 ^ 64 -> 0 <= r < D -> Forall limb a -> let '(q, r') := div_loop D r a in
  val (2 ^ 64) q * D + r' = r * 2 ^ (64 * Z.of_nat (length a)) + val (2 ^ 64) a /\ 0 <= r' < D /\ length q = length a /\ Forall limb q.
Proof.
  intros HD Hr Ha. revert r Hr. induction Ha as [|low a Hlow Ha IH]; intros r Hr; cbn [div_loop].
  { cbn [length val foldl]. split_and!; [cbn; lia|lia|lia|done|constructor]. }
  unfold limb, digit in Hlow.
  assert (Z.lor (Z.shiftl r 64) low = r * 2 ^ 64 + low) as ->.
  { rewrite Z.shiftl_mul_pow2, Z.lor_comm, lor_above by lia. lia. }
  pose proof (Z.div_mod (r * 2 ^ 64 + low) D ltac:(lia)) as Hdm. pose proof (Z.mod_pos_bound (r * 2 ^ 64 + low) D ltac:(lia)).
  set (d := (r * 2 ^ 64 + low) / D) in *.
  assert (0 <= d < 2 ^ 64) as Hd by (split; [apply Z.div_pos; lia|apply Z.div_lt_upper_bound; nia]).
  replace (r * 2 ^ 64 + low - D * d) with ((r * 2 ^ 64 + low) mod D) by lia.
  assert (u64 ((r * 2 ^ 64 + low) mod D) = (r * 2 ^ 64 + low) mod D) as -> by (apply Z.mod_small; lia).
  assert (u64 d = d) as -> by (by apply Z.mod_small).
  specialize (IH ((r * 2 ^ 64 + low) mod D) ltac:(lia)). destruct (div_loop D _ a) as [q r']. destruct IH as (E & Hr' & Hl & Hf).
  split_and!; [|lia|lia|by cbn; rewrite Hl|by constructor].
  rewrite !val_cons, Hl, pow64 by lia. cbn [length].
  replace (64 * Z.of_nat (S (length a))) with (64 + 64 * Z.of_nat (length a)) by lia. rewrite Z.pow_add_r by lia. nia.
Qed.

Lemma divRem_spec num : Forall limb num -> let '(q, r) := inplaceBigintDivRem num kB5810 in
  lv q * kB5810 + r = lv num /\ 0 <= r < kB5810 /\ length q = length num /\ Forall limb q.
Proof.
  intros Hn. unfold inplaceBigintDivRem. pose proof kB5810_limb as HD.
  assert (lv num = val (2 ^ 64) (reverse num)) as -> by (by rewrite val_reverse).
  rewrite <-(length_reverse num). apply Forall_reverse in Hn. destruct (reverse num) as [|last rest].
  { cbn. split_and!; [lia|lia|lia|done|constructor]. }
  apply Forall_cons in Hn as [Hlast Hrest]. unfold limb, digit in Hlast. cbn [divRem].
  pose proof (Z.div_mod last kB5810 ltac:(lia)). pose proof (Z.mod_pos_bound last kB5810 ltac:(lia)).
  pose proof (div_loop_spec kB5810 (last mod kB5810) rest ltac:(lia) ltac:(lia) Hrest) as Hl.
  destruct (div_loop kB5810 (last mod kB5810) rest) as [q r]. destruct Hl as (E & Hr & Hlen & Hf).
  unfold lv. rewrite lval_reverse by lia. split_and!; [|lia|lia|by rewrite length_reverse; cbn; rewrite Hlen|].
  - rewrite !val_cons, Hlen, pow64 by lia. nia.
  - apply Forall_reverse. constructor; [|done]. split; [apply Z.div_pos; lia|]. apply Z.div_lt_upper_bound; nia.
Qed.

(** The last limb of a number decides whether it needs all its limbs. *)
Lemma last_limb q e : Forall limb q -> length q = S e ->
  (at_ q e = 0 -> lv (take e q) = lv q) /\ (at_ q e <> 0 -> 2 ^ (64 * Z.of_nat e) <= lv q).
Proof.
  intros Hq Hl. destruct (lookup_lt_is_Some_2 q e) as [x Hx]; [lia|].
  pose proof (take_drop_middle q e x Hx) as E. rewrite drop_ge in E by lia. unfold at_. rewrite Hx. cbn [default].
  assert (lv q = lv (take e q) + 2 ^ (64 * Z.of_nat e) * x) as ->.
  { rewrite <-E at 1. rewrite lv_app, length_take, Nat.min_l by lia. unfold lv at 2. cbn [lval]. lia. }
  pose proof (lv_bound (take e q) (Forall_take _ _ _ Hq)). pose proof (Forall_lookup_1 _ _ _ _ Hq Hx) as Hlx. unfold limb, digit in Hlx.
  assert (0 < 2 ^ (64 * Z.of_nat e)) by (apply Z.pow_pos_nonneg; lia). unfold id. split; [lia|nia].
Qed.

Lemma write_next cs n v : write (length cs) v (cs ++ replicate (S n) 0) = Value ((cs ++ [v]) ++ replicate n 0).
Proof.
  unfold write. rewrite length_app, length_replicate, (proj2 (Nat.ltb_lt _ _)) by lia.
  rewrite insert_app_r_alt, Nat.sub_diag by lia. cbn. by rewrite <-app_assoc.
Qed.

Lemma coeffs_loop_spec n fuel limbs e cs : (n < fuel)%nat -> Forall limb limbs -> (e <= length limbs)%nat -> (e <= n)%nat ->
  lv (take e limbs) < kB5810 ^ Z.of_nat n -> Forall (digit kB5810) cs ->
  exists cs' n', coeffs_loop fuel limbs e (cs ++ replicate n 0) (length cs) = Value (cs' ++ replicate n' 0, length cs') /\
    lval kB5810 cs' = lval kB5810 cs + kB5810 ^ Z.of_nat (length cs) * lv (take e limbs) /\ Forall (digit kB5810) cs' /\
    (length cs' <= length cs + n)%nat.
Proof.
  pose proof kB5810_limb as HD. revert fuel limbs e cs. induction n as [|n IH]; intros fuel limbs e cs Hf Hl He Hen HV Hcs.
  { destruct fuel as [|fuel]; [lia|]. assert (e = 0%nat) as -> by lia. exists cs, 0%nat. change (lv (take 0 limbs)) with 0. split_and!; [done|lia|done|lia]. }
  destruct fuel as [|fuel]; [lia|]. cbn [coeffs_loop]. destruct (Nat.eqb_spec e 0) as [->|Hne].
  { exists cs, (S n). change (lv (take 0 limbs)) with 0. split_and!; [done|lia|done|lia]. }
  pose proof (divRem_spec (take e limbs) (Forall_take _ _ _ Hl)) as Hd.
  destruct (inplaceBigintDivRem (take e limbs) kB5810) as [q r]. destruct Hd as (E & Hr & Hlq & Hfq).
  rewrite length_take, Nat.min_l in Hlq by lia. rewrite write_next. cbn [mbind B58Result_bind].
  set (limbs' := q ++ drop e limbs). destruct (last_limb q (e - 1) Hfq) as [Hz Hnz]; [lia|].
  assert (at_ limbs' (e - 1) = at_ q (e - 1)) as -> by (unfold at_, limbs'; by rewrite lookup_app_l by lia).
  set (e' := if at_ q (e - 1) =? 0 then (e - 1)%nat else e).
  rewrite Nat2Z.inj_succ, Z.pow_succ_r in HV by lia.
  assert (0 <= lv q < kB5810 ^ Z.of_nat n) as Hvq by (pose proof (lv_bound q Hfq); nia).
  assert (lv (take e' limbs') = lv q) as Ev.
  { unfold limbs', e'. destruct (Z.eqb_spec (at_ q (e - 1)) 0) as [Ez|Ez]; rewrite take_app_le by lia.
    - by apply Hz.
    - by rewrite take_ge by lia. }
  destruct (IH fuel limbs' e' (cs ++ [r])) as (cs' & n' & Eq & Hv & Hd & Hlen).
  - lia.
  - apply Forall_app. split; [done|by apply Forall_drop].
  - unfold limbs', e'. rewrite length_app, length_drop. destruct (_ =? _); lia.
  - unfold e'. destruct (Z.eqb_spec (at_ q (e - 1)) 0) as [Ez|Ez]; [lia|]. specialize (Hnz Ez).
    assert (kB5810 ^ Z.of_nat n <= 2 ^ (64 * Z.of_nat n)) as Hle by (rewrite <-pow64; apply Z.pow_le_mono_l; lia).
    assert (2 ^ (64 * Z.of_nat (e - 1)) < 2 ^ (64 * Z.of_nat n)) as Hlt by lia. apply Z.pow_lt_mono_r_iff in Hlt; lia.
  - rewrite Ev. lia.
  - apply Forall_app. split; [done|by constructor].
  - rewrite length_app in *. cbn [length] in *. replace (length cs + 1)%nat with (S (length cs)) in * by lia.
    exists cs', n'. split_and!; [exact Eq| |done|lia]. rewrite Hv, Ev, lval_app, Nat2Z.inj_succ, Z.pow_succ_r by lia. cbn [lval]. nia.
Qed.

(** *** Bytes to limbs, coefficients to digits *)

Lemma pow256 n : 256 ^ Z.of_nat n = 2 ^ (8 * Z.of_nat n).
Proof. change 256 with (2 ^ 8). rewrite <-Z.pow_mul_r by lia. done. Qed.
Lemma be_sum_val t : be_sum t = val 256 t.
Proof.
  induction t as [|b t IH]; [done|]. cbn [be_sum]. rewrite IH, val_cons, Z.shiftl_mul_pow2, pow256 by lia. done.
Qed.

Lemma be_loop_spec l a : 0 <= a -> Forall is_byte l -> (a + 1) * 256 ^ Z.of_nat (length l) <= 2 ^ 64 ->
  foldl (fun be b => Z.lor (u64 (Z.shiftl be 8)) b) a l = a * 256 ^ Z.of_nat (length l) + val 256 l.
Proof.
  intros Ha Hl. revert a Ha. induction Hl as [|x l Hx Hl IH]; intros a Ha Hlt; cbn [foldl length]; [cbn; lia|].
  cbn [length] in Hlt. rewrite Nat2Z.inj_succ, Z.pow_succ_r in Hlt by lia. unfold is_byte in Hx.
  assert (0 < 256 ^ Z.of_nat (length l)) by (apply Z.pow_pos_nonneg; lia).
  assert (u64 (Z.shiftl a 8) = a * 2 ^ 8) as -> by (rewrite Z.shiftl_mul_pow2 by lia; apply Z.mod_small; nia).
  rewrite Z.lor_comm, lor_above by lia. change (2 ^ 8) with 256. rewrite IH by nia.
  rewrite val_cons, Nat2Z.inj_succ, Z.pow_succ_r by lia. ring.
Qed.

Lemma limbs_of_spec n input : Forall is_byte input -> (length input <= 8 * n)%nat ->
  lv (limbs_of n input) = val 256 input /\ Forall limb (limbs_of n input) /\ (length (limbs_of n input) <= n)%nat.
Proof.
  revert input. induction n as [|n IH]; intros input Hi Hl.
  { destruct input; [|cbn in Hl; lia]. cbn. split_and!; [done|constructor|lia]. }
  cbn [limbs_of]. destruct input as [|x input']; [cbn; split_and!; [done|constructor|lia]|].
  remember (x :: input') as input eqn:Ei. clear Ei x input'. destruct (Nat.leb_spec 8 (length input)) as [H8|H8].
  - set (k := (length input - 8)%nat). destruct (IH (take k input)) as (E & Hf & Hn); [by apply Forall_take|rewrite length_take; lia|].
    assert (Forall is_byte (drop k input)) as Hd by (by apply Forall_drop).
    assert (length (drop k input) = 8%nat) as H8' by (rewrite length_drop; lia).
    pose proof (val_bound 256 ltac:(lia) _ Hd) as Hb. rewrite H8' in Hb. split_and!.
    + unfold lv in *. cbn [lval]. rewrite E, be_sum_val. rewrite <-(take_drop k input) at 3. rewrite val_app, H8' by lia.
      change (256 ^ Z.of_nat 8) with (2 ^ 64). lia.
    + constructor; [|done]. rewrite be_sum_val. exact Hb.
    + cbn. lia.
  - pose proof (val_bound 256 ltac:(lia) _ Hi) as Hb.
    assert (256 ^ Z.of_nat (length input) <= 256 ^ 7) by (apply Z.pow_le_mono_r; lia).
    rewrite be_loop_spec; [|lia|done|change (2 ^ 64) with (256 ^ 8); lia]. rewrite Z.mul_0_l, Z.add_0_l. split_and!.
    + unfold lv. cbn [lval]. lia.
    + constructor; [|constructor]. split; [lia|]. change (2 ^ 64) with (256 ^ 8). lia.
    + cbn. lia.
Qed.

Lemma b58_loop_spec fuel input i suffix : length suffix = i -> (i <= 10)%nat -> 0 <= input < 58 ^ Z.of_nat (10 - i) ->
  (10 - i < fuel)%nat -> Forall (digit 58) suffix ->
  let r := b58_loop fuel input i (replicate (10 - i) 0 ++ suffix) in
  length r = 10%nat /\ Forall (digit 58) r /\ val 58 r = input * 58 ^ Z.of_nat i + val 58 suffix.
Proof.
  revert input i suffix. induction fuel as [|fuel IH]; intros input i suffix Hs Hi Hin Hf Hd; [lia|]. cbn [b58_loop].
  destruct (Z.ltb_spec 0 input) as [Hpos|Hz].
  - assert (i < 10)%nat as Hlt.
    { destruct (decide (i = 10%nat)) as [->|]; [|lia]. cbn in Hin. lia. }
    cbn [divRem]. replace (10 - i)%nat with (S (10 - S i)) in * by lia.
    assert (<[(10 - 1 - i)%nat := input mod 58]> (replicate (S (10 - S i)) 0 ++ suffix) =
            replicate (10 - S i) 0 ++ (input mod 58 :: suffix)) as ->.
    { rewrite replicate_S_end, <-app_assoc. replace (10 - 1 - i)%nat with (10 - S i)%nat by lia.
      rewrite insert_app_r_alt by (rewrite length_replicate; lia). rewrite length_replicate, Nat.sub_diag. done. }
    rewrite Nat2Z.inj_succ, Z.pow_succ_r in Hin by lia.
    destruct (IH (input / 58) (S i) (input mod 58 :: suffix)) as (E1 & E2 & E3).
    + cbn. lia.
    + lia.
    + split; [apply Z.div_pos; lia|apply Z.div_lt_upper_bound; lia].
    + lia.
    + constructor; [|done]. apply Z.mod_pos_bound. lia.
    + split_and!; [done|done|]. rewrite E3, val_cons, Hs by lia. rewrite Nat2Z.inj_succ, Z.pow_succ_r by lia.
      pose proof (Z.div_mod input 58 ltac:(lia)). nia.
  - assert (input = 0) as -> by lia. split_and!.
    + rewrite length_app, length_replicate. lia.
    + apply Forall_app. split; [|done]. apply Forall_replicate. split; lia.
    + rewrite val_zeros by lia. lia.
Qed.
Lemma b5810ToB58Be_spec c : digit kB5810 c ->
  length (b5810ToB58Be c) = 10%nat /\ Forall (digit 58) (b5810ToB58Be c) /\ val 58 (b5810ToB58Be c) = c.
Proof.
  unfold digit. rewrite kB5810_eq. intros Hc. destruct (b58_loop_spec 11 c 0 [] eq_refl) as (H1 & H2 & H3); [lia|exact Hc|lia|constructor|].
  rewrite app_nil_r in *. unfold b5810ToB58Be. split_and!; [done|done|].
  change (10 - 0)%nat with 10%nat in H3. rewrite H3. change (58 ^ Z.of_nat 0) with 1. change (val 58 []) with 0. lia.
Qed.

(** *** Output *)

Lemma write_all_spec cs out idx : (idx + length cs <= length out)%nat ->
  write_all cs out idx = Value (take idx out ++ cs ++ drop (idx + length cs) out, (idx + length cs)%nat).
Proof.
  revert out idx. induction cs as [|c cs IH]; intros out idx Hl; cbn [write_all length] in *.
  { cbn [app]. rewrite Nat.add_0_r, take_drop. done. }
  unfold write. rewrite (proj2 (Nat.ltb_lt _ _)) by lia. cbn [mbind B58Result_bind].
  rewrite IH by (rewrite length_insert; lia). replace (S idx + length cs)%nat with (idx + S (length cs))%nat by lia.
  f_equal. f_equal. rewrite drop_insert_lt by lia.
  rewrite (take_S_r _ _ c) by (rewrite list_lookup_insert_eq by lia; done).
  rewrite take_insert_ge by lia. rewrite <-app_assoc. done.
Qed.

(** What was written: [T], from [idx] on. *)
Definition written (out out' : list Z) (idx idx' : nat) (T : list Z) : Prop :=
  length out' = length out /\ idx' = (idx + length T)%nat /\ take idx' out' = take idx out ++ T.

Lemma write_all_written cs out idx : (idx + length cs <= length out)%nat ->
  exists out', write_all cs out idx = Value (out', (idx + length cs)%nat) /\ written out out' idx (idx + length cs) cs.
Proof.
  intros Hl. eexists. split; [by apply write_all_spec|]. split_and!.
  - rewrite !length_app, length_take, length_drop. lia.
  - done.
  - rewrite app_assoc, take_app_le by (rewrite length_app, length_take; lia).
    apply take_ge. rewrite length_app, length_take. lia.
Qed.
Lemma written_trans out out1 out2 i i1 i2 T1 T2 :
  written out out1 i i1 T1 -> written out1 out2 i1 i2 T2 -> written out out2 i i2 (T1 ++ T2).
Proof.
  intros (L1 & -> & E1) (L2 & -> & E2). split_and!; [by rewrite L2|rewrite length_app; lia|].
  by rewrite E2, E1, app_assoc.
Qed.
Lemma written_nil out i : written out out i i [].
Proof. split_and!; [done|cbn; lia|by rewrite app_nil_r]. Qed.

Definition digits_of (cs : list Z) : list Z := flat_map b5810ToB58Be (reverse cs).
Lemma digits_of_snoc cs c : digits_of (cs ++ [c]) = b5810ToB58Be c ++ digits_of cs.
Proof. unfold digits_of. by rewrite reverse_app. Qed.
Lemma digits_of_spec cs : Forall (digit kB5810) cs -> Forall (digit 58) (digits_of cs) /\
  length (digits_of cs) = (10 * length cs)%nat /\ val 58 (digits_of cs) = lval kB5810 cs.
Proof.
  induction cs as [|c cs IH] using rev_ind; intros Hc; [done|]. apply Forall_app in Hc as [Hcs [Hc _]%Forall_cons].
  destruct (IH Hcs) as (H1 & H2 & H3). destruct (b5810ToB58Be_spec c Hc) as (D1 & D2 & D3). rewrite digits_of_snoc. split_and!.
  - by apply Forall_app.
  - rewrite !length_app, H2, D1. cbn. lia.
  - rewrite val_app, H2, H3, D3, lval_app by (pose proof kB5810_limb; lia). cbn [lval]. rewrite kB5810_eq, <-Z.pow_mul_r by lia.
    replace (10 * Z.of_nat (length cs)) with (Z.of_nat (10 * length cs)) by lia. lia.
Qed.

Lemma digits_loop_spec cs rest (skip : bool) out idx : Forall (digit kB5810) cs -> (idx + 10 * length cs <= length out)%nat ->
  let T := forward <$> (if skip then strip (digits_of cs) else digits_of cs) in
  exists out', digits_loop (length cs) (cs ++ rest) skip out idx = Value (out', (idx + length T)%nat) /\ written out out' idx (idx + length T) T.
Proof.
  revert rest skip out idx. induction cs as [|c cs IH] using rev_ind; intros rest skip out idx Hcs Hl.
  { assert (digits_of [] = []) as E by done. cbv zeta. exists out. destruct skip; cbn [length digits_loop]; rewrite E; cbn;
      rewrite Nat.add_0_r; (split; [done|apply written_nil]). }
  apply Forall_app in Hcs as [Hcs [Hc _]%Forall_cons]. rewrite length_app in *. cbn [length] in *.
  replace (length cs + 1)%nat with (S (length cs)) in * by lia. cbn [digits_loop]. rewrite <-app_assoc. cbn [app].
  assert (at_ (cs ++ c :: rest) (length cs) = c) as -> by (unfold at_; by rewrite list_lookup_middle).
  destruct (b5810ToB58Be_spec c Hc) as (D1 & D2 & D3). rewrite digits_of_snoc.
  destruct (skip && (c =? 0)) eqn:Es.
  { apply andb_prop in Es as [-> ->%Z.eqb_eq]. rewrite (strip_zero 58) by done. apply (IH (0 :: rest) true out idx); [done|lia]. }
  rewrite (proj2 (Z.leb_gt _ _)) by apply Hc. fold (strip (b5810ToB58Be c)).
  set (T1 := if skip then strip (b5810ToB58Be c) else b5810ToB58Be c).
  assert (drop (if skip then zeros (b5810ToB58Be c) else 0) (b5810ToB58Be c) = T1) as -> by (by destruct skip).
  assert (length T1 <= 10)%nat as HT1 by (unfold T1; pose proof (strip_length (b5810ToB58Be c)); destruct skip; lia).
  assert ((if skip then strip (b5810ToB58Be c ++ digits_of cs) else b5810ToB58Be c ++ digits_of cs) = T1 ++ digits_of cs) as ->.
  { unfold T1. destruct skip; [|done]. apply (strip_app 58); [lia| |done]. rewrite D3. cbn in Es. by apply Z.eqb_neq. }
  assert (skip && (length out <? (length cs + 1) * 10 - (if skip then zeros (b5810ToB58Be c) else 0))%nat = false) as ->.
  { apply andb_false_intro2, Nat.ltb_ge. lia. }
  destruct (write_all_written (forward <$> T1) out idx) as (out1 & -> & W1); [rewrite length_fmap; lia|]. cbn [mbind B58Result_bind].
  destruct (IH (c :: rest) false out1 (idx + length (forward <$> T1))%nat) as (out2 & E2 & W2);
    [done|destruct W1 as [-> _]; rewrite length_fmap; lia|].
  exists out2. pose proof (written_trans _ _ _ _ _ _ _ _ W1 W2) as W. rewrite E2. cbv zeta. rewrite fmap_app.
  rewrite length_app, Nat.add_assoc. split; [done|exact W].
Qed.

Lemma b256ToB58Be_stands input out : Forall is_byte input -> (length input <= 38)%nat -> (98 <= length out)%nat ->
  exists text ds, b256ToB58Be input out = Value text /\ stands_for text input ds.
Proof.
  intros Hi Hl Ho. unfold b256ToB58Be. rewrite (proj2 (Nat.ltb_ge _ _)) by lia. fold (strip input).
  assert (Forall is_byte (strip input)) as Hs by (by apply strip_sub). pose proof (strip_length input) as Hsl.
  destruct (limbs_of_spec 5 (strip input) Hs) as (Ev & Hf & Hn); [lia|].
  set (limbs := limbs_of 5 (strip input)) in *.
  assert (lv limbs < kB5810 ^ Z.of_nat 6) as Hlt.
  { rewrite Ev. pose proof (val_bound 256 ltac:(lia) _ Hs) as Hb. rewrite kB5810_eq.
    assert (256 ^ Z.of_nat (length (strip input)) <= 256 ^ 38) by (apply Z.pow_le_mono_r; lia).
    assert (256 ^ 38 < (58 ^ 10) ^ Z.of_nat 6) by (vm_compute; reflexivity). lia. }
  destruct (coeffs_loop_spec 6 8 limbs (length limbs) []) as (cs & n' & E & Hv & Hd & Hlen);
    [lia|done|lia|lia|by rewrite take_ge|constructor|].
  rewrite take_ge in Hv by lia. cbn [length lval] in Hv. change (kB5810 ^ Z.of_nat 0) with 1 in Hv.
  change ([] ++ replicate 6 0) with (replicate 6 0) in E. change (length (@nil Z)) with 0%nat in E. rewrite E. cbn [mbind B58Result_bind].
  assert (zeros input <= 38)%nat as Hz.
  { pose proof (f_equal length (zeros_strip input)) as Ez. rewrite length_app, length_replicate in Ez. lia. }
  destruct (write_all_written (replicate (zeros input) (forward 0)) out 0) as (out1 & -> & W1); [rewrite length_replicate; lia|].
  cbn [mbind B58Result_bind]. rewrite length_replicate in *. cbn [Nat.add length] in *.
  destruct (digits_loop_spec cs (replicate n' 0) true out1 (zeros input)) as (out2 & -> & W2); [done|destruct W1 as [-> _]; lia|].
  cbn [mbind B58Result_bind]. pose proof (written_trans _ _ _ _ _ _ _ _ W1 W2) as (_ & _ & Et).
  rewrite Et. cbn [take app]. eexists _, (strip (digits_of cs)). split; [reflexivity|].
  destruct (digits_of_spec cs Hd) as (G1 & _ & G3). split; [done|by apply strip_sub|apply strip_lean|].
  unfold b58_val, byte_val. rewrite val_strip, G3, Hv, Ev, val_strip by lia. lia.
Qed.
