(* ===== verification/Base58Decode.v ===== *)
(** * The fast codec reads the same text *)

From S2P Require Import Prelude Serializer Radix Base58 Base58Limbs Base58Fast.
Local Open Scope Z_scope.
Import b58_fast.

(** ** Characters to coefficients

    The loops push characters into cells, in an order of their own. *)
Fixpoint push_all (ps : list (Z * nat)) (a : list Z) : B58Result (list Z) :=
  match ps with [] => Value a | (c, k) :: ps => a ← push_char c k a; push_all ps a end.

Lemma push_all_app p1 p2 a : push_all (p1 ++ p2) a = (a ← push_all p1 a; push_all p2 a).
Proof.
  revert a. induction p1 as [|[c k] p1 IH]; intros a; [done|]. cbn. destruct (push_char c k a); cbn; [apply IH|done|done].
Qed.

Definition round (i : nat) (input : list Z) (p np : nat) (js : list nat) : list (Z * nat) :=
  (fun j => (at_ input (p + (j * 10) + i)%nat, (np + j)%nat)) <$> js.

Lemma push_partial_all cs a : push_partial cs a = push_all ((fun c => (c, 0%nat)) <$> cs) a.
Proof. revert a. induction cs as [|c cs IH]; intros a; [done|]. cbn. destruct (push_char c 0 a); cbn; [apply IH|done|done]. Qed.
Lemma push_round_all js i input p np a : push_round js i input p np a = push_all (round i input p np js) a.
Proof. revert a. induction js as [|j js IH]; intros a; [done|]. cbn. destruct (push_char _ _ a); cbn; [apply IH|done|done]. Qed.
Lemma push_full_all is_ nf input p np a :
  push_full is_ nf input p np a = push_all (flat_map (fun i => round i input p np (seq 0 nf)) is_) a.
Proof.
  revert a. induction is_ as [|i is_ IH]; intros a; [done|]. cbn [push_full flat_map]. rewrite push_all_app, push_round_all.
  destruct (push_all _ a); cbn; [apply IH|done|done].
Qed.

(** The characters that go into a cell, and what they make of it. *)
Definition cell_chars (k : nat) (ps : list (Z * nat)) : list Z := (filter (fun p => p.2 = k) ps).*1.
Definition cell_step (a c : Z) : Z := u64 (u64 (a * 58) + backward c).

Lemma push_all_valid ps a : Forall (fun p => b58_char p.1 /\ (p.2 < length a)%nat) ps ->
  exists a', push_all ps a = Value a' /\ length a' = length a /\
    forall k, (k < length a)%nat -> at_ a' k = foldl cell_step (at_ a k) (cell_chars k ps).
Proof.
  revert a. induction ps as [|[c k] ps IH]; intros a Hps; [by exists a|]. apply Forall_cons in Hps as [[Hc Hk] Hps]. cbn [fst snd] in *.
  cbn [push_all]. unfold push_char. destruct (b58_char_digit c Hc) as [Hd _]. unfold digit in Hd.
  rewrite (proj2 (Z.ltb_ge _ _)) by lia. unfold write. rewrite (proj2 (Nat.ltb_lt _ _)) by done. cbn [mbind B58Result_bind].
  set (a1 := <[k := _]> a). assert (length a1 = length a) as Hl by apply length_insert.
  destruct (IH a1) as (a' & -> & Hl' & Ha'); [by rewrite Hl|]. exists a'. split_and!; [done|congruence|].
  intros k' Hk'. rewrite Ha' by lia. unfold cell_chars. rewrite filter_cons. cbn [snd].
  unfold a1, at_ at 1. destruct (decide (k = k')) as [->|Hne].
  - rewrite list_lookup_insert_eq by done. done.
  - by rewrite list_lookup_insert_ne by done.
Qed.
Lemma push_all_invalid ps a : Forall (fun p => is_byte p.1 /\ (p.2 < length a)%nat) ps -> Exists (fun p => backward p.1 = -1) ps ->
  push_all ps a = Unexpected InvalidEncodingChar.
Proof.
  intros Hps Hex. revert a Hps. induction Hex as [[c k] ps Hc|[c k] ps _ IH]; intros a Hps; cbn [push_all]; unfold push_char; cbn [fst] in *.
  - by rewrite Hc.
  - apply Forall_cons in Hps as [[_ Hk] Hps]. cbn [snd] in Hk. destruct (_ <? _); [done|]. unfold write.
    rewrite (proj2 (Nat.ltb_lt _ _)) by done. cbn [mbind B58Result_bind]. apply IH. by rewrite length_insert.
Qed.

Lemma cell_step_val cs a : 0 <= a -> Forall b58_char cs -> (a + 1) * 58 ^ Z.of_nat (length cs) <= 2 ^ 64 ->
  foldl cell_step a cs = foldl (fun a d => a * 58 + d) a (backward <$> cs).
Proof.
  intros Ha Hcs. revert a Ha. induction Hcs as [|c cs [Hc _]%b58_char_digit _ IH]; intros a Ha Hlt; [done|]. cbn [foldl fmap list_fmap].
  cbn [length] in Hlt. rewrite Nat2Z.inj_succ, Z.pow_succ_r in Hlt by lia. unfold digit in Hc.
  assert (0 < 58 ^ Z.of_nat (length cs)) by (apply Z.pow_pos_nonneg; lia).
  assert (cell_step a c = a * 58 + backward c) as ->.
  { unfold cell_step, u64. rewrite (Z.mod_small (a * 58)) by nia. apply Z.mod_small. nia. }
  apply IH; nia.
Qed.
Lemma cell_val cs : Forall b58_char cs -> (length cs <= 10)%nat ->
  foldl cell_step 0 cs = val 58 (backward <$> cs) /\ digit kB5810 (val 58 (backward <$> cs)).
Proof.
  intros Hcs Hl. assert (58 ^ Z.of_nat (length cs) <= 58 ^ 10) by (apply Z.pow_le_mono_r; lia).
  split; [apply cell_step_val; [lia|done|]|].
  - assert (58 ^ 10 <= 2 ^ 64) by (vm_compute; discriminate). lia.
  - pose proof (val_bound 58 ltac:(lia) _ (proj2 (forward_digits cs Hcs))) as Hb. rewrite length_fmap in Hb.
    unfold digit. rewrite kB5810_eq. lia.
Qed.

(** ** Groups of ten *)

Section groups.
Context (input : list Z).
Let n := length input.
Let p := (n mod 10)%nat.
Let nf := (n / 10)%nat.
Let np := if (p =? 0)%nat then 0%nat else 1%nat.

Lemma group_split : n = (p + 10 * nf)%nat /\ (p < 10)%nat.
Proof. unfold p, nf. pose proof (Nat.div_mod_eq n 10). pose proof (Nat.mod_upper_bound n 10). lia. Qed.

Definition group (j : nat) : list Z := take 10 (drop (p + j * 10) input).
Definition pushes : list (Z * nat) :=
  ((fun c => (c, 0%nat)) <$> take p input) ++ flat_map (fun i => round i input p np (seq 0 nf)) (seq 0 10).

Lemma at_elem x : (x < n)%nat -> at_ input x ∈ input.
Proof. intros Hx. destruct (lookup_lt_is_Some_2 input x Hx) as [c Hc]. unfold at_. rewrite Hc. by eapply list_elem_of_lookup_2. Qed.

Lemma elem_of_round c k i : (c, k) ∈ round i input p np (seq 0 nf) <->
  exists j, (j < nf)%nat /\ c = at_ input (p + j * 10 + i) /\ k = (np + j)%nat.
Proof.
  unfold round. rewrite list_elem_of_fmap. setoid_rewrite elem_of_seq. split.
  - intros (j & [= -> ->] & Hj). exists j. split; [lia|done].
  - intros (j & Hj & -> & ->). exists j. split; [done|lia].
Qed.
Lemma elem_of_pushes c k : (c, k) ∈ pushes <->
  (c ∈ take p input /\ k = 0%nat) \/ exists i j, (i < 10)%nat /\ (j < nf)%nat /\ c = at_ input (p + j * 10 + i) /\ k = (np + j)%nat.
Proof.
  unfold pushes. rewrite elem_of_app, list_elem_of_fmap, list_elem_of_In, in_flat_map. split.
  - intros [(x & [= -> ->] & Hx)|(i & Hi & Hin)]; [by left|right]. apply list_elem_of_In, elem_of_round in Hin as (j & Hj & -> & ->).
    apply in_seq in Hi. exists i, j. split_and!; [lia|done..].
  - intros [[Hc ->]|(i & j & Hi & Hj & -> & ->)]; [left; by eexists|right]. exists i. split; [apply in_seq; lia|].
    apply list_elem_of_In, elem_of_round. eauto.
Qed.

(** The characters pushed are those of the input. *)
Lemma pushes_in c k : (c, k) ∈ pushes -> c ∈ input /\ (k < np + nf)%nat.
Proof.
  pose proof group_split as [En Hp]. intros [[Hc ->]|(i & j & Hi & Hj & -> & ->)]%elem_of_pushes.
  - split; [by eapply elem_of_take in Hc as (x & Hx & _); eapply list_elem_of_lookup_2|].
    unfold np. destruct (Nat.eqb_spec p 0) as [E|]; [|lia]. rewrite E in Hc. by apply elem_of_nil in Hc.
  - split; [apply at_elem; lia|lia].
Qed.
Lemma in_pushes c : c ∈ input -> exists k, (c, k) ∈ pushes.
Proof.
  pose proof group_split as [En Hp]. intros [x Hx]%list_elem_of_lookup. pose proof (lookup_lt_Some _ _ _ Hx) as Hlt. fold n in Hlt.
  destruct (decide (x < p)%nat) as [Hxp|Hxp].
  - exists 0%nat. apply elem_of_pushes. left. split; [|done]. apply (list_elem_of_lookup_2 _ x). by rewrite lookup_take_lt.
  - exists (np + (x - p) / 10)%nat. apply elem_of_pushes. right. exists ((x - p) mod 10)%nat, ((x - p) / 10)%nat.
    pose proof (Nat.div_mod_eq (x - p) 10). pose proof (Nat.mod_upper_bound (x - p) 10). split_and!; [lia|lia| |done].
    unfold at_. replace (p + (x - p) / 10 * 10 + (x - p) mod 10)%nat with x by lia. by rewrite Hx.
Qed.

Lemma group_chars j : (j < nf)%nat -> (fun i => at_ input (p + j * 10 + i)%nat) <$> seq 0 10 = group j.
Proof.
  pose proof group_split as [En Hp]. intros Hj. unfold group. apply list_eq. intros i.
  destruct (decide (i < 10)%nat) as [Hi|Hi].
  - rewrite list_lookup_fmap, lookup_seq_lt, lookup_take_lt, lookup_drop by lia. cbn [fmap option_fmap option_map].
    rewrite Nat.add_0_l. destruct (lookup_lt_is_Some_2 input (p + j * 10 + i)) as [c Hc]; [fold n; lia|]. unfold at_. by rewrite Hc.
  - rewrite list_lookup_fmap, lookup_seq_ge, lookup_take_ge by lia. done.
Qed.
Lemma group_length j : (j < nf)%nat -> length (group j) = 10%nat.
Proof. intros Hj. rewrite <-group_chars by done. by rewrite length_fmap, length_seq. Qed.
Lemma concat_groups k : (k <= nf)%nat -> take p input ++ concat (group <$> seq 0 k) = take (p + k * 10) input.
Proof.
  pose proof group_split as [En Hp]. induction k as [|k IH]; intros Hk.
  { cbn. by rewrite Nat.add_0_r, app_nil_r. }
  rewrite seq_S, fmap_app, concat_app, app_assoc, IH by lia. cbn [fmap list_fmap concat]. rewrite app_nil_r, Nat.add_0_l.
  unfold group. replace (p + S k * 10)%nat with ((p + k * 10) + 10)%nat by lia.
  rewrite <-(take_drop (p + k * 10) (take (p + k * 10 + 10) input)), take_take, Nat.min_l, skipn_firstn_comm by lia.
  f_equal. f_equal. lia.
Qed.
Lemma groups_all : take p input ++ concat (group <$> seq 0 nf) = input.
Proof. pose proof group_split as [En Hp]. rewrite concat_groups by lia. apply take_ge. fold n. lia. Qed.

(** The cells: the odd characters first, then the groups. *)
Lemma cell_chars_app k l1 l2 : cell_chars k (l1 ++ l2) = cell_chars k l1 ++ cell_chars k l2.
Proof. unfold cell_chars. by rewrite filter_app, fmap_app. Qed.
Lemma cell_chars_flat {A} k (f : A -> list (Z * nat)) l : cell_chars k (flat_map f l) = flat_map (fun x => cell_chars k (f x)) l.
Proof. induction l as [|x l IH]; [done|]. cbn [flat_map]. by rewrite cell_chars_app, IH. Qed.
Lemma cell_chars_none k ps : Forall (fun q => q.2 <> k) ps -> cell_chars k ps = [].
Proof. intros H. unfold cell_chars. induction H as [|q ps Hq _ IH]; [done|]. rewrite filter_cons. by rewrite decide_False. Qed.
Lemma cell_chars_part l : cell_chars 0 ((fun c => (c, 0%nat)) <$> l) = l.
Proof. unfold cell_chars. induction l as [|c l IH]; [done|]. cbn [fmap list_fmap]. rewrite filter_cons, decide_True by done. cbn. by f_equal. Qed.
Lemma cell_chars_round i j s m : cell_chars (np + j) (round i input p np (seq s m)) =
  if decide (s <= j < s + m)%nat then [at_ input (p + j * 10 + i)] else [].
Proof.
  revert s. induction m as [|m IH]; intros s; [rewrite decide_False by lia; done|].
  change (round i input p np (seq s (S m))) with ([(at_ input (p + s * 10 + i), np + s)%nat] ++ round i input p np (seq (S s) m)).
  rewrite cell_chars_app, IH. destruct (decide (s = j)) as [->|Hne].
  - rewrite (decide_False (P := (S j <= j < _)%nat)), decide_True by lia. unfold cell_chars. rewrite filter_cons, decide_True by done. done.
  - rewrite cell_chars_none by (constructor; [cbn; lia|constructor]). cbn [app].
    destruct (decide (S s <= j < S s + m)%nat), (decide (s <= j < s + S m)%nat); by (done || lia).
Qed.
Lemma cell_chars_group j : (j < nf)%nat -> cell_chars (np + j) pushes = group j.
Proof.
  intros Hj. unfold pushes. rewrite cell_chars_app, cell_chars_none, cell_chars_flat.
  - rewrite <-group_chars by done. cbn [app]. rewrite (flat_map_ext _ (fun i => [at_ input (p + j * 10 + i)])).
    + generalize (seq 0 10). intros l. induction l as [|i l IH]; [done|]. cbn. by f_equal.
    + intros i. rewrite cell_chars_round, decide_True by lia. done.
  - unfold np. destruct (Nat.eqb_spec p 0) as [->|]; [constructor|]. apply Forall_fmap, Forall_true. intros c. cbn. lia.
Qed.
Lemma cell_chars_odd : p <> 0%nat -> cell_chars 0 pushes = take p input.
Proof.
  intros Hp. unfold pushes. rewrite cell_chars_app, cell_chars_part, cell_chars_none; [by rewrite app_nil_r|].
  apply Forall_forall. intros [c k] Hin. apply list_elem_of_In, in_flat_map in Hin as (i & _ & Hin).
  apply list_elem_of_In, elem_of_round in Hin as (j & _ & _ & ->). cbn. unfold np. destruct (Nat.eqb_spec p 0); lia.
Qed.
End groups.

(** ** The coefficients *)

Lemma at_seq (a : list Z) m : (m <= length a)%nat -> take m a = at_ a <$> seq 0 m.
Proof.
  intros Hm. apply list_eq. intros k. rewrite list_lookup_fmap. destruct (decide (k < m)%nat).
  - rewrite lookup_take_lt, lookup_seq_lt by lia. cbn. destruct (lookup_lt_is_Some_2 a k) as [x Hx]; [lia|]. unfold at_. by rewrite Hx.
  - by rewrite lookup_take_ge, lookup_seq_ge by lia.
Qed.

Lemma fmap_concat {A B} (f : A -> B) (ls : list (list A)) : @fmap list _ A B f (concat ls) = concat (@fmap list _ _ _ (@fmap list _ A B f) ls).
Proof. apply concat_map. Qed.

Section coefficients.
Context (input : list Z) (Hn : (length input <= 52)%nat).
Let p := (length input mod 10)%nat.
Let nf := (length input / 10)%nat.
Let np := if (p =? 0)%nat then 0%nat else 1%nat.
Let pushed := (b5810Coeff ← push_partial (take p input) (replicate 6 0); push_full (seq 0 10) nf input p np b5810Coeff).

Lemma pushed_all : pushed = push_all (pushes input) (replicate 6 0).
Proof.
  unfold pushed. rewrite push_partial_all. unfold pushes. rewrite push_all_app. fold p nf np.
  destruct (push_all _ (replicate 6 0)); cbn [mbind B58Result_bind]; [apply push_full_all|done|done].
Qed.
Lemma cells : (np + nf <= 6)%nat.
Proof.
  pose proof (group_split input) as [E Hp]. fold p nf in E, Hp. unfold np. destruct (Nat.eqb_spec p 0); lia.
Qed.

Lemma pushed_invalid : Forall is_byte input -> Exists (fun c => backward c = -1) input -> pushed = Unexpected InvalidEncodingChar.
Proof.
  intros Hb (c & Hc & Ec)%list.Exists_exists. pose proof cells. rewrite pushed_all. apply push_all_invalid.
  - apply Forall_forall. intros [c' k] [Hin Hk]%pushes_in. fold p nf np in Hk. rewrite length_replicate. cbn. rewrite list.Forall_forall in Hb. split; [by apply Hb|lia].
  - apply in_pushes in Hc as [k Hk]. apply list.Exists_exists. by exists (c, k).
Qed.

Lemma cell_all k : Forall b58_char input ->
  Forall b58_char (cell_chars k (pushes input)) /\ (length (cell_chars k (pushes input)) <= 10)%nat.
Proof.
  intros Hv. pose proof (group_split input) as [En Hp]. fold p nf in En, Hp. destruct (decide (k < np)%nat) as [Hk|Hk].
  - unfold np in Hk. destruct (Nat.eqb_spec p 0); [lia|]. assert (k = 0%nat) as -> by lia. rewrite cell_chars_odd by done. fold p.
    split; [by apply Forall_take|rewrite length_take; lia].
  - destruct (decide (k < np + nf)%nat) as [Hk'|Hk'].
    + pose proof (cell_chars_group input (k - np)) as E. fold p nf np in E. replace (np + (k - np))%nat with k in E by lia.
      rewrite E by lia. split; [by apply Forall_take, Forall_drop|unfold group; rewrite length_take; lia].
    + rewrite cell_chars_none; [split; [constructor|cbn; lia]|]. apply Forall_forall. intros [c k'] [_ Hlt]%pushes_in. fold p nf np in Hlt. cbn. lia.
Qed.

Lemma pushed_valid : Forall b58_char input -> exists a, pushed = Value a /\ length a = 6%nat /\
  Forall (digit kB5810) a /\
  foldl (fun x c => x * kB5810 + c) 0 (take (np + nf) a) = val 58 (backward <$> input).
Proof.
  intros Hv. pose proof cells as H6. pose proof (group_split input) as [En Hp]. fold p nf in En, Hp.
  destruct (push_all_valid (pushes input) (replicate 6 0)) as (a & Ea & Hl & Hat).
  { apply Forall_forall. intros [c k] [Hin Hk]%pushes_in. fold p nf np in Hk. rewrite length_replicate. cbn. rewrite list.Forall_forall in Hv. split; [by apply Hv|lia]. }
  rewrite length_replicate in Hl, Hat. exists a. rewrite pushed_all.
  assert (forall k, (k < 6)%nat -> at_ a k = val 58 (backward <$> cell_chars k (pushes input)) /\ digit kB5810 (at_ a k)) as Hcell.
  { intros k Hk. rewrite Hat by done. assert (at_ (replicate 6 0) k = 0) as -> by (unfold at_; by rewrite lookup_replicate_2).
    destruct (cell_all k Hv) as [Hc Hlen]. by destruct (cell_val _ Hc Hlen) as [-> ?]. }
  split_and!; [done|done| |].
  - apply Forall_lookup. intros k x Hx. pose proof (lookup_lt_Some _ _ _ Hx) as Hk. destruct (Hcell k) as [_ Hd]; [lia|].
    unfold at_ in Hd. by rewrite Hx in Hd.
  - assert (at_ a <$> seq np nf = (fun j => val 58 (backward <$> group input j)) <$> seq 0 nf) as Ecells.
    { rewrite <-(Nat.add_0_r np) at 1. rewrite <-fmap_add_seq, <-list_fmap_compose. apply list_fmap_ext. intros i j [-> Hj]%lookup_seq.
      cbn. destruct (Hcell (np + i)%nat) as [-> _]; [lia|]. do 2 f_equal. by apply cell_chars_group. }
    rewrite at_seq by lia. rewrite <-(groups_all input) at 1. fold p nf. rewrite fmap_app, fmap_concat, (val_groups 58 ltac:(lia) 10).
    + rewrite seq_app, fmap_app, foldl_app. cbn [Nat.add].
      assert (foldl (fun x c => x * kB5810 + c) 0 (at_ a <$> seq 0 np) = val 58 (backward <$> take p input)) as ->.
      { unfold np. destruct (Nat.eqb_spec p 0) as [E|Hp0]; [by rewrite E|]. cbn [seq fmap list_fmap foldl].
        destruct (Hcell 0%nat) as [-> _]; [lia|]. by rewrite cell_chars_odd. }
      generalize (val 58 (backward <$> take p input)). intros v0. by rewrite Ecells, !foldl_fmap.
    + lia.
    + apply Forall_fmap, Forall_fmap, Forall_forall. intros j [_ Hj]%elem_of_seq. cbn. rewrite length_fmap. apply group_length. done.
Qed.

(** As the loop over the limbs takes them. *)
Lemma pushed_first : Forall b58_char input -> exists a, pushed = Value a /\ Forall (digit kB5810) a /\ digit kB5810 (at_ a 0) /\
  foldl (fun x c => x * kB5810 + c) (at_ a 0) (take (nf + np - 1) (drop 1 a)) = val 58 (backward <$> input).
Proof.
  intros Hv. destruct (pushed_valid Hv) as (a & Ea & Hl & Hd & E). rewrite Nat.add_comm in E. exists a.
  destruct a as [|a0 a]; [done|]. pose proof (proj1 (proj1 (Forall_cons _ _ _) Hd)) as Hd0. split_and!; [done|done|exact Hd0|].
  cbn [drop]. change (at_ (a0 :: a) 0) with a0. destruct (nf + np)%nat as [|m] eqn:Em.
  - pose proof (group_split input) as [En _]. fold p nf in En. apply Nat.eq_add_0 in Em as [Enf Enp].
    unfold np in Enp. destruct (Nat.eqb_spec p 0) as [Ep|]; [|done]. rewrite Ep, Enf in En.
    destruct input; [|discriminate En].
    assert (pushed = Value (replicate 6 0)) as Eq by (vm_compute; reflexivity). rewrite Eq in Ea. by injection Ea as <- <-.
  - cbn [take foldl] in E. replace (S m - 1)%nat with m by lia. exact E.
Qed.
End coefficients.

(** ** The limbs *)

Lemma foldl_grows cs x : 0 <= x -> Forall (digit kB5810) cs -> x <= foldl (fun x c => x * kB5810 + c) x cs.
Proof.
  intros Hx Hcs. revert x Hx. pose proof kB5810_limb. induction Hcs as [|c cs Hc _ IH]; intros x Hx; cbn [foldl]; [lia|].
  unfold digit in Hc. specialize (IH (x * kB5810 + c)). nia.
Qed.

(** No limb more than the number needs. *)
Definition tight (ls : list Z) : Prop :=
  Forall limb ls /\ (1 <= length ls <= 5)%nat /\ (length ls = 1%nat \/ 2 ^ (64 * Z.of_nat (length ls - 1)) <= lv ls).

Lemma on_prefix_app n f a r : length a = n -> on_prefix n f (a ++ r) = (a' ← f a; Value (a' ++ r)).
Proof.
  intros Hl. unfold on_prefix. rewrite length_app, (proj2 (Nat.leb_le _ _)) by lia. by rewrite take_app_length', drop_app_length'.
Qed.

(** A coefficient more, in the first [length ls + 1] places. *)
Lemma limbs_step ls c k : Forall limb ls -> (1 <= length ls)%nat -> digit kB5810 c ->
  exists ls', (result ← on_prefix (length ls + 1) (fun a => inplaceBigintMul a kB5810) (ls ++ replicate (S k) 0);
               on_prefix (length ls + 1) (fun a => inplaceBigintAdd a c) result) = Value (ls' ++ replicate k 0) /\
    lv ls' = lv ls * kB5810 + c /\ length ls' = S (length ls) /\ Forall limb ls'.
Proof.
  intros Hls Hl Hc. pose proof kB5810_limb as HD. unfold digit in Hc.
  destruct (inplaceBigintMul_spec ls kB5810 Hls ltac:(split; lia)) as (a & Ea & Va & La & Fa).
  change (replicate (S k) 0) with ([0] ++ replicate k 0). rewrite app_assoc.
  rewrite (on_prefix_app _ _ (ls ++ [0])) by (by rewrite length_app). rewrite Ea. cbn [mbind B58Result_bind].
  pose proof (lv_bound ls Hls) as Hb.
  destruct (inplaceBigintAdd_spec a c Fa ltac:(split; lia)) as (a' & Ea' & Va' & La' & Fa'); [lia| |].
  { rewrite Va, La. replace (64 * Z.of_nat (S (length ls))) with (64 * Z.of_nat (length ls) + 64) by lia. rewrite Z.pow_add_r by lia. nia. }
  rewrite on_prefix_app by lia. rewrite Ea'. exists a'. cbn [mbind B58Result_bind]. split_and!; [done|lia|lia|done].
Qed.

Lemma limbs_loop_spec cs ls : tight ls -> Forall (digit kB5810) cs ->
  foldl (fun x c => x * kB5810 + c) (lv ls) cs < 2 ^ 256 * kB5810 ->
  exists ls', limbs_loop cs (ls ++ replicate (5 - length ls) 0) (length ls) = Value (ls' ++ replicate (5 - length ls') 0, length ls') /\
    lv ls' = foldl (fun x c => x * kB5810 + c) (lv ls) cs /\ tight ls'.
Proof.
  intros Ht Hcs. revert ls Ht. pose proof kB5810_limb as HD. induction Hcs as [|c cs Hc Hcs IH]; intros ls Ht HV; cbn [limbs_loop foldl] in *; [by exists ls|].
  destruct Ht as (Hls & Hl & Hmin). pose proof (lv_bound ls Hls) as Hb. pose proof Hc as Hc'. unfold digit in Hc'.
  pose proof (foldl_grows cs (lv ls * kB5810 + c) ltac:(nia) Hcs) as Hg.
  assert (length ls <= 4)%nat as Hl4.
  { destruct Hmin as [->|Hmin]; [lia|]. assert (2 ^ (64 * Z.of_nat (length ls - 1)) < 2 ^ 256) as Hlt by nia.
    apply Z.pow_lt_mono_r_iff in Hlt; lia. }
  destruct (limbs_step ls c (4 - length ls) Hls ltac:(lia) Hc) as (a & Ea & Va & La & Fa).
  replace (5 - length ls)%nat with (S (4 - length ls)) by lia.
  destruct (on_prefix _ (fun a => inplaceBigintMul a kB5810) _) as [r| |]; [|done..]. cbn [mbind B58Result_bind] in *.
  rewrite Ea. cbn [mbind B58Result_bind]. destruct (last_limb a (length ls) Fa ltac:(lia)) as [Hz Hnz].
  assert (at_ (a ++ replicate (4 - length ls) 0) (length ls) = at_ a (length ls)) as -> by (unfold at_; by rewrite lookup_app_l by lia).
  destruct (Z.eqb_spec (at_ a (length ls)) 0) as [E|E]; cbn [negb].
  - specialize (Hz E). set (ls1 := take (length ls) a).
    assert (length ls1 = length ls) as L1 by (unfold ls1; rewrite length_take; lia).
    assert (a ++ replicate (4 - length ls) 0 = ls1 ++ replicate (5 - length ls1) 0) as ->.
    { rewrite L1. replace (5 - length ls)%nat with (S (4 - length ls)) by lia. cbn [replicate]. rewrite cons_middle, app_assoc. f_equal.
      unfold ls1. destruct (lookup_lt_is_Some_2 a (length ls)) as [x Hx]; [lia|]. unfold at_ in E. rewrite Hx in E. cbn in E. subst x.
      rewrite <-(take_drop_middle a _ _ Hx) at 1. by rewrite (drop_ge a (S (length ls))) by lia. }
    destruct (IH ls1) as (ls' & E' & V' & T').
    + split_and!; [by apply Forall_take|lia|lia|]. rewrite L1. destruct Hmin; [by left|right; fold ls1 in Hz; nia].
    + fold ls1 in Hz. by rewrite Hz, Va.
    + fold ls1 in Hz. rewrite L1 in E'. exists ls'. split_and!; [by rewrite L1|by rewrite V', Hz, Va|done].
  - specialize (Hnz E). rewrite <-La. replace (4 - length ls)%nat with (5 - length a)%nat by lia. rewrite <-Va. apply IH.
    + split_and!; [done|lia|lia|right]. by replace (length a - 1)%nat with (length ls) by lia.
    + by rewrite Va.
Qed.

(** ** The bytes *)

Definition limb_bytes (ls : list Z) : Blob := flat_map (be_bytes 8) (reverse ls).
Lemma limb_bytes_snoc ls x : limb_bytes (ls ++ [x]) = be_bytes 8 x ++ limb_bytes ls.
Proof. unfold limb_bytes. by rewrite reverse_app. Qed.
Lemma be_bytes_val x : limb x -> val 256 (be_bytes 8 x) = x.
Proof. intros Hx. rewrite <-be_sum_val, be_sum_be_bytes. by apply Z.mod_small. Qed.
Lemma limb_bytes_spec ls : Forall limb ls ->
  Forall is_byte (limb_bytes ls) /\ length (limb_bytes ls) = (8 * length ls)%nat /\ val 256 (limb_bytes ls) = lv ls.
Proof.
  induction ls as [|x ls IH] using rev_ind; intros Hl; [done|]. apply Forall_app in Hl as [Hls [Hx _]%Forall_cons].
  destruct (IH Hls) as (H1 & H2 & H3). rewrite limb_bytes_snoc. split_and!.
  - apply Forall_app. split; [apply be_bytes_byte|done].
  - rewrite !length_app, length_be_bytes, H2. cbn. lia.
  - rewrite val_app, H2, H3, be_bytes_val, lv_app by (done || lia). unfold lv at 3. cbn [lval].
    replace (Z.of_nat (8 * length ls)) with (8 * Z.of_nat (length ls)) by lia.
    change 256 with (2 ^ 8). rewrite <-Z.pow_mul_r by lia. replace (8 * (8 * Z.of_nat (length ls))) with (64 * Z.of_nat (length ls)) by lia. lia.
Qed.

(** The top limb without its zeros, then the others, is the number without its zeros. *)
Lemma tight_bytes ls x : tight (ls ++ [x]) -> strip (be_bytes 8 x) ++ limb_bytes ls = strip (limb_bytes (ls ++ [x])).
Proof.
  intros (Hf & Hl & Hmin). apply Forall_app in Hf as [Hls [Hx _]%Forall_cons]. rewrite limb_bytes_snoc.
  destruct (decide (x = 0)) as [->|Hne].
  - rewrite length_app in *. cbn [length] in *. destruct Hmin as [E|Hmin]; [destruct ls; [|cbn in E; lia]; by rewrite !app_nil_r|].
    rewrite lv_app in Hmin. unfold lv at 2 in Hmin. cbn [lval] in Hmin. pose proof (lv_bound ls Hls).
    replace (length ls + 1 - 1)%nat with (length ls) in Hmin by lia. lia.
  - symmetry. apply (strip_app 256); [lia|by rewrite be_bytes_val|apply be_bytes_byte].
Qed.

Lemma leading_ref s : Forall is_byte s -> leading s = b58_ref.leading s.
Proof.
  induction 1 as [|c s Hc _ IH]; [done|]. cbn [leading b58_ref.leading]. rewrite IH.
  destruct (Z.eqb_spec c (forward 0)) as [E|E], (Z.eqb_spec (backward c) 0) as [E'|E']; [done| | |done].
  - by apply (backward_zero c Hc) in E.
  - by apply (backward_zero c Hc) in E'.
Qed.

(** A number below 58^n has at most [n] bytes. *)
Lemma strip_few l n : Forall is_byte l -> val 256 l < 58 ^ Z.of_nat n -> (length (strip l) <= n)%nat.
Proof.
  intros Hl Hv. destruct (decide (strip l = [])) as [->|Hne]; [cbn; lia|].
  pose proof (lean_val 256 ltac:(lia) (strip l) (strip_sub _ _ Hl) (strip_lean l) Hne) as H. rewrite val_strip in H by lia.
  assert (58 ^ Z.of_nat n <= 256 ^ Z.of_nat n) by (apply Z.pow_le_mono_l; lia).
  assert (256 ^ Z.of_nat (pred (length (strip l))) < 256 ^ Z.of_nat n) as Hlt by lia. apply Z.pow_lt_mono_r_iff in Hlt; lia.
Qed.

Lemma B58Result_assoc {A B C} (m : B58Result A) (f : A -> B58Result B) (g : B -> B58Result C) :
  (x ← m; y ← f x; g y) = (y ← (x ← m; f x); g y).
Proof. by destruct m. Qed.

Lemma b58ToB256Be_invalid input out : (length input <= 52)%nat -> (8 <= length out)%nat -> Forall is_byte input ->
  Exists (fun c => backward c = -1) input -> b58ToB256Be input out = Unexpected InvalidEncodingChar.
Proof.
  intros Hn Ho Hb Hex. unfold b58ToB256Be. rewrite (proj2 (Nat.ltb_ge 52 _)), (proj2 (Nat.ltb_ge _ 8)) by lia. cbv zeta.
  rewrite B58Result_assoc, pushed_invalid by done. done.
Qed.

(** What the routine writes of the number. *)
Lemma emit_bytes z ls x out : tight (ls ++ [x]) -> (z + length (strip (limb_bytes (ls ++ [x]))) <= length out)%nat ->
  ('(out, curOutI) ← write_all (replicate z 0) out 0;
   '(out, curOutI) ← write_all (strip (be_bytes 8 x)) out curOutI;
   if (length out <? curOutI + 8 * length ls)%nat then Unexpected OutputTooSmall
   else '(out, curOutI) ← write_all (limb_bytes ls) out curOutI; Value (take curOutI out))
  = Value (replicate z 0 ++ strip (limb_bytes (ls ++ [x]))).
Proof.
  intros Ht Hl. rewrite <-(tight_bytes ls x Ht) in *. rewrite length_app in Hl.
  destruct (limb_bytes_spec ls) as (_ & E8 & _); [destruct Ht as (Hf & _); by apply Forall_app in Hf as [? _]|].
  destruct (write_all_written (replicate z 0) out 0) as (o1 & -> & W1); [rewrite length_replicate; lia|]. cbn [mbind B58Result_bind].
  rewrite length_replicate in *. pose proof (proj1 W1) as L1.
  destruct (write_all_written (strip (be_bytes 8 x)) o1 (0 + z)) as (o2 & -> & W2); [lia|]. cbn [mbind B58Result_bind].
  pose proof (proj1 W2) as L2. rewrite (proj2 (Nat.ltb_ge _ _)) by lia.
  destruct (write_all_written (limb_bytes ls) o2 (0 + z + length (strip (be_bytes 8 x)))) as (o3 & -> & W3); [lia|]. cbn [mbind B58Result_bind].
  destruct (written_trans _ _ _ _ _ _ _ _ (written_trans _ _ _ _ _ _ _ _ W1 W2) W3) as (_ & _ & Et). rewrite Et. cbn [take app].
  by rewrite <-app_assoc.
Qed.

(** Leading zeros do not count. *)
Lemma leading_val s : Forall is_byte s -> val 58 (backward <$> s) = val 58 (backward <$> drop (b58_ref.leading s) s).
Proof.
  intros Hs. destruct (leading_split s Hs) as [E _]. rewrite E at 1. rewrite fmap_app, fmap_replicate.
  destruct (backward_forward 0) as [-> _]; [unfold digit; lia|]. apply val_zeros. lia.
Qed.
Lemma leading_length s : (length (drop (b58_ref.leading s) s) + b58_ref.leading s = length s)%nat.
Proof. induction s as [|c s IH]; [done|]. cbn [b58_ref.leading]. destruct (_ =? _); cbn [drop length] in *; lia. Qed.

Lemma b58ToB256Be_stands input out : (length input <= 52)%nat -> (64 <= length out)%nat -> Forall b58_char input ->
  exists bytes ds, b58ToB256Be input out = Value bytes /\ stands_for input bytes ds /\ Forall is_byte bytes.
Proof.
  intros Hn Ho Hv. assert (Forall is_byte input) as Hb by (eapply Forall_impl; [exact Hv|by intros c [? _]]).
  unfold b58ToB256Be. rewrite (proj2 (Nat.ltb_ge 52 _)), (proj2 (Nat.ltb_ge _ 8)) by lia. cbv zeta.
  destruct (pushed_first input Hn Hv) as (a & Ea & Hd & Hd0 & Ev). rewrite B58Result_assoc, Ea. cbn [mbind B58Result_bind].
  rewrite (write_next [] 4). cbn [mbind B58Result_bind].
  assert (58 ^ 52 < 2 ^ 256 * kB5810) as H52 by (vm_compute; reflexivity).
  destruct (forward_digits input Hv) as [_ Hdig]. pose proof (val_bound 58 ltac:(lia) _ Hdig) as Hbnd. rewrite length_fmap in Hbnd.
  assert (58 ^ Z.of_nat (length input) <= 58 ^ 52) by (apply Z.pow_le_mono_r; lia).
  set (cs := take _ (drop 1 a)) in *.
  assert (lv [at_ a 0] = at_ a 0) as E0 by (unfold lv; cbn [lval]; lia).
  destruct (limbs_loop_spec cs [at_ a 0]) as (ls & El & Vl & Tl).
  { split_and!; [|cbn; lia|cbn; lia|by left]. constructor; [|constructor]. unfold limb, digit in *. pose proof kB5810_limb. lia. }
  { by apply Forall_take, Forall_drop. }
  { rewrite E0, Ev. lia. }
  change (([] ++ [at_ a 0]) ++ replicate 4 0) with ([at_ a 0] ++ replicate (5 - length [at_ a 0]) 0).
  change (limbs_loop cs (?r) 1) with (limbs_loop cs r (length [at_ a 0])). rewrite El. cbn [mbind B58Result_bind].
  rewrite E0, Ev in Vl. clear El. destruct ls as [|x ls _] using rev_ind; [destruct Tl as (_ & Ll & _); cbn in Ll; lia|].
  pose proof (proj1 Tl) as Fl. destruct (limb_bytes_spec (ls ++ [x]) Fl) as (B1 & _ & B3).
  rewrite length_app. cbn [length]. replace (length ls + 1 - 1)%nat with (length ls) by lia. rewrite <-!app_assoc. cbn [app].
  assert (at_ (ls ++ x :: replicate (5 - (length ls + 1)) 0) (length ls) = x) as -> by (unfold at_; by rewrite list_lookup_middle).
  rewrite take_app_length. fold (strip (be_bytes 8 x)). fold (limb_bytes ls).
  rewrite leading_ref, leading_val in * by done. pose proof (leading_length input) as Ez.
  set (rest := drop (b58_ref.leading input) input) in *. set (z := b58_ref.leading input) in *.
  assert (length (strip (limb_bytes (ls ++ [x]))) <= length rest)%nat as Hfew.
  { apply strip_few; [done|]. rewrite B3, Vl. destruct (forward_digits rest) as [_ Hr]; [by apply Forall_drop|].
    pose proof (val_bound 58 ltac:(lia) _ Hr) as Hbr. rewrite length_fmap in Hbr. lia. }
  rewrite emit_bytes; [|done|lia].
  exists (replicate z 0 ++ strip (limb_bytes (ls ++ [x]))), (backward <$> rest). split_and!; [done| |].
  - apply stands_for_text; [done|apply strip_lean|]. unfold byte_val, b58_val. by rewrite val_strip, B3, Vl by lia.
  - apply Forall_app. split; [apply Forall_replicate; unfold is_byte; lia|by apply strip_sub].
Qed.
