(* ===== verification/Base58Props.v ===== *)
(** * Base 58 identifiers: properties of the codecs *)

From S2P Require Import Prelude Serializer Radix Base58 Base58Limbs Base58Fast Base58Decode.
Local Open Scope Z_scope.
Import b58_fast.

(** ** Sizes *)

Lemma stands_for_length text bytes ds : stands_for text bytes ds -> Forall is_byte bytes -> (length bytes <= length text)%nat.
Proof.
  intros [-> Hd _ Hv] Hb. pose proof (f_equal length (zeros_strip bytes)) as E. rewrite length_app, length_replicate in *.
  rewrite length_fmap. assert (length (strip bytes) <= length ds)%nat; [|lia]. apply strip_few; [done|].
  unfold byte_val, b58_val in Hv. rewrite <-Hv. by apply val_bound; [lia|].
Qed.

Lemma b58_size_checked : forallb (fun n => 256 ^ Z.of_nat n <=? 58 ^ Z.of_nat (n + 14)) (seq 0 39) = true.
Proof. vm_compute. reflexivity. Qed.
Lemma b58_size text bytes ds : stands_for text bytes ds -> Forall is_byte bytes -> (length bytes <= 38)%nat -> (length text <= 52)%nat.
Proof.
  intros [-> Hd Hl Hv] Hb Hn. pose proof (f_equal length (zeros_strip bytes)) as E. rewrite length_app, length_replicate in *.
  rewrite length_fmap. destruct (decide (ds = [])) as [->|Hne]; [cbn; lia|].
  pose proof (lean_val 58 ltac:(lia) ds Hd Hl Hne) as Hlow. pose proof (val_bound 256 ltac:(lia) _ (strip_sub _ _ Hb)) as Hup.
  rewrite val_strip in Hup by lia. unfold byte_val, b58_val in Hv.
  pose proof (forall_seq _ 39 (length (strip bytes)) b58_size_checked ltac:(lia)) as Hc. apply Z.leb_le in Hc.
  assert (58 ^ Z.of_nat (pred (length ds)) < 58 ^ Z.of_nat (length (strip bytes) + 14)) as Hlt by lia.
  apply Z.pow_lt_mono_r_iff in Hlt; lia.
Qed.

Lemma stands_for_chars text bytes ds : stands_for text bytes ds -> Forall b58_char text.
Proof.
  intros [-> Hd _ _]. assert (forall d, digit 58 d -> b58_char (forward d)) as Hf.
  { intros d Hd'. destruct (backward_forward d Hd') as [E Hb]. split; [done|]. unfold digit in Hd'. lia. }
  apply Forall_app. split; [apply Forall_replicate, Hf; unfold digit; lia|]. apply Forall_fmap. by eapply Forall_impl.
Qed.

Lemma b58_char_dec s : Forall is_byte s -> Forall b58_char s \/ Exists (fun c => backward c = -1) s.
Proof.
  intros Hs. destruct (decide (Forall (fun c => backward c <> -1) s)) as [Hv|Hv].
  - left. apply Forall_forall. intros c Hc. split; [by eapply Forall_forall in Hs|by eapply Forall_forall in Hv].
  - right. apply not_Forall_Exists in Hv; [|apply _]. eapply Exists_impl; [exact Hv|]. intros c. apply dec_stable.
Qed.

(** ** Tokens *)

Section tokens.
Context `{Sha256} (sha_digest : forall m, length (sha256 m) = 32%nat /\ Forall is_byte (sha256 m)).

(** Type, token and checksum. *)
Definition message (type : Z) (token : Blob) : Blob := (type :: token) ++ checksum (type :: token).

Lemma checksum_spec m : length (checksum m) = 4%nat /\ Forall is_byte (checksum m).
Proof. destruct (sha_digest (sha256 m)) as [Hl Hb]. unfold checksum. split; [rewrite length_take; lia|by apply Forall_take]. Qed.
Lemma message_spec type token : is_byte type -> Forall is_byte token ->
  length (message type token) = (length token + 5)%nat /\ Forall is_byte (message type token).
Proof.
  intros Ht Hb. destruct (checksum_spec (type :: token)) as [Hl Hc]. unfold message. split; [rewrite length_app; cbn; lia|].
  apply Forall_app. split; [by constructor|done].
Qed.

Lemma fast_encode_stands type token : is_byte type -> Forall is_byte token -> (1 <= length token <= 33)%nat ->
  exists text ds, encodeBase58Token_span type token (replicate 128 0) = Value text /\ stands_for text (message type token) ds.
Proof.
  intros Ht Hb Hl. destruct (message_spec type token Ht Hb) as [Hm Hmb]. unfold encodeBase58Token_span.
  rewrite (proj2 (Nat.ltb_ge _ _)) by lia. destruct token as [|b token]; [cbn in Hl; lia|].
  apply b256ToB58Be_stands; [done|fold (message type (b :: token)); lia|rewrite length_replicate; lia].
Qed.
Lemma fast_encode_refused type token : (length token = 0 \/ 33 < length token)%nat ->
  exists e, encodeBase58Token_span type token (replicate 128 0) = Unexpected e.
Proof.
  intros Hl. unfold encodeBase58Token_span. destruct (_ <? _)%nat; [by eexists|]. destruct token as [|b token]; [by eexists|].
  unfold b256ToB58Be. destruct (checksum_spec (type :: b :: token)) as [Hc _].
  rewrite (proj2 (Nat.ltb_lt 38 _)); [by eexists|]. rewrite length_app, Hc. cbn [length] in *. lia.
Qed.
Lemma ref_encode_stands type token : is_byte type -> Forall is_byte token ->
  exists ds, stands_for (b58_ref.encodeBase58Token type token) (message type token) ds.
Proof.
  intros Ht Hb. destruct (message_spec type token Ht Hb) as [Hm Hmb]. unfold b58_ref.encodeBase58Token.
  cbv zeta. fold (message type token). apply encodeBase58_stands; [done|]. rewrite Hm. replace ((1 + length token + 4) * 3 - (1 + length token + 4))%nat with (2 * (length token + 5))%nat by lia.
  rewrite Nat2Z.inj_mul, Z.pow_mul_r by lia. apply Z.pow_le_mono_l. lia.
Qed.

(** Both read a text alike. *)
Lemma decode_bytes s : Forall is_byte s -> (length s <= 52)%nat ->
  (exists ds, Forall b58_char s /\ b58ToB256Be s (replicate 64 0) = Value (b58_ref.decodeBase58 s) /\
     stands_for s (b58_ref.decodeBase58 s) ds /\ Forall is_byte (b58_ref.decodeBase58 s) /\ (length (b58_ref.decodeBase58 s) <= 52)%nat) \/
  (b58ToB256Be s (replicate 64 0) = Unexpected InvalidEncodingChar /\ b58_ref.decodeBase58 s = []).
Proof.
  intros Hs Hl. destruct (b58_char_dec s Hs) as [Hv|Hv]; [left|right].
  - destruct (decodeBase58_stands s Hv) as (ds & Hds & Hb); [rewrite length_drop; lia|]. exists ds.
    destruct (b58ToB256Be_stands s (replicate 64 0) Hl ltac:(rewrite length_replicate; lia) Hv) as (bytes & ds' & E & Hst & Hb').
    pose proof (stands_for_bytes _ _ _ _ _ Hst Hds Hb' Hb) as Eb. rewrite Eb in E. pose proof (stands_for_length _ _ _ Hds Hb).
    split_and!; [done|done|done|done|lia].
  - split; [|by apply decodeBase58_invalid]. apply b58ToB256Be_invalid; [done|rewrite length_replicate; lia|done|done].
Qed.

Lemma decode_agrees s type ret : b58ToB256Be s (replicate 64 0) = Value ret -> b58_ref.decodeBase58 s = ret -> (length ret <= 52)%nat ->
  match decodeBase58Token_span type s (replicate 64 0) with Value sr => sr | _ => [] end = b58_ref.decodeBase58Token s type /\
  decodeBase58Token_span type s (replicate 64 0) <> OutOfBounds.
Proof.
  intros E1 E2 Hl. unfold decodeBase58Token_span, b58_ref.decodeBase58Token. rewrite E1, E2. cbn [mbind B58Result_bind].
  change (default 0 (ret !! 0%nat)) with (at_ ret 0).
  destruct (_ <? _)%nat; [done|]. destruct (negb _); [done|]. destruct (negb _); [done|].
  rewrite length_replicate, (proj2 (Nat.ltb_ge _ _)) by lia. done.
Qed.

(** A message opens to its token. *)
Lemma ref_opens s type token : b58_ref.decodeBase58 s = message type token -> (1 <= length token)%nat ->
  b58_ref.decodeBase58Token s type = token.
Proof.
  intros E Hl. destruct (checksum_spec (type :: token)) as [Hc _]. unfold b58_ref.decodeBase58Token. rewrite E.
  unfold message. rewrite length_app, Hc. cbn [length app lookup list_lookup default drop]. unfold id. rewrite Z.eqb_refl. cbn [negb].
  rewrite (proj2 (Nat.ltb_ge _ _)) by lia. replace (S (length token) + 4 - 4)%nat with (length (type :: token)) by (cbn; lia).
  change (type :: token ++ checksum (type :: token)) with ((type :: token) ++ checksum (type :: token)).
  rewrite take_app_length, drop_app_length, bool_decide_true by done. cbn [negb length].
  replace (S (length token) + 4 - 1 - 4)%nat with (length token) by lia. apply take_app_length.
Qed.
Lemma ref_opened s type token : b58_ref.decodeBase58Token s type = token -> token <> [] ->
  b58_ref.decodeBase58 s = message type token.
Proof.
  unfold b58_ref.decodeBase58Token. intros E Hne. set (ret := b58_ref.decodeBase58 s) in *.
  destruct (Nat.ltb_spec (length ret) 6); [congruence|]. destruct (Z.eqb_spec type (default 0 (ret !! 0%nat))) as [Et|]; [|cbn in E; congruence].
  cbn [negb] in E. case_bool_decide as Hg; [|cbn in E; congruence]. cbn [negb] in E.
  destruct ret as [|t ret]; [cbn in *; lia|]. cbn in Et. subst t. cbn [drop length] in E.
  assert (take (length (type :: ret) - 4) (type :: ret) = type :: token) as Etk.
  { rewrite <-E. cbn [length]. replace (S (length ret) - 4)%nat with (S (S (length ret) - 1 - 4)) by (cbn in *; lia). done. }
  rewrite Etk in Hg. unfold message. rewrite Hg, <-Etk. symmetry. apply take_drop.
Qed.
End tokens.

(** ** The codecs *)

(** C32. The codec in use against the reference, when SHA-256 gives 32 bytes.
    Tokens of 1 to 33 bytes are encoded to the reference's text; an empty or
    a longer token to the empty text.  Texts of up to 52 characters are
    decoded as by the reference, whatever the characters and the checksum; a
    longer text to the empty token.  No array is written past its end. *)
Theorem base58_codecs_agree `{Sha256} (sha_digest : forall m, length (sha256 m) = 32%nat /\ Forall is_byte (sha256 m))
    (type : Z) (token : Blob) (s : list Z) :
  is_byte type -> Forall is_byte token -> Forall is_byte s ->
  encodeBase58Token type token = (if decide (1 <= length token <= 33)%nat then b58_ref.encodeBase58Token type token else []) /\
  decodeBase58Token s type = (if decide (length s <= 52)%nat then b58_ref.decodeBase58Token s type else []) /\
  encodeBase58Token_span type token (replicate 128 0) <> OutOfBounds /\
  decodeBase58Token_span type s (replicate 64 0) <> OutOfBounds.
Proof.
  intros Ht Hb Hs. unfold encodeBase58Token, decodeBase58Token.
  assert (forall P Q R T : Prop, (P /\ R) -> (Q /\ T) -> P /\ Q /\ R /\ T) as split4 by tauto. apply split4.
  - destruct (decide (1 <= length token <= 33)%nat) as [Hl|Hl].
    + destruct (fast_encode_stands sha_digest type token Ht Hb Hl) as (text & ds & -> & H1).
      destruct (ref_encode_stands sha_digest type token Ht Hb) as [ds' H2]. split; [by eapply stands_for_unique|done].
    + destruct (fast_encode_refused sha_digest type token) as [e ->]; [lia|done].
  - destruct (decide (length s <= 52)%nat) as [Hl|Hl].
    + destruct (decode_bytes s Hs Hl) as [(ds & _ & E & _ & _ & Hr)|[E E']]; [by eapply decode_agrees|].
      unfold decodeBase58Token_span, b58_ref.decodeBase58Token. by rewrite E, E'.
    + unfold decodeBase58Token_span, b58ToB256Be. by rewrite (proj2 (Nat.ltb_lt 52 _)) by lia.
Qed.

(** C33. Identifiers survive their text, when SHA-256 gives 32 bytes: a token
    of 1 to 33 bytes, encoded under a type, is at most 52 characters long and
    decodes to itself under this type, and to nothing under another; and a
    text that decodes to such a token is the token's encoding, so that an
    identifier has one text. *)
Theorem base58_roundtrip `{Sha256} (sha_digest : forall m, length (sha256 m) = 32%nat /\ Forall is_byte (sha256 m))
    (type : Z) (token : Blob) :
  is_byte type -> Forall is_byte token -> (1 <= length token <= 33)%nat ->
  let text := encodeBase58Token type token in
  (length text <= 52)%nat /\ decodeBase58Token text type = token /\
  (forall other, other <> type -> decodeBase58Token text other = []) /\
  (forall s, Forall is_byte s -> decodeBase58Token s type = token -> s = text).
Proof.
  intros Ht Hb Hl. cbv zeta. destruct (message_spec sha_digest type token Ht Hb) as [Hm Hmb].
  destruct (fast_encode_stands sha_digest type token Ht Hb Hl) as (text & ds & E & Hst). unfold encodeBase58Token. rewrite E.
  pose proof (b58_size _ _ _ Hst Hmb ltac:(lia)) as H52. pose proof (stands_for_chars _ _ _ Hst) as Hch.
  assert (Forall is_byte text) as Htb by (eapply Forall_impl; [exact Hch|by intros c [? _]]).
  destruct (decodeBase58_stands text Hch) as (ds' & Hst' & Hb'); [rewrite length_drop; lia|].
  pose proof (stands_for_bytes _ _ _ _ _ Hst' Hst Hb' Hmb) as Er.
  assert (b58ToB256Be text (replicate 64 0) = Value (message type token)) as Ef.
  { destruct (decode_bytes text Htb H52) as [(? & _ & -> & _)|[_ E0]]; [by rewrite Er|]. rewrite E0 in Er. by rewrite <-Er in Hm; cbn in Hm. }
  split_and!; [done| | |].
  - unfold decodeBase58Token. rewrite (proj1 (decode_agrees text type _ Ef Er ltac:(lia))). by apply (ref_opens sha_digest); [|lia].
  - intros other Hne. unfold decodeBase58Token. rewrite (proj1 (decode_agrees text other _ Ef Er ltac:(lia))).
    unfold b58_ref.decodeBase58Token. rewrite Er, (proj2 (Nat.ltb_ge _ _)) by lia. cbn. by rewrite (proj2 (Z.eqb_neq _ _) Hne).
  - intros s Hs Hd. assert (token <> []) as Hne by (intros ->; cbn in Hl; lia). unfold decodeBase58Token in Hd.
    destruct (decide (length s <= 52)%nat) as [Hsl|Hsl].
    + destruct (decode_bytes s Hs Hsl) as [(ds1 & _ & E1 & Hst1 & _ & Hr)|[E1 _]].
      * rewrite (proj1 (decode_agrees s type _ E1 eq_refl Hr)) in Hd. apply ref_opened in Hd; [|done]. rewrite Hd in Hst1.
        by eapply stands_for_unique.
      * unfold decodeBase58Token_span in Hd. rewrite E1 in Hd. by cbn in Hd; subst token.
    + unfold decodeBase58Token_span, b58ToB256Be in Hd. rewrite (proj2 (Nat.ltb_lt 52 _)) in Hd by lia. by cbn in Hd; subst token.
Qed.

(** ** Witnesses *)

(** A digest of the right shape. *)
Definition toy_sha256 : Sha256 := fun m => be_bytes 32 ((be_sum m + 17) * 2 ^ 200 * 1000003 + be_sum m).
Lemma toy_sha256_digest m : length (@sha256 toy_sha256 m) = 32%nat /\ Forall is_byte (@sha256 toy_sha256 m).
Proof. split; [apply length_be_bytes|apply be_bytes_byte]. Qed.
Lemma bytes_check l : forallb (fun b => (0 <=? b) && (b <? 256)) l = true -> Forall is_byte l.
Proof. intros Hb. apply Forall_forall. intros b Hin%list_elem_of_In. rewrite forallb_forall in Hb. apply Hb in Hin. unfold is_byte. lia. Qed.

Lemma base58_codecs_agree_witness :
  let token := [0; 1; 2; 3; 4; 255; 254; 253; 17; 18; 19; 20; 0; 0; 7; 8; 9; 10; 11; 12] in
  let text := @encodeBase58Token toy_sha256 0 token in
  length text = 33%nat /\ @b58_ref.decodeBase58Token toy_sha256 text 0 = token /\
  text = @b58_ref.encodeBase58Token toy_sha256 0 token.
Proof.
  cbv zeta. split_and!; [vm_compute; reflexivity|vm_compute; reflexivity|].
  refine (eq_trans (proj1 (@base58_codecs_agree toy_sha256 toy_sha256_digest 0 _ [] _ _ _)) _).
  - unfold is_byte. lia.
  - apply bytes_check. vm_compute. reflexivity.
  - constructor.
  - reflexivity.
Defined.

Lemma base58_roundtrip_witness :
  let token := [2; 1; 2; 3; 4; 255; 254; 253; 17; 18; 19; 20; 0; 0; 7; 8; 9; 10; 11; 12; 0; 0; 0; 0; 0; 1; 1; 1; 1; 1; 1; 1; 1] in
  length token = 33%nat /\ @decodeBase58Token toy_sha256 (@encodeBase58Token toy_sha256 28 token) 28 = token.
Proof.
  cbv zeta. split; [reflexivity|]. apply (@base58_roundtrip toy_sha256 toy_sha256_digest 28).
  - unfold is_byte. lia.
  - apply bytes_check. vm_compute. reflexivity.
  - cbn. lia.
Defined.
