(* ===== verification/SHAMapNodeID.v ===== *)
(** * Positions in the radix tree

    [SHAMapNodeID] (SHAMapNodeID.h/.cpp): the depth of a node and the
    leading nibbles of the keys below it.  A 256-bit key is a number below
    [2^256]; byte [i] of its big-endian representation is [key_byte]. *)

From S2P Require Import Prelude.

Local Open Scope N_scope.

Definition kLeafDepth : N := 64.
Definition kBranchFactor : nat := 16%nat.

Record SHAMapNodeID : Type := mkNodeID { depth_ : N; id_ : N }.

#[export] Instance SHAMapNodeID_eq_dec : EqDecision SHAMapNodeID.
Proof. solve_decision. Defined.

Definition rootID : SHAMapNodeID := mkNodeID 0 0.

Definition isRoot (nid : SHAMapNodeID) : bool := depth_ nid =? 0.

(** [hash.begin()[i]]. *)
Definition key_byte (key i : N) : N := N.land (N.shiftr key (8 * (31 - i))) 255.

(** [*(x.begin() + i) = v] on a byte that is zero so far. *)
Definition set_byte (x i v : N) : N := N.lor x (N.shiftl v (8 * (31 - i))).

(** The constructor of the table of masks: entries [2 j] and [2 j + 1]
    for each byte [j], then the full mask. *)
Definition masks : list N :=
  let fix go (n : nat) (j : N) (selector : N) : list N :=
    match n with
    | O => [selector]
    | S n => selector :: set_byte selector j 0xF0 :: go n (j + 1) (set_byte selector j 0xFF)
    end in
  go 32%nat 0 0.

Definition depthMask (depth : N) : N := nth (N.to_nat depth) masks 0.

Definition selectBranch (nid : SHAMapNodeID) (hash : N) : nat :=
  let branch := key_byte hash (depth_ nid / 2) in
  N.to_nat (if negb (N.land (depth_ nid) 1 =? 0) then N.land branch 0xf
            else N.shiftr branch 4).

Definition getChildNodeID (nid : SHAMapNodeID) (m : nat) : result SHAMapNodeID :=
  if kLeafDepth <=? depth_ nid then Throw "Request for child node ID"
  else if negb (id_ nid =? N.land (id_ nid) (depthMask (depth_ nid)))
  then Throw "Incorrect mask"
  else Ok (mkNodeID (depth_ nid + 1)
    (set_byte (id_ nid) (depth_ nid / 2)
       (if negb (N.land (depth_ nid) 1 =? 0) then N.of_nat m else N.shiftl (N.of_nat m) 4))).

Definition createID (depth key : N) : SHAMapNodeID :=
  mkNodeID depth (N.land key (depthMask depth)).

(** ** Nibbles *)

(** Nibble [d] of a key, most significant first. *)
Definition nib (key d : N) : N := N.land (N.shiftr key (4 * (63 - d))) 15.

Lemma nib_lt key d : nib key d < 16.
Proof.
  unfold nib. change 15 with (N.ones 4). rewrite N.land_ones. apply N.mod_lt. done.
Qed.

Lemma even_or_odd (d : N) : d = 2 * (d / 2) /\ N.land d 1 = 0 \/
  d = 2 * (d / 2) + 1 /\ N.land d 1 = 1.
Proof.
  assert (N.land d 1 = d mod 2) as -> by apply (N.land_ones d 1).
  generalize (N.div_mod d 2 ltac:(done)), (N.mod_lt d 2 ltac:(done)).
  generalize (d / 2), (d mod 2). intros q r. lia.
Qed.

(** The leading [d] nibbles of a key, as a number. *)
Definition pre (key d : N) : N := key / 16 ^ (64 - d).

Lemma nib_div key d : d < 64 -> nib key d = (key / 16 ^ (63 - d)) mod 16.
Proof.
  intros Hd. unfold nib. change 15 with (N.ones 4).
  rewrite N.land_ones, N.shiftr_div_pow2, N.pow_mul_r. done.
Qed.

Lemma pre_succ key d : d < 64 -> pre key (d + 1) = 16 * pre key d + nib key d.
Proof.
  intros Hd. rewrite nib_div by done. unfold pre.
  replace (64 - (d + 1)) with (63 - d) by lia.
  replace (64 - d) with (63 - d + 1) by lia.
  rewrite N.pow_add_r. change (16 ^ 1) with 16. rewrite <-N.Div0.div_div.
  apply N.div_mod. done.
Qed.

Lemma pre_0 key : key < 2 ^ 256 -> pre key 0 = 0.
Proof. intros Hk. apply N.div_small. done. Qed.

Lemma pre_64 key : pre key 64 = key.
Proof. apply N.div_1_r. Qed.

Lemma pre_lt k1 k2 d : pre k1 d < pre k2 d -> k1 < k2.
Proof.
  unfold pre. intros Hlt. destruct (N.lt_ge_cases k1 k2) as [|Hge]; [done|].
  pose proof (N.Div0.div_le_mono k2 k1 (16 ^ (64 - d)) Hge). lia.
Qed.

(** The branch the code selects is the nibble at the depth of the node. *)
Lemma selectBranch_nib d i key :
  d < 64 -> selectBranch (mkNodeID d i) key = N.to_nat (nib key d).
Proof.
  intros Hd. unfold selectBranch, key_byte, nib; simpl. f_equal.
  destruct (even_or_odd d) as [[E ->]|[E ->]]; simpl; apply N.bits_inj; intros n.
  - rewrite N.shiftr_spec', !N.land_spec, !N.shiftr_spec'.
    replace (n + 4 + 8 * (31 - d / 2)) with (n + 4 * (63 - d)) by lia.
    f_equal. change 255 with (N.ones 8). change 15 with (N.ones 4).
    destruct (N.lt_ge_cases n 4).
    + rewrite !N.ones_spec_low by lia. done.
    + rewrite !N.ones_spec_high by lia. done.
  - rewrite !N.land_spec, !N.shiftr_spec'.
    replace (n + 8 * (31 - d / 2)) with (n + 4 * (63 - d)) by lia.
    rewrite <-andb_assoc. f_equal. change 255 with (N.ones 8). change 15 with (N.ones 4).
    destruct (N.lt_ge_cases n 4).
    + rewrite !N.ones_spec_low by lia. done.
    + rewrite (N.ones_spec_high 4) by lia. apply andb_false_r.
Qed.

Lemma selectBranch_lt d i key : d < 64 -> (selectBranch (mkNodeID d i) key < 16)%nat.
Proof. intros Hd. rewrite selectBranch_nib by done. pose proof (nib_lt key d). lia. Qed.

(** ** Masks *)

Lemma depthMask_spec d :
  d <= 64 -> depthMask d = N.shiftl (N.ones (4 * d)) (256 - 4 * d).
Proof.
  intros Hd.
  assert (forallb (fun n => depthMask (N.of_nat n) =?
    N.shiftl (N.ones (4 * N.of_nat n)) (256 - 4 * N.of_nat n)) (seq 0 65) = true) as Hall
    by (vm_compute; reflexivity).
  rewrite forallb_forall in Hall. specialize (Hall (N.to_nat d)).
  rewrite N2Nat.id in Hall. apply N.eqb_eq, Hall, in_seq. lia.
Qed.

Lemma depthMask_testbit d n :
  d <= 64 -> N.testbit (depthMask d) n = (256 - 4 * d <=? n) && (n <? 256).
Proof.
  intros Hd. rewrite depthMask_spec by done.
  destruct (N.leb_spec (256 - 4 * d) n).
  - rewrite N.shiftl_spec_high' by done. destruct (N.ltb_spec n 256).
    + apply N.ones_spec_low. lia.
    + apply N.ones_spec_high. lia.
  - by apply N.shiftl_spec_low.
Qed.

(** The identifier has no bits below its depth: what [getChildNodeID]
    checks before it extends it. *)
Definition masked (nid : SHAMapNodeID) : Prop :=
  depth_ nid <= 64 /\ id_ nid = N.land (id_ nid) (depthMask (depth_ nid)).

Lemma masked_root : masked rootID.
Proof. done. Qed.

(** The nibble [getChildNodeID] sets. *)
Lemma child_nibble (d : N) (m : N) :
  d < 64 ->
  N.shiftl (if negb (N.land d 1 =? 0) then m else N.shiftl m 4) (8 * (31 - d / 2)) =
  N.shiftl m (4 * (63 - d)).
Proof.
  intros Hd. destruct (even_or_odd d) as [[E ->]|[E ->]]; simpl.
  - rewrite N.shiftl_shiftl. f_equal. lia.
  - f_equal. lia.
Qed.

Lemma nibble_masked (d m : N) :
  d < 64 -> m < 16 ->
  N.land (N.shiftl m (4 * (63 - d))) (depthMask (d + 1)) = N.shiftl m (4 * (63 - d)).
Proof.
  intros Hd Hm. apply N.bits_inj. intros n.
  rewrite N.land_spec, depthMask_testbit by lia.
  destruct (N.lt_ge_cases n (4 * (63 - d))).
  - by rewrite N.shiftl_spec_low.
  - rewrite N.shiftl_spec_high' by done.
    destruct (N.lt_ge_cases (n - 4 * (63 - d)) 4).
    + rewrite (proj2 (N.leb_le _ _)), (proj2 (N.ltb_lt _ _)) by lia. apply andb_true_r.
    + assert (N.testbit m (n - 4 * (63 - d)) = false) as ->; [|done].
      destruct (N.eq_dec m 0) as [->|]; [apply N.bits_0|].
      apply N.bits_above_log2. assert (N.log2 m < 4); [|lia].
      apply N.log2_lt_pow2; [lia|done].
Qed.

Lemma mask_weaken (d x : N) :
  d < 64 -> x = N.land x (depthMask d) -> N.land x (depthMask (d + 1)) = x.
Proof.
  intros Hd ->. apply N.bits_inj. intros n. rewrite !N.land_spec, !depthMask_testbit by lia.
  destruct (N.testbit x n); [|done]. simpl.
  destruct (N.leb_spec (256 - 4 * d) n), (N.leb_spec (256 - 4 * (d + 1)) n),
    (N.ltb_spec n 256); try done; lia.
Qed.

Lemma getChildNodeID_Ok nid m :
  masked nid -> depth_ nid < 64 -> (m < 16)%nat ->
  exists nid', getChildNodeID nid m = Ok nid' /\ masked nid' /\ depth_ nid' = depth_ nid + 1.
Proof.
  intros [Hd Hid] Hlt Hm. unfold getChildNodeID.
  rewrite (proj2 (N.leb_gt _ _)) by done.
  rewrite <-Hid, N.eqb_refl; simpl. eexists. split; [done|].
  split; [|done]. split; simpl; [lia|]. unfold set_byte.
  rewrite child_nibble by done.
  rewrite N.land_lor_distr_l, nibble_masked by lia.
  by rewrite mask_weaken.
Qed.

(** Descending along a key visits the identifiers [createID] names. *)
Lemma createID_child d key :
  d < 64 ->
  getChildNodeID (createID d key) (selectBranch (createID d key) key) =
  Ok (createID (d + 1) key).
Proof.
  intros Hd. unfold getChildNodeID, createID; simpl.
  rewrite (proj2 (N.leb_gt _ _)) by done.
  assert (N.land (N.land key (depthMask d)) (depthMask d) = N.land key (depthMask d)) as ->.
  { by rewrite <-N.land_assoc, N.land_diag. }
  rewrite N.eqb_refl; simpl. do 2 f_equal.
  rewrite selectBranch_nib, N2Nat.id by done. unfold set_byte.
  rewrite child_nibble by done. apply N.bits_inj. intros n.
  rewrite N.lor_spec, !N.land_spec, !depthMask_testbit by lia.
  destruct (N.lt_ge_cases n (4 * (63 - d))).
  - rewrite N.shiftl_spec_low by done.
    rewrite !(proj2 (N.leb_gt _ _)) by lia. simpl. by rewrite andb_false_r.
  - rewrite N.shiftl_spec_high' by done. unfold nib.
    rewrite N.land_spec, N.shiftr_spec'.
    replace (n - 4 * (63 - d) + 4 * (63 - d)) with n by lia.
    rewrite (proj2 (N.leb_le (256 - 4 * (d + 1)) n)) by lia. change 15 with (N.ones 4).
    destruct (N.testbit key n); [|done]. cbn [andb].
    destruct (N.leb_spec (256 - 4 * d) n), (N.ltb_spec n 256); cbn [andb orb];
      try done; try lia.
    + apply N.ones_spec_high. lia.
    + apply N.ones_spec_low. lia.
Qed.
