(* ===== verification/SHAMap.v ===== *)
(** * The Merkle radix tree

    [SHAMap] (SHAMap.h/.cpp, SHAMapInnerNode.h/.cpp): the 16-way radix tree
    that stores the state and the transactions of a ledger.  Trees are
    values here: the copy-on-write machinery ([cowid_], [unshareNode]) makes
    every map behave as if it owned its nodes, so replacing a node is
    building a new tree.  All nodes are resident; the calls that read nodes
    back from the node store are not modelled. *)

From S2P Require Import Prelude SHAMapNodeID.

Inductive SHAMapNodeType : Type :=
| TnInner | TnTransactionNm | TnTransactionMd | TnAccountState.

#[export] Instance SHAMapNodeType_eq_dec : EqDecision SHAMapNodeType.
Proof. solve_decision. Defined.

Record SHAMapItem (A : Type) : Type := mkItem { item_key : N; item_data : A }.
Arguments mkItem {A} _ _.
Arguments item_key {A} _.
Arguments item_data {A} _.

(** A node: a typed leaf with its item, or an inner node with its sixteen
    branches ([isBranch_] and the packed child array of the source). *)
Inductive SHAMapTreeNode (A : Type) : Type :=
| LeafNode (type : SHAMapNodeType) (item : SHAMapItem A)
| InnerNode (children : list (option (SHAMapTreeNode A))).
Arguments LeafNode {A} _ _.
Arguments InnerNode {A} _.

Section SHAMap.
Context {A : Type}.

Abbreviation node := (SHAMapTreeNode A).
Abbreviation stack := (list (SHAMapTreeNode A * SHAMapNodeID)).

Definition emptyMap : node := InnerNode (replicate kBranchFactor None).

(** ** Inner nodes *)

Definition getChild (ch : list (option node)) (i : nat) : option node := mjoin (ch !! i).

Definition isEmptyBranch (ch : list (option node)) (i : nat) : bool :=
  match getChild ch i with Some _ => false | None => true end.

Definition getBranchCount (ch : list (option node)) : nat :=
  length (filter (fun c => is_Some c) ch).

Definition setChild (ch : list (option node)) (m : nat) (child : option node)
    : list (option node) := <[m := child]> ch.

Definition makeTypedLeaf (type : SHAMapNodeType) (item : SHAMapItem A) : result node :=
  match type with
  | TnInner => Throw "Attempt to create leaf node of unknown type"
  | _ => Ok (LeafNode type item)
  end.

(** ** Walking *)

(** [getChildNodeID] throws at depth 64, so 65 steps are enough for every
    loop that goes down the tree. *)
Definition walk_fuel : nat := 65.

Fixpoint walk (fuel : nat) (inNode : node) (nodeID : SHAMapNodeID) (id : N) (st : stack)
    : result (option (SHAMapNodeType * SHAMapItem A) * stack) :=
  match fuel with
  | O => Throw "out of fuel"
  | S fuel =>
      match inNode with
      | LeafNode ty item => Ok (Some (ty, item), (inNode, nodeID) :: st)
      | InnerNode ch =>
          let st := (inNode, nodeID) :: st in
          let branch := selectBranch nodeID id in
          match getChild ch branch with
          | None => Ok (None, st)
          | Some c =>
              childID ← getChildNodeID nodeID branch;
              walk fuel c childID id st
          end
      end
  end.

Definition walkTowardsKey (root : node) (id : N)
    : result (option (SHAMapNodeType * SHAMapItem A) * stack) :=
  walk walk_fuel root rootID id [].

Definition findKey (root : node) (id : N) : result (option (SHAMapNodeType * SHAMapItem A)) :=
  '(leaf, _) ← walkTowardsKey root id;
  Ok (match leaf with
      | Some (ty, item) => if (item_key item =? id)%N then Some (ty, item) else None
      | None => None
      end).

Definition peekItem (root : node) (id : N) : result (option (SHAMapItem A)) :=
  leaf ← findKey root id; Ok (option_map snd leaf).

Definition hasItem (root : node) (id : N) : result bool :=
  leaf ← findKey root id; Ok (match leaf with Some _ => true | None => false end).

(** ** Updating *)

Fixpoint dirtyUp (st : stack) (target : N) (child : node) : result node :=
  match st with
  | [] => Ok child
  | (InnerNode ch, nodeID) :: st =>
      dirtyUp st target (InnerNode (setChild ch (selectBranch nodeID target) (Some child)))
  | (LeafNode _ _, _) :: _ => Throw "null node"
  end.

(** The while loop of [addGiveItem]: new inner nodes while both keys take
    the same branch; returns the two branches and the position. *)
Fixpoint split_loop (fuel : nat) (nodeID : SHAMapNodeID) (tag other : N) (st : stack)
    : result (nat * nat * stack) :=
  match fuel with
  | O => Throw "out of fuel"
  | S fuel =>
      let b1 := selectBranch nodeID tag in
      let b2 := selectBranch nodeID other in
      if (b1 =? b2)%nat then
        childID ← getChildNodeID nodeID b1;
        split_loop fuel childID tag other ((emptyMap, nodeID) :: st)
      else Ok (b1, b2, st)
  end.

Definition addGiveItem (root : node) (type : SHAMapNodeType) (item : SHAMapItem A)
    : result (node * bool) :=
  let tag := item_key item in
  '(_, st) ← walkTowardsKey root tag;
  match st with
  | [] => Throw "SHAMapMissingNode"
  | (LeafNode lty otherItem, nodeID) :: st =>
      if (item_key otherItem =? tag)%N then Ok (root, false)
      else
        '(b1, b2, st) ← split_loop walk_fuel nodeID tag (item_key otherItem) st;
        l1 ← makeTypedLeaf type item;
        l2 ← makeTypedLeaf type otherItem;
        let inner := InnerNode (setChild (setChild (replicate kBranchFactor None)
                                            b1 (Some l1)) b2 (Some l2)) in
        root' ← dirtyUp st tag inner;
        Ok (root', true)
  | (InnerNode ch, nodeID) :: st =>
      leaf ← makeTypedLeaf type item;
      root' ← dirtyUp st tag (InnerNode (setChild ch (selectBranch nodeID tag) (Some leaf)));
      Ok (root', true)
  end.

(** [onlyBelow]: the single item below a node, if there is just one. *)
Fixpoint onlyBelow (fuel : nat) (n : node) : result (option (SHAMapItem A)) :=
  match fuel with
  | O => Throw "out of fuel"
  | S fuel =>
      match n with
      | LeafNode _ item => Ok (Some item)
      | InnerNode ch =>
          match omap (fun c => c) ch with
          | [next] => onlyBelow fuel next
          | _ => Ok None
          end
      end
  end.

(** The loop of [delItem] over the path, from the parent of the deleted
    leaf up: [prevNode] is what gets attached to the end of the chain. *)
Fixpoint del_loop (st : stack) (id : N) (type : SHAMapNodeType) (prevNode : option node)
    (root : node) : result node :=
  match st with
  | [] => Ok root
  | (LeafNode _ _, _) :: _ => Throw "null node"
  | (InnerNode ch, nodeID) :: st =>
      let ch := setChild ch (selectBranch nodeID id) prevNode in
      if isRoot nodeID then del_loop st id type None (InnerNode ch)
      else
        match getBranchCount ch with
        | 0%nat => del_loop st id type None root
        | 1%nat =>
            item ← onlyBelow walk_fuel (InnerNode ch);
            match item with
            | Some item =>
                leaf ← makeTypedLeaf type item;
                del_loop st id type (Some leaf) root
            | None => del_loop st id type (Some (InnerNode ch)) root
            end
        | _ => del_loop st id type (Some (InnerNode ch)) root
        end
  end.

Definition delItem (root : node) (id : N) : result (node * bool) :=
  '(_, st) ← walkTowardsKey root id;
  match st with
  | [] => Throw "SHAMapMissingNode"
  | (LeafNode ty item, _) :: st =>
      if (item_key item =? id)%N then
        root' ← del_loop st id ty None root; Ok (root', true)
      else Ok (root, false)
  | (InnerNode _, _) :: _ => Ok (root, false)
  end.

(** [updateGiveItem]: the leaf keeps its place.  [setItem] stores the item and
    tells whether the hash of the leaf has changed; only then is the leaf
    linked in again, by [dirtyUp].  Where the hash has not changed the tree is
    left as it was, which is what the code leaves for a leaf shared with
    another map; a leaf of this map alone gets the item, which then is the
    old one unless the digest collides. *)
Definition updateGiveItem {H : Type} `{EqDecision H} (leafHash : N -> A -> H)
    (root : node) (type : SHAMapNodeType) (item : SHAMapItem A) : result (node * bool) :=
  let tag := item_key item in
  '(_, st) ← walkTowardsKey root tag;
  match st with
  | [] => Throw "SHAMapMissingNode"
  | (LeafNode lty old, _) :: st =>
      if negb (item_key old =? tag)%N then Ok (root, false)
      else if negb (bool_decide (lty = type)) then Ok (root, false)
      else if bool_decide (leafHash (item_key old) (item_data old) =
                           leafHash tag (item_data item)) then Ok (root, true)
      else root' ← dirtyUp st tag (LeafNode lty item); Ok (root', true)
  | (InnerNode _, _) :: _ => Ok (root, false)
  end.

(** ** Ordered traversal *)

Fixpoint first_branch (order : list nat) (ch : list (option node)) : option node :=
  match order with
  | [] => None
  | i :: order =>
      match getChild ch i with Some c => Some c | None => first_branch order ch end
  end.

(** The loop of [belowHelper]; [order] lists the branches the loop
    parameters [init], [cmp] and [incr] scan. *)
Fixpoint below_loop (fuel : nat) (order : list nat) (branch : nat)
    (ch : list (option node)) (st : stack) : result (option (SHAMapItem A) * stack) :=
  match fuel with
  | O => Throw "out of fuel"
  | S fuel =>
      match first_branch order ch with
      | None => Ok (None, st)
      | Some (LeafNode ty item) =>
          Ok (Some item, (LeafNode ty item, mkNodeID kLeafDepth (item_key item)) :: st)
      | Some (InnerNode ch') =>
          match st with
          | [] => Throw "empty stack"
          | (_, topID) :: _ =>
              childID ← getChildNodeID topID branch;
              below_loop fuel order branch ch' ((InnerNode ch', childID) :: st)
          end
      end
  end.

Definition belowHelper (order : list nat) (n : node) (st : stack) (branch : nat)
    : result (option (SHAMapItem A) * stack) :=
  match n with
  | LeafNode ty item =>
      Ok (Some item, (n, mkNodeID kLeafDepth (item_key item)) :: st)
  | InnerNode ch =>
      nid ← match st with
            | [] => Ok rootID
            | (_, topID) :: _ => getChildNodeID topID branch
            end;
      below_loop walk_fuel order branch ch ((n, nid) :: st)
  end.

(** [cmp] of [firstBelow] is [i <= kBranchFactor]: it also looks at the
    branch 16, which is never set. *)
Definition firstBelow := belowHelper (seq 0 17).
Definition lastBelow := belowHelper (reverse (seq 0 16)).

Definition peekFirstItem (root : node) : result (option (SHAMapItem A) * stack) :=
  '(leaf, st) ← firstBelow root [] 0;
  Ok (match leaf with Some _ => (leaf, st) | None => (None, []) end).

(** The first branch of [order] that is set. *)
Fixpoint next_branch (order : list nat) (ch : list (option node)) : option (nat * node) :=
  match order with
  | [] => None
  | i :: order =>
      match getChild ch i with Some c => Some (i, c) | None => next_branch order ch end
  end.

(** [i = selectBranch(nodeID, id) + 1; i < kBranchFactor; ++i]. *)
Definition branches_after (b : nat) : list nat := seq (S b) (15 - b).
Definition branches_before (b : nat) : list nat := reverse (seq 0 b).

Fixpoint next_loop (id : N) (st : stack) : result (option (SHAMapItem A) * stack) :=
  match st with
  | [] => Ok (None, [])
  | (LeafNode _ _, _) :: _ => Throw "another node is not leaf"
  | (InnerNode ch, nodeID) :: st' =>
      match next_branch (branches_after (selectBranch nodeID id)) ch with
      | Some (i, c) =>
          '(leaf, st'') ← firstBelow c st i;
          match leaf with
          | Some item => Ok (Some item, st'')
          | None => Throw "SHAMapMissingNode"
          end
      | None => next_loop id st'
      end
  end.

Definition peekNextItem (id : N) (st : stack) : result (option (SHAMapItem A) * stack) :=
  next_loop id (tail st).

Fixpoint upper_loop (id : N) (st : stack) : result (option (SHAMapItem A) * stack) :=
  match st with
  | [] => Ok (None, [])
  | (LeafNode _ item, _) :: st' =>
      if (id <? item_key item)%N then Ok (Some item, st) else upper_loop id st'
  | (InnerNode ch, nodeID) :: st' =>
      match next_branch (branches_after (selectBranch nodeID id)) ch with
      | Some (i, c) =>
          '(leaf, st'') ← firstBelow c st i;
          match leaf with
          | Some item => Ok (Some item, st'')
          | None => Throw "SHAMapMissingNode"
          end
      | None => upper_loop id st'
      end
  end.

Definition upperBound (root : node) (id : N) : result (option (SHAMapItem A) * stack) :=
  '(_, st) ← walkTowardsKey root id; upper_loop id st.

Fixpoint lower_loop (id : N) (st : stack) : result (option (SHAMapItem A) * stack) :=
  match st with
  | [] => Ok (None, [])
  | (LeafNode _ item, _) :: st' =>
      if (item_key item <? id)%N then Ok (Some item, st) else lower_loop id st'
  | (InnerNode ch, nodeID) :: st' =>
      match next_branch (branches_before (selectBranch nodeID id)) ch with
      | Some (i, c) =>
          '(leaf, st'') ← lastBelow c st i;
          match leaf with
          | Some item => Ok (Some item, st'')
          | None => Throw "SHAMapMissingNode"
          end
      | None => lower_loop id st'
      end
  end.

Definition lowerBound (root : node) (id : N) : result (option (SHAMapItem A) * stack) :=
  '(_, st) ← walkTowardsKey root id; lower_loop id st.

(** A range-based for loop over the map: [begin()], then [operator++] until
    the item is null. *)
Fixpoint iterate (fuel : nat) (cur : option (SHAMapItem A) * stack)
    : result (list (SHAMapItem A)) :=
  match cur.1 with
  | None => Ok []
  | Some item =>
      match fuel with
      | O => Throw "out of fuel"
      | S fuel =>
          nxt ← peekNextItem (item_key item) cur.2;
          rest ← iterate fuel nxt;
          Ok (item :: rest)
      end
  end.
End SHAMap.
