(* ===== verification/SHAMapSpec.v ===== *)
(** * Correctness of the Merkle radix tree

    The tree denotes the sorted list of its items.  [wf] is the canonical
    shape (an item sits below the branches its key selects, and an inner
    node other than the root has at least two items below it); every
    operation preserves it and acts on the item list as a map operation. *)

From S2P Require Import Prelude SHAMapNodeID SHAMap.

Local Open Scope N_scope.

Section spec.
Context {A : Type}.

Abbreviation node := (SHAMapTreeNode A).
Abbreviation stack := (list (SHAMapTreeNode A * SHAMapNodeID)).

(** ** The items of a tree *)

Fixpoint items (n : node) : list (SHAMapItem A) :=
  match n with
  | LeafNode _ item => [item]
  | InnerNode ch => flat_map (fun c => match c with Some c => items c | None => [] end) ch
  end.

(** The number of nodes. *)
Fixpoint node_count (n : node) : nat :=
  match n with
  | LeafNode _ _ => 1
  | InnerNode ch => S (list_sum (map (fun c => match c with Some c => node_count c | None => 0%nat end) ch))
  end.

Definition items_opt (c : option node) : list (SHAMapItem A) :=
  match c with Some c => items c | None => [] end.

Definition items_of (ch : list (option node)) : list (SHAMapItem A) := flat_map items_opt ch.

Lemma items_inner ch : items (InnerNode ch) = items_of ch.
Proof. done. Qed.

Lemma items_of_app c1 c2 : items_of (c1 ++ c2) = items_of c1 ++ items_of c2.
Proof. apply flat_map_app. Qed.

Lemma elem_of_items_of it ch :
  it ∈ items_of ch <-> exists i c, getChild ch i = Some c /\ it ∈ items c.
Proof.
  unfold items_of. rewrite list_elem_of_In, in_flat_map. split.
  - intros (oc & Hoc%list_elem_of_In & Hit%list_elem_of_In).
    destruct oc as [c|]; [|by apply not_elem_of_nil in Hit].
    apply list_elem_of_lookup in Hoc as [i Hi]. exists i, c.
    unfold getChild. by rewrite Hi.
  - intros (i & c & Hc & Hit). exists (Some c). split; [|by apply list_elem_of_In].
    apply list_elem_of_In, list_elem_of_lookup. exists i.
    unfold getChild in Hc. by destruct (ch !! i) as [[]|]; simplify_eq/=.
Qed.

Definition leaf_type (n : node) : SHAMapNodeType :=
  match n with LeafNode ty _ => ty | InnerNode _ => TnInner end.

Definition is_inner (n : node) : Prop := leaf_type n = TnInner.

Lemma getChild_lt (ch : list (option node)) i c :
  getChild ch i = Some c -> (i < length ch)%nat.
Proof.
  unfold getChild. intros H. apply lookup_lt_is_Some. destruct (ch !! i); eauto; done.
Qed.

Lemma lookup_getChild (ch : list (option node)) i :
  (i < length ch)%nat -> ch !! i = Some (getChild ch i).
Proof. intros [x Hx]%lookup_lt_is_Some. unfold getChild. by rewrite Hx. Qed.

Lemma getChild_setChild (ch : list (option node)) i j c :
  (i < length ch)%nat ->
  getChild (setChild ch i c) j = if decide (i = j) then c else getChild ch j.
Proof.
  intros Hi. unfold getChild, setChild. case_decide as E.
  - subst j. by rewrite list_lookup_insert_eq.
  - by rewrite list_lookup_insert_ne.
Qed.

(** ** The canonical shape *)

Definition branching (ch : list (option node)) : Prop :=
  (2 <= getBranchCount ch)%nat \/
  exists i c, getBranchCount ch = 1%nat /\ getChild ch i = Some c /\ is_inner c.

(** [wf ty d p n]: [n] is a proper node at depth [d] whose keys have the
    leading nibbles [p], with leaves of type [ty]. *)
Inductive wf (ty : SHAMapNodeType) : N -> N -> node -> Prop :=
| wf_leaf d p item :
    ty <> TnInner -> d <= 64 -> item_key item < 2 ^ 256 -> pre (item_key item) d = p ->
    wf ty d p (LeafNode ty item)
| wf_inner d p ch :
    d < 64 -> length ch = kBranchFactor ->
    (forall i c, getChild ch i = Some c -> wf ty (d + 1) (16 * p + N.of_nat i) c) ->
    (d <> 0 -> branching ch) ->
    wf ty d p (InnerNode ch).

Definition wf_map (ty : SHAMapNodeType) (root : node) : Prop :=
  wf ty 0 0 root /\ is_inner root /\ ty <> TnInner.

Lemma wf_keys ty d p n it :
  wf ty d p n -> it ∈ items n -> item_key it < 2 ^ 256 /\ pre (item_key it) d = p.
Proof.
  intros Hwf. revert it. induction Hwf as [d p item ? ? ? ?|d p ch Hd Hl Hch IH Hb];
    intros it Hit.
  - apply list_elem_of_singleton in Hit as ->. done.
  - rewrite items_inner in Hit.
    apply elem_of_items_of in Hit as (i & c & Hc & Hit).
    destruct (IH i c Hc it Hit) as [? Hp]. split; [done|].
    rewrite pre_succ in Hp by done. pose proof (nib_lt (item_key it) d).
    assert (i < 16)%nat by (apply getChild_lt in Hc; unfold kBranchFactor in Hl; lia).
    lia.
Qed.

Lemma wf_nib ty d p ch i c it :
  wf ty d p (InnerNode ch) -> getChild ch i = Some c -> it ∈ items c ->
  nib (item_key it) d = N.of_nat i.
Proof.
  intros Hwf Hc Hit. inversion Hwf as [|? ? ? Hd Hl Hch Hb]; subst.
  destruct (wf_keys _ _ _ _ _ (Hch _ _ Hc) Hit) as [_ Hp].
  assert (it ∈ items (InnerNode ch)) as Hin by (apply elem_of_items_of; eauto).
  destruct (wf_keys _ _ _ _ _ Hwf Hin) as [_ Hp'].
  rewrite pre_succ in Hp by done. lia.
Qed.

(** An item below a branch is below the branch its key selects. *)
Lemma elem_of_branch ty d p ch it :
  wf ty d p (InnerNode ch) -> it ∈ items (InnerNode ch) ->
  exists c, getChild ch (N.to_nat (nib (item_key it) d)) = Some c /\ it ∈ items c.
Proof.
  intros Hwf Hit. pose proof Hit as (i & c & Hc & Hic)%elem_of_items_of.
  exists c. rewrite (wf_nib _ _ _ _ _ _ _ Hwf Hc Hic), Nat2N.id. done.
Qed.

Lemma filter_count_le1 {B} (l : list (option B)) i j x y :
  (length (filter (fun c => is_Some c) l) <= 1)%nat ->
  mjoin (l !! i) = Some x -> mjoin (l !! j) = Some y -> i = j.
Proof.
  revert i j. induction l as [|[z|] l IH]; intros i j; [by rewrite lookup_nil|..].
  - rewrite filter_cons_True by eauto. simpl. intros Hl.
    assert (filter (fun c => is_Some c) l = []) as Hnil by (apply nil_length_inv; lia).
    assert (forall k w, mjoin (l !! k) <> Some w) as Hno.
    { intros k w Hk. destruct (l !! k) as [[w'|]|] eqn:E; simplify_eq/=.
      apply list_elem_of_lookup_2 in E.
      assert (Some w ∈ filter (fun c => is_Some c) l) as Hin
        by (apply list_elem_of_filter; eauto).
      rewrite Hnil in Hin. by apply not_elem_of_nil in Hin. }
    destruct i, j; simpl; try done; intros; exfalso; by eapply Hno.
  - rewrite filter_cons_False by (by intros [??]). intros Hl.
    destruct i, j; simpl; try done. intros Hi Hj. f_equal. eauto.
Qed.

Lemma branch_count_pos (ch : list (option node)) i c :
  getChild ch i = Some c -> (1 <= getBranchCount ch)%nat.
Proof.
  unfold getChild, getBranchCount. intros Hi.
  destruct (ch !! i) as [[c'|]|] eqn:E; simplify_eq/=.
  apply list_elem_of_lookup_2 in E.
  assert (Some c ∈ filter (fun c => is_Some c) ch) as Hin
    by (apply list_elem_of_filter; eauto).
  destruct (filter _ ch); [by apply not_elem_of_nil in Hin|simpl; lia].
Qed.

Lemma branch_count_ge (ch : list (option node)) n :
  (S n <= getBranchCount ch)%nat -> exists i c, getChild ch i = Some c.
Proof.
  unfold getBranchCount, getChild. destruct (filter _ ch) as [|oc l] eqn:E; simpl; [lia|].
  intros _. assert (oc ∈ filter (fun c => is_Some c) ch) as [[c ->] Hin]%list_elem_of_filter
    by (rewrite E; by left).
  apply list_elem_of_lookup in Hin as [i Hi]. exists i, c. by rewrite Hi.
Qed.

Definition opt_count (c : option node) : nat := match c with Some _ => 1 | None => 0 end.

Lemma split_child (ch : list (option node)) i :
  (i < length ch)%nat -> ch = take i ch ++ getChild ch i :: drop (S i) ch.
Proof. intros Hi. symmetry. apply take_drop_middle. by apply lookup_getChild. Qed.

Lemma setChild_split (ch : list (option node)) i c :
  (i < length ch)%nat -> setChild ch i c = take i ch ++ c :: drop (S i) ch.
Proof. intros Hi. apply insert_take_drop. done. Qed.

Lemma count_app (c1 c2 : list (option node)) :
  getBranchCount (c1 ++ c2) = (getBranchCount c1 + getBranchCount c2)%nat.
Proof. unfold getBranchCount. by rewrite filter_app, length_app. Qed.

Lemma count_cons (c : option node) ch :
  getBranchCount (c :: ch) = (opt_count c + getBranchCount ch)%nat.
Proof.
  unfold getBranchCount. destruct c.
  - by rewrite filter_cons_True by eauto.
  - by rewrite filter_cons_False by (by intros [??]).
Qed.

Lemma count_setChild (ch : list (option node)) i c :
  (i < length ch)%nat ->
  (getBranchCount (setChild ch i c) + opt_count (getChild ch i) =
   getBranchCount ch + opt_count c)%nat.
Proof.
  intros Hi. rewrite (setChild_split ch i c Hi).
  rewrite (split_child ch i Hi) at 4. rewrite !count_app, !count_cons. lia.
Qed.

Lemma items_setChild (ch : list (option node)) i c :
  (i < length ch)%nat ->
  items_of (setChild ch i c) =
  items_of (take i ch) ++ items_opt c ++ items_of (drop (S i) ch).
Proof. intros Hi. rewrite (setChild_split ch i c Hi). apply items_of_app. Qed.

Lemma items_split (ch : list (option node)) i :
  (i < length ch)%nat ->
  items_of ch = items_of (take i ch) ++ items_opt (getChild ch i) ++ items_of (drop (S i) ch).
Proof. intros Hi. rewrite (split_child ch i Hi) at 1. apply items_of_app. Qed.

Lemma branch_count_two (ch : list (option node)) :
  (2 <= getBranchCount ch)%nat ->
  exists i j c c', i <> j /\ getChild ch i = Some c /\ getChild ch j = Some c'.
Proof.
  intros H2. destruct (branch_count_ge ch 1 H2) as (i & c & Hi).
  pose proof (getChild_lt _ _ _ Hi) as Hlt.
  pose proof (count_setChild ch i None Hlt) as Hc. rewrite Hi in Hc. simpl in Hc.
  destruct (branch_count_ge (setChild ch i None) 0) as (j & c' & Hj); [lia|].
  rewrite getChild_setChild in Hj by done. case_decide; [done|].
  by exists i, j, c, c'.
Qed.

(** Below the root every node has an item, and an inner node two. *)
Lemma wf_items_count ty d p n :
  wf ty d p n -> d <> 0 ->
  (1 <= length (items n))%nat /\ (is_inner n -> 2 <= length (items n))%nat.
Proof.
  induction 1 as [d p item ? ? ? ?|d p ch Hd Hl Hch IH Hb]; intros Hz;
    [split; [simpl; lia|done]|].
  rewrite items_inner. specialize (Hb Hz).
  enough (2 <= length (items_of ch))%nat by (split; [lia|done]).
  destruct Hb as [(i & j & c & c' & Hne & Hi & Hj)%branch_count_two|(i & c & _ & Hi & Hin)].
  - pose proof (getChild_lt _ _ _ Hi) as Hlt. pose proof (getChild_lt _ _ _ Hj) as Hlt'.
    destruct (IH i c Hi ltac:(lia)) as [Hci _], (IH j c' Hj ltac:(lia)) as [Hcj _].
    rewrite (items_split ch i Hlt), Hi, !length_app. simpl.
    assert (1 <= length (items_of (take i ch)) + length (items_of (drop (S i) ch)))%nat;
      [|lia].
    destruct (items c') as [|it l] eqn:Ec; [simpl in Hcj; lia|].
    assert (getChild (setChild ch i None) j = Some c') as Hj'
      by (rewrite getChild_setChild by done; by case_decide).
    assert (it ∈ items_of (setChild ch i None)) as Hit.
    { apply elem_of_items_of. exists j, c'. split; [done|]. rewrite Ec. by left. }
    rewrite items_setChild in Hit by done. simpl in Hit.
    rewrite <-length_app. destruct (items_of (take i ch) ++ _);
      [by apply not_elem_of_nil in Hit|simpl; lia].
  - pose proof (getChild_lt _ _ _ Hi) as Hlt.
    rewrite (items_split ch i Hlt), Hi, !length_app. simpl.
    destruct (IH i c Hi ltac:(lia)) as [_ H2]. specialize (H2 Hin). lia.
Qed.

(** ** Items are sorted by key *)

Definition item_lt (x y : SHAMapItem A) : Prop := item_key x < item_key y.

Lemma StronglySorted_app_intro {B} (R : relation B) l1 l2 :
  StronglySorted R l1 -> StronglySorted R l2 ->
  (forall x y, x ∈ l1 -> y ∈ l2 -> R x y) -> StronglySorted R (l1 ++ l2).
Proof. intros. by apply StronglySorted_app. Qed.

Lemma sorted_children (f : N -> N) (ch : list (option node)) (off : nat) :
  (forall i c, getChild ch i = Some c -> StronglySorted item_lt (items c)) ->
  (forall i c it, getChild ch i = Some c -> it ∈ items c ->
     f (item_key it) = N.of_nat (off + i)) ->
  (forall k k', f k < f k' -> k < k') ->
  StronglySorted item_lt (items_of ch).
Proof.
  intros Hs Hf Hmono. revert off Hf. induction ch as [|oc ch IH]; intros off Hf;
    [constructor|].
  change (items_of (oc :: ch)) with (items_opt oc ++ items_of ch).
  apply StronglySorted_app_intro.
  - destruct oc as [c|]; [|constructor]. by apply (Hs 0%nat).
  - apply (IH (fun i => Hs (S i)) (S off)). intros i c it Hi Hit.
    rewrite (Hf (S i) c it) by done. f_equal. lia.
  - intros x y Hx (j & c' & Hj & Hy)%elem_of_items_of.
    destruct oc as [c|]; [|by apply not_elem_of_nil in Hx].
    apply Hmono. rewrite (Hf 0%nat c x), (Hf (S j) c' y) by done. lia.
Qed.

Lemma wf_sorted ty d p n : wf ty d p n -> StronglySorted item_lt (items n).
Proof.
  induction 1 as [d p item ? ? ? ?|d p ch Hd Hl Hch IH Hb];
    [by repeat constructor|].
  rewrite items_inner.
  apply (sorted_children (fun k => pre k (d + 1) - 16 * p) ch 0); [done| |].
  - intros i c it Hi Hit. destruct (wf_keys _ _ _ _ _ (Hch _ _ Hi) Hit) as [_ ->]. lia.
  - intros k k' Hlt. apply (pre_lt k k' (d + 1)). lia.
Qed.

Lemma sorted_items_unique (l1 l2 : list (SHAMapItem A)) :
  StronglySorted item_lt l1 -> StronglySorted item_lt l2 ->
  (forall x, x ∈ l1 <-> x ∈ l2) -> l1 = l2.
Proof.
  intros H1 H2 Heq.
  assert ((fun x => (item_key x, x)) <$> l1 = (fun x => (item_key x, x)) <$> l2) as E.
  { apply key_sorted_unique; [by apply (StronglySorted_fmap _ item_lt key_lt)..|].
    intros x. rewrite !list_elem_of_fmap. by setoid_rewrite Heq. }
  apply (f_equal (fmap snd)) in E. rewrite <-!list_fmap_compose in E.
  by rewrite !list_fmap_id in E.
Qed.

Lemma sorted_key_inj (l : list (SHAMapItem A)) x y :
  StronglySorted item_lt l -> x ∈ l -> y ∈ l -> item_key x = item_key y -> x = y.
Proof.
  induction 1 as [|z l Hs IH Hall]; intros Hx Hy E; [by apply not_elem_of_nil in Hx|].
  rewrite Forall_forall in Hall. unfold item_lt in Hall.
  apply elem_of_cons in Hx as [->|Hx], Hy as [Ey|Hy]; try done.
  - specialize (Hall _ Hy). lia.
  - subst. specialize (Hall _ Hx). lia.
  - by apply IH.
Qed.

(** ** The shape is determined by the items *)

(** Below the root a leaf and an inner node never hold the same items. *)
Lemma leaf_not_inner ty d p ch item :
  wf ty d p (InnerNode ch) -> d <> 0 -> (forall x, x ∈ [item] <-> x ∈ items (InnerNode ch)) ->
  False.
Proof.
  intros Hwf Hz Heq. destruct (wf_items_count _ _ _ _ Hwf Hz) as [_ Hc].
  specialize (Hc eq_refl).
  assert ([item] = items (InnerNode ch)) as E
    by (apply sorted_items_unique; [by repeat constructor|by eapply wf_sorted|done]).
  rewrite <-E in Hc. simpl in Hc. lia.
Qed.

(** Items of one tree that are items of another sit in the same branch. *)
Lemma branch_transfer ty d p ch ch' i c x :
  wf ty d p (InnerNode ch) -> wf ty d p (InnerNode ch') ->
  getChild ch i = Some c -> x ∈ items c -> x ∈ items (InnerNode ch') ->
  exists c', getChild ch' i = Some c' /\ x ∈ items c'.
Proof.
  intros Hw Hw' Hc Hx Hx'. destruct (elem_of_branch _ _ _ _ _ Hw' Hx') as (c' & Hc' & ?).
  rewrite (wf_nib _ _ _ _ _ _ _ Hw Hc Hx), Nat2N.id in Hc'. eauto.
Qed.

Lemma branch_sub ty d p ch ch' i c :
  wf ty d p (InnerNode ch) -> wf ty d p (InnerNode ch') ->
  (forall x, x ∈ items (InnerNode ch) -> x ∈ items (InnerNode ch')) ->
  getChild ch i = Some c ->
  exists c', getChild ch' i = Some c' /\ forall x, x ∈ items c -> x ∈ items c'.
Proof.
  intros Hw Hw' Hsub Hc.
  assert (forall x, x ∈ items c -> exists c', getChild ch' i = Some c' /\ x ∈ items c') as Ht.
  { intros x Hx. eapply branch_transfer; [exact Hw|done..|].
    apply Hsub, elem_of_items_of. eauto. }
  inversion Hw as [|? ? ? Hd Hl Hch Hb]; subst.
  destruct (wf_items_count _ _ _ _ (Hch _ _ Hc) ltac:(lia)) as [H1 _].
  destruct (items c) as [|y l] eqn:Ey; [simpl in H1; lia|].
  destruct (Ht y ltac:(by left)) as (c' & Hc' & _). exists c'. split; [done|].
  intros x Hx. destruct (Ht x Hx) as (c'' & ? & ?). congruence.
Qed.

Lemma wf_unique ty d p n1 n2 :
  wf ty d p n1 -> wf ty d p n2 -> (d = 0 -> is_inner n1 /\ is_inner n2) ->
  (forall x, x ∈ items n1 <-> x ∈ items n2) -> n1 = n2.
Proof.
  intros Hw1. revert n2.
  induction Hw1 as [d p item|d p ch Hd Hl Hch IH Hb]; intros n2 Hw2 Hroot Heq.
  - destruct n2 as [ty2 item2|ch2]; inversion Hw2; subst.
    + f_equal. symmetry. apply list_elem_of_singleton, Heq. by left.
    + exfalso. destruct (decide (d = 0)) as [->|Hz]; [by destruct Hroot|].
      by eapply leaf_not_inner.
  - assert (wf ty d p (InnerNode ch)) as Hw1 by (by constructor).
    destruct n2 as [ty2 item2|ch2].
    { exfalso. destruct (decide (d = 0)) as [->|Hz];
        [inversion Hw2; subst; by destruct Hroot|].
      eapply leaf_not_inner; [exact Hw1|done|]. intros x. symmetry. apply Heq. }
    inversion Hw2 as [|? ? ? _ Hl2 Hch2 _]; subst. f_equal. apply list_eq. intros i.
    destruct (decide (i < 16)%nat) as [Hi|Hi];
      [|by rewrite !lookup_ge_None_2 by (rewrite ?Hl, ?Hl2; unfold kBranchFactor; lia)].
    rewrite !lookup_getChild by (rewrite ?Hl, ?Hl2; unfold kBranchFactor; lia). f_equal.
    pose proof (branch_sub ty d p ch ch2 i) as H12.
    pose proof (branch_sub ty d p ch2 ch i) as H21.
    destruct (getChild ch i) as [c|] eqn:Hc, (getChild ch2 i) as [c2|] eqn:Hc2; [| | |done].
    + destruct (H12 c) as (? & [= <-] & S12); [done..|by intros; apply Heq|done|].
      destruct (H21 c2) as (? & [= <-] & S21); [done..|by intros; apply Heq|done|].
      f_equal. apply (IH i c Hc); [by apply Hch2|lia|naive_solver].
    + by destruct (H12 c) as (? & [=] & ?); [..|intros; apply Heq|].
    + by destruct (H21 c2) as (? & [=] & ?); [..|intros; apply Heq|].
Qed.

(** ** Paths

    The stack [walkTowardsKey] leaves: the inner nodes from the root down,
    each with an identifier of the right depth. *)
Inductive path (root : node) (key : N) : node -> N -> stack -> Prop :=
| path_root : path root key root 0 []
| path_down ch nid st c :
    path root key (InnerNode ch) (depth_ nid) st -> masked nid -> depth_ nid < 64 ->
    getChild ch (N.to_nat (nib key (depth_ nid))) = Some c ->
    path root key c (depth_ nid + 1) ((InnerNode ch, nid) :: st).

Fixpoint left_ctx (key : N) (st : stack) : list (SHAMapItem A) :=
  match st with
  | (InnerNode ch, nid) :: st =>
      left_ctx key st ++ items_of (take (N.to_nat (nib key (depth_ nid))) ch)
  | _ => []
  end.

Fixpoint right_ctx (key : N) (st : stack) : list (SHAMapItem A) :=
  match st with
  | (InnerNode ch, nid) :: st =>
      items_of (drop (S (N.to_nat (nib key (depth_ nid)))) ch) ++ right_ctx key st
  | _ => []
  end.

Lemma select_nib nid key :
  depth_ nid < 64 -> selectBranch nid key = N.to_nat (nib key (depth_ nid)).
Proof. destruct nid. apply selectBranch_nib. Qed.

Lemma path_items root key n d st :
  path root key n d st -> items root = left_ctx key st ++ items n ++ right_ctx key st.
Proof.
  induction 1 as [|ch nid st c Hp IH Hm Hd Hc]; simpl; [by rewrite app_nil_r|].
  rewrite IH, items_inner, (items_split ch _ (getChild_lt _ _ _ Hc)), Hc.
  simpl. by rewrite <-!app_assoc.
Qed.

Lemma path_wf ty root key n d st :
  wf_map ty root -> key < 2 ^ 256 -> path root key n d st -> wf ty d (pre key d) n.
Proof.
  intros (Hwf & _ & _) Hk Hp. induction Hp as [|ch nid st c Hp IH Hm Hd Hc].
  - by rewrite pre_0.
  - inversion IH as [|? ? ? _ _ Hch _]; subst. specialize (Hch _ _ Hc).
    rewrite N2Nat.id in Hch. by rewrite pre_succ.
Qed.

Lemma path_inner_above root key n d st :
  path root key n d st -> d <> 0 -> exists ch nid st', st = (InnerNode ch, nid) :: st' /\
    path root key (InnerNode ch) (depth_ nid) st' /\ d = depth_ nid + 1.
Proof. intros [|ch nid st' c Hp Hm Hd Hc] Hz; [done|]. by exists ch, nid, st'. Qed.

(** Where the walk stops: at the leaf whose place the key would take, or
    at an inner node with the key's branch empty. *)
Definition stops_at (key d : N) (n : node) (r : option (SHAMapNodeType * SHAMapItem A)) : Prop :=
  match n with
  | LeafNode ty item => r = Some (ty, item)
  | InnerNode ch => r = None /\ getChild ch (N.to_nat (nib key d)) = None
  end.

Lemma walk_spec ty root key fuel n nid st :
  wf_map ty root -> key < 2 ^ 256 -> path root key n (depth_ nid) st -> masked nid ->
  (65 - N.to_nat (depth_ nid) <= fuel)%nat ->
  exists r n' nid' st', walk fuel n nid key st = Ok (r, (n', nid') :: st') /\
    path root key n' (depth_ nid') st' /\ masked nid' /\ stops_at key (depth_ nid') n' r.
Proof.
  intros Hmap Hk. revert n nid st.
  induction fuel as [|fuel IH]; intros n nid st Hp Hm Hf;
    [destruct Hm as [Hm _]; lia|].
  pose proof (path_wf _ _ _ _ _ _ Hmap Hk Hp) as Hwf.
  destruct n as [ty' item|ch]; simpl.
  - exists (Some (ty', item)), (LeafNode ty' item), nid, st. done.
  - inversion Hwf as [|? ? ? Hd Hl Hch Hb]; subst.
    rewrite select_nib by done.
    destruct (getChild ch (N.to_nat (nib key (depth_ nid)))) as [c|] eqn:Hc.
    + pose proof (nib_lt key (depth_ nid)) as Hn.
      destruct (getChildNodeID_Ok nid (N.to_nat (nib key (depth_ nid))))
        as (cid & Ecid & Hcm & Hcd); [done|done|lia|].
      rewrite Ecid. cbn. apply IH; [|done|lia].
      rewrite Hcd. by constructor.
    + exists None, (InnerNode ch), nid, st. done.
Qed.

Lemma walkTowardsKey_spec ty root key :
  wf_map ty root -> key < 2 ^ 256 ->
  exists r n nid st, walkTowardsKey root key = Ok (r, (n, nid) :: st) /\
    path root key n (depth_ nid) st /\ masked nid /\ stops_at key (depth_ nid) n r.
Proof.
  intros Hmap Hk. eapply walk_spec; [done|done|apply path_root|apply masked_root|].
  unfold walk_fuel. simpl. lia.
Qed.

(** ** Rebuilding the path *)

Lemma count_replace (ch : list (option node)) i c c' :
  getChild ch i = Some c -> getBranchCount (setChild ch i (Some c')) = getBranchCount ch.
Proof.
  intros Hc. pose proof (count_setChild ch i (Some c') (getChild_lt _ _ _ Hc)) as H.
  rewrite Hc in H. simpl in H. lia.
Qed.

Lemma wf_replace ty d p ch i c c' :
  wf ty d p (InnerNode ch) -> getChild ch i = Some c -> (is_inner c -> is_inner c') ->
  wf ty (d + 1) (16 * p + N.of_nat i) c' -> wf ty d p (InnerNode (setChild ch i (Some c'))).
Proof.
  intros Hwf Hc Hin Hc'. inversion Hwf as [|? ? ? Hd Hl Hch Hb]; subst.
  pose proof (getChild_lt _ _ _ Hc) as Hlt.
  constructor; [done|by unfold setChild; rewrite length_insert| |].
  - intros j cj. rewrite getChild_setChild by done. case_decide as E; [|apply Hch].
    intros [= <-]. by subst j.
  - intros Hz. specialize (Hb Hz). unfold branching in *.
    rewrite (count_replace _ _ _ _ Hc).
    destruct Hb as [?|(j & cj & H1 & Hj & Hi)]; [by left|right].
    assert (j = i) as -> by (eapply filter_count_le1; [|exact Hj|exact Hc];
      unfold getBranchCount in H1; lia).
    exists i, c'. rewrite getChild_setChild by done. rewrite decide_True by done.
    split_and!; [done|done|]. apply Hin. congruence.
Qed.

Lemma dirtyUp_spec ty root key n d st child :
  wf_map ty root -> key < 2 ^ 256 -> path root key n d st ->
  (is_inner n -> is_inner child) -> wf ty d (pre key d) child ->
  exists root', dirtyUp st key child = Ok root' /\ wf_map ty root' /\
    items root' = left_ctx key st ++ items child ++ right_ctx key st.
Proof.
  intros Hmap Hk Hp. revert child.
  induction Hp as [|ch nid st c Hp IH Hm Hd Hc]; intros child Hin Hwf; simpl.
  - exists child. rewrite app_nil_r. split_and!; try done.
    destruct Hmap as (_ & Hi & Hty). split_and!; [by rewrite pre_0 in Hwf|by apply Hin|done].
  - rewrite select_nib by done.
    pose proof (path_wf _ _ _ _ _ _ Hmap Hk Hp) as Hwfp.
    destruct (IH (InnerNode (setChild ch (N.to_nat (nib key (depth_ nid))) (Some child))))
      as (root' & -> & Hmap' & Hit); [done| |].
    + eapply wf_replace; [done|done|done|]. rewrite N2Nat.id, <-pre_succ by done. done.
    + exists root'. split_and!; [done|done|].
      rewrite Hit, items_inner, items_setChild by (by eapply getChild_lt).
      simpl. by rewrite <-!app_assoc.
Qed.

(** ** Looking up *)

Lemma path_elem ty root key n d st it :
  wf_map ty root -> key < 2 ^ 256 -> path root key n d st ->
  it ∈ items root -> item_key it = key -> it ∈ items n.
Proof.
  intros Hmap Hk Hp Hit E. induction Hp as [|ch nid st c Hp IH Hm Hd Hc]; [done|].
  pose proof (path_wf _ _ _ _ _ _ Hmap Hk Hp) as Hwf.
  destruct (elem_of_branch _ _ _ _ _ Hwf IH) as (c' & Hc' & ?).
  rewrite E in Hc'. congruence.
Qed.

Lemma path_elem_root root key n d st it :
  path root key n d st -> it ∈ items n -> it ∈ items root.
Proof. intros Hp%path_items. rewrite Hp. set_solver. Qed.

(** The key is in the map exactly if the walk stops at its leaf. *)
Lemma stops_absent ty root key n nid st r :
  wf_map ty root -> key < 2 ^ 256 -> path root key n (depth_ nid) st ->
  stops_at key (depth_ nid) n r ->
  (forall ty' item, n = LeafNode ty' item -> item_key item <> key) ->
  forall it, it ∈ items root -> item_key it <> key.
Proof.
  intros Hmap Hk Hp Hst Hne it Hit E.
  pose proof (path_elem _ _ _ _ _ _ _ Hmap Hk Hp Hit E) as Hin.
  destruct n as [ty' item|ch].
  - apply list_elem_of_singleton in Hin as ->. by apply (Hne ty' item).
  - pose proof (path_wf _ _ _ _ _ _ Hmap Hk Hp) as Hwf.
    destruct (elem_of_branch _ _ _ _ _ Hwf Hin) as (c & Hc & _).
    destruct Hst as [_ Hno]. rewrite E in Hc. congruence.
Qed.

Lemma path_leaf_type ty root key ty' item d st :
  wf_map ty root -> key < 2 ^ 256 -> path root key (LeafNode ty' item) d st -> ty' = ty.
Proof.
  intros Hmap Hk Hp. pose proof (path_wf _ _ _ _ _ _ Hmap Hk Hp) as Hwf.
  by inversion Hwf.
Qed.

Lemma findKey_spec ty root key :
  wf_map ty root -> key < 2 ^ 256 ->
  exists r, findKey root key = Ok r /\
    match r with
    | Some (ty', it) => ty' = ty /\ it ∈ items root /\ item_key it = key
    | None => forall it, it ∈ items root -> item_key it <> key
    end.
Proof.
  intros Hmap Hk.
  destruct (walkTowardsKey_spec ty root key Hmap Hk) as (r & n & nid & st & E & Hp & _ & Hst).
  unfold findKey. rewrite E. cbn. eexists. split; [done|].
  destruct n as [ty' item|ch]; simpl in Hst.
  - subst r. destruct (N.eqb_spec (item_key item) key) as [Ek|Ek].
    + split_and!; [by eapply path_leaf_type| |done].
      eapply path_elem_root; [done|by left].
    + eapply stops_absent; [done..|]. by intros ? ? [= <- <-].
  - destruct Hst as [-> Hno]. by eapply (stops_absent ty root key (InnerNode ch)).
Qed.

(** ** Adding *)

Lemma wf_typed ty d p n : wf ty d p n -> d <> 0 -> ty <> TnInner.
Proof.
  induction 1 as [|d p ch Hd Hl Hch IH Hb]; [done|]. intros Hz.
  specialize (Hb Hz).
  assert (exists i c, getChild ch i = Some c) as (i & c & Hc).
  { destruct Hb as [Hb|(i & c & _ & ? & _)]; [by apply branch_count_ge in Hb|eauto]. }
  apply (IH i c Hc). lia.
Qed.

Lemma makeTypedLeaf_Ok ty (item : SHAMapItem A) :
  ty <> TnInner -> makeTypedLeaf ty item = Ok (LeafNode ty item).
Proof. by destruct ty. Qed.

Lemma getChild_empty i : getChild (replicate kBranchFactor (@None node)) i = None.
Proof.
  unfold getChild. destruct (replicate kBranchFactor (@None node) !! i) as [c|] eqn:E; [|done].
  apply lookup_replicate in E as [-> _]. done.
Qed.

Lemma count_empty : getBranchCount (replicate kBranchFactor (@None node)) = 0%nat.
Proof. done. Qed.

Lemma items_setChild_empty b (c : option node) :
  (b < 16)%nat -> items_of (setChild (replicate kBranchFactor None) b c) = items_opt c.
Proof.
  intros Hb.
  assert (forall l : list (option node), Forall (fun c => c = None) l -> items_of l = []) as Hnil.
  { induction 1 as [|? ? ->]; simpl; done. }
  rewrite items_setChild by (rewrite length_replicate; unfold kBranchFactor; lia).
  rewrite !Hnil; [by rewrite app_nil_r| |].
  - by apply Forall_drop, Forall_replicate.
  - by apply Forall_take, Forall_replicate.
Qed.

Definition two_leaves ty (item other : SHAMapItem A) (b1 b2 : nat) : node :=
  InnerNode (setChild (setChild (replicate kBranchFactor None)
    b1 (Some (LeafNode ty item))) b2 (Some (LeafNode ty other))).

Lemma items_two_leaves ty item other b1 b2 :
  (b1 < 16)%nat -> (b2 < 16)%nat -> b1 <> b2 ->
  items (two_leaves ty item other b1 b2) ≡ₚ [item; other].
Proof.
  intros H1 H2 Hne. unfold two_leaves. rewrite items_inner.
  set (ch := setChild (replicate kBranchFactor None) b1 (Some (LeafNode ty item))).
  assert (length ch = 16)%nat as Hl by (unfold ch, setChild; by rewrite length_insert).
  assert (items_of (setChild ch b2 (Some (LeafNode ty other))) ≡ₚ other :: items_of ch) as ->.
  { rewrite items_setChild, (items_split ch b2) by lia.
    assert (getChild ch b2 = None) as ->.
    { unfold ch. rewrite getChild_setChild by done. rewrite decide_False by done.
      apply getChild_empty. }
    simpl. by rewrite Permutation_middle. }
  unfold ch. rewrite items_setChild_empty by done. apply perm_swap.
Qed.

Lemma wf_two_leaves ty d item other :
  ty <> TnInner -> d < 64 -> item_key item < 2 ^ 256 -> item_key other < 2 ^ 256 ->
  pre (item_key item) d = pre (item_key other) d ->
  nib (item_key item) d <> nib (item_key other) d ->
  wf ty d (pre (item_key item) d) (two_leaves ty item other
    (N.to_nat (nib (item_key item) d)) (N.to_nat (nib (item_key other) d))).
Proof.
  intros Hty Hd Hi Ho Hpre Hne.
  assert (N.to_nat (nib (item_key item) d) < 16)%nat as Hb1
    by (pose proof (nib_lt (item_key item) d); lia).
  assert (N.to_nat (nib (item_key other) d) < 16)%nat as Hb2
    by (pose proof (nib_lt (item_key other) d); lia).
  assert (forall b : nat, (b < 16)%nat -> (b < length (replicate kBranchFactor (@None node)))%nat)
    as Hlen by (intros; rewrite length_replicate; unfold kBranchFactor; lia).
  constructor; [done|by unfold setChild; rewrite !length_insert| |].
  - intros i c. rewrite getChild_setChild
      by (unfold setChild; rewrite length_insert; apply Hlen; lia).
    case_decide as E2; [|rewrite getChild_setChild by (apply Hlen; lia); case_decide as E1].
    + intros [= <-]. subst i. constructor; try done; [lia|].
      rewrite pre_succ, N2Nat.id by done. congruence.
    + intros [= <-]. subst i. constructor; try done; [lia|].
      by rewrite pre_succ, N2Nat.id by done.
    + by rewrite getChild_empty.
  - intros _. left.
    set (ch := setChild (replicate kBranchFactor None) _ _).
    pose proof (count_setChild (replicate kBranchFactor None)
      (N.to_nat (nib (item_key item) d)) (Some (LeafNode ty item))
      (Hlen _ Hb1)) as Hc1.
    rewrite getChild_empty, count_empty in Hc1. fold ch in Hc1.
    assert (length ch = 16)%nat as Hl by (unfold ch, setChild; by rewrite length_insert).
    pose proof (count_setChild ch (N.to_nat (nib (item_key other) d))
      (Some (LeafNode ty other)) ltac:(by rewrite Hl)) as Hc2.
    assert (getChild ch (N.to_nat (nib (item_key other) d)) = None) as Hn.
    { unfold ch. rewrite getChild_setChild by (by apply Hlen).
      rewrite decide_False by (by intros ?%N2Nat.inj). apply getChild_empty. }
    rewrite Hn in Hc2. cbn [opt_count] in *. lia.
Qed.

(** An inner node with a single inner child, as [split_loop] stacks them. *)
Lemma wf_chain ty d p b (chain : node) :
  d < 64 -> (b < 16)%nat -> is_inner chain -> wf ty (d + 1) (16 * p + N.of_nat b) chain ->
  wf ty d p (InnerNode (setChild (replicate kBranchFactor None) b (Some chain))) /\
  items (InnerNode (setChild (replicate kBranchFactor None) b (Some chain))) = items chain.
Proof.
  intros Hd Hb Hin Hwf.
  assert (b < length (replicate kBranchFactor (@None node)))%nat as Hlen
    by (rewrite length_replicate; unfold kBranchFactor; lia).
  split.
  - constructor; [done|by unfold setChild; rewrite length_insert| |].
    + intros i c. rewrite getChild_setChild by done. case_decide as E.
      * intros [= <-]. by subst i.
      * by rewrite getChild_empty.
    + intros _. right. exists b, chain. rewrite getChild_setChild by done.
      rewrite decide_True by done. split_and!; try done.
      pose proof (count_setChild (replicate kBranchFactor None) b (Some chain) Hlen) as Hc.
      rewrite getChild_empty, count_empty in Hc. cbn [opt_count] in Hc. lia.
  - by rewrite items_inner, items_setChild_empty.
Qed.

Lemma split_spec ty fuel nid (item other : SHAMapItem A) st :
  ty <> TnInner -> item_key item < 2 ^ 256 -> item_key other < 2 ^ 256 ->
  item_key item <> item_key other -> masked nid ->
  pre (item_key item) (depth_ nid) = pre (item_key other) (depth_ nid) ->
  (65 - N.to_nat (depth_ nid) <= fuel)%nat ->
  exists b1 b2 st' chain,
    split_loop fuel nid (item_key item) (item_key other) st = Ok (b1, b2, st') /\
    dirtyUp st' (item_key item) (two_leaves ty item other b1 b2) =
      dirtyUp st (item_key item) chain /\
    wf ty (depth_ nid) (pre (item_key item) (depth_ nid)) chain /\ is_inner chain /\
    items chain ≡ₚ [item; other].
Proof.
  intros Hty Hi Ho Hne. revert nid st.
  induction fuel as [|fuel IH]; intros nid st Hm Hpre Hf; [destruct Hm as [? _]; lia|].
  assert (depth_ nid < 64) as Hd.
  { destruct Hm as [Hd _]. assert (depth_ nid <> 64); [|lia].
    intros E. rewrite E, !pre_64 in Hpre. done. }
  pose proof (nib_lt (item_key item) (depth_ nid)).
  pose proof (nib_lt (item_key other) (depth_ nid)).
  simpl. rewrite !select_nib by done.
  destruct (Nat.eqb_spec (N.to_nat (nib (item_key item) (depth_ nid)))
    (N.to_nat (nib (item_key other) (depth_ nid)))) as [E%N2Nat.inj|E].
  - destruct (getChildNodeID_Ok nid (N.to_nat (nib (item_key item) (depth_ nid))))
      as (cid & -> & Hcm & Hcd); [done|done|lia|]. cbn.
    destruct (IH cid ((emptyMap, nid) :: st)) as (b1 & b2 & st' & chain & -> & Hd' & Hw & Hin & Hit);
      [done|rewrite Hcd, !pre_succ by done; lia|lia|].
    rewrite Hcd, pre_succ in Hw by done.
    destruct (wf_chain ty (depth_ nid) (pre (item_key item) (depth_ nid))
      (N.to_nat (nib (item_key item) (depth_ nid))) chain) as [Hwc Hic];
      [done|lia|done|by rewrite N2Nat.id|].
    exists b1, b2, st', (InnerNode (setChild (replicate kBranchFactor None)
      (N.to_nat (nib (item_key item) (depth_ nid))) (Some chain))).
    split_and!; [done| |done|done|by rewrite Hic].
    rewrite Hd'. simpl. by rewrite select_nib.
  - exists (N.to_nat (nib (item_key item) (depth_ nid))),
      (N.to_nat (nib (item_key other) (depth_ nid))), st, (two_leaves ty item other
      (N.to_nat (nib (item_key item) (depth_ nid))) (N.to_nat (nib (item_key other) (depth_ nid)))).
    split_and!; [done|done| |done|apply items_two_leaves; [lia..|done]].
    apply wf_two_leaves; try done. intros E'. by rewrite E' in E.
Qed.

Lemma wf_add_branch ty d p ch b item :
  wf ty d p (InnerNode ch) -> getChild ch b = None -> (b < 16)%nat -> ty <> TnInner ->
  item_key item < 2 ^ 256 -> pre (item_key item) (d + 1) = 16 * p + N.of_nat b ->
  wf ty d p (InnerNode (setChild ch b (Some (LeafNode ty item)))) /\
  items (InnerNode (setChild ch b (Some (LeafNode ty item)))) ≡ₚ item :: items (InnerNode ch).
Proof.
  intros Hwf Hc Hb Hty Hk Hpre. inversion Hwf as [|? ? ? Hd Hl Hch Hbr]; subst.
  assert (b < length ch)%nat as Hlt by (rewrite Hl; done).
  split.
  - constructor; [done|by unfold setChild; rewrite length_insert| |].
    + intros i c. rewrite getChild_setChild by done. case_decide as E; [|apply Hch].
      intros [= <-]. subst i. constructor; try done. lia.
    + intros Hz. left. pose proof (count_setChild ch b (Some (LeafNode ty item)) Hlt) as Hcnt.
      rewrite Hc in Hcnt. cbn [opt_count] in Hcnt.
      assert (1 <= getBranchCount ch)%nat; [|lia].
      destruct (Hbr Hz) as [?|(? & ? & ? & _)]; lia.
  - rewrite !items_inner, items_setChild, (items_split ch b), Hc by done. simpl.
    by rewrite Permutation_middle.
Qed.

Lemma addGiveItem_spec ty root item :
  wf_map ty root -> item_key item < 2 ^ 256 ->
  exists root' b, addGiveItem root ty item = Ok (root', b) /\
    if b then wf_map ty root' /\ items root' ≡ₚ item :: items root /\
              (forall it, it ∈ items root -> item_key it <> item_key item)
    else root' = root /\ exists it, it ∈ items root /\ item_key it = item_key item.
Proof.
  intros Hmap Hk. pose proof Hmap as (_ & _ & Hty).
  destruct (walkTowardsKey_spec ty root (item_key item) Hmap Hk)
    as (r & n & nid & st & E & Hp & Hm & Hst).
  pose proof (path_wf _ _ _ _ _ _ Hmap Hk Hp) as Hwf.
  pose proof (path_items _ _ _ _ _ Hp) as Hit.
  unfold addGiveItem. rewrite E. cbn [mbind result_bind]. rewrite !makeTypedLeaf_Ok by done.
  destruct n as [ty' other|ch].
  - destruct (N.eqb_spec (item_key other) (item_key item)) as [Ek|Ek].
    { exists root, false. split; [done|]. split; [done|]. exists other.
      split; [|done]. eapply path_elem_root; [done|by left]. }
    rewrite makeTypedLeaf_Ok by done. inversion Hwf as [? ? ? ? Hd Hok Hpre|]; subst ty'.
    destruct (split_spec ty walk_fuel nid item other st)
      as (b1 & b2 & st' & chain & -> & Hdu & Hw & Hin & Hic); try done;
      [unfold walk_fuel; lia|].
    cbn [mbind result_bind]. fold (two_leaves ty item other b1 b2). rewrite Hdu.
    destruct (dirtyUp_spec ty root (item_key item) (LeafNode ty other) (depth_ nid) st chain)
      as (root' & -> & Hmap' & Hit'); try done.
    exists root', true. split; [done|]. split_and!; [done| |].
    + rewrite Hit', Hic, Hit. simpl. by rewrite <-Permutation_middle.
    + eapply stops_absent; [done..|]. by intros ? ? [= <- <-].
  - destruct Hst as [-> Hno]. inversion Hwf as [|? ? ? Hd Hl Hch Hb]; subst.
    cbn [mbind result_bind]. rewrite select_nib by done.
    pose proof (nib_lt (item_key item) (depth_ nid)).
    destruct (wf_add_branch ty _ _ ch (N.to_nat (nib (item_key item) (depth_ nid))) item Hwf)
      as [Hwf' Hic]; [done|lia|done|done|by rewrite pre_succ, N2Nat.id|].
    destruct (dirtyUp_spec ty root (item_key item) (InnerNode ch) (depth_ nid) st
      (InnerNode (setChild ch (N.to_nat (nib (item_key item) (depth_ nid)))
        (Some (LeafNode ty item))))) as (root' & -> & Hmap' & Hit'); try done.
    exists root', true. split; [done|]. split_and!; [done| |].
    + rewrite Hit', Hic, Hit. by rewrite <-app_comm_cons, <-Permutation_middle.
    + eapply (stops_absent ty root (item_key item) (InnerNode ch) nid st None); done.
Qed.

(** ** Deleting *)

Lemma length_omap_id (ch : list (option node)) :
  length (omap (fun c => c) ch) = getBranchCount ch.
Proof.
  induction ch as [|[c|] ch IH]; [done|..]; rewrite count_cons; csimpl; [by rewrite IH|done].
Qed.

Lemma elem_of_omap_id (ch : list (option node)) c :
  c ∈ omap (fun c => c) ch <-> exists i, getChild ch i = Some c.
Proof.
  rewrite list_elem_of_omap. split.
  - intros (oc & Hin & ->). apply list_elem_of_lookup in Hin as [i Hi].
    exists i. unfold getChild. by rewrite Hi.
  - intros [i Hi]. exists (Some c). split; [|done]. unfold getChild in Hi.
    apply list_elem_of_lookup. exists i. destruct (ch !! i) as [[]|]; by simplify_eq/=.
Qed.

(** With one branch, that branch holds every item. *)
Lemma one_branch (ch : list (option node)) :
  getBranchCount ch = 1%nat ->
  exists i c, omap (fun c => c) ch = [c] /\ getChild ch i = Some c /\ items_of ch = items c.
Proof.
  intros Hc. rewrite <-length_omap_id in Hc.
  destruct (omap (fun c => c) ch) as [|c [|? ?]] eqn:E; try (simpl in Hc; lia).
  assert (c ∈ omap (fun c => c) ch) as [i Hi]%elem_of_omap_id by (rewrite E; by left).
  exists i, c. split_and!; [done|done|].
  clear Hc Hi i. revert E. induction ch as [|[c'|] ch IH]; [done|..]; simpl.
  - intros [= -> E]. change (items_of (Some c :: ch)) with (items c ++ items_of ch).
    assert (items_of ch = []) as ->; [|by rewrite app_nil_r].
    clear IH. induction ch as [|[c'|] ch IH]; [done|done|]. by apply IH.
  - apply IH.
Qed.

Lemma onlyBelow_inner ty fuel d p n :
  wf ty d p n -> is_inner n -> d <> 0 -> (65 - N.to_nat d <= fuel)%nat ->
  onlyBelow fuel n = Ok None.
Proof.
  intros Hwf. revert fuel. induction Hwf as [|d p ch Hd Hl Hch IH Hb]; [done|].
  intros fuel _ Hz Hf. destruct fuel as [|fuel]; [lia|]. simpl.
  specialize (Hb Hz). pose proof (length_omap_id ch) as Hlen.
  destruct Hb as [Hb|(i & c & H1 & Hi & Hin)].
  - destruct (omap _ ch) as [|? [|? ?]]; simpl in Hlen; [done|lia|done].
  - destruct (one_branch ch H1) as (j & c' & -> & Hj & _).
    assert (j = i) as -> by (eapply filter_count_le1; [|exact Hj|exact Hi];
      unfold getBranchCount in H1; lia).
    simplify_eq. apply (IH i c Hi); [done|lia|lia].
Qed.

Lemma path_depth0 root key n st : path root key n 0 st -> n = root /\ st = [].
Proof.
  intros Hp. remember 0 as d eqn:Hd. destruct Hp as [|ch nid st c]; [done|lia].
Qed.

Lemma no_branch (ch : list (option node)) : getBranchCount ch = 0%nat -> items_of ch = [].
Proof.
  induction ch as [|[c|] ch IH]; [done|..]; rewrite count_cons; cbn [opt_count];
    [lia|]. intros H. by apply IH.
Qed.

(** The children after the branch of the key is set to [prev]. *)
Lemma wf_children_set ty d p ch b prev :
  wf ty d p (InnerNode ch) -> (b < 16)%nat ->
  (forall c, prev = Some c -> wf ty (d + 1) (16 * p + N.of_nat b) c) ->
  length (setChild ch b prev) = kBranchFactor /\
  forall i c, getChild (setChild ch b prev) i = Some c ->
    wf ty (d + 1) (16 * p + N.of_nat i) c.
Proof.
  intros Hwf Hb Hprev. inversion Hwf as [|? ? ? Hd Hl Hch _]; subst. split.
  - unfold setChild. by rewrite length_insert.
  - intros i c. rewrite getChild_setChild by (by rewrite Hl). case_decide as E; [|apply Hch].
    subst i. apply Hprev.
Qed.

Lemma del_loop_spec ty root key n d st prev r0 :
  wf_map ty root -> key < 2 ^ 256 -> path root key n d st -> d <> 0 ->
  (forall c, prev = Some c -> wf ty d (pre key d) c) ->
  exists root', del_loop st key ty prev r0 = Ok root' /\ wf_map ty root' /\
    items root' = left_ctx key st ++ items_opt prev ++ right_ctx key st.
Proof.
  intros Hmap Hk Hp. pose proof Hmap as (_ & _ & Hty). revert prev r0.
  induction Hp as [|ch nid st c Hp IH Hm Hd Hc]; intros prev r0 Hz Hprev; [done|].
  pose proof (path_wf _ _ _ _ _ _ Hmap Hk Hp) as Hwf. clear Hz.
  set (b := N.to_nat (nib key (depth_ nid))).
  assert (b < 16)%nat as Hb by (unfold b; pose proof (nib_lt key (depth_ nid)); lia).
  inversion Hwf as [|? ? ? _ Hl _ _]; subst.
  destruct (wf_children_set ty (depth_ nid) (pre key (depth_ nid)) ch b prev Hwf Hb) as [Hl' Hch'].
  { intros c' Hc'. unfold b. rewrite N2Nat.id, <-pre_succ by done. by apply Hprev. }
  assert (items_of (setChild ch b prev) = items_of (take b ch) ++ items_opt prev ++
    items_of (drop (S b) ch)) as Hitems by (apply items_setChild; rewrite Hl; done).
  cbn [del_loop left_ctx right_ctx]. rewrite select_nib by done. fold b.
  assert (forall prev', (forall c, prev' = Some c -> wf ty (depth_ nid) (pre key (depth_ nid)) c) ->
    items_opt prev' = items_of (setChild ch b prev) -> depth_ nid <> 0 ->
    exists root', del_loop st key ty prev' r0 = Ok root' /\ wf_map ty root' /\
      items root' = (left_ctx key st ++ items_of (take b ch)) ++ items_opt prev ++
        items_of (drop (S b) ch) ++ right_ctx key st) as Hup.
  { intros prev' Hw' Hi' Hz'. destruct (IH prev' r0 Hz' Hw') as (root' & ? & ? & Hr).
    exists root'. split_and!; try done. rewrite Hr, Hi', Hitems. by rewrite <-!app_assoc. }
  destruct (isRoot nid) eqn:Hroot.
  - apply N.eqb_eq in Hroot. rewrite Hroot in *.
    apply path_depth0 in Hp as [<- ->]. eexists. split; [done|]. split.
    + split_and!; [|done|done]. constructor; [done|done| |done].
      intros i c' Hi. specialize (Hch' i c' Hi). by rewrite pre_0 in Hch'.
    + cbn [left_ctx right_ctx]. by rewrite items_inner, Hitems, app_nil_r.
  - apply N.eqb_neq in Hroot.
    assert (branching (setChild ch b prev) -> wf ty (depth_ nid) (pre key (depth_ nid))
      (InnerNode (setChild ch b prev))) as Hkeep by (intros ?; by constructor).
    destruct (getBranchCount (setChild ch b prev)) as [|[|cnt]] eqn:Hcnt.
    + apply Hup; [done| |done]. symmetry. by apply no_branch.
    + destruct (one_branch _ Hcnt) as (i & c' & Ho & Hi & Hic).
      assert (onlyBelow walk_fuel (InnerNode (setChild ch b prev)) =
        onlyBelow 64 c') as -> by (unfold walk_fuel; cbn [onlyBelow]; by rewrite Ho).
      pose proof (Hch' _ _ Hi) as Hwc. destruct c' as [lty item|ch''].
      * inversion Hwc as [? ? ? ? _ Hik Hpre|]; subst. cbn.
        rewrite makeTypedLeaf_Ok by done. cbn. apply Hup; [|by rewrite Hic|done].
        intros ? [= <-]. constructor; try done; [lia|].
        rewrite pre_succ in Hpre by done. pose proof (nib_lt (item_key item) (depth_ nid)).
        apply getChild_lt in Hi. rewrite Hl' in Hi. unfold kBranchFactor in Hi. lia.
      * rewrite (onlyBelow_inner ty 64 _ _ _ Hwc) by (done || lia). cbn.
        apply Hup; [|done|done].
        intros ? [= <-]. apply Hkeep. right. by exists i, (InnerNode ch'').
    + apply Hup; [|done|done]. intros ? [= <-]. apply Hkeep. left. lia.
Qed.

Lemma delItem_spec ty root key :
  wf_map ty root -> key < 2 ^ 256 ->
  exists root' b, delItem root key = Ok (root', b) /\
    if b then wf_map ty root' /\
              exists it, item_key it = key /\ items root ≡ₚ it :: items root'
    else root' = root /\ forall it, it ∈ items root -> item_key it <> key.
Proof.
  intros Hmap Hk. pose proof Hmap as (_ & Hri & Hty).
  destruct (walkTowardsKey_spec ty root key Hmap Hk) as (r & n & nid & st & E & Hp & Hm & Hst).
  unfold delItem. rewrite E. cbn [mbind result_bind].
  destruct n as [ty' item|ch].
  - pose proof (path_leaf_type _ _ _ _ _ _ _ Hmap Hk Hp) as ->.
    destruct (N.eqb_spec (item_key item) key) as [Ek|Ek].
    + assert (depth_ nid <> 0) as Hz.
      { intros Ez. rewrite Ez in Hp. by apply path_depth0 in Hp as [<- _]. }
      destruct (del_loop_spec ty root key _ _ st None root Hmap Hk Hp Hz)
        as (root' & -> & Hmap' & Hit'); [done|].
      exists root', true. split; [done|]. split; [done|]. exists item. split; [done|].
      rewrite (path_items _ _ _ _ _ Hp), Hit'. simpl. by rewrite Permutation_middle.
    + exists root, false. split; [done|]. split; [done|].
      eapply stops_absent; [done..|]. by intros ? ? [= <- <-].
  - exists root, false. split; [done|]. split; [done|].
    by eapply (stops_absent ty root key (InnerNode ch) nid st r).
Qed.

(** ** Replacing *)

(** The item does not collide with the one it replaces. *)
Definition no_clash {H : Type} (leafHash : N -> A -> H) root item : Prop :=
  forall old, old ∈ items root -> item_key old = item_key item ->
    leafHash (item_key item) (item_data old) = leafHash (item_key item) (item_data item) ->
    item_data old = item_data item.

Lemma updateGiveItem_spec {H : Type} `{EqDecision H} (leafHash : N -> A -> H) ty root item :
  no_clash leafHash root item ->
  wf_map ty root -> item_key item < 2 ^ 256 ->
  exists root' b, updateGiveItem leafHash root ty item = Ok (root', b) /\
    if b then wf_map ty root' /\
              exists old l, item_key old = item_key item /\
                items root ≡ₚ old :: l /\ items root' ≡ₚ item :: l
    else root' = root /\ forall it, it ∈ items root -> item_key it <> item_key item.
Proof.
  intros Hinj Hmap Hk. pose proof Hmap as (_ & Hri & Hty).
  destruct (walkTowardsKey_spec ty root (item_key item) Hmap Hk)
    as (r & n & nid & st & E & Hp & Hm & Hst).
  pose proof (path_items _ _ _ _ _ Hp) as Hit.
  pose proof (path_wf _ _ _ _ _ _ Hmap Hk Hp) as Hwf.
  unfold updateGiveItem. rewrite E. cbn [mbind result_bind].
  destruct n as [ty' old|ch].
  - pose proof (path_leaf_type _ _ _ _ _ _ _ Hmap Hk Hp) as ->.
    inversion Hwf as [? ? ? _ Hd Hok Hpre|]; subst.
    rewrite (bool_decide_eq_true_2 (ty = ty)) by done. cbn [negb].
    destruct (N.eqb_spec (item_key old) (item_key item)) as [Ek|Ek]; cbn [negb].
    + assert (items root ≡ₚ old :: left_ctx (item_key item) st ++ right_ctx (item_key item) st)
        as Hperm by (rewrite Hit; simpl; by rewrite Permutation_middle).
      case_bool_decide as Eh.
      * exists root, true. split; [done|]. split; [done|]. exists old. eexists.
        split_and!; [done|exact Hperm|]. rewrite Ek in Eh. apply Hinj in Eh; [|rewrite Hperm; by left|done].
        destruct old, item; simpl in *; subst. exact Hperm.
      * destruct (dirtyUp_spec ty root (item_key item) _ _ st (LeafNode ty item) Hmap Hk Hp)
          as (root' & -> & Hmap' & Hit'); [done|by constructor|].
        exists root', true. split; [done|]. split; [done|]. exists old. eexists.
        split_and!; [done|exact Hperm|]. rewrite Hit'. simpl. by rewrite Permutation_middle.
    + exists root, false. split; [done|]. split; [done|].
      eapply stops_absent; [done..|]. by intros ? ? [= <- <-].
  - exists root, false. split; [done|]. split; [done|].
    by eapply (stops_absent ty root (item_key item) (InnerNode ch) nid st r).
Qed.

(** ** Ordered traversal *)

Lemma path_change root key key' n d st :
  path root key n d st -> pre key d = pre key' d -> path root key' n d st.
Proof.
  induction 1 as [|ch nid st c Hp IH Hm Hd Hc]; intros Hpre; [constructor|].
  rewrite !pre_succ in Hpre by done.
  pose proof (nib_lt key (depth_ nid)). pose proof (nib_lt key' (depth_ nid)).
  constructor; [apply IH; lia|done|done|].
  assert (nib key' (depth_ nid) = nib key (depth_ nid)) as -> by lia. done.
Qed.

Lemma right_ctx_change root key key' n d st :
  path root key n d st -> pre key d = pre key' d -> right_ctx key st = right_ctx key' st.
Proof.
  induction 1 as [|ch nid st c Hp IH Hm Hd Hc]; intros Hpre; [done|].
  rewrite !pre_succ in Hpre by done.
  pose proof (nib_lt key (depth_ nid)). pose proof (nib_lt key' (depth_ nid)). simpl.
  assert (nib key' (depth_ nid) = nib key (depth_ nid)) as -> by lia.
  f_equal. apply IH. lia.
Qed.

(** Scanning branches [k] to [k + m - 1] finds the first items there. *)
Lemma next_branch_spec (ch : list (option node)) k m :
  length ch = (k + m)%nat ->
  match next_branch (seq k m) ch with
  | Some (i, c) => (k <= i)%nat /\ getChild ch i = Some c /\
      items_of (drop k ch) = items c ++ items_of (drop (S i) ch)
  | None => items_of (drop k ch) = []
  end.
Proof.
  revert k. induction m as [|m IH]; intros k Hl; simpl.
  - rewrite drop_ge by lia. done.
  - assert (items_of (drop k ch) = items_opt (getChild ch k) ++ items_of (drop (S k) ch)) as E.
    { rewrite (drop_S ch (getChild ch k)) by (apply lookup_getChild; lia). done. }
    destruct (getChild ch k) as [c|] eqn:Hc; [split_and!; [lia|done|done]|].
    specialize (IH (S k) ltac:(lia)). rewrite E. simpl.
    destruct (next_branch (seq (S k) m) ch) as [[i c]|]; [|done].
    destruct IH as (? & ? & ?). split_and!; [lia|done|done].
Qed.

Lemma first_branch_next order (ch : list (option node)) :
  first_branch order ch = option_map snd (next_branch order ch).
Proof. induction order as [|i order IH]; [done|]. simpl. by destruct (getChild ch i). Qed.

(** A stack that ends in the leaf of [item]. *)
Definition at_leaf root ty (item : SHAMapItem A) (st : stack) : Prop :=
  exists lid d st', st = (LeafNode ty item, lid) :: st' /\
    path root (item_key item) (LeafNode ty item) d st'.

Lemma path_child ty root key ch nid st i c it :
  wf_map ty root -> key < 2 ^ 256 -> path root key (InnerNode ch) (depth_ nid) st ->
  masked nid -> getChild ch i = Some c -> it ∈ items c ->
  path root (item_key it) c (depth_ nid + 1) ((InnerNode ch, nid) :: st) /\
  item_key it < 2 ^ 256 /\ pre key (depth_ nid) = pre (item_key it) (depth_ nid).
Proof.
  intros Hmap Hk Hp Hm Hc Hit. pose proof (path_wf _ _ _ _ _ _ Hmap Hk Hp) as Hwf.
  inversion Hwf as [|? ? ? Hd _ _ _]; subst.
  assert (it ∈ items (InnerNode ch)) as Hin by (apply elem_of_items_of; eauto).
  destruct (wf_keys _ _ _ _ _ Hwf Hin) as [? Hpre]. split_and!; [|done|done].
  constructor; [by eapply path_change|done|done|].
  by rewrite (wf_nib _ _ _ _ _ _ _ Hwf Hc Hit), Nat2N.id.
Qed.

(** [belowHelper] with a scanning order that finds the end of the item
    list [pick] selects: [firstBelow] and [lastBelow] are its instances. *)
Section below.
Context (order : list nat) (pick : list (SHAMapItem A) -> option (SHAMapItem A)).
Hypothesis pick_one : forall x, pick [x] = Some x.
Hypothesis pick_spec : forall ch : list (option node), length ch = kBranchFactor ->
  match next_branch order ch with
  | Some (i, c) => getChild ch i = Some c /\
      (items c <> [] -> pick (items_of ch) = pick (items c))
  | None => items_of ch = []
  end.

Lemma below_spec ty root fuel key ch nid st branch :
  wf_map ty root -> key < 2 ^ 256 -> path root key (InnerNode ch) (depth_ nid) st ->
  masked nid -> (branch < 16)%nat -> (65 - N.to_nat (depth_ nid) <= fuel)%nat ->
  items (InnerNode ch) <> [] ->
  exists item st', below_loop fuel order branch ch ((InnerNode ch, nid) :: st) =
      Ok (Some item, st') /\
    pick (items (InnerNode ch)) = Some item /\ at_leaf root ty item st'.
Proof.
  intros Hmap. revert key ch nid st.
  induction fuel as [|fuel IH]; intros key ch nid st Hk Hp Hm Hb Hf Hne;
    [destruct Hm as [? _]; lia|].
  pose proof (path_wf _ _ _ _ _ _ Hmap Hk Hp) as Hwf.
  inversion Hwf as [|? ? ? Hd Hl Hch _]; subst.
  cbn [below_loop]. rewrite first_branch_next. pose proof (pick_spec ch Hl) as Hn.
  destruct (next_branch order ch) as [[i c]|]; [|done].
  destruct Hn as (Hc & Hpick). cbn [option_map snd]. specialize (Hch _ _ Hc).
  destruct (wf_items_count _ _ _ _ Hch ltac:(lia)) as [Hpos _].
  destruct (items c) as [|it l] eqn:Ec; [simpl in Hpos; lia|].
  destruct (path_child ty root key ch nid st i c it) as (Hpc & Hik & _); try done;
    [rewrite Ec; by left|].
  rewrite items_inner, Hpick by done. destruct c as [lty item|ch'].
  - inversion Hch; subst. injection Ec as -> <-.
    exists it. eexists. split_and!; [done|done|]. by repeat eexists.
  - destruct (getChildNodeID_Ok nid branch) as (cid & -> & Hcm & Hcd); [done|done|done|].
    cbn [mbind result_bind].
    destruct (IH (item_key it) ch' cid ((InnerNode ch, nid) :: st))
      as (item & st' & -> & Hh & Hat); [done|by rewrite Hcd|done|done|lia|by rewrite Ec|].
    exists item, st'. split_and!; [done| |done]. by rewrite Ec in Hh.
Qed.

Lemma belowHelper_spec ty root key ch nid st i c :
  wf_map ty root -> key < 2 ^ 256 -> path root key (InnerNode ch) (depth_ nid) st ->
  masked nid -> getChild ch i = Some c ->
  exists item st', belowHelper order c ((InnerNode ch, nid) :: st) i = Ok (Some item, st') /\
    pick (items c) = Some item /\ at_leaf root ty item st'.
Proof.
  intros Hmap Hk Hp Hm Hc. pose proof (path_wf _ _ _ _ _ _ Hmap Hk Hp) as Hwf.
  inversion Hwf as [|? ? ? Hd Hl Hch _]; subst. specialize (Hch _ _ Hc).
  destruct (wf_items_count _ _ _ _ Hch ltac:(lia)) as [Hpos _].
  destruct (items c) as [|it l] eqn:Ec; [simpl in Hpos; lia|].
  destruct (path_child ty root key ch nid st i c it) as (Hpc & Hik & _); try done;
    [rewrite Ec; by left|].
  unfold belowHelper. destruct c as [lty item|ch'].
  - inversion Hch; subst. injection Ec as -> <-.
    exists it. eexists. split_and!; [done|done|]. by repeat eexists.
  - assert (i < 16)%nat as Hi by (apply getChild_lt in Hc; by rewrite Hl in Hc).
    destruct (getChildNodeID_Ok nid i) as (cid & -> & Hcm & Hcd); [done|done|done|].
    cbn [mbind result_bind]. rewrite <-Ec.
    apply (below_spec ty root walk_fuel (item_key it)); try done.
    + by rewrite Hcd.
    + unfold walk_fuel. lia.
    + by rewrite Ec.
Qed.
End below.

(** Scanning branches downwards finds the last items below branch [k]. *)
Lemma prev_branch_spec (ch : list (option node)) k :
  (k <= length ch)%nat ->
  match next_branch (reverse (seq 0 k)) ch with
  | Some (i, c) => (i < k)%nat /\ getChild ch i = Some c /\
      items_of (take k ch) = items_of (take i ch) ++ items c
  | None => items_of (take k ch) = []
  end.
Proof.
  induction k as [|k IH]; intros Hk; [done|].
  rewrite seq_S, reverse_app. simpl.
  assert (items_of (take (S k) ch) = items_of (take k ch) ++ items_opt (getChild ch k)) as E.
  { rewrite (take_S_r ch k (getChild ch k)) by (apply lookup_getChild; lia).
    rewrite items_of_app. simpl. by rewrite app_nil_r. }
  destruct (getChild ch k) as [c|] eqn:Hc; [split_and!; [lia|done|done]|].
  rewrite E. simpl. rewrite app_nil_r. specialize (IH ltac:(lia)).
  destruct (next_branch (reverse (seq 0 k)) ch) as [[i c]|]; [|done].
  destruct IH as (? & ? & ?). split_and!; [lia|done|done].
Qed.

Lemma first_order_spec (ch : list (option node)) :
  length ch = kBranchFactor ->
  match next_branch (seq 0 17) ch with
  | Some (i, c) => getChild ch i = Some c /\
      (items c <> [] -> head (items_of ch) = head (items c))
  | None => items_of ch = []
  end.
Proof.
  intros Hl. pose proof (next_branch_spec ch 0 16 Hl) as Hn. rewrite drop_0 in Hn.
  assert (next_branch (seq 0 17) ch = next_branch (seq 0 16) ch) as ->.
  { assert (getChild ch 16 = None) as H16.
    { unfold getChild. rewrite lookup_ge_None_2; [done|]. rewrite Hl. done. }
    change (seq 0 17) with (seq 0 16 ++ [16%nat]). clear Hn.
    induction (seq 0 16) as [|i l IH]; simpl; [by rewrite H16|]. by destruct (getChild ch i). }
  destruct (next_branch (seq 0 16) ch) as [[i c]|]; [|done].
  destruct Hn as (_ & Hc & ->). split; [done|]. by destruct (items c).
Qed.

Lemma last_app_ne {B} (l1 l2 : list B) : l2 <> [] -> last (l1 ++ l2) = last l2.
Proof.
  intros Hne. rewrite last_app. destruct (last l2) eqn:E; [done|].
  by apply last_None in E.
Qed.

Lemma last_order_spec (ch : list (option node)) :
  length ch = kBranchFactor ->
  match next_branch (reverse (seq 0 16)) ch with
  | Some (i, c) => getChild ch i = Some c /\
      (items c <> [] -> last (items_of ch) = last (items c))
  | None => items_of ch = []
  end.
Proof.
  intros Hl. pose proof (prev_branch_spec ch 16 ltac:(by rewrite Hl)) as Hn.
  rewrite take_ge in Hn by (by rewrite Hl).
  destruct (next_branch (reverse (seq 0 16)) ch) as [[i c]|]; [|done].
  destruct Hn as (_ & Hc & ->). split; [done|]. apply last_app_ne.
Qed.

Definition firstBelow_spec := belowHelper_spec (seq 0 17) head (fun _ => eq_refl) first_order_spec.
Definition lastBelow_spec :=
  belowHelper_spec (reverse (seq 0 16)) last (fun _ => eq_refl) last_order_spec.

(** Items left of the path have smaller keys, items right of it larger. *)
Lemma branch_order ty d p ch key :
  wf ty d p (InnerNode ch) -> pre key d = p ->
  (forall it, it ∈ items_of (take (N.to_nat (nib key d)) ch) -> item_key it < key) /\
  (forall it, it ∈ items_of (drop (S (N.to_nat (nib key d))) ch) -> key < item_key it).
Proof.
  intros Hwf Hpre. inversion Hwf as [|? ? ? Hd _ Hch _]; subst.
  assert (forall i c it, getChild ch i = Some c -> it ∈ items c ->
    pre (item_key it) (d + 1) = 16 * pre key d + N.of_nat i) as Hkey.
  { intros i c it Hc Hit. by destruct (wf_keys _ _ _ _ _ (Hch _ _ Hc) Hit). }
  split; intros it (i & c & Hc & Hit)%elem_of_items_of; unfold getChild in Hc.
  - destruct (decide (i < N.to_nat (nib key d))%nat) as [Hi|Hi];
      [|by rewrite lookup_take_ge in Hc by lia].
    rewrite lookup_take_lt in Hc by done. apply (pre_lt _ _ (d + 1)).
    rewrite (Hkey _ _ _ Hc Hit), pre_succ by done. lia.
  - rewrite lookup_drop in Hc. apply (pre_lt _ _ (d + 1)).
    rewrite (Hkey _ _ _ Hc Hit), pre_succ by done. lia.
Qed.

Lemma ctx_order ty root key n d st :
  wf_map ty root -> key < 2 ^ 256 -> path root key n d st ->
  (forall it, it ∈ left_ctx key st -> item_key it < key) /\
  (forall it, it ∈ right_ctx key st -> key < item_key it).
Proof.
  intros Hmap Hk. induction 1 as [|ch nid st c Hp IH Hm Hd Hc]; simpl.
  - split; by intros it ?%not_elem_of_nil.
  - pose proof (path_wf _ _ _ _ _ _ Hmap Hk Hp) as Hwf. destruct IH as [IHl IHr].
    destruct (branch_order _ _ _ _ _ Hwf eq_refl) as [Hl Hr].
    split; intros it [?|?]%elem_of_app; eauto.
Qed.

(** What [peekNextItem] finds from an inner node on the path of [key]. *)
Definition after_node (key : N) (ch : list (option node)) (nid : SHAMapNodeID) (st : stack)
    : list (SHAMapItem A) :=
  items_of (drop (S (N.to_nat (nib key (depth_ nid)))) ch) ++ right_ctx key st.

(** The scan of one inner node of the path. *)
Lemma scan_node ty root key ch nid st :
  wf_map ty root -> key < 2 ^ 256 -> path root key (InnerNode ch) (depth_ nid) st ->
  masked nid ->
  match next_branch (branches_after (selectBranch nid key)) ch with
  | Some (i, c) => exists item st',
      firstBelow c ((InnerNode ch, nid) :: st) i = Ok (Some item, st') /\
      head (after_node key ch nid st) = Some item /\ at_leaf root ty item st'
  | None => after_node key ch nid st = right_ctx key st
  end.
Proof.
  intros Hmap Hk Hp Hm. pose proof (path_wf _ _ _ _ _ _ Hmap Hk Hp) as Hwf.
  inversion Hwf as [|? ? ? Hd Hl _ _]; subst. rewrite select_nib by done.
  pose proof (nib_lt key (depth_ nid)) as Hn. unfold branches_after, after_node.
  pose proof (next_branch_spec ch (S (N.to_nat (nib key (depth_ nid))))
    (15 - N.to_nat (nib key (depth_ nid)))) as Hs.
  unfold kBranchFactor in Hl. specialize (Hs ltac:(lia)).
  destruct (next_branch _ ch) as [[i c]|]; [|by rewrite Hs].
  destruct Hs as (_ & Hc & ->).
  destruct (firstBelow_spec ty root key ch nid st i c) as (item & st' & ? & Hh & ?); try done.
  exists item, st'. split_and!; try done. by destruct (items c).
Qed.

Lemma next_loop_spec ty root key n d st :
  wf_map ty root -> key < 2 ^ 256 -> path root key n d st ->
  exists r st', next_loop key st = Ok (r, st') /\ upper_loop key st = Ok (r, st') /\
    r = head (right_ctx key st) /\
    match r with Some item => at_leaf root ty item st' | None => st' = [] end.
Proof.
  intros Hmap Hk Hp. induction Hp as [|ch nid st c Hp IH Hm Hd Hc]; [by exists None, []|].
  pose proof (scan_node ty root key ch nid st Hmap Hk Hp Hm) as Hs.
  cbn [next_loop upper_loop].
  destruct (next_branch _ ch) as [[i c']|].
  - destruct Hs as (item & st' & -> & Hh & Hat). cbn [mbind result_bind].
    exists (Some item), st'. split_and!; done.
  - change (right_ctx key ((InnerNode ch, nid) :: st)) with (after_node key ch nid st).
    rewrite Hs. done.
Qed.

Definition is_upper (l : list (SHAMapItem A)) (id : N) (r : option (SHAMapItem A)) : Prop :=
  match r with
  | Some x => x ∈ l /\ id < item_key x /\
      forall y, y ∈ l -> id < item_key y -> item_key x <= item_key y
  | None => forall y, y ∈ l -> item_key y <= id
  end.

Lemma is_upper_split (l1 l2 : list (SHAMapItem A)) id :
  StronglySorted item_lt (l1 ++ l2) -> (forall x, x ∈ l1 -> item_key x <= id) ->
  (forall x, x ∈ l2 -> id < item_key x) -> is_upper (l1 ++ l2) id (head l2).
Proof.
  intros Hs H1 H2. destruct l2 as [|x l2]; simpl.
  - rewrite app_nil_r. done.
  - split_and!; [set_solver|apply H2; by left|].
    intros y [Hy|[->|Hy]%elem_of_cons]%elem_of_app Hlt; [specialize (H1 _ Hy); lia|lia|].
    apply StronglySorted_app_1_r in Hs. inversion Hs as [|? ? _ Hall]; subst.
    rewrite Forall_forall in Hall. specialize (Hall _ Hy). unfold item_lt in Hall. lia.
Qed.

Lemma upperBound_spec ty root id :
  wf_map ty root -> id < 2 ^ 256 ->
  exists r st, upperBound root id = Ok (r, st) /\ is_upper (items root) id r /\
    match r with Some item => at_leaf root ty item st | None => st = [] end.
Proof.
  intros Hmap Hk. pose proof (wf_sorted _ _ _ _ (proj1 Hmap)) as Hsort.
  destruct (walkTowardsKey_spec ty root id Hmap Hk) as (r & n & nid & st & E & Hp & Hm & Hst).
  pose proof (path_wf _ _ _ _ _ _ Hmap Hk Hp) as Hwf.
  pose proof (path_items _ _ _ _ _ Hp) as Hit.
  destruct (ctx_order _ _ _ _ _ _ Hmap Hk Hp) as [Hleft Hright].
  assert (forall it, it ∈ left_ctx id st -> item_key it <= id) as Hleft'
    by (intros it ?%Hleft; lia).
  destruct (next_loop_spec ty root id _ _ st Hmap Hk Hp) as (r' & st' & _ & Hu & Hr & Hat).
  unfold upperBound. rewrite E. cbn [mbind result_bind upper_loop].
  destruct n as [ty' item|ch].
  - pose proof (path_leaf_type _ _ _ _ _ _ _ Hmap Hk Hp) as ->.
    destruct (N.ltb_spec id (item_key item)) as [Hlt|Hge].
    + exists (Some item). eexists. split; [done|]. split.
      * rewrite Hit in Hsort |- *. simpl in Hsort |- *.
        apply (is_upper_split _ (item :: right_ctx id st)); [done|done|].
        intros x [->|Hx]%elem_of_cons; [done|by apply Hright].
      * destruct (wf_keys _ _ _ _ item Hwf ltac:(by left)) as [_ Hpre].
        exists nid, (depth_ nid), st. split; [done|]. by eapply path_change.
    + rewrite Hu. exists r', st'. split_and!; [done| |done]. subst r'.
      rewrite Hit in Hsort |- *. rewrite app_assoc in Hsort |- *.
      apply is_upper_split; [done| |done].
      intros x [Hx|Hx]%elem_of_app; [by apply Hleft'|].
      apply list_elem_of_singleton in Hx as ->. done.
  - destruct Hst as [_ Hno]. inversion Hwf as [|? ? ? Hd Hl _ _]; subst.
    destruct (branch_order _ _ _ _ _ Hwf eq_refl) as [Hbl Hbr].
    assert (is_upper (items root) id (head (after_node id ch nid st))) as Hup.
    { rewrite Hit, items_inner, (items_split ch (N.to_nat (nib id (depth_ nid)))), Hno
        in Hsort |- * by (rewrite Hl; pose proof (nib_lt id (depth_ nid)); unfold kBranchFactor; lia).
      simpl in Hsort |- *. rewrite <-app_assoc, app_assoc in Hsort |- *.
      apply is_upper_split; [done| |].
      - intros x [?|Hx%Hbl]%elem_of_app; [by apply Hleft'|lia].
      - intros x [?|?]%elem_of_app; eauto. }
    pose proof (scan_node ty root id ch nid st Hmap Hk Hp Hm) as Hs.
    destruct (next_branch _ ch) as [[i c]|].
    + destruct Hs as (item & st'' & -> & Hh & Hat'). cbn [mbind result_bind].
      exists (Some item), st''. split_and!; [done|by rewrite <-Hh|done].
    + rewrite Hu. eexists _, st'. split_and!; [done| |done]. by rewrite <-Hs.
Qed.

(** *** The other direction *)

Definition before_node (key : N) (ch : list (option node)) (nid : SHAMapNodeID) (st : stack)
    : list (SHAMapItem A) :=
  left_ctx key st ++ items_of (take (N.to_nat (nib key (depth_ nid))) ch).

Lemma scan_node_before ty root key ch nid st :
  wf_map ty root -> key < 2 ^ 256 -> path root key (InnerNode ch) (depth_ nid) st ->
  masked nid ->
  match next_branch (branches_before (selectBranch nid key)) ch with
  | Some (i, c) => exists item st',
      lastBelow c ((InnerNode ch, nid) :: st) i = Ok (Some item, st') /\
      last (before_node key ch nid st) = Some item /\ at_leaf root ty item st'
  | None => before_node key ch nid st = left_ctx key st
  end.
Proof.
  intros Hmap Hk Hp Hm. pose proof (path_wf _ _ _ _ _ _ Hmap Hk Hp) as Hwf.
  inversion Hwf as [|? ? ? Hd Hl _ _]; subst. rewrite select_nib by done.
  pose proof (nib_lt key (depth_ nid)) as Hn. unfold branches_before, before_node.
  pose proof (prev_branch_spec ch (N.to_nat (nib key (depth_ nid)))) as Hs.
  rewrite Hl in Hs. unfold kBranchFactor in Hs. specialize (Hs ltac:(lia)).
  destruct (next_branch _ ch) as [[i c]|]; [|by rewrite Hs, app_nil_r].
  destruct Hs as (_ & Hc & ->).
  destruct (lastBelow_spec ty root key ch nid st i c) as (item & st' & ? & Hh & ?); try done.
  exists item, st'. split_and!; try done.
  rewrite !last_app_ne; [done|by intros E; rewrite E in Hh|].
  intros E. apply app_eq_nil in E as [_ E]. by rewrite E in Hh.
Qed.

Lemma lower_loop_spec ty root key n d st :
  wf_map ty root -> key < 2 ^ 256 -> path root key n d st ->
  exists r st', lower_loop key st = Ok (r, st') /\ r = last (left_ctx key st) /\
    match r with Some item => at_leaf root ty item st' | None => st' = [] end.
Proof.
  intros Hmap Hk Hp. induction Hp as [|ch nid st c Hp IH Hm Hd Hc]; [by exists None, []|].
  pose proof (scan_node_before ty root key ch nid st Hmap Hk Hp Hm) as Hs.
  cbn [lower_loop]. destruct (next_branch _ ch) as [[i c']|].
  - destruct Hs as (item & st' & -> & Hh & Hat). cbn [mbind result_bind].
    exists (Some item), st'. split_and!; done.
  - change (left_ctx key ((InnerNode ch, nid) :: st)) with (before_node key ch nid st).
    rewrite Hs. done.
Qed.

Definition is_lower (l : list (SHAMapItem A)) (id : N) (r : option (SHAMapItem A)) : Prop :=
  match r with
  | Some x => x ∈ l /\ item_key x < id /\
      forall y, y ∈ l -> item_key y < id -> item_key y <= item_key x
  | None => forall y, y ∈ l -> id <= item_key y
  end.

Lemma is_lower_split (l1 l2 : list (SHAMapItem A)) id :
  StronglySorted item_lt (l1 ++ l2) -> (forall x, x ∈ l1 -> item_key x < id) ->
  (forall x, x ∈ l2 -> id <= item_key x) -> is_lower (l1 ++ l2) id (last l1).
Proof.
  intros Hs H1 H2. destruct l1 as [|x l1 _] using rev_ind; simpl; [done|].
  rewrite last_snoc. simpl. split_and!; [set_solver|apply H1; set_solver|].
  intros y [[Hy| ->%list_elem_of_singleton]%elem_of_app|Hy]%elem_of_app Hlt;
    [|lia|specialize (H2 _ Hy); lia].
  apply StronglySorted_app_1_l in Hs.
  pose proof (StronglySorted_app_1_elem_of _ _ _ y x Hs Hy ltac:(by left)) as Hyx.
  unfold item_lt in Hyx. lia.
Qed.

Lemma lowerBound_spec ty root id :
  wf_map ty root -> id < 2 ^ 256 ->
  exists r st, lowerBound root id = Ok (r, st) /\ is_lower (items root) id r /\
    match r with Some item => at_leaf root ty item st | None => st = [] end.
Proof.
  intros Hmap Hk. pose proof (wf_sorted _ _ _ _ (proj1 Hmap)) as Hsort.
  destruct (walkTowardsKey_spec ty root id Hmap Hk) as (r & n & nid & st & E & Hp & Hm & Hst).
  pose proof (path_wf _ _ _ _ _ _ Hmap Hk Hp) as Hwf.
  pose proof (path_items _ _ _ _ _ Hp) as Hit.
  destruct (ctx_order _ _ _ _ _ _ Hmap Hk Hp) as [Hleft Hright].
  assert (forall it, it ∈ right_ctx id st -> id <= item_key it) as Hright'
    by (intros it ?%Hright; lia).
  destruct (lower_loop_spec ty root id _ _ st Hmap Hk Hp) as (r' & st' & Hu & Hr & Hat).
  unfold lowerBound. rewrite E. cbn [mbind result_bind lower_loop].
  destruct n as [ty' item|ch].
  - pose proof (path_leaf_type _ _ _ _ _ _ _ Hmap Hk Hp) as ->.
    rewrite Hit in Hsort |- *. simpl in Hsort |- *.
    destruct (N.ltb_spec (item_key item) id) as [Hlt|Hge].
    + exists (Some item). eexists. split; [done|]. split.
      * rewrite cons_middle, app_assoc in Hsort |- *. rewrite <-(last_snoc item (left_ctx id st)).
        apply is_lower_split; [done| |done].
        intros x [Hx| ->%list_elem_of_singleton]%elem_of_app; [by apply Hleft|done].
      * destruct (wf_keys _ _ _ _ item Hwf ltac:(by left)) as [_ Hpre].
        exists nid, (depth_ nid), st. split; [done|]. by eapply path_change.
    + rewrite Hu. exists r', st'. split_and!; [done| |done]. subst r'.
      apply is_lower_split; [done|done|].
      intros x [->|Hx]%elem_of_cons; [done|by apply Hright'].
  - destruct Hst as [_ Hno]. inversion Hwf as [|? ? ? Hd Hl _ _]; subst.
    destruct (branch_order _ _ _ _ _ Hwf eq_refl) as [Hbl Hbr].
    assert (is_lower (items root) id (last (before_node id ch nid st))) as Hup.
    { rewrite Hit, items_inner, (items_split ch (N.to_nat (nib id (depth_ nid)))), Hno
        in Hsort |- * by (rewrite Hl; pose proof (nib_lt id (depth_ nid)); unfold kBranchFactor; lia).
      simpl in Hsort |- *. rewrite <-app_assoc, app_assoc in Hsort |- *.
      apply is_lower_split; [done| |].
      - intros x [?|?]%elem_of_app; eauto.
      - intros x [Hx%Hbr|?]%elem_of_app; [lia|by apply Hright']. }
    pose proof (scan_node_before ty root id ch nid st Hmap Hk Hp Hm) as Hs.
    destruct (next_branch _ ch) as [[i c]|].
    + destruct Hs as (item & st'' & -> & Hh & Hat'). cbn [mbind result_bind].
      exists (Some item), st''. split_and!; [done|by rewrite <-Hh|done].
    + rewrite Hu. eexists _, st'. split_and!; [done| |done]. by rewrite <-Hs.
Qed.

(** A sorted list splits at an element in one way. *)
Lemma sorted_split_unique (l1 l2 r1 r2 : list (SHAMapItem A)) x :
  StronglySorted item_lt (l1 ++ x :: r1) -> l1 ++ x :: r1 = l2 ++ x :: r2 -> r1 = r2.
Proof.
  revert l2. induction l1 as [|y l1 IH]; intros [|z l2] Hs E; simpl in *;
    [by injection E|..]; injection E as E1 E2;
    inversion Hs as [|? ? Hs' Hall]; subst; rewrite Forall_forall in Hall; unfold item_lt in Hall.
  - specialize (Hall z ltac:(set_solver)). lia.
  - specialize (Hall x ltac:(set_solver)). lia.
  - by apply (IH l2).
Qed.

Lemma iterate_spec ty root fuel item st :
  wf_map ty root -> at_leaf root ty item st -> item_key item < 2 ^ 256 ->
  forall l r, items root = l ++ item :: r -> (length r < fuel)%nat ->
  iterate fuel (Some item, st) = Ok (item :: r).
Proof.
  intros Hmap. revert item st.
  induction fuel as [|fuel IH]; intros item st Hat Hk l r Hl Hf; [lia|].
  destruct Hat as (lid & d & st' & -> & Hp). cbn [iterate fst snd].
  unfold peekNextItem. cbn [tail].
  destruct (next_loop_spec ty root (item_key item) _ _ _ Hmap Hk Hp)
    as (o & st'' & -> & _ & Ho & Hat). cbn [mbind result_bind].
  pose proof (wf_sorted _ _ _ _ (proj1 Hmap)) as Hs.
  pose proof (path_items _ _ _ _ _ Hp) as Hi. simpl in Hi.
  assert (r = right_ctx (item_key item) st') as Hr.
  { apply (sorted_split_unique l (left_ctx (item_key item) st') _ _ item); congruence. }
  rewrite <-Hr in Ho. destruct r as [|item' r]; simpl in Ho; subst o.
  - destruct fuel; done.
  - rewrite (IH item' st'' Hat) with (l := l ++ [item]) (r := r); [done| | |simpl in Hf; lia].
    + assert (item' ∈ items root) as Hin by (rewrite Hl; set_solver).
      by destruct (wf_keys _ _ _ _ _ (proj1 Hmap) Hin).
    + by rewrite <-app_assoc.
Qed.

Lemma begin_spec ty root :
  wf_map ty root ->
  exists cur, peekFirstItem root = Ok cur /\
    iterate (length (items root)) cur = Ok (items root).
Proof.
  intros Hmap. pose proof Hmap as (Hwf & Hin & _).
  destruct root as [lty item|ch]; [by inversion Hwf; subst|].
  unfold peekFirstItem, firstBelow, belowHelper. cbn [mbind result_bind].
  destruct (items (InnerNode ch)) as [|item r] eqn:Ei.
  - inversion Hwf as [|? ? ? Hd Hl Hch _]; subst. unfold walk_fuel. cbn [below_loop].
    assert (first_branch (seq 0 17) ch = None) as ->.
    { rewrite first_branch_next. pose proof (first_order_spec ch Hl) as Hn.
      destruct (next_branch (seq 0 17) ch) as [[i c]|]; [|done].
      destruct Hn as (Hc & Hit). rewrite <-items_inner, Ei in Hit.
      destruct (wf_items_count _ _ _ _ (Hch _ _ Hc) ltac:(lia)) as [Hpos _].
      destruct (items c); [simpl in Hpos; lia|by specialize (Hit ltac:(done))]. }
    by eexists.
  - destruct (below_spec (seq 0 17) head (fun _ => eq_refl) first_order_spec
      ty (InnerNode ch) walk_fuel 0 ch rootID [] 0)
      as (item' & st' & -> & Hh & Hat);
      [done|done|apply path_root|apply masked_root|lia|unfold walk_fuel; simpl; lia|by rewrite Ei|].
    rewrite Ei in Hh. injection Hh as <-. eexists. split; [done|].
    apply (iterate_spec ty (InnerNode ch)) with (l := []); try done.
    + assert (item ∈ items (InnerNode ch)) as Hi by (rewrite Ei; by left).
      by destruct (wf_keys _ _ _ _ _ Hwf Hi).
    + simpl. lia.
Qed.
End spec.
