(* ===== verification/SHAMapMap.v ===== *)
(** * The map a SHAMap denotes

    A well-formed tree is a finite map from 256-bit keys to item data; the
    operations of [SHAMap] are the operations of that map.  This is the
    interface the ledger is verified against. *)

From S2P Require Import Prelude SHAMapNodeID SHAMap SHAMapSpec.

Local Open Scope N_scope.

Section SHAMapMap.
Context {A : Type}.
Implicit Types (root : SHAMapTreeNode A) (item : SHAMapItem A).

Definition item_pair item : N * A := (item_key item, item_data item).

Definition item_map root : gmap N A := list_to_map (item_pair <$> items root).

Lemma items_NoDup ty root : wf_map ty root -> NoDup (item_pair <$> items root).*1.
Proof.
  intros [Hwf _]. pose proof (wf_sorted _ _ _ _ Hwf) as Hs.
  induction Hs as [|x l Hs IH Hall]; csimpl; [constructor|].
  apply NoDup_cons. split; [|done]. rewrite Forall_forall in Hall.
  intros (p & Hk & (y & Hp & Hy)%list_elem_of_fmap_1)%list_elem_of_fmap_1.
  specialize (Hall _ Hy). unfold item_lt in Hall. subst p. simpl in Hk. lia.
Qed.

Lemma item_map_Some ty root k d :
  wf_map ty root -> item_map root !! k = Some d <-> mkItem k d ∈ items root.
Proof.
  intros Hwf. unfold item_map. rewrite <-elem_of_list_to_map by by eapply items_NoDup.
  rewrite list_elem_of_fmap. split.
  - intros ([k' d'] & [= -> ->] & ?). done.
  - intros ?. by exists (mkItem k d).
Qed.

Lemma item_map_elem ty root item :
  wf_map ty root -> item ∈ items root -> item_map root !! item_key item = Some (item_data item).
Proof. intros Hwf ?. eapply item_map_Some; [done|]. by destruct item. Qed.

Lemma item_map_None ty root k :
  wf_map ty root -> (forall it, it ∈ items root -> item_key it <> k) -> item_map root !! k = None.
Proof.
  intros Hwf Hn. apply eq_None_not_Some. intros [d Hd].
  by eapply Hn; [eapply item_map_Some|].
Qed.

Lemma item_map_bound ty root k d :
  wf_map ty root -> item_map root !! k = Some d -> k < 2 ^ 256.
Proof.
  intros Hwf Hd. rewrite item_map_Some in Hd by done.
  by destruct (wf_keys _ _ _ _ _ (proj1 Hwf) Hd).
Qed.

Lemma item_map_perm root l :
  items root ≡ₚ l -> NoDup (item_pair <$> l).*1 -> item_map root = list_to_map (item_pair <$> l).
Proof.
  intros Hp Hnd. unfold item_map. apply list_to_map_proper; [|by rewrite Hp].
  by rewrite Hp.
Qed.

(** The in-order list of items is the map's bindings in key order. *)
Lemma items_ordered ty root :
  wf_map ty root -> item_pair <$> items root = ordered (item_map root).
Proof.
  intros Hwf. apply key_sorted_unique.
  - pose proof (wf_sorted _ _ _ _ (proj1 Hwf)) as Hs.
    induction Hs as [|x l Hs IH Hall]; csimpl; constructor; [done|].
    apply Forall_forall. intros ? (y & -> & Hy)%list_elem_of_fmap.
    exact (proj1 (Forall_forall _ _) Hall _ Hy).
  - apply ordered_sorted.
  - intros [k d]. rewrite elem_of_ordered. unfold item_map.
    by rewrite elem_of_list_to_map by by eapply items_NoDup.
Qed.

(** The order of the empty tree. *)
Lemma emptyMap_wf ty : ty <> TnInner -> wf_map ty (@emptyMap A).
Proof.
  intros Hty. split_and!; [|done|done]. constructor; [lia|done| |lia].
  intros i c. by rewrite getChild_empty.
Qed.

Lemma emptyMap_map : item_map (@emptyMap A) = ∅.
Proof. done. Qed.

(** ** Operations *)

Lemma peekItem_map ty root k :
  wf_map ty root -> k < 2 ^ 256 -> peekItem root k = Ok (mkItem k <$> item_map root !! k).
Proof.
  intros Hwf Hk. destruct (findKey_spec ty root k Hwf Hk) as (r & E & Hr).
  unfold peekItem. rewrite E. cbn [mbind result_bind]. f_equal.
  destruct r as [[ty' it]|]; simpl.
  - destruct Hr as (-> & Hin & <-). rewrite (item_map_elem _ _ _ Hwf Hin). by destruct it.
  - by rewrite (item_map_None _ _ _ Hwf Hr).
Qed.

Lemma hasItem_map ty root k :
  wf_map ty root -> k < 2 ^ 256 -> hasItem root k = Ok (bool_decide (is_Some (item_map root !! k))).
Proof.
  intros Hwf Hk. destruct (findKey_spec ty root k Hwf Hk) as (r & E & Hr).
  unfold hasItem. rewrite E. cbn [mbind result_bind]. f_equal.
  destruct r as [[ty' it]|]; simpl.
  - destruct Hr as (-> & Hin & <-). by rewrite (item_map_elem _ _ _ Hwf Hin).
  - by rewrite (item_map_None _ _ _ Hwf Hr).
Qed.

Lemma addGiveItem_map ty root item :
  wf_map ty root -> item_key item < 2 ^ 256 ->
  match item_map root !! item_key item with
  | Some _ => addGiveItem root ty item = Ok (root, false)
  | None => exists root', addGiveItem root ty item = Ok (root', true) /\ wf_map ty root' /\
      item_map root' = <[item_key item := item_data item]> (item_map root)
  end.
Proof.
  intros Hwf Hk. destruct (addGiveItem_spec ty root item Hwf Hk) as (root' & b & E & Hb).
  rewrite E. destruct b.
  - destruct Hb as (Hwf' & Hp & Hn). rewrite (item_map_None _ _ _ Hwf Hn).
    exists root'. split_and!; [done|done|].
    rewrite (item_map_perm _ _ Hp); [done|]. rewrite <-Hp. by eapply items_NoDup.
  - destruct Hb as (-> & it & Hin & <-). by rewrite (item_map_elem _ _ _ Hwf Hin).
Qed.

Lemma delItem_map ty root k :
  wf_map ty root -> k < 2 ^ 256 ->
  match item_map root !! k with
  | Some _ => exists root', delItem root k = Ok (root', true) /\ wf_map ty root' /\
      item_map root' = delete k (item_map root)
  | None => delItem root k = Ok (root, false)
  end.
Proof.
  intros Hwf Hk. destruct (delItem_spec ty root k Hwf Hk) as (root' & b & E & Hb).
  rewrite E. destruct b.
  - destruct Hb as (Hwf' & it & <- & Hp).
    pose proof (items_NoDup _ _ Hwf) as Hnd. rewrite Hp in Hnd. csimpl in Hnd.
    apply NoDup_cons in Hnd as [Hn Hnd].
    assert (item_map root = <[item_key it := item_data it]> (item_map root')) as Em.
    { rewrite (item_map_perm _ _ Hp); [done|]. rewrite <-Hp. by eapply items_NoDup. }
    rewrite Em, lookup_insert_eq. exists root'. split_and!; [done|done|].
    rewrite delete_insert_id; [done|]. by apply not_elem_of_list_to_map_1.
  - destruct Hb as (-> & Hn). by rewrite (item_map_None _ _ _ Hwf Hn).
Qed.

Lemma updateGiveItem_map {H : Type} `{EqDecision H} (leafHash : N -> A -> H) ty root item :
  no_clash leafHash root item ->
  wf_map ty root -> item_key item < 2 ^ 256 ->
  match item_map root !! item_key item with
  | Some _ => exists root', updateGiveItem leafHash root ty item = Ok (root', true) /\
      wf_map ty root' /\ item_map root' = <[item_key item := item_data item]> (item_map root)
  | None => updateGiveItem leafHash root ty item = Ok (root, false)
  end.
Proof.
  intros Hinj Hwf Hk.
  destruct (updateGiveItem_spec leafHash ty root item Hinj Hwf Hk) as (root' & b & E & Hb).
  rewrite E. destruct b.
  - destruct Hb as (Hwf' & old & l & Hok & Hp & Hp').
    pose proof (items_NoDup _ _ Hwf) as Hnd. rewrite Hp in Hnd.
    pose proof (items_NoDup _ _ Hwf') as Hnd'. rewrite Hp' in Hnd'.
    rewrite (item_map_perm _ _ Hp Hnd). csimpl. rewrite Hok, lookup_insert_eq.
    exists root'. split_and!; [done|done|].
    rewrite (item_map_perm _ _ Hp' Hnd'). csimpl. by rewrite insert_insert_eq.
  - destruct Hb as (-> & Hn). by rewrite (item_map_None _ _ _ Hwf Hn).
Qed.

Lemma upperBound_map ty root id :
  wf_map ty root -> id < 2 ^ 256 ->
  exists r st, upperBound root id = Ok (r, st) /\
    is_succ (fun k => is_Some (item_map root !! k)) id None (item_key <$> r) /\
    iterate (length (items root)) (r, st) =
      Ok (filter (fun it => id < item_key it) (items root)).
Proof.
  intros Hwf Hid. destruct (upperBound_spec ty root id Hwf Hid) as (r & st & E & Hup & Hat).
  exists r, st. split; [done|].
  assert (forall k, is_Some (item_map root !! k) -> exists it, it ∈ items root /\ item_key it = k)
    as Hk. { intros k [d Hd]. rewrite item_map_Some in Hd by done. by exists (mkItem k d). }
  destruct r as [x|]; simpl in *.
  - destruct Hup as (Hin & Hlt & Hmin). split.
    { split_and!; [rewrite (item_map_elem _ _ _ Hwf Hin); eauto|done|done|].
      intros k' (it & Hit & <-)%Hk ?. by apply Hmin. }
    apply list_elem_of_split in Hin as (l & r & Hl).
    pose proof (wf_sorted _ _ _ _ (proj1 Hwf)) as Hs. rewrite Hl in Hs.
    rewrite (iterate_spec ty root _ x st Hwf Hat) with (l := l) (r := r); [|..|done|].
    + f_equal. rewrite Hl, filter_app, filter_cons_True by done.
      rewrite (filter_none _ l); [|]; simpl.
      * f_equal. symmetry. apply filter_all. intros y Hy.
        pose proof (StronglySorted_app_1_r _ _ _ Hs) as Hs'.
        inversion Hs' as [|? ? _ Hall]; subst. rewrite Forall_forall in Hall.
        specialize (Hall _ Hy). unfold item_lt in Hall. lia.
      * intros y Hy Hlty. assert (y ∈ items root) as Hyr by (rewrite Hl; set_solver).
        specialize (Hmin _ Hyr Hlty).
        pose proof (StronglySorted_app_1_elem_of _ _ _ y x Hs Hy ltac:(by left)) as Hyx.
        unfold item_lt in Hyx. lia.
    + assert (x ∈ items root) as Hxr by (rewrite Hl; set_solver).
      by destruct (wf_keys _ _ _ _ _ (proj1 Hwf) Hxr).
    + rewrite Hl, length_app. simpl. lia.
  - subst st. split; [intros k' (it & Hit & <-)%Hk ?; specialize (Hup _ Hit); lia|].
    rewrite (filter_none _ (items root)); [by destruct (length _)|].
    intros y Hy ?. specialize (Hup _ Hy). lia.
Qed.
End SHAMapMap.
