(* ===== verification/SHAMapHash.v ===== *)
(** * Node hashes and serialized nodes

    The Merkle hash of a tree ([updateHash] of the inner node and of the
    three leaf types) and the two binary forms of a node (SHAMapTreeNode.cpp,
    SHAMapInnerNode.cpp, the leaf headers): the wire form, with the type in
    the last byte and sparse inner nodes compressed, and the prefixed form
    the hash is the digest of. *)

From S2P Require Import Prelude LedgerEntry Serializer LedgerHeader SHAMapNodeID SHAMap SHAMapSpec.

Local Open Scope N_scope.

(** The digest of the concatenated bytes ([sha512Half] of digest.h, over
    OpenSSL): a parameter. *)
Class Digest : Type := sha512Half : Blob -> N.

(** [HashPrefix]: TXN, SND, MLN, MIN. *)
Definition kPrefixTransactionId : Z := makeHashPrefix 84 88 78.
Definition kPrefixTxNode : Z := makeHashPrefix 83 78 68.
Definition kPrefixLeafNode : Z := makeHashPrefix 77 76 78.
Definition kPrefixInnerNode : Z := makeHashPrefix 77 73 78.

(** A node on its own: a leaf, or an inner node with the hashes of its
    sixteen branches ([None] where the bit of [isBranch_] is clear). *)
Inductive StoredNode : Type :=
| SLeaf (type : SHAMapNodeType) (item : SHAMapItem Blob)
| SInner (branches : list (option N)).

(** The hashes [iterChildren] passes: zero for an empty branch. *)
Definition iterChildren (branches : list (option N)) : list N := default 0 <$> branches.

(** The non-empty branches with their number. *)
Fixpoint iterNonEmpty (i : nat) (branches : list (option N)) : list (nat * N) :=
  match branches with
  | [] => []
  | Some h :: bs => (i, h) :: iterNonEmpty (S i) bs
  | None :: bs => iterNonEmpty (S i) bs
  end.

Definition storedBranchCount (branches : list (option N)) : nat := length (iterNonEmpty 0 branches).

Definition hash_bytes (h : N) : Blob := be_bytes 32 (Z.of_N h).
Arguments hash_bytes _ : simpl never.

(** ** Serialized forms *)

Definition serializeForWire (n : StoredNode) (s : Serializer) : Serializer :=
  match n with
  | SLeaf TnTransactionNm item => (add8 0 (addRaw (item_data item) s).2).2
  | SLeaf TnTransactionMd item =>
      (add8 4 (add256 (item_key item) (addRaw (item_data item) s).2)).2
  | SLeaf _ item => (add8 1 (add256 (item_key item) (addRaw (item_data item) s).2)).2
  | SInner branches =>
      if (storedBranchCount branches <? 12)%nat then
        (add8 3 (foldl (fun s b => (add8 (Z.of_nat b.1) (add256 b.2 s)).2) s
                   (iterNonEmpty 0 branches))).2
      else (add8 2 (foldl (fun s h => add256 h s) s (iterChildren branches))).2
  end.

Definition serializeWithPrefix (n : StoredNode) (s : Serializer) : Serializer :=
  match n with
  | SLeaf TnTransactionNm item => (addRaw (item_data item) (add32 kPrefixTransactionId s).2).2
  | SLeaf TnTransactionMd item =>
      add256 (item_key item) (addRaw (item_data item) (add32 kPrefixTxNode s).2).2
  | SLeaf _ item =>
      add256 (item_key item) (addRaw (item_data item) (add32 kPrefixLeafNode s).2).2
  | SInner branches =>
      foldl (fun s h => add256 h s) (add32 kPrefixInnerNode s).2 (iterChildren branches)
  end.

Definition kMinShaMapItemBytes : Z := 12.

(** The loop of [makeFullInner]. *)
Fixpoint full_loop (n : nat) (si : SerialIter) : result (list (option N)) :=
  match n with
  | O => Ok []
  | S n =>
      '(h, si) ← get256 si;
      rest ← full_loop n si;
      Ok ((if (h =? 0)%N then None else Some h) :: rest)
  end.

Definition makeFullInner (data : Blob) : result StoredNode :=
  if negb (blob_size data =? 512)%Z then Throw "Invalid FI node"
  else bs ← full_loop kBranchFactor (makeSerialIter data); Ok (SInner bs).

(** The while loop of [makeCompressedInner] over the bits and hashes read so
    far; every pass consumes 33 bytes. *)
Fixpoint compressed_loop (fuel : nat) (si : SerialIter) (acc : list (bool * N))
    : result (list (bool * N)) :=
  if iter_empty si then Ok acc
  else match fuel with
  | O => Throw "out of fuel"
  | S fuel =>
      '(h, si) ← get256 si;
      '(pos, si) ← get8 si;
      if (16 <=? pos)%Z then Throw "invalid CI node"
      else
        let pos := Z.to_nat pos in
        let bit := match acc !! pos with Some (b, _) => b | None => false end in
        compressed_loop fuel si (<[pos := (bit || negb (h =? 0)%N, h)]> acc)
  end.

Definition makeCompressedInner (data : Blob) : result StoredNode :=
  let s := blob_size data in
  if negb (s mod 33 =? 0)%Z || (33 * 16 <? s)%Z then Throw "Invalid CI node"
  else acc ← compressed_loop (length data) (makeSerialIter data)
               (replicate kBranchFactor (false, 0%N));
       Ok (SInner ((fun x : bool * N => if x.1 then Some x.2 else None) <$> acc)).

(** [s.getBitString(tag, s.size() - 32); s.chop(32)]. *)
Definition split_tag (data : Blob) : N * Blob :=
  let n := (length data - 32)%nat in
  (Z.to_N (be_sum (drop n data)), take n data).

Section with_digest.
Context `{Digest}.

Definition makeTransaction (data : Blob) : result StoredNode :=
  if (blob_size data <? kMinShaMapItemBytes)%Z then Throw "Short TXN node"
  else Ok (SLeaf TnTransactionNm
             (mkItem (sha512Half (be_bytes 4 kPrefixTransactionId ++ data)) data)).

Definition makeTransactionWithMeta (data : Blob) : result StoredNode :=
  if (blob_size data <? 32)%Z then Throw "Short TXN+MD node"
  else let '(tag, rest) := split_tag data in
       if (blob_size rest <? kMinShaMapItemBytes)%Z then Throw "Short TXN+MD node"
       else Ok (SLeaf TnTransactionMd (mkItem tag rest)).

Definition makeAccountState (data : Blob) : result StoredNode :=
  if (blob_size data <? 32)%Z then Throw "Short AS node"
  else let '(tag, rest) := split_tag data in
       if (tag =? 0)%N then Throw "Invalid AS node"
       else if (blob_size rest <? kMinShaMapItemBytes)%Z then Throw "Short AS node"
       else Ok (SLeaf TnAccountState (mkItem tag rest)).

(** An empty slice gives a null node. *)
Definition makeFromWire (rawNode : Blob) : result (option StoredNode) :=
  match last rawNode with
  | None => Ok None
  | Some type =>
      let raw := take (length rawNode - 1) rawNode in
      n ← (if (type =? 0)%Z then makeTransaction raw
           else if (type =? 1)%Z then makeAccountState raw
           else if (type =? 2)%Z then makeFullInner raw
           else if (type =? 3)%Z then makeCompressedInner raw
           else if (type =? 4)%Z then makeTransactionWithMeta raw
           else Throw "wire: Unknown type");
      Ok (Some n)
  end.

Definition makeFromPrefix (rawNode : Blob) : result StoredNode :=
  if (blob_size rawNode <? 4)%Z then Throw "prefix: short node"
  else
    let type := be_sum (take 4 rawNode) in
    let raw := drop 4 rawNode in
    if (type =? kPrefixTransactionId)%Z then makeTransaction raw
    else if (type =? kPrefixLeafNode)%Z then makeAccountState raw
    else if (type =? kPrefixInnerNode)%Z then makeFullInner raw
    else if (type =? kPrefixTxNode)%Z then makeTransactionWithMeta raw
    else Throw "prefix: unknown type".

(** ** Hashes *)

Definition leaf_preimage (ty : SHAMapNodeType) (item : SHAMapItem Blob) : Blob :=
  match ty with
  | TnTransactionNm => be_bytes 4 kPrefixTransactionId ++ item_data item
  | TnTransactionMd => be_bytes 4 kPrefixTxNode ++ item_data item ++ hash_bytes (item_key item)
  | _ => be_bytes 4 kPrefixLeafNode ++ item_data item ++ hash_bytes (item_key item)
  end.

Definition inner_preimage (hashes : list N) : Blob :=
  be_bytes 4 kPrefixInnerNode ++ flat_map hash_bytes hashes.

(** [getHash] after [updateHashDeep]; an inner node without branches has
    the zero hash. *)
Fixpoint node_hash (n : SHAMapTreeNode Blob) : N :=
  match n with
  | LeafNode ty item => sha512Half (leaf_preimage ty item)
  | InnerNode ch =>
      if (getBranchCount ch =? 0)%nat then 0
      else sha512Half (inner_preimage
             (map (fun c => match c with Some c => node_hash c | None => 0 end) ch))
  end.
End with_digest.

(** ** Round trips *)

Lemma length_hash_bytes h : length (hash_bytes h) = 32%nat.
Proof. apply length_be_bytes. Qed.

Lemma be_sum_hash_bytes h : is_uint256 h -> be_sum (hash_bytes h) = Z.of_N h.
Proof.
  intros Hh. unfold hash_bytes. rewrite be_sum_be_bytes, Z.mod_small; [done|].
  unfold is_uint256 in Hh. lia.
Qed.

Lemma hash_bytes_inj h1 h2 :
  is_uint256 h1 -> is_uint256 h2 -> hash_bytes h1 = hash_bytes h2 -> h1 = h2.
Proof.
  intros H1 H2 E. apply (f_equal be_sum) in E. rewrite !be_sum_hash_bytes in E by done. lia.
Qed.

Lemma get256_hash pre h rest :
  is_uint256 h ->
  get256 (iter_at pre (hash_bytes h ++ rest)) = Ok (h, iter_at (pre ++ hash_bytes h) rest).
Proof. apply get256_be. Qed.

Lemma add256_bytes h s : data_ (add256 h s) = data_ s ++ hash_bytes h.
Proof. done. Qed.

Lemma fold_add256 hs s :
  data_ (foldl (fun s h => add256 h s) s hs) = data_ s ++ flat_map hash_bytes hs.
Proof.
  revert s. induction hs as [|h hs IH]; intros s; simpl; [by rewrite app_nil_r|].
  by rewrite IH, add256_bytes, <-app_assoc.
Qed.

Definition branch_bytes (b : nat * N) : Blob := hash_bytes b.2 ++ [Z.of_nat b.1].

Lemma fold_branches l s :
  data_ (foldl (fun s b => (add8 (Z.of_nat b.1) (add256 b.2 s)).2) s l) =
  data_ s ++ flat_map branch_bytes l.
Proof.
  revert s. induction l as [|b l IH]; intros s; simpl; [by rewrite app_nil_r|].
  rewrite IH. unfold branch_bytes at 2. simpl. by rewrite <-!app_assoc.
Qed.

Lemma split_tag_app data key :
  is_uint256 key -> split_tag (data ++ hash_bytes key) = (key, data).
Proof.
  intros Hk. unfold split_tag. cbv zeta. rewrite length_app, length_hash_bytes.
  replace (length data + 32 - 32)%nat with (length data) by lia.
  rewrite drop_app_length, take_app_length, be_sum_hash_bytes by done. by rewrite N2Z.id.
Qed.

(** A branch that is set has a proper hash. *)
Definition branch_ok (b : option N) : Prop :=
  match b with Some h => h <> 0 /\ is_uint256 h | None => True end.

Lemma full_loop_spec bs pre rest :
  Forall branch_ok bs ->
  full_loop (length bs) (iter_at pre (flat_map hash_bytes (iterChildren bs) ++ rest)) = Ok bs.
Proof.
  intros Hok. revert pre. induction Hok as [|b bs Hb Hok IH]; intros pre; [done|].
  unfold iterChildren. rewrite fmap_cons. fold (iterChildren bs).
  cbn [flat_map length full_loop]. rewrite <-app_assoc.
  rewrite get256_hash by (destruct b; [apply Hb|done]). cbn [mbind result_bind].
  rewrite IH. cbn [mbind result_bind]. do 2 f_equal. destruct b as [h|]; simpl; [|done].
  destruct (N.eqb_spec h 0) as [->|]; [by destruct Hb|done].
Qed.

Lemma blob_size_flat_map {A} (f : A -> Blob) (n : nat) l :
  (forall x, length (f x) = n) -> blob_size (flat_map f l) = (Z.of_nat n * Z.of_nat (length l))%Z.
Proof.
  intros Hf. unfold blob_size. induction l as [|x l IH]; simpl; [lia|].
  rewrite length_app, Hf. lia.
Qed.

Lemma makeFullInner_spec bs :
  length bs = kBranchFactor -> Forall branch_ok bs ->
  makeFullInner (flat_map hash_bytes (iterChildren bs)) = Ok (SInner bs).
Proof.
  intros Hl Hok. unfold makeFullInner.
  rewrite (blob_size_flat_map _ 32) by apply length_hash_bytes.
  unfold iterChildren at 1. rewrite length_fmap, Hl. cbn [negb Z.eqb kBranchFactor Z.mul].
  pose proof (full_loop_spec bs [] [] Hok) as E. rewrite app_nil_r, Hl in E.
  rewrite makeSerialIter_at. by rewrite E.
Qed.

Definition branch_slot (b : option N) : bool * N :=
  match b with Some h => (true, h) | None => (false, 0) end.

Lemma fold_slots bs (pre : list (bool * N)) :
  foldl (fun acc (b : nat * N) => <[b.1 := (true, b.2)]> acc)
    (pre ++ replicate (length bs) (false, 0)) (iterNonEmpty (length pre) bs) =
  pre ++ (branch_slot <$> bs).
Proof.
  revert pre. induction bs as [|b bs IH]; intros pre; [done|].
  specialize (IH (pre ++ [branch_slot b])). rewrite length_app, Nat.add_1_r in IH.
  rewrite <-!app_assoc in IH. rewrite fmap_cons. cbn [app length replicate] in *.
  rewrite <-IH. destruct b as [h|]; cbn [iterNonEmpty foldl fst snd branch_slot]; [|done].
  by rewrite insert_app_r_alt, Nat.sub_diag by lia.
Qed.

Lemma iterNonEmpty_elem i bs b :
  b ∈ iterNonEmpty i bs -> (i <= b.1 < i + length bs)%nat /\ Some b.2 ∈ bs.
Proof.
  revert i. induction bs as [|[h|] bs IH]; intros i; simpl; [by intros ?%not_elem_of_nil|..].
  - intros [->|Hin]%elem_of_cons; simpl; [split; [lia|by left]|].
    destruct (IH _ Hin). split; [lia|by right].
  - intros Hin. destruct (IH _ Hin). split; [lia|by right].
Qed.

Lemma iterNonEmpty_length i bs : (length (iterNonEmpty i bs) <= length bs)%nat.
Proof.
  revert i. induction bs as [|[h|] bs IH]; intros i; simpl; [lia|specialize (IH (S i)); lia..].
Qed.

(** One chunk read: a set bit stays set. *)
Definition put_slot (acc : list (bool * N)) (b : nat * N) : list (bool * N) :=
  <[b.1 := ((match acc !! b.1 with Some (bit, _) => bit | None => false end) || negb (b.2 =? 0), b.2)]> acc.

Lemma compressed_loop_any l pre acc fuel :
  (forall b, b ∈ l -> (b.1 < 16)%nat /\ is_uint256 b.2) -> (length l <= fuel)%nat ->
  compressed_loop fuel (iter_at pre (flat_map branch_bytes l)) acc = Ok (foldl put_slot acc l).
Proof.
  revert pre acc fuel. induction l as [|[i h] l IH]; intros pre acc fuel Hl Hf.
  - by destruct fuel.
  - destruct fuel as [|fuel]; simpl in Hf; [lia|].
    destruct (Hl (i, h) ltac:(by left)) as (Hi & Hu). simpl in Hi, Hu.
    cbn [flat_map]. unfold branch_bytes at 1. cbn [fst snd compressed_loop].
    unfold iter_empty, iter_at at 1. cbn [remain_]. rewrite !blob_size_app.
    pose proof (blob_size_nonneg (flat_map branch_bytes l)) as Hs.
    rewrite (proj2 (Z.eqb_neq _ 0)) by (unfold blob_size in *; rewrite length_hash_bytes; simpl; lia).
    rewrite <-app_assoc, get256_hash by done. cbn [mbind result_bind app].
    rewrite get8_cons. cbn [mbind result_bind].
    rewrite (proj2 (Z.leb_gt 16 _)), Nat2Z.id by lia. cbn [foldl].
    apply IH; [|lia]. intros b Hb. apply Hl. by right.
Qed.

Lemma put_slots_set l acc : (forall b, b ∈ l -> b.2 <> 0) ->
  foldl put_slot acc l = foldl (fun acc (b : nat * N) => <[b.1 := (true, b.2)]> acc) acc l.
Proof.
  revert acc. induction l as [|b l IH]; intros acc Hl; [done|]. cbn [foldl]. rewrite IH by (intros b' Hb'; apply Hl; by right).
  unfold put_slot at 1. rewrite (proj2 (N.eqb_neq _ 0)) by (apply Hl; by left). cbn [negb]. by rewrite orb_true_r.
Qed.

Lemma compressed_loop_spec l pre acc fuel :
  (forall b, b ∈ l -> (b.1 < 16)%nat /\ b.2 <> 0 /\ is_uint256 b.2) -> (length l <= fuel)%nat ->
  compressed_loop fuel (iter_at pre (flat_map branch_bytes l)) acc =
  Ok (foldl (fun acc (b : nat * N) => <[b.1 := (true, b.2)]> acc) acc l).
Proof.
  intros Hl Hf. rewrite compressed_loop_any; [|intros b Hb; by destruct (Hl b Hb) as (? & _ & ?)|done].
  rewrite put_slots_set; [done|]. intros b Hb. by destruct (Hl b Hb) as (_ & ? & _).
Qed.

Lemma makeCompressedInner_spec bs :
  length bs = kBranchFactor -> Forall branch_ok bs ->
  makeCompressedInner (flat_map branch_bytes (iterNonEmpty 0 bs)) = Ok (SInner bs).
Proof.
  intros Hl Hok. unfold makeCompressedInner. cbv zeta.
  assert (forall b, length (branch_bytes b) = 33%nat) as Hb.
  { intros b. unfold branch_bytes. by rewrite length_app, length_hash_bytes. }
  pose proof (blob_size_flat_map branch_bytes 33 (iterNonEmpty 0 bs) Hb) as Hs.
  pose proof (iterNonEmpty_length 0 bs) as Hc. rewrite Hl in Hc. unfold kBranchFactor in Hc.
  rewrite Hs, Z.mul_comm, Z.mod_mul by lia. rewrite (proj2 (Z.ltb_ge _ _)) by lia. cbn [orb negb Z.eqb].
  rewrite makeSerialIter_at, compressed_loop_spec.
  - cbn [mbind result_bind]. pose proof (fold_slots bs []) as Hf. cbn [app length] in Hf.
    rewrite Hl in Hf. rewrite Hf. do 2 f_equal. rewrite <-list_fmap_compose.
    rewrite <-(list_fmap_id bs) at 2. apply list_fmap_ext. by intros ? [h|].
  - intros b Hin. apply iterNonEmpty_elem in Hin as [Hi Hbs]. rewrite Hl in Hi.
    unfold kBranchFactor in Hi. rewrite Forall_forall in Hok. split; [lia|]. by apply (Hok _ Hbs).
  - unfold blob_size in Hs. lia.
Qed.

Section roundtrip.
Context `{Digest}.

(** The nodes the code builds: leaves of at least 12 bytes under their key,
    transactions without metadata under their identifier, and inner nodes
    with a proper hash in each branch that is set. *)
Definition stored_ok (n : StoredNode) : Prop :=
  match n with
  | SLeaf TnTransactionNm item => (12 <= blob_size (item_data item))%Z /\
      item_key item = sha512Half (be_bytes 4 kPrefixTransactionId ++ item_data item)
  | SLeaf TnTransactionMd item =>
      (12 <= blob_size (item_data item))%Z /\ is_uint256 (item_key item)
  | SLeaf TnAccountState item =>
      (12 <= blob_size (item_data item))%Z /\ key_ok (item_key item)
  | SLeaf TnInner _ => False
  | SInner bs => length bs = kBranchFactor /\ Forall branch_ok bs
  end.

(** What the bytes of a node are before the wire type or after the prefix. *)
Definition node_body (n : StoredNode) : Blob :=
  match n with
  | SLeaf TnTransactionNm item => item_data item
  | SLeaf _ item => item_data item ++ hash_bytes (item_key item)
  | SInner bs => flat_map hash_bytes (iterChildren bs)
  end.

Definition node_prefix (n : StoredNode) : Z :=
  match n with
  | SLeaf TnTransactionNm _ => kPrefixTransactionId
  | SLeaf TnTransactionMd _ => kPrefixTxNode
  | SLeaf _ _ => kPrefixLeafNode
  | SInner _ => kPrefixInnerNode
  end.

Lemma serializeWithPrefix_bytes n s :
  data_ (serializeWithPrefix n s) = data_ s ++ be_bytes 4 (node_prefix n) ++ node_body n.
Proof.
  destruct n as [[] item|bs]; unfold serializeWithPrefix;
    rewrite ?add256_bytes, ?fold_add256; cbn [addRaw snd push_back data_];
    rewrite add32_bytes, <-?app_assoc; done.
Qed.

Lemma makeTransaction_spec item :
  stored_ok (SLeaf TnTransactionNm item) ->
  makeTransaction (item_data item) = Ok (SLeaf TnTransactionNm item).
Proof.
  intros [Hs Hk]. unfold makeTransaction, kMinShaMapItemBytes.
  rewrite (proj2 (Z.ltb_ge _ 12)) by lia. rewrite <-Hk. by destruct item.
Qed.

Lemma body_long data key : (blob_size (data ++ hash_bytes key) <? 32)%Z = false.
Proof.
  apply Z.ltb_ge. rewrite blob_size_app. pose proof (blob_size_nonneg data).
  unfold blob_size at 2. rewrite length_hash_bytes. lia.
Qed.

Lemma makeTransactionWithMeta_spec item :
  stored_ok (SLeaf TnTransactionMd item) ->
  makeTransactionWithMeta (item_data item ++ hash_bytes (item_key item)) =
  Ok (SLeaf TnTransactionMd item).
Proof.
  intros [Hs Hk]. unfold makeTransactionWithMeta, kMinShaMapItemBytes.
  rewrite body_long, split_tag_app by done.
  rewrite (proj2 (Z.ltb_ge _ 12)) by lia. by destruct item.
Qed.

Lemma makeAccountState_spec item :
  stored_ok (SLeaf TnAccountState item) ->
  makeAccountState (item_data item ++ hash_bytes (item_key item)) =
  Ok (SLeaf TnAccountState item).
Proof.
  intros (Hs & Hz & Hk). unfold makeAccountState, kMinShaMapItemBytes.
  rewrite body_long, split_tag_app by done. rewrite (proj2 (N.eqb_neq _ 0)) by done.
  rewrite (proj2 (Z.ltb_ge _ 12)) by lia. by destruct item.
Qed.

Lemma makeFromWire_snoc body t :
  makeFromWire (body ++ [t]) =
  (n ← (if (t =? 0)%Z then makeTransaction body
        else if (t =? 1)%Z then makeAccountState body
        else if (t =? 2)%Z then makeFullInner body
        else if (t =? 3)%Z then makeCompressedInner body
        else if (t =? 4)%Z then makeTransactionWithMeta body
        else Throw "wire: Unknown type");
   Ok (Some n)).
Proof.
  unfold makeFromWire. rewrite last_snoc, length_app. cbn [length].
  by rewrite Nat.add_sub, take_app_length.
Qed.

Lemma wire_roundtrip n :
  stored_ok n -> makeFromWire (data_ (serializeForWire n empty_serializer)) = Ok (Some n).
Proof.
  intros Hok. destruct n as [[] item|bs]; [done|..]; unfold serializeForWire.
  - cbn [add8 addRaw snd push_back data_ empty_serializer app].
    by rewrite makeFromWire_snoc, makeTransaction_spec.
  - cbn [add8 snd push_back data_]. rewrite add256_bytes. cbn [addRaw snd push_back data_ app].
    rewrite makeFromWire_snoc. cbn [Z.eqb Pos.eqb empty_serializer data_ app].
    by rewrite makeTransactionWithMeta_spec.
  - cbn [add8 snd push_back data_]. rewrite add256_bytes. cbn [addRaw snd push_back data_ app].
    rewrite makeFromWire_snoc. cbn [Z.eqb Pos.eqb empty_serializer data_ app].
    by rewrite makeAccountState_spec.
  - destruct Hok as [Hl Hok]. destruct (_ <? 12)%nat; cbn [add8 snd push_back data_].
    + rewrite fold_branches, makeFromWire_snoc. cbn [Z.eqb Pos.eqb empty_serializer data_ app].
      by rewrite makeCompressedInner_spec.
    + rewrite fold_add256, makeFromWire_snoc. cbn [Z.eqb Pos.eqb empty_serializer data_ app].
      by rewrite makeFullInner_spec.
Qed.

Lemma prefix_roundtrip n :
  stored_ok n -> makeFromPrefix (data_ (serializeWithPrefix n empty_serializer)) = Ok n.
Proof.
  intros Hok. rewrite serializeWithPrefix_bytes. cbn [data_ empty_serializer app].
  unfold makeFromPrefix. rewrite blob_size_app.
  pose proof (blob_size_nonneg (node_body n)) as Hb.
  rewrite (proj2 (Z.ltb_ge _ 4)) by (unfold blob_size in *; rewrite length_be_bytes; lia).
  cbv zeta. rewrite take_app_length', drop_app_length' by (by rewrite length_be_bytes).
  rewrite be_sum_be_bytes.
  destruct n as [[] item|bs]; [done|..]; unfold node_prefix, node_body.
  - by rewrite makeTransaction_spec.
  - by rewrite makeTransactionWithMeta_spec.
  - by rewrite makeAccountState_spec.
  - destruct Hok as [Hl Hok]. by rewrite makeFullInner_spec.
Qed.
End roundtrip.

(** ** The hash of a map determines it *)
Section hash_injective.
Context `{Digest}.
Implicit Types (n : SHAMapTreeNode Blob).

Definition child_hash (c : option (SHAMapTreeNode Blob)) : N :=
  match c with Some c => node_hash c | None => 0 end.

Lemma node_hash_inner ch :
  node_hash (InnerNode ch) =
  if (getBranchCount ch =? 0)%nat then 0 else sha512Half (inner_preimage (child_hash <$> ch)).
Proof. done. Qed.

(** The node on its own. *)
Definition stored_of n : StoredNode :=
  match n with
  | LeafNode ty item => SLeaf ty item
  | InnerNode ch => SInner (map (option_map node_hash) ch)
  end.

(** The byte strings hashed in a tree. *)
Fixpoint preimages n : list Blob :=
  match n with
  | LeafNode ty item => [leaf_preimage ty item]
  | InnerNode ch =>
      (if (getBranchCount ch =? 0)%nat then [] else [inner_preimage (map child_hash ch)]) ++
      flat_map (fun c => match c with Some c => preimages c | None => [] end) ch
  end.

(** The digest behaves on a set of byte strings: no collision among them,
    and no zero. *)
Definition digest_good (P : list Blob) : Prop :=
  (forall b, b ∈ P -> sha512Half b <> 0 /\ is_uint256 (sha512Half b)) /\
  (forall b1 b2, b1 ∈ P -> b2 ∈ P -> sha512Half b1 = sha512Half b2 -> b1 = b2).

Lemma digest_good_sub P Q : (forall b, b ∈ Q -> b ∈ P) -> digest_good P -> digest_good Q.
Proof. intros Hs [H1 H2]. split; naive_solver. Qed.

Lemma preimages_child ch i c b :
  getChild ch i = Some c -> b ∈ preimages c -> b ∈ preimages (InnerNode ch).
Proof.
  intros Hc Hb. simpl. apply elem_of_app. right.
  apply list_elem_of_In, in_flat_map. exists (Some c).
  split; [|by apply list_elem_of_In]. apply list_elem_of_In.
  unfold getChild in Hc. destruct (ch !! i) as [o|] eqn:E; [|done]. simpl in Hc. subst o.
  by eapply list_elem_of_lookup_2.
Qed.

Lemma node_hash_good ty d p n :
  wf ty d p n -> digest_good (preimages n) ->
  is_uint256 (node_hash n) /\ (d <> 0 -> node_hash n <> 0).
Proof.
  intros Hwf [Hg _]. destruct Hwf as [d p item|d p ch Hd Hl Hc Hbr].
  - simpl in *. destruct (Hg _ ltac:(by left)). done.
  - rewrite node_hash_inner. simpl in Hg.
    destruct (Nat.eqb_spec (getBranchCount ch) 0) as [Hz|Hnz].
    + split; [done|]. intros Hd0. destruct (Hbr Hd0) as [?|(i & c & ? & _)]; lia.
    + destruct (Hg _ ltac:(by left)). done.
Qed.

Lemma flat_map_hash_inj (l1 l2 : list N) :
  Forall is_uint256 l1 -> Forall is_uint256 l2 -> length l1 = length l2 ->
  flat_map hash_bytes l1 = flat_map hash_bytes l2 -> l1 = l2.
Proof.
  intros H1. revert l2. induction H1 as [|h1 l1 Hh1 H1 IH]; intros [|h2 l2] H2 Hl E; try done.
  inversion H2 as [|? ? Hh2 H2']; subst. cbn [flat_map] in E.
  apply app_inj_1 in E as [E1 E2]; [|by rewrite !length_hash_bytes].
  f_equal; [by apply hash_bytes_inj|]. apply IH; [done| |done]. by injection Hl.
Qed.

Lemma leaf_inner_preimage ty item hs : leaf_preimage ty item <> inner_preimage hs.
Proof.
  intros E. apply (f_equal (take 4)) in E. unfold inner_preimage in E.
  rewrite take_app_length' in E by done.
  destruct ty; unfold leaf_preimage in E; rewrite take_app_length' in E by done;
    vm_compute in E; discriminate E.
Qed.

Lemma leaf_preimage_inj ty i1 i2 :
  ty = TnAccountState \/ ty = TnTransactionMd ->
  is_uint256 (item_key i1) -> is_uint256 (item_key i2) ->
  leaf_preimage ty i1 = leaf_preimage ty i2 -> i1 = i2.
Proof.
  intros Hty H1 H2 E.
  assert (item_data i1 ++ hash_bytes (item_key i1) = item_data i2 ++ hash_bytes (item_key i2)) as E'
    by (destruct Hty as [-> | ->]; unfold leaf_preimage in E; by apply app_inv_head in E).
  apply app_inj_2 in E' as [Ed Ek]; [|by rewrite !length_hash_bytes].
  apply hash_bytes_inj in Ek; [|done..]. destruct i1, i2; simpl in *; congruence.
Qed.

Lemma no_children (ch : list (option (SHAMapTreeNode Blob))) i :
  getBranchCount ch = 0%nat -> getChild ch i = None.
Proof.
  intros Hz. destruct (getChild ch i) as [c|] eqn:E; [|done].
  pose proof (branch_count_pos ch i c E). lia.
Qed.

Lemma children_eq (ch1 ch2 : list (option (SHAMapTreeNode Blob))) :
  length ch1 = length ch2 -> (forall i, getChild ch1 i = getChild ch2 i) -> ch1 = ch2.
Proof.
  intros Hl Hc. apply list_eq_same_length with (n := length ch1); [done..|].
  intros i x y _ Hx Hy. specialize (Hc i). unfold getChild in Hc. rewrite Hx, Hy in Hc. done.
Qed.

Lemma child_hash_good ty d p ch :
  wf ty d p (InnerNode ch) -> digest_good (preimages (InnerNode ch)) ->
  Forall is_uint256 (child_hash <$> ch) /\
  forall i c, getChild ch i = Some c -> node_hash c <> 0.
Proof.
  intros Hwf Hg. inversion Hwf as [|? ? ? Hd Hl Hch _]; subst.
  assert (forall i c, getChild ch i = Some c -> is_uint256 (node_hash c) /\ node_hash c <> 0) as Hc.
  { intros i c Hi. destruct (node_hash_good _ _ _ _ (Hch _ _ Hi)) as [? Hn];
      [eapply digest_good_sub; [|exact Hg]; intros b; by eapply preimages_child|].
    split; [done|]. apply Hn. lia. }
  split; [|intros i c Hi; by destruct (Hc _ _ Hi)].
  apply Forall_fmap, Forall_lookup. intros i [c|] Hi; [|done].
  apply (Hc i). unfold getChild. by rewrite Hi.
Qed.

(** Leaves of the trees are determined by what is hashed of them. *)
Definition leaves_told ty n1 n2 : Prop := forall i1 i2, i1 ∈ items n1 -> i2 ∈ items n2 ->
  leaf_preimage ty i1 = leaf_preimage ty i2 -> i1 = i2.

Lemma elem_of_child ch j (c : SHAMapTreeNode Blob) it : getChild ch j = Some c -> it ∈ items c -> it ∈ items (InnerNode ch).
Proof. intros Hc Hit. rewrite items_inner. apply elem_of_items_of. eauto. Qed.

Lemma node_hash_told ty d p n1 n2 :
  leaves_told ty n1 n2 -> wf ty d p n1 -> wf ty d p n2 ->
  digest_good (preimages n1 ++ preimages n2) -> node_hash n1 = node_hash n2 -> n1 = n2.
Proof.
  intros Hleaf Hwf. revert n2 Hleaf. induction Hwf as [d p i1 Ht Hd Hk Hp|d p ch1 Hd Hl Hch IH Hbr];
    intros n2 Hleaf Hwf2 Hg E; destruct Hwf2 as [d p i2 Ht2 Hd2 Hk2 Hp2|d p ch2 Hd2 Hl2 Hch2 Hbr2].
  - f_equal. apply Hleaf; [by left..|].
    apply Hg; [set_solver..|done].
  - rewrite node_hash_inner in E. simpl in E, Hg.
    destruct (getBranchCount ch2 =? 0)%nat; [exfalso; by eapply Hg; [left|]|].
    exfalso. apply (leaf_inner_preimage ty i1 (child_hash <$> ch2)).
    apply Hg; [by left|right; by left|done].
  - rewrite node_hash_inner in E. simpl in E, Hg.
    destruct (getBranchCount ch1 =? 0)%nat;
      [exfalso; eapply Hg; [|symmetry; exact E]; set_solver|].
    exfalso. apply (leaf_inner_preimage ty i2 (child_hash <$> ch1)).
    symmetry. apply Hg; [by left|set_solver|done].
  - assert (wf ty d p (InnerNode ch1)) as Hw1 by (by constructor).
    assert (wf ty d p (InnerNode ch2)) as Hw2 by (by constructor).
    destruct (child_hash_good _ _ _ _ Hw1) as [Hu1 Hn1];
      [eapply digest_good_sub; [|exact Hg]; set_solver|].
    destruct (child_hash_good _ _ _ _ Hw2) as [Hu2 Hn2];
      [eapply digest_good_sub; [|exact Hg]; set_solver|].
    f_equal. apply children_eq; [congruence|]. intros i.
    rewrite !node_hash_inner in E.
    destruct (Nat.eqb_spec (getBranchCount ch1) 0) as [Hz1|Hz1],
      (Nat.eqb_spec (getBranchCount ch2) 0) as [Hz2|Hz2].
    + by rewrite !no_children.
    + exfalso. eapply Hg; [|symmetry; exact E]. simpl. rewrite (proj2 (Nat.eqb_neq _ _) Hz2).
      set_solver.
    + exfalso. eapply Hg; [|exact E]. simpl. rewrite (proj2 (Nat.eqb_neq _ _) Hz1). set_solver.
    + apply Hg in E; [|simpl; rewrite (proj2 (Nat.eqb_neq _ _) Hz1); set_solver
        |simpl; rewrite (proj2 (Nat.eqb_neq _ _) Hz2); set_solver].
      unfold inner_preimage in E. apply app_inv_head in E.
      apply flat_map_hash_inj in E; [|done|done|rewrite !length_fmap; congruence].
      assert (child_hash (getChild ch1 i) = child_hash (getChild ch2 i)) as Ei.
      { apply (f_equal (fun l => l !! i)) in E. rewrite !list_lookup_fmap in E.
        unfold getChild. destruct (ch1 !! i), (ch2 !! i); simpl in *; congruence. }
      destruct (getChild ch1 i) as [c1|] eqn:E1, (getChild ch2 i) as [c2|] eqn:E2; simpl in Ei.
      * f_equal. apply (IH i c1 E1 c2); [|by apply Hch2| |done].
        { intros i1 i2 Hi1 Hi2. apply Hleaf; by eapply elem_of_child. }
        eapply digest_good_sub; [|exact Hg]. intros b [Hb|Hb]%elem_of_app; apply elem_of_app;
          [left|right]; by eapply preimages_child.
      * exfalso. by apply (Hn1 _ _ E1).
      * exfalso. by apply (Hn2 _ _ E2).
      * done.
Qed.

Lemma node_hash_inj ty d p n1 n2 :
  ty = TnAccountState \/ ty = TnTransactionMd -> wf ty d p n1 -> wf ty d p n2 ->
  digest_good (preimages n1 ++ preimages n2) -> node_hash n1 = node_hash n2 -> n1 = n2.
Proof.
  intros Hty Hw1 Hw2. apply node_hash_told with (d := d) (p := p) (ty := ty); [|done..].
  intros i1 i2 H1 H2. apply leaf_preimage_inj; [done|..]; [by eapply (wf_keys _ _ _ n1)|by eapply (wf_keys _ _ _ n2)].
Qed.
End hash_injective.
