(* ===== verification/Ledger.v ===== *)
(** * The closed ledger

    [Ledger] (Ledger.h/.cpp): a header, the state map and the transaction
    map.  It is the bottom of every stack of views: reads and raw changes go
    to the [SHAMap]s.  The digest ([sha512Half]) is a parameter; so is the
    binary form of an entry ([STLedgerEntry::add] and the constructor from a
    [SerialIter]).  Nothing is assumed of either: what a change needs of them
    is said of the entry that is written ([ledger_takes]). *)

From S2P Require Import Prelude LedgerEntry Views Serializer LedgerHeader SHAMapNodeID SHAMap SHAMapSpec SHAMapMap SHAMapHash.

(** The hash of an account state leaf. *)
Definition leafHash `{Digest} (key : N) (data : Blob) : N :=
  sha512Half (leaf_preimage TnAccountState (mkItem key data)).

Class SLECodec : Type := {
  sle_add : SLE -> Blob;
  sle_parse : Blob -> N -> option SLE
}.

(** The entry [s] can take the place of [old]: it survives its binary form,
    and its leaf does not collide with the one it replaces. *)
Definition ledger_takes `{Digest, SLECodec} (old : option SLE) (s : SLE) : Prop :=
  sle_parse (sle_add s) (sle_key s) = Some s /\
  forall o d, old = Some o -> sle_parse d (sle_key s) = Some o ->
    leafHash (sle_key s) d = leafHash (sle_key s) (sle_add s) -> d = sle_add s.

(** [TxsRawView::rawTxInsert]: key, transaction and metadata. *)
Class TxsRawView (V : Type) : Type :=
  raw_txInsert : V -> N -> Blob -> option Blob -> result V.

(** ** Keylets of the singleton entries *)

Definition indexHash `{Digest} (space : Z) (args : Blob) : N := sha512Half (be_bytes 2 space ++ args).

Definition keylet_skip0 `{Digest} : Keylet := mkKeylet ltLEDGER_HASHES (indexHash 115 []).
Definition keylet_skip `{Digest} (ledger : Z) : Keylet :=
  mkKeylet ltLEDGER_HASHES (indexHash 115 (be_bytes 4 (Z.shiftr (u32 ledger) 16))).
Definition keylet_amendments `{Digest} : Keylet := mkKeylet ltAMENDMENTS (indexHash 102 []).
Definition keylet_fees `{Digest} : Keylet := mkKeylet ltFEE_SETTINGS (indexHash 101 []).
Definition keylet_negativeUNL `{Digest} : Keylet := mkKeylet ltNEGATIVE_UNL (indexHash 78 []).

(** ** Rules and fees *)

Record Rules : Type := mkRules {
  rules_set : gset N;
  rules_digest : option N;
  rules_presets : gset N
}.

Definition rules_enabled (r : Rules) (feature : N) : bool :=
  if bool_decide (feature ∈ rules_presets r) then true
  else bool_decide (feature ∈ rules_set r).

Record Fees : Type := mkFees { base : Z; reserve : Z; increment : Z }.

Definition accountReserve (f : Fees) (ownerCount : Z) : Z := reserve f + ownerCount * increment f.

(** ** The ledger *)

Record Ledger : Type := mkLedger {
  immutable_ : bool;
  txMap_ : SHAMapTreeNode Blob;
  stateMap_ : SHAMapTreeNode Blob;
  fees_ : Fees;
  rules_ : Rules;
  header_ : LedgerHeader
}.

Definition set_stateMap (l : Ledger) (m : SHAMapTreeNode Blob) : Ledger :=
  mkLedger (immutable_ l) (txMap_ l) m (fees_ l) (rules_ l) (header_ l).
Definition set_txMap (l : Ledger) (m : SHAMapTreeNode Blob) : Ledger :=
  mkLedger (immutable_ l) m (stateMap_ l) (fees_ l) (rules_ l) (header_ l).
Definition set_header (l : Ledger) (h : LedgerHeader) : Ledger :=
  mkLedger (immutable_ l) (txMap_ l) (stateMap_ l) (fees_ l) (rules_ l) h.
Definition set_fees (l : Ledger) (f : Fees) : Ledger :=
  mkLedger (immutable_ l) (txMap_ l) (stateMap_ l) f (rules_ l) (header_ l).
Definition set_rules (l : Ledger) (r : Rules) : Ledger :=
  mkLedger (immutable_ l) (txMap_ l) (stateMap_ l) (fees_ l) r (header_ l).

Section Ledger.
Context `{Digest, SLECodec}.
Implicit Types (l : Ledger) (k : Keylet) (s : SLE).

(** *** Reading

    A missing node makes the source throw; a resident well-formed tree
    never does, and the readers of the view interface are total. *)

Definition exists_ l k : bool :=
  match hasItem (stateMap_ l) (kl_key k) with Ok b => b | Throw _ => false end.

Definition succ l (key : N) (last : option N) : option N :=
  match upperBound (stateMap_ l) key with
  | Ok (Some item, _) =>
      match last with
      | Some x => if (x <=? item_key item)%N then None else Some (item_key item)
      | None => Some (item_key item)
      end
  | _ => None
  end.

(** [peek]: a fresh entry made from the item's bytes. *)
Definition peek l k : option SLE :=
  match peekItem (stateMap_ l) (kl_key k) with
  | Ok (Some item) =>
      match sle_parse (item_data item) (item_key item) with
      | Some s => if check k s then Some s else None
      | None => None
      end
  | _ => None
  end.

Definition read l k : option SLE :=
  if (kl_key k =? 0)%N then None else peek l k.

Definition digest l (key : N) : option N :=
  match peekItem (stateMap_ l) key with
  | Ok (Some item) => Some (leafHash (item_key item) (item_data item))
  | _ => None
  end.

(** [SlesIterImpl]: the entries under a SHAMap iterator. *)
Fixpoint parse_items (its : list (SHAMapItem Blob)) : result (list SLE) :=
  match its with
  | [] => Ok []
  | it :: its =>
      s ← from_option_throw "invalid SLE" (sle_parse (item_data it) (item_key it));
      rest ← parse_items its;
      Ok (s :: rest)
  end.

Definition sles l : result (list SLE) :=
  cur ← peekFirstItem (stateMap_ l);
  its ← iterate (length (items (stateMap_ l))) cur; parse_items its.

Definition slesUpperBound l (key : N) : result (list SLE) :=
  cur ← upperBound (stateMap_ l) key;
  its ← iterate (length (items (stateMap_ l))) cur; parse_items its.

(** *** Raw changes *)

Definition rawErase_key l (key : N) : result Ledger :=
  '(m, b) ← delItem (stateMap_ l) key;
  if (b : bool) then Ok (set_stateMap l m) else Throw "Ledger::rawErase: key not found".

Definition rawInsert l s : result Ledger :=
  '(m, b) ← addGiveItem (stateMap_ l) TnAccountState (mkItem (sle_key s) (sle_add s));
  if (b : bool) then Ok (set_stateMap l m) else Throw "Ledger::rawInsert: key already exists".

Definition rawReplace l s : result Ledger :=
  '(m, b) ← updateGiveItem leafHash (stateMap_ l) TnAccountState
              (mkItem (sle_key s) (sle_add s));
  if (b : bool) then Ok (set_stateMap l m) else Throw "Ledger::rawReplace: key not found".

Definition rawErase l s : result Ledger := rawErase_key l (sle_key s).

Definition rawDestroyXRP l (fee : Z) : Ledger :=
  let h := header_ l in
  set_header l (mkLedgerHeader (seq h) (parentCloseTime h) (hash h) (txHash h) (accountHash h)
    (parentHash h) (drops h - fee) (validated h) (accepted h) (closeFlags h)
    (closeTimeResolution h) (closeTime h)).

(** [rawTxInsert]: the transaction and its metadata, each length-prefixed. *)
Definition rawTxInsert l (key : N) (txn : Blob) (metaData : option Blob) : result Ledger :=
  match metaData with
  | None => Throw "null metaData"
  | Some meta =>
      '(_, ser) ← addVL txn empty_serializer;
      '(_, ser) ← addVL meta ser;
      '(m, b) ← addGiveItem (txMap_ l) TnTransactionMd (mkItem key (data_ ser));
      if (b : bool) then Ok (set_txMap l m) else Throw "duplicate_tx"
  end.

Definition txExists l (key : N) : bool :=
  match hasItem (txMap_ l) key with Ok b => b | Throw _ => false end.

(** [deserializeTxPlusMeta], up to the slices the two objects are built
    from. *)
Definition deserializeTxPlusMeta (data : Blob) : result (Blob * Blob) :=
  let sit := makeSerialIter data in
  '(n, sit) ← getVLDataLength sit;
  '(txn, sit) ← getSlice n sit;
  '(n, sit) ← getVLDataLength sit;
  '(meta, sit) ← getSlice n sit;
  Ok (txn, meta).

(** [txRead] of a closed ledger. *)
Definition txRead l (key : N) : result (option (Blob * Blob)) :=
  item ← peekItem (txMap_ l) key;
  match item with
  | None => Ok None
  | Some item => r ← deserializeTxPlusMeta (item_data item); Ok (Some r)
  end.

(** [addSLE]; [addItem] is [addGiveItem]. *)
Definition addSLE l s : result (Ledger * bool) :=
  '(m, b) ← addGiveItem (stateMap_ l) TnAccountState (mkItem (sle_key s) (sle_add s));
  Ok (set_stateMap l m, b).

(** *** Rules, fees and closing *)

(** [makeRulesGivenLedger] with the presets of the current rules. *)
Definition makeRulesGivenLedger l (presets : gset N) : Rules :=
  match digest l (kl_key keylet_amendments) with
  | Some d =>
      match read l keylet_amendments with
      | Some s => mkRules (list_to_set (getFieldV256 "Amendments" s)) (Some d) presets
      | None => mkRules ∅ None presets
      end
  | None => mkRules ∅ None presets
  end.

(** [sle->at(~field)]. *)
Definition optU (f : string) s : option Z :=
  match sle_fields s !! f with Some (VUInt n) => Some (Z.of_N n) | _ => None end.
Definition optAmount (f : string) s : option (bool * Z) :=
  match sle_fields s !! f with Some (VAmount b z) => Some (b, z) | _ => None end.

(** The lambda [assign] of [setup]: a native amount is stored, any other
    makes the result false. *)
Definition assign (dest : Z) (ret : bool) (src : option (bool * Z)) : Z * bool :=
  match src with
  | Some (true, v) => (v, ret)
  | Some (false, _) => (dest, false)
  | None => (dest, ret)
  end.

Definition setup (featureXRPFees : N) l : Ledger * bool :=
  let l := set_rules l (makeRulesGivenLedger l (rules_presets (rules_ l))) in
  match read l keylet_fees with
  | None => (l, true)
  | Some s =>
      let baseFee := optU "BaseFee" s in
      let reserveBase := optU "ReserveBase" s in
      let reserveIncrement := optU "ReserveIncrement" s in
      let f := fees_ l in
      let f := mkFees (default (base f) baseFee) (default (reserve f) reserveBase)
                 (default (increment f) reserveIncrement) in
      let oldFees := bool_decide (is_Some baseFee) || bool_decide (is_Some reserveBase)
                     || bool_decide (is_Some reserveIncrement) in
      let baseFeeXRP := optAmount "BaseFeeDrops" s in
      let reserveBaseXRP := optAmount "ReserveBaseDrops" s in
      let reserveIncrementXRP := optAmount "ReserveIncrementDrops" s in
      let '(b, ret) := assign (base f) true baseFeeXRP in
      let '(r, ret) := assign (reserve f) ret reserveBaseXRP in
      let '(i, ret) := assign (increment f) ret reserveIncrementXRP in
      let newFees := bool_decide (is_Some baseFeeXRP) || bool_decide (is_Some reserveBaseXRP)
                     || bool_decide (is_Some reserveIncrementXRP) in
      let ret := if oldFees && newFees then false else ret in
      let ret := if negb (rules_enabled (rules_ l) featureXRPFees) && newFees
                 then false else ret in
      (set_fees l (mkFees b r i), ret)
  end.

Definition setImmutable (featureXRPFees : N) (rehash : bool) l : Ledger :=
  let h := header_ l in
  let h :=
    if negb (immutable_ l) && rehash then
      mkLedgerHeader (seq h) (parentCloseTime h) (hash h) (node_hash (txMap_ l))
        (node_hash (stateMap_ l)) (parentHash h) (drops h) (validated h) (accepted h)
        (closeFlags h) (closeTimeResolution h) (closeTime h)
    else h in
  let h :=
    if rehash then
      mkLedgerHeader (seq h) (parentCloseTime h) (calculateLedgerHash sha512Half h) (txHash h)
        (accountHash h) (parentHash h) (drops h) (validated h) (accepted h)
        (closeFlags h) (closeTimeResolution h) (closeTime h)
    else h in
  (setup featureXRPFees (mkLedger true (txMap_ l) (stateMap_ l) (fees_ l) (rules_ l) h)).1.

Definition setAccepted (featureXRPFees : N) (closeTime closeResolution : Z)
    (correctCloseTime : bool) l : Ledger :=
  let h := header_ l in
  setImmutable featureXRPFees true (set_header l
    (mkLedgerHeader (seq h) (parentCloseTime h) (hash h) (txHash h) (accountHash h)
       (parentHash h) (drops h) (validated h) (accepted h)
       (if correctCloseTime then 0 else kSLcfNoConsensusTime) closeResolution closeTime)).

(** [Ledger(Ledger const& prevLedger, closeTime)]; [hash + uint256(1)]
    wraps around. *)
Definition nextLedger (prev : Ledger) (time : Z) : Ledger :=
  let p := header_ prev in
  let seq' := u32 (seq p + 1) in
  let res := getNextLedgerTimeResolution (closeTimeResolution p) (getCloseAgree p) seq' in
  let close := if (closeTime p =? 0)%Z then roundCloseTime time res
               else u32 (closeTime p + res) in
  mkLedger false emptyMap (stateMap_ prev) (fees_ prev) (rules_ prev)
    (mkLedgerHeader seq' (closeTime p) ((hash p + 1) mod 2 ^ 256)%N 0 0 (hash p) (drops p)
       false false 0 res close).

Definition isFlagLedger (seq : Z) : bool := (seq mod 256 =? 0)%Z.

Definition isSensible l : bool :=
  let h := header_ l in
  if (hash h =? 0)%N then false
  else if (accountHash h =? 0)%N then false
  else if negb (accountHash h =? node_hash (stateMap_ l))%N then false
  else if negb (txHash h =? node_hash (txMap_ l))%N then false
  else true.

(** *** Skip lists

    [sfHashes] of [keylet::skip()] holds the hashes of the last 256
    ledgers, [sfHashes] of [keylet::skip(seq)] those of every 256th. *)

(** [std::make_shared<SLE>(k)]. *)
Definition new_sle k : SLE := mkSLE (kl_type k) (kl_key k) ∅.

Definition set_hashes (hashes : list N) (prevIndex : Z) s : SLE :=
  setField "LastLedgerSequence" (VUInt (Z.to_N prevIndex)) (setField "Hashes" (VVector256 hashes) s).

(** The common shape of the two updates. *)
Definition update_list k (extend : list N -> list N) (prevIndex : Z) l : result Ledger :=
  match peek l k with
  | None => rawInsert l (set_hashes (extend []) prevIndex (new_sle k))
  | Some s => rawReplace l (set_hashes (extend (getFieldV256 "Hashes" s)) prevIndex s)
  end.

Definition updateSkipList l : result Ledger :=
  let h := header_ l in
  if (seq h =? 0)%Z then Ok l
  else
    let prevIndex := (seq h - 1)%Z in
    l ← (if (Z.land prevIndex 0xff =? 0)%Z then
           update_list (keylet_skip prevIndex) (fun hashes => hashes ++ [parentHash h]) prevIndex l
         else Ok l);
    update_list keylet_skip0
      (fun hashes =>
         (if (length hashes =? 256)%nat then tail hashes else hashes) ++ [parentHash h])
      prevIndex l.

(** *** The negative UNL *)

Definition publicKeyType (b : Blob) : bool :=
  match b with
  | x :: _ => (blob_size b =? 33)%Z && ((x =? 0xED)%Z || (x =? 2)%Z || (x =? 3)%Z)
  | [] => false
  end.

(** The public key of an element of [sfDisabledValidators]. *)
Definition elem_key (v : gmap string STPrim) : option Blob :=
  match v !! "PublicKey"%string with Some (PVL b) => Some b | _ => None end.

Definition negativeUNL l : list Blob :=
  match read l keylet_negativeUNL with
  | Some s =>
      if isFieldPresent "DisabledValidators" s then
        omap (fun n => match elem_key n with
                       | Some d => if publicKeyType d then Some d else None
                       | None => None
                       end) (getFieldArray "DisabledValidators" s)
      else []
  | None => []
  end.

(** [validatorToDisable] and [validatorToReEnable]. *)
Definition validatorTo (f : string) l : option Blob :=
  match read l keylet_negativeUNL with
  | Some s =>
      if isFieldPresent f s then
        let d := getFieldVL f s in if publicKeyType d then Some d else None
      else None
  | None => None
  end.

(** What [updateNegativeUNL] makes of the entry: none if nobody is left. *)
Definition updated_unl (seq : Z) s : option SLE :=
  let hasToDisable := isFieldPresent "ValidatorToDisable" s in
  let hasToReEnable := isFieldPresent "ValidatorToReEnable" s in
  let newNUnl :=
    if isFieldPresent "DisabledValidators" s then
      filter (fun v => ~ (hasToReEnable = true /\
               elem_key v = Some (getFieldVL "ValidatorToReEnable" s)))
        (getFieldArray "DisabledValidators" s)
    else [] in
  let newNUnl :=
    if hasToDisable then
      newNUnl ++ [<["PublicKey"%string := PVL (getFieldVL "ValidatorToDisable" s)]>
                  (<["FirstLedgerSequence"%string := PUInt (Z.to_N seq)]> ∅)]
    else newNUnl in
  match newNUnl with
  | [] => None
  | _ =>
      let s := setField "DisabledValidators" (VArray newNUnl) s in
      let s := if hasToReEnable then makeFieldAbsent "ValidatorToReEnable" s else s in
      let s := if hasToDisable then makeFieldAbsent "ValidatorToDisable" s else s in
      Some s
  end.

Definition updateNegativeUNL l : result Ledger :=
  match peek l keylet_negativeUNL with
  | None => Ok l
  | Some s =>
      if negb (isFieldPresent "ValidatorToDisable" s) && negb (isFieldPresent "ValidatorToReEnable" s) then Ok l
      else
        match updated_unl (seq (header_ l)) s with
        | None => rawErase l s
        | Some s => rawReplace l s
        end
  end.
End Ledger.

(** ** The ledger as a view *)

#[export] Instance Ledger_ReadView `{Digest, SLECodec} : ReadView Ledger := {
  rv_exists _ l k := exists_ l k;
  rv_read _ l k := read l k;
  rv_succ _ l key last := succ l key last
}.

#[export] Instance Ledger_RawView `{Digest, SLECodec} : RawView Ledger := {
  raw_erase h l p := s ← from_option_throw "null SLE" (h !! p); rawErase l s;
  raw_insert h l p := s ← from_option_throw "null SLE" (h !! p); rawInsert l s;
  raw_replace h l p := s ← from_option_throw "null SLE" (h !! p); rawReplace l s;
  raw_destroyXRP l fee := rawDestroyXRP l fee
}.

#[export] Instance Ledger_SlesView `{Digest, SLECodec} : SlesView Ledger := {
  rv_sles _ l := sles l;
  rv_slesUpperBound _ l k := slesUpperBound l k
}.

#[export] Instance Ledger_TxsRawView : TxsRawView Ledger := rawTxInsert.
