(* ===== verification/LedgerSpec.v ===== *)
(** * The ledger is a map of entries

    The laws of the view interfaces for [Ledger]: over well-formed state and
    transaction maps, its reads are reads of the finite map of its entries,
    its raw changes are changes of that map, its ordered iteration visits it
    in key order. *)

From S2P Require Import Prelude LedgerEntry Views Serializer LedgerHeader SHAMapNodeID SHAMap SHAMapSpec SHAMapMap SHAMapHash Ledger.

Section LedgerSpec.
Context `{Hdig : Digest, Hcod : SLECodec}.
Implicit Types (l : Ledger) (s : SLE).

(** The entries: every item of the state map, parsed. *)
Definition entries (m : gmap N Blob) : gmap N SLE := map_imap (fun k d => sle_parse d k) m.

Definition ledger_map l : gmap N SLE := entries (item_map (stateMap_ l)).

Record ledger_wf l : Prop := {
  lw_state : wf_map TnAccountState (stateMap_ l);
  lw_tx : wf_map TnTransactionMd (txMap_ l);
  lw_parse k d : item_map (stateMap_ l) !! k = Some d ->
    k <> 0%N /\ exists s, sle_parse d k = Some s /\ sle_key s = k
}.

Lemma lookup_entries m k : entries m !! k = m !! k ≫= (fun d => sle_parse d k).
Proof. unfold entries. by rewrite map_lookup_imap. Qed.

Lemma ledger_map_state l k :
  ledger_wf l -> is_Some (ledger_map l !! k) <-> is_Some (item_map (stateMap_ l) !! k).
Proof.
  intros Hwf. unfold ledger_map. rewrite lookup_entries. split.
  - intros [s Hs]. destruct (item_map (stateMap_ l) !! k); [eauto|done].
  - intros [d Hd]. rewrite Hd. simpl. destruct (lw_parse _ Hwf _ _ Hd) as (_ & s & -> & _). eauto.
Qed.

Lemma ledger_map_key l k s : ledger_wf l -> ledger_map l !! k = Some s -> sle_key s = k.
Proof.
  intros Hwf. unfold ledger_map. rewrite lookup_entries.
  destruct (item_map (stateMap_ l) !! k) as [d|] eqn:Hd; [simpl|done].
  destruct (lw_parse _ Hwf _ _ Hd) as (_ & s' & -> & ?). naive_solver.
Qed.

Lemma ledger_map_ok l k s : ledger_wf l -> ledger_map l !! k = Some s -> key_ok k.
Proof.
  intros Hwf. unfold ledger_map. rewrite lookup_entries.
  destruct (item_map (stateMap_ l) !! k) as [d|] eqn:Hd; [simpl|done]. intros _.
  destruct (lw_parse _ Hwf _ _ Hd) as (? & _). split; [done|].
  unfold is_uint256. by eapply item_map_bound, Hd; eapply lw_state.
Qed.

Lemma peek_spec l (k : Keylet) :
  ledger_wf l -> is_uint256 (kl_key k) -> peek l k = map_read (ledger_map l) k.
Proof.
  intros Hwf Hk. unfold peek, map_read, ledger_map.
  rewrite (peekItem_map _ _ _ (lw_state _ Hwf) Hk), lookup_entries.
  by destruct (item_map (stateMap_ l) !! kl_key k).
Qed.

Lemma read_spec l (k : Keylet) : ledger_wf l -> key_ok (kl_key k) -> read l k = map_read (ledger_map l) k.
Proof.
  intros Hwf [Hz Hk]. unfold read. rewrite (proj2 (N.eqb_neq _ 0)) by done. by apply peek_spec.
Qed.

Lemma exists_spec l (k : Keylet) :
  ledger_wf l -> is_uint256 (kl_key k) ->
  exists_ l k = true <-> is_Some (ledger_map l !! kl_key k).
Proof.
  intros Hwf Hk. unfold exists_. rewrite (hasItem_map _ _ _ (lw_state _ Hwf) Hk).
  rewrite ledger_map_state by done. apply bool_decide_eq_true.
Qed.

Lemma ledger_succ_spec l key last :
  ledger_wf l -> is_uint256 key ->
  is_succ (fun k => is_Some (ledger_map l !! k)) key last (succ l key last).
Proof.
  intros Hwf Hk. unfold succ.
  destruct (upperBound_map _ _ _ (lw_state _ Hwf) Hk) as (r & st & -> & Hs & _).
  eapply is_succ_ext; [intros k; symmetry; by apply ledger_map_state|].
  destruct r as [item|]; simpl in Hs.
  - destruct Hs as (Hin & Hlt & _ & Hmin). destruct last as [x|]; [|done].
    destruct (N.leb_spec x (item_key item)); simpl.
    + intros k' Hk' Hlt'. specialize (Hmin _ Hk' Hlt'). exists x. split; [done|]. lia.
    + split_and!; try done. intros ? [= <-]. done.
  - intros k' Hk' Hlt'. destruct (Hs _ Hk' Hlt') as (? & [=] & _).
Qed.

(** *** Ordered iteration *)

Lemma parse_items_spec l its :
  ledger_wf l -> (forall it, it ∈ its -> it ∈ items (stateMap_ l)) ->
  exists r, parse_items its = Ok r /\
    ((fun it => (item_key it, sle_parse (item_data it) (item_key it))) <$> its) =
    ((fun s => (sle_key s, Some s)) <$> r).
Proof.
  intros Hwf. induction its as [|it its IH]; intros Hin; [by exists []|].
  destruct IH as (r & E & Hr); [intros; apply Hin; by right|].
  pose proof (item_map_elem _ _ _ (lw_state _ Hwf) (Hin it ltac:(by left))) as Hd.
  destruct (lw_parse _ Hwf _ _ Hd) as (_ & s & Hs & Hk).
  exists (s :: r). cbn [parse_items]. rewrite Hs. cbn [from_option_throw mbind result_bind].
  rewrite E. cbn [mbind result_bind]. split; [done|]. csimpl. by rewrite Hs, Hr, Hk.
Qed.

(** Entries parsed from items in key order are the map's entries in key
    order. *)
Lemma parsed_ordered l its r (P : N -> Prop) :
  ledger_wf l -> StronglySorted item_lt its ->
  (forall it, it ∈ its <-> it ∈ items (stateMap_ l) /\ P (item_key it)) ->
  ((fun it => (item_key it, sle_parse (item_data it) (item_key it))) <$> its) =
    ((fun s => (sle_key s, Some s)) <$> r) ->
  StronglySorted key_lt ((fun s => (sle_key s, s)) <$> r) /\
  forall k s, (k, s) ∈ ((fun s => (sle_key s, s)) <$> r) <-> ledger_map l !! k = Some s /\ P k.
Proof.
  intros Hwf Hsort Hin E.
  assert (sle_key <$> r = item_key <$> its) as Ek.
  { apply (f_equal (fmap fst)) in E. rewrite <-!list_fmap_compose in E. by symmetry. }
  split.
  - clear E Hin. revert its Hsort Ek. induction r as [|s r IH]; intros [|it its] Hsort Ek;
      try done; [constructor|].
    csimpl in *. injection Ek as Ek1 Ek2. inversion Hsort as [|? ? Hs Hall]; subst.
    constructor; [by eapply IH|]. apply Forall_fmap, Forall_forall. intros s' Hs'.
    apply (list_elem_of_fmap_2 sle_key) in Hs'. rewrite Ek2 in Hs'.
    apply list_elem_of_fmap in Hs' as (it' & Ek' & Hit').
    pose proof (proj1 (Forall_forall _ _) Hall _ Hit') as Hlt. unfold key_lt, item_lt in *. simpl. lia.
  - intros k s. rewrite list_elem_of_fmap. unfold ledger_map. rewrite lookup_entries. split.
    + intros (s' & [= -> ->] & Hs'). apply (list_elem_of_fmap_2 (fun s => (sle_key s, Some s))) in Hs'.
      rewrite <-E in Hs'. apply list_elem_of_fmap in Hs' as (it & [= Ek' Es] & Hit).
      apply Hin in Hit as [Hit HP]. rewrite Ek', (item_map_elem _ _ _ (lw_state _ Hwf) Hit). done.
    + intros [Hs HP]. destruct (item_map (stateMap_ l) !! k) as [d|] eqn:Hd; [simpl in Hs|done].
      rewrite (item_map_Some _ _ _ _ (lw_state _ Hwf)) in Hd.
      assert (mkItem k d ∈ its) as Hit by (by apply Hin).
      apply (list_elem_of_fmap_2 (fun it => (item_key it, sle_parse (item_data it) (item_key it)))) in Hit.
      rewrite E in Hit. apply list_elem_of_fmap in Hit as (s' & [= Ek' Es] & Hs'). simpl in Es.
      exists s'. rewrite Hs in Es. injection Es as <-. by rewrite Ek'.
Qed.

Lemma snd_pair (r : list SLE) : ((fun s => (sle_key s, s)) <$> r).*2 = r.
Proof. rewrite <-list_fmap_compose. apply list_fmap_id. Qed.

Lemma sles_spec l : ledger_wf l -> sles l = Ok (ordered (ledger_map l)).*2.
Proof.
  intros Hwf. unfold sles.
  destruct (begin_spec _ _ (lw_state _ Hwf)) as (cur & -> & E). cbn [mbind result_bind].
  rewrite E. cbn [mbind result_bind].
  destruct (parse_items_spec l (items (stateMap_ l)) Hwf) as (r & -> & Hr); [done|].
  destruct (parsed_ordered l _ r (fun _ => True) Hwf (wf_sorted _ _ _ _ (proj1 (lw_state _ Hwf))))
    as [Hs Hm]; [naive_solver|done|].
  f_equal. rewrite <-(snd_pair r). f_equal.
  apply key_sorted_unique; [done|apply ordered_sorted|].
  intros [k s]. rewrite Hm, elem_of_ordered. naive_solver.
Qed.

Lemma ledger_slesUpperBound_spec l key :
  ledger_wf l -> is_uint256 key ->
  slesUpperBound l key = Ok (upper_bound (ledger_map l) key).*2.
Proof.
  intros Hwf Hk. unfold slesUpperBound.
  destruct (upperBound_map _ _ _ (lw_state _ Hwf) Hk) as (x & st & -> & _ & E).
  cbn [mbind result_bind]. rewrite E. cbn [mbind result_bind].
  set (its := filter _ (items (stateMap_ l))).
  assert (forall it, it ∈ its <-> it ∈ items (stateMap_ l) /\ (key < item_key it)%N) as Hin.
  { intros it. unfold its. rewrite list_elem_of_filter. naive_solver. }
  destruct (parse_items_spec l its Hwf) as (r & -> & Hr); [naive_solver|].
  destruct (parsed_ordered l its r (fun k => (key < k)%N) Hwf) as [Hs Hm]; [|done|done|].
  { apply StronglySorted_filter, (wf_sorted _ _ _ _ (proj1 (lw_state _ Hwf))). }
  f_equal. rewrite <-(snd_pair r). f_equal.
  apply key_sorted_unique; [done|apply upper_bound_sorted|].
  intros [k s]. rewrite Hm, elem_of_upper_bound. naive_solver.
Qed.

(** *** Raw changes *)

Lemma entries_insert m s :
  sle_parse (sle_add s) (sle_key s) = Some s ->
  entries (<[sle_key s := sle_add s]> m) = <[sle_key s := s]> (entries m).
Proof. intros Hp. unfold entries. by apply map_imap_insert_Some. Qed.

Lemma entries_delete m k : entries (delete k m) = delete k (entries m).
Proof. unfold entries. apply map_imap_delete. Qed.

(** Replacing the state map by one whose entries parse. *)
Lemma ledger_wf_insert l s root :
  ledger_wf l -> key_ok (sle_key s) -> sle_parse (sle_add s) (sle_key s) = Some s ->
  wf_map TnAccountState root -> item_map root = <[sle_key s := sle_add s]> (item_map (stateMap_ l)) ->
  ledger_wf (set_stateMap l root) /\
  ledger_map (set_stateMap l root) = <[sle_key s := s]> (ledger_map l).
Proof.
  intros [Hs Ht Hp] [Hz _] Hps Hr Em. split.
  - split; [done|done|]. intros k d. simpl. rewrite Em, lookup_insert_Some.
    intros [[<- <-]|[_ Hd]]; [|by apply Hp]. split; [done|]. by exists s.
  - unfold ledger_map. simpl. rewrite Em. by apply entries_insert.
Qed.

Lemma rawInsert_spec l s :
  ledger_wf l -> key_ok (sle_key s) -> sle_parse (sle_add s) (sle_key s) = Some s ->
  match ledger_map l !! sle_key s with
  | None => exists l', rawInsert l s = Ok l' /\ ledger_wf l' /\
      ledger_map l' = <[sle_key s := s]> (ledger_map l) /\
      header_ l' = header_ l /\ txMap_ l' = txMap_ l
  | Some _ => rawInsert l s = Throw "Ledger::rawInsert: key already exists"
  end.
Proof.
  intros Hwf Hk Hps. unfold rawInsert.
  pose proof (addGiveItem_map TnAccountState (stateMap_ l) (mkItem (sle_key s) (sle_add s))
    (lw_state _ Hwf) (proj2 Hk)) as Ha. simpl in Ha.
  pose proof (ledger_map_state l (sle_key s) Hwf) as Hiff.
  destruct (item_map (stateMap_ l) !! sle_key s) as [d|].
  - destruct (proj2 Hiff ltac:(eauto)) as [s' ->]. by rewrite Ha.
  - destruct (ledger_map l !! sle_key s) as [s'|]; [by destruct (proj1 Hiff ltac:(eauto))|].
    destruct Ha as (root & -> & Hr & Em). cbn [mbind result_bind].
    destruct (ledger_wf_insert l s root) as [? ?]; [done..|]. eexists. by split_and!.
Qed.

Lemma takes_no_clash l s :
  ledger_wf l -> ledger_takes (ledger_map l !! sle_key s) s ->
  no_clash leafHash (stateMap_ l) (mkItem (sle_key s) (sle_add s)).
Proof.
  intros Hwf [_ Hc] old Hin Hk E. simpl in *.
  pose proof (item_map_elem _ _ _ (lw_state _ Hwf) Hin) as Hd. rewrite Hk in Hd.
  destruct (lw_parse _ Hwf _ _ Hd) as (_ & o & Ho & _).
  apply (Hc o); [|done|done]. unfold ledger_map. by rewrite lookup_entries, Hd.
Qed.

Lemma rawReplace_spec l s :
  ledger_wf l -> key_ok (sle_key s) -> ledger_takes (ledger_map l !! sle_key s) s ->
  match ledger_map l !! sle_key s with
  | Some _ => exists l', rawReplace l s = Ok l' /\ ledger_wf l' /\
      ledger_map l' = <[sle_key s := s]> (ledger_map l) /\
      header_ l' = header_ l /\ txMap_ l' = txMap_ l
  | None => rawReplace l s = Throw "Ledger::rawReplace: key not found"
  end.
Proof.
  intros Hwf Hk Htk. pose proof (takes_no_clash l s Hwf Htk) as Hc. destruct Htk as [Hps _].
  unfold rawReplace.
  pose proof (updateGiveItem_map leafHash TnAccountState (stateMap_ l)
    (mkItem (sle_key s) (sle_add s)) Hc (lw_state _ Hwf) (proj2 Hk)) as Ha.
  simpl in Ha. pose proof (ledger_map_state l (sle_key s) Hwf) as Hiff.
  destruct (item_map (stateMap_ l) !! sle_key s) as [d|].
  - destruct (proj2 Hiff ltac:(eauto)) as [s' ->].
    destruct Ha as (root & -> & Hr & Em). cbn [mbind result_bind].
    destruct (ledger_wf_insert l s root) as [? ?]; [done..|]. eexists. by split_and!.
  - destruct (ledger_map l !! sle_key s) as [s'|]; [by destruct (proj1 Hiff ltac:(eauto))|].
    by rewrite Ha.
Qed.

Lemma rawErase_spec l s :
  ledger_wf l -> is_uint256 (sle_key s) ->
  match ledger_map l !! sle_key s with
  | Some _ => exists l', rawErase l s = Ok l' /\ ledger_wf l' /\
      ledger_map l' = delete (sle_key s) (ledger_map l) /\
      header_ l' = header_ l /\ txMap_ l' = txMap_ l
  | None => rawErase l s = Throw "Ledger::rawErase: key not found"
  end.
Proof.
  intros Hwf Hk. unfold rawErase, rawErase_key.
  pose proof (delItem_map TnAccountState (stateMap_ l) (sle_key s) (lw_state _ Hwf) Hk) as Ha.
  pose proof (ledger_map_state l (sle_key s) Hwf) as Hiff.
  destruct (item_map (stateMap_ l) !! sle_key s) as [d|].
  - destruct (proj2 Hiff ltac:(eauto)) as [s' ->].
    destruct Ha as (root & -> & Hr & Em). cbn [mbind result_bind].
    eexists. split_and!; [done| | |done|done].
    + destruct Hwf as [Hs Ht Hp]. split; [done|done|]. intros k d'. simpl.
      rewrite Em, lookup_delete_Some. intros [_ ?]. by apply Hp.
    + unfold ledger_map. simpl. by rewrite Em, entries_delete.
  - destruct (ledger_map l !! sle_key s) as [s'|]; [by destruct (proj1 Hiff ltac:(eauto))|].
    by rewrite Ha.
Qed.

(** *** Transactions *)

Lemma deserialize_serialized txn meta ser1 ser2 r1 r2 :
  (blob_size txn < 2 ^ 31)%Z -> (blob_size meta < 2 ^ 31)%Z ->
  addVL txn empty_serializer = Ok (r1, ser1) -> addVL meta ser1 = Ok (r2, ser2) ->
  deserializeTxPlusMeta (data_ ser2) = Ok (txn, meta).
Proof.
  intros Ht Hm. unfold addVL, addEncoded. rewrite !i32_small by (pose proof (blob_size_nonneg txn);
    pose proof (blob_size_nonneg meta); lia).
  destruct (encoded (blob_size txn)) as [e1|] eqn:E1; [|done]. intros [= _ <-].
  destruct (encoded (blob_size meta)) as [e2|] eqn:E2; [|done]. intros [= _ <-].
  unfold deserializeTxPlusMeta, getSlice. cbn [push_back data_ addRaw snd empty_serializer app].
  rewrite <-!app_assoc, makeSerialIter_at.
  rewrite (getVLDataLength_spec _ (blob_size txn)) by (done || apply blob_size_nonneg).
  cbn [mbind result_bind]. rewrite fetch_app by (unfold fits; lia). cbn [mbind result_bind].
  rewrite (getVLDataLength_spec _ (blob_size meta)) by (done || apply blob_size_nonneg).
  cbn [mbind result_bind].
  rewrite <-(app_nil_r meta) at 2. rewrite fetch_app by (unfold fits; lia). done.
Qed.

(** The transactions of a closed ledger. *)
Definition tx_entry l (key : N) (txn meta : Blob) : Prop :=
  exists data, item_map (txMap_ l) !! key = Some data /\
    deserializeTxPlusMeta data = Ok (txn, meta).

Definition vl_ok (b : Blob) : Prop := (blob_size b <= 918744)%Z.

Lemma txRead_spec l key txn meta :
  ledger_wf l -> is_uint256 key -> tx_entry l key txn meta ->
  txRead l key = Ok (Some (txn, meta)).
Proof.
  intros Hwf Hk (data & Hd & E). unfold txRead.
  rewrite (peekItem_map _ _ _ (lw_tx _ Hwf) Hk), Hd. cbn [mbind result_bind fmap option_fmap option_map item_data].
  by rewrite E.
Qed.

Lemma addVL_Ok b ser : vl_ok b -> exists r ser', addVL b ser = Ok (r, ser').
Proof.
  unfold vl_ok. intros Hb. unfold addVL, addEncoded. pose proof (blob_size_nonneg b).
  rewrite i32_small by lia. pose proof (encoded_Ok (blob_size b) ltac:(lia)) as Ho.
  rewrite (proj2 (Z.leb_le _ _)) in Ho by lia.
  destruct (encoded (blob_size b)); [|done]. by eexists _, _.
Qed.

Lemma rawTxInsert_spec l key txn meta :
  ledger_wf l -> is_uint256 key -> vl_ok txn -> vl_ok meta ->
  item_map (txMap_ l) !! key = None ->
  exists l', rawTxInsert l key txn (Some meta) = Ok l' /\ ledger_wf l' /\
    stateMap_ l' = stateMap_ l /\ header_ l' = header_ l /\ tx_entry l' key txn meta /\
    (forall j, j <> key -> item_map (txMap_ l') !! j = item_map (txMap_ l) !! j).
Proof.
  intros Hwf Hk Ht Hm Hn. unfold rawTxInsert.
  destruct (addVL_Ok txn empty_serializer Ht) as (r1 & s1 & E1).
  destruct (addVL_Ok meta s1 Hm) as (r2 & s2 & E2).
  rewrite E1. cbn [mbind result_bind]. rewrite E2. cbn [mbind result_bind].
  pose proof (addGiveItem_map TnTransactionMd (txMap_ l) (mkItem key (data_ s2))
    (lw_tx _ Hwf) Hk) as Ha. simpl in Ha. rewrite Hn in Ha.
  destruct Ha as (root & -> & Hr & Em). cbn [mbind result_bind].
  eexists. split_and!; [done| |done|done| |].
  - destruct Hwf as [Hs _ Hp]. by split.
  - exists (data_ s2). simpl. rewrite Em, lookup_insert_eq. split; [done|].
    unfold vl_ok in *. eapply deserialize_serialized, E2; [lia|lia|exact E1].
  - intros j Hj. simpl. by rewrite Em, lookup_insert_ne.
Qed.
End LedgerSpec.

(** ** The instances *)

#[export] Instance Ledger_ReadViewLaws `{Digest, SLECodec} : ReadViewLaws Ledger.
Proof.
  refine {| rv_wf := fun _ l => ledger_wf l; rv_map := fun _ l => ledger_map l;
            rv_ptrs := fun _ => ∅ |}.
  - set_solver.
  - done.
  - intros h l k s. apply ledger_map_key.
  - intros h l k. apply read_spec.
  - intros h l k s. apply ledger_map_ok.
  - intros h l k Hwf Hk. by apply exists_spec.
  - intros h l k Hwf Hk [s Hs]. apply exists_spec; [done..|].
    unfold map_read in Hs. destruct (ledger_map l !! kl_key k); [eauto|done].
  - intros h l key last. apply ledger_succ_spec.
Defined.

#[export] Instance Ledger_SlesViewLaws `{Digest, SLECodec} : SlesViewLaws Ledger.
Proof.
  split; [intros h l; apply sles_spec|intros h l k; apply ledger_slesUpperBound_spec].
Qed.

(** The drops destroyed are the drops the header has lost. *)
#[export] Instance Ledger_RawViewLaws `{Digest, SLECodec} : RawViewLaws Ledger.
Proof.
  refine {| rv_destroyed := fun l => (- drops (header_ l))%Z; raw_takes := ledger_takes |}.
  - intros h l p s Hwf Hp Hk Hn Htk. simpl in *. rewrite Hp. cbn [from_option_throw mbind result_bind].
    pose proof (rawInsert_spec l s Hwf Hk (proj1 Htk)) as Hs. rewrite Hn in Hs.
    destruct Hs as (l' & ? & ? & ? & Hh & _). exists l'. split_and!; try done. by rewrite Hh.
  - intros h l p s Hwf Hp Hk [x Hx] Htk. simpl in *. rewrite Hp. cbn [from_option_throw mbind result_bind].
    pose proof (rawReplace_spec l s Hwf Hk Htk) as Hs. rewrite Hx in Hs.
    destruct Hs as (l' & ? & ? & ? & Hh & _). exists l'. split_and!; try done. by rewrite Hh.
  - intros h l p s Hwf Hp Hk [x Hx]. simpl in *. rewrite Hp. cbn [from_option_throw mbind result_bind].
    pose proof (rawErase_spec l s Hwf (proj2 Hk)) as Hs. rewrite Hx in Hs.
    destruct Hs as (l' & ? & ? & ? & Hh & _). exists l'. split_and!; try done. by rewrite Hh.
  - intros h l z [Hs Ht Hp]. simpl. split_and!; [by split|done|lia].
Defined.
