(* ===== verification/StackedViews.v ===== *)
(** * Stacked views: OpenView and ApplyViewBase

    [OpenView] (OpenView.h/.cpp) accumulates raw changes and transactions
    over a base view; [detail::ApplyViewBase] and [Sandbox] (ApplyViewBase.cpp,
    Sandbox.h) are the editable views transactors work on.  Both are generic
    in the base view, which is used through the [ReadView] interface only,
    and both present the view interfaces themselves, so views stack. *)

From S2P Require Import RawStateTable ApplyStateTable.
From S2P Require Import Prelude LedgerEntry Views Serializer LedgerHeader SHAMapHash Ledger.

(** The header and the rules of a view. *)
Class HeaderView (V : Type) : Type := {
  rv_header : V -> LedgerHeader;
  rv_open : V -> bool;
  rv_rules : V -> Rules
}.

#[export] Instance Ledger_HeaderView : HeaderView Ledger :=
  {| rv_header := header_; rv_open := fun _ => false; rv_rules := rules_ |}.

(** ** OpenView *)

Record TxData : Type := mkTxData { txn : Blob; meta : option Blob }.

Record OpenView (V : Type) : Type := mkOpenView {
  ov_txs : gmap N TxData;
  ov_rules : Rules;
  ov_header : LedgerHeader;
  ov_base : V;
  ov_items : RawStateTable.RawStateTable;
  ov_baseTxCount : N;
  ov_open : bool
}.
Arguments mkOpenView {V} _ _ _ _ _ _ _.
Arguments ov_txs {V} _.
Arguments ov_rules {V} _.
Arguments ov_header {V} _.
Arguments ov_base {V} _.
Arguments ov_items {V} _.
Arguments ov_baseTxCount {V} _.
Arguments ov_open {V} _.

Section OpenView.
Context {V : Type}.
Implicit Types (v : OpenView V) (b : V).

Definition set_items v (t : RawStateTable.RawStateTable) : OpenView V :=
  mkOpenView (ov_txs v) (ov_rules v) (ov_header v) (ov_base v) t (ov_baseTxCount v) (ov_open v).

(** [OpenView(OpenLedgerT, ...)]. *)
Definition makeOpenLedger `{HeaderView V} b (rules : Rules) : OpenView V :=
  let p := rv_header b in
  mkOpenView ∅ rules
    (mkLedgerHeader (u32 (seq p + 1)) (closeTime p) (hash p) (txHash p) (accountHash p) (hash p)
       (drops p) false false (closeFlags p) (closeTimeResolution p) (closeTime p))
    b RawStateTable.empty_table 0 true.

(** [OpenView(ReadView const*, ...)], the view a new closed ledger is built
    in. *)
Definition makeView `{HeaderView V} b : OpenView V :=
  mkOpenView ∅ (rv_rules b) (rv_header b) b RawStateTable.empty_table 0 (rv_open b).

Definition txCount v : N := ov_baseTxCount v + N.of_nat (size (ov_txs v)).

(** [rawTxInsert]: [emplace] fails on a key that is present. *)
Definition ov_rawTxInsert v (key : N) (tx : Blob) (metaData : option Blob)
    : result (OpenView V) :=
  match ov_txs v !! key with
  | Some _ => Throw "rawTxInsert: duplicate TX id"
  | None => Ok (mkOpenView (<[key := mkTxData tx metaData]> (ov_txs v)) (ov_rules v)
                  (ov_header v) (ov_base v) (ov_items v) (ov_baseTxCount v) (ov_open v))
  end.

Definition ov_txExists v (key : N) : bool := bool_decide (is_Some (ov_txs v !! key)).

(** The loop of [apply] over the transactions: an exception leaves those before
    it in the target. *)
Fixpoint insert_txs {W : Type} `{TxsRawView W} (to : W) (txs : list (N * TxData)) : W * result () :=
  match txs with
  | [] => (to, Ok ())
  | (key, d) :: txs =>
      match raw_txInsert to key (txn d) (meta d) with
      | Ok to => insert_txs to txs
      | Throw e => (to, Throw e)
      end
  end.

(** [apply(TxsRawView&)]: the state changes, then the transactions.  Returned
    is the target as it is left, with the exception if there is one; a state
    change that is refused ends the process ([logicError]). *)
Definition apply {W : Type} `{RawView W, TxsRawView W} (h : Heap) v (to : W) : W * result () :=
  match RawStateTable.apply h (ov_items v) to with
  | Ok to => insert_txs to (ordered (ov_txs v))
  | Throw e => (to, Throw e)
  end.
End OpenView.

(** [OpenView(BatchViewT, OpenView& base)]. *)
Definition makeBatchView {V} (b : OpenView V) : OpenView (OpenView V) :=
  mkOpenView ∅ (ov_rules b) (ov_header b) b RawStateTable.empty_table (txCount b) (ov_open b).

#[export] Instance OpenView_HeaderView {V} : HeaderView (OpenView V) :=
  {| rv_header := ov_header; rv_open := ov_open; rv_rules := ov_rules |}.

#[export] Instance OpenView_ReadView {V} `{ReadView V} : ReadView (OpenView V) := {
  rv_exists h v k := RawStateTable.exists_ h (ov_base v) (ov_items v) k;
  rv_read h v k := RawStateTable.read h (ov_base v) (ov_items v) k;
  rv_succ h v key last := RawStateTable.succ h (ov_base v) (ov_items v) key last
}.

#[export] Instance OpenView_RawView {V} : RawView (OpenView V) := {
  raw_erase h v p := t ← RawStateTable.erase h (ov_items v) p; Ok (set_items v t);
  raw_insert h v p := t ← RawStateTable.insert h (ov_items v) p; Ok (set_items v t);
  raw_replace h v p := t ← RawStateTable.replace h (ov_items v) p; Ok (set_items v t);
  raw_destroyXRP v fee := set_items v (RawStateTable.destroyXRP (ov_items v) fee)
}.

#[export] Instance OpenView_SlesView {V} `{SlesView V} : SlesView (OpenView V) := {
  rv_sles h v := it ← RawStateTable.slesBegin h (ov_base v) (ov_items v);
                 RawStateTable.collect_all h it;
  rv_slesUpperBound h v k := it ← RawStateTable.slesUpperBound h (ov_base v) (ov_items v) k;
                             RawStateTable.collect_all h it
}.

#[export] Instance OpenView_TxsRawView {V} : TxsRawView (OpenView V) := ov_rawTxInsert.

(** ** ApplyViewBase and Sandbox *)

Record ApplyViewBase (V : Type) : Type := mkApplyViewBase {
  av_flags : N;
  av_base : V;
  av_items : ApplyStateTable.ApplyStateTable
}.
Arguments mkApplyViewBase {V} _ _ _.
Arguments av_flags {V} _.
Arguments av_base {V} _.
Arguments av_items {V} _.

Section ApplyViewBase.
Context {V : Type}.
Implicit Types (v : ApplyViewBase V).

Definition av_set v (t : ApplyStateTable.ApplyStateTable) : ApplyViewBase V :=
  mkApplyViewBase (av_flags v) (av_base v) t.

(** [Sandbox(ReadView const*, ApplyFlags)]. *)
Definition makeSandbox (b : V) (flags : N) : ApplyViewBase V :=
  mkApplyViewBase flags b ApplyStateTable.empty_table.

Definition av_peek `{ReadView V} (h : Heap) v (k : Keylet)
    : Heap * ApplyViewBase V * option N :=
  let '(h, t, r) := ApplyStateTable.peek h (av_base v) (av_items v) k in (h, av_set v t, r).

Definition av_erase (h : Heap) v (p : N) : result (ApplyViewBase V) :=
  t ← ApplyStateTable.erase h (av_items v) p; Ok (av_set v t).
Definition av_insert (h : Heap) v (p : N) : result (ApplyViewBase V) :=
  t ← ApplyStateTable.insert h (av_items v) p; Ok (av_set v t).
Definition av_update (h : Heap) v (p : N) : result (ApplyViewBase V) :=
  t ← ApplyStateTable.update h (av_items v) p; Ok (av_set v t).

(** [Sandbox::apply]. *)
Definition sandbox_apply {W : Type} `{RawView W} (h : Heap) v (to : W) : result W :=
  ApplyStateTable.apply h (av_items v) to.
End ApplyViewBase.

#[export] Instance ApplyViewBase_HeaderView {V} `{HeaderView V} : HeaderView (ApplyViewBase V) :=
  {| rv_header := fun v => rv_header (av_base v); rv_open := fun v => rv_open (av_base v);
     rv_rules := fun v => rv_rules (av_base v) |}.

#[export] Instance ApplyViewBase_ReadView {V} `{ReadView V} : ReadView (ApplyViewBase V) := {
  rv_exists h v k := ApplyStateTable.exists_ h (av_base v) (av_items v) k;
  rv_read h v k := ApplyStateTable.read h (av_base v) (av_items v) k;
  rv_succ h v key last := ApplyStateTable.succ h (av_base v) (av_items v) key last
}.

#[export] Instance ApplyViewBase_RawView {V} : RawView (ApplyViewBase V) := {
  raw_erase h v p := t ← ApplyStateTable.rawErase h (av_items v) p; Ok (av_set v t);
  raw_insert h v p := t ← ApplyStateTable.insert h (av_items v) p; Ok (av_set v t);
  raw_replace h v p := t ← ApplyStateTable.replace h (av_items v) p; Ok (av_set v t);
  raw_destroyXRP v fee := av_set v (ApplyStateTable.destroyXRP (av_items v) fee)
}.

(** [slesBegin] and [slesUpperBound] are the base's: the range does not show
    the pending items. *)
#[export] Instance ApplyViewBase_SlesView {V} `{SlesView V} : SlesView (ApplyViewBase V) := {
  rv_sles h v := rv_sles h (av_base v);
  rv_slesUpperBound h v k := rv_slesUpperBound h (av_base v) k
}.

(** ** The laws pass from the base to the view *)

#[export] Instance OpenView_ReadViewLaws {V} `{ReadViewLaws V} : ReadViewLaws (OpenView V).
Proof.
  refine {| rv_wf := fun h v => RawStateTable.table_wf h (ov_base v) (ov_items v);
            rv_map := fun h v => RawStateTable.table_map h (ov_base v) (ov_items v);
            rv_ptrs := fun v => rv_ptrs (ov_base v) ∪ RawStateTable.table_ptrs (ov_items v) |}.
  - intros h v Hwf. apply union_least; [apply rv_ptrs_dom, Hwf|].
    by eapply RawStateTable.table_ptrs_dom.
  - intros h h' v. apply RawStateTable.table_frame.
  - intros h v k s. apply RawStateTable.table_map_key.
  - intros h v k. apply RawStateTable.read_map.
  - intros h v k s. apply RawStateTable.table_map_ok.
  - intros h v k. apply RawStateTable.exists_sound.
  - intros h v k. apply RawStateTable.exists_complete.
  - intros h v key last. apply RawStateTable.succ_spec.
Defined.

#[export] Instance OpenView_RawViewLaws {V} `{ReadViewLaws V} : RawViewLaws (OpenView V).
Proof.
  refine {| rv_destroyed := fun v => RawStateTable.dropsDestroyed_ (ov_items v);
            raw_takes := fun _ _ => True |}.
  - intros h v p s Hwf Hp Hk Hn _.
    destruct (RawStateTable.insert_map h (ov_base v) (ov_items v) p s) as (t & E & ? & ? & ?);
      [done..|]. exists (set_items v t). simpl. by rewrite E.
  - intros h v p s Hwf Hp Hk Hn _.
    destruct (RawStateTable.replace_map h (ov_base v) (ov_items v) p s) as (t & E & ? & ? & ?);
      [done..|]. exists (set_items v t). simpl. by rewrite E.
  - intros h v p s Hwf Hp Hk Hn.
    destruct (RawStateTable.erase_map h (ov_base v) (ov_items v) p s) as (t & E & ? & ? & ?);
      [done..|]. exists (set_items v t). simpl. by rewrite E.
  - intros h v z [Hb Hi Ha]. simpl. split_and!; [by split|done|done].
Defined.

#[export] Instance OpenView_SlesViewLaws {V} `{SlesViewLaws V} : SlesViewLaws (OpenView V).
Proof.
  split; intros h v; [apply RawStateTable.slesBegin_spec|intros k; apply RawStateTable.slesUpperBound_spec].
Qed.

#[export] Instance ApplyViewBase_ReadViewLaws {V} `{ReadViewLaws V} :
  ReadViewLaws (ApplyViewBase V).
Proof.
  refine {| rv_wf := fun h v => ApplyStateTable.table_wf h (av_base v) (av_items v);
            rv_map := fun h v => ApplyStateTable.table_map h (av_base v) (av_items v);
            rv_ptrs := fun v => rv_ptrs (av_base v) ∪ ApplyStateTable.table_ptrs (av_items v) |}.
  - intros h v Hwf. apply union_least; [apply rv_ptrs_dom, Hwf|].
    by eapply ApplyStateTable.ast_table_ptrs_dom.
  - intros h h' v. apply ApplyStateTable.ast_table_frame.
  - intros h v k s. apply ApplyStateTable.ast_table_map_key.
  - intros h v k. apply ApplyStateTable.ast_read_map.
  - intros h v k s. apply ApplyStateTable.ast_table_map_ok.
  - intros h v k. apply ApplyStateTable.ast_exists_sound.
  - intros h v k. apply ApplyStateTable.ast_exists_complete.
  - intros h v key last. apply ApplyStateTable.ast_succ_spec.
Defined.

#[export] Instance ApplyViewBase_RawViewLaws {V} `{ReadViewLaws V} :
  RawViewLaws (ApplyViewBase V).
Proof.
  refine {| rv_destroyed := fun v => ApplyStateTable.dropsDestroyed_ (av_items v);
            raw_takes := fun _ _ => True |}.
  - intros h v p s Hwf Hp Hk Hn _.
    destruct (ApplyStateTable.ast_insert_map h (av_base v) (av_items v) p s) as (t & E & ? & ? & ?);
      [done..|]. exists (av_set v t). simpl. by rewrite E.
  - intros h v p s Hwf Hp Hk Hn _.
    destruct (ApplyStateTable.ast_replace_map h (av_base v) (av_items v) p s)
      as (t & E & ? & ? & ?); [done..|]. exists (av_set v t). simpl. by rewrite E.
  - intros h v p s Hwf Hp Hk Hn.
    destruct (ApplyStateTable.rawErase_map h (av_base v) (av_items v) p s)
      as (t & E & ? & ? & ?); [done..|]. exists (av_set v t). simpl. by rewrite E.
  - intros h v z [Hb Hi Ha]. simpl. split_and!; [by split|done|done].
Defined.
