(* ===== verification/ApplyToLedger.v ===== *)
(** * Applying an open view to its ledger

    [OpenView::apply] with a [Ledger] as the target: the state changes reach
    the state map, the transactions the transaction map, the destroyed drops
    the header. *)

From S2P Require Import RawStateTable.
From S2P Require Import Prelude LedgerEntry Views Serializer LedgerHeader SHAMapNodeID SHAMap SHAMapSpec SHAMapMap SHAMapHash Ledger LedgerSpec StackedViews.

Section apply_to_ledger.
Context `{Digest, SLECodec}.
Implicit Types (l : Ledger).

(** The transactions can be filed in the ledger's transaction map. *)
Definition txs_fit (txs : list (N * TxData)) l : Prop :=
  NoDup txs.*1 /\
  forall k d, (k, d) ∈ txs -> is_uint256 k /\ item_map (txMap_ l) !! k = None /\
    vl_ok (txn d) /\ exists m, meta d = Some m /\ vl_ok m.

Lemma insert_txs_ledger txs l :
  ledger_wf l -> txs_fit txs l ->
  exists l', insert_txs l txs = (l', Ok ()) /\
    ledger_wf l' /\ stateMap_ l' = stateMap_ l /\ header_ l' = header_ l /\
    (forall k d m, (k, d) ∈ txs -> meta d = Some m -> tx_entry l' k (txn d) m) /\
    (forall k, k ∉ txs.*1 -> item_map (txMap_ l') !! k = item_map (txMap_ l) !! k).
Proof.
  revert l. induction txs as [|[k d] txs IH]; intros l Hwf [Hnd Hfit].
  - exists l. split_and!; try done. by intros k d m ?%not_elem_of_nil.
  - apply NoDup_cons in Hnd as [Hk Hnd].
    destruct (Hfit k d ltac:(by left)) as (Hu & Hn & Ht & m & Hm & Hv).
    destruct (rawTxInsert_spec l k (txn d) m) as (l1 & E1 & Hwf1 & Hs1 & Hh1 & Hx1 & Ho1);
      [done..|].
    assert (forall k' d', (k', d') ∈ txs -> k' <> k) as Hne.
    { intros k' d' Hin ->. apply Hk. by apply (list_elem_of_fmap_2 fst) in Hin. }
    destruct (IH l1 Hwf1) as (l2 & E2 & Hwf2 & Hs2 & Hh2 & Hx2 & Ho2).
    { split; [done|]. intros k' d' Hin. rewrite Ho1 by (by eapply Hne).
      apply Hfit. by right. }
    exists l2. cbn [insert_txs]. unfold raw_txInsert, Ledger_TxsRawView. rewrite Hm, E1.
    split_and!; [done|done|congruence|congruence| |].
    + intros k' d' m' [[= -> ->]|Hin]%elem_of_cons Hm'; [|by eapply Hx2].
      rewrite Hm in Hm'. injection Hm' as <-. destruct Hx1 as (data & Hd & ?).
      exists data. split; [|done]. by rewrite Ho2.
    + intros k' Hk'. csimpl in Hk'. apply not_elem_of_cons in Hk' as [? ?].
      rewrite Ho2 by done. by apply Ho1.
Qed.

Lemma ledger_map_stateMap l l' : stateMap_ l' = stateMap_ l -> ledger_map l' = ledger_map l.
Proof. unfold ledger_map. by intros ->. Qed.
End apply_to_ledger.

(** Raw state changes touch neither the transaction map nor the header. *)
Lemma apply_items_frame `{Digest, SLECodec} h items (l l' : Ledger) :
  foldM (RawStateTable.apply_item h) l items = Ok l' ->
  txMap_ l' = txMap_ l /\ header_ l' = header_ l.
Proof.
  revert l. induction items as [|[k a] items IH]; intros l; simpl; [by intros [= <-]|].
  destruct (RawStateTable.apply_item h l (k, a)) as [l1|] eqn:E; [|done]. intros E'.
  destruct (IH _ E') as [-> ->]. clear E' IH. unfold RawStateTable.apply_item in E. simpl in E.
  destruct (RawStateTable.action a); apply bind_Ok in E as (s & _ & E);
    unfold rawErase, rawErase_key, rawInsert, rawReplace in E;
    apply bind_Ok in E as ([m b] & _ & E); destruct b; try done; by injection E as <-.
Qed.

Lemma apply_ledger_spec `{Digest, SLECodec} h (v : OpenView Ledger) :
  rv_wf h v -> takes_table Ledger h (ov_base v) (ov_items v) -> txs_fit (ordered (ov_txs v)) (ov_base v) ->
  exists l', StackedViews.apply h v (ov_base v) = (l', Ok ()) /\ ledger_wf l' /\
    ledger_map l' = rv_map h v /\
    header_ l' = header_ (rawDestroyXRP (ov_base v) (RawStateTable.dropsDestroyed_ (ov_items v))) /\
    forall k d m, ov_txs v !! k = Some d -> meta d = Some m ->
      txRead l' k = Ok (Some (txn d, m)).
Proof.
  intros Hwf Htk Hfit. pose proof (RawStateTable.wf_base _ _ _ Hwf) as Hb.
  destruct (RawStateTable.apply_map h (ov_base v) (ov_items v) (ov_base v) Hwf Hb eq_refl Htk)
    as (l1 & E1 & Hwf1 & Hm1 & _).
  destruct (apply_items_frame _ _ _ _ E1) as [Ht Hh].
  destruct (insert_txs_ledger (ordered (ov_txs v)) l1 Hwf1) as (l2 & E2 & Hwf2 & Hs2 & Hh2 & Hx2 & _).
  { destruct Hfit as [? Hf]. split; [done|]. by rewrite Ht. }
  exists l2. unfold StackedViews.apply. rewrite E1.
  split_and!; [done|done| |by rewrite Hh2, Hh|].
  - rewrite (ledger_map_stateMap l1 l2 Hs2). exact Hm1.
  - intros k d m Hk Hm. apply txRead_spec; [done| |].
    + apply elem_of_ordered in Hk. by destruct (proj2 Hfit _ _ Hk).
    + apply Hx2; [by apply elem_of_ordered|done].
Qed.
