(* ===== verification/Instances.v ===== *)
(** * Concrete parameters

    A digest of 256 bits and an entry codec, and small concrete ledgers over
    them: the theorems' hypotheses can hold, and the definitions run. *)

From S2P Require Import Prelude LedgerEntry Views Serializer LedgerHeader SHAMapNodeID SHAMap SHAMapSpec SHAMapMap SHAMapHash Ledger LedgerSpec.

(** Short strings (the index keys) hash to themselves, scaled so that the
    state trees of the examples are shallow; longer ones (the nodes and the
    headers) to 256 bits of a polynomial. *)
Definition example_hash (b : Blob) : N :=
  if (length b <=? 6)%nat then Z.to_N (2 ^ 200 * (2 ^ (8 * blob_size b) + be_sum b))
  else Z.to_N (foldl (fun acc x => Z.land (acc * 5 + x + 1) (Z.ones 256))%Z 7%Z b).

#[export] Instance example_digest : Digest := example_hash.

(** An entry as the bits of its number, a byte each; only the bits of the entry
    itself are accepted. *)
Fixpoint bits_of (p : positive) : Blob :=
  match p with xH => [1%Z] | xO p => 0%Z :: bits_of p | xI p => 1%Z :: bits_of p end.

Fixpoint of_bits (b : Blob) : positive :=
  match b with
  | [] | [_] => xH
  | x :: b => if (x =? 0)%Z then xO (of_bits b) else xI (of_bits b)
  end.

Lemma of_bits_of p : of_bits (bits_of p) = p.
Proof.
  assert (forall q, exists x b, bits_of q = x :: b) as Hne by (intros []; eauto).
  induction p as [p IH|p IH|]; cbn [bits_of]; [..|done];
    destruct (Hne p) as (x & b & E); rewrite E in IH |- *; cbn [of_bits Z.eqb] in *; by rewrite IH.
Qed.

#[export] Instance example_codec : SLECodec := {
  sle_add s := bits_of (encode s);
  sle_parse b _ := s ← decode (of_bits b); if decide (bits_of (encode s) = b) then Some s else None
}.

Lemma example_parse_add s k : sle_parse (sle_add s) k = Some s.
Proof.
  unfold sle_parse, sle_add, example_codec. rewrite of_bits_of, decode_encode. cbn. by rewrite decide_True.
Qed.

Lemma example_parse_Some d k s : sle_parse d k = Some s -> d = sle_add s.
Proof.
  unfold sle_parse, sle_add, example_codec. destruct (decode (of_bits d)) as [s'|]; [|done]. cbn.
  destruct (decide _); [|done]. by intros [= <-].
Qed.

(** Entries can be written that do not collide with the ones they replace. *)
Lemma example_takes old s :
  (forall o, old = Some o -> o <> s -> leafHash (sle_key s) (sle_add o) <> leafHash (sle_key s) (sle_add s)) ->
  ledger_takes old s.
Proof.
  intros Hne. split; [apply example_parse_add|]. intros o d Eo Hd%example_parse_Some E. subst d.
  destruct (decide (o = s)) as [->|Hos]; [done|]. by destruct (Hne o Eo Hos).
Qed.

(** The same by computation. *)
Definition takes_check (old : option SLE) (s : SLE) : bool :=
  match old with
  | Some o => negb (leafHash (sle_key s) (sle_add o) =? leafHash (sle_key s) (sle_add s))%N
  | None => true
  end.

Lemma takes_check_ok old s : takes_check old s = true -> ledger_takes old s.
Proof.
  destruct old as [o|]; cbn [takes_check]; intros Hc; apply example_takes; [|discriminate].
  intros o' [= <-] _. by apply N.eqb_neq, negb_true_iff.
Qed.

(** A ledger without entries. *)
Definition example_ledger : Ledger :=
  mkLedger false emptyMap emptyMap (mkFees 10 20 30) (mkRules ∅ None ∅)
    (mkLedgerHeader 7 0 11 0 0 10 1000 false false 0 30 0).

Lemma example_ledger_wf : ledger_wf example_ledger.
Proof.
  split; [by apply emptyMap_wf|by apply emptyMap_wf|].
  intros k d. simpl. by rewrite emptyMap_map, lookup_empty.
Qed.

Definition example_sle : SLE := mkSLE ltACCOUNT_ROOT 5 {[ "Sequence"%string := VUInt 1 ]}.
