(* ===== verification/ViewProps.v ===== *)
(** * Properties of the views

    What a transaction or a ledger build can rely on: sandboxes are isolated
    and commit exactly what was recorded, reads through any stack of views
    are reads of one finite map, ordered iteration is the map in key order,
    and applying an open view to a ledger reproduces the view. *)

From S2P Require Import RawStateTable ApplyStateTable.
From S2P Require Import Prelude LedgerEntry Views Serializer LedgerHeader SHAMapNodeID SHAMap SHAMapSpec SHAMapMap SHAMapHash Ledger LedgerSpec StackedViews ApplyToLedger Instances.

(** C3. Committing a sandbox: take any sequence of edits (peeks, writes
    through the pointers handed out, updates, inserts, erases, fee burns) over
    any well-formed view, in which pointers are used while they are held and
    entries are inserted only where none is shown.  No edit fails; the sandbox
    then shows the entries as they were last written, inserted and erased, and
    the view below its own; and [Sandbox::apply] to that view succeeds, as far
    as the view takes the entries: under a key whose change was recorded (by
    an update, an insert or an erase) the view then shows what the sandbox
    shows, under any other key what it showed before, even when a peeked copy
    was written to; the destroyed drops are added. *)
Theorem sandbox_commit {V} `{RawViewLaws V} h (base : V) flags es :
  rv_wf h base -> ApplyStateTable.legal_all (ApplyStateTable.new_session (rv_map h base)) es ->
  let a := ApplyStateTable.session_spec (ApplyStateTable.new_session (rv_map h base)) es in
  (forall k s, k ∈ ApplyStateTable.recorded a -> ApplyStateTable.shows a !! k = Some s ->
     raw_takes V (rv_map h base !! k) s) ->
  exists h' t, ApplyStateTable.run_edits base (h, ApplyStateTable.empty_table) es = Ok (h', t) /\
    rv_map h' base = rv_map h base /\
    let v := mkApplyViewBase flags base t in
    rv_map h' v = ApplyStateTable.shows a /\
    exists base', sandbox_apply h' v base = Ok base' /\ rv_wf h' base' /\
      (forall k, rv_map h' base' !! k =
         if decide (k ∈ ApplyStateTable.recorded a) then ApplyStateTable.shows a !! k
         else rv_map h base !! k) /\
      rv_destroyed base' = (rv_destroyed base + ApplyStateTable.burned a)%Z.
Proof.
  intros Hwf Hl a Htk.
  destruct (ApplyStateTable.run_edits_spec base _ es _ _ (ApplyStateTable.session_is_init h base Hwf) Hl)
    as ([h' t] & E & Hsi). fold a in Hsi. exists h', t. cbv zeta.
  destruct (ApplyStateTable.si_inv _ _ _ _ Hsi) as (Hwf' & Hm & _). simpl in Hwf', Hm.
  destruct (ApplyStateTable.ast_apply_map h' base t base Hwf'
    (ApplyStateTable.wf_base _ _ _ Hwf') eq_refl) as (b' & Eb & Hb & Hmap & Hd).
  { intros k x p s Hi Hx Hp. rewrite Hm.
    destruct (ApplyStateTable.session_pending _ _ _ _ _ _ _ _ _ Hsi Hi Hx Hp). by apply Htk. }
  split_and!; [done|done|exact (ApplyStateTable.si_shows _ _ _ _ Hsi)|].
  exists b'. split_and!; [done|done| |].
  2: { rewrite Hd. f_equal. exact (ApplyStateTable.si_burned _ _ _ _ Hsi). }
  intros k. rewrite Hmap. by apply ApplyStateTable.session_committed.
Qed.

(** A ledger with three entries, and a session that modifies the first, erases
    the second, writes to the third without recording it and inserts a
    fourth. *)
Definition acct (n : N) : N := n * 2 ^ 248.
Definition account (n seq : N) : SLE := mkSLE ltACCOUNT_ROOT (acct n) {[ "Sequence"%string := VUInt seq ]}.
Definition put_all (l : Ledger) (ss : list SLE) : result Ledger := foldM rawInsert l ss.
Definition three_accounts : Ledger :=
  Eval vm_compute in
  match put_all example_ledger [account 5 1; account 7 1; account 8 1] with Ok l => l | Throw _ => example_ledger end.
Definition example_edits : list ApplyStateTable.Edit :=
  [ApplyStateTable.EPeek (mkKeylet ltACCOUNT_ROOT (acct 5)); ApplyStateTable.EWrite (account 5 2);
   ApplyStateTable.EUpdate (acct 5); ApplyStateTable.EPeek (mkKeylet ltACCOUNT_ROOT (acct 7));
   ApplyStateTable.EErase (acct 7); ApplyStateTable.EPeek (mkKeylet ltACCOUNT_ROOT (acct 8));
   ApplyStateTable.EWrite (account 8 2); ApplyStateTable.EInsert (account 9 1);
   ApplyStateTable.EWrite (account 5 3); ApplyStateTable.EDestroyXRP 12].
Definition example_session_spec : ApplyStateTable.Session :=
  ApplyStateTable.session_spec (ApplyStateTable.new_session (ledger_map three_accounts)) example_edits.

Lemma put_all_wf ss l l' : ledger_wf l -> put_all l ss = Ok l' ->
  Forall (fun s => key_ok (sle_key s)) ss -> ledger_wf l'.
Proof.
  revert l. induction ss as [|s ss IH]; intros l Hwf; unfold put_all in *; cbn [foldM]; [by intros [= <-]|]. intros E [Hk Hs]%Forall_cons.
  pose proof (rawInsert_spec l s Hwf Hk (example_parse_add _ _)) as Hi.
  destruct (ledger_map l !! sle_key s); [by rewrite Hi in E|].
  destruct Hi as (l1 & E1 & Hwf1 & _). rewrite E1 in E. cbn in E. by eapply IH.
Qed.

Lemma three_accounts_wf : ledger_wf three_accounts.
Proof.
  apply (put_all_wf [account 5 1; account 7 1; account 8 1] example_ledger);
    [exact example_ledger_wf|by vm_compute|by repeat constructor].
Qed.

(** What the session asks of the ledger, by computation. *)
Lemma example_session_takes k s :
  k ∈ ApplyStateTable.recorded example_session_spec -> ApplyStateTable.shows example_session_spec !! k = Some s ->
  ledger_takes (ledger_map three_accounts !! k) s.
Proof.
  intros Hk Hs.
  assert (set_Forall (fun k => match ApplyStateTable.shows example_session_spec !! k with
    | Some s => takes_check (ledger_map three_accounts !! k) s = true | None => True end)
    (ApplyStateTable.recorded example_session_spec)) as Hall.
  { assert (ApplyStateTable.recorded example_session_spec = {[acct 9; acct 7; acct 5]}) as Hr.
    { vm_compute. reflexivity. }
    rewrite Hr.
    repeat apply set_Forall_union; apply set_Forall_singleton; by vm_compute. }
  specialize (Hall k Hk). cbn beta in Hall. rewrite Hs in Hall. by apply takes_check_ok.
Qed.

Lemma sandbox_commit_witness :
  exists h' t l', ApplyStateTable.run_edits three_accounts (∅, ApplyStateTable.empty_table) example_edits = Ok (h', t) /\
    rv_map h' (mkApplyViewBase 0 three_accounts t) =
      {[ acct 5 := account 5 3; acct 8 := account 8 2; acct 9 := account 9 1 ]} /\
    sandbox_apply h' (mkApplyViewBase 0 three_accounts t) three_accounts = Ok l' /\
    rv_map h' l' !! acct 5 = Some (account 5 3) /\ rv_map h' l' !! acct 7 = None /\
    rv_map h' l' !! acct 8 = Some (account 8 1) /\ rv_map h' l' !! acct 9 = Some (account 9 1) /\
    rv_destroyed l' = (rv_destroyed three_accounts + 12)%Z.
Proof.
  pose proof (three_accounts_wf : rv_wf (∅ : Heap) three_accounts) as Hwf.
  destruct (sandbox_commit ∅ three_accounts 0 example_edits Hwf)
    as (h' & t & E & _ & Hv & l' & El & _ & Hm & Hd).
  - apply (bool_decide_unpack _). by vm_compute.
  - exact example_session_takes.
  - exists h', t, l'. split_and!; [exact E| |exact El|..|exact Hd].
    all: etrans; [apply Hm || exact Hv|].
    all: vm_compute.
    all: reflexivity.
Defined.

Definition example_heap : Heap := (alloc ∅ example_sle).2.
Definition example_session : ApplyStateTable.ApplyStateTable :=
  ApplyStateTable.mkApplyStateTable {[ 5%N := (ApplyStateTable.Insert, (alloc ∅ example_sle).1) ]} 0.

Lemma example_session_reachable :
  rtc (ApplyStateTable.edit example_ledger) (∅, ApplyStateTable.empty_table)
    (example_heap, example_session).
Proof.
  apply rtc_once. by apply (ApplyStateTable.edit_insert example_ledger ∅
    ApplyStateTable.empty_table example_sle).
Qed.

(** C29. A sandbox is isolated and coherent: however it was edited, the view
    below still shows its original entries; what the sandbox shows under a
    key is the entry in memory of the item filed there (pending writes
    included), nothing for an erased one, and the base entry otherwise; reads
    and successor queries answer exactly from that map, and [peek] hands out
    a pointer to that entry without changing what is visible. *)
Theorem sandbox_view {V} `{ReadViewLaws V} h (base : V) flags h' t :
  rv_wf h base -> rtc (ApplyStateTable.edit base) (h, ApplyStateTable.empty_table) (h', t) ->
  let v := mkApplyViewBase flags base t in
  let m := rv_map h' v in
  rv_map h' base = rv_map h base /\
  (forall k, m !! k = match ApplyStateTable.items_ t !! k with
                      | Some (ApplyStateTable.Erase, _) => None
                      | Some (_, p) => h' !! p
                      | None => rv_map h base !! k
                      end) /\
  (forall k, key_ok (kl_key k) -> rv_read h' v k = map_read m k) /\
  (forall key last, is_uint256 key ->
     is_succ (fun k => is_Some (m !! k)) key last (rv_succ h' v key last)) /\
  (forall k, key_ok (kl_key k) ->
     let '(h2, v2, r) := av_peek h' v k in
     rv_map h2 v2 = m /\ map_read m k = r ≫= (fun p => h2 !! p)).
Proof.
  intros Hwf Hr. destruct (ApplyStateTable.session_inv_reachable h base _ Hwf Hr) as (Hwf' & Hm & _).
  simpl in Hwf', Hm. cbv zeta. split_and!; [done|..].
  - intros k. simpl. rewrite ApplyStateTable.ast_lookup_table_map, Hm.
    by destruct (ApplyStateTable.items_ t !! k) as [[[] p]|].
  - intros k Hk. by apply rv_read_spec.
  - intros key last Hk. by apply rv_succ_spec.
  - intros k Hk. unfold av_peek. simpl.
    destruct (ApplyStateTable.peek h' base t k) as [[h2 t2] r] eqn:E.
    destruct (ApplyStateTable.peek_map h' base t k h2 t2 r Hwf' Hk E) as (_ & Hmap & _ & Hres).
    split; [done|]. destruct r as [p|]; [|done].
    destruct Hres as (s & -> & Hp & _). simpl. by rewrite Hp.
Qed.

Lemma sandbox_view_witness :
  map_read (rv_map example_heap (mkApplyViewBase 0 example_ledger example_session))
    (mkKeylet ltACCOUNT_ROOT 5) = Some example_sle /\
  rv_read example_heap (mkApplyViewBase 0 example_ledger example_session)
    (mkKeylet ltACCOUNT_ROOT 5) =
  map_read (rv_map example_heap (mkApplyViewBase 0 example_ledger example_session))
    (mkKeylet ltACCOUNT_ROOT 5).
Proof.
  split; [by vm_compute|].
  apply (sandbox_view ∅ example_ledger 0 example_heap example_session);
    [exact example_ledger_wf|exact example_session_reachable|done].
Defined.

(** The merged iteration of an [OpenView]: over any base whose range is
    its entries in key order (a ledger, or another open view), stepping the
    two-way merge of the base range and the pending items from [slesBegin]
    to the end yields exactly the entries the view shows, once each and in
    increasing key order; from [slesUpperBound] it yields those above the
    key. *)
Theorem openView_iteration {V} `{SlesViewLaws V} h (v : OpenView V) k :
  rv_wf h v -> is_uint256 k ->
  rv_sles h v = Ok (ordered (rv_map h v)).*2 /\
  rv_slesUpperBound h v k = Ok (upper_bound (rv_map h v) k).*2.
Proof. intros Hwf Hk. split; [by apply rv_sles_spec|by apply rv_slesUpperBound_spec]. Qed.

(** An open view over a ledger with the entry inserted. *)
Definition example_view : OpenView Ledger :=
  mkOpenView {[ 9%N := mkTxData [1%Z; 2%Z] (Some [3%Z]) ]} (rules_ example_ledger) (header_ example_ledger)
    example_ledger
    (RawStateTable.mkRawStateTable
       {[ 5%N := RawStateTable.mkSleAction RawStateTable.Insert (alloc ∅ example_sle).1 ]} 12) 0 false.

Lemma example_view_wf : rv_wf example_heap example_view.
Proof.
  split; [exact example_ledger_wf|intros k a..]; simpl; rewrite lookup_singleton_Some;
    intros [<- <-]; [exists example_sle; by vm_compute|done].
Qed.

Lemma openView_iteration_witness :
  rv_sles example_heap example_view = Ok [example_sle] /\
  rv_slesUpperBound example_heap example_view 4 =
    Ok (upper_bound (rv_map example_heap example_view) 4).*2.
Proof.
  split; [|apply (openView_iteration example_heap example_view 4); [exact example_view_wf|done]].
  by vm_compute.
Defined.

(** Applying an open view to the ledger it was built over (the last step
    of building a ledger): it succeeds, and afterwards the ledger shows
    exactly the entries the view shows, its total of drops is lower by the
    fees the view destroyed, and every transaction of the view can be read
    back from it with its metadata, provided the ledger takes the entries and
    the transactions are new to it and fit the length encoding. *)
Theorem openView_apply_ledger `{Digest, SLECodec} h (v : OpenView Ledger) :
  rv_wf h v -> takes_table Ledger h (ov_base v) (ov_items v) -> txs_fit (ordered (ov_txs v)) (ov_base v) ->
  exists l', StackedViews.apply h v (ov_base v) = (l', Ok ()) /\ ledger_wf l' /\
    ledger_map l' = rv_map h v /\
    drops (header_ l') =
      (drops (header_ (ov_base v)) - RawStateTable.dropsDestroyed_ (ov_items v))%Z /\
    forall k d m, ov_txs v !! k = Some d -> meta d = Some m ->
      txRead l' k = Ok (Some (txn d, m)).
Proof.
  intros Hwf Htk Hfit. destruct (apply_ledger_spec h v Hwf Htk Hfit) as (l' & E & Hwf' & Hm & Hh & Ht).
  exists l'. rewrite Hh. by split_and!.
Qed.

Lemma openView_apply_ledger_witness :
  exists l', StackedViews.apply example_heap example_view example_ledger = (l', Ok ()) /\
    ledger_wf l' /\ ledger_map l' = rv_map example_heap example_view /\
    drops (header_ l') = (1000 - 12)%Z /\
    forall k d m, ov_txs example_view !! k = Some d -> meta d = Some m ->
      txRead l' k = Ok (Some (txn d, m)).
Proof.
  apply (openView_apply_ledger example_heap example_view); [exact example_view_wf| |].
  { intros k a s. simpl. rewrite lookup_singleton_Some. intros [<- <-] _ Hs. apply takes_check_ok. by vm_compute. }
  split; [apply NoDup_fst_ordered|]. intros k d Hin. apply elem_of_ordered in Hin. simpl in Hin.
  apply lookup_singleton_Some in Hin as [<- <-]. split_and!; [done|by vm_compute|by vm_compute|].
  by exists [3%Z].
Defined.
