(* ===== verification/BuildLedger.v ===== *)
(** * Building ledgers and finding their ancestors

    [buildLedgerImpl] (BuildLedger.cpp) makes the successor of a ledger;
    [Ledger::updateSkipList] records the hashes of the ancestors in it and
    [hashOfSeq] (View.cpp) finds them again.  The theorem at the end ties the
    three together: along a chain of built ledgers, [hashOfSeq] returns the
    hash of the ancestor asked for. *)

From S2P Require Import RawStateTable.
From S2P Require Import Prelude LedgerEntry Views Serializer LedgerHeader SHAMapNodeID SHAMap SHAMapSpec SHAMapMap SHAMapHash Ledger LedgerSpec StackedViews ApplyToLedger Instances.

Local Open Scope Z_scope.

Section hashOfSeq.
Context `{Digest} {V : Type} `{ReadView V, HeaderView V}.

(** [vec.size() >= diff] compares a [std::size_t] with an [int]. *)
Definition hashOfSeq (h : Heap) (ledger : V) (s : Z) : option N :=
  let hd := rv_header ledger in
  if seq hd <? s then None
  else if s =? seq hd then Some (hash hd)
  else if s =? u32 (seq hd - 1) then Some (parentHash hd)
  else
    let diff := i32 (seq hd - s) in
    let near :=
      if diff <=? 256 then
        match rv_read h ledger keylet_skip0 with
        | Some hashIndex =>
            let vec := getFieldV256 "Hashes" hashIndex in
            if u64 diff <=? Z.of_nat (length vec)
            then vec !! (length vec - Z.to_nat diff)%nat else None
        | None => None
        end
      else None in
    match near with
    | Some r => Some r
    | None =>
        if negb (Z.land s 0xff =? 0) then None
        else
          match rv_read h ledger (keylet_skip s) with
          | Some hashIndex =>
              let lastSeq := Z.of_N (getFieldU "LastLedgerSequence" hashIndex) in
              let diff := Z.shiftr (u32 (lastSeq - s)) 8 in
              let vec := getFieldV256 "Hashes" hashIndex in
              if diff <? Z.of_nat (length vec)
              then vec !! (length vec - Z.to_nat diff - 1)%nat else None
          | None => None
          end
    end.
End hashOfSeq.

Section buildLedger.
Context `{Digest, SLECodec}.

(** [applyTxs] adds transactions to the open view of the ledger being
    built; the pointers it allocates live in the store, and [X] is what it
    changes of what it captured by reference. *)
Definition buildLedgerImpl {X : Type} (featureXRPFees : N) (parent : Ledger) (closeTime : Z)
    (closeTimeCorrect : bool) (closeResolution : Z)
    (applyTxs : OpenView Ledger -> result (X * (Heap * OpenView Ledger))) : result (Ledger * X) :=
  let built := nextLedger parent closeTime in
  built ← (if isFlagLedger (seq (header_ built)) then updateNegativeUNL built else Ok built);
  '(x, (h, accum)) ← applyTxs (makeView built);
  let '(built, r) := StackedViews.apply h accum built in
  _ ← r;
  built ← updateSkipList built;
  Ok (setAccepted featureXRPFees closeTime closeResolution closeTimeCorrect built, x).
End buildLedger.

(** ** The keys of the skip lists *)

Class IndexLaws `{Digest} : Prop := {
  ix_near : key_ok (kl_key keylet_skip0);
  ix_far n : 0 <= n < 2 ^ 32 -> key_ok (kl_key (keylet_skip n));
  ix_near_far n : 0 <= n < 2 ^ 32 -> kl_key (keylet_skip n) <> kl_key keylet_skip0;
  ix_far_inj n m : 0 <= n < 2 ^ 32 -> 0 <= m < 2 ^ 32 ->
    kl_key (keylet_skip n) = kl_key (keylet_skip m) -> n / 65536 = m / 65536;
  ix_neg : key_ok (kl_key keylet_negativeUNL);
  ix_neg_near : kl_key keylet_negativeUNL <> kl_key keylet_skip0;
  ix_neg_far n : 0 <= n < 2 ^ 32 -> kl_key keylet_negativeUNL <> kl_key (keylet_skip n)
}.

#[export] Instance example_index_laws : IndexLaws.
Proof.
  assert (forall n, 0 <= n < 2 ^ 32 -> 0 <= n / 65536 < 65536) as Hq
    by (intros n Hn; Z.to_euclidean_division_equations; lia).
  assert (forall n, 0 <= n < 2 ^ 32 ->
    kl_key (keylet_skip n) = Z.to_N (2 ^ 200 * (2 ^ 48 + 115 * 2 ^ 32 + n / 65536))) as Hk.
  { intros n Hn. unfold keylet_skip, indexHash, sha512Half, example_digest, example_hash. cbn [kl_key].
    rewrite (proj2 (Nat.leb_le _ 6)) by (by rewrite length_app, !length_be_bytes).
    unfold blob_size. rewrite length_app, !length_be_bytes. f_equal.
    change (be_bytes 2 115) with [0; 115]. cbn [app be_sum]. cbn [length]. rewrite length_be_bytes.
    rewrite be_sum_be_bytes, Z.shiftr_div_pow2 by lia. unfold u32.
    specialize (Hq n Hn). change (2 ^ 16) with 65536.
    rewrite (Z.mod_small n), (Z.mod_small (n / 65536)) by lia.
    rewrite !Z.shiftl_mul_pow2 by lia. lia. }
  split.
  - by vm_compute.
  - intros n Hn. rewrite Hk by done. specialize (Hq n Hn). unfold key_ok, is_uint256. lia.
  - intros n Hn. rewrite Hk by done. specialize (Hq n Hn).
    replace (kl_key keylet_skip0) with (Z.to_N (2 ^ 200 * (2 ^ 16 + 115))) by by vm_compute. lia.
  - intros n m Hn Hm. rewrite !Hk by done. pose proof (Hq n Hn). pose proof (Hq m Hm). lia.
  - by vm_compute.
  - by vm_compute.
  - intros n Hn. rewrite Hk by done. specialize (Hq n Hn).
    replace (kl_key keylet_negativeUNL) with (Z.to_N (2 ^ 200 * (2 ^ 16 + 78))) by by vm_compute. lia.
Qed.

Lemma keylet_skip_group `{Digest} n m :
  0 <= n < 2 ^ 32 -> 0 <= m < 2 ^ 32 -> n / 65536 = m / 65536 -> keylet_skip n = keylet_skip m.
Proof.
  intros Hn Hm E. unfold keylet_skip, u32. rewrite !Z.mod_small by lia.
  rewrite !Z.shiftr_div_pow2 by lia. change (2 ^ 16) with 65536. by rewrite E.
Qed.

(** ** Updating the skip lists *)
Section skip_lists.
Context `{Digest, !IndexLaws, SLECodec}.
Implicit Types (l : Ledger) (k : Keylet).

(** An entry that lists hashes. *)
Definition list_entry (o : option SLE) k (hashes : list N) (lastSeq : Z) : Prop :=
  exists s, o = Some s /\ sle_type s = ltLEDGER_HASHES /\ sle_key s = kl_key k /\
    getFieldV256 "Hashes" s = hashes /\ getFieldU "LastLedgerSequence" s = Z.to_N lastSeq.

(** The list kept under a key: none, or an entry. *)
Definition kept (o : option SLE) k (hashes : list N) (lastSeq : Z) : Prop :=
  match hashes with [] => o = None | _ => list_entry o k hashes lastSeq end.

Lemma set_hashes_entry k s hashes n :
  sle_type s = ltLEDGER_HASHES -> sle_key s = kl_key k ->
  list_entry (Some (set_hashes hashes n s)) k hashes n.
Proof.
  intros Ht Hk. eexists. split_and!; [done|done|done|..];
    unfold getFieldV256, getFieldU, set_hashes, setField; simpl; by simplify_map_eq.
Qed.

Lemma check_list_entry k s :
  kl_type k = ltLEDGER_HASHES -> sle_type s = ltLEDGER_HASHES -> sle_key s = kl_key k ->
  check k s = true.
Proof. intros Ht Hs Hk. unfold check. by rewrite Ht, Hs, Hk, !N.eqb_refl. Qed.

(** The entry [update_list] writes. *)
Definition list_update k (ext : list N -> list N) (n : Z) l : SLE :=
  match peek l k with
  | None => set_hashes (ext []) n (new_sle k)
  | Some s => set_hashes (ext (getFieldV256 "Hashes" s)) n s
  end.
Definition list_takes k (ext : list N -> list N) (n : Z) l : Prop :=
  ledger_takes (ledger_map l !! kl_key k) (list_update k ext n l).

Lemma list_update_same k ext n l l' :
  ledger_wf l -> ledger_wf l' -> is_uint256 (kl_key k) ->
  ledger_map l' !! kl_key k = ledger_map l !! kl_key k -> list_takes k ext n l -> list_takes k ext n l'.
Proof.
  intros Hwf Hwf' Hk E. unfold list_takes, list_update. rewrite !peek_spec by done. unfold map_read. by rewrite E.
Qed.

Lemma update_list_spec k ext n l hashes last :
  ledger_wf l -> kl_type k = ltLEDGER_HASHES -> key_ok (kl_key k) -> list_takes k ext n l ->
  kept (ledger_map l !! kl_key k) k hashes last ->
  exists l', update_list k ext n l = Ok l' /\ ledger_wf l' /\
    list_entry (ledger_map l' !! kl_key k) k (ext hashes) n /\
    (forall j, j <> kl_key k -> ledger_map l' !! j = ledger_map l !! j) /\
    header_ l' = header_ l.
Proof.
  intros Hwf Ht Hk Htk Hkept. unfold list_takes, list_update in Htk. unfold update_list.
  rewrite peek_spec in Htk |- * by (done || apply Hk). unfold map_read in *.
  assert (hashes = [] /\ ledger_map l !! kl_key k = None \/
    exists s, ledger_map l !! kl_key k = Some s /\ sle_type s = ltLEDGER_HASHES /\
      sle_key s = kl_key k /\ getFieldV256 "Hashes" s = hashes) as [[-> E]|(s & E & Hst & Hsk & <-)].
  { destruct hashes; [by left|right]. destruct Hkept as (s & ? & ? & ? & ? & _). by exists s. }
  - rewrite E in Htk |- *. set (s := set_hashes (ext []) n (new_sle k)) in *.
    pose proof (rawInsert_spec l s Hwf Hk (proj1 Htk)) as Hi. change (sle_key s) with (kl_key k) in Hi.
    rewrite E in Hi.
    destruct Hi as (l' & -> & Hwf' & Hm & Hh & _). exists l'. rewrite Hm.
    split_and!; [done|done| |by intros j Hj; rewrite lookup_insert_ne|done].
    simpl. rewrite lookup_insert_eq. by apply set_hashes_entry.
  - rewrite E, check_list_entry in Htk |- * by done.
    set (s' := set_hashes (ext (getFieldV256 "Hashes" s)) n s) in *.
    pose proof (rawReplace_spec l s' Hwf) as Hi.
    replace (sle_key s') with (kl_key k) in Hi by (by rewrite <-Hsk).
    rewrite E in Hi. specialize (Hi Hk Htk). destruct Hi as (l' & -> & Hwf' & Hm & Hh & _). exists l'. rewrite Hm.
    split_and!; [done|done| |by intros j Hj; rewrite lookup_insert_ne|done].
    rewrite lookup_insert_eq. by apply set_hashes_entry.
Qed.

(** The list of the last 256 hashes with one more. *)
Definition push_near (hashes : list N) (x : N) : list N :=
  (if (length hashes =? 256)%nat then tail hashes else hashes) ++ [x].

(** The entries [updateSkipList] writes can be written. *)
Definition skip_takes l : Prop :=
  let n := seq (header_ l) - 1 in
  let x := parentHash (header_ l) in
  (n mod 256 = 0 -> list_takes (keylet_skip n) (fun hashes => hashes ++ [x]) n l) /\
  list_takes keylet_skip0 (fun hashes => push_near hashes x) n l.

Lemma updateSkipList_spec l near nlast far flast :
  ledger_wf l -> 0 < seq (header_ l) < 2 ^ 32 -> skip_takes l ->
  let n := seq (header_ l) - 1 in
  let x := parentHash (header_ l) in
  kept (ledger_map l !! kl_key keylet_skip0) keylet_skip0 near nlast ->
  kept (ledger_map l !! kl_key (keylet_skip n)) (keylet_skip n) far flast ->
  exists l', updateSkipList l = Ok l' /\ ledger_wf l' /\ header_ l' = header_ l /\
    list_entry (ledger_map l' !! kl_key keylet_skip0) keylet_skip0 (push_near near x) n /\
    (if n mod 256 =? 0
     then list_entry (ledger_map l' !! kl_key (keylet_skip n)) (keylet_skip n) (far ++ [x]) n
     else ledger_map l' !! kl_key (keylet_skip n) = ledger_map l !! kl_key (keylet_skip n)) /\
    (forall j, j <> kl_key keylet_skip0 -> j <> kl_key (keylet_skip n) ->
       ledger_map l' !! j = ledger_map l !! j).
Proof.
  intros Hwf Hseq [Htf Htn] n x Hnear Hfar. fold n x in Htf, Htn. assert (0 <= n < 2 ^ 32) as Hn by lia.
  unfold updateSkipList. rewrite (proj2 (Z.eqb_neq _ 0)) by lia. fold n x.
  change 0xff with (Z.ones 8). rewrite Z.land_ones by lia. change (2 ^ 8) with 256.
  pose proof (ix_near_far n Hn) as Hne.
  assert (exists l1, (if n mod 256 =? 0
    then update_list (keylet_skip n) (fun hashes => hashes ++ [x]) n l else Ok l) = Ok l1 /\
    ledger_wf l1 /\ header_ l1 = header_ l /\
    (if n mod 256 =? 0
     then list_entry (ledger_map l1 !! kl_key (keylet_skip n)) (keylet_skip n) (far ++ [x]) n
     else ledger_map l1 !! kl_key (keylet_skip n) = ledger_map l !! kl_key (keylet_skip n)) /\
    (forall j, j <> kl_key (keylet_skip n) -> ledger_map l1 !! j = ledger_map l !! j))
    as (l1 & -> & Hwf1 & Hh1 & Hf1 & Ho1).
  { destruct (Z.eqb_spec (n mod 256) 0) as [Hz|]; [|by exists l].
    destruct (update_list_spec (keylet_skip n) (fun hashes => hashes ++ [x]) n l far flast)
      as (l1 & ? & ? & ? & ? & ?); [done|done|by apply ix_far|by apply Htf|done|]. by exists l1. }
  cbn [mbind result_bind].
  destruct (update_list_spec keylet_skip0 (fun hashes => push_near hashes x) n l1 near nlast)
    as (l2 & E2 & Hwf2 & Hl2 & Ho2 & Hh2); [done|done|apply ix_near| |by rewrite Ho1 by done|].
  { apply (list_update_same _ _ _ l); [done|done|apply ix_near|by apply Ho1|done]. }
  exists l2. split_and!; [done|done|congruence|done| |].
  - by rewrite Ho2 by done.
  - intros j Hj1 Hj2. rewrite Ho2, Ho1; done.
Qed.
End skip_lists.

(** ** The lists along a chain

    [past s] is the hash of the ledger with sequence [s]. *)

Definition near_list (past : Z -> N) (start n : Z) : list N :=
  past <$> seqZ (Z.max start (n - 256)) (n - Z.max start (n - 256)).

Definition far_lo (start g : Z) : Z := Z.max ((start + 255) / 256) (256 * g).
Definition far_hi (n g : Z) : Z := Z.min ((n - 1) / 256) (256 * g + 255).
Definition far_list (past : Z -> N) (start n g : Z) : list N :=
  (fun i => past (256 * i)) <$> seqZ (far_lo start g) (far_hi n g - far_lo start g + 1).

Lemma seqZ_snoc m n : 0 <= n -> seqZ m (n + 1) = seqZ m n ++ [m + n].
Proof. intros Hn. rewrite seqZ_app by lia. done. Qed.

Lemma near_step past start n :
  start <= n -> push_near (near_list past start n) (past n) = near_list past start (n + 1).
Proof.
  intros Hn. unfold push_near, near_list. rewrite length_fmap, length_seqZ.
  destruct (Z_le_gt_dec start (n - 256)) as [Hle|Hgt].
  - rewrite (Z.max_r start (n - 256)), (Z.max_r start (n + 1 - 256)) by lia.
    replace (n - (n - 256)) with 256 by lia. cbn [Z.to_nat Pos.to_nat]. rewrite Nat.eqb_refl.
    replace (n + 1 - (n + 1 - 256)) with (255 + 1) by lia.
    rewrite seqZ_snoc, fmap_app by lia. f_equal; [|simpl; do 2 f_equal; lia].
    rewrite (seqZ_cons (n - 256) 256) by lia. cbn [fmap list_fmap tail]. do 2 f_equal. lia.
  - rewrite (proj2 (Nat.eqb_neq _ 256)) by lia.
    rewrite (Z.max_l start (n - 256)), (Z.max_l start (n + 1 - 256)) by lia.
    replace (n + 1 - start) with (n - start + 1) by lia.
    rewrite seqZ_snoc, fmap_app by lia. f_equal. simpl. do 2 f_equal. lia.
Qed.

(** The list of a group grows when the new parent is a multiple of 256. *)
Lemma far_step past start n :
  1 <= start <= n -> n mod 256 = 0 ->
  far_list past start (n + 1) (n / 65536) = far_list past start n (n / 65536) ++ [past n] /\
  256 * far_hi (n + 1) (n / 65536) = n.
Proof.
  intros Hn Hm. set (i := n / 256).
  assert (n = 256 * i /\ 256 * (n / 65536) <= i <= 256 * (n / 65536) + 255 /\
    (n + 1 - 1) / 256 = i /\ (n - 1) / 256 = i - 1 /\ (start + 255) / 256 <= i) as (En & Hg & E1 & E2 & Hs)
    by (unfold i; Z.to_euclidean_division_equations; lia).
  unfold far_list, far_hi. rewrite E1, E2. set (lo := far_lo start (n / 65536)).
  assert (lo <= i) by (unfold lo, far_lo; lia).
  rewrite (Z.min_l i), (Z.min_l (i - 1)) by lia. split; [|lia].
  replace (i - lo + 1) with ((i - 1 - lo + 1) + 1) by lia.
  rewrite seqZ_snoc, fmap_app by lia. f_equal. simpl. do 2 f_equal. lia.
Qed.

Lemma far_same past start n g :
  1 <= start <= n -> 0 <= g -> n mod 256 <> 0 \/ n / 65536 <> g ->
  far_list past start (n + 1) g = far_list past start n g /\
  (far_list past start n g <> [] -> far_hi (n + 1) g = far_hi n g).
Proof.
  intros Hn Hg Hc.
  assert (far_hi (n + 1) g = far_hi n g \/ far_hi (n + 1) g < far_lo start g /\
    far_hi n g < far_lo start g) as [E|[E1 E2]].
  { unfold far_hi, far_lo. replace (n + 1 - 1) with n by lia.
    destruct Hc; Z.to_euclidean_division_equations; lia. }
  - unfold far_list. by rewrite E.
  - unfold far_list. rewrite !(seqZ_nil (far_lo start g)) by lia. done.
Qed.

Section chain.
Context `{Digest, !IndexLaws, SLECodec}.
Implicit Types (l : Ledger).

(** The key of a group of 65536 ledgers. *)
Definition far_key (g : Z) : Keylet := keylet_skip (65536 * g).

Record skip_inv (past : Z -> N) (start : Z) l : Prop := {
  si_wf : ledger_wf l;
  si_seq : 1 <= start <= seq (header_ l) /\ seq (header_ l) < 2 ^ 32;
  si_hash : hash (header_ l) = past (seq (header_ l));
  si_parent : start < seq (header_ l) -> parentHash (header_ l) = past (seq (header_ l) - 1);
  si_near : kept (ledger_map l !! kl_key keylet_skip0) keylet_skip0
              (near_list past start (seq (header_ l))) (seq (header_ l) - 1);
  si_far g : 0 <= g < 65536 ->
    kept (ledger_map l !! kl_key (far_key g)) (far_key g)
      (far_list past start (seq (header_ l)) g) (256 * far_hi (seq (header_ l)) g)
}.

Lemma far_key_group n : 0 <= n < 2 ^ 32 -> keylet_skip n = far_key (n / 65536).
Proof.
  intros Hn. unfold far_key. apply keylet_skip_group; [done|Z.to_euclidean_division_equations; lia|].
  rewrite Z.mul_comm, Z.div_mul by lia. done.
Qed.

Lemma far_key_range g : 0 <= g < 65536 -> 0 <= 65536 * g < 2 ^ 32.
Proof. lia. Qed.

(** Recording the parent of a ledger whose lists are those of its parent. *)
Lemma skip_inv_update past start l :
  ledger_wf l -> 1 <= start < seq (header_ l) -> seq (header_ l) < 2 ^ 32 -> skip_takes l ->
  let n := seq (header_ l) - 1 in
  parentHash (header_ l) = past n ->
  kept (ledger_map l !! kl_key keylet_skip0) keylet_skip0 (near_list past start n) (n - 1) ->
  (forall g, 0 <= g < 65536 ->
    kept (ledger_map l !! kl_key (far_key g)) (far_key g) (far_list past start n g)
      (256 * far_hi n g)) ->
  exists l', updateSkipList l = Ok l' /\ ledger_wf l' /\ header_ l' = header_ l /\
    kept (ledger_map l' !! kl_key keylet_skip0) keylet_skip0 (near_list past start (n + 1)) n /\
    (forall g, 0 <= g < 65536 ->
      kept (ledger_map l' !! kl_key (far_key g)) (far_key g) (far_list past start (n + 1) g)
        (256 * far_hi (n + 1) g)).
Proof.
  intros Hwf Hst Hmax Htk n Hpar Hnear Hfar. assert (0 <= n < 2 ^ 32) as Hn by lia.
  assert (0 <= n / 65536 < 65536) as Hg by (Z.to_euclidean_division_equations; lia).
  pose proof (far_key_group n Hn) as Hkey.
  destruct (updateSkipList_spec l (near_list past start n) (n - 1)
    (far_list past start n (n / 65536)) (256 * far_hi n (n / 65536)))
    as (l' & E & Hwf' & Hh & Hl0 & Hlf & Ho); [done|lia|done|done|fold n; rewrite Hkey; by apply Hfar|].
  fold n in Hl0, Hlf, Ho. rewrite Hpar in Hl0, Hlf. rewrite near_step in Hl0 by lia.
  exists l'. split_and!; try done.
  - unfold kept. unfold near_list at 1. rewrite seqZ_cons by lia. done.
  - intros g Hg'. destruct (decide (g = n / 65536)) as [->|Hne].
    + rewrite Hkey in Hlf. destruct (Z.eqb_spec (n mod 256) 0) as [Hm|Hm].
      * destruct (far_step past start n) as [-> ->]; [lia|done|].
        unfold kept. by destruct (far_list past start n (n / 65536)).
      * destruct (far_same past start n (n / 65536)) as [-> Hhi]; [lia|lia|by left|].
        rewrite Hlf. specialize (Hfar _ Hg). unfold kept in *.
        destruct (far_list past start n (n / 65536)); [done|]. by rewrite Hhi.
    + destruct (far_same past start n g) as [-> Hhi]; [lia|lia|by right; intros <-|].
      rewrite Ho.
      * specialize (Hfar _ Hg'). unfold kept in *.
        destruct (far_list past start n g); [done|]. by rewrite Hhi.
      * apply ix_near_far. by apply far_key_range.
      * intros Eq. apply ix_far_inj in Eq; [|by apply far_key_range|done].
        rewrite Z.mul_comm, Z.div_mul in Eq by lia. done.
Qed.
End chain.

Section build_step.
Context `{Digest, !IndexLaws, SLECodec}.
Implicit Types (l : Ledger).

(** Two maps of entries with the same skip lists. *)
Definition same_lists (m m' : gmap N SLE) : Prop :=
  m' !! kl_key keylet_skip0 = m !! kl_key keylet_skip0 /\
  forall n, 0 <= n < 2 ^ 32 -> m' !! kl_key (keylet_skip n) = m !! kl_key (keylet_skip n).

Lemma map_read_key (m : gmap N SLE) k s : map_read m k = Some s -> m !! kl_key k = Some s.
Proof.
  unfold map_read. destruct (m !! kl_key k) as [x|]; [|done]. destruct (check k x); congruence.
Qed.

(** The entry [updateNegativeUNL] writes can be written. *)
Definition unl_takes l : Prop :=
  forall s s', peek l keylet_negativeUNL = Some s -> updated_unl (seq (header_ l)) s = Some s' ->
    ledger_takes (Some s) s'.

Lemma updated_unl_key n s s' : updated_unl n s = Some s' -> sle_key s' = sle_key s.
Proof.
  unfold updated_unl. cbv zeta. destruct (if isFieldPresent "ValidatorToDisable" s then _ else _); [done|].
  intros [= <-]. by destruct (isFieldPresent "ValidatorToReEnable" s), (isFieldPresent "ValidatorToDisable" s).
Qed.

Lemma updateNegativeUNL_frame l l' :
  ledger_wf l -> unl_takes l -> updateNegativeUNL l = Ok l' ->
  ledger_wf l' /\ header_ l' = header_ l /\
  forall j, j <> kl_key keylet_negativeUNL -> ledger_map l' !! j = ledger_map l !! j.
Proof.
  intros Hwf Htk. unfold updateNegativeUNL, unl_takes in *.
  destruct (peek l keylet_negativeUNL) as [s|] eqn:Hp; [|by intros [= <-]].
  rewrite peek_spec in Hp by (done || apply ix_neg). apply map_read_key in Hp as Hr.
  pose proof (ledger_map_key _ _ _ Hwf Hr) as Hk.
  destruct (negb _ && negb _); [by intros [= <-]|].
  destruct (updated_unl _ s) as [s'|] eqn:Eu; intros E.
  - apply updated_unl_key in Eu as Hk'. pose proof (rawReplace_spec l s' Hwf) as Hs.
    rewrite Hk', Hk, Hr in Hs. destruct (Hs ix_neg (Htk s s' eq_refl Eu)) as (l1 & E1 & ? & Hm & ? & _).
    rewrite E in E1. injection E1 as <-.
    split_and!; [done|done|]. intros j Hj. by rewrite Hm, lookup_insert_ne.
  - pose proof (rawErase_spec l s Hwf) as Hs. rewrite Hk, Hr in Hs.
    destruct (Hs (proj2 ix_neg)) as (l1 & E1 & ? & Hm & ? & _). rewrite E in E1. injection E1 as <-.
    split_and!; [done|done|]. intros j Hj. by rewrite Hm, lookup_delete_ne.
Qed.

Lemma setup_frame f l :
  stateMap_ (setup f l).1 = stateMap_ l /\ txMap_ (setup f l).1 = txMap_ l /\
  header_ (setup f l).1 = header_ l.
Proof.
  unfold setup. destruct (read _ keylet_fees) as [s|]; [|done].
  destruct (assign _ _ _) as [b r1]. destruct (assign _ _ _) as [r r2].
  by destruct (assign _ _ _) as [i r3].
Qed.

Lemma setAccepted_frame f ct cr cc l :
  let l' := setAccepted f ct cr cc l in
  stateMap_ l' = stateMap_ l /\ txMap_ l' = txMap_ l /\
  seq (header_ l') = seq (header_ l) /\ parentHash (header_ l') = parentHash (header_ l).
Proof.
  unfold setAccepted, setImmutable. cbv zeta.
  match goal with |- context [setup f ?l0] => destruct (setup_frame f l0) as (-> & -> & ->) end.
  simpl. by destruct (immutable_ l).
Qed.

(** The ledger the transactions are applied to. *)
Definition opened l ct : result Ledger :=
  let built := nextLedger l ct in
  if isFlagLedger (seq (header_ built)) then updateNegativeUNL built else Ok built.

(** What the chain assumes of a build: the view the transactions produce is
    a well-formed view over the new ledger, they can be filed, none edits the
    skip lists, and the entries the build writes (those of the view, the
    negative UNL and the skip lists) survive their binary form and do not
    collide with the ones they replace. *)
Definition build_good {X} l ct (applyTxs : OpenView Ledger -> result (X * (Heap * OpenView Ledger))) : Prop :=
  (isFlagLedger (seq (header_ (nextLedger l ct))) = true -> unl_takes (nextLedger l ct)) /\
  forall b x h accum, opened l ct = Ok b -> applyTxs (makeView b) = Ok (x, (h, accum)) ->
    ov_base accum = b /\ rv_wf h accum /\ txs_fit (ordered (ov_txs accum)) b /\
    same_lists (ledger_map b) (rv_map h accum) /\ takes_table Ledger h b (ov_items accum) /\
    forall l1, StackedViews.apply h accum b = (l1, Ok ()) -> skip_takes l1.

Lemma nextLedger_wf l ct : ledger_wf l -> ledger_wf (nextLedger l ct).
Proof. intros [Hs Ht Hp]. split; [done|by apply emptyMap_wf|done]. Qed.

(** The ledger [buildLedgerImpl] hands to [updateSkipList]: the successor's
    header, the parent's lists. *)
Lemma build_before_skip {X} f l ct cc cr (applyTxs : OpenView Ledger -> result (X * (Heap * OpenView Ledger))) l' x :
  ledger_wf l -> 0 <= seq (header_ l) -> seq (header_ l) + 1 < 2 ^ 32 -> build_good l ct applyTxs ->
  buildLedgerImpl f l ct cc cr applyTxs = Ok (l', x) ->
  exists l1 l2, ledger_wf l1 /\ skip_takes l1 /\ seq (header_ l1) = seq (header_ l) + 1 /\
    parentHash (header_ l1) = hash (header_ l) /\ same_lists (ledger_map l) (ledger_map l1) /\
    updateSkipList l1 = Ok l2 /\ l' = setAccepted f ct cr cc l2.
Proof.
  intros Hwf Hpos Hmax [Hunl Hgood] E. unfold buildLedgerImpl in E.
  apply bind_Ok in E as (b & Eb & E). apply bind_Ok in E as ([y [h accum]] & Ea & E).
  destruct (StackedViews.apply h accum b) as [l1 r] eqn:El1. apply bind_Ok in E as ([] & -> & E). apply bind_Ok in E as (l2 & El2 & [= <- <-]).
  assert (ledger_wf b /\ header_ b = header_ (nextLedger l ct) /\
    forall j, j <> kl_key keylet_negativeUNL -> ledger_map b !! j = ledger_map l !! j)
    as (Hwfb & Hhb & Hmb).
  { clear Hgood. destruct (isFlagLedger _); [|injection Eb as <-; by split_and!; [apply nextLedger_wf|..]].
    destruct (updateNegativeUNL_frame _ _ (nextLedger_wf l ct Hwf) (Hunl eq_refl) Eb) as (? & ? & ?).
    by split_and!. }
  destruct (Hgood b y h accum Eb Ea) as (Hbase & Hwfa & Hfit & Hsame & Htk & Hsk).
  destruct (apply_ledger_spec h accum Hwfa) as (l1' & El1' & Hwf1 & Hm1 & Hh1 & _);
    [by rewrite Hbase..|]. specialize (Hsk l1 El1).
  rewrite Hbase, El1 in El1'. injection El1' as <-. rewrite Hbase in Hh1.
  exists l1, l2. rewrite Hh1. simpl. rewrite Hhb. simpl. unfold u32. rewrite Z.mod_small by lia.
  split_and!; try done. rewrite Hm1. destruct Hsame as [Hs0 Hsf]. split.
  - rewrite Hs0. apply Hmb, not_eq_sym, ix_neg_near.
  - intros n Hn. rewrite Hsf by done. apply Hmb, not_eq_sym. by apply ix_neg_far.
Qed.

Lemma skip_inv_step {X} past start f l ct cc cr (applyTxs : OpenView Ledger -> result (X * (Heap * OpenView Ledger))) l' x :
  skip_inv past start l -> seq (header_ l) + 1 < 2 ^ 32 -> build_good l ct applyTxs ->
  buildLedgerImpl f l ct cc cr applyTxs = Ok (l', x) ->
  seq (header_ l') = seq (header_ l) + 1 /\
  (hash (header_ l') = past (seq (header_ l) + 1) -> skip_inv past start l').
Proof.
  intros [Hwf Hseq Hhash _ Hnear Hfar] Hmax Hgood E.
  destruct (build_before_skip f l ct cc cr applyTxs l' x Hwf ltac:(lia) Hmax Hgood E)
    as (l1 & l2 & Hwf1 & Hsk1 & Hs1 & Hp1 & [Hm0 Hmf] & Eu & ->).
  destruct (skip_inv_update past start l1) as (l2' & Eu' & Hwf2 & Hh2 & Hn2 & Hf2);
    [done|lia|lia|done|rewrite Hp1, Hhash, Hs1; f_equal; lia| |..].
  { rewrite Hs1, Z.add_simpl_r, Hm0. done. }
  { intros g Hg. rewrite Hs1, Z.add_simpl_r. unfold far_key at 1.
    rewrite Hmf by (by apply far_key_range). by apply Hfar. }
  rewrite Eu in Eu'. injection Eu' as <-.
  destruct (setAccepted_frame f ct cr cc l2) as (Est & Etx & Es & Ep).
  assert (ledger_map (setAccepted f ct cr cc l2) = ledger_map l2) as Em
    by (unfold ledger_map; by rewrite Est).
  rewrite Hs1, Z.add_simpl_r in Hn2, Hf2.
  split; [by rewrite Es, Hh2, Hs1|]. intros Hl'. split; rewrite ?Em, ?Es, ?Ep, ?Hh2, ?Hs1.
  - destruct Hwf2 as [Hst Htx Hpa]. split; rewrite ?Est, ?Etx; done.
  - lia.
  - done.
  - intros _. by rewrite Hp1, Hhash, Z.add_simpl_r.
  - by rewrite Z.add_simpl_r.
  - done.
Qed.
End build_step.

(** ** Finding an ancestor *)
Section find_ancestor.
Context `{Digest, !IndexLaws, SLECodec}.
Implicit Types (l : Ledger).

Lemma read_kept l k hashes last :
  ledger_wf l -> key_ok (kl_key k) -> kl_type k = ltLEDGER_HASHES ->
  kept (ledger_map l !! kl_key k) k hashes last -> hashes <> [] ->
  exists s, read l k = Some s /\ getFieldV256 "Hashes" s = hashes /\
    getFieldU "LastLedgerSequence" s = Z.to_N last.
Proof.
  intros Hwf Hk Ht Hkept Hne. destruct hashes as [|x hashes]; [done|].
  destruct Hkept as (s & E & Hst & Hsk & Hs & Hl). exists s. rewrite read_spec by done.
  unfold map_read. by rewrite E, check_list_entry.
Qed.

Lemma near_lookup past start n s :
  start <= s -> n - s <= 256 -> s < n ->
  near_list past start n !! (length (near_list past start n) - Z.to_nat (n - s))%nat =
  Some (past s) /\ n - s <= Z.of_nat (length (near_list past start n)).
Proof.
  intros Hst Hd Hlt. unfold near_list. rewrite length_fmap, length_seqZ. split; [|lia].
  rewrite list_lookup_fmap, lookup_seqZ_lt by lia. simpl. do 2 f_equal. lia.
Qed.

Lemma far_lookup past start n s :
  1 <= start <= s -> s < n -> s mod 256 = 0 ->
  let hs := far_list past start n (s / 65536) in
  let d := far_hi n (s / 65536) - s / 256 in
  0 <= d < Z.of_nat (length hs) /\ hs !! (length hs - Z.to_nat d - 1)%nat = Some (past s) /\
  256 * far_hi n (s / 65536) = s + 256 * d.
Proof.
  intros Hs Hn Hm hs d. set (i := s / 256).
  assert (s = 256 * i /\ far_lo start (s / 65536) <= i <= far_hi n (s / 65536)) as [Es Hi]
    by (unfold i, far_lo, far_hi; Z.to_euclidean_division_equations; lia).
  unfold hs, far_list, d. fold i. rewrite length_fmap, length_seqZ. split_and!; [lia|lia| |lia].
  rewrite list_lookup_fmap, lookup_seqZ_lt by lia. simpl. do 2 f_equal. lia.
Qed.

Lemma hashOfSeq_spec past start l h s :
  skip_inv past start l -> start <= s <= seq (header_ l) ->
  seq (header_ l) - s <= 256 \/ s mod 256 = 0 ->
  hashOfSeq h l s = Some (past s).
Proof.
  intros [Hwf Hseq Hhash Hpar Hnear Hfar] Hs Hcase. unfold hashOfSeq.
  cbn [rv_header Ledger_HeaderView rv_read Ledger_ReadView].
  set (n := seq (header_ l)) in *. rewrite (proj2 (Z.ltb_ge n s)) by lia.
  destruct (Z.eqb_spec s n) as [->|Hne]; [by rewrite Hhash|].
  unfold u32. rewrite (Z.mod_small (n - 1)) by lia.
  destruct (Z.eqb_spec s (n - 1)) as [->|Hne1]; [by rewrite Hpar by lia|].
  destruct (Z_le_gt_dec (n - s) 256) as [Hd|Hd].
  - destruct (near_lookup past start n s) as [Hl Hlen]; [lia..|].
    rewrite i32_small by lia. rewrite (proj2 (Z.leb_le _ 256)) by lia.
    destruct (read_kept l keylet_skip0 _ _ Hwf ix_near eq_refl Hnear) as (e & -> & -> & _).
    { intros E. by rewrite E in Hl. }
    unfold u64. rewrite Z.mod_small by lia. rewrite (proj2 (Z.leb_le _ _)) by lia. by rewrite Hl.
  - destruct Hcase as [?|Hm]; [lia|].
    match goal with |- match ?near with _ => _ end = _ => assert (near = None) as -> end.
    { destruct (Z.leb_spec (i32 (n - s)) 256) as [Hi|]; [|done].
      assert (i32 (n - s) = n - s - 2 ^ 32) as Ei.
      { unfold i32, signed in *. rewrite Z.mod_small in * by lia.
        destruct (n - s <? 2 ^ (32 - 1)); lia. }
      destruct (read_kept l keylet_skip0 _ _ Hwf ix_near eq_refl Hnear) as (e & -> & -> & _).
      { unfold near_list. by rewrite seqZ_cons by lia. }
      unfold near_list at 1. rewrite length_fmap, length_seqZ, Ei. unfold u64.
      rewrite <-(Z.mod_add _ 1 (2 ^ 64)), Z.mod_small by lia.
      by rewrite (proj2 (Z.leb_gt _ _)) by lia. }
    change 0xff with (Z.ones 8). rewrite Z.land_ones by lia. change (2 ^ 8) with 256.
    rewrite Hm. cbn [negb Z.eqb].
    assert (0 <= s < 2 ^ 32 /\ 0 <= s / 65536 < 65536) as [Hr Hg]
      by (Z.to_euclidean_division_equations; lia).
    destruct (far_lookup past start n s) as (Hd' & Hl & Elast); [lia|lia|done|].
    rewrite far_key_group by done.
    destruct (read_kept l (far_key (s / 65536)) _ _ Hwf (ix_far _ (far_key_range _ Hg)) eq_refl
      (Hfar _ Hg)) as (e & -> & -> & ->).
    { intros E. by rewrite E in Hl. }
    rewrite Elast, Z2N.id by lia. replace (s + _ - s) with (256 * (far_hi n (s / 65536) - s / 256)) by lia.
    assert (far_hi n (s / 65536) - s / 256 < 2 ^ 24) as Hsm
      by (unfold far_hi; Z.to_euclidean_division_equations; lia).
    rewrite Z.mod_small, Z.shiftr_div_pow2 by lia. change (2 ^ 8) with 256.
    rewrite Z.mul_comm, Z.div_mul by lia. by rewrite (proj2 (Z.ltb_lt _ _)) by lia.
Qed.
End find_ancestor.

Section chains.
Context `{Digest, !IndexLaws, SLECodec}.
Implicit Types (l : Ledger).

(** A ledger without skip lists and the ledgers built on it, newest first. *)
Inductive chain (start : Z) : list Ledger -> Prop :=
| chain_start l :
    ledger_wf l -> seq (header_ l) = start -> 1 <= start < 2 ^ 32 ->
    ledger_map l !! kl_key keylet_skip0 = None ->
    (forall n, 0 <= n < 2 ^ 32 -> ledger_map l !! kl_key (keylet_skip n) = None) ->
    chain start [l]
| chain_next (X : Type) l ls f ct cc cr (applyTxs : OpenView Ledger -> result (X * (Heap * OpenView Ledger))) l' x :
    chain start (l :: ls) -> seq (header_ l) + 1 < 2 ^ 32 -> build_good l ct applyTxs ->
    buildLedgerImpl f l ct cc cr applyTxs = Ok (l', x) ->
    chain start (l' :: l :: ls).

Lemma far_list_start past start g : 1 <= start -> far_list past start start g = [].
Proof.
  intros Hs. unfold far_list. rewrite seqZ_nil; [done|].
  unfold far_hi, far_lo. Z.to_euclidean_division_equations. lia.
Qed.

Lemma skip_inv_start past l :
  ledger_wf l -> 1 <= seq (header_ l) < 2 ^ 32 -> hash (header_ l) = past (seq (header_ l)) ->
  ledger_map l !! kl_key keylet_skip0 = None ->
  (forall n, 0 <= n < 2 ^ 32 -> ledger_map l !! kl_key (keylet_skip n) = None) ->
  skip_inv past (seq (header_ l)) l.
Proof.
  intros Hwf Hseq Hh Hn Hf. split; [done|lia|done|lia| |].
  - unfold near_list. by rewrite seqZ_nil by lia.
  - intros g Hg. rewrite far_list_start by lia. by apply Hf, far_key_range.
Qed.

(** The invariant only looks at the hashes of the chain. *)
Lemma skip_inv_ext past past' start l :
  (forall s, start <= s <= seq (header_ l) -> past s = past' s) ->
  skip_inv past start l -> skip_inv past' start l.
Proof.
  intros He [Hwf Hseq Hh Hp Hn Hf].
  assert (near_list past' start (seq (header_ l)) = near_list past start (seq (header_ l))) as En.
  { unfold near_list. apply list_fmap_ext. intros i s Hs%list_elem_of_lookup_2%elem_of_seqZ.
    symmetry. apply He. lia. }
  assert (forall g, far_list past' start (seq (header_ l)) g =
                    far_list past start (seq (header_ l)) g) as Ef.
  { intros g. unfold far_list. apply list_fmap_ext.
    intros i s Hs%list_elem_of_lookup_2%elem_of_seqZ. symmetry. apply He.
    unfold far_lo, far_hi in Hs. Z.to_euclidean_division_equations. lia. }
  split; [done|done|by rewrite Hh; apply He; lia| |by rewrite En|intros g Hg; rewrite Ef; by apply Hf].
  intros Hlt. rewrite Hp by done. apply He. lia.
Qed.

Lemma chain_inv start c :
  chain start c ->
  exists l ls past, c = l :: ls /\ skip_inv past start l /\
    forall a, a ∈ c -> hash (header_ a) = past (seq (header_ a)) /\
                       start <= seq (header_ a) <= seq (header_ l).
Proof.
  induction 1 as [l Hwf <- Hs Hn Hf|X l ls f ct cc cr applyTxs l' x _ IH Hmax Hgood E].
  - exists l, [], (fun _ => hash (header_ l)). split_and!; [done|by apply skip_inv_start|].
    intros a ->%list_elem_of_singleton. split; [done|lia].
  - destruct IH as (l0 & ls0 & past & [= <- <-] & Hinv & Hall).
    set (past' := fun s => if s =? seq (header_ l) + 1 then hash (header_ l') else past s).
    assert (forall s, s <= seq (header_ l) -> past' s = past s) as Hp.
    { intros s Hs. unfold past'. by rewrite (proj2 (Z.eqb_neq _ _)) by lia. }
    destruct (skip_inv_step past' start f l ct cc cr applyTxs l' x) as [Hs Hi]; [|done..|].
    { eapply skip_inv_ext, Hinv. intros s ?. symmetry. apply Hp. lia. }
    pose proof (si_seq _ _ _ Hinv) as Hsl.
    exists l', (l :: ls), past'. split_and!; [done|apply Hi; unfold past'; by rewrite Z.eqb_refl|].
    intros a [->|Ha]%elem_of_cons.
    + rewrite Hs. split; [unfold past'; by rewrite Z.eqb_refl|lia].
    + destruct (Hall a Ha) as [-> Hr]. rewrite Hp by lia. split; [done|lia].
Qed.
End chains.

(** ** Properties *)

(** C1. Skip lists find ancestors: along any chain of ledgers made by
    [buildLedgerImpl], whose transactions leave the skip lists alone and whose
    entries survive their binary form and do not collide with those they
    replace, [hashOfSeq] on the newest ledger returns the hash of the ancestor
    with the sequence asked for, whenever it is at most 256 ledgers back or its
    sequence is a multiple of 256, however far back it is. *)
Theorem hashOfSeq_ancestor `{Digest, !IndexLaws, SLECodec} start l ls a h :
  chain start (l :: ls) -> a ∈ l :: ls ->
  seq (header_ l) - seq (header_ a) <= 256 \/ seq (header_ a) mod 256 = 0 ->
  hashOfSeq h l (seq (header_ a)) = Some (hash (header_ a)).
Proof.
  intros Hc Ha Hcase. destruct (chain_inv _ _ Hc) as (l0 & ls0 & past & [= <- <-] & Hinv & Hall).
  destruct (Hall a Ha) as [-> Hr]. by eapply hashOfSeq_spec.
Qed.

(** Ledgers built without transactions, the second on a flag ledger. *)
Definition no_txs (v : OpenView Ledger) : result (() * (Heap * OpenView Ledger)) := Ok ((), (∅, v)).

Definition example_first : Ledger :=
  set_header example_ledger (mkLedgerHeader 255 0 11 0 0 10 1000 false false 0 30 0).
Definition build_on (l : Ledger) : Ledger :=
  match buildLedgerImpl 0 l 90 true 30 no_txs with Ok (l, _) => l | Throw _ => l end.
Definition example_flag : Ledger := Eval vm_compute in build_on example_first.
Definition example_next : Ledger := Eval vm_compute in build_on example_flag.

(** The conditions on such a build, by computation. *)
Definition skip_check (l : Ledger) : bool :=
  let n := seq (header_ l) - 1 in
  let x := parentHash (header_ l) in
  takes_check (ledger_map l !! kl_key (keylet_skip n)) (list_update (keylet_skip n) (fun hashes => hashes ++ [x]) n l) &&
  takes_check (ledger_map l !! kl_key keylet_skip0) (list_update keylet_skip0 (fun hashes => push_near hashes x) n l).
Definition build_check (l : Ledger) : bool :=
  match opened l 90 with
  | Ok b => match peek (nextLedger l 90) keylet_negativeUNL with
            | None => skip_check (rawDestroyXRP b 0) | Some _ => false end
  | Throw _ => false
  end.

Lemma build_check_ok l : ledger_wf l -> build_check l = true -> build_good l 90 no_txs.
Proof.
  intros Hwf. unfold build_check. destruct (opened l 90) as [b|] eqn:Eb; [|done].
  destruct (peek (nextLedger l 90) keylet_negativeUNL) eqn:Ep; [done|]. intros Hc.
  assert (unl_takes (nextLedger l 90)) as Hu by (intros ? ?; by rewrite Ep).
  assert (ledger_wf b) as Hwb.
  { unfold opened in Eb. destruct (isFlagLedger _); [|injection Eb as <-; by apply nextLedger_wf].
    by destruct (updateNegativeUNL_frame _ _ (nextLedger_wf l 90 Hwf) Hu Eb). }
  split; [done|]. rewrite Eb. intros b' [] h accum [= <-] [= <- <-]. split_and!; [done|..].
  - split; [done|intros k a..]; cbn; by rewrite lookup_empty.
  - split; [apply NoDup_fst_ordered|]. intros k d Hin%elem_of_ordered. cbn in Hin. by rewrite lookup_empty in Hin.
  - simpl. unfold RawStateTable.table_map. simpl. by rewrite overlay_empty.
  - intros k a s. cbn. by rewrite lookup_empty.
  - intros l1 E. assert (l1 = rawDestroyXRP b 0) as -> by (by injection E as <-).
    apply andb_true_iff in Hc as [H1%takes_check_ok H2%takes_check_ok]. by split; [intros _|].
Qed.

Lemma build_on_chain start l ls : chain start (l :: ls) -> ledger_wf l -> build_check l = true ->
  seq (header_ l) + 1 < 2 ^ 32 -> seq (header_ (build_on l)) <> seq (header_ l) ->
  chain start (build_on l :: l :: ls).
Proof.
  intros Hc Hwf Hb Hs. unfold build_on. destruct (buildLedgerImpl 0 l 90 true 30 no_txs) as [[l' []]|] eqn:E; [intros _|done].
  apply (chain_next start () l ls 0 90 true 30 no_txs l' ()); [done|done|by apply build_check_ok|done].
Qed.

Lemma chain_wf `{Digest, !IndexLaws, SLECodec} start l ls : chain start (l :: ls) -> ledger_wf l.
Proof.
  intros Hc. destruct (chain_inv _ _ Hc) as (l0 & ls0 & past & [= <- <-] & Hinv & _). exact (si_wf _ _ _ Hinv).
Qed.

Lemma example_chain : chain 255 [example_next; example_flag; example_first].
Proof.
  assert (chain 255 [example_first]) as H1.
  { apply chain_start; [|done|done|by vm_compute|].
    - destruct example_ledger_wf as [? ? ?]. by split.
    - intros n _. change (ledger_map example_first) with (entries ∅). by rewrite lookup_entries, lookup_empty. }
  assert (chain 255 [example_flag; example_first]) as H2.
  { assert (example_flag = build_on example_first) as -> by (vm_compute; reflexivity).
    apply (build_on_chain 255 example_first [] H1 (chain_wf _ _ _ H1)); by vm_compute. }
  assert (example_next = build_on example_flag) as -> by (vm_compute; reflexivity).
  apply (build_on_chain 255 example_flag [example_first] H2 (chain_wf _ _ _ H2)); by vm_compute.
Qed.

Lemma hashOfSeq_ancestor_witness :
  chain 255 [example_next; example_flag; example_first] /\ hashOfSeq ∅ example_next 255 = Some 11%N.
Proof.
  split; [exact example_chain|].
  apply (hashOfSeq_ancestor 255 example_next [example_flag; example_first] example_first ∅ example_chain);
    [by right; right; left|left; by vm_compute].
Defined.
