(* ===== verification/CanonicalTXSet.v ===== *)
(** * Transactions in canonical order

    [SeqProxy] (SeqProxy.h) and [CanonicalTXSet] (CanonicalTXSet.cpp): the
    transactions waiting to be applied, in an order that every server agrees
    on.  The [std::map] is the list of its entries in the order of the keys.
    Of a transaction there is what the code that applies transactions looks
    at ([STTx]). *)

From S2P Require Import Prelude.
Open Scope N_scope.

(** ** Sequence numbers and tickets *)

Inductive SeqProxyType : Type := Seq | Ticket.
#[export] Instance SeqProxyType_eq_dec : EqDecision SeqProxyType.
Proof. solve_decision. Defined.

Record SeqProxy : Type := mkSeqProxy { type_ : SeqProxyType; value : N }.
#[export] Instance SeqProxy_eq_dec : EqDecision SeqProxy.
Proof. solve_decision. Defined.

Definition isSeq (s : SeqProxy) : bool := bool_decide (type_ s = Seq).

Definition SeqProxyType_lt (a b : SeqProxyType) : bool :=
  match a, b with Seq, Ticket => true | _, _ => false end.
Definition SeqProxy_lt (lhs rhs : SeqProxy) : bool :=
  if decide (type_ lhs <> type_ rhs) then SeqProxyType_lt (type_ lhs) (type_ rhs)
  else value lhs <? value rhs.

(** ** Transactions *)

Inductive STTx : Type := mkSTTx {
  getTransactionID : N;
  getAccountID : N;               (* 20 bytes *)
  getSeqProxy : SeqProxy;
  getTxnType : N;
  getFlags : N;
  getRawTransactions : list STTx  (* of a batch *)
}.

(** ** The set *)

Record Key : Type := mkKey { account_ : N; seqProxy_ : SeqProxy; txId_ : N }.

Definition key_lt (lhs rhs : Key) : bool :=
  if account_ lhs <? account_ rhs then true
  else if account_ rhs <? account_ lhs then false
  else if SeqProxy_lt (seqProxy_ lhs) (seqProxy_ rhs) then true
  else if SeqProxy_lt (seqProxy_ rhs) (seqProxy_ lhs) then false
  else txId_ lhs <? txId_ rhs.

Record CanonicalTXSet : Type := mkCanonicalTXSet { map_ : list (Key * STTx); salt_ : N }.
Definition newCanonicalTXSet (saltHash : N) : CanonicalTXSet := mkCanonicalTXSet [] saltHash.

(** The 20 bytes of the account are the first of 32. *)
Definition accountKey (s : CanonicalTXSet) (account : N) : N := N.lxor (N.shiftl account 96) (salt_ s).

Definition keyOf (s : CanonicalTXSet) (txn : STTx) : Key :=
  mkKey (accountKey s (getAccountID txn)) (getSeqProxy txn) (getTransactionID txn).

(** [std::map::insert] *)
Fixpoint map_insert (k : Key) (txn : STTx) (m : list (Key * STTx)) : list (Key * STTx) :=
  match m with
  | [] => [(k, txn)]
  | x :: m' =>
      if key_lt k x.1 then (k, txn) :: m
      else if key_lt x.1 k then x :: map_insert k txn m' else m
  end.
Definition insert (s : CanonicalTXSet) (txn : STTx) : CanonicalTXSet :=
  mkCanonicalTXSet (map_insert (keyOf s txn) txn (map_ s)) (salt_ s).

(** [std::map::lower_bound], with the entries before it *)
Fixpoint lower_bound (k : Key) (m : list (Key * STTx)) : list (Key * STTx) * list (Key * STTx) :=
  match m with
  | [] => ([], [])
  | x :: m' => if key_lt x.1 k then let '(a, b) := lower_bound k m' in (x :: a, b) else ([], m)
  end.

Definition popAcctTransaction (s : CanonicalTXSet) (tx : STTx) : CanonicalTXSet * option STTx :=
  let effectiveAccount := accountKey s (getAccountID tx) in
  let seqProxy := getSeqProxy tx in
  let after := mkKey effectiveAccount seqProxy 0 in
  match lower_bound after (map_ s) with
  | (before, itrNext :: rest) =>
      if (account_ itrNext.1 =? effectiveAccount) &&
         (negb (isSeq (getSeqProxy itrNext.2)) ||
          (value (getSeqProxy itrNext.2) =? (value seqProxy + 1) mod 2 ^ 32))
      then (mkCanonicalTXSet (before ++ rest) (salt_ s), Some itrNext.2)
      else (s, None)
  | (_, []) => (s, None)
  end.

Definition reset (s : CanonicalTXSet) (salt : N) : CanonicalTXSet := mkCanonicalTXSet [] salt.

(** ** The order of the keys *)

Lemma SeqProxy_lt_spec a b : SeqProxy_lt a b = true <->
  (type_ a = Seq /\ type_ b = Ticket) \/ (type_ a = type_ b /\ value a < value b).
Proof.
  unfold SeqProxy_lt. destruct a as [ta x], b as [tb y]. cbn [type_ value]. destruct (decide (ta <> tb)) as [Hne|He].
  - destruct ta, tb; cbn; naive_solver.
  - rewrite N.ltb_lt. destruct ta, tb; naive_solver.
Qed.

Lemma SeqProxy_lt_irrefl a : SeqProxy_lt a a = false.
Proof. apply not_true_iff_false. rewrite SeqProxy_lt_spec. destruct a as [[] x]; cbn; naive_solver lia. Qed.
Lemma SeqProxy_lt_trans a b c : SeqProxy_lt a b = true -> SeqProxy_lt b c = true -> SeqProxy_lt a c = true.
Proof. rewrite !SeqProxy_lt_spec. destruct a as [[] x], b as [[] y], c as [[] z]; cbn; naive_solver lia. Qed.
Lemma SeqProxy_lt_total a b : SeqProxy_lt a b = false -> SeqProxy_lt b a = false -> a = b.
Proof.
  rewrite <-!not_true_iff_false, !SeqProxy_lt_spec. destruct a as [[] x], b as [[] y]; cbn; intros;
    try (exfalso; naive_solver); f_equal; destruct (N.lt_trichotomy x y) as [?|[?|?]]; naive_solver.
Qed.

Lemma key_lt_spec a b : key_lt a b = true <->
  account_ a < account_ b \/ account_ a = account_ b /\
    (SeqProxy_lt (seqProxy_ a) (seqProxy_ b) = true \/ seqProxy_ a = seqProxy_ b /\ txId_ a < txId_ b).
Proof.
  unfold key_lt. destruct (N.ltb_spec (account_ a) (account_ b)); [naive_solver|].
  destruct (N.ltb_spec (account_ b) (account_ a)); [naive_solver lia|].
  assert (account_ a = account_ b) as -> by lia.
  destruct (SeqProxy_lt (seqProxy_ a) (seqProxy_ b)) eqn:E1; [naive_solver|].
  destruct (SeqProxy_lt (seqProxy_ b) (seqProxy_ a)) eqn:E2.
  - split; [done|]. intros [?|[_ [?|[E _]]]]; [lia|done|]. rewrite E, SeqProxy_lt_irrefl in E2. done.
  - pose proof (SeqProxy_lt_total _ _ E1 E2) as ->. rewrite N.ltb_lt. naive_solver lia.
Qed.

Lemma key_lt_irrefl a : key_lt a a = false.
Proof. apply not_true_iff_false. rewrite key_lt_spec, SeqProxy_lt_irrefl. naive_solver lia. Qed.
Lemma key_lt_trans a b c : key_lt a b = true -> key_lt b c = true -> key_lt a c = true.
Proof.
  rewrite !key_lt_spec. intros [Hab|[E1 Hab]] [Hbc|[E2 Hbc]]; [left; lia..|]. right. split; [lia|].
  destruct Hab as [Hab|[Es Hab]], Hbc as [Hbc|[Es' Hbc]].
  - left. by eapply SeqProxy_lt_trans.
  - left. by rewrite <-Es'.
  - left. by rewrite Es.
  - right. split; [congruence|lia].
Qed.
Lemma key_lt_total a b : key_lt a b = false -> key_lt b a = false -> a = b.
Proof.
  rewrite <-!not_true_iff_false, !key_lt_spec. intros H1 H2. destruct a as [a s x], b as [b t y]; cbn in *.
  assert (a = b) as -> by (destruct (N.lt_trichotomy a b) as [?|[?|?]]; naive_solver).
  assert (s = t) as ->.
  { apply SeqProxy_lt_total; apply not_true_iff_false; naive_solver. }
  f_equal. destruct (N.lt_trichotomy x y) as [?|[?|?]]; naive_solver.
Qed.

(** ** The contents of the set *)

Definition entry_lt (a b : Key * STTx) : Prop := key_lt a.1 b.1 = true.
#[local] Instance entry_lt_trans : Transitive entry_lt.
Proof. intros a b c. apply key_lt_trans. Qed.
#[local] Instance entry_lt_antisymm : AntiSymm (=) entry_lt.
Proof. intros a b Hab Hba. pose proof (key_lt_trans _ _ _ Hab Hba) as E. by rewrite key_lt_irrefl in E. Qed.

Record set_ok (s : CanonicalTXSet) : Prop := {
  set_sorted : StronglySorted entry_lt (map_ s);
  set_keys : Forall (fun x => x.1 = keyOf s x.2) (map_ s)
}.

Lemma map_insert_elem k t m x : StronglySorted entry_lt m ->
  x ∈ map_insert k t m <-> x ∈ m \/ (x = (k, t) /\ k ∉ m.*1).
Proof.
  intros Hs. induction Hs as [|[k' t'] m Hs IH Hall]; cbn [map_insert fst].
  { rewrite list_elem_of_singleton. set_solver. }
  assert (forall y, y ∈ m -> key_lt k' y.1 = true) as Hlt by (by apply Forall_forall).
  destruct (key_lt k k') eqn:E1; [|destruct (key_lt k' k) eqn:E2].
  - rewrite !elem_of_cons. cbn. assert (k ∉ k' :: m.*1) as Hn; [|set_solver].
    intros [->|(y & -> & Hy)%list_elem_of_fmap]%elem_of_cons; [by rewrite key_lt_irrefl in E1|].
    pose proof (key_lt_trans _ _ _ E1 (Hlt y Hy)) as E. by rewrite key_lt_irrefl in E.
  - rewrite !elem_of_cons, IH. cbn. rewrite not_elem_of_cons. split; [|naive_solver].
    intros [?|[?|[-> ?]]]; [naive_solver..|]. right. split_and!; [done| |done]. intros ->. by rewrite key_lt_irrefl in E2.
  - pose proof (key_lt_total _ _ E1 E2) as ->. cbn. set_solver.
Qed.

Lemma map_insert_sorted k t m : StronglySorted entry_lt m -> StronglySorted entry_lt (map_insert k t m).
Proof.
  intros Hs. induction Hs as [|[k' t'] m Hs IH Hall]; cbn [map_insert fst]; [by repeat constructor|].
  destruct (key_lt k k') eqn:E1; [|destruct (key_lt k' k) eqn:E2; [|by constructor]].
  - constructor; [by constructor|]. constructor; [done|]. eapply Forall_impl; [exact Hall|].
    intros y Hy. by eapply key_lt_trans.
  - constructor; [done|]. apply Forall_forall. intros y [Hy|[-> _]]%map_insert_elem; [|done|done].
    by apply (proj1 (Forall_forall _ _) Hall).
Qed.

Lemma insert_ok s t : set_ok s -> set_ok (insert s t).
Proof.
  intros [Hs Hk]. split; cbn; [by apply map_insert_sorted|]. apply Forall_forall.
  intros x [Hx|[-> _]]%map_insert_elem; [by apply (proj1 (Forall_forall _ _) Hk)|done|done].
Qed.

Lemma sorted_nodup m : StronglySorted entry_lt m -> NoDup m.*1.
Proof.
  induction 1 as [|x m Hs IH Hall]; cbn; constructor; [|done].
  intros (y & E & Hy)%list_elem_of_fmap. pose proof (proj1 (Forall_forall _ _) Hall y Hy) as Hlt.
  unfold entry_lt in Hlt. by rewrite E, key_lt_irrefl in Hlt.
Qed.

(** All the transactions, whatever the order they are inserted in. *)
Definition canonical (salt : N) (txs : list STTx) : CanonicalTXSet := foldl insert (newCanonicalTXSet salt) txs.

Lemma canonical_spec salt txs : NoDup (getTransactionID <$> txs) ->
  set_ok (canonical salt txs) /\ salt_ (canonical salt txs) = salt /\
  forall x, x ∈ map_ (canonical salt txs) <-> x.2 ∈ txs /\ x.1 = keyOf (newCanonicalTXSet salt) x.2.
Proof.
  induction txs as [|t txs IH] using rev_ind; intros Hnd.
  { split_and!; [split; constructor|done|]. intros x. cbn. rewrite !elem_of_nil. tauto. }
  rewrite fmap_app, NoDup_app in Hnd. destruct Hnd as (Hnd & Hd & _). destruct (IH Hnd) as (Hok & Hsalt & Hel).
  unfold canonical in *. rewrite foldl_snoc. set (s := foldl _ _ txs) in *.
  split_and!; [by apply insert_ok|done|]. intros [k u]. cbn [map_ insert fst snd].
  rewrite map_insert_elem by apply (set_sorted _ Hok). rewrite Hel, elem_of_app, list_elem_of_singleton. cbn [fst snd].
  assert (keyOf s t = keyOf (newCanonicalTXSet salt) t) as -> by (unfold keyOf, accountKey; by rewrite Hsalt).
  split; [naive_solver|]. intros [[Hu| ->] ->]; [by left|]. right. split; [done|].
  intros ([k' u'] & E & [Hu' Ek]%Hel)%list_elem_of_fmap. cbn in *. rewrite Ek in E. injection E as _ _ E.
  apply (Hd (getTransactionID t)); [|set_solver]. rewrite E. by apply list_elem_of_fmap_2.
Qed.

(** Entries of one account are next to each other, in the order of their
    sequence numbers and then of their tickets. *)
Lemma accountKey_inj s a b : accountKey s a = accountKey s b -> a = b.
Proof.
  unfold accountKey. intros E. apply (f_equal (fun x => N.lxor x (salt_ s))) in E.
  rewrite !N.lxor_assoc, !N.lxor_nilpotent, !N.lxor_0_r in E.
  rewrite !N.shiftl_mul_pow2 in E. lia.
Qed.

Lemma sorted_lookup m i j x y : StronglySorted entry_lt m -> (i < j)%nat -> m !! i = Some x -> m !! j = Some y -> entry_lt x y.
Proof.
  intros Hs. revert i j. induction Hs as [|z m Hs IH Hall]; intros i j Hij Hi Hj; [done|].
  destruct i as [|i], j as [|j]; [lia| |lia|]; cbn in Hi, Hj.
  - injection Hi as ->. eapply (proj1 (Forall_forall _ _) Hall). by eapply list_elem_of_lookup_2.
  - eapply (IH i j); [lia|done|done].
Qed.

Lemma txs_lower_bound_spec k m a b : StronglySorted entry_lt m -> lower_bound k m = (a, b) ->
  m = a ++ b /\ Forall (fun x => key_lt x.1 k = true) a /\ Forall (fun x => key_lt x.1 k = false) b.
Proof.
  intros Hs. revert a b. induction Hs as [|x m Hs IH Hall]; intros a b; cbn; [by intros [= <- <-]|].
  destruct (key_lt x.1 k) eqn:E.
  - destruct (lower_bound k m) as [a' b']. intros [= <- <-]. destruct (IH a' b' eq_refl) as (-> & Ha & Hb).
    split_and!; [done|by constructor|done].
  - intros [= <- <-]. split_and!; [done|constructor|]. constructor; [done|]. eapply Forall_impl; [exact Hall|].
    intros y Hy. apply not_true_iff_false. intros E'. by rewrite (key_lt_trans _ _ _ Hy E') in E.
Qed.

(** The transactions of the account of [tx] that come at or after it. *)
Definition follows (tx t : STTx) : Prop :=
  getAccountID t = getAccountID tx /\ SeqProxy_lt (getSeqProxy t) (getSeqProxy tx) = false.
#[export] Instance follows_dec tx t : Decision (follows tx t).
Proof. apply _. Defined.
(** May be applied right after [tx]: a ticket, or the next sequence number. *)
Definition viable (tx t : STTx) : bool :=
  negb (isSeq (getSeqProxy t)) || (value (getSeqProxy t) =? (value (getSeqProxy tx) + 1) mod 2 ^ 32).

Lemma after_spec s tx t : key_lt (keyOf s t) (mkKey (accountKey s (getAccountID tx)) (getSeqProxy tx) 0) = false ->
  accountKey s (getAccountID t) = accountKey s (getAccountID tx) -> follows tx t.
Proof.
  rewrite <-not_true_iff_false, key_lt_spec. cbn. intros Hn E. split; [by eapply accountKey_inj|].
  apply not_true_iff_false. intros Hlt. apply Hn. right. split; [done|]. by left.
Qed.
Lemma before_spec s tx t : key_lt (keyOf s t) (mkKey (accountKey s (getAccountID tx)) (getSeqProxy tx) 0) = true ->
  ~ follows tx t.
Proof.
  rewrite key_lt_spec. cbn. intros Hlt [E Hn]. rewrite E, Hn in Hlt. intuition (try lia; try done).
Qed.

(** [popAcctTransaction] removes and returns the first that follows [tx], if
    it is viable. *)
Lemma pop_spec s tx : set_ok s ->
  let next := list_find (fun x => follows tx x.2) (map_ s) in
  popAcctTransaction s tx =
  match next with
  | Some (i, x) => if viable tx x.2 then (mkCanonicalTXSet (delete i (map_ s)) (salt_ s), Some x.2) else (s, None)
  | None => (s, None)
  end.
Proof.
  intros [Hs Hk] next. unfold popAcctTransaction. set (after := mkKey _ _ 0).
  destruct (lower_bound after (map_ s)) as [a b] eqn:E. destruct (txs_lower_bound_spec _ _ _ _ Hs E) as (Em & Ha & Hb).
  rewrite Em in Hk, Hs. apply Forall_app in Hk as [Hka Hkb].
  assert (Forall (fun x => ~ follows tx x.2) a) as Hna.
  { apply Forall_forall. intros x Hx. rewrite Forall_forall in Ha, Hka. apply (before_spec s).
    rewrite <-(Hka x Hx). by apply Ha. }
  unfold next. rewrite Em. destruct b as [|x rest].
  { rewrite (proj2 (list_find_None _ _)); [done|]. by rewrite app_nil_r. }
  apply Forall_cons in Hkb as [Hkx Hkr]. apply Forall_cons in Hb as [Hbx Hbr].
  destruct (N.eqb_spec (account_ x.1) (accountKey s (getAccountID tx))) as [Ea|Ea]; cbn [andb].
  - assert (follows tx x.2) as Hf by (rewrite Hkx in Hbx, Ea; by eapply after_spec).
    rewrite (proj2 (list_find_Some _ _ (length a) x)); [by rewrite delete_middle; unfold viable|].
    split_and!; [by rewrite list_lookup_middle|done|]. intros j y Hj Hlt. rewrite lookup_app_l in Hj by done.
    apply (proj1 (Forall_forall _ _) Hna). by eapply list_elem_of_lookup_2.
  - rewrite (proj2 (list_find_None _ _)); [done|]. apply Forall_app. split; [done|].
    apply StronglySorted_app in Hs as (_ & _ & Hs). inversion Hs as [|? ? _ Hall]; subst.
    assert (accountKey s (getAccountID tx) < account_ x.1) as Hgt.
    { rewrite <-not_true_iff_false, key_lt_spec in Hbx. cbn in Hbx. lia. }
    constructor; [intros [Hac _]; rewrite Hkx in Ea; cbn in Ea; by rewrite Hac in Ea|].
    apply Forall_forall. intros y Hy [Hac _]. rewrite Forall_forall in Hall, Hkr. specialize (Hall y Hy).
    unfold entry_lt in Hall. rewrite key_lt_spec in Hall. rewrite (Hkr y Hy) in Hall. cbn in Hall. rewrite Hac in Hall. lia.
Qed.

Lemma sorted_same m m' : StronglySorted entry_lt m -> StronglySorted entry_lt m' ->
  (forall x, x ∈ m <-> x ∈ m') -> m = m'.
Proof.
  intros Hs Hs' Hel. apply (StronglySorted_unique entry_lt); [done|done|].
  apply NoDup_Permutation; [|..|done]; by eapply NoDup_fmap_1, sorted_nodup.
Qed.

Lemma txs_nodup s : set_ok s -> NoDup (map_ s).*2.
Proof.
  intros [Hs Hk]. apply NoDup_fmap_2_strong; [|by eapply NoDup_fmap_1, sorted_nodup].
  intros x y Hx Hy E. rewrite Forall_forall in Hk. rewrite (surjective_pairing x), (surjective_pairing y).
  by rewrite (Hk x Hx), (Hk y Hy), E.
Qed.
