(* ===== verification/ApplyTxs.v ===== *)
(** * Applying transactions to a ledger

    [applyTransaction] and batches (tx/apply.cpp), the passes of
    [applyTransactions] and the two [buildLedger] (BuildLedger.cpp).  The
    transaction engine behind [xrpl::apply] (preflight, preclaim, doApply) is
    a parameter ([Engine]).  An exception leaves the state as it was when it
    was thrown, so that computations return the state beside the result. *)

From S2P Require Import RawStateTable.
From S2P Require Import Prelude LedgerEntry Views Serializer LedgerHeader SHAMapNodeID SHAMap SHAMapSpec SHAMapMap SHAMapHash Ledger LedgerSpec StackedViews ApplyToLedger Instances BuildLedger CanonicalTXSet.
Open Scope Z_scope.

(** ** Results *)

Definition telLOCAL_ERROR : Z := -399.
Definition temMALFORMED : Z := -299.
Definition tefFAILURE : Z := -199.
Definition terRETRY : Z := -99.
Definition tesSUCCESS : Z := 0.
Definition tecCLAIM : Z := 100.

Definition isTelLocal (x : Z) : bool := (telLOCAL_ERROR <=? x) && (x <? temMALFORMED).
Definition isTemMalformed (x : Z) : bool := (temMALFORMED <=? x) && (x <? tefFAILURE).
Definition isTefFailure (x : Z) : bool := (tefFAILURE <=? x) && (x <? terRETRY).
Definition isTesSuccess (x : Z) : bool := x =? tesSUCCESS.
Definition isTecClaim (x : Z) : bool := tecCLAIM <=? x.

Definition TapNone : N := 0x00.
Definition TapRetry : N := 0x20.
Definition TapBatch : N := 0x800.

Definition ttBATCH : N := 71.
Definition tfAllOrNothing : N := 0x00010000.
Definition tfOnlyOne : N := 0x00020000.
Definition tfUntilFailure : N := 0x00040000.
Definition has_flag (mode flag : N) : bool := negb (N.land mode flag =? 0)%N.

Record ApplyResult : Type := mkApplyResult { ter : Z; applied : bool }.

Inductive ApplyTransactionResult : Type := Success | Fail | Retry.
#[export] Instance ApplyTransactionResult_eq_dec : EqDecision ApplyTransactionResult.
Proof. solve_decision. Defined.

(** ** The engine

    [xrpl::apply] with its flags, the batch the transaction is of, and the
    transaction, on a view over any base. *)
Class Engine : Type := {
  engine_apply : forall {V : Type} `{HeaderView V, ReadView V},
    N -> option N -> STTx -> Heap * OpenView V -> result ApplyResult * (Heap * OpenView V)
}.

(** ** One transaction *)

Section applyTransaction.
Context `{Engine} {V : Type} `{HeaderView V, ReadView V}.
Implicit Types (h : Heap) (tx : STTx).

(** [applyOneTransaction]: the changes of a transaction that is applied go to
    the view of the batch. *)
Definition applyOneTransaction (parentBatchId : N) tx (st : Heap * OpenView (OpenView V))
    : result ApplyResult * (Heap * OpenView (OpenView V)) :=
  let '(h, batchView) := st in
  let '(ret, (h, perTxBatchView)) :=
    engine_apply TapBatch (Some parentBatchId) tx (h, makeBatchView batchView) in
  match ret with
  | Throw e => (Throw e, (h, batchView))
  | Ok ret =>
      if applied ret && (isTesSuccess (ter ret) || isTecClaim (ter ret)) then
        let '(batchView, r) := StackedViews.apply h perTxBatchView batchView in
        (_ ← r; Ok ret, (h, batchView))
      else (Ok ret, (h, batchView))
  end.

(** The loop of [applyBatchTransactions]. *)
Fixpoint batch_loop (parentBatchId mode : N) (txs : list STTx) (count : nat) (st : Heap * OpenView (OpenView V))
    : result bool * (Heap * OpenView (OpenView V)) :=
  match txs with
  | [] => (Ok (negb (count =? 0)%nat), st)
  | tx :: txs =>
      let '(result, st) := applyOneTransaction parentBatchId tx st in
      match result with
      | Throw e => (Throw e, st)
      | Ok result =>
          let count := if applied result then S count else count in
          if negb (isTesSuccess (ter result)) then
            if has_flag mode tfAllOrNothing then (Ok false, st)
            else if has_flag mode tfUntilFailure then (Ok (negb (count =? 0)%nat), st)
            else batch_loop parentBatchId mode txs count st
          else if has_flag mode tfOnlyOne then (Ok (negb (count =? 0)%nat), st)
          else batch_loop parentBatchId mode txs count st
      end
  end.
Definition applyBatchTransactions (batchTxn : STTx) (st : Heap * OpenView (OpenView V))
    : result bool * (Heap * OpenView (OpenView V)) :=
  batch_loop (getTransactionID batchTxn) (getFlags batchTxn) (getRawTransactions batchTxn) 0 st.

Definition applyTransaction tx (retryAssured : bool) (flags : N) (st : Heap * OpenView V)
    : ApplyTransactionResult * (Heap * OpenView V) :=
  let flags := if retryAssured then N.lor flags TapRetry else flags in
  let '(result, (h, view)) := engine_apply flags None tx st in
  match result with
  | Throw _ => (Fail, (h, view))
  | Ok result =>
      if applied result then
        if isTesSuccess (ter result) && (getTxnType tx =? ttBATCH)%N then
          let '(b, (h, wholeBatchView)) := applyBatchTransactions tx (h, makeBatchView view) in
          match b with
          | Throw _ => (Fail, (h, view))
          | Ok true =>
              let '(view, r) := StackedViews.apply h wholeBatchView view in
              match r with
              | Ok _ => (Success, (h, view))
              | Throw _ => (Fail, (h, view))
              end
          | Ok false => (Success, (h, view))
          end
        else (Success, (h, view))
      else if isTefFailure (ter result) || isTemMalformed (ter result) || isTelLocal (ter result)
      then (Fail, (h, view))
      else (Retry, (h, view))
  end.
End applyTransaction.

(** ** All transactions of a ledger *)

Section applyTransactions.
Context `{Engine, Digest, SLECodec}.

Definition LEDGER_TOTAL_PASSES : nat := 3.
Definition LEDGER_RETRY_PASSES : nat := 1.

(** The loop over the transactions: those left, the failed ones, and the
    number of changes. *)
Fixpoint apply_pass (built : Ledger) (pass : nat) (certainRetry : bool) (txns : list (Key * STTx))
    (failed : gset N) (changes : nat) (st : Heap * OpenView Ledger)
    : list (Key * STTx) * gset N * nat * (Heap * OpenView Ledger) :=
  match txns with
  | [] => ([], failed, changes, st)
  | it :: txns =>
      let txid := txId_ it.1 in
      if (pass =? 0)%nat && txExists built txid then apply_pass built pass certainRetry txns failed changes st
      else
        match applyTransaction it.2 certainRetry TapNone st with
        | (Success, st) => apply_pass built pass certainRetry txns failed (S changes) st
        | (Fail, st) => apply_pass built pass certainRetry txns ({[txid]} ∪ failed) changes st
        | (Retry, st) =>
            let '(rest, failed, changes, st) := apply_pass built pass certainRetry txns failed changes st in
            (it :: rest, failed, changes, st)
        end
  end.

(** [n] passes are left. *)
Fixpoint apply_passes (n : nat) (built : Ledger) (pass : nat) (certainRetry : bool) (txns : list (Key * STTx))
    (failed : gset N) (count : nat) (st : Heap * OpenView Ledger)
    : nat * list (Key * STTx) * gset N * (Heap * OpenView Ledger) :=
  match n with
  | O => (count, txns, failed, st)
  | S n =>
      let '(txns, failed, changes, st) := apply_pass built pass certainRetry txns failed 0 st in
      let count := (count + changes)%nat in
      if (changes =? 0)%nat && negb certainRetry then (count, txns, failed, st)
      else
        let certainRetry :=
          if (changes =? 0)%nat || (LEDGER_RETRY_PASSES <=? pass)%nat then false else certainRetry in
        apply_passes n built (S pass) certainRetry txns failed count st
  end.

Definition applyTransactions (built : Ledger) (txns : CanonicalTXSet) (failed : gset N) (st : Heap * OpenView Ledger)
    : nat * CanonicalTXSet * gset N * (Heap * OpenView Ledger) :=
  let '(count, m, failed, st) := apply_passes LEDGER_TOTAL_PASSES built 0 true (map_ txns) failed 0 st in
  (count, mkCanonicalTXSet m (salt_ txns), failed, st).

(** The two [buildLedger]: from a set of transactions, and replaying the
    transactions of a ledger in their order. *)
Definition buildLedger (featureXRPFees : N) (parent : Ledger) (closeTime : Z) (closeTimeCorrect : bool)
    (closeResolution : Z) (txns : CanonicalTXSet) (failedTxns : gset N)
    : result (Ledger * (CanonicalTXSet * gset N)) :=
  buildLedgerImpl featureXRPFees parent closeTime closeTimeCorrect closeResolution (fun accum =>
    let '(_, txns, failedTxns, st) := applyTransactions (ov_base accum) txns failedTxns (∅, accum) in
    Ok ((txns, failedTxns), st)).

Definition buildLedger_replay (featureXRPFees : N) (parent : Ledger) (replay : LedgerHeader)
    (orderedTxns : list STTx) (applyFlags : N) : result (Ledger * ()) :=
  buildLedgerImpl featureXRPFees parent (closeTime replay)
    (Z.land (closeFlags replay) kSLcfNoConsensusTime =? 0) (closeTimeResolution replay) (fun accum =>
    Ok ((), foldl (fun st tx => (applyTransaction tx false applyFlags st).2) (∅, accum) orderedTxns)).
End applyTransactions.
