(* ===== verification/ApplyTxsProps.v ===== *)
(** * What applying transactions does

    The passes over the transactions of a ledger sort every transaction into
    one of four groups, and the views of a batch are committed as a whole.  The
    claims follow in the second part. *)

From S2P Require Import RawStateTable.
From S2P Require Import Prelude LedgerEntry Views Serializer LedgerHeader SHAMapNodeID SHAMap SHAMapSpec SHAMapMap SHAMapHash Ledger LedgerSpec StackedViews ApplyToLedger Instances BuildLedger CanonicalTXSet ApplyTxs.
Open Scope Z_scope.

(** ** The passes *)

Section passes.
Context `{Engine, Digest, SLECodec}.
Implicit Types (it : Key * STTx) (txns : list (Key * STTx)).

(** An attempt, final or not, that ended in [r]. *)
Definition tried (certainRetry : bool) (r : ApplyTransactionResult) it : Prop :=
  exists (st st' : Heap * OpenView Ledger), applyTransaction it.2 certainRetry TapNone st = (r, st').

Definition ids txns : gset N := list_to_set ((fun it => txId_ it.1) <$> txns).

(** Where the transactions went. *)
Record sorted_out (built : Ledger) (pass0 : Prop) txns present succeeded refused rest : Prop := {
  so_all : txns ≡ₚ present ++ succeeded ++ refused ++ rest;
  so_order : rest `sublist_of` txns;
  so_present : Forall (fun it => txExists built (txId_ it.1) = true) present;
  so_absent : pass0 -> Forall (fun it => txExists built (txId_ it.1) = false) (succeeded ++ refused ++ rest);
  so_succeeded : Forall (fun it => exists b, tried b Success it) succeeded;
  so_refused : Forall (fun it => exists b, tried b Fail it) refused
}.

Lemma apply_pass_spec built pass b txns failed changes st rest failed' changes' st' :
  apply_pass built pass b txns failed changes st = (rest, failed', changes', st') ->
  exists present succeeded refused,
    sorted_out built (pass = 0%nat) txns present succeeded refused rest /\
    changes' = (changes + length succeeded)%nat /\ failed' = ids refused ∪ failed /\
    Forall (tried b Retry) rest /\ (pass <> 0%nat -> present = []).
Proof.
  revert failed changes st rest. induction txns as [|it txns IH]; intros failed changes st rest; cbn [apply_pass].
  { intros [= <- <- <- <-]. exists [], [], []. split_and!; [split; (done || constructor)|cbn; lia|set_solver|constructor|done]. }
  destruct ((pass =? 0)%nat && txExists built (txId_ it.1)) eqn:Ex.
  { intros E. destruct (IH _ _ _ _ E) as (p & s & r & [Ha Ho Hp Hn Hs Hr] & -> & -> & Ht & Hpass).
    apply andb_true_iff in Ex as [E0 Ex]. apply Nat.eqb_eq in E0.
    exists (it :: p), s, r. split_and!; [split|done|done|done|done]; try done.
    - by rewrite Ha.
    - by apply sublist_cons.
    - by constructor. }
  assert (pass = 0%nat -> txExists built (txId_ it.1) = false) as Hnew.
  { intros ->. by destruct (txExists _ _). }
  destruct (applyTransaction it.2 b TapNone st) as [[] st1] eqn:Et.
  - intros E. destruct (IH _ _ _ _ E) as (p & s & r & [Ha Ho Hp Hn Hs Hr] & -> & -> & Ht & Hpass).
    exists p, (it :: s), r. split_and!; [split|cbn; lia|done|done|done]; try done.
    + rewrite Ha. apply Permutation_middle.
    + by apply sublist_cons.
    + intros Hz. constructor; auto.
    + constructor; [|done]. exists b, st, st1. done.
  - intros E. destruct (IH _ _ _ _ E) as (p & s & r & [Ha Ho Hp Hn Hs Hr] & -> & -> & Ht & Hpass).
    exists p, s, (it :: r). split_and!; [split|done| |done|done]; try done.
    + rewrite Ha. cbn [app]. rewrite !(app_assoc p). apply Permutation_middle.
    + by apply sublist_cons.
    + intros Hz. cbn [app]. rewrite <-Permutation_middle. constructor; auto.
    + constructor; [|done]. exists b, st, st1. done.
    + unfold ids. cbn. set_solver.
  - destruct (apply_pass built pass b txns failed changes st1) as [[[rest1 f1] c1] st2] eqn:E1. intros [= <- <- <- <-].
    destruct (IH _ _ _ _ E1) as (p & s & r & [Ha Ho Hp Hn Hs Hr] & -> & -> & Ht & Hpass).
    exists p, s, r. split_and!; [split|done|done| |done]; try done.
    + rewrite Ha. rewrite !(app_assoc s), !(app_assoc p). apply Permutation_middle.
    + by apply sublist_skip.
    + intros Hz. rewrite app_assoc, <-Permutation_middle, <-app_assoc. constructor; auto.
    + constructor; [|done]. by exists st, st1.
Qed.

(** Passes [pass], ..., 2: what is left was tried in a final one. *)
Lemma apply_passes_spec n built pass b txns failed count st count' rest failed' st' :
  (pass + n = 3)%nat -> (b = true -> pass <= 1)%nat -> (n = 0%nat -> Forall (tried false Retry) txns) ->
  apply_passes n built pass b txns failed count st = (count', rest, failed', st') ->
  exists present succeeded refused,
    sorted_out built (pass = 0%nat) txns present succeeded refused rest /\
    count' = (count + length succeeded)%nat /\ failed' = ids refused ∪ failed /\
    Forall (tried false Retry) rest /\ (pass <> 0%nat -> present = []).
Proof.
  revert pass b txns failed count st. induction n as [|n IH]; intros pass b txns failed count st Hn Hb Hlast; cbn [apply_passes].
  { intros [= <- <- <- <-]. exists [], [], []. split_and!; [split; try done|cbn; lia|set_solver|by apply Hlast|done].
    intros ->. lia. }
  destruct (apply_pass built pass b txns failed 0 st) as [[[txns1 failed1] changes] st1] eqn:E1.
  destruct (apply_pass_spec _ _ _ _ _ _ _ _ _ _ _ E1) as (p & s & r & Hso & Ec & -> & Ht & Hp0). cbn in Ec. subst changes.
  destruct ((length s =? 0)%nat && negb b) eqn:Estop.
  { intros [= <- <- <- <-]. apply andb_true_iff in Estop as [_ Hb']. apply negb_true_iff in Hb' as ->.
    exists p, s, r. by split_and!. }
  set (b' := if (length s =? 0)%nat || _ then false else b).
  assert (b' = true -> pass = 0%nat) as Hb'.
  { unfold b'. destruct (Nat.leb_spec LEDGER_RETRY_PASSES pass) as [Hle|Hgt]; unfold LEDGER_RETRY_PASSES in *; [|lia].
    by rewrite orb_true_r. }
  intros E2. apply IH in E2 as (p2 & s2 & r2 & Hso2 & -> & -> & Ht2 & Hp2); [|lia|intros ?%Hb'; lia|].
  2: { intros ->. assert (b = false) as ->; [|done]. destruct b; [|done]. specialize (Hb eq_refl). lia. }
  rewrite (Hp2 ltac:(done)) in *. clear p2 Hp2. destruct Hso as [Ha Ho Hp Hab Hs Hr], Hso2 as [Ha2 Ho2 _ _ Hs2 Hr2].
  exists p, (s ++ s2), (r ++ r2). split_and!; [split|rewrite length_app; lia| |done|done].
  - rewrite Ha, Ha2. cbn [app]. rewrite <-!app_assoc, (app_assoc r s2), (Permutation_app_comm r s2). by rewrite <-!app_assoc.
  - by etrans.
  - done.
  - intros Hz. specialize (Hab Hz). rewrite Ha2 in Hab. cbn [app] in Hab. rewrite !Forall_app in *. naive_solver.
  - by apply Forall_app.
  - by apply Forall_app.
  - unfold ids. rewrite fmap_app, list_to_set_app_L. set_solver.
Qed.

Lemma applyTransactions_spec built (txns txns' : CanonicalTXSet) failed st count failed' st' :
  applyTransactions built txns failed st = (count, txns', failed', st') ->
  exists present succeeded refused,
    sorted_out built True (map_ txns) present succeeded refused (map_ txns') /\
    count = length succeeded /\ failed' = ids refused ∪ failed /\ Forall (tried false Retry) (map_ txns').
Proof.
  unfold applyTransactions. destruct (apply_passes _ _ _ _ _ _ _ _) as [[[c m] f] s] eqn:E. intros [= <- <- <- <-].
  apply apply_passes_spec in E as (p & su & r & [] & -> & -> & Ht & _); [|done|lia|done].
  exists p, su, r. split_and!; [|done|done|done]. split; auto.
Qed.
End passes.

(** ** Batches *)

(** What the engine does to its view: it stays well formed over the same
    base, and existing shared entries are left alone. *)
Class EngineLaws `{Engine} : Prop := {
  engine_wf : forall (V : Type) `{HeaderView V, ReadViewLaws V} flags parent tx h (v : OpenView V) r h' v',
    rv_wf h v -> engine_apply flags parent tx (h, v) = (r, (h', v')) ->
    rv_wf h' v' /\ ov_base v' = ov_base v /\ h ⊆ h'
}.

Section batch.
Context `{Engine, !EngineLaws} {V : Type} `{HeaderView V, ReadViewLaws V}.
Implicit Types (v : OpenView V) (bv : OpenView (OpenView V)).

Lemma wf_grows {W} `{ReadViewLaws W} h h' (w : W) : rv_wf h w -> h ⊆ h' -> rv_wf h' w /\ rv_map h' w = rv_map h w.
Proof.
  intros Hwf Hh. apply rv_frame; [done|]. intros p Hp. apply rv_ptrs_dom in Hwf. apply Hwf, elem_of_dom in Hp as [s Es].
  rewrite Es. by eapply lookup_weaken.
Qed.

Lemma makeBatchView_wf {W} `{ReadViewLaws W} h (w : OpenView W) : rv_wf h w ->
  rv_wf h (makeBatchView w) /\ rv_map h (makeBatchView w) = rv_map h w.
Proof.
  intros Hwf. split.
  - split; [done|intros k a..]; cbn; by rewrite lookup_empty.
  - change (RawStateTable.table_map h w RawStateTable.empty_table = rv_map h w). apply overlay_empty.
Qed.

(** The changes of a view go to the view below. *)
Lemma items_same {W} h items (w w' : OpenView W) : foldM (RawStateTable.apply_item h) w items = Ok w' ->
  ov_base w' = ov_base w /\ ov_txs w' = ov_txs w.
Proof.
  revert w. induction items as [|[k a] items IH]; intros w; cbn [foldM]; [by intros [= <-]|].
  destruct (RawStateTable.apply_item h w (k, a)) as [w1|] eqn:E; [|done]. intros E'.
  destruct (IH _ E') as [-> ->]. clear E' IH. unfold RawStateTable.apply_item in E. cbn in E.
  destruct (RawStateTable.action a); apply bind_Ok in E as (s & _ & [= <-]); done.
Qed.

(** Filing transactions in order: all of them, or those before the first that
    is there already. *)
Lemma txs_inserted {W} txs (w w' : OpenView W) r :
  StronglySorted Prelude.key_lt txs -> insert_txs w txs = (w', r) ->
  ov_base w' = ov_base w /\ ov_items w' = ov_items w /\
  match r with
  | Ok _ => forall k d, ov_txs w' !! k = Some d <-> (k, d) ∈ txs \/ ov_txs w !! k = Some d
  | Throw _ => exists k0, k0 ∈ txs.*1 /\ is_Some (ov_txs w !! k0) /\
      forall k d, ov_txs w' !! k = Some d <-> (k, d) ∈ txs /\ (k < k0)%N \/ ov_txs w !! k = Some d
  end.
Proof.
  revert w. induction txs as [|[k0 d0] txs IH]; intros w Hs; cbn [insert_txs].
  { intros [= <- <-]. split_and!; [done..|]. intros k d. rewrite elem_of_nil. tauto. }
  unfold raw_txInsert at 1, OpenView_TxsRawView, ov_rawTxInsert.
  apply StronglySorted_inv in Hs as [Hs Hlt]. rewrite Forall_forall in Hlt.
  destruct (ov_txs w !! k0) eqn:E0.
  { intros [= <- <-]. split_and!; [done..|]. exists k0. split_and!; [left|by rewrite E0|].
    intros k d. split; [tauto|]. intros [[[[= -> ->]|Hin]%elem_of_cons Hk]|?]; [lia| |done].
    specialize (Hlt _ Hin). unfold Prelude.key_lt in Hlt. cbn in Hlt. lia. }
  intros E. destruct (IH _ Hs E) as (-> & -> & Hel). split_and!; [done..|]. destruct r as [[]|e].
  - intros k d. rewrite Hel. cbn. rewrite lookup_insert_Some, elem_of_cons. destruct d0. cbn. naive_solver.
  - destruct Hel as (k1 & Hin & Hsome & Hel).
    assert (k0 < k1)%N as Hk.
    { apply list_elem_of_fmap in Hin as ([k1' d1] & -> & Hin). exact (Hlt _ Hin). }
    exists k1. cbn in Hsome. rewrite lookup_insert_ne in Hsome by lia. split_and!; [by right|done|].
    intros k d. rewrite Hel. cbn. rewrite lookup_insert_Some, elem_of_cons. destruct d0. cbn. naive_solver.
Qed.

(** The view [bv'] is [bv] with the changes of the view [pv] over it. *)
Record merged {W} `{ReadViewLaws W} h (pv : OpenView (OpenView W)) (bv bv' : OpenView W) : Prop := {
  mg_wf : rv_wf h bv';
  mg_map : rv_map h bv' = rv_map h pv;
  mg_base : ov_base bv' = ov_base bv;
  mg_destroyed : rv_destroyed bv' = rv_destroyed bv + rv_destroyed pv;
  mg_txs : forall k d, ov_txs bv' !! k = Some d <-> ov_txs pv !! k = Some d \/ ov_txs bv !! k = Some d
}.

(** The same up to the transaction with the identifier [dup], which [bv] has
    already: the state changes and the transactions before it. *)
Record half_merged {W} `{ReadViewLaws W} h (pv : OpenView (OpenView W)) (bv bv' : OpenView W) (dup : N) : Prop := {
  hm_wf : rv_wf h bv';
  hm_map : rv_map h bv' = rv_map h pv;
  hm_base : ov_base bv' = ov_base bv;
  hm_destroyed : rv_destroyed bv' = rv_destroyed bv + rv_destroyed pv;
  hm_dup : is_Some (ov_txs pv !! dup) /\ is_Some (ov_txs bv !! dup);
  hm_txs : forall k d, ov_txs bv' !! k = Some d <->
    ov_txs pv !! k = Some d /\ (k < dup)%N \/ ov_txs bv !! k = Some d
}.

Lemma merge_view {W} `{ReadViewLaws W} h (pv : OpenView (OpenView W)) (bv bv' : OpenView W) r :
  rv_wf h pv -> ov_base pv = bv -> StackedViews.apply h pv bv = (bv', r) ->
  match r with Ok _ => merged h pv bv bv' | Throw _ => exists dup, half_merged h pv bv bv' dup end.
Proof.
  intros Hwf <- E. pose proof (RawStateTable.wf_base _ _ _ Hwf) as Hb.
  destruct (RawStateTable.apply_map h (ov_base pv) (ov_items pv) (ov_base pv) Hwf Hb eq_refl)
    as (w1 & E1 & Hwf1 & Hm1 & Hd1); [done|].
  unfold StackedViews.apply in E. rewrite E1 in E.
  destruct (txs_inserted _ _ _ _ (ordered_sorted _) E) as (Eb & Ei & Ht).
  destruct (items_same _ _ _ _ E1) as [Eb1 Et1]. cbn in Eb1, Et1.
  assert (rv_wf h bv' /\ rv_map h bv' = rv_map h w1 /\ rv_destroyed bv' = rv_destroyed w1) as (Hw' & Hm' & Hd').
  { cbn. rewrite Eb, Ei. done. }
  destruct r as [[]|e].
  - split; [done|by rewrite Hm'|congruence|by rewrite Hd', Hd1|].
    intros k d. by rewrite Ht, elem_of_ordered, Et1.
  - destruct Ht as (k0 & Hin & Hk0 & Ht). exists k0.
    split; [done|by rewrite Hm'|congruence|by rewrite Hd', Hd1| |].
    + rewrite Et1 in Hk0. split; [|done]. apply list_elem_of_fmap in Hin as ([k1 d1] & -> & Hin%elem_of_ordered). eauto.
    + intros k d. by rewrite Ht, elem_of_ordered, Et1.
Qed.

(** The transactions of a batch one after the other, each on what the ones
    before it left. *)
Inductive inner_run (parent : N) : list STTx -> Heap -> OpenView (OpenView V) -> list ApplyResult ->
    Heap -> OpenView (OpenView V) -> Prop :=
| inner_nil h bv : inner_run parent [] h bv [] h bv
| inner_cons tx txs h bv r h1 pv bv1 rs h2 bv2 :
    engine_apply TapBatch (Some parent) tx (h, makeBatchView bv) = (Ok r, (h1, pv)) ->
    (if applied r && (isTesSuccess (ter r) || isTecClaim (ter r)) then merged h1 pv bv bv1 else bv1 = bv) ->
    inner_run parent txs h1 bv1 rs h2 bv2 -> inner_run parent (tx :: txs) h bv (r :: rs) h2 bv2.

(** A result that ends a batch of the mode, and the results of a batch: those
    of its transactions up to the first that ends it. *)
Definition ends (mode : N) (r : ApplyResult) : bool :=
  if isTesSuccess (ter r) then has_flag mode tfOnlyOne
  else has_flag mode tfAllOrNothing || has_flag mode tfUntilFailure.
Fixpoint complete (mode : N) (txs : list STTx) (rs : list ApplyResult) : Prop :=
  match txs, rs with
  | [], [] => True
  | _ :: txs, r :: rs => if ends mode r then rs = [] else complete mode txs rs
  | _, _ => False
  end.
(** Whether the batch is committed. *)
Definition committed (mode : N) (count : nat) (rs : list ApplyResult) : bool :=
  negb (has_flag mode tfAllOrNothing && existsb (fun r => negb (isTesSuccess (ter r))) rs) &&
  negb (count + length (filter (fun r => applied r = true) rs) =? 0)%nat.

Lemma committed_cons mode count r rs : ends mode r = false ->
  committed mode (if applied r then S count else count) rs = committed mode count (r :: rs).
Proof.
  intros He. unfold committed, ends in *. cbn [existsb]. rewrite filter_cons. f_equal.
  - destruct (isTesSuccess (ter r)); cbn [negb orb]; [done|]. apply orb_false_iff in He as [-> _]. done.
  - destruct (applied r); [rewrite decide_True by done|rewrite decide_False by done]; cbn [length]; do 2 f_equal; lia.
Qed.

Lemma committed_single mode count r : committed mode count [r] =
  negb (has_flag mode tfAllOrNothing && negb (isTesSuccess (ter r))) && negb ((if applied r then S count else count) =? 0)%nat.
Proof.
  unfold committed. cbn [existsb]. rewrite orb_false_r, filter_cons, filter_nil.
  destruct (applied r); [rewrite decide_True by done|rewrite decide_False by done]; cbn [length]; do 3 f_equal; lia.
Qed.

(** A committed batch of all or nothing. *)
Lemma committed_success mode count rs : has_flag mode tfAllOrNothing = true -> committed mode count rs = true ->
  Forall (fun r => isTesSuccess (ter r) = true) rs.
Proof.
  intros Hf Hc. unfold committed in Hc. rewrite Hf in Hc. apply andb_true_iff in Hc as [Hc _].
  apply negb_true_iff in Hc. cbn [andb] in Hc. induction rs as [|r rs IH]; constructor; cbn in Hc.
  - by destruct (isTesSuccess (ter r)).
  - apply IH. by apply orb_false_iff in Hc as [_ ?].
Qed.
Lemma all_or_nothing mode txs rs : complete mode txs rs -> has_flag mode tfOnlyOne = false ->
  Forall (fun r => isTesSuccess (ter r) = true) rs ->
  length rs = length txs /\ Forall (fun r => isTesSuccess (ter r) = true) rs.
Proof.
  intros Hc Ho Hs. split; [|done]. revert rs Hc Hs. induction txs as [|t txs IH]; intros [|r rs] Hc Hs; try done.
  cbn in Hc |- *. apply Forall_cons in Hs as [Hr Hs]. unfold ends in Hc. rewrite Hr, Ho in Hc. f_equal. by apply IH.
Qed.

Lemma applyOne_spec parent tx h bv r h1 bv1 : rv_wf h bv ->
  applyOneTransaction parent tx (h, bv) = (r, (h1, bv1)) ->
  rv_wf h1 bv1 /\ ov_base bv1 = ov_base bv /\ h ⊆ h1 /\
  forall ret, r = Ok ret -> exists pv, engine_apply TapBatch (Some parent) tx (h, makeBatchView bv) = (Ok ret, (h1, pv)) /\
    if applied ret && (isTesSuccess (ter ret) || isTecClaim (ter ret)) then merged h1 pv bv bv1 else bv1 = bv.
Proof.
  intros Hwf. unfold applyOneTransaction. destruct (engine_apply _ _ _ _) as [ret [h' pv]] eqn:Ee.
  destruct (makeBatchView_wf h bv Hwf) as [Hwf' _].
  destruct (engine_wf _ _ _ _ _ _ _ _ _ Hwf' Ee) as (Hwp & Ebp & Hh). destruct (wf_grows _ _ _ Hwf Hh) as [Hwb _].
  destruct ret as [ret|e]; [|by intros [= <- <- <-]].
  destruct (applied ret && _) eqn:Ea.
  - destruct (StackedViews.apply h' pv bv) as [bv' r'] eqn:Em. intros [= <- <- <-].
    pose proof (merge_view h' pv bv bv' r' Hwp Ebp Em) as Hm. destruct r' as [[]|e].
    + split_and!; [apply Hm|apply Hm|done|]. intros ? [= <-]. exists pv. split; [done|]. by rewrite Ea.
    + destruct Hm as (dup & Hm). by split_and!; [apply Hm|apply Hm|done|].
  - intros [= <- <- <-]. split_and!; [done..|]. intros ? [= <-]. exists pv. split; [done|]. by rewrite Ea.
Qed.

Lemma batch_loop_spec parent mode txs count h bv r h2 bv2 : rv_wf h bv ->
  batch_loop parent mode txs count (h, bv) = (r, (h2, bv2)) ->
  rv_wf h2 bv2 /\ ov_base bv2 = ov_base bv /\ h ⊆ h2 /\
  forall b, r = Ok b -> exists rs, inner_run parent (take (length rs) txs) h bv rs h2 bv2 /\
    complete mode txs rs /\ b = committed mode count rs.
Proof.
  revert count h bv. induction txs as [|tx txs IH]; intros count h bv Hwf; cbn [batch_loop].
  { intros [= <- <- <-]. split_and!; [done..|]. intros b [= <-]. exists []. split_and!; [constructor|done|].
    unfold committed. cbn. by rewrite andb_false_r, Nat.add_0_r. }
  destruct (applyOneTransaction parent tx (h, bv)) as [r1 [h1 bv1]] eqn:E1.
  destruct (applyOne_spec _ _ _ _ _ _ _ Hwf E1) as (Hwf1 & Eb1 & Hh1 & Hr1).
  destruct r1 as [r1|e]; [|by intros [= <- <- <-]]. destruct (Hr1 r1 eq_refl) as (pv & Ee & Hm).
  assert (forall b, ends mode r1 = true -> b = committed mode count [r1] ->
    exists rs, inner_run parent (take (length rs) (tx :: txs)) h bv rs h1 bv1 /\ complete mode (tx :: txs) rs /\ b = committed mode count rs) as Hend.
  { intros b He ->. exists [r1]. split_and!; [|cbn; by rewrite He|done]. cbn. rewrite take_0.
    eapply inner_cons; [exact Ee|exact Hm|constructor]. }
  assert (ends mode r1 = false -> batch_loop parent mode txs (if applied r1 then S count else count) (h1, bv1) = (r, (h2, bv2)) ->
    rv_wf h2 bv2 /\ ov_base bv2 = ov_base bv /\ h ⊆ h2 /\ forall b, r = Ok b ->
      exists rs, inner_run parent (take (length rs) (tx :: txs)) h bv rs h2 bv2 /\ complete mode (tx :: txs) rs /\ b = committed mode count rs) as Hgo.
  { intros He E. destruct (IH _ _ _ Hwf1 E) as (? & ? & ? & Hb). split_and!; [done|congruence|by etrans|].
    intros b Eb. destruct (Hb b Eb) as (rs & Hrun & Hc & ->). exists (r1 :: rs). split_and!.
    - cbn. eapply inner_cons; [exact Ee|exact Hm|done].
    - cbn. by rewrite He.
    - by rewrite committed_cons. }
  rewrite committed_single in Hend. unfold ends in Hend, Hgo. destruct (isTesSuccess (ter r1)); cbn [negb].
  - destruct (has_flag mode tfOnlyOne); [|by apply Hgo]. intros [= <- <- <-]. split_and!; [done..|].
    intros b [= <-]. apply Hend; [done|]. by rewrite andb_false_r.
  - destruct (has_flag mode tfAllOrNothing); cbn [orb andb negb] in *.
    { intros [= <- <- <-]. split_and!; [done..|]. intros b [= <-]. by apply Hend. }
    destruct (has_flag mode tfUntilFailure); [|by apply Hgo]. intros [= <- <- <-]. split_and!; [done..|].
    intros b [= <-]. by apply Hend.
Qed.
End batch.

(** * What applying transactions guarantees

    The canonical order of transactions (CanonicalTXSet.cpp), the outcome of
    the passes that apply a set of transactions to a ledger (BuildLedger.cpp)
    and of a batch (tx/apply.cpp). *)

(** ** An example engine

    Every transaction is filed in the view and destroys ten drops, except for
    those of type 99 that have to be retried and those of type 98 that fail. *)
#[export] Instance example_Engine : Engine := {|
  engine_apply V _ _ flags parent tx st :=
    if (getTxnType tx =? 99)%N then (Ok (mkApplyResult terRETRY false), st)
    else if (getTxnType tx =? 98)%N then (Ok (mkApplyResult tefFAILURE false), st)
    else
      match ov_rawTxInsert st.2 (getTransactionID tx) [1] (Some [2]) with
      | Ok v => (Ok (mkApplyResult tesSUCCESS true), (st.1, raw_destroyXRP v 10))
      | Throw e => (Throw e, st)
      end
|}.

#[export] Instance example_EngineLaws : EngineLaws.
Proof.
  split. intros V HV HR HL flags parent tx h v r h' v' Hwf. cbn.
  destruct (_ =? _)%N; [by intros [= <- <- <-]|]. destruct (_ =? _)%N; [by intros [= <- <- <-]|].
  unfold ov_rawTxInsert. destruct (ov_txs v !! _); [by intros [= <- <- <-]|].
  intros [= <- <- <-]. split_and!; [exact (proj1 (raw_destroyXRP_spec h v 10 Hwf))|done|done].
Qed.

Definition example_tx (id account : N) (s : SeqProxy) (type : N) : STTx := mkSTTx id account s type 0 [].

(** ** Properties *)

(** C14. The canonical order: the set of distinct transactions does not depend
    on the order they are inserted in, holds all of them, has those of an
    account next to each other, sequence numbers ascending and then tickets
    ascending; and [popAcctTransaction] takes out the first transaction of
    the account at or after the given one, if that is a ticket or the next
    sequence number, and nothing otherwise. *)
Theorem canonical_order (salt : N) (txs : list STTx) : NoDup (getTransactionID <$> txs) ->
  let s := canonical salt txs in
  (forall txs', txs' ≡ₚ txs -> canonical salt txs' = s) /\
  (map_ s).*2 ≡ₚ txs /\
  (forall i j k t1 t2 t3, (i < j)%nat -> (j < k)%nat ->
    (map_ s).*2 !! i = Some t1 -> (map_ s).*2 !! j = Some t2 -> (map_ s).*2 !! k = Some t3 ->
    getAccountID t1 = getAccountID t3 -> getAccountID t2 = getAccountID t1) /\
  (forall i j t1 t2, (i < j)%nat -> (map_ s).*2 !! i = Some t1 -> (map_ s).*2 !! j = Some t2 ->
    getAccountID t1 = getAccountID t2 -> SeqProxy_lt (getSeqProxy t2) (getSeqProxy t1) = false) /\
  (forall tx, popAcctTransaction s tx =
    match list_find (fun x => follows tx x.2) (map_ s) with
    | Some (i, x) => if viable tx x.2 then (mkCanonicalTXSet (delete i (map_ s)) salt, Some x.2) else (s, None)
    | None => (s, None)
    end).
Proof.
  intros Hnd s. destruct (canonical_spec salt txs Hnd) as (Hok & Hsalt & Hel). fold s in Hok, Hsalt, Hel.
  assert (forall i t, (map_ s).*2 !! i = Some t -> map_ s !! i = Some (keyOf s t, t)) as Hget.
  { intros i t Ht. rewrite list_lookup_fmap in Ht. apply fmap_Some in Ht as ([k t'] & Hi & ->).
    pose proof (set_keys _ Hok) as Hk. rewrite Forall_forall in Hk. cbn. rewrite Hi. do 2 f_equal.
    apply (Hk (k, t')). by eapply list_elem_of_lookup_2. }
  assert (forall i j t1 t2, (i < j)%nat -> (map_ s).*2 !! i = Some t1 -> (map_ s).*2 !! j = Some t2 ->
    key_lt (keyOf s t1) (keyOf s t2) = true) as Hlt.
  { intros i j t1 t2 Hij H1%Hget H2%Hget. exact (sorted_lookup _ _ _ _ _ (set_sorted _ Hok) Hij H1 H2). }
  split_and!.
  - intros txs' Hp. assert (NoDup (getTransactionID <$> txs')) as Hnd' by (by rewrite Hp).
    destruct (canonical_spec salt txs' Hnd') as (Hok' & Hsalt' & Hel').
    destruct s as [m sl], (canonical salt txs') as [m' sl']. cbn in *. subst. f_equal.
    apply (sorted_same m' m); [apply (set_sorted _ Hok')|apply (set_sorted _ Hok)|].
    intros x. by rewrite Hel', Hel, Hp.
  - apply NoDup_Permutation.
    + by apply txs_nodup.
    + by apply NoDup_fmap_1 in Hnd.
    + intros t. rewrite list_elem_of_fmap. split; [by intros (x & -> & [? _]%Hel)|].
      intros Ht. exists (keyOf (newCanonicalTXSet salt) t, t). split; [done|]. by apply Hel.
  - intros i j k t1 t2 t3 Hij Hjk H1 H2 H3 E. pose proof (Hlt i j t1 t2 Hij H1 H2) as L1.
    pose proof (Hlt j k t2 t3 Hjk H2 H3) as L2. apply (accountKey_inj s). rewrite key_lt_spec in L1, L2. cbn in L1, L2.
    rewrite <-E in L2. lia.
  - intros i j t1 t2 Hij H1 H2 E. pose proof (Hlt i j t1 t2 Hij H1 H2) as L1. apply not_true_iff_false. intros L2.
    rewrite key_lt_spec in L1. cbn in L1. rewrite E in L1.
    destruct L1 as [?|[_ [L1|[Es _]]]]; [lia| |by rewrite Es, SeqProxy_lt_irrefl in L2].
    pose proof (SeqProxy_lt_trans _ _ _ L1 L2) as L. by rewrite SeqProxy_lt_irrefl in L.
  - intros tx. rewrite (pop_spec s tx Hok). by rewrite Hsalt.
Qed.

Definition example_txs : list STTx :=
  [example_tx 21 5 (mkSeqProxy Ticket 3) 0; example_tx 22 5 (mkSeqProxy Seq 9) 99; example_tx 23 4 (mkSeqProxy Seq 1) 98;
   example_tx 24 5 (mkSeqProxy Seq 8) 0].

Lemma canonical_order_witness : getTransactionID <$> (map_ (canonical 77 example_txs)).*2 = [23; 24; 22; 21]%N /\
  canonical 77 (reverse example_txs) = canonical 77 example_txs.
Proof.
  split; [by vm_compute|]. destruct (canonical_order 77 example_txs) as [Hp _].
  - repeat constructor; set_solver.
  - apply Hp. apply reverse_Permutation.
Defined.

(** C13. The passes of [applyTransactions] deal with every transaction once:
    it was in the ledger already, or it was applied, or it failed, or it is
    left over, in the canonical order. The applied ones are counted, the
    failed ones are reported, and what is left over was tried in a final pass
    (without the flag that allows a retry) and is still to be retried. *)
Theorem applyTransactions_outcome `{Engine, Digest, SLECodec} (built : Ledger) (txns : CanonicalTXSet)
    (failed : gset N) (st : Heap * OpenView Ledger) :
  let '(count, txns', failed', st') := applyTransactions built txns failed st in
  salt_ txns' = salt_ txns /\
  exists present succeeded refused,
    map_ txns ≡ₚ present ++ succeeded ++ refused ++ map_ txns' /\ map_ txns' `sublist_of` map_ txns /\
    Forall (fun it => txExists built (txId_ it.1) = true) present /\
    Forall (fun it => txExists built (txId_ it.1) = false) (succeeded ++ refused ++ map_ txns') /\
    Forall (fun it => exists b, tried b Success it) succeeded /\ count = length succeeded /\
    Forall (fun it => exists b, tried b Fail it) refused /\ failed' = ids refused ∪ failed /\
    Forall (tried false Retry) (map_ txns').
Proof.
  destruct (applyTransactions built txns failed st) as [[[count txns'] failed'] st'] eqn:E. split.
  - unfold applyTransactions in E. destruct (apply_passes _ _ _ _ _ _ _ _) as [[[]]]. by injection E as _ <- _ _.
  - destruct (applyTransactions_spec _ _ _ _ _ _ _ _ E) as (p & s & r & [] & -> & -> & Ht).
    exists p, s, r. split_and!; auto.
Qed.

(** C12. A batch is atomic: after the outer transaction has succeeded, the
    inner ones run one after the other, each on what those before it left, up
    to the first one whose result ends a batch of the mode. Then the view
    either shows all their changes, or is as the outer transaction left it: if
    nothing was applied, if one failed in a batch of all or nothing, or (with
    the outcome [Fail]) if there was an exception in the batch. In particular a
    batch of all or nothing that changes the view had all its transactions
    succeed. The one exception: if an inner transaction that is to be committed
    has the identifier of one the view has already, filing it throws, the
    outcome is [Fail], and the view keeps all the state changes of the batch
    but only the transactions with smaller identifiers. *)
Theorem batch_atomic `{Engine, !EngineLaws} {V : Type} `{HeaderView V, ReadViewLaws V}
    (tx : STTx) (retry : bool) (flags : N) h (v : OpenView V) r h1 v1 :
  rv_wf h v -> getTxnType tx = ttBATCH ->
  engine_apply (if retry then N.lor flags TapRetry else flags) None tx (h, v) = (Ok r, (h1, v1)) ->
  applied r = true -> isTesSuccess (ter r) = true ->
  let mode := getFlags tx in
  let '(res, (h2, v2)) := applyTransaction tx retry flags (h, v) in
  rv_wf h2 v2 /\ ov_base v2 = ov_base v /\
  (res = Fail /\ v2 = v1 \/
   exists rs bv,
     inner_run (getTransactionID tx) (take (length rs) (getRawTransactions tx)) h1 (makeBatchView v1) rs h2 bv /\
     complete mode (getRawTransactions tx) rs /\
     (if committed mode 0 rs
      then res = Success /\ merged h2 bv v1 v2 \/ res = Fail /\ exists dup, half_merged h2 bv v1 v2 dup
      else res = Success /\ v2 = v1) /\
     (has_flag mode tfAllOrNothing = true -> has_flag mode tfOnlyOne = false -> committed mode 0 rs = true ->
       length rs = length (getRawTransactions tx) /\ Forall (fun r => isTesSuccess (ter r) = true) rs)).
Proof.
  intros Hwf Ht Ee Ha Hs mode. destruct (engine_wf _ _ _ _ _ _ _ _ _ Hwf Ee) as (Hwf1 & Eb1 & _).
  unfold applyTransaction. rewrite Ee, Ha, Hs, Ht, N.eqb_refl. cbn [andb].
  destruct (applyBatchTransactions tx (h1, makeBatchView v1)) as [b [h2 bv]] eqn:Eb.
  destruct (batch_loop_spec _ _ _ _ _ _ _ _ _ (proj1 (makeBatchView_wf _ _ Hwf1)) Eb) as (Hwf2 & Eb2 & Hh2 & Hrun).
  destruct (wf_grows _ _ _ Hwf1 Hh2) as [Hwf1' _]. destruct b as [b|e]; [|by split_and!; auto].
  destruct (Hrun b eq_refl) as (rs & Hi & Hc & ->).
  assert (has_flag mode tfAllOrNothing = true -> has_flag mode tfOnlyOne = false -> committed mode 0 rs = true ->
    length rs = length (getRawTransactions tx) /\ Forall (fun r => isTesSuccess (ter r) = true) rs) as Haon.
  { intros Hf Ho Hcm. eapply all_or_nothing; [done..|]. by apply (committed_success mode 0). }
  fold mode. destruct (committed mode 0 rs) eqn:Ecm.
  - destruct (StackedViews.apply h2 bv v1) as [v2 r'] eqn:Em.
    pose proof (merge_view h2 bv v1 v2 r' Hwf2 Eb2 Em) as Hm. destruct r' as [[]|e].
    + split_and!; [apply Hm|by rewrite (mg_base _ _ _ _ Hm)|]. right. exists rs, bv. rewrite Ecm. by split_and!; auto.
    + assert (rv_wf h2 v2 /\ ov_base v2 = ov_base v) as [? ?].
      { destruct Hm as (dup & Hm). split; [apply Hm|by rewrite (hm_base _ _ _ _ _ Hm)]. }
      split_and!; [done|done|]. right. exists rs, bv. rewrite Ecm. by split_and!; auto.
  - split_and!; [done|done|]. right. exists rs, bv. rewrite Ecm. by split_and!.
Qed.

(** A batch of two transactions, all or nothing. *)
Definition example_batch : STTx :=
  mkSTTx 30 5 (mkSeqProxy Seq 1) ttBATCH tfAllOrNothing
    [example_tx 31 5 (mkSeqProxy Seq 2) 0; example_tx 32 5 (mkSeqProxy Seq 3) 0].

Lemma example_openView_wf : rv_wf (∅ : Heap) (makeView example_ledger).
Proof. split; [exact example_ledger_wf|intros k a..]; cbn; by rewrite lookup_empty. Qed.

Definition outer_view : OpenView Ledger :=
  raw_destroyXRP (mkOpenView {[ 30%N := mkTxData [1] (Some [2]) ]} (rules_ example_ledger) (header_ example_ledger)
    example_ledger RawStateTable.empty_table 0 false) 10.

Lemma batch_atomic_witness :
  let '(res, (h2, v2)) := applyTransaction example_batch true TapNone (∅ : Heap, makeView example_ledger) in
  res = Success /\ rv_wf h2 v2 /\ rv_destroyed v2 = 30 /\ dom (ov_txs v2) = {[30%N; 31%N; 32%N]}.
Proof.
  pose proof (batch_atomic example_batch true TapNone (∅ : Heap) (makeView example_ledger) (mkApplyResult tesSUCCESS true)
    ∅ outer_view example_openView_wf eq_refl eq_refl eq_refl eq_refl) as Hb.
  cbv zeta in Hb. assert ((applyTransaction example_batch true TapNone (∅ : Heap, makeView example_ledger)).1 = Success /\
    rv_destroyed (applyTransaction example_batch true TapNone (∅ : Heap, makeView example_ledger)).2.2 = 30 /\
    dom (ov_txs (applyTransaction example_batch true TapNone (∅ : Heap, makeView example_ledger)).2.2) = {[30%N; 31%N; 32%N]})
    as (E1 & E2 & E3) by (split_and!; vm_compute; reflexivity).
  destruct (applyTransaction example_batch true TapNone (∅ : Heap, makeView example_ledger)) as [res [h2 v2]].
  cbn [fst snd] in E1, E2, E3. split_and!; [exact E1|exact (proj1 Hb)|exact E2|exact E3].
Defined.

(** The exception in [batch_atomic] is real: with the identifier of the batch
    on an inner transaction, the view keeps the drops both inner transactions
    destroyed and the transaction before it. *)
Example duplicate_identifier :
  let tx := mkSTTx 30 5 (mkSeqProxy Seq 1) ttBATCH tfAllOrNothing
    [example_tx 29 5 (mkSeqProxy Seq 2) 0; example_tx 30 5 (mkSeqProxy Seq 3) 0] in
  let '(res, (_, v)) := applyTransaction tx true TapNone (∅ : Heap, makeView example_ledger) in
  res = Fail /\ rv_destroyed v = 30 /\ dom (ov_txs v) = {[29%N; 30%N]}.
Proof. vm_compute. split_and!; reflexivity. Qed.
