(* ===== verification/SHAMapProps.v ===== *)
(** * Properties of the SHAMap

    The radix tree implements a finite map, its shape and hash depend on the
    contents only, its nodes survive serialization. *)

From S2P Require Import Prelude LedgerEntry Serializer LedgerHeader SHAMapNodeID SHAMap SHAMapSpec SHAMapMap SHAMapHash Ledger Instances.

Local Open Scope N_scope.

(** Trees made from the empty map by the public operations. *)
Inductive reachable {A H : Type} `{EqDecision H} (leafHash : N -> A -> H) (ty : SHAMapNodeType)
    : SHAMapTreeNode A -> Prop :=
| reach_empty : reachable leafHash ty emptyMap
| reach_add root item root' b :
    reachable leafHash ty root -> item_key item < 2 ^ 256 ->
    addGiveItem root ty item = Ok (root', b) -> reachable leafHash ty root'
| reach_del root key root' b :
    reachable leafHash ty root -> key < 2 ^ 256 ->
    delItem root key = Ok (root', b) -> reachable leafHash ty root'
| reach_update root item root' b :
    reachable leafHash ty root -> item_key item < 2 ^ 256 -> no_clash leafHash root item ->
    updateGiveItem leafHash root ty item = Ok (root', b) -> reachable leafHash ty root'.

Section reachable.
Context {A H : Type} `{EqDecision H} (leafHash : N -> A -> H) (ty : SHAMapNodeType).
Hypothesis ty_leaf : ty <> TnInner.

Lemma reachable_wf root : reachable leafHash ty root -> wf_map ty root.
Proof.
  induction 1 as [|root item root' b _ IH Hk E|root key root' b _ IH Hk E
                 |root item root' b _ IH Hk Hc E].
  - by apply emptyMap_wf.
  - pose proof (addGiveItem_map ty root item IH Hk) as Ha.
    destruct (item_map root !! item_key item);
      [rewrite Ha in E; by injection E as <- <-|].
    destruct Ha as (r & E' & Hr & _). rewrite E in E'. by injection E' as -> ->.
  - pose proof (delItem_map ty root key IH Hk) as Ha.
    destruct (item_map root !! key); [|rewrite Ha in E; by injection E as <- <-].
    destruct Ha as (r & E' & Hr & _). rewrite E in E'. by injection E' as -> ->.
  - pose proof (updateGiveItem_map leafHash ty root item Hc IH Hk) as Ha.
    destruct (item_map root !! item_key item); [|rewrite Ha in E; by injection E as <- <-].
    destruct Ha as (r & E' & Hr & _). rewrite E in E'. by injection E' as -> ->.
Qed.
End reachable.

Lemma item_map_elems {A} ty (r1 r2 : SHAMapTreeNode A) :
  wf_map ty r1 -> wf_map ty r2 -> item_map r1 = item_map r2 ->
  forall x, x ∈ items r1 <-> x ∈ items r2.
Proof.
  intros H1 H2 E [k d]. rewrite <-(item_map_Some ty r1), <-(item_map_Some ty r2) by done. by rewrite E.
Qed.

Lemma same_items_same_tree {A} ty (r1 r2 : SHAMapTreeNode A) :
  wf_map ty r1 -> wf_map ty r2 -> item_map r1 = item_map r2 -> r1 = r2.
Proof.
  intros H1 H2 E. eapply wf_unique; [apply H1|apply H2|intros _; split; [apply H1|apply H2]|].
  by eapply item_map_elems.
Qed.

(** Ordered queries: on every such tree, [upperBound] is the item with
    the least key above the argument and [lowerBound] the item with the
    greatest key below it, [end()] when there is none; iterating from
    [begin()] visits every item once in increasing key order, and from
    [upperBound(id)] those above [id]. *)
Theorem shamap_ordered {A H : Type} `{EqDecision H} (leafHash : N -> A -> H) ty root id :
  ty <> TnInner ->
  reachable leafHash ty root -> id < 2 ^ 256 ->
  (exists up st, upperBound root id = Ok (up, st) /\ is_upper (items root) id up /\
     iterate (length (items root)) (up, st) =
       Ok (filter (fun it => id < item_key it) (items root))) /\
  (exists low st, lowerBound root id = Ok (low, st) /\ is_lower (items root) id low) /\
  (exists cur, peekFirstItem root = Ok cur /\
     iterate (length (items root)) cur = Ok (items root)) /\
  item_pair <$> items root = ordered (item_map root).
Proof.
  intros Hty Hr Hk. pose proof (reachable_wf leafHash ty Hty root Hr) as Hwf.
  split_and!; [|destruct (lowerBound_spec ty root id Hwf Hk) as (r & st & ? & ? & _); eauto
              |by eapply begin_spec|by eapply items_ordered].
  destruct (upperBound_map ty root id Hwf Hk) as (r & st & E & _ & Hit).
  destruct (upperBound_spec ty root id Hwf Hk) as (r' & st' & E' & Hup & _).
  rewrite E in E'. injection E' as <- <-. by exists r, st.
Qed.

(** The map with the items 5 and 9. *)
Definition example_root : SHAMapTreeNode N :=
  match addGiveItem emptyMap TnAccountState (mkItem 5 50) with
  | Ok (r, _) => match addGiveItem r TnAccountState (mkItem 9 90) with
                 | Ok (r, _) => r | Throw _ => emptyMap end
  | Throw _ => emptyMap
  end.

Lemma example_root_reachable : reachable (fun _ (x : N) => x) TnAccountState example_root.
Proof.
  destruct (addGiveItem emptyMap TnAccountState (mkItem 5 50)) as [[r1 b1]|] eqn:E1;
    [|by vm_compute in E1].
  destruct (addGiveItem r1 TnAccountState (mkItem 9 90)) as [[r2 b2]|] eqn:E2;
    [|vm_compute in E1; injection E1 as <- <-; by vm_compute in E2].
  replace example_root with r2 by (unfold example_root; by rewrite E1, E2).
  eapply (reach_add _ _ r1 (mkItem 9 90) r2 b2); [|done|done].
  eapply (reach_add _ _ emptyMap (mkItem 5 50) r1 b1); [constructor|done|done].
Qed.

Lemma shamap_ordered_witness :
  (exists low st, lowerBound example_root 9 = Ok (low, st) /\ is_lower (items example_root) 9 low) /\
  items example_root = [mkItem 5 50; mkItem 9 90].
Proof.
  split; [|by vm_compute].
  apply (shamap_ordered (fun _ (x : N) => x) TnAccountState example_root 9);
    [done|exact example_root_reachable|done].
Defined.

(** C2. [SHAMap] implements a finite map in a canonical form.  On every tree
    made from the empty map by insertions, removals and replacements, where no
    item collides with the one it replaces: lookups, insertion, removal and
    replacement never throw and act as the operations of the map of its items;
    insertion, removal and replacement report whether the key was there;
    the trees they return have every leaf at the place of its key and no inner
    node below the root with a lone leaf or nothing below it; and the tree is
    the only one of its kind with its items, whatever led to it. *)
Theorem shamap_refines_map {A H : Type} `{EqDecision H} (leafHash : N -> A -> H) ty root item :
  ty <> TnInner -> reachable leafHash ty root -> item_key item < 2 ^ 256 -> no_clash leafHash root item ->
  let m := item_map root in
  let k := item_key item in
  let m' := <[k := item_data item]> m in
  peekItem root k = Ok (mkItem k <$> m !! k) /\
  hasItem root k = Ok (bool_decide (is_Some (m !! k))) /\
  (exists root', addGiveItem root ty item = Ok (root', bool_decide (m !! k = None)) /\ wf_map ty root' /\
     item_map root' = match m !! k with None => m' | Some _ => m end) /\
  (exists root', delItem root k = Ok (root', bool_decide (is_Some (m !! k))) /\ wf_map ty root' /\
     item_map root' = delete k m) /\
  (exists root', updateGiveItem leafHash root ty item =
       Ok (root', bool_decide (is_Some (m !! k))) /\ wf_map ty root' /\
     item_map root' = match m !! k with None => m | Some _ => m' end) /\
  (forall other, reachable leafHash ty other -> item_map other = m -> other = root).
Proof.
  intros Hty Hr Hk Hc. pose proof (reachable_wf leafHash ty Hty root Hr) as Hwf. cbv zeta.
  split_and!; [by eapply peekItem_map|by eapply hasItem_map|..].
  - pose proof (addGiveItem_map ty root item Hwf Hk) as Ha.
    destruct (item_map root !! item_key item); [by exists root|].
    destruct Ha as (r & ? & ? & ?). by exists r.
  - pose proof (delItem_map ty root (item_key item) Hwf Hk) as Ha.
    destruct (item_map root !! item_key item) eqn:E; [destruct Ha as (r & ? & ? & ?); by exists r|].
    exists root. split_and!; [done|done|]. by rewrite delete_id.
  - pose proof (updateGiveItem_map leafHash ty root item Hc Hwf Hk) as Ha.
    destruct (item_map root !! item_key item); [destruct Ha as (r & ? & ? & ?); by exists r|].
    by exists root.
  - intros other Ho. apply (same_items_same_tree ty); [by eapply reachable_wf|done].
Qed.

(** The map with the items 5 and 9 after 5 is removed: the map with 9 alone. *)
Lemma shamap_refines_map_witness :
  exists root', delItem example_root 5 = Ok (root', true) /\ wf_map TnAccountState root' /\
    item_map root' = {[ 9 := 90 ]} /\
    Ok (root', true) = addGiveItem emptyMap TnAccountState (mkItem 9 90).
Proof.
  destruct (shamap_refines_map (fun _ (x : N) => x) TnAccountState example_root (mkItem 5 55) ltac:(done)
    example_root_reachable ltac:(done) ltac:(by intros old _ _)) as (_ & _ & _ & (root' & E & Hwf & Em) & _).
  cbn [item_key] in E, Em. exists root'.
  assert (delItem example_root 5 = Ok (root', true)) as E5.
  { rewrite E. vm_compute. reflexivity. }
  split_and!; [exact E5|exact Hwf|rewrite Em; vm_compute; reflexivity|]. rewrite <-E5. vm_compute. reflexivity.
Defined.

(** C30. The root hash commits to the contents: for state and transaction
    maps over a digest that has no collision and no zero among the node
    images of the two trees, two maps have the same root hash exactly when
    they hold the same items. *)
Theorem shamap_hash_commits `{Digest} ty (r1 r2 : SHAMapTreeNode Blob) :
  ty = TnAccountState \/ ty = TnTransactionMd -> wf_map ty r1 -> wf_map ty r2 ->
  digest_good (preimages r1 ++ preimages r2) ->
  node_hash r1 = node_hash r2 <-> item_map r1 = item_map r2.
Proof.
  intros Hty H1 H2 Hg. split.
  - intros E. f_equal. eapply node_hash_inj; [exact Hty|apply H1|apply H2|done|done].
  - intros E. f_equal. by eapply same_items_same_tree.
Qed.

Lemma iterChildren_hashes `{Digest} (ch : list (option (SHAMapTreeNode Blob))) :
  iterChildren (map (option_map node_hash) ch) = child_hash <$> ch.
Proof. induction ch as [|[c|] ch IH]; [done|..]; csimpl; by rewrite <-IH. Qed.

Lemma node_hash_prefixed `{Digest} t :
  (forall ch, t = InnerNode ch -> getBranchCount ch <> 0%nat) ->
  node_hash t = sha512Half (data_ (serializeWithPrefix (stored_of t) empty_serializer)).
Proof.
  intros Hne. rewrite serializeWithPrefix_bytes. destruct t as [ty item|ch].
  - by destruct ty.
  - rewrite node_hash_inner, (proj2 (Nat.eqb_neq _ 0)) by by apply Hne.
    cbn [stored_of node_body node_prefix data_ empty_serializer app]. by rewrite iterChildren_hashes.
Qed.

(** An account state leaf of twelve bytes. *)
Definition example_leaf : StoredNode :=
  SLeaf TnAccountState (mkItem 5 [1; 2; 3; 4; 5; 6; 7; 8; 9; 10; 11; 12]%Z).

(** A map with one item, and a digest that tells its nodes apart. *)
Definition example_tree : SHAMapTreeNode Blob :=
  match addGiveItem emptyMap TnAccountState (mkItem 5 [1; 2]%Z) with
  | Ok (r, _) => r | Throw _ => emptyMap end.
Definition length_digest : Digest := fun b => N.of_nat (length b).

Lemma example_tree_wf : wf_map TnAccountState example_tree.
Proof.
  pose proof (addGiveItem_map TnAccountState emptyMap (mkItem 5 [1; 2]%Z)
    (emptyMap_wf TnAccountState ltac:(done)) eq_refl) as (r & E & Hr & _).
  unfold example_tree. by rewrite E.
Qed.

Lemma length_digest_good P :
  NoDup (length <$> P) -> Forall (fun n => n <> 0%nat /\ is_uint256 (N.of_nat n)) (length <$> P) ->
  @digest_good length_digest P.
Proof.
  intros Hnd Hall. rewrite Forall_fmap, Forall_forall in Hall. split.
  - intros b Hb. destruct (Hall _ Hb). unfold sha512Half, length_digest. split; [lia|done].
  - intros b1 b2 [i Hi]%list_elem_of_lookup [j Hj]%list_elem_of_lookup E%Nat2N.inj.
    assert (i = j) as ->; [|congruence].
    apply (NoDup_lookup (length <$> P) i j (length b1) Hnd); rewrite list_lookup_fmap.
    + by rewrite Hi.
    + by rewrite Hj, E.
Qed.

Lemma shamap_hash_commits_witness :
  @node_hash length_digest example_tree = @node_hash length_digest emptyMap <->
  item_map example_tree = item_map emptyMap.
Proof.
  apply (@shamap_hash_commits length_digest TnAccountState example_tree emptyMap);
    [by left|exact example_tree_wf|by apply emptyMap_wf|].
  apply length_digest_good;
    replace (length <$> _) with [516%nat; 38%nat] by (vm_compute; reflexivity);
    [apply (bool_decide_unpack _); by vm_compute|].
  constructor; [by vm_compute|constructor; [by vm_compute|constructor]].
Defined.

(** C31. Serialized nodes survive a round trip: a leaf or inner node parsed
    from its wire form (compressed when fewer than 12 branches are set) or
    from its prefixed form is the node that was serialized; and the hash of
    a node of a tree that is not an empty inner node is the digest of its
    prefixed form. *)
Theorem node_serialization `{Digest} n t :
  stored_ok n -> (forall ch, t = InnerNode ch -> getBranchCount ch <> 0%nat) ->
  makeFromWire (data_ (serializeForWire n empty_serializer)) = Ok (Some n) /\
  makeFromPrefix (data_ (serializeWithPrefix n empty_serializer)) = Ok n /\
  node_hash t = sha512Half (data_ (serializeWithPrefix (stored_of t) empty_serializer)).
Proof.
  intros Hn Ht. split_and!; [by apply wire_roundtrip|by apply prefix_roundtrip|].
  by apply node_hash_prefixed.
Qed.

Lemma node_serialization_witness :
  makeFromWire (data_ (serializeForWire example_leaf empty_serializer)) = Ok (Some example_leaf) /\
  makeFromPrefix (data_ (serializeWithPrefix example_leaf empty_serializer)) = Ok example_leaf /\
  node_hash (LeafNode TnAccountState (mkItem 5 [1; 2]%Z)) =
    sha512Half (data_ (serializeWithPrefix
      (stored_of (LeafNode TnAccountState (mkItem 5 [1; 2]%Z))) empty_serializer)).
Proof.
  apply (node_serialization example_leaf (LeafNode TnAccountState (mkItem 5 [1; 2]%Z)));
    [by vm_compute|done].
Defined.
