(* ===== verification/SHAMapDelta.v ===== *)
(** * Comparing two maps

    [SHAMap::compare] and [walkBranch] (SHAMapDelta.cpp): the items in which
    two trees differ, found without descending into branches with the same
    hash, and up to a maximal number.  The stacks of the source are lists; a
    loop is given as much fuel as there are nodes.  The second part shows what
    the differences are. *)

From S2P Require Import Prelude Serializer SHAMapNodeID SHAMap SHAMapSpec SHAMapMap SHAMapHash.
Local Open Scope N_scope.

Abbreviation node := (SHAMapTreeNode Blob).
Abbreviation item := (SHAMapItem Blob).

(** [SHAMap::Delta]; [std::map::insert] keeps an entry that is there. *)
Abbreviation Delta := (gmap N (option item * option item)).
Definition delta_insert (k : N) (v : option item * option item) (differences : Delta) : Delta :=
  match differences !! k with Some _ => differences | None => <[k := v]> differences end.

(** The two sides in the order first map, second map. *)
Definition DeltaRef (isFirstMap : bool) (mine other : option item) : option item * option item :=
  if isFirstMap then (mine, other) else (other, mine).

Section compare.
Context `{Digest}.

(** The loop of [walkBranch]; returns whether to go on, and [emptyBranch]. *)
Fixpoint walk_loop (fuel : nat) (nodeStack : list node) (otherMapItem : option item) (isFirstMap emptyBranch : bool)
    (differences : Delta) (maxCount : Z) : result (bool * bool * Delta * Z) :=
  match fuel with
  | O => Throw "out of fuel"
  | S fuel =>
      match nodeStack with
      | [] => Ok (true, emptyBranch, differences, maxCount)
      | InnerNode ch :: nodeStack =>
          walk_loop fuel (reverse (omap id ch) ++ nodeStack) otherMapItem isFirstMap emptyBranch differences maxCount
      | LeafNode _ i :: nodeStack =>
          match (if emptyBranch then None else otherMapItem) with
          | Some o =>
              if (item_key i =? item_key o)%N then
                if bool_decide (item_data i = item_data o)
                then walk_loop fuel nodeStack otherMapItem isFirstMap true differences maxCount
                else
                  let differences := delta_insert (item_key i) (DeltaRef isFirstMap (Some i) (Some o)) differences in
                  let maxCount := (maxCount - 1)%Z in
                  if (maxCount <=? 0)%Z then Ok (false, emptyBranch, differences, maxCount)
                  else walk_loop fuel nodeStack otherMapItem isFirstMap true differences maxCount
              else
                let differences := delta_insert (item_key i) (DeltaRef isFirstMap (Some i) None) differences in
                let maxCount := (maxCount - 1)%Z in
                if (maxCount <=? 0)%Z then Ok (false, emptyBranch, differences, maxCount)
                else walk_loop fuel nodeStack otherMapItem isFirstMap emptyBranch differences maxCount
          | None =>
              let differences := delta_insert (item_key i) (DeltaRef isFirstMap (Some i) None) differences in
              let maxCount := (maxCount - 1)%Z in
              if (maxCount <=? 0)%Z then Ok (false, emptyBranch, differences, maxCount)
              else walk_loop fuel nodeStack otherMapItem isFirstMap emptyBranch differences maxCount
          end
      end
  end.

Definition walkBranch (n : node) (otherMapItem : option item) (isFirstMap : bool)
    (differences : Delta) (maxCount : Z) : result (bool * Delta * Z) :=
  let emptyBranch := match otherMapItem with Some _ => false | None => true end in
  '(go, emptyBranch, differences, maxCount) ←
    walk_loop (S (node_count n)) [n] otherMapItem isFirstMap emptyBranch differences maxCount;
  if negb go then Ok (false, differences, maxCount)
  else
    match (if (emptyBranch : bool) then None else otherMapItem) with
    | Some o =>
        let differences := delta_insert (item_key o) (DeltaRef isFirstMap None (Some o)) differences in
        let maxCount := (maxCount - 1)%Z in
        Ok (negb (maxCount <=? 0)%Z, differences, maxCount)
    | None => Ok (true, differences, maxCount)
    end.

(** The branches of two inner nodes. *)
Fixpoint compare_branches (branches : list nat) (ours other : list (option node))
    (nodeStack : list (node * node)) (differences : Delta) (maxCount : Z)
    : result (bool * list (node * node) * Delta * Z) :=
  match branches with
  | [] => Ok (true, nodeStack, differences, maxCount)
  | i :: branches =>
      if (child_hash (getChild ours i) =? child_hash (getChild other i))%N
      then compare_branches branches ours other nodeStack differences maxCount
      else
        match getChild ours i, getChild other i with
        | Some n, None =>
            '(go, differences, maxCount) ← walkBranch n None true differences maxCount;
            if (go : bool) then compare_branches branches ours other nodeStack differences maxCount
            else Ok (false, nodeStack, differences, maxCount)
        | None, Some n =>
            '(go, differences, maxCount) ← walkBranch n None false differences maxCount;
            if (go : bool) then compare_branches branches ours other nodeStack differences maxCount
            else Ok (false, nodeStack, differences, maxCount)
        | Some n, Some m => compare_branches branches ours other ((n, m) :: nodeStack) differences maxCount
        | None, None => Throw "SHAMapMissingNode"
        end
  end.

Fixpoint compare_loop (fuel : nat) (nodeStack : list (node * node)) (differences : Delta) (maxCount : Z)
    : result (bool * Delta) :=
  match fuel with
  | O => Throw "out of fuel"
  | S fuel =>
      match nodeStack with
      | [] => Ok (true, differences)
      | (LeafNode _ ours, LeafNode _ other) :: nodeStack =>
          if (item_key ours =? item_key other)%N then
            if bool_decide (item_data ours = item_data other) then compare_loop fuel nodeStack differences maxCount
            else
              let differences := delta_insert (item_key ours) (Some ours, Some other) differences in
              let maxCount := (maxCount - 1)%Z in
              if (maxCount <=? 0)%Z then Ok (false, differences)
              else compare_loop fuel nodeStack differences maxCount
          else
            let differences := delta_insert (item_key ours) (Some ours, None) differences in
            let maxCount := (maxCount - 1)%Z in
            if (maxCount <=? 0)%Z then Ok (false, differences)
            else
              let differences := delta_insert (item_key other) (None, Some other) differences in
              let maxCount := (maxCount - 1)%Z in
              if (maxCount <=? 0)%Z then Ok (false, differences)
              else compare_loop fuel nodeStack differences maxCount
      | (InnerNode ours, LeafNode _ other) :: nodeStack =>
          '(go, differences, maxCount) ← walkBranch (InnerNode ours) (Some other) true differences maxCount;
          if (go : bool) then compare_loop fuel nodeStack differences maxCount else Ok (false, differences)
      | (LeafNode _ ours, InnerNode other) :: nodeStack =>
          '(go, differences, maxCount) ← walkBranch (InnerNode other) (Some ours) false differences maxCount;
          if (go : bool) then compare_loop fuel nodeStack differences maxCount else Ok (false, differences)
      | (InnerNode ours, InnerNode other) :: nodeStack =>
          '(go, nodeStack, differences, maxCount) ←
            compare_branches (seq 0 16) ours other nodeStack differences maxCount;
          if (go : bool) then compare_loop fuel nodeStack differences maxCount else Ok (false, differences)
      end
  end.

(** Whether the differences are complete, and they. *)
Definition compare (root otherRoot : node) (maxCount : Z) : result (bool * Delta) :=
  if (node_hash root =? node_hash otherRoot)%N then Ok (true, ∅)
  else compare_loop (S (node_count root + node_count otherRoot)) [(root, otherRoot)] ∅ maxCount.
End compare.

(** * The differences of two maps

    [SHAMap::compare] reports, in some order and up to its limit, each key at
    which two well formed trees differ, with the item of either side. *)

(** ** Reports one after the other *)

Abbreviation report := (N * (option item * option item))%type.

Fixpoint run (evs : list report) (D : Delta) (c : Z) : bool * Delta * Z :=
  match evs with
  | [] => (true, D, c)
  | e :: evs =>
      let D := delta_insert e.1 e.2 D in
      let c := (c - 1)%Z in
      if (c <=? 0)%Z then (false, D, c) else run evs D c
  end.

Lemma run_app e1 e2 D c :
  run (e1 ++ e2) D c = let '(go, D1, c1) := run e1 D c in if go then run e2 D1 c1 else (false, D1, c1).
Proof. revert D c. induction e1 as [|e e1 IH]; intros D c; cbn; [done|]. destruct (_ <=? _)%Z; [done|]. apply IH. Qed.

(** Reports of different keys are all recorded, up to the limit. *)
Lemma run_spec evs D c : NoDup evs.*1 -> (forall e, e ∈ evs -> D !! e.1 = None) -> (0 < c)%Z ->
  run evs D c = ((Z.of_nat (length evs) <? c)%Z, list_to_map (take (Z.to_nat c) evs) ∪ D,
                 Z.max 0 (c - Z.of_nat (length evs))).
Proof.
  revert D c. induction evs as [|[k v] evs IH]; intros D c Hnd HD Hc; cbn [run].
  { rewrite take_nil. cbn. rewrite (left_id_L ∅ (∪)). rewrite (proj2 (Z.ltb_lt _ _)) by lia. do 2 f_equal. lia. }
  cbn in Hnd. apply NoDup_cons in Hnd as [Hk Hnd]. cbn [fst snd].
  assert (delta_insert k v D = <[k := v]> D) as -> by (unfold delta_insert; by rewrite (HD (k, v) ltac:(by left) : D !! k = None)).
  destruct (Z.leb_spec (c - 1) 0) as [Hle|Hgt].
  - assert (c = 1)%Z as -> by lia. change (Z.to_nat 1) with 1%nat. cbn [length take].
    rewrite (proj2 (Z.ltb_ge _ _)) by lia. do 2 f_equal; [|lia].
    rewrite take_0, list_to_map_cons, <-insert_union_l. by rewrite list_to_map_nil, (left_id_L ∅ (∪)).
  - rewrite IH; [|done| |lia].
    + assert (Z.to_nat c = S (Z.to_nat (c - 1))) as -> by lia. cbn [length take list_to_map foldr fst snd].
      f_equal; [f_equal|lia].
      * destruct (Z.ltb_spec (Z.of_nat (length evs)) (c - 1)), (Z.ltb_spec (Z.of_nat (S (length evs))) c); lia || done.
      * rewrite <-insert_union_l, insert_union_r; [done|]. apply not_elem_of_list_to_map_1.
        intros Hin. apply Hk. rewrite <-(take_drop (Z.to_nat (c - 1)) evs), fmap_app. apply elem_of_app. by left.
    + intros e He. rewrite lookup_insert_ne; [apply HD; by right|]. intros ->. apply Hk. by apply list_elem_of_fmap_2.
Qed.

(** ** The differences of two lists of items *)

Definition imap (L : list item) : gmap N item := list_to_map ((fun i => (item_key i, i)) <$> L).

Lemma imap_cons i L k : imap (i :: L) !! k = if decide (item_key i = k) then Some i else imap L !! k.
Proof.
  unfold imap. cbn. destruct (decide (item_key i = k)) as [<-|Hne]; [apply lookup_insert_eq|by apply lookup_insert_ne].
Qed.
Lemma imap_none L k : k ∉ item_key <$> L -> imap L !! k = None.
Proof. intros Hk. apply not_elem_of_list_to_map_1. by rewrite <-list_fmap_compose. Qed.
Lemma imap_perm L1 L2 : NoDup (item_key <$> L1) -> L1 ≡ₚ L2 -> imap L1 = imap L2.
Proof. intros Hnd E. apply list_to_map_proper; [by rewrite <-list_fmap_compose|by rewrite E]. Qed.
Lemma imap_some L k i : NoDup (item_key <$> L) -> imap L !! k = Some i <-> i ∈ L /\ item_key i = k.
Proof.
  intros Hnd. unfold imap. rewrite <-elem_of_list_to_map by (by rewrite <-list_fmap_compose).
  rewrite list_elem_of_fmap. naive_solver.
Qed.

(** [evs] are the differences between the items [L1] and [L2]. *)
Record differs (isFirstMap : bool) (m1 m2 : gmap N item) (evs : list report) : Prop := {
  df_nodup : NoDup evs.*1;
  df_in : forall k v, (k, v) ∈ evs <-> v = DeltaRef isFirstMap (m1 !! k) (m2 !! k) /\ m1 !! k <> m2 !! k
}.

Lemma differs_key b m1 m2 evs k : differs b m1 m2 evs -> k ∈ evs.*1 <-> m1 !! k <> m2 !! k.
Proof.
  intros [_ Hin]. rewrite list_elem_of_fmap. split.
  - intros ([k' v] & -> & He). by apply Hin in He as [_ ?].
  - intros Hne. eexists (k, _). split; [done|]. by apply Hin.
Qed.

(** *** One branch against at most one item *)

Fixpoint walk_events (isFirstMap : bool) (o : option item) (L : list item) : list report * option item :=
  match L with
  | [] => ([], o)
  | i :: L =>
      match o with
      | Some x =>
          if (item_key i =? item_key x)%N then
            let '(evs, o') := walk_events isFirstMap None L in
            ((if bool_decide (item_data i = item_data x) then []
              else [(item_key i, DeltaRef isFirstMap (Some i) (Some x))]) ++ evs, o')
          else
            let '(evs, o') := walk_events isFirstMap o L in
            ((item_key i, DeltaRef isFirstMap (Some i) None) :: evs, o')
      | None =>
          let '(evs, o') := walk_events isFirstMap o L in
          ((item_key i, DeltaRef isFirstMap (Some i) None) :: evs, o')
      end
  end.
Definition branch_events (isFirstMap : bool) (o : option item) (L : list item) : list report :=
  let '(evs, o') := walk_events isFirstMap o L in
  evs ++ match o' with Some x => [(item_key x, DeltaRef isFirstMap None (Some x))] | None => [] end.

Lemma item_eq (i x : item) : item_key i = item_key x -> item_data i = item_data x -> i = x.
Proof. destruct i, x. cbn. by intros -> ->. Qed.

Lemma differs_cons b i L m2 evs :
  item_key i ∉ item_key <$> L -> m2 !! item_key i = None -> differs b (imap L) m2 evs ->
  differs b (imap (i :: L)) m2 ((item_key i, DeltaRef b (Some i) None) :: evs).
Proof.
  intros Hi Hm Hd. split.
  - cbn. apply NoDup_cons. split; [|apply Hd]. rewrite (differs_key _ _ _ _ _ Hd), imap_none, Hm by done. tauto.
  - intros k w. rewrite elem_of_cons, (df_in _ _ _ _ Hd), imap_cons. case_decide as E; [subst k|].
    + rewrite Hm, (imap_none L) by done. split; [|naive_solver]. intros [[= ->]|[_ ?]]; done.
    + split; [|by right]. intros [[= ? ?]|?]; [congruence|done].
Qed.

Lemma imap_nil k : imap [] !! k = None.
Proof. done. Qed.

Lemma branch_differs b o L : NoDup (item_key <$> L) -> differs b (imap L) (imap (option_list o)) (branch_events b o L).
Proof.
  revert o. induction L as [|i L IH]; intros o Hnd.
  - destruct o as [x|]; unfold branch_events; cbn [walk_events app].
    + change (option_list (Some x)) with [x]. split; [apply NoDup_singleton|]. intros k v. rewrite list_elem_of_singleton, imap_cons, !imap_nil.
      case_decide as E; [subst k|]; split; [by intros [= ->]|by intros [-> _]| |by intros [_ ?]]. intros [= -> ->]. done.
    + change (option_list (None : option item)) with (@nil item). split; [apply NoDup_nil_2|]. intros k v. rewrite imap_nil. split; [by intros ?%elem_of_nil|by intros [_ ?]].
  - cbn in Hnd. apply NoDup_cons in Hnd as [Hi Hnd]. specialize (IH) as IH'.
    assert (branch_events b o (i :: L) = match o with
      | Some x => if (item_key i =? item_key x)%N
          then (if bool_decide (item_data i = item_data x) then [] else [(item_key i, DeltaRef b (Some i) (Some x))]) ++
               branch_events b None L
          else (item_key i, DeltaRef b (Some i) None) :: branch_events b o L
      | None => (item_key i, DeltaRef b (Some i) None) :: branch_events b o L end) as ->.
    { unfold branch_events. cbn [walk_events]. destruct o as [x|]; [destruct (_ =? _)|]; destruct (walk_events _ _ _);
        [by rewrite app_assoc|done..]. }
    destruct o as [x|]; [|apply differs_cons; [done|done|by apply IH]].
    destruct (N.eqb_spec (item_key i) (item_key x)) as [Ek|Ek].
    + specialize (IH None Hnd). change (option_list (Some x)) with [x]. change (option_list (None : option item)) with (@nil item) in IH.
      assert (forall k, item_key i <> k -> imap (i :: L) !! k = imap L !! k /\ imap [x] !! k = None) as Ho.
      { intros k Hk. rewrite !imap_cons, !decide_False by congruence. done. }
      assert (imap (i :: L) !! item_key i = Some i /\ imap [x] !! item_key i = Some x) as [E1 E2].
      { rewrite !imap_cons, !decide_True by congruence. done. }
      assert (item_key i ∉ (branch_events b None L).*1) as Hni.
      { rewrite (differs_key _ _ _ _ _ IH), imap_none by done. rewrite imap_nil. tauto. }
      case_bool_decide as Ed; cbn [app].
      * split; [apply IH|]. intros k v. rewrite (df_in _ _ _ _ IH), imap_nil. destruct (decide (item_key i = k)) as [<-|Hk].
        -- rewrite E1, E2, imap_none by done. assert (i = x) as -> by (by apply item_eq). naive_solver.
        -- destruct (Ho k Hk) as [-> ->]. done.
      * split; [cbn; apply NoDup_cons; split; [done|apply IH]|]. intros k v. rewrite elem_of_cons, (df_in _ _ _ _ IH), imap_nil.
        destruct (decide (item_key i = k)) as [<-|Hk].
        -- rewrite E1, E2, imap_none by done. split; [|naive_solver]. intros [[= ->]|[_ ?]]; [|done]. split; [done|congruence].
        -- destruct (Ho k Hk) as [-> ->]. split; [intros [[= ? ?]|?]; [congruence|done]|by right].
    + apply differs_cons; [done| |by apply IH].
      change (option_list (Some x)) with [x]. rewrite imap_cons, decide_False by congruence. done.
Qed.

(** *** The loop of [walkBranch] *)

Lemma items_reverse (ch : list (option node)) :
  flat_map (fun n => reverse (items n)) (reverse (omap id ch)) = reverse (items (InnerNode ch)).
Proof.
  rewrite items_inner. unfold items_of. induction ch as [|[n|] ch IH]; [done| |exact IH].
  change (omap id (Some n :: ch)) with (n :: omap id ch). rewrite reverse_cons, flat_map_app, IH. cbn [flat_map items_opt].
  by rewrite reverse_app, app_nil_r.
Qed.

Definition stack_count (st : list node) : nat := list_sum (map node_count st).
Lemma stack_count_cons n st : stack_count (n :: st) = (node_count n + stack_count st)%nat.
Proof. done. Qed.
Lemma stack_count_app st1 st2 : stack_count (st1 ++ st2) = (stack_count st1 + stack_count st2)%nat.
Proof. unfold stack_count. by rewrite map_app, list_sum_app. Qed.
Lemma stack_count_children (ch : list (option node)) : S (stack_count (reverse (omap id ch))) = node_count (InnerNode ch).
Proof.
  change (node_count (InnerNode ch)) with (S (list_sum (map (fun c => match c with Some c => node_count c | None => 0%nat end) ch))).
  f_equal. induction ch as [|[n|] ch IH]; [done| |exact IH].
  change (omap id (Some n :: ch)) with (n :: omap id ch). rewrite reverse_cons, stack_count_app, IH.
  unfold stack_count, list_sum. cbn [map fold_right foldr]. lia.
Qed.

Definition effective (emptyBranch : bool) (o : option item) : option item := if emptyBranch then None else o.

Lemma walk_loop_spec fuel st other b eb D c : (stack_count st < fuel)%nat ->
  let '(evs, o') := walk_events b (effective eb other) (flat_map (fun n => reverse (items n)) st) in
  let '(go, D', c') := run evs D c in
  exists eb', walk_loop fuel st other b eb D c = Ok (go, eb', D', c') /\ (go = true -> effective eb' other = o').
Proof.
  revert st eb D c. induction fuel as [|fuel IH]; intros st eb D c Hlt; [lia|].
  destruct st as [|[ty i|ch] st]; cbn [walk_loop flat_map].
  - cbn. eauto.
  - assert (stack_count st < fuel)%nat as Hst by (rewrite stack_count_cons in Hlt; cbn in Hlt; lia).
    change (reverse (items (LeafNode ty i))) with [i]. cbn [app walk_events].
    destruct (effective eb other) as [o|] eqn:Eo; unfold effective in Eo; rewrite Eo.
    + destruct (item_key i =? item_key o)%N.
      * specialize (IH st true). cbn [effective] in IH. destruct (walk_events _ None _) as [evs o'] eqn:Ew.
        case_bool_decide; cbn [app run fst snd]; [by apply (IH D c)|].
        destruct (_ <=? _)%Z; [by eexists|]. by apply IH.
      * specialize (IH st eb). unfold effective in IH. rewrite Eo in IH. destruct (walk_events _ (Some o) _) as [evs o'] eqn:Ew.
        cbn [run fst snd]. destruct (_ <=? _)%Z; [by eexists|]. by apply IH.
    + specialize (IH st eb). unfold effective in IH. rewrite Eo in IH. destruct (walk_events _ None _) as [evs o'] eqn:Ew.
      cbn [run fst snd]. destruct (_ <=? _)%Z; [by eexists|]. by apply IH.
  - specialize (IH (reverse (omap id ch) ++ st) eb D c). rewrite flat_map_app, items_reverse in IH. apply IH.
    rewrite stack_count_app. pose proof (stack_count_children ch). rewrite stack_count_cons in Hlt. lia.
Qed.

Lemma walkBranch_spec n other b D c : walkBranch n other b D c = Ok (run (branch_events b other (reverse (items n))) D c).
Proof.
  unfold walkBranch, branch_events. set (eb := match other with Some _ => false | None => true end).
  pose proof (walk_loop_spec (S (node_count n)) [n] other b eb D c) as Hs.
  assert (effective eb other = other) as Ee by (unfold eb; by destruct other).
  cbn [flat_map] in Hs. rewrite app_nil_r, Ee in Hs. destruct (walk_events _ _ _) as [evs o'].
  rewrite run_app. destruct (run evs D c) as [[go D'] c'].
  destruct Hs as (eb' & -> & Ho); [rewrite stack_count_cons; unfold stack_count; cbn; lia|]. cbn [mbind result_bind].
  destruct go; cbn [negb]; [|done]. specialize (Ho eq_refl). unfold effective in Ho. rewrite Ho.
  destruct o' as [x|]; [|done]. cbn. by destruct (_ <=? _)%Z.
Qed.

(** ** Lookups in a tree *)

Definition look (n : node) (k : N) : option item := imap (items n) !! k.
Definition olook (o : option node) (k : N) : option item := match o with Some n => look n k | None => None end.

Section lookups.
Context {ty : SHAMapNodeType}.

Lemma wf_nodup d p (n : node) : wf ty d p n -> NoDup (item_key <$> items n).
Proof.
  intros Hs%wf_sorted. induction Hs as [|x l Hs IH Hall]; cbn; [apply NoDup_nil_2|]. apply NoDup_cons. split; [|done].
  rewrite Forall_forall in Hall. intros (y & Hk & Hy)%list_elem_of_fmap. specialize (Hall y Hy). unfold item_lt in Hall. lia.
Qed.
Lemma look_some d p n k i : wf ty d p n -> look n k = Some i <-> i ∈ items n /\ item_key i = k.
Proof. intros Hwf. apply imap_some. by eapply wf_nodup. Qed.
Lemma look_pre d p n k i : wf ty d p n -> look n k = Some i -> pre k d = p.
Proof. intros Hwf Hi. apply (look_some _ _ _ _ _ Hwf) in Hi as [Hi <-]. by eapply wf_keys. Qed.

Lemma child_wf d p (ch : list (option node)) j c : wf ty d p (InnerNode ch) -> getChild ch j = Some c ->
  wf ty (d + 1) (16 * p + N.of_nat j) c.
Proof. intros Hwf. inversion Hwf; subst. auto. Qed.
Lemma olook_nib d p ch j k i : wf ty d p (InnerNode ch) -> olook (getChild ch j) k = Some i -> nib k d = N.of_nat j.
Proof.
  intros Hwf. destruct (getChild ch j) as [c|] eqn:Ec; [|done]. intros Hi.
  apply (look_some _ _ _ _ _ (child_wf _ _ _ _ _ Hwf Ec)) in Hi as [Hi <-]. by eapply wf_nib.
Qed.
Lemma look_child d p ch k : wf ty d p (InnerNode ch) ->
  look (InnerNode ch) k = olook (getChild ch (N.to_nat (nib k d))) k.
Proof.
  intros Hwf. apply option_eq. intros i. rewrite (look_some _ _ _ _ _ Hwf). split.
  - intros [Hi <-]. destruct (elem_of_branch _ _ _ _ _ Hwf Hi) as (c & Ec & Hic). rewrite Ec. cbn.
    by apply (look_some _ _ _ _ _ (child_wf _ _ _ _ _ Hwf Ec)).
  - destruct (getChild ch _) as [c|] eqn:Ec; [|done]. cbn. intros Hi.
    apply (look_some _ _ _ _ _ (child_wf _ _ _ _ _ Hwf Ec)) in Hi as [Hi Hk]. split; [|done]. by eapply elem_of_child.
Qed.

(** Two nodes at the same place differ below one branch. *)
Lemma differ_child d p ch1 ch2 k : wf ty d p (InnerNode ch1) -> wf ty d p (InnerNode ch2) ->
  look (InnerNode ch1) k <> look (InnerNode ch2) k <->
  exists j, (j < 16)%nat /\ olook (getChild ch1 j) k <> olook (getChild ch2 j) k.
Proof.
  intros H1 H2. rewrite (look_child _ _ _ _ H1), (look_child _ _ _ _ H2). split.
  - intros Hne. eexists. split; [|exact Hne]. pose proof (nib_lt k d). lia.
  - intros (j & Hj & Hne). assert (nib k d = N.of_nat j) as ->; [|by rewrite Nat2N.id].
    destruct (olook (getChild ch1 j) k) as [i|] eqn:E1; [by eapply (olook_nib _ _ ch1)|].
    destruct (olook (getChild ch2 j) k) as [i|] eqn:E2; [by eapply (olook_nib _ _ ch2)|done].
Qed.
End lookups.

(** A list of reports of different keys, exactly those with [P]. *)
Definition lists (P : N -> option item * option item -> Prop) (evs : list report) : Prop :=
  NoDup evs.*1 /\ forall k v, (k, v) ∈ evs <-> P k v.

Lemma lists_app P Q e1 e2 : lists P e1 -> lists Q e2 -> (forall k v w, P k v -> Q k w -> False) ->
  lists (fun k v => P k v \/ Q k v) (e1 ++ e2).
Proof.
  intros [N1 I1] [N2 I2] Hd. split.
  - rewrite fmap_app. apply NoDup_app. split_and!; [done| |done].
    intros k ([k1 v] & -> & H1)%list_elem_of_fmap ([k2 w] & E & H2)%list_elem_of_fmap. cbn in *. subst k2.
    apply (Hd k1 v w); [by apply I1|by apply I2].
  - intros k v. by rewrite elem_of_app, I1, I2.
Qed.
Lemma lists_ext P Q evs : (forall k v, P k v <-> Q k v) -> lists P evs -> lists Q evs.
Proof. intros Hpq [Hn Hi]. split; [done|]. intros k v. by rewrite Hi. Qed.
Lemma lists_nil : lists (fun _ _ => False) [].
Proof. split; [apply NoDup_nil_2|]. intros k v. by rewrite elem_of_nil. Qed.

(** Two nodes differ at a key. *)
Definition odiffer (o1 o2 : option node) (k : N) (v : option item * option item) : Prop :=
  v = (olook o1 k, olook o2 k) /\ olook o1 k <> olook o2 k.

Lemma branch_lists {ty} d p (n : node) (o : option node) (b : bool) (other : option item) :
  wf ty d p n -> items_opt o = option_list other ->
  lists (fun k v => if b then odiffer (Some n) o k v else odiffer o (Some n) k v)
    (branch_events b other (reverse (items n))).
Proof.
  intros Hwf Ho. pose proof (wf_nodup _ _ _ Hwf) as Hnd.
  assert (NoDup (item_key <$> reverse (items n))) as Hnd' by (by rewrite reverse_Permutation).
  destruct (branch_differs b other (reverse (items n)) Hnd') as [H1 H2]. split; [done|]. intros k v. rewrite H2.
  rewrite (imap_perm _ _ Hnd' (reverse_Permutation _)). fold (look n k).
  assert (imap (option_list other) !! k = olook o k) as -> by (rewrite <-Ho; by destruct o).
  unfold odiffer, DeltaRef. cbn [olook]. destruct b; [done|]. split; intros [-> Hne]; (split; [done|congruence]).
Qed.

(** ** The loops of [compare] *)

Section loops.
Context `{Digest} {ty : SHAMapNodeType} (G : node -> Prop).
Context (G_child : forall ch i c, G (InnerNode ch) -> getChild ch i = Some c -> G c).
Context (G_hash : forall d p n1 n2, G n1 -> G n2 -> wf ty d p n1 -> wf ty d p n2 -> node_hash n1 = node_hash n2 -> n1 = n2).
Context (G_nonzero : forall d p n, d <> 0 -> G n -> wf ty d p n -> node_hash n <> 0).

Definition good (d p : N) (n : node) : Prop := wf ty d p n /\ G n.

Lemma good_child d p ch j c : good d p (InnerNode ch) -> getChild ch j = Some c -> good (d + 1) (16 * p + N.of_nat j) c.
Proof. intros [Hw Hg] Hc. split; [by eapply child_wf|by eapply G_child]. Qed.

(** Branches with the same hash are the same. *)
Lemma same_branch d p ch1 ch2 j : good d p (InnerNode ch1) -> good d p (InnerNode ch2) ->
  child_hash (getChild ch1 j) = child_hash (getChild ch2 j) -> getChild ch1 j = getChild ch2 j.
Proof.
  intros H1 H2. destruct (getChild ch1 j) as [c1|] eqn:E1, (getChild ch2 j) as [c2|] eqn:E2; cbn [child_hash]; intros E; [| | |done].
  - destruct (good_child _ _ _ _ _ H1 E1) as [W1 X1], (good_child _ _ _ _ _ H2 E2) as [W2 X2]. f_equal. by eapply G_hash.
  - destruct (good_child _ _ _ _ _ H1 E1) as [W1 X1]. exfalso. eapply (G_nonzero (d + 1)); [lia|exact X1|exact W1|done].
  - destruct (good_child _ _ _ _ _ H2 E2) as [W2 X2]. exfalso. eapply (G_nonzero (d + 1)); [lia|exact X2|exact W2|by symmetry].
Qed.

Definition ocount (o : option node) : nat := match o with Some n => node_count n | None => 0 end.
Definition pairs_count (st : list (node * node)) : nat := list_sum (map (fun ab => node_count ab.1 + node_count ab.2)%nat st).
Lemma pairs_count_cons a b st : pairs_count ((a, b) :: st) = (node_count a + node_count b + pairs_count st)%nat.
Proof. done. Qed.
Lemma pairs_count_app st1 st2 : pairs_count (st1 ++ st2) = (pairs_count st1 + pairs_count st2)%nat.
Proof. unfold pairs_count. by rewrite map_app, list_sum_app. Qed.

(** What the branches [js] report, and the pairs [ps] they leave for later. *)
Record branched ch1 ch2 (js : list nat) (evs : list report) (ps : list (nat * (node * node))) : Prop := {
  br_run : forall st D c, let '(go, D', c') := run evs D c in
    exists st', compare_branches js ch1 ch2 st D c = Ok (go, st', D', c') /\ (go = true -> st' = ps.*2 ++ st);
  br_pairs : forall j a b, (j, (a, b)) ∈ ps -> j ∈ js /\ getChild ch1 j = Some a /\ getChild ch2 j = Some b;
  br_nodup : NoDup ps.*1;
  br_count : (pairs_count ps.*2 <= list_sum (map (fun j => ocount (getChild ch1 j) + ocount (getChild ch2 j)) js))%nat;
  br_lists : lists (fun k v => exists j, j ∈ js /\ j ∉ ps.*1 /\ odiffer (getChild ch1 j) (getChild ch2 j) k v) evs
}.

Lemma odiffer_nib d p ch1 ch2 j k v : wf ty d p (InnerNode ch1) -> wf ty d p (InnerNode ch2) ->
  odiffer (getChild ch1 j) (getChild ch2 j) k v -> nib k d = N.of_nat j.
Proof.
  intros H1 H2 [_ Hne]. destruct (olook (getChild ch1 j) k) as [i|] eqn:E1; [by eapply (olook_nib _ _ ch1)|].
  destruct (olook (getChild ch2 j) k) as [i|] eqn:E2; [by eapply (olook_nib _ _ ch2)|done].
Qed.

Lemma compare_branches_spec d p ch1 ch2 js : good d p (InnerNode ch1) -> good d p (InnerNode ch2) -> NoDup js ->
  exists evs ps, branched ch1 ch2 js evs ps.
Proof using G_child G_hash G_nonzero.
  intros H1 H2. induction js as [|j js IH]; intros Hnd.
  { exists [], []. split; [by cbn; eauto|by intros ? ? ? ?%elem_of_nil|apply NoDup_nil_2|done|].
    eapply lists_ext; [|apply lists_nil]. intros k v. split; [done|]. by intros (j & ?%elem_of_nil & _). }
  apply NoDup_cons in Hnd as [Hj Hnd]. destruct (IH Hnd) as (evs & ps & [Hr Hp Hpn Hc Hl]).
  assert (forall i a b, (i, (a, b)) ∈ ps -> i ∈ j :: js /\ getChild ch1 i = Some a /\ getChild ch2 i = Some b) as Hp'.
  { intros i a b Hi. destruct (Hp _ _ _ Hi) as (? & ? & ?). split_and!; [by right|done..]. }
  assert (j ∉ ps.*1) as Hjp. { intros ([j' [a b]] & -> & Hin)%list_elem_of_fmap. by apply Hp in Hin as [? _]. }
  assert (forall Q e0, lists Q e0 -> (forall k v, Q k v <-> odiffer (getChild ch1 j) (getChild ch2 j) k v) ->
    lists (fun k v => exists i, i ∈ j :: js /\ i ∉ ps.*1 /\ odiffer (getChild ch1 i) (getChild ch2 i) k v) (e0 ++ evs)) as Happ.
  { intros Q e0 He HQ. eapply lists_ext; [|refine (lists_app _ _ _ _ He Hl _)].
    - intros k v. cbn beta. rewrite HQ. split.
      + intros [?|(i & Hi & Hi' & Hd)]; [exists j; split_and!; [by left|done..]|exists i; split_and!; [by right|done..]].
      + intros (i & [->|Hi]%elem_of_cons & Hi' & Hd); [by left|right; eauto].
    - intros k v w Hq%HQ (i & Hi & _ & Hd). apply (odiffer_nib _ _ _ _ _ _ _ (proj1 H1) (proj1 H2)) in Hq, Hd.
      assert (i = j) as -> by lia. done. }
  destruct (N.eqb_spec (child_hash (getChild ch1 j)) (child_hash (getChild ch2 j))) as [E|E].
  { apply (same_branch _ _ _ _ _ H1 H2) in E as Ec. exists evs, ps. split; [|exact Hp'|done|cbn [map]; rewrite list_sum_cons; lia|].
    - intros st D c. cbn [compare_branches]. rewrite (proj2 (N.eqb_eq _ _) E). apply Hr.
    - apply (Happ (fun _ _ => False) [] lists_nil). intros k v. unfold odiffer. rewrite Ec. tauto. }
  destruct (getChild ch1 j) as [n|] eqn:E1, (getChild ch2 j) as [m|] eqn:E2; [| | |done].
  - assert ((ps ++ [(j, (n, m))]).*1 = ps.*1 ++ [j]) as Eps by (by rewrite fmap_app).
    exists evs, (ps ++ [(j, (n, m))]). split; rewrite ?Eps.
    + intros st D c. cbn [compare_branches]. rewrite E1, E2, (proj2 (N.eqb_neq _ _) E). specialize (Hr ((n, m) :: st) D c).
      destruct (run evs D c) as [[go D'] c']. destruct Hr as (st' & -> & Hst). exists st'. split; [done|].
      intros Hgo. by rewrite (Hst Hgo), fmap_app, <-app_assoc.
    + intros i a b [Hi|[= -> -> ->]%list_elem_of_singleton]%elem_of_app; [by apply Hp'|by split; [left|]].
    + apply NoDup_app. split_and!; [done| |apply NoDup_singleton]. intros i Hi ->%list_elem_of_singleton. done.
    + rewrite fmap_app, pairs_count_app. change ([(j, (n, m))].*2) with [(n, m)]. rewrite pairs_count_cons.
      cbn [map]. rewrite list_sum_cons, E1, E2. unfold ocount at 1 2. change (pairs_count []) with 0%nat. lia.
    + eapply lists_ext; [|exact Hl]. intros k v. setoid_rewrite not_elem_of_app. setoid_rewrite not_elem_of_cons.
      split.
      * intros (i & Hi & Hi' & Hd). exists i. split_and!; [by right|done|by intros ->|by apply not_elem_of_nil|done].
      * intros (i & [->|Hi]%elem_of_cons & [Hi' [Hij _]] & Hd); [done|by exists i].
  - destruct (good_child _ _ _ _ _ H1 E1) as [Hw _]. exists (branch_events true None (reverse (items n)) ++ evs), ps.
    split; [|exact Hp'|done|cbn [map]; rewrite list_sum_cons; lia|].
    + intros st D c. cbn [compare_branches]. rewrite E1, E2, (proj2 (N.eqb_neq _ _) E), walkBranch_spec, run_app.
      cbn [mbind result_bind]. destruct (run (branch_events _ _ _) D c) as [[go D'] c']. destruct go; [|by eexists]. apply Hr.
    + apply (Happ _ _ (branch_lists _ _ n None true None Hw eq_refl)). done.
  - destruct (good_child _ _ _ _ _ H2 E2) as [Hw _]. exists (branch_events false None (reverse (items m)) ++ evs), ps.
    split; [|exact Hp'|done|cbn [map]; rewrite list_sum_cons; lia|].
    + intros st D c. cbn [compare_branches]. rewrite E1, E2, (proj2 (N.eqb_neq _ _) E), walkBranch_spec, run_app.
      cbn [mbind result_bind]. destruct (run (branch_events _ _ _) D c) as [[go D'] c']. destruct go; [|by eexists]. apply Hr.
    + apply (Happ _ _ (branch_lists _ _ m None false None Hw eq_refl)). done.
Qed.

(** Every child is counted once. *)
Lemma children_count ch : length ch = 16%nat ->
  S (list_sum (map (fun j => ocount (getChild ch j)) (seq 0 16))) = node_count (InnerNode ch).
Proof.
  intros Hl. cbn [node_count]. do 2 f_equal. rewrite <-Hl. clear Hl. apply list_eq. intros i.
  etransitivity; [apply list_lookup_fmap|]. etransitivity; [|symmetry; apply list_lookup_fmap]. destruct (decide (i < length ch)%nat) as [Hi|Hi].
  - rewrite lookup_seq_lt by done. destruct (lookup_lt_is_Some_2 ch i Hi) as [o Ho]. cbn. unfold getChild. by rewrite Ho.
  - rewrite lookup_seq_ge by lia. by rewrite lookup_ge_None_2 by lia.
Qed.

(** The pairs that wait are at the same place, no two of them at one. *)
Inductive stacked : list (node * node) -> Prop :=
| stacked_nil : stacked []
| stacked_cons d p a b st : good d p a -> good d p b ->
    (forall k v a' b', pre k d = p -> (a', b') ∈ st -> ~ odiffer (Some a') (Some b') k v) ->
    stacked st -> stacked ((a, b) :: st).

Lemma odiffer_pre d p a b k v : good d p a -> good d p b -> odiffer (Some a) (Some b) k v -> pre k d = p.
Proof.
  intros [Ha _] [Hb _] [_ Hne]. cbn in Hne. destruct (look a k) as [i|] eqn:E1; [by eapply (look_pre _ _ a)|].
  destruct (look b k) as [i|] eqn:E2; [by eapply (look_pre _ _ b)|done].
Qed.

Lemma stacked_push d p ch1 ch2 ps st : good d p (InnerNode ch1) -> good d p (InnerNode ch2) ->
  NoDup ps.*1 -> (forall j a b, (j, (a, b)) ∈ ps -> getChild ch1 j = Some a /\ getChild ch2 j = Some b) ->
  (forall k v a' b', pre k d = p -> (a', b') ∈ st -> ~ odiffer (Some a') (Some b') k v) ->
  stacked st -> stacked (ps.*2 ++ st).
Proof.
  intros H1 H2. induction ps as [|[j [a b]] ps IH]; intros Hnd Hps Hst Hs; [done|].
  cbn in Hnd. apply NoDup_cons in Hnd as [Hj Hnd].
  assert (d < 64) as Hd by (destruct H1 as [Hw _]; by inversion Hw).
  destruct (Hps j a b) as [Ha Hb]; [by left|].
  assert (forall k j', pre k (d + 1) = 16 * p + N.of_nat j' -> pre k d = p /\ nib k d = N.of_nat j' \/ (16 <= j')%nat) as Hpre.
  { intros k j' E. rewrite pre_succ in E by done. pose proof (nib_lt k d). lia. }
  assert (forall i c, getChild ch1 i = Some c -> (i < 16)%nat) as Hlt.
  { intros i c Hi. destruct H1 as [Hw _]. inversion Hw as [|? ? ? ? Hl]; subst. unfold getChild in Hi.
    destruct (ch1 !! i) eqn:E; [|done]. apply lookup_lt_Some in E. rewrite Hl in E. exact E. }
  pose proof (Hlt _ _ Ha). change (stacked ((a, b) :: ps.*2 ++ st)).
  apply (stacked_cons (d + 1) (16 * p + N.of_nat j)); [exact (good_child _ _ _ _ _ H1 Ha)|exact (good_child _ _ _ _ _ H2 Hb)| |].
  - intros k v a' b' Hk [Hin|Hin]%elem_of_app Hod; destruct (Hpre _ _ Hk) as [[Hkp Hkn]|]; try lia; [|by eapply Hst].
    apply list_elem_of_fmap in Hin as ([j' [a0 b0]] & E & Hin). cbn in E. injection E as <- <-. destruct (Hps j' a' b') as [Ha' Hb']; [by right|].
    apply (odiffer_pre _ _ _ _ _ _ (good_child _ _ _ _ _ H1 Ha') (good_child _ _ _ _ _ H2 Hb')) in Hod.
    destruct (Hpre _ _ Hod) as [[_ Hn]|]; [|pose proof (Hlt _ _ Ha'); lia].
    assert (j = j') as -> by lia. apply Hj. by apply (list_elem_of_fmap_2 fst) in Hin.
  - apply IH; [done| |done..]. intros j' a' b' Hin. apply Hps. by right.
Qed.

Definition pending (st : list (node * node)) (k : N) (v : option item * option item) : Prop :=
  exists a b, (a, b) ∈ st /\ odiffer (Some a) (Some b) k v.

Lemma pending_cons a b st k v : pending ((a, b) :: st) k v <-> odiffer (Some a) (Some b) k v \/ pending st k v.
Proof.
  unfold pending. split.
  - intros (a' & b' & [[= -> ->]|Hin]%elem_of_cons & Hd); [by left|right; eauto].
  - intros [Hd|(a' & b' & Hin & Hd)]; [exists a, b; split; [by left|done]|exists a', b'; split; [by right|done]].
Qed.

Lemma pending_app st1 st2 k v : pending (st1 ++ st2) k v <-> pending st1 k v \/ pending st2 k v.
Proof. unfold pending. setoid_rewrite elem_of_app. naive_solver. Qed.

(** Two leaves. *)
Definition leaf_events (ours other : item) : list report := branch_events true (Some other) [ours].

Lemma leaf_loop fuel ty1 ty2 ours other st D c :
  compare_loop (S fuel) ((LeafNode ty1 ours, LeafNode ty2 other) :: st) D c =
  let '(go, D', c') := run (leaf_events ours other) D c in
  if go then compare_loop fuel st D' c' else Ok (false, D').
Proof.
  unfold leaf_events, branch_events. cbn [compare_loop walk_events]. destruct (item_key ours =? item_key other)%N; [case_bool_decide; cbn; [done|]|].
  - by destruct (_ <=? _)%Z.
  - cbn. destruct (_ <=? _)%Z; [done|]. by destruct (_ <=? _)%Z.
Qed.

(** The reports of one pair, and the pairs left of it. *)
Record entry_done a b (evs : list report) (st' : list (node * node)) : Prop := {
  ed_run : forall fuel st D c, compare_loop (S fuel) ((a, b) :: st) D c =
    let '(go, D', c') := run evs D c in if go then compare_loop fuel (st' ++ st) D' c' else Ok (false, D');
  ed_count : (pairs_count st' < node_count a + node_count b)%nat;
  ed_stacked : forall st, stacked ((a, b) :: st) -> stacked (st' ++ st);
  ed_lists : exists P, lists P evs /\ (forall k v, P k v -> ~ pending st' k v) /\
    forall k v, odiffer (Some a) (Some b) k v <-> P k v \/ pending st' k v
}.

Lemma stacked_tail ab st : stacked (ab :: st) -> stacked st.
Proof. by inversion 1. Qed.
Lemma pending_nil k v : ~ pending [] k v.
Proof. by intros (? & ? & ?%elem_of_nil & _). Qed.

Lemma node_count_pos (n : node) : (0 < node_count n)%nat.
Proof. destruct n; cbn; lia. Qed.

(** A pair one side of which is a leaf leaves nothing. *)
Lemma entry_closed a b evs :
  (forall fuel st D c, compare_loop (S fuel) ((a, b) :: st) D c =
    let '(go, D', c') := run evs D c in if go then compare_loop fuel st D' c' else Ok (false, D')) ->
  lists (odiffer (Some a) (Some b)) evs -> entry_done a b evs [].
Proof.
  intros Hr Hl. pose proof (node_count_pos a). split; [exact Hr|change (pairs_count []) with 0%nat; lia|intros st; apply stacked_tail|].
  eexists. split_and!; [exact Hl|by intros k v _ ?%pending_nil|]. intros k v. pose proof (pending_nil k v). tauto.
Qed.

Lemma odiffer_child d p ch1 ch2 k v : wf ty d p (InnerNode ch1) -> wf ty d p (InnerNode ch2) ->
  odiffer (Some (InnerNode ch1)) (Some (InnerNode ch2)) k v <->
  exists j, j ∈ seq 0 16 /\ odiffer (getChild ch1 j) (getChild ch2 j) k v.
Proof.
  intros H1 H2. unfold odiffer at 1. cbn [olook]. rewrite (look_child _ _ _ _ H1), (look_child _ _ _ _ H2). split.
  - intros Hd. eexists. split; [|exact Hd]. apply elem_of_seq. pose proof (nib_lt k d). lia.
  - intros (j & _ & Hd). by rewrite (odiffer_nib _ _ _ _ _ _ _ H1 H2 Hd), Nat2N.id.
Qed.

Lemma pending_pairs ch1 ch2 ps k v :
  (forall j a b, (j, (a, b)) ∈ ps -> j ∈ seq 0 16 /\ getChild ch1 j = Some a /\ getChild ch2 j = Some b) ->
  pending ps.*2 k v <-> exists j, j ∈ ps.*1 /\ odiffer (getChild ch1 j) (getChild ch2 j) k v.
Proof.
  intros Hps. unfold pending. setoid_rewrite list_elem_of_fmap. split.
  - intros (a & b & ([j [a' b']] & E & Hin) & Hd). cbn in E. injection E as -> ->. destruct (Hps _ _ _ Hin) as (_ & E1 & E2).
    exists j. rewrite E1, E2. split; [by exists (j, (a', b'))|done].
  - intros (j & ([j' [a b]] & -> & Hin) & Hd). cbn in Hd. destruct (Hps _ _ _ Hin) as (_ & E1 & E2). rewrite E1, E2 in Hd.
    exists a, b. split; [by exists (j', (a, b))|done].
Qed.

Lemma sum_map_add {A} (f g : A -> nat) l : list_sum (map (fun j => f j + g j)%nat l) = (list_sum (map f l) + list_sum (map g l))%nat.
Proof. induction l as [|x l IH]; [done|]. cbn [map]. rewrite !list_sum_cons, IH. lia. Qed.

Lemma entry_inner d p ch1 ch2 : good d p (InnerNode ch1) -> good d p (InnerNode ch2) ->
  exists evs st', entry_done (InnerNode ch1) (InnerNode ch2) evs st'.
Proof using G_child G_hash G_nonzero.
  intros H1 H2. destruct (compare_branches_spec d p ch1 ch2 (seq 0 16) H1 H2) as (evs & ps & [Hr Hp Hn Hc Hl]);
    [apply NoDup_seq|]. exists evs, ps.*2.
  pose proof (odiffer_child d p ch1 ch2) as Hoc. specialize (fun k v => Hoc k v (proj1 H1) (proj1 H2)).
  pose proof (fun k v => pending_pairs ch1 ch2 ps k v Hp) as Hpp. split.
  - intros fuel st D c. cbn [compare_loop]. specialize (Hr st D c). destruct (run evs D c) as [[go D'] c'].
    destruct Hr as (st' & -> & Hst). cbn [mbind result_bind]. destruct go; [|done]. by rewrite (Hst eq_refl).
  - rewrite sum_map_add in Hc.
    assert (length ch1 = 16%nat /\ length ch2 = 16%nat) as [L1 L2].
    { destruct H1 as [W1 _], H2 as [W2 _]. inversion W1; inversion W2; done. }
    rewrite <-(children_count ch1 L1), <-(children_count ch2 L2). lia.
  - intros st Hs. inversion Hs as [|d' p' ? ? ? Ha Hb Hd ?]; subst.
    apply (stacked_push d' p' ch1 ch2); [done..| |done|done]. intros j a b Hin. by apply Hp in Hin as [_ ?].
  - eexists. split_and!; [exact Hl| |].
    + intros k v (j & Hj & Hjp & Hd) (i & Hi & Hdi)%Hpp.
      apply (odiffer_nib _ _ _ _ _ _ _ (proj1 H1) (proj1 H2)) in Hd, Hdi. assert (i = j) as -> by lia. done.
    + intros k v. rewrite Hoc, Hpp. split.
      * intros (j & Hj & Hd). destruct (decide (j ∈ ps.*1)); [right|left]; eauto.
      * intros [(j & Hj & _ & Hd)|(j & Hj & Hd)]; [eauto|]. exists j. split; [|done].
        apply list_elem_of_fmap in Hj as ([j' [a b]] & -> & Hin). by apply Hp in Hin as [? _].
Qed.

Lemma entry_spec d p a b : good d p a -> good d p b -> exists evs st', entry_done a b evs st'.
Proof using G_child G_hash G_nonzero.
  intros Ha Hb. destruct a as [t1 i1|ch1], b as [t2 i2|ch2]; [..|by eapply entry_inner].
  - exists (leaf_events i1 i2), []. apply entry_closed; [intros; apply leaf_loop|].
    exact (branch_lists d p (LeafNode t1 i1) (Some (LeafNode t2 i2)) true (Some i2) (proj1 Ha) eq_refl).
  - eexists _, []. apply entry_closed; [|exact (branch_lists d p _ (Some (LeafNode t1 i1)) false (Some i1) (proj1 Hb) eq_refl)].
    intros fuel st D c. cbn [compare_loop]. rewrite walkBranch_spec. cbn [mbind result_bind]. by destruct (run _ D c) as [[[] ?] ?].
  - eexists _, []. apply entry_closed; [|exact (branch_lists d p _ (Some (LeafNode t2 i2)) true (Some i2) (proj1 Ha) eq_refl)].
    intros fuel st D c. cbn [compare_loop]. rewrite walkBranch_spec. cbn [mbind result_bind]. by destruct (run _ D c) as [[[] ?] ?].
Qed.

(** The loop reports the differences of the pairs on its stack. *)
Lemma compare_loop_spec fuel st : stacked st -> (pairs_count st < fuel)%nat ->
  exists evs, lists (pending st) evs /\
    forall D c, compare_loop fuel st D c = Ok (let '(go, D', _) := run evs D c in (go, D')).
Proof using G_child G_hash G_nonzero.
  revert st. induction fuel as [|fuel IH]; intros st Hs Hlt; [lia|]. destruct st as [|[a b] st].
  { exists []. split; [|done]. eapply lists_ext; [|apply lists_nil]. intros k v. split; [done|apply pending_nil]. }
  assert (exists d p, good d p a /\ good d p b /\
    forall k v a' b', pre k d = p -> (a', b') ∈ st -> ~ odiffer (Some a') (Some b') k v) as (d & p & Ha & Hb & Hd) by (inversion Hs; eauto).
  destruct (entry_spec d p a b Ha Hb) as (evs & st' & [Hr Hc Hst (P & Hl & HP & Hod)]).
  destruct (IH (st' ++ st) (Hst _ Hs)) as (evs' & Hl' & Hr'); [rewrite pairs_count_app; rewrite pairs_count_cons in Hlt; lia|].
  exists (evs ++ evs'). split.
  - eapply lists_ext; [|refine (lists_app _ _ _ _ Hl Hl' _)].
    + intros k v. cbn beta. rewrite pending_cons, pending_app, Hod. tauto.
    + intros k v w Hk Hw. assert (odiffer (Some a) (Some b) k v) as Hkv by (apply Hod; by left). apply pending_app in Hw as [Hw|Hw].
      * assert (odiffer (Some a) (Some b) k w) as Hkw by (apply Hod; by right). apply (HP k v Hk).
        destruct Hkv as [-> _], Hkw as [-> _]. done.
      * destruct Hw as (a' & b' & Hin & Hw). eapply Hd; [|exact Hin|exact Hw]. by apply (odiffer_pre _ _ a b k v).
  - intros D c. rewrite Hr, run_app. destruct (run evs D c) as [[[] D'] c']; [apply Hr'|done].
Qed.
End loops.

(** ** The comparison as a whole *)

(** Items of one type with the same image are the same. *)
Definition images_told (ty : SHAMapNodeType) (L : list item) : Prop :=
  forall i1 i2, i1 ∈ L -> i2 ∈ L -> leaf_preimage ty i1 = leaf_preimage ty i2 -> i1 = i2.

Lemma images_keyed ty d p (r1 r2 : node) : ty = TnAccountState \/ ty = TnTransactionMd ->
  wf ty d p r1 -> wf ty d p r2 -> images_told ty (items r1 ++ items r2).
Proof.
  intros Hty H1 H2 i1 i2 Hi1 Hi2. apply leaf_preimage_inj; [done|..];
    [apply elem_of_app in Hi1 as [?|?]|apply elem_of_app in Hi2 as [?|?]]; first [by eapply (wf_keys _ _ _ r1)|by eapply (wf_keys _ _ _ r2)].
Qed.

#[export] Instance item_eq_dec : EqDecision item.
Proof. solve_decision. Defined.

(** The items by key, and where two such maps differ. *)
Definition keyed (m : gmap N Blob) : gmap N item := map_imap (fun k x => Some (mkItem k x)) m.
Definition differences (m1 m2 : gmap N Blob) : Delta :=
  merge (fun a b => if decide (a = b) then None else Some (a, b)) (keyed m1) (keyed m2).

Lemma keyed_look ty r k : wf_map ty r -> keyed (item_map r) !! k = look r k.
Proof.
  intros Hwf. unfold keyed. rewrite map_lookup_imap. apply option_eq. intros i.
  rewrite (look_some _ _ _ _ _ (proj1 Hwf)). split.
  - destruct (item_map r !! k) as [x|] eqn:Ex; [|done]. intros [= <-]. split; [by apply (item_map_Some ty)|done].
  - intros [Hi <-]. by rewrite (item_map_elem ty r i Hwf Hi), <-(item_eq (mkItem (item_key i) (item_data i)) i).
Qed.

Lemma differences_lookup m1 m2 k v : differences m1 m2 !! k = Some v <->
  v = (keyed m1 !! k, keyed m2 !! k) /\ keyed m1 !! k <> keyed m2 !! k.
Proof.
  unfold differences. rewrite lookup_merge.
  destruct (keyed m1 !! k) as [a|], (keyed m2 !! k) as [b|]; cbn; [case_decide|..]; naive_solver.
Qed.

Lemma lists_map P evs (D : Delta) : lists P evs -> (forall k v, D !! k = Some v <-> P k v) -> list_to_map evs = D.
Proof.
  intros [Hnd Hin] HD. apply map_eq. intros k. apply option_eq. intros v.
  rewrite <-elem_of_list_to_map by done. by rewrite HD, Hin.
Qed.

Lemma take_map n (evs : list report) : NoDup evs.*1 ->
  (list_to_map (take n evs) : Delta) ⊆ list_to_map evs /\
  size (list_to_map (take n evs) : Delta) = Nat.min n (length evs).
Proof.
  intros Hnd. assert (NoDup (take n evs).*1) as Hn.
  { rewrite <-(take_drop n evs), fmap_app in Hnd. by apply NoDup_app in Hnd as [? _]. }
  split; [|by rewrite map_size_list_to_map, length_take by done]. apply map_subseteq_spec. intros k v.
  rewrite <-!elem_of_list_to_map by done. intros Hin. rewrite <-(take_drop n evs). apply elem_of_app. by left.
Qed.

Section compare_map.
Context `{Digest} {ty : SHAMapNodeType}.

Lemma hash_differences r1 r2 : wf_map ty r1 -> wf_map ty r2 -> node_hash r1 = node_hash r2 ->
  images_told ty (items r1 ++ items r2) -> digest_good (preimages r1 ++ preimages r2) -> r1 = r2.
Proof.
  intros H1 H2 E Hi Hg. eapply node_hash_told; [|apply H1|apply H2|done|done].
  intros i1 i2 Hi1 Hi2. apply Hi; apply elem_of_app; auto.
Qed.

Lemma compare_map r1 r2 maxCount : wf_map ty r1 -> wf_map ty r2 ->
  images_told ty (items r1 ++ items r2) -> digest_good (preimages r1 ++ preimages r2) -> (0 < maxCount)%Z ->
  let full := differences (item_map r1) (item_map r2) in
  exists D, compare r1 r2 maxCount = Ok (bool_decide (Z.of_nat (size full) < maxCount)%Z, D) /\
    D ⊆ full /\ size D = Nat.min (Z.to_nat maxCount) (size full).
Proof.
  intros H1 H2 Hi Hg Hc. cbn zeta. unfold compare. destruct (N.eqb_spec (node_hash r1) (node_hash r2)) as [E|E].
  { rewrite (hash_differences r1 r2) by done. exists ∅.
    assert (differences (item_map r2) (item_map r2) = ∅) as ->.
    { apply map_eq. intros k. apply option_eq. intros v. rewrite differences_lookup, lookup_empty. naive_solver. }
    rewrite map_size_empty, bool_decide_eq_true_2 by lia. split_and!; [done|done|]. lia. }
  set (G := fun n : node => (forall b, b ∈ preimages n -> b ∈ preimages r1 ++ preimages r2) /\
    forall i, i ∈ items n -> i ∈ items r1 ++ items r2).
  destruct (@compare_loop_spec _ ty G) with (fuel := S (node_count r1 + node_count r2)) (st := [(r1, r2)])
    as (evs & Hl & Hr).
  - intros ch i c [Hp Hit] Hch. split.
    + intros b Hb. apply Hp. by eapply preimages_child.
    + intros x Hx. apply Hit. by eapply elem_of_child.
  - intros d p n1 n2 [P1 I1] [P2 I2] W1 W2 Eh. eapply node_hash_told; [|done|done| |done].
    + intros i1 i2 Hi1 Hi2. apply Hi; auto.
    + eapply digest_good_sub; [|exact Hg]. intros b [Hb|Hb]%elem_of_app; auto.
  - intros d p n Hd [P1 _] W1. eapply (node_hash_good _ _ _ _ W1); [|done]. by eapply digest_good_sub.
  - apply (stacked_cons _ 0 0); [split; [apply H1|]|split; [apply H2|]|by intros ? ? ? ? _ ?%elem_of_nil|constructor].
    + split; intros ? ?; apply elem_of_app; by left.
    + split; intros ? ?; apply elem_of_app; by right.
  - rewrite pairs_count_cons. change (pairs_count []) with 0%nat. lia.
  - exists (list_to_map (take (Z.to_nat maxCount) evs)).
    assert (list_to_map evs = differences (item_map r1) (item_map r2)) as Efull.
    { eapply lists_map; [exact Hl|]. intros k v. rewrite differences_lookup, !(keyed_look ty) by done. unfold pending. split.
      - intros Hd. exists r1, r2. split; [by left|done].
      - intros (a & b & [= -> ->]%list_elem_of_singleton & Hd). exact Hd. }
    rewrite <-Efull, map_size_list_to_map by apply Hl. destruct (take_map (Z.to_nat maxCount) evs (proj1 Hl)) as [Ht Hs].
    split_and!; [|done|done]. rewrite Hr, run_spec; [|apply Hl|by intros; rewrite lookup_empty|done].
    rewrite (right_id_L ∅ (∪)). do 2 f_equal. case_bool_decide as Eb; [by apply Z.ltb_lt|by apply Z.ltb_nlt].
Qed.
End compare_map.
