(* ===== verification/SHAMapWalk.v ===== *)
(** * Looking for missing nodes

    [SHAMap::walkMap] and [walkMapParallel] (SHAMapDelta.cpp) with
    [descendNoStore] (SHAMap.cpp): which nodes of a map are neither in memory
    nor, for a map backed by the store, in the store.  The workers of the
    parallel walk are interleaved step by step; what they share is touched
    under a lock, in one step. *)

From S2P Require Import Prelude.
From stdpp Require Import relations.
Local Open Scope nat_scope.

(** ** Trees with nodes that are not at hand *)

Inductive Place (A : Type) : Type :=
| EmptyBranch
| Loaded (a : A)
| Stored (h : N) (a : A)
| Missing (h : N).
#[global] Arguments EmptyBranch {A}. #[global] Arguments Loaded {A}. #[global] Arguments Stored {A}. #[global] Arguments Missing {A}.

Inductive PNode : Type := PLeaf | PInner (ch : list (Place PNode)).
Abbreviation Branches := (list (Place PNode)).

Definition isInner (n : PNode) : bool := match n with PInner _ => true | PLeaf => false end.

Section walk.
Context (backed_ : bool).

(** What is not in memory is fetched, and to be had or an exception, if the
    map is backed by the store. *)
Definition descendNoStore (c : Place PNode) : result (option PNode) :=
  match c with
  | Loaded n => Ok (Some n)
  | Stored _ n => Ok (if backed_ then Some n else None)
  | Missing _ => if backed_ then Throw "SHAMapMissingNode" else Ok None
  | EmptyBranch => Ok None
  end.

(** A branch is passed over, followed or reported. *)
Inductive Look : Type := Pass | Follow (ch : Branches) | Report (h : N).
Definition look_at (c : Place PNode) : result Look :=
  match c with
  | EmptyBranch => Ok Pass
  | Loaded _ => nextNode ← descendNoStore c;
      Ok match nextNode with Some (PInner ch) => Follow ch | _ => Pass end
  | Stored h _ | Missing h => nextNode ← descendNoStore c;
      Ok match nextNode with Some (PInner ch) => Follow ch | Some PLeaf => Pass | None => Report h end
  end.

(** ** [walkMap] *)

Fixpoint walk_branches (ch : Branches) (nodeStack : list Branches) (missingNodes : list N) (maxMissing : Z)
    : result (bool * list Branches * list N * Z) :=
  match ch with
  | [] => Ok (true, nodeStack, missingNodes, maxMissing)
  | c :: ch =>
      l ← look_at c;
      match l with
      | Pass => walk_branches ch nodeStack missingNodes maxMissing
      | Follow next => walk_branches ch (next :: nodeStack) missingNodes maxMissing
      | Report h =>
          let missingNodes := missingNodes ++ [h] in
          let maxMissing := (maxMissing - 1)%Z in
          if (maxMissing <=? 0)%Z then Ok (false, nodeStack, missingNodes, maxMissing)
          else walk_branches ch nodeStack missingNodes maxMissing
      end
  end.

Fixpoint walkMap_loop (fuel : nat) (nodeStack : list Branches) (missingNodes : list N) (maxMissing : Z) : result (list N) :=
  match fuel with
  | O => Throw "out of fuel"
  | S fuel =>
      match nodeStack with
      | [] => Ok missingNodes
      | ch :: nodeStack =>
          '(go, nodeStack, missingNodes, maxMissing) ← walk_branches ch nodeStack missingNodes maxMissing;
          if (go : bool) then walkMap_loop fuel nodeStack missingNodes maxMissing else Ok missingNodes
      end
  end.

Fixpoint place_count (n : PNode) : nat :=
  match n with
  | PLeaf => 1
  | PInner ch => S (list_sum (map (fun c => S match c with Loaded n | Stored _ n => place_count n | _ => 0 end) ch))
  end.

Definition walkMap (root : PNode) (missingNodes : list N) (maxMissing : Z) : result (list N) :=
  match root with
  | PLeaf => Ok missingNodes
  | PInner ch => walkMap_loop (S (place_count root)) [ch] missingNodes maxMissing
  end.

(** ** [walkMapParallel] *)

(** A worker in the middle of a node, with the nodes it has yet to visit. *)
Record Worker : Type := mkWorker { w_branches : Branches; w_stack : list Branches }.
Record Shared : Type := mkShared { s_missing : list N; s_max : Z; s_exceptions : list string }.

Definition worker_step (w : Worker) (s : Shared) : option Worker * Shared :=
  match w_branches w with
  | [] => (match w_stack w with [] => None | ch :: st => Some (mkWorker ch st) end, s)
  | c :: rest =>
      match look_at c with
      | Throw e => (None, mkShared (s_missing s) (s_max s) (s_exceptions s ++ [e]))
      | Ok Pass => (Some (mkWorker rest (w_stack w)), s)
      | Ok (Follow next) => (Some (mkWorker rest (next :: w_stack w)), s)
      | Ok (Report h) =>
          let maxMissing := (s_max s - 1)%Z in
          (if (maxMissing <=? 0)%Z then None else Some (mkWorker rest (w_stack w)),
           mkShared (s_missing s ++ [h]) maxMissing (s_exceptions s))
      end
  end.

(** Any worker that has not returned goes on. *)
Inductive workers_step : relation (list (option Worker) * Shared) :=
| worker_goes pool s i w : pool !! i = Some (Some w) ->
    workers_step (pool, s) (<[i := (worker_step w s).1]> pool, (worker_step w s).2).

Definition topChildren (ch : Branches) : result (list (option PNode)) :=
  foldr (fun c r => n ← descendNoStore c; l ← r; Ok (n :: l)) (Ok []) ch.

Definition start_workers (tops : list (option PNode)) : list (option Worker) :=
  omap (fun t => match t with Some (PInner ch) => Some (Some (mkWorker [] [ch])) | _ => None end) tops.

(** What it may return and leave in [missingNodes]. *)
Inductive walkMapParallel (root : PNode) (missingNodes : list N) (maxMissing : Z) : result (bool * list N) -> Prop :=
| walk_leaf : root = PLeaf -> walkMapParallel root missingNodes maxMissing (Ok (false, missingNodes))
| walk_throws ch e : root = PInner ch -> topChildren ch = Throw e -> walkMapParallel root missingNodes maxMissing (Throw e)
| walk_joined ch tops pool s : root = PInner ch -> topChildren ch = Ok tops ->
    rtc workers_step (start_workers tops, mkShared missingNodes maxMissing []) (pool, s) ->
    Forall (fun w => w = None) pool ->
    walkMapParallel root missingNodes maxMissing (Ok (bool_decide (s_exceptions s = []), s_missing s)).
End walk.

(** ** [Ledger::walkLedger] *)

(** A map of a ledger: its tree, whether it is backed, and whether its root is
    neither at hand nor to be fetched although the header names it. *)
Record LedgerMap : Type := mkLedgerMap { lm_root : PNode; lm_backed : bool; lm_unfetched : bool; lm_hash : N }.

Definition missing_in (m : LedgerMap) : result (list N) :=
  if lm_unfetched m then Ok [lm_hash m] else walkMap (lm_backed m) (lm_root m) [] 32.

Inductive walkLedger (stateMap_ txMap_ : LedgerMap) (parallel : bool) : result bool -> Prop :=
| walk_in_parallel r : lm_unfetched stateMap_ = false -> parallel = true ->
    walkMapParallel (lm_backed stateMap_) (lm_root stateMap_) [] 32 r ->
    walkLedger stateMap_ txMap_ parallel ('(ok, _) ← r; Ok ok)
| walk_both : lm_unfetched stateMap_ = true \/ parallel = false ->
    walkLedger stateMap_ txMap_ parallel
      (missingNodes1 ← missing_in stateMap_;
       missingNodes2 ← missing_in txMap_;
       Ok (bool_decide (missingNodes1 = []) && bool_decide (missingNodes2 = []))).
