(* ===== verification/SHAMapWalkProps.v ===== *)
(** * What the walks find

    The sequential walk lists the nodes that are not to be had, or throws at
    the first if the map is backed; the verdict of the parallel walk. *)

From S2P Require Import Prelude SHAMapWalk.
From stdpp Require Import relations.
Local Open Scope nat_scope.

Section holes.
Context (backed_ : bool).
Implicit Types (ch : Branches) (st : list Branches).

(** The branch leads to a node that is not to be had. *)
Definition hole (c : Place PNode) : option N :=
  match c with Stored h _ => if backed_ then None else Some h | Missing h => Some h | _ => None end.

(** The nodes that are not to be had, in the order of the walk: those below a
    node, then those below its branches, the last branch first. *)
Fixpoint holes (n : PNode) : list N :=
  match n with
  | PLeaf => []
  | PInner ch => omap hole ch ++ concat (reverse (map (fun c =>
      match c with Loaded n => holes n | Stored _ n => if backed_ then holes n else [] | _ => [] end) ch))
  end.
Definition below (c : Place PNode) : list N :=
  match c with Loaded n => holes n | Stored _ n => if backed_ then holes n else [] | _ => [] end.
Definition below_all ch : list N := concat (reverse (map below ch)).
Definition deep ch : list N := omap hole ch ++ below_all ch.
Lemma holes_inner ch : holes (PInner ch) = deep ch.
Proof. done. Qed.
Lemma below_all_cons c ch : below_all (c :: ch) = below_all ch ++ below c.
Proof. unfold below_all. cbn [map]. rewrite reverse_cons, concat_app. cbn. by rewrite app_nil_r. Qed.

Lemma look_spec c :
  match look_at backed_ c with
  | Throw e => e = "SHAMapMissingNode"%string /\ backed_ = true /\ is_Some (hole c)
  | Ok Pass => hole c = None /\ below c = []
  | Ok (Follow next) => hole c = None /\ below c = deep next
  | Ok (Report h) => backed_ = false /\ hole c = Some h /\ below c = []
  end.
Proof.
  unfold deep, below_all, below. destruct c as [|[|next]|h [|next]|h]; cbn; [done|done|done|..]; destruct backed_; cbn; split_and?; eauto.
Qed.

(** ** The sequential walk *)

Fixpoint tell (hs : list N) (m : list N) (k : Z) : bool * list N * Z :=
  match hs with
  | [] => (true, m, k)
  | h :: hs => if (k - 1 <=? 0)%Z then (false, m ++ [h], k - 1)%Z else tell hs (m ++ [h]) (k - 1)%Z
  end.

Lemma tell_app h1 h2 m k : tell (h1 ++ h2) m k = let '(go, m', k') := tell h1 m k in if go then tell h2 m' k' else (false, m', k').
Proof. revert m k. induction h1 as [|h h1 IH]; intros m k; cbn; [done|]. destruct (_ <=? _)%Z; [done|apply IH]. Qed.
Lemma tell_take hs m k : (0 < k)%Z -> (tell hs m k).1.2 = m ++ take (Z.to_nat k) hs.
Proof.
  revert m k. induction hs as [|h hs IH]; intros m k Hk; cbn; [by rewrite take_nil, app_nil_r|].
  destruct (Z.leb_spec (k - 1) 0) as [Hle|Hgt].
  - assert (k = 1)%Z as -> by lia. change (Z.to_nat 1) with 1. by rewrite firstn_cons, take_0.
  - rewrite IH by lia. replace (Z.to_nat k) with (S (Z.to_nat (k - 1))) by lia. cbn. by rewrite <-app_assoc.
Qed.

Definition stack_size st : nat := list_sum (map (fun ch => place_count (PInner ch)) st).
Definition branch_size (c : Place PNode) : nat := S match c with Loaded n | Stored _ n => place_count n | _ => 0 end.
Definition branches_size ch : nat := list_sum (map branch_size ch).
Lemma place_count_inner ch : place_count (PInner ch) = S (branches_size ch).
Proof. done. Qed.
Lemma look_size c next : look_at backed_ c = Ok (Follow next) -> place_count (PInner next) < branch_size c.
Proof.
  unfold branch_size. destruct c as [|[|x]|h [|x]|h]; cbn [look_at descendNoStore mbind result_bind]; try destruct backed_;
    intros [=]; subst; lia.
Qed.
Lemma stack_size_cons ch st : stack_size (ch :: st) = place_count (PInner ch) + stack_size st.
Proof. done. Qed.
Lemma branches_size_cons c ch : branches_size (c :: ch) = branch_size c + branches_size ch.
Proof. done. Qed.

(** The throw of a backed map, if there is a hole. *)
Definition unless_throw {X} (hs : list N) (x : X) : result X :=
  if backed_ && bool_decide (hs <> []) then Throw "SHAMapMissingNode" else Ok x.

Lemma walk_branches_spec ch st m k :
  exists st', (let '(go, m', k') := tell (omap hole ch) m k in
    walk_branches backed_ ch st m k = unless_throw (omap hole ch) (go, st', m', k')) /\
    (backed_ = false \/ omap hole ch = [] -> (tell (omap hole ch) m k).1.1 = true ->
     concat (map deep st') = below_all ch ++ concat (map deep st) /\ stack_size st' <= branches_size ch + stack_size st).
Proof.
  revert st m k. induction ch as [|c ch IH]; intros st m k.
  { exists st. unfold unless_throw. cbn. rewrite andb_false_r. done. }
  cbn [walk_branches]. rewrite below_all_cons. setoid_rewrite branches_size_cons.
  assert (omap hole (c :: ch) = match hole c with Some h => h :: omap hole ch | None => omap hole ch end) as -> by done.
  pose proof (look_spec c) as Hl. pose proof (look_size c) as Hsz.
  destruct (look_at backed_ c) as [[|next|h]|e]; cbn [mbind result_bind].
  - destruct Hl as [-> ->]. rewrite app_nil_r. destruct (IH st m k) as (st' & E & Hst). exists st'. split; [done|].
    intros Hb Hgo. destruct (Hst Hb Hgo). split; [done|lia].
  - destruct Hl as [-> ->]. destruct (IH (next :: st) m k) as (st' & E & Hst). exists st'. split; [done|].
    intros Hb Hgo. destruct (Hst Hb Hgo) as [-> Hs]. rewrite stack_size_cons in Hs. specialize (Hsz _ eq_refl). cbn [map concat].
    rewrite <-app_assoc. split; [done|lia].
  - destruct Hl as (Hb & -> & ->). rewrite app_nil_r. cbn [tell]. unfold unless_throw in *. rewrite Hb in *. cbn [andb] in *.
    destruct (_ <=? _)%Z; [by exists st|]. destruct (IH st (m ++ [h]) (k - 1)%Z) as (st' & E & Hst). exists st'. split; [done|].
    intros _ Hgo. destruct (Hst ltac:(by left) Hgo). split; [done|lia].
  - destruct Hl as (-> & Hb & [h ->]). exists st. unfold unless_throw. rewrite Hb.
    destruct (tell (h :: omap hole ch) m k) as [[go m'] k'] eqn:Et. split; [done|]. by intros [?|?].
Qed.

Lemma walkMap_loop_spec fuel st m k : stack_size st < fuel ->
  walkMap_loop backed_ fuel st m k = unless_throw (concat (map deep st)) (tell (concat (map deep st)) m k).1.2.
Proof.
  revert st m k. induction fuel as [|fuel IH]; intros st m k Hlt; [lia|]. destruct st as [|ch st].
  { unfold unless_throw. cbn. by rewrite andb_false_r. }
  cbn [walkMap_loop map concat]. change (deep ch) with (omap hole ch ++ below_all ch). rewrite stack_size_cons, place_count_inner in Hlt.
  destruct (walk_branches_spec ch st m k) as (st' & E & Hst). rewrite <-!app_assoc, (tell_app (omap hole ch)).
  destruct (tell (omap hole ch) m k) as [[go m'] k'] eqn:Et. rewrite E. unfold unless_throw at 1.
  destruct (backed_ && bool_decide (omap hole ch <> [])) eqn:Eb; cbn [mbind result_bind].
  { unfold unless_throw. apply andb_true_iff in Eb as [Hb Ho%bool_decide_eq_true]. rewrite Hb. by destruct (omap hole ch). }
  assert (backed_ = false \/ omap hole ch = []) as Hok.
  { apply andb_false_iff in Eb as [?|Ho]; [by left|right]. apply bool_decide_eq_false in Ho. by apply dec_stable. }
  destruct go.
  - destruct (Hst Hok eq_refl) as [Ed Hs]. rewrite IH, Ed by lia. unfold unless_throw. destruct Hok as [->| ->]; done.
  - unfold unless_throw. destruct Hok as [Hb|Ho]; [by rewrite Hb|]. by rewrite Ho in Et.
Qed.

(** ** The workers *)

Definition left_over (w : Worker) : list N := deep (w_branches w) ++ concat (map deep (w_stack w)).
Definition work (w : Worker) : nat := branches_size (w_branches w) + stack_size (w_stack w).

(** How a step of a worker ends: it goes on, it is through, it meets the
    limit, or it meets an exception. *)
Inductive stepped (w : Worker) (s : Shared) : option Worker -> Shared -> Prop :=
| step_on w' told : left_over w = told ++ left_over w' -> work w' < work w -> (told = [] \/ backed_ = false) ->
    (told = [] \/ 0 < s_max s - Z.of_nat (length told))%Z ->
    stepped w s (Some w') (mkShared (s_missing s ++ told) (s_max s - Z.of_nat (length told)) (s_exceptions s))
| step_through : left_over w = [] -> stepped w s None s
| step_limit h lost : left_over w = h :: lost -> backed_ = false -> (s_max s - 1 <= 0)%Z ->
    stepped w s None (mkShared (s_missing s ++ [h]) (s_max s - 1) (s_exceptions s))
| step_exception : left_over w <> [] -> backed_ = true ->
    stepped w s None (mkShared (s_missing s) (s_max s) (s_exceptions s ++ ["SHAMapMissingNode"%string])).

Lemma step_quiet w s w' : left_over w = left_over w' -> work w' < work w -> stepped w s (Some w') s.
Proof.
  intros E Hw. pose proof (step_on w s w' []) as Hs. cbn in Hs. rewrite app_nil_r, Z.sub_0_r in Hs.
  destruct s. apply Hs; [done|done|by left|by left].
Qed.

Lemma deep_cons c rest : deep (c :: rest) = option_list (hole c) ++ deep rest ++ below c.
Proof. unfold deep. rewrite below_all_cons, <-app_assoc. cbn. by destruct (hole c). Qed.

Lemma worker_step_spec w s : stepped w s (worker_step backed_ w s).1 (worker_step backed_ w s).2.
Proof.
  destruct w as [[|c rest] st]; unfold worker_step; cbn [w_branches w_stack].
  - destruct st as [|ch st]; cbn [fst snd]; [by apply step_through|]. apply step_quiet; [done|].
    unfold work. cbn [w_branches w_stack]. rewrite stack_size_cons, place_count_inner. unfold branches_size at 2. cbn. lia.
  - pose proof (look_spec c) as Hl. pose proof (look_size c) as Hsz.
    assert (forall st', left_over (mkWorker (c :: rest) st') = option_list (hole c) ++ (deep rest ++ below c) ++ concat (map deep st')) as Hlo.
    { intros st'. unfold left_over. cbn [w_branches w_stack]. by rewrite deep_cons, <-app_assoc. }
    assert (forall st', work (mkWorker (c :: rest) st') = branch_size c + branches_size rest + stack_size st') as Hw by done.
    assert (0 < branch_size c) as Hpos by (unfold branch_size; lia).
    destruct (look_at backed_ c) as [[|next|h]|e]; cbn [fst snd].
    + destruct Hl as [E1 E2]. apply step_quiet; rewrite ?Hlo, ?Hw, ?E1, ?E2.
      * cbn. by rewrite app_nil_r.
      * unfold work. cbn [w_branches w_stack]. lia.
    + destruct Hl as [E1 E2]. specialize (Hsz _ eq_refl). apply step_quiet; rewrite ?Hlo, ?Hw, ?E1, ?E2.
      * unfold left_over. cbn [option_list app w_branches w_stack map concat]. by rewrite <-app_assoc.
      * unfold work. cbn [w_branches w_stack]. rewrite stack_size_cons. lia.
    + destruct Hl as (Hb & E1 & E2). specialize (Hlo st). rewrite E1, E2, app_nil_r in Hlo.
      destruct (Z.leb_spec (s_max s - 1) 0) as [Hle|Hgt].
      * by apply (step_limit _ _ h (deep rest ++ concat (map deep st))).
      * apply (step_on _ _ (mkWorker rest st) [h]); [done| |by right|by right]. rewrite Hw. unfold work. cbn [w_branches w_stack]. lia.
    + destruct Hl as (-> & Hb & [h E1]). apply step_exception; [|done]. by rewrite Hlo, E1.
Qed.

(** ** All workers together *)

Definition owner_left (o : option Worker) : list N := match o with Some w => left_over w | None => [] end.
Definition owner_work (o : option Worker) : nat := match o with Some w => S (work w) | None => 0 end.
Definition pool_left (pool : list (option Worker)) : list N := concat (map owner_left pool).
Definition pool_work (pool : list (option Worker)) : nat := list_sum (map owner_work pool).
Definition returned (pool : list (option Worker)) : nat := length (filter (fun o => o = None) pool).

(** One worker among the others. *)
Lemma pool_turn pool i w o : pool !! i = Some (Some w) -> exists others : list (option Worker),
  pool_left pool ≡ₚ left_over w ++ pool_left others /\ pool_left (<[i := o]> pool) ≡ₚ owner_left o ++ pool_left others /\
  pool_work pool = S (work w) + pool_work others /\ pool_work (<[i := o]> pool) = owner_work o + pool_work others /\
  returned (<[i := o]> pool) = (match o with None => 1 | Some _ => 0 end) + returned pool /\
  length (<[i := o]> pool) = length pool.
Proof.
  intros Hi. assert (exists l1 l2, pool = l1 ++ Some w :: l2 /\ <[i := o]> pool = l1 ++ o :: l2) as (l1 & l2 & -> & ->).
  { exists (take i pool), (drop (S i) pool). split; [by rewrite take_drop_middle|].
    apply insert_take_drop. by eapply lookup_lt_Some. }
  exists (l1 ++ l2). unfold pool_left, pool_work, returned.
  rewrite !map_app, !concat_app, !list_sum_app, !filter_app, !length_app, !filter_cons.
  cbn [map concat]. rewrite !list_sum_cons. cbn [owner_left owner_work].
  split_and!.
  - solve_Permutation.
  - solve_Permutation.
  - lia.
  - lia.
  - destruct o; repeat case_decide; cbn; try done; lia.
  - done.
Qed.

(** Every step does some of the work. *)
Lemma workers_step_work x x' : workers_step backed_ x x' -> pool_work x'.1 < pool_work x.1.
Proof.
  intros [pool s i w Hi]. cbn [fst]. destruct (pool_turn pool i w (worker_step backed_ w s).1 Hi) as (others & _ & _ & -> & -> & _).
  destruct (worker_step_spec w s); cbn; lia.
Qed.

Lemma workers_bound n x x' : nsteps (workers_step backed_) n x x' -> n + pool_work x'.1 <= pool_work x.1.
Proof.
  induction 1 as [x|n x1 x2 x3 Hs _ IH]; [lia|]. apply workers_step_work in Hs. lia.
Qed.

(** The workers can always be joined. *)
Lemma workers_join pool s : exists pool' s', rtc (workers_step backed_) (pool, s) (pool', s') /\ Forall (fun w => w = None) pool'.
Proof.
  remember (pool_work pool) as n eqn:En. revert pool s En. induction (lt_wf n) as [n _ IH]. intros pool s ->.
  destruct (decide (Forall (fun w => w = None) pool)) as [|Hn]; [by exists pool, s|].
  apply not_Forall_Exists in Hn; [|intros []; [by right|by left]]. apply Exists_exists in Hn as ([w|] & [i Hi]%list_elem_of_lookup & Hw); [|by destruct Hw].
  pose proof (worker_goes backed_ pool s i w Hi) as Hs. destruct (IH _ (workers_step_work _ _ Hs) _ (worker_step backed_ w s).2 eq_refl) as (p' & s' & Hr & Hf).
  exists p', s'. split; [|done]. by eapply rtc_l.
Qed.

Section run.
Context (T : list N) (K : Z).

(** What the workers, none of whose holes [T] is an exception, have reported. *)
Record listing (pool : list (option Worker)) (s : Shared) : Prop := {
  l_lost : exists lost, T ≡ₚ s_missing s ++ pool_left pool ++ lost /\ (0 < s_max s -> lost = [])%Z;
  l_max : (s_max s = K - Z.of_nat (length (s_missing s)))%Z;
  l_exceptions : s_exceptions s = [];
  l_bound : (Z.of_nat (length (s_missing s)) <= K - 1 + Z.of_nat (returned pool))%Z
}.

Lemma listing_step x x' : backed_ = false -> workers_step backed_ x x' -> listing x.1 x.2 -> listing x'.1 x'.2.
Proof.
  intros Hb [pool s i w Hi] [(lost & HT & Hlost) Hm He Hbd]. cbn [fst snd] in *.
  destruct (pool_turn pool i w (worker_step backed_ w s).1 Hi) as (others & P1 & P2 & _ & _ & Hr & _).
  destruct (worker_step_spec w s) as [w' told Hl _ _ Ht|Hl|h l Hl _ Hle|? ?]; [| | |congruence]; cbn [owner_left] in P2; split; cbn [s_missing s_max s_exceptions].
  - exists lost. rewrite P2. rewrite P1, Hl in HT. split; [rewrite HT; solve_Permutation|].
    intros Hpos. apply Hlost. lia.
  - rewrite length_app. lia.
  - done.
  - rewrite Hr, length_app. destruct Ht as [->|Ht]; cbn; lia.
  - exists lost. rewrite P2. rewrite P1, Hl in HT. done.
  - done.
  - done.
  - lia.
  - exists (l ++ lost). rewrite P2. rewrite P1, Hl in HT. split; [rewrite HT; solve_Permutation|lia].
  - rewrite length_app. cbn. lia.
  - done.
  - rewrite Hr, length_app. cbn. lia.
Qed.

(** What the workers have met, with an exception at each hole. *)
Record meeting (pool : list (option Worker)) (s : Shared) : Prop := {
  m_missing : s_missing s = [];
  m_left : s_exceptions s = [] -> pool_left pool ≡ₚ T;
  m_met : s_exceptions s <> [] -> T <> [];
  m_sub : forall h, h ∈ pool_left pool -> h ∈ T
}.

Lemma meeting_step x x' : backed_ = true -> workers_step backed_ x x' -> meeting x.1 x.2 -> meeting x'.1 x'.2.
Proof.
  intros Hb [pool s i w Hi] [Hm Hl0 Hme Hsub]. cbn [fst snd] in *.
  destruct (pool_turn pool i w (worker_step backed_ w s).1 Hi) as (others & P1 & P2 & _).
  destruct (worker_step_spec w s) as [w' told Hl _ Ht _|Hl|h l Hl ? _|Hl _]; [| |congruence|]; cbn [owner_left] in P2.
  - destruct Ht as [->|?]; [|congruence]. cbn in Hl. rewrite Hl in P1.
    split; cbn [s_missing s_max s_exceptions]; [by rewrite app_nil_r| |done|].
    + intros He. by rewrite P2, <-P1, Hl0.
    + intros h. rewrite P2, <-P1. apply Hsub.
  - rewrite Hl in P1. split; [done| |done|].
    + intros He. by rewrite P2, <-P1, Hl0.
    + intros h. rewrite P2. intros Hh. apply Hsub. by rewrite P1.
  - split; cbn [s_missing s_max s_exceptions]; [done| | |].
    + by intros ?%app_nil%proj2.
    + intros _ ->. destruct (left_over w) as [|h l]; [done|]. apply (not_elem_of_nil h), Hsub. rewrite P1. by left.
    + intros h. rewrite P2. intros Hh. apply Hsub. rewrite P1. apply elem_of_app. by right.
Qed.

Lemma rtc_preserve (I : list (option Worker) -> Shared -> Prop) x x' :
  (forall x x', workers_step backed_ x x' -> I x.1 x.2 -> I x'.1 x'.2) ->
  rtc (workers_step backed_) x x' -> I x.1 x.2 -> I x'.1 x'.2.
Proof. intros HI. induction 1; eauto. Qed.

Lemma joined_left pool : Forall (fun w => w = None) pool -> pool_left pool = [] /\ returned pool = length pool.
Proof.
  intros Hf. induction Hf as [|o pool -> _ [IH1 IH2]]; [done|]. split; [exact IH1|].
  unfold returned in *. rewrite filter_cons_True by done. cbn. by rewrite IH2.
Qed.
End run.

(** ** The start *)

Definition at_hand (c : Place PNode) : option PNode :=
  match c with Loaded n => Some n | Stored _ n => if backed_ then Some n else None | _ => None end.
Definition absent (c : Place PNode) : Prop := match c with Missing _ => True | _ => False end.
#[export] Instance absent_dec c : Decision (absent c).
Proof. destruct c; apply _. Defined.

(** A node below is not to be had. *)
Inductive lacks : PNode -> N -> Prop :=
| lacks_here ch c h : c ∈ ch -> hole c = Some h -> lacks (PInner ch) h
| lacks_below ch c n h : c ∈ ch -> at_hand c = Some n -> lacks n h -> lacks (PInner ch) h.

Lemma below_hand c : below c = match at_hand c with Some n => holes n | None => [] end.
Proof. destruct c; cbn; [done..| |done]. by destruct backed_. Qed.
Lemma elem_of_below_all ch h : h ∈ below_all ch <-> exists c, c ∈ ch /\ h ∈ below c.
Proof.
  unfold below_all. rewrite list_elem_of_In, in_concat. split.
  - intros (l & (c & <- & Hc)%list_elem_of_In%elem_of_reverse%list_elem_of_In%in_map_iff & Hh).
    exists c. by rewrite !list_elem_of_In.
  - intros (c & Hc & Hh). exists (below c). split; [|by apply list_elem_of_In].
    apply list_elem_of_In, elem_of_reverse, list_elem_of_In, in_map_iff. exists c. by rewrite <-list_elem_of_In.
Qed.
Lemma place_count_child ch c n : c ∈ ch -> at_hand c = Some n -> place_count n < place_count (PInner ch).
Proof.
  intros Hc Hn. rewrite place_count_inner. assert (place_count n < branch_size c) as Hlt.
  { unfold branch_size. destruct c; cbn in Hn; try done; [|destruct backed_; [|done]]; injection Hn as ->; lia. }
  induction Hc as [c ch|c c' ch _ IH]; rewrite branches_size_cons; [lia|]. specialize (IH Hn Hlt). lia.
Qed.

Lemma elem_of_holes n h : h ∈ holes n <-> lacks n h.
Proof.
  split.
  - remember (place_count n) as k eqn:Ek. revert n Ek. induction (lt_wf k) as [k _ IH]. intros [|ch] ->; [by intros ?%elem_of_nil|].
    rewrite holes_inner. unfold deep. rewrite elem_of_app, elem_of_below_all. intros [(c & Hc & Hh)%list_elem_of_omap|(c & Hc & Hh)]; [by econstructor|].
    rewrite below_hand in Hh. destruct (at_hand c) as [n|] eqn:Ec; [|by apply elem_of_nil in Hh].
    apply (lacks_below ch c n); [done..|]. apply (IH (place_count n)); [|done|done]. eapply place_count_child; eauto.
  - induction 1 as [ch c h Hc Hh|ch c n h Hc Hn _ IH]; rewrite holes_inner; unfold deep; apply elem_of_app.
    + left. apply list_elem_of_omap. eauto.
    + right. apply elem_of_below_all. exists c. split; [done|]. by rewrite below_hand, Hn.
Qed.

Lemma topChildren_spec ch :
  topChildren backed_ ch = if backed_ && bool_decide (Exists absent ch) then Throw "SHAMapMissingNode" else Ok (map at_hand ch).
Proof.
  induction ch as [|c ch IH]; cbn [topChildren foldr map].
  { rewrite bool_decide_eq_false_2 by (by intros ?%Exists_nil). by rewrite andb_false_r. }
  change (foldr _ (Ok []) ch) with (topChildren backed_ ch). rewrite IH, (bool_decide_ext _ _ (Exists_cons absent c ch)).
  rewrite bool_decide_or. destruct c; cbn; destruct backed_; cbn; repeat case_bool_decide; done.
Qed.

Lemma start_cons c ch : start_workers (map at_hand (c :: ch)) =
  match at_hand c with
  | Some (PInner next) => Some (mkWorker [] [next]) :: start_workers (map at_hand ch)
  | _ => start_workers (map at_hand ch)
  end.
Proof. unfold start_workers. cbn. by destruct (at_hand c) as [[|]|]. Qed.
Lemma start_left_over next : left_over (mkWorker [] [next]) = deep next.
Proof. exact (app_nil_r (deep next)). Qed.

Lemma start_left ch : pool_left (start_workers (map at_hand ch)) ≡ₚ below_all ch.
Proof.
  induction ch as [|c ch IH]; [done|]. rewrite below_all_cons, start_cons, <-IH, below_hand.
  destruct (at_hand c) as [[|next]|]; [by rewrite app_nil_r| |by rewrite app_nil_r].
  change (pool_left (Some (mkWorker [] [next]) :: ?l)) with (left_over (mkWorker [] [next]) ++ pool_left l).
  rewrite start_left_over. apply Permutation_app_comm.
Qed.

Lemma start_work ch : pool_work (start_workers (map at_hand ch)) <= branches_size ch.
Proof.
  induction ch as [|c ch IH]; [done|]. rewrite branches_size_cons, start_cons.
  destruct (at_hand c) as [[|next]|] eqn:Ec; [lia| |lia].
  assert (S (place_count (PInner next)) <= branch_size c) as Hle.
  { unfold branch_size. destruct c; cbn in Ec; try done; [|destruct backed_; [|done]]; injection Ec as ->; lia. }
  change (pool_work (Some (mkWorker [] [next]) :: ?l)) with (S (0 + (place_count (PInner next) + 0)) + pool_work l). lia.
Qed.

Lemma start_running ch : length (start_workers (map at_hand ch)) <= length ch /\ returned (start_workers (map at_hand ch)) = 0.
Proof.
  induction ch as [|c ch [IH1 IH2]]; [done|]. rewrite start_cons.
  destruct (at_hand c) as [[|next]|]; cbn [length]; [split; [lia|done]| |split; [lia|done]].
  unfold returned in *. rewrite filter_cons_False by done. split; [lia|done].
Qed.
Lemma step_length x x' : workers_step backed_ x x' -> length x'.1 = length x.1.
Proof. intros [pool s i w Hi]. apply length_insert. Qed.
End holes.

(** ** Verdicts *)

Lemma walkMap_spec backed root missingNodes maxMissing : (0 < maxMissing)%Z ->
  walkMap backed root missingNodes maxMissing =
  if backed && bool_decide (holes backed root <> []) then Throw "SHAMapMissingNode"
  else Ok (missingNodes ++ take (Z.to_nat maxMissing) (holes backed root)).
Proof.
  intros Hk. destruct root as [|ch]; unfold walkMap.
  { cbn. by rewrite andb_false_r, take_nil, app_nil_r. }
  rewrite (walkMap_loop_spec backed).
  - cbn [map concat]. rewrite app_nil_r, tell_take by done. done.
  - rewrite stack_size_cons. unfold stack_size. cbn. lia.
Qed.

Lemma joined_length backed x x' : rtc (workers_step backed) x x' -> length x'.1 = length x.1.
Proof. induction 1 as [|x y z Hs _ IH]; [done|]. by rewrite IH, (step_length _ _ _ Hs). Qed.

(** Joined workers on a map that is not backed. *)
Lemma joined_unbacked ch maxMissing pool s : (0 < maxMissing)%Z -> length ch = 16 ->
  rtc (workers_step false) (start_workers (map (at_hand false) ch), mkShared [] maxMissing []) (pool, s) ->
  Forall (fun w => w = None) pool ->
  s_exceptions s = [] /\ s_missing s ⊆+ below_all false ch /\
  ((Z.of_nat (length (below_all false ch)) < maxMissing)%Z -> s_missing s ≡ₚ below_all false ch) /\
  (Z.of_nat (length (s_missing s)) <= maxMissing + 15)%Z.
Proof.
  intros Hk Hlen Hr Hf. destruct (start_running false ch) as [Hl16 Hret].
  assert (listing false (below_all false ch) maxMissing pool s) as [(lost & HT & Hlost) Hm He Hbd].
  { apply (rtc_preserve false (listing false (below_all false ch) maxMissing) _ (pool, s)
      (fun x x' => listing_step false _ _ x x' eq_refl) Hr). split; cbn [s_missing s_max s_exceptions fst snd length app].
    - exists []. split; [by rewrite app_nil_r, start_left|done].
    - lia.
    - done.
    - lia. }
  apply joined_length in Hr. cbn [fst] in Hr. destruct (joined_left false pool Hf) as [Ep Er]. rewrite Ep in HT. cbn [app] in HT.
  split_and!; [done| | |rewrite Er in Hbd; lia].
  - rewrite HT. by apply submseteq_inserts_r.
  - intros Hlt. assert (lost = []) as ->; [|by rewrite HT, app_nil_r]. apply Hlost.
    apply Permutation_length in HT. rewrite length_app in HT. lia.
Qed.

(** Joined workers on a backed map. *)
Lemma joined_backed ch maxMissing pool s :
  rtc (workers_step true) (start_workers (map (at_hand true) ch), mkShared [] maxMissing []) (pool, s) ->
  Forall (fun w => w = None) pool ->
  s_missing s = [] /\ (s_exceptions s = [] <-> below_all true ch = []).
Proof.
  intros Hr Hf. assert (meeting true (below_all true ch) pool s) as [Hm Hl Hme _].
  { apply (rtc_preserve true (meeting true (below_all true ch)) _ (pool, s)
      (fun x x' => meeting_step true _ x x' eq_refl) Hr). split; cbn [s_missing s_exceptions fst snd]; [done|by rewrite start_left|done|].
    intros h. by rewrite start_left. }
  destruct (joined_left true pool Hf) as [Ep _]. rewrite Ep in Hl. split_and!; [done|]. split.
  - intros He. by apply Permutation_nil, Hl.
  - intros Eb. destruct (s_exceptions s); [done|]. by destruct Hme.
Qed.

Lemma omap_hole_present ch : ~ Exists absent ch -> omap (hole true) ch = [].
Proof.
  intros Hn. apply not_Exists_Forall in Hn; [|apply _]. induction Hn as [|c ch Hc _ IH]; [done|]. cbn. rewrite IH. destruct c; try done. by destruct Hc.
Qed.

(** The parallel walk of a backed map has one outcome. *)
Lemma walkMapParallel_backed ch maxMissing r :
  walkMapParallel true (PInner ch) [] maxMissing r <->
  r = (if bool_decide (Exists absent ch) then Throw "SHAMapMissingNode"
       else Ok (bool_decide (holes true (PInner ch) = []), [])).
Proof.
  pose proof (topChildren_spec true ch) as Ht. cbn [andb] in Ht.
  assert (~ Exists absent ch -> holes true (PInner ch) = below_all true ch) as Hh.
  { intros Hn. rewrite holes_inner. unfold deep. by rewrite omap_hole_present. }
  case_bool_decide as Ex.
  - split; [|intros ->; by eapply walk_throws].
    intros [?|? ? [= <-] E|? ? ? ? [= <-] E]; [done| |]; rewrite Ht in E; congruence.
  - rewrite Hh by done. split.
    + intros [?|? ? [= <-] E|? ? ? ? [= <-] E Hr Hf]; [done| |]; rewrite Ht in E; [done|injection E as <-].
      destruct (joined_backed _ _ _ _ Hr Hf) as [-> Hb]. by rewrite (bool_decide_ext _ _ Hb).
    + intros ->. destruct (workers_join true (start_workers (map (at_hand true) ch)) (mkShared [] maxMissing [])) as (pool & s & Hr & Hf).
      destruct (joined_backed _ _ _ _ Hr Hf) as [Hm Hb].
      pose proof (walk_joined true (PInner ch) [] maxMissing ch _ pool s eq_refl Ht Hr Hf) as W. by rewrite Hm, (bool_decide_ext _ _ Hb) in W.
Qed.

(** C28. What the walks for missing nodes say.  The list holes has
    exactly the nodes that are not to be had and that a path of nodes that are
    leads to.  The sequential walk lists them all up to the limit if the map is not backed
    by the store, and throws if there is one and the map is backed.  Under
    every interleaving of its workers the parallel walk ends within as many
    steps as there are places in the tree; on a backed map it throws if a
    node below the root is missing, and else returns whether none is missing
    further down; on a map that is not backed it returns true, whatever it
    finds: it lists at most fifteen more than the limit, and never a node
    right below the root. *)
Theorem walks_for_missing_nodes ch missingNodes maxMissing :
  (0 < maxMissing)%Z -> length ch = 16 ->
  (forall backed h, h ∈ holes backed (PInner ch) <-> lacks backed (PInner ch) h) /\
  walkMap false (PInner ch) missingNodes maxMissing =
    Ok (missingNodes ++ take (Z.to_nat maxMissing) (holes false (PInner ch))) /\
  walkMap true (PInner ch) missingNodes maxMissing =
    (if bool_decide (holes true (PInner ch) = []) then Ok missingNodes else Throw "SHAMapMissingNode") /\
  (forall r, walkMapParallel true (PInner ch) [] maxMissing r <->
     r = (if bool_decide (Exists absent ch) then Throw "SHAMapMissingNode"
          else Ok (bool_decide (holes true (PInner ch) = []), []))) /\
  (exists r, walkMapParallel false (PInner ch) [] maxMissing r) /\
  (forall r, walkMapParallel false (PInner ch) [] maxMissing r ->
     exists m, r = Ok (true, m) /\ m ⊆+ below_all false ch /\
       ((Z.of_nat (length (below_all false ch)) < maxMissing)%Z -> m ≡ₚ below_all false ch) /\
       (Z.of_nat (length m) <= maxMissing + 15)%Z) /\
  (forall backed tops n x, topChildren backed ch = Ok tops ->
     nsteps (workers_step backed) n (start_workers tops, mkShared [] maxMissing []) x -> n <= place_count (PInner ch)).
Proof.
  intros Hk Hlen. pose proof (topChildren_spec false ch) as Ht. cbn [andb] in Ht. split_and!.
  - intros backed h. apply elem_of_holes.
  - by rewrite walkMap_spec.
  - rewrite walkMap_spec by done. cbn [andb]. case_bool_decide as E1; case_bool_decide as E2; try done.
    by rewrite E1, take_nil, app_nil_r.
  - intros r. apply walkMapParallel_backed.
  - destruct (workers_join false (start_workers (map (at_hand false) ch)) (mkShared [] maxMissing [])) as (pool & s & Hr & Hf).
    eexists. by eapply walk_joined.
  - intros r [?|? ? [= <-] E|? ? ? ? [= <-] E Hr Hf]; [done| |]; rewrite Ht in E; [done|injection E as <-].
    destruct (joined_unbacked _ _ _ _ Hk Hlen Hr Hf) as (-> & H1 & H2 & H3). by eexists.
  - intros backed tops n x E Hn%workers_bound. rewrite topChildren_spec in E.
    destruct (backed && _); [done|]. injection E as <-. cbn [fst] in Hn. pose proof (start_work backed ch).
    rewrite place_count_inner. lia.
Qed.

(** In parallel a ledger is walked without its transactions. *)
Lemma walkLedger_parallel stateMap_ txMap_ txMap_' r : lm_unfetched stateMap_ = false ->
  walkLedger stateMap_ txMap_ true r -> walkLedger stateMap_ txMap_' true r.
Proof. intros Hs [r' _ _ Hr|[?|?]]; [|congruence|done]. by apply walk_in_parallel. Qed.

(** One after the other the maps of a ledger are at hand, or they are not and
    the walk returns false or throws. *)
Lemma walkLedger_sequential stateMap_ txMap_ r : walkLedger stateMap_ txMap_ false r ->
  r = Ok true <-> Forall (fun m => lm_unfetched m = false /\ holes (lm_backed m) (lm_root m) = []) [stateMap_; txMap_].
Proof.
  assert (forall m, missing_in m = Ok [] <-> lm_unfetched m = false /\ holes (lm_backed m) (lm_root m) = []) as Hm.
  { intros m. unfold missing_in. destruct (lm_unfetched m); [split; [done|by intros [? _]]|].
    rewrite walkMap_spec by done. change (Z.to_nat 32) with 32. destruct (holes (lm_backed m) (lm_root m)) as [|h hs], (lm_backed m); cbn; naive_solver. }
  intros [? ? ? ?|_]; [done|]. rewrite !Forall_cons, <-!Hm. clear Hm.
  destruct (missing_in stateMap_) as [[|]|], (missing_in txMap_) as [[|]|]; cbn; naive_solver.
Qed.

(** A map with a missing node below the root and one further down. *)
Definition sample_places : Branches :=
  [Missing 7%N; Loaded (PInner [Missing 8%N; Stored 9%N PLeaf])] ++ replicate 14 EmptyBranch.

Lemma walks_for_missing_nodes_witness :
  walkMap false (PInner sample_places) [] 32 = Ok [7; 8; 9]%N /\
  forall r, walkMapParallel false (PInner sample_places) [] 32 r -> exists m, r = Ok (true, m) /\ m ≡ₚ [8; 9]%N.
Proof.
  destruct (walks_for_missing_nodes sample_places [] 32 eq_refl eq_refl) as (_ & E & _ & _ & _ & Hp & _).
  split; [exact E|]. intros r Hr. destruct (Hp r Hr) as (m & -> & _ & Hm & _). exists m. split; [reflexivity|].
  apply Hm. vm_compute. reflexivity.
Defined.
