(* ===== verification/SHAMapProof.v ===== *)
(** * Proof paths

    [getProofPath] and [verifyProofPath] (SHAMapSync.cpp): the nodes from a
    leaf up to the root as they go over the wire, and their check against a
    root hash.  The hash of a node on its own is [updateHash] of
    SHAMapInnerNode.cpp and of the leaf types. *)

From S2P Require Import Prelude LedgerEntry Serializer LedgerHeader SHAMapNodeID SHAMap SHAMapSpec SHAMapHash.
Local Open Scope N_scope.

Section proof.
Context `{Digest}.
Abbreviation node := (SHAMapTreeNode Blob).

(** ** A node on its own *)

Definition stored_hash (n : StoredNode) : N :=
  match n with
  | SLeaf ty item => sha512Half (leaf_preimage ty item)
  | SInner bs => if (storedBranchCount bs =? 0)%nat then 0 else sha512Half (inner_preimage (iterChildren bs))
  end.

Definition getChildHash (bs : list (option N)) (m : nat) : N := default 0 (mjoin (bs !! m)).

Definition wire_of (n : node) : Blob := data_ (serializeForWire (stored_of n) empty_serializer).

(** ** Paths *)

Definition getProofPath (root : node) (key : N) : result (option (list Blob)) :=
  '(leaf, st) ← walkTowardsKey root key;
  match st with
  | [] => Ok None
  | (LeafNode _ item, _) :: _ =>
      if negb (item_key item =? key) then Ok None else Ok (Some ((fun e => wire_of e.1) <$> st))
  | (InnerNode _, _) :: _ => Ok None
  end.

(** The verdict; [None] where [selectBranch] reads past the end of the key. *)
Fixpoint verify_loop (size : nat) (rpath : list Blob) (depth : nat) (hash key : N) : option bool :=
  match rpath with
  | [] => Some false
  | blob :: rpath =>
      match makeFromWire blob with
      | Throw _ | Ok None => Some false
      | Ok (Some n) =>
          if negb (stored_hash n =? hash) then Some false
          else match n with
          | SInner bs =>
              let nodeId := createID (N.of_nat depth) key in
              if (64 <=? depth)%nat then None
              else verify_loop size rpath (S depth) (getChildHash bs (selectBranch nodeId key)) key
          | SLeaf _ _ => Some (depth + 1 =? size)%nat
          end
      end
  end.
Definition verifyProofPath (rootHash key : N) (path : list Blob) : option bool :=
  if (length path =? 0)%nat || (65 <? length path)%nat then Some false
  else verify_loop (length path) (reverse path) 0 rootHash key.

(** ** What the digest is relied on for

    No digest is zero, and no other byte string has the digest of one that is
    hashed in the tree. *)
Record unforgeable (root : node) : Prop := {
  uf_range : forall b, sha512Half b <> 0 /\ is_uint256 (sha512Half b);
  uf_second : forall b b', b ∈ preimages root -> sha512Half b' = sha512Half b -> b' = b
}.

Lemma unforgeable_child ch i c : getChild ch i = Some c -> unforgeable (InnerNode ch) -> unforgeable c.
Proof. intros Hc [Hr Hs]. split; [done|]. intros b b' Hb. apply Hs. by eapply preimages_child. Qed.

(** The stored node and the node of the tree agree in what is hashed. *)
Definition same_node (x : StoredNode) (n : node) : Prop :=
  match x, n with
  | SLeaf ty item, LeafNode ty' item' => ty = ty' /\ item = item'
  | SInner bs, InnerNode ch => iterChildren bs = child_hash <$> ch
  | _, _ => False
  end.

(** ** What is parsed from the wire *)

Definition parsed (x : StoredNode) : Prop :=
  match x with
  | SLeaf TnTransactionNm item => item_key item = sha512Half (be_bytes 4 kPrefixTransactionId ++ item_data item)
  | SLeaf TnInner _ => False
  | SLeaf _ item => is_uint256 (item_key item)
  | SInner bs => length bs = kBranchFactor /\ Forall is_uint256 (iterChildren bs)
  end.

Lemma get256_inv pre bs h it : Forall is_byte bs -> get256 (iter_at pre bs) = Ok (h, it) ->
  is_uint256 h /\ exists t bs', bs = t ++ bs' /\ it = iter_at (pre ++ t) bs'.
Proof.
  intros Hb. unfold get256, getBitString. destruct (fetch _ _ _) as [[t it']|] eqn:E; [|done]. cbn. intros [= <- <-].
  apply fetch_inv in E as (bs' & -> & Ht & ->); [|lia]. apply Forall_app in Hb as [Hb _]. split; [|by eexists _, _].
  pose proof (be_sum_bound t Hb) as Hs. unfold blob_size in Ht. rewrite Ht in Hs. unfold is_uint256. lia.
Qed.
Lemma full_loop_parsed n pre bs brs : Forall is_byte bs -> full_loop n (iter_at pre bs) = Ok brs ->
  length brs = n /\ Forall is_uint256 (iterChildren brs).
Proof.
  revert pre bs brs. induction n as [|n IH]; intros pre bs brs Hb; cbn [full_loop]; [intros [= <-]; done|].
  destruct (get256 _) as [[h it]|] eqn:E; [|done]. cbn. apply get256_inv in E as (Hh & t & bs' & -> & ->); [|done].
  apply Forall_app in Hb as [_ Hb]. destruct (full_loop n _) as [rest|] eqn:Er; [|done]. cbn. intros [= <-].
  destruct (IH _ _ _ Hb Er) as [Hl Hf]. split; [cbn; lia|]. constructor; [|done]. by destruct (h =? 0).
Qed.
Lemma compressed_loop_parsed fuel pre bs acc r : Forall is_byte bs -> Forall (fun x => is_uint256 x.2) acc ->
  compressed_loop fuel (iter_at pre bs) acc = Ok r -> length r = length acc /\ Forall (fun x => is_uint256 x.2) r.
Proof.
  revert pre bs acc r. induction fuel as [|fuel IH]; intros pre bs acc r Hb Ha; cbn [compressed_loop].
  { destruct (iter_empty _); [by intros [= <-]|done]. }
  destruct (iter_empty _); [by intros [= <-]|]. destruct (get256 _) as [[h it]|] eqn:E; [|done]. cbn.
  apply get256_inv in E as (Hh & t & bs' & -> & ->); [|done]. apply Forall_app in Hb as [_ Hb].
  unfold get8. destruct (fetch _ _ _) as [[t' it]|] eqn:E; [|done]. cbn.
  apply fetch_inv in E as (bs'' & -> & _ & ->); [|lia]. apply Forall_app in Hb as [_ Hb].
  destruct (16 <=? _)%Z; [done|]. intros E. apply IH in E as [Hl Hf]; [|done|by apply Forall_insert].
  by rewrite length_insert in Hl.
Qed.
Lemma split_tag_parsed data tag rest : Forall is_byte data -> (32 <= length data)%nat -> split_tag data = (tag, rest) -> is_uint256 tag.
Proof.
  intros Hb Hl [= <- _]. pose proof (be_sum_bound (drop (length data - 32) data) (Forall_drop _ _ _ Hb)) as Hs.
  rewrite length_drop in Hs. replace (length data - (length data - 32))%nat with 32%nat in Hs by lia. unfold is_uint256. lia.
Qed.

Lemma Ok_Some_inj {A} (a b : A) : Ok (Some a) = Ok (Some b) -> a = b.
Proof. congruence. Qed.
Lemma makeFromWire_parsed blob x : Forall is_byte blob -> makeFromWire blob = Ok (Some x) -> parsed x.
Proof.
  intros Hb. unfold makeFromWire. destruct (last blob) as [type|]; [|done].
  assert (Forall is_byte (take (length blob - 1) blob)) as Hr by (by apply Forall_take). set (raw := take _ blob) in *.
  assert (forall l : Blob, (blob_size l <? 32)%Z = false -> (32 <= length l)%nat) as H32.
  { intros l Hl%Z.ltb_ge. unfold blob_size in Hl. lia. }
  destruct (type =? 0)%Z; [unfold makeTransaction; destruct (_ <? _)%Z; [done|]; cbn [mbind result_bind]; intros <-%Ok_Some_inj; done|].
  destruct (type =? 1)%Z.
  { unfold makeAccountState. destruct (blob_size raw <? 32)%Z eqn:El; [done|]. destruct (split_tag raw) as [tag rest] eqn:Es.
    destruct (tag =? 0); [done|]. destruct (blob_size rest <? _)%Z; [done|]. cbn [mbind result_bind]; intros <-%Ok_Some_inj. eapply split_tag_parsed; eauto. }
  destruct (type =? 2)%Z.
  { unfold makeFullInner. destruct (negb _); [done|]. rewrite makeSerialIter_at. destruct (full_loop _ _) as [bs|] eqn:E; [|done].
    cbn [mbind result_bind]; intros <-%Ok_Some_inj. by eapply full_loop_parsed. }
  destruct (type =? 3)%Z.
  { unfold makeCompressedInner. cbv zeta. destruct (_ || _); [done|]. rewrite makeSerialIter_at.
    destruct (compressed_loop _ _ _) as [acc|] eqn:E; [|done]. cbn [mbind result_bind]; intros <-%Ok_Some_inj.
    apply compressed_loop_parsed in E as [Hl Hf]; [|done|by apply Forall_replicate]. cbn. rewrite length_fmap. split; [exact Hl|].
    unfold iterChildren. rewrite <-list_fmap_compose, Forall_fmap. eapply Forall_impl; [exact Hf|]. by intros [[] h]. }
  destruct (type =? 4)%Z; [|done].
  unfold makeTransactionWithMeta. destruct (blob_size raw <? 32)%Z eqn:El; [done|]. destruct (split_tag raw) as [tag rest] eqn:Es.
  destruct (blob_size rest <? _)%Z; [done|]. cbn [mbind result_bind]; intros <-%Ok_Some_inj. eapply split_tag_parsed; eauto.
Qed.

(** ** Equal hashes, equal nodes *)

(** Transactions without metadata are stored under their identifier. *)
Definition tx_keyed (ty : SHAMapNodeType) (root : node) : Prop := ty = TnTransactionNm ->
  forall it, it ∈ items root -> item_key it = sha512Half (be_bytes 4 kPrefixTransactionId ++ item_data it).

Lemma leaf_preimage_type ty1 ty2 i1 i2 : ty1 <> TnInner -> ty2 <> TnInner ->
  leaf_preimage ty1 i1 = leaf_preimage ty2 i2 -> ty1 = ty2.
Proof.
  intros H1 H2 E. apply (f_equal (take 4)) in E.
  destruct ty1, ty2; try done; exfalso; unfold leaf_preimage in E; rewrite !take_app_length' in E by done;
    vm_compute in E; discriminate E.
Qed.

Lemma leaf_same ty item ty' item' : ty <> TnInner -> is_uint256 (item_key item) ->
  (ty = TnTransactionNm -> item_key item = sha512Half (be_bytes 4 kPrefixTransactionId ++ item_data item)) ->
  parsed (SLeaf ty' item') -> leaf_preimage ty' item' = leaf_preimage ty item -> ty' = ty /\ item' = item.
Proof.
  intros Hty Hk Hnm Hp E. assert (ty' <> TnInner) as Hty' by (by destruct ty').
  pose proof (leaf_preimage_type _ _ _ _ Hty' Hty E) as ->. split; [done|]. destruct ty; [done| | |].
  - cbn [leaf_preimage parsed] in E, Hp. assert (item_data item' = item_data item) as Ed by (by apply app_inv_head in E).
    rewrite Ed, <-(Hnm eq_refl) in Hp. destruct item, item'; cbn in *; congruence.
  - eapply leaf_preimage_inj; [by right|done|done|exact E].
  - eapply leaf_preimage_inj; [by left|done|done|exact E].
Qed.

Lemma stored_count (ch : list (option node)) : storedBranchCount (map (option_map node_hash) ch) = getBranchCount ch.
Proof.
  unfold storedBranchCount. generalize 0%nat. induction ch as [|[c|] ch IH]; intros i; [done|..]; cbn [map option_map iterNonEmpty length].
  - unfold getBranchCount in *. rewrite filter_cons, decide_True by (by eexists). cbn. by rewrite IH.
  - unfold getBranchCount in *. rewrite filter_cons, decide_False by (by intros [? ?]). apply IH.
Qed.
Lemma iterChildren_stored (ch : list (option node)) : iterChildren (map (option_map node_hash) ch) = child_hash <$> ch.
Proof. induction ch as [|[c|] ch IH]; [done|..]; csimpl; by rewrite <-IH. Qed.
Lemma stored_hash_of n : stored_hash (stored_of n) = node_hash n.
Proof. destruct n as [ty item|ch]; [done|]. cbn [stored_of stored_hash]. by rewrite stored_count, iterChildren_stored. Qed.

Lemma wf_leaf_inv ty d p ty' (item : SHAMapItem Blob) : wf ty d p (LeafNode ty' item) -> ty' = ty /\ ty <> TnInner /\ is_uint256 (item_key item).
Proof. intros Hw. by inversion Hw. Qed.

Lemma unforgeable_children ty d p ch : wf ty d p (InnerNode ch) -> unforgeable (InnerNode ch) ->
  Forall is_uint256 (child_hash <$> ch) /\ length ch = kBranchFactor.
Proof.
  intros Hwf [Hr _]. inversion Hwf as [|? ? ? _ Hl _ _]; subst. split; [|done]. apply Forall_fmap, Forall_forall. intros [[ty' it|ch']|] _; cbn.
  - apply Hr.
  - destruct (_ =? _)%nat; [done|apply Hr].
  - done.
Qed.

Lemma stored_same ty d p n x : wf ty d p n -> unforgeable n -> tx_keyed ty n -> parsed x -> node_hash n <> 0 ->
  stored_hash x = node_hash n -> same_node x n.
Proof.
  intros Hwf Hu Hk Hp Hnz E. destruct n as [ty' item|ch].
  - destruct (wf_leaf_inv _ _ _ _ _ Hwf) as (-> & Hty & Hkey). destruct x as [ty' item'|bs]; cbn [stored_hash node_hash] in E, Hnz.
    + apply (uf_second _ Hu) in E; [|by left]. apply leaf_same in E as [-> ->]; [done|done|done| |done].
      intros Ht. apply Hk; [done|]. by left.
    + destruct (storedBranchCount bs =? 0)%nat; [congruence|]. apply (uf_second _ Hu) in E; [|by left].
      by apply (leaf_inner_preimage ty item (iterChildren bs)).
  - rewrite node_hash_inner in E, Hnz. destruct (getBranchCount ch =? 0)%nat eqn:Ec; [done|].
    assert (inner_preimage (child_hash <$> ch) ∈ preimages (InnerNode ch)) as Hin.
    { cbn [preimages]. rewrite Ec. apply elem_of_app. left. by left. }
    destruct x as [ty' item'|bs]; cbn [stored_hash] in E.
    + apply (uf_second _ Hu) in E; [|done]. by apply leaf_inner_preimage in E.
    + destruct (storedBranchCount bs =? 0)%nat; [congruence|]. apply (uf_second _ Hu) in E; [|done]. unfold inner_preimage in E. apply app_inv_head in E.
      destruct (unforgeable_children _ _ _ _ Hwf Hu) as [Hf Hl]. destruct Hp as [Hl' Hf'].
      apply flat_map_hash_inj in E; [done|done|done|]. unfold iterChildren. rewrite !length_fmap. congruence.
Qed.

(** ** The way to a leaf *)

Inductive trail (key : N) : node -> N -> list node -> Prop :=
| trail_leaf ty item d : trail key (LeafNode ty item) d [LeafNode ty item]
| trail_inner ch d c ns :
    d < 64 -> getChild ch (N.to_nat (nib key d)) = Some c -> trail key c (d + 1) ns ->
    trail key (InnerNode ch) d (InnerNode ch :: ns).

Lemma walk_trail ty key fuel n nid p st : wf ty (depth_ nid) p n -> masked nid -> (65 - N.to_nat (depth_ nid) <= fuel)%nat ->
  exists r st1, walk fuel n nid key st = Ok (r, st1 ++ st) /\
    match r with
    | Some (ty', it) => exists ns, trail key n (depth_ nid) (ns ++ [LeafNode ty' it]) /\ st1.*1 = LeafNode ty' it :: reverse ns
    | None => (forall ns, ~ trail key n (depth_ nid) ns) /\ exists ch nid' st2, st1 = (InnerNode ch, nid') :: st2
    end.
Proof.
  revert n nid p st. induction fuel as [|fuel IH]; intros n nid p st Hwf Hm Hf; [destruct Hm as [Hm _]; lia|].
  destruct n as [ty' item|ch]; cbn [walk].
  - exists (Some (ty', item)), [(LeafNode ty' item, nid)]. split; [done|]. exists []. split; [apply trail_leaf|done].
  - inversion Hwf as [|? ? ? Hd Hl Hch Hb]; subst. rewrite select_nib by done.
    destruct (getChild ch (N.to_nat (nib key (depth_ nid)))) as [c|] eqn:Hc.
    + pose proof (nib_lt key (depth_ nid)) as Hn.
      destruct (getChildNodeID_Ok nid (N.to_nat (nib key (depth_ nid)))) as (cid & -> & Hcm & Hcd); [done|done|lia|]. cbn [mbind result_bind].
      specialize (Hch _ _ Hc). rewrite <-Hcd in Hch. destruct (IH c cid _ ((InnerNode ch, nid) :: st) Hch Hcm) as (r & st1 & -> & Hr); [lia|].
      exists r, (st1 ++ [(InnerNode ch, nid)]). split; [by rewrite <-app_assoc|]. rewrite Hcd in Hr. destruct r as [[ty' it]|].
      * destruct Hr as (ns & Ht & E). exists (InnerNode ch :: ns). split; [by eapply trail_inner|].
        rewrite fmap_app, E, reverse_cons. done.
      * destruct Hr as (Hno & ch' & nid' & st2 & ->). split; [|by eexists _, _, _].
        intros ns Ht. inversion Ht as [|? ? c' ns' _ Hc' Ht']; subst. rewrite Hc in Hc'. injection Hc' as <-. by eapply Hno.
    + exists None, [(InnerNode ch, nid)]. split; [done|]. split; [|by eexists _, _, _].
      intros ns Ht. inversion Ht; subst. congruence.
Qed.
Lemma walkTowardsKey_trail ty root key : wf_map ty root -> exists r st, walkTowardsKey root key = Ok (r, st) /\
  match r with
  | Some (ty', it) => exists ns, trail key root 0 (ns ++ [LeafNode ty' it]) /\ st.*1 = LeafNode ty' it :: reverse ns
  | None => (forall ns, ~ trail key root 0 ns) /\ exists ch nid' st2, st = (InnerNode ch, nid') :: st2
  end.
Proof.
  intros (Hwf & _). destruct (walk_trail ty key walk_fuel root rootID 0 [] Hwf masked_root) as (r & st & E & Hr); [unfold walk_fuel; cbn; lia|].
  rewrite app_nil_r in E. by exists r, st.
Qed.

(** ** The check *)

Definition tells (blob : Blob) (n : node) : Prop := exists x, makeFromWire blob = Ok (Some x) /\ same_node x n.

Lemma uf_nonzero ty d p n : wf ty d p n -> d <> 0 -> unforgeable n -> node_hash n <> 0.
Proof.
  intros Hwf Hd [Hr _]. destruct Hwf as [d p item|d p ch _ _ _ Hb]; [apply Hr|]. rewrite node_hash_inner.
  destruct (Nat.eqb_spec (getBranchCount ch) 0) as [Hz|_]; [|apply Hr]. destruct (Hb Hd) as [?|(i & c & ? & _)]; lia.
Qed.

Lemma storedBranchCount_zero i bs : length (iterNonEmpty i bs) = 0%nat <-> Forall (fun b => b = None) bs.
Proof.
  revert i. induction bs as [|[h|] bs IH]; intros i; cbn; [done|split; [done|by intros [? _]%Forall_cons]|].
  rewrite IH, Forall_cons. naive_solver.
Qed.
Lemma getChildHash_iter bs m : getChildHash bs m = default 0 (iterChildren bs !! m).
Proof. unfold getChildHash, iterChildren. rewrite list_lookup_fmap. by destruct (bs !! m) as [[?|]|]. Qed.
Lemma getChildHash_same bs ch m : iterChildren bs = child_hash <$> ch -> getChildHash bs m = child_hash (getChild ch m).
Proof. intros E. rewrite getChildHash_iter, E, list_lookup_fmap. unfold getChild. by destruct (ch !! m) as [[?|]|]. Qed.

(** Nothing is below the zero hash. *)
Lemma verify_zero size bs d key : (forall b, sha512Half b <> 0) -> verify_loop size bs d 0 key <> Some true.
Proof.
  intros Hz. revert d. induction bs as [|blob bs IH]; intros d; cbn [verify_loop]; [done|].
  destruct (makeFromWire blob) as [[x|]|]; [|done..]. destruct (N.eqb_spec (stored_hash x) 0) as [E|]; [|done]. cbn [negb].
  destruct x as [ty item|brs]; cbn [stored_hash] in E; [by apply Hz in E|].
  destruct (Nat.eqb_spec (storedBranchCount brs) 0) as [Ec|]; [|by apply Hz in E]. destruct (64 <=? d)%nat; [done|].
  apply storedBranchCount_zero in Ec. assert (getChildHash brs (selectBranch (createID (N.of_nat d) key) key) = 0) as ->; [|apply IH].
  unfold getChildHash. destruct (brs !! _) as [b|] eqn:Eb; [|done]. by eapply Forall_lookup_1 in Ec as ->.
Qed.

Lemma verify_sound ty d p n size bs key : wf ty d p n -> unforgeable n -> tx_keyed ty n -> Forall (Forall is_byte) bs ->
  (N.to_nat d + length bs = size)%nat -> verify_loop size bs (N.to_nat d) (node_hash n) key = Some true ->
  exists ns, trail key n d ns /\ Forall2 tells bs ns.
Proof.
  revert d p n. induction bs as [|blob bs IH]; intros d p n Hwf Hu Hk Hb Hs E; [done|].
  destruct (decide (node_hash n = 0)) as [Ez|Hnz]; [rewrite Ez in E; exfalso; by apply verify_zero in E; [|apply Hu]|].
  apply Forall_cons in Hb as [Hb0 Hb]. cbn [verify_loop] in E. destruct (makeFromWire blob) as [[x|]|] eqn:Ew; [|done..].
  destruct (N.eqb_spec (stored_hash x) (node_hash n)) as [Eh|]; [|done]. cbn [negb] in E.
  pose proof (stored_same _ _ _ _ _ Hwf Hu Hk (makeFromWire_parsed _ _ Hb0 Ew) Hnz Eh) as Hsame.
  assert (tells blob n) as Ht by (by exists x). destruct x as [ty' item'|brs], n as [ty'' item|ch]; [|done|done|]; cbn [same_node] in Hsame.
  - cbn [length] in Hs. destruct (Nat.eqb_spec (N.to_nat d + 1) size) as [Es|]; [|done]. destruct bs; [|cbn in Hs; lia].
    exists [LeafNode ty'' item]. split; [apply trail_leaf|by constructor].
  - destruct (64 <=? N.to_nat d)%nat eqn:E64; [done|]. apply Nat.leb_gt in E64. rewrite N2Nat.id in E.
    unfold createID in E. rewrite selectBranch_nib in E by lia. rewrite (getChildHash_same _ _ _ Hsame) in E.
    inversion Hwf as [|? ? ? Hd Hl Hch Hbr]; subst. destruct (getChild ch (N.to_nat (nib key d))) as [c|] eqn:Hc;
      [|exfalso; by apply verify_zero in E; [|apply Hu]].
    replace (S (N.to_nat d)) with (N.to_nat (d + 1)) in E by lia. cbn [child_hash] in E.
    destruct (IH (d + 1) _ c (Hch _ _ Hc)) as (ns & Htr & Hf); [by eapply unforgeable_child| |done|cbn [length]; lia|exact E|].
    + intros Hty it Hit. apply Hk; [done|]. by eapply elem_of_child.
    + exists (InnerNode ch :: ns). split; [by eapply trail_inner|by constructor].
Qed.

Lemma same_hash ty d p n x : wf ty d p n -> unforgeable n -> same_node x n -> node_hash n <> 0 -> stored_hash x = node_hash n.
Proof.
  intros Hwf Hu Hs Hnz. destruct x as [ty' item'|brs], n as [ty'' item|ch]; [|done|done|]; cbn [same_node] in Hs; [by destruct Hs as [-> ->]|].
  rewrite node_hash_inner in *. cbn [stored_hash]. rewrite Hs. destruct (getBranchCount ch =? 0)%nat eqn:Ec; [done|].
  destruct (Nat.eqb_spec (storedBranchCount brs) 0) as [Ez|]; [|done]. exfalso. apply storedBranchCount_zero in Ez.
  apply Nat.eqb_neq in Ec. apply Ec. destruct (decide (getBranchCount ch = 0)%nat) as [|Hne]; [done|]. exfalso.
  inversion Hwf as [|? ? ? Hd Hl Hch _]; subst. assert (exists i c, getChild ch i = Some c) as (i & c & Hc).
  { unfold getBranchCount in Hne. destruct (filter _ ch) as [|o l] eqn:Ef; [done|].
    assert (o ∈ filter (fun c => is_Some c) ch) as Ho by (rewrite Ef; by left). apply list_elem_of_filter in Ho as [[c ->] Ho].
    apply list_elem_of_lookup in Ho as [i Hi]. exists i, c. unfold getChild. by rewrite Hi. }
  pose proof (uf_nonzero _ _ _ _ (Hch _ _ Hc) ltac:(lia) (unforgeable_child _ _ _ Hc Hu)) as Hcz. apply Hcz.
  pose proof (getChildHash_same _ _ i Hs) as E. rewrite Hc in E. cbn in E. rewrite <-E. unfold getChildHash.
  destruct (brs !! i) as [b|] eqn:Eb; [|done]. by eapply Forall_lookup_1 in Ez as ->.
Qed.

Lemma trail_nonzero ty d p n key ns : wf ty d p n -> unforgeable n -> trail key n d ns -> node_hash n <> 0.
Proof.
  intros Hwf Hu Ht. destruct Ht as [ty' item d|ch d c ns Hd Hc _]; [apply Hu|]. rewrite node_hash_inner.
  pose proof (branch_count_pos ch _ c Hc). rewrite (proj2 (Nat.eqb_neq _ _)) by lia. apply Hu.
Qed.

Lemma verify_complete ty d p n key ns size bs : wf ty d p n -> unforgeable n -> trail key n d ns -> Forall2 tells bs ns ->
  (N.to_nat d + length bs = size)%nat -> verify_loop size bs (N.to_nat d) (node_hash n) key = Some true.
Proof.
  intros Hwf Hu Ht. revert p Hwf bs. pose proof Ht as Ht0. induction Ht as [ty' item d|ch d c ns Hd Hc Ht IH]; intros p Hwf bs Hf Hs;
    inversion Hf as [|blob ? bs' ? (x & Ew & Hsame) Hf']; subst; cbn [verify_loop]; rewrite Ew;
    rewrite (same_hash _ _ _ _ _ Hwf Hu Hsame (trail_nonzero _ _ _ _ _ _ Hwf Hu Ht0)), N.eqb_refl; cbn [negb].
  - destruct x; [|done]. inversion Hf'; subst. cbn. by rewrite Nat.eqb_refl.
  - destruct x as [|brs]; [done|]. rewrite (proj2 (Nat.leb_gt _ _)), N2Nat.id by lia. unfold createID.
    rewrite selectBranch_nib by lia. rewrite (getChildHash_same _ _ _ Hsame), Hc. inversion Hwf as [|? ? ? _ Hl Hch _]; subst.
    replace (S (N.to_nat d)) with (N.to_nat (d + 1)) by lia.
    eapply IH; [by eapply unforgeable_child|done|by apply Hch|done|cbn [length]; lia].
Qed.

Lemma trail_length key n d ns : d <= 64 -> trail key n d ns -> (1 <= length ns <= 65 - N.to_nat d)%nat.
Proof. intros Hd. induction 1 as [|ch d c ns Hd' Hc Ht IH]; cbn [length]; [lia|]. specialize (IH ltac:(lia)). lia. Qed.

(** ** The nodes of a map, sent over the wire *)

Definition storable (ty : SHAMapNodeType) (root : node) : Prop := forall it, it ∈ items root -> stored_ok (SLeaf ty it).

Lemma wire_parses ty d p n : wf ty d p n -> unforgeable n -> storable ty n -> makeFromWire (wire_of n) = Ok (Some (stored_of n)).
Proof.
  intros Hwf Hu Hs. apply wire_roundtrip. destruct n as [ty' item|ch].
  - destruct (wf_leaf_inv _ _ _ _ _ Hwf) as [-> _]. apply Hs. by left.
  - inversion Hwf as [|? ? ? Hd Hl Hch _]; subst. cbn [stored_of stored_ok]. split; [by rewrite length_map|].
    apply Forall_lookup. intros i b Hi. change (map (option_map node_hash) ch) with ((option_map node_hash) <$> ch) in Hi.
    rewrite list_lookup_fmap in Hi. destruct (ch !! i) as [[c|]|] eqn:Ec; [|by injection Hi as <-|done]. injection Hi as <-.
    assert (getChild ch i = Some c) as Hc by (unfold getChild; by rewrite Ec). cbn.
    split; [by eapply uf_nonzero; [by apply Hch|lia|by eapply unforgeable_child]|].
    destruct c as [ty' it|ch']; cbn; [apply Hu|destruct (_ =? _)%nat; [done|apply Hu]].
Qed.
Lemma wire_tells ty d p n : wf ty d p n -> unforgeable n -> storable ty n -> tells (wire_of n) n.
Proof.
  intros Hwf Hu Hs. exists (stored_of n). split; [by eapply wire_parses|]. destruct n as [ty' item|ch]; [done|]. apply iterChildren_stored.
Qed.

Lemma trail_tells ty d p n key ns : wf ty d p n -> unforgeable n -> storable ty n -> trail key n d ns -> Forall2 tells (wire_of <$> ns) ns.
Proof.
  intros Hwf Hu Hs Ht. revert p Hwf Hu Hs. induction Ht as [ty' item d|ch d c ns Hd Hc Ht IH]; intros p Hwf Hu Hs; cbn; constructor;
    [by eapply wire_tells|done|by eapply wire_tells|]. inversion Hwf as [|? ? ? _ Hl Hch _]; subst.
  eapply IH; [by apply Hch|by eapply unforgeable_child|]. intros it Hit. apply Hs. by eapply elem_of_child.
Qed.
End proof.
