(* ===== verification/SHAMapProofProps.v ===== *)
(** * Properties of proof paths *)

From S2P Require Import Prelude LedgerEntry Serializer LedgerHeader SHAMapNodeID SHAMap SHAMapSpec SHAMapMap SHAMapHash SHAMapProof.
Local Open Scope N_scope.

Section paths.
Context `{Digest}.
Implicit Types root : SHAMapTreeNode Blob.

Lemma verify_refuses ty root key path : wf_map ty root -> unforgeable root -> tx_keyed ty root -> Forall (Forall is_byte) path ->
  verifyProofPath (node_hash root) key path = Some true -> exists ns, trail key root 0 ns /\ Forall2 tells (reverse path) ns.
Proof.
  intros (Hwf & _) Hu Hk Hb. unfold verifyProofPath. destruct (_ || _); [done|]. intros E.
  eapply (verify_sound ty 0 0); [done..| |by rewrite length_reverse|exact E]. by apply Forall_reverse.
Qed.
Lemma verify_accepts ty root key path ns : wf_map ty root -> unforgeable root ->
  trail key root 0 ns -> Forall2 tells (reverse path) ns -> verifyProofPath (node_hash root) key path = Some true.
Proof.
  intros (Hwf & _) Hu Ht Hf. pose proof (Forall2_length _ _ _ Hf) as Hl. rewrite length_reverse in Hl.
  pose proof (trail_length key root 0 ns ltac:(lia) Ht) as H65. cbn in H65. unfold verifyProofPath.
  rewrite (proj2 (Nat.eqb_neq _ _)), (proj2 (Nat.ltb_ge _ _)) by lia. cbn [orb].
  eapply (verify_complete ty 0 0); [done..|by rewrite length_reverse].
Qed.
Lemma trail_unique key n d ns1 ns2 : trail key n d ns1 -> trail key n d ns2 -> ns1 = ns2.
Proof.
  intros H1. revert ns2. induction H1 as [|ch d c ns Hd Hc Ht IH]; intros ns2 H2; inversion H2 as [|? ? c' ns' _ Hc' Ht']; subst; [done|].
  rewrite Hc in Hc'. injection Hc' as <-. f_equal. by apply IH.
Qed.

(** The proof path of what the walk ends at. *)
Lemma walk_path ty root key ty' item st : wf_map ty root -> unforgeable root -> storable ty root ->
  walkTowardsKey root key = Ok (Some (ty', item), st) ->
  (exists ns, trail key root 0 ns /\ reverse st.*1 = ns) /\ Forall2 tells (reverse (wire_of <$> st.*1)) (reverse st.*1) /\
  exists nid st', st = (LeafNode ty' item, nid) :: st'.
Proof.
  intros Hmap Hu Hs E. destruct (walkTowardsKey_trail ty root key Hmap) as (r & st' & E' & Hr). rewrite E in E'. injection E' as <- <-.
  destruct Hr as (ns & Ht & Est). assert (reverse st.*1 = ns ++ [LeafNode ty' item]) as Er.
  { by rewrite Est, reverse_cons, reverse_involutive. }
  split; [by eexists|]. split.
  - rewrite <-fmap_reverse, Er. eapply trail_tells; [apply Hmap|done..].
  - destruct st as [|[n nid] st']; [done|]. cbn in Est. injection Est as -> _. by eexists _, _.
Qed.

Lemma getProofPath_find ty root key : wf_map ty root ->
  exists r st, walkTowardsKey root key = Ok (r, st) /\
    match findKey root key with
    | Ok (Some leaf) => r = Some leaf /\ getProofPath root key = Ok (Some (wire_of <$> st.*1))
    | Ok None => getProofPath root key = Ok None
    | Throw _ => False
    end.
Proof.
  intros Hmap. destruct (walkTowardsKey_trail ty root key Hmap) as (r & st & E & Hr). exists r, st. split; [done|].
  unfold findKey, getProofPath. rewrite E. cbn [mbind result_bind]. destruct r as [[ty' item]|].
  - destruct Hr as (ns & _ & Est). destruct st as [|[n nid] st]; [done|]. cbn in Est. injection Est as -> Est.
    destruct (item_key item =? key); [|done]. cbn [negb]. split; [done|]. rewrite <-list_fmap_compose. done.
  - destruct Hr as (_ & ch & nid & st2 & ->). done.
Qed.

(** The walk towards a leaf's own key goes the same way. *)
Lemma trail_own ty d p n key ns ty' item : wf ty d p n -> trail key n d (ns ++ [LeafNode ty' item]) ->
  trail (item_key item) n d (ns ++ [LeafNode ty' item]) /\ item ∈ items n.
Proof.
  intros Hwf Ht. remember (ns ++ [LeafNode ty' item]) as l eqn:El. revert p ns Hwf El.
  induction Ht as [ty'' it d|ch d c l Hd Hc Ht IH]; intros p ns Hwf El.
  - destruct ns as [|? [|]]; [|done..]. injection El as -> ->. split; [apply trail_leaf|by left].
  - destruct ns as [|n0 ns]; [injection El as ? _; subst; done|]. injection El as _ El'.
    inversion Hwf as [|? ? ? _ Hl Hch _]; subst. destruct (IH _ ns (Hch _ _ Hc) eq_refl) as [Ht' Hin]. split.
    + eapply trail_inner; [done| |exact Ht']. by rewrite (wf_nib _ _ _ _ _ _ _ Hwf Hc Hin), Nat2N.id.
    + by eapply elem_of_child.
Qed.

Lemma verify_empties k m d : (m + d = 65)%nat -> (d <= 64)%nat -> verify_loop 65 (replicate m [3%Z]) d 0 k = None.
Proof.
  assert (makeFromWire [3%Z] = Ok (Some (SInner (replicate 16 None)))) as Ew by (vm_compute; reflexivity).
  revert d. induction m as [|m IH]; intros d Hm Hd; [lia|]. cbn [replicate verify_loop]. rewrite Ew. cbn [stored_hash].
  change (storedBranchCount (replicate 16 None)) with 0%nat. cbn [Nat.eqb N.eqb negb].
  destruct (Nat.leb_spec 64 d); [done|].
  assert (forall i, getChildHash (replicate 16 None) i = 0) as ->; [|apply IH; lia]. intros i. unfold getChildHash.
  destruct (replicate 16 (@None N) !! i) as [b|] eqn:Eb; [|done]. by apply lookup_replicate in Eb as [-> _].
Qed.
End paths.

(** C23. Proof paths, over a digest that is never zero and for which no second
    byte string has the digest of one hashed in the map.  Whatever bytes a
    path is made of, [verifyProofPath] accepts it under the root hash of a
    map for a key exactly when its blobs are, from the end, the nodes of the
    map from the root down to the leaf at which the walk towards the key
    ends.  [getProofPath] gives such a path for every key in the map, which
    is therefore accepted, and none for other keys. *)
Theorem proof_paths `{Digest} ty (root : SHAMapTreeNode Blob) (key : N) (path : list Blob) :
  wf_map ty root -> unforgeable root -> tx_keyed ty root -> storable ty root -> key < 2 ^ 256 -> Forall (Forall is_byte) path ->
  (verifyProofPath (node_hash root) key path = Some true <->
   exists item st, walkTowardsKey root key = Ok (Some (ty, item), st) /\ Forall2 tells path st.*1) /\
  match item_map root !! key with
  | Some data => exists good, getProofPath root key = Ok (Some good) /\ verifyProofPath (node_hash root) key good = Some true /\
      option_map makeFromWire (head good) = Some (Ok (Some (SLeaf ty (mkItem key data))))
  | None => getProofPath root key = Ok None
  end.
Proof.
  intros Hmap Hu Hk Hs Hkey Hb. split.
  - destruct (walkTowardsKey_trail ty root key Hmap) as (r & st & E & Hr). split.
    + intros (ns & Ht & Hf)%(verify_refuses ty); [|done..]. destruct r as [[ty' item]|]; [|exfalso; by apply Hr in Ht]. destruct Hr as (ns' & Ht' & Est).
      pose proof (trail_unique _ _ _ _ _ Ht Ht') as ->. exists item, st.
      assert (ty' = ty) as ->; [|split; [done|]].
      { destruct (walkTowardsKey_spec ty root key Hmap Hkey) as (r & n & nid & st' & E' & Hp & _ & Hst). rewrite E in E'. injection E' as <- ->.
        cbn in Est. injection Est as -> _. by eapply path_leaf_type. }
      rewrite Est. apply Forall2_reverse in Hf. by rewrite reverse_involutive, reverse_app in Hf.
    + intros (item & st' & E' & Hf). rewrite E in E'. injection E' as -> ->. destruct Hr as (ns & Ht & Est). rewrite Est in Hf.
      eapply verify_accepts; [done..|]. apply Forall2_reverse in Hf. by rewrite reverse_cons, reverse_involutive in Hf.
  - destruct (getProofPath_find ty root key Hmap) as (r & st & E & Hg). destruct (findKey_spec ty root key Hmap Hkey) as (leaf & Ef & Hl).
    rewrite Ef in Hg. destruct leaf as [[ty' item]|]; [|by rewrite (item_map_None _ _ _ Hmap Hl)].
    destruct Hl as (-> & Hin & <-). rewrite (item_map_elem _ _ _ Hmap Hin). destruct Hg as [-> ->]. eexists. split; [done|].
    destruct (walk_path _ _ _ _ _ _ Hmap Hu Hs E) as ((ns & Ht & Er) & Hf & nid & st' & Est). split.
    + eapply verify_accepts; [done..|]. by rewrite <-Er.
    + rewrite Est. cbn [fmap list_fmap head option_map fst]. f_equal. destruct item as [k d]. apply wire_roundtrip. by apply Hs.
Qed.

(** C39. What [verifyProofPath] lets through.  It never compares the key of
    the leaf with the key asked for: for any key that is not in the map but
    whose walk ends at a leaf, the proof path of that leaf is accepted.  And
    65 inner nodes without branches, one byte each on the wire, make it read
    past the end of the key under the root hash zero, whatever the key. *)
Theorem proof_path_deviations `{Digest} ty (root : SHAMapTreeNode Blob) (key : N) item st :
  wf_map ty root -> unforgeable root -> storable ty root -> key < 2 ^ 256 ->
  walkTowardsKey root key = Ok (Some (ty, item), st) -> item_key item <> key ->
  item_map root !! key = None /\
  (exists path, getProofPath root (item_key item) = Ok (Some path) /\ verifyProofPath (node_hash root) key path = Some true) /\
  forall k, verifyProofPath 0 k (replicate 65 [3%Z]) = None.
Proof.
  intros Hmap Hu Hs Hkey E Hne. split_and!.
  - destruct (findKey_spec ty root key Hmap Hkey) as (leaf & Ef & Hl). unfold findKey in Ef. rewrite E in Ef. cbn in Ef.
    rewrite (proj2 (N.eqb_neq _ _) Hne) in Ef. injection Ef as <-. by apply (item_map_None _ _ _ Hmap).
  - destruct (walkTowardsKey_trail ty root key Hmap) as (r & st' & E' & Hr). rewrite E in E'. injection E' as <- <-.
    destruct Hr as (ns & Ht & Est). destruct (trail_own _ _ _ _ _ _ _ _ (proj1 Hmap) Ht) as [Hown Hin].
    destruct (wf_keys _ _ _ _ _ (proj1 Hmap) Hin) as [Hk' _].
    destruct (getProofPath_find ty root (item_key item) Hmap) as (r & st1 & E1 & Hg).
    destruct (findKey_spec ty root (item_key item) Hmap Hk') as (leaf & Ef & Hl). rewrite Ef in Hg.
    destruct leaf as [[ty' item']|]; [|by apply Hl in Hin]. destruct Hg as [-> Hg]. eexists. split; [exact Hg|].
    destruct (walk_path _ _ _ _ _ _ Hmap Hu Hs E1) as ((ns1 & Ht1 & Er1) & Hf1 & _).
    pose proof (trail_unique _ _ _ _ _ Ht1 Hown) as ->. rewrite Er1 in Hf1. by eapply verify_accepts.
  - intros k. unfold verifyProofPath. rewrite length_replicate. cbn [Nat.eqb Nat.ltb Nat.leb orb]. rewrite reverse_replicate. apply verify_empties; lia.
Qed.

(** ** Witnesses *)

(** A map with the one item 5, and a digest that tells its two nodes from all else. *)
Definition one_item : SHAMapItem Blob := mkItem 5 [1; 2; 3; 4; 5; 6; 7; 8; 9; 10; 11; 12]%Z.
Definition one_tree : SHAMapTreeNode Blob := InnerNode (Some (LeafNode TnAccountState one_item) :: replicate 15 None).
Definition two_digest (l1 l2 : Blob) : Digest := fun b => if bool_decide (b = l1) then 2 else if bool_decide (b = l2) then 3 else 1.
Definition one_digest : Digest := two_digest (leaf_preimage TnAccountState one_item) (inner_preimage (2 :: replicate 15 0)).

Lemma two_digest_range l1 l2 b : two_digest l1 l2 b <> 0 /\ is_uint256 (two_digest l1 l2 b).
Proof. unfold two_digest. repeat case_bool_decide; done. Qed.
Lemma two_digest_second l1 l2 b b' : l1 <> l2 -> b ∈ [l2; l1] -> two_digest l1 l2 b' = two_digest l1 l2 b -> b' = b.
Proof. unfold two_digest. set_unfold. intros Hne Hb. repeat case_bool_decide; naive_solver. Qed.

Lemma one_tree_wf : wf_map TnAccountState one_tree.
Proof.
  split; [|done]. constructor; [done|done| |done]. intros i c Hc. destruct i as [|i].
  - injection Hc as <-. constructor; [done|done|by vm_compute|by vm_compute].
  - exfalso. unfold getChild in Hc. cbn [lookup list_lookup] in Hc. destruct (replicate 15 None !! i) as [o|] eqn:E; [|done].
    apply lookup_replicate in E as [-> _]. done.
Qed.
Lemma one_tree_unforgeable : @unforgeable one_digest one_tree.
Proof.
  split.
  - intros b. apply two_digest_range.
  - intros b b' Hb. apply two_digest_second; [apply leaf_inner_preimage|].
    assert (@preimages one_digest one_tree = [inner_preimage (2 :: replicate 15 0); leaf_preimage TnAccountState one_item]) as Ep
      by (vm_compute; reflexivity). rewrite Ep in Hb. exact Hb.
Qed.
Lemma one_tree_storable `{Digest} : storable TnAccountState one_tree.
Proof. intros it Hit. apply list_elem_of_singleton in Hit as ->. vm_compute. done. Qed.

Lemma proof_paths_witness : exists good, @getProofPath one_digest one_tree 5 = Ok (Some good) /\
  @verifyProofPath one_digest (@node_hash one_digest one_tree) 5 good = Some true.
Proof.
  destruct (@proof_paths one_digest TnAccountState one_tree 5 [] one_tree_wf one_tree_unforgeable ltac:(done) (@one_tree_storable one_digest)
    ltac:(by vm_compute) ltac:(constructor)) as [_ Hg].
  assert (item_map one_tree !! 5 = Some (item_data one_item)) as E by (vm_compute; reflexivity). rewrite E in Hg.
  destruct Hg as (good & H1 & H2 & _). by exists good.
Defined.

Lemma proof_path_deviations_witness : item_map one_tree !! 6 = None /\
  exists path, @getProofPath one_digest one_tree 5 = Ok (Some path) /\
    @verifyProofPath one_digest (@node_hash one_digest one_tree) 6 path = Some true.
Proof.
  destruct (@proof_path_deviations one_digest TnAccountState one_tree 6 one_item [(LeafNode TnAccountState one_item, mkNodeID 1 0); (one_tree, rootID)]
    one_tree_wf one_tree_unforgeable (@one_tree_storable one_digest) ltac:(by vm_compute) ltac:(vm_compute; reflexivity) ltac:(done)) as (H1 & H2 & _).
  by split.
Defined.
