(* ===== verification/SHAMapSync.v ===== *)
(** * Acquiring a map

    The part of SHAMapSync.cpp that acquires a map from peers: a tree with
    nodes that are not there yet, [addRootNode], [addKnownNode] and
    [getMissingNodes] with the nodes it reads in the background.  What they
    are given by the rest of the server is an [Env]: the tree node cache, the
    node store and the filter, the answers to random draws, which entries of
    the full-below cache have expired, and the order in which reads finish. *)

From S2P Require Import Prelude LedgerEntry Serializer SHAMapNodeID SHAMap SHAMapHash SHAMapProof.
Local Open Scope N_scope.

(** ** Trees that are being acquired *)

(** A branch has the hash of the child, and the child once it is there. *)
Inductive YNode : Type :=
| YLeaf (type : SHAMapNodeType) (item : SHAMapItem Blob)
| YInner (branches : list (option (N * option YNode))) (fullBelowGen : N).

Definition fresh (n : StoredNode) : YNode :=
  match n with
  | SLeaf ty item => YLeaf ty item
  | SInner bs => YInner (option_map (fun h => (h, None)) <$> bs) 0
  end.

Definition stored (n : YNode) : StoredNode :=
  match n with
  | YLeaf ty item => SLeaf ty item
  | YInner bs _ => SInner (option_map fst <$> bs)
  end.

Definition yhash `{Digest} (n : YNode) : N := stored_hash (stored n).

Definition branch (n : YNode) (i : nat) : option (N * option YNode) :=
  match n with YInner bs _ => mjoin (bs !! i) | YLeaf _ _ => None end.

Definition isFullBelow (n : YNode) (generation : N) : bool :=
  match n with YInner _ gen => gen =? generation | YLeaf _ _ => false end.

Definition canonicalizeChild (i : nat) (child n : YNode) : YNode :=
  match n with
  | YInner bs gen =>
      match bs !! i with
      | Some (Some (h, None)) => YInner (<[i := Some (h, Some child)]> bs) gen
      | _ => n
      end
  | YLeaf _ _ => n
  end.

Definition setFullBelowGen (gen : N) (n : YNode) : YNode :=
  match n with YInner bs _ => YInner bs gen | YLeaf _ _ => n end.

(** The code holds pointers to nodes of the tree and changes them in place;
    a pointer is the way to the node from the root. *)
Abbreviation Path := (list nat).

Fixpoint node_at (n : YNode) (p : Path) : option YNode :=
  match p with
  | [] => Some n
  | i :: p => match branch n i with Some (_, Some c) => node_at c p | _ => None end
  end.

Fixpoint update_at (n : YNode) (p : Path) (f : YNode -> YNode) : YNode :=
  match p with
  | [] => f n
  | i :: p =>
      match n with
      | YInner bs gen =>
          match bs !! i with
          | Some (Some (h, Some c)) => YInner (<[i := Some (h, Some (update_at c p f))]> bs) gen
          | _ => n
          end
      | YLeaf _ _ => n
      end
  end.

(** ** The rest of the server *)

(** A read that was asked for: the parent, its identifier, the branch. *)
Record Deferred : Type := mkDeferred { d_parent : Path; d_parentID : SHAMapNodeID; d_branch : nat }.

Record Env : Type := mkEnv {
  backed_ : bool;
  generation : N;
  cacheLookup : N -> option YNode;
  nodeObject : N -> option Blob;
  syncFilter : option (N -> option Blob);
  randInt : nat -> nat;
  expired : nat -> bool;
  finished : nat -> list Deferred -> list Deferred;
  resumeOrder : nat -> list (Path * SHAMapNodeID) -> list (Path * SHAMapNodeID)
}.

Section sync.
Context `{Digest} (E : Env).

(** [finishFetch]: what does not parse is not there. *)
Definition finishFetch (object : option Blob) : option YNode :=
  match object with
  | None => None
  | Some data => match makeFromPrefix data with Ok n => Some (fresh n) | Throw _ => None end
  end.
Definition fetchNodeFromDB (h : N) : option YNode := finishFetch (nodeObject E h).
(** What the filter has.  The note the filter gets that its node was used is
    not recorded. *)
Definition checkFilter (h : N) : option YNode :=
  match syncFilter E with Some getNode => finishFetch (getNode h) | None => None end.

Definition fetchNodeNT (h : N) : option YNode :=
  match cacheLookup E h with
  | Some n => Some n
  | None =>
      match (if backed_ E then fetchNodeFromDB h else None) with
      | Some n => Some n
      | None => checkFilter h
      end
  end.

(** ** Adding nodes *)

Inductive SHAMapState : Type := Modifying | Immutable | Synching | Invalid.
Inductive SHAMapAddNode : Type := Duplicate | Useful | InvalidNode.

(** A map: its root, its state, and what was handed to the filter. *)
Record SyncMap : Type := mkSync { root_ : YNode; state_ : SHAMapState; gotNodes : list (N * Blob) }.

Definition with_prefix (n : YNode) : Blob := data_ (serializeWithPrefix (stored n) empty_serializer).

Definition gotNode (h : N) (n : YNode) (m : SyncMap) : SyncMap :=
  match syncFilter E with
  | Some _ => mkSync (root_ m) (state_ m) (gotNodes m ++ [(h, with_prefix n)])
  | None => m
  end.

(** [canonicalize]: a backed map takes the node of the cache if there is one. *)
Definition canonicalize (h : N) (n : YNode) : YNode :=
  if backed_ E then default n (cacheLookup E h) else n.

Definition addRootNode (hash : N) (rootNode : Blob) (m : SyncMap) : SyncMap * result SHAMapAddNode :=
  if negb (yhash (root_ m) =? 0) then (m, Ok Duplicate)
  else
    match makeFromWire rootNode with
    | Throw e => (m, Throw e)
    | Ok None => (m, Ok InvalidNode)
    | Ok (Some n) =>
        if negb (stored_hash n =? hash) then (m, Ok InvalidNode)
        else
          let node := canonicalize hash (fresh n) in
          let state := match node with YLeaf _ _ => Modifying | YInner _ _ => state_ m end in
          (gotNode (yhash node) node (mkSync node state (gotNodes m)), Ok Useful)
    end.

(** The node that came for a place where the walk found none.  [None] in the
    first place: nothing is hooked.  The walk has asked the cache already, so
    that [canonicalize] gives the node back. *)
Definition take_node (rawNode : Blob) (childHash : N) (target currNodeID : SHAMapNodeID)
    : option YNode * bool * result SHAMapAddNode :=
  match makeFromWire rawNode with
  | Throw e => (None, false, Throw e)
  | Ok None => (None, false, Ok InvalidNode)
  | Ok (Some newNode) =>
      if negb (stored_hash newNode =? childHash) then (None, false, Ok InvalidNode)
      else
        let misplaced := match newNode with
          | SLeaf _ item => negb (id_ (createID (depth_ target) (item_key item)) =? id_ target)
          | SInner _ => false end in
        let inner := match newNode with SInner _ => true | SLeaf _ _ => false end in
        if misplaced then (None, false, Ok InvalidNode)
        else if (kLeafDepth <? depth_ currNodeID) || (inner && (depth_ currNodeID =? kLeafDepth)) then (None, true, Ok Useful)
        else if negb (bool_decide (currNodeID = target)) then (None, false, Ok Useful)
        else (Some (fresh newNode), false, Ok Useful)
  end.

(** The walk down; the tree comes back with the nodes that were hooked. *)
Fixpoint add_walk (fuel : nat) (touched : N -> bool) (curr : YNode) (currNodeID target : SHAMapNodeID) (rawNode : Blob)
    : YNode * option (N * YNode) * bool * result SHAMapAddNode :=
  match fuel with
  | O => (curr, None, false, Throw "out of fuel")
  | S fuel =>
      match curr with
      | YLeaf _ _ => (curr, None, false, Ok Duplicate)
      | YInner bs gen =>
          if isFullBelow curr (generation E) || negb (depth_ currNodeID <? depth_ target) then (curr, None, false, Ok Duplicate)
          else
            let i := selectBranch currNodeID (id_ target) in
            match branch curr i with
            | None => (curr, None, false, Ok InvalidNode)
            | Some (childHash, child) =>
                if touched childHash then (curr, None, false, Ok Duplicate)
                else
                  let child := match child with Some c => Some c | None => fetchNodeNT childHash end in
                  match getChildNodeID currNodeID i with
                  | Throw e => (match child with Some c => canonicalizeChild i c curr | None => curr end, None, false, Throw e)
                  | Ok childID =>
                      match child with
                      | Some c =>
                          let '(c, got, invalid, r) := add_walk fuel touched c childID target rawNode in
                          (YInner (<[i := Some (childHash, Some c)]> bs) gen, got, invalid, r)
                      | None =>
                          let '(n, invalid, r) := take_node rawNode childHash target childID in
                          match n with
                          | Some n => (canonicalizeChild i n curr, Some (childHash, n), invalid, r)
                          | None => (curr, None, invalid, r)
                          end
                      end
                  end
            end
      end
  end.

Definition addKnownNode (touched : N -> bool) (target : SHAMapNodeID) (rawNode : Blob) (m : SyncMap) : SyncMap * result SHAMapAddNode :=
  match state_ m with
  | Synching =>
      let '(root, got, invalid, r) := add_walk walk_fuel touched (root_ m) rootID target rawNode in
      let m := mkSync root (if (invalid : bool) then Invalid else state_ m) (gotNodes m) in
      (match got with Some (h, n) => gotNode h n m | None => m end, r)
  | _ => (m, Ok Duplicate)
  end.

(** ** Missing nodes *)

(** A node being processed: which branch is looked at first, how many were
    looked at, and whether all below them is there. *)
Record StackEntry : Type := mkEntry {
  se_node : Path; se_nodeID : SHAMapNodeID; se_firstChild : nat; se_currentChild : nat; se_fullBelow : bool
}.

Record MissingNodes : Type := mkMissing {
  mn_root : YNode;
  mn_cache : gset N;
  mn_max : Z;
  missingNodes : list (SHAMapNodeID * N);
  missingHashes : gset N;
  mn_stack : list StackEntry;
  mn_deferred : list Deferred;
  resumes : list (Path * SHAMapNodeID);
  draws : nat
}.

Definition set_root (root : YNode) (mn : MissingNodes) : MissingNodes :=
  mkMissing root (mn_cache mn) (mn_max mn) (missingNodes mn) (missingHashes mn) (mn_stack mn) (mn_deferred mn) (resumes mn) (draws mn).
Definition set_cache (cache : gset N) (mn : MissingNodes) : MissingNodes :=
  mkMissing (mn_root mn) cache (mn_max mn) (missingNodes mn) (missingHashes mn) (mn_stack mn) (mn_deferred mn) (resumes mn) (draws mn).
Definition set_stack (stack : list StackEntry) (mn : MissingNodes) : MissingNodes :=
  mkMissing (mn_root mn) (mn_cache mn) (mn_max mn) (missingNodes mn) (missingHashes mn) stack (mn_deferred mn) (resumes mn) (draws mn).
Definition set_deferred (deferred : list Deferred) (mn : MissingNodes) : MissingNodes :=
  mkMissing (mn_root mn) (mn_cache mn) (mn_max mn) (missingNodes mn) (missingHashes mn) (mn_stack mn) deferred (resumes mn) (draws mn).
Definition set_resumes (rs : list (Path * SHAMapNodeID)) (mn : MissingNodes) : MissingNodes :=
  mkMissing (mn_root mn) (mn_cache mn) (mn_max mn) (missingNodes mn) (missingHashes mn) (mn_stack mn) (mn_deferred mn) rs (draws mn).
Definition draw (mn : MissingNodes) : MissingNodes :=
  mkMissing (mn_root mn) (mn_cache mn) (mn_max mn) (missingNodes mn) (missingHashes mn) (mn_stack mn) (mn_deferred mn) (resumes mn) (S (draws mn)).
Definition add_missing (id : SHAMapNodeID) (h : N) (mn : MissingNodes) : MissingNodes :=
  mkMissing (mn_root mn) (mn_cache mn) (mn_max mn - 1) (missingNodes mn ++ [(id, h)]) ({[h]} ∪ missingHashes mn)
    (mn_stack mn) (mn_deferred mn) (resumes mn) (draws mn).

(** [touchIfExists]; an entry may have expired. *)
Definition touchIfExists (h : N) (mn : MissingNodes) : bool := bool_decide (h ∈ mn_cache mn) && negb (expired E (draws mn)).

Inductive Descent : Type := Found (child : YNode) (root : YNode) | Pending | Absent.
Definition descendAsync (root : YNode) (p : Path) (i : nat) (h : N) (child : option YNode) : Descent :=
  match child with
  | Some c => Found c root
  | None =>
      match (match cacheLookup E h with Some n => Some n | None => checkFilter h end) with
      | Some n => Found n (update_at root p (canonicalizeChild i n))
      | None => if backed_ E then Pending else Absent
      end
  end.

(** The loop over the branches of a node and, when it goes down, of the
    nodes below.  It is left with a node whose branches were all looked at,
    or ([true]) when enough missing nodes were found. *)
Fixpoint gmnProcessNodes (fuel : nat) (mn : MissingNodes) (se : StackEntry) : result (MissingNodes * StackEntry * bool) :=
  match fuel with
  | O => Throw "out of fuel"
  | S fuel =>
      let '(mkEntry node nodeID firstChild currentChild fullBelow) := se in
      if (currentChild <? 16)%nat then
        let i := ((firstChild + currentChild) mod 16)%nat in
        let next full := mkEntry node nodeID firstChild (S currentChild) full in
        match node_at (mn_root mn) node with
        | None => Throw "null node"
        | Some n =>
            match branch n i with
            | None => gmnProcessNodes fuel mn (next fullBelow)
            | Some (childHash, child) =>
                if bool_decide (childHash ∈ missingHashes mn) then gmnProcessNodes fuel mn (next false)
                else if backed_ E && touchIfExists childHash mn then gmnProcessNodes fuel (draw mn) (next fullBelow)
                else
                  let mn := draw mn in
                  match descendAsync (mn_root mn) node i childHash child with
                  | Pending => gmnProcessNodes fuel (set_deferred (mn_deferred mn ++ [mkDeferred node nodeID i]) mn) (next false)
                  | Absent =>
                      childID ← getChildNodeID nodeID i;
                      let mn := add_missing childID childHash mn in
                      if (mn_max mn <=? 0)%Z then Ok (mn, next false, true) else gmnProcessNodes fuel mn (next false)
                  | Found d root =>
                      let mn := set_root root mn in
                      match d with
                      | YInner _ _ =>
                          if isFullBelow d (generation E) then gmnProcessNodes fuel mn (next fullBelow)
                          else
                            childID ← getChildNodeID nodeID i;
                            gmnProcessNodes fuel (draw (set_stack (next fullBelow :: mn_stack mn) mn))
                              (mkEntry (node ++ [i]) childID (randInt E (draws mn)) 0 true)
                      | YLeaf _ _ => gmnProcessNodes fuel mn (next fullBelow)
                      end
                  end
            end
        end
      else
        if fullBelow then
          match node_at (mn_root mn) node with
          | None => Throw "null node"
          | Some n =>
              let mn := set_root (update_at (mn_root mn) node (setFullBelowGen (generation E))) mn in
              Ok (if backed_ E then set_cache ({[yhash n]} ∪ mn_cache mn) mn else mn, se, false)
          end
        else Ok (mn, se, false)
  end.

(** Reads that have finished, one after the other. *)
Fixpoint deferred_loop (reads : list Deferred) (mn : MissingNodes) : result MissingNodes :=
  match reads with
  | [] => Ok mn
  | mkDeferred parent parentID i :: reads =>
      match node_at (mn_root mn) parent with
      | None => Throw "null node"
      | Some n =>
          match branch n i with
          | None => Throw "empty branch"
          | Some (nodeHash, _) =>
              match fetchNodeFromDB nodeHash with
              | Some nodePtr =>
                  let mn := set_root (update_at (mn_root mn) parent (canonicalizeChild i nodePtr)) mn in
                  deferred_loop reads (set_resumes ((parent, parentID) :: filter (fun r => r.1 <> parent) (resumes mn)) mn)
              | None =>
                  if (0 <? mn_max mn)%Z && negb (bool_decide (nodeHash ∈ missingHashes mn)) then
                    childID ← getChildNodeID parentID i; deferred_loop reads (add_missing childID nodeHash mn)
                  else deferred_loop reads mn
              end
          end
      end
  end.
Definition gmnProcessDeferredReads (mn : MissingNodes) : result MissingNodes :=
  mn ← deferred_loop (finished E (draws mn) (mn_deferred mn)) mn; Ok (draw (set_deferred [] mn)).

Definition kMaxDefer : nat := 512.

(** The inner loop of [getMissingNodes]; [pos] is [None] for a null node. *)
Fixpoint traverse (fuel : nat) (mn : MissingNodes) (pos : option StackEntry) : result (MissingNodes * option StackEntry) :=
  match fuel with
  | O => Throw "out of fuel"
  | S fuel' =>
      match pos with
      | None => Ok (mn, None)
      | Some se =>
          if (kMaxDefer <? length (mn_deferred mn))%nat then Ok (mn, pos)
          else
            '(mn, se, enough) ← gmnProcessNodes fuel mn se;
            if (enough : bool) || (mn_max mn <=? 0)%Z then Ok (mn, if enough then Some se else None)
            else
              match mn_stack mn with
              | [] => traverse fuel' mn None
              | mkEntry node nodeID firstChild nextChild full :: stack =>
                  let was := se_fullBelow se in
                  let full := if (nextChild =? 0)%nat then true else full && was in
                  traverse fuel' (set_stack stack mn) (Some (mkEntry node nodeID firstChild nextChild full))
              end
      end
  end.

(** Nodes to look at again. *)
Definition resume_entry (acc : MissingNodes * list StackEntry) (r : Path * SHAMapNodeID) : MissingNodes * list StackEntry :=
  let '(mn, stack) := acc in
  match node_at (mn_root mn) r.1 with
  | Some n => if isFullBelow n (generation E) then acc else (draw mn, mkEntry r.1 r.2 (randInt E (draws mn)) 0 true :: stack)
  | None => acc
  end.
Definition recheck (mn : MissingNodes) : MissingNodes :=
  let '(mn, stack) := foldl resume_entry (mn, mn_stack mn) (resumeOrder E (draws mn) (resumes mn)) in
  draw (set_resumes [] (set_stack stack mn)).

Fixpoint missing_loop (fuel : nat) (mn : MissingNodes) (pos : option StackEntry) : result MissingNodes :=
  match fuel with
  | O => Throw "out of fuel"
  | S fuel' =>
      '(mn, pos) ← traverse fuel mn pos;
      mn ← (if (length (mn_deferred mn) =? 0)%nat then Ok mn else gmnProcessDeferredReads mn);
      if (mn_max mn <=? 0)%Z then Ok mn
      else
        match pos with
        | Some se => missing_loop fuel' mn (Some se)
        | None =>
            let mn := match mn_stack mn, resumes mn with [], _ :: _ => recheck mn | _, _ => mn end in
            match mn_stack mn with
            | [] => Ok mn
            | se :: stack => missing_loop fuel' (set_stack stack mn) (Some se)
            end
        end
  end.

Definition getMissingNodes (fuel : nat) (max : Z) (cache : gset N) (m : SyncMap) : result (list (SHAMapNodeID * N) * gset N * SyncMap) :=
  match root_ m with
  | YInner _ _ =>
      if isFullBelow (root_ m) (generation E) then Ok ([], cache, mkSync (root_ m) Modifying (gotNodes m))
      else
        let mn := mkMissing (root_ m) cache max [] ∅ [] [] [] 1 in
        mn ← missing_loop fuel mn (Some (mkEntry [] rootID (randInt E 0) 0 true));
        let state := if (length (missingNodes mn) =? 0)%nat then Modifying else state_ m in
        Ok (missingNodes mn, mn_cache mn, mkSync (mn_root mn) state (gotNodes m))
  | YLeaf _ _ => Ok ([], cache, mkSync (root_ m) Modifying (gotNodes m))
  end.
End sync.
