(* ===== verification/SHAMapSyncSpec.v ===== *)
(** * Trees that are being acquired are parts of the tree

    A tree whose nodes have the hashes their parents name is a part of the
    one tree with its root hash.  Adding nodes keeps it so; then the places of
    nodes, and the marks of those that have everything below them. *)

From S2P Require Import Prelude LedgerEntry Serializer SHAMapNodeID SHAMap SHAMapSpec SHAMapHash SHAMapProof SHAMapSync.
Local Open Scope N_scope.

Section part.
Context `{Digest}.
Abbreviation node := (SHAMapTreeNode Blob).

(** ** Parts *)

Inductive part : YNode -> node -> Prop :=
| part_leaf ty item : part (YLeaf ty item) (LeafNode ty item)
| part_inner bs gen ch :
    length bs = length ch ->
    (forall i, branch (YInner bs gen) i = None <-> getChild ch i = None) ->
    (forall i h o c, branch (YInner bs gen) i = Some (h, o) -> getChild ch i = Some c -> h = node_hash c) ->
    (forall i h y c, branch (YInner bs gen) i = Some (h, Some y) -> getChild ch i = Some c -> part y c) ->
    part (YInner bs gen) (InnerNode ch).

(** No branch is set with the hash zero. *)
Definition regular (n : StoredNode) : Prop :=
  match n with SInner bs => Forall (fun b => b <> Some 0) bs | SLeaf _ _ => True end.

Inductive consistent : YNode -> Prop :=
| cons_leaf ty item : parsed (SLeaf ty item) -> consistent (YLeaf ty item)
| cons_inner bs gen :
    parsed (stored (YInner bs gen)) -> regular (stored (YInner bs gen)) ->
    (forall i h y, branch (YInner bs gen) i = Some (h, Some y) -> yhash y = h) ->
    (forall i h y, branch (YInner bs gen) i = Some (h, Some y) -> consistent y) ->
    consistent (YInner bs gen).

Lemma part_hash y c : part y c -> yhash y = node_hash c.
Proof.
  intros Hp. destruct Hp as [ty item|bs gen ch Hl He Hh _]; [done|]. unfold yhash. rewrite <-stored_hash_of. f_equal. cbn [stored stored_of]. f_equal.
  change (map (option_map node_hash) ch) with (option_map node_hash <$> ch). apply list_eq. intros i. rewrite !list_lookup_fmap.
  specialize (He i). specialize (Hh i). cbn [branch] in He, Hh.
  destruct (bs !! i) as [b|] eqn:Eb, (ch !! i) as [o|] eqn:Ec; cbn in *; [|..]; try done.
  - f_equal. unfold getChild in *. rewrite Ec in He, Hh. cbn in He, Hh. destruct b as [[h y]|], o as [c|]; cbn; [|naive_solver..].
    f_equal. by eapply Hh.
  - apply lookup_lt_Some in Eb. apply lookup_ge_None in Ec. lia.
  - apply lookup_lt_Some in Ec. apply lookup_ge_None in Eb. lia.
Qed.

(** A node of the tree at a place: what is needed of it. *)
Definition proper (ty : SHAMapNodeType) (d p : N) (c : node) : Prop := wf ty d p c /\ unforgeable c /\ tx_keyed ty c.

Lemma proper_child ty d p ch i c : proper ty d p (InnerNode ch) -> getChild ch i = Some c -> proper ty (d + 1) (16 * p + N.of_nat i) c.
Proof.
  intros (Hwf & Hu & Hk) Hc. split_and!; [inversion Hwf; by eauto|by eapply unforgeable_child|].
  intros Hty it Hit. apply Hk; [done|]. by eapply elem_of_child.
Qed.
Lemma proper_nonzero ty d p ch i c : proper ty d p (InnerNode ch) -> getChild ch i = Some c -> node_hash c <> 0.
Proof. intros Hp Hc. destruct (proper_child _ _ _ _ _ _ Hp Hc) as (Hwf & Hu & _). eapply uf_nonzero; [done|lia|done]. Qed.

Lemma regular_branches ty d p bs ch i : proper ty d p (InnerNode ch) -> regular (SInner bs) -> iterChildren bs = child_hash <$> ch ->
  mjoin (bs !! i) = node_hash <$> getChild ch i.
Proof.
  intros Hp Hr E. apply (f_equal (fun l => l !! i)) in E. unfold iterChildren in E. rewrite !list_lookup_fmap in E.
  destruct (getChild ch i) as [c|] eqn:Hc.
  - pose proof (proper_nonzero _ _ _ _ _ _ Hp Hc) as Hnz. unfold getChild in Hc. destruct (ch !! i) as [o|]; [|done]. cbn in Hc. subst o.
    destruct (bs !! i) as [[h|]|] eqn:Eb; cbn in *; [|congruence|done]. congruence.
  - unfold getChild in Hc. destruct (bs !! i) as [[h|]|] eqn:Eb; cbn; [|done..]. exfalso.
    destruct (ch !! i) as [[c|]|]; cbn in *; [done| |done]. injection E as ->. eapply Forall_lookup_1 in Hr; [|exact Eb]. done.
Qed.

Lemma branch_stored bs gen i : mjoin ((option_map fst <$> bs) !! i) = fst <$> branch (YInner bs gen) i.
Proof. cbn [branch]. rewrite list_lookup_fmap. by destruct (bs !! i) as [[?|]|]. Qed.

Lemma consistent_part ty d p y c : proper ty d p c -> node_hash c <> 0 -> consistent y -> yhash y = node_hash c -> part y c.
Proof.
  intros Hp Hnz Hy. revert d p c Hp Hnz. induction Hy as [ty' item Hpar|bs gen Hpar Hreg Hh Hcons IH]; intros d p c Hp Hnz E;
    pose proof Hp as (Hwf & Hu & Hk); pose proof (stored_same _ _ _ _ _ Hwf Hu Hk Hpar Hnz E) as Hs; destruct c as [ty'' item''|ch];
    cbn [same_node stored] in Hs; [|done|done|].
  - destruct Hs as [-> ->]. apply part_leaf.
  - assert (forall i, fst <$> branch (YInner bs gen) i = node_hash <$> getChild ch i) as Hb.
    { intros i. rewrite <-branch_stored. by eapply regular_branches. }
    constructor.
    + apply (f_equal length) in Hs. unfold iterChildren in Hs. by rewrite !length_fmap in Hs.
    + intros i. specialize (Hb i). destruct (branch _ i), (getChild ch i); cbn in Hb; split; congruence.
    + intros i h o c Hi Hc. specialize (Hb i). rewrite Hi, Hc in Hb. cbn in Hb. congruence.
    + intros i h y c Hi Hc. eapply IH; [exact Hi|by eapply proper_child|by eapply proper_nonzero|]. rewrite (Hh _ _ _ Hi).
      specialize (Hb i). rewrite Hi, Hc in Hb. cbn in Hb. congruence.
Qed.

Lemma stored_fresh x : stored (fresh x) = x.
Proof.
  destruct x as [|bs]; [done|]. cbn. f_equal. rewrite <-list_fmap_compose. rewrite <-(list_fmap_id bs) at 2. apply list_fmap_ext. by intros ? [h|].
Qed.
Lemma fresh_consistent x : parsed x -> regular x -> consistent (fresh x).
Proof.
  intros Hp Hr. destruct x as [|bs]; [by constructor|]. pose proof (stored_fresh (SInner bs)) as E. cbn [fresh] in *.
  assert (forall i h y, branch (YInner (option_map (fun h => (h, None)) <$> bs) 0) i = Some (h, Some y) -> False) as Hno.
  { intros i h y Hi. cbn in Hi. rewrite list_lookup_fmap in Hi. by destruct (bs !! i) as [[?|]|]. }
  constructor; [by rewrite E|by rewrite E|..]; intros i h y Hi; by apply Hno in Hi.
Qed.
Lemma stored_ok_parsed x : stored_ok x -> parsed x /\ regular x.
Proof.
  destruct x as [[] item|bs]; cbn; [done|by intros [_ ?]|by intros [_ ?]|by intros [_ [_ ?]]|]. intros [Hl Hf]. split; [split; [done|]|].
  - unfold iterChildren. apply Forall_fmap. eapply Forall_impl; [exact Hf|]. intros [h|]; cbn; [by intros [_ ?]|done].
  - eapply Forall_impl; [exact Hf|]. by intros [h|] Hh; cbn in *; [intros [= ->]; by destruct Hh|].
Qed.

(** ** Places *)

Fixpoint tnode_at (c : node) (p : Path) : option node :=
  match p with
  | [] => Some c
  | i :: p => match c with InnerNode ch => getChild ch i ≫= fun c => tnode_at c p | LeafNode _ _ => None end
  end.

Lemma tnode_at_app c p q : tnode_at c (p ++ q) = tnode_at c p ≫= fun c => tnode_at c q.
Proof. revert c. induction p as [|i p IH]; intros [|ch]; [done..|]. cbn. destruct (getChild ch i); [apply IH|done]. Qed.
Lemma tnode_at_snoc c p ch i : tnode_at c p = Some (InnerNode ch) -> tnode_at c (p ++ [i]) = getChild ch i.
Proof. intros E. rewrite tnode_at_app, E. cbn. by destruct (getChild ch i). Qed.
Lemma node_at_app n p q : node_at n (p ++ q) = node_at n p ≫= fun n => node_at n q.
Proof.
  revert n. induction p as [|i p IH]; intros n; [done|]. cbn [app node_at]. destruct (branch n i) as [[h [c|]]|]; [apply IH|done..].
Qed.
Lemma node_at_snoc n p n' i h c : node_at n p = Some n' -> branch n' i = Some (h, Some c) -> node_at n (p ++ [i]) = Some c.
Proof. intros E Eb. rewrite node_at_app, E. cbn. by rewrite Eb. Qed.

Lemma proper_at ty d q c p c' : proper ty d q c -> tnode_at c p = Some c' -> exists q', proper ty (d + N.of_nat (length p)) q' c'.
Proof.
  revert d q c. induction p as [|i p IH]; intros d q c Hp Hc.
  - injection Hc as <-. exists q. cbn [length]. by rewrite N.add_0_r.
  - cbn in Hc. destruct c as [|ch]; [done|]. destruct (getChild ch i) as [c1|] eqn:E; [|done]. cbn in Hc.
    destruct (IH _ _ _ (proper_child _ _ _ _ _ _ Hp E) Hc) as [q' Hq]. exists q'. cbn [length].
    by replace (d + N.of_nat (S (length p))) with (d + 1 + N.of_nat (length p)) by lia.
Qed.
Lemma proper_depth ty d q ch : proper ty d q (InnerNode ch) -> d < 64 /\ length ch = kBranchFactor.
Proof. intros (Hwf & _). by inversion Hwf. Qed.

Lemma part_branch_inv bs gen ch i h o : part (YInner bs gen) (InnerNode ch) -> branch (YInner bs gen) i = Some (h, o) ->
  exists c, getChild ch i = Some c /\ h = node_hash c /\ forall y, o = Some y -> part y c.
Proof.
  intros Hp Hb. inversion Hp as [|? ? ? Hl He Hh Hc]; subst. destruct (getChild ch i) as [c|] eqn:E.
  - exists c. split_and!; [done|by eapply Hh|]. intros y ->. by eapply Hc.
  - apply He in E. congruence.
Qed.
Lemma part_branch_some n ch i c : part n (InnerNode ch) -> getChild ch i = Some c -> exists o, branch n i = Some (node_hash c, o).
Proof.
  intros Hp Hc. inversion Hp as [|bs gen ? Hl He Hh _]; subst. destruct (branch (YInner bs gen) i) as [[h o]|] eqn:E.
  - exists o. by rewrite (Hh _ _ _ _ E Hc).
  - apply He in E. congruence.
Qed.
Lemma part_branch_none n ch i : part n (InnerNode ch) -> getChild ch i = None -> branch n i = None.
Proof. intros Hp Hc. inversion Hp as [|bs gen ? Hl He Hh _]; subst. by apply He. Qed.

Lemma part_at y c p y' : part y c -> node_at y p = Some y' -> exists c', tnode_at c p = Some c' /\ part y' c'.
Proof.
  revert y c. induction p as [|i p IH]; intros y c Hp Hy.
  - injection Hy as <-. by exists c.
  - cbn in Hy. destruct (branch y i) as [[h [c1|]]|] eqn:E; [|done..]. destruct Hp as [|bs gen ch Hl He Hh Hc]; [done|].
    destruct (part_branch_inv bs gen ch i h (Some c1)) as (c' & E' & _ & Hp'); [by constructor|done|]. cbn. rewrite E'. cbn. by apply (IH c1); [apply Hp'|].
Qed.
Lemma part_inner_at y c p bs gen : part y c -> node_at y p = Some (YInner bs gen) -> exists ch, tnode_at c p = Some (InnerNode ch) /\ part (YInner bs gen) (InnerNode ch).
Proof. intros Hp Hy. destruct (part_at _ _ _ _ Hp Hy) as (c' & E & Hp'). inversion Hp'; subst. by eexists. Qed.

(** ** Changes *)

Lemma branch_insert bs gen i b j : (i < length bs)%nat -> branch (YInner (<[i := b]> bs) gen) j = if decide (i = j) then b else branch (YInner bs gen) j.
Proof.
  intros Hi. cbn [branch]. case_decide as E; [subst j; by rewrite list_lookup_insert_eq|by rewrite list_lookup_insert_ne].
Qed.
Lemma branch_lt bs gen i x : branch (YInner bs gen) i = Some x -> (i < length bs)%nat.
Proof. intros Hb. apply lookup_lt_is_Some. cbn in Hb. destruct (bs !! i); [by eexists|done]. Qed.
Lemma branch_lookup bs gen i x : branch (YInner bs gen) i = Some x -> bs !! i = Some (Some x).
Proof. cbn. destruct (bs !! i) as [[?|]|]; cbn; congruence. Qed.

Lemma part_set bs gen ch i h o y c : part (YInner bs gen) (InnerNode ch) -> branch (YInner bs gen) i = Some (h, o) -> getChild ch i = Some c -> part y c ->
  part (YInner (<[i := Some (h, Some y)]> bs) gen) (InnerNode ch).
Proof.
  intros Hp Hb Hc Hy. pose proof (branch_lt _ _ _ _ Hb) as Hlt. inversion Hp as [|? ? ? Hl He Hh Hch]; subst.
  constructor; [by rewrite length_insert|..].
  - intros j. rewrite branch_insert by done. case_decide as E; [subst j; split; congruence|apply He].
  - intros j h' o' c'. rewrite branch_insert by done. case_decide as E; [|apply Hh]. subst j. intros [= <- _] Hc'. by eapply Hh.
  - intros j h' y' c'. rewrite branch_insert by done. case_decide as E; [|apply Hch]. subst j. intros [= _ <-] Hc'. congruence.
Qed.

Lemma node_at_update n p f n' : node_at n p = Some n' -> node_at (update_at n p f) p = Some (f n').
Proof.
  revert n. induction p as [|i p IH]; intros n Hn; [by injection Hn as <-|]. cbn in Hn. destruct (branch n i) as [[h [c|]]|] eqn:E; [|done..].
  destruct n as [|bs gen]; [done|]. pose proof (branch_lt _ _ _ _ E) as Hlt. cbn [update_at]. rewrite (branch_lookup _ _ _ _ E).
  cbn [node_at]. rewrite branch_insert, decide_True by done. by apply IH.
Qed.
Lemma part_update n c p f n' c' : part n c -> node_at n p = Some n' -> tnode_at c p = Some c' -> part (f n') c' -> part (update_at n p f) c.
Proof.
  revert n c. induction p as [|i p IH]; intros n c Hp Hn Hc Hf; [injection Hn as ->; by injection Hc as ->|].
  cbn in Hn. destruct (branch n i) as [[h [c1|]]|] eqn:E; [|done..]. destruct n as [|bs gen]; [done|]. destruct c as [|ch]; [inversion Hp|].
  cbn in Hc. destruct (part_branch_inv _ _ _ _ _ _ Hp E) as (c2 & E2 & _ & Hp2). rewrite E2 in Hc. cbn in Hc. cbn [update_at].
  rewrite (branch_lookup _ _ _ _ E). eapply part_set; [done|exact E|exact E2|]. eapply IH; [by apply Hp2|done..].
Qed.

(** Nodes not below the one that is changed: the same, but for nodes further down. *)
Lemma node_at_way n p f q y : node_at n q = Some y -> (exists r, q = p ++ r) \/
  exists y', node_at (update_at n p f) q = Some y' /\ stored y' = stored y /\
    (forall j h, branch y j = Some (h, None) -> branch y' j = Some (h, None)) /\ forall g, isFullBelow y' g = isFullBelow y g.
Proof.
  revert n q. induction p as [|i p IH]; intros n q Hq; [left; by exists q|]. destruct q as [|j q].
  - injection Hq as <-. right. destruct n as [|bs gen]; [by eexists|]. cbn [update_at node_at].
    destruct (bs !! i) as [[[h [c|]]|]|] eqn:E; [|by eexists..]. eexists. split; [done|]. split_and!; [| |done].
    + cbn. f_equal. rewrite list_fmap_insert. apply list_insert_id. rewrite list_lookup_fmap, E. done.
    + intros j h' Hj. rewrite branch_insert by (by eapply lookup_lt_Some). case_decide as Eij; [|done]. subst j. cbn in Hj. rewrite E in Hj. done.
  - cbn in Hq. destruct (branch n j) as [[h [c|]]|] eqn:E; [|done..]. destruct n as [|bs gen]; [done|]. pose proof (branch_lookup _ _ _ _ E) as El.
    destruct (decide (i = j)) as [->|Hne].
    + cbn [update_at]. rewrite El. destruct (IH c q Hq) as [[r ->]|(y' & Hy & Hrest)]; [left; by exists r|right]. exists y'. split; [|done].
      cbn [node_at]. rewrite branch_insert, decide_True by (done || by eapply branch_lt). done.
    + right. exists y. split; [|done]. cbn [update_at]. destruct (bs !! i) as [[[h' [c'|]]|]|] eqn:Ei; cbn [node_at]; rewrite ?E; try done.
      rewrite branch_insert, decide_False by (done || by eapply lookup_lt_Some). by rewrite E.
Qed.

(** *** Growth *)

Definition grows (n n' : YNode) : Prop := forall p y, node_at n p = Some y -> exists y', node_at n' p = Some y' /\ stored y' = stored y.
Lemma grows_refl n : grows n n.
Proof. intros p y Hy. by exists y. Qed.
Lemma grows_trans n1 n2 n3 : grows n1 n2 -> grows n2 n3 -> grows n1 n3.
Proof. intros H1 H2 p y Hy. destruct (H1 p y Hy) as (y2 & Hy2 & E2). destruct (H2 p y2 Hy2) as (y3 & Hy3 & E3). exists y3. split; [done|congruence]. Qed.

(** A change that keeps the node and the children it has. *)
Definition keeps (f : YNode -> YNode) (n : YNode) : Prop :=
  stored (f n) = stored n /\ forall i h c, branch n i = Some (h, Some c) -> branch (f n) i = Some (h, Some c).
Lemma grows_update n p f n' : node_at n p = Some n' -> keeps f n' -> grows n (update_at n p f).
Proof.
  intros Hn [Hs Hk] q y Hq. destruct (node_at_way n p f q y Hq) as [[r ->]|(y' & Hy & Es & _)]; [|by exists y'].
  rewrite node_at_app, Hn in Hq. cbn in Hq. rewrite node_at_app, (node_at_update _ _ _ _ Hn). cbn.
  destruct r as [|i r]; [injection Hq as <-; by eexists|]. cbn in *. destruct (branch n' i) as [[h [c|]]|] eqn:E; [|done..].
  rewrite (Hk _ _ _ E). by exists y.
Qed.

Lemma keeps_hook i c n : keeps (canonicalizeChild i c) n.
Proof.
  destruct n as [|bs gen]; [by split|]. unfold keeps. cbn [canonicalizeChild]. destruct (bs !! i) as [[[h [c'|]]|]|] eqn:E; [by split| |by split..]. split.
  - cbn. f_equal. rewrite list_fmap_insert. apply list_insert_id. rewrite list_lookup_fmap, E. done.
  - intros j h' c' Hj. rewrite branch_insert by (by eapply lookup_lt_Some). case_decide as Eij; [|done]. subst j. cbn in Hj. by rewrite E in Hj.
Qed.
Lemma keeps_mark g n : keeps (setFullBelowGen g) n.
Proof. by destruct n. Qed.

Lemma part_hook n ch i c y h o : part n (InnerNode ch) -> branch n i = Some (h, o) -> getChild ch i = Some c -> part y c ->
  part (canonicalizeChild i y n) (InnerNode ch).
Proof.
  intros Hp Hb Hc Hy. destruct n as [|bs gen]; [done|]. cbn [canonicalizeChild]. rewrite (branch_lookup _ _ _ _ Hb).
  destruct o; [done|]. by eapply part_set.
Qed.
Lemma part_mark n c g : part n c -> part (setFullBelowGen g n) c.
Proof. intros [|bs gen ch ? ? ? ?]; by constructor. Qed.

Lemma branch_hook n i y h : branch n i = Some (h, None) -> branch (canonicalizeChild i y n) i = Some (h, Some y).
Proof.
  destruct n as [|bs gen]; [done|]. intros Hb. cbn [canonicalizeChild]. rewrite (branch_lookup _ _ _ _ Hb).
  by rewrite branch_insert, decide_True by (done || by eapply branch_lt).
Qed.
Lemma branch_hook_ne n i j y : i <> j -> branch (canonicalizeChild i y n) j = branch n j.
Proof.
  intros Hne. destruct n as [|bs gen]; [done|]. cbn [canonicalizeChild]. destruct (bs !! i) as [[[h [c'|]]|]|] eqn:E; [done| |done..].
  by rewrite branch_insert, decide_False by (done || by eapply lookup_lt_Some).
Qed.
End part.

(** * Adding nodes keeps a part of the tree

    What the rest of the server promises, and what [addRootNode] and
    [addKnownNode] do to a tree that is being acquired. *)

Section add.
Context `{Digest} (E : Env).
Abbreviation node := (SHAMapTreeNode Blob).

(** ** The rest of the server *)

(** What is stored under a hash is a node with this hash, in prefixed form. *)
Definition stores (b : Blob) (h : N) : Prop :=
  exists n, b = data_ (serializeWithPrefix n empty_serializer) /\ stored_ok n /\ stored_hash n = h.

Definition resident (h : N) : Prop := is_Some (fetchNodeNT E h).

Record env_ok : Prop := {
  env_gen : generation E <> 0;
  env_cache : forall h y, cacheLookup E h = Some y -> yhash y = h /\ consistent y;
  env_store : forall h b, nodeObject E h = Some b -> stores b h;
  env_filter : forall get h b, syncFilter E = Some get -> get h = Some b -> stores b h;
  env_reads : forall k l, finished E k l ≡ₚ l;
  env_resumes : forall k l, resumeOrder E k l ≡ₚ l;
  (** cached nodes that are marked have everything below them resident *)
  env_marks : forall h y p y' q c d, cacheLookup E h = Some y -> node_at y p = Some y' -> isFullBelow y' (generation E) = true ->
    part y' c -> tnode_at c q = Some d -> resident (node_hash d)
}.

Context (HE : env_ok).

Lemma finishFetch_sound b h y : stores b h -> finishFetch (Some b) = Some y -> yhash y = h /\ consistent y /\ exists x, y = fresh x.
Proof.
  intros (n & -> & Hok & <-). cbn [finishFetch]. rewrite prefix_roundtrip by done. intros [= <-].
  destruct (stored_ok_parsed _ Hok). unfold yhash. rewrite stored_fresh. split_and!; [done|by apply fresh_consistent|by eexists].
Qed.
Lemma fetchNodeFromDB_sound h y : fetchNodeFromDB E h = Some y -> yhash y = h /\ consistent y /\ exists x, y = fresh x.
Proof. unfold fetchNodeFromDB. destruct (nodeObject E h) as [b|] eqn:Eb; [|done]. apply finishFetch_sound. by apply HE. Qed.
Lemma checkFilter_sound h y : checkFilter E h = Some y -> yhash y = h /\ consistent y /\ exists x, y = fresh x.
Proof.
  unfold checkFilter. destruct (syncFilter E) as [get|] eqn:Ef; [|done]. destruct (get h) as [b|] eqn:Eb; [|done].
  apply finishFetch_sound. by eapply (env_filter HE).
Qed.
Lemma fetchNodeNT_sound h y : fetchNodeNT E h = Some y -> yhash y = h /\ consistent y.
Proof.
  unfold fetchNodeNT. destruct (cacheLookup E h) as [n|] eqn:Ec; [intros [= <-]; by apply HE|].
  destruct (if backed_ E then fetchNodeFromDB E h else None) as [n|] eqn:Ed.
  - intros [= <-]. destruct (backed_ E); [|done]. by apply fetchNodeFromDB_sound in Ed as (? & ? & _).
  - intros (? & ? & _)%checkFilter_sound. done.
Qed.

Lemma sound_part ty d p c y : proper ty d p c -> node_hash c <> 0 -> yhash y = node_hash c /\ consistent y -> part y c.
Proof. intros Hp Hnz [Eh Hc]. by eapply consistent_part. Qed.

Lemma part_stored y c : part y c -> stored y = stored_of c.
Proof.
  intros Hp. destruct Hp as [ty item|bs gen ch Hl He Hh _]; [done|]. cbn [stored stored_of]. f_equal.
  change (map (option_map node_hash) ch) with (option_map node_hash <$> ch). apply list_eq. intros i. rewrite !list_lookup_fmap.
  specialize (He i). specialize (Hh i). cbn [branch] in He, Hh. unfold getChild in He, Hh.
  destruct (bs !! i) as [b|] eqn:Eb, (ch !! i) as [o|] eqn:Ec; cbn in *; [|..]; try done.
  - f_equal. destruct b as [[h y]|], o as [c|]; cbn; [|naive_solver..]. f_equal. by eapply Hh.
  - apply lookup_lt_Some in Eb. apply lookup_ge_None in Ec. lia.
  - apply lookup_lt_Some in Ec. apply lookup_ge_None in Eb. lia.
Qed.

(** ** A node that came *)

(** Bytes from the wire that set no branch with the hash zero. *)
Definition regular_wire (raw : Blob) : Prop := Forall is_byte raw /\ forall x, makeFromWire raw = Ok (Some x) -> regular x.
Definition sound_wire (raw : Blob) : Prop := forall x, makeFromWire raw = Ok (Some x) -> parsed x /\ regular x.
Lemma regular_sound raw : regular_wire raw -> sound_wire raw.
Proof. intros [Hb Hr] x Ex. split; [by eapply makeFromWire_parsed|by apply Hr]. Qed.

Lemma take_node_part ty d p c raw target id n invalid r : proper ty d p c -> node_hash c <> 0 -> depth_ id = d -> sound_wire raw ->
  take_node raw (node_hash c) target id = (n, invalid, r) -> invalid = false /\ forall y, n = Some y -> part y c /\ id = target /\ r = Ok Useful.
Proof.
  intros Hp Hnz Hd Hreg E'. unfold take_node in E'. destruct (makeFromWire raw) as [[x|]|] eqn:Ew; [|by injection E' as <- <- <-..].
  destruct (N.eqb_spec (stored_hash x) (node_hash c)) as [Eh|]; [|by injection E' as <- <- <-]. cbn [negb] in E'.
  destruct (Hreg _ Ew) as [Hpar Hrx]. pose proof Hp as (Hwf & Hu & Hk).
  pose proof (stored_same _ _ _ _ _ Hwf Hu Hk Hpar Hnz Eh) as Hsame.
  assert ((kLeafDepth <? depth_ id) || ((match x with SInner _ => true | SLeaf _ _ => false end) && (depth_ id =? kLeafDepth)) = false) as Hdep.
  { destruct x as [ty' it'|bs], c as [ty'' it|ch]; cbn [same_node] in Hsame; try done; inversion Hwf; subst; unfold kLeafDepth in *; cbn [andb].
    - rewrite (proj2 (N.ltb_ge _ _)) by lia. done.
    - rewrite (proj2 (N.ltb_ge _ _)), (proj2 (N.eqb_neq _ _)) by lia. done. }
  destruct (match x with SLeaf _ item => _ | SInner _ => false end); [by injection E' as <- <- <-|]. rewrite Hdep in E'.
  case_bool_decide as Eid; cbn [negb] in E'; [|by injection E' as <- <- <-]. injection E' as <- <- <-. split; [done|]. intros y [= <-].
  split; [|done]. eapply consistent_part; [exact Hp|done|by apply fresh_consistent|]. unfold yhash. by rewrite stored_fresh.
Qed.

(** ** The walk *)

Lemma grows_set bs gen i h o c1 : branch (YInner bs gen) i = Some (h, o) -> (forall c0, o = Some c0 -> grows c0 c1) ->
  grows (YInner bs gen) (YInner (<[i := Some (h, Some c1)]> bs) gen).
Proof.
  intros Hb Hg p y Hy. pose proof (branch_lt _ _ _ _ Hb) as Hlt. destruct p as [|j p].
  - injection Hy as <-. eexists. split; [done|]. cbn. f_equal. rewrite list_fmap_insert. apply list_insert_id.
    rewrite list_lookup_fmap, (branch_lookup _ _ _ _ Hb). done.
  - cbn [node_at] in *. rewrite branch_insert by done. case_decide as Eij; [subst j|by exists y].
    rewrite Hb in Hy. destruct o as [c0|]; [|done]. by apply (Hg c0).
Qed.
Lemma grows_hook n i c : grows n (canonicalizeChild i c n).
Proof. apply (grows_update n [] (canonicalizeChild i c) n); [done|apply keeps_hook]. Qed.

Lemma add_walk_part ty q c curr id target raw fuel touched curr' got invalid r :
  proper ty (depth_ id) q c -> part curr c -> masked id -> sound_wire raw ->
  add_walk E fuel touched curr id target raw = (curr', got, invalid, r) ->
  part curr' c /\ grows curr curr' /\ invalid = false /\
  (forall h n, got = Some (h, n) -> exists p c', tnode_at c p = Some c' /\ part n c' /\ h = node_hash c').
Proof.
  intros Hpr Hp Hm Hraw. revert q c curr id curr' got invalid r Hpr Hp Hm.
  induction fuel as [|fuel IH]; intros q c curr id curr' got invalid r Hpr Hp Hm E'; cbn [add_walk] in E';
    [injection E' as <- <- <- <-; by split_and!; [|apply grows_refl| |]|].
  destruct curr as [ty' item|bs gen]; [injection E' as <- <- <- <-; by split_and!; [|apply grows_refl| |]|].
  destruct (_ || _); [injection E' as <- <- <- <-; by split_and!; [|apply grows_refl| |]|].
  set (i := selectBranch id (id_ target)) in *.
  destruct (branch (YInner bs gen) i) as [[childHash child]|] eqn:Eb; [|injection E' as <- <- <- <-; by split_and!; [|apply grows_refl| |]].
  destruct (touched childHash); [injection E' as <- <- <- <-; by split_and!; [|apply grows_refl| |]|].
  destruct c as [|ch]; [inversion Hp|]. destruct (part_branch_inv _ _ _ _ _ _ Hp Eb) as (c & Hc & -> & Hpc).
  pose proof (proper_child _ _ _ _ _ _ Hpr Hc) as Hprc. pose proof (proper_nonzero _ _ _ _ _ _ Hpr Hc) as Hnz.
  destruct (proper_depth _ _ _ _ Hpr) as [Hd Hlen]. pose proof (getChild_lt _ _ _ Hc) as Hi. rewrite Hlen in Hi. unfold kBranchFactor in Hi.
  assert (forall y, match child with Some c => Some c | None => fetchNodeNT E (node_hash c) end = Some y -> part y c) as Hy.
  { intros y Ey. destruct child as [c0|]; [injection Ey as <-; by apply Hpc|]. eapply sound_part; [exact Hprc|done|by apply fetchNodeNT_sound]. }
  destruct (getChildNodeID_Ok id i Hm Hd Hi) as (childID & Ecid & Hcm & Hcd). rewrite Ecid in E'.
  destruct (match child with Some c => Some c | None => fetchNodeNT E (node_hash c) end) as [c1|] eqn:Ec.
  - destruct (add_walk E fuel touched c1 childID target raw) as [[[c1' got1] invalid1] r1] eqn:Ew. injection E' as <- <- <- <-.
    rewrite <-Hcd in Hprc. destruct (IH _ _ _ _ _ _ _ _ Hprc (Hy c1 eq_refl) Hcm Ew) as (Hp1 & Hg1 & Hi1 & Hgot). split_and!.
    + by eapply part_set.
    + eapply grows_set; [exact Eb|]. intros c0 ->. by injection Ec as ->.
    + done.
    + intros h n Hgn. destruct (Hgot h n Hgn) as (p & c' & Hc' & Hpn & Eh). exists (i :: p), c'. cbn. by rewrite Hc.
  - destruct (take_node raw (node_hash c) target childID) as [[n invalid1] r1] eqn:Et. rewrite <-Hcd in Hprc.
    destruct (take_node_part _ _ _ _ _ _ _ _ _ _ Hprc Hnz eq_refl Hraw Et) as [-> Hn].
    destruct n as [n|]; injection E' as <- <- <- <-; [|by split_and!; [|apply grows_refl| |]].
    destruct (Hn n eq_refl) as (Hpn & _). split_and!.
    + change (part (canonicalizeChild i n (YInner bs gen)) (InnerNode ch)). by eapply part_hook.
    + apply (grows_hook (YInner bs gen) i n).
    + done.
    + intros h n' [= <- <-]. exists [i], c. cbn. by rewrite Hc.
Qed.
End add.

(** * Places in a tree

    A node's hash and its identifier tell where in the tree it is. *)

Section places.
Context `{Digest}.
Abbreviation node := (SHAMapTreeNode Blob).

(** ** Hashes *)

Lemma proper_parsed ty d p c : proper ty d p c -> parsed (stored_of c).
Proof.
  intros (Hwf & Hu & Hk). destruct c as [ty' item|ch].
  - destruct (wf_leaf_inv _ _ _ _ _ Hwf) as (-> & Hty & Hkey). destruct ty; [done| |done|done]. cbn [stored_of parsed]. apply Hk; [done|by left].
  - destruct (unforgeable_children _ _ _ _ Hwf Hu) as [Hf Hl]. cbn [stored_of parsed]. rewrite length_map. split; [done|]. by rewrite iterChildren_stored.
Qed.

Lemma hash_tree ty d p c d' p' c' : proper ty d p c -> proper ty d' p' c' -> node_hash c <> 0 -> node_hash c' = node_hash c -> c' = c.
Proof.
  intros Hp. pose proof (proj1 Hp) as Hwf. revert d' p' c' Hp. induction Hwf as [d p item Hty Hd Hkey Hpre|d p ch Hd Hl Hch IH Hbr];
    intros d' p' c' Hp Hp' Hnz E; pose proof Hp as (Hwf & Hu & Hk);
    pose proof (stored_same _ _ _ _ _ Hwf Hu Hk (proper_parsed _ _ _ _ Hp') Hnz ltac:(by rewrite stored_hash_of)) as Hs;
    destruct c' as [ty' item'|ch']; cbn [stored_of same_node] in Hs; [|done|done|].
  - by destruct Hs as [-> ->].
  - rewrite iterChildren_stored in Hs. f_equal. destruct (proper_depth _ _ _ _ Hp') as [_ Hl']. apply children_eq; [congruence|].
    intros i. apply (f_equal (fun l => l !! i)) in Hs. rewrite !list_lookup_fmap in Hs.
    assert (child_hash (getChild ch' i) = child_hash (getChild ch i)) as Ei.
    { unfold getChild. destruct (ch' !! i), (ch !! i); cbn in *; congruence. }
    destruct (getChild ch' i) as [c1|] eqn:E1, (getChild ch i) as [c2|] eqn:E2; cbn in Ei; [|..|done].
    + f_equal. eapply IH; [exact E2|eapply proper_child; [exact Hp|exact E2]|eapply proper_child; [exact Hp'|exact E1]|eapply proper_nonzero; [exact Hp|exact E2]|done].
    + exfalso. by eapply (proper_nonzero _ _ _ ch'); [exact Hp'|exact E1|].
    + exfalso. by eapply (proper_nonzero _ _ _ ch); [exact Hp|exact E2|].
Qed.

Lemma proper_item ty d p c : proper ty d p c -> node_hash c <> 0 -> exists it, it ∈ items c.
Proof.
  intros Hp. pose proof (proj1 Hp) as Hwf. revert Hp. induction Hwf as [d p item Hty Hd Hkey Hpre|d p ch Hd Hl Hch IH Hbr]; intros Hp Hnz; [exists item; by left|].
  assert (exists i c, getChild ch i = Some c) as (i & c & Hc).
  { rewrite node_hash_inner in Hnz. destruct (Nat.eqb_spec (getBranchCount ch) 0) as [|Hne]; [done|]. unfold getBranchCount in Hne.
    destruct (filter _ ch) as [|o l] eqn:Ef; [done|]. assert (o ∈ filter (fun c => is_Some c) ch) as Ho by (rewrite Ef; by left).
    apply list_elem_of_filter in Ho as [[c ->] Ho]. apply list_elem_of_lookup in Ho as [i Hi]. exists i, c. unfold getChild. by rewrite Hi. }
  destruct (IH i c Hc (proper_child _ _ _ _ _ _ Hp Hc) (proper_nonzero _ _ _ _ _ _ Hp Hc)) as [it Hit]. exists it. by eapply elem_of_child.
Qed.

(** ** The way to an item *)

Definition follows (key d : N) (p : Path) : Prop := forall k i, p !! k = Some i -> i = N.to_nat (nib key (d + N.of_nat k)).

Lemma follows_cons key d i p : follows key d (i :: p) <-> i = N.to_nat (nib key d) /\ follows key (d + 1) p.
Proof.
  unfold follows. split.
  - intros Hf. split; [specialize (Hf 0%nat i eq_refl); cbn in Hf; by rewrite N.add_0_r in Hf|].
    intros k j Hk. specialize (Hf (S k) j Hk). by replace (d + 1 + N.of_nat k) with (d + N.of_nat (S k)) by lia.
  - intros [Hi Hf] [|k] j Hk; [cbn; injection Hk as <-; by rewrite N.add_0_r|]. cbn in Hk. specialize (Hf k j Hk).
    by replace (d + N.of_nat (S k)) with (d + 1 + N.of_nat k) by lia.
Qed.

Lemma place_follows ty d q c p c' it : proper ty d q c -> tnode_at c p = Some c' -> it ∈ items c' -> follows (item_key it) d p /\ it ∈ items c.
Proof.
  revert d q c. induction p as [|i p IH]; intros d q c Hp Hc Hit.
  - injection Hc as <-. split; [by intros k i Hk|done].
  - cbn in Hc. destruct c as [|ch]; [done|]. destruct (getChild ch i) as [c1|] eqn:E1; [|done]. cbn in Hc.
    destruct (IH _ _ _ (proper_child _ _ _ _ _ _ Hp E1) Hc Hit) as [Hf Hin]. split; [|by eapply elem_of_child].
    apply follows_cons. split; [|done]. rewrite (wf_nib _ _ _ _ _ _ _ (proj1 Hp) E1 Hin). by rewrite Nat2N.id.
Qed.

Lemma node_count_child (ch : list (option node)) i c : getChild ch i = Some c -> (node_count c < node_count (InnerNode ch))%nat.
Proof.
  unfold getChild. destruct (ch !! i) as [o|] eqn:E; [|done]. cbn. intros ->. cbn [node_count]. apply list_elem_of_split_length in E as (l1 & l2 & -> & _).
  rewrite map_app, list_sum_app. cbn. lia.
Qed.
Lemma node_count_at c p c' : tnode_at c p = Some c' -> p <> [] -> (node_count c' < node_count c)%nat.
Proof.
  revert c. induction p as [|i p IH]; intros c Hc Hne; [done|]. cbn in Hc. destruct c as [|ch]; [done|]. destruct (getChild ch i) as [c1|] eqn:E1; [|done]. cbn in Hc.
  pose proof (node_count_child _ _ _ E1). destruct p as [|j p]; [injection Hc as <-; done|]. specialize (IH c1 Hc ltac:(done)). lia.
Qed.

Lemma follows_prefix key d p q : follows key d p -> follows key d q -> (length p <= length q)%nat -> exists r, q = p ++ r.
Proof.
  revert d q. induction p as [|i p IH]; intros d q Hp Hq Hl; [by exists q|]. destruct q as [|j q]; [cbn in Hl; lia|].
  apply follows_cons in Hp as [-> Hp], Hq as [-> Hq]. destruct (IH _ _ Hp Hq) as [r ->]; [cbn in Hl; lia|]. by exists r.
Qed.

(** The place of a node is told by its hash. *)
Lemma hash_place ty c p1 c1 p2 c2 : proper ty 0 0 c -> tnode_at c p1 = Some c1 -> tnode_at c p2 = Some c2 ->
  node_hash c1 <> 0 -> node_hash c1 = node_hash c2 -> p1 = p2.
Proof.
  intros Hp H1 H2 Hnz E. destruct (proper_at _ _ _ _ _ _ Hp H1) as [q1 Hp1]. destruct (proper_at _ _ _ _ _ _ Hp H2) as [q2 Hp2].
  pose proof (hash_tree _ _ _ _ _ _ _ Hp1 Hp2 Hnz (eq_sym E)) as ->. destruct (proper_item _ _ _ _ Hp1 Hnz) as [it Hit].
  destruct (place_follows _ _ _ _ _ _ _ Hp H1 Hit) as [F1 _]. destruct (place_follows _ _ _ _ _ _ _ Hp H2 Hit) as [F2 _].
  destruct (decide (length p1 <= length p2)%nat) as [Hl|Hl].
  - destruct (follows_prefix _ _ _ _ F1 F2 Hl) as [r ->]. rewrite tnode_at_app, H1 in H2. cbn in H2.
    destruct r as [|i r]; [by rewrite app_nil_r|]. apply node_count_at in H2; [lia|done].
  - destruct (follows_prefix _ _ _ _ F2 F1 ltac:(lia)) as [r ->]. rewrite tnode_at_app, H2 in H1. cbn in H1.
    destruct r as [|i r]; [by rewrite app_nil_r|]. apply node_count_at in H1; [lia|done].
Qed.

(** ** Identifiers *)

Fixpoint id_at (nid : SHAMapNodeID) (p : Path) : result SHAMapNodeID :=
  match p with [] => Ok nid | i :: p => c ← getChildNodeID nid i; id_at c p end.

Lemma id_at_snoc nid p nid' i : id_at nid p = Ok nid' -> id_at nid (p ++ [i]) = getChildNodeID nid' i.
Proof.
  revert nid. induction p as [|j p IH]; intros nid E; cbn in *; [injection E as <-; by destruct (getChildNodeID nid i)|].
  destruct (getChildNodeID nid j); [|done]. by apply IH.
Qed.
Lemma id_at_key key d p : follows key d p -> d + N.of_nat (length p) <= 64 -> id_at (createID d key) p = Ok (createID (d + N.of_nat (length p)) key).
Proof.
  revert d. induction p as [|i p IH]; intros d Hf Hl; cbn [id_at length] in *; [by rewrite N.add_0_r|].
  apply follows_cons in Hf as [-> Hf]. pose proof (createID_child d key ltac:(lia)) as Ec. unfold createID at 2 in Ec. rewrite selectBranch_nib in Ec by lia.
  rewrite Ec. cbn [mbind result_bind]. rewrite IH by (done || lia). do 2 f_equal. lia.
Qed.
Lemma createID_root key : createID 0 key = rootID.
Proof. unfold createID, rootID. f_equal. change (depthMask 0) with 0. apply N.land_0_r. Qed.
Lemma createID_masked d key : d <= 64 -> masked (createID d key).
Proof. intros Hd. split; [done|]. cbn. by rewrite <-N.land_assoc, N.land_diag. Qed.

Lemma nib_mask key d k : k < d -> d <= 64 -> nib (N.land key (depthMask d)) k = nib key k.
Proof.
  intros Hk Hd. unfold nib. apply N.bits_inj. intros n. rewrite !N.land_spec, !N.shiftr_spec', N.land_spec, depthMask_testbit by done.
  change 15 with (N.ones 4). destruct (N.lt_ge_cases n 4) as [Hn|Hn]; [|by rewrite N.ones_spec_high, !andb_false_r by lia].
  rewrite (proj2 (N.leb_le _ _)), (proj2 (N.ltb_lt _ _)) by lia. by rewrite andb_true_r.
Qed.

Lemma place_depth ty c p c' : proper ty 0 0 c -> tnode_at c p = Some c' -> N.of_nat (length p) <= 64 /\
  forall ch, c' = InnerNode ch -> N.of_nat (length p) < 64.
Proof. intros Hp Hc. destruct (proper_at _ _ _ _ _ _ Hp Hc) as (q & Hwf & _). inversion Hwf; subst; split; (lia || naive_solver lia). Qed.

Lemma place_id ty c p c' : proper ty 0 0 c -> tnode_at c p = Some c' -> node_hash c' <> 0 ->
  exists key, follows key 0 p /\ id_at rootID p = Ok (createID (N.of_nat (length p)) key).
Proof.
  intros Hp Hc Hnz. destruct (proper_at _ _ _ _ _ _ Hp Hc) as [q Hq]. destruct (proper_item _ _ _ _ Hq Hnz) as [it Hit].
  destruct (place_follows _ _ _ _ _ _ _ Hp Hc Hit) as [Hf _]. exists (item_key it). split; [done|].
  rewrite <-(createID_root (item_key it)), id_at_key; [done|done|]. destruct (place_depth _ _ _ _ Hp Hc). lia.
Qed.
End places.

(** * Marked nodes, and progress

    A node that is marked as full has everything below it; nodes that are
    added keep it so.  A missing node that comes is hooked up. *)

Section marks.
Context `{Digest} (E : Env) (HE : env_ok E).
Abbreviation node := (SHAMapTreeNode Blob).

(** Everything of the tree below a place is there, or can be had. *)
Definition below (root : YNode) (q : Path) (c : node) : Prop :=
  forall r d, tnode_at c r = Some d -> is_Some (node_at root (q ++ r)) \/ resident E (node_hash d).
Definition marks (root : YNode) (c : node) : Prop :=
  forall p y c', node_at root p = Some y -> isFullBelow y (generation E) = true -> tnode_at c p = Some c' -> below root p c'.

Lemma below_grows n n' q c : grows n n' -> below n q c -> below n' q c.
Proof.
  intros Hg Hb r d Hd. destruct (Hb r d Hd) as [[y Hy]|?]; [left|by right]. destruct (Hg _ _ Hy) as (y' & -> & _). by eexists.
Qed.

(** Marks at a node and below its branches. *)
Lemma marks_child n ch i h y c : branch n i = Some (h, Some y) -> getChild ch i = Some c -> marks n (InnerNode ch) -> marks y c.
Proof.
  intros Hb Hc Hm p y' c' Hy Hf Hc' r d Hd.
  destruct (Hm (i :: p) y' c') with (r := r) (d := d) as [Hs|?]; [cbn; by rewrite Hb|done|cbn; by rewrite Hc|done| |by right].
  left. cbn in Hs. by rewrite Hb in Hs.
Qed.
Lemma marks_inner n ch : (isFullBelow n (generation E) = true -> below n [] (InnerNode ch)) ->
  (forall i h y c, branch n i = Some (h, Some y) -> getChild ch i = Some c -> marks y c) -> marks n (InnerNode ch).
Proof.
  intros H0 Hch p y c Hy Hf Hc. destruct p as [|i p]; [injection Hy as <-; injection Hc as <-; by apply H0|].
  cbn in Hy, Hc. destruct (branch n i) as [[h [y1|]]|] eqn:Eb; [|done..]. destruct (getChild ch i) as [c1|] eqn:Ec; [|done]. cbn in Hc.
  intros r d Hd. destruct (Hch _ _ _ _ Eb Ec _ _ _ Hy Hf Hc r d Hd) as [Hs|?]; [left|by right]. cbn. by rewrite Eb.
Qed.
Lemma marks_fresh x c : marks (fresh x) c.
Proof.
  intros p y c' Hy Hf Hc. destruct x as [|bs]; destruct p as [|i p]; cbn in Hy; [injection Hy as <-; done|done|..].
  - injection Hy as <-. cbn [isFullBelow] in Hf. apply N.eqb_eq in Hf. by destruct (env_gen _ HE).
  - rewrite list_lookup_fmap in Hy. by destruct (bs !! i) as [[?|]|].
Qed.
Lemma marks_fetched h y c : cacheLookup E h = Some y -> part y c -> marks y c.
Proof.
  intros Hc Hp p y' c' Hy Hf Hc' r d Hd. right. destruct (part_at _ _ _ _ Hp Hy) as (c2 & Ec & Hp2). rewrite Hc' in Ec. injection Ec as <-.
  by eapply (env_marks _ HE).
Qed.
Lemma marks_fetchNodeNT h y c : fetchNodeNT E h = Some y -> part y c -> marks y c.
Proof.
  unfold fetchNodeNT. destruct (cacheLookup E h) as [n|] eqn:Ec; [intros [= <-]; by eapply marks_fetched|].
  destruct (if backed_ E then fetchNodeFromDB E h else None) as [n|] eqn:Ed.
  - intros [= <-] _. destruct (backed_ E); [|done]. apply (fetchNodeFromDB_sound E HE) in Ed as (_ & _ & x & ->). apply marks_fresh.
  - intros (_ & _ & x & ->)%(checkFilter_sound E HE) _. apply marks_fresh.
Qed.

Lemma marks_set bs gen ch i h o y c : branch (YInner bs gen) i = Some (h, o) -> getChild ch i = Some c ->
  (forall y0, o = Some y0 -> grows y0 y) -> marks y c -> marks (YInner bs gen) (InnerNode ch) ->
  marks (YInner (<[i := Some (h, Some y)]> bs) gen) (InnerNode ch).
Proof.
  intros Hb Hc Hg Hy Hm. pose proof (branch_lt _ _ _ _ Hb) as Hlt. apply marks_inner.
  - intros Hf. eapply below_grows; [by eapply grows_set|]. by apply (Hm [] (YInner bs gen) (InnerNode ch)).
  - intros j h' y' c'. rewrite branch_insert by done. case_decide as Eij.
    + subst j. intros [= _ <-] Hc'. rewrite Hc in Hc'. by injection Hc' as <-.
    + intros Hb' Hc'. by eapply marks_child.
Qed.

Lemma add_walk_marks ty q c curr id target raw fuel touched curr' got invalid r :
  proper ty (depth_ id) q c -> part curr c -> marks curr c -> masked id -> sound_wire raw ->
  add_walk E fuel touched curr id target raw = (curr', got, invalid, r) -> marks curr' c.
Proof.
  intros Hpr Hp Hmk Hm Hraw. revert q c curr id curr' got invalid r Hpr Hp Hmk Hm.
  induction fuel as [|fuel IH]; intros q c curr id curr' got invalid r Hpr Hp Hmk Hm E'; cbn [add_walk] in E'; [by injection E' as <- <- <- <-|].
  destruct curr as [ty' item|bs gen]; [by injection E' as <- <- <- <-|]. destruct (_ || _); [by injection E' as <- <- <- <-|].
  set (i := selectBranch id (id_ target)) in *.
  destruct (branch (YInner bs gen) i) as [[childHash child]|] eqn:Eb; [|by injection E' as <- <- <- <-].
  destruct (touched childHash); [by injection E' as <- <- <- <-|].
  destruct c as [|ch]; [inversion Hp|]. destruct (part_branch_inv _ _ _ _ _ _ Hp Eb) as (c & Hc & -> & Hpc).
  pose proof (proper_child _ _ _ _ _ _ Hpr Hc) as Hprc. pose proof (proper_nonzero _ _ _ _ _ _ Hpr Hc) as Hnz.
  destruct (proper_depth _ _ _ _ Hpr) as [Hd Hlen]. pose proof (getChild_lt _ _ _ Hc) as Hi. rewrite Hlen in Hi. unfold kBranchFactor in Hi.
  destruct (getChildNodeID_Ok id i Hm Hd Hi) as (childID & Ecid & Hcm & Hcd). rewrite Ecid in E'.
  destruct (match child with Some c => Some c | None => fetchNodeNT E (node_hash c) end) as [c1|] eqn:Ec.
  - assert (part c1 c /\ marks c1 c) as [Hp1 Hm1].
    { destruct child as [c0|]; [injection Ec as <-; split; [by apply Hpc|by eapply marks_child]|].
      assert (part c1 c) as Hp1 by (eapply sound_part; [exact Hprc|done|by apply (fetchNodeNT_sound E HE)]). split; [done|by eapply marks_fetchNodeNT]. }
    destruct (add_walk E fuel touched c1 childID target raw) as [[[c1' got1] invalid1] r1] eqn:Ew. injection E' as <- <- <- <-.
    rewrite <-Hcd in Hprc. destruct (add_walk_part E HE _ _ _ _ _ _ _ _ _ _ _ _ _ Hprc Hp1 Hcm Hraw Ew) as (_ & Hg1 & _).
    eapply marks_set; [exact Eb|done| |by eapply IH|done]. intros c0 ->. by injection Ec as ->.
  - destruct (take_node raw (node_hash c) target childID) as [[n invalid1] r1] eqn:Et. unfold take_node in Et.
    destruct n as [n|]; injection E' as <- <- <- <-; [|done]. destruct child as [c0|]; [done|].
    assert (exists x, n = fresh x) as [x ->].
    { repeat case_match; simplify_eq; by eexists. }
    rewrite (branch_lookup _ _ _ _ Eb). eapply marks_set; [exact Eb|done|done|apply marks_fresh|done].
Qed.

(** ** Progress *)

Lemma select_target key k d : k < d -> d <= 64 -> selectBranch (createID k key) (id_ (createID d key)) = N.to_nat (nib key k).
Proof. intros Hk Hd. unfold createID at 1. rewrite selectBranch_nib by lia. cbn [createID id_]. by rewrite nib_mask. Qed.

Lemma below_missing n p i c ct : tnode_at c (p ++ [i]) = Some ct -> node_at n (p ++ [i]) = None -> fetchNodeNT E (node_hash ct) = None ->
  forall r c', (exists r', p ++ [i] = r ++ r') -> tnode_at c r = Some c' -> ~ below n r c'.
Proof.
  intros Hc Hn Hf r c' [r' Er] Hc' Hb. rewrite Er, tnode_at_app, Hc' in Hc. cbn in Hc. destruct (Hb _ _ Hc) as [[y Hy]|[y Hy]]; [|congruence].
  rewrite <-Er in Hy. congruence.
Qed.

Lemma add_walk_progress p ty q c curr raw fuel touched n i ct key k :
  proper ty k q c -> part curr c -> marks curr c ->
  node_at curr p = Some n -> branch n i = Some (node_hash ct, None) -> tnode_at c (p ++ [i]) = Some ct ->
  follows key k (p ++ [i]) -> fetchNodeNT E (node_hash ct) = None ->
  (forall r d, tnode_at c r = Some d -> touched (node_hash d) = true -> below curr r d) ->
  makeFromWire raw = Ok (Some (stored_of ct)) -> (length p < fuel)%nat ->
  (forall ty' it, ct = LeafNode ty' it -> id_ (createID (k + N.of_nat (S (length p))) (item_key it)) = id_ (createID (k + N.of_nat (S (length p))) key)) ->
  exists curr', add_walk E fuel touched curr (createID k key) (createID (k + N.of_nat (S (length p))) key) raw =
      (curr', Some (node_hash ct, fresh (stored_of ct)), false, Ok Useful) /\ node_at curr' (p ++ [i]) = Some (fresh (stored_of ct)).
Proof.
  revert k q c curr fuel. induction p as [|j p IH]; intros k q c curr fuel Hpr Hp Hmk Hn Hb Hct Hfo Hnt Hto Hw Hfu Hid.
  - injection Hn as ->. destruct fuel as [|fuel]; [lia|]. cbn in Hct. destruct c as [|ch]; [done|]. destruct (getChild ch i) as [c'|] eqn:Hc; [|done].
    injection Hct as ->. destruct n as [|bs gen]; [done|]. destruct (proper_depth _ _ _ _ Hpr) as [Hd Hlen].
    assert (node_at (YInner bs gen) [i] = None) as Hnone by (cbn [node_at]; by rewrite Hb).
    assert (forall c', tnode_at (InnerNode ch) [] = Some c' -> ~ below (YInner bs gen) [] c') as Hnb0.
    { intros c'. eapply (below_missing (YInner bs gen) [] i (InnerNode ch) ct); [cbn; by rewrite Hc|done|done|by exists [i]]. }
    apply follows_cons in Hfo as [Ei _]. cbn [app length add_walk]. rewrite select_target by lia.
    destruct (isFullBelow (YInner bs gen) (generation E)) eqn:Efb; [exfalso; eapply Hnb0; [done|]; by apply (Hmk [] (YInner bs gen))|].
    rewrite (proj2 (N.ltb_lt _ _)) by (cbn; lia). cbn [negb orb]. rewrite <-Ei, Hb.
    destruct (touched (node_hash ct)) eqn:Eto.
    { exfalso. eapply (below_missing (YInner bs gen) [] i (InnerNode ch) ct); [cbn; by rewrite Hc|done|done|exists []; by rewrite app_nil_r| |].
      - cbn. by rewrite Hc.
      - apply Hto; [cbn; by rewrite Hc|done]. }
    rewrite Hnt. pose proof (createID_child k key Hd) as Ec. unfold createID at 2 in Ec. rewrite selectBranch_nib, <-Ei in Ec by done. rewrite Ec.
    replace (k + N.of_nat 1) with (k + 1) in * by lia.
    assert (take_node raw (node_hash ct) (createID (k + 1) key) (createID (k + 1) key) = (Some (fresh (stored_of ct)), false, Ok Useful)) as ->.
    { unfold take_node. rewrite Hw, stored_hash_of, N.eqb_refl. cbn [negb depth_ createID].
      pose proof (proper_child _ _ _ _ _ _ Hpr Hc) as (Hwf & _). destruct ct as [ty' it|ch']; cbn [stored_of].
      - cbn [length] in Hid. change (N.of_nat 1) with 1 in Hid. cbn [createID id_] in *. rewrite (Hid _ _ eq_refl), N.eqb_refl. cbn [negb andb orb].
        unfold kLeafDepth. rewrite (proj2 (N.ltb_ge _ _)) by lia. cbn [orb]. by rewrite bool_decide_true.
      - inversion Hwf; subst. unfold kLeafDepth. rewrite (proj2 (N.ltb_ge _ _)), (proj2 (N.eqb_neq _ _)) by lia. cbn [orb andb]. by rewrite bool_decide_true. }
    eexists. split; [done|]. cbn [app node_at]. by rewrite (branch_hook (YInner bs gen) i _ (node_hash ct)).
  - cbn in Hn. destruct (branch curr j) as [[h [y|]]|] eqn:Ej; [|done..]. destruct curr as [|bs gen]; [done|].
    destruct fuel as [|fuel]; [cbn in Hfu; lia|]. destruct c as [|ch]; [inversion Hp|]. pose proof (proper_depth _ _ _ _ Hpr) as [Hd Hlen].
    destruct (part_branch_inv _ _ _ _ _ _ Hp Ej) as (c & Hc & -> & Hpy). specialize (Hpy y eq_refl).
    pose proof (proper_child _ _ _ _ _ _ Hpr Hc) as Hprc. cbn [app tnode_at] in Hct. rewrite Hc in Hct. cbn in Hct.
    cbn [app] in Hfo. apply follows_cons in Hfo as [Ei Hfo]. cbn [length] in *.
    assert (k + N.of_nat (S (S (length p))) <= 64) as H64.
    { pose proof (proper_at _ _ _ _ _ _ Hprc Hct) as [q' [Hwf _]]. rewrite length_app in Hwf. cbn in Hwf. inversion Hwf; subst; lia. }
    assert (node_at (YInner bs gen) (j :: p ++ [i]) = None) as Hnone.
    { cbn [node_at]. rewrite Ej, node_at_app, Hn. cbn. by rewrite Hb. }
    assert (forall r c', (exists r', j :: p ++ [i] = r ++ r') -> tnode_at (InnerNode ch) r = Some c' -> ~ below (YInner bs gen) r c') as Hnb.
    { apply (below_missing (YInner bs gen) (j :: p) i (InnerNode ch) ct); [cbn; by rewrite Hc|done|done]. }
    cbn [add_walk]. rewrite select_target by lia.
    destruct (isFullBelow (YInner bs gen) (generation E)) eqn:Efb;
      [exfalso; apply (Hnb [] (InnerNode ch)); [by eexists|done|by apply (Hmk [] (YInner bs gen))]|].
    rewrite (proj2 (N.ltb_lt _ _)) by (cbn; lia). cbn [negb orb]. rewrite <-Ei, Ej.
    destruct (touched (node_hash c)) eqn:Eto.
    { exfalso. apply (Hnb [j] c); [by eexists|cbn; by rewrite Hc|]. apply Hto; [cbn; by rewrite Hc|done]. }
    pose proof (createID_child k key Hd) as Ec. unfold createID at 2 in Ec. rewrite selectBranch_nib, <-Ei in Ec by done. rewrite Ec.
    replace (k + N.of_nat (S (S (length p)))) with (k + 1 + N.of_nat (S (length p))) in * by lia.
    destruct (IH (k + 1) _ c y fuel Hprc Hpy) as (curr' & -> & Hat); [by eapply marks_child|done..| |done|lia|done|].
    + intros r d Hr Htd. pose proof (Hto (j :: r) d ltac:(cbn; by rewrite Hc) Htd) as Hbel. intros r' d' Hd'.
      destruct (Hbel r' d' Hd') as [Hs|?]; [left|by right]. cbn [app node_at] in Hs. by rewrite Ej in Hs.
    + eexists. split; [done|]. cbn [app node_at]. rewrite branch_insert, decide_True by (done || by eapply branch_lt). done.
Qed.
End marks.
