(* ===== verification/SHAMapMissing.v ===== *)
(** * Looking for missing nodes: what has been looked at

    [good]: below every node the search is done with, each branch is known to
    be missing or full, still to be looked at, or leads to a node that is good
    itself.  Then the invariant of the search and the measure it makes
    smaller. *)

From S2P Require Import Prelude LedgerEntry Serializer SHAMapNodeID SHAMap SHAMapSpec SHAMapHash SHAMapProof SHAMapSync SHAMapSyncSpec.
Local Open Scope N_scope.

(** ** Good trees *)

Section good.
Context (gen : N).
Implicit Types (K : N -> Prop) (W : Path -> nat -> Prop).

Inductive good K W : YNode -> Path -> Prop :=
| good_leaf ty item p : good K W (YLeaf ty item) p
| good_full bs p : good K W (YInner bs gen) p
| good_open bs g p :
    (forall i h o, branch (YInner bs g) i = Some (h, o) -> ~ K h -> ~ W p i -> is_Some o) ->
    (forall i h y, branch (YInner bs g) i = Some (h, Some y) -> ~ K h -> ~ W p i -> good K W y (p ++ [i])) ->
    good K W (YInner bs g) p.

Definition prefix (p q : Path) : Prop := exists r, q = p ++ r.

Lemma prefix_snoc p i q : prefix (p ++ [i]) q -> prefix p q.
Proof. intros [r ->]. exists (i :: r). by rewrite <-app_assoc. Qed.
Lemma prefix_branch p i j q r : i <> j -> prefix (p ++ i :: q) r -> ~ prefix (p ++ [j]) r.
Proof. intros Hne [r1 ->] [r2 E]. rewrite <-!app_assoc in E. apply app_inv_head in E. by injection E. Qed.
Lemma not_prefix_self p i q : ~ prefix (p ++ i :: q) p.
Proof. intros [r E]. apply (f_equal length) in E. rewrite !length_app in E. cbn in E. lia. Qed.

Lemma good_mono K W K' W' y p : good K W y p -> (forall h, K h -> K' h) -> (forall q j, prefix p q -> W q j -> W' q j) -> good K' W' y p.
Proof.
  intros Hg HK. induction Hg as [| |bs g p Ho Hc IH]; intros HW; [apply good_leaf|apply good_full|].
  assert (forall i, ~ W' p i -> ~ W p i) as Hw by (intros i Hn Hw; apply Hn, HW; [exists []; by rewrite app_nil_r|done]).
  apply good_open.
  - intros i h o Hb Hk Hwi. eapply Ho; [done|naive_solver|by apply Hw].
  - intros i h y' Hb Hk Hwi. eapply IH; [done|naive_solver|by apply Hw|]. intros q j Hq. apply HW. by eapply prefix_snoc.
Qed.

(** A change at one node. *)
Lemma good_update K W K' W' f y p q n :
  good K W y p -> node_at y q = Some n -> (forall h, K h -> K' h) -> (forall r j, ~ prefix (p ++ q) r -> W r j -> W' r j) ->
  (good K W n (p ++ q) -> good K' W' (f n) (p ++ q)) -> good K' W' (update_at y q f) p.
Proof.
  intros Hg Hn HK HW Hf. revert y p Hg Hn HW Hf. induction q as [|i q IH]; intros y p Hg Hn HW Hf.
  { injection Hn as ->. rewrite app_nil_r in Hf. by apply Hf. }
  cbn in Hn. destruct (branch y i) as [[h [c|]]|] eqn:E; [|done..]. destruct y as [|bs g]; [done|]. cbn [update_at].
  rewrite (branch_lookup _ _ _ _ E). pose proof (branch_lt _ _ _ _ E) as Hlt.
  assert (forall j, ~ W' p j -> ~ W p j) as Hw by (intros j Hnw Hw; apply Hnw, HW; [apply not_prefix_self|done]).
  inversion Hg as [|? ?|? ? ? Ho Hc]; subst; [apply good_full|]. apply good_open.
  - intros j h' o. rewrite branch_insert by done. case_decide as Eij; [intros [= _ <-]; by eexists|].
    intros Hb Hk Hwj. eapply Ho; [done|naive_solver|by apply Hw].
  - intros j h' y'. rewrite branch_insert by done. case_decide as Eij.
    + subst j. intros [= <- <-] Hk Hwj. assert (p ++ i :: q = (p ++ [i]) ++ q) as Ep by (by rewrite <-app_assoc). rewrite Ep in *.
      eapply IH; [|done|done|done]. eapply Hc; [done|naive_solver|by apply Hw].
    + intros Hb Hk Hwj. eapply good_mono; [eapply Hc; [done|naive_solver|by apply Hw]|done|].
      intros r j' Hr. apply HW. intros Hp. by eapply prefix_branch.
Qed.

Lemma update_at_fix y q n f : node_at y q = Some n -> f n = n -> update_at y q f = y.
Proof.
  intros Hn Hf. revert y Hn. induction q as [|i q IH]; intros y Hn; [by injection Hn as ->|]. cbn in Hn. destruct (branch y i) as [[h [c|]]|] eqn:E; [|done..].
  destruct y as [|bs g]; [done|]. cbn [update_at]. rewrite (branch_lookup _ _ _ _ E), (IH c Hn). f_equal. apply list_insert_id.
  by apply (branch_lookup bs g).
Qed.

(** A branch has been looked at. *)
Lemma good_settle K W K' W' y p q n i :
  good K W y p -> node_at y q = Some n -> (forall h, K h -> K' h) -> (forall r j, W r j -> W' r j \/ (r = p ++ q /\ j = i)) ->
  (forall h o, branch n i = Some (h, o) -> ~ K' h -> ~ W' (p ++ q) i -> exists c, o = Some c /\ good K' W' c ((p ++ q) ++ [i])) ->
  good K' W' y p.
Proof.
  intros Hg Hn HK HW Hs. rewrite <-(update_at_fix y q n (fun n => n) Hn eq_refl). eapply good_update; [done|done|done| |].
  - intros r j Hr Hw. destruct (HW r j Hw) as [?|[-> _]]; [done|]. exfalso. apply Hr. exists []. by rewrite app_nil_r.
  - intros Hgn. inversion Hgn as [|? ?|bs g ? Ho Hc]; subst; [apply good_leaf|apply good_full|].
    assert (forall j, j <> i -> ~ W' (p ++ q) j -> ~ W (p ++ q) j) as Hw.
    { intros j Hne Hnw Hw. destruct (HW _ _ Hw) as [?|[_ ?]]; done. }
    apply good_open.
    + intros j h o Hb Hk Hwj. destruct (decide (j = i)) as [->|Hne]; [by destruct (Hs h o Hb Hk Hwj) as (c & -> & _)|].
      eapply Ho; [done|naive_solver|by apply Hw].
    + intros j h y' Hb Hk Hwj. destruct (decide (j = i)) as [->|Hne]; [by destruct (Hs h _ Hb Hk Hwj) as (c & [= ->] & ?)|].
      eapply good_mono; [eapply Hc; [done|naive_solver|by apply Hw]|done|].
      intros r j' [r' ->] Hw'. destruct (HW _ _ Hw') as [?|[E _]]; [done|].
      exfalso. rewrite <-app_assoc in E. apply (f_equal length) in E. rewrite !length_app in E. cbn in E. lia.
Qed.

(** A child is hooked where the branch is still to be looked at. *)
Lemma good_hook K W y p q n i c h : good K W y p -> node_at y q = Some n -> branch n i = Some (h, None) -> W (p ++ q) i ->
  good K W (update_at y q (canonicalizeChild i c)) p.
Proof.
  intros Hg Hn Hb Hw. eapply good_update; [done|done|done|done|]. intros Hgn. destruct n as [|bs g]; [done|].
  cbn [canonicalizeChild]. rewrite (branch_lookup _ _ _ _ Hb). pose proof (branch_lt _ _ _ _ Hb) as Hlt.
  inversion Hgn as [|? ?|? ? ? Ho Hc]; subst; [apply good_full|]. apply good_open.
  - intros j h' o. rewrite branch_insert by done. case_decide as Eij; [intros [= _ <-]; by eexists|apply Ho].
  - intros j h' y'. rewrite branch_insert by done. case_decide as Eij; [subst j; intros _ _ Hnw; by destruct Hnw|apply Hc].
Qed.

(** A node is marked. *)
Lemma good_mark K W W' y p q n : good K W y p -> node_at y q = Some n -> (forall r j, W r j -> W' r j \/ r = p ++ q) ->
  good K W' (update_at y q (setFullBelowGen gen)) p.
Proof.
  intros Hg Hn HW. eapply good_update; [done|done|done| |].
  - intros r j Hr Hw. destruct (HW r j Hw) as [?| ->]; [done|]. exfalso. apply Hr. exists []. by rewrite app_nil_r.
  - intros _. destruct n; [apply good_leaf|apply good_full].
Qed.

(** Branches of full nodes need not be looked at. *)
Lemma good_skip K W W' y p : good K W y p ->
  (forall r j bs g x, node_at y r = Some (YInner bs g) -> branch (YInner bs g) j = Some x -> W (p ++ r) j -> W' (p ++ r) j \/ g = gen) -> good K W' y p.
Proof.
  intros Hg. induction Hg as [| |bs g p Ho Hc IH]; intros HW; [apply good_leaf|apply good_full|].
  destruct (decide (g = gen)) as [->|Hne]; [apply good_full|].
  assert (forall i x, branch (YInner bs g) i = Some x -> ~ W' p i -> ~ W p i) as Hw.
  { intros i x Hb Hn Hw. destruct (HW [] i bs g x eq_refl Hb) as [Hw'|?]; rewrite ?app_nil_r in *; done. }
  apply good_open.
  - intros i h o Hb Hk Hwi. eapply Ho; [done..|by eapply Hw].
  - intros i h y' Hb Hk Hwi. eapply IH; [done..|by eapply Hw|]. intros r j bs' g' x Hr Hj. rewrite <-!app_assoc. eapply (HW (i :: r)); [|done].
    cbn [node_at]. by rewrite Hb.
Qed.
End good.

(** * Looking for missing nodes: what stays true

    The invariant of the search ([inv]): the tree is a part of the one with
    the root's hash, marks and the full-below cache are right, every reported
    node is missing, and all that was looked at is settled ([good]). *)

Section search.
Context `{Digest} (E : Env) (HE : env_ok E).
Abbreviation node := (SHAMapTreeNode Blob).
Context (ty : SHAMapNodeType) (T : node) (HT : proper ty 0 0 T) (Hnz : node_hash T <> 0) (max0 : Z) (root0 : YNode).

(** ** Places *)

Definition names (nid : SHAMapNodeID) (p : Path) : Prop := id_at rootID p = Ok nid.
Definition inner_at (root : YNode) (p : Path) : Prop := exists bs g, node_at root p = Some (YInner bs g).

Lemma place_nonzero p c : tnode_at T p = Some c -> node_hash c <> 0.
Proof.
  destruct p as [|i p _] using rev_ind; [by intros [= <-]|]. rewrite tnode_at_app. destruct (tnode_at T p) as [[|ch]|] eqn:E1; [done| |done].
  cbn. destruct (getChild ch i) as [c'|] eqn:E2; [|done]. intros [= <-]. destruct (proper_at _ _ _ _ _ _ HT E1) as [q Hq]. by eapply proper_nonzero.
Qed.
Lemma names_child p nid ch i c : names nid p -> tnode_at T p = Some (InnerNode ch) -> getChild ch i = Some c ->
  exists childID, getChildNodeID nid i = Ok childID /\ names childID (p ++ [i]).
Proof.
  intros Hn Hp Hc. destruct (place_id _ _ _ _ HT Hp (place_nonzero _ _ Hp)) as (key & _ & Eid). unfold names in *. rewrite Eid in Hn. injection Hn as <-.
  destruct (place_depth _ _ _ _ HT Hp) as [_ Hd]. specialize (Hd ch eq_refl). destruct (proper_at _ _ _ _ _ _ HT Hp) as [q Hq].
  destruct (proper_depth _ _ _ _ Hq) as [_ Hl]. pose proof (getChild_lt _ _ _ Hc) as Hi. rewrite Hl in Hi. unfold kBranchFactor in Hi.
  destruct (getChildNodeID_Ok (createID (N.of_nat (length p)) key) i) as (childID & Ec & _); [apply createID_masked; lia|done|done|].
  exists childID. split; [done|]. by rewrite (id_at_snoc _ _ _ _ Eid).
Qed.
Lemma inner_place root p : part root T -> inner_at root p -> exists bs g ch, node_at root p = Some (YInner bs g) /\ tnode_at T p = Some (InnerNode ch) /\
  part (YInner bs g) (InnerNode ch) /\ length bs = 16%nat.
Proof.
  intros Hp (bs & g & Hn). destruct (part_inner_at _ _ _ _ _ Hp Hn) as (ch & Hc & Hpi). exists bs, g, ch. split_and!; [done..|].
  destruct (proper_at _ _ _ _ _ _ HT Hc) as [q Hq]. destruct (proper_depth _ _ _ _ Hq) as [_ Hl]. inversion Hpi; subst. unfold kBranchFactor in Hl. lia.
Qed.
Lemma inner_grows root root' p : grows root root' -> inner_at root p -> inner_at root' p.
Proof. intros Hg (bs & g & Hn). destruct (Hg _ _ Hn) as ([|bs' g'] & Hn' & Es); [done|]. by exists bs', g'. Qed.

(** ** Changes of the tree *)

Lemma below_at root p n c : node_at root p = Some n -> below E root p c <-> below E n [] c.
Proof. intros Hn. unfold below. by setoid_rewrite node_at_app; rewrite Hn. Qed.

Lemma marks_update p f : forall root c n c', marks E root c -> part root c -> node_at root p = Some n -> tnode_at c p = Some c' -> keeps f n ->
  (marks E n c' -> marks E (f n) c') -> marks E (update_at root p f) c.
Proof.
  induction p as [|i p IH]; intros root c n c' Hm Hp Hn Hc Hk Hf; [injection Hn as ->; injection Hc as ->; by apply Hf|].
  cbn in Hn. destruct (branch root i) as [[h [y|]]|] eqn:Eb; [|done..]. destruct root as [|bs g]; [done|]. destruct c as [|ch]; [done|].
  cbn in Hc. destruct (getChild ch i) as [c1|] eqn:Ec; [|done]. cbn in Hc. cbn [update_at]. rewrite (branch_lookup _ _ _ _ Eb).
  destruct (part_branch_inv _ _ _ _ _ _ Hp Eb) as (c2 & Ec2 & _ & Hpy). rewrite Ec in Ec2. injection Ec2 as <-. specialize (Hpy y eq_refl).
  eapply marks_set; [exact Eb|done| |eapply IH; [by eapply marks_child|done..]|done]. intros y0 [= <-]. by eapply grows_update.
Qed.
Lemma marks_hook n ch i h c y : marks E n (InnerNode ch) -> branch n i = Some (h, None) -> getChild ch i = Some c -> marks E y c ->
  marks E (canonicalizeChild i y n) (InnerNode ch).
Proof.
  intros Hm Hb Hc Hy. destruct n as [|bs g]; [done|]. cbn [canonicalizeChild]. rewrite (branch_lookup _ _ _ _ Hb).
  by eapply marks_set; [exact Hb|done|done|..].
Qed.
Lemma marks_mark bs g ch : below E (YInner bs g) [] (InnerNode ch) -> marks E (YInner bs g) (InnerNode ch) ->
  marks E (setFullBelowGen (generation E) (YInner bs g)) (InnerNode ch).
Proof.
  intros Hb Hm. apply marks_inner.
  - intros _. eapply below_grows; [|exact Hb]. by apply (grows_update (YInner bs g) [] (setFullBelowGen (generation E)) (YInner bs g)); [|apply keeps_mark].
  - intros i h y c Hi Hc. by apply (marks_child E (YInner bs g) ch i h y c Hi Hc).
Qed.

(** ** The tree and the nodes found *)

Definition reported (root : YNode) (r : SHAMapNodeID * N) : Prop :=
  exists p i n c, node_at root p = Some n /\ branch n i = Some (r.2, None) /\ tnode_at T (p ++ [i]) = Some c /\ r.2 = node_hash c /\
    names r.1 (p ++ [i]) /\ fetchNodeNT E r.2 = None.
Definition awaited (root : YNode) (rs : list (Path * SHAMapNodeID)) (d : Deferred) : Prop :=
  exists n h o, node_at root (d_parent d) = Some n /\ branch n (d_branch d) = Some (h, o) /\ names (d_parentID d) (d_parent d) /\
    (o = None \/ (d_parent d ∈ rs.*1 /\ is_Some (fetchNodeFromDB E h))) /\ cacheLookup E h = None /\ checkFilter E h = None /\ backed_ E = true.

Record tree_inv (root : YNode) (cache : gset N) (max : Z) (missing : list (SHAMapNodeID * N)) (hashes : gset N)
    (df : list Deferred) (rs : list (Path * SHAMapNodeID)) : Prop := {
  t_grows : grows root0 root;
  t_part : part root T;
  t_marks : marks E root T;
  t_cache : forall p c, tnode_at T p = Some c -> node_hash c ∈ cache -> below E root p c;
  t_missing : Forall (reported root) missing;
  t_hashes : hashes = list_to_set missing.*2;
  t_once : NoDup missing.*2;
  t_count : (Z.of_nat (length missing) + max = max0 /\ 0 <= max)%Z;
  t_deferred : Forall (awaited root rs) df;
  t_resumes : Forall (fun r => inner_at root r.1 /\ names r.2 r.1) rs
}.
Definition tinv (mn : MissingNodes) : Prop :=
  tree_inv (mn_root mn) (mn_cache mn) (mn_max mn) (missingNodes mn) (missingHashes mn) (mn_deferred mn) (resumes mn).

Lemma tinv_part mn : tinv mn -> part (mn_root mn) T.
Proof. by intros []. Qed.

(** What a node not on the way of a change keeps. *)
Lemma unloaded_update root p f n q y j h : node_at root p = Some n -> keeps f n ->
  (forall j h, branch n j = Some (h, None) -> p = q -> branch (f n) j = Some (h, None)) ->
  node_at root q = Some y -> branch y j = Some (h, None) ->
  exists y', node_at (update_at root p f) q = Some y' /\ branch y' j = Some (h, None).
Proof.
  intros Hn Hk Hf Hq Hb. destruct (node_at_way root p f q y Hq) as [[r ->]|(y' & Hy & _ & Hu & _)]; [|exists y'; by auto].
  rewrite node_at_app, Hn in Hq. cbn in Hq. rewrite node_at_app, (node_at_update _ _ _ _ Hn). cbn. destruct r as [|k r].
  - injection Hq as ->. exists (f y). split; [done|]. apply Hf; [done|by rewrite app_nil_r].
  - cbn in *. destruct (branch n k) as [[h' [c|]]|] eqn:Ek; [|done..]. rewrite (proj2 Hk _ _ _ Ek). by exists y.
Qed.
Lemma loaded_update root p f n q y j h c : node_at root p = Some n -> keeps f n -> node_at root q = Some y -> branch y j = Some (h, Some c) ->
  exists y' c', node_at (update_at root p f) q = Some y' /\ branch y' j = Some (h, Some c').
Proof.
  intros Hn Hk Hq Hb. pose proof (grows_update _ _ _ _ Hn Hk) as Hg. destruct (Hg _ _ Hq) as (y' & Hy' & Es).
  destruct (Hg _ _ (node_at_snoc _ _ _ _ _ _ Hq Hb)) as (c' & Hc' & _). rewrite node_at_app, Hy' in Hc'. cbn in Hc'.
  destruct (branch y' j) as [[h' [c1|]]|] eqn:Ej; [|done..]. exists y', c1. split; [done|].
  destruct y as [|bs g]; [done|]. destruct y' as [|bs' g']; [done|]. cbn [stored] in Es. injection Es as Es.
  apply (f_equal (fun l => mjoin (l !! j))) in Es. rewrite (branch_stored bs g), (branch_stored bs' g'), Hb, Ej in Es. cbn in Es. by injection Es as ->.
Qed.

Lemma tinv_hook root cache max missing hashes df rs rs' p n i y c : let root' := update_at root p (canonicalizeChild i y) in
  tree_inv root cache max missing hashes df rs -> node_at root p = Some n -> branch n i = Some (node_hash c, None) -> tnode_at T (p ++ [i]) = Some c ->
  part y c -> marks E y c -> resident E (node_hash c) ->
  (is_Some (cacheLookup E (node_hash c)) \/ is_Some (checkFilter E (node_hash c)) \/ (p ∈ rs'.*1 /\ is_Some (fetchNodeFromDB E (node_hash c)))) -> rs.*1 ⊆ rs'.*1 ->
  Forall (fun r => inner_at root r.1 /\ names r.2 r.1) rs' -> tree_inv root' cache max missing hashes df rs'.
Proof.
  intros root' [Hgr0 Hpart Hmk Hca Hmi Hha Hon Hco Hde _] Hn Hb Hc Hpy Hmy Hres Hsrc Hrs Hrs'. destruct n as [|bs g] eqn:En; [done|]. rewrite <-En in *.
  assert (exists ch, tnode_at T p = Some (InnerNode ch) /\ part n (InnerNode ch)) as (ch & Hch & Hpn) by (subst n; by eapply part_inner_at).
  rewrite (tnode_at_snoc _ _ _ _ Hch) in Hc. pose proof (keeps_hook i y n) as Hk. pose proof (grows_update _ _ _ _ Hn Hk) as Hg. fold root' in Hg.
  assert (forall q z j h, node_at root q = Some z -> branch z j = Some (h, None) -> ~ (p = q /\ i = j) ->
    exists z', node_at root' q = Some z' /\ branch z' j = Some (h, None)) as Hun.
  { intros q z j h Hq Hj Hne. destruct (decide (p = q)) as [->|]; [|by eapply unloaded_update].
    rewrite Hn in Hq. injection Hq as <-. exists (canonicalizeChild i y n). split; [by apply node_at_update|]. by rewrite branch_hook_ne by naive_solver. }
  split; try done.
  - by eapply grows_trans.
  - eapply part_update; [done..|]. by eapply part_hook.
  - eapply marks_update; [done..|]. intros Hmn. by eapply marks_hook.
  - intros q c' Hq Hin. eapply below_grows; [exact Hg|]. by apply Hca.
  - eapply Forall_impl; [exact Hmi|]. intros [nid h] (q & j & z & c' & Hq & Hj & Hc' & Eh & Hid & Hf). cbn [fst snd] in *.
    destruct (Hun q z j h Hq Hj) as (z' & Hz' & Hj'); [|by exists q, j, z', c'].
    intros [-> ->]. rewrite Hn in Hq. injection Hq as <-. rewrite Hb in Hj. injection Hj as Eh'. destruct Hres as [x Hx]. congruence.
  - eapply Forall_impl; [exact Hde|]. intros d (z & h & o & Hq & Hj & Hid & Ho & Hcl & Hfi & Hba). unfold awaited.
    destruct o as [x|]; [|destruct (decide (p = d_parent d /\ i = d_branch d)) as [[-> ->]|Hne]].
    + destruct (loaded_update _ _ _ _ _ _ _ _ _ Hn Hk Hq Hj) as (z' & x' & Hz' & Hj'). exists z', h, (Some x'). split_and!; try done.
      destruct Ho as [|[Ho ?]]; [done|]. right. split; [by apply Hrs|done].
    + rewrite Hn in Hq. injection Hq as <-. rewrite Hb in Hj. injection Hj as <-. eexists _, _, (Some y).
      split_and!; [by apply node_at_update|by apply branch_hook|done| |done..]. right.
      destruct Hsrc as [[x Hx]|[[x Hx]|]]; [congruence..|done].
    + destruct (Hun _ _ _ _ Hq Hj Hne) as (z' & Hz' & Hj'). exists z', h, None. split_and!; try done. by left.
  - eapply Forall_impl; [exact Hrs'|]. intros r [Hi Hid]. split; [by eapply inner_grows|done].
Qed.

Lemma unloaded_mark root p n q z j h : node_at root p = Some n -> node_at root q = Some z -> branch z j = Some (h, None) ->
  exists z', node_at (update_at root p (setFullBelowGen (generation E))) q = Some z' /\ branch z' j = Some (h, None).
Proof. intros Hn Hq Hj. eapply unloaded_update; [done|apply keeps_mark| |done..]. by intros j' h' Hb _; destruct n. Qed.

Lemma tinv_mark root cache max missing hashes df rs p ch : let root' := update_at root p (setFullBelowGen (generation E)) in
  tree_inv root cache max missing hashes df rs -> inner_at root p -> tnode_at T p = Some (InnerNode ch) -> below E root p (InnerNode ch) ->
  tree_inv root' cache max missing hashes df rs /\ tree_inv root' ({[node_hash (InnerNode ch)]} ∪ cache) max missing hashes df rs.
Proof.
  intros root' [Hgr0 Hpart Hmk Hca Hmi Hha Hon Hco Hde Hrs] (bs & g & Hn) Hch Hbel.
  destruct (part_at _ _ _ _ Hpart Hn) as (c' & Hch' & Hpn). rewrite Hch in Hch'. injection Hch' as <-.
  pose proof (keeps_mark (generation E) (YInner bs g)) as Hk. pose proof (grows_update _ _ _ _ Hn Hk) as Hg. fold root' in Hg.
  assert (tree_inv root' cache max missing hashes df rs) as HI; [|split; [done|destruct HI; split; try done]].
  - split; try done.
    + by eapply grows_trans.
    + eapply part_update; [done..|]. by apply part_mark.
    + eapply marks_update; [done..|]. intros Hmn. apply marks_mark; [|done]. by apply (below_at _ _ _ _ Hn).
    + intros q c' Hq Hin. eapply below_grows; [exact Hg|]. by apply Hca.
    + eapply Forall_impl; [exact Hmi|]. intros [nid h] (q & j & z & c' & Hq & Hj & Hc' & Eh & Hid & Hf). cbn [fst snd] in *.
      destruct (unloaded_mark _ _ _ _ _ _ _ Hn Hq Hj) as (z' & Hz' & Hj'). by exists q, j, z', c'.
    + eapply Forall_impl; [exact Hde|]. intros d (z & h & o & Hq & Hj & Hid & Ho & Hcl & Hfi & Hba). destruct o as [x|].
      * destruct (loaded_update _ _ _ _ _ _ _ _ _ Hn Hk Hq Hj) as (z' & x' & Hz' & Hj'). exists z', h, (Some x'). split_and!; try done.
        destruct Ho as [|[Ho ?]]; [done|by right].
      * destruct (unloaded_mark _ _ _ _ _ _ _ Hn Hq Hj) as (z' & Hz' & Hj'). exists z', h, None. by split_and!; [..|left| | |].
    + eapply Forall_impl; [exact Hrs|]. intros r [Hi Hid]. split; [by eapply inner_grows|done].
  - intros q c' Hq [Eq%elem_of_singleton|Hin]%elem_of_union; [|by apply t_cache0].
    pose proof (hash_place _ _ _ _ _ _ HT Hq Hch (place_nonzero _ _ Hq) Eq) as ->. rewrite Hch in Hq. injection Hq as <-. eapply below_grows; [exact Hg|done].
Qed.

Lemma tinv_missing mn p n i c childID : tinv mn -> (0 < mn_max mn)%Z -> node_at (mn_root mn) p = Some n -> branch n i = Some (node_hash c, None) ->
  tnode_at T (p ++ [i]) = Some c -> names childID (p ++ [i]) -> fetchNodeNT E (node_hash c) = None -> node_hash c ∉ missingHashes mn ->
  tinv (add_missing childID (node_hash c) mn).
Proof.
  intros [Hgr0 Hpart Hmk Hca Hmi Hha Hon Hco Hde Hrs] Hmax Hn Hb Hc Hid Hf Hnew. split; cbn; try done.
  - apply Forall_app. split; [done|]. apply Forall_singleton. by exists p, i, n, c.
  - rewrite Hha, fmap_app, list_to_set_app_L. set_solver.
  - rewrite fmap_app. apply NoDup_app. split_and!; [done| |apply NoDup_singleton]. rewrite Hha, elem_of_list_to_set in Hnew. set_solver.
  - rewrite length_app. cbn. lia.
Qed.
Lemma tinv_deferred mn d : tinv mn -> awaited (mn_root mn) (resumes mn) d -> tinv (set_deferred (mn_deferred mn ++ [d]) mn).
Proof. intros [] Hd. split; cbn; try done. apply Forall_app. by rewrite Forall_singleton. Qed.
End search.

(** * Looking for missing nodes: the work that is left

    A number that every step of the search makes smaller: the branches still
    to be looked at with all that is below them, and for every node of the
    tree that is not there yet the work of looking at it once more. *)

Section work.
Local Open Scope nat_scope.
Context `{Digest}.
Abbreviation node := (SHAMapTreeNode Blob).

(** ** Nodes that are there *)

Fixpoint ysize (n : YNode) : nat :=
  match n with
  | YLeaf _ _ => 1
  | YInner bs _ => S (list_sum (map (fun b => match b with Some (_, Some c) => ysize c | _ => 0 end) bs))
  end.

Lemma list_sum_insert {A} (f : A -> nat) l i x y : l !! i = Some x -> list_sum (map f (<[i := y]> l)) + f x = list_sum (map f l) + f y.
Proof.
  revert i. induction l as [|a l IH]; intros [|i] Hi; [done..|injection Hi as ->; change (<[0 := y]> (x :: l)) with (y :: l); cbn [map]; rewrite !list_sum_cons; lia|].
  change (<[S i := y]> (a :: l)) with (a :: <[i := y]> l). specialize (IH i Hi). cbn [map]. rewrite !list_sum_cons. lia.
Qed.
Lemma list_sum_le {A B} (f : A -> nat) (g : B -> nat) l k : length l = length k ->
  (forall i x y, l !! i = Some x -> k !! i = Some y -> f x <= g y) -> list_sum (map f l) <= list_sum (map g k).
Proof.
  revert k. induction l as [|a l IH]; intros [|b k] Hl Hle; [done..|]. cbn [map]. rewrite !list_sum_cons. pose proof (Hle 0 a b eq_refl eq_refl).
  assert (list_sum (map f l) <= list_sum (map g k)); [|lia]. apply IH; [by injection Hl|]. intros i. apply (Hle (S i)).
Qed.

Lemma ysize_part y c : part y c -> ysize y <= node_count c.
Proof.
  intros Hp. induction Hp as [|bs gen ch Hl He Hh Hc IH]; [done|]. cbn [ysize node_count]. apply le_n_S, list_sum_le; [done|].
  intros i b o Hb Ho. destruct b as [[h [y|]]|]; [|lia..]. assert (branch (YInner bs gen) i = Some (h, Some y)) as Hbr by (cbn; by rewrite Hb).
  destruct o as [c|]; [|exfalso; assert (branch (YInner bs gen) i = None) as E; [apply He; unfold getChild; by rewrite Ho|by rewrite Hbr in E]].
  eapply IH; [exact Hbr|]. unfold getChild. by rewrite Ho.
Qed.

Lemma ysize_update f : forall p n n', node_at n p = Some n' -> ysize (update_at n p f) + ysize n' = ysize n + ysize (f n').
Proof.
  induction p as [|i p IH]; intros n n' Hn; [injection Hn as ->; cbn; lia|]. cbn in Hn. destruct (branch n i) as [[h [c|]]|] eqn:Eb; [|done..].
  destruct n as [|bs g]; [done|]. cbn [update_at]. pose proof (branch_lookup _ _ _ _ Eb) as El. rewrite El. cbn [ysize].
  specialize (IH c n' Hn). pose proof (list_sum_insert (fun b => match b with Some (_, Some c) => ysize c | _ => 0 end) bs i _ (Some (h, Some (update_at c p f))) El) as Es.
  cbn beta iota in Es. lia.
Qed.
Lemma ysize_hook n p n' i h y : node_at n p = Some n' -> branch n' i = Some (h, None) -> ysize n < ysize (update_at n p (canonicalizeChild i y)).
Proof.
  intros Hn Hb. pose proof (ysize_update (canonicalizeChild i y) p n n' Hn) as Eu. destruct n' as [|bs g]; [done|].
  pose proof (branch_lookup _ _ _ _ Hb) as El. cbn [canonicalizeChild] in Eu. rewrite El in Eu. cbn [ysize] in Eu.
  pose proof (list_sum_insert (fun b => match b with Some (_, Some c) => ysize c | _ => 0 end) bs i _ (Some (h, Some y)) El) as Es.
  cbn beta iota in Es. assert (0 < ysize y) by (destruct y; cbn; lia). lia.
Qed.
Lemma ysize_mark n p n' g : node_at n p = Some n' -> ysize (update_at n p (setFullBelowGen g)) = ysize n.
Proof.
  intros Hn. pose proof (ysize_update (setFullBelowGen g) p n n' Hn) as Eu.
  assert (ysize (setFullBelowGen g n') = ysize n') by (by destruct n'). lia.
Qed.

(** ** Trees that grow *)

Lemma list_sum_lt {A B} (f : A -> nat) (g : B -> nat) l k i x y : length l = length k ->
  (forall i x y, l !! i = Some x -> k !! i = Some y -> f x <= g y) -> l !! i = Some x -> k !! i = Some y -> f x < g y ->
  list_sum (map f l) < list_sum (map g k).
Proof.
  revert k i. induction l as [|a l IH]; intros [|b k] i Hl Hle Hx Hy Hlt; [done..|]. cbn [map]. rewrite !list_sum_cons. injection Hl as Hl.
  destruct i as [|i]; cbn in Hx, Hy.
  - injection Hx as ->. injection Hy as ->. assert (list_sum (map f l) <= list_sum (map g k)); [|lia]. apply list_sum_le; [done|]. intros j. apply (Hle (S j)).
  - pose proof (Hle 0 a b eq_refl eq_refl). assert (list_sum (map f l) < list_sum (map g k)); [|lia]. eapply IH; [done| |exact Hx|exact Hy|done]. intros j. apply (Hle (S j)).
Qed.

Lemma grows_branches bs g n' : grows (YInner bs g) n' -> exists bs' g', n' = YInner bs' g' /\ length bs = length bs' /\
  (forall i, branch (YInner bs' g') i = None <-> branch (YInner bs g) i = None) /\
  forall i h c, branch (YInner bs g) i = Some (h, Some c) -> exists c', branch n' i = Some (h, Some c') /\ grows c c'.
Proof.
  intros Hg. destruct (Hg [] _ eq_refl) as (y & [= <-] & Es). destruct n' as [|bs' g']; [done|]. cbn [stored] in Es. injection Es as Es. exists bs', g'.
  assert (forall i, fst <$> branch (YInner bs' g') i = fst <$> branch (YInner bs g) i) as Hf by (intros i; rewrite <-!branch_stored; by rewrite Es).
  split_and!; [done|by rewrite <-(length_fmap (option_map fst) bs), <-Es, length_fmap|..].
  - intros i. specialize (Hf i). by destruct (branch (YInner bs' g') i), (branch (YInner bs g) i).
  - intros i h c Hb. assert (exists h' c', branch (YInner bs' g') i = Some (h', Some c')) as (h' & c' & Hb').
    { destruct (Hg [i] c) as (y & Hy & _); [cbn [node_at]; by rewrite Hb|]. cbn [node_at] in Hy. destruct (branch (YInner bs' g') i) as [[h' [c'|]]|]; [by exists h', c'|done..]. }
    specialize (Hf i). rewrite Hb, Hb' in Hf. injection Hf as ->. exists c'. split; [done|]. intros p y Hy.
    destruct (Hg (i :: p) y) as (y' & Hy' & Es'); [cbn [node_at]; by rewrite Hb|]. exists y'. cbn [node_at] in Hy'. by rewrite Hb' in Hy'.
Qed.

Lemma ysize_grows y c : part y c -> forall y', grows y y' -> ysize y <= ysize y'.
Proof.
  intros Hp. induction Hp as [ty item|bs gen ch Hl He Hh Hc IH]; intros y' Hg; [destruct y'; cbn; lia|].
  destruct (grows_branches _ _ _ Hg) as (bs' & g' & -> & Hlen & Hnone & Hsome). cbn [ysize]. apply le_n_S, list_sum_le; [done|].
  intros i b b' Hb Hb'. destruct b as [[h [y|]]|]; [|lia..]. assert (branch (YInner bs gen) i = Some (h, Some y)) as Hbr by (cbn; by rewrite Hb).
  destruct (Hsome _ _ _ Hbr) as (y' & Hy' & Hgy). cbn in Hy'. rewrite Hb' in Hy'. cbn in Hy'. rewrite Hy'.
  destruct (getChild ch i) as [c|] eqn:Ec; [by eapply IH|]. apply He in Ec. congruence.
Qed.

Lemma ysize_more q : forall y c y', part y c -> grows y y' -> node_at y q = None -> is_Some (node_at y' q) -> ysize y < ysize y'.
Proof.
  induction q as [|i q IH]; intros y c y' Hp Hg Hn Hs; [done|]. cbn [node_at] in *. destruct y as [ty item|bs g].
  { destruct (Hg [] _ eq_refl) as (z & [= <-] & Ez). destruct y' as [|]; [by destruct Hs|done]. }
  destruct (grows_branches _ _ _ Hg) as (bs' & g' & -> & Hlen & Hnone & Hsome). destruct c as [|ch]; [inversion Hp|].
  destruct (branch (YInner bs' g') i) as [[h' [y'|]]|] eqn:Eb'; [|by destruct Hs..].
  destruct (branch (YInner bs g) i) as [[h o]|] eqn:Eb; [|apply Hnone in Eb; congruence].
  destruct (part_branch_inv _ _ _ _ _ _ Hp Eb) as (c & Hc & _ & Hpo).
  cbn [ysize]. apply le_n_S. eapply (list_sum_lt _ _ _ _ i); [done| |by eapply branch_lookup|by eapply branch_lookup|].
  - intros j b b' Hb Hb'. destruct b as [[hj [yj|]]|]; [|lia..]. assert (branch (YInner bs g) j = Some (hj, Some yj)) as Hbr by (cbn; by rewrite Hb).
    destruct (Hsome _ _ _ Hbr) as (yj' & Hyj' & Hgy). cbn in Hyj'. rewrite Hb' in Hyj'. cbn in Hyj'. rewrite Hyj'.
    destruct (part_branch_inv _ _ _ _ _ _ Hp Hbr) as (cj & _ & _ & Hpj). by eapply ysize_grows; [apply Hpj|].
  - destruct o as [y|]; [|destruct y'; cbn; lia]. destruct (Hsome _ _ _ Eb) as (y2 & Hy2 & Hgy). rewrite Eb' in Hy2. injection Hy2 as -> ->. by eapply IH; [apply Hpo|..].
Qed.

(** ** Work *)

Fixpoint work (c : node) : nat :=
  match c with
  | LeafNode _ _ => 1
  | InnerNode ch => S (list_sum (map (fun o => S (match o with Some c => work c | None => 0 end)) ch))
  end.
Definition work_at (c : node) (p : Path) : nat := match tnode_at c p with Some c => work c | None => 0 end.

Lemma work_child ch i c : getChild ch i = Some c -> work c < work (InnerNode ch).
Proof.
  unfold getChild. destruct (ch !! i) as [o|] eqn:E; [|done]. cbn. intros ->. cbn [work]. apply list_elem_of_split_length in E as (l1 & l2 & -> & _).
  rewrite map_app, list_sum_app. cbn. lia.
Qed.
Lemma work_at_le c p : work_at c p <= work c.
Proof.
  unfold work_at. revert c. induction p as [|i p IH]; intros c; [done|]. cbn [tnode_at]. destruct c as [|ch]; [cbn; lia|].
  destruct (getChild ch i) as [c'|] eqn:Ec; cbn; [|lia]. specialize (IH c'). pose proof (work_child _ _ _ Ec) as Hw. cbn [work] in Hw. lia.
Qed.

(** What is left to do at an entry of the stack. *)
Definition left_at (T : node) (e : StackEntry) : nat :=
  S (list_sum (map (fun k => S (work_at T (se_node e ++ [(se_firstChild e + k) mod 16]))) (seq (se_currentChild e) (16 - se_currentChild e)))).

Lemma left_next T p nid first cur full full' : cur < 16 ->
  left_at T (mkEntry p nid first cur full) = S (work_at T (p ++ [(first + cur) mod 16])) + left_at T (mkEntry p nid first (S cur) full').
Proof.
  intros Hc. unfold left_at. cbn [se_node se_firstChild se_currentChild]. replace (16 - cur) with (S (16 - S cur)) by lia. cbn [seq map]. rewrite list_sum_cons. lia.
Qed.

Lemma sum_rotate (f : nat -> nat) first : list_sum (map (fun k => f ((first + k) mod 16)) (seq 0 16)) = list_sum (map f (seq 0 16)).
Proof.
  assert (forall r, r < 16 -> list_sum (map (fun k => f ((r + k) mod 16)) (seq 0 16)) = list_sum (map f (seq 0 16))) as Hr.
  { intros r Hr. do 16 (destruct r as [|r]; [cbn; lia|]). lia. }
  rewrite <-(Hr (first mod 16)) by (apply Nat.mod_upper_bound; lia). f_equal. apply map_ext. intros k. f_equal. by rewrite Nat.Div0.add_mod_idemp_l.
Qed.
Lemma left_fresh T p nid first full ch : tnode_at T p = Some (InnerNode ch) -> length ch = 16 -> left_at T (mkEntry p nid first 0 full) = work_at T p.
Proof.
  intros Hp Hl. unfold left_at, work_at at 2. rewrite Hp. cbn [se_node se_firstChild se_currentChild work]. f_equal. change (16 - 0) with 16.
  rewrite (sum_rotate (fun i => S (work_at T (p ++ [i])))), <-Hl. unfold work_at. clear -Hp.
  assert (forall i, tnode_at T (p ++ [i]) = getChild ch i) as E by (intros i; by apply tnode_at_snoc).
  rewrite (map_ext _ (fun i => S (match getChild ch i with Some c => work c | None => 0 end))) by (intros i; by rewrite E). clear.
  unfold getChild. induction ch as [|o ch IH]; [done|]. cbn [length seq map]. rewrite !list_sum_cons. f_equal.
  rewrite <-IH, <-seq_shift, map_map. done.
Qed.
End work.
