(* ===== verification/SHAMapMissingLoop.v ===== *)
(** * Looking for missing nodes: going down the tree

    [gmnProcessNodes] keeps the invariant, returns, and leaves less to do;
    so do the loops of [getMissingNodes] around it. *)

From S2P Require Import Prelude LedgerEntry Serializer SHAMapNodeID SHAMap SHAMapSpec SHAMapHash SHAMapProof SHAMapSync SHAMapSyncSpec SHAMapMissing.
Local Open Scope N_scope.

Section steps.
Context `{Digest} (E : Env) (HE : env_ok E).
Abbreviation node := (SHAMapTreeNode Blob).
Context (ty : SHAMapNodeType) (T : node) (HT : proper ty 0 0 T) (Hnz : node_hash T <> 0) (max0 : Z) (root0 : YNode).
Abbreviation tinv := (tinv E T max0 root0).

(** ** Entries of the stack *)

Definition branch_of (e : StackEntry) (k : nat) : nat := ((se_firstChild e + k) mod 16)%nat.

(** What is still to be looked at: branches of entries, reads that were
    asked for, nodes to look at again. *)
Definition todo (es : list StackEntry) (df : list Deferred) (rs : list (Path * SHAMapNodeID)) (p : Path) (i : nat) : Prop :=
  (exists e k, e ∈ es /\ se_node e = p /\ (se_currentChild e <= k < 16)%nat /\ i = branch_of e k) \/
  (exists d, d ∈ df /\ d_parent d = p /\ d_branch d = i) \/ p ∈ rs.*1.
Definition known (hashes cache : gset N) (h : N) : Prop := h ∈ hashes \/ h ∈ cache.

Definition valid (root : YNode) (e : StackEntry) : Prop := inner_at root (se_node e) /\ names (se_nodeID e) (se_node e) /\ (se_currentChild e <= 16)%nat.

(** The first [m] branches of an entry have everything below them, unless
    the entry says otherwise. *)
Definition flag_ok (root : YNode) (m : nat) (e : StackEntry) : Prop := se_fullBelow e = true ->
  forall k c, (k < m)%nat -> tnode_at T (se_node e ++ [branch_of e k]) = Some c -> below E root (se_node e ++ [branch_of e k]) c.
Definition flags (root : YNode) (es : list StackEntry) : Prop := Forall (fun e => flag_ok root (pred (se_currentChild e)) e) es.

(** An entry was put on the stack when the search went down its last branch. *)
Definition linked (p : Path) (es : list StackEntry) : Prop :=
  match es with e :: _ => se_currentChild e = 0%nat \/ p = se_node e ++ [branch_of e (pred (se_currentChild e))] | [] => True end.
Fixpoint chained (es : list StackEntry) : Prop := match es with e :: es => linked (se_node e) es /\ chained es | [] => True end.

Record inv (mn : MissingNodes) (es : list StackEntry) : Prop := {
  i_tree : tinv mn;
  i_valid : Forall (valid (mn_root mn)) es;
  i_good : good (generation E) (known (missingHashes mn) (mn_cache mn)) (todo es (mn_deferred mn) (resumes mn)) (mn_root mn) [];
  i_flags : flags (mn_root mn) es;
  i_chain : chained es
}.

Definition measure (mn : MissingNodes) (es : list StackEntry) : nat :=
  (list_sum (map (left_at T) es) + list_sum (map (fun r => work_at T r.1) (resumes mn)) + (node_count T - ysize (mn_root mn)) * S (work T))%nat.

Lemma valid_grows root root' e : grows root root' -> valid root e -> valid root' e.
Proof. intros Hg (Hi & Hn & Hc). split_and!; [by eapply inner_grows|done..]. Qed.
Lemma flag_grows root root' m e : grows root root' -> flag_ok root m e -> flag_ok root' m e.
Proof. intros Hg Hf Ht k c Hk Hc. eapply below_grows; [done|]. by apply Hf. Qed.
Lemma flags_grow root root' es : grows root root' -> flags root es -> flags root' es.
Proof. intros Hg Hf. eapply Forall_impl; [exact Hf|]. intros e. by apply flag_grows. Qed.
Lemma valids_grow root root' es : grows root root' -> Forall (valid root) es -> Forall (valid root') es.
Proof. intros Hg Hf. eapply Forall_impl; [exact Hf|]. intros e. by apply valid_grows. Qed.

Lemma todo_mono es es' df df' rs rs' p i : es ⊆ es' -> df ⊆ df' -> rs.*1 ⊆ rs'.*1 -> todo es df rs p i -> todo es' df' rs' p i.
Proof. clear HE HT Hnz. unfold todo. set_solver. Qed.
Lemma todo_next p nid first cur full full' st df rs q j : (cur < 16)%nat -> todo (mkEntry p nid first cur full :: st) df rs q j ->
  todo (mkEntry p nid first (S cur) full' :: st) df rs q j \/ (q = p /\ j = ((first + cur) mod 16)%nat).
Proof.
  intros Hc [(e & k & [->|He]%elem_of_cons & Hp & Hk & Hj)|[Hd|Hr]]; cbn in *.
  - destruct (decide (k = cur)) as [->|]; [by right|]. left. left. exists (mkEntry p nid first (S cur) full'), k.
    split_and!; [by left|done|cbn; lia..|done].
  - left. left. exists e, k. split_and!; [by right|done|lia..|done].
  - left. right. by left.
  - left. by do 2 right.
Qed.
Lemma branch_index k : (k < 16)%nat -> forall first, exists m, (m < 16)%nat /\ ((first + m) mod 16)%nat = k.
Proof.
  clear HE HT Hnz. intros Hk first. exists ((k + (16 - first mod 16)) mod 16)%nat. assert (first mod 16 < 16)%nat by (apply Nat.mod_upper_bound; lia).
  split; [apply Nat.mod_upper_bound; lia|]. rewrite Nat.Div0.add_mod_idemp_r, <-Nat.Div0.add_mod_idemp_l.
  replace (first mod 16 + (k + (16 - first mod 16)))%nat with (k + 1 * 16)%nat by lia. rewrite Nat.Div0.mod_add. by apply Nat.mod_small.
Qed.

(** ** Steps *)

(** Going on to the next branch, once the branch is settled. *)
Lemma inv_next mn mn' p nid first cur full full' st : let i := ((first + cur) mod 16)%nat in
  inv mn (mkEntry p nid first cur full :: st) -> flag_ok (mn_root mn) cur (mkEntry p nid first cur full) -> (cur < 16)%nat ->
  tinv mn' -> mn_root mn' = mn_root mn -> (forall h, known (missingHashes mn) (mn_cache mn) h -> known (missingHashes mn') (mn_cache mn') h) ->
  mn_deferred mn ⊆ mn_deferred mn' -> resumes mn' = resumes mn ->
  (full' = true -> full = true /\ forall c, tnode_at T (p ++ [i]) = Some c -> below E (mn_root mn) (p ++ [i]) c) ->
  (forall n h o, node_at (mn_root mn) p = Some n -> branch n i = Some (h, o) ->
     known (missingHashes mn') (mn_cache mn') h \/ todo [] (mn_deferred mn') (resumes mn) p i \/
     exists c, o = Some c /\ good (generation E) (known (missingHashes mn') (mn_cache mn')) (todo (mkEntry p nid first (S cur) full' :: st) (mn_deferred mn') (resumes mn)) c (p ++ [i])) ->
  inv mn' (mkEntry p nid first (S cur) full' :: st) /\ flag_ok (mn_root mn') (S cur) (mkEntry p nid first (S cur) full').
Proof.
  intros i [Ht Hv Hg Hf Hc] Hflag Hcur Ht' Er HK Hdf Ers Hfull Hset.
  assert (flag_ok (mn_root mn) (S cur) (mkEntry p nid first (S cur) full')) as Hflag'.
  { intros Efull k c Hk Hkc. cbn in *. destruct (Hfull Efull) as [-> Hb]. destruct (decide (k = cur)) as [->|]; [by apply Hb|].
    by apply (Hflag eq_refl); [lia|]. }
  rewrite Er. split; [|done]. split; [done|rewrite Er..|]; cbn [se_currentChild pred] in *.
  - apply Forall_cons in Hv as [(Hi & Hn & _) Hv]. apply Forall_cons. split; [split_and!; [done..|cbn; lia]|done].
  - apply Forall_cons in Hv as [((bs & g & Hn) & _) _]. rewrite Ers. eapply (good_settle _ _ _ _ _ _ _ p _ i); [exact Hg|exact Hn|done|..]; cbn [app].
    + intros r j Hw. destruct (todo_next _ _ _ _ _ full' _ _ _ _ _ Hcur Hw) as [Hw'|?]; [left|by right]. by eapply todo_mono; [..|exact Hw'].
    + intros h o Hb HnK HnW. destruct (Hset _ h o Hn Hb) as [?|[Hw|?]]; [done| |done]. exfalso. apply HnW. by eapply todo_mono; [apply list_subseteq_nil|..|exact Hw].
  - apply Forall_cons in Hf as [_ Hf]. apply Forall_cons. split; [|done]. intros Et k c Hk. apply Hflag'; [done|cbn in Hk; lia].
  - done.
Qed.

(** Hooking up a node that was found. *)
Lemma inv_hook mn es p n i c y : inv mn es -> node_at (mn_root mn) p = Some n -> branch n i = Some (node_hash c, None) -> tnode_at T (p ++ [i]) = Some c ->
  part y c -> marks E y c -> resident E (node_hash c) -> (is_Some (cacheLookup E (node_hash c)) \/ is_Some (checkFilter E (node_hash c))) ->
  todo es (mn_deferred mn) (resumes mn) p i ->
  let mn' := set_root (update_at (mn_root mn) p (canonicalizeChild i y)) mn in
  inv mn' es /\ grows (mn_root mn) (mn_root mn') /\ (measure mn' es <= measure mn es)%nat.
Proof.
  intros [Ht Hv Hg Hf Hch] Hn Hb Hc Hp Hm Hr Hs Hw mn'.
  assert (grows (mn_root mn) (mn_root mn')) as Hgr by (eapply grows_update; [done|apply keeps_hook]). split_and!; [split|done|].
  - eapply tinv_hook; [exact Ht|done..|naive_solver|done|by destruct Ht].
  - by eapply valids_grow.
  - by eapply good_hook.
  - by eapply flags_grow.
  - done.
  - unfold measure. cbn [resumes mn' set_root mn_root]. pose proof (ysize_hook _ _ _ _ _ y Hn Hb). nia.
Qed.

(** Going down to a child. *)
Lemma inv_push mn p nid first cur full st n h bs g childID r : let i := ((first + cur) mod 16)%nat in
  inv mn (mkEntry p nid first cur full :: st) -> flag_ok (mn_root mn) cur (mkEntry p nid first cur full) -> (cur < 16)%nat ->
  node_at (mn_root mn) p = Some n -> branch n i = Some (h, Some (YInner bs g)) -> names childID (p ++ [i]) ->
  inv mn (mkEntry (p ++ [i]) childID r 0 true :: mkEntry p nid first (S cur) full :: st).
Proof.
  intros i [Ht Hv Hg Hf Hc] Hflag Hcur Hn Hb Hid. pose proof (node_at_snoc _ _ _ _ _ _ Hn Hb) as Hni.
  assert (inner_at (mn_root mn) (p ++ [i])) as Hin by (by eexists _, _).
  split; [done|..].
  - apply Forall_cons in Hv as [(Hi & Hn' & _) Hv]. rewrite !Forall_cons. split_and!; [split_and!; [done..|cbn; lia]| |done].
    split_and!; [done..|cbn; lia].
  - eapply (good_settle _ _ _ _ _ _ _ p _ i); [exact Hg|exact Hn|done|..]; cbn [app].
    + intros q j Hw. destruct (todo_next _ _ _ _ _ full _ _ _ _ _ Hcur Hw) as [Hw'|?]; [left|by right]. eapply todo_mono; [|done..|exact Hw']. set_solver.
    + intros h' o Hb' HnK HnW. rewrite Hb in Hb'. injection Hb' as <- <-. eexists. split; [done|].
      destruct (inner_place ty T HT Hnz _ _ (tinv_part _ _ _ _ mn Ht) Hin) as (bs' & g' & ch & Hn2 & _ & _ & Hlen). rewrite Hni in Hn2. injection Hn2 as <- <-.
      assert (forall j x, branch (YInner bs g) j = Some x -> todo (mkEntry (p ++ [i]) childID r 0 true :: mkEntry p nid first (S cur) full :: st) (mn_deferred mn) (resumes mn) (p ++ [i]) j) as Hall.
      { intros j x Hj. pose proof (branch_lt _ _ _ _ Hj) as Hlt. rewrite Hlen in Hlt. destruct (branch_index j Hlt r) as (m & Hm & Em). left.
        eexists _, m. split_and!; [by left|done|cbn; lia..|done]. }
      apply good_open; intros j h' o Hj _ Hnw; destruct Hnw; by eapply Hall.
  - apply Forall_cons in Hf as [_ Hf]. unfold flags. rewrite !Forall_cons. split_and!; [|exact Hflag|done]. intros _ k c Hk. cbn in Hk. lia.
  - cbn. split; [by right|done].
Qed.

Lemma below_node root p ch : is_Some (node_at root p) -> (forall i c, getChild ch i = Some c -> below E root (p ++ [i]) c) -> below E root p (InnerNode ch).
Proof.
  intros Hp Hb [|i r] d Hd; [left; by rewrite app_nil_r|]. cbn in Hd. destruct (getChild ch i) as [c|] eqn:Ec; [|done]. cbn in Hd.
  rewrite cons_middle, app_assoc. by eapply Hb.
Qed.

(** All branches of a node were looked at. *)
Lemma inv_finish mn p nid first full st : let e := mkEntry p nid first 16 full in
  inv mn (e :: st) -> flag_ok (mn_root mn) 16 e -> exists n,
  node_at (mn_root mn) p = Some n /\
  let mn1 := set_root (update_at (mn_root mn) p (setFullBelowGen (generation E))) mn in
  let mn' := if full then (if backed_ E then set_cache ({[yhash n]} ∪ mn_cache mn) mn1 else mn1) else mn in
  inv mn' st /\ linked p st /\ (measure mn' st < measure mn (e :: st))%nat /\
  (full = true -> forall c, tnode_at T p = Some c -> below E (mn_root mn') p c).
Proof.
  intros e [Ht Hv Hg Hf Hc] Hflag. apply Forall_cons in Hv as [(Hi & Hid & _) Hv]. apply Forall_cons in Hf as [_ Hf]. cbn [chained] in Hc. destruct Hc as [Hl Hc].
  destruct (inner_place ty T HT Hnz _ _ (tinv_part _ _ _ _ mn Ht) Hi) as (bs & g & ch & Hn & Hch & Hpi & Hlen). change (se_node e) with p in Hi, Hid, Hl, Hn, Hch.
  assert (forall q j, todo (e :: st) (mn_deferred mn) (resumes mn) q j -> todo st (mn_deferred mn) (resumes mn) q j) as Hw.
  { intros q j [(e' & k & [->|He]%elem_of_cons & Hp & Hk & Hj)|Hr]; [cbn in Hk; lia|left; by exists e', k|by right]. }
  exists (YInner bs g). split; [done|]. intros mn1 mn'. destruct full; cycle 1.
  { subst mn'. split_and!; [split; [done..|eapply good_mono; [exact Hg|done|by intros q j _; apply Hw]|done|done]|done| |done].
    unfold measure. cbn [map]. rewrite list_sum_cons. unfold left_at at 2. lia. }
  assert (below E (mn_root mn) p (InnerNode ch)) as Hbel.
  { apply below_node; [by eexists|]. intros i c Hgc. pose proof (getChild_lt _ _ _ Hgc) as Hlt. assert (length ch = 16%nat) as Hl16 by (inversion Hpi; subst; lia).
    rewrite Hl16 in Hlt. destruct (branch_index i Hlt first) as (m & Hm & Em). specialize (Hflag eq_refl m c Hm).
    change (se_node e) with p in Hflag. change (branch_of e m) with ((first + m) mod 16)%nat in Hflag. rewrite Em, (tnode_at_snoc _ _ _ _ Hch) in Hflag. by apply Hflag. }
  destruct (tinv_mark E ty T HT Hnz _ _ _ _ _ _ _ _ _ p ch Ht Hi Hch Hbel) as [Ht1 Ht2].
  assert (grows (mn_root mn) (mn_root mn1)) as Hgr by (eapply grows_update; [exact Hn|apply keeps_mark]).
  assert (mn_root mn' = mn_root mn1 /\ resumes mn' = resumes mn /\ mn_deferred mn' = mn_deferred mn /\ missingHashes mn' = missingHashes mn /\ mn_cache mn ⊆ mn_cache mn') as (Er & Ers & Edf & Eh & Hca).
  { subst mn'. destruct (backed_ E); cbn; split_and!; set_solver. }
  split_and!; [split|done|..]; rewrite ?Er, ?Ers, ?Edf, ?Eh.
  - subst mn'. destruct (backed_ E); [|done]. by rewrite (part_hash _ _ Hpi).
  - by eapply valids_grow.
  - eapply good_mono; [eapply (good_mark _ _ _ (todo st (mn_deferred mn) (resumes mn)) _ _ p); [exact Hg|exact Hn|]; intros q j Hq; left; by apply Hw| |done].
    intros h [?|?]; [by left|right; by apply Hca].
  - by eapply flags_grow.
  - done.
  - unfold measure. rewrite Er, Ers. cbn [map mn1 set_root mn_root]. rewrite (ysize_mark _ _ _ _ Hn), list_sum_cons. unfold left_at at 2. lia.
  - intros _ c Hc'. rewrite Hch in Hc'. injection Hc' as <-. by eapply below_grows.
Qed.

Lemma inv_draw mn es : inv mn es -> inv (draw mn) es.
Proof. by intros []. Qed.
Lemma inv_stack st mn es : inv mn es -> inv (set_stack st mn) es.
Proof. by intros []. Qed.

(** ** The loop *)

Definition gmn_post (B : nat) (mn : MissingNodes) (e : StackEntry) (enough : bool) : Prop :=
  tinv mn /\
  if enough then (mn_max mn <= 0)%Z
  else (0 < mn_max mn)%Z /\ inv mn (mn_stack mn) /\ linked (se_node e) (mn_stack mn) /\ (measure mn (mn_stack mn) < B)%nat /\
    (se_fullBelow e = true -> forall c, tnode_at T (se_node e) = Some c -> below E (mn_root mn) (se_node e) c).
Definition gmn_returns (fuel B : nat) (mn : MissingNodes) (e : StackEntry) : Prop :=
  exists mn' e' enough, gmnProcessNodes E fuel mn e = Ok (mn', e', enough) /\ gmn_post B mn' e' enough.

Definition gmn_start (mn : MissingNodes) (e : StackEntry) : Prop :=
  inv mn (e :: mn_stack mn) /\ flag_ok (mn_root mn) (se_currentChild e) e /\ (0 < mn_max mn)%Z.

Lemma measure_next mn p nid first cur full full' st : (cur < 16)%nat ->
  (measure mn (mkEntry p nid first (S cur) full' :: st) < measure mn (mkEntry p nid first cur full :: st))%nat.
Proof. intros Hc. unfold measure. cbn [map]. rewrite !list_sum_cons, (left_next T p nid first cur full full' Hc). lia. Qed.

Lemma below_leaf root p ty' item c : node_at root p = Some (YLeaf ty' item) -> part (YLeaf ty' item) c -> below E root p c.
Proof. intros Hn Hp. inversion Hp; subst. intros [|i r] d Hd; [left; rewrite app_nil_r; by eexists|done]. Qed.

(** The branch leads to a node that is there. *)
Lemma start_found mn p nid first cur full n h d : let i := ((first + cur) mod 16)%nat in
  gmn_start mn (mkEntry p nid first cur full) -> (cur < 16)%nat -> node_at (mn_root mn) p = Some n -> branch n i = Some (h, Some d) ->
  match d with
  | YInner _ _ => if isFullBelow d (generation E) then gmn_start mn (mkEntry p nid first (S cur) full)
      else exists childID, getChildNodeID nid i = Ok childID /\ forall r,
        let mn' := draw (set_stack (mkEntry p nid first (S cur) full :: mn_stack mn) mn) in
        let e' := mkEntry (p ++ [i]) childID r 0 true in
        gmn_start mn' e' /\ (measure mn' (e' :: mn_stack mn') < measure mn (mkEntry p nid first cur full :: mn_stack mn))%nat
  | YLeaf _ _ => gmn_start mn (mkEntry p nid first (S cur) full)
  end.
Proof.
  intros i (Hinv & Hflag & Hmax) Hcur Hn Hb. pose proof (i_tree _ _ Hinv) as Ht. pose proof (tinv_part _ _ _ _ _ Ht) as Hpart.
  pose proof (node_at_snoc _ _ _ _ _ _ Hn Hb) as Hni. destruct (part_at _ _ _ _ Hpart Hni) as (c & Hc & Hpc).
  assert (forall (Hg : forall K W, good (generation E) K W d (p ++ [i])) (Hbel : below E (mn_root mn) (p ++ [i]) c),
    gmn_start mn (mkEntry p nid first (S cur) full)) as Hnext.
  { intros Hg Hbel. destruct (inv_next mn mn p nid first cur full full (mn_stack mn)) as [Hinv' Hflag']; try done.
    - intros Ef. split; [done|]. intros c' Hc'. fold i in Hc'. rewrite Hc in Hc'. by injection Hc' as <-.
    - intros n' h' o Hn' Hb'. fold i in Hb'. rewrite Hn in Hn'. injection Hn' as <-. rewrite Hb in Hb'. injection Hb' as <- <-. right. right.
      exists d. split; [done|apply Hg]. }
  destruct d as [ty' item|bs g]; [apply Hnext; [intros; apply good_leaf|by eapply below_leaf]|].
  destruct (isFullBelow (YInner bs g) (generation E)) eqn:Efb.
  { apply Hnext; [|by destruct Ht as [_ _ Hmk]; eapply Hmk]. apply N.eqb_eq in Efb. subst g. intros. apply good_full. }
  assert (inner_at (mn_root mn) (p ++ [i])) as Hin by (by eexists _, _).
  destruct (inner_place ty T HT Hnz _ _ Hpart Hin) as (bs' & g' & ch' & _ & Hch' & _ & Hlen').
  destruct n as [|bs0 g0]; [done|]. destruct (part_inner_at _ _ _ _ _ Hpart Hn) as (ch & Hch & Hpn).
  assert (getChild ch i = Some c) as Hgc by (by rewrite <-(tnode_at_snoc _ _ _ _ Hch)).
  pose proof (i_valid _ _ Hinv) as Hv. apply Forall_cons in Hv as [(_ & Hid & _) _].
  destruct (names_child ty T HT Hnz _ _ _ _ _ Hid Hch Hgc) as (childID & Ecid & Hcn). exists childID. split; [done|].
  intros r mn' e'. split; [split_and!|].
  - apply inv_draw, inv_stack. by eapply inv_push.
  - intros _ k c' Hk. cbn in Hk. lia.
  - done.
  - unfold measure. cbn [mn' draw set_stack resumes mn_stack mn_root map]. rewrite !list_sum_cons, (left_next T p nid first cur full full Hcur). fold i.
    rewrite Hc in Hch'. injection Hch' as ->. assert (length ch' = 16%nat) as Hl16.
    { destruct (proper_at _ _ _ _ _ _ HT Hc) as [q Hq]. by destruct (proper_depth _ _ _ _ Hq). }
    unfold e'. rewrite (left_fresh T _ _ _ _ _ Hc Hl16). lia.
Qed.

(** The branch is settled without going to its node. *)
Lemma start_next mn mn' p nid first cur full full' : let i := ((first + cur) mod 16)%nat in
  gmn_start mn (mkEntry p nid first cur full) -> (cur < 16)%nat -> tinv mn' -> mn_root mn' = mn_root mn -> mn_stack mn' = mn_stack mn ->
  missingHashes mn ⊆ missingHashes mn' -> mn_cache mn' = mn_cache mn -> mn_deferred mn ⊆ mn_deferred mn' -> resumes mn' = resumes mn -> (0 < mn_max mn')%Z ->
  (full' = true -> full = true /\ forall c, tnode_at T (p ++ [i]) = Some c -> node_hash c ∈ mn_cache mn) ->
  (forall n h o, node_at (mn_root mn) p = Some n -> branch n i = Some (h, o) ->
     known (missingHashes mn') (mn_cache mn') h \/ todo [] (mn_deferred mn') (resumes mn) p i) ->
  gmn_start mn' (mkEntry p nid first (S cur) full').
Proof.
  intros i (Hinv & Hflag & Hmax) Hcur Ht' Er Est Hmh Eca Hdf Ers Hmax' Hfull Hset.
  destruct (inv_next mn mn' p nid first cur full full' (mn_stack mn)) as [Hinv' Hflag']; try done.
  - intros h [?|?]; [left; by apply Hmh|right; by rewrite Eca].
  - intros Ef. destruct (Hfull Ef) as [-> Hbel]. split; [done|]. intros c Hc. destruct (i_tree _ _ Hinv) as [_ _ _ Hca _ _ _ _ _ _]. apply Hca; [done|by apply Hbel].
  - intros n h o Hn Hb. destruct (Hset n h o Hn Hb) as [?|?]; [by left|right; by left].
  - split_and!; [by rewrite Est|done..].
Qed.

Lemma gmn_next mn p nid first cur full full' fuel B mn' : (cur < 16)%nat -> measure mn' (mkEntry p nid first (S cur) full' :: mn_stack mn') = measure mn (mkEntry p nid first (S cur) full' :: mn_stack mn) ->
  (measure mn (mkEntry p nid first cur full :: mn_stack mn) <= B)%nat -> (measure mn (mkEntry p nid first cur full :: mn_stack mn) < S fuel)%nat ->
  (measure mn' (mkEntry p nid first (S cur) full' :: mn_stack mn') <= B)%nat /\ (measure mn' (mkEntry p nid first (S cur) full' :: mn_stack mn') < fuel)%nat.
Proof. intros Hc Em. pose proof (measure_next mn p nid first cur full full' (mn_stack mn) Hc). lia. Qed.

(** The child is looked for. *)
Lemma start_descend mn p nid first cur full n c o ch : let i := ((first + cur) mod 16)%nat in let e := mkEntry p nid first cur full in
  gmn_start mn e -> (cur < 16)%nat -> node_at (mn_root mn) p = Some n -> tnode_at T p = Some (InnerNode ch) ->
  branch n i = Some (node_hash c, o) -> getChild ch i = Some c -> node_hash c ∉ missingHashes mn ->
  match descendAsync E (mn_root mn) p i (node_hash c) o with
  | Pending => gmn_start (set_deferred (mn_deferred mn ++ [mkDeferred p nid i]) mn) (mkEntry p nid first (S cur) false)
  | Absent => exists childID, getChildNodeID nid i = Ok childID /\ tinv (add_missing childID (node_hash c) mn) /\
      ((0 < mn_max mn - 1)%Z -> gmn_start (add_missing childID (node_hash c) mn) (mkEntry p nid first (S cur) false))
  | Found d root => gmn_start (set_root root mn) e /\ (measure (set_root root mn) (e :: mn_stack mn) <= measure mn (e :: mn_stack mn))%nat /\
      exists n', node_at root p = Some n' /\ branch n' i = Some (node_hash c, Some d)
  end.
Proof.
  intros i e Hst Hcur Hn Hch Hb Hc Hnew. pose proof Hst as (Hinv & Hflag & Hmax). pose proof (i_tree _ _ Hinv) as Ht.
  pose proof (i_valid _ _ Hinv) as Hv. apply Forall_cons in Hv as [(_ & Hid & _) _]. change (se_node e) with p in Hid. change (se_nodeID e) with nid in Hid.
  assert (tnode_at T (p ++ [i]) = Some c) as Hci by (by rewrite (tnode_at_snoc _ _ _ _ Hch)).
  unfold descendAsync. destruct o as [d|].
  { split_and!; [|done|by exists n]. split_and!; [|done..]. by destruct Hinv. }
  destruct (match cacheLookup E (node_hash c) with Some n => Some n | None => checkFilter E (node_hash c) end) as [d|] eqn:Ed.
  - destruct (proper_at _ _ _ _ _ _ HT Hci) as [q Hq].
    assert (part d c /\ marks E d c /\ resident E (node_hash c) /\ (is_Some (cacheLookup E (node_hash c)) \/ is_Some (checkFilter E (node_hash c)))) as (Hpd & Hmd & Hres & Hsrc).
    { pose proof (place_nonzero ty T HT Hnz _ _ Hci) as Hcz. unfold resident, fetchNodeNT. destruct (cacheLookup E (node_hash c)) as [d'|] eqn:Ecl.
      - injection Ed as ->. assert (part d c) as Hpd by (eapply sound_part; [exact Hq|done|by apply (env_cache _ HE)]).
        split_and!; [done|by eapply marks_fetched|by eexists|left; by eexists].
      - destruct (checkFilter_sound E HE _ _ Ed) as (Hh & Hcons & x & ->). split_and!; [by eapply sound_part|by apply marks_fresh| |right; by eexists].
        destruct (if backed_ E then _ else None); [by eexists|]. rewrite Ed. by eexists. }
    destruct (inv_hook mn (e :: mn_stack mn) p n i c d Hinv Hn Hb Hci Hpd Hmd Hres Hsrc) as (Hinv' & Hgr & Hm).
    { left. exists e, cur. split_and!; [by left|done|cbn; lia|lia|done]. }
    split_and!; [split_and!; [done|by eapply flag_grows|done]|done|]. eexists. split; [by apply node_at_update|by apply branch_hook].
  - assert (cacheLookup E (node_hash c) = None /\ checkFilter E (node_hash c) = None) as [Hcl Hcf] by (by destruct (cacheLookup E (node_hash c))).
    destruct (backed_ E) eqn:Ebk.
    + eapply (start_next mn _ _ _ _ _ full); try done; cbn; [|set_solver|].
      * apply tinv_deferred; [done|]. eexists n, _, None. split_and!; try done. by left.
      * intros n' h' o' Hn' Hb'. right. right. left. eexists. split; [apply elem_of_app; right; by left|done].
    + destruct (names_child ty T HT Hnz _ _ _ _ _ Hid Hch Hc) as (childID & Ecid & Hcn). exists childID.
      assert (tinv (add_missing childID (node_hash c) mn)) as Ht'.
      { eapply tinv_missing; try done. unfold fetchNodeNT. by rewrite Hcl, Ebk. }
      split_and!; [done..|]. intros Hmax'. eapply (start_next mn _ _ _ _ _ full); try done; [cbn; set_solver|].
      intros n' h' o' Hn' Hb'. rewrite Hn in Hn'. injection Hn' as <-. fold i in Hb'. rewrite Hb in Hb'. injection Hb' as <- <-. left. left. set_solver.
Qed.

Lemma gmn_finish fuel B mn p nid first full : gmn_start mn (mkEntry p nid first 16 full) -> (measure mn (mkEntry p nid first 16 full :: mn_stack mn) <= B)%nat ->
  gmn_returns (S fuel) B mn (mkEntry p nid first 16 full).
Proof.
  intros (Hinv & Hflag & Hmax) HB. destruct (inv_finish mn p nid first full (mn_stack mn) Hinv Hflag) as (n & Hn & Hinv' & Hl & Hm & Hbel).
  unfold gmn_returns. cbn [gmnProcessNodes]. change (16 <? 16)%nat with false. cbn beta iota.
  destruct full; [rewrite Hn|]; eexists _, _, _; (split; [done|]); (split; [by eapply i_tree|]); [|split_and!; (done || lia)].
  assert (forall mn', mn' = (if backed_ E then set_cache ({[yhash n]} ∪ mn_cache mn) (set_root (update_at (mn_root mn) p (setFullBelowGen (generation E))) mn)
    else set_root (update_at (mn_root mn) p (setFullBelowGen (generation E))) mn) -> mn_stack mn' = mn_stack mn /\ mn_max mn' = mn_max mn) as Hsame
    by (intros mn' ->; by destruct (backed_ E)).
  destruct (Hsame _ eq_refl) as [Es Em]. cbn [mn_cache set_root] in *. rewrite Em, Es. split_and!; (done || lia).
Qed.

Theorem gmn_ok fuel B mn e : gmn_start mn e -> (measure mn (e :: mn_stack mn) <= B)%nat -> (measure mn (e :: mn_stack mn) < fuel)%nat -> gmn_returns fuel B mn e.
Proof.
  revert mn e. induction fuel as [|fuel IH]; intros mn [p nid first cur full] Hst HB Hfu; [lia|]. pose proof Hst as (Hinv & Hflag & Hmax).
  pose proof (i_tree _ _ Hinv) as Ht. pose proof (tinv_part _ _ _ _ _ Ht) as Hpart. unfold gmn_returns.
  pose proof (i_valid _ _ Hinv) as Hv. apply Forall_cons in Hv as [(Hi & Hid & H16) _]. cbn [se_node se_nodeID se_currentChild] in *.
  destruct (Nat.ltb_spec cur 16) as [Hcur|Hcur]; cycle 1.
  { assert (cur = 16%nat) as -> by lia. by apply gmn_finish. }
  cbn [gmnProcessNodes]. rewrite (proj2 (Nat.ltb_lt _ _) Hcur).
  destruct (inner_place ty T HT Hnz _ _ Hpart Hi) as (bs & g & ch & Hn & Hch & Hpn & Hlen). rewrite Hn. set (i := ((first + cur) mod 16)%nat).
  assert (forall c, tnode_at T (p ++ [i]) = Some c <-> getChild ch i = Some c) as Htc by (intros c; by rewrite (tnode_at_snoc _ _ _ _ Hch)).
  destruct (branch (YInner bs g) i) as [[h o]|] eqn:Eb; cycle 1.
  { destruct (gmn_next mn p nid first cur full full fuel B mn Hcur eq_refl HB Hfu) as [HB' Hfu']. apply IH; [|done..].
    eapply (start_next mn mn _ _ _ _ full); try done.
    - intros Ef. split; [done|]. intros c Hc%Htc. destruct (part_branch_some _ _ _ _ Hpn Hc) as [? Hsome]. congruence.
    - intros n h o Hn' Hb. rewrite Hn in Hn'. injection Hn' as <-. fold i in Hb. congruence. }
  destruct (part_branch_inv _ _ _ _ _ _ Hpn Eb) as (c & Hc & -> & Hpc).
  assert (forall n h' o', node_at (mn_root mn) p = Some n -> branch n i = Some (h', o') -> h' = node_hash c /\ o' = o) as Hsame.
  { intros n h' o' Hn' Hb'. rewrite Hn in Hn'. injection Hn' as <-. rewrite Eb in Hb'. by injection Hb' as <- <-. }
  case_bool_decide as Emiss.
  { destruct (gmn_next mn p nid first cur full false fuel B mn Hcur eq_refl HB Hfu) as [HB' Hfu']. apply IH; [|done..].
    eapply (start_next mn mn _ _ _ _ full); try done. intros n h' o' Hn' Hb'. destruct (Hsame _ _ _ Hn' Hb') as [-> _]. left. by left. }
  destruct (backed_ E && touchIfExists E (node_hash c) mn) eqn:Etouch.
  { destruct (gmn_next mn p nid first cur full full fuel B (draw mn) Hcur eq_refl HB Hfu) as [HB' Hfu']. apply IH; [|done..].
    apply andb_true_iff in Etouch as [_ Et]. unfold touchIfExists in Et. apply andb_true_iff in Et as [Et _]. apply bool_decide_eq_true in Et.
    eapply (start_next mn (draw mn) _ _ _ _ full); try done.
    - intros Ef. split; [done|]. intros c' Hc'%Htc. rewrite Hc in Hc'. by injection Hc' as <-.
    - intros n h' o' Hn' Hb'. destruct (Hsame _ _ _ Hn' Hb') as [-> _]. left. by right. }
  cbn [mn_root draw]. pose proof (start_descend (draw mn) p nid first cur full (YInner bs g) c o ch) as Hde. cbn zeta in Hde. fold i in Hde.
  specialize (Hde ltac:(split_and!; [by apply inv_draw|done..]) Hcur Hn Hch Eb Hc Emiss). cbn [mn_root mn_stack mn_deferred draw] in Hde.
  destruct (descendAsync E (mn_root mn) p i (node_hash c) o) as [d root| |].
  - destruct Hde as (Hst' & Hm & n' & Hn' & Hb'). pose proof (start_found _ _ _ _ _ _ _ _ _ Hst' Hcur Hn' Hb') as Hf. fold i in Hf. cbn zeta in Hf.
    destruct (gmn_next (set_root root (draw mn)) p nid first cur full full fuel B _ Hcur eq_refl) as [HB' Hfu']; [cbn [mn_stack set_root draw]; change (measure (draw mn)) with (measure mn) in Hm; lia..|].
    destruct d as [|bs' g']; [by apply IH|]. destruct (isFullBelow _ _); [by apply IH|]. destruct Hf as (childID & -> & Hf).
    cbn [mbind result_bind]. destruct (Hf (randInt E (draws (draw mn)))) as [Hs' Hm']. apply IH; [done|..]; eapply Nat.le_trans.
    + apply Nat.lt_le_incl, Hm'.
    + etrans; [exact Hm|done].
    + exact Hm'.
    + apply Nat.lt_succ_r. eapply Nat.le_lt_trans; [exact Hm|done].
  - by destruct (gmn_next mn p nid first cur full false fuel B (set_deferred (mn_deferred mn ++ [mkDeferred p nid i]) (draw mn)) Hcur eq_refl HB Hfu); apply IH.
  - destruct Hde as (childID & -> & Ht' & Hs'). cbn [mbind result_bind]. destruct (Z.leb_spec (mn_max (add_missing childID (node_hash c) (draw mn))) 0) as [Hle|Hgt].
    + eexists _, _, true. split; [done|]. by split.
    + destruct (gmn_next mn p nid first cur full false fuel B (add_missing childID (node_hash c) (draw mn)) Hcur eq_refl HB Hfu). by apply IH; [apply Hs'|..].
Qed.
End steps.

(** * Looking for missing nodes: the whole search

    Reads that finish, nodes that are looked at again, and the two loops of
    [getMissingNodes]. *)

Section search.
Context `{Digest} (E : Env) (HE : env_ok E).
Abbreviation node := (SHAMapTreeNode Blob).
Context (ty : SHAMapNodeType) (T : node) (HT : proper ty 0 0 T) (Hnz : node_hash T <> 0) (max0 : Z) (root0 : YNode).
Abbreviation tinv := (tinv E T max0 root0).
Abbreviation inv := (inv E T max0 root0).
Abbreviation measure := (measure T).

(** ** Reads *)

Definition resume_with (p : Path) (nid : SHAMapNodeID) (rs : list (Path * SHAMapNodeID)) : list (Path * SHAMapNodeID) :=
  (p, nid) :: filter (fun r => r.1 <> p) rs.

Lemma resume_subset p nid rs : rs.*1 ⊆ (resume_with p nid rs).*1.
Proof.
  intros q Hq. apply list_elem_of_fmap in Hq as (r & -> & Hr). destruct (decide (r.1 = p)) as [<-|Hne]; [by left|].
  right. apply list_elem_of_fmap_2. by apply list_elem_of_filter.
Qed.
Lemma resume_work (f : Path -> nat) p nid rs : (list_sum (map (fun r => f r.1) (resume_with p nid rs)) <= f p + list_sum (map (fun r => f r.1) rs))%nat /\
  (p ∈ rs.*1 -> (list_sum (map (fun r => f r.1) (resume_with p nid rs)) <= list_sum (map (fun r => f r.1) rs))%nat).
Proof.
  unfold resume_with. cbn [map]. rewrite list_sum_cons. cbn [fst]. induction rs as [|r rs IH]; [cbn; split; [done|set_solver]|].
  rewrite filter_cons. cbn [map]. rewrite list_sum_cons. case_decide as Er; cbn [map]; rewrite ?list_sum_cons.
  - split; [lia|]. rewrite fmap_cons. intros [Eq|Hin]%elem_of_cons; [done|]. apply IH in Hin. lia.
  - rewrite Er. split; [lia|]. intros _. lia.
Qed.

(** A read that found its node. *)
Lemma read_found mn es p nid i reads n h o y : let old := set_deferred (mkDeferred p nid i :: reads) mn in tinv old ->
  node_at (mn_root mn) p = Some n -> branch n i = Some (h, o) -> fetchNodeFromDB E h = Some y ->
  let mn1 := set_root (update_at (mn_root mn) p (canonicalizeChild i y)) mn in
  let mn' := set_resumes (resume_with p nid (resumes mn)) mn1 in
  tinv (set_deferred reads mn') /\ grows (mn_root mn) (mn_root mn') /\ (inv old es -> inv (set_deferred reads mn') es /\ (measure mn' es <= measure mn es)%nat).
Proof.
  intros old Ht Hn Hb Hy mn1 mn'.
  assert (grows (mn_root mn) (mn_root mn')) as Hgr by (eapply grows_update; [exact Hn|apply keeps_hook]).
  pose proof Ht as [_ Hpart Hmk _ _ _ _ _ Hde Hrs]. cbn in Hpart, Hmk, Hde, Hrs. apply Forall_cons in Hde as [Hd Hde].
  destruct Hd as (n' & h' & o' & Hn' & Hb' & Hid & Ho & Hcl & Hcf & Hbk). cbn [d_parent d_parentID d_branch] in *.
  rewrite Hn in Hn'. injection Hn' as <-. rewrite Hb in Hb'. injection Hb' as <- <-.
  destruct n as [|bs g]; [done|]. destruct (part_inner_at _ _ _ _ _ Hpart Hn) as (ch & Hch & Hpn).
  destruct (part_branch_inv _ _ _ _ _ _ Hpn Hb) as (c & Hgc & -> & _).
  assert (tnode_at T (p ++ [i]) = Some c) as Hci by (by rewrite (tnode_at_snoc _ _ _ _ Hch)).
  assert (Forall (fun r => inner_at (mn_root mn) r.1 /\ names r.2 r.1) (resume_with p nid (resumes mn))) as Hrs'.
  { apply Forall_cons. split; [split; [by eexists _, _|done]|]. apply Forall_forall. intros r [_ Hr]%list_elem_of_filter.
    rewrite Forall_forall in Hrs. by apply Hrs. }
  assert (forall q j, todo es (mkDeferred p nid i :: reads) (resumes mn) q j -> todo es reads (resume_with p nid (resumes mn)) q j) as Hw.
  { intros q j [He|[(d & [->|Hd]%elem_of_cons & Hp & Hj)|Hr]]; [by left| |right; left; by exists d|right; right; by apply resume_subset].
    right. right. cbn in Hp. rewrite <-Hp. by left. }
  destruct o as [x|].
  - assert (update_at (mn_root mn) p (canonicalizeChild i y) = mn_root mn) as Er.
    { eapply update_at_fix; [exact Hn|]. cbn [canonicalizeChild]. by rewrite (branch_lookup _ _ _ _ Hb). }
    destruct Ho as [|[Ho _]]; [done|]. unfold mn', mn1. rewrite Er.
    assert (tinv (set_deferred reads (set_resumes (resume_with p nid (resumes mn)) (set_root (mn_root mn) mn)))) as Ht'.
    { destruct Ht. split; try done. eapply Forall_impl; [exact Hde|]. intros d (n1 & h1 & o1 & ? & ? & ? & Ho1 & ?). exists n1, h1, o1.
      split_and!; try done; [|naive_solver..]. destruct Ho1 as [?|[? ?]]; [by left|right]. split; [by apply resume_subset|done]. }
    split_and!; [done|apply grows_refl|]. intros [_ Hv Hg Hf Hc]. split.
    + split; try done. by eapply good_mono; [exact Hg|done|intros q j _; apply Hw].
    + unfold SHAMapMissingLoop.measure. cbn [resumes set_resumes set_root mn_root]. pose proof (proj2 (resume_work (work_at T) p nid (resumes mn)) Ho). lia.
  - pose proof (place_nonzero ty T HT Hnz _ _ Hci) as Hcz. destruct (proper_at _ _ _ _ _ _ HT Hci) as [q Hq].
    destruct (fetchNodeFromDB_sound E HE _ _ Hy) as (Hh & Hcons & x & Ex). assert (part y c) as Hpy by (by eapply sound_part).
    assert (tinv (set_deferred reads mn')) as Ht'.
    { eapply tinv_hook with (rs := resumes mn); [|exact Hn|exact Hb|exact Hci|done|subst y; by apply marks_fresh| | |apply resume_subset|done].
      - destruct Ht. by split.
      - unfold resident, fetchNodeNT. rewrite Hcl, Hbk, Hy. by eexists.
      - right. right. split; [by left|by eexists]. }
    split_and!; [done..|]. intros [_ Hv Hg Hf Hc]. split; [split|].
    + done.
    + by eapply valids_grow.
    + eapply good_mono; [eapply good_hook; [exact Hg|exact Hn|exact Hb|]|done|intros q' j _; apply Hw].
      right. left. eexists. split; [by left|done].
    + by eapply flags_grow.
    + done.
    + unfold SHAMapMissingLoop.measure. cbn [resumes mn' set_resumes mn_root mn1 set_root]. pose proof (proj1 (resume_work (work_at T) p nid (resumes mn))) as Hw1.
      pose proof (ysize_hook _ _ _ _ _ y Hn Hb) as Hsz. pose proof (work_at_le T p) as Hwl. pose proof (ysize_part _ _ (tinv_part _ _ _ _ _ Ht')) as Hle.
      cbn [mn_root set_deferred set_resumes set_root mn' mn1] in Hle.
      assert (node_count T - ysize (mn_root mn) = S (node_count T - ysize (mn_root mn) - 1))%nat as -> by lia.
      set (a := (node_count T - ysize (mn_root mn) - 1)%nat). assert (node_count T - ysize (update_at (mn_root mn) p (canonicalizeChild i y)) <= a)%nat as Ha by lia.
      pose proof (Nat.mul_le_mono_r _ _ (S (work T)) Ha). lia.
Qed.

(** A read that found nothing. *)
Lemma read_drop mn p nid i reads : tinv (set_deferred (mkDeferred p nid i :: reads) mn) -> tinv (set_deferred reads mn).
Proof. intros [? ? ? ? ? ? ? ? Hde]. split; try done. by apply Forall_cons in Hde as [_ Hde]. Qed.

Lemma read_known mn mn' es p nid i reads n h o : inv (set_deferred (mkDeferred p nid i :: reads) mn) es -> node_at (mn_root mn) p = Some n -> branch n i = Some (h, o) ->
  tinv (set_deferred reads mn') -> mn_root mn' = mn_root mn -> missingHashes mn ⊆ missingHashes mn' -> mn_cache mn' = mn_cache mn -> resumes mn' = resumes mn ->
  h ∈ missingHashes mn' -> inv (set_deferred reads mn') es.
Proof.
  intros [_ Hv Hg Hf Hc] Hn Hb Ht Er Hh Eca Ers Hin. split; cbn in *; rewrite ?Er, ?Ers, ?Eca; try done.
  eapply (good_settle _ _ _ _ _ _ _ p _ i); [exact Hg|exact Hn|..].
  - intros x [?|?]; [left; by apply Hh|by right].
  - intros q j [He|[(d & [->|Hd]%elem_of_cons & Hp & Hj)|Hr]]; [left; by left|by right|left; right; left; by exists d|left; by do 2 right].
  - intros h' o' Hb' HnK _. rewrite Hb in Hb'. injection Hb' as <- <-. destruct HnK. by left.
Qed.

Definition reads_post (mn mn' : MissingNodes) (es : list StackEntry) : Prop :=
  tinv (set_deferred [] mn') /\ grows (mn_root mn) (mn_root mn') /\ mn_stack mn' = mn_stack mn /\ (mn_max mn' <= mn_max mn)%Z /\
  ((0 < mn_max mn')%Z -> inv (set_deferred [] mn') es /\ (measure mn' es <= measure mn es)%nat).

Lemma reads_ok es : forall reads mn, tinv (set_deferred reads mn) -> ((0 < mn_max mn)%Z -> inv (set_deferred reads mn) es) ->
  exists mn', deferred_loop E reads mn = Ok mn' /\ reads_post mn mn' es.
Proof.
  induction reads as [|[p nid i] reads IH]; intros mn Ht Hi.
  { exists mn. split; [done|]. split_and!; [done|apply grows_refl|done..|]. intros Hmax. split; [by apply Hi|done]. }
  pose proof Ht as [_ Hpart _ _ _ _ _ _ Hde _]. cbn in Hpart, Hde. apply Forall_cons in Hde as [Hd _].
  destruct Hd as (n & h & o & Hn & Hb & Hid & Ho & Hcl & Hcf & Hbk). cbn [d_parent d_parentID d_branch] in *.
  cbn [deferred_loop]. rewrite Hn, Hb. destruct (fetchNodeFromDB E h) as [y|] eqn:Ey.
  { destruct (read_found mn es p nid i reads n h o y Ht Hn Hb Ey) as (Ht' & Hgr & Hi').
    destruct (IH _ Ht') as (mn' & Ed & Hpost & Hgr' & Est & Hm & Hi2); [intros Hmax; by apply Hi', Hi|].
    exists mn'. split; [exact Ed|]. split_and!; [done|by eapply grows_trans|done..|]. intros Hmax. destruct (Hi2 Hmax) as [? Hm2]. split; [done|].
    destruct Hi' as [_ Hm1]; [apply Hi; cbn in Hm; lia|]. lia. }
  assert (o = None) as -> by (destruct Ho as [|[_ [? ?]]]; done). destruct n as [|bs g]; [done|].
  destruct (part_inner_at _ _ _ _ _ Hpart Hn) as (ch & Hch & Hpn). destruct (part_branch_inv _ _ _ _ _ _ Hpn Hb) as (c & Hgc & -> & _).
  destruct (Z.ltb_spec 0 (mn_max mn)) as [Hpos|Hpos]; cbn [andb]; cycle 1.
  { destruct (IH mn) as (mn' & -> & Ht' & Hgr & Est & Hm & Hi'); [by eapply read_drop|lia|]. exists mn'. split; [done|]. by split_and!. }
  case_bool_decide as Eh; cbn [negb].
  { destruct (IH mn) as (mn' & -> & Hpost); [by eapply read_drop| |by exists mn'].
    intros _. eapply read_known; [by apply Hi|exact Hn|exact Hb|by eapply read_drop|done..]. }
  destruct (names_child ty T HT Hnz _ _ _ _ _ Hid Hch Hgc) as (childID & -> & Hcn). cbn [mbind result_bind].
  assert (tinv (set_deferred reads (add_missing childID (node_hash c) mn))) as Ht'.
  { apply read_drop with (p := p) (nid := nid) (i := i). eapply tinv_missing with (mn := set_deferred (mkDeferred p nid i :: reads) mn) (p := p) (i := i); try done.
    - by rewrite (tnode_at_snoc _ _ _ _ Hch).
    - unfold fetchNodeNT. by rewrite Hcl, Hbk, Ey. }
  destruct (IH _ Ht') as (mn' & -> & Hpost & Hgr & Est & Hm & Hi').
  { intros _. eapply read_known; [by apply Hi|exact Hn|exact Hb|exact Ht'|..]; cbn; set_solver. }
  exists mn'. split; [done|]. split_and!; [done..|cbn in Hm; lia|done].
Qed.

Lemma inv_perm mn df es : mn_deferred mn ≡ₚ df -> inv mn es -> inv (set_deferred df mn) es.
Proof.
  intros Hp [Ht Hv Hg Hf Hc]. split; try done.
  - destruct Ht. split; try done. cbn. by rewrite <-Hp.
  - eapply good_mono; [exact Hg|done|]. intros q j _. apply todo_mono; [done| |done]. intros d. cbn. by rewrite Hp.
Qed.
Lemma tinv_perm mn df : mn_deferred mn ≡ₚ df -> tinv mn -> tinv (set_deferred df mn).
Proof. intros Hp []. split; try done. cbn. by rewrite <-Hp. Qed.

(** Afterwards no read is waited for. *)
Lemma deferred_ok mn es : tinv mn -> ((0 < mn_max mn)%Z -> inv mn es) ->
  exists mn', (if (length (mn_deferred mn) =? 0)%nat then Ok mn else gmnProcessDeferredReads E mn) = Ok mn' /\
    mn_deferred mn' = [] /\ tinv mn' /\ grows (mn_root mn) (mn_root mn') /\ mn_stack mn' = mn_stack mn /\ (mn_max mn' <= mn_max mn)%Z /\
    ((0 < mn_max mn')%Z -> inv mn' es /\ (measure mn' es <= measure mn es)%nat).
Proof.
  intros Ht Hi. destruct (mn_deferred mn) as [|d df] eqn:Ed.
  { exists mn. split_and!; [done|done|done|apply grows_refl|done..|]. intros Hmax. split; [by apply Hi|done]. }
  cbn [length Nat.eqb]. unfold gmnProcessDeferredReads. rewrite Ed.
  assert (mn_deferred mn ≡ₚ finished E (draws mn) (d :: df)) as Hp by (rewrite Ed; symmetry; apply (env_reads _ HE)).
  destruct (reads_ok es (finished E (draws mn) (d :: df)) mn) as (mn' & -> & Ht' & Hgr & Est & Hm & Hi').
  - by apply tinv_perm.
  - intros Hmax. apply inv_perm; [done|by apply Hi].
  - cbn [mbind result_bind]. exists (draw (set_deferred [] mn')). split_and!; [done..|]. intros Hmax. destruct (Hi' Hmax). split; [by apply inv_draw|done].
Qed.

(** ** Nodes to look at again *)

Definition redrawn (mn mn' : MissingNodes) : Prop := exists k, mn' = Nat.iter k draw mn.
Lemma redrawn_refl mn : redrawn mn mn.
Proof. by exists 0%nat. Qed.
Lemma redrawn_draw mn mn' : redrawn (draw mn) mn' -> redrawn mn mn'.
Proof. intros [k ->]. exists (S k). by rewrite Nat.iter_succ_r. Qed.
Lemma redrawn_same mn mn' : redrawn mn mn' ->
  mn_root mn' = mn_root mn /\ mn_cache mn' = mn_cache mn /\ missingHashes mn' = missingHashes mn /\ mn_deferred mn' = mn_deferred mn /\ mn_max mn' = mn_max mn /\
  (tinv (set_resumes [] mn) -> tinv (set_resumes [] mn')).
Proof.
  intros [k ->]. induction k as [|k (IH2 & IH3 & IH4 & IH5 & IH6 & IH7)]; [done|]. cbn [Nat.iter]. split_and!; [done..|]. intros Ht. by destruct (IH7 Ht).
Qed.

Lemma resume_fold l : forall mn st, Forall (fun r => inner_at (mn_root mn) r.1) l ->
  exists mn' st', foldl (resume_entry E) (mn, st) l = (mn', st' ++ st) /\ redrawn mn mn' /\
    Forall (fun e => exists r, r ∈ l /\ se_node e = r.1 /\ se_nodeID e = r.2 /\ se_currentChild e = 0%nat) st' /\
    (forall r, r ∈ l -> (exists bs, node_at (mn_root mn) r.1 = Some (YInner bs (generation E))) \/ exists e, e ∈ st' /\ se_node e = r.1 /\ se_currentChild e = 0%nat) /\
    (part (mn_root mn) T -> list_sum (map (left_at T) st') <= list_sum (map (fun r => work_at T r.1) l))%nat.
Proof.
  induction l as [|r l IH]; intros mn st Hl.
  { exists mn, []. split_and!; [done|apply redrawn_refl|by apply Forall_nil|set_solver|done]. }
  apply Forall_cons in Hl as [Hr Hl]. cbn [foldl]. unfold resume_entry at 2. pose proof Hr as (bs & g & Hn). rewrite Hn.
  destruct (isFullBelow (YInner bs g) (generation E)) eqn:Ef.
  - destruct (IH mn st Hl) as (mn' & st' & -> & Hre & Hst & Hall & Hw). exists mn', st'. split_and!; [done..| | |].
    + eapply Forall_impl; [exact Hst|]. intros e (r' & Hr' & Hrest). exists r'. split; [by right|done].
    + intros r' [->|Hr']%elem_of_cons; [|by apply Hall]. left. apply N.eqb_eq in Ef. subst g. by exists bs.
    + intros Hp. cbn [map]. rewrite list_sum_cons. specialize (Hw Hp). lia.
  - destruct (IH (draw mn) (mkEntry r.1 r.2 (randInt E (draws mn)) 0 true :: st) Hl) as (mn' & st' & -> & Hre & Hst & Hall & Hw).
    exists mn', (st' ++ [mkEntry r.1 r.2 (randInt E (draws mn)) 0 true]). split_and!; [by rewrite <-app_assoc|by apply redrawn_draw|..].
    + apply Forall_app. split; [|apply Forall_singleton; exists r; by split; [left|]].
      eapply Forall_impl; [exact Hst|]. intros e (r' & Hr' & Hrest). exists r'. split; [by right|done].
    + intros r' [->|Hr']%elem_of_cons; [right; eexists; split; [apply elem_of_app; right; by left|done]|].
      destruct (Hall r' Hr') as [?|(e & He & ?)]; [by left|right]. exists e. split; [apply elem_of_app; by left|done].
    + intros Hp. rewrite map_app, list_sum_app. cbn [map]. rewrite !list_sum_cons. cbn [list_sum foldr]. specialize (Hw Hp).
      destruct (inner_place ty T HT Hnz _ _ Hp Hr) as (bs' & g' & ch & _ & Hch & Hpi & Hlen).
      rewrite (left_fresh T _ _ _ _ ch Hch) by (inversion Hpi; subst; lia). lia.
Qed.

Lemma list_sum_perm {A} (f : A -> nat) l l' : l ≡ₚ l' -> list_sum (map f l) = list_sum (map f l').
Proof. induction 1; cbn [map]; rewrite ?list_sum_cons; lia. Qed.
Lemma chained_fresh es : Forall (fun e => se_currentChild e = 0%nat) es -> chained es.
Proof. induction 1 as [|e es He Hes IH]; [done|]. cbn. split; [|done]. destruct Hes; [done|by left]. Qed.

Lemma recheck_ok mn : inv mn [] -> mn_deferred mn = [] -> mn_stack mn = [] -> let mn' := recheck E mn in
  inv mn' (mn_stack mn') /\ mn_deferred mn' = [] /\ resumes mn' = [] /\ mn_max mn' = mn_max mn /\
  Forall (fun e => se_currentChild e = 0%nat) (mn_stack mn') /\ (measure mn' (mn_stack mn') <= measure mn [])%nat.
Proof.
  intros [Ht Hv Hg _ _] Ed Es mn'. pose proof (env_resumes _ HE (draws mn) (resumes mn)) as Hperm. pose proof (tinv_part _ _ _ _ _ Ht) as Hpart.
  pose proof Ht as [_ _ _ _ _ _ _ _ _ Hrs].
  assert (Forall (fun r => inner_at (mn_root mn) r.1 /\ names r.2 r.1) (resumeOrder E (draws mn) (resumes mn))) as Hrs' by (by rewrite Hperm).
  destruct (resume_fold (resumeOrder E (draws mn) (resumes mn)) mn (mn_stack mn)) as (mn1 & st & Ef & Hre & Hst & Hall & Hw).
  { eapply Forall_impl; [exact Hrs'|]. by intros r [? _]. }
  assert (mn' = draw (set_resumes [] (set_stack st mn1))) as -> by (unfold mn', recheck; by rewrite Ef, Es, app_nil_r).
  destruct (redrawn_same _ _ Hre) as (Er & Eca & Eh & Edf & Em & Htr). cbn [mn_stack draw set_resumes set_stack mn_deferred resumes mn_max mn_root mn_cache missingHashes].
  assert (Forall (fun e => se_currentChild e = 0%nat) st) as H0 by (eapply Forall_impl; [exact Hst|]; by intros e (r & _ & _ & _ & ?)).
  split_and!; [split|congruence|done|done|done|]; cbn [mn_stack draw set_resumes set_stack mn_deferred resumes mn_max mn_root mn_cache missingHashes];
    rewrite ?Er, ?Eca, ?Eh, ?Edf.
  - apply (Htr). destruct Ht. split; try done. cbn. by rewrite Ed.
  - rewrite Forall_forall in Hrs'. eapply Forall_impl; [exact Hst|]. intros e (r & Hr & Ep & Ei & E0). destruct (Hrs' r Hr) as [Hin Hna].
    unfold valid. rewrite Ep, Ei, E0. split_and!; [done..|lia].
  - eapply good_skip; [exact Hg|]. intros p j bs g x Hp Hj Hw'. cbn [app] in *. destruct Hw' as [(e & k & He & _)|[(d & Hd & _)|Hr]]; [by apply elem_of_nil in He|rewrite Ed in Hd; by apply elem_of_nil in Hd|].
    apply list_elem_of_fmap in Hr as (r & -> & Hr). destruct (Hall r) as [(bs' & Hn)|(e & He & En & E0)]; [by rewrite Hperm|right; congruence|left; left].
    pose proof (branch_lt _ _ _ _ Hj) as Hlt. destruct (inner_place ty T HT Hnz (mn_root mn) r.1 Hpart) as (bs2 & g2 & _ & Hn2 & _ & _ & Hlen); [by eexists _, _|].
    assert (bs2 = bs) as -> by congruence. rewrite Hlen in Hlt. destruct (branch_index j Hlt (se_firstChild e)) as (m & Hm & Emj). exists e, m. split_and!; [done|done|lia..|done].
  - eapply Forall_impl; [exact H0|]. intros e E0 _ k c Hk. rewrite E0 in Hk. cbn in Hk. lia.
  - by apply chained_fresh.
  - unfold SHAMapMissingLoop.measure. cbn [resumes draw set_resumes set_stack mn_root map list_sum foldr]. rewrite Er. specialize (Hw Hpart).
    rewrite (list_sum_perm _ _ _ Hperm) in Hw.
    lia.
Qed.

(** ** The loops *)

Definition pending (mn : MissingNodes) (pos : option StackEntry) : Prop :=
  match pos with Some e => gmn_start E T max0 root0 mn e | None => inv mn [] /\ mn_stack mn = [] /\ (0 < mn_max mn)%Z end.
Definition entries (mn : MissingNodes) (pos : option StackEntry) : list StackEntry := match pos with Some e => e :: mn_stack mn | None => [] end.

(** Taking up the parent of a node that is done. *)
Lemma start_parent B mn e0 e st : gmn_post E T max0 root0 B mn e0 false -> mn_stack mn = e :: st ->
  let '(mkEntry node nodeID firstChild nextChild full) := e in
  let e' := mkEntry node nodeID firstChild nextChild (if (nextChild =? 0)%nat then true else full && se_fullBelow e0) in
  gmn_start E T max0 root0 (set_stack st mn) e' /\ (measure (set_stack st mn) (e' :: st) < B)%nat.
Proof.
  intros (Ht & Hmax & Hinv & Hl & Hm & Hbel) Es. rewrite Es in *. destruct e as [p nid first cur full]. destruct Hinv as [_ Hv Hg Hf Hc].
  set (full' := if (cur =? 0)%nat then true else full && se_fullBelow e0). cbn [linked se_currentChild se_node] in Hl.
  apply Forall_cons in Hf as [Hf0 Hf]. cbn [se_currentChild] in Hf0.
  assert (flag_ok E T (mn_root mn) cur (mkEntry p nid first cur full')) as Hflag.
  { intros Efull k c Hk Hkc. cbn [se_fullBelow se_node] in *. unfold full' in Efull. destruct (Nat.eqb_spec cur 0) as [|Hne]; [lia|].
    apply andb_true_iff in Efull as [-> Hwas]. destruct (decide (k = pred cur)) as [->|]; [|by apply (Hf0 eq_refl); [lia|]].
    destruct Hl as [?|Ep]; [lia|]. change (branch_of (mkEntry p nid first cur true) (pred cur)) with (branch_of (mkEntry p nid first cur full') (pred cur)) in Ep.
    rewrite <-Ep in *. by apply Hbel. }
  split_and!; [split_and!|].
  - apply inv_stack. split; [done| | | |done].
    + apply Forall_cons in Hv as [Hv0 Hv]. by apply Forall_cons.
    + eapply good_mono; [exact Hg|done|]. intros q j _ [(e & k & [->|He]%elem_of_cons & Hp & Hk & Hj)|Hr]; [| |by right].
      * left. eexists _, k. by split; [left|].
      * left. exists e, k. by split; [right|].
    + apply Forall_cons. split; [|done]. intros Et k c Hk. apply Hflag; [done|cbn in Hk; lia].
  - done.
  - done.
  - done.
Qed.

Lemma traverse_ok fuel mn pos : pending mn pos -> (measure mn (entries mn pos) < fuel)%nat ->
  exists mn' pos', traverse E fuel mn pos = Ok (mn', pos') /\ tinv mn' /\
    ((0 < mn_max mn')%Z -> pending mn' pos' /\ (measure mn' (entries mn' pos') <= measure mn (entries mn pos))%nat /\
       (pos <> None -> mn_deferred mn = [] -> measure mn' (entries mn' pos') < measure mn (entries mn pos))%nat).
Proof.
  revert mn pos. induction fuel as [|fuel IH]; intros mn pos Hp Hfu; [lia|]. cbn [traverse]. destruct pos as [e|]; cycle 1.
  { exists mn, None. split_and!; [done|by destruct Hp as [[] _]|]. intros _. by split_and!. }
  cbn [pending entries] in Hp, Hfu |- *. destruct (Nat.ltb_spec kMaxDefer (length (mn_deferred mn))) as [Hdef|Hdef].
  { exists mn, (Some e). split_and!; [done|by destruct Hp as [[] _]|]. intros _. split_and!; [done..|]. intros _ Ed. rewrite Ed in Hdef. cbn in Hdef. lia. }
  destruct (gmn_ok E HE ty T HT Hnz max0 root0 (S fuel) (measure mn (e :: mn_stack mn)) mn e Hp) as (mn1 & e1 & enough & -> & Hpost); [lia..|].
  cbn [mbind result_bind]. destruct enough.
  { cbn [orb]. destruct Hpost as [Ht Hmax]. exists mn1, (Some e1). split_and!; [done..|]. lia. }
  pose proof Hpost as (Ht & Hmax & Hinv & _ & Hm & _). cbn [orb]. rewrite (proj2 (Z.leb_gt _ _) Hmax). destruct (mn_stack mn1) as [|e2 st] eqn:Est.
  - destruct fuel as [|fuel]; [lia|]. exists mn1, None. cbn [entries]. split_and!; [done..|]. intros _. split_and!; [done..|lia|lia].
  - pose proof (start_parent _ _ _ _ _ Hpost Est) as Hs. destruct e2 as [p nid first cur full]. destruct Hs as [Hs Hm2].
    destruct (IH _ (Some _) Hs) as (mn' & pos' & -> & Ht' & Hp'); [cbn [entries mn_stack set_stack]; lia|].
    exists mn', pos'. split_and!; [done..|]. intros Hmax'. destruct (Hp' Hmax') as (Hpe & Hle & _). cbn [entries mn_stack set_stack] in Hle. split_and!; [done|lia..].
Qed.

Definition settled (mn : MissingNodes) : Prop :=
  good (generation E) (known (missingHashes mn) (mn_cache mn)) (fun _ _ => False) (mn_root mn) [].
Lemma inv_settled mn : inv mn [] -> mn_deferred mn = [] -> resumes mn = [] -> settled mn.
Proof.
  intros [_ _ Hg _ _] Ed Er. eapply good_mono; [exact Hg|done|]. rewrite Ed, Er. intros q j _ [(e & k & He & _)|[(d & Hd & _)|Hr]]; by eapply elem_of_nil.
Qed.

Lemma loop_ok fuel mn e : gmn_start E T max0 root0 mn e -> mn_deferred mn = [] -> (measure mn (e :: mn_stack mn) < fuel)%nat ->
  exists mn', missing_loop E fuel mn (Some e) = Ok mn' /\ tinv mn' /\ ((0 < mn_max mn')%Z -> settled mn').
Proof.
  revert mn e. induction fuel as [|fuel IH]; intros mn e Hst Ed Hfu; [lia|]. cbn [missing_loop].
  destruct (traverse_ok (S fuel) mn (Some e) Hst Hfu) as (mn1 & pos1 & -> & Ht1 & Hp1). cbn [mbind result_bind entries] in *.
  destruct (deferred_ok mn1 (entries mn1 pos1) Ht1) as (mn2 & -> & Ed2 & Ht2 & Hgr & Est & Hmle & Hi2).
  { intros Hmax. destruct (Hp1 Hmax) as [Hpe _]. destruct pos1; [by destruct Hpe as [? _]|by destruct Hpe]. }
  cbn [mbind result_bind]. destruct (Z.leb_spec (mn_max mn2) 0) as [Hle|Hgt]; [exists mn2; split_and!; [done..|lia]|].
  destruct (Hp1 ltac:(lia)) as (Hpe & _ & Hlt). specialize (Hlt ltac:(done) Ed). destruct (Hi2 Hgt) as [Hinv2 Hm2].
  destruct pos1 as [e1|]; cbn [entries pending] in *.
  { apply IH; [|done|rewrite Est; lia]. destruct Hpe as (_ & Hflag & _). split_and!; [by rewrite Est|by eapply flag_grows|done]. }
  destruct Hpe as (_ & Es1 & _). rewrite Es1 in Est.
  set (mn3 := match mn_stack mn2, resumes mn2 with [], _ :: _ => recheck E mn2 | _, _ => mn2 end).
  assert (inv mn3 (mn_stack mn3) /\ mn_deferred mn3 = [] /\ resumes mn3 = [] /\ mn_max mn3 = mn_max mn2 /\
    Forall (fun e => se_currentChild e = 0%nat) (mn_stack mn3) /\ (measure mn3 (mn_stack mn3) <= measure mn2 [])%nat) as (Hinv3 & Ed3 & Er3 & Em3 & H0 & Hm3).
  { unfold mn3. rewrite Est. destruct (resumes mn2) as [|r rs] eqn:Ers; [|by apply recheck_ok]. rewrite Est. by split_and!. }
  destruct (mn_stack mn3) as [|e3 st] eqn:Es3.
  - exists mn3. split_and!; [done|by destruct Hinv3|]. intros _. by apply inv_settled.
  - apply Forall_cons in H0 as [He3 _]. apply IH; [|done|cbn [mn_stack set_stack]; change (measure (set_stack st mn3)) with (measure mn3); lia].
    split_and!; [by apply inv_stack| |cbn; lia]. intros _ k c Hk. rewrite He3 in Hk. lia.
Qed.

(** ** What the search finds *)

Definition held (root : YNode) (p : Path) (c : node) : Prop := is_Some (node_at root p) \/ resident E (node_hash c).

Lemma settled_held mn : tinv mn -> settled mn -> forall p c, tnode_at T p = Some c ->
  held (mn_root mn) p c \/ exists q r c', p = q ++ r /\ tnode_at T q = Some c' /\ node_hash c' ∈ (missingNodes mn).*2.
Proof.
  intros Ht Hs p c Hc. pose proof Ht as [_ Hpart Hmk Hca _ Hha _ _ _ _].
  cut (forall r q y, p = q ++ r -> node_at (mn_root mn) q = Some y -> good (generation E) (known (missingHashes mn) (mn_cache mn)) (fun _ _ => False) y q ->
    held (mn_root mn) p c \/ exists q r c', p = q ++ r /\ tnode_at T q = Some c' /\ node_hash c' ∈ (missingNodes mn).*2).
  { intros Hcut. by apply (Hcut p [] (mn_root mn)). }
  induction r as [|i r IH]; intros q y -> Hy Hg; [left; left; rewrite app_nil_r; by eexists|].
  rewrite tnode_at_app in Hc. destruct (tnode_at T q) as [cq|] eqn:Eq; [|done]. cbn [mbind option_bind] in Hc.
  destruct (part_at _ _ _ _ Hpart Hy) as (cq' & Eq' & Hpq). rewrite Eq in Eq'. injection Eq' as <-.
  inversion Hg as [ty' item|bs|bs g ? Ho Hch]; subst.
  - by inversion Hpq; subst.
  - left. apply (Hmk _ _ _ Hy ltac:(apply N.eqb_refl) Eq _ _ Hc).
  - destruct cq as [|ch]; [inversion Hpq|]. cbn in Hc. destruct (getChild ch i) as [ci|] eqn:Eci; [|done]. cbn in Hc.
    assert (tnode_at T (q ++ [i]) = Some ci) as Hci by (by rewrite (tnode_at_snoc _ _ _ _ Eq)).
    destruct (part_branch_some _ _ _ _ Hpq Eci) as [o Hb]. assert (q ++ i :: r = (q ++ [i]) ++ r) as Ep by (by rewrite <-app_assoc).
    destruct (decide (node_hash ci ∈ missingHashes mn)) as [Hin|Hnin].
    { right. exists (q ++ [i]), r, ci. rewrite Hha, elem_of_list_to_set in Hin. by split_and!. }
    destruct (decide (node_hash ci ∈ mn_cache mn)) as [Hin|Hnin2]; [left; rewrite Ep; by apply (Hca _ _ Hci Hin)|].
    assert (~ known (missingHashes mn) (mn_cache mn) (node_hash ci)) as Hnk by (by intros [?|?]).
    destruct (Ho _ _ _ Hb Hnk (fun f => f)) as [yi ->]. eapply (IH (q ++ [i]) yi); [exact Ep|by eapply node_at_snoc|by eapply Hch; [..|exact (fun f => f)]].
Qed.
End search.
