(* ===== verification/SHAMapAcquire.v ===== *)
(** * Acquiring a map, step by step

    What each of [addRootNode], [addKnownNode] and [getMissingNodes] does to a
    map that is a part of the wanted one; [sync_step] is any sequence of them,
    with whatever bytes, while the rest of the server goes on; [acquire] asks
    for what is missing until nothing is. *)

From S2P Require Import Prelude LedgerEntry Serializer SHAMapNodeID SHAMap SHAMapSpec SHAMapHash SHAMapProof SHAMapSync SHAMapSyncSpec SHAMapMissing SHAMapMissingLoop.
Local Open Scope N_scope.

(** ** Sessions *)

Definition empty_root : YNode := YInner (replicate 16 None) 0.

(** A map that is to be acquired. *)
Definition wanted : SyncMap := mkSync empty_root Synching [].

Record Session : Type := mkSession { s_env : Env; s_map : SyncMap; s_full : gset N }.

Section acquire.
Context `{Digest}.
Abbreviation node := (SHAMapTreeNode Blob).

Inductive sync_step (fuel : nat) (target : N) : Session -> Session -> Prop :=
| step_root E m C raw m' r : regular_wire raw -> addRootNode E target raw m = (m', r) ->
    sync_step fuel target (mkSession E m C) (mkSession E m' C)
| step_known E m C touched nid raw m' r : regular_wire raw -> (forall h, touched h = true -> h ∈ C) -> addKnownNode E touched nid raw m = (m', r) ->
    sync_step fuel target (mkSession E m C) (mkSession E m' C)
| step_missing E m C max missing C' m' : (0 < max)%Z -> yhash (root_ m) <> 0 -> getMissingNodes E fuel max C m = Ok (missing, C', m') ->
    sync_step fuel target (mkSession E m C) (mkSession E m' C')
| step_env E E' m C : env_ok E' -> generation E' = generation E -> (forall h, resident E h -> resident E' h) ->
    sync_step fuel target (mkSession E m C) (mkSession E' m C)
| step_expire E m C C' : C' ⊆ C -> sync_step fuel target (mkSession E m C) (mkSession E m C').

(** ** One step *)

Context (ty : SHAMapNodeType) (T : node) (HT : proper ty 0 0 T) (Hnz : node_hash T <> 0).

(** The map is a part of the wanted one, its marks and the full-below cache
    are right. *)
Record acquiring (E : Env) (C : gset N) (root : YNode) : Prop := {
  a_part : part root T;
  a_marks : marks E root T;
  a_cache : forall p c, tnode_at T p = Some c -> node_hash c ∈ C -> below E root p c
}.
Definition complete (E : Env) (root : YNode) : Prop := forall p c, tnode_at T p = Some c -> held E root p c.

Lemma complete_below E root : complete E root <-> below E root [] T.
Proof. done. Qed.
Lemma acquiring_grows E C root root' : acquiring E C root -> grows root root' -> part root' T -> marks E root' T -> acquiring E C root'.
Proof. intros [_ _ Hc] Hg Hp Hm. split; [done..|]. intros p c Hp' Hin. eapply below_grows; [done|]. by apply Hc. Qed.

Definition sync_fuel : nat := S (work T + node_count T * S (work T)).

Definition covered (missing : list (SHAMapNodeID * N)) (E : Env) (root : YNode) : Prop :=
  forall p c, tnode_at T p = Some c -> held E root p c \/ exists q r c', p = q ++ r /\ tnode_at T q = Some c' /\ node_hash c' ∈ missing.*2.

Definition missing_post (E : Env) (max : Z) (m : SyncMap) (missing : list (SHAMapNodeID * N)) (C' : gset N) (m' : SyncMap) : Prop :=
  acquiring E C' (root_ m') /\ grows (root_ m) (root_ m') /\ gotNodes m' = gotNodes m /\
  state_ m' = (if (length missing =? 0)%nat then Modifying else state_ m) /\
  Forall (reported E T (root_ m')) missing /\ NoDup missing.*2 /\ (Z.of_nat (length missing) <= max)%Z /\
  ((Z.of_nat (length missing) < max)%Z -> covered missing E (root_ m')).


Lemma complete_covered E root : complete E root -> forall missing, covered missing E root.
Proof. intros Hc missing p c Hp. left. by apply Hc. Qed.

Lemma missing_now E max C root got : (0 < max)%Z -> acquiring E C root -> complete E root -> forall st, missing_post E max (mkSync root st got) [] C (mkSync root Modifying got).
Proof.
  intros Hmax Ha Hc st. split_and!; [done|apply grows_refl|done..|by apply Forall_nil|by apply NoDup_nil|cbn; lia|]. intros _. by apply complete_covered.
Qed.

Lemma missing_ok E fuel max C m : env_ok E -> acquiring E C (root_ m) -> (0 < max)%Z -> (sync_fuel <= fuel)%nat ->
  exists missing C' m', getMissingNodes E fuel max C m = Ok (missing, C', m') /\ missing_post E max m missing C' m'.
Proof.
  intros HE Ha Hmax Hfu. pose proof Ha as [Hp Hm Hc]. destruct m as [root st got]. unfold getMissingNodes. cbn [root_ state_ gotNodes] in *.
  destruct root as [ty' item|bs g].
  { eexists [], C, _. split; [done|]. apply missing_now; [done..|]. by apply (below_leaf E (YLeaf ty' item) [] ty' item T). }
  destruct (isFullBelow (YInner bs g) (generation E)) eqn:Ef.
  { eexists [], C, _. split; [done|]. apply missing_now; [done..|]. by apply (Hm [] (YInner bs g) T eq_refl Ef). }
  set (root := YInner bs g) in *. set (mn := mkMissing root C max [] ∅ [] [] [] 1). set (e := mkEntry [] rootID (randInt E 0) 0 true).
  destruct (part_inner_at root T [] bs g Hp eq_refl) as (ch & Hch & Hpi). destruct (proper_at _ _ _ _ _ _ HT Hch) as [q Hq]. destruct (proper_depth _ _ _ _ Hq) as [_ Hl].
  assert (inner_at root []) as Hin by (by exists bs, g).
  assert (tinv E T max root mn) as Ht by (split; cbn; first [done|apply grows_refl|apply NoDup_nil_2|apply Forall_nil_2|lia]).
  assert (gmn_start E T max root mn e) as Hst.
  { split_and!; [|by intros _ k c Hk; cbn in Hk; lia|done]. split; [done|..].
    - apply Forall_singleton. split_and!; [done|done|cbn; lia].
    - apply good_open; intros i h o Hb _ Hnw; destruct Hnw; left; pose proof (branch_lt _ _ _ _ Hb) as Hlt; inversion Hpi; subst;
        (destruct (branch_index i ltac:(unfold kBranchFactor in Hl; lia) (randInt E 0)) as (k & Hk & Ek); exists e, k; split_and!; [by left|done|cbn; lia|lia|done]).
    - apply Forall_singleton. intros _ k c Hk. cbn in Hk. lia.
    - done. }
  destruct (loop_ok E HE ty T HT Hnz max root fuel mn e Hst eq_refl) as (mn' & -> & Ht' & Hs).
  { unfold measure. cbn [mn_stack mn map resumes mn_root]. rewrite list_sum_cons. unfold e. rewrite (left_fresh T [] _ _ _ ch Hch Hl).
    cbn [list_sum foldr]. pose proof (work_at_le T []). unfold sync_fuel in Hfu.
    assert ((node_count T - ysize root) * S (work T) <= node_count T * S (work T))%nat by (apply Nat.mul_le_mono_r; lia). lia. }
  cbn [mbind result_bind]. eexists _, _, _. split; [done|]. pose proof Ht' as [Hgr Hp' Hm' Hc' Hmi _ Hon [Hco Hge] _ _].
  split_and!; [done|done|done|done|done|done|lia|]. intros Hlt. exact (settled_held E T max root mn' Ht' (Hs ltac:(lia))).
Qed.

(** What is handed to the filter: nodes of the wanted map, in prefixed form,
    with their hashes. *)
Definition sent (x : N * Blob) : Prop :=
  exists p c, tnode_at T p = Some c /\ x = (node_hash c, data_ (serializeWithPrefix (stored_of c) empty_serializer)).

(** A node that comes, whatever it is. *)
Lemma known_ok E C touched nid raw m m' r : env_ok E -> acquiring E C (root_ m) -> sound_wire raw -> addKnownNode E touched nid raw m = (m', r) ->
  acquiring E C (root_ m') /\ grows (root_ m) (root_ m') /\ state_ m' = state_ m /\
  exists l, gotNodes m' = gotNodes m ++ l /\ Forall sent l.
Proof.
  intros HE Ha Hraw E'. assert (acquiring E C (root_ m) /\ grows (root_ m) (root_ m) /\ state_ m = state_ m /\ exists l, gotNodes m = gotNodes m ++ l /\ Forall sent l) as Hsame.
  { split_and!; [done|apply grows_refl|done|]. exists []. by rewrite app_nil_r. }
  unfold addKnownNode in E'. destruct (state_ m) eqn:Est; [by injection E' as <- <-; rewrite Est|by injection E' as <- <-; rewrite Est| |by injection E' as <- <-; rewrite Est].
  destruct (add_walk E walk_fuel touched (root_ m) rootID nid raw) as [[[root got] invalid] r1] eqn:Ew. pose proof Ha as [Hp Hm Hc].
  destruct (add_walk_part E HE ty 0 T _ rootID _ _ _ _ _ _ _ _ HT Hp masked_root Hraw Ew) as (Hp' & Hg & -> & Hgot).
  pose proof (add_walk_marks E HE ty 0 T _ rootID _ _ _ _ _ _ _ _ HT Hp Hm masked_root Hraw Ew) as Hm'.
  pose proof (acquiring_grows _ _ _ _ Ha Hg Hp' Hm') as Ha'. destruct got as [[h n]|]; injection E' as <- <-; unfold gotNode.
  - destruct (Hgot h n eq_refl) as (p & c & Hpc & Hpn & ->). destruct (syncFilter E); cbn [root_ state_ gotNodes].
    + split_and!; [done..|]. eexists. split; [done|]. apply Forall_singleton. exists p, c. split; [done|]. unfold with_prefix. by rewrite (part_stored _ _ Hpn).
    + split_and!; [done..|]. exists []. by rewrite app_nil_r.
  - cbn [root_ state_ gotNodes]. split_and!; [done..|]. exists []. by rewrite app_nil_r.
Qed.

Lemma got_sent E n c p m : tnode_at T p = Some c -> part n c ->
  let m' := gotNode E (node_hash c) n m in root_ m' = root_ m /\ state_ m' = state_ m /\ exists l, gotNodes m' = gotNodes m ++ l /\ Forall sent l.
Proof.
  intros Hp Hn. unfold gotNode. destruct (syncFilter E); cbn; split_and!; [done..| |done|done|].
  - eexists. split; [done|]. apply Forall_singleton. exists p, c. split; [done|]. unfold with_prefix. by rewrite (part_stored _ _ Hn).
  - exists []. by rewrite app_nil_r.
Qed.

(** The root, whatever comes for it. *)
Lemma empty_hash : yhash empty_root = 0.
Proof. done. Qed.
(** The node of the cache with the wanted hash is as good as the one that came. *)
Lemma canonicalize_part E y : env_ok E -> part y T -> marks E y T -> yhash y = node_hash T ->
  let n := canonicalize E (node_hash T) y in part n T /\ marks E n T /\ yhash n = node_hash T.
Proof.
  intros HE Hp Hm Hh. unfold canonicalize. destruct (backed_ E); [|done].
  destruct (cacheLookup E (node_hash T)) as [n|] eqn:Ec; [|done]. cbn.
  destruct (env_cache _ HE _ _ Ec) as [Hn Hcon].
  assert (part n T) as Hpn by (by eapply consistent_part).
  split_and!; [done|by eapply (marks_fetched E HE)|done].
Qed.

Lemma root_ok E raw m m' r : env_ok E -> root_ m = empty_root -> sound_wire raw -> addRootNode E (node_hash T) raw m = (m', r) ->
  m' = m \/ (part (root_ m') T /\ marks E (root_ m') T /\ (state_ m' = state_ m \/ (state_ m' = Modifying /\ complete E (root_ m'))) /\
    exists l, gotNodes m' = gotNodes m ++ l /\ Forall sent l).
Proof.
  intros HE Er Hreg E'. unfold addRootNode in E'. rewrite Er, empty_hash in E'. cbn [N.eqb negb] in E'.
  destruct (makeFromWire raw) as [[n|]|] eqn:Ew; [|injection E' as <- <-; by left..].
  destruct (N.eqb_spec (stored_hash n) (node_hash T)) as [Eh|]; [|injection E' as <- <-; by left]. cbn [negb] in E'. injection E' as <- <-. right.
  assert (part (fresh n) T) as Hp0.
  { eapply consistent_part; [exact HT|done| |unfold yhash; by rewrite stored_fresh]. destruct (Hreg _ Ew). by apply fresh_consistent. }
  destruct (canonicalize_part E (fresh n) HE Hp0 (marks_fresh E HE _ _) ltac:(unfold yhash; by rewrite stored_fresh)) as (Hp & Hm & Hh).
  set (y := canonicalize E (node_hash T) (fresh n)) in *. rewrite Hh.
  destruct (got_sent E y T [] (mkSync y (match y with YLeaf _ _ => Modifying | YInner _ _ => state_ m end) (gotNodes m)) eq_refl Hp) as (-> & -> & Hl).
  split_and!; [done|done| |done]. cbn [state_ root_]. clearbody y. destruct y as [ty' item|bs g]; [right|by left]. split; [done|].
  by apply (below_leaf E (YLeaf ty' item) [] ty' item T).
Qed.
Lemma root_kept E raw m : yhash (root_ m) <> 0 -> addRootNode E (node_hash T) raw m = (m, Ok Duplicate).
Proof. intros Hh. unfold addRootNode. by rewrite (proj2 (N.eqb_neq _ _) Hh). Qed.
Lemma empty_branch i : branch empty_root i = None.
Proof. cbn [branch empty_root]. destruct (replicate 16 (@None (N * option YNode)) !! i) as [o|] eqn:Eo; [|done]. by apply lookup_replicate in Eo as [-> _]. Qed.
Lemma known_empty E touched nid raw m m' r : root_ m = empty_root -> addKnownNode E touched nid raw m = (m', r) -> m' = m.
Proof.
  intros Er E'. unfold addKnownNode in E'. destruct m as [root st got]. cbn [root_ state_ gotNodes] in *. subst root.
  destruct st; [by injection E' as <- <-..| |by injection E' as <- <-]. unfold walk_fuel, empty_root in E'. cbn [add_walk] in E'.
  destruct (_ || _); [by injection E' as <- <-|]. set (i := selectBranch rootID (id_ nid)) in *.
  pose proof (empty_branch i) as Eb. unfold empty_root in Eb.
  rewrite Eb in E'. by injection E' as <- <-.
Qed.

(** ** Sessions *)

Definition cache_right (E : Env) (C : gset N) (root : YNode) : Prop :=
  forall p c, tnode_at T p = Some c -> node_hash c ∈ C -> below E root p c.

Record session_ok (s : Session) : Prop := {
  so_env : env_ok (s_env s);
  so_state : state_ (s_map s) <> Invalid;
  so_sent : Forall sent (gotNodes (s_map s));
  so_cache : cache_right (s_env s) (s_full s) (root_ (s_map s));
  so_map : (root_ (s_map s) = empty_root /\ state_ (s_map s) <> Modifying) \/ (part (root_ (s_map s)) T /\ marks (s_env s) (root_ (s_map s)) T);
  so_done : state_ (s_map s) = Modifying -> complete (s_env s) (root_ (s_map s))
}.

Lemma below_env E E' root p c : (forall h, resident E h -> resident E' h) -> below E root p c -> below E' root p c.
Proof. intros Hr Hb r d Hd. destruct (Hb r d Hd) as [?|?]; [by left|right; by apply Hr]. Qed.
Lemma part_nonzero root : part root T -> yhash root <> 0.
Proof. intros Hp. by rewrite (part_hash _ _ Hp). Qed.
Lemma below_first E root p c : part root T -> below E empty_root p c -> below E root p c.
Proof.
  intros Hp Hb r d Hd. destruct (Hb r d Hd) as [Hs|?]; [|by right]. left. destruct (p ++ r) as [|i q]; [by eexists|].
  exfalso. destruct Hs as [y Hy]. cbn [node_at] in Hy. by rewrite empty_branch in Hy.
Qed.

Lemma session_step fuel s s' : (sync_fuel <= fuel)%nat -> session_ok s -> sync_step fuel (node_hash T) s s' -> session_ok s'.
Proof.
  intros Hfu [HE Hst Hse Hca Hmap Hdo] Hs. destruct Hs as [E m C raw m' r Hraw E'|E m C touched nid raw m' r Hraw Hto E'|E m C max missing C' m' Hmax Hh E'|E E' m C HE' Eg Hr|E m C C' Hsub]; cbn [s_env s_map s_full] in *.
  - destruct Hmap as [[Er Hns]|[Hp Hm]].
    + destruct (root_ok _ _ _ _ _ HE Er (regular_sound _ Hraw) E') as [->|(Hp & Hm & Hs & l & Eg & Hl)]; [split; try done; by left|]. split; cbn; try done.
      * destruct Hs as [->|[-> _]]; done.
      * rewrite Eg. by apply Forall_app.
      * intros p c Hc Hin. rewrite Er in Hca. apply below_first; [done|by apply Hca].
      * by right.
      * intros Hmod. destruct Hs as [Hs|[_ ?]]; [congruence|done].
    + rewrite (root_kept _ _ _ (part_nonzero _ Hp)) in E'. injection E' as <- <-. split; try done. by right.
  - destruct Hmap as [[Er Hns]|[Hp Hm]].
    + rewrite (known_empty _ _ _ _ _ _ _ Er E'). split; try done. by left.
    + destruct (known_ok E C touched nid raw m m' r HE ltac:(by split) (regular_sound _ Hraw) E') as ([Hp' Hm' Hc'] & Hg & Es & l & Eg & Hl). split; cbn; try done.
      * by rewrite Es.
      * rewrite Eg. by apply Forall_app.
      * by right.
      * intros Hmod. apply complete_below. eapply below_grows; [exact Hg|]. apply complete_below, Hdo. by rewrite <-Es.
  - destruct Hmap as [[Er Hns]|[Hp Hm]]; [by rewrite Er in Hh|].
    destruct (missing_ok E fuel max C m HE ltac:(by split) Hmax Hfu) as (missing2 & C2 & m2 & E2 & [Hp' Hm' Hc'] & Hg & Eg & Es & _ & _ & _ & Hcov).
    rewrite E' in E2. injection E2 as <- <- <-. split; cbn; try done.
    + rewrite Es. by destruct (_ =? _)%nat.
    + by rewrite Eg.
    + by right.
    + intros Hmod. destruct missing as [|x l]; [|apply complete_below; eapply below_grows; [exact Hg|]; apply complete_below, Hdo; by rewrite <-Hmod, Es].
      intros p c Hc. destruct (Hcov Hmax p c Hc) as [?|(q & r & c' & _ & _ & Hin)]; [done|]. by apply elem_of_nil in Hin.
  - split; cbn; try done.
    + intros p c Hc Hin. eapply below_env; [done|]. by apply Hca.
    + destruct Hmap as [?|[Hp Hm]]; [by left|right]. split; [done|]. intros p y c Hy Hf Hc. rewrite Eg in Hf. eapply below_env; [done|]. by eapply Hm.
    + intros Hmod. apply complete_below. eapply below_env; [done|]. by apply complete_below, Hdo.
  - split; cbn; try done. intros p c Hc Hin. apply Hca; [done|by apply Hsub].
Qed.

Lemma session_run fuel s s' : (sync_fuel <= fuel)%nat -> session_ok s -> rtc (sync_step fuel (node_hash T)) s s' -> session_ok s'.
Proof. intros Hfu H0 Hs. induction Hs as [|s1 s2 s3 H12 _ IH]; [done|]. by eapply IH, session_step. Qed.

(** ** Honest peers *)

(** A peer that has the whole map: asked for the node at a place, it answers
    with the node, and maybe with more. *)
Definition honest (answer : SHAMapNodeID -> list (SHAMapNodeID * Blob)) : Prop :=
  forall p c nid, tnode_at T p = Some c -> names nid p ->
    exists blob more, answer nid = (nid, blob) :: more /\ makeFromWire blob = Ok (Some (stored_of c)) /\ Forall (fun x => sound_wire x.2) more.

Lemma stored_regular p c : tnode_at T p = Some c -> regular (stored_of c).
Proof.
  intros Hc. destruct (proper_at _ _ _ _ _ _ HT Hc) as [q Hq]. destruct c as [|ch]; [done|]. cbn [stored_of regular]. apply Forall_forall.
  intros b Hb. apply list_elem_of_lookup in Hb as [i Hi]. intros ->. change (map (option_map node_hash) ch) with (option_map node_hash <$> ch) in Hi.
  rewrite list_lookup_fmap in Hi. destruct (ch !! i) as [[c|]|] eqn:Ei; [|done..]. cbn in Hi. injection Hi as Hz.
  eapply (proper_nonzero _ _ _ _ i c Hq); [unfold getChild; by rewrite Ei|done].
Qed.
Lemma node_sound p c blob : tnode_at T p = Some c -> makeFromWire blob = Ok (Some (stored_of c)) -> sound_wire blob.
Proof.
  intros Hc Hw x Ex. rewrite Hw in Ex. injection Ex as <-. destruct (proper_at _ _ _ _ _ _ HT Hc) as [q Hq].
  split; [by eapply proper_parsed|by eapply stored_regular].
Qed.

(** An identifier names one place. *)
Lemma place_named p p' c c' nid : tnode_at T p = Some c -> names nid p -> tnode_at T p' = Some c' -> names nid p' -> c = c'.
Proof.
  intros Hc Hn Hc' Hn'. pose proof (place_nonzero ty T HT Hnz _ _ Hc) as Hz. pose proof (place_nonzero ty T HT Hnz _ _ Hc') as Hz'. unfold names in *.
  destruct (place_id ty T _ c HT Hc Hz) as (k & Hf & E1). destruct (place_id ty T _ c' HT Hc' Hz') as (k' & Hf' & E2). rewrite Hn in E1. rewrite Hn' in E2. injection E1 as ->. injection E2 as El Ek.
  destruct (place_depth _ _ _ _ HT Hc) as [H64 _]. assert (length p = length p') as Hlen by lia.
  assert (p = p') as <-; [|congruence]. apply (list_eq_same_length _ _ (length p)); [done|done|]. intros i x y Hi Hx Hy.
  rewrite (Hf _ _ Hx), (Hf' _ _ Hy). f_equal. rewrite !N.add_0_l. rewrite <-(nib_mask k (N.of_nat (length p)) (N.of_nat i)), <-(nib_mask k' (N.of_nat (length p)) (N.of_nat i)) by lia.
  f_equal. rewrite Hlen at 2. done.
Qed.

(** A reported node that comes is hooked up. *)
Lemma known_progress E C touched blob m r c : env_ok E -> acquiring E C (root_ m) -> state_ m = Synching -> reported E T (root_ m) r ->
  (exists p, tnode_at T p = Some c /\ names r.1 p) -> makeFromWire blob = Ok (Some (stored_of c)) -> (forall h, touched h = true -> h ∈ C) ->
  exists m', addKnownNode E touched r.1 blob m = (m', Ok Useful) /\ (ysize (root_ m) < ysize (root_ m'))%nat.
Proof.
  intros HE Ha Hst (p & i & n & c' & Hn & Hb & Hc & Eh & Hid & Hf) Hpl Hw Hto. destruct r as [nid h]. cbn [fst snd] in *. subst h. pose proof Ha as [Hp Hm Hca].
  destruct Hpl as (p' & Hp' & Hid'). assert (c' = c) as -> by (exact (place_named _ _ _ _ _ Hc Hid Hp' Hid')). clear p' Hp' Hid'. pose proof (node_sound _ _ _ Hc Hw) as Hreg. unfold names in Hid.
  destruct (place_id ty T _ c HT Hc (place_nonzero ty T HT Hnz _ _ Hc)) as (key & Hfo & Eid). rewrite Hid in Eid. injection Eid as ->.
  destruct (place_depth _ _ _ _ HT Hc) as [H64 _]. rewrite length_app in H64. cbn [length] in H64.
  pose proof (add_walk_progress E p ty 0 T (root_ m) blob walk_fuel touched n i c key 0 HT Hp Hm Hn Hb Hc Hfo Hf) as Hpr.
  rewrite createID_root in Hpr. rewrite length_app in *. cbn [length] in *. replace (0 + N.of_nat (S (length p))) with (N.of_nat (length p + 1)) in Hpr by lia.
  destruct Hpr as (root' & Ew & Hat); [intros r d Hr Htd; apply Hca; [done|by apply Hto]|done|unfold walk_fuel; lia| |].
  - intros ty' it ->. destruct (place_follows _ _ _ _ _ _ _ HT Hc (list_elem_of_here it [])) as [Hfi _].
    pose proof (id_at_key _ _ _ Hfi) as E1. rewrite createID_root, Hid in E1. rewrite length_app in E1. cbn [length] in E1.
    specialize (E1 ltac:(lia)). rewrite N.add_0_l in E1. injection E1 as E1. cbn [createID id_]. by rewrite E1.
  - unfold addKnownNode. rewrite Hst, Ew. eexists. split; [done|]. destruct (add_walk_part E HE ty 0 T _ rootID _ _ _ _ _ _ _ _ HT Hp masked_root Hreg Ew) as (_ & Hg & _).
    replace (root_ (gotNode E (node_hash c) (fresh (stored_of c)) (mkSync root' Synching (gotNodes m)))) with root' by (unfold gotNode; by destruct (syncFilter E)).
    eapply (ysize_more (p ++ [i])); [exact Hp|done| |by eexists]. rewrite node_at_app, Hn. cbn. by rewrite Hb.
Qed.

(** ** Asking until nothing is missing *)

Definition deliver (E : Env) (touched : N -> bool) (m : SyncMap) (nodes : list (SHAMapNodeID * Blob)) : SyncMap :=
  foldl (fun m x => (addKnownNode E touched x.1 x.2 m).1) m nodes.

Fixpoint acquire (rounds : nat) (E : Env) (fuel : nat) (max : Z) (answer : SHAMapNodeID -> list (SHAMapNodeID * Blob)) (C : gset N) (m : SyncMap) : result (gset N * SyncMap) :=
  match rounds with
  | O => Throw "not acquired"
  | S rounds =>
      '(missing, C, m) ← getMissingNodes E fuel max C m;
      match missing with
      | [] => Ok (C, m)
      | _ => acquire rounds E fuel max answer C (deliver E (fun h => bool_decide (h ∈ C)) m (flat_map (fun r => answer r.1) missing))
      end
  end.

Lemma deliver_ok E C touched nodes : env_ok E -> Forall (fun x => sound_wire x.2) nodes -> forall m, acquiring E C (root_ m) ->
  let m' := deliver E touched m nodes in acquiring E C (root_ m') /\ grows (root_ m) (root_ m') /\ state_ m' = state_ m.
Proof.
  intros HE Hs. induction Hs as [|x nodes Hx Hs IH]; intros m Ha; [split_and!; [done|apply grows_refl|done]|].
  unfold deliver. cbn [foldl]. destruct (addKnownNode E touched x.1 x.2 m) as [m1 r1] eqn:E1.
  destruct (known_ok E C _ _ _ _ _ _ HE Ha Hx E1) as (Ha1 & Hg1 & Es1 & _). cbn [fst].
  destruct (IH m1 Ha1) as (Ha2 & Hg2 & Es2). split_and!; [done|by eapply grows_trans|etrans; [exact Es2|done]].
Qed.
Lemma answers_sound E root answer missing : honest answer -> Forall (reported E T root) missing -> Forall (fun x => sound_wire x.2) (flat_map (fun r => answer r.1) missing).
Proof.
  intros Hs Hrep. induction Hrep as [|r missing (p & i & n & c & _ & _ & Hc & _ & Hid & _) _ IH]; [constructor|]. cbn [flat_map]. apply Forall_app. split; [|done].
  destruct (Hs _ _ _ Hc Hid) as (blob & more & -> & Hw & Hmore). constructor; [by eapply node_sound|done].
Qed.

Lemma acquire_ok E fuel max answer : env_ok E -> honest answer -> (0 < max)%Z -> (sync_fuel <= fuel)%nat ->
  forall rounds C m, acquiring E C (root_ m) -> state_ m = Synching -> (node_count T - ysize (root_ m) < rounds)%nat ->
  exists C' m', acquire rounds E fuel max answer C m = Ok (C', m') /\ acquiring E C' (root_ m') /\ state_ m' = Modifying /\ complete E (root_ m').
Proof.
  intros HE Hs Hmax Hfu. induction rounds as [|rounds IH]; intros C m Ha Hst Hr; [lia|]. cbn [acquire].
  destruct (missing_ok E fuel max C m HE Ha Hmax Hfu) as (missing & C1 & m1 & -> & Ha1 & Hg1 & _ & Es1 & Hrep & _ & _ & Hcov). cbn [mbind result_bind].
  pose proof (ysize_grows _ _ (a_part _ _ _ Ha) _ Hg1) as Hsz. destruct missing as [|r missing].
  { exists C1, m1. split_and!; [done..|]. intros p c Hc. destruct (Hcov Hmax p c Hc) as [?|(q & r & c' & _ & _ & Hin)]; [done|]. by apply elem_of_nil in Hin. }
  cbn [length Nat.eqb] in Es1. rewrite Hst in Es1. set (touched := fun h => bool_decide (h ∈ C1)).
  assert (forall h, touched h = true -> h ∈ C1) as Hto by (intros h Hh; by apply bool_decide_eq_true in Hh).
  pose proof (answers_sound _ _ _ _ Hs Hrep) as Hsound. apply Forall_cons in Hrep as [Hrep _]. cbn [flat_map] in *. pose proof Hrep as (p & i & n & c & _ & _ & Hc & _ & Hid & _).
  destruct (Hs _ _ _ Hc Hid) as (blob & more & Ea & Hw & _). rewrite Ea in *. cbn [app] in *. apply Forall_cons in Hsound as [Hsb Hsound].
  destruct (known_progress E C1 touched blob m1 r c HE Ha1 Es1 Hrep ltac:(by exists (p ++ [i])) Hw Hto) as (m2 & E2 & Hlt).
  destruct (known_ok E C1 _ _ _ _ _ _ HE Ha1 Hsb E2) as (Ha2 & _ & Es2 & _).
  destruct (deliver_ok E C1 touched _ HE Hsound m2 Ha2) as (Ha3 & Hg3 & Es3). unfold deliver. cbn [foldl fst snd]. rewrite E2. cbn [fst].
  pose proof (ysize_grows _ _ (a_part _ _ _ Ha2) _ Hg3) as Hsz3. pose proof (ysize_part _ _ (a_part _ _ _ Ha2)) as Hp2.
  apply IH; [exact Ha3|etrans; [exact Es3|by rewrite Es2]|]. unfold deliver in Hsz3. lia.
Qed.

(** The root of an honest peer is taken. *)
Lemma root_taken E C blob : env_ok E -> makeFromWire blob = Ok (Some (stored_of T)) -> cache_right E C empty_root ->
  exists m, addRootNode E (node_hash T) blob wanted = (m, Ok Useful) /\ acquiring E C (root_ m) /\
    (state_ m = Synching \/ exists ty' item, root_ m = YLeaf ty' item) /\ (1 <= ysize (root_ m))%nat.
Proof.
  intros HE Hw Hca. pose proof (node_sound [] T blob eq_refl Hw) as Hreg.
  destruct (addRootNode E (node_hash T) blob wanted) as [m r] eqn:Em. pose proof Em as Em2. unfold addRootNode in Em.
  cbn [root_ wanted] in Em. rewrite empty_hash, Hw, stored_hash_of, (N.eqb_refl (node_hash T)) in Em. cbn [N.eqb negb] in Em. injection Em as Em <-. exists m. split; [done|].
  destruct (root_ok E _ wanted m _ HE eq_refl Hreg Em2) as [->|(Hp & Hm & Hst & _)].
  { exfalso. apply (f_equal root_) in Em. assert (part (fresh (stored_of T)) T) as Hp.
    { eapply consistent_part; [exact HT|done| |unfold yhash; rewrite stored_fresh; apply stored_hash_of].
      apply fresh_consistent; [by eapply proper_parsed|by apply (stored_regular [])]. }
    destruct (canonicalize_part E _ HE Hp (marks_fresh E HE _ _) ltac:(unfold yhash; rewrite stored_fresh; apply stored_hash_of)) as (Hpy & _).
    unfold gotNode in Em. destruct (syncFilter E); cbn [root_ wanted] in Em; rewrite Em in Hpy; apply part_nonzero in Hpy; by rewrite empty_hash in Hpy. }
  split_and!; [split; [done..|]|..].
  - intros p c Hc Hin. apply below_first; [done|by apply Hca].
  - subst m. unfold gotNode. destruct (canonicalize E (node_hash T) (fresh (stored_of T))); destruct (syncFilter E); cbn; eauto.
  - destruct (root_ m); cbn; lia.
Qed.

Lemma acquire_any E fuel max answer : env_ok E -> honest answer -> (0 < max)%Z -> (sync_fuel <= fuel)%nat ->
  forall C m, acquiring E C (root_ m) -> (state_ m = Synching \/ exists ty' item, root_ m = YLeaf ty' item) -> (1 <= ysize (root_ m))%nat ->
  exists C' m', acquire (node_count T) E fuel max answer C m = Ok (C', m') /\ acquiring E C' (root_ m') /\ state_ m' = Modifying /\ complete E (root_ m').
Proof.
  intros HE Hs Hmax Hfu C m Ha Hst Hsz. assert (0 < node_count T)%nat as Hpos by (destruct T; cbn; lia). destruct Hst as [Hst|(ty' & item & Er)].
  { apply acquire_ok; [done..|lia]. }
  destruct (node_count T) as [|k]; [lia|]. cbn [acquire]. unfold getMissingNodes. rewrite Er. cbn [mbind result_bind]. eexists _, _. split; [done|].
  rewrite Er in Ha. cbn [root_ state_]. split_and!; [done..|]. apply complete_below. apply (below_leaf E _ [] ty' item); [done|by destruct Ha].
Qed.

Lemma stored_branches_ok ch : T = InnerNode ch -> Forall branch_ok (option_map node_hash <$> ch).
Proof.
  intros ET. rewrite ET in HT. pose proof HT as (Hwf & Huf & _). destruct (unforgeable_children _ _ _ _ Hwf Huf) as [Hf Hl]. apply Forall_lookup. intros i b Hb.
  rewrite list_lookup_fmap in Hb. destruct (ch !! i) as [[c|]|] eqn:Ei; [|by injection Hb as <-|done]. injection Hb as <-. cbn. split.
  - eapply (proper_nonzero _ _ _ _ i c HT). unfold getChild. by rewrite Ei.
  - rewrite Forall_fmap, Forall_lookup in Hf. by apply (Hf i (Some c)).
Qed.
End acquire.
