(* ===== verification/SHAMapVisit.v ===== *)
(** * Visiting and serving the nodes of a map

    The rest of SHAMapSync.cpp: [visitNodes] and [visitLeaves], the nodes of a
    map that another one does not have ([visitDifferences] with [hasInnerNode]
    and [hasLeafNode]), [deepCompare], and the nodes sent to a peer
    ([getNodeFat]).  The maps are in memory; a callback changes a state and says
    whether to go on.  Loops with a stack have as much fuel as the map has
    branches.  The second part says what they come to. *)

From S2P Require Import Prelude LedgerEntry Serializer SHAMapNodeID SHAMap SHAMapSpec SHAMapHash SHAMapProof SHAMapSync SHAMapSyncSpec SHAMapMissing.
Local Open Scope N_scope.

Section visit.
Context `{Digest}.
Abbreviation node := (SHAMapTreeNode Blob).

(** ** All nodes *)

Section visitor.
Context {St : Type} (function : St -> node -> St * bool).

(** [while ((pos != 15) && node->isEmptyBranch(pos + 1)) ++pos]. *)
Fixpoint skip_empty (fuel : nat) (ch : list (option node)) (pos : nat) : nat :=
  match fuel with
  | O => pos
  | S fuel => if negb (pos =? 15)%nat && isEmptyBranch ch (S pos) then skip_empty fuel ch (S pos) else pos
  end.

Fixpoint visit_loop (fuel : nat) (ch : list (option node)) (pos : nat) (stack : list (nat * list (option node))) (s : St) : result St :=
  match fuel with
  | O => Throw "out of fuel"
  | S fuel =>
      if (pos <? 16)%nat then
        match getChild ch pos with
        | Some child =>
            let '(s, go) := function s child in
            if negb go then Ok s
            else
              match child with
              | LeafNode _ _ => visit_loop fuel ch (S pos) stack s
              | InnerNode ch' =>
                  let pos := skip_empty 16 ch pos in
                  visit_loop fuel ch' 0 (if (pos =? 15)%nat then stack else (S pos, ch) :: stack) s
              end
        | None => visit_loop fuel ch (S pos) stack s
        end
      else
        match stack with
        | [] => Ok s
        | (pos, ch) :: stack => visit_loop fuel ch pos stack s
        end
  end.

(** Sixteen branches of every node, and each node taken from the stack. *)
Definition visit_fuel (root : node) : nat := 18 * node_count root.

(** What the callback says about the root is not looked at. *)
Definition visitNodes (root : node) (s : St) : result St :=
  let '(s, _) := function s root in
  match root with
  | LeafNode _ _ => Ok s
  | InnerNode ch => visit_loop (visit_fuel root) ch 0 [] s
  end.
End visitor.

Definition visitLeaves {St} (leafFunction : St -> SHAMapItem Blob -> St) (root : node) (s : St) : result St :=
  visitNodes (fun s n => (match n with LeafNode _ item => leafFunction s item | InnerNode _ => s end, true)) root s.

(** ** Nodes at a place *)

(** The loop that goes down to the place of an identifier, until it is
    reached or a leaf is met; [None] at an empty branch. *)
Fixpoint descend_to (fuel : nat) (n : node) (nodeID target : SHAMapNodeID) : result (option (node * SHAMapNodeID)) :=
  match fuel with
  | O => Throw "out of fuel"
  | S fuel =>
      match n with
      | LeafNode _ _ => Ok (Some (n, nodeID))
      | InnerNode ch =>
          if depth_ nodeID <? depth_ target then
            let branch := selectBranch nodeID (id_ target) in
            match getChild ch branch with
            | None => Ok None
            | Some c => childID ← getChildNodeID nodeID branch; descend_to fuel c childID target
            end
          else Ok (Some (n, nodeID))
      end
  end.

Definition hasInnerNode (root : node) (targetNodeID : SHAMapNodeID) (targetNodeHash : N) : result bool :=
  r ← descend_to walk_fuel root rootID targetNodeID;
  Ok (match r with Some (InnerNode ch, _) => node_hash (InnerNode ch) =? targetNodeHash | _ => false end).

Fixpoint has_leaf (fuel : nat) (ch : list (option node)) (nodeID : SHAMapNodeID) (tag targetNodeHash : N) : result bool :=
  match fuel with
  | O => Throw "out of fuel"
  | S fuel =>
      let branch := selectBranch nodeID tag in
      match getChild ch branch with
      | None => Ok false
      | Some c =>
          if node_hash c =? targetNodeHash then Ok true
          else
            childID ← getChildNodeID nodeID branch;
            match c with InnerNode ch => has_leaf fuel ch childID tag targetNodeHash | LeafNode _ _ => Ok false end
      end
  end.
Definition hasLeafNode (root : node) (tag targetNodeHash : N) : result bool :=
  match root with
  | LeafNode _ _ => Ok (node_hash root =? targetNodeHash)
  | InnerNode ch => has_leaf walk_fuel ch rootID tag targetNodeHash
  end.

(** ** Differences *)

Section differences.
Context {St : Type} (have : option node) (function : St -> node -> St * bool).

(** [(have == nullptr) || !have->has...Node(...)]. *)
Definition lacks_inner (nodeID : SHAMapNodeID) (h : N) : result bool :=
  match have with None => Ok true | Some have => b ← hasInnerNode have nodeID h; Ok (negb b) end.
Definition lacks_leaf (tag h : N) : result bool :=
  match have with None => Ok true | Some have => b ← hasLeafNode have tag h; Ok (negb b) end.

(** The loop over the branches of a node; [false] when the callback says so. *)
Fixpoint diff_branches (nodeID : SHAMapNodeID) (i : nat) (ch : list (option node)) (stack : list (node * SHAMapNodeID)) (s : St)
    : result (list (node * SHAMapNodeID) * St * bool) :=
  match ch with
  | [] => Ok (stack, s, true)
  | None :: ch => diff_branches nodeID (S i) ch stack s
  | Some next :: ch =>
      childID ← getChildNodeID nodeID i;
      match next with
      | InnerNode _ =>
          lacks ← lacks_inner childID (node_hash next);
          diff_branches nodeID (S i) ch (if (lacks : bool) then (next, childID) :: stack else stack) s
      | LeafNode _ item =>
          lacks ← lacks_leaf (item_key item) (node_hash next);
          if (lacks : bool) then
            let '(s, go) := function s next in
            if (go : bool) then diff_branches nodeID (S i) ch stack s else Ok (stack, s, false)
          else diff_branches nodeID (S i) ch stack s
      end
  end.

Fixpoint diff_loop (fuel : nat) (stack : list (node * SHAMapNodeID)) (s : St) : result St :=
  match fuel with
  | O => Throw "out of fuel"
  | S fuel =>
      match stack with
      | [] => Ok s
      | (n, nodeID) :: stack =>
          let '(s, go) := function s n in
          if negb go then Ok s
          else
            match n with
            | LeafNode _ _ => Throw "not an inner node"
            | InnerNode ch =>
                '(stack, s, go) ← diff_branches nodeID 0 ch stack s;
                if (go : bool) then diff_loop fuel stack s else Ok s
            end
      end
  end.

Definition visitDifferences (root : node) (s : St) : result St :=
  if node_hash root =? 0 then Ok s
  else if match have with Some have => node_hash root =? node_hash have | None => false end then Ok s
  else
    match root with
    | LeafNode _ item =>
        lacks ← lacks_leaf (item_key item) (node_hash root);
        Ok (if (lacks : bool) then (function s root).1 else s)
    | InnerNode _ => diff_loop (S (node_count root)) [(root, rootID)] s
    end.
End differences.

(** ** Deep comparison *)

Fixpoint compare_branches (ch other : list (option node)) (stack : list (node * node)) : option (list (node * node)) :=
  match ch, other with
  | None :: ch, None :: other => compare_branches ch other stack
  | Some n :: ch, Some o :: other => compare_branches ch other ((n, o) :: stack)
  | [], [] => Some stack
  | _, _ => None
  end.

Fixpoint deep_loop (fuel : nat) (stack : list (node * node)) : result bool :=
  match fuel with
  | O => Throw "out of fuel"
  | S fuel =>
      match stack with
      | [] => Ok true
      | (n, otherNode) :: stack =>
          if negb (node_hash otherNode =? node_hash n) then Ok false
          else
            match n, otherNode with
            | LeafNode _ item, LeafNode _ other =>
                if negb (item_key item =? item_key other) then Ok false
                else if negb (bool_decide (item_data item = item_data other)) then Ok false
                else deep_loop fuel stack
            | InnerNode ch, InnerNode other =>
                match compare_branches ch other stack with
                | Some stack => deep_loop fuel stack
                | None => Ok false
                end
            | _, _ => Ok false
            end
      end
  end.
Definition deepCompare (root other : node) : result bool := deep_loop (S (node_count root)) [(root, other)].

(** ** Serving nodes *)

Definition serializeRoot (root : node) : Blob := wire_of root.

(** The loop over the children of a node: those to go into, and those that
    are just included. *)
Fixpoint fat_children (fatLeaves : bool) (nodeID : SHAMapNodeID) (bc : nat) (depth : N) (i : nat) (ch : list (option node))
    (stack : list (node * SHAMapNodeID * N)) (data : list (SHAMapNodeID * Blob)) : result (list (node * SHAMapNodeID * N) * list (SHAMapNodeID * Blob)) :=
  match ch with
  | [] => Ok (stack, data)
  | None :: ch => fat_children fatLeaves nodeID bc depth (S i) ch stack data
  | Some childNode :: ch =>
      childID ← getChildNodeID nodeID i;
      let inner := match childNode with InnerNode _ => true | LeafNode _ _ => false end in
      if inner && ((1 <? depth) || (bc =? 1)%nat) then
        fat_children fatLeaves nodeID bc depth (S i) ch ((childNode, childID, if (1 <? bc)%nat then depth - 1 else depth) :: stack) data
      else if inner || fatLeaves then
        fat_children fatLeaves nodeID bc depth (S i) ch stack (data ++ [(childID, wire_of childNode)])
      else fat_children fatLeaves nodeID bc depth (S i) ch stack data
  end.

Fixpoint fat_loop (fuel : nat) (fatLeaves : bool) (stack : list (node * SHAMapNodeID * N)) (data : list (SHAMapNodeID * Blob))
    : result (list (SHAMapNodeID * Blob)) :=
  match fuel with
  | O => Throw "out of fuel"
  | S fuel =>
      match stack with
      | [] => Ok data
      | (n, nodeID, depth) :: stack =>
          let data := data ++ [(nodeID, wire_of n)] in
          match n with
          | LeafNode _ _ => fat_loop fuel fatLeaves stack data
          | InnerNode ch =>
              let bc := getBranchCount ch in
              if (0 <? depth) || (bc =? 1)%nat then
                '(stack, data) ← fat_children fatLeaves nodeID bc depth 0 ch stack data;
                fat_loop fuel fatLeaves stack data
              else fat_loop fuel fatLeaves stack data
          end
      end
  end.

Definition getNodeFat (root : node) (wanted : SHAMapNodeID) (fatLeaves : bool) (depth : N) : result (bool * list (SHAMapNodeID * Blob)) :=
  r ← descend_to walk_fuel root rootID wanted;
  match r with
  | None => Ok (false, [])
  | Some (n, nodeID) =>
      if negb (bool_decide (wanted = nodeID)) then Ok (false, [])
      else
        match n with
        | InnerNode ch =>
            if (getBranchCount ch =? 0)%nat then Ok (false, [])
            else data ← fat_loop (S (node_count n)) fatLeaves [(n, nodeID, depth)] []; Ok (true, data)
        | LeafNode _ _ => data ← fat_loop (S (node_count n)) fatLeaves [(n, nodeID, depth)] []; Ok (true, data)
        end
  end.
End visit.

(** * What visiting and serving nodes comes to

    Nodes are visited in pre-order until the callback says to stop ([run]). *)

Section visit.
Context `{Digest}.
Abbreviation node := (SHAMapTreeNode Blob).

(** ** Pre-order *)

(** A callback along a list, until it says to stop. *)
Fixpoint run {St} (f : St -> node -> St * bool) (s : St) (l : list node) : St * bool :=
  match l with
  | [] => (s, true)
  | n :: l => let '(s, go) := f s n in if (go : bool) then run f s l else (s, false)
  end.

Lemma run_through {St} (f : St -> node -> St * bool) s l1 l2 :
  run f s (l1 ++ l2) = let '(s, go) := run f s l1 in if (go : bool) then run f s l2 else (s, false).
Proof.
  revert s. induction l1 as [|n l1 IH]; intros s; [done|]. cbn. destruct (f s n) as [s' []]; [apply IH|done].
Qed.

Fixpoint nodes_of (n : node) : list node :=
  n :: match n with
       | LeafNode _ _ => []
       | InnerNode ch => flat_map (fun o => match o with Some c => nodes_of c | None => [] end) ch
       end.
Definition onodes (o : option node) : list node := match o with Some c => nodes_of c | None => [] end.
Definition rest (ch : list (option node)) (pos : nat) : list node := flat_map onodes (drop pos ch).

Lemma nodes_inner ch : nodes_of (InnerNode ch) = InnerNode ch :: rest ch 0.
Proof. done. Qed.
Lemma nodes_count n : length (nodes_of n) = node_count n.
Proof.
  revert n. fix IH 1. intros [ty item|ch]; [done|]. cbn [nodes_of length node_count]. f_equal. induction ch as [|[c|] ch IHch]; [done|..]; cbn [flat_map map app].
  - by rewrite length_app, list_sum_cons, IH, IHch.
  - by rewrite list_sum_cons, IHch.
Qed.
Lemma nodes_place n x : x ∈ nodes_of n <-> exists p, tnode_at n p = Some x.
Proof.
  revert n. fix IH 1. intros [ty item|ch].
  { clear IH. cbn [nodes_of]. rewrite list_elem_of_singleton. split; [intros ->; by exists []|]. by intros ([|i p] & [= <-]). }
  assert (x ∈ flat_map onodes ch <-> exists i c p, ch !! i = Some (Some c) /\ tnode_at c p = Some x) as Hch.
  { induction ch as [|[c|] ch IHch]; cbn [flat_map onodes app].
    - clear IH. split; [by intros ?%elem_of_nil|by intros ([] & ? & ? & ? & _)].
    - pose proof (IH c) as IHc. clear IH. rewrite elem_of_app, IHc, IHch. split.
      + intros [[p Hp]|(i & c' & p & Hc & Hp)]; [by exists 0%nat, c, p|by exists (S i), c', p].
      + intros ([|i] & c' & p & Hc & Hp); [injection Hc as ->; left; by exists p|right; by exists i, c', p].
    - clear IH. rewrite IHch. split; [intros (i & c' & p & ? & ?); by exists (S i), c', p|]. intros ([|i] & c' & p & Hc & Hp); [done|by exists i, c', p]. }
  clear IH. change (nodes_of (InnerNode ch)) with (InnerNode ch :: flat_map onodes ch). rewrite elem_of_cons, Hch. unfold getChild in *. split.
  - intros [->|(i & c & p & Hc & Hp)]; [by exists []|]. exists (i :: p). cbn [tnode_at]. unfold getChild. by rewrite Hc.
  - intros ([|i p] & Hp); [left; by injection Hp|right]. cbn [tnode_at] in Hp. unfold getChild in Hp. destruct (ch !! i) as [[c|]|] eqn:Ei; [|done..]. by exists i, c, p.
Qed.
Lemma rest_none ch pos : getChild ch pos = None -> rest ch pos = rest ch (S pos).
Proof.
  unfold getChild, rest. destruct (ch !! pos) as [o|] eqn:E.
  - cbn. intros ->. by rewrite (drop_S _ _ _ E).
  - intros _. apply lookup_ge_None in E. by rewrite !drop_ge by lia.
Qed.
Lemma rest_some ch pos c : getChild ch pos = Some c -> rest ch pos = nodes_of c ++ rest ch (S pos).
Proof. unfold getChild, rest. destruct (ch !! pos) as [o|] eqn:E; [|done]. cbn. intros ->. by rewrite (drop_S _ _ _ E). Qed.
Lemma rest_end ch : length ch = kBranchFactor -> rest ch 16 = [].
Proof. intros Hl. unfold rest. by rewrite drop_ge by (rewrite Hl; unfold kBranchFactor; lia). Qed.

Lemma skip_empty_spec fuel ch pos : (pos <= 15)%nat -> rest ch (S (skip_empty fuel ch pos)) = rest ch (S pos) /\ (pos <= skip_empty fuel ch pos <= 15)%nat.
Proof.
  revert pos. induction fuel as [|fuel IH]; intros pos Hp; cbn [skip_empty]; [split; [done|lia]|].
  destruct (Nat.eqb_spec pos 15); cbn [negb andb]; [split; [done|lia]|]. unfold isEmptyBranch. destruct (getChild ch (S pos)) eqn:E; [split; [done|lia]|].
  destruct (IH (S pos)) as [Hr Hb]; [lia|]. rewrite Hr, <-(rest_none _ _ E). split; [done|lia].
Qed.

(** All inner nodes have their sixteen branches. *)
Definition full16 (n : node) : Prop := match n with InnerNode ch => length ch = kBranchFactor | LeafNode _ _ => True end.
Definition branchy (l : list node) : Prop := Forall full16 l.

Lemma wf_branchy ty d p n : wf ty d p n -> branchy (nodes_of n).
Proof.
  induction 1 as [|d p ch Hd Hl Hch IH Hb]; [by repeat constructor|]. rewrite nodes_inner. constructor; [done|]. unfold rest. change (drop 0 ch) with ch.
  apply Forall_forall. intros x Hx. rewrite list_elem_of_In, in_flat_map in Hx. destruct Hx as (o & Ho%list_elem_of_In & Hx%list_elem_of_In).
  apply list_elem_of_lookup in Ho as [i Hi]. destruct o as [c|]; [|by apply elem_of_nil in Hx].
  assert (getChild ch i = Some c) as Hc by (unfold getChild; by rewrite Hi). specialize (IH i c Hc). unfold branchy in IH. rewrite Forall_forall in IH. by apply IH.
Qed.

(** ** Steps of the loop *)

Definition owork (o : option node) : nat := match o with Some c => work c | None => 0 end.
Definition rest_work (ch : list (option node)) (pos : nat) : nat := S (list_sum (map (fun o => S (owork o)) (drop pos ch))).

Lemma rest_work_next ch pos : (pos < length ch)%nat -> rest_work ch pos = (S (owork (getChild ch pos)) + rest_work ch (S pos))%nat.
Proof.
  intros Hp. apply lookup_lt_is_Some in Hp as [o Ho]. unfold rest_work, getChild. rewrite (drop_S _ _ _ Ho), Ho. cbn [map]. rewrite list_sum_cons. cbn. lia.
Qed.
Lemma rest_work_le ch pos pos' : (pos <= pos')%nat -> (rest_work ch pos' <= rest_work ch pos)%nat.
Proof.
  intros Hp. unfold rest_work. replace pos' with (pos + (pos' - pos))%nat by lia. rewrite <-drop_drop. apply le_n_S. generalize (drop pos ch) as l. intros l.
  generalize (pos' - pos)%nat as k. induction l as [|o l IH]; intros [|k]; cbn [drop]; [done..|]. cbn [map]. rewrite list_sum_cons. specialize (IH k). lia.
Qed.
Lemma work_rest ch : work (InnerNode ch) = rest_work ch 0.
Proof. done. Qed.

Lemma work_fuel ty d p n : wf ty d p n -> (work n < visit_fuel n)%nat.
Proof.
  unfold visit_fuel. intros Hwf. cut (work n + 1 <= 18 * node_count n)%nat; [lia|].
  induction Hwf as [|d p ch Hd Hl Hch IH Hb]; [cbn; lia|]. cbn [work node_count]. unfold kBranchFactor in Hl.
  cut (list_sum (map (fun o => S (owork o)) ch) <= length ch + 18 * list_sum (map (fun c => match c with Some c => node_count c | None => 0 end) ch))%nat; [unfold owork; lia|].
  assert (forall o, o ∈ ch -> (owork o <= 18 * match o with Some c => node_count c | None => 0 end)%nat) as Ho.
  { intros o [i Hi]%list_elem_of_lookup. destruct o as [c|]; [|done]. specialize (IH i c ltac:(unfold getChild; by rewrite Hi)). cbn [owork]. lia. }
  clear -Ho. induction ch as [|o ch IH]; [done|]. cbn [map length]. rewrite !list_sum_cons. specialize (IH (fun o Hin => Ho o ltac:(by right))). specialize (Ho o ltac:(by left)). lia.
Qed.

Lemma visit_loop_spec {St} (f : St -> node -> St * bool) fuel : forall ch pos stack s,
  length ch = kBranchFactor -> branchy (rest ch pos) -> Forall (fun e => length e.2 = kBranchFactor /\ branchy (rest e.2 e.1)) stack ->
  (rest_work ch pos + list_sum (map (fun e => rest_work e.2 e.1) stack) < S fuel)%nat ->
  visit_loop f fuel ch pos stack s = Ok (run f s (rest ch pos ++ flat_map (fun e => rest e.2 e.1) stack)).1.
Proof.
  induction fuel as [|fuel IH]; intros ch pos stack s Hl Hb Hst Hf; [unfold rest_work in Hf; lia|]. cbn [visit_loop]. destruct (Nat.ltb_spec pos 16) as [Hp|Hp]; cycle 1.
  { assert (rest ch pos = []) as -> by (unfold rest; by rewrite drop_ge by (rewrite Hl; unfold kBranchFactor; lia)). cbn [app].
    destruct stack as [|[pos' ch'] stack]; [done|]. apply Forall_cons in Hst as [[Hl' Hb'] Hst]. cbn [map] in Hf. rewrite list_sum_cons in Hf. cbn [fst snd flat_map] in *.
    apply IH; [done..|]. unfold rest_work at 1 in Hf. lia. }
  pose proof (rest_work_next ch pos ltac:(rewrite Hl; unfold kBranchFactor; lia)) as Hw. destruct (getChild ch pos) as [c|] eqn:Ec; cycle 1.
  { rewrite (rest_none _ _ Ec) in *. apply IH; [done..|]. cbn in Hw. lia. }
  rewrite (rest_some _ _ _ Ec) in *. apply Forall_app in Hb as [Hbc Hb]. rewrite <-app_assoc. destruct c as [ty item|ch'].
  - cbn [nodes_of app run]. destruct (f s (LeafNode ty item)) as [s' []]; cbn [negb]; [|done]. apply IH; [done..|]. cbn [owork] in Hw. lia.
  - rewrite nodes_inner in *. apply Forall_cons in Hbc as [Hl' Hbc]. cbn [app run]. destruct (f s (InnerNode ch')) as [s' []]; cbn [negb]; [|done].
    destruct (skip_empty_spec 16 ch pos ltac:(lia)) as [Hr Hk]. set (k := skip_empty 16 ch pos) in *. cbn [owork] in Hw. rewrite work_rest in Hw.
    pose proof (rest_work_le ch (S pos) (S k) ltac:(lia)) as Hle. destruct (Nat.eqb_spec k 15) as [Ek|Hk15].
    + rewrite IH by (done || lia). rewrite <-Hr, Ek, (rest_end _ Hl). done.
    + rewrite IH; [cbn [flat_map fst snd]; by rewrite Hr|done|done| |].
      * constructor; [|done]. cbn [fst snd]. by rewrite Hr.
      * cbn [map]. rewrite list_sum_cons. cbn [fst snd]. lia.
Qed.

Lemma visitNodes_run {St} (f : St -> node -> St * bool) ty d p root s : wf ty d p root ->
  visitNodes f root s = Ok (run f (f s root).1 (tail (nodes_of root))).1.
Proof.
  intros Hwf. pose proof (work_fuel _ _ _ _ Hwf) as Hf. pose proof (wf_branchy _ _ _ _ Hwf) as Hb. unfold visitNodes. destruct (f s root) as [s' go]. cbn [fst].
  destruct root as [ty' item|ch]; [done|]. rewrite nodes_inner in *. apply Forall_cons in Hb as [Hl Hb]. rewrite work_rest in Hf. cbn [tail].
  rewrite visit_loop_spec; [by rewrite app_nil_r|done|done|constructor|cbn [map list_sum foldr]; lia].
Qed.

Lemma run_items {St} (g : St -> SHAMapItem Blob -> St) s l :
  run (fun s n => (match n with LeafNode _ item => g s item | InnerNode _ => s end, true)) s l =
  (foldl g s (flat_map (fun n => match n with LeafNode _ item => [item] | InnerNode _ => [] end) l), true).
Proof. revert s. induction l as [|[ty item|ch] l IH]; intros s; [done|..]; cbn; apply IH. Qed.
Lemma leaves_of_nodes ty d p n : wf ty d p n -> flat_map (fun n => match n with LeafNode _ item => [item] | InnerNode _ => [] end) (nodes_of n) = items n.
Proof.
  induction 1 as [|d p ch Hd Hl Hch IH Hb]; [done|]. rewrite nodes_inner. cbn [flat_map app]. rewrite items_inner. unfold rest, items_of. change (drop 0 ch) with ch.
  assert (forall o, o ∈ ch -> flat_map (fun n => match n with LeafNode _ item => [item] | InnerNode _ => [] end) (onodes o) = items_opt o) as Ho.
  { intros o [i Hi]%list_elem_of_lookup. destruct o as [c|]; [|done]. apply (IH i). unfold getChild. by rewrite Hi. }
  clear -Ho. induction ch as [|o ch IH]; [done|]. cbn [flat_map]. rewrite flat_map_app, Ho, IH; [done|intros o' Ho'; apply Ho; by right|by left].
Qed.
Lemma visitLeaves_items {St} (g : St -> SHAMapItem Blob -> St) ty d p root s : wf ty d p root -> visitLeaves g root s = Ok (foldl g s (items root)).
Proof.
  intros Hwf. unfold visitLeaves. rewrite (visitNodes_run _ ty d p) by done. rewrite run_items. cbn [fst]. rewrite <-(leaves_of_nodes _ _ _ _ Hwf).
  by destruct root as [ty' item|ch].
Qed.

(** ** Places *)

Lemma descend_place key fuel : forall p n k, follows key k p -> k + N.of_nat (length p) <= 64 -> (length p < fuel)%nat ->
  let d := k + N.of_nat (length p) in
  match tnode_at n p with
  | Some c => descend_to fuel n (createID k key) (createID d key) = Ok (Some (c, createID d key))
  | None => descend_to fuel n (createID k key) (createID d key) = Ok None \/
      exists ty item k', k' < d /\ descend_to fuel n (createID k key) (createID d key) = Ok (Some (LeafNode ty item, createID k' key))
  end.
Proof.
  induction fuel as [|fuel IH]; intros p n k Hfo H64 Hf d; [lia|]. destruct p as [|i p].
  { subst d. cbn [length tnode_at] in *. rewrite N.add_0_r. cbn [descend_to]. destruct n as [ty item|ch]; [done|]. cbn [depth_ createID]. by rewrite N.ltb_irrefl. }
  apply follows_cons in Hfo as [Hi Hfo]. cbn [length] in *. cbn [tnode_at]. destruct n as [ty item|ch]; [right; exists ty, item, k; split; [subst d; lia|done]|].
  cbn [descend_to]. change (depth_ (createID k key)) with k. change (depth_ (createID d key)) with d. rewrite (proj2 (N.ltb_lt _ _)) by (subst d; lia).
  pose proof (select_target key k d ltac:(subst d; lia) ltac:(subst d; lia)) as Es. pose proof (createID_child k key ltac:(lia)) as Ec.
  unfold createID at 2 in Ec. rewrite selectBranch_nib in Ec by lia. rewrite Es, <-Hi.
  destruct (getChild ch i) as [c|] eqn:Eg; cbn [mbind option_bind]; [|by left]. rewrite <-Hi in Ec. rewrite Ec. cbn [mbind result_bind].
  specialize (IH p c (k + 1) Hfo ltac:(lia) ltac:(lia)). cbn zeta in IH. replace (k + 1 + N.of_nat (length p)) with d in IH by (subst d; lia). exact IH.
Qed.

Lemma hasInnerNode_place (root : node) p key h : follows key 0 p -> N.of_nat (length p) <= 64 ->
  hasInnerNode root (createID (N.of_nat (length p)) key) h =
  Ok (match tnode_at root p with Some (InnerNode ch) => node_hash (InnerNode ch) =? h | _ => false end).
Proof.
  intros Hfo H64. unfold hasInnerNode. pose proof (descend_place key walk_fuel p root 0 Hfo ltac:(lia) ltac:(unfold walk_fuel; lia)) as Hd. cbn zeta in Hd.
  rewrite N.add_0_l, createID_root in Hd. destruct (tnode_at root p) as [c|]; [by rewrite Hd; destruct c|].
  destruct Hd as [->|(ty & item & k' & _ & ->)]; done.
Qed.

(** ** Leaves *)

Lemma has_leaf_spec ty item fuel : ty <> TnInner -> forall ch k q, proper ty k q (InnerNode ch) -> (exists d' q', proper ty d' q' (LeafNode ty item)) ->
  (65 - N.to_nat k <= fuel)%nat ->
  exists b, has_leaf fuel ch (createID k (item_key item)) (item_key item) (node_hash (LeafNode ty item)) = Ok b /\ (b = true <-> item ∈ items (InnerNode ch)).
Proof.
  intros Hty. induction fuel as [|fuel IH]; intros ch k q Hp HL Hf; [destruct (proper_depth _ _ _ _ Hp); lia|].
  destruct (proper_depth _ _ _ _ Hp) as [Hk Hl]. pose proof (proj1 Hp) as Hwf. cbn [has_leaf]. pose proof (createID_child k (item_key item) Hk) as Ec.
  assert (selectBranch (createID k (item_key item)) (item_key item) = N.to_nat (nib (item_key item) k)) as Es by (unfold createID; by apply selectBranch_nib).
  rewrite Es in *. set (i := N.to_nat (nib (item_key item) k)) in *.
  assert (item ∈ items (InnerNode ch) <-> exists c, getChild ch i = Some c /\ item ∈ items c) as Hin.
  { rewrite items_inner, elem_of_items_of. split; [|by intros (c & ? & ?); exists i, c]. intros (j & c & Hc & Hit).
    pose proof (wf_nib _ _ _ _ _ _ _ Hwf Hc Hit) as Hn. assert (j = i) as -> by (unfold i; rewrite Hn; lia). by exists c. }
  destruct (getChild ch i) as [c|] eqn:Eg; [|exists false; split; [done|]; rewrite Hin; split; [done|by intros (? & ? & _)]].
  pose proof (proper_child _ _ _ _ _ _ Hp Eg) as Hpc. pose proof (proper_nonzero _ _ _ _ _ _ Hp Eg) as Hnz.
  assert (item ∈ items (InnerNode ch) <-> item ∈ items c) as Hin' by (rewrite Hin; split; [by intros (? & [= ->] & ?)|by exists c]). clear Hin.
  destruct (N.eqb_spec (node_hash c) (node_hash (LeafNode ty item))) as [Eh|Hne].
  - exists true. split; [done|]. rewrite Hin'. split; [|done]. intros _. destruct HL as (d' & q' & HL).
    rewrite <-(hash_tree _ _ _ _ _ _ _ Hpc HL Hnz (eq_sym Eh)). by left.
  - rewrite Ec. cbn [mbind result_bind]. destruct c as [ty' item'|ch'].
    + exists false. split; [done|]. rewrite Hin'. split; [done|]. intros Hit. cbn in Hit. apply list_elem_of_singleton in Hit as ->.
      destruct (wf_leaf_inv _ _ _ _ _ (proj1 Hpc)) as [-> _]. done.
    + destruct (IH ch' (k + 1) _ Hpc HL ltac:(lia)) as (b & -> & Hb). exists b. split; [done|]. by rewrite Hin'.
Qed.

Lemma hasLeafNode_spec ty item (have : node) : proper ty 0 0 have -> (exists d' q', proper ty d' q' (LeafNode ty item)) ->
  exists b, hasLeafNode have (item_key item) (node_hash (LeafNode ty item)) = Ok b /\ (b = true <-> item ∈ items have).
Proof.
  intros Hp HL. destruct HL as (d' & q' & HL). destruct (wf_leaf_inv _ _ _ _ _ (proj1 HL)) as (_ & Hty & _). destruct have as [ty' item'|ch]; cbn [hasLeafNode].
  - eexists. split; [done|]. rewrite N.eqb_eq. split.
    + intros Eh. assert (node_hash (LeafNode ty' item') <> 0) as Hnz by apply (uf_range _ (proj1 (proj2 Hp))).
      rewrite <-(hash_tree _ _ _ _ _ _ _ Hp HL Hnz (eq_sym Eh)). by left.
    + intros Hit. cbn in Hit. apply list_elem_of_singleton in Hit as ->. by destruct (wf_leaf_inv _ _ _ _ _ (proj1 Hp)) as [-> _].
  - rewrite <-(createID_root (item_key item)). eapply has_leaf_spec; [done|exact Hp|by exists d', q'|unfold walk_fuel; cbn; lia].
Qed.

(** ** Differences *)

Section differences.
Context (ty : SHAMapNodeType) (have : option node) (Hhave : forall hv, have = Some hv -> proper ty 0 0 hv).
Context (T : node) (HT : proper ty 0 0 T) (Hnz : node_hash T <> 0).

(** The other map does not have the node at this place, or the item. *)
Definition lacks (q : Path) (x : node) : Prop :=
  match have with
  | None => True
  | Some hv => match x with InnerNode _ => tnode_at hv q <> Some x | LeafNode _ it => it ∉ items hv end
  end.

Lemma lacks_inner_spec p ch nid : tnode_at T p = Some (InnerNode ch) -> names nid p ->
  exists b, lacks_inner have nid (node_hash (InnerNode ch)) = Ok b /\ (b = true <-> lacks p (InnerNode ch)).
Proof.
  intros Hp Hid. unfold lacks_inner, lacks. destruct have as [hv|] eqn:Ehv; [|by exists true].
  pose proof (place_nonzero ty T HT Hnz _ _ Hp) as Hcz. destruct (place_id _ _ _ _ HT Hp Hcz) as (key & Hfo & Eid). unfold names in Hid. rewrite Hid in Eid. injection Eid as ->.
  destruct (place_depth _ _ _ _ HT Hp) as [H64 _]. rewrite (hasInnerNode_place hv p key _ Hfo H64). cbn [mbind result_bind]. eexists. split; [done|].
  destruct (tnode_at hv p) as [[ty' it|ch']|] eqn:Ep; cbn [negb]; [done| |done].
  destruct (N.eqb_spec (node_hash (InnerNode ch')) (node_hash (InnerNode ch))) as [Eh|Hne]; cbn [negb].
  - destruct (proper_at _ _ _ _ _ _ HT Hp) as [q Hq]. destruct (proper_at _ _ _ _ _ _ (Hhave hv eq_refl) Ep) as [q' Hq'].
    rewrite (hash_tree _ _ _ _ _ _ _ Hq Hq' Hcz Eh). split; [done|]. by intros [].
  - split; [|done]. intros _ [= ->]. done.
Qed.
Lemma lacks_leaf_spec p ty' it : tnode_at T p = Some (LeafNode ty' it) ->
  exists b, lacks_leaf have (item_key it) (node_hash (LeafNode ty' it)) = Ok b /\ (b = true <-> lacks p (LeafNode ty' it)).
Proof.
  intros Hp. destruct (proper_at _ _ _ _ _ _ HT Hp) as [q Hq]. destruct (wf_leaf_inv _ _ _ _ _ (proj1 Hq)) as [-> _].
  unfold lacks_leaf, lacks. destruct have as [hv|] eqn:Ehv; [|by exists true].
  destruct (hasLeafNode_spec ty it hv (Hhave hv eq_refl)) as (b & -> & Hb); [by eexists _, _|]. cbn [mbind result_bind]. exists (negb b). split; [done|].
  rewrite <-Hb. by destruct b.
Qed.

(** What is below a node the other map has, it has. *)
Lemma lacks_below p c r x : tnode_at T p = Some c -> tnode_at c r = Some x -> (match c with InnerNode _ => True | LeafNode _ _ => False end) -> lacks (p ++ r) x -> lacks p c.
Proof.
  intros Hp Hr Hc Hl. destruct c as [|ch]; [done|]. unfold lacks in *. destruct have as [hv|] eqn:Ehv; [|done]. intros Hhp.
  assert (tnode_at hv (p ++ r) = Some x) as Hx by (by rewrite tnode_at_app, Hhp). destruct x as [ty' it|ch']; [|done]. apply Hl.
  destruct (place_follows _ _ _ _ _ _ it (Hhave hv eq_refl) Hx) as [_ Hin]; [by left|done].
Qed.

Definition leaf_lacking (p : Path) (i : nat) (ch : list (option node)) (x : node) : Prop :=
  exists j ty' it, x = LeafNode ty' it /\ ch !! j = Some (Some x) /\ lacks (p ++ [(i + j)%nat]) x.
Definition inner_lacking (p : Path) (i : nat) (ch : list (option node)) (e : node * SHAMapNodeID) : Prop :=
  exists j ch', e.1 = InnerNode ch' /\ ch !! j = Some (Some e.1) /\ lacks (p ++ [(i + j)%nat]) e.1 /\ names e.2 (p ++ [(i + j)%nat]).

Lemma lacking_cons p i o ch x : leaf_lacking p i (o :: ch) x <->
  (exists ty' it, x = LeafNode ty' it /\ o = Some x /\ lacks (p ++ [i]) x) \/ leaf_lacking p (S i) ch x.
Proof.
  unfold leaf_lacking. split.
  - intros ([|j] & ty' & it & Hx & Ho & Hl); cbn in Ho.
    + left. exists ty', it. injection Ho as ->. rewrite Nat.add_0_r in Hl. done.
    + right. exists j, ty', it. rewrite Nat.add_succ_r in Hl. done.
  - intros [(ty' & it & Hx & -> & Hl)|(j & ty' & it & Hx & Ho & Hl)]; [exists 0%nat, ty', it; by rewrite Nat.add_0_r|].
    exists (S j), ty', it. by rewrite Nat.add_succ_r.
Qed.
Lemma inner_cons p i o ch e : inner_lacking p i (o :: ch) e <->
  (exists ch', e.1 = InnerNode ch' /\ o = Some e.1 /\ lacks (p ++ [i]) e.1 /\ names e.2 (p ++ [i])) \/ inner_lacking p (S i) ch e.
Proof.
  unfold inner_lacking. split.
  - intros ([|j] & ch' & Hx & Ho & Hl & Hn); cbn in Ho.
    + left. exists ch'. injection Ho as ->. rewrite Nat.add_0_r in Hl, Hn. done.
    + right. exists j, ch'. rewrite Nat.add_succ_r in Hl, Hn. done.
  - intros [(ch' & Hx & -> & Hl & Hn)|(j & ch' & Hx & Ho & Hl & Hn)]; [exists 0%nat, ch'; by rewrite Nat.add_0_r|].
    exists (S j), ch'. by rewrite Nat.add_succ_r.
Qed.

Lemma diff_branches_spec p ch0 nid : tnode_at T p = Some (InnerNode ch0) -> names nid p -> forall ch i, (forall j, ch !! j = ch0 !! (i + j)%nat) ->
  exists leaves inners, (forall x, x ∈ leaves <-> leaf_lacking p i ch x) /\ (forall e, e ∈ inners <-> inner_lacking p i ch e) /\
    leaves ++ flat_map (fun e => nodes_of e.1) inners ⊆+ flat_map onodes ch /\
    forall St (f : St -> node -> St * bool) stack s, exists st', diff_branches have f nid i ch stack s = Ok (st', (run f s leaves).1, (run f s leaves).2) /\
      ((run f s leaves).2 = true -> st' = inners ++ stack).
Proof.
  intros Hp Hid. induction ch as [|o ch IH]; intros i Hch.
  { exists [], []. split_and!; [intros x; split; [by intros ?%elem_of_nil|by intros (j & ? & ? & _ & ? & _)]|intros e; split; [by intros ?%elem_of_nil|by intros (j & ? & _ & ? & _)]|done|].
    intros St f stack s. by exists stack. }
  destruct (IH (S i)) as (leaves & inners & Hle & Hin & Hsub & Hrun); [intros j; replace (S i + j)%nat with (i + S j)%nat by lia; apply (Hch (S j))|].
  destruct o as [c|]; cycle 1.
  { exists leaves, inners. split_and!; [|..|done|apply Hrun].
    - intros x. rewrite lacking_cons, Hle. split; [by right|]. by intros [(? & ? & _ & ? & _)|?].
    - intros e. rewrite inner_cons, Hin. split; [by right|]. by intros [(? & _ & ? & _)|?]. }
  pose proof (Hch 0%nat) as Hc. cbn in Hc. rewrite Nat.add_0_r in Hc. assert (getChild ch0 i = Some c) as Hgc by (unfold getChild; by rewrite <-Hc).
  assert (tnode_at T (p ++ [i]) = Some c) as Hci by (by rewrite (tnode_at_snoc _ _ _ _ Hp)).
  destruct (names_child ty T HT Hnz _ _ _ _ _ Hid Hp Hgc) as (childID & Ecid & Hcn). destruct c as [ty' it|ch'].
  - destruct (lacks_leaf_spec _ _ _ Hci) as (b & Eb & Hb). exists ((if b then [LeafNode ty' it] else []) ++ leaves), inners. split_and!.
    + intros x. rewrite elem_of_app, lacking_cons, Hle. destruct b.
      * rewrite list_elem_of_singleton. split; [intros [->|?]; [left; exists ty', it; split_and!; [done..|by apply Hb]|by right]|].
        intros [(ty2 & it2 & _ & [= <-] & _)|?]; [by left|by right].
      * split; [intros [?%elem_of_nil|?]; [done|by right]|]. intros [(ty2 & it2 & _ & [= <-] & Hl)|?]; [|by right]. by apply Hb in Hl.
    + intros e. rewrite inner_cons, Hin. split; [by right|]. intros [(ch2 & E1 & [= E2] & _)|?]; [congruence|done].
    + cbn [flat_map onodes nodes_of app]. destruct b; cbn [app]; [by apply submseteq_skip|by apply submseteq_cons].
    + intros St f stack s. cbn [diff_branches]. rewrite Ecid. cbn [mbind result_bind]. rewrite Eb. cbn [mbind result_bind]. destruct b; cbn [app run]; [|apply Hrun].
      destruct (f s (LeafNode ty' it)) as [s' []]; [apply Hrun|]. by exists stack.
  - destruct (lacks_inner_spec _ _ _ Hci Hcn) as (b & Eb & Hb). exists leaves, (inners ++ (if b then [(InnerNode ch', childID)] else [])). split_and!.
    + intros x. rewrite lacking_cons, Hle. split; [by right|]. intros [(ty2 & it2 & E1 & [= E2] & _)|?]; [congruence|done].
    + intros e. rewrite elem_of_app, inner_cons, Hin. destruct b.
      * rewrite list_elem_of_singleton. split; [intros [?| ->]; [by right|left; exists ch'; split_and!; [done..|by apply Hb|done]]|].
        intros [(ch2 & E1 & E2 & _ & E3)|?]; [right|by left]. unfold names in *. destruct e as [e1 e2]. cbn in *. congruence.
      * split; [intros [?|?%elem_of_nil]; [by right|done]|]. intros [(ch2 & E1 & [= E2] & Hl & _)|?]; [|by left]. rewrite <-E2 in Hl. by apply Hb in Hl.
    + rewrite flat_map_app. cbn [flat_map]. rewrite (Permutation_app_comm (flat_map _ inners)), app_assoc, (Permutation_app_comm leaves), <-app_assoc.
      destruct b; cbn [flat_map fst onodes]; rewrite ?app_nil_r; [by apply submseteq_skips_l|]. by apply submseteq_inserts_l.
    + intros St f stack s. cbn [diff_branches]. rewrite Ecid. cbn [mbind result_bind]. rewrite Eb. cbn [mbind result_bind].
      destruct (Hrun St f (if b then (InnerNode ch', childID) :: stack else stack) s) as (st' & -> & Hst). exists st'. split; [done|]. intros Hgo.
      rewrite (Hst Hgo), <-app_assoc. by destruct b.
Qed.

Definition entry_ok (e : node * SHAMapNodeID) : Prop := exists p ch, e.1 = InnerNode ch /\ tnode_at T p = Some e.1 /\ names e.2 p.
Definition visited (p : Path) (n x : node) : Prop := exists r, tnode_at n r = Some x /\ (r = [] \/ lacks (p ++ r) x).
Definition visited_from (e : node * SHAMapNodeID) (x : node) : Prop := exists p, tnode_at T p = Some e.1 /\ visited p e.1 x.

Lemma visited_inner p ch nid (leaves : list node) (inners : list (node * SHAMapNodeID)) x : tnode_at T p = Some (InnerNode ch) -> names nid p ->
  (forall x, x ∈ leaves <-> leaf_lacking p 0 ch x) -> (forall e, e ∈ inners <-> inner_lacking p 0 ch e) ->
  visited p (InnerNode ch) x <-> x = InnerNode ch \/ x ∈ leaves \/ exists e, e ∈ inners /\ visited_from e x.
Proof.
  intros Hp Hid Hle Hin. assert (forall j c, ch !! j = Some (Some c) -> getChild ch j = Some c) as Hget by (intros j c Hj; unfold getChild; by rewrite Hj).
  split.
  - intros ([|j r] & Hr & Hl); [injection Hr as <-; by left|]. destruct Hl as [|Hl]; [done|]. cbn in Hr. destruct (getChild ch j) as [c|] eqn:Ec; [|done]. cbn in Hr.
    assert (ch !! j = Some (Some c)) as Hj by (unfold getChild in Ec; destruct (ch !! j) as [[?|]|]; [by injection Ec as ->|done..]).
    assert (tnode_at T (p ++ [j]) = Some c) as Hcj by (by rewrite (tnode_at_snoc _ _ _ _ Hp)). rewrite cons_middle, app_assoc in Hl. right. destruct c as [ty' it|ch'].
    + left. destruct r; [|done]. injection Hr as <-. rewrite app_nil_r in Hl. apply Hle. by exists j, ty', it.
    + right. destruct (names_child ty T HT Hnz _ _ _ _ _ Hid Hp Ec) as (childID & _ & Hcn). exists (InnerNode ch', childID). split.
      * apply Hin. exists j, ch'. split_and!; [done..| |done]. by eapply (lacks_below _ _ r).
      * exists (p ++ [j]). split; [done|]. exists r. by split; [|right].
  - intros [->|[(j & ty' & it & -> & Hj & Hl)%Hle|(e & (j & ch' & Ee & Hj & Hl & Hn)%Hin & p' & Hp' & r & Hr & Hv)]].
    + exists []. by split; [|left].
    + exists [j]. split; [cbn; by rewrite (Hget _ _ Hj)|by right].
    + assert (tnode_at T (p ++ [j]) = Some e.1) as Hcj by (rewrite (tnode_at_snoc _ _ _ _ Hp); by apply Hget).
      assert (p' = p ++ [j]) as -> by (by eapply (hash_place _ _ _ _ _ _ HT Hp' Hcj (place_nonzero ty T HT Hnz _ _ Hp'))).
      exists (j :: r). split; [cbn; by rewrite (Hget _ _ Hj)|]. right. rewrite cons_middle, app_assoc. destruct Hv as [->|Hv]; [|done].
      injection Hr as <-. by rewrite app_nil_r.
Qed.

Lemma flat_map_le (inners : list (node * SHAMapNodeID)) l : flat_map (fun e => nodes_of e.1) inners ⊆+ l ->
  (list_sum (map (fun e => node_count e.1) inners) <= length l)%nat.
Proof.
  intros Hs. apply submseteq_length in Hs. etrans; [|exact Hs]. clear. induction inners as [|e l IH]; [done|]. cbn [map flat_map]. rewrite list_sum_cons, length_app.
  assert (node_count e.1 <= length (nodes_of e.1))%nat; [|lia]. by rewrite nodes_count.
Qed.

Lemma diff_loop_spec fuel : forall stack, Forall entry_ok stack -> (list_sum (map (fun e => node_count e.1) stack) < fuel)%nat ->
  exists l, (forall x, x ∈ l <-> exists e, e ∈ stack /\ visited_from e x) /\ l ⊆+ flat_map (fun e => nodes_of e.1) stack /\
    forall St (f : St -> node -> St * bool) s, diff_loop have f fuel stack s = Ok (run f s l).1.
Proof.
  induction fuel as [|fuel IH]; intros stack Hst Hf; [lia|]. destruct stack as [|[n nid] stack].
  { exists []. split_and!; [|done|done]. intros x. split; [by intros ?%elem_of_nil|by intros (e & ?%elem_of_nil & _)]. }
  apply Forall_cons in Hst as [(p & ch & En & Hp & Hid) Hst]. cbn [fst snd] in *. subst n.
  destruct (diff_branches_spec p ch nid Hp Hid ch 0 ltac:(done)) as (leaves & inners & Hle & Hin & Hsub & Hrun).
  destruct (IH (inners ++ stack)) as (l & Hl & Hsubl & Hrunl).
  - apply Forall_app. split; [|done]. apply Forall_forall. intros e He. apply Hin in He as (j & ch' & Ee & Hj & _ & Hn). exists (p ++ [j]), ch'. split_and!; [done| |done].
    rewrite (tnode_at_snoc _ _ _ _ Hp). unfold getChild. by rewrite Hj.
  - cbn [map] in Hf. rewrite list_sum_cons in Hf. rewrite map_app, list_sum_app. cbn [fst] in Hf. rewrite <-nodes_count, nodes_inner in Hf. cbn [length] in Hf.
    assert (flat_map (fun e => nodes_of e.1) inners ⊆+ rest ch 0) as Hs by (etrans; [|exact Hsub]; by apply submseteq_inserts_l). apply flat_map_le in Hs. lia.
  - exists (InnerNode ch :: leaves ++ l). split_and!.
    + intros x. rewrite elem_of_cons, elem_of_app, Hl. setoid_rewrite elem_of_app. setoid_rewrite elem_of_cons.
      pose proof (visited_inner p ch nid leaves inners x Hp Hid Hle Hin) as Hv. split.
      * intros [->|[Hx|(e & [He|He] & Hx)]]; [..|exists e; split; [by right|done]]; (exists (InnerNode ch, nid); split; [by left|]; exists p; split; [done|]; apply Hv);
          [by left|right; by left|right; right; by exists e].
      * intros (e & [->|He] & Hx); [|right; right; exists e; split; [by right|done]]. destruct Hx as (p' & Hp' & Hx). cbn [fst] in *.
        assert (p' = p) as -> by (by eapply (hash_place _ _ _ _ _ _ HT Hp' Hp (place_nonzero ty T HT Hnz _ _ Hp'))).
        apply Hv in Hx as [->|[Hx|(e & He & Hx)]]; [by left|right; by left|right; right; exists e; split; [by left|done]].
    + cbn [flat_map fst]. rewrite nodes_inner. cbn [app]. apply submseteq_skip. rewrite flat_map_app in Hsubl.
      etrans; [apply submseteq_app; [reflexivity|exact Hsubl]|]. rewrite app_assoc. by apply submseteq_app; [exact Hsub|].
    + intros St f s. cbn [diff_loop run]. destruct (f s (InnerNode ch)) as [s' []]; cbn [negb]; [|done]. rewrite run_through.
      destruct (Hrun St f stack s') as (st' & -> & Hst'). cbn [mbind result_bind]. destruct (run f s' leaves) as [s2 go]. cbn [fst snd] in *. destruct go; [|done].
      rewrite (Hst' eq_refl). apply Hrunl.
Qed.

(** Which nodes are visited. *)
Lemma visitDifferences_run : exists l, (forall x, x ∈ l <-> exists p, tnode_at T p = Some x /\ lacks p x) /\ l ⊆+ nodes_of T /\
  forall St (f : St -> node -> St * bool) s, visitDifferences have f T s = Ok (run f s l).1.
Proof.
  unfold visitDifferences. rewrite (proj2 (N.eqb_neq _ _) Hnz).
  assert (forall hv, have = Some hv -> node_hash T = node_hash hv -> hv = T) as Hsame by (intros hv Ehv Eh; by eapply (hash_tree _ _ _ _ _ _ _ HT (Hhave hv Ehv))).
  destruct (match have with Some hv => node_hash T =? node_hash hv | None => false end) eqn:Eh.
  { exists []. split_and!; [|by apply submseteq_nil_l|done]. intros x. split; [by intros ?%elem_of_nil|]. intros (p & Hp & Hl). exfalso. unfold lacks in Hl.
    destruct have as [hv|] eqn:Ehv; [|done]. apply N.eqb_eq in Eh. rewrite (Hsame hv eq_refl Eh) in Hl. destruct x as [ty' it|ch]; [|done]. apply Hl.
    by destruct (place_follows _ _ _ _ _ _ it HT Hp) as [_ Hin]; [left|]. }
  assert ((exists ty' it, T = LeafNode ty' it) \/ exists ch, T = InnerNode ch) as [(ty' & it & ET)|(ch & ET)] by (clear; destruct T; eauto).
  - destruct (lacks_leaf_spec [] ty' it ltac:(cbn; by rewrite ET)) as (b & Eb & Hb). rewrite <-ET in Hb. exists (if b then [T] else []). split_and!.
    + intros x. destruct b.
      * rewrite list_elem_of_singleton. split; [intros ->; exists []; split; [done|by apply Hb]|]. intros ([|i p] & Hp & _); [by injection Hp as <-|by rewrite ET in Hp].
      * split; [by intros ?%elem_of_nil|]. intros ([|i p] & Hp & Hl); [|by rewrite ET in Hp]. injection Hp as <-. by apply Hb in Hl.
    + rewrite ET. destruct b; [done|by apply submseteq_nil_l].
    + intros St f s. rewrite ET, Eb. cbn [mbind result_bind]. destruct b; [|done]. cbn. by destruct (f s (LeafNode ty' it)) as [s' []].
  - assert (lacks [] T) as Hroot.
    { unfold lacks. destruct have as [hv|] eqn:Ehv; [|done]. rewrite ET. intros [= E1]. rewrite E1, <-ET, N.eqb_refl in Eh. done. }
    destruct (diff_loop_spec (S (node_count T)) [(T, rootID)]) as (l & Hl & Hsub & Hrun).
    + apply Forall_singleton. exists [], ch. by split_and!.
    + cbn [map]. rewrite list_sum_cons. cbn. lia.
    + exists l. split_and!; [|cbn [flat_map fst] in Hsub; by rewrite app_nil_r in Hsub|intros St f s; rewrite <-Hrun; by rewrite ET at 1].
      intros x. rewrite Hl. split.
      * intros (e & ->%list_elem_of_singleton & p & Hp & r & Hr & Hv). cbn [fst] in *.
        assert (p = []) as -> by (by eapply (hash_place ty T p T [] T HT Hp eq_refl)). exists r. split; [done|]. destruct Hv as [->|Hv]; [by injection Hr as <-|done].
      * intros (p & Hp & Hx). exists (T, rootID). split; [by left|]. exists []. split; [done|]. exists p. split; [done|by right].
Qed.
End differences.

(** ** Deep comparison *)

Definition pairs (st : list (node * node)) : nat := list_sum (map (fun e => node_count e.1) st).

Lemma compare_branches_some ch : forall other stack stack', compare_branches ch other stack = Some stack' ->
  (pairs stack' = list_sum (map (fun c => match c with Some c => node_count c | None => 0 end) ch) + pairs stack)%nat.
Proof.
  induction ch as [|[n|] ch IH]; intros [|[o|] other] stack stack' E; cbn in E; [by injection E as <-|done|done|done| |done|done|done|].
  - apply IH in E. unfold pairs in *. cbn [map] in *. rewrite list_sum_cons in *. cbn [fst] in E. lia.
  - apply IH in E. cbn [map]. rewrite list_sum_cons. lia.
Qed.
Lemma compare_branches_same ch stack : Forall (fun e => e.1 = e.2) stack -> exists stack', compare_branches ch ch stack = Some stack' /\ Forall (fun e => e.1 = e.2) stack'.
Proof.
  revert stack. induction ch as [|[n|] ch IH]; intros stack Hs; cbn; [by exists stack| |by apply IH]. apply IH. by constructor.
Qed.

Lemma deep_loop_returns fuel : forall stack, (pairs stack < fuel)%nat -> exists b, deep_loop fuel stack = Ok b /\ (Forall (fun e => e.1 = e.2) stack -> b = true).
Proof.
  induction fuel as [|fuel IH]; intros stack Hf; [lia|]. cbn [deep_loop]. destruct stack as [|[n o] stack]; [by exists true|].
  unfold pairs in Hf. cbn [map] in Hf. rewrite list_sum_cons in Hf. cbn [fst] in Hf. assert (0 < node_count n)%nat as Hpos by (destruct n; cbn; lia).
  destruct (N.eqb_spec (node_hash o) (node_hash n)) as [Eh|Hne]; cbn [negb]; [|exists false; split; [done|]; intros [[= ->] _]%Forall_cons; done].
  destruct n as [ty it|ch], o as [ty' it'|ch']; [|exists false; split; [done|]; by intros [[= ?] _]%Forall_cons..|].
  - destruct (N.eqb_spec (item_key it) (item_key it')) as [Ek|Hk]; cbn [negb]; [|exists false; split; [done|]; by intros [[= -> ->] _]%Forall_cons].
    case_bool_decide as Ed; cbn [negb]; [|exists false; split; [done|]; by intros [[= -> ->] _]%Forall_cons].
    destruct (IH stack) as (b & -> & Hb); [unfold pairs; lia|]. exists b. split; [done|]. intros [_ Hs]%Forall_cons. by apply Hb.
  - destruct (compare_branches ch ch' stack) as [stack'|] eqn:Ec.
    + pose proof (compare_branches_some _ _ _ _ Ec) as Hp. cbn [node_count] in Hf. destruct (IH stack') as (b & -> & Hb); [unfold pairs in *; lia|]. exists b. split; [done|].
      intros [[= <-] Hs]%Forall_cons. destruct (compare_branches_same ch stack Hs) as (st2 & E2 & Hs2). rewrite Ec in E2. injection E2 as <-. by apply Hb.
    + exists false. split; [done|]. intros [[= <-] Hs]%Forall_cons. destruct (compare_branches_same ch stack Hs) as (st2 & E2 & _). congruence.
Qed.

Lemma deepCompare_same ty (a b : node) : proper ty 0 0 a -> proper ty 0 0 b -> node_hash a <> 0 -> exists r, deepCompare a b = Ok r /\ (r = true <-> a = b).
Proof.
  intros Ha Hb Hnz. unfold deepCompare. destruct (deep_loop_returns (S (node_count a)) [(a, b)]) as (r & E & Hr); [unfold pairs; cbn [map]; rewrite list_sum_cons; cbn; lia|].
  exists r. split; [done|]. split; [|intros ->; apply Hr; by apply Forall_singleton]. intros ->. cbn [deep_loop] in E.
  destruct (N.eqb_spec (node_hash b) (node_hash a)) as [Eh|]; [|done]. by rewrite (hash_tree _ _ _ _ _ _ _ Ha Hb Hnz Eh).
Qed.
End visit.
