(* ===== verification/SHAMapServe.v ===== *)
(** * Serving the nodes of a map

    What [getNodeFat] sends is what [addKnownNode] takes. *)

From S2P Require Import Prelude LedgerEntry Serializer SHAMapNodeID SHAMap SHAMapSpec SHAMapHash SHAMapProof SHAMapSync SHAMapSyncSpec SHAMapMissing SHAMapVisit SHAMapAcquire.
Local Open Scope N_scope.

Section serve.
Context `{Digest}.
Abbreviation node := (SHAMapTreeNode Blob).
Context (ty : SHAMapNodeType) (T : node) (HT : proper ty 0 0 T) (Hnz : node_hash T <> 0) (p0 : Path).

(** Nodes at or below the place asked for, under their identifiers. *)
Definition served (x : SHAMapNodeID * Blob) : Prop := exists r c, tnode_at T (p0 ++ r) = Some c /\ names x.1 (p0 ++ r) /\ x.2 = wire_of c.
Definition fat_entry (e : node * SHAMapNodeID * N) : Prop := exists r, tnode_at T (p0 ++ r) = Some e.1.1 /\ names e.1.2 (p0 ++ r).

Definition fat_count (st : list (node * SHAMapNodeID * N)) : nat := list_sum (map (fun e => node_count e.1.1) st).

Lemma fat_children_spec fatLeaves r ch0 nid bc depth : tnode_at T (p0 ++ r) = Some (InnerNode ch0) -> names nid (p0 ++ r) ->
  forall ch i stack data, (forall j, ch !! j = ch0 !! (i + j)%nat) ->
  exists pushed included, fat_children fatLeaves nid bc depth i ch stack data = Ok (pushed ++ stack, data ++ included) /\
    Forall fat_entry pushed /\ Forall served included /\
    (fat_count pushed <= list_sum (map (fun c => match c with Some c => node_count c | None => 0%nat end) ch))%nat /\
    forall j c, ch !! j = Some (Some c) -> fatLeaves = true \/ (exists ch', c = InnerNode ch') ->
      exists cid, names cid (p0 ++ r ++ [(i + j)%nat]) /\ ((cid, wire_of c) ∈ included \/ exists d, (c, cid, d) ∈ pushed).
Proof.
  intros Hp Hid. induction ch as [|o ch IH]; intros i stack data Hch.
  { exists [], []. rewrite app_nil_r. by split_and!. }
  assert (forall j, ch !! j = ch0 !! (S i + j)%nat) as Hch' by (intros j; replace (S i + j)%nat with (i + S j)%nat by lia; apply (Hch (S j))).
  destruct o as [c|]; cycle 1.
  { destruct (IH (S i) stack data Hch') as (pushed & included & E1 & Hpu & Hinc & Hsz & Hcov). exists pushed, included. split_and!; [done..|].
    intros [|j] c Hj Hc; [done|]. destruct (Hcov j c Hj Hc) as (cid & Hn & Hx). exists cid. by replace (i + S j)%nat with (S i + j)%nat by lia. }
  pose proof (Hch 0%nat) as Hc. cbn in Hc. rewrite Nat.add_0_r in Hc. assert (getChild ch0 i = Some c) as Hgc by (unfold getChild; by rewrite <-Hc).
  assert (tnode_at T (p0 ++ (r ++ [i])) = Some c) as Hci by (by rewrite app_assoc, (tnode_at_snoc _ _ _ _ Hp)).
  destruct (names_child ty T HT Hnz _ _ _ _ _ Hid Hp Hgc) as (childID & Ecid & Hcn). rewrite <-app_assoc in Hcn.
  cbn [fat_children map]. rewrite Ecid, list_sum_cons. cbn [mbind result_bind]. set (inner := match c with InnerNode _ => true | LeafNode _ _ => false end).
  destruct (inner && ((1 <? depth) || (bc =? 1)%nat)) eqn:Epush.
  - set (e := (c, childID, if (1 <? bc)%nat then depth - 1 else depth)).
    destruct (IH (S i) (e :: stack) data Hch') as (pushed & included & -> & Hpu & Hinc & Hsz & Hcov). exists (pushed ++ [e]), included. rewrite <-app_assoc. split_and!; [done| |done| |].
    + apply Forall_app. split; [done|]. apply Forall_singleton. by exists (r ++ [i]).
    + unfold fat_count in *. rewrite map_app, list_sum_app. cbn [map]. rewrite list_sum_cons. cbn. lia.
    + intros [|j] c' Hj Hc'; cbn in Hj.
      * injection Hj as <-. exists childID. rewrite Nat.add_0_r. split; [done|]. right. eexists. apply elem_of_app. right. by left.
      * destruct (Hcov j c' Hj Hc') as (cid & Hn & Hx). exists cid. replace (i + S j)%nat with (S i + j)%nat by lia. split; [done|].
        destruct Hx as [?|(d & Hd)]; [by left|right]. exists d. apply elem_of_app. by left.
  - assert (exists inc, fat_children fatLeaves nid bc depth i (Some c :: ch) stack data = fat_children fatLeaves nid bc depth (S i) ch stack (data ++ inc) /\
      (inc = [(childID, wire_of c)] \/ (inc = [] /\ inner = false /\ fatLeaves = false))) as (inc & Einc & Hinc0).
    { cbn [fat_children]. rewrite Ecid. cbn [mbind result_bind]. fold inner. rewrite Epush. destruct (inner || fatLeaves) eqn:Eor; [exists [(childID, wire_of c)]; by split; [|left]|].
      exists []. apply orb_false_iff in Eor as [-> ->]. rewrite app_nil_r. by split; [|right]. }
    cbn [fat_children] in Einc. rewrite Ecid in Einc. cbn [mbind result_bind] in Einc. fold inner in Einc. rewrite Epush in Einc. rewrite Einc. clear Einc.
    destruct (IH (S i) stack (data ++ inc) Hch') as (pushed & included & -> & Hpu & Hinc & Hsz & Hcov). exists pushed, (inc ++ included). rewrite <-app_assoc. split_and!; [done|done| |lia|].
    + apply Forall_app. split; [|done]. destruct Hinc0 as [->|[-> _]]; [|constructor]. apply Forall_singleton. by exists (r ++ [i]), c.
    + intros [|j] c' Hj Hc'; cbn in Hj.
      * injection Hj as <-. exists childID. rewrite Nat.add_0_r. split; [done|]. left. apply elem_of_app. left. destruct Hinc0 as [->|(_ & Hin & Hfl)]; [by left|].
        destruct Hc' as [?|(ch' & ->)]; [congruence|done].
      * destruct (Hcov j c' Hj Hc') as (cid & Hn & Hx). exists cid. replace (i + S j)%nat with (S i + j)%nat by lia. split; [done|].
        destruct Hx as [?|?]; [left; apply elem_of_app; by right|by right].
Qed.

Lemma fat_loop_spec fatLeaves fuel : forall stack data, Forall fat_entry stack -> (fat_count stack < fuel)%nat ->
  exists more, fat_loop fuel fatLeaves stack data = Ok (data ++ more) /\ Forall served more /\
    (forall e, e ∈ stack -> (e.1.2, wire_of e.1.1) ∈ more) /\
    (forall n nid d st, stack = (n, nid, d) :: st -> exists more', more = (nid, wire_of n) :: more' /\
       (forall ch r, n = InnerNode ch -> tnode_at T (p0 ++ r) = Some n -> names nid (p0 ++ r) -> 0 < d \/ getBranchCount ch = 1%nat -> forall i c, getChild ch i = Some c -> fatLeaves = true \/ (exists ch', c = InnerNode ch') ->
          exists cid, names cid (p0 ++ r ++ [i]) /\ (cid, wire_of c) ∈ more')).
Proof.
  induction fuel as [|fuel IH]; intros stack data Hst Hf; [lia|]. cbn [fat_loop]. destruct stack as [|[[n nid] d] st].
  { exists []. rewrite app_nil_r. split_and!; [done|done|by intros e ?%elem_of_nil|done]. }
  apply Forall_cons in Hst as [(r & Hp & Hid) Hst]. cbn [fst snd] in *. unfold fat_count in Hf. cbn [map] in Hf. rewrite list_sum_cons in Hf. cbn [fst] in Hf.
  assert (served (nid, wire_of n)) as Hserved by (by exists r, n).
  assert (0 < node_count n)%nat as Hpos by (destruct n; cbn; lia).
  assert (forall pushed included, Forall fat_entry pushed -> Forall served included -> (fat_count pushed < node_count n)%nat ->
    (forall ch r, n = InnerNode ch -> tnode_at T (p0 ++ r) = Some n -> names nid (p0 ++ r) -> 0 < d \/ getBranchCount ch = 1%nat -> forall i c, getChild ch i = Some c -> fatLeaves = true \/ (exists ch', c = InnerNode ch') ->
       exists cid, names cid (p0 ++ r ++ [i]) /\ ((cid, wire_of c) ∈ included \/ exists d, (c, cid, d) ∈ pushed)) ->
    exists more, fat_loop fuel fatLeaves (pushed ++ st) ((data ++ [(nid, wire_of n)]) ++ included) = Ok (data ++ more) /\ Forall served more /\
    (forall e, e ∈ (n, nid, d) :: st -> (e.1.2, wire_of e.1.1) ∈ more) /\
    (forall n0 nid0 d0 st0, (n, nid, d) :: st = (n0, nid0, d0) :: st0 -> exists more', more = (nid0, wire_of n0) :: more' /\
       (forall ch r, n0 = InnerNode ch -> tnode_at T (p0 ++ r) = Some n0 -> names nid0 (p0 ++ r) -> 0 < d0 \/ getBranchCount ch = 1%nat -> forall i c, getChild ch i = Some c -> fatLeaves = true \/ (exists ch', c = InnerNode ch') ->
          exists cid, names cid (p0 ++ r ++ [i]) /\ (cid, wire_of c) ∈ more'))) as Hnext.
  { intros pushed included Hpu Hinc Hsz Hcov. destruct (IH (pushed ++ st) ((data ++ [(nid, wire_of n)]) ++ included)) as (more & E1 & Hm & Hel & _).
    - by apply Forall_app.
    - unfold fat_count in *. rewrite map_app, list_sum_app. lia.
    - exists ((nid, wire_of n) :: included ++ more). split_and!.
      + rewrite E1. by rewrite <-!app_assoc.
      + constructor; [done|]. by apply Forall_app.
      + intros e [->|He]%elem_of_cons; [by left|right]. apply elem_of_app. right. apply Hel. apply elem_of_app. by right.
      + intros n0 nid0 d0 st0 [= <- <- <- <-]. eexists. split; [done|]. intros ch r' En Hp' Hn' Hd i c Hc Hfl. destruct (Hcov ch r' En Hp' Hn' Hd i c Hc Hfl) as (cid & Hcn & Hx).
        exists cid. split; [done|]. apply elem_of_app. destruct Hx as [?|(d' & Hd')]; [by left|right]. apply (Hel (c, cid, d')). apply elem_of_app. by left. }
  destruct n as [ty' it|ch].
  - destruct (Hnext [] []) as (more & E1 & Hrest); [constructor..|done|done|]. rewrite app_nil_r in E1. by exists more.
  - destruct ((0 <? d) || (getBranchCount ch =? 1)%nat) eqn:Eb.
    + destruct (fat_children_spec fatLeaves r ch nid (getBranchCount ch) d Hp Hid ch 0 st (data ++ [(nid, wire_of (InnerNode ch))]) ltac:(done)) as (pushed & included & -> & Hpu & Hinc & Hsz & Hcov).
      cbn [mbind result_bind]. apply Hnext; [done..|cbn [node_count]; lia|]. intros ch2 r2 [= <-] Hp2 Hn2 _ i c Hc Hfl.
      assert (r2 = r) as ->. { eapply app_inv_head. by eapply (hash_place _ _ _ _ _ _ HT Hp2 Hp (place_nonzero ty T HT Hnz _ _ Hp2)). }
      apply Hcov; [|done]. unfold getChild in Hc. destruct (ch !! i) as [[?|]|]; [by injection Hc as ->|done..].
    + destruct (Hnext [] []) as (more & E1 & Hrest); [constructor..|done| |rewrite app_nil_r in E1; by exists more].
      intros ch2 r2 [= <-] _ _ Hd. apply orb_false_iff in Eb as [Eb Eb']. apply N.ltb_ge in Eb. apply Nat.eqb_neq in Eb'. lia.
Qed.
End serve.

Section getNodeFat.
Context `{Digest}.
Abbreviation node := (SHAMapTreeNode Blob).
Context (ty : SHAMapNodeType) (T : node) (HT : proper ty 0 0 T) (Hnz : node_hash T <> 0).

(** A node that is there. *)
Lemma getNodeFat_place p c nid fatLeaves depth : tnode_at T p = Some c -> names nid p ->
  exists more, getNodeFat T nid fatLeaves depth = Ok (true, (nid, wire_of c) :: more) /\ Forall (served T p) ((nid, wire_of c) :: more) /\
    ((forall ch, c = InnerNode ch -> depth = 0 /\ getBranchCount ch <> 1%nat) -> more = []) /\
    (forall ch, c = InnerNode ch -> 0 < depth \/ getBranchCount ch = 1%nat -> forall i d, getChild ch i = Some d -> fatLeaves = true \/ (exists ch', d = InnerNode ch') ->
       exists cid, names cid (p ++ [i]) /\ (cid, wire_of d) ∈ more).
Proof.
  intros Hp Hid. pose proof (place_nonzero ty T HT Hnz _ _ Hp) as Hcz. destruct (place_id _ _ _ _ HT Hp Hcz) as (key & Hfo & Eid). unfold names in Hid. rewrite Hid in Eid. injection Eid as ->.
  destruct (place_depth _ _ _ _ HT Hp) as [H64 _]. unfold getNodeFat.
  pose proof (descend_place key walk_fuel p T 0 Hfo ltac:(lia) ltac:(unfold walk_fuel; lia)) as Hd. cbn zeta in Hd. rewrite N.add_0_l, createID_root, Hp in Hd. rewrite Hd.
  cbn [mbind result_bind]. rewrite bool_decide_true by done. cbn [negb]. set (nid := createID (N.of_nat (length p)) key) in *.
  destruct (fat_loop_spec ty T HT Hnz p fatLeaves (S (node_count c)) [(c, nid, depth)] []) as (more & E1 & Hm & _ & Hhd).
  { apply Forall_singleton. exists []. rewrite app_nil_r. by split. }
  { unfold fat_count. cbn [map]. rewrite list_sum_cons. cbn. lia. }
  destruct (Hhd c nid depth [] eq_refl) as (more' & -> & Hcov). rewrite E1. exists more'. split_and!; [|done| |].
  - destruct c as [ty' it|ch]; [done|]. destruct (Nat.eqb_spec (getBranchCount ch) 0) as [Ez|_]; [|done]. rewrite node_hash_inner, Ez in Hcz. done.
  - intros Hone. destruct c as [ty' it|ch]; cbn [fat_loop node_count] in E1; [by injection E1|].
    destruct (Hone ch eq_refl) as [-> Hbc]. rewrite (proj2 (Nat.eqb_neq _ 1) Hbc) in E1. cbn [N.ltb N.compare orb fat_loop] in E1. by injection E1.
  - intros ch -> Hdep i d Hd' Hfl. destruct (Hcov ch [] eq_refl) with (i := i) (c := d) as (cid & Hn & Hin); [rewrite app_nil_r; exact Hp|rewrite app_nil_r; exact Hid|done..|]. by exists cid.
Qed.

(** A node that is not. *)
Lemma getNodeFat_absent nid fatLeaves depth : masked nid -> (forall p c, names nid p -> tnode_at T p <> Some c) -> getNodeFat T nid fatLeaves depth = Ok (false, []).
Proof.
  intros [Hd Hm] Hno. assert (forall x, mkNodeID (depth_ x) (id_ x) = x) as Heta by (by intros []).
  set (key := id_ nid). set (p := (fun k => N.to_nat (nib key (N.of_nat k))) <$> seq 0 (N.to_nat (depth_ nid))).
  assert (length p = N.to_nat (depth_ nid)) as Hl by (unfold p; by rewrite length_fmap, length_seq).
  assert (createID (N.of_nat (length p)) key = nid) as En by (rewrite Hl, N2Nat.id; unfold createID, key; rewrite <-Hm; apply Heta).
  assert (follows key 0 p) as Hfo.
  { intros k i Hk. unfold p in Hk. rewrite list_lookup_fmap in Hk. destruct (seq 0 (N.to_nat (depth_ nid)) !! k) as [k'|] eqn:Ek; [|done].
    apply lookup_seq in Ek as [-> _]. injection Hk as <-. by rewrite N.add_0_l. }
  assert (names nid p) as Hn by (unfold names; rewrite <-En at 1; rewrite <-(createID_root key), id_at_key by (done || lia); by rewrite N.add_0_l).
  pose proof (descend_place key walk_fuel p T 0 Hfo ltac:(lia) ltac:(unfold walk_fuel; lia)) as Hde. cbn zeta in Hde. rewrite N.add_0_l, createID_root, En in Hde.
  unfold getNodeFat. destruct (tnode_at T p) as [c|] eqn:Ep; [by destruct (Hno p c Hn)|].
  destruct Hde as [->|(ty' & it & k' & Hk' & ->)]; [done|]. cbn [mbind result_bind]. rewrite bool_decide_false; [done|].
  intros Eq. rewrite <-En in Eq. injection Eq as Eq _. lia.
Qed.

(** The nodes a peer with the map sends. *)
Definition peer_answer (fatLeaves : bool) (depth : N) (nid : SHAMapNodeID) : list (SHAMapNodeID * Blob) :=
  match getNodeFat T nid fatLeaves depth with Ok (_, data) => data | Throw _ => [] end.

Lemma place_wire p c : storable ty T -> tnode_at T p = Some c -> makeFromWire (wire_of c) = Ok (Some (stored_of c)).
Proof.
  intros Hs Hc. destruct (proper_at _ _ _ _ _ _ HT Hc) as [q (Hwf & Hu & _)]. eapply wire_parses; [done..|].
  intros it Hit. apply Hs. by destruct (place_follows _ _ _ _ _ _ it HT Hc Hit).
Qed.
Lemma peer_honest fatLeaves depth : storable ty T -> honest T (peer_answer fatLeaves depth).
Proof.
  intros Hs p c nid Hp Hid. destruct (getNodeFat_place p c nid fatLeaves depth Hp Hid) as (more & E1 & Hse & _). unfold peer_answer. rewrite E1.
  apply Forall_cons in Hse as [_ Hse]. exists (wire_of c), more. split_and!; [done|by eapply place_wire|].
  eapply Forall_impl; [exact Hse|]. intros x (r & c' & Hc' & _ & ->). by eapply (node_sound ty T HT), place_wire.
Qed.
End getNodeFat.
