(* ===== verification/SHAMapSyncProps.v ===== *)
(** * Properties of acquiring a map

    The claims about [addRootNode], [addKnownNode] and [getMissingNodes], and
    about visiting and serving the nodes of a map. *)

From S2P Require Import Prelude LedgerEntry Serializer SHAMapNodeID SHAMap SHAMapSpec SHAMapMap SHAMapHash SHAMapProof SHAMapProofProps SHAMapSync SHAMapSyncSpec SHAMapMissing SHAMapMissingLoop SHAMapAcquire SHAMapVisit SHAMapServe.
Local Open Scope N_scope.

(** ** A branch that is not there *)

(** Compressed form of an inner node, with a chunk for branch [j] that gives
    it a hash, and one that takes the hash away again. *)
Definition phantom_wire (bs : list (option N)) (j : nat) (h : N) : Blob :=
  flat_map branch_bytes (iterNonEmpty 0 bs ++ [(j, h); (j, 0)]) ++ [3%Z].

Lemma phantom_parsed `{Digest} bs j h : length bs = kBranchFactor -> Forall branch_ok bs -> bs !! j = Some None -> h <> 0 -> is_uint256 h ->
  (storedBranchCount bs <= 14)%nat -> makeFromWire (phantom_wire bs j h) = Ok (Some (SInner (<[j := Some 0]> bs))).
Proof.
  intros Hl Hok Hj Hz Hu Hc. assert (j < 16)%nat as Hj16 by (apply lookup_lt_Some in Hj; by rewrite Hl in Hj). set (l := iterNonEmpty 0 bs ++ [(j, h); (j, 0)]).
  assert (forall b, length (branch_bytes b) = 33%nat) as Hb by (intros b; unfold branch_bytes; by rewrite length_app, length_hash_bytes).
  assert (forall b, b ∈ iterNonEmpty 0 bs -> (b.1 < 16)%nat /\ b.2 <> 0 /\ is_uint256 b.2) as Hi.
  { intros b Hin. apply iterNonEmpty_elem in Hin as [Hi Hbs]. rewrite Hl in Hi. unfold kBranchFactor in Hi. rewrite Forall_forall in Hok.
    split; [lia|]. by apply (Hok _ Hbs). }
  unfold phantom_wire. fold l. rewrite makeFromWire_snoc. cbn [Z.eqb Pos.eqb].
  assert (makeCompressedInner (flat_map branch_bytes l) = Ok (SInner (<[j := Some 0]> bs))) as ->; [|done].
  pose proof (blob_size_flat_map branch_bytes 33 l Hb) as Hs. assert (length l = storedBranchCount bs + 2)%nat as Hll by (unfold l; by rewrite length_app).
  unfold makeCompressedInner. cbv zeta. rewrite Hs, Z.mul_comm, Z.mod_mul by lia. rewrite (proj2 (Z.ltb_ge _ _)) by lia. cbn [orb negb Z.eqb].
  rewrite makeSerialIter_at, compressed_loop_any.
  - unfold l. rewrite foldl_app, (put_slots_set (iterNonEmpty 0 bs)) by (intros b Hin; by destruct (Hi b Hin) as (_ & ? & _)).
    pose proof (fold_slots bs []) as Hf. cbn [app length] in Hf. rewrite Hl in Hf. rewrite Hf. cbn [foldl mbind result_bind]. do 2 f_equal.
    unfold put_slot. cbn [fst snd]. rewrite list_lookup_insert_eq by (rewrite length_fmap, Hl; unfold kBranchFactor; lia).
    rewrite (proj2 (N.eqb_neq h 0) Hz). cbn [negb]. rewrite orb_true_r. cbn [orb]. rewrite list_insert_insert_eq, list_fmap_insert. cbn [fst snd]. f_equal.
    rewrite <-list_fmap_compose. rewrite <-(list_fmap_id bs) at 2. apply list_fmap_ext. by intros ? [?|].
  - intros b. unfold l. rewrite elem_of_app. intros [Hin|Hin]; [by destruct (Hi b Hin) as (? & _ & ?)|]. set_unfold. destruct Hin as [->|[->|[]]]; done.
  - unfold blob_size in Hs. lia.
Qed.

Lemma phantom_hash `{Digest} bs j : bs !! j = Some None -> storedBranchCount bs <> 0%nat -> stored_hash (SInner (<[j := Some 0]> bs)) = stored_hash (SInner bs).
Proof.
  intros Hj Hc. cbn [stored_hash]. rewrite (proj2 (Nat.eqb_neq _ _) Hc).
  assert (iterChildren (<[j := Some 0]> bs) = iterChildren bs) as ->.
  { unfold iterChildren. rewrite list_fmap_insert. apply list_insert_id. by rewrite list_lookup_fmap, Hj. }
  rewrite (proj2 (Nat.eqb_neq _ _)); [done|]. clear Hc. unfold storedBranchCount. generalize 0%nat at 1. revert j Hj.
  induction bs as [|b bs IH]; intros [|j] Hj k; [done..| |]; cbn in *; [done|]. destruct b; [done|]. by apply IH.
Qed.

(** The identifier of the place below a branch of the root. *)
Lemma place_below j : (j < 16)%nat -> exists nid, names nid [j] /\ getChildNodeID rootID j = Ok nid /\ depth_ nid = 1 /\ selectBranch rootID (id_ nid) = j.
Proof.
  intros Hj. do 16 (destruct j as [|j]; [eexists; split_and!; vm_compute; reflexivity|]). lia.
Qed.

(** A place where a node with hash zero is waited for takes an empty inner
    node. *)
Lemma phantom_child `{Digest} E touched m bs gen j nid : state_ m = Synching -> root_ m = YInner bs gen -> bs !! j = Some (Some (0, None)) -> gen <> generation E -> (j < 16)%nat ->
  touched 0 = false -> fetchNodeNT E 0 = None -> names nid [j] ->
  exists m', addKnownNode E touched nid [3%Z] m = (m', Ok Useful) /\ branch (root_ m') j = Some (0, Some empty_root) /\ state_ m' = Synching.
Proof.
  intros Hst Hr Hb Hg Hj Hto Hf Hn. destruct (place_below j Hj) as (nid' & Hn' & Hc & Hd & Hs). unfold names in *. rewrite Hn in Hn'. injection Hn' as <-.
  assert (take_node [3%Z] 0 nid nid = (Some empty_root, false, Ok Useful)) as Ht.
  { unfold take_node. change (makeFromWire [3%Z]) with (@Ok (option StoredNode) (Some (SInner (replicate 16 None)))).
    change (stored_hash (SInner (replicate 16 None))) with 0. rewrite Hd, bool_decide_true by done. done. }
  unfold addKnownNode. rewrite Hst, Hr. unfold walk_fuel. cbn [add_walk isFullBelow]. rewrite (proj2 (N.eqb_neq _ _) Hg), Hd, Hs.
  cbn [depth_ rootID N.ltb N.compare negb orb branch]. rewrite Hb. cbn [mjoin option_join]. rewrite Hto, Hf, Hc, Ht. cbn [canonicalizeChild]. rewrite Hb.
  eexists. split; [done|]. unfold gotNode. destruct (syncFilter E); cbn [root_ state_ branch]; (split; [|done]); by rewrite list_lookup_insert_eq by (by eapply lookup_lt_Some).
Qed.

(** ** Properties *)

(** C18. Whatever peers send, in whatever order, a map that is being acquired
    stays a part of the wanted one.  A session starts with an empty map; in
    each step bytes come for the root or for some place, the map is asked for
    missing nodes, entries of the full-below cache expire, or the rest of the
    server stores more nodes.  As long as the bytes do not parse to an inner
    node with a zero hash in a branch that is set, the root is the empty one
    or has the wanted hash and only nodes of the wanted map at their places;
    the map never becomes invalid; all that is handed to the filter is the
    prefixed form of nodes of the wanted map with their hashes; and the map is
    taken to be complete only when every node of the wanted map is there or
    can be had locally. *)
Theorem sync_invariant `{Digest} ty (T : SHAMapTreeNode Blob) E C s fuel : proper ty 0 0 T -> node_hash T <> 0 -> env_ok E -> (sync_fuel T <= fuel)%nat ->
  cache_right T E C empty_root -> rtc (sync_step fuel (node_hash T)) (mkSession E wanted C) s ->
  (root_ (s_map s) = empty_root \/ part (root_ (s_map s)) T) /\ state_ (s_map s) <> Invalid /\ Forall (sent T) (gotNodes (s_map s)) /\
  (state_ (s_map s) = Modifying -> forall p c, tnode_at T p = Some c -> is_Some (node_at (root_ (s_map s)) p) \/ resident (s_env s) (node_hash c)).
Proof.
  intros HT Hnz HE Hfu Hca Hsteps. assert (session_ok T s) as [_ Hst Hse _ Hmap Hdo].
  { assert (session_ok T (mkSession E wanted C)) as H0 by (split; cbn; try done; by left).
    eapply session_run; done. }
  split_and!; [destruct Hmap as [[? _]|[? _]]; [by left|by right]|done..].
Qed.

(** C19. [getMissingNodes] returns, and finds what is missing.  With fuel that
    grows with the wanted map only, and whatever the order in which reads
    finish, the random draws and the entries that expire: each node it reports
    is at a place of the wanted map whose parent is there, is not there itself
    and is in none of the local sources; no hash is reported twice, nor more
    nodes than asked for; nodes that are there stay; when fewer nodes than
    asked for are reported, every other node of the wanted map is there, can be
    had locally or is below a reported one; and the map is taken to be complete
    when none is reported. *)
Theorem missing_nodes_found `{Digest} ty (T : SHAMapTreeNode Blob) E C m fuel max : proper ty 0 0 T -> node_hash T <> 0 -> env_ok E ->
  acquiring T E C (root_ m) -> (0 < max)%Z -> (sync_fuel T <= fuel)%nat ->
  exists missing C' m', getMissingNodes E fuel max C m = Ok (missing, C', m') /\
    acquiring T E C' (root_ m') /\ grows (root_ m) (root_ m') /\ Forall (reported E T (root_ m')) missing /\ NoDup missing.*2 /\
    (Z.of_nat (length missing) <= max)%Z /\ state_ m' = (if (length missing =? 0)%nat then Modifying else state_ m) /\
    ((Z.of_nat (length missing) < max)%Z -> forall p c, tnode_at T p = Some c -> held E (root_ m') p c \/
       exists q r c', p = q ++ r /\ tnode_at T q = Some c' /\ node_hash c' ∈ missing.*2).
Proof.
  intros HT Hnz HE Ha Hmax Hfu. destruct (missing_ok ty T HT Hnz E fuel max C m HE Ha Hmax Hfu) as (missing & C' & m' & E1 & Ha' & Hg & _ & Hst & Hrep & Hnd & Hle & Hcov).
  by exists missing, C', m'.
Qed.

(** C20. A map is acquired from a peer that has it.  From an empty map, the
    serialized root is taken, and then asking for what is missing and adding
    what the peer's [getNodeFat] sends for each node, with whatever depth and
    with or without leaves, ends within as many rounds as the map has nodes,
    with a map that is taken to be complete, is a part of the peer's and has
    every node of it there or locally at hand. *)
Theorem sync_completes `{Digest} ty (T : SHAMapTreeNode Blob) E C fatLeaves depth fuel max : proper ty 0 0 T -> node_hash T <> 0 -> storable ty T -> env_ok E ->
  cache_right T E C empty_root -> (0 < max)%Z -> (sync_fuel T <= fuel)%nat ->
  exists m C' m', addRootNode E (node_hash T) (serializeRoot T) wanted = (m, Ok Useful) /\
    acquire (node_count T) E fuel max (peer_answer T fatLeaves depth) C m = Ok (C', m') /\ state_ m' = Modifying /\ part (root_ m') T /\
    forall p c, tnode_at T p = Some c -> is_Some (node_at (root_ m') p) \/ resident E (node_hash c).
Proof.
  intros HT Hnz Hs HE Hca Hmax Hfu. destruct (root_taken ty T HT Hnz E C (serializeRoot T) HE (place_wire ty T HT [] T Hs eq_refl) Hca) as (m & Em & Ha & Hst & Hsz).
  destruct (acquire_any ty T HT Hnz E fuel max _ HE (peer_honest ty T HT Hnz fatLeaves depth Hs) Hmax Hfu C m Ha Hst Hsz) as (C' & m' & Eq & Ha' & Hst' & Hc).
  exists m, C', m'. split_and!; [done..|by destruct Ha'|done].
Qed.

(** C40. The compressed form can name a branch twice, and the bit of a branch
    stays set when a later chunk takes the hash away.  From any map with an
    empty branch at the root a root can be made that is accepted under the
    hash of the map (unless the cache has the root) and has a branch there with
    hash zero: the tree is not a part of the map, and no node of the map has
    the hash the branch waits for.  An empty inner node has it: the one byte of
    its compressed form is accepted there, when nothing with hash zero is in the
    caches, and the map goes on with a node the wanted one has not. *)
Theorem phantom_branch `{Digest} ty (ch : list (option (SHAMapTreeNode Blob))) E j h : proper ty 0 0 (InnerNode ch) -> node_hash (InnerNode ch) <> 0 ->
  getChild ch j = None -> (j < 16)%nat -> (getBranchCount ch <= 14)%nat -> h <> 0 -> is_uint256 h ->
  generation E <> 0 -> backed_ E = false \/ cacheLookup E (node_hash (InnerNode ch)) = None ->
  let '(m, r) := addRootNode E (node_hash (InnerNode ch)) (phantom_wire (option_map node_hash <$> ch) j h) wanted in
  r = Ok Useful /\ yhash (root_ m) = node_hash (InnerNode ch) /\ branch (root_ m) j = Some (0, None) /\ ~ part (root_ m) (InnerNode ch) /\
  (forall p c, tnode_at (InnerNode ch) p = Some c -> node_hash c <> 0) /\
  forall touched nid, touched 0 = false -> fetchNodeNT E 0 = None -> names nid [j] ->
    exists m', addKnownNode E touched nid [3%Z] m = (m', Ok Useful) /\ branch (root_ m') j = Some (0, Some empty_root) /\ ~ part (root_ m') (InnerNode ch).
Proof.
  intros HT Hnz Hj Hlt Hc Hh Hu Hgen Hcache. pose proof HT as (Hwf & Huf & _). destruct (proper_depth _ _ _ _ HT) as [_ Hl]. set (bs := option_map node_hash <$> ch).
  assert (bs !! j = Some None) as Hbj.
  { unfold bs. rewrite list_lookup_fmap. unfold getChild in Hj. destruct (ch !! j) as [o|] eqn:Eo; [cbn in Hj; by rewrite Hj|]. apply lookup_ge_None in Eo. unfold kBranchFactor in Hl. lia. }
  assert (storedBranchCount bs = getBranchCount ch) as Ec by apply stored_count.
  assert (Forall branch_ok bs) as Hok by (by eapply (stored_branches_ok ty (InnerNode ch))).
  assert (makeFromWire (phantom_wire bs j h) = Ok (Some (SInner (<[j := Some 0]> bs)))) as Ew by (apply phantom_parsed; [unfold bs; by rewrite length_fmap|done..|lia]).
  set (x := fresh (SInner (<[j := Some 0]> bs))).
  assert (yhash x = node_hash (InnerNode ch)) as Eh.
  { unfold yhash, x. rewrite stored_fresh, phantom_hash; [by apply (stored_hash_of (InnerNode ch))|done|]. rewrite Ec. intros Ez. rewrite node_hash_inner, Ez in Hnz. done. }
  assert (canonicalize E (node_hash (InnerNode ch)) x = x) as Ecan.
  { unfold canonicalize. destruct Hcache as [-> | ->]; [done|]. by destruct (backed_ E). }
  unfold addRootNode. cbn [root_ wanted]. rewrite empty_hash, Ew. fold x. unfold yhash, x in Eh. rewrite stored_fresh in Eh. rewrite Eh, (N.eqb_refl (node_hash (InnerNode ch))), Ecan. cbn [N.eqb negb].
  set (m := gotNode E (yhash x) x _). assert (root_ m = x /\ state_ m = Synching) as [Er Es] by (unfold m, gotNode; by destruct (syncFilter E)).
  assert (forall r, branch r j <> None -> ~ part r (InnerNode ch)) as Hnp.
  { intros r Hr Hp. by apply (part_branch_none _ _ j) in Hp. }
  assert ((option_map (fun h => (h, @None YNode)) <$> <[j := Some 0]> bs) !! j = Some (Some (0, None))) as Hx.
  { rewrite list_lookup_fmap, list_lookup_insert_eq; [done|]. unfold bs. rewrite length_fmap. unfold kBranchFactor in Hl. lia. }
  assert (branch x j = Some (0, None)) as Hb by (unfold x; cbn [fresh branch]; by rewrite Hx).
  rewrite Er. split_and!; [done|unfold yhash, x; by rewrite stored_fresh|done|apply Hnp; by rewrite Hb|by eapply place_nonzero|].
  intros touched nid Hto Hf Hn. destruct (phantom_child E touched m _ 0 j nid Es Er Hx ltac:(done) Hlt Hto Hf Hn) as (m' & E' & Hb' & _).
  exists m'. split_and!; [done|done|]. apply Hnp. by rewrite Hb'.
Qed.

(** ** Witnesses *)

Definition one_env : Env := mkEnv false 1 (fun _ => None) (fun _ => None) (Some (fun _ => None)) (fun k => k) (fun _ => false) (fun _ l => l) (fun _ l => l).
Lemma one_env_ok : @env_ok one_digest one_env.
Proof. split; try done. intros get h b [= <-]. done. Qed.
Lemma one_tree_proper : @proper one_digest TnAccountState 0 0 one_tree.
Proof. split_and!; [apply one_tree_wf|apply one_tree_unforgeable|done]. Qed.
Lemma one_tree_nonzero : @node_hash one_digest one_tree <> 0.
Proof. by vm_compute. Qed.
Definition one_leaf : SHAMapTreeNode Blob := LeafNode TnAccountState one_item.
Lemma bytes_regular (raw : Blob) (x : StoredNode) : forallb (fun b => (0 <=? b)%Z && (b <? 256)%Z) raw = true -> @makeFromWire one_digest raw = Ok (Some x) -> regular x ->
  @regular_wire one_digest raw.
Proof.
  intros Hb Hx Hr. split; [|intros y Hy; rewrite Hx in Hy; by injection Hy as <-]. apply Forall_forall. intros b Hin. rewrite forallb_forall in Hb.
  apply list_elem_of_In, Hb, andb_true_iff in Hin as [H1%Z.leb_le H2%Z.ltb_lt]. by split.
Qed.

Definition one_start : SyncMap := (@addRootNode one_digest one_env (@node_hash one_digest one_tree) (@serializeRoot one_digest one_tree) wanted).1.
Lemma one_cache_right root : @cache_right one_digest one_tree one_env ∅ root.
Proof. intros p c _ Hin. by apply not_elem_of_empty in Hin. Qed.
Lemma one_start_ok : @acquiring one_digest one_tree one_env ∅ (root_ one_start).
Proof.
  destruct (@root_taken one_digest TnAccountState one_tree one_tree_proper one_tree_nonzero one_env ∅ (@serializeRoot one_digest one_tree) one_env_ok
    (@place_wire one_digest TnAccountState one_tree one_tree_proper [] one_tree (@one_tree_storable one_digest) eq_refl) (one_cache_right _)) as (m & Em & Ha & _).
  unfold one_start. by rewrite Em.
Qed.
Definition missing_hashes (r : result (list (SHAMapNodeID * N) * gset N * SyncMap)) : option (list N) := match r with Ok (l, _, _) => Some l.*2 | Throw _ => None end.

Lemma missing_nodes_found_witness : exists missing C' m', @getMissingNodes one_digest one_env 60 5 ∅ one_start = Ok (missing, C', m') /\
  Forall (@reported one_digest one_env one_tree (root_ m')) missing /\ missing.*2 = [2].
Proof.
  destruct (@missing_nodes_found one_digest TnAccountState one_tree one_env ∅ one_start 60 5 one_tree_proper one_tree_nonzero one_env_ok one_start_ok ltac:(lia) ltac:(vm_compute; lia))
    as (missing & C' & m' & E1 & _ & _ & Hr & _). exists missing, C', m'. split_and!; [done|done|].
  assert (missing_hashes (@getMissingNodes one_digest one_env 60 5 ∅ one_start) = Some [2]) as E2 by (vm_compute; reflexivity). rewrite E1 in E2. by injection E2.
Defined.

Lemma sync_completes_witness : exists C' m', @acquire one_digest 2 one_env 60 5 (@peer_answer one_digest one_tree false 1) ∅ one_start = Ok (C', m') /\ state_ m' = Modifying /\
  @part one_digest (root_ m') one_tree.
Proof.
  destruct (@sync_completes one_digest TnAccountState one_tree one_env ∅ false 1 60 5 one_tree_proper one_tree_nonzero (@one_tree_storable one_digest) one_env_ok (one_cache_right _)
    ltac:(lia) ltac:(vm_compute; lia)) as (m & C' & m' & Em & E1 & Hst & Hp & _). exists C', m'. split_and!; [|done|done]. unfold one_start. by rewrite Em.
Defined.

Definition one_place : SHAMapNodeID := createID 1 5.
Definition one_known : SyncMap := (@addKnownNode one_digest one_env (fun _ => false) one_place (@wire_of one_digest one_leaf) one_start).1.
Definition one_end : SyncMap := match @getMissingNodes one_digest one_env 60 5 ∅ one_known with Ok (_, _, m) => m | Throw _ => one_known end.

Lemma one_step_root : @sync_step one_digest 60 (@node_hash one_digest one_tree) (mkSession one_env wanted ∅) (mkSession one_env one_start ∅).
Proof.
  destruct (@addRootNode one_digest one_env (@node_hash one_digest one_tree) (@serializeRoot one_digest one_tree) wanted) as [m r] eqn:Em.
  assert (one_start = m) as -> by (unfold one_start; by rewrite Em). refine (@step_root one_digest 60 _ one_env wanted ∅ _ m r _ Em).
  apply (bytes_regular _ (@stored_of one_digest one_tree)); [vm_compute; reflexivity..|]. by apply (@stored_regular one_digest TnAccountState one_tree one_tree_proper [] one_tree).
Qed.
Lemma one_step_known : @sync_step one_digest 60 (@node_hash one_digest one_tree) (mkSession one_env one_start ∅) (mkSession one_env one_known ∅).
Proof.
  destruct (@addKnownNode one_digest one_env (fun _ => false) one_place (@wire_of one_digest one_leaf) one_start) as [m r] eqn:Em.
  assert (one_known = m) as -> by (unfold one_known; by rewrite Em).
  refine (@step_known one_digest 60 _ one_env one_start ∅ (fun _ => false) one_place _ m r _ ltac:(done) Em).
  apply (bytes_regular _ (@stored_of one_digest one_leaf)); [vm_compute; reflexivity..|done].
Qed.
Lemma one_step_missing : @sync_step one_digest 60 (@node_hash one_digest one_tree) (mkSession one_env one_known ∅) (mkSession one_env one_end ∅).
Proof.
  assert (@yhash one_digest (root_ one_known) <> 0) as Hnz by (by vm_compute).
  assert (@getMissingNodes one_digest one_env 60 5 ∅ one_known = Ok ([], ∅, one_end)) as E1 by (vm_compute; reflexivity).
  exact (@step_missing one_digest 60 _ one_env one_known ∅ 5 [] ∅ one_end ltac:(lia) Hnz E1).
Qed.
Definition one_session : Session := mkSession one_env one_end ∅.
Lemma one_steps : rtc (@sync_step one_digest 60 (@node_hash one_digest one_tree)) (mkSession one_env wanted ∅) one_session.
Proof. eapply rtc_l; [apply one_step_root|]. eapply rtc_l; [apply one_step_known|]. apply rtc_once, one_step_missing. Qed.

Lemma sync_invariant_witness : state_ (s_map one_session) = Modifying /\
  (forall p c, tnode_at one_tree p = Some c -> is_Some (node_at (root_ (s_map one_session)) p) \/ @resident one_digest (s_env one_session) (@node_hash one_digest c)).
Proof.
  assert (state_ (s_map one_session) = Modifying) as Hm by (vm_compute; reflexivity). split; [exact Hm|].
  destruct (@sync_invariant one_digest TnAccountState one_tree one_env ∅ one_session 60 one_tree_proper one_tree_nonzero one_env_ok ltac:(vm_compute; lia)
    (one_cache_right _) one_steps) as (_ & _ & _ & Hc). exact (Hc Hm).
Defined.

(** The phantom root of the map with one item; the leaf and the byte of the empty
    node come; nothing is missing then. *)
Definition phantom_root : SyncMap :=
  (@addRootNode one_digest one_env (@node_hash one_digest one_tree) (phantom_wire (option_map (@node_hash one_digest) <$> (Some one_leaf :: replicate 15 None)) 1 7) wanted).1.
Definition phantom_filled : SyncMap :=
  (@addKnownNode one_digest one_env (fun _ => false) (mkNodeID 1 (2 ^ 252)) [3%Z]
    (@addKnownNode one_digest one_env (fun _ => false) one_place (@wire_of one_digest one_leaf) phantom_root).1).1.

Lemma phantom_branch_witness :
  branch (root_ phantom_root) 1 = Some (0, None) /\ ~ @part one_digest (root_ phantom_root) one_tree /\
  (exists m', @addKnownNode one_digest one_env (fun _ => false) (mkNodeID 1 (2 ^ 252)) [3%Z] phantom_root = (m', Ok Useful) /\ ~ @part one_digest (root_ m') one_tree) /\
  missing_hashes (@getMissingNodes one_digest one_env 60 5 ∅ phantom_root) = Some [2; 0] /\
  missing_hashes (@getMissingNodes one_digest one_env 60 5 ∅ phantom_filled) = Some [].
Proof.
  pose proof (@phantom_branch one_digest TnAccountState (Some one_leaf :: replicate 15 None) one_env 1 7 one_tree_proper one_tree_nonzero eq_refl
    ltac:(lia) ltac:(vm_compute; lia) ltac:(done) ltac:(by vm_compute) ltac:(done) (or_introl eq_refl)) as Hp.
  assert (missing_hashes (@getMissingNodes one_digest one_env 60 5 ∅ phantom_root) = Some [2; 0]) as E1 by (vm_compute; reflexivity).
  assert (missing_hashes (@getMissingNodes one_digest one_env 60 5 ∅ phantom_filled) = Some []) as E2 by (vm_compute; reflexivity).
  unfold phantom_root in *. destruct (@addRootNode one_digest one_env _ _ wanted) as [m r]. cbn [fst] in *. destruct Hp as (_ & _ & Hb & Hnp & _ & Hk). split_and!; [done|done| |done|done].
  destruct (Hk (fun _ => false) (mkNodeID 1 (2 ^ 252)) eq_refl eq_refl ltac:(vm_compute; reflexivity)) as (m' & E & _ & Hnp'). exists m'. split; [exact E|exact Hnp'].
Defined.

(** * Properties of visiting and serving the nodes of a map *)

(** ** Properties *)

(** C22. Every node of a map is visited once, in pre-order, until the callback
    says to stop (what it says about the root is not looked at), and every item
    is, in the order of the keys.  The nodes a map has and another one has not
    are visited by [visitDifferences], each of them and no other, without going
    into what both have: an inner node counts when the other map has not the
    same node at its place, a leaf when the other has not its item anywhere.
    [deepCompare] tells whether two maps are the same.  All of them return,
    whatever the callback does. *)
Theorem visited_nodes `{Digest} ty (T : SHAMapTreeNode Blob) (have : option (SHAMapTreeNode Blob)) :
  proper ty 0 0 T -> node_hash T <> 0 -> (forall hv, have = Some hv -> proper ty 0 0 hv) ->
  (forall x, x ∈ nodes_of T <-> exists p, tnode_at T p = Some x) /\
  (forall St (f : St -> SHAMapTreeNode Blob -> St * bool) s, visitNodes f T s = Ok (run f (f s T).1 (tail (nodes_of T))).1) /\
  (forall St (g : St -> SHAMapItem Blob -> St) s, visitLeaves g T s = Ok (foldl g s (items T))) /\
  (exists l, (forall x, x ∈ l <-> exists p, tnode_at T p = Some x /\ lacks have p x) /\ l ⊆+ nodes_of T /\
     forall St (f : St -> SHAMapTreeNode Blob -> St * bool) s, visitDifferences have f T s = Ok (run f s l).1) /\
  (forall hv, have = Some hv -> exists r, deepCompare T hv = Ok r /\ (r = true <-> T = hv)).
Proof.
  intros HT Hnz Hhave. pose proof HT as (Hwf & _). split_and!.
  - apply nodes_place.
  - intros St f s. by eapply visitNodes_run.
  - intros St g s. by eapply visitLeaves_items.
  - by eapply visitDifferences_run.
  - intros hv Ehv. by eapply deepCompare_same; [|apply Hhave|].
Qed.

(** C21. [getNodeFat] serves the node asked for.  When the identifier names a
    place of the map, the reply starts with the node there and has only nodes
    at or below that place under their own identifiers, in a form that is
    parsed back to them.  If the node is an inner one and the depth is not
    zero, or it has a single branch, the reply has its inner children too, and
    its leaves when these are wanted; otherwise it has nothing but the node.
    When the identifier does not name a place, the reply is [false] and empty,
    be the place below a leaf, behind an empty branch or elsewhere. *)
Theorem served_nodes `{Digest} ty (T : SHAMapTreeNode Blob) nid fatLeaves depth : proper ty 0 0 T -> node_hash T <> 0 -> storable ty T -> masked nid ->
  (forall p c, names nid p -> tnode_at T p = Some c -> exists more, getNodeFat T nid fatLeaves depth = Ok (true, (nid, wire_of c) :: more) /\
     (forall x, x ∈ (nid, wire_of c) :: more -> exists r d, tnode_at T (p ++ r) = Some d /\ names x.1 (p ++ r) /\ makeFromWire x.2 = Ok (Some (stored_of d))) /\
     (forall ch i d, c = InnerNode ch -> 0 < depth \/ getBranchCount ch = 1%nat -> getChild ch i = Some d -> fatLeaves = true \/ (exists ch', d = InnerNode ch') ->
        exists cid, names cid (p ++ [i]) /\ (cid, wire_of d) ∈ more) /\
     ((forall ch, c = InnerNode ch -> depth = 0 /\ getBranchCount ch <> 1%nat) -> more = [])) /\
  ((forall p c, names nid p -> tnode_at T p <> Some c) -> getNodeFat T nid fatLeaves depth = Ok (false, [])).
Proof.
  intros HT Hnz Hs Hm. split; [|by apply getNodeFat_absent]. intros p c Hid Hp.
  destruct (getNodeFat_place ty T HT Hnz p c nid fatLeaves depth Hp Hid) as (more & E & Hse & Hone & Hch). exists more. split_and!; [done| | |done].
  - intros x Hx. rewrite Forall_forall in Hse. destruct (Hse x Hx) as (r & d & Hd & Hn & ->). exists r, d. split_and!; [done..|]. by eapply place_wire.
  - intros ch i d -> Hdep Hd Hfl. by eapply Hch.
Qed.

(** ** Witnesses *)

Definition count_nodes (s : nat) (_ : SHAMapTreeNode Blob) : nat * bool := (S s, true).

Lemma visited_nodes_witness : visitNodes count_nodes one_tree 0%nat = Ok 2%nat /\ @visitDifferences one_digest nat (Some one_tree) count_nodes one_tree 0%nat = Ok 0%nat /\
  @deepCompare one_digest one_tree one_tree = Ok true.
Proof.
  destruct (@visited_nodes one_digest TnAccountState one_tree (Some one_tree) one_tree_proper one_tree_nonzero) as (_ & Hv & _ & _ & Hd).
  { intros hv [= <-]. apply one_tree_proper. }
  split_and!; [rewrite Hv; vm_compute; reflexivity|vm_compute; reflexivity|].
  destruct (Hd one_tree eq_refl) as (r & -> & Hr). f_equal. by apply Hr.
Defined.

Lemma served_nodes_witness : exists more, @getNodeFat one_digest one_tree rootID true 1 = Ok (true, (rootID, @wire_of one_digest one_tree) :: more) /\
  exists cid, names cid [0%nat] /\ (cid, @wire_of one_digest one_leaf) ∈ more.
Proof.
  destruct (@served_nodes one_digest TnAccountState one_tree rootID true 1 one_tree_proper one_tree_nonzero (@one_tree_storable one_digest) masked_root) as [Hp _].
  destruct (Hp [] one_tree eq_refl eq_refl) as (more & E & _ & Hc & _). exists more. split; [done|].
  apply (Hc (Some one_leaf :: replicate 15 None) 0%nat one_leaf); [done|left; lia|done|by left].
Defined.
