(* ===== verification/ApplyView.v ===== *)
(** * The interface of editable views

    [ApplyView] (ApplyView.h) is the interface transactors work against:
    [peek] checks an entry out for editing, the entry is changed through the
    shared pointer, and [update], [insert] and [erase] record the change.  A
    computation over such a view threads the store of entries and the view
    and may throw; [Tx] is its monad.  [ApplyViewLaws] states what a view
    promises, in terms of the map of entries it shows, and the rules
    [wp_peek] ... [wp_erase] derived from it run a computation symbolically
    on that map.  [ApplyViewBase] implements the interface. *)

From S2P Require Import ApplyStateTable.
From S2P Require Import Prelude LedgerEntry Views Ledger StackedViews.

Class ApplyView (W : Type) : Type := {
  view_peek : Heap -> W -> Keylet -> Heap * W * option N;
  view_erase : Heap -> W -> N -> result W;
  view_insert : Heap -> W -> N -> result W;
  view_update : Heap -> W -> N -> result W;
  view_rules : W -> Rules
}.

#[export] Instance ApplyViewBase_ApplyView {V} `{ReadView V, HeaderView V} :
  ApplyView (ApplyViewBase V) := {
  view_peek := av_peek;
  view_erase := av_erase;
  view_insert := av_insert;
  view_update := av_update;
  view_rules v := rv_rules v
}.

(** ** Computations over a view *)

Definition Tx (W A : Type) : Type := Heap * W -> result (A * (Heap * W)).

#[export] Instance Tx_ret W : MRet (Tx W) := fun A a st => Ok (a, st).
#[export] Instance Tx_bind W : MBind (Tx W) := fun A B f m st =>
  match m st with Ok (a, st) => f a st | Throw e => Throw e end.

Definition throw {W A} (msg : string) : Tx W A := fun _ => Throw msg.

Section operations.
Context {W : Type} `{ApplyView W}.

Definition peek (k : Keylet) : Tx W (option N) := fun st =>
  let '(h, w, r) := view_peek st.1 st.2 k in Ok (r, (h, w)).

(** Reading and writing the entry a pointer designates. *)
Definition load (p : N) : Tx W SLE := fun st =>
  match st.1 !! p with Some s => Ok (s, st) | None => Throw "null SLE" end.
Definition modify (p : N) (f : SLE -> SLE) : Tx W () := fun st =>
  match st.1 !! p with
  | Some s => Ok ((), (<[p := f s]> st.1, st.2))
  | None => Throw "null SLE"
  end.

Definition make_shared (s : SLE) : Tx W N := fun st =>
  Ok ((alloc st.1 s).1, ((alloc st.1 s).2, st.2)).

Definition insert (p : N) : Tx W () := fun st =>
  w ← view_insert st.1 st.2 p; Ok ((), (st.1, w)).
Definition update (p : N) : Tx W () := fun st =>
  w ← view_update st.1 st.2 p; Ok ((), (st.1, w)).
Definition erase (p : N) : Tx W () := fun st =>
  w ← view_erase st.1 st.2 p; Ok ((), (st.1, w)).
Definition rules : Tx W Rules := fun st => Ok (view_rules st.2, st).
End operations.

(** ** What an editable view promises

    [av_held h w p k]: the pointer [p] is the view's copy of the entry under
    [k], so writing through [p] changes what the view shows under [k].  A
    pointer stays held until the entry is erased. *)
Class ApplyViewLaws (W : Type) `{ApplyView W} : Type := {
  av_ok : Heap -> W -> Prop;
  av_map : Heap -> W -> gmap N SLE;
  av_held : Heap -> W -> N -> N -> Prop;
  av_map_key h w k s : av_ok h w -> av_map h w !! k = Some s -> sle_key s = k /\ key_ok k;
  av_held_lookup h w p k : av_ok h w -> av_held h w p k ->
    exists s, h !! p = Some s /\ av_map h w !! k = Some s;
  av_peek_law h w k h' w' r : av_ok h w -> key_ok (kl_key k) -> view_peek h w k = (h', w', r) ->
    av_ok h' w' /\ av_map h' w' = av_map h w /\ view_rules w' = view_rules w /\
    (forall p j, av_held h w p j -> av_held h' w' p j) /\
    match r with
    | Some p => is_Some (map_read (av_map h w) k) /\ av_held h' w' p (kl_key k)
    | None => map_read (av_map h w) k = None
    end;
  av_write_law h w p k s s' : av_ok h w -> av_held h w p k -> av_map h w !! k = Some s ->
    sle_key s' = sle_key s -> sle_type s' = sle_type s ->
    av_ok (<[p := s']> h) w /\ av_map (<[p := s']> h) w = <[k := s']> (av_map h w) /\
    (forall q j, av_held h w q j -> av_held (<[p := s']> h) w q j);
  av_update_law h w p k : av_ok h w -> av_held h w p k ->
    exists w', view_update h w p = Ok w' /\ av_ok h w' /\ av_map h w' = av_map h w /\
      view_rules w' = view_rules w /\ (forall q j, av_held h w q j -> av_held h w' q j);
  av_insert_law h w s : av_ok h w -> key_ok (sle_key s) -> av_map h w !! sle_key s = None ->
    let h' := (alloc h s).2 in
    exists w', view_insert h' w (alloc h s).1 = Ok w' /\ av_ok h' w' /\
      av_map h' w' = <[sle_key s := s]> (av_map h w) /\ view_rules w' = view_rules w /\
      av_held h' w' (alloc h s).1 (sle_key s) /\
      (forall q j, av_held h w q j -> av_held h' w' q j);
  av_erase_law h w p k : av_ok h w -> av_held h w p k ->
    exists w', view_erase h w p = Ok w' /\ av_ok h w' /\
      av_map h w' = delete k (av_map h w) /\ view_rules w' = view_rules w /\
      (forall q j, j <> k -> av_held h w q j -> av_held h w' q j)
}.

(** ** [ApplyViewBase] keeps the promises *)
Section implementation.
Context {V : Type} `{ReadViewLaws V} `{HeaderView V}.
Implicit Types (h : Heap) (v : ApplyViewBase V) (k : Keylet).

Definition base_ok h v : Prop :=
  ApplyStateTable.session_inv (av_base v) (rv_map h (av_base v)) (h, av_items v).

Definition base_held h v (p j : N) : Prop :=
  exists a, ApplyStateTable.items_ (av_items v) !! j = Some (a, p) /\ a <> ApplyStateTable.Erase.

Lemma base_held_holds h v p j :
  base_ok h v -> base_held h v p j ->
  exists s, ApplyStateTable.holds h (av_items v) p s /\ sle_key s = j /\
    rv_map h v !! j = Some s.
Proof.
  intros [Hwf _] (a & Hi & Ha). cbn [fst snd] in Hwf.
  destruct (ApplyStateTable.wf_item _ _ _ Hwf _ _ _ Hi) as (s & Hs & Hk & _).
  exists s. split_and!; [split; [done|rewrite Hk; eauto]|done|].
  simpl. rewrite ApplyStateTable.ast_lookup_table_map, Hi. by destruct a.
Qed.

(** Every operation is an edit of a session, so it keeps the invariant. *)
Lemma base_ok_edit h v h' t' :
  base_ok h v -> ApplyStateTable.edit (av_base v) (h, av_items v) (h', t') ->
  base_ok h' (av_set v t').
Proof.
  intros Hok He. pose proof (ApplyStateTable.edit_inv _ _ _ _ He Hok) as Hi.
  unfold base_ok. cbn [av_set av_base av_items]. destruct Hi as (Hwf & Hm & Hd).
  split_and!; done.
Qed.

Lemma base_peek h v k h' v' r :
  base_ok h v -> key_ok (kl_key k) -> av_peek h v k = (h', v', r) ->
  base_ok h' v' /\ rv_map h' v' = rv_map h v /\ rv_rules v' = rv_rules v /\
  (forall p j, base_held h v p j -> base_held h' v' p j) /\
  match r with
  | Some p => is_Some (map_read (rv_map h v) k) /\ base_held h' v' p (kl_key k)
  | None => map_read (rv_map h v) k = None
  end.
Proof.
  intros Hok Hk. unfold av_peek.
  destruct (ApplyStateTable.peek h (av_base v) (av_items v) k) as [[h1 t1] r1] eqn:E.
  intros [= <- <- <-]. pose proof Hok as [Hwf _].
  destruct (ApplyStateTable.peek_map _ _ _ _ _ _ _ Hwf Hk E) as (_ & Hm & _ & Hr).
  split_and!; [eapply base_ok_edit; [done|by econstructor]|done|done|..].
  - intros p j (a & Hi & Ha). exists a. split; [|done]. cbn [av_set av_items].
    unfold ApplyStateTable.peek in E. cases_all; simplify_eq; try done.
    cbn. rewrite lookup_insert_ne; [done|]. congruence.
  - destruct r1 as [p|]; [|done]. destruct Hr as (s & Hs & [_ (a & Hi & Ha)]).
    split; [by exists s|]. exists a. split; [|done]. cbn [av_set av_items].
    unfold map_read in Hs.
    destruct (ApplyStateTable.table_map _ _ _ !! kl_key k) as [s1|] eqn:Hl; [|done].
    destruct (check k s1); [|done]. injection Hs as ->.
    by rewrite <-(ApplyStateTable.ast_table_map_key _ _ _ _ _ Hwf Hl).
Qed.

Lemma base_write h v p j s s' :
  base_ok h v -> base_held h v p j -> rv_map h v !! j = Some s ->
  sle_key s' = sle_key s -> sle_type s' = sle_type s ->
  base_ok (<[p := s']> h) v /\ rv_map (<[p := s']> h) v = <[j := s']> (rv_map h v).
Proof.
  intros Hok Hh Hs Hk Ht. destruct (base_held_holds _ _ _ _ Hok Hh) as (s1 & Hh1 & <- & Hs1).
  rewrite Hs in Hs1. injection Hs1 as <-. split.
  - replace v with (av_set v (av_items v)) by (by destruct v).
    eapply base_ok_edit; [done|by econstructor].
  - destruct Hok as (Hwf & _ & Hd). by apply ApplyStateTable.write_map.
Qed.

Lemma base_update h v p j :
  base_ok h v -> base_held h v p j ->
  exists v', av_update h v p = Ok v' /\ base_ok h v' /\ rv_map h v' = rv_map h v /\
    rv_rules v' = rv_rules v /\ (forall q i, base_held h v q i -> base_held h v' q i).
Proof.
  intros Hok Hh. destruct (base_held_holds _ _ _ _ Hok Hh) as (s & Hs & <- & _).
  destruct (ApplyStateTable.update_map h (av_base v) (av_items v) p s) as
    (t & a & E & _ & Hm & Hi & Ha); [apply Hok|done|].
  exists (av_set v t). unfold av_update. rewrite E. split_and!; [done|..|done|].
  - eapply base_ok_edit; [done|by econstructor].
  - done.
  - intros q i (b & Hq & Hb). unfold base_held. cbn [av_set av_items]. rewrite Hi.
    destruct Hh as (a' & Hp & _).
    destruct (decide (sle_key s = i)) as [<-|Hne].
    + rewrite lookup_insert_eq. exists a. split; [congruence|naive_solver].
    + rewrite lookup_insert_ne by done. eauto.
Qed.

Lemma base_insert h v s :
  base_ok h v -> key_ok (sle_key s) -> rv_map h v !! sle_key s = None ->
  let h' := (alloc h s).2 in
  exists v', av_insert h' v (alloc h s).1 = Ok v' /\ base_ok h' v' /\
    rv_map h' v' = <[sle_key s := s]> (rv_map h v) /\ rv_rules v' = rv_rules v /\
    base_held h' v' (alloc h s).1 (sle_key s) /\
    (forall q i, base_held h v q i -> base_held h' v' q i).
Proof.
  intros Hok Hk Hn; cbv zeta. pose proof Hok as (Hwf & _ & _). cbn [fst snd] in Hwf.
  destruct (ApplyStateTable.alloc_frame h (av_base v) (av_items v) s Hwf) as (Hwf' & _ & Hm & _).
  destruct (ApplyStateTable.ast_insert_map (alloc h s).2 (av_base v) (av_items v) (alloc h s).1 s) as
    (t & E & _ & Hm' & _); [done|apply alloc_lookup|done|by rewrite Hm|].
  exists (av_set v t). unfold av_insert. rewrite E. split_and!; [done|..|done| |].
  - eapply base_ok_edit; [done|by econstructor].
  - etrans; [exact Hm'|]. by rewrite Hm.
  - unfold base_held. cbn [av_set av_items]. unfold ApplyStateTable.insert in E.
    rewrite (key_of_Ok _ _ _ (alloc_lookup h s)) in E. cbn [mbind result_bind] in E.
    cases_all; simplify_eq; cbn; rewrite lookup_insert_eq; eauto.
  - intros q i (b & Hq & Hb). exists b. split; [|done]. cbn [av_set av_items].
    unfold ApplyStateTable.insert in E.
    rewrite (key_of_Ok _ _ _ (alloc_lookup h s)) in E. cbn [mbind result_bind] in E.
    cases_all; simplify_eq; cbn; rewrite lookup_insert_ne by congruence; done.
Qed.

Lemma base_erase h v p j :
  base_ok h v -> base_held h v p j ->
  exists v', av_erase h v p = Ok v' /\ base_ok h v' /\
    rv_map h v' = delete j (rv_map h v) /\ rv_rules v' = rv_rules v /\
    (forall q i, i <> j -> base_held h v q i -> base_held h v' q i).
Proof.
  intros Hok Hh. destruct (base_held_holds _ _ _ _ Hok Hh) as (s & Hs & <- & _).
  destruct (ApplyStateTable.ast_erase_map h (av_base v) (av_items v) p s) as (t & E & _ & Hm);
    [apply Hok|done|].
  exists (av_set v t). unfold av_erase. rewrite E. split_and!; [done|..|done|].
  - eapply base_ok_edit; [done|by econstructor].
  - done.
  - intros q i Hne (b & Hq & Hb). exists b. split; [|done]. cbn [av_set av_items].
    unfold ApplyStateTable.erase in E. rewrite (key_of_Ok _ _ _ (proj1 Hs)) in E.
    cbn [mbind result_bind] in E. cases_all; simplify_eq; cbn;
      first [rewrite lookup_insert_ne by congruence|rewrite lookup_delete_ne by congruence]; done.
Qed.

#[export] Instance ApplyViewBase_ApplyViewLaws : ApplyViewLaws (ApplyViewBase V).
Proof.
  refine {| av_ok := base_ok; av_map := rv_map; av_held := base_held |}.
  - intros h v k s [Hwf _] Hs.
    split; [by eapply (rv_map_key h v)|by eapply (rv_map_ok h v)].
  - intros h v p k Hok Hh. destruct (base_held_holds _ _ _ _ Hok Hh) as (s & [Hp _] & _ & Hs).
    eauto.
  - intros h v k h' v' r. apply base_peek.
  - intros h v p k s s' Hok Hh Hs Hk Ht. destruct (base_write h v p k s s') as [? ?]; done.
  - intros h v p k. apply base_update.
  - intros h v s. apply base_insert.
  - intros h v p k. apply base_erase.
Defined.
End implementation.

(** ** Running a computation on the map a view shows *)
Section wp.
Context {W : Type} `{ApplyViewLaws W}.
Implicit Types (st : Heap * W) (m : gmap N SLE) (held : list (N * N)).

(** What holds of the outcome of a computation: [Q] of the value and the
    final state, or [E] of the exception. *)
Definition wp {A} (c : Tx W A) st (Q : A -> Heap * W -> Prop) (E : string -> Prop) : Prop :=
  match c st with Ok (a, st') => Q a st' | Throw e => E e end.

(** The view shows the map [m], and the pointers of [held] are its copies of
    the entries under the keys they come with. *)
Record shows st m (r : Rules) held : Prop := {
  shows_ok : av_ok st.1 st.2;
  shows_map : av_map st.1 st.2 = m;
  shows_rules : view_rules st.2 = r;
  shows_held p k : (p, k) ∈ held -> av_held st.1 st.2 p k
}.

Lemma wp_ret {A} (a : A) st (Q : A -> Heap * W -> Prop) E : Q a st -> wp (mret a) st Q E.
Proof. done. Qed.

Lemma wp_bind {A B} (c : Tx W A) (f : A -> Tx W B) st Q E :
  wp c st (fun a st' => wp (f a) st' Q E) E -> wp (c ≫= f) st Q E.
Proof. unfold wp, mbind, Tx_bind. by destruct (c st) as [[a st']|e]. Qed.

Lemma wp_throw {A} e st (Q : A -> Heap * W -> Prop) (E : string -> Prop) :
  E e -> wp (throw e) st Q E.
Proof. done. Qed.

Lemma wp_rules st m r held Q E : shows st m r held -> Q r st -> wp rules st Q E.
Proof. intros [] HQ. unfold wp, rules. congruence. Qed.

Lemma wp_peek k st m r held Q E :
  shows st m r held -> key_ok (kl_key k) ->
  (forall s p st', map_read m k = Some s -> m !! kl_key k = Some s ->
     shows st' m r ((p, kl_key k) :: held) -> Q (Some p) st') ->
  (forall st', map_read m k = None -> shows st' m r held -> Q None st') ->
  wp (peek k) st Q E.
Proof.
  intros [Hok <- <- Hh] Hk HS HN. unfold wp, peek.
  destruct (view_peek st.1 st.2 k) as [[h' w'] o] eqn:Ep.
  destruct (av_peek_law _ _ _ _ _ _ Hok Hk Ep) as (Hok' & Hm & Hr & Hh' & Ho).
  destruct o as [p|].
  - destruct Ho as [[s Hs] Hp]. apply (HS s); [done| |].
    + unfold map_read in Hs. destruct (_ !! kl_key k) as [s'|]; [|done].
      destruct (check k s'); congruence.
    + split; [done..|]. intros q j [[= -> ->]|?]%elem_of_cons; eauto.
  - apply HN; [done|]. split; eauto.
Qed.

Lemma wp_load p k s st m r held Q E :
  shows st m r held -> (p, k) ∈ held -> m !! k = Some s -> Q s st -> wp (load p) st Q E.
Proof.
  intros [Hok <- <- Hh] Hp Hs HQ. destruct (av_held_lookup _ _ _ _ Hok (Hh _ _ Hp)) as (s' & Hl & Hs').
  unfold wp, load. rewrite Hl. congruence.
Qed.

Lemma wp_modify p k s f st m r held Q E :
  shows st m r held -> (p, k) ∈ held -> m !! k = Some s ->
  sle_key (f s) = sle_key s -> sle_type (f s) = sle_type s ->
  (forall st', shows st' (<[k := f s]> m) r held -> Q () st') -> wp (modify p f) st Q E.
Proof.
  intros [Hok <- <- Hh] Hp Hs Hk Ht HQ.
  destruct (av_held_lookup _ _ _ _ Hok (Hh _ _ Hp)) as (s' & Hl & Hs').
  destruct (av_write_law _ _ _ _ _ (f s) Hok (Hh _ _ Hp) Hs Hk Ht) as (Hok' & Hm & Hh').
  unfold wp, modify. rewrite Hl. replace s' with s by congruence. apply HQ.
  split; [done..|]. eauto.
Qed.

Lemma wp_update p k st m r held Q E :
  shows st m r held -> (p, k) ∈ held ->
  (forall st', shows st' m r held -> Q () st') -> wp (update p) st Q E.
Proof.
  intros [Hok <- <- Hh] Hp HQ.
  destruct (av_update_law _ _ _ _ Hok (Hh _ _ Hp)) as (w' & Eu & Hok' & Hm & Hr & Hh').
  unfold wp, update. rewrite Eu. apply HQ. split; [done..|]. eauto.
Qed.

(** An entry made and inserted: [std::make_shared<SLE>] and [insert]. *)
Lemma wp_insert s st m r held Q E :
  shows st m r held -> key_ok (sle_key s) -> m !! sle_key s = None ->
  (forall st', shows st' (<[sle_key s := s]> m) r held -> Q () st') ->
  wp (p ← make_shared s; insert p) st Q E.
Proof.
  intros [Hok <- <- Hh] Hk Hn HQ.
  destruct (av_insert_law _ _ s Hok Hk Hn) as (w' & Ei & Hok' & Hm & Hr & _ & Hh').
  unfold wp, mbind, Tx_bind, make_shared, insert. cbn [fst snd]. rewrite Ei.
  apply HQ. split; [done..|]. eauto.
Qed.

Lemma wp_erase p k st m r held Q E :
  shows st m r held -> (p, k) ∈ held ->
  (forall st', shows st' (delete k m) r (filter (fun x => x.2 <> k) held) -> Q () st') ->
  wp (erase p) st Q E.
Proof.
  intros [Hok <- <- Hh] Hp HQ.
  destruct (av_erase_law _ _ _ _ Hok (Hh _ _ Hp)) as (w' & Ee & Hok' & Hm & Hr & Hh').
  unfold wp, erase. rewrite Ee. apply HQ. split; [done..|].
  intros q j [Hne Hq]%list_elem_of_filter. eauto.
Qed.
End wp.
