(* ===== verification/Directory.v ===== *)
(** * Directories

    A directory is a doubly linked list of pages, each an entry with at most
    32 keys: the root page holds the anchor links, page [n] is found under
    the hash of the root key and [n].  This file models the operations of
    [ApplyView] on directories (ApplyView.cpp), the [Dir] iterator (Dir.cpp)
    and the traversals of DirectoryHelpers.cpp. *)

From Stdlib Require Ascii String.
From S2P Require Import Prelude LedgerEntry Views Serializer LedgerHeader SHAMapHash Ledger StackedViews ApplyView.
Open Scope N_scope.

Definition kDirNodeMaxEntries : nat := 32.
Definition kDirNodeMaxPages : N := 262144.
Definition ltOFFER : N := 0x6f.

(** [registerFeature]: an amendment is identified by the hash of its name. *)
Definition featureID `{Digest} (name : string) : N :=
  sha512Half (map (fun c => Z.of_nat (Ascii.nat_of_ascii c)) (String.list_ascii_of_string name)).
Definition fixDirectoryLimit `{Digest} : N := featureID "fixDirectoryLimit".

(** [keylet::page] and [keylet::child]. *)
Definition keylet_page `{Digest} (key index : N) : Keylet :=
  if index =? 0 then mkKeylet ltDIR_NODE key
  else mkKeylet ltDIR_NODE
         (indexHash 100 (be_bytes 32 (Z.of_N key) ++ be_bytes 8 (Z.of_N index))).
Definition keylet_child (key : N) : Keylet := mkKeylet ltCHILD key.

Definition getFieldH256 (f : string) (s : SLE) : N :=
  match sle_fields s !! f with Some (VHash n) => n | _ => 0 end.

(** The value of an optional field, as [sle[~sfX]] gives it. *)
Definition optionalU (f : string) (s : SLE) : option N :=
  match sle_fields s !! f with Some (VUInt n) => Some n | _ => None end.

Abbreviation setIndexes l := (setField "Indexes" (VVector256 l)).
Abbreviation setNext n := (setField "IndexNext" (VUInt n)).
Abbreviation setPrevious n := (setField "IndexPrevious" (VUInt n)).

(** The position [std::lower_bound] finds, as a split. *)
Fixpoint lower_bound (key : N) (l : list N) : list N * list N :=
  match l with
  | [] => ([], [])
  | x :: l' => if x <? key then let '(a, b) := lower_bound key l' in (x :: a, b) else ([], l)
  end.

(** [entries.erase(std::find(entries, key))]. *)
Fixpoint erase_first (key : N) (l : list N) : list N :=
  match l with
  | [] => []
  | x :: l => if x =? key then l else x :: erase_first key l
  end.

Section directory.
Context `{Digest} {W : Type} `{ApplyView W}.
Implicit Types (directory : Keylet) (key page : N) (describe : SLE -> SLE).

Definition createRoot directory key describe : Tx W N :=
  let newRoot := setField "RootIndex" (VHash (kl_key directory)) (new_sle directory) in
  let newRoot := describe newRoot in
  _ ← (p ← make_shared (setIndexes [key] newRoot); insert p);
  mret 0.

Definition findPreviousPage directory (start : N) : Tx W (N * N * list N) :=
  s ← load start;
  let page := getFieldU "IndexPrevious" s in
  node ← (if page =? 0 then mret start
          else
            o ← peek (keylet_page (kl_key directory) page);
            match o with
            | Some node => mret node
            | None => throw "Directory chain: root back-pointer broken."
            end);
  s ← load node;
  mret (page, node, getFieldV256 "Indexes" s).

(** The keys of a page after an insertion. *)
Definition insert_index (preserveOrder : bool) (indexes : list N) key : option (list N) :=
  if preserveOrder then
    if bool_decide (key ∈ indexes) then None else Some (indexes ++ [key])
  else
    let '(before, from) := lower_bound key (merge_sort N.le indexes) in
    if bool_decide (head from = Some key) then None else Some (before ++ key :: from).

Definition insertKey (node page : N) (preserveOrder : bool) (indexes : list N) key : Tx W N :=
  match insert_index preserveOrder indexes key with
  | None => throw "dirInsert: double insertion"
  | Some indexes =>
      _ ← modify node (setIndexes indexes);
      _ ← update node;
      mret page
  end.

Definition insertPage page (node next : N) key directory describe : Tx W (option N) :=
  let page := (page + 1) mod 2 ^ 64 in
  if page =? 0 then mret None
  else
    r ← rules;
    if negb (rules_enabled r fixDirectoryLimit) && (kDirNodeMaxPages <=? page) then mret None
    else
      _ ← modify node (setNext page);
      _ ← update node;
      _ ← modify next (setPrevious page);
      _ ← update next;
      let s := new_sle (keylet_page (kl_key directory) page) in
      let s := setIndexes [key] (setField "RootIndex" (VHash (kl_key directory)) s) in
      let s := if page =? 1 then s else setPrevious (page - 1) s in
      _ ← (p ← make_shared (describe s); insert p);
      mret (Some page).

Definition dirAdd (preserveOrder : bool) directory key describe : Tx W (option N) :=
  o ← peek directory;
  match o with
  | None => n ← createRoot directory key describe; mret (Some n)
  | Some root =>
      '(page, node, indexes) ← findPreviousPage directory root;
      if (length indexes <? kDirNodeMaxEntries)%nat
      then n ← insertKey node page preserveOrder indexes key; mret (Some n)
      else insertPage page node root key directory describe
  end.

Definition dirAppend directory (key : Keylet) describe : Tx W (option N) :=
  if negb (kl_type key =? ltOFFER) then mret None
  else dirAdd true directory (kl_key key) describe.
Definition dirInsert directory key describe : Tx W (option N) :=
  dirAdd false directory key describe.

Definition emptyDirDelete directory : Tx W bool :=
  o ← peek directory;
  match o with
  | None => mret false
  | Some node =>
      s ← load node;
      if negb (kl_type directory =? ltDIR_NODE) ||
         negb (getFieldH256 "RootIndex" s =? kl_key directory) then mret false
      else match getFieldV256 "Indexes" s with
      | _ :: _ => mret false
      | [] =>
          let prevPage := getFieldU "IndexPrevious" s in
          let nextPage := getFieldU "IndexNext" s in
          if (nextPage =? 0) && negb (prevPage =? 0) then throw "Directory chain: fwd link broken"
          else if (prevPage =? 0) && negb (nextPage =? 0) then
            throw "Directory chain: rev link broken"
          else if (nextPage =? prevPage) && negb (nextPage =? 0) then
            o ← peek (keylet_page (kl_key directory) nextPage);
            match o with
            | None => throw "Directory chain: fwd link broken."
            | Some last =>
                l ← load last;
                match getFieldV256 "Indexes" l with
                | _ :: _ => mret false
                | [] =>
                    _ ← modify node (setNext 0);
                    _ ← modify node (setPrevious 0);
                    _ ← update node;
                    _ ← erase last;
                    _ ← erase node;
                    mret true
                end
            end
          else if (nextPage =? 0) && (prevPage =? 0) then
            _ ← erase node; mret true
          else mret true
      end
  end.

(** [dirRemove] on the root page that has become empty. *)
Definition removeRoot directory (node : N) (keepRoot : bool) : Tx W bool :=
  s ← load node;
  let prevPage := getFieldU "IndexPrevious" s in
  let nextPage := getFieldU "IndexNext" s in
  if (nextPage =? 0) && negb (prevPage =? 0) then throw "Directory chain: fwd link broken"
  else if (prevPage =? 0) && negb (nextPage =? 0) then throw "Directory chain: rev link broken"
  else
    '(nextPage, prevPage) ←
      (if (nextPage =? prevPage) && negb (nextPage =? 0) then
         o ← peek (keylet_page (kl_key directory) nextPage);
         match o with
         | None => throw "Directory chain: fwd link broken."
         | Some last =>
             l ← load last;
             match getFieldV256 "Indexes" l with
             | _ :: _ => mret (nextPage, prevPage)
             | [] =>
                 _ ← modify node (setNext 0);
                 _ ← modify node (setPrevious 0);
                 _ ← update node;
                 _ ← erase last;
                 mret (0, 0)
             end
         end
       else mret (nextPage, prevPage));
    if keepRoot then mret true
    else if (nextPage =? 0) && (prevPage =? 0) then _ ← erase node; mret true
    else mret true.

(** [dirRemove] on another page that has become empty: unlink it. *)
Definition removePage directory page (node : N) (keepRoot : bool) : Tx W bool :=
  s ← load node;
  let prevPage := getFieldU "IndexPrevious" s in
  let nextPage := getFieldU "IndexNext" s in
  if nextPage =? page then throw "Directory chain: fwd link broken"
  else if prevPage =? page then throw "Directory chain: rev link broken"
  else
    o ← peek (keylet_page (kl_key directory) prevPage);
    match o with
    | None => throw "Directory chain: fwd link broken."
    | Some prev =>
        _ ← modify prev (setNext nextPage);
        _ ← update prev;
        o ← peek (keylet_page (kl_key directory) nextPage);
        match o with
        | None => throw "Directory chain: rev link broken."
        | Some next =>
            _ ← modify next (setPrevious prevPage);
            _ ← update next;
            _ ← erase node;
            n ← load next;
            nextPage ←
              (if negb (nextPage =? 0) && (getFieldU "IndexNext" n =? 0) &&
                  bool_decide (getFieldV256 "Indexes" n = []) then
                 _ ← erase next;
                 _ ← modify prev (setNext 0);
                 _ ← update prev;
                 o ← peek (keylet_page (kl_key directory) 0);
                 match o with
                 | None => throw "Directory chain: root link broken."
                 | Some root =>
                     _ ← modify root (setPrevious prevPage);
                     _ ← update root;
                     mret 0
                 end
               else mret nextPage);
            if negb keepRoot && (nextPage =? 0) && (prevPage =? 0) then
              s ← load prev;
              if bool_decide (getFieldV256 "Indexes" s = []) then _ ← erase prev; mret true
              else mret true
            else mret true
        end
    end.

Definition dirRemove directory page key (keepRoot : bool) : Tx W bool :=
  o ← peek (keylet_page (kl_key directory) page);
  match o with
  | None => mret false
  | Some node =>
      s ← load node;
      let entries := getFieldV256 "Indexes" s in
      if negb (bool_decide (key ∈ entries)) then mret false
      else
        let entries := erase_first key entries in
        _ ← modify node (setIndexes entries);
        _ ← update node;
        match entries with
        | _ :: _ => mret true
        | [] => if page =? 0 then removeRoot directory node keepRoot
                else removePage directory page node keepRoot
        end
  end.

(** [dirDelete], with the sequence of callback invocations as its second
    result.  The loop erases the page it visits, so it cannot visit more
    pages than there are entries. *)
Fixpoint delete_loop (fuel : nat) directory (pi : option N) (called : list N)
    : Tx W (bool * list N) :=
  match fuel with
  | O => throw "out of fuel"
  | S fuel =>
      o ← peek (keylet_page (kl_key directory) (default 0 pi));
      match o with
      | None => mret (false, called)
      | Some page =>
          s ← load page;
          let called := called ++ getFieldV256 "Indexes" s in
          let pi := optionalU "IndexNext" s in
          _ ← erase page;
          match pi with
          | Some _ => delete_loop fuel directory pi called
          | None => mret (true, called)
          end
      end
  end.
Definition dirDelete (fuel : nat) directory : Tx W (bool * list N) :=
  delete_loop fuel directory None [].
End directory.

(** ** Reading directories *)
Section traversals.
Context `{Digest} {V : Type} `{ReadView V}.
Implicit Types (h : Heap) (v : V) (root : Keylet).

(** *** The [Dir] iterator

    [it_] is the position in [indexes_]; [indexes_] is null until a page with
    entries has been seen. *)
Record DirIterator : Type := mkDirIterator {
  it_page : Keylet;
  it_index : N;
  it_sle : option SLE;
  it_indexes : option (list N);
  it_pos : nat
}.

(** [Dir::Dir] and [Dir::begin]. *)
Definition dir_begin h v root : DirIterator :=
  match rv_read h v root with
  | None => mkDirIterator root 0 None None 0
  | Some s =>
      match getFieldV256 "Indexes" s with
      | [] => mkDirIterator root 0 (Some s) None 0
      | (k :: _) as l => mkDirIterator root k (Some s) (Some l) 0
      end
  end.
Definition dir_end root : DirIterator := mkDirIterator root 0 None None 0.

(** [operator==] of two iterators of the same directory. *)
Definition dir_equal (a b : DirIterator) : bool :=
  (kl_key (it_page a) =? kl_key (it_page b)) && (it_index a =? it_index b).

Definition nextPage h v root (it : DirIterator) : result DirIterator :=
  match it_sle it with
  | None => Throw "null SLE"
  | Some s =>
      let next := getFieldU "IndexNext" s in
      if next =? 0 then
        Ok (mkDirIterator (mkKeylet (kl_type (it_page it)) (kl_key root)) 0 (it_sle it)
              (it_indexes it) (it_pos it))
      else
        let page := keylet_page (kl_key root) next in
        match rv_read h v page with
        | None => Throw "null SLE"
        | Some s =>
            match getFieldV256 "Indexes" s with
            | [] => Ok (mkDirIterator page 0 (Some s) (Some []) (it_pos it))
            | (k :: _) as l => Ok (mkDirIterator page k (Some s) (Some l) 0)
            end
        end
  end.

(** [operator++]; incrementing past the entries of an empty page is undefined
    in C++ and an error here. *)
Definition dir_next h v root (it : DirIterator) : result DirIterator :=
  match it_indexes it with
  | None | Some [] => Throw "invalid iterator"
  | Some l =>
      match l !! S (it_pos it) with
      | Some k => Ok (mkDirIterator (it_page it) k (it_sle it) (it_indexes it) (S (it_pos it)))
      | None => nextPage h v root it
      end
  end.

(** [for (auto it = dir.begin(); it != dir.end(); ++it)]: the keys visited. *)
Fixpoint dir_collect (fuel : nat) h v root (it : DirIterator) : result (list N) :=
  match fuel with
  | O => Throw "out of fuel"
  | S fuel =>
      if dir_equal it (dir_end root) then Ok []
      else
        it' ← dir_next h v root it;
        l ← dir_collect fuel h v root it';
        Ok (it_index it :: l)
  end.

(** *** [cdirFirst] and [cdirNext]

    The state the caller keeps is the current page and the index in it; the
    result is [None] at the end (or when a page is missing). *)
Fixpoint internalDirNext (fuel : nat) h v (root : N) (page : SLE) (index : nat)
    : result (option (SLE * nat * N)) :=
  match fuel with
  | O => Throw "out of fuel"
  | S fuel =>
      let svIndexes := getFieldV256 "Indexes" page in
      match svIndexes !! index with
      | Some entry => Ok (Some (page, S index, entry))
      | None =>
          let next := getFieldU "IndexNext" page in
          if next =? 0 then Ok None
          else match rv_read h v (keylet_page root next) with
               | None => Ok None
               | Some page => internalDirNext fuel h v root page 0
               end
      end
  end.
Definition internalDirFirst (fuel : nat) h v (root : N) : result (option (SLE * nat * N)) :=
  match rv_read h v (keylet_page root 0) with
  | None => Ok None
  | Some page => internalDirNext fuel h v root page 0
  end.

(** The loop of the callers: first, then next until it returns false. *)
Fixpoint cdir_loop (fuel inner : nat) h v (root : N) (c : option (SLE * nat * N))
    : result (list N) :=
  match fuel with
  | O => Throw "out of fuel"
  | S fuel =>
      match c with
      | None => Ok []
      | Some (page, index, entry) =>
          c ← internalDirNext inner h v root page index;
          l ← cdir_loop fuel inner h v root c;
          Ok (entry :: l)
      end
  end.
Definition cdir_collect (fuel : nat) h v (root : N) : result (list N) :=
  c ← internalDirFirst fuel h v root; cdir_loop fuel fuel h v root c.

(** *** [forEachItem] and [forEachItemAfter]

    The callback sees the entry read under each key; the result lists the
    keys it was called for. *)
Fixpoint each_loop (fuel : nat) h v root (pos : Keylet) : result (list N) :=
  match fuel with
  | O => Throw "out of fuel"
  | S fuel =>
      match rv_read h v pos with
      | None => Ok []
      | Some s =>
          let keys := getFieldV256 "Indexes" s in
          let next := getFieldU "IndexNext" s in
          if next =? 0 then Ok keys
          else l ← each_loop fuel h v root (keylet_page (kl_key root) next); Ok (keys ++ l)
      end
  end.
Definition forEachItem (fuel : nat) h v root : result (list N) :=
  if negb (kl_type root =? ltDIR_NODE) then Ok [] else each_loop fuel h v root root.

(** The keys of one page: [found] says that the start has been passed, [f]
    is the callback, and the last component that the limit was reached. *)
Fixpoint after_page (f : N -> bool) (after : N) (keys : list N) (found : bool) (limit : N)
    : bool * N * list N * bool :=
  match keys with
  | [] => (found, limit, [], false)
  | key :: keys =>
      if negb found then after_page f after keys (key =? after) limit
      else if f key then
        let limit' := (limit + (2 ^ 32 - 1)) mod 2 ^ 32 in
        if limit <=? 1 then (found, limit', [key], true)
        else let '(fd, lm, l, stop) := after_page f after keys found limit' in
             (fd, lm, key :: l, stop)
      else let '(fd, lm, l, stop) := after_page f after keys found limit in
           (fd, lm, key :: l, stop)
  end.

Fixpoint after_loop (fuel : nat) h v root (f : option SLE -> bool) (after : N)
    (pos : Keylet) (found : bool) (limit : N) : result (bool * list N) :=
  match fuel with
  | O => Throw "out of fuel"
  | S fuel =>
      match rv_read h v pos with
      | None => Ok (found, [])
      | Some s =>
          let g key := f (rv_read h v (keylet_child key)) in
          let '(found, limit, l, stop) :=
            after_page g after (getFieldV256 "Indexes" s) found limit in
          let next := getFieldU "IndexNext" s in
          if stop || (next =? 0) then Ok (found, l)
          else
            '(b, l') ← after_loop fuel h v root f after (keylet_page (kl_key root) next)
                         found limit;
            Ok (b, l ++ l')
      end
  end.

(** Without a start the second loop is the first one with the search flag set
    from the beginning. *)
Definition forEachItemAfter (fuel : nat) h v root (after hint limit : N)
    (f : option SLE -> bool) : result (bool * list N) :=
  if negb (kl_type root =? ltDIR_NODE) then Ok (false, [])
  else if negb (after =? 0) then
    let hintIndex := keylet_page (kl_key root) hint in
    let currentIndex :=
      match rv_read h v hintIndex with
      | Some hintDir =>
          if bool_decide (after ∈ getFieldV256 "Indexes" hintDir) then hintIndex else root
      | None => root
      end in
    after_loop fuel h v root f after currentIndex false limit
  else after_loop fuel h v root f after root true limit.

Definition dirIsEmpty h v (k : Keylet) : bool :=
  match rv_read h v k with
  | None => true
  | Some s => match getFieldV256 "Indexes" s with
              | _ :: _ => false
              | [] => getFieldU "IndexNext" s =? 0
              end
  end.
End traversals.
