(* ===== verification/DirectorySpec.v ===== *)
(** * Directories as lists of pages

    The abstract directory is the list of its pages, each a number and its
    keys, root first.  [dir_at m d pages] says that the map of entries [m]
    holds it under the root key [d]; the lemmas show what the operations of
    Directory.v do to it, by running them on the map. *)

From S2P Require Import Prelude LedgerEntry Views Serializer LedgerHeader SHAMapHash Ledger StackedViews ApplyView Directory.
Open Scope N_scope.

Abbreviation pkey d n := (kl_key (keylet_page d n)).

(** The keys of the pages of a directory are distinct and usable: documented
    of [indexHash], whose digest separates name spaces and arguments. *)
Class PageKeys `{Digest} (d : N) : Prop := {
  page_key_ok n : n < 2 ^ 64 -> key_ok (pkey d n);
  page_key_inj n n' : n < 2 ^ 64 -> n' < 2 ^ 64 -> pkey d n = pkey d n' -> n = n'
}.

Abbreviation Pages := (list (N * list N)).

Definition head_num (pages : Pages) (next : N) : N :=
  match pages with [] => next | (n, _) :: _ => n end.
Definition last_num (pages : Pages) (prev : N) : N :=
  match last pages with Some (n, _) => n | None => prev end.

(** All the keys a directory holds. *)
Definition dir_keys (pages : Pages) : list N := pages ≫= snd.

Lemma dir_keys_app A B : dir_keys (A ++ B) = dir_keys A ++ dir_keys B.
Proof. apply bind_app. Qed.
Lemma dir_keys_cons n ks A : dir_keys ((n, ks) :: A) = ks ++ dir_keys A.
Proof. done. Qed.
Lemma last_num_snoc A n ks p : last_num (A ++ [(n, ks)]) p = n.
Proof. unfold last_num. by rewrite last_snoc. Qed.
Lemma last_num_cons x A p : last_num (x :: A) p = last_num A x.1.
Proof. unfold last_num. destruct x as [n ks]. by destruct (list.last A) eqn:E; rewrite last_cons, E. Qed.
Lemma head_num_app A B next : head_num (A ++ B) next = head_num A (head_num B next).
Proof. by destruct A as [|[]]. Qed.
Lemma last_num_app A B p : last_num (A ++ B) p = last_num B (last_num A p).
Proof.
  revert p; induction A as [|x A IH]; intros p; [done|].
  by rewrite <-app_comm_cons, !last_num_cons.
Qed.

Section representation.
Context `{Digest} (d : N) `{!PageKeys d}.
Implicit Types (m : gmap N SLE) (pages A B : Pages) (n prev next : N) (ks : list N) (s : SLE).

Record page_entry s n ks next prev : Prop := {
  pe_type : sle_type s = ltDIR_NODE;
  pe_key : sle_key s = pkey d n;
  pe_root : getFieldH256 "RootIndex" s = d;
  pe_indexes : getFieldV256 "Indexes" s = ks;
  pe_next : getFieldU "IndexNext" s = next;
  pe_prev : getFieldU "IndexPrevious" s = prev
}.

(** A run of pages linked in both directions, from the page after [prev] to
    the one before [next]. *)
Fixpoint linked m prev pages next : Prop :=
  match pages with
  | [] => True
  | (n, ks) :: rest =>
      (exists s, m !! pkey d n = Some s /\ page_entry s n ks (head_num rest next) prev) /\
      linked m n rest next
  end.

Record dir_at m pages : Prop := {
  da_root : pages <> [] -> head_num pages 1 = 0;
  da_sorted : StronglySorted N.lt pages.*1;
  da_bound : Forall (fun n => n < 2 ^ 64) pages.*1;
  da_linked : linked m (last_num pages 0) pages 0;
  da_absent n : n < 2 ^ 64 -> n ∉ pages.*1 -> m !! pkey d n = None
}.

Lemma linked_app m prev A B next :
  linked m prev (A ++ B) next <->
  linked m prev A (head_num B next) /\ linked m (last_num A prev) B next.
Proof.
  revert prev; induction A as [|[n ks] A IH]; intros prev; [simpl; naive_solver|].
  rewrite <-app_comm_cons, last_num_cons. cbn [linked fst]. rewrite head_num_app, IH. naive_solver.
Qed.

(** Only the entries of the run matter. *)
Lemma linked_ext m m' prev pages next :
  (forall n, n ∈ pages.*1 -> m' !! pkey d n = m !! pkey d n) ->
  linked m prev pages next -> linked m' prev pages next.
Proof.
  revert prev; induction pages as [|[n ks] pages IH]; intros prev Hm; [done|].
  intros [(s & Hs & He) Hl]. split.
  - exists s. split; [|done]. rewrite Hm; [done|]. by left.
  - apply IH; [|done]. intros n' ?. apply Hm. by right.
Qed.

Definition other n pages : Prop := n < 2 ^ 64 /\ Forall (fun j => j < 2 ^ 64) pages.*1 /\ n ∉ pages.*1.

Lemma other_app n A B : other n (A ++ B) <-> other n A /\ other n B.
Proof. unfold other. rewrite fmap_app, Forall_app, not_elem_of_app. naive_solver. Qed.

Lemma other_cons n n' ks B : other n ((n', ks) :: B) <-> n <> n' /\ n' < 2 ^ 64 /\ other n B.
Proof. unfold other. rewrite fmap_cons, Forall_cons, not_elem_of_cons. naive_solver. Qed.

Lemma other_key n pages n' : other n pages -> n' ∈ pages.*1 -> pkey d n <> pkey d n'.
Proof.
  intros (Hn & Hall & Hnot) Hin E. rewrite Forall_forall in Hall.
  apply page_key_inj in E; [|done|by apply Hall]. by subst.
Qed.

Lemma linked_insert m prev pages next n s :
  other n pages -> linked m prev pages next -> linked (<[pkey d n := s]> m) prev pages next.
Proof.
  intros Ho. apply linked_ext. intros n' Hn'. rewrite lookup_insert_ne; [done|].
  by eapply other_key.
Qed.

Lemma linked_delete m prev pages next n :
  other n pages -> linked m prev pages next -> linked (delete (pkey d n) m) prev pages next.
Proof.
  intros Ho. apply linked_ext. intros n' Hn'. rewrite lookup_delete_ne; [done|].
  by eapply other_key.
Qed.

(** Changing one link or the keys of a page. *)
Ltac field_tac :=
  unfold getFieldH256, getFieldV256, getFieldU in *; cbn [setField sle_fields sle_type sle_key];
  first [rewrite lookup_insert_eq|rewrite lookup_insert_ne by discriminate|idtac]; done.

Lemma page_entry_next s n ks next prev x :
  page_entry s n ks next prev -> page_entry (setNext x s) n ks x prev.
Proof. intros []. split; field_tac. Qed.
Lemma page_entry_prev s n ks next prev x :
  page_entry s n ks next prev -> page_entry (setPrevious x s) n ks next x.
Proof. intros []. split; field_tac. Qed.
Lemma page_entry_keys s n ks next prev ks' :
  page_entry s n ks next prev -> page_entry (setIndexes ks' s) n ks' next prev.
Proof. intros []. split; field_tac. Qed.

Lemma linked_set_prev m prev n ks rest next s x :
  m !! pkey d n = Some s -> other n rest -> linked m prev ((n, ks) :: rest) next ->
  linked (<[pkey d n := setPrevious x s]> m) x ((n, ks) :: rest) next.
Proof.
  intros Hs Ho [(s' & Hs' & He) Hl]. split; [|by apply linked_insert].
  rewrite Hs in Hs'. injection Hs' as <-. eexists. rewrite lookup_insert_eq.
  split; [done|]. by eapply page_entry_prev.
Qed.

Lemma linked_set_next m prev A n ks next s x :
  m !! pkey d n = Some s -> other n A -> linked m prev (A ++ [(n, ks)]) next ->
  linked (<[pkey d n := setNext x s]> m) prev (A ++ [(n, ks)]) x.
Proof.
  intros Hs Ho. rewrite !linked_app. intros [HA [(s' & Hs' & He) _]].
  split; [by apply linked_insert|]. split; [|done].
  rewrite Hs in Hs'. injection Hs' as <-. eexists. rewrite lookup_insert_eq.
  split; [done|]. by eapply page_entry_next.
Qed.

Lemma linked_set_keys m prev A n ks B next s ks' :
  m !! pkey d n = Some s -> other n (A ++ B) -> linked m prev (A ++ (n, ks) :: B) next ->
  linked (<[pkey d n := setIndexes ks' s]> m) prev (A ++ (n, ks') :: B) next.
Proof.
  intros Hs [HoA HoB]%other_app. rewrite !linked_app.
  intros [HA [(s' & Hs' & He) HB]]. split; [by apply linked_insert|].
  split; [|by apply linked_insert].
  rewrite Hs in Hs'. injection Hs' as <-. eexists. rewrite lookup_insert_eq.
  split; [done|]. by eapply page_entry_keys.
Qed.

(** A page of a directory. *)
Lemma dir_at_page m A n ks B :
  dir_at m (A ++ (n, ks) :: B) ->
  other n (A ++ B) /\
  exists s, m !! pkey d n = Some s /\
    page_entry s n ks (head_num B 0) (last_num A (last_num B n)).
Proof.
  intros [_ Ho Hb Hl _]. split.
  - rewrite fmap_app, fmap_cons in Ho, Hb. rewrite Forall_app, Forall_cons in Hb.
    split_and!; [apply Hb|rewrite fmap_app; apply Forall_app; naive_solver|].
    apply StronglySorted_app in Ho as (Hx & _ & Ho). inversion Ho as [|? ? _ Hlt]; subst.
    rewrite fmap_app, not_elem_of_app. rewrite Forall_forall in Hlt.
    split; intros Hin; [|by apply Hlt in Hin; lia].
    assert (n < n); [|lia]. apply Hx; [done|by left].
  - rewrite linked_app in Hl. destruct Hl as [_ [(s & Hs & He) _]]. exists s. split; [done|].
    by rewrite last_num_app, last_num_cons in He.
Qed.
End representation.

(** ** Adding a key *)

(** What [dirAdd] does to the pages: the page it returns and the new pages,
    or [None] for the exception. *)
Definition add_pages (limited preserveOrder : bool) (pages : Pages) (key : N)
    : option (option N * Pages) :=
  match list.last pages with
  | None => Some (Some 0, [(0, [key])])
  | Some (n, ks) =>
      if (length ks <? kDirNodeMaxEntries)%nat then
        match insert_index preserveOrder ks key with
        | None => None
        | Some ks' => Some (Some n, removelast pages ++ [(n, ks')])
        end
      else if (n + 1 =? 2 ^ 64) || (limited && (kDirNodeMaxPages <=? n + 1)) then
        Some (None, pages)
      else Some (Some (n + 1), pages ++ [(n + 1, [key])])
  end.

(** [describe] only adds the fields that describe the directory. *)
Definition describes (describe : SLE -> SLE) : Prop := forall s,
  sle_type (describe s) = sle_type s /\ sle_key (describe s) = sle_key s /\
  forall f, f ∈ ["RootIndex"; "Indexes"; "IndexNext"; "IndexPrevious"]%string ->
    sle_fields (describe s) !! f = sle_fields s !! f.

(** The entries that are not pages of the directory are as before. *)
Definition unrelated `{Digest} (d : N) (m m' : gmap N SLE) : Prop :=
  forall k, (forall n, n < 2 ^ 64 -> k <> pkey d n) -> m' !! k = m !! k.

Lemma lower_bound_spec key l a b :
  StronglySorted N.le l -> lower_bound key l = (a, b) ->
  l = a ++ b /\ Forall (fun x => x < key) a /\ Forall (fun x => key <= x) b.
Proof.
  intros Hs. revert a b; induction Hs as [|x l Hs IH Hall]; intros a b; cbn [lower_bound].
  { by intros [= <- <-]. }
  destruct (N.ltb_spec x key) as [Hlt|Hge].
  - destruct (lower_bound key l) as [a' b'] eqn:E. intros [= <- <-].
    destruct (IH _ _ eq_refl) as (-> & ? & ?). split_and!; [done|by constructor|done].
  - intros [= <- <-]. split_and!; [done|done|]. constructor; [done|].
    eapply Forall_impl; [exact Hall|]. cbn. lia.
Qed.

Lemma insert_index_spec preserveOrder ks key :
  match insert_index preserveOrder ks key with
  | None => key ∈ ks
  | Some ks' => (key ∉ ks) /\ (ks' ≡ₚ key :: ks) /\
      (preserveOrder = true -> ks' = ks ++ [key]) /\
      (preserveOrder = false -> StronglySorted N.le ks')
  end.
Proof.
  unfold insert_index. destruct preserveOrder.
  { case_bool_decide; [done|]. split_and!; [done| |done..].
    by rewrite Permutation_app_comm. }
  destruct (lower_bound key (merge_sort N.le ks)) as [a b] eqn:E.
  pose proof (merge_sort_Permutation N.le ks) as Hp.
  assert (StronglySorted N.le (merge_sort N.le ks)) as Hs.
  { apply StronglySorted_merge_sort; [intros ???; lia|intros x y; lia]. }
  apply lower_bound_spec in E as (E & Ha & Hb); [|done]. rewrite E in Hp, Hs.
  case_bool_decide as Hh.
  { destruct b as [|x b]; [done|]. injection Hh as ->. rewrite <-Hp. apply elem_of_app; right; by left. }
  split_and!; [..|done|].
  - rewrite <-Hp, not_elem_of_app. rewrite !Forall_forall in *.
    split; [intros Hin; apply Ha in Hin; lia|]. intros Hin.
    apply StronglySorted_app in Hs as (_ & _ & Hs). destruct b as [|x b]; [by apply elem_of_nil in Hin|].
    assert (x <> key) by (intros ->; done). assert (key <= x) by (apply Hb; by left).
    inversion Hs as [|? ? _ Hall]; subst. rewrite Forall_forall in Hall.
    apply elem_of_cons in Hin as [->|Hin]; [done|]. apply Hall in Hin. lia.
  - rewrite <-Hp. by rewrite Permutation_middle.
  - intros _. apply StronglySorted_app in Hs as (Hab & Hsa & Hsb). rewrite !Forall_forall in *.
    apply StronglySorted_app_2.
    + intros x y Hx [->|Hy]%elem_of_cons; [apply Ha in Hx; lia|by apply Hab].
    + done.
    + constructor; [done|]. by apply Forall_forall.
Qed.

Section operations.
Context `{Digest} (d : N) `{!PageKeys d} {W : Type} `{ApplyViewLaws W}.
Implicit Types (m : gmap N SLE) (pages A B : Pages) (st : Heap * W) (held : list (N * N)).
Implicit Types (r : Rules).

Abbreviation directory := (mkKeylet ltDIR_NODE d).

Lemma map_read_page m n s ks next prev :
  m !! pkey d n = Some s -> page_entry d s n ks next prev ->
  map_read m (keylet_page d n) = Some s.
Proof.
  intros Hs [Ht Hk _ _ _ _]. unfold map_read. rewrite Hs. unfold check.
  assert (kl_type (keylet_page d n) = ltDIR_NODE) as E
    by (unfold keylet_page; by destruct (n =? 0)).
  by rewrite E, Ht, Hk, !N.eqb_refl.
Qed.

(** Checking out a page. *)
Lemma wp_peek_page n s ks next prev st m r held Q E :
  shows st m r held -> n < 2 ^ 64 -> m !! pkey d n = Some s -> page_entry d s n ks next prev ->
  (forall p st', shows st' m r ((p, pkey d n) :: held) -> Q (Some p) st') ->
  wp (peek (keylet_page d n)) st Q E.
Proof.
  intros Hst Hn Hs He HQ. eapply wp_peek; [done|by apply page_key_ok|..].
  - intros s' p st' _ _ Hst'. by apply HQ.
  - intros st' Hn'. by rewrite (map_read_page m n s ks next prev) in Hn'.
Qed.

Lemma wp_peek_absent n st m r held Q E :
  shows st m r held -> n < 2 ^ 64 -> m !! pkey d n = None ->
  (forall st', shows st' m r held -> Q None st') -> wp (peek (keylet_page d n)) st Q E.
Proof.
  intros Hst Hn Hs HQ. eapply wp_peek; [done|by apply page_key_ok|..].
  - intros s' p st' _ Hs'. congruence.
  - intros st' _ Hst'. by apply HQ.
Qed.

Lemma shows_sub st m r held held' : held' ⊆ held -> shows st m r held -> shows st m r held'.
Proof. intros Hsub [? ? ? Hh]. split; [done..|]. intros p k Hp. by apply Hh, Hsub. Qed.

(** A directory that is not empty starts with its root. *)
Lemma dir_at_root m pages :
  dir_at d m pages -> pages <> [] ->
  exists ks B s, pages = (0, ks) :: B /\ other 0 B /\ m !! d = Some s /\
    page_entry d s 0 ks (head_num B 0) (last_num pages 0).
Proof.
  intros Hd Hne. destruct pages as [|[n ks] B]; [done|].
  pose proof (da_root _ _ _ Hd Hne) as E. cbn in E. subst n.
  destruct (dir_at_page d m [] 0 ks B Hd) as (Ho & s & Hs & He).
  exists ks, B, s. rewrite last_num_cons. split_and!; done.
Qed.

Lemma wp_findPreviousPage st m r held root A n ks Q E :
  shows st m r held -> (root, d) ∈ held -> dir_at d m (A ++ [(n, ks)]) ->
  (forall st' node held', shows st' m r held' -> held ⊆ held' -> (node, pkey d n) ∈ held' ->
     Q (n, node, ks) st') ->
  wp (findPreviousPage directory root) st Q E.
Proof.
  intros Hst Hroot Hd HQ.
  destruct (dir_at_root _ _ Hd) as (ks0 & B0 & s0 & E0 & _ & Hs0 & He0); [by destruct A|].
  destruct (dir_at_page _ _ _ _ _ _ Hd) as ((Hn & _) & s & Hs & He).
  rewrite last_num_snoc in He0.
  unfold findPreviousPage. apply wp_bind. eapply wp_load; [done..|].
  rewrite (pe_prev _ _ _ _ _ _ He0). cbn [kl_key]. apply wp_bind.
  destruct (N.eqb_spec n 0) as [->|Hn0].
  - apply wp_ret. apply wp_bind. eapply wp_load; [done..|]. apply wp_ret.
    assert (s0 = s) as <- by (change (pkey d 0) with d in Hs; congruence).
    rewrite (pe_indexes _ _ _ _ _ _ He). by eapply HQ.
  - apply wp_bind. eapply wp_peek_page; [done..|]. intros p st' Hst'. apply wp_ret.
    apply wp_bind. eapply wp_load; [done|by left|done|]. apply wp_ret.
    rewrite (pe_indexes _ _ _ _ _ _ He). eapply HQ; [done|set_solver|by left].
Qed.

Lemma unrelated_refl m : unrelated d m m.
Proof. done. Qed.
Lemma unrelated_trans m1 m2 m3 : unrelated d m1 m2 -> unrelated d m2 m3 -> unrelated d m1 m3.
Proof. intros H12 H23 k Hk. rewrite H23, H12; done. Qed.
Lemma unrelated_insert m n s : n < 2 ^ 64 -> unrelated d m (<[pkey d n := s]> m).
Proof. intros Hn k Hk. rewrite lookup_insert_ne; [done|]. intros <-. by eapply Hk. Qed.
Lemma unrelated_delete m n : n < 2 ^ 64 -> unrelated d m (delete (pkey d n) m).
Proof. intros Hn k Hk. rewrite lookup_delete_ne; [done|]. intros <-. by eapply Hk. Qed.

(** *** The map after an insertion *)
Lemma absent_insert m n s (ns : list N) :
  n < 2 ^ 64 -> n ∈ ns ->
  (forall n', n' < 2 ^ 64 -> n' ∉ ns -> m !! pkey d n' = None) ->
  forall n', n' < 2 ^ 64 -> n' ∉ ns -> <[pkey d n := s]> m !! pkey d n' = None.
Proof.
  intros Hn Hin Ha n' Hn' Hnot. rewrite lookup_insert_ne; [by apply Ha|].
  intros E. apply page_key_inj in E; [|done..]. by subst.
Qed.

Lemma dir_at_set_keys m A n ks B s ks' :
  dir_at d m (A ++ (n, ks) :: B) -> m !! pkey d n = Some s ->
  dir_at d (<[pkey d n := setIndexes ks' s]> m) (A ++ (n, ks') :: B).
Proof.
  intros Hd Hs. destruct (dir_at_page _ _ _ _ _ _ Hd) as [Ho _]. destruct Hd as [Hr Hsrt Hb Hl Ha].
  assert ((A ++ (n, ks') :: B).*1 = (A ++ (n, ks) :: B).*1) as E by (by rewrite !fmap_app).
  split; [|by rewrite E|by rewrite E|..].
  - intros _. rewrite head_num_app in *. cbn [head_num] in *. apply Hr. by destruct A.
  - rewrite last_num_app, last_num_cons in *. by eapply linked_set_keys.
  - rewrite E. apply absent_insert; [apply Ho| |done].
    rewrite fmap_app. apply elem_of_app; right; by left.
Qed.

Lemma dir_at_add_page m A n ks s s0 s1 key :
  dir_at d m (A ++ [(n, ks)]) -> n + 1 < 2 ^ 64 -> m !! pkey d n = Some s ->
  <[pkey d n := setNext (n + 1) s]> m !! d = Some s0 ->
  page_entry d s1 (n + 1) [key] 0 n ->
  dir_at d (<[pkey d (n + 1) := s1]>
             (<[d := setPrevious (n + 1) s0]> (<[pkey d n := setNext (n + 1) s]> m)))
    (A ++ [(n, ks); (n + 1, [key])]).
Proof.
  intros Hd Hn Hs Hs0 Hs1.
  destruct (dir_at_page _ _ _ _ _ _ Hd) as [Ho _].
  destruct (dir_at_root _ _ Hd) as (ks0 & B0 & _ & E0 & Ho0 & _); [by destruct A|].
  destruct Hd as [Hr Hsrt Hb Hl Ha]. rewrite app_nil_r in Ho.
  change [(n, ks); (n + 1, [key])] with ([(n, ks)] ++ [(n + 1, [key])]). rewrite app_assoc.
  assert (Forall (fun x => x < n + 1) (A ++ [(n, ks)]).*1) as Hlt.
  { rewrite fmap_app in *. apply StronglySorted_app in Hsrt as (Hx & _ & _).
    apply Forall_app. split; [|repeat constructor; cbn; lia].
    apply Forall_forall. intros x Hin. specialize (Hx x n Hin). cbn in Hx.
    assert (x < n) by (apply Hx; by left). lia. }
  assert (other (n + 1) (A ++ [(n, ks)])) as Ho1.
  { split_and!; [done..|]. rewrite Forall_forall in Hlt. intros Hin. apply Hlt in Hin. lia. }
  split.
  - intros _. rewrite head_num_app. rewrite E0. done.
  - rewrite fmap_app. apply StronglySorted_app_2; [|done|repeat constructor].
    rewrite Forall_forall in Hlt. intros x y Hx Hy%list_elem_of_singleton. cbn in Hy. subst. by apply Hlt.
  - rewrite fmap_app. apply Forall_app. split; [done|]. by repeat constructor.
  - rewrite last_num_snoc. apply linked_app. split.
    + apply linked_insert; [done|done|]. cbn [head_num].
      apply (linked_set_next d) with (x := n + 1) (s := s) in Hl; [|done..].
      rewrite E0 in *. rewrite last_num_cons in *. change d with (pkey d 0) at 2.
      by eapply linked_set_prev.
    + split; [|done]. exists s1. rewrite lookup_insert_eq, last_num_snoc. done.
  - apply absent_insert; [done|rewrite fmap_app; apply elem_of_app; right; by left|].
    intros n' Hn' Hnot. rewrite fmap_app, not_elem_of_app in Hnot. destruct Hnot as [Hnot _].
    revert n' Hn' Hnot.
    apply (absent_insert _ 0 (setPrevious (n + 1) s0)); [done|rewrite E0; by left|].
    apply absent_insert; [apply Ho|rewrite fmap_app; apply elem_of_app; right; by left|done].
Qed.
(** A new page, or a new root. *)
Lemma new_entry (describe : SLE -> SLE) n key prev :
  describes describe ->
  page_entry d
    (describe (let s := setIndexes [key]
                 (setField "RootIndex" (VHash d) (new_sle (keylet_page d n))) in
               if prev =? 0 then s else setPrevious prev s)) n [key] 0 prev.
Proof.
  intros Hdesc. destruct (Hdesc (let s := setIndexes [key]
                 (setField "RootIndex" (VHash d) (new_sle (keylet_page d n))) in
               if prev =? 0 then s else setPrevious prev s)) as (Ht & Hk & Hf).
  cbv zeta in *.
  split; [rewrite Ht|rewrite Hk|..]; unfold getFieldH256, getFieldV256, getFieldU;
    [..|rewrite Hf by set_solver|rewrite Hf by set_solver|rewrite Hf by set_solver|
     rewrite Hf by set_solver];
    destruct (N.eqb_spec prev 0) as [->|Hne]; try done.
  - unfold keylet_page; by destruct (n =? 0).
  - unfold keylet_page; by destruct (n =? 0).
Qed.

Lemma dirAdd_root_spec st m r held key describe Q E :
  shows st m r held -> dir_at d m [] -> describes describe ->
  (forall st' m', shows st' m' r held -> dir_at d m' [(0, [key])] -> unrelated d m m' -> Q 0 st') ->
  wp (createRoot directory key describe) st Q E.
Proof.
  intros Hst Hd Hdesc HQ. unfold createRoot. cbn [kl_key]. apply wp_bind.
  set (s := setIndexes [key] _).
  assert (page_entry d s 0 [key] 0 0) as He.
  { destruct (Hdesc (setField "RootIndex" (VHash d) (new_sle directory))) as (Ht & Hk & Hf).
    split; unfold getFieldH256, getFieldV256, getFieldU, s; cbn [setField sle_fields sle_type sle_key].
    - by rewrite Ht.
    - by rewrite Hk.
    - rewrite lookup_insert_ne by discriminate. by rewrite Hf by set_solver.
    - by rewrite lookup_insert_eq.
    - rewrite lookup_insert_ne by discriminate. by rewrite Hf by set_solver.
    - rewrite lookup_insert_ne by discriminate. by rewrite Hf by set_solver. }
  pose proof (pe_key _ _ _ _ _ _ He) as Hk. change (pkey d 0) with d in Hk.
  eapply wp_insert; [done|rewrite Hk; by apply (page_key_ok 0)|..].
  { rewrite Hk. apply (da_absent _ _ _ Hd 0); [done|]. by intros ?%elem_of_nil. }
  rewrite Hk. intros st' Hst'. apply wp_ret. apply (HQ _ _ Hst').
  - split; [done|repeat constructor|by repeat constructor|..].
    + split; [|done]. exists s. cbn. by rewrite lookup_insert_eq.
    + apply (absent_insert _ 0); [done|by left|]. intros n Hn _.
      apply (da_absent _ _ _ Hd n); [done|]. by intros ?%elem_of_nil.
  - by apply (unrelated_insert _ 0).
Qed.
Lemma wp_insertKey st m r held A n ks B node preserveOrder key Q E :
  shows st m r held -> (node, pkey d n) ∈ held -> dir_at d m (A ++ (n, ks) :: B) ->
  (forall st' m' ks', insert_index preserveOrder ks key = Some ks' ->
     shows st' m' r held -> dir_at d m' (A ++ (n, ks') :: B) -> unrelated d m m' -> Q n st') ->
  (insert_index preserveOrder ks key = None -> E "dirInsert: double insertion"%string) ->
  wp (insertKey node n preserveOrder ks key) st Q E.
Proof.
  intros Hst Hp Hd HQ HE. destruct (dir_at_page _ _ _ _ _ _ Hd) as ((Hn & _) & s & Hs & He).
  unfold insertKey. destruct (insert_index preserveOrder ks key) as [ks'|]; [|by apply HE].
  apply wp_bind. eapply wp_modify; [done..|]. intros st1 Hst1.
  apply wp_bind. eapply wp_update; [done..|]. intros st2 Hst2. apply wp_ret.
  eapply HQ; [done|done| |].
  - by apply dir_at_set_keys with (ks := ks).
  - by apply unrelated_insert.
Qed.

Lemma wp_insertPage st m r held A n ks node root key describe Q E :
  shows st m r held -> (node, pkey d n) ∈ held -> (root, d) ∈ held ->
  dir_at d m (A ++ [(n, ks)]) -> describes describe ->
  (if (n + 1 =? 2 ^ 64) ||
      (negb (rules_enabled r fixDirectoryLimit) && (kDirNodeMaxPages <=? n + 1))
   then Q None st
   else forall st' m', shows st' m' r held -> dir_at d m' (A ++ [(n, ks); (n + 1, [key])]) ->
          unrelated d m m' -> Q (Some (n + 1)) st') ->
  wp (insertPage n node root key directory describe) st Q E.
Proof.
  intros Hst Hp Hroot Hd Hdesc HQ.
  destruct (dir_at_page _ _ _ _ _ _ Hd) as ((Hn & _) & s & Hs & He).
  destruct (dir_at_root _ _ Hd) as (ks0 & B0 & s0 & E0 & _ & Hs0 & _); [by destruct A|].
  unfold insertPage. destruct (N.eqb_spec (n + 1) (2 ^ 64)) as [Hmax|Hmax].
  { by rewrite Hmax, N.Div0.mod_same. }
  rewrite N.mod_small by lia. rewrite (proj2 (N.eqb_neq (n + 1) 0)) by lia.
  apply wp_bind. eapply wp_rules; [done|].
  cbn [orb] in HQ. destruct (negb _ && _); [done|].
  apply wp_bind. eapply wp_modify; [done..|]. intros st1 Hst1.
  apply wp_bind. eapply wp_update; [done..|]. intros st2 Hst2.
  assert (exists s1, <[pkey d n := setNext (n + 1) s]> m !! d = Some s1) as [s1 Hs1].
  { destruct (decide (pkey d n = d)) as [Eq|Hne].
    - rewrite Eq, lookup_insert_eq. eauto.
    - rewrite lookup_insert_ne by done. eauto. }
  apply wp_bind. eapply wp_modify; [done..|]. intros st3 Hst3.
  apply wp_bind. eapply wp_update; [done..|]. intros st4 Hst4. cbn [kl_key].
  pose proof (new_entry describe (n + 1) key n Hdesc) as Hnew. cbv zeta in Hnew.
  replace (n + 1 =? 1) with (n =? 0) by (destruct (N.eqb_spec n 0), (N.eqb_spec (n + 1) 1); lia).
  rewrite N.add_sub. set (s2 := describe _) in *.
  pose proof (pe_key _ _ _ _ _ _ Hnew) as Hk.
  apply wp_bind. eapply wp_insert; [done|rewrite Hk; apply page_key_ok; lia|..].
  - rewrite Hk. apply (absent_insert _ 0 _ (A ++ [(n, ks)]).*1); [done|rewrite E0; by left| |lia|].
    + apply absent_insert; [done|rewrite fmap_app; apply elem_of_app; right; by left|].
      apply (da_absent _ _ _ Hd).
    + pose proof (da_sorted _ _ _ Hd) as Hsrt. rewrite fmap_app in *.
      apply StronglySorted_app in Hsrt as (Hx & _ & _).
      intros [Hin|Hin]%elem_of_app; [|apply list_elem_of_singleton in Hin; cbn in Hin; lia].
      specialize (Hx _ n Hin). assert (n + 1 < n); [|lia]. apply Hx. by left.
  - rewrite Hk. intros st5 Hst5. apply wp_ret. apply (HQ _ _ Hst5).
    + apply dir_at_add_page; [done|lia|done..].
    + eapply unrelated_trans; [by apply unrelated_insert|].
      eapply unrelated_trans; [by apply (unrelated_insert _ 0)|]. apply unrelated_insert; lia.
Qed.

(** [dirAdd] does what [add_pages] says. *)
Lemma dirAdd_spec st m r held pages preserveOrder key describe :
  shows st m r held -> dir_at d m pages -> describes describe ->
  let added := add_pages (negb (rules_enabled r fixDirectoryLimit)) preserveOrder pages key in
  wp (dirAdd preserveOrder directory key describe) st
    (fun o st' => exists m' pages', added = Some (o, pages') /\ shows st' m' r held /\
       dir_at d m' pages' /\ unrelated d m m')
    (fun e => e = "dirInsert: double insertion"%string /\ added = None).
Proof.
  intros Hst Hd Hdesc added. subst added. unfold dirAdd, add_pages. apply wp_bind.
  destruct pages as [|[n ks] A _] using rev_ind.
  - change directory with (keylet_page d 0). eapply wp_peek_absent; [done|done|..].
    { apply (da_absent _ _ _ Hd); [done|]. by intros ?%elem_of_nil. }
    intros st' Hst'. apply wp_bind. eapply dirAdd_root_spec; [done..|].
    intros st2 m2 Hst2 Hd2 Hu. apply wp_ret. by exists m2, [(0, [key])].
  - rewrite last_snoc, removelast_last.
    destruct (dir_at_root _ _ Hd) as (ks0 & B0 & s0 & E0 & _ & Hs0 & He0); [by destruct A|].
    change directory with (keylet_page d 0) at 1. eapply wp_peek_page; [done..|].
    intros root st1 Hst1. apply wp_bind. change (pkey d 0) with d in Hst1.
    eapply wp_findPreviousPage; [done|by left|done|].
    intros st2 node held2 Hst2 Hsub Hnode.
    destruct (length ks <? kDirNodeMaxEntries)%nat.
    + apply wp_bind. eapply wp_insertKey; [done..| |].
      * intros st3 m3 ks' -> Hst3 Hd3 Hu. apply wp_ret. exists m3, (A ++ [(n, ks')]).
        split_and!; [done| |done|done]. eapply shows_sub; [|done]. set_solver.
      * by intros ->.
    + eapply wp_insertPage; [done|done|apply Hsub; by left|done|done|].
      destruct (_ || _).
      * exists m, (A ++ [(n, ks)]). split_and!; [done| |done|done].
        eapply shows_sub; [|done]. set_solver.
      * intros st3 m3 Hst3 Hd3 Hu. exists m3, (A ++ [(n, ks); (n + 1, [key])]).
        split_and!; [by rewrite <-app_assoc| |done|done].
        eapply shows_sub; [|done]. set_solver.
Qed.
(** *** The map after a removal *)
Lemma absent_delete m n (ns : list N) :
  (forall n', n' < 2 ^ 64 -> n' ∉ ns -> m !! pkey d n' = None) ->
  forall n', n' < 2 ^ 64 -> n' ∉ ns -> delete (pkey d n) m !! pkey d n' = None.
Proof.
  intros Ha n' Hn' Hnot. destruct (decide (pkey d n = pkey d n')) as [E|Hne].
  - by rewrite E, lookup_delete_eq.
  - rewrite lookup_delete_ne by done. by apply Ha.
Qed.

(** Pages of a directory that form a directory once their links are fixed and
    the others are gone. *)
Lemma dir_at_sub m m' A n ks B :
  dir_at d m (A ++ (n, ks) :: B) -> A <> [] ->
  linked d m' (last_num (A ++ B) 0) (A ++ B) 0 ->
  (forall n', n' < 2 ^ 64 -> n' ∉ (A ++ B).*1 -> m' !! pkey d n' = None) ->
  dir_at d m' (A ++ B).
Proof.
  intros [Hr Hs Hb _ _] Hne Hl Ha. split; [..|done|done].
  - intros _. rewrite head_num_app in *. destruct A as [|[] ?]; [done|]. by apply Hr.
  - rewrite fmap_app in *. apply StronglySorted_app in Hs as (Hx & HsA & HsB).
    apply StronglySorted_app_2; [|done|by inversion HsB].
    intros x y Hin Hin'. apply Hx; [done|]. rewrite fmap_cons. by right.
  - rewrite fmap_app in *. apply Forall_app in Hb as [HbA HbB].
    apply Forall_app. split; [done|]. by inversion HbB.
Qed.

Lemma dir_at_unlink m P A a ka n ks B sp sn :
  P = A ++ [(a, ka)] -> dir_at d m (P ++ (n, ks) :: B) -> m !! pkey d a = Some sp ->
  <[pkey d a := setNext (head_num B 0) sp]> m !! pkey d (head_num B 0) = Some sn ->
  dir_at d (delete (pkey d n) (<[pkey d (head_num B 0) := setPrevious a sn]>
              (<[pkey d a := setNext (head_num B 0) sp]> m))) (P ++ B).
Proof.
  intros EP Hd Hsp Hsn. pose proof (dir_at_page _ _ _ _ _ _ Hd) as [[HoP HoB]%other_app _].
  assert (other a (A ++ (n, ks) :: B)) as [HoA [Hne [_ HoaB]]%other_cons]%other_app.
  { rewrite EP, <-app_assoc in Hd. by apply dir_at_page in Hd as [? _]. }
  destruct (dir_at_root _ _ Hd) as (k0 & R & s0 & E0 & _); [subst; by destruct A|].
  assert (P <> []) as HP by (subst; by destruct A).
  assert (Forall (fun j => j < 2 ^ 64) P.*1) as HbP by apply HoP.
  assert (a ∈ P.*1) as HaP by (rewrite EP, fmap_app; apply elem_of_app; right; by left).
  pose proof (da_linked _ _ _ Hd) as Hl. rewrite linked_app in Hl. destruct Hl as [HP1 [_ HB1]].
  assert (linked d (<[pkey d a := setNext (head_num B 0) sp]> m)
            (last_num (P ++ (n, ks) :: B) 0) P (head_num B 0)) as HP2.
  { rewrite EP in HP1 |- *. by eapply linked_set_next. }
  assert (last_num P 0 = a) as Ea by (by rewrite EP, last_num_snoc).
  eapply dir_at_sub; [done|done| |].
  - apply linked_delete; [done|by apply other_app|]. rewrite last_num_app.
    rewrite linked_app, Ea. destruct B as [|[b kb] B].
    + split; [|done]. change (last_num [] a) with a.
      cbn [head_num] in *. destruct P as [|[z kz] P']; [done|]. injection E0 as -> _ _.
      eapply linked_set_prev; [done|done| |exact HP2].
      pose proof (da_sorted _ _ _ Hd) as Hs. rewrite <-app_comm_cons in Hd.
      destruct (dir_at_page d m [] 0 kz (P' ++ [(n, ks)]) Hd) as [[_ [? _]%other_app]%other_app _]. done.
    + cbn [head_num] in *. assert (other b P) as HobP.
      { change ((n, ks) :: (b, kb) :: B) with ([(n, ks)] ++ (b, kb) :: B) in Hd.
        rewrite app_assoc in Hd. apply dir_at_page in Hd as [Ho _].
        by apply other_app in Ho as [[? _]%other_app _]. }
      assert (other b B) as HobB.
      { change ((n, ks) :: (b, kb) :: B) with ([(n, ks)] ++ (b, kb) :: B) in Hd.
        rewrite app_assoc in Hd. apply dir_at_page in Hd as [Ho _]. by apply other_app in Ho as [_ ?]. }
      rewrite last_num_app, !last_num_cons in HP2. rewrite last_num_cons. cbn [fst] in *.
      replace (last_num P (last_num B b)) with a by (rewrite EP; by rewrite last_num_snoc).
      split; [by apply linked_insert|].
      eapply linked_set_prev; [done|done|done|]. by apply linked_insert.
  - intros n' Hn' Hnot. destruct (decide (n' = n)) as [->|Hnn]; [by rewrite lookup_delete_eq|].
    apply absent_delete with (ns := (P ++ (n, ks) :: B).*1); [|done|].
    + apply absent_insert; [destruct B as [|[b kb] B]; [done|by apply other_cons in HoB as (_ & ? & _)]|..].
      * destruct B as [|[b kb] B]; cbn [head_num]; [rewrite E0; by left|].
        rewrite fmap_app. apply elem_of_app; right. right. by left.
      * apply absent_insert; [by apply HoA| |apply (da_absent _ _ _ Hd)].
        rewrite fmap_app. apply elem_of_app; by left.
    + rewrite fmap_app, not_elem_of_app in *. rewrite fmap_cons, not_elem_of_cons. naive_solver.
Qed.
(** The same when the last page is erased first. *)
Lemma dir_at_drop_end m P A a ka b kb sp s0 :
  P = A ++ [(a, ka)] -> dir_at d m (P ++ [(b, kb)]) ->
  delete (pkey d b) m !! pkey d a = Some sp ->
  <[pkey d a := setNext 0 sp]> (delete (pkey d b) m) !! d = Some s0 ->
  dir_at d (<[d := setPrevious a s0]> (<[pkey d a := setNext 0 sp]> (delete (pkey d b) m))) P.
Proof.
  intros EP Hd Hsp Hs0. pose proof (dir_at_page _ _ _ _ _ _ Hd) as [Ho _].
  rewrite app_nil_r in Ho.
  destruct (dir_at_root _ _ Hd) as (k0 & R & s1 & E0 & _); [subst; by destruct A|].
  assert (pkey d b <> pkey d a) as Hba.
  { eapply other_key; [done|done|]. rewrite EP, fmap_app. apply elem_of_app; right; by left. }
  assert (pkey d b <> d) as Hb0.
  { apply (other_key d b P 0); [done|]. destruct P as [|[z kz] P']; [by destruct A|].
    injection E0 as -> _ _. by left. }
  rewrite lookup_delete_ne in Hsp by done.
  rewrite <-!delete_insert_ne in * by done. rewrite lookup_delete_ne in Hs0 by done.
  rewrite <-(app_nil_r P) at 1. by eapply (dir_at_unlink m P A a ka b kb []).
Qed.

Lemma dir_at_delete_root m ks : dir_at d m [(0, ks)] -> dir_at d (delete d m) [].
Proof.
  intros Hd. split; [done|constructor|constructor|done|].
  intros n Hn _. destruct (decide (n = 0)) as [->|Hne]; [by apply lookup_delete_eq|].
  apply (absent_delete _ 0 [0]); [|done|set_solver]. apply (da_absent _ _ _ Hd).
Qed.

(** *** Removing a key *)

(** Drop an empty root that is alone. *)
Definition prune (keepRoot : bool) pages : Pages :=
  match pages with
  | [(n, [])] => if keepRoot then [(n, [])] else []
  | pages => pages
  end.

(** The pages left when a page became empty: [A] are the pages before it
    (the root itself if it is the root that became empty), [B] those after. *)
Definition tidy (keepRoot : bool) A B : Pages :=
  prune keepRoot (A ++ match B with [(_, [])] => [] | _ => B end).

(** Pointers to entries other than the pages of the directory. *)
Definition foreign held : Prop := forall p k n, (p, k) ∈ held -> n < 2 ^ 64 -> k <> pkey d n.

Lemma wp_erase_page p n st m r held' held Q E :
  shows st m r held' -> (p, pkey d n) ∈ held' -> held ⊆ held' ->
  (forall q k, (q, k) ∈ held -> k <> pkey d n) ->
  (forall st', shows st' (delete (pkey d n) m) r held -> Q () st') -> wp (erase p) st Q E.
Proof.
  intros Hst Hp Hsub Hf HQ. eapply wp_erase; [done..|]. intros st' Hst'. apply HQ.
  eapply shows_sub; [|done]. intros [q k] Hq. apply list_elem_of_filter. split; [|by apply Hsub].
  cbn. by eapply Hf.
Qed.

Lemma last_num_in A p : A <> [] -> last_num A p ∈ A.*1.
Proof.
  destruct A as [|[n ks] A _] using rev_ind; [done|]. intros _. rewrite last_num_snoc, fmap_app.
  apply elem_of_app; right; by left.
Qed.

(** The links of a root with further pages. *)
Lemma root_links m ks b kb B : dir_at d m ((0, ks) :: (b, kb) :: B) ->
  b <> 0 /\ b < 2 ^ 64 /\ last_num B b <> 0 /\ (B <> [] -> b <> last_num B b).
Proof.
  intros Hd. destruct (dir_at_page d m [] 0 ks _ Hd) as [Ho _]. rewrite app_nil_l in Ho. apply other_cons in Ho as (Hb0 & Hb & Ho).
  destruct (dir_at_page d m [(0, ks)] b kb B Hd) as [[_ Hob]%other_app _]. split_and!; [done|done| |].
  - destruct (decide (B = [])) as [->|Hne]; [done|]. intros Hz. apply (proj2 (proj2 Ho)). rewrite <-Hz. by apply last_num_in.
  - intros Hne Hz. apply (proj2 (proj2 Hob)). rewrite Hz at 1. by apply last_num_in.
Qed.

(** A root without other pages is erased. *)
Lemma wp_erase_root st m r held node ks Q E :
  shows st m r ((node, d) :: held) -> foreign held -> dir_at d m [(0, ks)] ->
  (forall st' m', shows st' m' r held -> dir_at d m' [] -> unrelated d m m' -> Q () st') -> wp (erase node) st Q E.
Proof.
  intros Hst Hf Hd HQ. eapply (wp_erase_page node 0 _ _ _ _ held); [done|by left|set_solver|intros q k Hq; by apply (Hf q k 0)|].
  intros st1 Hst1. eapply HQ; [done|by eapply dir_at_delete_root|by apply (unrelated_delete _ 0)].
Qed.

(** The only other page, which is empty, is unlinked and erased. *)
Lemma wp_drop_second {X : Type} st m r held node p b ks (k : Tx W X) Q E :
  shows st m r ((p, pkey d b) :: (node, d) :: held) -> foreign held -> dir_at d m [(0, ks); (b, [])] ->
  (forall st' m', shows st' m' r ((node, d) :: held) -> dir_at d m' [(0, ks)] -> unrelated d m m' -> wp k st' Q E) ->
  wp (_ ← modify node (setNext 0); _ ← modify node (setPrevious 0); _ ← update node; _ ← erase p; k) st Q E.
Proof.
  intros Hst Hf Hd HQ. destruct (root_links _ _ _ _ _ Hd) as (Hb0 & Hb & _).
  destruct (dir_at_page d m [] 0 ks [(b, [])] Hd) as (_ & s & Hs & _). change (pkey d 0) with d in Hs.
  apply wp_bind. eapply wp_modify; [done|by right; left|done..|]. intros st2 Hst2.
  apply wp_bind. eapply wp_modify; [done|by right; left|apply lookup_insert_eq|done..|]. intros st3 Hst3.
  apply wp_bind. eapply wp_update; [done|by right; left|]. intros st4 Hst4.
  apply wp_bind. apply (wp_erase_page p b _ _ _ _ ((node, d) :: held)) with (1 := Hst4); [by left|set_solver| |].
  { intros q k' [[= -> ->]|Hq]%elem_of_cons; [|by apply (Hf q k' b)]. intros Hz. by apply Hb0, (page_key_inj b 0). }
  intros st5 Hst5. eapply HQ; [done|..].
  - apply (dir_at_unlink m [(0, ks)] [] 0 ks b [] []) with (sn := setNext 0 s); [done..|]. apply lookup_insert_eq.
  - eapply unrelated_trans; [by apply (unrelated_insert _ 0)|].
    eapply unrelated_trans; [by apply (unrelated_insert _ 0)|]. by apply unrelated_delete.
Qed.

Lemma wp_removeRoot st m r held node B keepRoot (E : string -> Prop) :
  shows st m r ((node, d) :: held) -> foreign held -> dir_at d m ((0, []) :: B) ->
  wp (removeRoot directory node keepRoot) st
    (fun b st' => b = true /\ exists m', shows st' m' r held /\
       dir_at d m' (tidy keepRoot [(0, [])] B) /\ unrelated d m m') E.
Proof.
  intros Hst Hf Hd. destruct (dir_at_page d m [] 0 [] B Hd) as (_ & s & Hs & He).
  change (pkey d 0) with d in Hs. cbn [last_num list.last app] in He.
  unfold removeRoot. apply wp_bind. eapply wp_load; [done|by left|done|].
  rewrite (pe_prev _ _ _ _ _ _ He), (pe_next _ _ _ _ _ _ He).
  assert (forall st' m', shows st' m' r ((node, d) :: held) -> shows st' m' r held) as Hless by (intros; eapply shows_sub; [|done]; set_solver).
  destruct B as [|[b kb] B].
  { cbn [head_num last_num list.last N.eqb negb andb]. apply wp_bind, wp_ret.
    destruct keepRoot; [apply wp_ret; split; [done|]; exists m; by split_and!; [apply Hless|..]|].
    apply wp_bind. eapply wp_erase_root; [done..|]. intros st1 m1 ? ? ?. apply wp_ret. split; [done|]. by exists m1. }
  destruct (root_links _ _ _ _ _ Hd) as (Hb0 & Hb & Hl0 & Hlast).
  rewrite last_num_cons. cbn [head_num fst]. rewrite (proj2 (N.eqb_neq b 0)), (proj2 (N.eqb_neq _ 0) Hl0) by done. cbn [negb andb]. apply wp_bind.
  assert (forall st' : Heap * W, shows st' m r ((node, d) :: held) -> tidy keepRoot [(0, [])] ((b, kb) :: B) = (0, []) :: (b, kb) :: B ->
    wp (if keepRoot then mret true else if (b =? 0) && (last_num B b =? 0) then _ ← erase node; mret true else mret true)
      st' (fun b0 st' => b0 = true /\ exists m', shows st' m' r held /\
       dir_at d m' (tidy keepRoot [(0, [])] ((b, kb) :: B)) /\ unrelated d m m') E) as Hkeep.
  { intros st' Hst' Et. rewrite (proj2 (N.eqb_neq b 0)) by done. rewrite Et.
    destruct keepRoot; apply wp_ret; (split; [done|]); exists m; by split_and!; [apply Hless|..]. }
  destruct (decide (B = [])) as [->|HB].
  2:{ rewrite (proj2 (N.eqb_neq b _)) by (by apply Hlast). apply wp_ret, Hkeep; [done|]. unfold tidy. cbn [app]. by destruct kb, B. }
  change (last_num [] b) with b in *. rewrite N.eqb_refl. cbn [negb andb].
  destruct (dir_at_page d m [(0, [])] b kb [] Hd) as (_ & sb & Hsb & Heb).
  apply wp_bind. eapply wp_peek_page; [exact Hst|done..|]. intros p st1 Hst1.
  apply wp_bind. eapply wp_load; [done|by left|done|]. rewrite (pe_indexes _ _ _ _ _ _ Heb).
  destruct kb as [|k kb]; [|apply wp_ret, Hkeep; [eapply shows_sub; [|done]; set_solver|done]].
  eapply wp_drop_second; [done..|]. intros st2 m2 Hst2 Hd2 Hu2. apply wp_ret.
  destruct keepRoot; [apply wp_ret; split; [done|]; exists m2; by split_and!; [apply Hless|..]|].
  cbn [N.eqb andb]. apply wp_bind. eapply wp_erase_root; [exact Hst2|exact Hf|exact Hd2|]. intros st3 m3 ? ? ?. apply wp_ret. split; [done|].
  exists m3. split_and!; [done..|]. by eapply unrelated_trans.
Qed.
Lemma head_num_zero m P B n :
  dir_at d m (P ++ B) -> P <> [] -> n ∈ B.*1 -> n <> 0.
Proof.
  intros Hd HP Hin ->. destruct (dir_at_root _ _ Hd) as (k0 & R & s0 & E0 & [_ [_ Ho]] & _);
    [by destruct P|].
  destruct P as [|[z kz] P]; [done|]. injection E0 as _ _ <-. apply Ho.
  rewrite fmap_app. apply elem_of_app; by right.
Qed.

Lemma wp_finish st m r held prev A a ka B keepRoot (E : string -> Prop) :
  shows st m r ((prev, pkey d a) :: held) -> foreign held ->
  dir_at d m (A ++ (a, ka) :: B) ->
  wp (if negb keepRoot && (head_num B 0 =? 0) && (a =? 0) then
        s ← load prev;
        if bool_decide (getFieldV256 "Indexes" s = []) then _ ← erase prev; mret true
        else mret true
      else mret true) st
    (fun b st' => b = true /\ exists m', shows st' m' r held /\
       dir_at d m' (prune keepRoot (A ++ (a, ka) :: B)) /\ unrelated d m m') E.
Proof.
  intros Hst Hf Hd. destruct (dir_at_page _ _ _ _ _ _ Hd) as (Ho & s & Hs & He).
  assert (shows st m r held) as Hst0 by (eapply shows_sub; [|done]; set_solver).
  assert (prune keepRoot (A ++ (a, ka) :: B) = A ++ (a, ka) :: B ->
    wp (mret true) st (fun b st' => b = true /\ exists m', shows st' m' r held /\
       dir_at d m' (prune keepRoot (A ++ (a, ka) :: B)) /\ unrelated d m m') E) as Hkeep.
  { intros E1. rewrite E1. apply wp_ret. split; [done|].
    exists m. by split_and!. }
  destruct (negb keepRoot && (head_num B 0 =? 0) && (a =? 0)) eqn:Ec.
  - apply andb_prop in Ec as [[Hkr Hb]%andb_prop Ha]. apply N.eqb_eq in Ha, Hb. subst a.
    assert (A = []) as ->.
    { destruct A as [|[z kz] A]; [done|].
      destruct (head_num_zero m ((z, kz) :: A) ((0, ka) :: B) 0); [done..|by left|done]. }
    assert (B = []) as ->.
    { destruct B as [|[b kb] B]; [done|]. cbn in Hb. subst b.
      destruct (head_num_zero m [(0, ka)] ((0, kb) :: B) 0); [done..|by left|done]. }
    destruct keepRoot; [done|].
    apply wp_bind. eapply wp_load; [exact Hst|by left|done|]. rewrite (pe_indexes _ _ _ _ _ _ He).
    case_bool_decide as Hk.
    + subst ka. apply wp_bind. eapply (wp_erase_page prev 0 _ _ _ _ held); [exact Hst|by left|set_solver|..].
      { intros q k Hq. by apply (Hf q k 0). }
      intros st1 Hst1. apply wp_ret. split; [done|]. exists (delete d m).
      split_and!; [done|by eapply dir_at_delete_root|by apply (unrelated_delete _ 0)].
    + apply Hkeep. by destruct ka.
  - apply Hkeep. destruct A as [|[? [|]] [|]]; [|done..].
    destruct ka; [|done]. destruct B; [|done]. cbn in Ec.
    assert (a = 0) as ->. { by apply (da_root _ _ _ Hd). }
    by destruct keepRoot.
Qed.
(** A page keeps its type and key when another page's link changes. *)
Lemma entry_after_next m a sp ka na pa x j sj kj nj pj :
  m !! pkey d a = Some sp -> page_entry d sp a ka na pa ->
  m !! pkey d j = Some sj -> page_entry d sj j kj nj pj ->
  exists s' k' n' p', <[pkey d a := setNext x sp]> m !! pkey d j = Some s' /\
    page_entry d s' j k' n' p'.
Proof.
  intros Ha Hea Hj Hej. destruct (decide (pkey d a = pkey d j)) as [Eq|Hne].
  - rewrite Eq, lookup_insert_eq. exists (setNext x sp), ka, x, pa. split; [done|].
    apply page_entry_next with (x := x) in Hea. destruct Hea as [? Hk ? ? ? ?].
    split; try done. by rewrite Hk.
  - rewrite lookup_insert_ne by done. by exists sj, kj, nj, pj.
Qed.

(** The page the forward link leads to: the next one, or the root. *)
Lemma dir_at_next m P B :
  dir_at d m (P ++ B) -> P <> [] ->
  head_num B 0 < 2 ^ 64 /\ exists s ks nx pv, m !! pkey d (head_num B 0) = Some s /\
    page_entry d s (head_num B 0) ks nx pv /\
    (forall b kb B', B = (b, kb) :: B' -> ks = kb /\ nx = head_num B' 0).
Proof.
  intros Hd HP. destruct B as [|[b kb] B]; cbn [head_num].
  - rewrite app_nil_r in Hd. destruct (dir_at_root _ _ Hd HP) as (ks & R & s & _ & _ & Hs & He).
    split; [done|]. eexists _, _, _, _. split_and!; [done|done|]. by intros.
  - destruct (dir_at_page _ _ _ _ _ _ Hd) as ((Hb & _) & s & Hs & He). split; [done|].
    eexists _, _, _, _. split_and!; [done|done|]. intros ? ? ? [= -> -> ->]. done.
Qed.

Lemma wp_dropEmptyLast st m r held prev next A a ka B (E : string -> Prop) n Q :
  shows st m r ((next, pkey d (head_num B 0)) :: (prev, pkey d a) :: held) -> foreign held ->
  dir_at d m ((A ++ [(a, ka)]) ++ B) -> m !! pkey d (head_num B 0) = Some n ->
  (forall st' m', let B' := match B with [(_, [])] => [] | _ => B end in
     shows st' m' r ((prev, pkey d a) :: held) -> dir_at d m' ((A ++ [(a, ka)]) ++ B') ->
     unrelated d m m' -> Q (head_num B' 0) st') ->
  wp (if negb (head_num B 0 =? 0) && (getFieldU "IndexNext" n =? 0) &&
         bool_decide (getFieldV256 "Indexes" n = []) then
        _ ← erase next;
        _ ← modify prev (setNext 0);
        _ ← update prev;
        o ← peek (keylet_page d 0);
        match o with
        | None => throw "Directory chain: root link broken."
        | Some root =>
            _ ← modify root (setPrevious a);
            _ ← update root;
            mret 0
        end
      else mret (head_num B 0)) st Q E.
Proof.
  intros Hst Hf Hd Hn HQ. assert (A ++ [(a, ka)] <> []) as HP by (by destruct A).
  destruct (dir_at_next _ _ _ Hd HP) as (_ & s & ks & nx & pv & Hs & He & Hks).
  assert (s = n) as -> by congruence.
  rewrite (pe_next _ _ _ _ _ _ He), (pe_indexes _ _ _ _ _ _ He).
  assert (match B with [(_, [])] => [] | _ => B end = B -> Q (head_num B 0) st) as Hkeep.
  { intros E1. rewrite E1 in HQ. apply (HQ st m); [|done|done].
    eapply shows_sub; [|done]. set_solver. }
  destruct B as [|[b kb] B]; [by apply Hkeep|]. destruct (Hks _ _ _ eq_refl) as [-> ->].
  cbn [head_num] in *.
  assert (b <> 0) as Hb0 by (eapply head_num_zero; [done|done|by left]).
  rewrite (proj2 (N.eqb_neq b 0)) by done. cbn [negb andb].
  destruct B as [|[b' kb'] B].
  2:{ assert (b' <> 0) as Hb' by (eapply head_num_zero; [done|done|right; by left]).
      cbn [head_num]. rewrite (proj2 (N.eqb_neq b' 0)) by done. cbn [andb]. apply Hkeep.
      by destruct kb. }
  cbn [head_num N.eqb andb]. case_bool_decide as Hkb; [subst kb|apply Hkeep; by destruct kb].
  destruct (dir_at_page _ _ _ _ _ _ Hd) as ([Hb _] & _).
  assert (dir_at d m (A ++ (a, ka) :: [(b, [])])) as Hd' by (by rewrite <-app_assoc in Hd).
  destruct (dir_at_page _ _ _ _ _ _ Hd') as ([Hab Ho] & sp & Hsp & Hep).
  assert (pkey d b <> pkey d a) as Hba.
  { intros Eq. apply page_key_inj in Eq; [|done..]. subst. apply (proj2 Ho). set_solver. }
  apply wp_bind. apply (wp_erase_page next b _ _ _ _ ((prev, pkey d a) :: held)) with (1 := Hst);
    [by left|set_solver| |].
  { intros q k [[= -> ->]|Hq]%elem_of_cons; [congruence|by apply (Hf q k b)]. }
  intros st1 Hst1.
  apply wp_bind. eapply wp_modify; [done|by left|rewrite lookup_delete_ne by done; exact Hsp|done..|].
  intros st2 Hst2. apply wp_bind. eapply wp_update; [done|by left|]. intros st3 Hst3.
  destruct (dir_at_root _ _ Hd) as (k0 & R & s0 & E0 & _ & Hs0 & He0); [by destruct A|].
  assert (pkey d b <> d) as Hkb.
  { intros Hz. apply (page_key_inj b 0) in Hz; done. }
  destruct (entry_after_next (delete (pkey d b) m) a sp ka b (last_num A b) 0 0 s0 k0
              (head_num R 0) (last_num ((A ++ [(a, ka)]) ++ [(b, [])]) 0))
    as (s1 & k1 & n1 & p1 & Hs1 & He1).
  { by rewrite lookup_delete_ne. }
  { done. }
  { change (pkey d 0) with d. by rewrite lookup_delete_ne. }
  { done. }
  apply wp_bind. eapply wp_peek_page; [done..|]. intros root st4 Hst4.
  apply wp_bind. eapply wp_modify; [done|by left|done..|]. intros st5 Hst5.
  apply wp_bind. eapply wp_update; [done|by left|]. intros st6 Hst6. apply wp_ret.
  eapply (HQ st6); [eapply shows_sub; [|done]; set_solver|..].
  - rewrite app_nil_r. change (pkey d 0) with d in *.
    apply (dir_at_drop_end m _ A a ka b []); [done|done|by rewrite lookup_delete_ne|done].
  - apply (unrelated_trans _ (delete (pkey d b) m)); [by apply unrelated_delete|].
    eapply unrelated_trans; [by apply (unrelated_insert _ a)|]. by apply (unrelated_insert _ 0).
Qed.
Lemma wp_mono {X : Type} (c : Tx W X) st (Q Q' : X -> Heap * W -> Prop) (E : string -> Prop) :
  (forall a st', Q a st' -> Q' a st') -> wp c st Q E -> wp c st Q' E.
Proof. unfold wp. intros HQ. destruct (c st) as [[a st']|e]; [apply HQ|done]. Qed.

Lemma wp_removePage st m r held node A n B keepRoot (E : string -> Prop) :
  shows st m r ((node, pkey d n) :: held) -> foreign held -> dir_at d m (A ++ (n, []) :: B) ->
  A <> [] ->
  wp (removePage directory n node keepRoot) st
    (fun b st' => b = true /\ exists m', shows st' m' r held /\
       dir_at d m' (tidy keepRoot A B) /\ unrelated d m m') E.
Proof.
  intros Hst Hf Hd HA. destruct A as [|[a ka] A _] using rev_ind; [done|]. clear HA.
  destruct (dir_at_page _ _ _ _ _ _ Hd) as (Ho & s & Hs & He).
  rewrite last_num_snoc in He. apply other_app in Ho as [HoA HoB].
  assert (dir_at d m (A ++ (a, ka) :: (n, []) :: B)) as Hd' by (by rewrite <-app_assoc in Hd).
  destruct (dir_at_page _ _ _ _ _ _ Hd') as (Hoa & sp & Hsp & Hep).
  assert (a < 2 ^ 64) as Ha by apply Hoa. assert (n < 2 ^ 64) as Hn by apply HoB.
  assert (n <> 0) as Hn0 by (eapply (head_num_zero m (A ++ [(a, ka)])); [done|by destruct A|by left]).
  assert (a <> n) as Hna.
  { apply other_app in Hoa as [_ Hoa]. by apply other_cons in Hoa as [? _]. }
  assert (head_num B 0 <> n) as Hnx.
  { destruct B as [|[b kb] B]; [done|]. apply other_cons in HoB as [? _]. cbn. done. }
  assert (dir_at d m ((A ++ [(a, ka)] ++ [(n, [])]) ++ B)) as Hd2 by (by rewrite <-!app_assoc).
  destruct (dir_at_next _ _ _ Hd2) as (Hnb & sx & kx & nx & px & Hsx & Hex & _); [by destruct A|].
  edestruct (entry_after_next m a sp ka) with (x := head_num B 0) (1 := Hsp) (2 := Hep) (3 := Hsx)
    (4 := Hex) as (s1 & k1 & n1 & p1 & Hs1 & He1).
  unfold removePage. apply wp_bind. eapply wp_load; [done|by left|done|].
  rewrite (pe_prev _ _ _ _ _ _ He), (pe_next _ _ _ _ _ _ He). cbn [kl_key].
  rewrite (proj2 (N.eqb_neq _ n) Hnx), (proj2 (N.eqb_neq a n) Hna).
  apply wp_bind. eapply wp_peek_page; [done..|]. intros prev st1 Hst1.
  apply wp_bind. eapply wp_modify; [done|by left|done..|]. intros st2 Hst2.
  apply wp_bind. eapply wp_update; [done|by left|]. intros st3 Hst3.
  apply wp_bind. eapply wp_peek_page; [done..|]. intros next st4 Hst4.
  apply wp_bind. eapply wp_modify; [done|by left|done..|]. intros st5 Hst5.
  apply wp_bind. eapply wp_update; [done|by left|]. intros st6 Hst6.
  apply wp_bind.
  apply (wp_erase_page node n _ _ _ _
           ((next, pkey d (head_num B 0)) :: (prev, pkey d a) :: held)) with (1 := Hst6);
    [set_solver|set_solver| |].
  { intros q k [[= -> ->]|[[= -> ->]|Hq]%elem_of_cons]%elem_of_cons; [..|by apply (Hf q k n)];
      intros Eq; apply page_key_inj in Eq; done. }
  intros st7 Hst7.
  pose proof (dir_at_unlink m (A ++ [(a, ka)]) A a ka n [] B sp s1 eq_refl Hd Hsp Hs1) as Hd7.
  set (m7 := delete (pkey d n) _) in *.
  assert (unrelated d m m7) as Hu7.
  { eapply unrelated_trans; [by apply (unrelated_insert _ a)|].
    eapply unrelated_trans; [by apply (unrelated_insert _ (head_num B 0))|].
    by apply (unrelated_delete _ n). }
  destruct (dir_at_next _ _ _ Hd7) as (_ & sn & _ & _ & _ & Hsn & _ & _); [by destruct A|].
  apply wp_bind. eapply wp_load; [done|by left|done|].
  apply wp_bind. eapply wp_dropEmptyLast; [done..|].
  intros st8 m8 B' Hst8 Hd8 Hu8. rewrite <-app_assoc in Hd8.
  eapply wp_mono; [|by eapply (wp_finish st8 m8)].
  intros b st9 [-> (m9 & Hst9 & Hd9 & Hu9)]. split; [done|]. exists m9. split_and!; [done|..].
  - unfold tidy. rewrite <-app_assoc. exact Hd9.
  - eapply unrelated_trans; [done|]. by eapply unrelated_trans.
Qed.

(** What [dirRemove] does to the pages. *)
Definition remove_pages (keepRoot : bool) (A : Pages) n (ks : list N) (B : Pages) key : Pages :=
  match erase_first key ks with
  | [] => tidy keepRoot (if n =? 0 then [(0, [])] else A) B
  | ks' => A ++ (n, ks') :: B
  end.

Lemma dirRemove_spec st m r held A n ks B key keepRoot (E : string -> Prop) :
  shows st m r held -> foreign held -> dir_at d m (A ++ (n, ks) :: B) -> key ∈ ks ->
  wp (dirRemove directory n key keepRoot) st
    (fun b st' => b = true /\ exists m', shows st' m' r held /\
       dir_at d m' (remove_pages keepRoot A n ks B key) /\ unrelated d m m') E.
Proof.
  intros Hst Hf Hd Hin. destruct (dir_at_page _ _ _ _ _ _ Hd) as ((Hn & _) & s & Hs & He).
  unfold dirRemove. cbn [kl_key]. apply wp_bind. eapply wp_peek_page; [done..|].
  intros node st1 Hst1. apply wp_bind. eapply wp_load; [done|by left|done|].
  rewrite (pe_indexes _ _ _ _ _ _ He). rewrite bool_decide_true by done. cbn [negb].
  apply wp_bind. eapply wp_modify; [done|by left|done..|]. intros st2 Hst2.
  apply wp_bind. eapply wp_update; [done|by left|]. intros st3 Hst3.
  pose proof (dir_at_set_keys m A n ks B s (erase_first key ks) Hd Hs) as Hd3.
  pose proof (unrelated_insert m n (setIndexes (erase_first key ks) s) Hn) as Hu3.
  unfold remove_pages. destruct (erase_first key ks) as [|k ks'].
  2:{ apply wp_ret. split; [done|]. eexists. split_and!; [|done|done].
      eapply shows_sub; [|done]. set_solver. }
  assert (forall b (st' : Heap * W) P, (b = true /\ exists m', shows st' m' r held /\ dir_at d m' P /\
      unrelated d (<[pkey d n := setIndexes [] s]> m) m') ->
    b = true /\ exists m', shows st' m' r held /\ dir_at d m' P /\ unrelated d m m') as Hw.
  { intros b st' P [-> (m' & ? & ? & ?)]. split; [done|]. exists m'. split_and!; [done|done|].
    by eapply unrelated_trans. }
  destruct (N.eqb_spec n 0) as [->|Hn0].
  - assert (A = []) as ->.
    { destruct A as [|x A]; [done|].
      destruct (head_num_zero m (x :: A) ((0, ks) :: B) 0); [done..|by left|done]. }
    eapply wp_mono; [intros b st'; apply Hw|]. by eapply wp_removeRoot.
  - eapply wp_mono; [intros b st'; apply Hw|]. eapply wp_removePage; [done..|].
    intros ->. apply Hn0. by apply (da_root _ _ _ Hd).
Qed.

(** A key that is not on the page, or a page that does not exist. *)
Lemma dirRemove_miss st m r held pages n key keepRoot (E : string -> Prop) :
  shows st m r held -> dir_at d m pages -> n < 2 ^ 64 ->
  (forall A ks B, pages = A ++ (n, ks) :: B -> key ∉ ks) ->
  wp (dirRemove directory n key keepRoot) st (fun b st' => b = false /\ shows st' m r held) E.
Proof.
  intros Hst Hd Hn Hmiss. unfold dirRemove. cbn [kl_key]. apply wp_bind.
  destruct (decide (n ∈ pages.*1)) as [Hin|Hnot].
  - apply list_elem_of_fmap in Hin as ([n' ks] & -> & Hin).
    apply list_elem_of_split in Hin as (A & B & ->). cbn [fst] in *.
    destruct (dir_at_page _ _ _ _ _ _ Hd) as (_ & s & Hs & He).
    eapply wp_peek_page; [done..|]. intros node st1 Hst1.
    apply wp_bind. eapply wp_load; [done|by left|done|].
    rewrite (pe_indexes _ _ _ _ _ _ He). rewrite bool_decide_false by (by eapply Hmiss).
    apply wp_ret. split; [done|]. eapply shows_sub; [|done]. set_solver.
  - eapply wp_peek_absent; [done|done|by apply (da_absent _ _ _ Hd)|].
    intros st' Hst'. by apply wp_ret.
Qed.
(** *** Removing a whole directory *)

(** The next page of a run is not the root. *)
Lemma sorted_next n ks B :
  StronglySorted N.lt ((n, ks) :: B).*1 -> Forall (fun j => j < 2 ^ 64) ((n, ks) :: B).*1 ->
  other n B /\ (B <> [] -> head_num B 0 <> 0).
Proof.
  rewrite fmap_cons. intros Hs Hb. inversion Hs as [|? ? _ Hlt]; inversion Hb; subst. split.
  - split_and!; [done..|]. rewrite Forall_forall in Hlt. intros Hin. apply Hlt in Hin. cbn in Hin. lia.
  - destruct B as [|[b kb] B]; [done|]. intros _. cbn. inversion Hlt; subst. cbn in *. lia.
Qed.

(** The last page has no [IndexNext] field at all. *)
Definition unmarked_end m pages : Prop :=
  forall n ks s, list.last pages = Some (n, ks) -> m !! pkey d n = Some s ->
    optionalU "IndexNext" s = None.

Lemma wp_delete_loop S fuel pi called prev st m r held (E : string -> Prop) :
  shows st m r held -> foreign held -> S <> [] -> (length S < fuel)%nat ->
  default 0 pi = head_num S 0 ->
  StronglySorted N.lt S.*1 -> Forall (fun j => j < 2 ^ 64) S.*1 -> linked d m prev S 0 ->
  (forall n, n < 2 ^ 64 -> n ∉ S.*1 -> m !! pkey d n = None) ->
  wp (delete_loop fuel directory pi called) st
    (fun b st' => b.2 = called ++ dir_keys S /\ (b.1 = true <-> unmarked_end m S) /\
       exists m', shows st' m' r held /\ dir_at d m' [] /\ unrelated d m m') E.
Proof.
  revert fuel pi called prev st m.
  induction S as [|[n ks] S IH]; intros fuel pi called prev st m Hst Hf HS Hfuel Hpi Hsrt Hb Hl Ha;
    [done|].
  destruct fuel as [|fuel]; [cbn in Hfuel; lia|]. destruct Hl as [(s & Hs & He) Hl].
  destruct (sorted_next _ _ _ Hsrt Hb) as [Ho Hnz]. rewrite fmap_cons in Hsrt, Hb.
  inversion Hsrt as [|? ? Hsrt' _]; inversion Hb as [|? ? Hn Hb']; subst. cbn [fst] in *.
  cbn [delete_loop kl_key]. rewrite Hpi. cbn [head_num].
  apply wp_bind. eapply wp_peek_page; [done..|]. intros page st1 Hst1.
  apply wp_bind. eapply wp_load; [done|by left|done|].
  rewrite (pe_indexes _ _ _ _ _ _ He). apply wp_bind.
  apply (wp_erase_page page n _ _ _ _ held) with (1 := Hst1); [by left|set_solver| |].
  { intros q k Hq. by apply (Hf q k n). }
  intros st2 Hst2.
  assert (forall n', n' < 2 ^ 64 -> n' ∉ S.*1 -> delete (pkey d n) m !! pkey d n' = None) as Ha2.
  { intros n' Hn' Hnot. destruct (decide (n' = n)) as [->|Hne]; [by rewrite lookup_delete_eq|].
    apply absent_delete with (ns := n :: S.*1); [done|done|]. set_solver. }
  pose proof (unrelated_delete m n Hn) as Hu2.
  pose proof (pe_next _ _ _ _ _ _ He) as Hnext. unfold getFieldU in Hnext.
  unfold optionalU. destruct S as [|[b kb] S].
  - assert (dir_at d (delete (pkey d n) m) []) as Hd2.
    { split; [done|constructor|constructor|done|done]. }
    assert (forall o, o = optionalU "IndexNext" s -> (o = None <-> unmarked_end m [(n, ks)])) as Hend.
    { intros o ->. unfold unmarked_end. split; [|intros Hx; by eapply Hx].
      intros Ho' n1 ks1 s1 [= <- <-] Hs1. by replace s1 with s by congruence. }
    unfold optionalU in Hend. cbn [head_num] in Hnext.
    rewrite dir_keys_cons. cbn [dir_keys mbind list_bind]. rewrite app_nil_r.
    destruct (sle_fields s !! "IndexNext"%string) as [[u| | | | | |]|];
      try (apply wp_ret; cbn; split_and!; [done|by rewrite <-Hend|by eexists; split_and!]).
    subst u. destruct fuel as [|fuel]; [cbn in Hfuel; lia|].
    cbn [delete_loop default kl_key]. apply wp_bind.
    eapply wp_peek_absent; [done|done|by apply Ha2; [|set_solver]|].
    intros st3 Hst3. apply wp_ret. cbn. split_and!; [done| |by eexists; split_and!].
    rewrite <-Hend by done. naive_solver.
  - specialize (Hnz ltac:(done)). cbn [head_num] in *.
    destruct (sle_fields s !! "IndexNext"%string) as [[u| | | | | |]|]; try congruence. subst u.
    eapply wp_mono; [|eapply (IH fuel (Some b) (called ++ ks) n st2 (delete (pkey d n) m));
      [done|done|done|cbn in *; lia|done|done|done|by apply linked_delete|done]].
    intros [b1 l1] st3 (Hl1 & Hb1 & m3 & Hst3 & Hd3 & Hu3). cbn [fst snd] in *.
    rewrite Hl1, (dir_keys_cons n), app_assoc. split_and!; [done| |].
    + rewrite Hb1. unfold unmarked_end. rewrite last_cons_cons. split; intros Hx n1 ks1 s1 Hlast Hs1.
      * apply (Hx n1 ks1 s1); [done|]. rewrite lookup_delete_ne; [done|].
        eapply other_key; [done|exact Ho|].
        apply last_Some_elem_of in Hlast. by apply (list_elem_of_fmap_2 fst) in Hlast.
      * apply (Hx n1 ks1 s1); [done|]. rewrite lookup_delete_ne in Hs1; [done|].
        eapply other_key; [done|exact Ho|].
        apply last_Some_elem_of in Hlast. by apply (list_elem_of_fmap_2 fst) in Hlast.
    + exists m3. split_and!; [done|done|]. by eapply unrelated_trans.
Qed.

Lemma dirDelete_spec fuel st m r held pages (E : string -> Prop) :
  shows st m r held -> foreign held -> dir_at d m pages -> (length pages < fuel)%nat ->
  wp (dirDelete fuel directory) st
    (fun b st' => b.2 = dir_keys pages /\
       (b.1 = true <-> pages <> [] /\ unmarked_end m pages) /\
       exists m', shows st' m' r held /\ dir_at d m' [] /\ unrelated d m m') E.
Proof.
  intros Hst Hf Hd Hfuel. unfold dirDelete. destruct (decide (pages = [])) as [->|Hne].
  - destruct fuel as [|fuel]; [cbn in Hfuel; lia|]. cbn [delete_loop default kl_key]. apply wp_bind.
    eapply wp_peek_absent; [done|done|..].
    { apply (da_absent _ _ _ Hd); [done|]. by intros ?%elem_of_nil. }
    intros st1 Hst1. apply wp_ret. cbn. split_and!; [done|naive_solver|]. by exists m.
  - pose proof Hd as [Hr Hs Hb Hl Ha].
    eapply wp_mono; [|eapply (wp_delete_loop pages fuel None []);
      [done|done|done|done| |done..]].
    + intros [b l] st1 (? & Hb1 & ?). cbn [fst snd] in *. split_and!; [done| |done].
      rewrite Hb1. naive_solver.
    + destruct (dir_at_root _ _ Hd Hne) as (ks & B & _ & -> & _). done.
Qed.
(** What [emptyDirDelete] returns and does to the pages. *)
Definition empty_delete pages : bool * Pages :=
  match pages with
  | [(_, [])] | [(_, []); (_, [])] => (true, [])
  | (_, []) :: _ :: _ :: _ => (true, pages)
  | _ => (false, pages)
  end.

Lemma emptyDirDelete_spec st m r held pages (E : string -> Prop) :
  shows st m r held -> foreign held -> dir_at d m pages ->
  wp (emptyDirDelete directory) st
    (fun b st' => b = (empty_delete pages).1 /\ exists m', shows st' m' r held /\
       dir_at d m' (empty_delete pages).2 /\ unrelated d m m') E.
Proof.
  intros Hst Hf Hd. unfold emptyDirDelete. apply wp_bind.
  change directory with (keylet_page d 0) at 1. cbn [kl_key kl_type].
  destruct (decide (pages = [])) as [->|Hne].
  { eapply wp_peek_absent; [done|done|..].
    { apply (da_absent _ _ _ Hd); [done|]. by intros ?%elem_of_nil. }
    intros st1 Hst1. apply wp_ret. split; [done|]. by exists m. }
  destruct (dir_at_root _ _ Hd Hne) as (ks & B & s & -> & Ho & Hs & He).
  eapply wp_peek_page; [done..|]. intros node st1 Hst1. change (pkey d 0) with d in Hst1.
  assert (shows st1 m r held) as Hst0 by (eapply shows_sub; [|done]; set_solver).
  apply wp_bind. eapply wp_load; [exact Hst1|by left|done|].
  rewrite (pe_root _ _ _ _ _ _ He), (pe_indexes _ _ _ _ _ _ He), !N.eqb_refl. cbn [negb orb].
  destruct ks as [|k ks]; [|apply wp_ret; split; [by destruct B as [|[]]|]; exists m;
    split_and!; [done|by destruct B as [|[? []] []]|done]].
  rewrite (pe_prev _ _ _ _ _ _ He), (pe_next _ _ _ _ _ _ He).
  destruct B as [|[b kb] B].
  { cbn [head_num last_num list.last N.eqb negb andb]. apply wp_bind. eapply wp_erase_root; [done..|].
    intros st2 m2 ? ? ?. apply wp_ret. split; [done|]. by exists m2. }
  destruct (root_links _ _ _ _ _ Hd) as (Hb0 & Hb & Hl0 & Hlast).
  rewrite !last_num_cons. cbn [head_num fst]. rewrite (proj2 (N.eqb_neq b 0)), (proj2 (N.eqb_neq _ 0) Hl0) by done. cbn [negb andb].
  destruct (decide (B = [])) as [->|HB].
  2:{ rewrite (proj2 (N.eqb_neq b _)) by (by apply Hlast). cbn [andb]. apply wp_ret. destruct B; [done|].
      cbn. destruct kb; (split; [done|]); exists m; by split_and!. }
  change (last_num [] b) with b in *. rewrite N.eqb_refl. cbn [negb andb].
  destruct (dir_at_page d m [(0, [])] b kb [] Hd) as (_ & sb & Hsb & Heb).
  apply wp_bind. eapply wp_peek_page; [exact Hst1|done..|]. intros p st2 Hst2.
  apply wp_bind. eapply wp_load; [done|by left|done|]. rewrite (pe_indexes _ _ _ _ _ _ Heb).
  destruct kb as [|k kb].
  2:{ apply wp_ret. split; [done|]. exists m. split_and!; [|done|done]. eapply shows_sub; [|done]. set_solver. }
  eapply wp_drop_second; [done..|]. intros st3 m3 Hst3 Hd3 Hu3. apply wp_bind. eapply wp_erase_root; [done..|].
  intros st4 m4 ? ? ?. apply wp_ret. split; [done|]. exists m4. split_and!; [done..|]. by eapply unrelated_trans.
Qed.
End operations.
