(* ===== verification/DirectoryReads.v ===== *)
(** * Traversing directories

    Every traversal of Directory.v visits the keys of the pages in order;
    [forEachItemAfter] visits a window of them. *)

From S2P Require Import Prelude LedgerEntry Views Serializer LedgerHeader SHAMapHash Ledger StackedViews ApplyView Directory DirectorySpec.
Open Scope N_scope.

Section reads.
Context `{Digest} (d : N) `{!PageKeys d} {V : Type} `{ReadViewLaws V}.
Context (h : Heap) (v : V) (Hwf : rv_wf h v).
Implicit Types (pages A B S : Pages) (ks : list N).

Abbreviation m := (rv_map h v).
Abbreviation directory := (mkKeylet ltDIR_NODE d).

(** A run of pages up to the end of a directory. *)
Record tail_of (prev : N) S : Prop := {
  to_sorted : StronglySorted N.lt S.*1;
  to_bound : Forall (fun j => j < 2 ^ 64) S.*1;
  to_linked : linked d m prev S 0
}.

Lemma read_page n s ks next prev :
  n < 2 ^ 64 -> m !! pkey d n = Some s -> page_entry d s n ks next prev ->
  rv_read h v (keylet_page d n) = Some s.
Proof.
  intros Hn Hs He. rewrite rv_read_spec; [|done|by apply page_key_ok].
  by eapply map_read_page.
Qed.

Lemma read_absent pages n :
  dir_at d m pages -> n < 2 ^ 64 -> n ∉ pages.*1 -> rv_read h v (keylet_page d n) = None.
Proof.
  intros Hd Hn Hnot. rewrite rv_read_spec; [|done|by apply page_key_ok].
  unfold map_read. by rewrite (da_absent _ _ _ Hd).
Qed.

Lemma tail_of_cons prev n ks S :
  tail_of prev ((n, ks) :: S) ->
  n < 2 ^ 64 /\ tail_of n S /\ (S <> [] -> head_num S 0 <> 0) /\
  exists s, rv_read h v (keylet_page d n) = Some s /\ page_entry d s n ks (head_num S 0) prev.
Proof.
  intros [Hs Hb [(s & Hm & He) Hl]]. destruct (sorted_next _ _ _ Hs Hb) as [_ Hz].
  rewrite fmap_cons in *. inversion Hs; inversion Hb; subst. split_and!; [done|by split|done|].
  exists s. split; [|done]. by eapply read_page.
Qed.

Lemma dir_at_tail A B :
  dir_at d m (A ++ B) -> tail_of (last_num A (last_num (A ++ B) 0)) B.
Proof.
  intros [_ Hs Hb Hl _]. rewrite fmap_app in *. apply StronglySorted_app in Hs as (_ & _ & Hs).
  apply Forall_app in Hb as [_ Hb]. apply linked_app in Hl as [_ Hl]. by split.
Qed.

(** *** [forEachItem] *)
Lemma each_loop_spec S prev fuel :
  tail_of prev S -> S <> [] -> (length S <= fuel)%nat ->
  each_loop fuel h v directory (keylet_page d (head_num S 0)) = Ok (dir_keys S).
Proof.
  revert prev fuel; induction S as [|[n ks] S IH]; intros prev fuel Ht Hne Hf; [done|].
  destruct fuel as [|fuel]; [cbn in Hf; lia|].
  apply tail_of_cons in Ht as (Hn & Ht & Hz & s & Hr & He).
  cbn [each_loop head_num]. rewrite Hr, (pe_indexes _ _ _ _ _ _ He), (pe_next _ _ _ _ _ _ He).
  destruct (decide (S = [])) as [->|HS].
  - cbn. by rewrite app_nil_r.
  - rewrite (proj2 (N.eqb_neq _ 0)) by auto. cbn [kl_key].
    by rewrite (IH n fuel) by (cbn in *; done || lia).
Qed.

Lemma forEachItem_spec pages fuel :
  dir_at d m pages -> (length pages < fuel)%nat ->
  forEachItem fuel h v directory = Ok (dir_keys pages).
Proof.
  intros Hd Hf. unfold forEachItem. cbn [kl_type N.eqb negb].
  destruct fuel as [|fuel]; [lia|]. destruct (decide (pages = [])) as [->|Hne].
  - cbn [each_loop]. change (rv_read h v directory) with (rv_read h v (keylet_page d 0)).
    rewrite (read_absent []); [done|done|done|]. by intros ?%elem_of_nil.
  - destruct (dir_at_root d _ _ Hd Hne) as (ks & B & _ & -> & _).
    apply (each_loop_spec _ _ _ (dir_at_tail [] _ Hd)); [done|lia].
Qed.

(** *** [cdirFirst] and [cdirNext] *)

(** What is left to visit from an index of a page. *)
Definition left_at (bound : nat) (page : SLE) (index : nat) (rest : list N) : Prop :=
  exists prev n ks S, tail_of prev ((n, ks) :: S) /\
    rv_read h v (keylet_page d n) = Some page /\ page_entry d page n ks (head_num S 0) prev /\
    (length S < bound)%nat /\ rest = drop index ks ++ dir_keys S.

Lemma internalDirNext_spec fuel bound page index rest :
  left_at bound page index rest -> (bound <= fuel)%nat ->
  match rest with
  | [] => internalDirNext fuel h v d page index = Ok None
  | k :: rest => exists page' index',
      internalDirNext fuel h v d page index = Ok (Some (page', index', k)) /\
      left_at bound page' index' rest
  end.
Proof.
  intros (prev & n & ks & S & Ht & Hr & He & Hlen & ->).
  revert fuel bound page index prev n ks Ht Hr He Hlen.
  induction S as [|[b kb] S IH]; intros fuel bound page index prev n ks Ht Hr He Hlen Hf;
    (destruct fuel as [|fuel]; [lia|]); cbn [internalDirNext];
    rewrite (pe_indexes _ _ _ _ _ _ He), (pe_next _ _ _ _ _ _ He);
    destruct (ks !! index) as [k|] eqn:Hk.
  - rewrite (drop_S _ _ _ Hk). cbn. eexists _, _. split; [done|].
    by exists prev, n, ks, [].
  - rewrite drop_ge by (by apply lookup_ge_None). done.
  - rewrite (drop_S _ _ _ Hk). cbn [app]. eexists _, _. split; [done|].
    by exists prev, n, ks, ((b, kb) :: S).
  - rewrite drop_ge by (by apply lookup_ge_None). cbn [app head_num].
    apply tail_of_cons in Ht as (Hn & Ht & Hz & _). specialize (Hz ltac:(done)).
    cbn [head_num] in Hz. rewrite (proj2 (N.eqb_neq b 0)) by done.
    pose proof Ht as (_ & _ & _ & sb & Hrb & Heb)%tail_of_cons. rewrite Hrb, dir_keys_cons.
    destruct bound as [|bound]; [lia|].
    specialize (IH fuel bound sb 0%nat n b kb Ht Hrb Heb). rewrite drop_0 in IH.
    specialize (IH ltac:(cbn in *; lia) ltac:(lia)).
    destruct (kb ++ dir_keys S) as [|k rest]; [done|].
    destruct IH as (p' & i' & ? & (prev' & n' & ks' & S' & ? & ? & ? & ? & ?)).
    exists p', i'. split; [done|]. exists prev', n', ks', S'. split_and!; try done. lia.
Qed.

Lemma cdir_loop_spec inner bound rest fuel page index k :
  left_at bound page index rest -> (bound <= inner)%nat -> (S (length rest) < fuel)%nat ->
  cdir_loop fuel inner h v d (Some (page, index, k)) = Ok (k :: rest).
Proof.
  revert fuel page index k; induction rest as [|k' rest IH]; intros fuel page index k Hl Hi Hf;
    (destruct fuel as [|fuel]; [lia|]); cbn [cdir_loop];
    pose proof (internalDirNext_spec inner _ _ _ _ Hl Hi) as Hn.
  - rewrite Hn. cbn. destruct fuel; [cbn in Hf; lia|]. done.
  - destruct Hn as (p' & i' & -> & Hl'). cbn [mbind result_bind].
    rewrite IH by (cbn in *; done || lia). done.
Qed.

Lemma cdir_collect_spec pages fuel :
  dir_at d m pages -> (length pages < fuel)%nat -> (S (length (dir_keys pages)) < fuel)%nat ->
  cdir_collect fuel h v d = Ok (dir_keys pages).
Proof.
  intros Hd Hf Hk. unfold cdir_collect, internalDirFirst.
  destruct (decide (pages = [])) as [->|Hne].
  - rewrite (read_absent []); [|done|done|by intros ?%elem_of_nil].
    cbn. destruct fuel; [lia|done].
  - destruct (dir_at_root d _ _ Hd Hne) as (ks & B & _ & -> & _).
    pose proof (dir_at_tail [] _ Hd) as Ht.
    pose proof Ht as (_ & _ & _ & s & Hr & He)%tail_of_cons. rewrite Hr.
    assert (left_at (S (length B)) s 0 (dir_keys ((0, ks) :: B))) as Hl.
    { eexists _, 0, ks, B. split_and!; [done|done|done|lia|done]. }
    pose proof (internalDirNext_spec fuel _ _ _ _ Hl ltac:(cbn in *; lia)) as Hn.
    destruct (dir_keys ((0, ks) :: B)) as [|k rest].
    + rewrite Hn. cbn. destruct fuel; [lia|done].
    + destruct Hn as (p' & i' & -> & Hl'). cbn [mbind result_bind].
      eapply cdir_loop_spec; [done|cbn in *; lia|cbn in *; lia].
Qed.
(** *** The [Dir] iterator *)

(** The iterator stands on a key of a page: [ks'] are the keys after it, [R]
    the pages after its page. *)
Definition on_key (it : DirIterator) (ks' : list N) (R : Pages) : Prop :=
  exists prev n ks s pos, tail_of prev ((n, ks) :: R) /\
    page_entry d s n ks (head_num R 0) prev /\ ks !! pos = Some (it_index it) /\
    it = mkDirIterator (keylet_page d n) (it_index it) (Some s) (Some ks) pos /\
    ks' = drop (S pos) ks.

(** It goes through to the end unless it meets an empty page. *)
Definition all_filled (R : Pages) : bool := forallb (fun p => negb (length p.2 =? 0)%nat) R.
Definition from_key (ks' : list N) (R : Pages) : result (list N) :=
  if all_filled R then Ok (ks' ++ dir_keys R) else Throw "invalid iterator".

Lemma dir_next_spec it ks' R :
  on_key it ks' R -> exists it', dir_next h v directory it = Ok it' /\
  match ks', R with
  | k :: ks', _ => on_key it' ks' R /\ it_index it' = k
  | [], [] => dir_equal it' (dir_end directory) = true
  | [], (b, []) :: _ => b <> 0 /\ b < 2 ^ 64 /\ exists s pos, it' = mkDirIterator (keylet_page d b) 0 (Some s) (Some []) pos
  | [], (b, k :: ks') :: R => on_key it' ks' R /\ it_index it' = k
  end.
Proof.
  intros (prev & n & ks & s & pos & Ht & He & Hk & -> & ->). cbn [it_index] in *.
  destruct ks as [|k0 ks]; [done|]. unfold dir_next. cbn [it_indexes it_pos it_page it_sle].
  destruct ((k0 :: ks) !! S pos) as [k'|] eqn:Hk'.
  - rewrite (drop_S _ _ _ Hk'). eexists. split_and!; [done| |done].
    by exists prev, n, (k0 :: ks), s, (S pos).
  - rewrite drop_ge by (by apply lookup_ge_None). unfold nextPage. cbn [it_sle].
    rewrite (pe_next _ _ _ _ _ _ He). apply tail_of_cons in Ht as (_ & Ht & Hz & _).
    destruct R as [|[b kb] R].
    + cbn. eexists. split; [done|]. unfold dir_equal. cbn. by rewrite N.eqb_refl.
    + specialize (Hz ltac:(done)). rewrite (proj2 (N.eqb_neq _ 0)) by done.
      pose proof Ht as (Hb & _ & _ & sb & Hrb & Heb)%tail_of_cons. cbn [head_num kl_key] in Hz |- *.
      rewrite Hrb, (pe_indexes _ _ _ _ _ _ Heb).
      destruct kb as [|k1 kb]; [eexists; split_and!; [done|done|done|]; by eexists _, _|].
      eexists. split_and!; [done| |done]. by exists n, b, (k1 :: kb), sb, 0%nat.
Qed.

(** On an empty page it is neither at the end nor can it go on. *)
Lemma dir_stuck fuel b s pos : b <> 0 -> b < 2 ^ 64 -> (0 < fuel)%nat ->
  dir_collect fuel h v directory (mkDirIterator (keylet_page d b) 0 (Some s) (Some []) pos) = Throw "invalid iterator".
Proof.
  intros Hb Hb64 Hf. destruct fuel as [|fuel]; [lia|]. cbn [dir_collect]. unfold dir_equal. cbn [it_page dir_end].
  rewrite (proj2 (N.eqb_neq _ _)); [done|]. change (kl_key directory) with (pkey d 0).
  intros E%(page_key_inj b 0); done || lia.
Qed.

Lemma dir_collect_on_key fuel it ks' R :
  on_key it ks' R -> it_index it <> 0 -> Forall (fun k => k <> 0) (ks' ++ dir_keys R) ->
  (S (length (ks' ++ dir_keys R)) < fuel)%nat ->
  dir_collect fuel h v directory it = (l ← from_key ks' R; Ok (it_index it :: l)).
Proof.
  revert it ks' R. induction fuel as [|fuel IH]; intros it ks' R Ho Hk0 Hall Hf; [lia|].
  cbn [dir_collect]. unfold dir_equal at 1. cbn [dir_end it_index].
  rewrite (proj2 (N.eqb_neq _ 0)) by done. rewrite andb_false_r.
  destruct (dir_next_spec _ _ _ Ho) as (it' & -> & Hn). cbn [mbind result_bind].
  destruct ks' as [|k ks']; [destruct R as [|[b [|k ks']] R]|].
  - destruct fuel; [cbn in Hf; lia|]. cbn [dir_collect]. by rewrite Hn.
  - destruct Hn as (Hb & Hb64 & s & pos & ->). by rewrite dir_stuck by (done || lia).
  - destruct Hn as [Ho' <-]. rewrite dir_keys_cons in Hall, Hf. cbn [app] in Hall, Hf. inversion Hall; subst.
    rewrite (IH it' ks' R) by (cbn in *; done || lia).
    unfold from_key, all_filled. cbn [forallb snd length Nat.eqb negb andb]. by destruct (forallb _ R).
  - destruct Hn as [Ho' <-]. inversion Hall; subst. rewrite (IH it' ks' R) by (cbn in *; done || lia).
    unfold from_key. by destruct (all_filled R).
Qed.

(** The iterator visits all keys if no page is empty; it stops at once when
    the root page is empty, and is stuck on any other empty page. *)
Lemma dir_collect_spec pages fuel :
  dir_at d m pages -> Forall (fun k => k <> 0) (dir_keys pages) ->
  (S (length (dir_keys pages)) < fuel)%nat ->
  dir_collect fuel h v directory (dir_begin h v directory) =
  match pages with
  | [] | (_, []) :: _ => Ok []
  | _ :: B => if all_filled B then Ok (dir_keys pages) else Throw "invalid iterator"
  end.
Proof.
  intros Hd Hz Hf. destruct fuel as [|fuel]; [lia|].
  assert (forall s, rv_read h v directory = Some s -> getFieldV256 "Indexes" s = [] ->
    dir_collect (S fuel) h v directory (dir_begin h v directory) = Ok []) as Hempty.
  { intros s Hr Hs. cbn [dir_collect]. unfold dir_begin, dir_equal. rewrite Hr, Hs. cbn.
    by rewrite N.eqb_refl. }
  destruct (decide (pages = [])) as [->|Hne].
  - cbn [dir_collect]. unfold dir_begin, dir_equal.
    change (rv_read h v directory) with (rv_read h v (keylet_page d 0)).
    rewrite (read_absent []); [|done|done|by intros ?%elem_of_nil]. cbn. by rewrite N.eqb_refl.
  - destruct (dir_at_root d _ _ Hd Hne) as (ks & B & _ & -> & _).
    pose proof (dir_at_tail [] _ Hd) as Ht.
    pose proof Ht as (_ & _ & _ & s & Hr & He)%tail_of_cons.
    destruct ks as [|k ks]; [by apply (Hempty s); [|apply (pe_indexes _ _ _ _ _ _ He)]|].
    rewrite dir_keys_cons in *. cbn [app] in *. inversion Hz; subst.
    unfold dir_begin at 1. change (rv_read h v directory) with (rv_read h v (keylet_page d 0)).
    rewrite Hr, (pe_indexes _ _ _ _ _ _ He). rewrite (dir_collect_on_key _ _ ks B); [|by eexists _, 0, (k :: ks), s, 0%nat|done|done|cbn in *; lia].
    unfold from_key. by destruct (all_filled B).
Qed.

(** *** [forEachItemAfter] *)
Lemma after_page_app f after l1 l2 found limit :
  after_page f after (l1 ++ l2) found limit =
  let '(fd, lm, c, stop) := after_page f after l1 found limit in
  if stop then (fd, lm, c, true)
  else let '(fd', lm', c', stop') := after_page f after l2 fd lm in (fd', lm', c ++ c', stop').
Proof.
  revert found limit; induction l1 as [|k l1 IH]; intros found limit; cbn [after_page app].
  { by destruct (after_page f after l2 found limit) as [[[? ?] ?] ?]. }
  destruct (negb found); [apply IH|].
  destruct (f k); [destruct (limit <=? 1); [done|]|]; rewrite IH;
    destruct (after_page f after l1 found _) as [[[fd lm] c] []]; try done;
    by destruct (after_page f after l2 fd lm) as [[[? ?] ?] ?].
Qed.

Lemma after_loop_spec S prev fuel f after found limit :
  tail_of prev S -> S <> [] -> (length S <= fuel)%nat ->
  after_loop fuel h v directory f after (keylet_page d (head_num S 0)) found limit =
  let '(fd, _, c, _) := after_page (fun k => f (rv_read h v (keylet_child k))) after
                          (dir_keys S) found limit in Ok (fd, c).
Proof.
  revert prev fuel found limit; induction S as [|[n ks] S IH];
    intros prev fuel found limit Ht Hne Hf; [done|].
  destruct fuel as [|fuel]; [cbn in Hf; lia|].
  apply tail_of_cons in Ht as (Hn & Ht & Hz & s & Hr & He).
  cbn [after_loop head_num]. rewrite Hr, (pe_indexes _ _ _ _ _ _ He), (pe_next _ _ _ _ _ _ He).
  rewrite dir_keys_cons, after_page_app.
  destruct (after_page _ after ks found limit) as [[[fd lm] c] []]; [done|]. cbn [orb].
  destruct (decide (S = [])) as [->|HS].
  - cbn. by rewrite app_nil_r.
  - rewrite (proj2 (N.eqb_neq _ 0)) by auto. cbn [kl_key].
    rewrite (IH n fuel) by (cbn in *; done || lia).
    by destruct (after_page _ after (dir_keys S) fd lm) as [[[fd' lm'] c'] stop'].
Qed.

(** Past the start, at most [limit] keys (but at least one) are visited. *)
Lemma after_page_take after l limit :
  limit < 2 ^ 32 ->
  let '(fd, _, c, _) := after_page (fun _ => true) after l true limit in
  fd = true /\ c = take (N.to_nat (N.max 1 limit)) l.
Proof.
  revert limit; induction l as [|k l IH]; intros limit Hl; [by rewrite take_nil|].
  cbn [after_page negb]. destruct (N.leb_spec limit 1) as [Hle|Hgt].
  { replace (N.max 1 limit) with 1 by lia. done. }
  replace ((limit + (2 ^ 32 - 1)) mod 2 ^ 32) with (limit - 1).
  2:{ replace (limit + (2 ^ 32 - 1)) with ((limit - 1) + 1 * 2 ^ 32) by lia.
      rewrite N.Div0.mod_add. by rewrite N.mod_small by lia. }
  specialize (IH (limit - 1) ltac:(lia)).
  destruct (after_page _ after l true (limit - 1)) as [[[fd lm] c] stop].
  destruct IH as [-> ->]. split; [done|].
  replace (N.to_nat (N.max 1 limit)) with (Datatypes.S (N.to_nat (N.max 1 (limit - 1)))) by lia.
  done.
Qed.

Lemma after_page_search f after l limit :
  after ∉ l -> after_page f after l false limit = (false, limit, [], false).
Proof.
  induction l as [|k l IH]; [done|]. rewrite not_elem_of_cons. intros [Hk Hl]. cbn [after_page negb].
  rewrite (proj2 (N.eqb_neq k after)) by done. by apply IH.
Qed.

Lemma forEachItemAfter_spec pages fuel after hint limit l1 l2 :
  dir_at d m pages -> pages <> [] -> (length pages <= fuel)%nat -> hint < 2 ^ 64 ->
  limit < 2 ^ 32 -> NoDup (dir_keys pages) -> after <> 0 -> dir_keys pages = l1 ++ after :: l2 ->
  forEachItemAfter fuel h v directory after hint limit (fun _ => true) =
  Ok (true, take (N.to_nat (N.max 1 limit)) l2).
Proof.
  intros Hd Hne Hf Hh Hl Hnd Hz Hk. unfold forEachItemAfter. cbn [kl_type N.eqb negb kl_key].
  rewrite (proj2 (N.eqb_neq after 0)) by done. cbn [negb].
  assert (forall A S l1', pages = A ++ S -> S <> [] -> dir_keys S = l1' ++ after :: l2 ->
    after_loop fuel h v directory (fun _ => true) after (keylet_page d (head_num S 0)) false limit
    = Ok (true, take (N.to_nat (N.max 1 limit)) l2)) as Hfrom.
  { intros A S l1' E HS HkS. rewrite E in Hd.
    rewrite (after_loop_spec _ _ _ _ _ _ _ (dir_at_tail _ _ Hd)); [|done|].
    - rewrite HkS, after_page_app, after_page_search; cbn [after_page negb app].
      + rewrite N.eqb_refl. pose proof (after_page_take after l2 limit Hl) as Ht.
        destruct (after_page _ after l2 true limit) as [[[fd lm] c] stop].
        by destruct Ht as [-> ->].
      + rewrite E, dir_keys_app, HkS in Hnd. apply NoDup_app in Hnd as (_ & _ & Hnd).
        apply NoDup_app in Hnd as (_ & Hx & _). intros Hin. apply Hx in Hin. apply Hin. by left.
    - rewrite E, length_app in Hf. lia. }
  assert (after_loop fuel h v directory (fun _ => true) after directory false limit
    = Ok (true, take (N.to_nat (N.max 1 limit)) l2)) as Hroot.
  { destruct (dir_at_root d _ _ Hd Hne) as (ks & B & _ & E & _).
    rewrite <-(Hfrom [] pages l1 eq_refl Hne Hk). by rewrite E. }
  destruct (decide (hint ∈ pages.*1)) as [Hin|Hnot].
  2:{ by rewrite (read_absent pages). }
  apply list_elem_of_fmap in Hin as ([n ks] & -> & Hin). cbn [fst] in *.
  apply list_elem_of_split in Hin as (A & B & E). rewrite E in Hd.
  pose proof (dir_at_tail _ _ Hd) as (_ & _ & _ & s & Hr & He)%tail_of_cons.
  rewrite Hr, (pe_indexes _ _ _ _ _ _ He). case_bool_decide as Hks; [|done].
  apply list_elem_of_split in Hks as (k1 & k2 & ->).
  apply (Hfrom A ((n, k1 ++ after :: k2) :: B) k1); [done|done|].
  rewrite E, dir_keys_app, dir_keys_cons in Hk, Hnd. rewrite dir_keys_cons, <-app_assoc.
  rewrite <-app_assoc, app_assoc in Hk. cbn [app] in *.
  f_equal. f_equal. rewrite <-app_assoc, app_assoc in Hnd. cbn [app] in Hnd.
  by eapply (NoDup_app_cons_inj after (dir_keys A ++ k1) l1).
Qed.
End reads.
