(* ===== verification/DirectoryProps.v ===== *)
(** * What the directory operations guarantee *)

From S2P Require Import ApplyStateTable.
From S2P Require Import Prelude LedgerEntry Views Serializer LedgerHeader SHAMapHash Ledger LedgerSpec StackedViews Instances ApplyView Directory DirectorySpec DirectoryReads.
Open Scope N_scope.

(** Pages hold between 1 and 32 keys, no key twice; only the root page may be
    empty. *)
Definition pages_ok (pages : Pages) : Prop :=
  Forall (fun p => (length p.2 <= kDirNodeMaxEntries)%nat /\ NoDup p.2) pages /\
  Forall (fun p => p.2 <> []) (tail pages).

Lemma erase_first_Permutation key ks : key ∈ ks -> ks ≡ₚ key :: erase_first key ks.
Proof.
  induction ks as [|k ks IH]; [by intros ?%elem_of_nil|]. cbn [erase_first].
  destruct (N.eqb_spec k key) as [->|Hne]; [done|].
  intros [->|Hin]%elem_of_cons; [done|]. rewrite IH at 1 by done. constructor.
Qed.

Lemma dir_keys_prune keepRoot pages : dir_keys (prune keepRoot pages) = dir_keys pages.
Proof. destruct pages as [|[n [|]] [|]]; try done. by destruct keepRoot. Qed.

Lemma dir_keys_tidy keepRoot A B : dir_keys (tidy keepRoot A B) = dir_keys A ++ dir_keys B.
Proof.
  unfold tidy. rewrite dir_keys_prune, dir_keys_app.
  by destruct B as [|[b [|]] [|]].
Qed.

(** Adding: the keys are those before and the new one, on the page returned. *)
Lemma add_pages_keys limited preserveOrder pages key o pages' :
  add_pages limited preserveOrder pages key = Some (o, pages') ->
  match o with
  | Some n => (exists ks, (n, ks) ∈ pages' /\ key ∈ ks) /\ dir_keys pages' ≡ₚ key :: dir_keys pages
  | None => pages' = pages
  end.
Proof.
  unfold add_pages. destruct pages as [|[n ks] A _] using rev_ind.
  { intros [= <- <-]. cbn. split; [|done]. exists [key]. split; by left. }
  rewrite last_snoc, removelast_last. destruct (_ <? _)%nat.
  - pose proof (insert_index_spec preserveOrder ks key) as Hi.
    destruct (insert_index _ _ _) as [ks'|]; [|done]. intros [= <- <-].
    destruct Hi as (Hn & Hp & _). split.
    + exists ks'. split; [apply elem_of_app; right; by left|]. rewrite Hp. by left.
    + rewrite !dir_keys_app, !dir_keys_cons. cbn. rewrite !app_nil_r, Hp.
      by rewrite Permutation_middle.
  - destruct (_ || _); [by intros [= <- <-]|]. intros [= <- <-]. split.
    + exists [key]. split; [apply elem_of_app; right; by left|by left].
    + rewrite (dir_keys_app (A ++ _)). cbn. by rewrite Permutation_app_comm.
Qed.

Lemma single_page n key :
  (length (n, [key]).2 <= kDirNodeMaxEntries)%nat /\ NoDup ((n : N), [key : N]).2.
Proof. split; [cbn; unfold kDirNodeMaxEntries; lia|apply NoDup_singleton]. Qed.

Lemma add_pages_ok limited preserveOrder pages key o pages' :
  add_pages limited preserveOrder pages key = Some (o, pages') -> pages_ok pages -> pages_ok pages'.
Proof.
  unfold add_pages. destruct pages as [|[n ks] A _] using rev_ind.
  { intros [= <- <-] _. split; [|constructor]. apply Forall_singleton. apply single_page. }
  rewrite last_snoc, removelast_last. intros E [Hall Htl].
  apply Forall_app in Hall as [HA Hn]. inversion Hn as [|? ? [Hlen Hnd] _]; subst. cbn [snd] in *.
  assert (Forall (fun p : N * list N => p.2 <> []) (tail A)) as HtA.
  { destruct A; [done|]. cbn in *. by apply Forall_app in Htl as [? _]. }
  destruct (Nat.ltb_spec (length ks) kDirNodeMaxEntries) as [Hlt|Hge].
  - pose proof (insert_index_spec preserveOrder ks key) as Hi.
    destruct (insert_index _ _ _) as [ks'|]; [|done]. injection E as <- <-.
    destruct Hi as (Hnot & Hp & _). split.
    + apply Forall_app. split; [done|]. apply Forall_singleton. split; cbn [snd].
      * rewrite Hp. cbn. lia.
      * rewrite Hp. by constructor.
    + destruct A; [done|]. cbn. apply Forall_app. split; [done|]. repeat constructor. cbn.
      intros ->. by apply Permutation_nil_cons in Hp.
  - destruct (_ || _); injection E as <- <-; [by split; [apply Forall_app|]|]. split.
    + apply Forall_app. split; [by apply Forall_app|]. apply Forall_singleton, single_page.
    + destruct A; cbn in *; [by repeat constructor|].
      apply Forall_app. split; [done|]. by repeat constructor.
Qed.

(** Removing: the keys are those before without the removed one. *)
Lemma remove_pages_keys keepRoot A n ks B key :
  (n = 0 <-> A = []) -> key ∈ ks ->
  dir_keys (A ++ (n, ks) :: B) ≡ₚ key :: dir_keys (remove_pages keepRoot A n ks B key).
Proof.
  intros Hn Hin. pose proof (erase_first_Permutation key ks Hin) as Hp. unfold remove_pages.
  rewrite dir_keys_app, dir_keys_cons. destruct (erase_first key ks) as [|k ks'].
  - rewrite dir_keys_tidy, Hp. destruct (N.eqb_spec n 0) as [Hn0|Hn0].
    + rewrite (proj1 Hn Hn0). done.
    + cbn [app]. by rewrite <-Permutation_middle.
  - rewrite dir_keys_app, dir_keys_cons, Hp. cbn [app]. by rewrite <-Permutation_middle.
Qed.

Lemma prune_ok keepRoot pages : pages_ok pages -> pages_ok (prune keepRoot pages).
Proof.
  destruct pages as [|[n [|]] [|]]; try done. destruct keepRoot; [done|]. intros _.
  split; constructor.
Qed.

Lemma tidy_ok keepRoot A B :
  A <> [] -> Forall (fun p : N * list N => p.2 <> []) B ->
  Forall (fun p => (length p.2 <= kDirNodeMaxEntries)%nat /\ NoDup p.2) B -> pages_ok A ->
  pages_ok (tidy keepRoot A B).
Proof.
  intros HA HB HB' [HA1 HA2]. apply prune_ok. destruct A as [|x A]; [done|].
  destruct B as [|[b [|]] [|]];
    (split; [apply Forall_app; by split|cbn; apply Forall_app; by split]).
Qed.

Lemma remove_pages_ok keepRoot A n ks B key :
  (n = 0 <-> A = []) -> key ∈ ks -> pages_ok (A ++ (n, ks) :: B) ->
  pages_ok (remove_pages keepRoot A n ks B key).
Proof.
  intros Hn Hin [Hall Htl]. pose proof (erase_first_Permutation key ks Hin) as Hp.
  apply Forall_app in Hall as [HA HB]. inversion HB as [|? ? [Hlen Hnd] HB']; subst.
  cbn [snd] in *.
  assert (Forall (fun p : N * list N => p.2 <> []) B) as HtB.
  { destruct A; cbn in Htl; [done|]. apply Forall_app in Htl as [_ Htl]. by inversion Htl. }
  assert (A <> [] -> Forall (fun p : N * list N => p.2 <> []) (tail A)) as HtA.
  { destruct A; [done|]. cbn in Htl. by apply Forall_app in Htl as [? _]. }
  unfold remove_pages. destruct (erase_first key ks) as [|k ks'].
  - destruct (N.eqb_spec n 0) as [Hn0|Hn0].
    + apply tidy_ok; [done..|]. split; [|constructor]. apply Forall_singleton. cbn.
      split; [lia|constructor].
    + assert (A <> []) by naive_solver. apply tidy_ok; [done..|]. split; auto.
  - assert ((length (k :: ks') <= kDirNodeMaxEntries)%nat /\ NoDup (k :: ks')) as Hk.
    { split; [rewrite Hp in Hlen; cbn in *; lia|]. rewrite Hp in Hnd. by apply NoDup_cons in Hnd as [_ ?]. }
    split; [apply Forall_app; split; [done|by constructor]|].
    destruct A as [|x A]; [done|]. cbn. apply Forall_app. split; [by apply HtA|].
    by constructor.
Qed.

Lemma dir_at_first `{Digest} d `{!PageKeys d} m A n ks B :
  dir_at d m (A ++ (n, ks) :: B) -> (n = 0 <-> A = []).
Proof.
  intros Hd. split.
  - intros ->. destruct A as [|x A]; [done|].
    destruct (head_num_zero d m (x :: A) ((0, ks) :: B) 0); [done..|by left|done].
  - intros ->. by apply (da_root _ _ _ Hd).
Qed.

Lemma add_pages_append limited pages key n pages' :
  add_pages limited true pages key = Some (Some n, pages') ->
  dir_keys pages' = dir_keys pages ++ [key].
Proof.
  unfold add_pages. destruct pages as [|[n' ks] A _] using rev_ind; [by intros [= <- <-]|].
  rewrite last_snoc, removelast_last. destruct (_ <? _)%nat.
  - pose proof (insert_index_spec true ks key) as Hi.
    destruct (insert_index _ _ _) as [ks'|]; [|done]. intros [= <- <-].
    destruct Hi as (_ & _ & -> & _); [|done].
    rewrite !dir_keys_app. cbn. by rewrite !app_nil_r, app_assoc.
  - destruct (_ || _); [done|]. intros [= <- <-]. by rewrite (dir_keys_app (A ++ _)).
Qed.

Lemma add_pages_full limited preserveOrder pages key pages' :
  add_pages limited preserveOrder pages key = Some (None, pages') ->
  exists n ks, list.last pages = Some (n, ks) /\
    (n + 1 = 2 ^ 64 \/ limited = true /\ kDirNodeMaxPages <= n + 1).
Proof.
  unfold add_pages. destruct (list.last pages) as [[n ks]|]; [|done].
  destruct (_ <? _)%nat; [by destruct (insert_index _ _ _)|].
  destruct (_ || _) eqn:E; [|done]. intros _. exists n, ks. split; [done|].
  apply orb_prop in E as [E%N.eqb_eq|[? E%N.leb_le]%andb_prop]; auto.
Qed.

Lemma add_pages_double limited preserveOrder pages key :
  add_pages limited preserveOrder pages key = None ->
  exists n ks, list.last pages = Some (n, ks) /\ key ∈ ks.
Proof.
  unfold add_pages. destruct (list.last pages) as [[n ks]|]; [|done].
  destruct (_ <? _)%nat; [|by destruct (_ || _)].
  pose proof (insert_index_spec preserveOrder ks key) as Hi.
  destruct (insert_index _ _ _); [done|]. eauto.
Qed.

Lemma remove_pages_empty A n ks B key :
  pages_ok (A ++ (n, ks) :: B) -> (n = 0 <-> A = []) ->
  dir_keys (remove_pages false A n ks B key) = [] -> remove_pages false A n ks B key = [].
Proof.
  unfold remove_pages. intros [_ Htl] Hn. destruct (erase_first key ks) as [|k ks'].
  2:{ rewrite dir_keys_app, dir_keys_cons. by intros [_ ?]%app_nil. }
  rewrite dir_keys_tidy. intros [HA HB]%app_nil.
  assert (Forall (fun p : N * list N => p.2 <> []) (tail A ++ B)) as HtB.
  { destruct A; cbn in *; [done|]. apply Forall_app in Htl as [? Htl]. apply Forall_app.
    split; [done|]. by inversion Htl. }
  apply Forall_app in HtB as [HtA HtB].
  assert (B = []) as ->.
  { destruct B as [|[b kb] B]; [done|]. inversion HtB; subst. by destruct kb. }
  destruct (N.eqb_spec n 0) as [->|Hn0]; [done|]. unfold tidy. rewrite app_nil_r.
  destruct A as [|[a ka] A]; [done|]. cbn in HtA. rewrite dir_keys_cons in HA.
  apply app_nil in HA as [-> HA]. destruct A as [|[b kb] A]; [done|].
  inversion HtA; subst. by destruct kb.
Qed.

(** ** Properties *)

(** C34. [dirAdd] on a directory of any editable view: it throws exactly when
    the last page has room and already holds the key, and changes nothing
    but the directory otherwise.  If it returns a page, the key is on that
    page, the keys of the directory are those before and the new one, every
    page still has at most 32 keys, and [dirAppend] puts the key at the very
    end; if it returns nothing, the page numbers are exhausted and nothing
    changed. *)
Theorem dirAdd_refines `{Digest} d `{!PageKeys d} {W} `{ApplyViewLaws W} (st : Heap * W) m r held
    pages preserveOrder key describe :
  shows st m r held -> dir_at d m pages -> pages_ok pages -> describes describe ->
  wp (dirAdd preserveOrder (mkKeylet ltDIR_NODE d) key describe) st
    (fun o st' => exists m' pages', shows st' m' r held /\ dir_at d m' pages' /\
       pages_ok pages' /\ unrelated d m m' /\
       match o with
       | Some n => (exists ks, (n, ks) ∈ pages' /\ key ∈ ks) /\
           dir_keys pages' ≡ₚ key :: dir_keys pages /\
           (preserveOrder = true -> dir_keys pages' = dir_keys pages ++ [key])
       | None => pages' = pages /\ exists n ks, list.last pages = Some (n, ks) /\
           (n + 1 = 2 ^ 64 \/
            rules_enabled r fixDirectoryLimit = false /\ kDirNodeMaxPages <= n + 1)
       end)
    (fun e => e = "dirInsert: double insertion"%string /\
       exists n ks, list.last pages = Some (n, ks) /\ key ∈ ks).
Proof.
  intros Hst Hd Hok Hdesc.
  pose proof (dirAdd_spec d st m r held pages preserveOrder key describe Hst Hd Hdesc) as Hw.
  cbv zeta in Hw. unfold wp in *.
  destruct (dirAdd preserveOrder _ key describe st) as [[o st']|e].
  - destruct Hw as (m' & pages' & Ha & Hst' & Hd' & Hu). exists m', pages'.
    split_and!; [done|done|by eapply add_pages_ok|done|].
    pose proof (add_pages_keys _ _ _ _ _ _ Ha) as Hk. destruct o as [n|].
    + destruct Hk as [? ?]. split_and!; [done|done|]. intros ->. by eapply add_pages_append.
    + split; [done|]. apply add_pages_full in Ha as (n & ks & ? & [?|[?%negb_true_iff ?]]); eauto 10.
  - destruct Hw as [-> Ha]. split; [done|]. by eapply add_pages_double.
Qed.

(** *** A concrete directory *)

(** A digest under which the pages of directory 5 have distinct keys. *)
Definition dir_digest : Digest := fun b => Z.to_N (2 ^ 200 + be_sum (drop 34 b)).

Lemma dir_digest_key n :
  n < 2 ^ 64 -> n <> 0 -> kl_key (@keylet_page dir_digest 5 n) = 2 ^ 200 + n.
Proof.
  intros Hn Hn0. unfold keylet_page. rewrite (proj2 (N.eqb_neq n 0)) by done. cbn [kl_key].
  unfold indexHash, sha512Half, dir_digest. rewrite app_assoc.
  rewrite drop_app_length' by (by rewrite length_app, !length_be_bytes).
  rewrite be_sum_be_bytes, Z.mod_small by lia. lia.
Qed.

Lemma dir_digest_pages : @PageKeys dir_digest 5.
Proof.
  split.
  - intros n Hn. unfold key_ok, is_uint256. destruct (decide (n = 0)) as [->|Hn0]; [by cbn|].
    rewrite dir_digest_key by done. lia.
  - intros n n' Hn Hn'. destruct (decide (n = 0)) as [->|Hn0], (decide (n' = 0)) as [->|Hn0'];
      [done|rewrite (dir_digest_key n') by done|rewrite (dir_digest_key n) by done|
       rewrite !dir_digest_key by done];
      try change (kl_key (@keylet_page dir_digest 5 0)) with 5; lia.
Qed.

Definition example_sandbox : Heap * ApplyViewBase Ledger := (∅, makeSandbox example_ledger 0).

Lemma example_sandbox_shows :
  shows example_sandbox (rv_map ∅ example_ledger) (rules_ example_ledger) [].
Proof.
  split; [|done|done|by intros p k ?%elem_of_nil].
  - by apply ApplyStateTable.session_inv_init, example_ledger_wf.
Qed.

Lemma example_no_directory : @dir_at dir_digest 5 (rv_map ∅ example_ledger) [].
Proof. split; [done|constructor|constructor|done|]. intros n Hn _. done. Qed.

(** A state with a directory of one page that holds the key 7. *)
Lemma example_directory : exists st m,
  shows (W := ApplyViewBase Ledger) st m (rules_ example_ledger) [] /\
  @dir_at dir_digest 5 m [(0, [7])].
Proof.
  pose proof (@dirAdd_spec dir_digest 5 dir_digest_pages _ _ _ example_sandbox _ _ _ [] true 7
    (fun s => s) example_sandbox_shows example_no_directory ltac:(done)) as Hw.
  cbv zeta in Hw. unfold wp in Hw.
  destruct (dirAdd _ _ _ _ _) as [[o st]|e]; [|by destruct Hw].
  destruct Hw as (m & pages & [= <- <-] & Hst & Hd & _). by exists st, m.
Qed.

Lemma dirAdd_refines_witness :
  wp (@dirAdd dir_digest _ _ true (mkKeylet ltDIR_NODE 5) 7 (fun s => s)) example_sandbox
    (fun o st' => exists m' pages', shows st' m' (rules_ example_ledger) [] /\
       @dir_at dir_digest 5 m' pages' /\ pages_ok pages' /\
       @unrelated dir_digest 5 (rv_map ∅ example_ledger) m' /\
       match o with
       | Some n => (exists ks, (n, ks) ∈ pages' /\ 7 ∈ ks) /\ dir_keys pages' ≡ₚ [7] /\
           (true = true -> dir_keys pages' = [7])
       | None => pages' = [] /\ exists n ks, list.last ([] : Pages) = Some (n, ks) /\
           (n + 1 = 2 ^ 64 \/ rules_enabled (rules_ example_ledger) (@fixDirectoryLimit dir_digest) = false
             /\ kDirNodeMaxPages <= n + 1)
       end)
    (fun e => e = "dirInsert: double insertion"%string /\
       exists n ks, list.last ([] : Pages) = Some (n, ks) /\ 7 ∈ ks).
Proof.
  apply (@dirAdd_refines dir_digest 5 dir_digest_pages (ApplyViewBase Ledger) _ _ example_sandbox
           (rv_map ∅ example_ledger) (rules_ example_ledger) [] []).
  - exact example_sandbox_shows.
  - exact example_no_directory.
  - split; constructor.
  - done.
Defined.

(** C35. [dirRemove] with the page an entry is on: it never throws on a
    directory whose pages are linked; it returns true exactly when the page
    exists and holds the key.  Then the key is gone from that page; if it has
    become empty it is removed (unless it is the root), and so is a last page
    right behind it that was empty already; a directory left with an empty root
    page only is gone unless [keepRoot] is set: the pages are exactly those of
    [remove_pages].  The keys of the directory are those before without that
    key, its links are again consistent, and nothing outside the directory
    changed.  If the pages had at most 32 keys, no key twice, and none but the
    root was empty before, it is so after; and unless [keepRoot] is set, the
    directory then has no pages when it has no keys. *)
Theorem dirRemove_refines `{Digest} d `{!PageKeys d} {W} `{ApplyViewLaws W} (st : Heap * W) m r held
    pages n key keepRoot :
  shows st m r held -> foreign d held -> dir_at d m pages -> n < 2 ^ 64 ->
  wp (dirRemove (mkKeylet ltDIR_NODE d) n key keepRoot) st
    (fun b st' => exists m' pages', shows st' m' r held /\ dir_at d m' pages' /\
       unrelated d m m' /\ (pages_ok pages -> pages_ok pages') /\
       (b = true <-> exists ks, (n, ks) ∈ pages /\ key ∈ ks) /\
       if b : bool then
         (exists A ks B, pages = A ++ (n, ks) :: B /\ key ∈ ks /\ pages' = remove_pages keepRoot A n ks B key) /\
         dir_keys pages ≡ₚ key :: dir_keys pages' /\
         (pages_ok pages -> keepRoot = false -> dir_keys pages' = [] -> pages' = [])
       else m' = m /\ pages' = pages)
    (fun _ => False).
Proof.
  intros Hst Hf Hd Hn.
  destruct (decide (Exists (fun p => p.1 = n /\ key ∈ p.2) pages)) as [Hin|Hnot].
  - apply Exists_exists in Hin as ([n' ks] & (A & B & ->)%list_elem_of_split & Hn' & Hk).
    cbn [fst snd] in *. subst n'.
    eapply wp_mono; [|by eapply dirRemove_spec].
    intros b st' [-> (m' & Hst' & Hd' & Hu)].
    pose proof (dir_at_first _ _ _ _ _ _ Hd) as Hfirst.
    exists m', (remove_pages keepRoot A n ks B key).
    do 3 (split; [done|]). split; [by apply remove_pages_ok|]. split_and!.
    + split; [intros _|done]. exists ks. split; [apply elem_of_app; right; by left|done].
    + by exists A, ks, B.
    + by apply remove_pages_keys.
    + intros Hok ->. by apply remove_pages_empty.
  - eapply wp_mono; [|eapply dirRemove_miss; [done..|]].
    + intros b st' [-> Hst']. exists m, pages. split_and!; try done.
      split; [done|]. intros (ks & Hin & Hk). destruct Hnot. apply Exists_exists. by exists (n, ks).
    + intros A ks B -> Hk. apply Hnot, Exists_exists. exists (n, ks).
      split; [apply elem_of_app; right; by left|done].
Qed.

Lemma dirRemove_refines_witness : exists st m,
  wp (@dirRemove dir_digest (ApplyViewBase Ledger) _ (mkKeylet ltDIR_NODE 5) 0 7 false) st
    (fun b st' => b = true /\ exists m', shows st' m' (rules_ example_ledger) [] /\
       @dir_at dir_digest 5 m' [] /\ @unrelated dir_digest 5 m m')
    (fun _ => False).
Proof.
  destruct example_directory as (st & m & Hst & Hd). exists st, m.
  eapply wp_mono; [|apply (@dirRemove_refines dir_digest 5 dir_digest_pages (ApplyViewBase Ledger) _ _ st m
           (rules_ example_ledger) [] [(0, [7])] 0 7 false)].
  - intros b st' (m' & pages' & Hs & Hd' & Hu & _ & Hb & Hr).
    assert (b = true) as -> by (apply Hb; exists [7]; split; by left). destruct Hr as (_ & Hk & He).
    split; [done|]. exists m'. assert (pages' = []) as ->; [|done]. apply He; [|done|].
    + split; [|constructor]. apply Forall_singleton, single_page.
    + by apply Permutation_cons_inv, Permutation_nil_l in Hk.
  - exact Hst.
  - by intros p k n ?%elem_of_nil.
  - exact Hd.
  - done.
Defined.

(** C36. Every traversal enumerates the directory: on a directory of any view
    whose pages are linked, [forEachItem] and the [cdirFirst]/[cdirNext] loop
    visit the keys of all pages in order, each once, empty pages or not.  The
    [Dir] iterator (over keys other than zero) does so only if no page is
    empty: if the root page is empty it visits nothing even if later pages hold
    keys, and if a later page is empty it is on no entry there and can not be
    incremented. *)
Theorem directory_traversals `{Digest} d `{!PageKeys d} {V} `{ReadViewLaws V} h (v : V) pages fuel :
  rv_wf h v -> dir_at d (rv_map h v) pages ->
  (length pages < fuel)%nat -> (S (length (dir_keys pages)) < fuel)%nat ->
  forEachItem fuel h v (mkKeylet ltDIR_NODE d) = Ok (dir_keys pages) /\
  cdir_collect fuel h v d = Ok (dir_keys pages) /\
  (Forall (fun k => k <> 0) (dir_keys pages) ->
   dir_collect fuel h v (mkKeylet ltDIR_NODE d) (dir_begin h v (mkKeylet ltDIR_NODE d)) =
     match pages with
     | [] | (_, []) :: _ => Ok []
     | _ :: B => if all_filled B then Ok (dir_keys pages) else Throw "invalid iterator"
     end).
Proof.
  intros Hwf Hd Hf Hk. split_and!.
  - by apply (forEachItem_spec d h v Hwf).
  - by apply (cdir_collect_spec d h v Hwf).
  - intros Hz. by apply (dir_collect_spec d h v Hwf).
Qed.

Lemma directory_traversals_witness : exists st : Heap * ApplyViewBase Ledger,
  @forEachItem dir_digest _ _ 5 st.1 st.2 (mkKeylet ltDIR_NODE 5) = Ok [7] /\
  @cdir_collect dir_digest _ _ 5 st.1 st.2 5 = Ok [7] /\
  @dir_collect dir_digest _ _ 5 st.1 st.2 (mkKeylet ltDIR_NODE 5)
    (dir_begin st.1 st.2 (mkKeylet ltDIR_NODE 5)) = Ok [7].
Proof.
  destruct example_directory as (st & m & [Hok Hm _ _] & Hd). exists st. rewrite <-Hm in Hd.
  destruct (@directory_traversals dir_digest 5 dir_digest_pages _ _ _ st.1 st.2 [(0, [7])] 5) as (E1 & E2 & E3).
  - exact (proj1 Hok).
  - exact Hd.
  - cbn. lia.
  - cbn. lia.
  - split_and!; [exact E1|exact E2|]. apply E3. by repeat constructor.
Defined.

(** Paging through a directory: when the keys are distinct and [after] is
    one of them, [forEachItemAfter] with an always willing callback visits
    exactly the next [limit] keys after it (one key for a limit of zero),
    whatever page the hint names, even a missing one; from the start it
    visits the first [limit] keys. *)
Theorem forEachItemAfter_window `{Digest} d `{!PageKeys d} {V} `{ReadViewLaws V} h (v : V) pages fuel
    after hint limit l1 l2 :
  rv_wf h v -> dir_at d (rv_map h v) pages -> pages <> [] -> (length pages <= fuel)%nat ->
  hint < 2 ^ 64 -> limit < 2 ^ 32 -> NoDup (dir_keys pages) -> after <> 0 ->
  dir_keys pages = l1 ++ after :: l2 ->
  let root := mkKeylet ltDIR_NODE d in
  let window := N.to_nat (N.max 1 limit) in
  forEachItemAfter fuel h v root after hint limit (fun _ => true) = Ok (true, take window l2) /\
  forEachItemAfter fuel h v root 0 hint limit (fun _ => true) =
    Ok (true, take window (dir_keys pages)).
Proof.
  intros Hwf Hd Hne Hf Hh Hl Hnd Hz Hk root window. split.
  - by apply (forEachItemAfter_spec d h v Hwf pages fuel after hint limit l1 l2).
  - unfold forEachItemAfter. cbn [kl_type N.eqb negb root].
    destruct (dir_at_root d _ _ Hd Hne) as (ks & B & _ & -> & _).
    pose proof (after_loop_spec d h v Hwf _ _ fuel (fun _ => true) 0 true limit
                  (dir_at_tail d h v [] _ Hd) ltac:(done) Hf) as Ha.
    pose proof (after_page_take 0 (dir_keys ((0, ks) :: B)) limit Hl) as Ht.
    destruct (after_page _ _ _ _ _) as [[[fd lm] c] stop]. destruct Ht as [-> ->]. exact Ha.
Qed.

Lemma forEachItemAfter_window_witness : exists st : Heap * ApplyViewBase Ledger,
  @forEachItemAfter dir_digest _ _ 5 st.1 st.2 (mkKeylet ltDIR_NODE 5) 7 3 10 (fun _ => true) =
    Ok (true, []) /\
  @forEachItemAfter dir_digest _ _ 5 st.1 st.2 (mkKeylet ltDIR_NODE 5) 0 3 10 (fun _ => true) =
    Ok (true, [7]).
Proof.
  destruct example_directory as (st & m & [Hok Hm _ _] & Hd). exists st. rewrite <-Hm in Hd.
  apply (@forEachItemAfter_window dir_digest 5 dir_digest_pages _ _ _ st.1 st.2 [(0, [7])] 5 7 3 10
           [] []).
  - exact (proj1 Hok).
  - exact Hd.
  - done.
  - cbn. lia.
  - lia.
  - lia.
  - apply NoDup_singleton.
  - done.
  - done.
Defined.

(** [dirDelete] removes every page and calls the callback once for every
    key, in order.  Its result is true only if the last page has no
    [IndexNext] field: when the field is present with the value 0, as
    [dirRemove] leaves it after unlinking the page behind it, everything is
    removed all the same but the result is false. *)
Theorem dirDelete_removes_all `{Digest} d `{!PageKeys d} {W} `{ApplyViewLaws W} fuel (st : Heap * W)
    m r held pages :
  shows st m r held -> foreign d held -> dir_at d m pages -> (length pages < fuel)%nat ->
  wp (dirDelete fuel (mkKeylet ltDIR_NODE d)) st
    (fun b st' => b.2 = dir_keys pages /\
       (b.1 = true <-> pages <> [] /\ unmarked_end d m pages) /\
       exists m', shows st' m' r held /\ dir_at d m' [] /\ unrelated d m m')
    (fun _ => False).
Proof. intros Hst Hf Hd Hfuel. by apply dirDelete_spec. Qed.

Lemma dirDelete_removes_all_witness : exists st m,
  wp (@dirDelete dir_digest (ApplyViewBase Ledger) _ 5 (mkKeylet ltDIR_NODE 5)) st
    (fun b st' => b.2 = [7] /\
       (b.1 = true <-> [(0, [7])] <> [] /\ @unmarked_end dir_digest 5 m [(0, [7])]) /\
       exists m', shows st' m' (rules_ example_ledger) [] /\ @dir_at dir_digest 5 m' [] /\
         @unrelated dir_digest 5 m m')
    (fun _ => False).
Proof.
  destruct example_directory as (st & m & Hst & Hd). exists st, m.
  apply (@dirDelete_removes_all dir_digest 5 dir_digest_pages (ApplyViewBase Ledger) _ _ 5 st m
           (rules_ example_ledger) [] [(0, [7])]).
  - exact Hst.
  - by intros p k n ?%elem_of_nil.
  - exact Hd.
  - cbn. lia.
Defined.

(** [emptyDirDelete] deletes a directory that has no keys: the root page
    alone, or the root and an empty last page left by older code.  With a
    key on the root or on the only other page it changes nothing and returns
    false; but with an empty root and two or more other pages it returns
    true and changes nothing. *)
Theorem emptyDirDelete_deletes `{Digest} d `{!PageKeys d} {W} `{ApplyViewLaws W} (st : Heap * W)
    m r held pages :
  shows st m r held -> foreign d held -> dir_at d m pages ->
  wp (emptyDirDelete (mkKeylet ltDIR_NODE d)) st
    (fun b st' => exists m' pages', shows st' m' r held /\ dir_at d m' pages' /\ unrelated d m m' /\
       match pages with
       | [(_, [])] | [(_, []); (_, [])] => b = true /\ pages' = []
       | (_, []) :: _ :: _ :: _ => b = true /\ pages' = pages
       | _ => b = false /\ pages' = pages
       end)
    (fun _ => False).
Proof.
  intros Hst Hf Hd. eapply wp_mono; [|by eapply emptyDirDelete_spec].
  intros b st' (-> & m' & Hst' & Hd' & Hu). exists m', (empty_delete pages).2.
  split_and!; [done|done|done|].
  by destruct pages as [|[? [|]] [|[? [|]] [|]]].
Qed.

Lemma emptyDirDelete_deletes_witness : exists st m,
  wp (@emptyDirDelete dir_digest (ApplyViewBase Ledger) _ (mkKeylet ltDIR_NODE 5)) st
    (fun b st' => exists m' pages', shows st' m' (rules_ example_ledger) [] /\
       @dir_at dir_digest 5 m' pages' /\ @unrelated dir_digest 5 m m' /\
       b = false /\ pages' = [(0, [7])])
    (fun _ => False).
Proof.
  destruct example_directory as (st & m & Hst & Hd). exists st, m.
  apply (@emptyDirDelete_deletes dir_digest 5 dir_digest_pages (ApplyViewBase Ledger) _ _ st m
           (rules_ example_ledger) [] [(0, [7])]).
  - exact Hst.
  - by intros p k n ?%elem_of_nil.
  - exact Hd.
Defined.
