(* ===== verification/Consensus.v ===== *)
(** * Consensus decisions and disputed transactions

    The decision functions of Consensus.cpp (when to close the open ledger,
    when a round has reached consensus), the avalanche thresholds of
    ConsensusParms.h and the voting on a disputed transaction
    (DisputedTx.h).  Durations are in milliseconds; [std::size_t] and [int]
    values are integers with the wrap-around of their width where an
    operation can reach it. *)

From S2P Require Import Prelude.
Open Scope Z_scope.

Definition size_t (z : Z) : Z := z mod 2 ^ 64.

(** The conversion of a [std::size_t] to a parameter of type [int]. *)
Definition to_int (z : Z) : Z :=
  let r := z mod 2 ^ 32 in if r <? 2 ^ 31 then r else r - 2 ^ 32.

(** ** Parameters *)

Inductive AvalancheState : Type := Init | Mid | Late | Stuck.

#[export] Instance AvalancheState_eq_dec : EqDecision AvalancheState.
Proof. solve_decision. Defined.

Record AvalancheCutoff : Type := mkCutoff {
  consensusTime : Z;
  consensusPct : Z;
  next : AvalancheState
}.

Record ConsensusParms : Type := mkParms {
  proposeFRESHNESS : Z;            (* in seconds *)
  proposeINTERVAL : Z;             (* in seconds *)
  minConsensusPct : Z;
  ledgerIdleInterval : Z;
  ledgerMinConsensus : Z;
  ledgerMaxConsensus : Z;
  ledgerMinClose : Z;
  ledgerAbandonConsensusFactor : Z;
  ledgerAbandonConsensus : Z;
  avMinConsensusTime : Z;
  avalancheCutoffs : AvalancheState -> AvalancheCutoff;
  avCtConsensusPct : Z;
  avMinRounds : Z;
  avStalledRounds : Z
}.

(** The values [ConsensusParms] is constructed with. *)
Definition cutoffs (s : AvalancheState) : AvalancheCutoff :=
  match s with
  | Init => mkCutoff 0 50 Mid
  | Mid => mkCutoff 50 65 Late
  | Late => mkCutoff 85 70 Stuck
  | Stuck => mkCutoff 200 95 Stuck
  end.
Definition defaultParms : ConsensusParms :=
  mkParms 20 12 80 15000 1950 15000 2000 10 120000 5000 cutoffs 75 2 4.

Definition getNeededWeight (p : ConsensusParms) (currentState : AvalancheState)
    (percentTime currentRounds minimumRounds : Z) : Z * option AvalancheState :=
  let currentCutoff := avalancheCutoffs p currentState in
  if negb (bool_decide (next currentCutoff = currentState)) && (minimumRounds <=? currentRounds)
  then
    let nextCutoff := avalancheCutoffs p (next currentCutoff) in
    if consensusTime nextCutoff <=? percentTime
    then (consensusPct nextCutoff, Some (next currentCutoff))
    else (consensusPct currentCutoff, None)
  else (consensusPct currentCutoff, None).

(** ** Decisions *)

Definition shouldCloseLedger (anyTransactions : bool)
    (prevProposers proposersClosed proposersValidated : Z)
    (prevRoundTime timeSincePrevClose openTime idleInterval : Z) (parms : ConsensusParms) : bool :=
  if (prevRoundTime <? -1000) || (600000 <? prevRoundTime) || (600000 <? timeSincePrevClose)
  then true
  else if prevProposers / 2 <? size_t (proposersClosed + proposersValidated) then true
  else if negb anyTransactions then idleInterval <=? timeSincePrevClose
  else if openTime <? ledgerMinClose parms then false
  else if openTime <? Z.quot prevRoundTime 2 then false
  else true.

Definition checkConsensusReached (agreeing total : Z) (countSelf : bool) (minConsensusPct : Z)
    (reachedMax stalled : bool) : bool :=
  if total =? 0 then reachedMax
  else if stalled then true
  else
    let '(agreeing, total) :=
      if countSelf then (size_t (agreeing + 1), size_t (total + 1)) else (agreeing, total) in
    let currentPercentage := size_t (agreeing * 100) / total in
    minConsensusPct <=? currentPercentage.

Inductive ConsensusState : Type := No | MovedOn | Expired | Yes.

#[export] Instance ConsensusState_eq_dec : EqDecision ConsensusState.
Proof. solve_decision. Defined.

(** [std::clamp]. *)
Definition clamp (v lo hi : Z) : Z := if v <? lo then lo else if hi <? v then hi else v.

Definition checkConsensus (prevProposers currentProposers currentAgree currentFinished : Z)
    (previousAgreeTime currentAgreeTime : Z) (stalled : bool) (parms : ConsensusParms)
    (proposing : bool) : ConsensusState :=
  if currentAgreeTime <=? ledgerMinConsensus parms then No
  else if (currentProposers <? size_t (prevProposers * 3) / 4) &&
          (currentAgreeTime <? previousAgreeTime + ledgerMinConsensus parms) then No
  else if checkConsensusReached currentAgree currentProposers proposing (minConsensusPct parms)
            (ledgerMaxConsensus parms <? currentAgreeTime) stalled then Yes
  else if checkConsensusReached currentFinished currentProposers false (minConsensusPct parms)
            (ledgerMaxConsensus parms <? currentAgreeTime) false then MovedOn
  else
    let maxAgreeTime := previousAgreeTime * ledgerAbandonConsensusFactor parms in
    if clamp maxAgreeTime (ledgerMaxConsensus parms) (ledgerAbandonConsensus parms) <?
       currentAgreeTime then Expired
    else No.

(** ** Disputed transactions *)

Record DisputedTx (Tx : Type) : Type := mkDispute {
  yays_ : Z;
  nays_ : Z;
  ourVote_ : bool;
  tx_ : Tx;
  votes_ : gmap N bool;
  currentVoteCounter_ : Z;
  avalancheState_ : AvalancheState;
  avalancheCounter_ : Z
}.
#[global] Arguments mkDispute {Tx}. #[global] Arguments yays_ {Tx}. #[global] Arguments nays_ {Tx}.
#[global] Arguments ourVote_ {Tx}. #[global] Arguments tx_ {Tx}. #[global] Arguments votes_ {Tx}.
#[global] Arguments currentVoteCounter_ {Tx}. #[global] Arguments avalancheState_ {Tx}.
#[global] Arguments avalancheCounter_ {Tx}.

Section dispute.
Context {Tx : Type}.
Implicit Types (tx : Tx) (d : DisputedTx Tx).

Definition newDispute tx (ourVote : bool) : DisputedTx Tx :=
  mkDispute 0 0 ourVote tx ∅ 0 Init 0.

Definition set_votes d (yays nays : Z) (votes : gmap N bool) : DisputedTx Tx :=
  mkDispute yays nays (ourVote_ d) (tx_ d) votes (currentVoteCounter_ d) (avalancheState_ d)
    (avalancheCounter_ d).

Definition setOurVote d (o : bool) : DisputedTx Tx :=
  mkDispute (yays_ d) (nays_ d) o (tx_ d) (votes_ d) (currentVoteCounter_ d) (avalancheState_ d)
    (avalancheCounter_ d).

Definition setVote d (peer : N) (votesYes : bool) : bool * DisputedTx Tx :=
  match votes_ d !! peer with
  | None =>
      let votes := <[peer := votesYes]> (votes_ d) in
      (true, if votesYes then set_votes d (yays_ d + 1) (nays_ d) votes
             else set_votes d (yays_ d) (nays_ d + 1) votes)
  | Some before =>
      if votesYes && negb before then
        (true, set_votes d (yays_ d + 1) (nays_ d - 1) (<[peer := true]> (votes_ d)))
      else if negb votesYes && before then
        (true, set_votes d (yays_ d - 1) (nays_ d + 1) (<[peer := false]> (votes_ d)))
      else (false, d)
  end.

Definition unVote d (peer : N) : DisputedTx Tx :=
  match votes_ d !! peer with
  | Some true => set_votes d (yays_ d - 1) (nays_ d) (delete peer (votes_ d))
  | Some false => set_votes d (yays_ d) (nays_ d - 1) (delete peer (votes_ d))
  | None => d
  end.

Definition updateVote d (percentTime : Z) (proposing : bool) (p : ConsensusParms)
    : bool * DisputedTx Tx :=
  if ourVote_ d && (nays_ d =? 0) then (false, d)
  else if negb (ourVote_ d) && (yays_ d =? 0) then (false, d)
  else
    let counter := size_t (avalancheCounter_ d + 1) in
    let '(requiredPct, newState) :=
      getNeededWeight p (avalancheState_ d) percentTime counter (avMinRounds p) in
    let '(state, counter) :=
      match newState with Some s => (s, 0) | None => (avalancheState_ d, counter) end in
    let newPosition :=
      if proposing then
        let weight := Z.quot (yays_ d * 100 + (if ourVote_ d then 100 else 0))
                        (nays_ d + yays_ d + 1) in
        requiredPct <? weight
      else nays_ d <? yays_ d in
    if bool_decide (newPosition = ourVote_ d) then
      (false, mkDispute (yays_ d) (nays_ d) (ourVote_ d) (tx_ d) (votes_ d)
                (size_t (currentVoteCounter_ d + 1)) state counter)
    else
      (true, mkDispute (yays_ d) (nays_ d) newPosition (tx_ d) (votes_ d) 0 state counter).

(** [peersUnchanged] is an [int]: the counter of the caller is narrowed to it,
    and the comparison with [avStalledRounds] converts it back. *)
Definition stalled d (p : ConsensusParms) (proposing : bool) (peersUnchanged : Z)
    : bool :=
  let currentCutoff := avalancheCutoffs p (avalancheState_ d) in
  let nextCutoff := avalancheCutoffs p (next currentCutoff) in
  if (consensusTime currentCutoff <? consensusTime nextCutoff) ||
     (avalancheCounter_ d <? avMinRounds p) then false
  else if proposing && (currentVoteCounter_ d <? avMinRounds p) then false
  else if (size_t (to_int peersUnchanged) <? avStalledRounds p) &&
          (proposing && (currentVoteCounter_ d <? avStalledRounds p)) then false
  else
    let support := (yays_ d + (if proposing && ourVote_ d then 1 else 0)) * 100 in
    let total := nays_ d + yays_ d + (if proposing then 1 else 0) in
    if total =? 0 then false
    else
      let weight := Z.quot support total in
      (minConsensusPct p <? weight) || (weight <? 100 - minConsensusPct p).

(** ** Lemmas *)

Lemma size_t_small z : 0 <= z < 2 ^ 64 -> size_t z = z.
Proof. apply Z.mod_small. Qed.

(** The percentage test is the comparison of the fractions. *)
Lemma percent_ge a n pct : 0 < n -> (pct <= a * 100 / n <-> pct * n <= 100 * a).
Proof.
  intros Hn. split; intros Hp.
  - pose proof (Z.mul_div_le (a * 100) n Hn). nia.
  - apply Z.div_le_lower_bound; lia.
Qed.

Lemma percent_gt a n pct : 0 < n -> (pct < a * 100 / n <-> (pct + 1) * n <= 100 * a).
Proof. intros Hn. rewrite <-(percent_ge a n (pct + 1)) by done. lia. Qed.

(** Head counts far from the width of the machine integers. *)
Definition headcount (n : Z) : Prop := 0 <= n < 2 ^ 32.

Definition self (b : bool) : Z := if b then 1 else 0.

Lemma checkConsensusReached_spec agreeing total countSelf pct reachedMax st :
  headcount agreeing -> headcount total ->
  checkConsensusReached agreeing total countSelf pct reachedMax st = true <->
  (total = 0 /\ reachedMax = true) \/
  (0 < total /\ (st = true \/
     pct * (total + self countSelf) <= 100 * (agreeing + self countSelf))).
Proof.
  intros Ha Ht. unfold headcount in *. unfold checkConsensusReached.
  destruct (Z.eqb_spec total 0) as [->|Hne]; [naive_solver lia|].
  destruct st; [naive_solver lia|].
  destruct countSelf; cbn [self].
  - rewrite (size_t_small (agreeing + 1)), (size_t_small (total + 1)), size_t_small by lia.
    rewrite Z.leb_le, percent_ge by lia. naive_solver lia.
  - rewrite size_t_small by lia. rewrite Z.leb_le, percent_ge, !Z.add_0_r by lia. naive_solver lia.
Qed.

Lemma clamp_le v lo hi : lo <= hi -> lo <= clamp v lo hi <= hi.
Proof. unfold clamp. destruct (Z.ltb_spec v lo), (Z.ltb_spec hi v); lia. Qed.

(** *** Votes *)

Definition count_votes (b : bool) (votes : gmap N bool) : Z :=
  Z.of_nat (size (filter (fun kv => kv.2 = b) votes)).

Lemma count_votes_insert_new b votes p v :
  votes !! p = None -> count_votes b (<[p := v]> votes) = count_votes b votes + self (Bool.eqb v b).
Proof.
  intros Hp. unfold count_votes. destruct (Bool.eqb_spec v b) as [Hv|Hv]; cbn [self].
  - rewrite map_filter_insert_True by done. rewrite map_size_insert_None; [lia|].
    apply map_lookup_filter_None. by left.
  - rewrite map_filter_insert_False by done. rewrite delete_id by done. lia.
Qed.

Lemma count_votes_delete b votes p v :
  votes !! p = Some v -> count_votes b votes = count_votes b (delete p votes) + self (Bool.eqb v b).
Proof.
  intros Hp. rewrite <-(insert_delete_id votes p v Hp) at 1.
  by rewrite count_votes_insert_new by apply lookup_delete_eq.
Qed.

Lemma count_votes_insert b votes p v w :
  votes !! p = Some v ->
  count_votes b (<[p := w]> votes) =
  count_votes b votes - self (Bool.eqb v b) + self (Bool.eqb w b).
Proof.
  intros Hp. rewrite (count_votes_delete b votes p v Hp), <-insert_delete_eq.
  rewrite count_votes_insert_new by apply lookup_delete_eq. lia.
Qed.

(** The tallies are the counts of the votes. *)
Definition tallied d : Prop :=
  yays_ d = count_votes true (votes_ d) /\ nays_ d = count_votes false (votes_ d).

Lemma setVote_spec d p v :
  tallied d ->
  (setVote d p v).1 = negb (bool_decide (votes_ d !! p = Some v)) /\
  votes_ (setVote d p v).2 = <[p := v]> (votes_ d) /\ tallied (setVote d p v).2 /\
  ourVote_ (setVote d p v).2 = ourVote_ d.
Proof.
  intros [Hy Hn]. unfold setVote, tallied.
  destruct (votes_ d !! p) as [b|] eqn:Hp.
  - destruct v, b; cbn; split_and!; rewrite ?insert_id by done; try done;
      rewrite (count_votes_insert _ _ _ _ _ Hp); cbn; lia.
  - destruct v; cbn; split_and!; try done; rewrite count_votes_insert_new by done; cbn; lia.
Qed.

Lemma unVote_spec d p :
  tallied d ->
  votes_ (unVote d p) = delete p (votes_ d) /\ tallied (unVote d p) /\
  ourVote_ (unVote d p) = ourVote_ d.
Proof.
  intros [Hy Hn]. unfold unVote, tallied.
  destruct (votes_ d !! p) as [b|] eqn:Hp; [|by rewrite delete_id].
  pose proof (count_votes_delete true _ _ _ Hp). pose proof (count_votes_delete false _ _ _ Hp).
  destruct b; cbn in *; split_and!; try done; lia.
Qed.

Lemma updateVote_votes d t b p :
  votes_ (updateVote d t b p).2 = votes_ d /\ yays_ (updateVote d t b p).2 = yays_ d /\
  nays_ (updateVote d t b p).2 = nays_ d.
Proof.
  unfold updateVote. destruct (_ && _); [done|]. destruct (_ && _); [done|].
  destruct (getNeededWeight _ _ _ _ _) as [pct ns].
  by destruct ns; case_bool_decide.
Qed.

(** How far the avalanche has come. *)
Definition rank (s : AvalancheState) : Z :=
  match s with Init => 0 | Mid => 1 | Late => 2 | Stuck => 3 end.

Lemma getNeededWeight_spec s t rounds pct ns :
  getNeededWeight defaultParms s t rounds 2 = (pct, ns) ->
  match ns with
  | None => pct = consensusPct (cutoffs s)
  | Some s' => rank s' = rank s + 1 /\ 2 <= rounds /\ consensusTime (cutoffs s') <= t /\
               pct = consensusPct (cutoffs s')
  end.
Proof.
  unfold getNeededWeight. destruct (_ && (2 <=? rounds)) eqn:E.
  - apply andb_prop in E as [Hn Hr%Z.leb_le].
    destruct (Z.leb_spec (consensusTime (avalancheCutoffs defaultParms
      (next (avalancheCutoffs defaultParms s)))) t); intros [= <- <-]; [|done].
    destruct s; cbn in *; split_and!; done || lia.
  - by intros [= <- <-].
Qed.

(** Peers' votes in range and counted. *)
Definition dispute_ok d : Prop :=
  headcount (yays_ d) /\ headcount (nays_ d) /\ 0 <= avalancheCounter_ d < 2 ^ 64 - 1.

(** The outcome of [updateVote] when the vote is contested. *)
Lemma updateVote_contested d t proposing :
  dispute_ok d ->
  (ourVote_ d && (nays_ d =? 0)) || (negb (ourVote_ d) && (yays_ d =? 0)) = false ->
  let d' := (updateVote d t proposing defaultParms).2 in
  exists pct ns, getNeededWeight defaultParms (avalancheState_ d) t (avalancheCounter_ d + 1) 2
                 = (pct, ns) /\
    avalancheState_ d' = default (avalancheState_ d) ns /\
    avalancheCounter_ d' = (match ns with Some _ => 0 | None => avalancheCounter_ d + 1 end) /\
    ourVote_ d' = (if proposing
                   then bool_decide ((pct + 1) * (nays_ d + yays_ d + 1) <=
                                     100 * (yays_ d + self (ourVote_ d)))
                   else (nays_ d <? yays_ d)) /\
    (updateVote d t proposing defaultParms).1 = negb (Bool.eqb (ourVote_ d') (ourVote_ d)).
Proof.
  intros (Hy & Hn & Hc) [E1 E2]%orb_false_iff. unfold headcount in *. cbv zeta.
  unfold updateVote. rewrite E1, E2. rewrite size_t_small by lia.
  destruct (getNeededWeight defaultParms _ t _ (avMinRounds defaultParms)) as [pct ns] eqn:Eg.
  exists pct, ns. change (avMinRounds defaultParms) with 2 in Eg.
  set (pos := if proposing then _ else (nays_ d <? yays_ d)).
  assert (pos = if proposing
                   then bool_decide ((pct + 1) * (nays_ d + yays_ d + 1) <=
                                     100 * (yays_ d + self (ourVote_ d)))
                   else (nays_ d <? yays_ d)) as <-.
  { subst pos. destruct proposing; [|done].
    replace (yays_ d * 100 + _) with ((yays_ d + self (ourVote_ d)) * 100)
      by (destruct (ourVote_ d); cbn; lia).
    rewrite Z.quot_div_nonneg by (destruct (ourVote_ d); cbn; lia).
    pose proof (percent_gt (yays_ d + self (ourVote_ d)) (nays_ d + yays_ d + 1) pct ltac:(lia)) as Hp.
    case_bool_decide; destruct (Z.ltb_spec pct ((yays_ d + self (ourVote_ d)) * 100 /
      (nays_ d + yays_ d + 1))); naive_solver lia. }
  destruct ns as [s|]; cbn; case_bool_decide as Hv; cbn; rewrite ?Hv; split_and!; try done;
    by destruct pos, (ourVote_ d).
Qed.

Lemma stalled_sound d proposing peersUnchanged :
  dispute_ok d -> stalled d defaultParms proposing peersUnchanged = true ->
  let support := yays_ d + self (proposing && ourVote_ d) in
  let total := nays_ d + yays_ d + self proposing in
  avalancheState_ d = Stuck /\ 0 < total /\
  (81 * total <= 100 * support \/ 100 * support < 20 * total).
Proof.
  intros (Hy & Hn & _). unfold headcount in *. cbv zeta. unfold stalled.
  destruct ((_ <? _) || (avalancheCounter_ d <? _)) eqn:E1; [done|].
  assert (avalancheState_ d = Stuck) as ->.
  { apply orb_false_iff in E1 as [E1 _]. by destruct (avalancheState_ d). }
  destruct (proposing && _); [done|]. destruct ((_ <? _) && _); [done|].
  change (if proposing && ourVote_ d then 1 else 0) with (self (proposing && ourVote_ d)).
  change (if proposing then 1 else 0) with (self proposing).
  set (support := yays_ d + self (proposing && ourVote_ d)).
  set (total := nays_ d + yays_ d + self proposing).
  assert (0 <= support /\ 0 <= total) as [Hs Ht].
  { unfold support, total. destruct proposing, (ourVote_ d); cbn; lia. }
  destruct (Z.eqb_spec total 0); [done|]. rewrite Z.quot_div_nonneg by lia.
  intros [Hw%Z.ltb_lt|Hw%Z.ltb_lt]%orb_prop; cbn in Hw; split_and!; try done; try lia.
  - left. apply percent_gt in Hw; lia.
  - right. apply Z.nle_gt. intros Hle. apply (percent_ge support total 20) in Hle; lia.
Qed.

(** The verdict, case by case. *)
Lemma checkConsensus_cases prevProposers currentProposers currentAgree currentFinished
    previousAgreeTime currentAgreeTime st proposing :
  headcount prevProposers -> headcount currentProposers -> headcount currentAgree ->
  headcount currentFinished ->
  let agree := 80 * (currentProposers + self proposing) <= 100 * (currentAgree + self proposing) in
  let reached := currentProposers = 0 /\ 15000 < currentAgreeTime \/
                 0 < currentProposers /\ (st = true \/ agree) in
  let moved := currentProposers = 0 /\ 15000 < currentAgreeTime \/
               0 < currentProposers /\ 80 * currentProposers <= 100 * currentFinished in
  let early := 4 * currentProposers < 3 * prevProposers /\
               currentAgreeTime < previousAgreeTime + 1950 in
  let v := checkConsensus prevProposers currentProposers currentAgree currentFinished
             previousAgreeTime currentAgreeTime st defaultParms proposing in
  v = No /\ currentAgreeTime <= 1950 \/
  v = No /\ 1950 < currentAgreeTime /\ early \/
  v = Yes /\ 1950 < currentAgreeTime /\ reached \/
  v = MovedOn /\ 1950 < currentAgreeTime /\ ~ reached /\ moved \/
  v = Expired /\ 1950 < currentAgreeTime /\ ~ reached /\ ~ moved /\
    clamp (previousAgreeTime * 10) 15000 120000 < currentAgreeTime \/
  v = No /\ 1950 < currentAgreeTime /\ ~ reached /\ ~ moved /\
    currentAgreeTime <= clamp (previousAgreeTime * 10) 15000 120000.
Proof.
  intros Hpp Hcp Hca Hcf agree reached moved early v.
  assert (checkConsensusReached currentAgree currentProposers proposing 80
    (15000 <? currentAgreeTime) st = true <-> reached) as H1.
  { rewrite checkConsensusReached_spec by done. by rewrite Z.ltb_lt. }
  assert (checkConsensusReached currentFinished currentProposers false 80
    (15000 <? currentAgreeTime) false = true <-> moved) as H2.
  { rewrite checkConsensusReached_spec by done. cbn [self].
    rewrite Z.ltb_lt, !Z.add_0_r. unfold moved. naive_solver. }
  subst v. unfold checkConsensus. cbn [defaultParms ledgerMinConsensus ledgerMaxConsensus
    minConsensusPct ledgerAbandonConsensusFactor ledgerAbandonConsensus].
  rewrite size_t_small by (unfold headcount in *; lia).
  destruct (Z.leb_spec currentAgreeTime 1950); [by left|right].
  destruct ((currentProposers <? _) && _) eqn:Ee.
  { apply andb_prop in Ee as [Ha%Z.ltb_lt Hb%Z.ltb_lt]. left. split; [done|split; [done|split; [|done]]].
    pose proof (Z.mul_div_le (prevProposers * 3) 4). lia. }
  right. destruct (checkConsensusReached currentAgree _ _ _ _ _); [left; tauto|right].
  assert (~ reached) by (intros Hr; by apply H1 in Hr).
  destruct (checkConsensusReached currentFinished _ _ _ _ _); [left; tauto|right].
  assert (~ moved) by (intros Hm; by apply H2 in Hm).
  destruct (Z.ltb_spec (clamp (previousAgreeTime * 10) 15000 120000) currentAgreeTime); tauto.
Qed.

End dispute.

(** ** Properties *)

(** The verdict on a round, with the default parameters and head counts
    below 2^32.  "Yes" needs more than 1.95 seconds and either 80% of the
    proposers in agreement (counting ourselves if we propose), or stalled
    disputes, or 15 seconds without any proposer; "moved on" needs 80% of
    the proposers to have finished and no agreement; enough proposers in 80%
    agreement give "yes"; and after 120 seconds, 1.95 seconds beyond the
    length of the previous round, the verdict is never "no". *)
Theorem consensus_verdict prevProposers currentProposers currentAgree currentFinished
    previousAgreeTime currentAgreeTime st proposing :
  headcount prevProposers -> headcount currentProposers -> headcount currentAgree ->
  headcount currentFinished ->
  let agree := 80 * (currentProposers + self proposing) <= 100 * (currentAgree + self proposing) in
  let v := checkConsensus prevProposers currentProposers currentAgree currentFinished
             previousAgreeTime currentAgreeTime st defaultParms proposing in
  (v = Yes -> 1950 < currentAgreeTime /\
     (currentProposers = 0 /\ 15000 < currentAgreeTime \/
      0 < currentProposers /\ (st = true \/ agree))) /\
  (v = MovedOn -> 1950 < currentAgreeTime /\ 0 < currentProposers /\ st = false /\ ~ agree /\
     80 * currentProposers <= 100 * currentFinished) /\
  (v = Expired -> 15000 < currentAgreeTime /\
     (10 * previousAgreeTime < currentAgreeTime \/ 120000 < currentAgreeTime)) /\
  (1950 < currentAgreeTime -> 0 < currentProposers -> 3 * prevProposers <= 4 * currentProposers ->
     agree -> v = Yes) /\
  (120000 < currentAgreeTime -> previousAgreeTime + 1950 <= currentAgreeTime -> v <> No).
Proof.
  intros Hpp Hcp Hca Hcf agree v.
  pose proof (checkConsensus_cases prevProposers currentProposers currentAgree currentFinished
    previousAgreeTime currentAgreeTime st proposing Hpp Hcp Hca Hcf) as Hc. cbv zeta in Hc.
  fold agree v in Hc.
  pose proof (clamp_le (previousAgreeTime * 10) 15000 120000 ltac:(lia)) as Hcl.
  assert (clamp (previousAgreeTime * 10) 15000 120000 < currentAgreeTime ->
    10 * previousAgreeTime < currentAgreeTime \/ 120000 < currentAgreeTime) as Hcl'.
  { unfold clamp. destruct (Z.ltb_spec (previousAgreeTime * 10) 15000),
      (Z.ltb_spec 120000 (previousAgreeTime * 10)); lia. }
  unfold headcount in *.
  destruct Hc as [[Hv Hc]|[[Hv Hc]|[[Hv Hc]|[[Hv Hc]|[[Hv Hc]|[Hv Hc]]]]]]; rewrite Hv;
    (split_and!; [intros Eq; try discriminate Eq|intros Eq; try discriminate Eq|
      intros Eq; try discriminate Eq|intros ? ? ? ?|intros ? ?]);
    try done; try tauto; try lia; destruct st; intuition (congruence || lia).
Qed.

Lemma consensus_verdict_witness :
  checkConsensus 4 4 4 0 3000 2500 false defaultParms true = Yes.
Proof.
  destruct (consensus_verdict 4 4 4 0 3000 2500 false true) as (_ & _ & _ & Hy & _);
    [unfold headcount; lia..|].
  apply Hy; cbn; lia.
Defined.

(** What can happen to a dispute during a round. *)
Inductive dispute_step {Tx : Type} : DisputedTx Tx -> DisputedTx Tx -> Prop :=
| step_setVote d peer v : dispute_step d (setVote d peer v).2
| step_unVote d peer : dispute_step d (unVote d peer)
| step_updateVote d t proposing p : dispute_step d (updateVote d t proposing p).2
| step_setOurVote d o : dispute_step d (setOurVote d o).

(** The tallies of a dispute are right: however peers vote, change their
    votes and leave, and however often we reconsider, [yays_] and [nays_]
    are the numbers of peers whose recorded vote is yes and no (so neither
    goes negative), and [setVote] records the vote and reports a change
    exactly when the vote is new or differs from the recorded one. *)
Theorem dispute_tally {Tx : Type} (tx : Tx) ourVote d peer v :
  rtc dispute_step (newDispute tx ourVote) d ->
  yays_ d = count_votes true (votes_ d) /\ nays_ d = count_votes false (votes_ d) /\
  ((setVote d peer v).1 = true <-> votes_ d !! peer <> Some v) /\
  votes_ (setVote d peer v).2 = <[peer := v]> (votes_ d).
Proof.
  intros Hr. assert (tallied d) as Ht.
  { remember (newDispute tx ourVote) as d0 eqn:E.
    assert (tallied d0) as H0 by (subst; split; by vm_compute). clear E.
    induction Hr as [|d1 d2 d3 Hs _ IH]; [done|]. apply IH. destruct Hs as [d p b|d p|d t b p|d o].
    - by apply setVote_spec.
    - by apply unVote_spec.
    - destruct (updateVote_votes d t b p) as (E1 & E2 & E3). unfold tallied. by rewrite E1, E2, E3.
    - done. }
  destruct (setVote_spec d peer v Ht) as (E & Hv & _ & _). destruct Ht as [? ?].
  rewrite E. split_and!; try done; case_bool_decide; naive_solver.
Qed.

Lemma dispute_tally_witness :
  let d := (setVote (newDispute 9%N true) 1 false).2 in
  nays_ d = count_votes false (votes_ d) /\ votes_ (setVote d 1 true).2 = <[1%N := true]> (votes_ d).
Proof.
  destruct (dispute_tally 9%N true (setVote (newDispute 9%N true) 1 false).2 1 true) as (_ & H1 & _ & H2).
  - apply rtc_once. constructor.
  - split; [exact H1|exact H2].
Defined.

(** Proposers that see the same votes end up in agreement: take two
    proposing nodes in the same avalanche state and round, each with the
    votes of all others, so that the number of nodes and the number of yes
    votes, each node's own included, are the same.  Reconsidering at the
    same point of the round leaves both with the same vote, in the same
    state. *)
Theorem dispute_agreement {Tx : Type} (d1 d2 : DisputedTx Tx) t :
  dispute_ok d1 -> dispute_ok d2 ->
  avalancheState_ d1 = avalancheState_ d2 -> avalancheCounter_ d1 = avalancheCounter_ d2 ->
  yays_ d1 + nays_ d1 = yays_ d2 + nays_ d2 ->
  yays_ d1 + self (ourVote_ d1) = yays_ d2 + self (ourVote_ d2) ->
  let d1' := (updateVote d1 t true defaultParms).2 in
  let d2' := (updateVote d2 t true defaultParms).2 in
  ourVote_ d1' = ourVote_ d2' /\ avalancheState_ d1' = avalancheState_ d2' /\
  avalancheCounter_ d1' = avalancheCounter_ d2'.
Proof.
  intros H1 H2 Hs Hc Hn Hy. cbv zeta.
  set (quiet (d : DisputedTx Tx) := (ourVote_ d && (nays_ d =? 0)) || (negb (ourVote_ d) && (yays_ d =? 0))).
  assert (forall d, quiet d = true -> (updateVote d t true defaultParms).2 = d) as Hq.
  { intros d Hd. unfold updateVote. apply orb_prop in Hd as [Hd|Hd]; rewrite Hd; [done|].
    by destruct (ourVote_ d && _). }
  assert (quiet d1 = quiet d2 /\ (quiet d1 = true -> ourVote_ d1 = ourVote_ d2)) as [Eq Ev].
  { unfold quiet, dispute_ok, headcount in *. destruct (ourVote_ d1), (ourVote_ d2); cbn in *;
      rewrite ?orb_false_r; split; try done;
      repeat match goal with |- context [?x =? 0] => destruct (Z.eqb_spec x 0) end;
      try done; lia. }
  destruct (quiet d1) eqn:E1.
  - rewrite !Hq by done. auto.
  - destruct (updateVote_contested d1 t true H1 E1) as (p1 & n1 & G1 & S1 & C1 & V1 & _).
    destruct (updateVote_contested d2 t true H2 (eq_sym Eq)) as (p2 & n2 & G2 & S2 & C2 & V2 & _).
    rewrite Hs, Hc, G2 in G1. injection G1 as -> ->.
    rewrite S1, S2, C1, C2, V1, V2, Hs, Hc. split_and!; [|done|done].
    apply bool_decide_ext. rewrite Hy. replace (nays_ d1 + yays_ d1) with (nays_ d2 + yays_ d2) by lia.
    done.
Qed.

Lemma dispute_agreement_witness :
  let d1 := mkDispute 2 1 false 9%N {[ 1%N := true; 2%N := true; 3%N := false ]} 0 Init 0 in
  let d2 := mkDispute 1 2 true 9%N {[ 1%N := true; 4%N := false; 3%N := false ]} 0 Init 0 in
  ourVote_ (updateVote d1 10 true defaultParms).2 = ourVote_ (updateVote d2 10 true defaultParms).2.
Proof.
  apply (dispute_agreement
    (mkDispute 2 1 false 9%N {[ 1%N := true; 2%N := true; 3%N := false ]} 0 Init 0)
    (mkDispute 1 2 true 9%N {[ 1%N := true; 4%N := false; 3%N := false ]} 0 Init 0) 10);
    unfold dispute_ok, headcount; cbn; lia || done.
Defined.

(** The avalanche only ever tightens: with the default parameters,
    reconsidering a dispute keeps the avalanche state or moves it one step
    on, after at least two rounds and when the time of the next state has
    come; a proposer's vote becomes yes only with more than the percentage
    of the state then reached of all votes, its own included.  A dispute is
    reported stalled only in the last state and with more than 80% of the
    votes for or against. *)
Theorem dispute_avalanche {Tx : Type} (d : DisputedTx Tx) t proposing peersUnchanged :
  dispute_ok d ->
  let d' := (updateVote d t proposing defaultParms).2 in
  (avalancheState_ d' = avalancheState_ d \/
   rank (avalancheState_ d') = rank (avalancheState_ d) + 1 /\ 2 <= avalancheCounter_ d + 1 /\
   consensusTime (cutoffs (avalancheState_ d')) <= t /\ avalancheCounter_ d' = 0) /\
  (proposing = true -> ourVote_ d = false -> ourVote_ d' = true ->
   (consensusPct (cutoffs (avalancheState_ d')) + 1) * (nays_ d + yays_ d + 1) <= 100 * yays_ d) /\
  (stalled d defaultParms proposing peersUnchanged = true ->
   let support := yays_ d + self (proposing && ourVote_ d) in
   let total := nays_ d + yays_ d + self proposing in
   avalancheState_ d = Stuck /\ 0 < total /\
   (81 * total <= 100 * support \/ 100 * support < 20 * total)).
Proof.
  intros Hok. cbv zeta. split_and!.
  - destruct ((ourVote_ d && (nays_ d =? 0)) || (negb (ourVote_ d) && (yays_ d =? 0))) eqn:E.
    { left. unfold updateVote. apply orb_prop in E as [E|E]; rewrite E; [done|].
      by destruct (ourVote_ d && _). }
    destruct (updateVote_contested d t proposing Hok E) as (p & n & G & S & C & _).
    rewrite S, C. apply getNeededWeight_spec in G. destruct n as [s|]; [|by left].
    right. cbn. naive_solver.
  - intros -> Hv. destruct ((ourVote_ d && (nays_ d =? 0)) || (negb (ourVote_ d) && (yays_ d =? 0))) eqn:E.
    { unfold updateVote. rewrite Hv in *. cbn [negb andb orb] in *. rewrite E. cbn. congruence. }
    destruct (updateVote_contested d t true Hok E) as (p & n & G & S & _ & V & _).
    rewrite V, S. intros Hd%bool_decide_eq_true. rewrite Hv in Hd. cbn in Hd.
    apply getNeededWeight_spec in G. destruct n as [s|]; cbn; [destruct G as (_ & _ & _ & ->)|subst p];
      lia.
  - by apply stalled_sound.
Qed.

Lemma dispute_avalanche_witness :
  let d := mkDispute 4 1 false 9%N ∅ 0 Mid 1 in
  avalancheState_ (updateVote d 90 true defaultParms).2 = Mid \/
  rank (avalancheState_ (updateVote d 90 true defaultParms).2) = 2.
Proof.
  destruct (dispute_avalanche (mkDispute 4 1 false 9%N ∅ 0 Mid 1) 90 true 0) as [[H|H] _].
  - unfold dispute_ok, headcount. cbn. lia.
  - left. exact H.
  - right. apply H.
Defined.
