(* ===== verification/LedgerTrie.v ===== *)
(** * The trie of validated ledgers

    [LedgerTrie] (LedgerTrie.h) counts how many validators support each
    ledger and each branch of ledger history, in a compressed trie over the
    sequences of ancestor identifiers, and picks the preferred ledger from
    it.  The ledger type is a template parameter of the code and a class
    here; a node pointer is the path of child indices that leads to it, and
    the parent links are the path read backwards. *)

From S2P Require Import Prelude.
#[local] Set Warnings "-register-all".
Open Scope nat_scope.

(** What the trie uses of a ledger: its sequence number, the identifiers of
    its ancestors ([operator[]]), and the first sequence number at which two
    histories can differ. *)
Class LedgerHistory (L : Type) : Type := {
  led_genesis : L;
  led_seq : L -> nat;
  led_at : L -> nat -> N;
  led_mismatch : L -> L -> nat
}.

Definition wrap32 (n : N) : N := (n mod 2 ^ 32)%N.

Section trie.
Context {L : Type} `{LedgerHistory L}.
Implicit Types (l : L).

Definition led_id l : N := led_at l (led_seq l).

(** ** Spans *)

Record Span : Type := mkSpan { start_ : nat; end_ : nat; ledger_ : L }.

Definition span_of l : Span := mkSpan 0 (led_seq l + 1) l.

Definition clamp (s : Span) (val : nat) : nat := min (max (start_ s) val) (end_ s).

Definition sub (s : Span) (from to : nat) : option Span :=
  let newFrom := clamp s from in
  let newTo := clamp s to in
  if newFrom <? newTo then Some (mkSpan newFrom newTo (ledger_ s)) else None.
Definition from (s : Span) (spot : nat) : option Span := sub s spot (end_ s).
Definition before (s : Span) (spot : nat) : option Span := sub s (start_ s) spot.

Definition startID (s : Span) : N := led_at (ledger_ s) (start_ s).
Definition diff (s : Span) l : nat := clamp s (led_mismatch (ledger_ s) l).

(** [SpanTip]: the tip of a span of ancestry, with the ledger its ancestors
    are looked up in. *)
Record SpanTip : Type := mkSpanTip { tip_seq : nat; tip_id : N; tip_ledger : L }.
Definition tip_ancestor (t : SpanTip) (s : nat) : N := led_at (tip_ledger t) s.

Definition tip (s : Span) : SpanTip :=
  let tipSeq := end_ s - 1 in mkSpanTip tipSeq (led_at (ledger_ s) tipSeq) (ledger_ s).

Definition merge (a b : Span) : Span :=
  if end_ a <? end_ b then mkSpan (min (start_ a) (start_ b)) (end_ b) (ledger_ b)
  else mkSpan (min (start_ a) (start_ b)) (end_ a) (ledger_ a).

(** ** Nodes *)

Inductive Node : Type :=
| mkNode (span : Span) (tipSupport branchSupport : N) (children : list Node).

Definition span (n : Node) : Span := let 'mkNode s _ _ _ := n in s.
Definition tipSupport (n : Node) : N := let 'mkNode _ t _ _ := n in t.
Definition branchSupport (n : Node) : N := let 'mkNode _ _ b _ := n in b.
Definition children (n : Node) : list Node := let 'mkNode _ _ _ cs := n in cs.

(** [Node::erase]: the last child takes the place of the erased one. *)
Definition erase_child (i : nat) (cs : list Node) : list Node :=
  match last cs with
  | None => cs
  | Some b => take (length cs - 1) (<[i := b]> cs)
  end.

Record LedgerTrie : Type := mkTrie { root_ : Node; seqSupport_ : gmap N N }.

Definition emptyTrie : LedgerTrie :=
  mkTrie (mkNode (mkSpan 0 1 led_genesis) 0 0 []) ∅.

(** ** Searching *)

(** The loop of [find] from a node whose span is matched up to [pos]. *)
Fixpoint find_from l (n : Node) (pos : nat) : list nat * nat :=
  match n with
  | mkNode s _ _ cs =>
      if pos =? end_ s then
        (fix go (cs : list Node) (i : nat) : list nat * nat :=
           match cs with
           | [] => ([], pos)
           | c :: cs =>
               let childPos := diff (span c) l in
               if pos <? childPos then
                 let '(path, q) := find_from l c childPos in (i :: path, q)
               else go cs (S i)
           end) cs 0
      else ([], pos)
  end.
Definition find (t : LedgerTrie) l : list nat * nat :=
  find_from l (root_ t) (diff (span (root_ t)) l).

(** [findByLedgerID], in preorder. *)
Fixpoint findByLedgerID (n : Node) l : option (list nat) :=
  match n with
  | mkNode s _ _ cs =>
      if (led_id l =? tip_id (tip s))%N then Some []
      else
        (fix go (cs : list Node) (i : nat) : option (list nat) :=
           match cs with
           | [] => None
           | c :: cs =>
               match findByLedgerID c l with
               | Some path => Some (i :: path)
               | None => go cs (S i)
               end
           end) cs 0
  end.

(** The node a path leads to. *)
Fixpoint node_at (path : list nat) (n : Node) : option Node :=
  match path with
  | [] => Some n
  | i :: path => match children n !! i with Some c => node_at path c | None => None end
  end.

(** ** [insert] *)

(** The changes at the node found, the increments from the new tip up to it
    included. *)
Definition insert_here l (count : N) (diffSeq : nat) (loc : Node) : result Node :=
  let 'mkNode s ts bs cs := loc in
  let prefix := before s diffSeq in
  let oldSuffix := from s diffSeq in
  let newSuffix := from (span_of l) diffSeq in
  '(s, ts, cs) ←
    match oldSuffix with
    | Some suffix =>
        match prefix with
        | Some prefix => Ok (prefix, 0%N, [mkNode suffix ts bs cs])
        | None => Throw "bad optional access"
        end
    | None => Ok (s, ts, cs)
    end;
  match newSuffix with
  | Some suffix =>
      Ok (mkNode s ts (wrap32 (bs + count)) (cs ++ [mkNode suffix (wrap32 count) (wrap32 count) []]))
  | None => Ok (mkNode s (wrap32 (ts + count)) (wrap32 (bs + count)) cs)
  end.

(** Down the path, incrementing the branch support of the ancestors. *)
Fixpoint insert_at (path : list nat) l (count : N) (diffSeq : nat) (n : Node) : result Node :=
  match path with
  | [] => insert_here l count diffSeq n
  | i :: path =>
      let 'mkNode s ts bs cs := n in
      match cs !! i with
      | None => Throw "bad path"
      | Some c =>
          c ← insert_at path l count diffSeq c;
          Ok (mkNode s ts (wrap32 (bs + count)) (<[i := c]> cs))
      end
  end.

Definition insert (t : LedgerTrie) l (count : N) : result LedgerTrie :=
  let '(path, diffSeq) := find t l in
  root ← insert_at path l count diffSeq (root_ t);
  let seq := N.of_nat (led_seq l) in
  Ok (mkTrie root (<[seq := wrap32 (default 0%N (seqSupport_ t !! seq) + count)]> (seqSupport_ t))).

(** ** [remove] *)

(** Down the path: the decrements, and on the way back the compression; the
    flag says that the compression loop has come up to this node. *)
Fixpoint remove_at (path : list nat) (count : N) (n : Node) : result (Node * bool) :=
  let 'mkNode s ts bs cs := n in
  match path with
  | [] => Ok (mkNode s (wrap32 (ts + 2 ^ 32 - count)) (wrap32 (bs + 2 ^ 32 - count)) cs, true)
  | i :: path =>
      match cs !! i with
      | None => Throw "bad path"
      | Some c =>
          '(c, running) ← remove_at path count c;
          let bs := wrap32 (bs + 2 ^ 32 - count) in
          if (running : bool) && (tipSupport c =? 0)%N then
            match children c with
            | [] => Ok (mkNode s ts bs (erase_child i cs), true)
            | [g] =>
                let g := mkNode (merge (span c) (span g)) (tipSupport g) (branchSupport g)
                           (children g) in
                Ok (mkNode s ts bs (erase_child i (<[i := c]> cs ++ [g])), true)
            | _ => Ok (mkNode s ts bs (<[i := c]> cs), false)
            end
          else Ok (mkNode s ts bs (<[i := c]> cs), false)
      end
  end.

Definition remove (t : LedgerTrie) l (count : N) : result (LedgerTrie * bool) :=
  match findByLedgerID (root_ t) l with
  | None => Ok (t, false)
  | Some path =>
      match node_at path (root_ t) with
      | None => Throw "bad path"
      | Some loc =>
          if (tipSupport loc =? 0)%N then Ok (t, false)
          else
            let count := N.min count (tipSupport loc) in
            let seq := N.of_nat (led_seq l) in
            match seqSupport_ t !! seq with
            | None => Throw "end iterator"
            | Some sup =>
                let sup := wrap32 (sup + 2 ^ 32 - count) in
                let seqSupport := if (sup =? 0)%N then delete seq (seqSupport_ t)
                                  else <[seq := sup]> (seqSupport_ t) in
                '(root, _) ← remove_at path count (root_ t);
                Ok (mkTrie root seqSupport, true)
            end
      end
  end.

(** ** Queries *)

Definition tipSupportOf (t : LedgerTrie) l : N :=
  match findByLedgerID (root_ t) l with
  | Some path => match node_at path (root_ t) with Some n => tipSupport n | None => 0%N end
  | None => 0%N
  end.

Definition branchSupportOf (t : LedgerTrie) l : N :=
  match findByLedgerID (root_ t) l with
  | Some path => match node_at path (root_ t) with Some n => branchSupport n | None => 0%N end
  | None =>
      let '(path, diffSeq) := find t l in
      match node_at path (root_ t) with
      | Some n => if (led_seq l <? diffSeq) && (led_seq l <? end_ (span n)) then branchSupport n
                  else 0%N
      | None => 0%N
      end
  end.

Definition empty (t : LedgerTrie) : bool := (branchSupport (root_ t) =? 0)%N.

(** ** [getPreferred] *)

(** The comparator of [partial_sort]: more branch support first, ties broken
    by the larger starting identifier. *)
Definition better (a b : Node) : bool :=
  (branchSupport b <? branchSupport a)%N ||
  ((branchSupport b =? branchSupport a)%N && (startID (span b) <? startID (span a))%N).

Definition not_worse (a b : Node) : Prop := better b a = false.
#[export] Instance not_worse_dec a b : Decision (not_worse a b).
Proof. unfold not_worse. apply _. Defined.

(** The children with the two best in front. *)
Definition ranked (cs : list Node) : list Node := merge_sort not_worse cs.

(** The best child and its margin over the next. *)
Definition best_child (cs : list Node) : option (Node * N) :=
  match cs with
  | [] => None
  | [c] => Some (c, branchSupport c)
  | _ =>
      match ranked cs with
      | c1 :: c2 :: _ =>
          let margin := wrap32 (branchSupport c1 + 2 ^ 32 - branchSupport c2) in
          Some (c1, if (startID (span c2) <? startID (span c1))%N then wrap32 (margin + 1) else margin)
      | _ => None
      end
  end.

(** Support of sequence numbers below [bound], added up. *)
Fixpoint uncommitted_before (bound : nat) (uncommitted : N) (it : list (N * N)) : N * list (N * N) :=
  match it with
  | [] => (uncommitted, [])
  | (s, c) :: it' =>
      if (s <? N.of_nat bound)%N then uncommitted_before bound (wrap32 (uncommitted + c)) it'
      else (uncommitted, it)
  end.

(** Along a span, from one change of the support to the next. *)
Fixpoint advance (end_ : nat) (branch : N) (nextSeq : nat) (uncommitted : N) (it : list (N * N))
    : nat * N * list (N * N) :=
  if (nextSeq <? end_) && (uncommitted <? branch)%N then
    match it with
    | [] => (end_, uncommitted, it)
    | (s, c) :: it' =>
        if (s <? N.of_nat end_)%N
        then advance end_ branch (N.to_nat s + 1) (wrap32 (uncommitted + c)) it'
        else (end_, uncommitted, it)
    end
  else (nextSeq, uncommitted, it).

Fixpoint preferred_from (fuel : nat) (largestIssued : nat) (curr : Node) (uncommitted : N)
    (it : list (N * N)) : result SpanTip :=
  match fuel with
  | O => Throw "out of fuel"
  | S fuel =>
      let s := span curr in
      let nextSeq := start_ s + 1 in
      let '(uncommitted, it) := uncommitted_before (max nextSeq largestIssued) uncommitted it in
      let '(nextSeq, uncommitted, it) :=
        advance (end_ s) (branchSupport curr) nextSeq uncommitted it in
      if nextSeq <? end_ s then
        match before s nextSeq with
        | Some s => Ok (tip s)
        | None => Throw "bad optional access"
        end
      else
        match best_child (children curr) with
        | Some (best, margin) =>
            if (uncommitted <? margin)%N || (uncommitted =? 0)%N
            then preferred_from fuel largestIssued best uncommitted it
            else Ok (tip s)
        | None => Ok (tip s)
        end
  end.

(** A round of the loop goes one level down. *)
Fixpoint height (n : Node) : nat :=
  match n with mkNode _ _ _ cs => S (foldr (fun c h => max (height c) h) 0 cs) end.

Definition getPreferred (t : LedgerTrie) (largestIssued : nat) : result (option SpanTip) :=
  if empty t then Ok None
  else
    p ← preferred_from (height (root_ t)) largestIssued (root_ t) 0 (ordered (seqSupport_ t));
    Ok (Some p).

(** ** [checkInvariants] *)

Fixpoint check_node (is_root : bool) (n : Node) : bool :=
  match n with
  | mkNode _ ts bs cs =>
      (is_root || negb (ts =? 0)%N || (2 <=? length cs)) &&
      (fold_left (fun support c => support + branchSupport c)%N cs ts =? bs)%N &&
      forallb (check_node false) cs
  end.

(** The tip supports by sequence number. *)
Fixpoint tips (n : Node) : list (N * N) :=
  match n with
  | mkNode s ts _ cs =>
      (if (ts =? 0)%N then [] else [(N.of_nat (end_ s - 1), ts)]) ++ concat (map tips cs)
  end.
Definition expectedSeqSupport (n : Node) : gmap N N :=
  foldr (fun x m => <[x.1 := wrap32 (default 0%N (m !! x.1) + x.2)]> m) ∅ (tips n).

Definition checkInvariants (t : LedgerTrie) : bool :=
  check_node true (root_ t) && bool_decide (expectedSeqSupport (root_ t) = seqSupport_ t).
End trie.
