(* ===== verification/LedgerTrieSpec.v ===== *)
(** * What the trie of ledgers stands for

    A ledger stands for its history, the list of the identifiers of its
    ancestors and itself; a trie stands for a multiset of histories.  The
    shape of the nodes ([wf]) and the weight of a set of histories
    ([weight]) are defined here, with what [find], [insert] and [remove] do to
    them (LedgerTrie.h). *)

From S2P Require Import Prelude LedgerTrie.
#[local] Set Warnings "-register-all".
Open Scope nat_scope.

(** ** Ledgers with a unique history *)

(** The ledgers that belong to one tree of histories. *)
Class LedgerOk (L : Type) : Type := ok : L -> Prop.

(** The documented contract of the [Ledger] template parameter for them. *)
Class LedgerHistoryLaws (L : Type) `{LedgerHistory L, LedgerOk L} : Prop := {
  genesis_ok : ok led_genesis;
  genesis_seq : led_seq led_genesis = 0;
  genesis_common : forall l, ok l -> led_at l 0 = led_at led_genesis 0;
  mismatch_bound : forall a b, ok a -> ok b ->
    led_mismatch a b <= S (min (led_seq a) (led_seq b));
  mismatch_common : forall a b i, ok a -> ok b -> i < led_mismatch a b -> led_at a i = led_at b i;
  mismatch_first : forall a b, ok a -> ok b ->
    led_mismatch a b <= led_seq a -> led_mismatch a b <= led_seq b ->
    led_at a (led_mismatch a b) <> led_at b (led_mismatch a b);
  unique_history : forall a b i j, ok a -> ok b -> i <= led_seq a -> j <= led_seq b ->
    led_at a i = led_at b j -> i = j /\ forall k, k <= i -> led_at a k = led_at b k
}.

(** ** Sums over a list *)

Definition sum_with {A} (f : A -> N) (xs : list A) : N := foldr (fun x acc => f x + acc)%N 0%N xs.

#[global] Arguments sum_with : simpl never.

Lemma sum_with_app {A} (f : A -> N) xs ys : sum_with f (xs ++ ys) = (sum_with f xs + sum_with f ys)%N.
Proof. unfold sum_with. induction xs; simpl; [done|lia]. Qed.

Lemma sum_with_cons {A} (f : A -> N) x xs : sum_with f (x :: xs) = (f x + sum_with f xs)%N.
Proof. done. Qed.

Lemma sum_with_nil {A} (f : A -> N) : sum_with f [] = 0%N.
Proof. done. Qed.

Lemma sum_with_perm {A} (f : A -> N) xs ys : xs ≡ₚ ys -> sum_with f xs = sum_with f ys.
Proof. unfold sum_with. induction 1; simpl; lia. Qed.

Lemma sum_with_ext {A} (f g : A -> N) xs :
  Forall (fun x => f x = g x) xs -> sum_with f xs = sum_with g xs.
Proof. unfold sum_with. induction 1; simpl; congruence. Qed.

Lemma sum_with_zero {A} (f : A -> N) xs : Forall (fun x => f x = 0%N) xs -> sum_with f xs = 0%N.
Proof. unfold sum_with. induction 1; simpl; lia. Qed.

Lemma sum_with_insert {A} (f : A -> N) xs i x y :
  xs !! i = Some x -> (sum_with f (<[i := y]> xs) + f x = sum_with f xs + f y)%N.
Proof.
  intros Hi. assert (i < length xs) by (by eapply lookup_lt_Some).
  rewrite insert_take_drop by done. rewrite <-(take_drop_middle xs i x) at 3 by done.
  rewrite !sum_with_app, !sum_with_cons. lia.
Qed.

Lemma sum_with_le {A} (f : A -> N) xs x : x ∈ xs -> (f x <= sum_with f xs)%N.
Proof. unfold sum_with. induction 1; simpl; lia. Qed.

Lemma wrap32_small n : (n < 2 ^ 32)%N -> wrap32 n = n.
Proof. apply N.mod_small. Qed.
Lemma wrap32_sub a b : (b <= a < 2 ^ 32)%N -> wrap32 (a + 2 ^ 32 - b) = (a - b)%N.
Proof.
  intros. unfold wrap32. replace (a + 2 ^ 32 - b)%N with (a - b + 1 * 2 ^ 32)%N by lia.
  rewrite N.Div0.mod_add. apply N.mod_small. lia.
Qed.

Section spec.
Context {L : Type} `{LedgerHistoryLaws L}.
Implicit Types (l : L) (s : Span (L := L)) (n c g : Node (L := L)) (p h : list N) (P Q : list N -> bool).

(** ** Histories *)

Definition hist l : list N := led_at l <$> seq 0 (S (led_seq l)).
Arguments hist : simpl never.

Lemma hist_length l : length (hist l) = S (led_seq l).
Proof. unfold hist. by rewrite length_fmap, length_seq. Qed.
Lemma hist_lookup l i : i <= led_seq l -> hist l !! i = Some (led_at l i).
Proof.
  intros. unfold hist. rewrite list_lookup_fmap, lookup_seq_lt by lia. done.
Qed.
Lemma take_hist_S l i : i <= led_seq l -> take (S i) (hist l) = take i (hist l) ++ [led_at l i].
Proof. intros. apply take_S_r. by apply hist_lookup. Qed.

Lemma take_hist_ext a b k :
  k <= S (led_seq a) -> k <= S (led_seq b) ->
  take k (hist a) = take k (hist b) <-> (forall i, i < k -> led_at a i = led_at b i).
Proof.
  intros Ha Hb. split.
  - intros E i Hi.
    assert (take k (hist a) !! i = take k (hist b) !! i) as Ei by by rewrite E.
    rewrite !lookup_take_lt, !hist_lookup in Ei by lia. by simplify_eq.
  - intros E. induction k as [|k IH]; [by rewrite !take_0|].
    rewrite !take_hist_S by lia. rewrite IH by (auto; lia). by rewrite E by lia.
Qed.

(** The mismatch is the length of the longest common prefix. *)
Lemma mismatch_spec a b k : ok a -> ok b ->
  k <= led_mismatch a b <->
  k <= S (led_seq a) /\ k <= S (led_seq b) /\ take k (hist a) = take k (hist b).
Proof.
  intros Ha Hb. pose proof (mismatch_bound a b Ha Hb) as Hm. split.
  - intros Hk. split_and!; [lia|lia|]. apply take_hist_ext; [lia..|].
    intros i Hi. apply mismatch_common; [done..|lia].
  - intros (Hka & Hkb & E). destruct (decide (k <= led_mismatch a b)) as [|Hn]; [done|exfalso].
    eapply (mismatch_first a b); [done|done|lia|lia|].
    eapply take_hist_ext; [..|exact E|]; lia.
Qed.

Lemma mismatch_pos a b : ok a -> ok b -> 1 <= led_mismatch a b.
Proof.
  intros Ha Hb. apply mismatch_spec; [done..|]. split_and!; [lia|lia|].
  apply take_hist_ext; [lia..|]. intros i Hi. replace i with 0 by lia.
  by rewrite (genesis_common a), (genesis_common b).
Qed.

(** Histories that end in the same identifier are equal. *)
Lemma same_id_take a b i j : ok a -> ok b -> i <= led_seq a -> j <= led_seq b ->
  led_at a i = led_at b j -> i = j /\ take (S i) (hist a) = take (S j) (hist b).
Proof.
  intros ?? ?? E. destruct (unique_history a b i j) as [-> Hk]; [done..|]. split; [done|].
  apply take_hist_ext; [lia..|]. intros k ?. apply Hk. lia.
Qed.

(** ** Spans *)

(** The history of the tip of a span. *)
Definition shist s : list N := take (end_ s) (hist (ledger_ s)).

Record span_ok s : Prop := {
  span_ledger : ok (ledger_ s);
  span_nonempty : start_ s < end_ s;
  span_bound : end_ s <= S (led_seq (ledger_ s))
}.

Lemma shist_length s : span_ok s -> length (shist s) = end_ s.
Proof. intros [_ _ Hb]. unfold shist. rewrite length_take, hist_length. lia. Qed.

Lemma shist_start s : span_ok s ->
  take (start_ s) (hist (ledger_ s)) ++ [startID s] = take (S (start_ s)) (hist (ledger_ s)).
Proof. intros [_ ? ?]. rewrite take_hist_S by lia. done. Qed.

Lemma shist_prefix s : span_ok s ->
  (take (start_ s) (hist (ledger_ s)) ++ [startID s]) `prefix_of` shist s.
Proof.
  intros Hs. rewrite shist_start by done. unfold shist.
  replace (take (S (start_ s)) (hist (ledger_ s)))
    with (take (S (start_ s)) (take (end_ s) (hist (ledger_ s)))).
  - apply prefix_take.
  - rewrite take_take. f_equal. destruct Hs. lia.
Qed.

Lemma diff_bounds s l : span_ok s -> start_ s <= diff s l <= end_ s.
Proof. intros [_ ? _]. unfold diff, clamp. lia. Qed.

Lemma diff_common s l q : span_ok s -> ok l -> start_ s < q ->
  q <= diff s l <->
  q <= end_ s /\ q <= S (led_seq l) /\ take q (hist (ledger_ s)) = take q (hist l).
Proof.
  intros [Hok Hne Hb] Hl Hq. unfold diff, clamp.
  pose proof (mismatch_spec (ledger_ s) l q Hok Hl). naive_solver lia.
Qed.

Lemma diff_first s l : span_ok s -> ok l -> start_ s < diff s l -> diff s l < end_ s ->
  diff s l <= led_seq l -> led_at (ledger_ s) (diff s l) <> led_at l (diff s l).
Proof.
  intros [Hok Hne Hb] Hl. unfold diff, clamp. intros ???.
  replace (min (max (start_ s) (led_mismatch (ledger_ s) l)) (end_ s))
    with (led_mismatch (ledger_ s) l) in * by lia.
  apply mismatch_first; [done..| |]; lia.
Qed.

(** Whether a span that starts where the matched part ends goes on with the
    ledger is seen from its first identifier. *)
Lemma diff_starts s l : span_ok s -> ok l ->
  start_ s < diff s l <-> start_ s <= led_seq l /\ startID s = led_at l (start_ s).
Proof.
  intros Hs Hl. split.
  - intros Hd. apply diff_common in Hd as (_ & Hq & E); [|done..|lia].
    assert (start_ s <= led_seq l) as Hle by lia. split; [done|].
    destruct Hs. eapply take_hist_ext; [..|exact E|]; lia.
  - intros [Hle E]. apply (diff_common s l (S (start_ s))); [done..|lia|].
    destruct Hs. split_and!; [lia..|].
    by eapply same_id_take; [..|exact E]; [done..|lia|lia].
Qed.
(** ** Nodes *)

Lemma Node_ind' (R : Node (L := L) -> Prop) :
  (forall s ts bs cs, Forall R cs -> R (mkNode s ts bs cs)) -> forall n, R n.
Proof.
  intros IH. fix F 1. intros [s ts bs cs]. apply IH.
  induction cs as [|c cs IHcs]; constructor; [apply F|apply IHcs].
Qed.

(** The support of the histories that satisfy [P]. *)
Fixpoint weight P n : N :=
  match n with
  | mkNode s ts _ cs => ((if P (shist s) then ts else 0) + sum_with (weight P) cs)%N
  end.

(** A node below the history [p]; the root is exempt from the compression. *)
Inductive wf : bool -> list N -> Node (L := L) -> Prop :=
| wf_node (r : bool) p s ts bs cs :
    span_ok s -> p = take (start_ s) (hist (ledger_ s)) ->
    (r = false -> ts = 0%N -> 2 <= length cs) ->
    bs = (ts + sum_with branchSupport cs)%N ->
    NoDup ((fun c => startID (span c)) <$> cs) ->
    Forall (wf false (shist s)) cs ->
    wf r p (mkNode s ts bs cs).

Lemma wf_span r p n : wf r p n -> span_ok (span n).
Proof. by inversion 1. Qed.
Lemma wf_before r p n : wf r p n -> p = take (start_ (span n)) (hist (ledger_ (span n))).
Proof. by inversion 1. Qed.
Lemma wf_start r p n : wf r p n -> length p = start_ (span n).
Proof.
  intros Hw. rewrite (wf_before _ _ _ Hw), length_take, hist_length.
  destruct (wf_span _ _ _ Hw). lia.
Qed.
Lemma wf_root r p n : wf r p n -> wf true p n.
Proof. inversion 1; subst. by constructor. Qed.

(** The history a subtree starts with: all the histories in it extend it. *)
Definition top p n : list N := p ++ [startID (span n)].

Lemma wf_top r p n : wf r p n -> top p n = take (S (length p)) (hist (ledger_ (span n))).
Proof.
  intros Hw. unfold top. rewrite (wf_start _ _ _ Hw), (wf_before _ _ _ Hw) at 1.
  apply shist_start. by eapply wf_span.
Qed.
Lemma wf_top_shist r p n : wf r p n -> top p n `prefix_of` shist (span n).
Proof.
  intros Hw. unfold top. rewrite (wf_before _ _ _ Hw) at 1. apply shist_prefix. by eapply wf_span.
Qed.
Lemma top_child h c : h `prefix_of` top h c.
Proof. by eexists. Qed.

Lemma weight_ext r p n P Q : wf r p n ->
  (forall h, top p n `prefix_of` h -> P h = Q h) -> weight P n = weight Q n.
Proof.
  revert r p. induction n as [s ts bs cs IH] using Node_ind'; intros r p Hw HPQ.
  pose proof (wf_top_shist _ _ _ Hw) as Htop. simpl in Htop |- *.
  rewrite HPQ by done. f_equal. apply sum_with_ext.
  inversion Hw as [? ? ? ? ? ? ? ? ? ? ? Hcs]; subst.
  rewrite Forall_forall in *. intros c Hc. eapply IH; [done|by apply Hcs|].
  intros h Hh. apply HPQ. etrans; [exact Htop|]. etrans; [apply top_child|exact Hh].
Qed.

Lemma weight_all r p n : wf r p n -> weight (fun _ => true) n = branchSupport n.
Proof.
  revert r p. induction n as [s ts bs cs IH] using Node_ind'; intros r p Hw. simpl.
  inversion Hw as [? ? ? ? ? ? ? ? ? Hbs ? Hcs]; subst. f_equal. apply sum_with_ext.
  rewrite Forall_forall in *. intros c Hc. eapply IH; [done|by apply Hcs].
Qed.

Lemma weight_none n : weight (fun _ => false) n = 0%N.
Proof.
  induction n as [s ts bs cs IH] using Node_ind'. simpl. by rewrite sum_with_zero.
Qed.

Lemma weight_add n P Q : (forall h, P h = true -> Q h = false) ->
  weight (fun h => P h || Q h) n = (weight P n + weight Q n)%N.
Proof.
  intros Hd. induction n as [s ts bs cs IH] using Node_ind'. simpl.
  assert (sum_with (weight (fun h => P h || Q h)) cs
          = (sum_with (weight P) cs + sum_with (weight Q) cs)%N) as ->.
  { clear -IH. induction IH as [|c cs E _ IH]; [done|]. rewrite !sum_with_cons, E, IH. lia. }
  specialize (Hd (shist s)). destruct (P (shist s)), (Q (shist s)); simpl;
    [by specialize (Hd eq_refl)|lia..].
Qed.

(** Every history in the subtree satisfies [P], or none does. *)
Lemma weight_inside r p n P : wf r p n -> (forall h, top p n `prefix_of` h -> P h = true) ->
  weight P n = branchSupport n.
Proof. intros Hw HP. rewrite <-(weight_all _ _ _ Hw). by eapply weight_ext. Qed.
Lemma weight_outside r p n P : wf r p n -> (forall h, top p n `prefix_of` h -> P h = false) ->
  weight P n = 0%N.
Proof. intros Hw HP. rewrite <-(weight_none n). by eapply weight_ext. Qed.

Lemma weight_le r p n P : wf r p n -> (weight P n <= branchSupport n)%N.
Proof.
  revert r p. induction n as [s ts bs cs IH] using Node_ind'; intros r p Hw. simpl.
  inversion Hw as [? ? ? ? ? ? ? ? ? Hbs ? Hcs]; subst.
  assert (sum_with (weight P) cs <= sum_with branchSupport cs)%N; [|destruct (P _); lia].
  clear -IH Hcs. induction cs as [|c cs IHcs]; [done|]. rewrite !sum_with_cons.
  apply Forall_cons in IH as [IHc IH]. apply Forall_cons in Hcs as [Hc Hcs].
  specialize (IHc _ _ Hc). specialize (IHcs IH Hcs). lia.
Qed.

Lemma wf_positive p n : wf false p n -> (0 < branchSupport n)%N.
Proof.
  revert p. induction n as [s ts bs cs IH] using Node_ind'; intros p Hw.
  inversion Hw as [? ? ? ? ? ? ? ? Hz Hbs ? Hcs]; subst. simpl.
  destruct (decide (ts = 0%N)) as [->|]; [|lia].
  specialize (Hz eq_refl eq_refl). destruct cs as [|c cs]; [simpl in Hz; lia|].
  apply Forall_cons in IH as [IH _]. apply Forall_cons in Hcs as [Hc _].
  specialize (IH _ Hc). rewrite sum_with_cons. lia.
Qed.

(** The children enter through sums, sets and their number alone. *)
Lemma wf_perm r p s ts bs cs cs' : cs ≡ₚ cs' -> wf r p (mkNode s ts bs cs) ->
  wf r p (mkNode s ts bs cs').
Proof.
  intros Hp. inversion 1; subst. constructor; try done.
  - by rewrite <-Hp.
  - f_equal. by apply sum_with_perm.
  - by rewrite <-Hp.
  - by rewrite <-Hp.
Qed.

(** A child is replaced by a well-formed one with the same start. *)
Lemma wf_insert_child r p s ts bs bs' cs i c c' :
  wf r p (mkNode s ts bs cs) -> cs !! i = Some c ->
  wf false (shist s) c' -> startID (span c') = startID (span c) ->
  (bs' + branchSupport c = bs + branchSupport c')%N ->
  wf r p (mkNode s ts bs' (<[i := c']> cs)).
Proof.
  intros Hw Hi Hc' Hid Hbs. inversion Hw as [? ? ? ? ? ? ? ? Hz Hbs0 Hnd Hcs]; subst.
  constructor; try done.
  - by rewrite length_insert.
  - pose proof (sum_with_insert branchSupport cs i c c' Hi). lia.
  - rewrite list_fmap_insert, Hid. rewrite list_insert_id; [done|].
    by rewrite list_lookup_fmap, Hi.
  - by apply Forall_insert.
Qed.

Lemma wf_child r p n i c : wf r p n -> children n !! i = Some c -> wf false (shist (span n)) c.
Proof.
  inversion 1 as [? ? ? ? ? ? ? ? ? ? ? Hcs]; subst. simpl. intros Hi. by eapply Forall_lookup_1.
Qed.

(** Children start where the node ends, with different identifiers. *)
Lemma wf_child_unique r p n i j c c' : wf r p n -> children n !! i = Some c ->
  children n !! j = Some c' -> startID (span c) = startID (span c') -> i = j.
Proof.
  inversion 1 as [? ? ? ? ? ? ? ? ? ? Hnd ?]; subst. simpl. intros Hi Hj E.
  apply (NoDup_lookup _ i j (startID (span c)) Hnd); rewrite list_lookup_fmap, ?Hi, ?Hj; simpl; congruence.
Qed.
End spec.

#[global] Arguments hist : simpl never.
#[global] Arguments shist : simpl never.
