(* ===== verification/LedgerTrieOps.v ===== *)
(** * What [insert] and [remove] do to the weights

    The search of [find] as a relation, the change of a trie by
    [LedgerTrie::insert] and [LedgerTrie::remove], and the answers of the
    searches, in terms of the histories of LedgerTrieSpec; then the table of
    votes the trie implements. *)

From S2P Require Import Prelude LedgerTrie LedgerTrieSpec.
Open Scope nat_scope.

Section ops.
Context {L : Type} `{LedgerHistoryLaws L}.
Implicit Types (l : L) (s : Span (L := L)) (n c g : Node (L := L)) (p h : list N) (P Q : list N -> bool).

(** ** Searching *)

(** The result of [find] below a node that goes on with the ledger. *)
Inductive located l : Node (L := L) -> list nat -> nat -> Prop :=
| located_here n :
    (diff (span n) l = end_ (span n) ->
     Forall (fun c => ~ end_ (span n) < diff (span c) l) (children n)) ->
    located l n [] (diff (span n) l)
| located_child n i c path q :
    diff (span n) l = end_ (span n) -> children n !! i = Some c ->
    end_ (span n) < diff (span c) l -> located l c path q ->
    located l n (i :: path) q.

Lemma find_from_located l n : let r := find_from l n (diff (span n) l) in located l n r.1 r.2.
Proof.
  induction n as [s ts bs cs IH] using Node_ind'. cbn.
  case_match eqn:E; [apply Nat.eqb_eq in E|apply Nat.eqb_neq in E; by apply located_here].
  enough (forall cs0 k, Forall (fun c => ~ end_ s < diff (span c) l) cs0 -> length cs0 = k ->
    forall cs1, cs0 ++ cs1 = cs -> Forall (fun c => located l c
      (find_from l c (diff (span c) l)).1 (find_from l c (diff (span c) l)).2) cs1 ->
    let r := (fix go (cs : list Node) (i : nat) : list nat * nat :=
       match cs with
       | [] => ([], diff s l)
       | c :: cs => if diff s l <? diff (span c) l then
           let '(path, q) := find_from l c (diff (span c) l) in (i :: path, q) else go cs (S i)
       end) cs1 k in located l (mkNode s ts bs cs) r.1 r.2) as G.
  { apply (G [] 0); [constructor|done|done|exact IH]. }
  clear IH. intros cs0 k Hno Hk cs1. revert cs0 k Hno Hk.
  induction cs1 as [|c cs1 IH]; intros cs0 k Hno Hk Hcs Hloc; cbn.
  - rewrite app_nil_r in Hcs. subst cs0. apply (located_here l (mkNode s ts bs cs)). by intros _.
  - apply Forall_cons in Hloc as [Hc Hloc]. rewrite E. case_match eqn:Hd.
    + destruct (find_from l c _) as [path q]. apply Nat.ltb_lt in Hd.
      apply (located_child l (mkNode s ts bs cs) k c path q); [done| |done|done]. cbn. subst cs.
      by apply list_lookup_middle.
    + apply Nat.ltb_ge in Hd. rewrite <-E. apply (IH (cs0 ++ [c])); [|rewrite length_app; cbn; lia| |done].
      * apply Forall_app; split; [done|]. constructor; [lia|constructor].
      * by rewrite <-app_assoc.
Qed.

(** ** [insert] *)

Lemma before_in s q : start_ s < q <= end_ s -> before s q = Some (mkSpan (start_ s) q (ledger_ s)).
Proof.
  intros. unfold before, sub, clamp. rewrite (proj2 (Nat.ltb_lt _ _)) by lia. do 2 f_equal; lia.
Qed.
Lemma from_in s q : start_ s <= q < end_ s -> from s q = Some (mkSpan q (end_ s) (ledger_ s)).
Proof.
  intros. unfold from, sub, clamp. rewrite (proj2 (Nat.ltb_lt _ _)) by lia. do 2 f_equal; lia.
Qed.
Lemma from_out s q : start_ s < end_ s -> end_ s <= q -> from s q = None.
Proof. intros. unfold from, sub, clamp. by rewrite (proj2 (Nat.ltb_ge _ _)) by lia. Qed.

(** A fresh tip below a node. *)
Lemma wf_new_tip l q count : ok l -> q <= led_seq l -> (0 < count)%N ->
  wf false (take q (hist l)) (mkNode (mkSpan q (led_seq l + 1) l) count count []).
Proof.
  intros. constructor; cbn; try done.
  - split; cbn; [done|lia..].
  - lia.
  - unfold sum_with; cbn; lia.
  - constructor.
Qed.

(** The lower part of a span that is cut. *)
Lemma wf_cut p s ts bs cs q : wf false p (mkNode s ts bs cs) -> start_ s < q < end_ s ->
  wf false (take q (hist (ledger_ s))) (mkNode (mkSpan q (end_ s) (ledger_ s)) ts bs cs).
Proof.
  inversion 1 as [? ? ? ? ? ? [Hok Hne Hb] ? Hz Hbs Hnd Hcs]; subst. intros Hq. constructor; cbn; try done.
  split; cbn; [done|lia..].
Qed.

Lemma weight_new_tip P l q count :
  weight P (mkNode (mkSpan q (led_seq l + 1) l) count count []) =
  (if P (hist l) then count else 0)%N.
Proof.
  cbn. unfold shist. cbn. rewrite take_ge by (rewrite hist_length; lia).
  unfold sum_with; cbn. by rewrite N.add_0_r.
Qed.

(** What every insertion at or below [n] achieves. *)
Definition inserted l (count : N) (r : bool) p n (res : result Node) : Prop :=
  exists n', res = Ok n' /\ wf r p n' /\ startID (span n') = startID (span n) /\
    (end_ (span n) = 1 -> span n' = span n) /\
    forall P, weight P n' = (weight P n + if P (hist l) then count else 0)%N.

Lemma inserted_branch l count r p n n' : wf r p n -> wf r p n' ->
  (forall P, weight P n' = (weight P n + if P (hist l) then count else 0)%N) ->
  branchSupport n' = (branchSupport n + count)%N.
Proof.
  intros Hw Hw' HP. by rewrite <-(weight_all _ _ _ Hw), <-(weight_all _ _ _ Hw'), HP.
Qed.

Section insert_here.
Context (l : L) (count : N) (r : bool) (p : list N) (s : Span (L := L)) (ts bs : N) (cs : list (Node (L := L))).
Hypothesis (Hl : ok l) (Hcount : (0 < count)%N) (Hfit : (bs + count < 2 ^ 32)%N).
Hypothesis (Hw : wf r p (mkNode s ts bs cs)) (Hstart : start_ s < diff s l).
#[local] Abbreviation q := (diff s l).

Lemma here_common : q <= end_ s /\ q <= S (led_seq l) /\
  take q (hist (ledger_ s)) = take q (hist l).
Proof using All. apply diff_common; [by eapply (wf_span _ _ _ Hw)|done..]. Qed.

(** The span is cut, and the ledger branches off inside it. *)
Lemma insert_here_split : r = false -> q < end_ s -> q <= led_seq l ->
  inserted l count r p (mkNode s ts bs cs) (insert_here l count q (mkNode s ts bs cs)).
Proof using All.
  intros Hr Hq Hseq. destruct here_common as (_ & _ & Hcom).
  pose proof (wf_span _ _ _ Hw) as [Hok Hne Hb]. cbn in Hok, Hne, Hb.
  eexists. split.
  { unfold insert_here. rewrite before_in, from_in, from_in by (cbn; lia). cbn. reflexivity. }
  rewrite !wrap32_small by lia. split_and!; [|done|cbn; lia|].
  - constructor; cbn.
    + split; cbn; [done|lia..].
    + by apply (wf_before _ _ _ Hw).
    + lia.
    + rewrite !sum_with_cons. unfold sum_with; cbn. lia.
    + apply NoDup_cons_2; [|apply NoDup_singleton]. rewrite list_elem_of_singleton.
      unfold startID; cbn. apply (diff_first s l); [by apply (wf_span _ _ _ Hw)|done..].
    + unfold shist; cbn. constructor; [|constructor; [|constructor]].
      * subst r. apply (wf_cut p); [done|lia].
      * rewrite Hcom. by apply wf_new_tip.
  - intros P. change (weight P (mkNode (mkSpan (start_ s) q (ledger_ s)) 0 (bs + count)
      [mkNode (mkSpan q (end_ s) (ledger_ s)) ts bs cs;
       mkNode (mkSpan q (led_seq l + 1) l) count count []]) =
      (weight P (mkNode s ts bs cs) + if P (hist l) then count else 0)%N).
    cbn [weight]. rewrite !sum_with_cons, weight_new_tip. unfold shist; cbn. unfold sum_with.
    destruct (P _), (P _), (P _); cbn; lia.
Qed.

(** The span is cut where the ledger ends. *)
Lemma insert_here_cut : r = false -> q < end_ s -> q = S (led_seq l) ->
  inserted l count r p (mkNode s ts bs cs) (insert_here l count q (mkNode s ts bs cs)).
Proof using All.
  intros Hr Hq Hseq. destruct here_common as (_ & _ & Hcom).
  pose proof (wf_span _ _ _ Hw) as [Hok Hne Hb]. cbn in Hok, Hne, Hb.
  eexists. split.
  { unfold insert_here. rewrite before_in, (from_in s), (from_out (span_of l)) by (cbn; lia). cbn. reflexivity. }
  assert (take q (hist l) = hist l) as Hall by (apply take_ge; rewrite hist_length; lia).
  rewrite N.add_0_l, !wrap32_small by lia. split_and!; [|done|cbn; lia|].
  - constructor; cbn.
    + split; cbn; [done|lia..].
    + by apply (wf_before _ _ _ Hw).
    + lia.
    + unfold sum_with; cbn. lia.
    + apply NoDup_singleton.
    + unfold shist; cbn. constructor; [|constructor]. subst r. apply (wf_cut p); [done|lia].
  - intros P. cbn [weight]. unfold shist; cbn. rewrite Hcom, Hall, sum_with_cons, sum_with_nil. cbn [weight].
    unfold shist; cbn. destruct (P _), (P _); lia.
Qed.

(** A new child. *)
Lemma insert_here_child : q = end_ s -> q <= led_seq l ->
  Forall (fun c => ~ end_ s < diff (span c) l) cs ->
  inserted l count r p (mkNode s ts bs cs) (insert_here l count q (mkNode s ts bs cs)).
Proof using All.
  intros Hq Hseq Hno. destruct here_common as (_ & _ & Hcom).
  pose proof (wf_span _ _ _ Hw) as [Hok Hne Hb]. cbn in Hok, Hne, Hb.
  eexists. split.
  { unfold insert_here. rewrite (from_out s), (from_in (span_of l)) by (cbn; lia). cbn. reflexivity. }
  inversion Hw as [? ? ? ? ? ? _ _ Hz Hbs Hnd Hcs]; subst.
  rewrite !wrap32_small by lia. split_and!; [|done|done|].
  - constructor; cbn; try done.
    + by apply (wf_before _ _ _ Hw).
    + rewrite length_app. cbn. intros E1 E2. specialize (Hz E1 E2). lia.
    + rewrite sum_with_app. rewrite sum_with_cons, sum_with_nil; cbn. lia.
    + rewrite fmap_app. apply NoDup_app. split_and!; [done| |apply NoDup_singleton].
      intros x Hx Hx'. apply list_elem_of_singleton in Hx' as ->.
      apply list_elem_of_fmap in Hx as (c & E & Hc). rewrite Forall_forall in Hno, Hcs.
      specialize (Hcs c Hc). apply (Hno c Hc).
      assert (start_ (span c) = end_ s) as Hst.
      { rewrite <-(wf_start _ _ _ Hcs). apply shist_length. by split. }
      rewrite <-Hst. apply diff_starts; [by eapply wf_span|done|]. rewrite Hst, <-Hq. split; [done|].
      by rewrite <-E.
    + apply Forall_app; split; [done|]. constructor; [|constructor].
      unfold shist. rewrite <-Hq, Hcom. by apply wf_new_tip.
  - intros P. cbn [weight]. rewrite sum_with_app, sum_with_cons, weight_new_tip. unfold sum_with at 2. cbn. lia.
Qed.

(** More support for an existing tip. *)
Lemma insert_here_tip : q = end_ s -> q = S (led_seq l) ->
  inserted l count r p (mkNode s ts bs cs) (insert_here l count q (mkNode s ts bs cs)).
Proof using All.
  intros Hq Hseq. destruct here_common as (_ & _ & Hcom).
  pose proof (wf_span _ _ _ Hw) as [Hok Hne Hb]. cbn in Hok, Hne, Hb.
  eexists. split.
  { unfold insert_here. rewrite (from_out s), (from_out (span_of l)) by (cbn; lia). cbn. reflexivity. }
  assert (take q (hist l) = hist l) as Hall by (apply take_ge; rewrite hist_length; lia).
  inversion Hw as [? ? ? ? ? ? _ _ Hz Hbs Hnd Hcs]; subst.
  rewrite !wrap32_small by lia. split_and!; [|done|done|].
  - constructor; cbn; try done; [by apply (wf_before _ _ _ Hw)|lia..].
  - intros P. cbn [weight]. unfold shist; cbn. rewrite <-Hq, Hcom, Hall. destruct (P _); lia.
Qed.
End insert_here.
Lemma wf_child_start r p n i c : wf r p n -> children n !! i = Some c ->
  start_ (span c) = end_ (span n).
Proof.
  intros Hw Hi. rewrite <-(wf_start _ _ _ (wf_child _ _ _ _ _ Hw Hi)).
  apply shist_length. by eapply wf_span.
Qed.

Lemma insert_at_located l count n path q : located l n path q -> ok l -> (0 < count)%N ->
  forall r p, wf r p n -> start_ (span n) < diff (span n) l -> (r = true -> end_ (span n) = 1) ->
  (branchSupport n + count < 2 ^ 32)%N -> inserted l count r p n (insert_at path l count q n).
Proof.
  intros Hloc Hl Hcount. induction Hloc as [n Hno|n i c path q Hd Hi Hc _ IH];
    intros r p Hw Hst Hr Hfit; destruct n as [s ts bs cs]; cbn in *.
  - destruct (here_common l count r p s ts bs cs Hl Hcount Hfit Hw Hst) as (Hqe & Hqs & _).
    destruct (decide (diff s l = end_ s)) as [E|E], (decide (diff s l <= led_seq l)) as [E'|E'].
    + by apply insert_here_child; auto.
    + apply insert_here_tip; auto. lia.
    + apply insert_here_split; auto; [|lia]. destruct r; [specialize (Hr eq_refl); lia|done].
    + apply insert_here_cut; auto; [|lia..]. destruct r; [specialize (Hr eq_refl); lia|done].
  - pose proof (wf_child _ _ _ _ _ Hw Hi) as Hwc. cbn in Hwc.
    pose proof (wf_child_start _ _ _ _ _ Hw Hi) as Hsc. cbn in Hsc.
    assert (branchSupport c <= bs)%N as Hle.
    { inversion Hw; subst.
      pose proof (sum_with_le branchSupport cs c (list_elem_of_lookup_2 _ _ _ Hi)). lia. }
    rewrite Hi. destruct (IH false (shist s) Hwc) as (c' & -> & Hwc' & Hid & _ & HP); [lia|done|lia|].
    eexists. split; [reflexivity|]. rewrite wrap32_small by lia. split_and!; [|done|done|].
    + eapply wf_insert_child; [exact Hw|exact Hi|exact Hwc'|exact Hid|].
      rewrite (inserted_branch _ _ _ _ _ _ Hwc Hwc' HP). lia.
    + intros P. cbn. pose proof (sum_with_insert (weight P) cs i c c' Hi). specialize (HP P). lia.
Qed.

(** ** Paths *)

(** The histories of a child of a node, told apart from all the others. *)
Lemma weight_child r p n i c P : wf r p n -> children n !! i = Some c ->
  (forall h, P h = true -> top (shist (span n)) c `prefix_of` h) -> weight P n = weight P c.
Proof.
  intros Hw Hi HP. destruct n as [s ts bs cs]; cbn in *.
  assert (P (shist s) = false) as ->.
  { destruct (P (shist s)) eqn:E; [exfalso|done]. apply HP in E. apply prefix_length in E.
    unfold top in E. rewrite length_app in E. cbn in E. lia. }
  rewrite <-(take_drop_middle cs i c Hi) at 1. rewrite sum_with_app, sum_with_cons.
  assert (forall j c', cs !! j = Some c' -> j <> i -> weight P c' = 0%N) as Hother.
  { intros j c' Hj Hne. eapply weight_outside; [exact (wf_child _ _ (mkNode s ts bs cs) _ _ Hw Hj)|].
    cbn. intros h Hh. destruct (P h) eqn:E; [exfalso|done]. apply HP in E.
    apply Hne, (wf_child_unique _ _ (mkNode s ts bs cs) _ _ c' c Hw); [done..|].
    destruct Hh as [k1 ->], E as [k2 E]. unfold top in E. rewrite <-!app_assoc in E.
    apply app_inv_head in E. by simplify_eq/=. }
  rewrite !(sum_with_zero (weight P)); [lia| |]; apply Forall_lookup; intros j c' Hj.
  - apply (Hother (S i + j)); [by rewrite <-lookup_drop|lia].
  - apply (Hother j); [by eapply lookup_take_Some|]. apply lookup_take_Some in Hj. lia.
Qed.

Lemma node_at_wf r p n path m : wf r p n -> node_at path n = Some m -> exists r' p', wf r' p' m.
Proof.
  revert r p n. induction path as [|i path IH]; intros r p n Hw; cbn; [naive_solver|].
  destruct (children n !! i) as [c|] eqn:Hi; [|done]. eapply IH. by eapply wf_child.
Qed.

Lemma node_at_top r p n path m : wf r p n -> node_at path n = Some m ->
  top p n `prefix_of` shist (span m).
Proof.
  revert r p n. induction path as [|i path IH]; intros r p n Hw; cbn.
  - intros [= ->]. by eapply wf_top_shist.
  - destruct (children n !! i) as [c|] eqn:Hi; [|done]. intros Hm.
    etrans; [by eapply wf_top_shist|]. etrans; [apply top_child|].
    eapply IH; [by eapply wf_child|done].
Qed.

Lemma weight_at r p n path m P : wf r p n -> node_at path n = Some m ->
  (forall h, P h = true -> shist (span m) `prefix_of` h) -> weight P n = weight P m.
Proof.
  revert r p n. induction path as [|i path IH]; intros r p n Hw; cbn; [by intros [= ->]|].
  destruct (children n !! i) as [c|] eqn:Hi; [|done]. intros Hm HP.
  pose proof (wf_child _ _ _ _ _ Hw Hi) as Hwc.
  rewrite (weight_child _ _ _ _ _ P Hw Hi); [by eapply IH|].
  intros h Hh. etrans; [by eapply node_at_top|by apply HP].
Qed.

Lemma weight_absent P n : (forall path m, node_at path n = Some m -> P (shist (span m)) = false) ->
  weight P n = 0%N.
Proof.
  induction n as [s ts bs cs IH] using Node_ind'; intros HP.
  pose proof (HP [] (mkNode s ts bs cs) eq_refl) as Hs. cbn in *. rewrite Hs.
  rewrite sum_with_zero; [done|]. rewrite Forall_lookup in IH |- *. intros i c Hi.
  apply (IH i c Hi). intros path m Hm. apply (HP (i :: path)). cbn. by rewrite Hi.
Qed.

(** At a node: its tip and its branch. *)
Lemma weight_tip r p n : wf r p n -> weight (fun h => bool_decide (h = shist (span n))) n = tipSupport n.
Proof.
  intros Hw. destruct n as [s ts bs cs]. cbn. rewrite bool_decide_true by done.
  rewrite sum_with_zero; [lia|]. apply Forall_lookup. intros i c Hi.
  eapply weight_outside; [exact (wf_child _ _ _ _ _ Hw Hi)|]. cbn. intros h Hh.
  apply bool_decide_false. intros ->. apply prefix_length in Hh. unfold top in Hh.
  rewrite length_app in Hh. cbn in Hh. lia.
Qed.

Lemma weight_branch r p n P : wf r p n -> (forall h, shist (span n) `prefix_of` h -> P h = true) ->
  weight P n = branchSupport n.
Proof.
  intros Hw HP. destruct n as [s ts bs cs]. cbn in *. rewrite HP by done.
  inversion Hw as [? ? ? ? ? ? ? ? ? Hbs ? Hcs]; subst. f_equal. apply sum_with_ext.
  rewrite Forall_forall in *. intros c Hc. eapply weight_inside; [by apply Hcs|].
  intros h Hh. apply HP. etrans; [apply top_child|done].
Qed.

(** ** [findByLedgerID] *)

Lemma hist_take_all l : take (led_seq l + 1) (hist l) = hist l.
Proof. apply take_ge. rewrite hist_length. lia. Qed.

Lemma tip_id_spec s l : span_ok s -> ok l -> led_id l = tip_id (tip s) <-> shist s = hist l.
Proof.
  intros [Hok Hne Hb] Hl. unfold led_id, tip, shist. cbn. split.
  - intros E. destruct (same_id_take l (ledger_ s) (led_seq l) (end_ s - 1)) as [Es Eh]; [done..|lia|done|].
    replace (end_ s) with (S (end_ s - 1)) by lia. rewrite <-Eh. apply take_ge. by rewrite hist_length.
  - intros E. assert (end_ s = S (led_seq l)) as Es.
    { apply (f_equal length) in E. rewrite length_take, !hist_length in E. lia. }
    rewrite Es, <-(hist_take_all l), Nat.add_1_r in E. rewrite Es. cbn. rewrite Nat.sub_0_r. symmetry.
    eapply take_hist_ext; [| |exact E|]; lia.
Qed.

Lemma findByLedgerID_spec l n r p : wf r p n -> ok l ->
  match findByLedgerID n l with
  | Some path => exists m, node_at path n = Some m /\ shist (span m) = hist l
  | None => forall path m, node_at path n = Some m -> shist (span m) <> hist l
  end.
Proof.
  intros Hw Hl. revert r p Hw. induction n as [s ts bs cs IH] using Node_ind'; intros r p Hw. cbn.
  pose proof (wf_span _ _ _ Hw) as Hs. cbn in Hs. pose proof (tip_id_spec s l Hs Hl) as Htip. cbn in Htip.
  destruct (N.eqb_spec (led_id l) (led_at (ledger_ s) (end_ s - 1))) as [E|E];
    [eexists; split; [done|by apply Htip]|].
  assert (forall i c, cs !! i = Some c -> match findByLedgerID c l with
    | Some path => exists m, node_at path c = Some m /\ shist (span m) = hist l
    | None => forall path m, node_at path c = Some m -> shist (span m) <> hist l end) as IH'.
  { intros i c Hi. rewrite Forall_lookup in IH. eapply IH; [done|]. by eapply (wf_child _ _ _ _ _ Hw). }
  clear IH. enough (forall cs0 k, (forall j c, cs0 !! j = Some c -> forall path m,
      node_at path c = Some m -> shist (span m) <> hist l) -> length cs0 = k ->
    forall cs1, cs0 ++ cs1 = cs -> match (fix go (cs : list Node) (i : nat) : option (list nat) :=
           match cs with
           | [] => None
           | c :: cs => match findByLedgerID c l with Some path => Some (i :: path) | None => go cs (S i) end
           end) cs1 k with
    | Some path => exists m, node_at path (mkNode s ts bs cs) = Some m /\ shist (span m) = hist l
    | None => forall path m, node_at path (mkNode s ts bs cs) = Some m -> shist (span m) <> hist l end) as G.
  { by apply (G [] 0). }
  intros cs0 k Hno Hk cs1. revert cs0 k Hno Hk. induction cs1 as [|c cs1 IHcs]; intros cs0 k Hno Hk Hcs; cbn.
  - rewrite app_nil_r in Hcs. subst cs0. intros [|j path] m; cbn; [intros [= <-]; naive_solver|].
    destruct (cs !! j) eqn:Hj; [by eapply Hno|done].
  - assert (cs !! k = Some c) as Hc by (subst cs; by apply list_lookup_middle).
    specialize (IH' k c Hc). destruct (findByLedgerID c l) as [path|].
    + destruct IH' as (m & Hm & Eh). exists m. cbn. by rewrite Hc.
    + apply (IHcs (cs0 ++ [c])); [|rewrite length_app; cbn; lia|by rewrite <-app_assoc].
      intros j c' Hj. apply lookup_app_Some in Hj as [Hj|[_ Hj]]; [by eapply Hno|].
      apply list_lookup_singleton_Some in Hj as [_ <-]. exact IH'.
Qed.
(** ** The branch support of a ledger that is not a tip *)

Lemma lookup_prefix h h' i x : h `prefix_of` h' -> h !! i = Some x -> h' !! i = Some x.
Proof. intros [k ->] Hi. by apply lookup_app_l_Some. Qed.

(** Where the search stops before the end of the ledger, nothing extends it. *)
Lemma stopped_outside l r p n : wf r p n -> ok l -> start_ (span n) < diff (span n) l ->
  diff (span n) l <= led_seq l ->
  (diff (span n) l = end_ (span n) ->
   Forall (fun c => ~ end_ (span n) < diff (span c) l) (children n)) ->
  weight (fun h => bool_decide (hist l `prefix_of` h)) n = 0%N.
Proof.
  intros Hw Hl Hst Hseq Hno. destruct n as [s ts bs cs]; cbn in *.
  pose proof (wf_span _ _ _ Hw) as Hs. cbn in Hs.
  pose proof (shist_length _ Hs) as Hlen. pose proof (diff_bounds s l Hs) as Hd.
  assert (diff s l < end_ s -> forall h, shist s `prefix_of` h -> ~ hist l `prefix_of` h) as Hcut.
  { intros Hlt h Hh Hp. eapply (diff_first s l); [done..|].
    eapply lookup_prefix in Hp; [|by apply hist_lookup].
    eapply (lookup_prefix _ _ (diff s l)) in Hh; [rewrite Hp in Hh; by injection Hh|].
    unfold shist. destruct Hs. rewrite lookup_take_lt by done. apply hist_lookup. lia. }
  assert (~ hist l `prefix_of` shist s) as Hself.
  { intros Hp. destruct (decide (diff s l < end_ s)) as [Hlt|]; [by eapply Hcut|].
    apply prefix_length in Hp. rewrite hist_length, Hlen in Hp. lia. }
  rewrite bool_decide_false by done. rewrite sum_with_zero; [done|]. apply Forall_lookup. intros i c Hi.
  pose proof (wf_child _ _ _ _ _ Hw Hi) as Hwc. cbn in Hwc.
  eapply weight_outside; [exact Hwc|]. intros h Hh. apply bool_decide_false. intros Hp.
  destruct (decide (diff s l < end_ s)) as [Hlt|].
  { eapply Hcut; [done| |done]. etrans; [apply top_child|done]. }
  assert (diff s l = end_ s) as E by lia. specialize (Hno E).
  rewrite Forall_lookup in Hno. apply (Hno i c Hi).
  pose proof (wf_child_start _ _ _ _ _ Hw Hi) as Hsc. cbn in Hsc. rewrite <-Hsc.
  apply diff_starts; [by eapply wf_span|done|]. split; [lia|].
  eapply (lookup_prefix _ _ (end_ s) (startID (span c))) in Hh.
  - eapply lookup_prefix in Hp; [|apply (hist_lookup l (end_ s)); lia]. rewrite Hsc. congruence.
  - unfold top. rewrite <-Hlen. by apply list_lookup_middle.
Qed.

Lemma located_branch l n path q : located l n path q -> ok l -> forall r p, wf r p n ->
  start_ (span n) < diff (span n) l -> exists m, node_at path n = Some m /\
  weight (fun h => bool_decide (hist l `prefix_of` h)) n =
    if (led_seq l <? q) && (led_seq l <? end_ (span m)) then branchSupport m else 0%N.
Proof.
  intros Hloc Hl. induction Hloc as [n Hno|n i c path q Hd Hi Hc _ IH]; intros r p Hw Hst.
  - exists n. split; [done|]. pose proof (wf_span _ _ _ Hw) as Hs.
    pose proof (diff_bounds (span n) l Hs) as Hdb.
    destruct (Nat.ltb_spec (led_seq l) (diff (span n) l)) as [Hlt|Hge]; [|by eapply stopped_outside].
    rewrite (proj2 (Nat.ltb_lt _ _)) by lia. cbn [andb]. eapply weight_branch; [done|].
    intros h Hh. apply bool_decide_true. etrans; [|exact Hh].
    destruct (proj1 (diff_common (span n) l _ Hs Hl Hst) (le_n _)) as (_ & Hq & E).
    replace (diff (span n) l) with (S (led_seq l)) in E by lia.
    rewrite <-(hist_take_all l), Nat.add_1_r, <-E. unfold shist.
    replace (S (led_seq l)) with (min (S (led_seq l)) (end_ (span n))) by lia.
    rewrite <-take_take. apply prefix_take.
  - pose proof (wf_child_start _ _ _ _ _ Hw Hi) as Hsc.
    destruct (IH false (shist (span n)) (wf_child _ _ _ _ _ Hw Hi)) as (m & Hm & HP); [lia|].
    exists m. cbn [node_at]. rewrite Hi. split; [done|]. rewrite <-HP. eapply weight_child; [done..|].
    intros h Hh. apply bool_decide_eq_true in Hh. etrans; [|exact Hh].
    pose proof (wf_child _ _ _ _ _ Hw Hi) as Hwc. rewrite (wf_top _ _ _ Hwc), (wf_start _ _ _ Hwc).
    rewrite Hsc. apply Nat.le_succ_l in Hc.
    apply diff_common in Hc as (_ & _ & ->); [apply prefix_take|by eapply wf_span|done|lia].
Qed.

(** ** [remove] *)

Lemma erase_child_perm (cs : list (Node (L := L))) i c :
  cs !! i = Some c -> cs ≡ₚ c :: erase_child i cs.
Proof.
  intros Hi. unfold erase_child. destruct cs as [|b cs _] using rev_ind; [done|].
  rewrite last_snoc, length_app, Nat.add_sub.
  apply lookup_app_Some in Hi as [Hi|[Hlen Hi]].
  - assert (i < length cs) by (by eapply lookup_lt_Some).
    rewrite insert_app_l, take_app_length' by (rewrite ?length_insert; done).
    rewrite insert_take_drop by done. rewrite <-(take_drop_middle cs i c Hi) at 1.
    rewrite (Permutation_app_comm _ [b]). cbn. rewrite <-!Permutation_middle. apply perm_swap.
  - apply list_lookup_singleton_Some in Hi as [Hz ->]. replace i with (length cs) by lia.
    rewrite insert_app_r_alt, take_app_length' by lia. by rewrite Permutation_app_comm.
Qed.

Lemma erase_child_snoc (cs : list (Node (L := L))) i g :
  i < length cs -> erase_child i (cs ++ [g]) = <[i := g]> cs.
Proof.
  intros Hi. unfold erase_child. rewrite last_snoc, length_app, Nat.add_sub.
  rewrite insert_app_l by done. apply take_app_length'. by rewrite length_insert.
Qed.
(** A node without a tip and its only child, combined. *)
Lemma wf_combine r h c g : wf r h c -> children c = [g] -> tipSupport c = 0%N ->
  let g' := mkNode (merge (span c) (span g)) (tipSupport g) (branchSupport g) (children g) in
  wf false h g' /\ startID (span g') = startID (span c) /\ forall P, weight P g' = weight P c.
Proof.
  intros Hw Hc Ht. pose proof (wf_child _ _ _ 0 g Hw ltac:(by rewrite Hc)) as Hg.
  pose proof (wf_child_start _ _ _ 0 g Hw ltac:(by rewrite Hc)) as Hsg.
  pose proof (wf_span _ _ _ Hw) as [Hcok Hcne Hcb]. pose proof (wf_span _ _ _ Hg) as [Hgok Hgne Hgb].
  assert (merge (span c) (span g) = mkSpan (start_ (span c)) (end_ (span g)) (ledger_ (span g))) as ->.
  { unfold merge. rewrite (proj2 (Nat.ltb_lt _ _)) by lia. f_equal. lia. }
  pose proof (wf_before _ _ _ Hg) as Hcom. unfold shist in Hcom. rewrite Hsg in Hcom.
  cbn. destruct g as [sg tg bg cg], c as [sc tc bc cc]; cbn in *. subst cc tc.
  inversion Hg as [? ? ? ? ? ? _ _ Hz Hbs Hnd Hcs]; subst. split_and!.
  - constructor; cbn; try done; [split; cbn; [done|lia..]|].
    rewrite (wf_before _ _ _ Hw). cbn.
    eapply take_hist_ext; [lia..|]. intros i Hi. eapply take_hist_ext; [..|exact Hcom|]; lia.
  - unfold startID; cbn. eapply take_hist_ext; [| |symmetry; exact Hcom|]; lia.
  - intros P. rewrite sum_with_cons, sum_with_nil. cbn. unfold shist. cbn. destruct (P _), (P _); lia.
Qed.

Definition removed (count : N) h (r : bool) p n (res : result (Node * bool)) : Prop :=
  exists n' (run : bool), res = Ok (n', run) /\ wf (r || run) p n' /\ span n' = span n /\
    forall P, (weight P n' + (if P h then count else 0) = weight P n)%N.

(** The step of the loop at the parent. *)
Lemma remove_step count h r p s ts bs cs i c c' (run : bool) :
  wf r p (mkNode s ts bs cs) -> cs !! i = Some c -> (bs < 2 ^ 32)%N ->
  wf (false || run) (shist s) c' -> span c' = span c ->
  (forall P, (weight P c' + (if P h then count else 0) = weight P c)%N) ->
  removed count h r p (mkNode s ts bs cs)
    (let bs := wrap32 (bs + 2 ^ 32 - count) in
     if run && (tipSupport c' =? 0)%N then
       match children c' with
       | [] => Ok (mkNode s ts bs (erase_child i cs), true)
       | [g] =>
           let g := mkNode (merge (span c') (span g)) (tipSupport g) (branchSupport g)
                      (children g) in
           Ok (mkNode s ts bs (erase_child i (<[i := c']> cs ++ [g])), true)
       | _ => Ok (mkNode s ts bs (<[i := c']> cs), false)
       end
     else Ok (mkNode s ts bs (<[i := c']> cs), false)).
Proof.
  intros Hw Hi Hfit Hwc' Hspan HP.
  pose proof (wf_child _ _ _ _ _ Hw Hi) as Hwc. cbn in Hwc.
  assert (branchSupport c' + count = branchSupport c)%N as Hb.
  { by rewrite <-(weight_all _ _ _ Hwc), <-(weight_all _ _ _ Hwc'), <-HP. }
  assert (branchSupport c <= bs)%N as Hle.
  { inversion Hw; subst.
    pose proof (sum_with_le branchSupport cs c (list_elem_of_lookup_2 _ _ _ Hi)). lia. }
  cbn zeta. rewrite wrap32_sub by lia.
  assert (forall c2, wf false (shist s) c2 -> startID (span c2) = startID (span c) ->
    (forall P, weight P c2 = weight P c') ->
    wf r p (mkNode s ts (bs - count) (<[i := c2]> cs)) /\
    forall P, (weight P (mkNode s ts (bs - count) (<[i := c2]> cs)) + (if P h then count else 0)
               = weight P (mkNode s ts bs cs))%N) as Hrepl.
  { intros c2 Hw2 Hid HP2. split.
    - eapply wf_insert_child; [exact Hw|exact Hi|done|done|].
      assert (branchSupport c2 = branchSupport c') as ->; [|lia].
      by rewrite <-(weight_all _ _ _ Hw2), <-(weight_all _ _ _ Hwc').
    - intros P. cbn. pose proof (sum_with_insert (weight P) cs i c c2 Hi).
      specialize (HP P). rewrite (HP2 P) in *. lia. }
  assert (wf false (shist s) c' ->
    removed count h r p (mkNode s ts bs cs) (Ok (mkNode s ts (bs - count) (<[i:=c']> cs), false))) as Hkeep.
  { intros Hw2. destruct (Hrepl c' Hw2) as [Hw' HP']; [by rewrite Hspan|done|].
    eexists _, false. rewrite orb_false_r. by split_and!. }
  destruct run; cbn [andb]; [|by apply Hkeep].
  destruct (N.eqb_spec (tipSupport c') 0) as [Ht|Ht].
  2: { apply Hkeep. inversion Hwc'; subst. constructor; try done. }
  destruct (children c') as [|g [|g2 gs]] eqn:Hch.
  - eexists _, true. split; [reflexivity|]. rewrite orb_true_r.
    assert (forall P, weight P c' = 0%N) as Hz.
    { intros P. destruct c' as [? ? ? ?]; cbn in *; subst. cbn. by destruct (P _). }
    pose proof (erase_child_perm cs i c Hi) as Hp.
    apply (wf_perm _ _ _ _ _ _ _ Hp) in Hw.
    inversion Hw as [? ? ? ? ? ? ? ? ? Hbs Hnd Hcs]; subst. split_and!; [|done|].
    + rewrite fmap_cons in Hnd. apply NoDup_cons in Hnd as [_ Hnd]. apply Forall_cons in Hcs as [_ Hcs].
      constructor; try done. rewrite sum_with_cons.
      specialize (Hz (fun _ => true)). rewrite (weight_all _ _ _ Hwc') in Hz. lia.
    + intros P. cbn. rewrite (sum_with_perm _ _ _ Hp), sum_with_cons, <-HP, Hz. lia.
  - destruct (wf_combine _ _ _ _ Hwc' Hch Ht) as (Hwg & Hid & HPg).
    rewrite erase_child_snoc by (rewrite length_insert; by eapply lookup_lt_Some).
    rewrite list_insert_insert_eq. eexists _, true. split; [reflexivity|]. rewrite orb_true_r.
    destruct (Hrepl _ Hwg) as [Hw' HP']; [by rewrite Hid, Hspan|done|]. split_and!; [|done..].
    by eapply wf_root.
  - apply Hkeep. inversion Hwc'; subst. constructor; try done. cbn in Hch. subst. cbn. lia.
Qed.

Lemma remove_at_spec path n m r p count : wf r p n -> node_at path n = Some m ->
  (count <= tipSupport m)%N -> (branchSupport n < 2 ^ 32)%N ->
  removed count (shist (span m)) r p n (remove_at path count n).
Proof.
  revert n r p. induction path as [|i path IH]; intros [s ts bs cs] r p Hw Hm Hcount Hfit; cbn in *.
  - injection Hm as <-. cbn in *. inversion Hw as [? ? ? ? ? ? ? ? ? Hbs Hnd Hcs]; subst.
    eexists _, true. split; [reflexivity|]. rewrite orb_true_r, !wrap32_sub by lia.
    split_and!; [|done|].
    + constructor; try done. lia.
    + intros P. cbn. destruct (P _); lia.
  - destruct (cs !! i) as [c|] eqn:Hi; [|done].
    assert (branchSupport c <= bs)%N as Hle.
    { inversion Hw; subst.
      pose proof (sum_with_le branchSupport cs c (list_elem_of_lookup_2 _ _ _ Hi)). lia. }
    pose proof (wf_child _ _ _ _ _ Hw Hi) as Hwc. cbn in Hwc.
    destruct (IH c false (shist s) Hwc Hm Hcount) as (c' & run & -> & Hwc' & Hspan & HP); [lia|].
    cbn [mbind result_bind]. eapply remove_step; eauto.
Qed.
Lemma weight_nothing r p n P : wf r p n -> (forall h, shist (span n) `prefix_of` h -> P h = false) ->
  weight P n = 0%N.
Proof.
  intros Hw HP. destruct n as [s ts bs cs]. cbn in *. rewrite HP by done.
  rewrite sum_with_zero; [done|]. apply Forall_lookup. intros i c Hi.
  eapply weight_outside; [exact (wf_child _ _ _ _ _ Hw Hi)|].
  intros h Hh. apply HP. etrans; [apply top_child|done].
Qed.
End ops.

(** * The trie as a table of votes

    What [LedgerTrie] promises: a table from histories to the number of
    validations for them ([votes]), with the operations on the table that
    [insert] and [remove] implement.  [Inv] relates a trie to its table, and
    every operation keeps it (LedgerTrie.h). *)

(** ** The table *)

Abbreviation votes := (gmap (list N) N).

(** The votes for the histories that satisfy [P]. *)
Definition vweight (P : list N -> bool) (v : votes) : N :=
  sum_with (fun x => if P x.1 then x.2 else 0%N) (map_to_list v).

Definition vote_insert {L} `{LedgerHistory L} (l : L) (count : N) (v : votes) : votes :=
  <[hist l := (default 0 (v !! hist l) + count)%N]> v.

Definition vote_remove {L} `{LedgerHistory L} (l : L) (count : N) (v : votes) : votes * bool :=
  match v !! hist l with
  | None => (v, false)
  | Some c => (if (c <=? count)%N then delete (hist l) v else <[hist l := (c - count)%N]> v, true)
  end.

(** The votes for a history and everything that extends it. *)
Definition support (v : votes) (h : list N) : N := vweight (fun h' => bool_decide (h `prefix_of` h')) v.

Implicit Types (v : votes) (h p : list N) (P Q : list N -> bool).

Lemma sum_map_delete `{Countable K} {A} (f : K * A -> N) (m : gmap K A) k x : m !! k = Some x ->
  sum_with f (map_to_list m) = (f (k, x) + sum_with f (map_to_list (delete k m)))%N.
Proof.
  intros Hk. rewrite <-(insert_delete_id m k x Hk) at 1.
  by rewrite (sum_with_perm _ _ _ (map_to_list_insert _ k x (lookup_delete_eq m k))).
Qed.

Lemma vweight_delete P v h c : v !! h = Some c ->
  vweight P v = ((if P h then c else 0) + vweight P (delete h v))%N.
Proof. intros Hh. unfold vweight. by rewrite (sum_map_delete _ v h c Hh). Qed.

Lemma vweight_insert P v h c :
  (vweight P (<[h := c]> v) + (if P h then default 0 (v !! h) else 0)
   = vweight P v + if P h then c else 0)%N.
Proof.
  rewrite (vweight_delete P (<[h := c]> v) h c) by apply lookup_insert_eq.
  rewrite delete_insert_eq. destruct (v !! h) as [c'|] eqn:Hh; cbn.
  - rewrite (vweight_delete P v h c' Hh). destruct (P h); lia.
  - rewrite delete_id by done. destruct (P h); lia.
Qed.

Lemma vweight_none P v : (forall h c, v !! h = Some c -> P h = false) -> vweight P v = 0%N.
Proof.
  intros HP. apply sum_with_zero, Forall_forall. intros [h c] Hx. cbn.
  apply elem_of_map_to_list in Hx. by rewrite (HP h c).
Qed.

Lemma vweight_at v h : vweight (fun h' => bool_decide (h' = h)) v = default 0%N (v !! h).
Proof.
  destruct (v !! h) as [c|] eqn:Hh; cbn.
  - rewrite (vweight_delete _ v h c Hh), bool_decide_true by done.
    rewrite vweight_none; [lia|]. intros h' c' Hh'. apply bool_decide_false. intros ->.
    by rewrite lookup_delete_eq in Hh'.
  - apply vweight_none. intros h' c' Hh'. apply bool_decide_false. naive_solver.
Qed.

Lemma vweight_lookup_le P v h c : v !! h = Some c -> P h = true -> (c <= vweight P v)%N.
Proof. intros Hh HP. rewrite (vweight_delete P v h c Hh), HP. lia. Qed.

(** ** The invariant *)

Section votes.
Context {L : Type} `{LedgerHistoryLaws L}.
Implicit Types (l : L) (n : Node (L := L)) (t : LedgerTrie (L := L)).

(** The histories of one sequence number. *)
Definition at_seq (s : N) (h : list N) : bool := (N.of_nat (length h) =? s + 1)%N.

Definition some_nonzero (w : N) : option N := if (w =? 0)%N then None else Some w.

Record Inv t v : Prop := {
  inv_wf : wf true [] (root_ t);
  inv_root : end_ (span (root_ t)) = 1;
  inv_votes : forall P, weight P (root_ t) = vweight P v;
  inv_seq : forall s, seqSupport_ t !! s = some_nonzero (weight (at_seq s) (root_ t));
  inv_fit : (branchSupport (root_ t) < 2 ^ 32)%N;
  inv_nonzero : forall h c, v !! h = Some c -> (0 < c)%N
}.

Lemma inv_total t v : Inv t v -> branchSupport (root_ t) = vweight (fun _ => true) v.
Proof. intros [Hw _ HP _ _ _]. by rewrite <-HP, (weight_all _ _ _ Hw). Qed.

Lemma empty_Inv : Inv emptyTrie ∅.
Proof.
  assert (span_ok (mkSpan 0 1 led_genesis : Span (L := L))) as Hs.
  { split; cbn; [apply genesis_ok|lia|rewrite genesis_seq; lia]. }
  split; cbn; try done.
  - constructor; cbn; try done. constructor.
  - intros P. rewrite sum_with_nil. by destruct (P _).
  - intros s. rewrite sum_with_nil, lookup_empty. by destruct (at_seq _ _).
Qed.

Lemma at_seq_hist s l : at_seq s (hist l) = true <-> s = N.of_nat (led_seq l).
Proof. unfold at_seq. rewrite hist_length, N.eqb_eq. lia. Qed.

(** A change of the table at one history, seen in [seqSupport_]. *)
Lemma some_nonzero_eq w : w <> 0%N -> some_nonzero w = Some w.
Proof. intros. unfold some_nonzero. by destruct (N.eqb_spec w 0). Qed.
Lemma default_some_nonzero w : default 0%N (some_nonzero w) = w.
Proof. unfold some_nonzero. by destruct (N.eqb_spec w 0). Qed.

Lemma weight_fit t v P : Inv t v -> (weight P (root_ t) < 2 ^ 32)%N.
Proof.
  intros Hi. pose proof (weight_le _ _ _ P (inv_wf _ _ Hi)). pose proof (inv_fit _ _ Hi). lia.
Qed.

Lemma root_starts t v l : Inv t v -> ok l -> start_ (span (root_ t)) < diff (span (root_ t)) l.
Proof.
  intros Hinv Hl. pose proof (inv_wf _ _ Hinv) as Hw. pose proof (wf_span _ _ _ Hw) as Hs.
  pose proof (wf_start _ _ _ Hw) as Hst. cbn in Hst. rewrite <-Hst.
  apply diff_common; [done..|lia|]. rewrite (inv_root _ _ Hinv). split_and!; [lia..|].
  apply (mismatch_spec _ _ 1); [apply Hs|done|]. apply mismatch_pos; [apply Hs|done].
Qed.

Lemma insert_Inv t v l count : Inv t v -> ok l -> (0 < count)%N ->
  (vweight (fun _ => true) v + count < 2 ^ 32)%N ->
  exists t', insert t l count = Ok t' /\ Inv t' (vote_insert l count v).
Proof.
  intros Hinv Hl Hcount Hfit. pose proof (inv_wf _ _ Hinv) as Hw.
  rewrite <-(inv_total _ _ Hinv) in Hfit. unfold insert, find.
  pose proof (find_from_located l (root_ t)) as Hloc.
  destruct (find_from l (root_ t) (diff (span (root_ t)) l)) as [path q]. cbn in Hloc.
  destruct (insert_at_located l count _ _ _ Hloc Hl Hcount true [] Hw) as
    (n' & -> & Hw' & _ & Hroot & HP); [by eapply root_starts|by intros _; apply (inv_root _ _ Hinv)|done|].
  eexists. split; [reflexivity|]. split; cbn.
  - done.
  - rewrite Hroot; apply (inv_root _ _ Hinv).
  - intros P. rewrite HP, (inv_votes _ _ Hinv). unfold vote_insert.
    pose proof (vweight_insert P v (hist l) (default 0%N (v !! hist l) + count)). destruct (P _); lia.
  - intros s. rewrite HP. destruct (decide (s = N.of_nat (led_seq l))) as [->|Hne].
    + rewrite lookup_insert_eq, (inv_seq _ _ Hinv), default_some_nonzero.
      rewrite (proj2 (at_seq_hist _ l)) by done.
      pose proof (weight_le _ _ _ (at_seq (N.of_nat (led_seq l))) Hw).
      rewrite wrap32_small by lia. rewrite some_nonzero_eq by lia. done.
    + rewrite lookup_insert_ne by done. rewrite (inv_seq _ _ Hinv).
      destruct (at_seq s (hist l)) eqn:E; [by apply at_seq_hist in E|]. by rewrite N.add_0_r.
  - rewrite (inserted_branch _ _ _ _ _ _ Hw Hw' HP). lia.
  - intros h c. unfold vote_insert. intros [[_ <-]|[_ Hc]]%lookup_insert_Some; [lia|].
    by eapply (inv_nonzero _ _ Hinv).
Qed.

(** The tip a search by identifier finds. *)
Lemma found_tip t v l : Inv t v -> ok l ->
  match findByLedgerID (root_ t) l with
  | Some path => exists m, node_at path (root_ t) = Some m /\ shist (span m) = hist l /\
      tipSupport m = default 0%N (v !! hist l) /\ branchSupport m = support v (hist l)
  | None => v !! hist l = None
  end.
Proof.
  intros Hinv Hl. pose proof (inv_wf _ _ Hinv) as Hw.
  pose proof (findByLedgerID_spec l _ _ _ Hw Hl) as Hf.
  destruct (findByLedgerID (root_ t) l) as [path|].
  - destruct Hf as (m & Hm & Eh). exists m. split_and!; [done..| |];
      destruct (node_at_wf _ _ _ _ _ Hw Hm) as (r' & p' & Hwm).
    + rewrite <-vweight_at, <-(inv_votes _ _ Hinv), <-(weight_tip _ _ _ Hwm), Eh. symmetry.
      eapply weight_at; [done..|]. intros h Hh. apply bool_decide_eq_true in Hh. by rewrite Hh, Eh.
    + unfold support. rewrite <-(inv_votes _ _ Hinv).
      rewrite <-(weight_branch _ _ _ (fun h' => bool_decide (hist l `prefix_of` h')) Hwm).
      * symmetry. eapply weight_at; [done..|]. intros h Hh. apply bool_decide_eq_true in Hh. by rewrite Eh.
      * intros h Hh. apply bool_decide_true. by rewrite <-Eh.
  - assert (default 0%N (v !! hist l) = 0%N) as Hz.
    { rewrite <-vweight_at, <-(inv_votes _ _ Hinv). apply weight_absent.
      intros path m Hm. apply bool_decide_false. by eapply Hf. }
    destruct (v !! hist l) as [c|] eqn:E; [|done]. apply (inv_nonzero _ _ Hinv) in E. cbn in Hz. lia.
Qed.
Lemma remove_Inv t v l count : Inv t v -> ok l ->
  exists t', remove t l count = Ok (t', (vote_remove l count v).2) /\ Inv t' (vote_remove l count v).1.
Proof.
  intros Hinv Hl. pose proof (inv_wf _ _ Hinv) as Hw. pose proof (inv_fit _ _ Hinv) as Hfit.
  pose proof (found_tip t v l Hinv Hl) as Hf. unfold remove, vote_remove.
  destruct (findByLedgerID (root_ t) l) as [path|]; [|exists t; by rewrite Hf].
  destruct Hf as (m & Hm & Eh & Ht & _). rewrite Hm.
  destruct (v !! hist l) as [c|] eqn:Hc; cbn in Ht; rewrite Ht; [|by exists t].
  pose proof (inv_nonzero _ _ Hinv _ _ Hc) as Hpos. rewrite (proj2 (N.eqb_neq c 0)) by lia.
  set (w := weight (at_seq (N.of_nat (led_seq l))) (root_ t)).
  assert (c <= w)%N as Hcw.
  { unfold w. rewrite (inv_votes _ _ Hinv). eapply vweight_lookup_le; [done|]. by apply at_seq_hist. }
  assert (w <= branchSupport (root_ t))%N as Hwb by (by eapply weight_le).
  rewrite (inv_seq _ _ Hinv), some_nonzero_eq by (fold w; lia). fold w.
  rewrite wrap32_sub by lia.
  destruct (remove_at_spec path (root_ t) m true [] (N.min count c) Hw Hm) as
    (n' & run & -> & Hw' & Hspan & HP); [lia|done|]. cbn.
  eexists. split; [reflexivity|]. rewrite orb_true_l in Hw'. rewrite Eh in HP.
  assert (branchSupport n' <= branchSupport (root_ t))%N as Hle.
  { rewrite <-(weight_all _ _ _ Hw), <-(weight_all _ _ _ Hw'), <-HP. lia. }
  split; cbn; [done|rewrite Hspan; apply (inv_root _ _ Hinv)| | |lia|].
  - intros P. specialize (HP P). rewrite (inv_votes _ _ Hinv) in HP. destruct (N.leb_spec c count).
    + rewrite (vweight_delete P v _ c Hc) in HP. destruct (P _); lia.
    + pose proof (vweight_insert P v (hist l) (c - count)). rewrite Hc in *. cbn in *. destruct (P _); lia.
  - intros s. specialize (HP (at_seq s)). destruct (decide (s = N.of_nat (led_seq l))) as [->|Hne].
    + rewrite (proj2 (at_seq_hist _ l)) in HP by done. fold w in HP.
      replace (w - N.min count c)%N with (weight (at_seq (N.of_nat (led_seq l))) n') by lia.
      unfold some_nonzero. case_match; [apply lookup_delete_eq|apply lookup_insert_eq].
    + destruct (at_seq s (hist l)) eqn:E; [by apply at_seq_hist in E|]. rewrite N.add_0_r in HP.
      rewrite HP, <-(inv_seq _ _ Hinv). case_match; [by apply lookup_delete_ne|by apply lookup_insert_ne].
  - intros h c'. case_match eqn:E.
    + intros [_ Hh]%lookup_delete_Some. by eapply (inv_nonzero _ _ Hinv).
    + apply N.leb_gt in E. intros [[_ <-]|[_ Hh]]%lookup_insert_Some; [lia|].
      by eapply (inv_nonzero _ _ Hinv).
Qed.

(** ** Queries *)

Lemma tipSupportOf_votes t v l : Inv t v -> ok l -> tipSupportOf t l = default 0%N (v !! hist l).
Proof.
  intros Hinv Hl. pose proof (found_tip t v l Hinv Hl) as Hf. unfold tipSupportOf.
  destruct (findByLedgerID (root_ t) l) as [path|]; [|by rewrite Hf].
  destruct Hf as (m & -> & _ & -> & _). done.
Qed.

Lemma branchSupportOf_votes t v l : Inv t v -> ok l -> branchSupportOf t l = support v (hist l).
Proof.
  intros Hinv Hl. pose proof (found_tip t v l Hinv Hl) as Hf. unfold branchSupportOf.
  destruct (findByLedgerID (root_ t) l) as [path|]; [by destruct Hf as (m & -> & _ & _ & ->)|].
  unfold find. pose proof (find_from_located l (root_ t)) as Hloc.
  destruct (find_from l (root_ t) (diff (span (root_ t)) l)) as [path q]. cbn in Hloc.
  destruct (located_branch l _ _ _ Hloc Hl true [] (inv_wf _ _ Hinv)) as (m & -> & HP);
    [by eapply root_starts|].
  unfold support. rewrite <-(inv_votes _ _ Hinv). by rewrite HP.
Qed.

Lemma empty_votes t v : Inv t v -> empty t = bool_decide (v = ∅).
Proof.
  intros Hinv. unfold empty. rewrite (inv_total _ _ Hinv).
  destruct (decide (v = ∅)) as [->|Hne]; [by rewrite bool_decide_true|].
  rewrite bool_decide_false by done. apply N.eqb_neq.
  apply map_choose in Hne as (h & c & Hc). pose proof (inv_nonzero _ _ Hinv _ _ Hc).
  pose proof (vweight_lookup_le (fun _ => true) v h c Hc eq_refl). lia.
Qed.

(** ** [checkInvariants] *)

Lemma check_node_wf r p n : wf r p n -> check_node r n = true.
Proof.
  revert r p. induction n as [s ts bs cs IH] using Node_ind'; intros r p Hw. cbn [check_node].
  inversion Hw as [? ? ? ? ? ? ? ? Hz Hbs _ Hcs]; subst. rewrite !andb_true_iff. split_and!.
  - destruct r; [done|]. destruct (N.eqb_spec ts 0) as [->|]; [|done].
    apply Nat.leb_le, Hz; done.
  - apply N.eqb_eq. clear. revert ts. induction cs as [|c cs IH]; intros ts; cbn [fold_left].
    + rewrite sum_with_nil. lia.
    + rewrite IH, sum_with_cons. lia.
  - apply forallb_forall. intros c Hc. apply list_elem_of_In in Hc. rewrite Forall_forall in *.
    eapply IH; [done|by apply Hcs].
Qed.

(** The tips of one sequence number, added up. *)
Definition tips_at (s : N) (x : N * N) : N := if (x.1 =? s)%N then x.2 else 0%N.

Lemma tips_weight r p n s : wf r p n -> sum_with (tips_at s) (tips n) = weight (at_seq s) n.
Proof.
  revert r p. induction n as [sp ts bs cs IH] using Node_ind'; intros r p Hw.
  cbn [tips weight]. rewrite sum_with_app. f_equal.
  - pose proof (wf_span _ _ _ Hw) as Hs. cbn in Hs. unfold at_seq. rewrite shist_length by done.
    destruct (N.eqb_spec ts 0) as [->|]; [by case_match|].
    rewrite sum_with_cons, sum_with_nil. unfold tips_at. cbn. destruct Hs as [_ Hne _].
    destruct (N.eqb_spec (N.of_nat (end_ sp - 1)) s), (N.eqb_spec (N.of_nat (end_ sp)) (s + 1)); lia.
  - inversion Hw as [? ? ? ? ? ? ? ? ? ? _ Hcs]; subst. clear -IH Hcs.
    induction cs as [|c cs IHcs]; [done|]. apply Forall_cons in IH as [IHc IH].
    apply Forall_cons in Hcs as [Hc Hcs]. cbn. rewrite sum_with_app, sum_with_cons.
    by rewrite (IHc _ _ Hc), (IHcs IH Hcs).
Qed.

Lemma tips_positive n : Forall (fun x => x.2 <> 0%N) (tips n).
Proof.
  induction n as [sp ts bs cs IH] using Node_ind'. cbn. apply Forall_app. split.
  - destruct (N.eqb_spec ts 0); [constructor|by constructor].
  - by apply Forall_concat, Forall_fmap.
Qed.

Lemma expected_lookup xs s : Forall (fun x => x.2 <> 0%N) xs ->
  (forall s, (sum_with (tips_at s) xs < 2 ^ 32)%N) ->
  foldr (fun x m => <[x.1 := wrap32 (default 0%N (m !! x.1) + x.2)]> m) (∅ : gmap N N) xs !! s
  = some_nonzero (sum_with (tips_at s) xs).
Proof.
  intros Hpos Hfit. revert s. induction Hpos as [|[k c] xs Hc _ IH]; intros s; [done|].
  cbn [foldr fst snd] in *. cbn in Hc. pose proof (Hfit k) as Hk. rewrite sum_with_cons in *.
  unfold tips_at at 1 in Hk. cbn in Hk. rewrite N.eqb_refl in Hk.
  assert (forall s, sum_with (tips_at s) xs < 2 ^ 32)%N as Hfit'.
  { intros s'. specialize (Hfit s'). rewrite sum_with_cons in Hfit. lia. }
  rewrite (IH Hfit'), default_some_nonzero. unfold tips_at at 2. cbn.
  destruct (N.eqb_spec k s) as [->|].
  - rewrite lookup_insert_eq, wrap32_small by lia. rewrite some_nonzero_eq by lia. f_equal. lia.
  - rewrite lookup_insert_ne by done. by rewrite (IH Hfit').
Qed.

Lemma checkInvariants_Inv t v : Inv t v -> checkInvariants t = true.
Proof.
  intros Hinv. pose proof (inv_wf _ _ Hinv) as Hw. unfold checkInvariants.
  rewrite (check_node_wf _ _ _ Hw). apply bool_decide_eq_true, map_eq. intros s.
  unfold expectedSeqSupport. rewrite expected_lookup; [|apply tips_positive|].
  - by rewrite (tips_weight _ _ _ s Hw), (inv_seq _ _ Hinv).
  - intros s'. rewrite (tips_weight _ _ _ s' Hw). by eapply weight_fit.
Qed.
End votes.
