(* ===== verification/LedgerTriePreferred.v ===== *)
(** * The preferred ledger

    The preferred ledger by branch is described one sequence number at a time,
    on the table of votes alone ([preferred]), the way the comment of
    [LedgerTrie::getPreferred] describes it; the walk over the compressed
    trie ([preferred_from]), which jumps from one change of the support to the
    next, is shown to reach it. *)

From S2P Require Import Prelude LedgerTrie LedgerTrieSpec LedgerTrieOps.
Open Scope nat_scope.

(** ** The preferred ledger, one step at a time *)

(** The votes that can still go to any ledger with sequence number [next]:
    those for earlier ledgers, and for ledgers earlier than the last one
    issued. *)
Definition uncommitted (v : votes) (largestIssued next : nat) : N :=
  vweight (fun h => length h <=? max next largestIssued) v.

(** [x] beats every other continuation of [h], and would whatever the
    uncommitted votes do; ties go to the larger identifier. *)
Record winner (v : votes) (largestIssued : nat) (h : list N) (x : N) : Prop := {
  winner_voted : (0 < support v (h ++ [x]))%N;
  winner_best : forall y, y <> x -> (0 < support v (h ++ [y]))%N ->
    (support v (h ++ [y]) < support v (h ++ [x]))%N \/
    support v (h ++ [y]) = support v (h ++ [x]) /\ (y < x)%N;
  winner_safe : let u := uncommitted v largestIssued (length h) in
    u = 0%N \/
    (u < support v (h ++ [x]))%N /\
    forall y, y <> x -> (0 < support v (h ++ [y]))%N ->
      (u + support v (h ++ [y]) < support v (h ++ [x]) + if y <? x then 1 else 0)%N
}.

Inductive preferred (v : votes) (largestIssued : nat) : list N -> list N -> Prop :=
| preferred_stop h : (forall x, ~ winner v largestIssued h x) -> preferred v largestIssued h h
| preferred_step h x h' : winner v largestIssued h x ->
    preferred v largestIssued (h ++ [x]) h' -> preferred v largestIssued h h'.

Lemma winner_unique v i h x y : winner v i h x -> winner v i h y -> x = y.
Proof.
  intros Hx Hy. destruct (decide (x = y)) as [|Hne]; [done|exfalso].
  pose proof (winner_best _ _ _ _ Hx y (not_eq_sym Hne) (winner_voted _ _ _ _ Hy)).
  pose proof (winner_best _ _ _ _ Hy x Hne (winner_voted _ _ _ _ Hx)). lia.
Qed.

Lemma preferred_unique v i h h1 h2 : preferred v i h h1 -> preferred v i h h2 -> h1 = h2.
Proof.
  induction 1 as [h Hno|h x h1 Hx _ IH]; inversion 1 as [|? y ? Hy Hp]; subst; try done.
  - by destruct (Hno y).
  - by destruct (H0 x).
  - apply IH. by rewrite (winner_unique _ _ _ _ _ Hx Hy).
Qed.

Section preferred.
Context {L : Type} `{LedgerHistoryLaws L}.
Context (t : LedgerTrie (L := L)) (v : votes) (largestIssued : nat) (Hinv : Inv t v).
Implicit Types (l : L) (n c : Node (L := L)) (p h : list N) (P : list N -> bool).
#[local] Abbreviation root := (root_ t).
#[local] Abbreviation win := (winner v largestIssued).

(** ** The uncommitted votes in [seqSupport_] *)

Definition below (b : nat) (x : N * N) : N := if (x.1 <? N.of_nat b)%N then x.2 else 0%N.

Lemma sum_ordered f (m : gmap N N) : sum_with f (ordered m) = sum_with f (map_to_list m).
Proof. apply sum_with_perm. apply merge_sort_Permutation. Qed.

Lemma sum_below_S (m : gmap N N) b :
  sum_with (below (S b)) (ordered m) = (sum_with (below b) (ordered m) + default 0 (m !! N.of_nat b))%N.
Proof.
  assert (forall xs, sum_with (below (S b)) xs
    = (sum_with (below b) xs + sum_with (tips_at (N.of_nat b)) xs)%N) as ->.
  { induction xs as [|[k c] xs IH]; [done|]. rewrite !sum_with_cons, IH. unfold below, tips_at; cbn.
    destruct (N.ltb_spec k (N.of_nat (S b))), (N.ltb_spec k (N.of_nat b)), (N.eqb_spec k (N.of_nat b)); lia. }
  rewrite !sum_ordered. f_equal.
  assert (forall m' : gmap N N, m' !! N.of_nat b = None ->
    sum_with (tips_at (N.of_nat b)) (map_to_list m') = 0%N) as Hz.
  { intros m' Hm'. apply sum_with_zero, Forall_forall. intros [k c] Hk%elem_of_map_to_list.
    unfold tips_at; cbn. rewrite (proj2 (N.eqb_neq _ _)); [done|]. congruence. }
  destruct (m !! N.of_nat b) as [c|] eqn:Hc; [|by apply Hz]. cbn.
  rewrite (sum_map_delete _ m _ c Hc), Hz by apply lookup_delete_eq.
  unfold tips_at; cbn. rewrite N.eqb_refl. lia.
Qed.

(** Of the support by sequence number, the part below [b] counts the shorter
    histories. *)
Lemma sum_below b : sum_with (below b) (ordered (seqSupport_ t)) = vweight (fun h => length h <=? b) v.
Proof using Hinv.
  rewrite <-(inv_votes _ _ Hinv). pose proof (inv_wf _ _ Hinv) as Hw. induction b as [|b IH].
  - rewrite sum_with_zero by (apply Forall_forall; intros [k c] _; unfold below; cbn; by destruct k).
    symmetry. eapply weight_outside; [done|]. intros h Hh. apply prefix_length in Hh.
    unfold top in Hh. rewrite length_app in Hh. cbn in Hh. apply Nat.leb_gt. lia.
  - rewrite sum_below_S, IH, (inv_seq _ _ Hinv), default_some_nonzero, <-weight_add.
    + eapply weight_ext; [done|]. intros h _. unfold at_seq.
      destruct (Nat.leb_spec (length h) b), (Nat.leb_spec (length h) (S b)),
        (N.eqb_spec (N.of_nat (length h)) (N.of_nat b + 1)); cbn; lia || done.
    + intros h Hh. apply Nat.leb_le in Hh. unfold at_seq. apply N.eqb_neq. lia.
Qed.
(** ** The iterator over [seqSupport_] *)

#[local] Abbreviation entries := (ordered (seqSupport_ t)).
#[local] Abbreviation seqs_from b it := (Forall (fun x : N * N => N.of_nat b <= x.1)%N it).

(** What is added up so far are entries below [b]. *)
Definition consumed (b : nat) (u : N) (it : list (N * N)) : Prop :=
  exists done, entries = done ++ it /\ u = sum_with snd done /\
    Forall (fun x : N * N => x.1 < N.of_nat b)%N done.

Lemma consumed_le b u it : consumed b u it -> (u <= branchSupport root)%N.
Proof using Hinv.
  intros (dn & E & -> & Hdn).
  assert (sum_with snd dn <= vweight (fun h => length h <=? b)%nat v)%N as Hle.
  { rewrite <-sum_below, E, sum_with_app.
    rewrite (sum_with_ext (below b) snd dn); [lia|].
    eapply Forall_impl; [exact Hdn|]. intros x Hx. unfold below. by rewrite (proj2 (N.ltb_lt _ _)). }
  rewrite <-(inv_votes _ _ Hinv) in Hle.
  pose proof (weight_le _ _ _ (fun h => length h <=? b) (inv_wf _ _ Hinv)). lia.
Qed.

Lemma consumed_mono b b' u it : consumed b u it -> b <= b' -> consumed b' u it.
Proof.
  intros (dn & E & Hu & Hdn) Hb. exists dn. split_and!; [done..|].
  eapply Forall_impl; [exact Hdn|]. cbn. lia.
Qed.

Lemma consumed_next b u s (c : N) it : consumed b u ((s, c) :: it) -> (s < N.of_nat b)%N ->
  consumed b (u + c)%N it.
Proof.
  intros (dn & E & -> & Hdn) Hs. exists (dn ++ [(s, c)]). split_and!.
  - by rewrite <-app_assoc.
  - rewrite sum_with_app, sum_with_cons, sum_with_nil. cbn. lia.
  - apply Forall_app. split; [done|]. by constructor.
Qed.

Lemma consumed_wrap32 b u s (c : N) it : consumed b u ((s, c) :: it) -> wrap32 (u + c) = (u + c)%N.
Proof using Hinv.
  intros Hc. apply wrap32_small. pose proof (inv_fit _ _ Hinv).
  assert (consumed (max b (S (N.to_nat s))) (u + c)%N it) as Hn.
  { eapply consumed_next; [eapply consumed_mono; [exact Hc|lia]|lia]. }
  apply consumed_le in Hn. lia.
Qed.

Lemma exact_uncommitted k u it : consumed (max k largestIssued) u it ->
  seqs_from (max k largestIssued) it -> u = uncommitted v largestIssued k.
Proof using Hinv.
  intros (dn & E & -> & Hdn) Hit. unfold uncommitted. rewrite <-sum_below, E, sum_with_app.
  rewrite (sum_with_ext (below _) snd dn), (sum_with_zero (below _) it); [lia| |].
  - eapply Forall_impl; [exact Hit|]. intros x Hx. unfold below. by rewrite (proj2 (N.ltb_ge _ _)).
  - eapply Forall_impl; [exact Hdn|]. intros x Hx. unfold below. by rewrite (proj2 (N.ltb_lt _ _)).
Qed.

Lemma consumed_sorted b u s (c : N) it : consumed b u ((s, c) :: it) ->
  Forall (fun x : N * N => s < x.1)%N it.
Proof.
  intros (dn & E & _ & _). pose proof (ordered_sorted (seqSupport_ t)) as Hs. rewrite E in Hs.
  clear E. induction dn as [|x dn IH]; cbn in Hs; apply StronglySorted_inv in Hs as [Hs Hx]; [|by apply IH].
  exact Hx.
Qed.

Lemma uncommitted_before_spec b u it : consumed b u it ->
  let r := uncommitted_before b u it in consumed b r.1 r.2 /\ seqs_from b r.2.
Proof using Hinv.
  revert u. induction it as [|[s c] it IH]; intros u Hc; cbn; [by split; [|constructor]|].
  destruct (N.ltb_spec s (N.of_nat b)) as [Hs|Hs].
  - rewrite (consumed_wrap32 _ _ _ _ _ Hc). apply IH. by eapply consumed_next.
  - cbn. split; [done|]. constructor; [done|]. eapply Forall_impl; [by eapply consumed_sorted|].
    cbn. lia.
Qed.

(** Along a span: every step up to where the walk stops is safe, and the next
    is not. *)
Lemma advance_spec e branch ns u it : consumed (max ns largestIssued) u it ->
  seqs_from (max ns largestIssued) it -> ns <= e ->
  let '(ns', u', it') := advance e branch ns u it in
  ns <= ns' <= e /\ consumed (max ns' largestIssued) u' it' /\ seqs_from (max ns' largestIssued) it' /\
  (forall k, ns <= k < ns' -> (uncommitted v largestIssued k < branch)%N) /\
  (ns' < e -> (branch <= uncommitted v largestIssued ns')%N).
Proof using Hinv.
  revert ns u. induction it as [|[s c] it IH]; intros ns u Hc Hit Hns; cbn [advance];
    pose proof (exact_uncommitted _ _ _ Hc Hit) as Hu;
    destruct (Nat.ltb_spec ns e) as [Hlt|Hge]; cbn [andb];
    try (by split_and!; try done; intros; lia);
    destruct (N.ltb_spec u branch) as [Hub|Hub];
    try (by split_and!; try done; intros; try lia; rewrite <-Hu).
  - split_and!; [lia..| |constructor| |lia].
    + eapply consumed_mono; [done|lia].
    + intros k Hk. rewrite <-(exact_uncommitted k u []); [done| |constructor].
      eapply consumed_mono; [done|lia].
  - pose proof (consumed_sorted _ _ _ _ _ Hc) as Hsort. apply Forall_cons in Hit as [Hs Hit]. cbn in Hs.
    assert (forall b, b <= N.to_nat s -> seqs_from b ((s, c) :: it)) as Hfrom.
    { intros b Hb. constructor; [cbn; lia|]. eapply Forall_impl; [exact Hsort|]. cbn. lia. }
    assert (forall k, ns <= k <= N.to_nat s -> uncommitted v largestIssued k = u) as Huk.
    { intros k Hk. symmetry. eapply (exact_uncommitted k); [eapply consumed_mono; [done|lia]|].
      apply Hfrom. lia. }
    destruct (N.ltb_spec s (N.of_nat e)) as [Hse|Hse].
    + rewrite (consumed_wrap32 _ _ _ _ _ Hc).
      specialize (IH (N.to_nat s + 1) (u + c)%N).
      destruct (advance e branch _ _ it) as [[ns' u'] it'].
      destruct IH as (Ha1 & Ha2 & Ha3 & Ha4 & Ha5); [| |lia|].
      * eapply consumed_next; [eapply consumed_mono; [done|lia]|lia].
      * eapply Forall_impl; [exact Hsort|]. cbn. lia.
      * split_and!; [lia..|done|done| |done]. intros k Hk.
        destruct (decide (k <= N.to_nat s)); [by rewrite Huk by lia|apply Ha4; lia].
    + split_and!; [lia..| | | |lia].
      * eapply consumed_mono; [done|lia].
      * apply Hfrom. lia.
      * intros k Hk. by rewrite Huk by lia.
Qed.
(** ** Continuations of a history in a node *)

(** The histories that start the way the subtree does are all in it. *)
Definition isolated p n : Prop :=
  forall P, (forall h, P h = true -> top p n `prefix_of` h) -> weight P root = weight P n.

Lemma isolated_child r p n i c : wf r p n -> isolated p n -> children n !! i = Some c ->
  isolated (shist (span n)) c.
Proof.
  intros Hw Hn Hi P HP. rewrite Hn; [by eapply weight_child|].
  intros h Hh. etrans; [by eapply wf_top_shist|]. etrans; [apply top_child|by apply HP].
Qed.

Lemma support_isolated p n h : isolated p n -> top p n `prefix_of` h ->
  support v h = weight (fun h' => bool_decide (h `prefix_of` h')) n.
Proof using Hinv.
  intros Hn Ht. unfold support. rewrite <-(inv_votes _ _ Hinv). apply Hn.
  intros h' Hh. apply bool_decide_eq_true in Hh. by etrans.
Qed.

Lemma prefix_snoc_lookup h x h' : (h ++ [x]) `prefix_of` h' -> h' !! length h = Some x.
Proof. intros Hp. eapply lookup_prefix; [exact Hp|]. by apply list_lookup_middle. Qed.

Section in_node.
Context (r : bool) (p : list N) (n : Node (L := L)).
Hypothesis (Hw : wf r p n) (Hn : isolated p n).
#[local] Abbreviation hd := (hist (ledger_ (span n))).

Lemma span_top k : start_ (span n) < k <= end_ (span n) -> top p n `prefix_of` take k hd.
Proof using Hw.
  intros Hk. rewrite (wf_top _ _ _ Hw), (wf_start _ _ _ Hw).
  replace (S (start_ (span n))) with (min (S (start_ (span n))) k) by lia.
  rewrite <-take_take. apply prefix_take.
Qed.

Lemma take_span_length k : k <= end_ (span n) -> length (take k hd) = k.
Proof using Hw. intros. rewrite length_take, hist_length. destruct (wf_span _ _ _ Hw). lia. Qed.

Lemma span_support k x : start_ (span n) < k < end_ (span n) ->
  support v (take k hd ++ [x]) =
  if (x =? led_at (ledger_ (span n)) k)%N then branchSupport n else 0%N.
Proof using Hinv Hw Hn.
  intros Hk. pose proof (wf_span _ _ _ Hw) as [_ _ Hb].
  rewrite (support_isolated p n); [|done|by etrans; [apply (span_top k); lia|apply prefix_app_r]].
  destruct (N.eqb_spec x (led_at (ledger_ (span n)) k)) as [->|Hne].
  - eapply weight_branch; [done|]. intros h Hh. apply bool_decide_true. etrans; [|exact Hh].
    rewrite <-take_hist_S by lia. unfold shist.
    replace (S k) with (min (S k) (end_ (span n))) by lia. rewrite <-take_take. apply prefix_take.
  - eapply weight_nothing; [done|]. intros h Hh. apply bool_decide_false. intros Hp. apply Hne.
    apply prefix_snoc_lookup in Hp. rewrite take_span_length in Hp by lia.
    eapply (lookup_prefix _ _ k) in Hh; [rewrite Hp in Hh; by injection Hh|].
    unfold shist. rewrite lookup_take_lt by lia. apply hist_lookup. lia.
Qed.

Lemma span_winner k x : (0 < branchSupport n)%N -> start_ (span n) < k < end_ (span n) ->
  win (take k hd) x <->
  x = led_at (ledger_ (span n)) k /\ (uncommitted v largestIssued k < branchSupport n)%N.
Proof using Hinv Hw Hn.
  intros Hpos Hk. pose proof (span_support k) as Hsup. split.
  - intros [Hv _ Hs]. rewrite !Hsup in * by done. rewrite take_span_length in Hs by lia.
    destruct (N.eqb_spec x (led_at (ledger_ (span n)) k)); [|lia]. split; [done|].
    cbn zeta in Hs. destruct Hs as [Hs|[Hs _]]; lia.
  - intros [-> Hu]. assert (forall y, y <> led_at (ledger_ (span n)) k ->
      support v (take k hd ++ [y]) = 0%N) as Hother.
    { intros y Hy. rewrite Hsup by done. by rewrite (proj2 (N.eqb_neq _ _)). }
    assert (support v (take k hd ++ [led_at (ledger_ (span n)) k]) = branchSupport n) as Hself.
    { rewrite Hsup by done. by rewrite N.eqb_refl. }
    split; rewrite ?Hself; [done|intros y Hy Hy'; rewrite Hother in Hy' by done; lia|].
    cbn. rewrite take_span_length by lia. right. split; [done|].
    intros y Hy Hy'. rewrite Hother in Hy' by done. lia.
Qed.

Lemma child_support c : c ∈ children n ->
  support v (shist (span n) ++ [startID (span c)]) = branchSupport c.
Proof using Hinv Hw Hn.
  intros [i Hi]%list_elem_of_lookup_1.
  rewrite (support_isolated (shist (span n)) c); [|by eapply isolated_child|done].
  eapply weight_inside; [by eapply wf_child|]. intros h Hh. by apply bool_decide_true.
Qed.

Lemma end_support x : (0 < support v (shist (span n) ++ [x]))%N ->
  exists c, c ∈ children n /\ startID (span c) = x.
Proof using Hinv Hw Hn.
  intros Hs. destruct (decide (x ∈ (fun c => startID (span c)) <$> children n)) as [Hx|Hx].
  { apply list_elem_of_fmap in Hx as (c & -> & Hc). by exists c. }
  exfalso. rewrite (support_isolated p n) in Hs; [|done|].
  2: { etrans; [by eapply wf_top_shist|apply prefix_app_r]. done. }
  destruct n as [s ts bs cs]. cbn in *. rewrite bool_decide_false in Hs.
  2: { intros Hp%prefix_length. rewrite length_app in Hp. cbn in Hp. lia. }
  rewrite sum_with_zero in Hs; [done|]. apply Forall_lookup. intros i c Hi.
  eapply weight_outside; [exact (wf_child _ _ _ _ _ Hw Hi)|]. cbn. intros h Hh.
  apply bool_decide_false. intros Hp. apply Hx.
  apply prefix_snoc_lookup in Hp. apply prefix_snoc_lookup in Hh. rewrite Hp in Hh. injection Hh as ->.
  apply list_elem_of_fmap. exists c. split; [done|]. by eapply list_elem_of_lookup_2.
Qed.
End in_node.
(** ** The best child *)

(** [a] is ahead of [b]: the order of [better], by cases. *)
Definition ahead (a b : Node (L := L)) : Prop :=
  (branchSupport b < branchSupport a)%N \/
  branchSupport b = branchSupport a /\ (startID (span b) < startID (span a))%N.

Lemma better_ahead a b : better a b = true <-> ahead a b.
Proof.
  unfold better, ahead. rewrite orb_true_iff, andb_true_iff, !N.ltb_lt, N.eqb_eq. done.
Qed.
Lemma not_worse_ahead a b : not_worse a b <-> ahead a b \/
  branchSupport a = branchSupport b /\ startID (span a) = startID (span b).
Proof.
  unfold not_worse. rewrite <-not_true_iff_false, better_ahead. unfold ahead. lia.
Qed.

#[local] Instance not_worse_trans : Transitive (not_worse (L := L)).
Proof. intros a b c. rewrite !not_worse_ahead. unfold ahead. lia. Qed.
#[local] Instance not_worse_total : Total (not_worse (L := L)).
Proof. intros a b. rewrite !not_worse_ahead. unfold ahead. lia. Qed.

(** The votes for [c'] and [u] more do not take the lead from [c]. *)
Definition unbeaten (u : N) c (c' : Node (L := L)) : Prop :=
  (u + branchSupport c' < branchSupport c + if startID (span c') <? startID (span c) then 1 else 0)%N.

Lemma best_child_spec cs c m : NoDup ((fun c => startID (span c)) <$> cs) ->
  Forall (fun c => 0 < branchSupport c < 2 ^ 32)%N cs -> best_child cs = Some (c, m) ->
  c ∈ cs /\ (forall c', c' ∈ cs -> c' = c \/ ahead c c' /\ startID (span c') <> startID (span c)) /\
  forall u, (u < m)%N <->
    (u < branchSupport c)%N /\
    forall c', c' ∈ cs -> startID (span c') <> startID (span c) -> unbeaten u c c'.
Proof.
  intros Hnd Hpos Hb. destruct cs as [|c1 [|c2 cs]]; cbn [best_child] in Hb; [done|simplify_eq|].
  { split_and!; [by left|by intros c' ->%list_elem_of_singleton; left|].
    intros u. split; [|naive_solver]. intros Hu. split; [done|].
    by intros c' ->%list_elem_of_singleton. }
  remember (c1 :: c2 :: cs) as all eqn:Eall.
  pose proof (merge_sort_Permutation not_worse all) as Hp.
  pose proof (StronglySorted_merge_sort not_worse all) as Hs. fold (ranked all) in Hp, Hs.
  destruct (ranked all) as [|d1 [|d2 ds]]; [done..|]. injection Hb as <- <-. clear Eall.
  rewrite <-Hp in Hnd, Hpos. apply StronglySorted_inv in Hs as [Hs H1s].
  apply StronglySorted_inv in Hs as [_ H2s]. apply Forall_cons in H1s as [H12 _].
  apply Forall_cons in Hpos as [Hp1 Hpos]. apply Forall_cons in Hpos as [Hp2 _].
  cbn in Hnd. apply NoDup_cons in Hnd as [Hn1 _].
  assert (forall d, d ∈ d2 :: ds -> startID (span d) <> startID (span d1)) as Hne.
  { intros d Hd E. apply Hn1. rewrite <-E. change (startID (span d) ∈ (fun c => startID (span c)) <$> (d2 :: ds)).
    apply list_elem_of_fmap. by exists d. }
  pose proof (Hne d2 ltac:(by left)) as Hne2. apply not_worse_ahead in H12.
  assert (ahead d1 d2) as Ha by (destruct H12 as [|[_ ?]]; [done|congruence]). clear H12.
  assert (forall d, d ∈ d2 :: ds -> d = d2 \/ ahead d2 d \/
    branchSupport d2 = branchSupport d /\ startID (span d2) = startID (span d)) as H2.
  { intros d [->|Hd]%elem_of_cons; [by left|right]. rewrite Forall_forall in H2s.
    apply not_worse_ahead. by apply H2s. }
  setoid_rewrite <-Hp. split_and!; [by left| |].
  - intros d [->|Hd]%elem_of_cons; [by left|right]. split; [|by apply Hne].
    destruct (H2 d Hd) as [->|Hd2]; [done|]. unfold ahead in *. lia.
  - intros u. assert (unbeaten u d1 d2 <-> (u < (if (startID (span d2) <? startID (span d1))%N
      then wrap32 (wrap32 (branchSupport d1 + 2 ^ 32 - branchSupport d2) + 1)
      else wrap32 (branchSupport d1 + 2 ^ 32 - branchSupport d2)))%N) as <-.
    { unfold unbeaten. unfold ahead in Ha. rewrite wrap32_sub by lia.
      destruct (N.ltb_spec (startID (span d2)) (startID (span d1))); rewrite ?wrap32_small by lia; lia. }
    split.
    + intros Hu. unfold unbeaten, ahead in *. split; [case_match; lia|].
      intros d [->|Hd]%elem_of_cons Hd1; [done|]. destruct (H2 d Hd) as [->|Hd2]; [done|].
      destruct (N.ltb_spec (startID (span d2)) (startID (span d1))),
        (N.ltb_spec (startID (span d)) (startID (span d1))); lia.
    + intros [_ Hu]. apply Hu; [right; by left|done].
Qed.

Lemma best_child_none (cs : list (Node (L := L))) : best_child cs = None -> cs = [].
Proof.
  destruct cs as [|c1 [|c2 cs]]; cbn [best_child]; [done..|].
  pose proof (merge_sort_Permutation not_worse (c1 :: c2 :: cs)) as Hp. fold (ranked (c1 :: c2 :: cs)) in Hp.
  apply Permutation_length in Hp. destruct (ranked _) as [|d1 [|d2 ds]]; cbn in Hp; [lia..|done].
Qed.

Section at_end.
Context (r : bool) (p : list N) (n : Node (L := L)).
Hypothesis (Hw : wf r p n) (Hn : isolated p n).
#[local] Abbreviation u := (uncommitted v largestIssued (end_ (span n))).

Lemma children_positive : Forall (fun c => 0 < branchSupport c < 2 ^ 32)%N (children n).
Proof using Hinv Hw Hn.
  apply Forall_lookup. intros i c Hi. split; [by eapply wf_positive, wf_child|].
  rewrite <-(child_support r p n Hw Hn c) by (by eapply list_elem_of_lookup_2).
  unfold support. rewrite <-(inv_votes _ _ Hinv). by eapply weight_fit.
Qed.

Lemma children_nodup : NoDup ((fun c => startID (span c)) <$> children n).
Proof using Hw. by inversion Hw. Qed.

(** The best child wins, or nothing does. *)
Lemma end_winner c m : best_child (children n) = Some (c, m) -> forall x,
  win (shist (span n)) x <-> x = startID (span c) /\ ((u < m)%N \/ u = 0%N).
Proof using Hinv Hw Hn.
  intros Hb. destruct (best_child_spec _ _ _ children_nodup children_positive Hb) as (Hc & Hbest & Hm).
  pose proof (child_support r p n Hw Hn) as Hsup. pose proof (end_support r p n Hw Hn) as Hend.
  assert (length (shist (span n)) = end_ (span n)) as Hlen by (by eapply shist_length, wf_span).
  assert (0 < branchSupport c)%N as Hcpos.
  { pose proof children_positive as Hpos. rewrite Forall_forall in Hpos. by apply Hpos. }
  intros x. split.
  - intros [Hv Hbx Hs]. destruct (Hend x Hv) as (cx & Hcx & <-).
    assert (cx = c) as ->.
    { destruct (Hbest cx Hcx) as [|[Ha Hne]]; [done|exfalso].
      specialize (Hbx (startID (span c)) (not_eq_sym Hne)). rewrite !Hsup in Hbx by done.
      unfold ahead in Ha. lia. }
    split; [done|]. cbn zeta in Hs. rewrite Hlen, !Hsup in Hs by done. rewrite Hm.
    destruct Hs as [|[Hs1 Hs2]]; [by right|left]. split; [done|]. intros c' Hc' Hne.
    specialize (Hs2 (startID (span c')) Hne). rewrite !Hsup in Hs2 by done. apply Hs2.
    pose proof children_positive as Hpos. rewrite Forall_forall in Hpos. by apply Hpos.
  - intros [-> Hu]. split; [by rewrite Hsup| |].
    + intros y Hy Hv. destruct (Hend y Hv) as (c' & Hc' & <-). rewrite !Hsup by done.
      destruct (Hbest c' Hc') as [->|[Ha _]]; [done|exact Ha].
    + cbn zeta. rewrite Hlen, Hsup by done. destruct Hu as [Hu|]; [right|by left].
      apply Hm in Hu as [Hu1 Hu2]. split; [done|]. intros y Hy Hv.
      destruct (Hend y Hv) as (c' & Hc' & <-). rewrite Hsup by done. by apply Hu2.
Qed.
End at_end.

(** ** The walk *)

Lemma preferred_span r p n a b h' : wf r p n -> isolated p n -> (0 < branchSupport n)%N ->
  start_ (span n) < a -> a <= b <= end_ (span n) ->
  (forall k, a <= k < b -> (uncommitted v largestIssued k < branchSupport n)%N) ->
  preferred v largestIssued (take b (hist (ledger_ (span n)))) h' ->
  preferred v largestIssued (take a (hist (ledger_ (span n)))) h'.
Proof using Hinv.
  intros Hw Hn Hpos Ha Hab Hu Hp. remember (b - a) as d eqn:Ed. revert a Ha Hab Hu Ed.
  induction d as [|d IH]; intros a Ha Hab Hu Ed; [by replace a with b by lia|].
  eapply preferred_step; [apply (span_winner r p n Hw Hn a); [done|lia|split; [reflexivity|apply Hu; lia]]|].
  pose proof (wf_span _ _ _ Hw) as [_ _ Hb]. rewrite <-take_hist_S by lia.
  apply IH; [lia..| |lia]. intros k Hk. apply Hu. lia.
Qed.

Lemma height_child n i c : children n !! i = Some c -> height c < height n.
Proof.
  destruct n as [s ts bs cs]. cbn. intros Hi. apply list_elem_of_lookup_2 in Hi.
  apply Nat.lt_succ_r. induction Hi; cbn; lia.
Qed.

(** The sequence number and the identifier of the tip of a history. *)
Definition tip_of h : nat * N := (length h - 1, default 0%N (last h)).

Lemma tip_of_take l k : 0 < k <= S (led_seq l) -> tip_of (take k (hist l)) = (k - 1, led_at l (k - 1)).
Proof.
  intros Hk. unfold tip_of. rewrite length_take, hist_length. f_equal; [lia|].
  replace k with (S (k - 1)) at 1 by lia. rewrite take_hist_S by lia. by rewrite last_snoc.
Qed.

(** A tip whose ledger has the history [h] up to it. *)
Record ends_at (p : SpanTip (L := L)) h : Prop := {
  ends_tip : tip_of h = (tip_seq p, tip_id p);
  ends_ok : ok (tip_ledger p);
  ends_seq : tip_seq p <= led_seq (tip_ledger p);
  ends_hist : h = take (S (tip_seq p)) (hist (tip_ledger p))
}.

Lemma ends_at_take l k : ok l -> 0 < k <= S (led_seq l) ->
  ends_at (mkSpanTip (k - 1) (led_at l (k - 1)) l) (take k (hist l)).
Proof.
  intros Hl Hk. split; cbn; [by apply tip_of_take|done|lia|]. f_equal. lia.
Qed.

Lemma ends_at_lookup (st : SpanTip (L := L)) h s : ends_at st h -> s <= tip_seq st -> h !! s = Some (tip_ancestor st s).
Proof.
  intros [_ Hok Hseq ->] Hs. rewrite lookup_take_lt by lia. unfold hist, tip_ancestor.
  rewrite list_lookup_fmap, lookup_seq_lt by lia. done.
Qed.

Lemma preferred_from_spec fuel n r p b u it : wf r p n -> isolated p n -> (0 < branchSupport n)%N ->
  height n <= fuel -> consumed b u it -> b <= max (start_ (span n)) largestIssued ->
  exists h st, preferred v largestIssued (top p n) h /\
    preferred_from fuel largestIssued n u it = Ok st /\ ends_at st h.
Proof using Hinv.
  revert n r p b u it. induction fuel as [|fuel IH]; intros n r p b u it Hw Hn Hpos Hfuel Hc Hb.
  { destruct n; cbn in Hfuel; lia. }
  pose proof (wf_span _ _ _ Hw) as [Hok Hne Hbd]. cbn [preferred_from].
  destruct (uncommitted_before_spec (max (start_ (span n) + 1) largestIssued) u it) as [Hc1 Hit1].
  { eapply consumed_mono; [exact Hc|lia]. }
  destruct (uncommitted_before _ u it) as [u1 it1]. cbn in Hc1, Hit1.
  pose proof (advance_spec (end_ (span n)) (branchSupport n) (start_ (span n) + 1) u1 it1 Hc1 Hit1
    ltac:(lia)) as Hadv.
  destruct (advance _ _ _ u1 it1) as [[ns u2] it2]. destruct Hadv as (Hns & Hc2 & Hit2 & Hsafe & Hstop).
  assert (top p n = take (start_ (span n) + 1) (hist (ledger_ (span n)))) as Htop.
  { by rewrite (wf_top _ _ _ Hw), (wf_start _ _ _ Hw), Nat.add_1_r. }
  rewrite Htop. destruct (Nat.ltb_spec ns (end_ (span n))) as [Hlt|Hge].
  - exists (take ns (hist (ledger_ (span n)))). eexists. split; [|split].
    + apply (preferred_span r p n _ ns); [done..|lia|lia|done|]. apply preferred_stop. intros x Hx.
      apply (span_winner r p n Hw Hn ns) in Hx as [_ Hx]; [|done|lia]. specialize (Hstop Hlt). lia.
    + by rewrite before_in by lia.
    + by apply ends_at_take; [|lia].
  - replace ns with (end_ (span n)) in * by lia.
    pose proof (exact_uncommitted _ _ _ Hc2 Hit2) as Hu.
    assert (forall h, preferred v largestIssued (shist (span n)) h ->
      preferred v largestIssued (take (start_ (span n) + 1) (hist (ledger_ (span n)))) h) as Hspan.
    { intros h Hh. apply (preferred_span r p n _ (end_ (span n))); [done..|lia|lia|done|exact Hh]. }
    assert (ends_at (tip (span n)) (shist (span n))) as Htip by (by apply ends_at_take; [|lia]).
    destruct (best_child (children n)) as [[c m]|] eqn:Hbc.
    + pose proof (end_winner r p n Hw Hn c m Hbc) as Hwin. rewrite <-Hu in Hwin.
      destruct ((u2 <? m)%N || (u2 =? 0)%N) eqn:Hm.
      * assert (c ∈ children n) as Hin.
        { eapply (best_child_spec _ _ _ (children_nodup r p n Hw) (children_positive r p n Hw Hn)), Hbc. }
        apply list_elem_of_lookup_1 in Hin as [i Hi].
        destruct (IH c false (shist (span n)) (max (end_ (span n)) largestIssued) u2 it2)
          as (h & st & Hh & -> & Hst); [by eapply wf_child|by eapply isolated_child|by eapply wf_positive, wf_child| |done| |].
        { pose proof (height_child _ _ _ Hi). lia. }
        { rewrite (wf_child_start _ _ _ _ _ Hw Hi). done. }
        exists h, st. split_and!; [|done..]. apply Hspan. eapply preferred_step; [|exact Hh].
        apply Hwin. split; [done|]. rewrite orb_true_iff, N.ltb_lt, N.eqb_eq in Hm. done.
      * eexists (shist (span n)), _. split_and!; [|done..]. apply Hspan, preferred_stop. intros x Hx.
        apply Hwin in Hx as [_ Hx]. rewrite orb_false_iff, N.ltb_ge, N.eqb_neq in Hm. lia.
    + eexists (shist (span n)), _. split_and!; [|done..]. apply Hspan, preferred_stop. intros x [Hx _ _].
      destruct (end_support r p n Hw Hn x Hx) as (c & Hin & _).
      rewrite (best_child_none _ Hbc) in Hin. by apply elem_of_nil in Hin.
Qed.

Lemma getPreferred_spec : if empty t then getPreferred t largestIssued = Ok None else
  exists h st, preferred v largestIssued [led_at led_genesis 0] h /\
    getPreferred t largestIssued = Ok (Some st) /\ ends_at st h.
Proof using All.
  unfold getPreferred. destruct (empty t) eqn:He; [done|]. unfold empty in He. apply N.eqb_neq in He.
  pose proof (inv_wf _ _ Hinv) as Hw.
  destruct (preferred_from_spec (height root) root true [] 0 0 entries) as (h & st & Hh & -> & Hst);
    [done|by intros P _|lia|done| |lia|].
  { exists []. by split_and!. }
  exists h, st. split_and!; [|done..]. unfold top in Hh. cbn in Hh. unfold startID in Hh.
  pose proof (wf_start _ _ _ Hw) as Hs0. cbn in Hs0. rewrite <-Hs0 in Hh.
  rewrite genesis_common in Hh by apply (wf_span _ _ _ Hw). done.
Qed.
End preferred.
