(* ===== verification/RCLValidations.v ===== *)
(** * Validated ledgers

    [RCLValidatedLedger] (RCLValidations.cpp) is the view of a ledger the
    trie of validations works with: its hash, its sequence number and the
    hashes of up to 256 ancestors taken from its skip list.  It is an instance
    of the interface of LedgerTrie, and satisfies its laws for the ledgers
    whose skip list reaches back to the first ledger. *)

From S2P Require Import RawStateTable.
From S2P Require Import Prelude LedgerEntry Views Serializer LedgerHeader SHAMapNodeID SHAMap SHAMapSpec SHAMapMap SHAMapHash Ledger LedgerSpec StackedViews ApplyToLedger Instances BuildLedger LedgerTrie LedgerTrieSpec.
Open Scope nat_scope.

Record RCLValidatedLedger : Type := mkRCLValidatedLedger {
  ledgerID_ : N;
  ledgerSeq_ : nat;
  ancestors_ : list N
}.

(** The constructors. *)
Definition rcl_genesis : RCLValidatedLedger := mkRCLValidatedLedger 0 0 [].

Definition rcl_of_ledger `{Digest} {V : Type} `{ReadView V, HeaderView V} (h : Heap) (ledger : V)
    : RCLValidatedLedger :=
  let hd := rv_header ledger in
  mkRCLValidatedLedger (hash hd) (Z.to_nat (LedgerHeader.seq hd))
    (match rv_read h ledger keylet_skip0 with
     | Some hashIndex => getFieldV256 "Hashes" hashIndex
     | None => []
     end).

Definition minSeq (l : RCLValidatedLedger) : nat :=
  ledgerSeq_ l - min (ledgerSeq_ l) (length (ancestors_ l)).

(** [operator[]]: the identifier zero where the ancestor is not known. *)
Definition ancestor (l : RCLValidatedLedger) (s : nat) : N :=
  if (minSeq l <=? s) && (s <=? ledgerSeq_ l) then
    if s =? ledgerSeq_ l then ledgerID_ l
    else default 0%N (ancestors_ l !! (length (ancestors_ l) - (ledgerSeq_ l - s)))
  else 0%N.

(** The loop of [mismatch], down from [curr]. *)
Fixpoint last_common (a b : RCLValidatedLedger) (lower curr : nat) : nat :=
  match curr with
  | O => O
  | S prev =>
      if negb (ancestor a curr =? ancestor b curr)%N && (lower <=? curr)
      then last_common a b lower prev else curr
  end.

Definition mismatch (a b : RCLValidatedLedger) : nat :=
  let lower := max (minSeq a) (minSeq b) in
  let upper := min (ledgerSeq_ a) (ledgerSeq_ b) in
  let curr := last_common a b lower upper in
  if curr <? lower then 1 else curr + 1.

#[export] Instance RCL_LedgerHistory : LedgerHistory RCLValidatedLedger := {|
  led_genesis := rcl_genesis;
  led_seq := ledgerSeq_;
  led_at := ancestor;
  led_mismatch := mismatch
|}.

(** ** The loop *)

Lemma last_common_le a b lower curr : last_common a b lower curr <= curr.
Proof. induction curr as [|n IH]; cbn [last_common]; [done|]. case_match; lia. Qed.

Lemma last_common_above a b lower curr s :
  lower <= s -> last_common a b lower curr < s <= curr -> ancestor a s <> ancestor b s.
Proof.
  induction curr as [|n IH]; cbn [last_common]; intros Hl Hs; [lia|].
  destruct (negb _ && _) eqn:E; [|lia]. apply andb_true_iff in E as [E _].
  apply negb_true_iff, N.eqb_neq in E.
  destruct (decide (s = S n)) as [->|]; [done|]. apply IH; lia.
Qed.

Lemma last_common_stop a b lower curr :
  let s := last_common a b lower curr in
  s = 0 \/ s < lower \/ ancestor a s = ancestor b s.
Proof.
  induction curr as [|n IH]; cbn [last_common]; [by left|].
  destruct (negb _ && _) eqn:E; [done|]. right.
  apply andb_false_iff in E as [E|E]; [right|left].
  - by apply negb_false_iff, N.eqb_eq in E.
  - by apply Nat.leb_gt in E.
Qed.

(** ** Ledgers with all their ancestors *)

(** The history behind every hash: the hashes of the ancestors of the ledger,
    the first one first. *)
Class HashHistory : Type := {
  history_of : N -> list N;
  history_prefix : forall id i x, history_of id !! i = Some x ->
    x <> 0%N /\ history_of x = take i (history_of id)
}.

Section complete.
Context `{HashHistory}.
Implicit Types (a b l : RCLValidatedLedger).

(** All the ancestors down to the ledger with sequence number one are known. *)
Definition complete l : Prop :=
  l = rcl_genesis \/
  ledgerID_ l <> 0%N /\ ancestors_ l = history_of (ledgerID_ l) /\
  ledgerSeq_ l = S (length (ancestors_ l)).

#[export] Instance RCL_LedgerOk : LedgerOk RCLValidatedLedger := complete.

(** The identifiers from sequence number one on. *)
Definition ids l : list N := if ledgerSeq_ l =? 0 then [] else ancestors_ l ++ [ledgerID_ l].

Lemma complete_minSeq l : complete l -> minSeq l = min 1 (ledgerSeq_ l).
Proof. unfold minSeq. intros [->|(_ & _ & ->)]; [done|lia]. Qed.

Lemma complete_ids l : complete l -> length (ids l) = ledgerSeq_ l.
Proof. unfold ids. intros [->|(_ & _ & ->)]; cbn; [done|]. rewrite length_app. cbn. lia. Qed.

Lemma ancestor_zero l : complete l -> ancestor l 0 = 0%N.
Proof.
  intros Hc. unfold ancestor. rewrite (complete_minSeq _ Hc).
  destruct Hc as [->|(_ & _ & Hs)]; [done|]. rewrite Hs. cbn. done.
Qed.

Lemma ancestor_ids l s : complete l -> s < ledgerSeq_ l -> ids l !! s = Some (ancestor l (S s)).
Proof.
  intros Hc Hs. unfold ancestor, ids. rewrite (complete_minSeq _ Hc).
  destruct Hc as [->|(_ & _ & Hseq)]; [cbn in Hs; lia|].
  rewrite Hseq in *. cbn [Nat.eqb]. rewrite (proj2 (Nat.leb_le _ (S s))) by lia.
  rewrite (proj2 (Nat.leb_le (S s) _)) by lia. cbn [andb].
  destruct (Nat.eqb_spec s (length (ancestors_ l))) as [->|Hne]; [by apply list_lookup_middle|].
  rewrite lookup_app_l by lia. replace (_ - _) with s by lia.
  destruct (lookup_lt_is_Some_2 (ancestors_ l) s) as [x ->]; [lia|done].
Qed.

(** An identifier determines what comes before it. *)
Lemma ids_history l s x : complete l -> ids l !! s = Some x ->
  x <> 0%N /\ history_of x = take s (ids l).
Proof.
  intros Hc Hx. unfold ids in *. destruct Hc as [->|(Hid & Hanc & Hseq)]; [done|].
  rewrite Hseq in *. cbn [Nat.eqb] in *.
  apply lookup_app_Some in Hx as [Hx|[Hge Hx]].
  - rewrite take_app_le by (apply lookup_lt_Some in Hx; lia). rewrite Hanc in *.
    by apply history_prefix in Hx.
  - apply list_lookup_singleton_Some in Hx as [Hz <-]. split; [done|].
    rewrite take_app_length' by lia. done.
Qed.

Lemma unique_ids a b i j : complete a -> complete b -> i <= ledgerSeq_ a -> j <= ledgerSeq_ b ->
  ancestor a i = ancestor b j -> i = j /\ forall k, k <= i -> ancestor a k = ancestor b k.
Proof.
  intros Ha Hb Hi Hj E.
  assert (forall l s, complete l -> S s <= ledgerSeq_ l ->
    ancestor l (S s) <> 0%N /\ history_of (ancestor l (S s)) = take s (ids l)) as Hhist.
  { intros l s Hl Hs. apply ids_history; [done|]. apply ancestor_ids; [done|lia]. }
  destruct i as [|i], j as [|j].
  - split; [done|]. intros k Hk. by replace k with 0 by lia.
  - destruct (Hhist b j Hb Hj) as [Hn _]. rewrite ancestor_zero in E by done. congruence.
  - destruct (Hhist a i Ha Hi) as [Hn _]. rewrite (ancestor_zero b) in E by done. congruence.
  - destruct (Hhist a i Ha Hi) as [_ Ea], (Hhist b j Hb Hj) as [_ Eb]. rewrite E, Eb in Ea.
    assert (j = i) as ->.
    { apply (f_equal length) in Ea. rewrite !length_take, !complete_ids in Ea by done. lia. }
    split; [done|]. intros [|k] Hk; [by rewrite !ancestor_zero|].
    destruct (decide (k = i)) as [->|]; [done|].
    assert (take i (ids a) !! k = take i (ids b) !! k) as El by by rewrite Ea.
    rewrite !lookup_take_lt, !ancestor_ids in El by (done || lia). by injection El.
Qed.

(** Complete ledgers mismatch right after their last common ancestor. *)
Lemma complete_mismatch a b : complete a -> complete b ->
  let s := mismatch a b in
  1 <= s <= S (min (ledgerSeq_ a) (ledgerSeq_ b)) /\ ancestor a (s - 1) = ancestor b (s - 1) /\
  forall k, s <= k <= min (ledgerSeq_ a) (ledgerSeq_ b) -> ancestor a k <> ancestor b k.
Proof.
  intros Ha Hb. unfold mismatch.
  set (lower := max (minSeq a) (minSeq b)). set (upper := min (ledgerSeq_ a) (ledgerSeq_ b)).
  assert (lower <= 1) as Hlow by (unfold lower; rewrite !complete_minSeq by done; lia).
  pose proof (last_common_le a b lower upper) as Hle.
  pose proof (last_common_stop a b lower upper) as Hstop.
  pose proof (last_common_above a b lower upper) as Hab.
  set (c := last_common a b lower upper) in *. cbn zeta in *.
  assert (ancestor a c = ancestor b c /\ forall k, c < k <= upper -> ancestor a k <> ancestor b k) as [E Hk].
  { split; [|intros k ?; apply Hab; lia].
    destruct Hstop as [->|[Hc|E]]; [by rewrite !ancestor_zero| |done].
    replace c with 0 by lia. by rewrite !ancestor_zero. }
  destruct (Nat.ltb_spec c lower) as [Hc|Hc].
  - replace c with 0 in * by lia. split_and!; [lia..|done|]. intros k ?. apply Hk. lia.
  - rewrite Nat.add_sub. split_and!; [lia..|done|]. intros k ?. apply Hk. lia.
Qed.

#[export] Instance RCL_LedgerHistoryLaws : LedgerHistoryLaws RCLValidatedLedger.
Proof.
  split; cbn; unfold ok, RCL_LedgerOk.
  - by left.
  - done.
  - intros l Hl. by rewrite ancestor_zero.
  - intros a b Ha Hb. by destruct (complete_mismatch a b Ha Hb) as ([_ ?] & _).
  - intros a b i Ha Hb Hi. destruct (complete_mismatch a b Ha Hb) as (Hr & E & _). cbn in Hi.
    apply (unique_ids a b (mismatch a b - 1) (mismatch a b - 1)); [done..|lia|lia|exact E|lia].
  - intros a b Ha Hb Hsa Hsb. destruct (complete_mismatch a b Ha Hb) as (_ & _ & Hk). apply Hk. lia.
  - intros a b i j Ha Hb. by apply unique_ids.
Qed.
End complete.

(** ** Ledgers of a chain *)

Section chain.
Context `{Digest, !IndexLaws, SLECodec}.
Implicit Types (l a : Ledger).

Lemma rcl_of_ledger_near past start l h : skip_inv past start l ->
  rcl_of_ledger h l = mkRCLValidatedLedger (past (LedgerHeader.seq (header_ l)))
    (Z.to_nat (LedgerHeader.seq (header_ l))) (near_list past start (LedgerHeader.seq (header_ l))).
Proof.
  intros [Hwf Hseq Hhash Hpar Hnear Hfar]. unfold rcl_of_ledger.
  cbn [rv_header Ledger_HeaderView rv_read Ledger_ReadView]. rewrite Hhash. f_equal.
  destruct (decide (near_list past start (LedgerHeader.seq (header_ l)) = [])) as [E|Hne].
  - rewrite E in Hnear |- *. unfold kept in Hnear. rewrite read_spec by (done || apply ix_near).
    unfold map_read. by rewrite Hnear.
  - by destruct (read_kept l keylet_skip0 _ _ Hwf ix_near eq_refl Hnear Hne) as (e & -> & -> & _).
Qed.

Lemma near_length past start n : (1 <= start <= n)%Z ->
  length (near_list past start n) = Z.to_nat (n - Z.max start (n - 256)).
Proof. intros. unfold near_list. by rewrite length_fmap, length_seqZ. Qed.
End chain.

(** ** Properties *)

(** A validated ledger knows its last 256 ancestors: for the newest ledger
    of a chain made by [buildLedgerImpl], [RCLValidatedLedger::operator[]]
    returns the hash of every ledger of the chain at most 256 back, and the
    identifier zero for every sequence number that is later than the ledger,
    earlier than the chain, or more than 256 back; [minSeq] is the first
    sequence number that is known. *)
Theorem rclLedger_ancestors `{Digest, !IndexLaws, SLECodec}
    start l ls h :
  chain start (l :: ls) ->
  let n := LedgerHeader.seq (header_ l) in
  let known := Z.max start (n - 256) in
  minSeq (rcl_of_ledger h l) = Z.to_nat known /\
  (forall a, a ∈ l :: ls -> (known <= LedgerHeader.seq (header_ a))%Z ->
    ancestor (rcl_of_ledger h l) (Z.to_nat (LedgerHeader.seq (header_ a))) = hash (header_ a)) /\
  forall s : nat, s < Z.to_nat known \/ Z.to_nat n < s -> ancestor (rcl_of_ledger h l) s = 0%N.
Proof.
  intros Hc n known. destruct (chain_inv _ _ Hc) as (l0 & ls0 & past & [= <- <-] & Hinv & Hall).
  pose proof (si_seq _ _ _ Hinv) as Hseq. fold n in Hseq.
  assert (minSeq (rcl_of_ledger h l) = Z.to_nat known) as Hmin.
  { rewrite (rcl_of_ledger_near _ _ _ _ Hinv). unfold minSeq. cbn. fold n.
    rewrite near_length by lia. unfold known. lia. }
  split_and!; [exact Hmin| |].
  - intros a Ha Hk. destruct (Hall a Ha) as [-> Hr]. set (s := LedgerHeader.seq (header_ a)) in *.
    unfold ancestor. rewrite Hmin, (rcl_of_ledger_near _ _ _ _ Hinv). cbn. fold n in Hr |- *.
    rewrite !(proj2 (Nat.leb_le _ _)) by lia. cbn [andb].
    destruct (Nat.eqb_spec (Z.to_nat s) (Z.to_nat n)) as [E|Hne]; [f_equal; lia|].
    destruct (near_lookup past start n s) as [Hl _]; [lia..|].
    rewrite <-Z2Nat.inj_sub by lia. by rewrite Hl.
  - intros s Hs. unfold ancestor. rewrite Hmin, (rcl_of_ledger_near _ _ _ _ Hinv). cbn. fold n.
    destruct (Nat.leb_spec (Z.to_nat known) s), (Nat.leb_spec s (Z.to_nat n)); cbn; done || lia.
Qed.

Lemma rclLedger_ancestors_witness :
  ancestor (rcl_of_ledger ∅ example_next) 255 = 11%N /\ ancestor (rcl_of_ledger ∅ example_next) 6 = 0%N.
Proof.
  destruct (rclLedger_ancestors 255 example_next [example_flag; example_first] ∅ example_chain) as (_ & Ha & Hz).
  split; [apply (Ha example_first); [by right; right; left|by vm_compute]|].
  apply Hz. left. vm_compute. lia.
Defined.
