(* ===== verification/LedgerTrieProps.v ===== *)
(** * Correctness of the trie of ledgers

    Sequences of [insert] and [remove] on an empty [LedgerTrie] against the
    table of votes, and the preferred ledger of the trie they leave
    (LedgerTrie.h), with the validated ledgers of RCLValidations.cpp as the
    concrete case. *)

From S2P Require Import RawStateTable.
From S2P Require Import Prelude LedgerTrie LedgerTrieSpec LedgerTrieOps LedgerTriePreferred RCLValidations.
Open Scope nat_scope.

Section runs.
Context {L : Type} `{LedgerHistoryLaws L}.
Implicit Types (l : L) (v : votes).

Inductive trie_op : Type :=
| OpInsert (l : L) (count : N)
| OpRemove (l : L) (count : N).

(** The operations in turn, with the results of the removals. *)
Fixpoint trie_run (t : LedgerTrie (L := L)) (ops : list trie_op) : result (LedgerTrie * list bool) :=
  match ops with
  | [] => Ok (t, [])
  | OpInsert l count :: ops => t ← insert t l count; trie_run t ops
  | OpRemove l count :: ops =>
      '(t, b) ← remove t l count; '(t, bs) ← trie_run t ops; Ok (t, b :: bs)
  end.

Fixpoint votes_run v (ops : list trie_op) : votes * list bool :=
  match ops with
  | [] => (v, [])
  | OpInsert l count :: ops => votes_run (vote_insert l count v) ops
  | OpRemove l count :: ops =>
      let '(v, b) := vote_remove l count v in
      let '(v, bs) := votes_run v ops in (v, b :: bs)
  end.

(** The ledgers belong to one tree of histories, what is inserted counts, and
    all of it together fits a 32-bit counter. *)
Definition op_ok (op : trie_op) : Prop :=
  match op with OpInsert l count => ok l /\ (0 < count)%N | OpRemove l _ => ok l end.
Definition op_votes (op : trie_op) : N :=
  match op with OpInsert _ count => count | OpRemove _ _ => 0%N end.
Definition ops_ok (ops : list trie_op) : Prop :=
  Forall op_ok ops /\ (sum_with op_votes ops < 2 ^ 32)%N.

Lemma vote_insert_total l count v :
  vweight (fun _ => true) (vote_insert l count v) = (vweight (fun _ => true) v + count)%N.
Proof.
  unfold vote_insert. pose proof (vweight_insert (fun _ => true) v (hist l) (default 0%N (v !! hist l) + count)%N).
  cbn in *. lia.
Qed.

Lemma vote_remove_total l count v :
  (vweight (fun _ => true) (vote_remove l count v).1 <= vweight (fun _ => true) v)%N.
Proof.
  unfold vote_remove. destruct (v !! hist l) as [c|] eqn:Hc; cbn; [|done].
  rewrite (vweight_delete _ _ _ _ Hc). case_match; [lia|].
  pose proof (vweight_insert (fun _ => true) v (hist l) (c - count)%N) as Hi. rewrite Hc in Hi. cbn in Hi.
  rewrite (vweight_delete (fun _ => true) v _ _ Hc) in Hi. lia.
Qed.

Lemma trie_run_Inv ops t v : Inv t v -> Forall op_ok ops ->
  (vweight (fun _ => true) v + sum_with op_votes ops < 2 ^ 32)%N ->
  exists t', trie_run t ops = Ok (t', (votes_run v ops).2) /\ Inv t' (votes_run v ops).1.
Proof.
  intros Hinv Hok. revert t v Hinv. induction Hok as [|op ops Hop _ IH]; intros t v Hinv Hfit; [by exists t|].
  rewrite sum_with_cons in Hfit. destruct op as [l count|l count]; cbn in *.
  - destruct Hop as [Hl Hc]. destruct (insert_Inv t v l count Hinv Hl Hc) as (t1 & -> & Hinv1); [lia|].
    apply (IH t1); [done|]. rewrite vote_insert_total. lia.
  - destruct (remove_Inv t v l count Hinv Hop) as (t1 & -> & Hinv1). cbn.
    pose proof (vote_remove_total l count v). destruct (vote_remove l count v) as [v1 b]. cbn in *.
    destruct (IH t1 v1 Hinv1) as (t2 & -> & Hinv2); [lia|]. exists t2.
    by destruct (votes_run v1 ops).
Qed.
End runs.

(** ** An example: five ledgers of two branches *)

Definition example_history (id : N) : list N :=
  match id with 12 => [11] | 13 => [11] | 14 => [11; 12] | 15 => [11; 13] | _ => [] end%N.

Lemma example_history_prefix id i x : example_history id !! i = Some x ->
  x <> 0%N /\ example_history x = take i (example_history id).
Proof.
  intros Hx. unfold example_history in Hx |- *.
  repeat (case_match; try done); destruct i as [|[|i]]; cbn in Hx; simplify_eq; done.
Qed.

#[export] Instance example_HashHistory : HashHistory :=
  {| history_of := example_history; history_prefix := example_history_prefix |}.

Definition rcl_example (id : N) : RCLValidatedLedger :=
  mkRCLValidatedLedger id (S (length (example_history id))) (example_history id).

Lemma rcl_example_ok id : id <> 0%N -> ok (rcl_example id).
Proof. intros. right. by split_and!. Qed.

Definition example_ops : list (trie_op (L := RCLValidatedLedger)) :=
  [OpInsert (rcl_example 14) 3; OpInsert (rcl_example 13) 1; OpInsert (rcl_example 15) 2;
   OpRemove (rcl_example 13) 5; OpRemove (rcl_example 12) 1; OpInsert (rcl_example 12) 1].

Lemma example_ops_ok : ops_ok example_ops.
Proof.
  split; [|done]. unfold example_ops. repeat constructor; cbn; done || by apply rcl_example_ok.
Qed.

(** ** Properties *)

(** C4. The trie is a table of votes: after any sequence of [insert] and
    [remove] (whose positive counts fit 32 bits altogether), no operation has
    thrown, every [remove] has reported whether there was a vote to take
    back, and the trie agrees with the table of votes by history that the
    same operations leave: [tipSupport] of a ledger is the votes for it,
    [branchSupport] the votes for it and its descendants, [empty] that there
    are none, [seqSupport_] the votes by sequence number; and
    [checkInvariants] holds. *)
Theorem ledgerTrie_refines_votes {L : Type} `{LedgerHistoryLaws L} (ops : list trie_op) :
  ops_ok ops ->
  exists t, trie_run emptyTrie ops = Ok (t, (votes_run ∅ ops).2) /\
    let v := (votes_run ∅ ops).1 in
    (forall l, ok l -> tipSupportOf t l = default 0%N (v !! hist l)) /\
    (forall l, ok l -> branchSupportOf t l = support v (hist l)) /\
    (forall s, default 0%N (seqSupport_ t !! s) = vweight (at_seq s) v) /\
    empty t = bool_decide (v = ∅) /\
    checkInvariants t = true.
Proof.
  intros [Hok Hfit]. destruct (trie_run_Inv ops emptyTrie ∅ empty_Inv Hok) as (t & Hrun & Hinv); [done|].
  exists t. split; [done|]. cbn zeta. split_and!.
  - intros l Hl. by apply tipSupportOf_votes.
  - intros l Hl. by apply branchSupportOf_votes.
  - intros s. by rewrite (inv_seq _ _ Hinv), default_some_nonzero, (inv_votes _ _ Hinv).
  - by apply empty_votes.
  - by eapply checkInvariants_Inv.
Qed.

Lemma ledgerTrie_refines_votes_witness : exists t, trie_run emptyTrie example_ops = Ok (t, [true; false]) /\
  tipSupportOf t (rcl_example 13) = 0%N /\ branchSupportOf t (rcl_example 12) = 4%N.
Proof.
  destruct (ledgerTrie_refines_votes example_ops example_ops_ok) as (t & Hrun & Htip & Hbranch & _).
  exists t. split_and!.
  - rewrite Hrun. by vm_compute.
  - rewrite Htip by (by apply rcl_example_ok). by vm_compute.
  - rewrite Hbranch by (by apply rcl_example_ok). by vm_compute.
Defined.

(** C5. The preferred ledger by branch: on the trie left by any sequence of
    [insert] and [remove], [getPreferred] terminates; it returns nothing
    exactly when there are no votes, and otherwise the tip of the one history
    that is reached from the genesis ledger by always moving to the child
    that beats every other child even if all uncommitted votes (those for
    earlier ledgers, or earlier than the last one issued) went against it,
    ties going to the larger identifier, until no child does; the ancestors
    of the tip returned are those of that history. *)
Theorem getPreferred_by_branch {L : Type} `{LedgerHistoryLaws L} (ops : list trie_op) (largestIssued : nat) :
  ops_ok ops ->
  exists t, trie_run emptyTrie ops = Ok (t, (votes_run ∅ ops).2) /\
    let v := (votes_run ∅ ops).1 in
    (v = ∅ -> getPreferred t largestIssued = Ok None) /\
    (v <> ∅ -> exists h p, getPreferred t largestIssued = Ok (Some p) /\
      tip_of h = (tip_seq p, tip_id p) /\ (forall s, s <= tip_seq p -> h !! s = Some (tip_ancestor p s)) /\
      preferred v largestIssued [led_at led_genesis 0] h /\
      forall h', preferred v largestIssued [led_at led_genesis 0] h' -> h' = h).
Proof.
  intros [Hok Hfit]. destruct (trie_run_Inv ops emptyTrie ∅ empty_Inv Hok) as (t & Hrun & Hinv); [done|].
  exists t. split; [done|]. cbn zeta.
  pose proof (getPreferred_spec t _ largestIssued Hinv) as Hp. rewrite (empty_votes _ _ Hinv) in Hp.
  split; intros Hv.
  - by rewrite bool_decide_true in Hp.
  - rewrite bool_decide_false in Hp by done. destruct Hp as (h & p & Hh & -> & He). exists h, p.
    split_and!; [done|apply He|intros s; by apply ends_at_lookup|done|]. intros h' Hh'. by eapply preferred_unique.
Qed.

Lemma getPreferred_by_branch_witness : exists t h p,
  trie_run emptyTrie example_ops = Ok (t, [true; false]) /\
  getPreferred t 0 = Ok (Some p) /\ tip_of h = (3, 14%N) /\ tip_seq p = 3 /\
  preferred (votes_run ∅ example_ops).1 0 [0%N] h.
Proof.
  destruct (getPreferred_by_branch example_ops 0 example_ops_ok) as (t & Hrun & _ & Hp).
  destruct Hp as (h & p & Hg & Htip & _ & Hh & _); [by vm_compute|]. exists t, h, p.
  assert (exists l, getPreferred t 0 = Ok (Some (mkSpanTip 3 14 l))) as [l Ht].
  { vm_compute in Hrun. injection Hrun as <-. eexists. by vm_compute. }
  rewrite Ht in Hg. injection Hg as <-. split_and!; [rewrite Hrun; by vm_compute|done|done|done|done].
Defined.
