(* ===== verification/StateMonad.v ===== *)
(** * Computations over a state

    The monad of code that edits a state and may throw, with the rules that
    such a computation returns and that its result has a property, and the
    traversals of unordered containers, whose order is left open. *)

From S2P Require Import Prelude.

(** ** Unordered containers *)

Class HashOrder : Type := {
  order : forall {K V : Type} `{Countable K}, gmap K V -> list (K * V);
  order_perm : forall {K V : Type} `{Countable K} (m : gmap K V), order m ≡ₚ map_to_list m
}.
Definition order_set `{HashOrder} `{Countable K} (X : gset K) : list K := (order (gset_to_gmap () X)).*1.

Lemma order_in `{HashOrder} `{Countable K} {V} (m : gmap K V) x : x ∈ order m <-> m !! x.1 = Some x.2.
Proof. destruct x as [k y]. by rewrite (order_perm m), elem_of_map_to_list. Qed.

Lemma order_set_in `{HashOrder} `{Countable K} (X : gset K) k : k ∈ order_set X <-> k ∈ X.
Proof.
  unfold order_set. rewrite list_elem_of_fmap. split.
  - intros ([k' []] & -> & Hx). apply order_in in Hx. by apply lookup_gset_to_gmap_Some in Hx as [].
  - intros Hk. exists (k, ()). split; [done|]. apply order_in. by apply lookup_gset_to_gmap_Some.
Qed.

(** ** Computations over a state that may throw *)

Definition ST (S X : Type) : Type := S -> result (X * S).
#[export] Instance ST_ret S : MRet (ST S) := fun X x st => Ok (x, st).
#[export] Instance ST_bind S : MBind (ST S) := fun X Y f m st =>
  match m st with Ok (x, st) => f x st | Throw e => Throw e end.

Fixpoint for_each {S X} (f : X -> ST S ()) (xs : list X) : ST S () :=
  match xs with [] => mret () | x :: xs => f x ≫= fun _ => for_each f xs end.

(** ** Computations that do not throw *)

Definition total {S X} (m : ST S X) (st : S) (Q : X -> S -> Prop) : Prop :=
  match m st with Ok (x, st') => Q x st' | Throw _ => False end.

Section total.
Context {S : Type}.
Implicit Types (st : S).

Lemma total_ret {X} (x : X) st Q : Q x st -> total (mret x) st Q.
Proof. done. Qed.
Lemma total_bind {X Y} (m : ST S X) (f : X -> ST S Y) st Q :
  total m st (fun x st' => total (f x) st' Q) -> total (m ≫= f) st Q.
Proof. unfold total, mbind, ST_bind. by destruct (m st) as [[x st']|e]. Qed.
Lemma total_mono {X} (m : ST S X) st (Q Q' : X -> S -> Prop) :
  total m st Q -> (forall x st', Q x st' -> Q' x st') -> total m st Q'.
Proof. unfold total. destruct (m st) as [[x st']|e]; auto. Qed.
Lemma total_for_each {X} (f : X -> ST S ()) (P : X -> Prop) (R : S -> Prop) xs st :
  (forall x st, P x -> R st -> total (f x) st (fun _ st' => R st')) -> Forall P xs -> R st ->
  total (for_each f xs) st (fun _ st' => R st').
Proof.
  intros Hf Hxs. revert st. induction Hxs as [|x xs Hx _ IH]; intros st HR; [done|].
  cbn [for_each]. apply total_bind. eapply total_mono; [by apply Hf|]. intros x' st' HR'. by apply IH.
Qed.
End total.

(** ** What a computation leaves if it returns *)

Definition post {S X} (m : ST S X) (st : S) (Q : X -> S -> Prop) : Prop :=
  forall x st', m st = Ok (x, st') -> Q x st'.

Section post.
Context {S : Type}.
Implicit Types (st : S).

Lemma post_ret {X} (x : X) st Q : Q x st -> post (mret x) st Q.
Proof. by intros HQ ? ? [= <- <-]. Qed.
Lemma post_bind {X Y} (m : ST S X) (f : X -> ST S Y) st Q :
  post m st (fun x st' => post (f x) st' Q) -> post (m ≫= f) st Q.
Proof.
  intros Hm y st' E. unfold mbind, ST_bind in E. destruct (m st) as [[x st1]|e] eqn:E1; [|done]. by eapply Hm.
Qed.
Lemma post_mono {X} (m : ST S X) st (Q Q' : X -> S -> Prop) :
  post m st Q -> (forall x st', Q x st' -> Q' x st') -> post m st Q'.
Proof. intros Hm HQ x st' E. by apply HQ, Hm. Qed.
Lemma total_post {X} (m : ST S X) st Q Q' : total m st Q -> post m st Q' -> total m st (fun x st' => Q x st' /\ Q' x st').
Proof. unfold total, post. destruct (m st) as [[x st']|e]; naive_solver. Qed.
End post.

