(* ===== verification/ConsensusTypes.v ===== *)
(** * Data of a consensus round

    Proposals (ConsensusProposal.h), the modes and phases of a node, the timer
    and the collected close times, the outcome of a round (ConsensusTypes.h),
    and the types and operations that the template [Consensus] asks of its
    adaptor ([Traits]): ledgers, sets of transactions and the wrapped
    proposals of peers.  Network times are in seconds, the local clock in
    nanoseconds, durations in milliseconds. *)

From S2P Require Import Prelude Serializer LedgerHeader Consensus.
Open Scope Z_scope.

(** ** Proposals *)

Record ConsensusProposal : Type := mkProposal {
  prevLedger : N;
  position : N;
  prop_closeTime : Z;
  seenTime : Z;
  proposeSeq : Z;
  nodeID : N
}.

Definition kSeqJoin : Z := 0.
Definition kSeqLeave : Z := 0xffffffff.

Definition isInitial (p : ConsensusProposal) : bool := proposeSeq p =? kSeqJoin.
Definition isBowOut (p : ConsensusProposal) : bool := proposeSeq p =? kSeqLeave.
Definition isStale (p : ConsensusProposal) (cutoff : Z) : bool := seenTime p <=? cutoff.

Definition changePosition (p : ConsensusProposal) (newPosition : N) (newCloseTime now : Z)
    : ConsensusProposal :=
  mkProposal (prevLedger p) newPosition newCloseTime now
    (if proposeSeq p =? kSeqLeave then proposeSeq p else u32 (proposeSeq p + 1)) (nodeID p).

Definition bowOut (p : ConsensusProposal) (now : Z) : ConsensusProposal :=
  mkProposal (prevLedger p) (position p) (prop_closeTime p) now kSeqLeave (nodeID p).

(** ** Modes, phases and times *)

Inductive ConsensusMode : Type := Proposing | Observing | WrongLedger | SwitchedLedger.
#[export] Instance ConsensusMode_eq_dec : EqDecision ConsensusMode.
Proof. solve_decision. Defined.

Inductive ConsensusPhase : Type := Open | Establish | Accepted.
#[export] Instance ConsensusPhase_eq_dec : EqDecision ConsensusPhase.
Proof. solve_decision. Defined.

Record ConsensusTimer : Type := mkTimer { start_ : Z; dur_ : Z }.
Definition read (t : ConsensusTimer) : Z := dur_ t.
Definition tick_fixed (t : ConsensusTimer) (fixed : Z) : ConsensusTimer :=
  mkTimer (start_ t) (dur_ t + fixed).
Definition reset (tp : Z) : ConsensusTimer := mkTimer tp 0.
Definition tick (t : ConsensusTimer) (tp : Z) : ConsensusTimer :=
  mkTimer (start_ t) (Z.quot (tp - start_ t) 1000000).

(** How many nodes reported a time, and our own. *)
Record ConsensusCloseTimes : Type := mkCloseTimes { peers : gmap Z Z; self_time : Z }.

(** [++m[k]] on a map of counts. *)
Definition increment (k : Z) (m : gmap Z Z) : gmap Z Z := <[k := default 0 (m !! k) + 1]> m.

(** The elements of a [std::map] in the order of its keys. *)
Definition key_le (a b : Z * Z) : Prop := a.1 <= b.1.
#[export] Instance key_le_dec : RelDecision key_le.
Proof. intros a b. unfold key_le. apply _. Defined.
Definition in_order (m : gmap Z Z) : list (Z * Z) := merge_sort key_le (map_to_list m).

(** ** What the adaptor of [Consensus] defines *)

Class Traits : Type := {
  Ledger_t : Type;
  TxSet_t : Type;
  MutableTxSet : Type;
  Tx_t : Type;
  PeerPosition_t : Type;
  (* ledgers *)
  lgr_id : Ledger_t -> N;
  lgr_seq : Ledger_t -> Z;
  lgr_closeTimeResolution : Ledger_t -> Z;
  lgr_closeAgree : Ledger_t -> bool;
  lgr_closeTime : Ledger_t -> Z;
  lgr_parentCloseTime : Ledger_t -> Z;
  (* sets of transactions *)
  tx_id : Tx_t -> N;
  set_id : TxSet_t -> N;
  set_exists : N -> TxSet_t -> bool;
  set_find : N -> TxSet_t -> option Tx_t;
  set_compare : TxSet_t -> TxSet_t -> list (N * bool);
  mutable_of : TxSet_t -> MutableTxSet;
  mset_insert : Tx_t -> MutableTxSet -> MutableTxSet;
  mset_erase : N -> MutableTxSet -> MutableTxSet;
  set_of : MutableTxSet -> TxSet_t;
  (* proposals of peers *)
  proposal : PeerPosition_t -> ConsensusProposal
}.

(** ** The outcome of a round *)

Record ConsensusResult `{Traits} : Type := mkResult {
  txns : TxSet_t;
  our_position : ConsensusProposal;
  disputes : gmap N (DisputedTx Tx_t);
  compares : gset N;
  roundTime : ConsensusTimer;
  state : ConsensusState;
  proposers : Z
}.
#[global] Arguments mkResult {_}.

Section result.
Context `{Traits}.
Implicit Types (r : ConsensusResult).

Definition newResult (s : TxSet_t) (p : ConsensusProposal) : ConsensusResult :=
  mkResult s p ∅ ∅ (mkTimer 0 0) No 0.

Definition set_txns s r := mkResult s (our_position r) (disputes r) (compares r) (roundTime r) (state r) (proposers r).
Definition set_position p r := mkResult (txns r) p (disputes r) (compares r) (roundTime r) (state r) (proposers r).
Definition set_disputes d r := mkResult (txns r) (our_position r) d (compares r) (roundTime r) (state r) (proposers r).
Definition set_compares x r := mkResult (txns r) (our_position r) (disputes r) x (roundTime r) (state r) (proposers r).
Definition set_roundTime t r := mkResult (txns r) (our_position r) (disputes r) (compares r) t (state r) (proposers r).
Definition set_state s r := mkResult (txns r) (our_position r) (disputes r) (compares r) (roundTime r) s (proposers r).
Definition set_proposers n r := mkResult (txns r) (our_position r) (disputes r) (compares r) (roundTime r) (state r) n.
End result.
