(* ===== verification/ConsensusState.v ===== *)
(** * The state of a consensus round

    The members of the class [Consensus] (Consensus.h) and the adaptor through
    which a round reaches the rest of the server: the questions the round asks
    it ([Query]), each of which may change its state, and what the round tells
    it ([Event]). *)

From S2P Require Import Prelude Serializer LedgerHeader Consensus ConsensusTypes.
Open Scope Z_scope.

(** ** The adaptor *)

Inductive Query `{Traits} : Type -> Type :=
| clockNow : Query Z
| acquireLedger (id : N) : Query (option Ledger_t)
| acquireTxSet (id : N) : Query (option TxSet_t)
| hasOpenTransactions : Query bool
| proposersValidated (id : N) : Query Z
| proposersFinished (l : Ledger_t) (id : N) : Query Z
| getPrevLedger (id : N) (l : Ledger_t) (mode : ConsensusMode) : Query N
| onClose (l : Ledger_t) (now : Z) (mode : ConsensusMode) : Query (TxSet_t * ConsensusProposal)
| getValidLedgerIndex : Query Z
| getQuorumKeys : Query (Z * gset N)
| laggards (seq : Z) (trustedKeys : gset N) : Query (Z * gset N)
| validator : Query bool
| haveValidated : Query bool
| validating : Query bool.

Inductive Event `{Traits} : Type :=
| OnModeChange (before after : ConsensusMode)
| Propose (p : ConsensusProposal)
| SharePosition (p : PeerPosition_t)
| ShareTx (tx : Tx_t)
| ShareTxSet (s : TxSet_t)
| UpdateOperatingMode (positions : Z)
| OnAccept (r : ConsensusResult) (prev : Ledger_t) (closeResolution : Z)
    (rawCloseTimes : ConsensusCloseTimes) (mode : ConsensusMode) (validating : bool)
| OnForceAccept (r : ConsensusResult) (prev : Ledger_t) (closeResolution : Z)
    (rawCloseTimes : ConsensusCloseTimes) (mode : ConsensusMode).

Class RoundAdaptor (A : Type) `{Traits} : Type := {
  parms : ConsensusParms;
  ask : forall {X}, Query X -> A -> X * A;
  tell : Event -> A -> A
}.

(** ** The state *)

Record Consensus `{Traits} : Type := mkConsensus {
  phase_ : ConsensusPhase;
  mode_ : ConsensusMode;
  firstRound_ : bool;
  haveCloseTimeConsensus_ : bool;
  convergePercent_ : Z;
  openTime_ : ConsensusTimer;
  closeResolution_ : Z;
  closeTimeAvalancheState_ : AvalancheState;
  prevRoundTime_ : Z;
  now_ : Z;
  prevCloseTime_ : Z;
  prevLedgerID_ : N;
  previousLedger_ : Ledger_t;
  acquired_ : gmap N TxSet_t;
  result_ : option ConsensusResult;
  rawCloseTimes_ : ConsensusCloseTimes;
  peerUnchangedCounter_ : Z;
  establishCounter_ : Z;
  currPeerPositions_ : gmap N PeerPosition_t;
  recentPeerPositions_ : gmap N (list PeerPosition_t);
  prevProposers_ : Z;
  deadNodes_ : gset N
}.
#[global] Arguments mkConsensus {_}.

Section state.
Context `{T : Traits}.
Implicit Types (c : Consensus).

(** A new object; the ledger and its identifier are default constructed. *)
Definition newConsensus (id : N) (l : Ledger_t) : Consensus :=
  mkConsensus Accepted Observing true false 0 (mkTimer 0 0) kLedgerDefaultTimeResolution Init 0 0 0
    id l ∅ None (mkCloseTimes ∅ 0) 0 0 ∅ ∅ 0 ∅.

(** Assignments to the members. *)

Definition set_phase x c : Consensus :=
  mkConsensus x (mode_ c) (firstRound_ c) (haveCloseTimeConsensus_ c) (convergePercent_ c)
    (openTime_ c) (closeResolution_ c) (closeTimeAvalancheState_ c) (prevRoundTime_ c) (now_ c)
    (prevCloseTime_ c) (prevLedgerID_ c) (previousLedger_ c) (acquired_ c) (result_ c)
    (rawCloseTimes_ c) (peerUnchangedCounter_ c) (establishCounter_ c) (currPeerPositions_ c)
    (recentPeerPositions_ c) (prevProposers_ c) (deadNodes_ c).
Definition set_mode x c : Consensus :=
  mkConsensus (phase_ c) x (firstRound_ c) (haveCloseTimeConsensus_ c) (convergePercent_ c)
    (openTime_ c) (closeResolution_ c) (closeTimeAvalancheState_ c) (prevRoundTime_ c) (now_ c)
    (prevCloseTime_ c) (prevLedgerID_ c) (previousLedger_ c) (acquired_ c) (result_ c)
    (rawCloseTimes_ c) (peerUnchangedCounter_ c) (establishCounter_ c) (currPeerPositions_ c)
    (recentPeerPositions_ c) (prevProposers_ c) (deadNodes_ c).
Definition set_firstRound x c : Consensus :=
  mkConsensus (phase_ c) (mode_ c) x (haveCloseTimeConsensus_ c) (convergePercent_ c)
    (openTime_ c) (closeResolution_ c) (closeTimeAvalancheState_ c) (prevRoundTime_ c) (now_ c)
    (prevCloseTime_ c) (prevLedgerID_ c) (previousLedger_ c) (acquired_ c) (result_ c)
    (rawCloseTimes_ c) (peerUnchangedCounter_ c) (establishCounter_ c) (currPeerPositions_ c)
    (recentPeerPositions_ c) (prevProposers_ c) (deadNodes_ c).
Definition set_haveCloseTimeConsensus x c : Consensus :=
  mkConsensus (phase_ c) (mode_ c) (firstRound_ c) x (convergePercent_ c) (openTime_ c)
    (closeResolution_ c) (closeTimeAvalancheState_ c) (prevRoundTime_ c) (now_ c) (prevCloseTime_ c)
    (prevLedgerID_ c) (previousLedger_ c) (acquired_ c) (result_ c) (rawCloseTimes_ c)
    (peerUnchangedCounter_ c) (establishCounter_ c) (currPeerPositions_ c) (recentPeerPositions_ c)
    (prevProposers_ c) (deadNodes_ c).
Definition set_convergePercent x c : Consensus :=
  mkConsensus (phase_ c) (mode_ c) (firstRound_ c) (haveCloseTimeConsensus_ c) x (openTime_ c)
    (closeResolution_ c) (closeTimeAvalancheState_ c) (prevRoundTime_ c) (now_ c) (prevCloseTime_ c)
    (prevLedgerID_ c) (previousLedger_ c) (acquired_ c) (result_ c) (rawCloseTimes_ c)
    (peerUnchangedCounter_ c) (establishCounter_ c) (currPeerPositions_ c) (recentPeerPositions_ c)
    (prevProposers_ c) (deadNodes_ c).
Definition set_openTime x c : Consensus :=
  mkConsensus (phase_ c) (mode_ c) (firstRound_ c) (haveCloseTimeConsensus_ c)
    (convergePercent_ c) x (closeResolution_ c) (closeTimeAvalancheState_ c) (prevRoundTime_ c)
    (now_ c) (prevCloseTime_ c) (prevLedgerID_ c) (previousLedger_ c) (acquired_ c) (result_ c)
    (rawCloseTimes_ c) (peerUnchangedCounter_ c) (establishCounter_ c) (currPeerPositions_ c)
    (recentPeerPositions_ c) (prevProposers_ c) (deadNodes_ c).
Definition set_closeResolution x c : Consensus :=
  mkConsensus (phase_ c) (mode_ c) (firstRound_ c) (haveCloseTimeConsensus_ c)
    (convergePercent_ c) (openTime_ c) x (closeTimeAvalancheState_ c) (prevRoundTime_ c) (now_ c)
    (prevCloseTime_ c) (prevLedgerID_ c) (previousLedger_ c) (acquired_ c) (result_ c)
    (rawCloseTimes_ c) (peerUnchangedCounter_ c) (establishCounter_ c) (currPeerPositions_ c)
    (recentPeerPositions_ c) (prevProposers_ c) (deadNodes_ c).
Definition set_closeTimeAvalancheState x c : Consensus :=
  mkConsensus (phase_ c) (mode_ c) (firstRound_ c) (haveCloseTimeConsensus_ c)
    (convergePercent_ c) (openTime_ c) (closeResolution_ c) x (prevRoundTime_ c) (now_ c)
    (prevCloseTime_ c) (prevLedgerID_ c) (previousLedger_ c) (acquired_ c) (result_ c)
    (rawCloseTimes_ c) (peerUnchangedCounter_ c) (establishCounter_ c) (currPeerPositions_ c)
    (recentPeerPositions_ c) (prevProposers_ c) (deadNodes_ c).
Definition set_prevRoundTime x c : Consensus :=
  mkConsensus (phase_ c) (mode_ c) (firstRound_ c) (haveCloseTimeConsensus_ c)
    (convergePercent_ c) (openTime_ c) (closeResolution_ c) (closeTimeAvalancheState_ c) x (now_ c)
    (prevCloseTime_ c) (prevLedgerID_ c) (previousLedger_ c) (acquired_ c) (result_ c)
    (rawCloseTimes_ c) (peerUnchangedCounter_ c) (establishCounter_ c) (currPeerPositions_ c)
    (recentPeerPositions_ c) (prevProposers_ c) (deadNodes_ c).
Definition set_now x c : Consensus :=
  mkConsensus (phase_ c) (mode_ c) (firstRound_ c) (haveCloseTimeConsensus_ c)
    (convergePercent_ c) (openTime_ c) (closeResolution_ c) (closeTimeAvalancheState_ c)
    (prevRoundTime_ c) x (prevCloseTime_ c) (prevLedgerID_ c) (previousLedger_ c) (acquired_ c)
    (result_ c) (rawCloseTimes_ c) (peerUnchangedCounter_ c) (establishCounter_ c)
    (currPeerPositions_ c) (recentPeerPositions_ c) (prevProposers_ c) (deadNodes_ c).
Definition set_prevCloseTime x c : Consensus :=
  mkConsensus (phase_ c) (mode_ c) (firstRound_ c) (haveCloseTimeConsensus_ c)
    (convergePercent_ c) (openTime_ c) (closeResolution_ c) (closeTimeAvalancheState_ c)
    (prevRoundTime_ c) (now_ c) x (prevLedgerID_ c) (previousLedger_ c) (acquired_ c) (result_ c)
    (rawCloseTimes_ c) (peerUnchangedCounter_ c) (establishCounter_ c) (currPeerPositions_ c)
    (recentPeerPositions_ c) (prevProposers_ c) (deadNodes_ c).
Definition set_prevLedgerID x c : Consensus :=
  mkConsensus (phase_ c) (mode_ c) (firstRound_ c) (haveCloseTimeConsensus_ c)
    (convergePercent_ c) (openTime_ c) (closeResolution_ c) (closeTimeAvalancheState_ c)
    (prevRoundTime_ c) (now_ c) (prevCloseTime_ c) x (previousLedger_ c) (acquired_ c) (result_ c)
    (rawCloseTimes_ c) (peerUnchangedCounter_ c) (establishCounter_ c) (currPeerPositions_ c)
    (recentPeerPositions_ c) (prevProposers_ c) (deadNodes_ c).
Definition set_previousLedger x c : Consensus :=
  mkConsensus (phase_ c) (mode_ c) (firstRound_ c) (haveCloseTimeConsensus_ c)
    (convergePercent_ c) (openTime_ c) (closeResolution_ c) (closeTimeAvalancheState_ c)
    (prevRoundTime_ c) (now_ c) (prevCloseTime_ c) (prevLedgerID_ c) x (acquired_ c) (result_ c)
    (rawCloseTimes_ c) (peerUnchangedCounter_ c) (establishCounter_ c) (currPeerPositions_ c)
    (recentPeerPositions_ c) (prevProposers_ c) (deadNodes_ c).
Definition set_acquired x c : Consensus :=
  mkConsensus (phase_ c) (mode_ c) (firstRound_ c) (haveCloseTimeConsensus_ c)
    (convergePercent_ c) (openTime_ c) (closeResolution_ c) (closeTimeAvalancheState_ c)
    (prevRoundTime_ c) (now_ c) (prevCloseTime_ c) (prevLedgerID_ c) (previousLedger_ c) x
    (result_ c) (rawCloseTimes_ c) (peerUnchangedCounter_ c) (establishCounter_ c)
    (currPeerPositions_ c) (recentPeerPositions_ c) (prevProposers_ c) (deadNodes_ c).
Definition set_result x c : Consensus :=
  mkConsensus (phase_ c) (mode_ c) (firstRound_ c) (haveCloseTimeConsensus_ c)
    (convergePercent_ c) (openTime_ c) (closeResolution_ c) (closeTimeAvalancheState_ c)
    (prevRoundTime_ c) (now_ c) (prevCloseTime_ c) (prevLedgerID_ c) (previousLedger_ c)
    (acquired_ c) x (rawCloseTimes_ c) (peerUnchangedCounter_ c) (establishCounter_ c)
    (currPeerPositions_ c) (recentPeerPositions_ c) (prevProposers_ c) (deadNodes_ c).
Definition set_rawCloseTimes x c : Consensus :=
  mkConsensus (phase_ c) (mode_ c) (firstRound_ c) (haveCloseTimeConsensus_ c)
    (convergePercent_ c) (openTime_ c) (closeResolution_ c) (closeTimeAvalancheState_ c)
    (prevRoundTime_ c) (now_ c) (prevCloseTime_ c) (prevLedgerID_ c) (previousLedger_ c)
    (acquired_ c) (result_ c) x (peerUnchangedCounter_ c) (establishCounter_ c)
    (currPeerPositions_ c) (recentPeerPositions_ c) (prevProposers_ c) (deadNodes_ c).
Definition set_peerUnchangedCounter x c : Consensus :=
  mkConsensus (phase_ c) (mode_ c) (firstRound_ c) (haveCloseTimeConsensus_ c)
    (convergePercent_ c) (openTime_ c) (closeResolution_ c) (closeTimeAvalancheState_ c)
    (prevRoundTime_ c) (now_ c) (prevCloseTime_ c) (prevLedgerID_ c) (previousLedger_ c)
    (acquired_ c) (result_ c) (rawCloseTimes_ c) x (establishCounter_ c) (currPeerPositions_ c)
    (recentPeerPositions_ c) (prevProposers_ c) (deadNodes_ c).
Definition set_establishCounter x c : Consensus :=
  mkConsensus (phase_ c) (mode_ c) (firstRound_ c) (haveCloseTimeConsensus_ c)
    (convergePercent_ c) (openTime_ c) (closeResolution_ c) (closeTimeAvalancheState_ c)
    (prevRoundTime_ c) (now_ c) (prevCloseTime_ c) (prevLedgerID_ c) (previousLedger_ c)
    (acquired_ c) (result_ c) (rawCloseTimes_ c) (peerUnchangedCounter_ c) x (currPeerPositions_ c)
    (recentPeerPositions_ c) (prevProposers_ c) (deadNodes_ c).
Definition set_currPeerPositions x c : Consensus :=
  mkConsensus (phase_ c) (mode_ c) (firstRound_ c) (haveCloseTimeConsensus_ c)
    (convergePercent_ c) (openTime_ c) (closeResolution_ c) (closeTimeAvalancheState_ c)
    (prevRoundTime_ c) (now_ c) (prevCloseTime_ c) (prevLedgerID_ c) (previousLedger_ c)
    (acquired_ c) (result_ c) (rawCloseTimes_ c) (peerUnchangedCounter_ c) (establishCounter_ c) x
    (recentPeerPositions_ c) (prevProposers_ c) (deadNodes_ c).
Definition set_recentPeerPositions x c : Consensus :=
  mkConsensus (phase_ c) (mode_ c) (firstRound_ c) (haveCloseTimeConsensus_ c)
    (convergePercent_ c) (openTime_ c) (closeResolution_ c) (closeTimeAvalancheState_ c)
    (prevRoundTime_ c) (now_ c) (prevCloseTime_ c) (prevLedgerID_ c) (previousLedger_ c)
    (acquired_ c) (result_ c) (rawCloseTimes_ c) (peerUnchangedCounter_ c) (establishCounter_ c)
    (currPeerPositions_ c) x (prevProposers_ c) (deadNodes_ c).
Definition set_prevProposers x c : Consensus :=
  mkConsensus (phase_ c) (mode_ c) (firstRound_ c) (haveCloseTimeConsensus_ c)
    (convergePercent_ c) (openTime_ c) (closeResolution_ c) (closeTimeAvalancheState_ c)
    (prevRoundTime_ c) (now_ c) (prevCloseTime_ c) (prevLedgerID_ c) (previousLedger_ c)
    (acquired_ c) (result_ c) (rawCloseTimes_ c) (peerUnchangedCounter_ c) (establishCounter_ c)
    (currPeerPositions_ c) (recentPeerPositions_ c) x (deadNodes_ c).
Definition set_deadNodes x c : Consensus :=
  mkConsensus (phase_ c) (mode_ c) (firstRound_ c) (haveCloseTimeConsensus_ c)
    (convergePercent_ c) (openTime_ c) (closeResolution_ c) (closeTimeAvalancheState_ c)
    (prevRoundTime_ c) (now_ c) (prevCloseTime_ c) (prevLedgerID_ c) (previousLedger_ c)
    (acquired_ c) (result_ c) (rawCloseTimes_ c) (peerUnchangedCounter_ c) (establishCounter_ c)
    (currPeerPositions_ c) (recentPeerPositions_ c) (prevProposers_ c) x.
End state.
