(* ===== verification/ConsensusRound.v ===== *)
(** * A consensus round

    The class [Consensus] (Consensus.h): the phases of a round, the positions
    of peers and the disputes between them and ours.  Operations run over the
    state, the state of the adaptor and the list of what the adaptor was told,
    in the order of the calls.  Dereferencing an empty [std::optional] is an
    error.  [timerEntry] and [startRoundInternal] call each other when the
    previous ledger turns out to be wrong; the recursion runs on fuel. *)

From Stdlib Require Import Floats.SpecFloat.
From S2P Require Import Prelude StateMonad Serializer LedgerHeader Consensus ConsensusTypes ConsensusState.
Open Scope Z_scope.

Section round.
Context {A : Type} `{T : Traits} `{!RoundAdaptor A} `{HashOrder}.
Implicit Types (c : Consensus) (r : ConsensusResult).

(** ** The monad *)

Abbreviation M := (ST (Consensus * (A * list Event))).

Definition get : M Consensus := fun st => Ok (st.1, st).
Definition modify (f : Consensus -> Consensus) : M () := fun st => Ok ((), (f st.1, st.2)).
Definition query {X} (q : Query X) : M X := fun st =>
  let '(x, a) := ask q st.2.1 in Ok (x, (st.1, (a, st.2.2))).
Definition notify (e : Event) : M () := fun st => Ok ((), (st.1, (tell e st.2.1, st.2.2 ++ [e]))).
Definition deref {X} (o : option X) : M X := fun st =>
  match o with Some x => Ok (x, st) | None => Throw "bad optional access" end.
Definition when (b : bool) (m : M ()) : M () := if b then m else mret ().

Definition get_result : M ConsensusResult := c ← get; deref (result_ c).
Definition modify_result (f : ConsensusResult -> ConsensusResult) : M () :=
  r ← get_result; modify (set_result (Some (f r))).

(** [MonitoredMode::set] *)
Definition setMode (m : ConsensusMode) : M () :=
  c ← get; _ ← notify (OnModeChange (mode_ c) m); modify (set_mode m).

Definition proposing c : bool := bool_decide (mode_ c = Proposing).
Definition numPositions c : Z := Z.of_nat (size (currPeerPositions_ c)).
Definition asCloseTime c (raw : Z) : Z := roundCloseTime raw (closeResolution_ c).
Definition their_position (p : PeerPosition_t) : N := position (proposal p).

(** ** Disputes *)

(** The vote of a peer on a new dispute. *)
Definition castVote (acquired : gmap N TxSet_t) (txID : N) (acc : bool * DisputedTx Tx_t)
    (x : N * PeerPosition_t) : bool * DisputedTx Tx_t :=
  match acquired !! their_position x.2 with
  | Some s => let '(b, d) := setVote acc.2 x.1 (set_exists txID s) in (acc.1 || b, d)
  | None => acc
  end.

Definition createDispute (o : TxSet_t) (x : N * bool) : M () :=
  c ← get; r ← get_result;
  tx ← deref (if x.2 then set_find x.1 (txns r) else set_find x.1 o);
  let txID := tx_id tx in
  match disputes r !! txID with
  | Some _ => mret ()
  | None =>
      let '(changed, dtx) := foldl (castVote (acquired_ c) txID)
        (false, newDispute tx (set_exists txID (txns r))) (order (currPeerPositions_ c)) in
      _ ← when changed (modify (set_peerUnchangedCounter 0));
      _ ← notify (ShareTx (tx_ dtx));
      modify_result (fun r => set_disputes (<[txID := dtx]> (disputes r)) r)
  end.

Definition createDisputes (o : TxSet_t) : M () :=
  r ← get_result;
  if decide (set_id o ∈ compares r) then mret ()
  else
    _ ← modify_result (fun r => set_compares ({[set_id o]} ∪ compares r) r);
    if (set_id (txns r) =? set_id o)%N then mret ()
    else for_each (createDispute o) (set_compare (txns r) o).

Definition updateDisputes (node : N) (other : TxSet_t) : M () :=
  r ← get_result;
  _ ← (if decide (set_id other ∈ compares r) then mret () else createDisputes other);
  r ← get_result;
  let vote (d : DisputedTx Tx_t) := setVote d node (set_exists (tx_id (tx_ d)) other) in
  _ ← modify_result (set_disputes ((fun d => (vote d).2) <$> disputes r));
  when (existsb (fun x => (vote x.2).1) (map_to_list (disputes r))) (modify (set_peerUnchangedCounter 0)).

(** ** Messages from peers *)

Definition gotTxSet (now : Z) (txSet : TxSet_t) : M () :=
  c ← get;
  if bool_decide (phase_ c = Accepted) then mret ()
  else
    _ ← modify (set_now now);
    let id := set_id txSet in
    match acquired_ c !! id with
    | Some _ => mret ()
    | None =>
        _ ← modify (set_acquired (<[id := txSet]> (acquired_ c)));
        match result_ c with
        | None => mret ()
        | Some _ =>
            for_each (fun x : N * PeerPosition_t =>
              when (their_position x.2 =? id)%N (updateDisputes x.1 txSet))
              (order (currPeerPositions_ c))
        end
    end.

Definition unVoteAll (peer : N) r : ConsensusResult :=
  set_disputes ((fun d => unVote d peer) <$> disputes r) r.

Definition peerProposalInternal (now : Z) (newPeerPos : PeerPosition_t) : M bool :=
  c ← get;
  if bool_decide (phase_ c = Accepted) then mret false
  else
    _ ← modify (set_now now);
    let newPeerProp := proposal newPeerPos in
    let peerID := nodeID newPeerProp in
    if negb (prevLedger newPeerProp =? prevLedgerID_ c)%N then mret false
    else if decide (peerID ∈ deadNodes_ c) then mret false
    else if (match currPeerPositions_ c !! peerID with
             | Some old => proposeSeq newPeerProp <=? proposeSeq (proposal old)
             | None => false
             end) then mret false
    else if isBowOut newPeerProp then
      _ ← modify (set_result (unVoteAll peerID <$> result_ c));
      _ ← modify (set_currPeerPositions (delete peerID (currPeerPositions_ c)));
      _ ← modify (set_deadNodes ({[peerID]} ∪ deadNodes_ c));
      mret true
    else
      _ ← modify (set_currPeerPositions (<[peerID := newPeerPos]> (currPeerPositions_ c)));
      _ ← when (isInitial newPeerProp)
            (modify (set_rawCloseTimes (mkCloseTimes
               (increment (prop_closeTime newPeerProp) (peers (rawCloseTimes_ c)))
               (self_time (rawCloseTimes_ c)))));
      _ ← match acquired_ c !! position newPeerProp with
          | None =>
              s ← query (acquireTxSet (position newPeerProp));
              match s with Some s => gotTxSet now s | None => mret () end
          | Some s =>
              match result_ c with Some _ => updateDisputes peerID s | None => mret () end
          end;
      mret true.

Definition peerProposal (now : Z) (newPeerPos : PeerPosition_t) : M bool :=
  c ← get;
  let peerID := nodeID (proposal newPeerPos) in
  let props := default [] (recentPeerPositions_ c !! peerID) in
  let props := if (10 <=? length props)%nat then tail props else props in
  _ ← modify (set_recentPeerPositions (<[peerID := props ++ [newPeerPos]]> (recentPeerPositions_ c)));
  peerProposalInternal now newPeerPos.

Definition playback_one (pos : PeerPosition_t) : M () :=
  c ← get;
  when (prevLedger (proposal pos) =? prevLedgerID_ c)%N
    (b ← peerProposalInternal (now_ c) pos; when b (notify (SharePosition pos))).
Definition playbackProposals : M () :=
  c ← get;
  for_each (fun x : N * list PeerPosition_t => for_each playback_one x.2) (order (recentPeerPositions_ c)).

(** ** Our own position *)

Definition leaveConsensus : M () :=
  c ← get;
  when (proposing c)
    (_ ← match result_ c with
         | Some r =>
             if isBowOut (our_position r) then mret ()
             else
               let p := bowOut (our_position r) (now_ c) in
               _ ← modify (set_result (Some (set_position p r)));
               notify (Propose p)
         | None => mret ()
         end;
     setMode Observing).

Definition closeLedger : M () :=
  _ ← modify (set_phase Establish);
  c ← get;
  _ ← modify (set_rawCloseTimes (mkCloseTimes (peers (rawCloseTimes_ c)) (now_ c)));
  _ ← modify (fun c => set_establishCounter 0 (set_peerUnchangedCounter 0 c));
  '(s, p) ← query (onClose (previousLedger_ c) (now_ c) (mode_ c));
  t ← query clockNow;
  _ ← modify (set_result (Some (set_roundTime (reset t) (newResult s p))));
  _ ← match acquired_ c !! set_id s with
      | Some _ => mret ()
      | None =>
          _ ← modify (set_acquired (<[set_id s := s]> (acquired_ c)));
          notify (ShareTxSet s)
      end;
  _ ← when (proposing c) (notify (Propose p));
  for_each (fun x : N * PeerPosition_t =>
    c ← get;
    match acquired_ c !! their_position x.2 with Some s => createDisputes s | None => mret () end)
    (order (currPeerPositions_ c)).

Definition participantsNeeded (participants percent : Z) : Z :=
  let result := Z.quot (participants * percent + Z.quot percent 2) 100 in
  if result =? 0 then 1 else result.

(** Stale positions are dropped, with their votes, and the close times of the
    others are counted. *)
Definition freshen c (cutoff : Z)
    (acc : gmap N (DisputedTx Tx_t) * gmap N PeerPosition_t * gmap Z Z) (x : N * PeerPosition_t)
    : gmap N (DisputedTx Tx_t) * gmap N PeerPosition_t * gmap Z Z :=
  let '(ds, ps, votes) := acc in
  let peerProp := proposal x.2 in
  if isStale peerProp cutoff then
    ((fun d => unVote d (nodeID peerProp)) <$> ds, delete x.1 ps, votes)
  else (ds, ps, increment (asCloseTime c (prop_closeTime peerProp)) votes).

(** Our vote on a dispute is reconsidered, and our set edited. *)
Definition revote c (s : TxSet_t) (acc : gmap N (DisputedTx Tx_t) * option MutableTxSet)
    (x : N * DisputedTx Tx_t) : gmap N (DisputedTx Tx_t) * option MutableTxSet :=
  let '(ds, mutableSet) := acc in
  let '(changed, d) := updateVote x.2 (convergePercent_ c) (proposing c) parms in
  (<[x.1 := d]> ds,
   if changed then
     let m := default (mutable_of s) mutableSet in
     Some (if ourVote_ d then mset_insert (tx_ d) m else mset_erase x.1 m)
   else mutableSet).

(** The close time with the most votes, if they reach the threshold. *)
Definition pickCloseTime (threshConsensus : Z) (acc : Z * Z * bool) (x : Z * Z) : Z * Z * bool :=
  let '(threshVote, consensusCloseTime, have) := acc in
  if threshVote <=? x.2 then (x.2, x.1, have || (threshConsensus <=? x.2)) else acc.

(** The agreed close time: whether there is consensus on it, and it. *)
Definition closeTimeConsensus (closeTimeVotes : gmap Z Z) r : M (Z * bool) :=
  c ← get;
  if bool_decide (currPeerPositions_ c = ∅)
  then mret (asCloseTime c (prop_closeTime (our_position r)), true)
  else
    let '(neededWeight, newState) :=
      getNeededWeight parms (closeTimeAvalancheState_ c) (convergePercent_ c) 0 0 in
    _ ← match newState with Some s => modify (set_closeTimeAvalancheState s) | None => mret () end;
    let '(votes, participants) :=
      if proposing c
      then (increment (asCloseTime c (prop_closeTime (our_position r))) closeTimeVotes, numPositions c + 1)
      else (closeTimeVotes, numPositions c) in
    let '(_, t, have) :=
      foldl (pickCloseTime (participantsNeeded participants (avCtConsensusPct parms)))
        (participantsNeeded participants neededWeight, 0, false) (in_order votes) in
    mret (t, have).

(** Our position changes to [s] and the close time [t]. *)
Definition adoptPosition (s : TxSet_t) (t : Z) : M () :=
  c ← get;
  let newID := set_id s in
  _ ← modify_result (fun r => set_position (changePosition (our_position r) newID t (now_ c)) (set_txns s r));
  r ← get_result;
  _ ← match acquired_ c !! newID with
      | Some _ => mret ()
      | None =>
          _ ← modify (set_acquired (<[newID := s]> (acquired_ c)));
          _ ← when (negb (isBowOut (our_position r))) (notify (ShareTxSet s));
          for_each (fun x : N * PeerPosition_t =>
            when (their_position x.2 =? newID)%N (updateDisputes x.1 s))
            (order (currPeerPositions_ c))
      end;
  r ← get_result;
  when (negb (isBowOut (our_position r)) && proposing c) (notify (Propose (our_position r))).

Definition updateOurPositions : M () :=
  c ← get; r ← get_result;
  let peerCutoff := u32 (now_ c - proposeFRESHNESS parms) in
  let ourCutoff := u32 (now_ c - proposeINTERVAL parms) in
  let '(ds, ps, closeTimeVotes) :=
    foldl (freshen c peerCutoff) (disputes r, currPeerPositions_ c, ∅) (order (currPeerPositions_ c)) in
  let '(ds, mutableSet) := foldl (revote c (txns r)) (ds, None) (order ds) in
  _ ← modify (set_currPeerPositions ps);
  _ ← modify_result (set_disputes ds);
  _ ← modify (set_haveCloseTimeConsensus false);
  '(consensusCloseTime, have) ← closeTimeConsensus closeTimeVotes r;
  _ ← modify (set_haveCloseTimeConsensus have);
  let ourNewSet :=
    match mutableSet with
    | Some m => Some (set_of m)
    | None =>
        if negb (consensusCloseTime =? asCloseTime c (prop_closeTime (our_position r))) ||
           isStale (our_position r) ourCutoff then Some (txns r) else None
    end in
  match ourNewSet with Some s => adoptPosition s consensusCloseTime | None => mret () end.

(** ** Reaching consensus *)

Definition haveConsensus : M bool :=
  c ← get; r ← get_result;
  let agreeing := filter (fun x : N * PeerPosition_t => their_position x.2 = position (our_position r))
                    (order (currPeerPositions_ c)) in
  let agree := Z.of_nat (length agreeing) in
  let disagree := numPositions c - agree in
  currentFinished ← query (proposersFinished (previousLedger_ c) (prevLedgerID_ c));
  let isStalled :=
    haveCloseTimeConsensus_ c && negb (bool_decide (disputes r = ∅)) &&
    forallb (fun x => stalled x.2 parms (proposing c) (peerUnchangedCounter_ c)) (order (disputes r)) in
  let v := checkConsensus (prevProposers_ c) (agree + disagree) agree currentFinished
             (prevRoundTime_ c) (read (roundTime r)) isStalled parms (proposing c) in
  _ ← modify_result (set_state v);
  match v with
  | No => mret false
  | Expired =>
      let kMinimumCounter := 4 * avMinRounds parms in
      if establishCounter_ c <? kMinimumCounter then mret false
      else _ ← leaveConsensus; mret true
  | _ => mret true
  end.

(** A [float]: 24 bits of precision, each operation rounded to nearest. *)
Definition float32 (z : Z) : spec_float := binary_normalize 24 128 z 0 false.
Definition lagging (nonLaggards totalValidators quorum phase : Z) : bool :=
  let quorumRatio := SFdiv 24 128 (float32 quorum) (float32 totalValidators) in
  let allowedDissent := SFsub 24 128 (float32 1) quorumRatio in
  let phaseFactor := SFdiv 24 128 (float32 phase) (float32 4) in
  SFltb (SFdiv 24 128 (float32 nonLaggards) (float32 totalValidators))
    (SFadd 24 128 quorumRatio (SFmul 24 128 allowedDissent phaseFactor)).

Definition kMaxPausePhase : Z := 4.
Definition willPause (ahead laggards offline totalValidators quorum : Z) : bool :=
  let phase := (ahead - 1) mod (kMaxPausePhase + 1) in
  if phase =? 0 then size_t (totalValidators - quorum) <? size_t (laggards + offline)
  else if phase =? kMaxPausePhase then true
  else lagging (size_t (totalValidators - size_t (laggards + offline))) totalValidators quorum phase.

Definition shouldPause : M bool :=
  c ← get;
  let seq := lgr_seq (previousLedger_ c) in
  valid ← query getValidLedgerIndex;
  let ahead := seq - Z.min valid seq in
  '(quorum, trustedKeys) ← query getQuorumKeys;
  let totalValidators := Z.of_nat (size trustedKeys) in
  '(lag, remaining) ← query (laggards seq trustedKeys);
  let offline := Z.of_nat (size remaining) in
  r ← get_result;
  if (ahead =? 0) || (lag =? 0) || (totalValidators =? 0) then mret false
  else
    isValidator ← query validator;
    if negb isValidator then mret false
    else
      validated ← query haveValidated;
      if negb validated || (ledgerMaxConsensus parms <? read (roundTime r)) then mret false
      else mret (willPause ahead lag offline totalValidators quorum).

(** A conversion to [int]. *)
Definition int32 (z : Z) : Z := (z + 2 ^ 31) mod 2 ^ 32 - 2 ^ 31.

(** The transition to the accepted phase. *)
Definition acceptRound : M () :=
  c ← get;
  _ ← notify (UpdateOperatingMode (numPositions c));
  r ← get_result;
  _ ← modify (fun c => set_phase Accepted (set_prevRoundTime (read (roundTime r))
                         (set_prevProposers (numPositions c) c)));
  v ← query validating;
  notify (OnAccept r (previousLedger_ c) (closeResolution_ c) (rawCloseTimes_ c) (mode_ c) v).

Definition phaseEstablish : M () :=
  _ ← modify (fun c => set_establishCounter (size_t (establishCounter_ c + 1))
                         (set_peerUnchangedCounter (size_t (peerUnchangedCounter_ c + 1)) c));
  t ← query clockNow;
  c ← get;
  _ ← modify_result (fun r => set_proposers (numPositions c) (set_roundTime (tick (roundTime r) t) r));
  r ← get_result;
  _ ← modify (set_convergePercent (int32
        (Z.quot (read (roundTime r) * 100) (Z.max (prevRoundTime_ c) (avMinConsensusTime parms)))));
  if read (roundTime r) <? ledgerMinConsensus parms then mret ()
  else
    _ ← updateOurPositions;
    pause ← shouldPause;
    if (pause : bool) then mret ()
    else
      have ← haveConsensus;
      c ← get;
      if negb have || negb (haveCloseTimeConsensus_ c) then mret ()
      else acceptRound.

(** ** Closing the ledger *)

(** Milliseconds since the last ledger closed. *)
Definition sinceClose c : Z :=
  let l := previousLedger_ c in
  let previousCloseCorrect :=
    negb (bool_decide (mode_ c = WrongLedger)) && lgr_closeAgree l &&
    negb (lgr_closeTime l =? lgr_parentCloseTime l + 1) in
  let lastCloseTime := if previousCloseCorrect then lgr_closeTime l else prevCloseTime_ c in
  if lastCloseTime <=? now_ c then (now_ c - lastCloseTime) * 1000
  else - ((lastCloseTime - now_ c) * 1000).

Definition phaseOpen : M () :=
  anyTransactions ← query hasOpenTransactions;
  c ← get;
  validated ← query (proposersValidated (prevLedgerID_ c));
  t ← query clockNow;
  _ ← modify (fun c => set_openTime (tick (openTime_ c) t) c);
  let idleInterval := Z.max (ledgerIdleInterval parms)
                        (u32 (2 * lgr_closeTimeResolution (previousLedger_ c)) * 1000) in
  when (shouldCloseLedger anyTransactions (prevProposers_ c) (numPositions c) validated
          (prevRoundTime_ c) (sinceClose c) (read (tick (openTime_ c) t)) idleInterval parms)
    closeLedger.

(** ** Rounds *)

(** [timer] is [timerEntry]. *)
Definition startRoundInternal (timer : Z -> M ()) (now : Z) (prevLedgerID : N) (prevLedger : Ledger_t)
    (mode : ConsensusMode) : M () :=
  _ ← modify (set_phase Open);
  _ ← setMode mode;
  _ ← modify (fun c => set_previousLedger prevLedger (set_prevLedgerID prevLedgerID (set_now now c)));
  _ ← modify (fun c => set_haveCloseTimeConsensus false (set_closeTimeAvalancheState Init
                         (set_convergePercent 0 (set_result None c))));
  t ← query clockNow;
  _ ← modify (fun c => set_deadNodes ∅ (set_rawCloseTimes (mkCloseTimes ∅ 0) (set_acquired ∅
                         (set_currPeerPositions ∅ (set_openTime (reset t) c)))));
  _ ← modify (set_closeResolution (getNextLedgerTimeResolution (lgr_closeTimeResolution prevLedger)
                (lgr_closeAgree prevLedger) (u32 (lgr_seq prevLedger + 1))));
  _ ← playbackProposals;
  c ← get;
  when (prevProposers_ c / 2 <? numPositions c) (timer (now_ c)).

Definition handleWrongLedger (timer : Z -> M ()) (lgrId : N) : M () :=
  _ ← leaveConsensus;
  c ← get;
  _ ← when (negb (prevLedgerID_ c =? lgrId)%N)
        (_ ← modify (set_prevLedgerID lgrId);
         _ ← modify (set_result ((fun r => set_compares ∅ (set_disputes ∅ r)) <$> result_ c));
         _ ← modify (fun c => set_deadNodes ∅ (set_rawCloseTimes
                       (mkCloseTimes ∅ (self_time (rawCloseTimes_ c))) (set_currPeerPositions ∅ c)));
         playbackProposals);
  c ← get;
  if (lgr_id (previousLedger_ c) =? prevLedgerID_ c)%N then mret ()
  else
    newLedger ← query (acquireLedger (prevLedgerID_ c));
    match newLedger with
    | Some l => startRoundInternal timer (now_ c) lgrId l SwitchedLedger
    | None => setMode WrongLedger
    end.

Definition checkLedger (timer : Z -> M ()) : M () :=
  c ← get;
  netLgr ← query (getPrevLedger (prevLedgerID_ c) (previousLedger_ c) (mode_ c));
  when (negb (netLgr =? prevLedgerID_ c)%N || negb (lgr_id (previousLedger_ c) =? prevLedgerID_ c)%N)
    (handleWrongLedger timer netLgr).

Fixpoint timerEntry (fuel : nat) (now : Z) : M () :=
  match fuel with
  | O => fun _ => Throw "out of fuel"
  | S fuel =>
      c ← get;
      if bool_decide (phase_ c = Accepted) then mret ()
      else
        _ ← modify (set_now now);
        _ ← checkLedger (timerEntry fuel);
        c ← get;
        match phase_ c with
        | Open => phaseOpen
        | Establish => phaseEstablish
        | Accepted => mret ()
        end
  end.

Definition startRound (fuel : nat) (now : Z) (prevLedgerID : N) (prevLedger : Ledger_t)
    (nowUntrusted : list N) (proposing : bool) : M () :=
  c ← get;
  _ ← (if firstRound_ c
       then modify (fun c => set_firstRound false (set_prevCloseTime (lgr_closeTime prevLedger)
                               (set_prevRoundTime (ledgerIdleInterval parms) c)))
       else modify (set_prevCloseTime (self_time (rawCloseTimes_ c))));
  _ ← modify (fun c => set_recentPeerPositions
        (foldl (fun m n => delete n m) (recentPeerPositions_ c) nowUntrusted) c);
  let startMode := if proposing then Proposing else Observing in
  if (lgr_id prevLedger =? prevLedgerID)%N
  then startRoundInternal (timerEntry fuel) now prevLedgerID prevLedger startMode
  else
    newLedger ← query (acquireLedger prevLedgerID);
    match newLedger with
    | Some l => startRoundInternal (timerEntry fuel) now prevLedgerID l startMode
    | None => startRoundInternal (timerEntry fuel) now prevLedgerID prevLedger WrongLedger
    end.

Definition simulate (now : Z) (consensusDelay : option Z) : M () :=
  _ ← modify (set_now now);
  _ ← closeLedger;
  c ← get;
  _ ← modify_result (fun r => set_proposers (numPositions c)
        (set_roundTime (tick_fixed (roundTime r) (default 100 consensusDelay)) r));
  r ← get_result;
  _ ← modify (fun c => set_phase Accepted (set_prevRoundTime (read (roundTime r))
                         (set_prevProposers (numPositions c) c)));
  c ← get;
  notify (OnForceAccept r (previousLedger_ c) (closeResolution_ c) (rawCloseTimes_ c) (mode_ c)).
End round.
