(* ===== verification/ConsensusLaws.v ===== *)
(** * What a consensus round relies on

    The laws of the parameters of [Consensus] (Consensus.h): sets of
    transactions are finite maps named by their identifier, and the adaptor
    hands out what it is asked for ([TraitsLaws], [RoundLaws]).  The rules for
    running the operations of ConsensusRound symbolically. *)

From S2P Require Import Prelude StateMonad Serializer LedgerHeader Consensus ConsensusTypes ConsensusState ConsensusRound.
Open Scope Z_scope.

(** ** Sets of transactions *)

Class TraitsLaws `{T : Traits} : Type := {
  contents : TxSet_t -> gmap N Tx_t;
  mcontents : MutableTxSet -> gmap N Tx_t;
  compare_limit : nat;
  exists_spec : forall k s, set_exists k s = bool_decide (is_Some (contents s !! k));
  find_spec : forall k s, set_find k s = contents s !! k;
  contents_id : forall s k x, contents s !! k = Some x -> tx_id x = k;
  set_id_inj : forall s s', set_id s = set_id s' -> contents s = contents s';
  mutable_of_spec : forall s, mcontents (mutable_of s) = contents s;
  set_of_spec : forall m, contents (set_of m) = mcontents m;
  mset_insert_spec : forall x m, mcontents (mset_insert x m) =
    match mcontents m !! tx_id x with
    | Some _ => mcontents m
    | None => <[tx_id x := x]> (mcontents m)
    end;
  mset_erase_spec : forall k m, mcontents (mset_erase k m) = delete k (mcontents m);
  compare_sound : forall s o k b, (k, b) ∈ set_compare s o ->
    contents s !! k <> contents o !! k /\ b = bool_decide (is_Some (contents s !! k));
  (* the comparison of large sets may stop early *)
  compare_complete : forall s o k,
    (size (dom (contents s) ∪ dom (contents o)) <= compare_limit)%nat ->
    contents s !! k <> contents o !! k -> exists b, (k, b) ∈ set_compare s o
}.

(** ** The adaptor *)

Section laws.
Context `{TL : TraitsLaws}.

(** All transactions in circulation, when they are few enough for
    comparisons to be complete. *)
Definition circulates (circ : option (gmap N Tx_t)) (s : TxSet_t) : Prop :=
  forall U, circ = Some U -> contents s ⊆ U /\ (size U <= compare_limit)%nat.

Lemma circulates_complete circ U s o k : circ = Some U -> circulates circ s -> circulates circ o ->
  contents s !! k <> contents o !! k -> exists b, (k, b) ∈ set_compare s o.
Proof.
  intros HU Hs Ho Hk. apply compare_complete; [|done].
  destruct (Hs U HU) as [Hs' HU'], (Ho U HU) as [Ho' _].
  etransitivity; [|exact HU']. rewrite <-(size_dom U). apply subseteq_size.
  apply subseteq_dom in Hs', Ho'. set_solver.
Qed.

(** Two sets in circulation that both have a transaction have the same. *)
Lemma circulates_agree circ U s o k x y : circ = Some U -> circulates circ s -> circulates circ o ->
  contents s !! k = Some x -> contents o !! k = Some y -> x = y.
Proof.
  intros HU Hs Ho Hx Hy. destruct (Hs U HU) as [Hs' _], (Ho U HU) as [Ho' _].
  apply (lookup_weaken _ _ _ _ Hx) in Hs'. apply (lookup_weaken _ _ _ _ Hy) in Ho'. congruence.
Qed.

Lemma exists_true k s : set_exists k s = true <-> is_Some (contents s !! k).
Proof. rewrite exists_spec. apply bool_decide_eq_true. Qed.
End laws.

(** [budget] bounds how often the network changes its mind about the
    previous ledger while an operation runs. *)
Class RoundLaws (A : Type) `{TL : TraitsLaws} `{!RoundAdaptor A} (circ : option (gmap N Tx_t))
    (budget : A -> nat) : Prop := {
  ask_budget : forall X (q : Query X) a, (budget (ask q a).2 <= budget a)%nat;
  tell_budget : forall e a, (budget (tell e a) <= budget a)%nat;
  getPrevLedger_budget : forall id l m a, (ask (getPrevLedger id l m) a).1 <> id ->
    (budget (ask (getPrevLedger id l m) a).2 < budget a)%nat;
  acquireLedger_id : forall id a l, (ask (acquireLedger id) a).1 = Some l -> lgr_id l = id;
  acquireTxSet_ok : forall id a s, (ask (acquireTxSet id) a).1 = Some s ->
    set_id s = id /\ circulates circ s;
  onClose_ok : forall l t m a s p, (ask (onClose l t m) a).1 = (s, p) ->
    position p = set_id s /\ circulates circ s /\ 0 <= proposeSeq p < 2 ^ 32
}.

(** ** Symbolic execution *)

Section run.
Context {A : Type} `{T : Traits} `{!RoundAdaptor A} `{HashOrder}.
Implicit Types (st : Consensus * (A * list Event)).

Lemma total_member {Y} (f : Consensus -> ST _ Y) st Q : total (f st.1) st Q -> total (get (A := A) ≫= f) st Q.
Proof. done. Qed.
Lemma total_assign {Y} g (f : () -> ST _ Y) st Q :
  total (f ()) (g st.1, st.2) Q -> total (modify (A := A) g ≫= f) st Q.
Proof. done. Qed.
Lemma total_assign' g st (Q : () -> _ -> Prop) : Q () (g st.1, st.2) -> total (modify (A := A) g) st Q.
Proof. done. Qed.
Lemma total_notify {Y} e (f : () -> ST _ Y) st Q :
  total (f ()) (st.1, (tell e st.2.1, st.2.2 ++ [e])) Q -> total (notify (A := A) e ≫= f) st Q.
Proof. done. Qed.
Lemma total_notify' e st (Q : () -> _ -> Prop) :
  Q () (st.1, (tell e st.2.1, st.2.2 ++ [e])) -> total (notify (A := A) e) st Q.
Proof. done. Qed.
Lemma total_query {X Y} (q : Query X) (f : X -> ST _ Y) st Q :
  total (f (ask q st.2.1).1) (st.1, ((ask q st.2.1).2, st.2.2)) Q -> total (query (A := A) q ≫= f) st Q.
Proof. unfold total, query, mbind, ST_bind. by destruct (ask q st.2.1). Qed.
Lemma total_deref {X Y} (o : option X) x (f : X -> ST (Consensus * (A * list Event)) Y) st Q :
  o = Some x -> total (f x) st Q -> total (deref (A := A) o ≫= f) st Q.
Proof. by intros ->. Qed.
Lemma total_get_result {Y} r (f : ConsensusResult -> ST _ Y) st Q :
  result_ st.1 = Some r -> total (f r) st Q -> total (get_result (A := A) ≫= f) st Q.
Proof. intros E Hf. unfold total, get_result, get, deref, mbind, ST_bind in *. by rewrite E. Qed.
Lemma total_modify_result {Y} r g (f : () -> ST _ Y) st Q :
  result_ st.1 = Some r -> total (f ()) (set_result (Some (g r)) st.1, st.2) Q ->
  total (modify_result (A := A) g ≫= f) st Q.
Proof. intros E Hf. unfold total, modify_result, get_result, get, deref, modify, mbind, ST_bind in *. by rewrite E. Qed.
Lemma total_modify_result' r g st (Q : () -> _ -> Prop) :
  result_ st.1 = Some r -> Q () (set_result (Some (g r)) st.1, st.2) -> total (modify_result (A := A) g) st Q.
Proof. intros E HQ. unfold total, modify_result, get_result, get, deref, modify, mbind, ST_bind in *. by rewrite E. Qed.
Lemma total_setMode {Y} m (f : () -> ST _ Y) st Q :
  total (f ()) (set_mode m st.1, (tell (OnModeChange (mode_ st.1) m) st.2.1, st.2.2 ++ [OnModeChange (mode_ st.1) m])) Q ->
  total (setMode (A := A) m ≫= f) st Q.
Proof. done. Qed.
Lemma total_ret_bind {X Y} (x : X) (f : X -> ST (Consensus * (A * list Event)) Y) st Q :
  total (f x) st Q -> total (mret x ≫= f) st Q.
Proof. done. Qed.
End run.

(** The statements of a block one after the other. *)
Ltac step :=
  lazymatch goal with
  | |- total (get ≫= _) _ _ => apply total_member
  | |- total (modify _ ≫= _) _ _ => apply total_assign
  | |- total (modify _) _ _ => apply total_assign'
  | |- total (notify _ ≫= _) _ _ => apply total_notify
  | |- total (notify _) _ _ => apply total_notify'
  | |- total (query _ ≫= _) _ _ => apply total_query
  | |- total (setMode _ ≫= _) _ _ => apply total_setMode
  | |- total (mret _ ≫= _) _ _ => apply total_ret_bind
  | |- total (mret _) _ _ => apply total_ret
  | |- total (get_result ≫= _) _ _ => eapply total_get_result; [eassumption|]
  | |- total (modify_result _ ≫= _) _ _ => eapply total_modify_result; [eassumption|]
  | |- total (modify_result _) _ _ => eapply total_modify_result'; [eassumption|]
  end; cbn [fst snd].
Ltac steps := repeat step.
