(* ===== verification/ConsensusDisputes.v ===== *)
(** * Disputes and positions

    The invariant of a round (Consensus.h): every transaction on which our
    set and the set of a peer differ is disputed, our vote on a dispute says
    whether our set has the transaction, and the recorded votes of the peers
    say the same of the sets they propose.  This file shows it for the
    operations on disputes and for the messages of peers. *)

From S2P Require Import Prelude Serializer LedgerHeader Consensus StateMonad ConsensusTypes ConsensusState ConsensusRound ConsensusLaws.
Open Scope Z_scope.

Section inv.
Context `{TL : TraitsLaws} (circ : option (gmap N Tx_t)).
Implicit Types (r : ConsensusResult) (acq : gmap N TxSet_t) (cur : gmap N PeerPosition_t).

(** [pv]: peers whose votes may be outdated; [pc]: peers whose sets may not
    have been compared with ours; [pi]: sets whose comparison with ours is
    under way. *)
Record RInv (pv pc pi : N -> Prop) acq cur r : Prop := {
  r_pos : position (our_position r) = set_id (txns r);
  r_seq : 0 <= proposeSeq (our_position r) < 2 ^ 32;
  r_circ : circulates circ (txns r);
  r_own : is_Some (acq !! set_id (txns r));
  r_dispute : forall k d, disputes r !! k = Some d ->
    tx_id (tx_ d) = k /\ tallied d /\ ourVote_ d = set_exists k (txns r) /\
    (forall U, circ = Some U -> U !! k = Some (tx_ d));
  r_voters : forall k d n v, disputes r !! k = Some d -> votes_ d !! n = Some v -> is_Some (cur !! n);
  r_votes : forall k d n p s, ~ pv n -> disputes r !! k = Some d -> cur !! n = Some p ->
    acq !! their_position p = Some s -> votes_ d !! n = Some (set_exists k s);
  r_compared : forall n p, ~ pc n -> cur !! n = Some p -> is_Some (acq !! their_position p) ->
    their_position p ∈ compares r;
  r_compares : forall id, id ∈ compares r -> is_Some (acq !! id);
  r_complete : forall id s k, ~ pi id -> circ <> None -> id ∈ compares r -> acq !! id = Some s ->
    contents s !! k <> contents (txns r) !! k -> is_Some (disputes r !! k)
}.

Lemma RInv_weaken (pv pc pi pv' pc' pi' : N -> Prop) acq cur r :
  (forall n, pv n -> pv' n) -> (forall n, pc n -> pc' n) -> (forall n, pi n -> pi' n) ->
  RInv pv pc pi acq cur r -> RInv pv' pc' pi' acq cur r.
Proof. intros Hv Hc Hi []. split; eauto 8. Qed.

(** ** Votes *)

Lemma setVote_tx (d : DisputedTx Tx_t) n v : tx_ (setVote d n v).2 = tx_ d.
Proof. unfold setVote. by destruct (votes_ d !! n) as [[]|], v. Qed.
Lemma unVote_tx (d : DisputedTx Tx_t) n : tx_ (unVote d n) = tx_ d.
Proof. unfold unVote. by destruct (votes_ d !! n) as [[]|]. Qed.
Lemma updateVote_tx (d : DisputedTx Tx_t) t b p : tx_ (updateVote d t b p).2 = tx_ d.
Proof.
  unfold updateVote. destruct (_ && _); [done|]. destruct (_ && _); [done|].
  destruct (getNeededWeight _ _ _ _ _) as [? []]; by case_bool_decide.
Qed.

(** Whether a peer of the list votes, and how. *)
Definition casts acq (k : N) (xs : list (N * PeerPosition_t)) (n : N) (v : bool) : Prop :=
  exists p s, (n, p) ∈ xs /\ acq !! their_position p = Some s /\ v = set_exists k s.

Lemma castVotes_spec acq k xs acc :
  tallied acc.2 -> NoDup xs.*1 ->
  let d := (foldl (castVote acq k) acc xs).2 in
  tallied d /\ tx_ d = tx_ acc.2 /\ ourVote_ d = ourVote_ acc.2 /\
  (forall n v, votes_ d !! n = Some v ->
     casts acq k xs n v \/ votes_ acc.2 !! n = Some v) /\
  (forall n v, casts acq k xs n v -> votes_ d !! n = Some v) /\
  (forall n v, votes_ acc.2 !! n = Some v -> n ∉ xs.*1 -> votes_ d !! n = Some v).
Proof.
  revert acc. induction xs as [|[m p] xs IH]; intros acc Ht Hnd; cbn [foldl].
  { split_and!; auto. intros n v (p & s & Hx & _). by apply elem_of_nil in Hx. }
  cbn in Hnd. apply NoDup_cons in Hnd as [Hm Hnd].
  assert (exists acc', castVote acq k acc (m, p) = acc' /\ tallied acc'.2 /\ tx_ acc'.2 = tx_ acc.2 /\
    ourVote_ acc'.2 = ourVote_ acc.2 /\
    votes_ acc'.2 = match acq !! their_position p with
                    | Some s => <[m := set_exists k s]> (votes_ acc.2) | None => votes_ acc.2 end)
    as (acc' & -> & Ht' & Hx' & Ho' & Hv').
  { eexists. split; [done|]. unfold castVote. cbn [fst snd].
    destruct (acq !! their_position p) as [s|]; [|done].
    destruct (setVote_spec acc.2 m (set_exists k s) Ht) as (_ & Hv & Ht' & Ho).
    pose proof (setVote_tx acc.2 m (set_exists k s)) as Hx.
    destruct (setVote acc.2 m _) as [b d]. cbn in *. auto. }
  specialize (IH acc' Ht' Hnd). cbv zeta in IH |- *. rewrite Hx', Ho', Hv' in IH.
  destruct IH as (I1 & I2 & I3 & I4 & I5 & I6). split_and!; try done.
  - intros n v Hn. destruct (I4 n v Hn) as [(q & s & Hq & Hs & ->)|Hn'].
    { left. exists q, s. split_and!; [by right|done..]. }
    destruct (acq !! their_position p) as [s|] eqn:Es; [|by right].
    apply lookup_insert_Some in Hn' as [[<- <-]|[_ Hn']]; [|by right].
    left. exists p, s. split_and!; [by left|done..].
  - intros n v (q & s & Hq & Hs & ->). apply elem_of_cons in Hq as [[= -> ->]|Hq].
    + apply I6; [|done]. rewrite Hs. by rewrite lookup_insert_eq.
    + apply I5. by exists q, s.
  - intros n v Hn Hni. cbn in Hni. apply not_elem_of_cons in Hni as [Hne Hni].
    apply I6; [|done]. destruct (acq !! their_position p); [|done]. by rewrite lookup_insert_ne.
Qed.

Lemma order_nodup `{HashOrder} {V} (m : gmap N V) : NoDup (order m).*1.
Proof. rewrite (order_perm m). apply NoDup_fst_map_to_list. Qed.

(** ** Effects on the result *)

(** A transaction on which our set and [o] differ becomes disputed. *)
Lemma RInv_dispute `{HashOrder} pv pc pi acq cur r o k tx :
  RInv pv pc pi acq cur r -> circulates circ o ->
  contents (txns r) !! k = Some tx \/ contents o !! k = Some tx -> tx_id tx = k ->
  disputes r !! k = None ->
  let dtx := (foldl (castVote acq k) (false, newDispute tx (set_exists k (txns r))) (order cur)).2 in
  tx_ dtx = tx /\ RInv pv pc pi acq cur (set_disputes (<[k := dtx]> (disputes r)) r).
Proof.
  intros [Hp Hsq Hc Ho Hd Hvr Hv Hcd Hcs Hcm] Hco Htx Hid Hk. cbv zeta.
  destruct (castVotes_spec acq k (order cur) (false, newDispute tx (set_exists k (txns r))))
    as (S1 & S2 & S3 & S4 & S5 & _); [by split; vm_compute|apply order_nodup|].
  set (dtx := (foldl _ _ _).2) in *. split; [done|]. split; cbn; try done.
  - intros k' d. intros [[<- <-]|[Hne Hk']]%lookup_insert_Some; [|by apply Hd].
    rewrite S2, S3. cbn. split_and!; [done..|]. intros U HU.
    destruct Htx as [Htx|Htx]; [destruct (Hc U HU) as [Hs _]|destruct (Hco U HU) as [Hs _]];
      exact (lookup_weaken _ _ _ _ Htx Hs).
  - intros k' d n v. intros [[<- <-]|[Hne Hk']]%lookup_insert_Some; [|by apply (Hvr k')].
    intros [(p & s & Hx & _)|Hn]%S4; [|done]. apply order_in in Hx. cbn in Hx. by rewrite Hx.
  - intros k' d n p s Hpv. intros [[<- <-]|[Hne Hk']]%lookup_insert_Some; [|by apply (Hv k')].
    intros Hn Hs. apply S5. exists p, s. split_and!; [by apply order_in|done..].
  - intros id s k' Hpi Hcc Hid' Hs Hne. destruct (decide (k' = k)) as [->|Hkk].
    + by rewrite lookup_insert_eq.
    + rewrite lookup_insert_ne by done. by eapply Hcm.
Qed.

(** The votes of one peer are brought up to date. *)
Lemma RInv_vote pv pc pi acq cur r n p s :
  RInv pv pc pi acq cur r -> cur !! n = Some p ->
  (forall s', acq !! their_position p = Some s' -> contents s' = contents s) ->
  RInv (fun m => pv m /\ m <> n) pc pi acq cur
    (set_disputes ((fun d => (setVote d n (set_exists (tx_id (tx_ d)) s)).2) <$> disputes r) r).
Proof.
  intros [Hp Hsq Hc Ho Hd Hvr Hv Hcd Hcs Hcm] Hn Hs. split; cbn; try done.
  - intros k d (d0 & <- & Hk)%lookup_fmap_Some. destruct (Hd k d0 Hk) as (H1 & H2 & H3 & H4).
    destruct (setVote_spec d0 n (set_exists (tx_id (tx_ d0)) s) H2) as (_ & _ & Ht & Hov).
    rewrite setVote_tx, Hov. auto.
  - intros k d m v (d0 & <- & Hk)%lookup_fmap_Some Hm. destruct (Hd k d0 Hk) as (_ & H2 & _).
    destruct (setVote_spec d0 n (set_exists (tx_id (tx_ d0)) s) H2) as (_ & Hvs & _).
    rewrite Hvs in Hm. apply lookup_insert_Some in Hm as [[<- _]|[_ Hm]]; [by rewrite Hn|by apply (Hvr k d0 m v)].
  - intros k d m q s' Hpv (d0 & <- & Hk)%lookup_fmap_Some Hm Hs'. destruct (Hd k d0 Hk) as (H1 & H2 & _).
    destruct (setVote_spec d0 n (set_exists (tx_id (tx_ d0)) s) H2) as (_ & Hvs & _). rewrite Hvs.
    destruct (decide (m = n)) as [->|Hne].
    + rewrite lookup_insert_eq, H1. assert (q = p) as -> by congruence.
      by rewrite !exists_spec, (Hs s' Hs').
    + rewrite lookup_insert_ne by done. eapply Hv; [|done..]. tauto.
  - intros id s' k. rewrite lookup_fmap, fmap_is_Some. apply Hcm.
Qed.

(** A peer leaves: its votes are withdrawn. *)
Lemma RInv_leave pv pc pi acq cur r n :
  RInv pv pc pi acq cur r -> RInv pv pc pi acq (delete n cur) (unVoteAll n r).
Proof.
  intros [Hp Hsq Hc Ho Hd Hvr Hv Hcd Hcs Hcm]. split; cbn; try done.
  - intros k d (d0 & <- & Hk)%lookup_fmap_Some. destruct (Hd k d0 Hk) as (H1 & H2 & H3 & H4).
    destruct (unVote_spec d0 n H2) as (_ & Ht & Hov). rewrite unVote_tx, Hov. auto.
  - intros k d m v (d0 & <- & Hk)%lookup_fmap_Some. destruct (Hd k d0 Hk) as (_ & H2 & _).
    destruct (unVote_spec d0 n H2) as (Hvs & _). rewrite Hvs.
    intros [Hne Hm]%lookup_delete_Some. rewrite lookup_delete_ne by done. by eapply Hvr.
  - intros k d m q s Hpv (d0 & <- & Hk)%lookup_fmap_Some. destruct (Hd k d0 Hk) as (_ & H2 & _).
    destruct (unVote_spec d0 n H2) as (Hvs & _). rewrite Hvs.
    intros [Hne Hm]%lookup_delete_Some Hs. rewrite lookup_delete_ne by done. by eapply Hv.
  - intros m q Hpc [_ Hm]%lookup_delete_Some. by eapply Hcd.
  - intros id s k. rewrite lookup_fmap, fmap_is_Some. apply Hcm.
Qed.

(** A peer takes a position: until its set is looked at, its votes may be
    outdated. *)
Lemma RInv_take pv pc pi acq cur r n p :
  RInv pv pc pi acq cur r ->
  RInv (fun m => pv m \/ m = n) (fun m => pc m \/ m = n) pi acq (<[n := p]> cur) r.
Proof.
  intros [Hp Hsq Hc Ho Hd Hvr Hv Hcd Hcs Hcm]. split; try done.
  - intros k d m v Hk Hm. destruct (Hvr k d m v Hk Hm) as [q Hq].
    destruct (decide (m = n)) as [->|Hne]; [by rewrite lookup_insert_eq|]. by rewrite lookup_insert_ne, Hq.
  - intros k d m q s Hpv Hk [[<- _]|[_ Hm]]%lookup_insert_Some; [tauto|]. apply (Hv k d m q s); [tauto|done..].
  - intros m q Hpc [[<- _]|[_ Hm]]%lookup_insert_Some; [tauto|]. apply (Hcd m q); [tauto|done].
Qed.

(** Positions whose set is not at hand need no attention. *)
Lemma RInv_absent pv pc pi acq cur r n p :
  RInv (fun m => pv m \/ m = n) (fun m => pc m \/ m = n) pi acq cur r ->
  cur !! n = Some p -> acq !! their_position p = None -> RInv pv pc pi acq cur r.
Proof.
  intros [Hp Hsq Hc Ho Hd Hvr Hv Hcd Hcs Hcm] Hn Ha. split; try done.
  - intros k d m q s Hpv Hk Hm Hs. eapply Hv; [|done..]. intros [Hm'| ->]; [done|congruence].
  - intros m q Hpc Hm Hs. eapply Hcd; [|done..]. intros [Hm'| ->]; [done|].
    destruct Hs as [s Hs]. congruence.
Qed.

(** A set arrives. *)
Lemma RInv_acquire pv pc pi acq cur r s :
  RInv pv pc pi acq cur r -> acq !! set_id s = None ->
  let waits n := exists p, cur !! n = Some p /\ their_position p = set_id s in
  RInv (fun n => pv n \/ waits n) (fun n => pc n \/ waits n) pi (<[set_id s := s]> acq) cur r.
Proof.
  intros [Hp Hsq Hc Ho Hd Hvr Hv Hcd Hcs Hcm] Hs. cbv zeta.
  assert (forall id, is_Some (acq !! id) -> is_Some ((<[set_id s := s]> acq) !! id)) as Hmono.
  { intros id Hid. destruct (decide (id = set_id s)) as [->|Hne]; [by rewrite lookup_insert_eq|].
    by rewrite lookup_insert_ne. }
  split; try done; eauto.
  - intros k d n q s' Hpv Hk Hn [[Hq <-]|[Hq Hs']]%lookup_insert_Some.
    + exfalso. apply Hpv. right. by exists q.
    + apply (Hv k d n q s'); [tauto|done..].
  - intros n q Hpc Hn [s' Hs']. apply lookup_insert_Some in Hs' as [[Hq <-]|[Hq Hs']].
    + exfalso. apply Hpc. right. by exists q.
    + apply (Hcd n q); [tauto|done|by rewrite Hs'].
  - intros id s' k Hpi Hcc Hid [[<- <-]|[Hq Hs']]%lookup_insert_Some; [|by eapply Hcm].
    destruct (Hcs _ Hid) as [? E]. congruence.
Qed.
End inv.

(** ** Operations on disputes *)

(** What concerns the outside of a round: modes, proposals and outcomes. *)
Definition main `{Traits} (e : Event) : Prop :=
  match e with
  | OnModeChange _ _ | Propose _ | OnAccept _ _ _ _ _ _ | OnForceAccept _ _ _ _ _ => True
  | _ => False
  end.
#[export] Instance main_dec `{Traits} e : Decision (main e).
Proof. destruct e; apply _. Defined.

(** The state without its disputes. *)
Definition frozen `{Traits} (c : Consensus) : Consensus :=
  set_peerUnchangedCounter 0
    (set_result ((fun r => set_disputes ∅ (set_compares ∅ r)) <$> result_ c) c).

Section ops.
Context {A : Type} `{TL : TraitsLaws} `{!RoundAdaptor A} `{HashOrder}.
Context (circ : option (gmap N Tx_t)) (budget : A -> nat) `{RL : !RoundLaws A circ budget}.
Implicit Types (st : Consensus * (A * list Event)) (c : Consensus) (r : ConsensusResult).

(** An operation leaves the part [f] of the state alone and tells the outside
    nothing. *)
Record kframe (f : Consensus -> Consensus) st st' : Prop := {
  kf_part : f st'.1 = f st.1;
  kf_budget : (budget st'.2.1 <= budget st.2.1)%nat;
  kf_main : filter main st'.2.2 = filter main st.2.2
}.
#[export] Instance kframe_refl f : Reflexive (kframe f).
Proof. by split. Qed.
#[export] Instance kframe_trans f : Transitive (kframe f).
Proof. intros x y z [] []. split; [congruence|lia|congruence]. Qed.
Lemma kframe_coarser f g st st' :
  (forall c c', f c' = f c -> g c' = g c) -> kframe f st st' -> kframe g st st'.
Proof. intros Hfg [E Hb Hm]. split; auto. Qed.
Abbreviation dframe := (kframe frozen).

Lemma frozen_result c c' r : frozen c' = frozen c -> result_ c = Some r ->
  exists r', result_ c' = Some r' /\ set_disputes ∅ (set_compares ∅ r') = set_disputes ∅ (set_compares ∅ r).
Proof.
  intros E Hr. apply (f_equal result_) in E. cbn in E. rewrite Hr in E.
  destruct (result_ c') as [r'|]; [|done]. exists r'. split; [done|]. by apply (inj Some) in E.
Qed.
Lemma frozen_acquired c c' : frozen c' = frozen c -> acquired_ c' = acquired_ c.
Proof. intros E. exact (f_equal acquired_ E). Qed.
Lemma frozen_current c c' : frozen c' = frozen c -> currPeerPositions_ c' = currPeerPositions_ c.
Proof. intros E. exact (f_equal currPeerPositions_ E). Qed.

Lemma frozen_set c r r' : result_ c = Some r ->
  set_disputes ∅ (set_compares ∅ r') = set_disputes ∅ (set_compares ∅ r) -> frozen (set_result (Some r') c) = frozen c.
Proof. destruct c. unfold frozen. cbn. intros -> E. cbn. by rewrite E. Qed.
Lemma frozen_counter c n : frozen (set_peerUnchangedCounter n c) = frozen c.
Proof. done. Qed.

(** The dispute part of the state holds the result [r] and is in order. *)
Definition holds pv pc pi c r : Prop :=
  result_ c = Some r /\ RInv circ pv pc pi (acquired_ c) (currPeerPositions_ c) r.

Lemma createDispute_total o x pv pc pi st r :
  holds pv pc pi st.1 r -> circulates circ o ->
  contents (txns r) !! x.1 <> contents o !! x.1 -> x.2 = bool_decide (is_Some (contents (txns r) !! x.1)) ->
  total (createDispute o x) st (fun _ st' => dframe st st' /\ exists r', holds pv pc pi st'.1 r' /\
    set_disputes ∅ r' = set_disputes ∅ r /\ dom (disputes r') = {[x.1]} ∪ dom (disputes r)).
Proof using All.
  intros [Hr HI] Ho Hne Hx. destruct x as [k b]. cbn in Hne, Hx.
  unfold createDispute. steps. cbn [fst snd].
  assert (exists tx, (if b then set_find k (txns r) else set_find k o) = Some tx /\
    (contents (txns r) !! k = Some tx \/ contents o !! k = Some tx)) as (tx & Htx & Hin).
  { rewrite !find_spec. subst b. case_bool_decide as Hb.
    - destruct Hb as [tx Htx]. exists tx. auto.
    - destruct (contents o !! k) as [tx|] eqn:E; [by exists tx; auto|].
      exfalso. apply Hne. by destruct (contents (txns r) !! k) eqn:E'; [exfalso; eauto|]. }
  assert (tx_id tx = k) as Hk by (destruct Hin; by eapply contents_id).
  eapply total_deref; [exact Htx|]. cbv zeta. rewrite Hk.
  destruct (disputes r !! k) as [d|] eqn:Ed.
  { apply total_ret. split; [done|]. exists r. split_and!; [done..|].
    assert (k ∈ dom (disputes r)) by (by apply elem_of_dom; eauto). set_solver. }
  destruct (RInv_dispute circ pv pc pi _ _ r o k tx HI Ho Hin Hk Ed) as [Htx' HI'].
  destruct (foldl _ _ _) as [changed dtx]. cbn [snd] in *.
  apply total_bind. unfold when. destruct changed; steps; split.
  1, 3: split; cbn [fst snd]; [|apply tell_budget|by rewrite filter_app, app_nil_r].
  1, 2: etransitivity; [by apply (frozen_set _ r)|done].
  all: eexists; split_and!; [by split|done|apply dom_insert_L].
Qed.

Lemma createDispute_loop o pv pc pi xs st r :
  holds pv pc pi st.1 r -> circulates circ o ->
  (forall k b, (k, b) ∈ xs -> contents (txns r) !! k <> contents o !! k /\
     b = bool_decide (is_Some (contents (txns r) !! k))) ->
  total (for_each (createDispute o) xs) st (fun _ st' => dframe st st' /\ exists r', holds pv pc pi st'.1 r' /\
    set_disputes ∅ r' = set_disputes ∅ r /\ dom (disputes r') = list_to_set xs.*1 ∪ dom (disputes r)).
Proof using All.
  revert st r. induction xs as [|[k b] xs IH]; intros st r Hh Ho Hxs; cbn [for_each].
  { apply total_ret. split; [done|]. exists r. split_and!; [done..|]. cbn. set_solver. }
  apply total_bind. destruct (Hxs k b) as [Hne Hb]; [by left|].
  eapply total_mono; [by apply createDispute_total|]. cbn [fst snd]. intros [] st1 (F1 & r1 & Hh1 & E1 & D1).
  assert (txns r1 = txns r) as Et by exact (f_equal txns E1).
  eapply total_mono; [apply (IH st1 r1); [done..|]|].
  { rewrite Et. intros k' b' Hin. apply Hxs. by right. }
  intros [] st2 (F2 & r2 & Hh2 & E2 & D2). split; [by etransitivity|]. exists r2. split_and!; [done|congruence|].
  cbn. rewrite D2, D1. set_solver.
Qed.

(** The comparison with the set [o] is recorded. *)
Lemma RInv_compare pv pc acq cur r o :
  (forall id s, acq !! id = Some s -> set_id s = id) -> acq !! set_id o = Some o ->
  RInv circ pv pc (fun _ => False) acq cur r ->
  RInv circ pv (fun n => pc n /\ forall p, cur !! n = Some p -> their_position p <> set_id o)
    (fun id => id = set_id o) acq cur (set_compares ({[set_id o]} ∪ compares r) r).
Proof.
  intros Hids Hacq [Hp Hsq Hc Ho Hd Hvr Hv Hcd Hcs Hcm]. split; cbn; try done.
  - intros n p Hpc Hn Hs. destruct (decide (their_position p = set_id o)) as [->|Hne]; [set_solver|].
    assert (their_position p ∈ compares r); [|set_solver]. apply (Hcd n p); [|done..].
    intros Hpc'. apply Hpc. split; [done|]. intros q Hq. congruence.
  - intros id [->%elem_of_singleton|Hid]%elem_of_union; [by rewrite Hacq|by apply Hcs].
  - intros id s k Hpi Hcc [->%elem_of_singleton|Hid]%elem_of_union; [done|].
    intros Hs Hne. by apply (Hcm id s k ltac:(tauto)).
Qed.

(** Once all differences are disputed the comparison is complete. *)
Lemma RInv_compared pv pc acq cur r o :
  RInv circ pv pc (fun id => id = set_id o) acq cur r -> acq !! set_id o = Some o ->
  (circ <> None -> forall k, contents o !! k <> contents (txns r) !! k -> is_Some (disputes r !! k)) ->
  RInv circ pv pc (fun _ => False) acq cur r.
Proof.
  intros [Hp Hsq Hc Ho Hd Hvr Hv Hcd Hcs Hcm] Hacq Hall. split; try done.
  intros id s k _ Hcc Hid Hs Hne. destruct (decide (id = set_id o)) as [->|Hne']; [|by eapply Hcm].
  apply Hall; [done|]. by assert (s = o) as <- by congruence.
Qed.

Lemma createDisputes_total o pv pc st r :
  holds pv pc (fun _ => False) st.1 r ->
  (forall id s, acquired_ st.1 !! id = Some s -> set_id s = id /\ circulates circ s) ->
  acquired_ st.1 !! set_id o = Some o ->
  total (createDisputes o) st (fun _ st' => dframe st st' /\ exists r',
    holds pv (fun n => pc n /\ forall p, currPeerPositions_ st.1 !! n = Some p -> their_position p <> set_id o)
      (fun _ => False) st'.1 r' /\ set_id o ∈ compares r').
Proof using All.
  intros [Hr HI] Hids Hacq. unfold createDisputes. steps.
  destruct (Hids _ _ Hacq) as [_ Ho]. destruct (decide (set_id o ∈ compares r)) as [Hin|Hin].
  { apply total_ret. split; [done|]. exists r. split; [|done]. split; [done|].
    pose proof (RInv_compare pv pc _ _ r o (fun id s E => proj1 (Hids id s E)) Hacq HI) as HI'.
    replace ({[set_id o]} ∪ compares r) with (compares r) in HI' by set_solver.
    assert (set_compares (compares r) r = r) as E by (by destruct r). rewrite E in HI'.
    apply (RInv_compared _ _ _ _ _ o HI' Hacq). intros Hcc k Hk.
    by apply (r_complete _ _ _ _ _ _ _ HI (set_id o) o k ltac:(tauto)). }
  steps.
  pose proof (RInv_compare pv pc _ _ r o (fun id s E => proj1 (Hids id s E)) Hacq HI) as HI'.
  set (r1 := set_compares _ r) in *.
  assert (dframe st (set_result (Some r1) st.1, st.2)) as F1 
    by (split; [by apply (frozen_set _ r)|done..]).
  destruct (N.eqb_spec (set_id (txns r)) (set_id o)) as [Ei|Ei].
  { apply total_ret. split; [done|]. exists r1. split; [|cbn; set_solver]. split; [done|].
    apply (RInv_compared _ _ _ _ _ o HI' Hacq). intros Hcc k. cbn. by rewrite (set_id_inj _ _ Ei). }
  eapply total_mono; [eapply (createDispute_loop o _ _ _ _ _ r1); [by split|done|]|].
  { intros k b Hkb. by apply compare_sound. }
  cbn. intros [] st2 (F2 & r2 & [Hr2 HI2] & E2 & D2). split; [by etransitivity|].
  exists r2. split; [|rewrite (f_equal compares E2 : compares r2 = compares r1); cbn; set_solver].
  split; [done|]. rewrite (frozen_acquired _ _ (kf_part _ _ _ F2)), (frozen_current _ _ (kf_part _ _ _ F2)) in *.
  apply (RInv_compared _ _ _ _ _ o HI2 Hacq). intros Hcc k Hk.
  rewrite (f_equal txns E2 : txns r2 = txns r) in Hk. destruct circ as [U|] eqn:EU; [|done].
  destruct (circulates_complete (Some U) U (txns r) o k) as [b Hb]; [done|by eapply r_circ|done|congruence|].
  apply elem_of_dom. rewrite D2. apply elem_of_union_l, elem_of_list_to_set, list_elem_of_fmap. by exists (k, b).
Qed.

Lemma updateDisputes_total n p o pv pc st r :
  holds pv pc (fun _ => False) st.1 r ->
  (forall id s, acquired_ st.1 !! id = Some s -> set_id s = id /\ circulates circ s) ->
  acquired_ st.1 !! set_id o = Some o ->
  currPeerPositions_ st.1 !! n = Some p -> their_position p = set_id o ->
  total (updateDisputes n o) st (fun _ st' => dframe st st' /\ exists r',
    holds (fun m => pv m /\ m <> n) (fun m => pc m /\ m <> n) (fun _ => False) st'.1 r').
Proof using All.
  intros [Hr HI] Hids Hacq Hn Hp. unfold updateDisputes. steps. apply total_bind.
  assert (total (if decide (set_id o ∈ compares r) then mret () else createDisputes o) st
    (fun _ st' => dframe st st' /\ exists r', holds pv (fun m => pc m /\ m <> n) (fun _ => False) st'.1 r'))
    as Hc.
  { assert (forall pc' : N -> Prop, (forall m, pc' m -> m <> n) ->
      forall m, pc m /\ pc' m -> pc m /\ m <> n) as Himp by naive_solver.
    destruct (decide (set_id o ∈ compares r)) as [Hin|Hin].
    - apply total_ret. split; [done|]. exists r. split; [done|]. destruct HI. split; try done.
      intros m q Hpc Hm Hs. destruct (decide (m = n)) as [->|Hne]; [|by eauto].
      assert (q = p) as -> by congruence. by rewrite Hp.
    - eapply total_mono; [by apply (createDisputes_total o pv pc st r)|].
      intros [] st1 (F1 & r1 & [Hr1 HI1] & _). split; [done|]. exists r1. split; [done|].
      eapply RInv_weaken; [| | |exact HI1]; [done| |done]. intros m [Hm Hq]. split; [done|].
      intros ->. by apply (Hq p). }
  eapply total_mono; [exact Hc|]. cbn [fst snd]. intros [] st1 (F1 & r1 & Hr1 & HI1).
  steps.
  assert (RInv circ (fun m => pv m /\ m <> n) (fun m => pc m /\ m <> n) (fun _ => False)
    (acquired_ st1.1) (currPeerPositions_ st1.1)
    (set_disputes ((fun d => (setVote d n (set_exists (tx_id (tx_ d)) o)).2) <$> disputes r1) r1)) as HI2.
  { apply (RInv_vote _ _ _ _ _ _ _ n p o HI1).
    - by rewrite (frozen_current _ _ (kf_part _ _ _ F1)).
    - rewrite (frozen_acquired _ _ (kf_part _ _ _ F1)), Hp, Hacq. by intros s [= <-]. }
  unfold when. destruct (existsb _ _); [step|apply total_ret]; (split;
    [etransitivity; [exact F1|]; split; [exact (frozen_set st1.1 r1 _ Hr1 eq_refl)|done..]|]); eexists; by split.
Qed.
End ops.

(** * Messages from peers

    The operations of a round (Consensus.h) that handle proposals and sets of
    transactions keep the invariant of the whole state: current positions are
    for the ledger worked on, the sets at hand are those asked for, and the
    disputes agree with both. *)

Definition nobody : N -> Prop := fun _ => False.

(** What the arrival of a set leaves alone, and of a proposal. *)
Definition settled `{Traits} (c : Consensus) : Consensus := set_now 0 (set_acquired ∅ (frozen c)).
Definition core `{Traits} (c : Consensus) : Consensus :=
  set_currPeerPositions ∅ (set_deadNodes ∅
    (set_rawCloseTimes (mkCloseTimes ∅ (self_time (rawCloseTimes_ c))) (settled c))).

Section messages.
Context {A : Type} `{TL : TraitsLaws} `{!RoundAdaptor A} `{HashOrder}.
Context (circ : option (gmap N Tx_t)) (budget : A -> nat) `{RL : !RoundLaws A circ budget}.
Implicit Types (st : Consensus * (A * list Event)) (c : Consensus) (r : ConsensusResult).

Record Base c : Prop := {
  i_acq : forall id s, acquired_ c !! id = Some s -> set_id s = id /\ circulates circ s;
  i_peers : forall n p, currPeerPositions_ c !! n = Some p ->
    nodeID (proposal p) = n /\ prevLedger (proposal p) = prevLedgerID_ c /\
    isBowOut (proposal p) = false /\ n ∉ deadNodes_ c;
  i_recent : forall n ps, recentPeerPositions_ c !! n = Some ps ->
    (length ps <= 10)%nat /\ Forall (fun p => nodeID (proposal p) = n) ps
}.
Definition phase_ok c : Prop :=
  match phase_ c with
  | Open => result_ c = None
  | Establish => is_Some (result_ c)
  | Accepted => True
  end.
Record Inv c : Prop := {
  i_base : Base c;
  i_phase : phase_ok c;
  i_result : forall r, result_ c = Some r ->
    RInv circ nobody nobody nobody (acquired_ c) (currPeerPositions_ c) r
}.

Lemma settled_frozen c c' : frozen c' = frozen c -> settled c' = settled c.
Proof. unfold settled. by intros ->. Qed.
Lemma core_settled c c' : settled c' = settled c -> core c' = core c.
Proof.
  intros E. unfold core. rewrite E. by rewrite (f_equal rawCloseTimes_ E : rawCloseTimes_ c' = rawCloseTimes_ c).
Qed.
Abbreviation keeps f := (kframe budget f).

Lemma settled_result c c' r : settled c' = settled c -> result_ c = Some r ->
  exists r', result_ c' = Some r' /\ set_disputes ∅ (set_compares ∅ r') = set_disputes ∅ (set_compares ∅ r).
Proof.
  intros E Hr. apply (f_equal result_) in E. cbn in E. rewrite Hr in E.
  destruct (result_ c') as [r'|]; [|done]. exists r'. split; [done|]. by apply (inj Some) in E.
Qed.
Lemma settled_none c c' : settled c' = settled c -> result_ c = None -> result_ c' = None.
Proof.
  intros E Hr. apply (f_equal result_) in E. cbn in E. rewrite Hr in E. by destruct (result_ c').
Qed.
Lemma core_result c c' r : core c' = core c -> result_ c = Some r ->
  exists r', result_ c' = Some r' /\ set_disputes ∅ (set_compares ∅ r') = set_disputes ∅ (set_compares ∅ r).
Proof.
  intros E Hr. apply (f_equal result_) in E. cbn in E. rewrite Hr in E.
  destruct (result_ c') as [r'|]; [|done]. exists r'. split; [done|]. by apply (inj Some) in E.
Qed.

(** ** Voting on a set that arrived *)

Definition pend (s : TxSet_t) (xs : list (N * PeerPosition_t)) (n : N) : Prop :=
  exists p, (n, p) ∈ xs /\ their_position p = set_id s.

Lemma vote_loop s xs st r :
  holds circ (pend s xs) (pend s xs) nobody st.1 r ->
  (forall id s, acquired_ st.1 !! id = Some s -> set_id s = id /\ circulates circ s) ->
  acquired_ st.1 !! set_id s = Some s ->
  (forall n p, (n, p) ∈ xs -> currPeerPositions_ st.1 !! n = Some p) ->
  total (for_each (fun x : N * PeerPosition_t =>
           when (their_position x.2 =? set_id s)%N (updateDisputes x.1 s)) xs) st
    (fun _ st' => keeps frozen st st' /\ exists r', holds circ nobody nobody nobody st'.1 r').
Proof using All.
  revert st r. induction xs as [|[n p] xs IH]; intros st r [Hr HI] Hids Hs Hxs; cbn [for_each].
  { apply total_ret. split; [done|]. exists r. split; [done|].
    eapply RInv_weaken; [| | |exact HI]; [| |done]; intros n (p & Hp & _); by apply elem_of_nil in Hp. }
  apply total_bind. cbn [fst snd].
  assert (total (when (their_position p =? set_id s)%N (updateDisputes n s)) st (fun _ st' =>
    keeps frozen st st' /\ exists r', holds circ (pend s xs) (pend s xs) nobody st'.1 r')) as Hx.
  { unfold when. destruct (N.eqb_spec (their_position p) (set_id s)) as [Hp|Hp].
    - eapply total_mono; [eapply (updateDisputes_total circ budget n p s); [by split|done|done|apply Hxs; by left|done]|].
      intros [] st1 (F1 & r1 & Hr1 & HI1). split; [done|]. exists r1. split; [done|].
      eapply RInv_weaken; [| | |exact HI1]; [| |done]; intros m [(q & Hq & Eq) Hne];
        apply elem_of_cons in Hq as [[= -> ->]|Hq]; [done|by exists q|done|by exists q].
    - apply total_ret. split; [done|]. exists r. split; [done|].
      eapply RInv_weaken; [| | |exact HI]; [| |done]; intros m (q & Hq & Eq);
        apply elem_of_cons in Hq as [[= -> ->]|Hq]; [done|by exists q|done|by exists q]. }
  eapply total_mono; [exact Hx|]. intros [] st1 (F1 & r1 & Hh1).
  assert (acquired_ st1.1 = acquired_ st.1) as Ea by exact (frozen_acquired _ _ (kf_part _ _ _ _ F1)).
  assert (currPeerPositions_ st1.1 = currPeerPositions_ st.1) as Ec by exact (frozen_current _ _ (kf_part _ _ _ _ F1)).
  eapply total_mono; [apply (IH st1 r1); [done|by rewrite Ea..|]|].
  - intros m q Hq. rewrite Ec. apply Hxs. by right.
  - intros [] st2 (F2 & r2 & Hh2). split; [by etransitivity|]. by exists r2.
Qed.

(** An operation that only touches disputes keeps the invariant. *)
Lemma Inv_frozen c c' r' : Base c -> phase_ok c -> frozen c' = frozen c ->
  holds circ nobody nobody nobody c' r' -> Inv c'.
Proof.
  intros [Ha Hp Hrc] Hph E [Hr' HI].
  pose proof (f_equal acquired_ E : acquired_ c' = acquired_ c) as Ea.
  pose proof (f_equal currPeerPositions_ E : currPeerPositions_ c' = currPeerPositions_ c) as Ec.
  pose proof (f_equal prevLedgerID_ E : prevLedgerID_ c' = prevLedgerID_ c) as El.
  pose proof (f_equal deadNodes_ E : deadNodes_ c' = deadNodes_ c) as Ed.
  pose proof (f_equal recentPeerPositions_ E : recentPeerPositions_ c' = recentPeerPositions_ c) as Er.
  pose proof (f_equal phase_ E : phase_ c' = phase_ c) as Eph.
  split.
  - split; [by rewrite Ea|by rewrite Ec, El, Ed|by rewrite Er].
  - unfold phase_ok in *. rewrite Eph. destruct (phase_ c); [|by rewrite Hr'|done].
    apply (f_equal result_) in E. cbn in E. by rewrite Hph, Hr' in E.
  - intros r Hr0. assert (r = r') as -> by congruence. done.
Qed.

Lemma gotTxSet_total now s st :
  Inv st.1 -> circulates circ s ->
  total (gotTxSet now s) st (fun _ st' => Inv st'.1 /\ keeps settled st st').
Proof using All.
  intros [Hb Hph HI] Hs. unfold gotTxSet. steps. case_bool_decide; [by apply total_ret|]. steps.
  destruct (acquired_ st.1 !! set_id s) as [s'|] eqn:Es.
  { apply total_ret. split; [|done]. split; [destruct Hb; by split|exact Hph|exact HI]. }
  steps. set (c1 := set_acquired _ _).
  assert (Base c1) as Hb1.
  { destruct Hb as [Ha Hp Hrc]. split; cbn; [|done..].
    intros id s' [[<- <-]|[_ Hid]]%lookup_insert_Some; [done|by apply Ha]. }
  destruct (result_ st.1) as [r|] eqn:Er.
  - assert (result_ c1 = Some r) as Er1 by done.
    assert (holds circ (pend s (order (currPeerPositions_ st.1))) (pend s (order (currPeerPositions_ st.1)))
      nobody c1 r) as Hh.
    { split; [done|]. eapply RInv_weaken; [| | |exact (RInv_acquire _ _ _ _ _ _ r s (HI r eq_refl) Es)]; [| |done];
        (intros n [[]|(p & Hp & Eq)]; exists p; split; [by apply order_in|done]). }
    eapply total_mono; [apply (vote_loop s _ (c1, st.2) r Hh)|].
    + apply Hb1.
    + apply lookup_insert_eq.
    + intros n p Hn. by apply order_in in Hn.
    + intros [] st1 (F1 & r1 & Hh1). split.
      * eapply Inv_frozen; [exact Hb1| |exact (kf_part _ _ _ _ F1)|exact Hh1]. exact Hph.
      * etransitivity; [|eapply kframe_coarser; [exact settled_frozen|exact F1]]. done.
  - apply total_ret. split; [|done]. split; [done|exact Hph|]. intros r Hr. cbn in Hr. congruence.
Qed.

(** ** Proposals *)

(** What becomes of the positions when a proposal arrives: whether it is
    taken, the current positions, the nodes that bowed out. *)
Definition track c (pos : PeerPosition_t) : bool * gmap N PeerPosition_t * gset N :=
  let p := proposal pos in
  let n := nodeID p in
  if bool_decide (phase_ c = Accepted) || negb (prevLedger p =? prevLedgerID_ c)%N ||
     bool_decide (n ∈ deadNodes_ c) ||
     match currPeerPositions_ c !! n with
     | Some old => proposeSeq p <=? proposeSeq (proposal old)
     | None => false
     end
  then (false, currPeerPositions_ c, deadNodes_ c)
  else if isBowOut p then (true, delete n (currPeerPositions_ c), {[n]} ∪ deadNodes_ c)
  else (true, <[n := pos]> (currPeerPositions_ c), deadNodes_ c).

Lemma Inv_now c t : Inv c -> Inv (set_now t c).
Proof. intros [[] Hph HI]. split; [by split|exact Hph|exact HI]. Qed.

(** A node bows out. *)
Lemma Inv_bowOut c n : Inv c ->
  Inv (set_deadNodes ({[n]} ∪ deadNodes_ c) (set_currPeerPositions (delete n (currPeerPositions_ c))
         (set_result (unVoteAll n <$> result_ c) c))).
Proof.
  intros [[Ha Hp Hrc] Hph HI]. split; [split|..]; cbn; try done.
  - intros m p [Hne Hm]%lookup_delete_Some. destruct (Hp m p Hm) as (? & ? & ? & ?).
    split_and!; [done..|]. set_solver.
  - unfold phase_ok in *. cbn. destruct (phase_ c); [by rewrite Hph|by apply fmap_is_Some|done].
  - intros r (r0 & Hr & ->)%fmap_Some. by apply RInv_leave, HI.
Qed.

(** The state once a node took a position: only its votes and its comparison
    are open. *)
Lemma Base_take c n pos : Base c -> nodeID (proposal pos) = n -> prevLedger (proposal pos) = prevLedgerID_ c ->
  isBowOut (proposal pos) = false -> n ∉ deadNodes_ c ->
  Base (set_currPeerPositions (<[n := pos]> (currPeerPositions_ c)) c).
Proof.
  intros [Ha Hp Hrc] E1 E2 E3 E4. split; cbn; [done| |done].
  intros m p [[<- <-]|[_ Hm]]%lookup_insert_Some; [done|by apply Hp].
Qed.

Lemma kframe_core_settled st st' : keeps settled st st' -> keeps core st st'.
Proof. apply kframe_coarser. apply core_settled. Qed.

(** The set behind a position just taken is looked at. *)
Lemma take_total n pos now st :
  Base st.1 -> phase_ok st.1 -> phase_ st.1 <> Accepted ->
  currPeerPositions_ st.1 !! n = Some pos -> position (proposal pos) = their_position pos ->
  (forall r, result_ st.1 = Some r -> RInv circ (fun m => nobody m \/ m = n) (fun m => nobody m \/ m = n)
     nobody (acquired_ st.1) (currPeerPositions_ st.1) r) ->
  total (match acquired_ st.1 !! position (proposal pos) with
         | None =>
             s ← query (acquireTxSet (position (proposal pos)));
             match s with Some s => gotTxSet now s | None => mret () end
         | Some s =>
             match result_ st.1 with Some _ => updateDisputes n s | None => mret () end
         end) st (fun _ st' => Inv st'.1 /\ keeps settled st st').
Proof using All.
  intros Hb Hph Hacc Hn _ HI. change (position (proposal pos)) with (their_position pos).
  destruct (acquired_ st.1 !! their_position pos) as [s|] eqn:Es.
  - destruct (i_acq _ Hb _ _ Es) as [Hs Hc]. destruct (result_ st.1) as [r|] eqn:Er.
    + eapply total_mono; [apply (updateDisputes_total circ budget n pos s _ _ st r (conj Er (HI r eq_refl))
        (i_acq _ Hb)); [by rewrite Hs|done|done]|].
      intros [] st1 (F1 & r1 & Hr1 & HI1). split; [|eapply kframe_coarser; [exact settled_frozen|exact F1]].
      eapply (Inv_frozen st.1 st1.1 r1); [done..|exact (kf_part _ _ _ _ F1)|]. split; [done|].
      eapply RInv_weaken; [| | |exact HI1]; [| |done]; by intros m [[[]| ->] Hne].
    + apply total_ret. split; [|done]. split; [done..|]. intros r Hr. congruence.
  - assert (Inv st.1) as Hi.
    { split; [done..|]. intros r Hr. by apply (RInv_absent _ _ _ _ _ _ _ n pos (HI r Hr)). }
    steps. destruct (ask _ _) as [o a] eqn:Ea. cbn [fst snd].
    pose proof (ask_budget _ (acquireTxSet (their_position pos)) st.2.1) as Hbu. rewrite Ea in Hbu. cbn in Hbu.
    assert (keeps settled st (st.1, (a, st.2.2))) as F by (by split).
    destruct o as [s|]; [|by apply total_ret].
    destruct (acquireTxSet_ok (their_position pos) st.2.1 s) as [Hs Hc]; [by rewrite Ea|].
    eapply total_mono; [by apply gotTxSet_total|]. intros [] st1 [Hi1 F1]. split; [done|].
    by etransitivity.
Qed.

Lemma peerProposalInternal_total now pos st :
  Inv st.1 ->
  total (peerProposalInternal now pos) st (fun b st' =>
    Inv st'.1 /\ keeps core st st' /\ (b, currPeerPositions_ st'.1, deadNodes_ st'.1) = track st.1 pos).
Proof using All.
  intros Hi. unfold peerProposalInternal, track. steps.
  case_bool_decide as Hacc; cbn [orb]; [by apply total_ret|]. steps.
  pose proof (Inv_now _ now Hi) as Hi1. destruct (N.eqb_spec (prevLedger (proposal pos)) (prevLedgerID_ st.1)) as [Hl|Hl];
    cbn [negb orb]; [|by apply total_ret].
  destruct (decide (nodeID (proposal pos) ∈ deadNodes_ st.1)) as [Hd|Hd];
    [rewrite bool_decide_true by done|rewrite bool_decide_false by done]; cbn [orb]; [by apply total_ret|].
  destruct (match currPeerPositions_ st.1 !! _ with Some _ => _ | None => _ end) eqn:Eo; [by apply total_ret|].
  destruct (isBowOut (proposal pos)) eqn:Eb.
  { steps. split_and!; [by apply (Inv_bowOut (set_now now st.1))| |done].
    split; [|done..]. cbn. unfold core, settled, frozen. cbn. by destruct (result_ st.1). }
  steps. apply total_bind.
  set (c1 := set_currPeerPositions _ _).
  assert (exists c2, total (when (isInitial (proposal pos)) (modify (set_rawCloseTimes (mkCloseTimes
    (increment (prop_closeTime (proposal pos)) (peers (rawCloseTimes_ st.1))) (self_time (rawCloseTimes_ st.1))))))
      (c1, st.2) (fun _ st' => st' = (c2, st.2)) /\ (c2 = c1 \/ exists m, c2 = set_rawCloseTimes (mkCloseTimes m (self_time (rawCloseTimes_ st.1))) c1))
    as (c2 & Hw & Hc2).
  { unfold when. destruct (isInitial _); eexists; (split; [by steps|]); eauto. }
  eapply total_mono; [exact Hw|]. intros [] ? ->. apply total_bind.
  destruct Hi1 as [Hb1 Hph1 HR1].
  assert (core c2 = core st.1 /\ acquired_ c2 = acquired_ st.1 /\ result_ c2 = result_ st.1 /\ phase_ c2 = phase_ st.1 /\
    currPeerPositions_ c2 = <[nodeID (proposal pos) := pos]> (currPeerPositions_ st.1) /\ deadNodes_ c2 = deadNodes_ st.1 /\
    Base c2) as (E1 & E2 & E3 & E4 & E5 & E6 & Hb2).
  { assert (Base c1) as Hb by (by apply (Base_take (set_now now st.1))).
    destruct Hc2 as [->|[m ->]]; [done|]. split_and!; try done. destruct Hb. by split. }
  rewrite <-E2, <-E3. eapply total_mono; [apply (take_total (nodeID (proposal pos)) pos now (c2, st.2)); cbn [fst snd]|].
  - done.
  - unfold phase_ok. rewrite E4, E3. exact Hph1.
  - by rewrite E4.
  - rewrite E5. apply lookup_insert_eq.
  - done.
  - intros r Hr. rewrite E2, E5. apply RInv_take. apply HR1. by rewrite E3 in Hr.
  - cbn [fst snd]. intros [] st3 [Hi3 F3]. apply total_ret. split_and!; [done| |].
    + etransitivity; [|by apply kframe_core_settled]. by split.
    + rewrite (f_equal currPeerPositions_ (kf_part _ _ _ _ F3) : currPeerPositions_ st3.1 = currPeerPositions_ c2).
      rewrite (f_equal deadNodes_ (kf_part _ _ _ _ F3) : deadNodes_ st3.1 = deadNodes_ c2). by rewrite E5, E6.
Qed.

Lemma peerProposal_total now pos st :
  Inv st.1 ->
  total (peerProposal now pos) st (fun b st' =>
    Inv st'.1 /\ keeps (fun c => set_recentPeerPositions ∅ (core c)) st st' /\
    (b, currPeerPositions_ st'.1, deadNodes_ st'.1) = track st.1 pos).
Proof using All.
  intros [[Ha Hp Hrc] Hph HI]. unfold peerProposal. steps. set (c1 := set_recentPeerPositions _ _).
  assert (Inv c1) as Hi1.
  { split; [split|exact Hph|exact HI]; [done..|]. unfold c1. cbn [recentPeerPositions_ set_recentPeerPositions].
    intros n ps [[<- <-]|[_ Hn]]%lookup_insert_Some; [|by apply Hrc].
    set (props := default [] _).
    assert ((length props <= 10)%nat /\ Forall (fun p => nodeID (proposal p) = nodeID (proposal pos)) props) as [Hl Hf].
    { subst props. destruct (recentPeerPositions_ st.1 !! _) as [ps|] eqn:E; [by apply (Hrc _ _ E)|]. cbn. split; [lia|done]. }
    rewrite Forall_app, Forall_singleton, length_app. cbn [length].
    destruct (Nat.leb_spec 10 (length props)) as [Hle|Hlt]; [|split; [lia|done]].
    destruct props as [|p props]; cbn in *; [lia|]. inversion Hf; subst. split; [lia|done]. }
  eapply total_mono; [by apply peerProposalInternal_total|]. cbn [fst snd]. intros b st' (Hi & F & Et).
  split_and!; [done| |done]. etransitivity; [|eapply kframe_coarser; [|exact F]]; [by split|].
  by intros c c' ->.
Qed.

Lemma playback_one_total pos st : Inv st.1 ->
  total (playback_one pos) st (fun _ st' => Inv st'.1 /\ keeps core st st').
Proof using All.
  intros Hi. unfold playback_one. steps. unfold when. destruct (_ =? _)%N; [|by apply total_ret].
  apply total_bind. eapply total_mono; [by apply peerProposalInternal_total|]. intros b st1 (Hi1 & F1 & _).
  destruct b; [|by apply total_ret]. steps. split; [done|]. etransitivity; [exact F1|].
  split; cbn; [done|apply tell_budget|by rewrite filter_app, app_nil_r].
Qed.

Lemma playbackProposals_total st : Inv st.1 ->
  total playbackProposals st (fun _ st' => Inv st'.1 /\ keeps core st st').
Proof using All.
  intros Hi. unfold playbackProposals. steps.
  apply (total_for_each _ (fun _ => True) (fun st' => Inv st'.1 /\ keeps core st st')); [|by apply Forall_true|done].
  intros [n ps] st1 _ [Hi1 F1]. cbn [snd].
  eapply total_mono; [apply (total_for_each _ (fun _ => True) (fun st' => Inv st'.1 /\ keeps core st st'));
    [|by apply Forall_true|done]|done].
  intros pos st2 _ [Hi2 F2]. eapply total_mono; [by apply playback_one_total|].
  intros [] st3 [Hi3 F3]. split; [done|]. by etransitivity.
Qed.
End messages.
