(* ===== verification/ConsensusPosition.v ===== *)
(** * Our own position

    Closing the ledger, reconsidering our votes and close time, and leaving a
    round (Consensus.h): what these operations do to our position, and that
    the set we propose keeps agreeing with our votes. *)

From S2P Require Import Prelude StateMonad Serializer LedgerHeader Consensus ConsensusTypes ConsensusState ConsensusRound ConsensusLaws ConsensusDisputes.
Open Scope Z_scope.

Section pure.
Context {A : Type} `{TL : TraitsLaws} `{!RoundAdaptor A} `{HashOrder}.
Context (circ : option (gmap N Tx_t)).
Implicit Types (c : Consensus) (r : ConsensusResult) (d : DisputedTx Tx_t).
Implicit Types (acq : gmap N TxSet_t) (cur : gmap N PeerPosition_t).

(** ** Stale positions *)

Lemma increment_lookup t k m : default 0 (increment k m !! t) = default 0 (m !! t) + (if decide (k = t) then 1 else 0).
Proof.
  unfold increment. destruct (decide (k = t)) as [->|Hne].
  - rewrite lookup_insert_eq. cbn. done.
  - rewrite lookup_insert_ne by done. lia.
Qed.

(** How many of the positions name a close time that rounds to [t]. *)
Definition count_times c (t : Z) (xs : list (N * PeerPosition_t)) : Z :=
  Z.of_nat (length (filter (fun x => asCloseTime c (prop_closeTime (proposal x.2)) = t) xs)).
Definition fresh (cutoff : Z) (x : N * PeerPosition_t) : Prop := isStale (proposal x.2) cutoff = false.
#[export] Instance fresh_dec cutoff x : Decision (fresh cutoff x).
Proof. unfold fresh. apply _. Defined.

Lemma freshen_spec c cutoff pv pc pi acq r xs ds cur votes :
  RInv circ pv pc pi acq cur (set_disputes ds r) ->
  (forall n p, (n, p) ∈ xs -> nodeID (proposal p) = n) ->
  let '(ds', cur', votes') := foldl (freshen c cutoff) (ds, cur, votes) xs in
  RInv circ pv pc pi acq cur' (set_disputes ds' r) /\
  (forall n p, cur' !! n = Some p <-> cur !! n = Some p /\ forall q, (n, q) ∈ xs -> fresh cutoff (n, q)) /\
  (forall t, default 0 (votes' !! t) = default 0 (votes !! t) + count_times c t (filter (fresh cutoff) xs)).
Proof.
  revert ds cur votes. induction xs as [|[n p] xs IH]; intros ds cur votes HI Hn; cbn [foldl].
  { split_and!; [done| |intros t; unfold count_times; cbn; lia].
    intros m q. split; [|naive_solver]. intros Hm. split; [done|]. intros q' Hq. by apply elem_of_nil in Hq. }
  unfold freshen at 2. cbn [snd fst]. rewrite filter_cons.
  destruct (isStale (proposal p) cutoff) eqn:Es; destruct (decide (fresh cutoff (n, p))) as [Hf|Hf];
    [by unfold fresh in Hf; cbn in Hf; congruence| | |done].
  - rewrite (Hn n p) by (by left).
    specialize (IH ((fun d => unVote d n) <$> ds) (delete n cur) votes).
    destruct (foldl _ _ xs) as [[ds' cur'] votes']. destruct IH as (I1 & I2 & I3).
    { exact (RInv_leave _ _ _ _ _ _ _ n HI). }
    { intros m q Hm. apply Hn. by right. }
    split_and!; [done| |done]. intros m q. rewrite I2. split.
    + intros [[Hne Hm]%lookup_delete_Some Hq]. split; [done|]. intros q' [[= -> ->]|Hq']%elem_of_cons; [done|by apply Hq].
    + intros [Hm Hq]. assert (n <> m) as Hne.
      { intros ->. specialize (Hq p ltac:(by left)). unfold fresh in Hq. cbn in Hq. congruence. }
      split; [by rewrite lookup_delete_ne|]. intros q' Hq'. apply Hq. by right.
  - specialize (IH ds cur (increment (asCloseTime c (prop_closeTime (proposal p))) votes) HI).
    destruct (foldl _ _ xs) as [[ds' cur'] votes']. destruct IH as (I1 & I2 & I3).
    { intros m q Hm. apply Hn. by right. }
    split_and!; [done| |].
    + intros m q. rewrite I2. split; intros [Hm Hq]; (split; [done|]); intros q' Hq'.
      * apply elem_of_cons in Hq' as [[= -> ->]|Hq']; [done|by apply Hq].
      * apply Hq. by right.
    + intros t. rewrite I3, increment_lookup. unfold count_times. rewrite (filter_cons _ (n, p)). cbn [snd].
      destruct (decide (asCloseTime c _ = t)); cbn [length]; lia.
Qed.

(** ** Votes *)

Lemma updateVote_changed d t b p :
  (updateVote d t b p).1 = negb (Bool.eqb (ourVote_ (updateVote d t b p).2) (ourVote_ d)).
Proof.
  unfold updateVote. destruct (_ && _); [by rewrite eqb_reflx|]. destruct (_ && _); [by rewrite eqb_reflx|].
  destruct (getNeededWeight _ _ _ _ _) as [? []]; case_bool_decide as E; cbn; rewrite ?eqb_reflx; try done;
    by destruct (if b then _ else _), (ourVote_ d).
Qed.

(** The set under construction. *)
Definition edited (s : TxSet_t) (m : option MutableTxSet) : gmap N Tx_t :=
  match m with Some m => mcontents m | None => contents s end.

(** Reconsidered, dispute by dispute. *)
Definition revoted c d : DisputedTx Tx_t := (updateVote d (convergePercent_ c) (proposing c) parms).2.

Lemma revote_spec c s xs ds m :
  NoDup xs.*1 ->
  (forall k d, (k, d) ∈ xs -> tx_id (tx_ d) = k /\ ourVote_ d = bool_decide (is_Some (edited s m !! k))) ->
  let '(ds', m') := foldl (revote c s) (ds, m) xs in
  (forall k d, (k, d) ∈ xs -> ds' !! k = Some (revoted c d) /\
     ourVote_ (revoted c d) = bool_decide (is_Some (edited s m' !! k)) /\
     (edited s m' !! k = edited s m !! k \/ edited s m' !! k = None \/ edited s m' !! k = Some (tx_ d))) /\
  (forall k, k ∉ xs.*1 -> ds' !! k = ds !! k /\ edited s m' !! k = edited s m !! k) /\
  (m' = None -> m = None).
Proof.
  revert ds m. induction xs as [|[k d] xs IH]; intros ds m Hnd Hxs; cbn [foldl].
  { split_and!; [|done..]. intros k d Hk. by apply elem_of_nil in Hk. }
  cbn in Hnd. apply NoDup_cons in Hnd as [Hk Hnd]. destruct (Hxs k d) as [Hid Hv]; [by left|].
  unfold revote at 2. cbn [fst snd]. pose proof (updateVote_changed d (convergePercent_ c) (proposing c) parms) as Hch.
  pose proof (updateVote_tx d (convergePercent_ c) (proposing c) parms) as Htx.
  fold (revoted c d) in Hch, Htx.
  destruct (updateVote d _ _ _) as [b d'] eqn:Eu. assert (revoted c d = d') as Ed by (unfold revoted; by rewrite Eu).
  rewrite Ed in *. cbn [fst] in Hch.
  set (m1 := if b then Some _ else m).
  assert (ourVote_ d' = bool_decide (is_Some (edited s m1 !! k)) /\
    (edited s m1 !! k = edited s m !! k \/ edited s m1 !! k = None \/ edited s m1 !! k = Some (tx_ d)) /\
    (forall k', k' <> k -> edited s m1 !! k' = edited s m !! k') /\ (m1 = None -> m = None)) as (H1 & H2 & H3 & H4).
  { subst m1. destruct b; [|split_and!; auto; rewrite <-Hv; by destruct (ourVote_ d'), (ourVote_ d)].
    assert (mcontents (default (mutable_of s) m) = edited s m) as Em.
    { destruct m; cbn; [done|]. apply mutable_of_spec. }
    destruct (ourVote_ d') eqn:Ev'; cbn [edited].
    - destruct (ourVote_ d) eqn:Ev; [done|]. symmetry in Hv. apply bool_decide_eq_false in Hv.
      rewrite mset_insert_spec, Htx, Hid, Em. destruct (edited s m !! k) eqn:Ek; [exfalso; eauto|].
      rewrite lookup_insert_eq. split_and!; [done|by auto| |done]. intros k' Hne. by rewrite lookup_insert_ne.
    - rewrite mset_erase_spec, Em, lookup_delete_eq. split_and!; [done|by auto| |done].
      intros k' Hne. by rewrite lookup_delete_ne. }
  specialize (IH (<[k := d']> ds) m1 Hnd). destruct (foldl _ _ xs) as [ds' m'].
  destruct IH as (I1 & I2 & I3).
  { intros k' d0 Hk'. assert (k' <> k) as Hne by (intros ->; apply Hk, list_elem_of_fmap; by exists (k, d0)).
    rewrite H3 by done. apply Hxs. by right. }
  destruct (I2 k Hk) as [J1 J2]. split_and!; [| |by auto].
  - intros k' d0 [[= -> ->]|Hk']%elem_of_cons.
    + rewrite Ed, J1, J2, lookup_insert_eq. auto.
    + assert (k' <> k) as Hne by (intros ->; apply Hk, list_elem_of_fmap; by exists (k, d0)).
      destruct (I1 k' d0 Hk') as (K1 & K2 & K3). by rewrite H3 in K3.
  - intros k' Hk'. cbn in Hk'. apply not_elem_of_cons in Hk' as [Hne Hk']. destruct (I2 k' Hk') as [K1 K2].
    rewrite K1, K2, H3, lookup_insert_ne by done. auto.
Qed.

(** The set and the votes change together. *)
Lemma RInv_adopt pv pc pi acq cur r ds' s' p' :
  RInv circ pv pc pi acq cur r ->
  (forall k d', ds' !! k = Some d' -> exists d, disputes r !! k = Some d /\ tx_ d' = tx_ d /\
     votes_ d' = votes_ d /\ tallied d' /\ ourVote_ d' = set_exists k s') ->
  (forall k, is_Some (disputes r !! k) -> is_Some (ds' !! k)) ->
  (forall k, disputes r !! k = None -> contents s' !! k = contents (txns r) !! k) ->
  circulates circ s' -> is_Some (acq !! set_id s') ->
  position p' = set_id s' -> 0 <= proposeSeq p' < 2 ^ 32 ->
  RInv circ pv pc pi acq cur (set_position p' (set_txns s' (set_disputes ds' r))).
Proof.
  intros [Hp Hsq Hc Ho Hd Hvr Hv Hcd Hcs Hcm] Hds Hdom Hsame Hc' Ho' Hp' Hs'. split; cbn; try done.
  - intros k d' Hk. destruct (Hds k d' Hk) as (d & Hk' & E1 & E2 & E3 & E4).
    destruct (Hd k d Hk') as (? & ? & ? & ?). rewrite E1. auto.
  - intros k d' n v Hk Hn. destruct (Hds k d' Hk) as (d & Hk' & E1 & E2 & E3 & E4). rewrite E2 in Hn.
    by apply (Hvr k d n v).
  - intros k d' n p s Hpv Hk Hn Hs. destruct (Hds k d' Hk) as (d & Hk' & E1 & E2 & E3 & E4). rewrite E2.
    by apply (Hv k d n p s).
  - intros id s k Hpi Hcc Hid Hs Hne. apply Hdom. destruct (disputes r !! k) eqn:Ek; [done|].
    rewrite Hsame in Hne by done. specialize (Hcm id s k Hpi Hcc Hid Hs Hne). by rewrite Ek in Hcm.
Qed.

(** ** The close time *)

Lemma pickCloseTime_spec C xs thr t0 h0 :
  (h0 = true -> C <= thr) ->
  let '(thr', t, h) := foldl (pickCloseTime C) (thr, t0, h0) xs in
  thr <= thr' /\ (forall x, x ∈ xs -> x.2 <= thr') /\
  ((thr', t, h) = (thr, t0, h0) /\ (forall x, x ∈ xs -> x.2 < thr) \/
   (t, thr') ∈ xs /\ h = bool_decide (C <= thr')).
Proof.
  revert thr t0 h0. induction xs as [|[k v] xs IH]; intros thr t0 h0 Hh; cbn [foldl].
  { split_and!; [lia|by intros ? ?%elem_of_nil|]. left. split; [done|]. by intros ? ?%elem_of_nil. }
  unfold pickCloseTime at 2. cbn [snd fst]. destruct (Z.leb_spec thr v) as [Hle|Hlt].
  - specialize (IH v k (h0 || (C <=? v))). destruct (foldl _ _ xs) as [[thr' t] h].
    destruct IH as (I1 & I2 & I3).
    { intros [E|E]%orb_prop; [specialize (Hh E); lia|by apply Z.leb_le]. }
    split_and!; [lia|intros x [->|Hx]%elem_of_cons; [done|by apply I2]|]. right.
    destruct I3 as [[[= -> -> ->] I3]|[I3 I4]]; [|split; [by right|done]]. split; [by left|].
    case_bool_decide as E.
    + destruct h0; [done|]. by apply Z.leb_le.
    + apply orb_false_iff. split; [|by apply Z.leb_gt; lia]. destruct h0; [|done]. specialize (Hh eq_refl). lia.
  - specialize (IH thr t0 h0 Hh). destruct (foldl _ _ xs) as [[thr' t] h]. destruct IH as (I1 & I2 & I3).
    split_and!; [done|intros x [->|Hx]%elem_of_cons; [cbn; lia|by apply I2]|].
    destruct I3 as [[E I3]|[I3 I4]]; [left; split; [done|]|right; split; [by right|done]].
    intros x [->|Hx]%elem_of_cons; [done|by apply I3].
Qed.

Lemma in_order_elem m x : x ∈ in_order m <-> m !! x.1 = Some x.2.
Proof. destruct x. unfold in_order. by rewrite merge_sort_Permutation, elem_of_map_to_list. Qed.

(** The votes on the close time, ours included, and how many can vote. *)
Definition time_votes c r (votes : gmap Z Z) : gmap Z Z :=
  if proposing c then increment (asCloseTime c (prop_closeTime (our_position r))) votes else votes.
Definition participants c : Z := numPositions c + self (proposing c).
(** The time agreed on and whether there is consensus on it. *)
Definition agreed c r (votes : gmap Z Z) : Z * bool :=
  if bool_decide (currPeerPositions_ c = ∅) then (asCloseTime c (prop_closeTime (our_position r)), true)
  else
    let needed := (getNeededWeight parms (closeTimeAvalancheState_ c) (convergePercent_ c) 0 0).1 in
    let '(_, t, have) := foldl (pickCloseTime (participantsNeeded (participants c) (avCtConsensusPct parms)))
      (participantsNeeded (participants c) needed, 0, false) (in_order (time_votes c r votes)) in
    (t, have).

Lemma agreed_sound c r votes : (agreed c r votes).2 = true ->
  currPeerPositions_ c = ∅ /\ (agreed c r votes).1 = asCloseTime c (prop_closeTime (our_position r)) \/
  participantsNeeded (participants c) (avCtConsensusPct parms) <=
    default 0 (time_votes c r votes !! (agreed c r votes).1).
Proof.
  unfold agreed. case_bool_decide; [by left|]. intros Hh. right.
  pose proof (pickCloseTime_spec (participantsNeeded (participants c) (avCtConsensusPct parms))
    (in_order (time_votes c r votes)) (participantsNeeded (participants c)
      (getNeededWeight parms (closeTimeAvalancheState_ c) (convergePercent_ c) 0 0).1) 0 false ltac:(done)) as Hp.
  destruct (foldl _ _ _) as [[thr t] h]. cbn [fst snd] in *. subst h.
  destruct Hp as (_ & _ & [[E _]|[Hin Hb]]); [discriminate E|]. apply in_order_elem in Hin. cbn in Hin. rewrite Hin. cbn.
  symmetry in Hb. by apply bool_decide_eq_true in Hb.
Qed.
End pure.

(** ** Operations *)

(** The state outside of positions, disputes and the close time. *)
Definition posed `{Traits} (c : Consensus) : Consensus :=
  set_result None (set_haveCloseTimeConsensus false (set_closeTimeAvalancheState Init
    (set_currPeerPositions ∅ (set_peerUnchangedCounter 0 (set_acquired ∅ (set_now 0 c)))))).

Section ops.
Context {A : Type} `{TL : TraitsLaws} `{!RoundAdaptor A} `{HashOrder}.
Context (circ : option (gmap N Tx_t)) (budget : A -> nat) `{RL : !RoundLaws A circ budget}.
Implicit Types (st : Consensus * (A * list Event)) (c : Consensus) (r : ConsensusResult).
Abbreviation Inv := (Inv circ).
Abbreviation Base := (Base circ).
Abbreviation RInv0 := (RInv circ nobody nobody nobody).

(** From [st], the part [f] of the state becomes that of [c1] and the outside
    is told [evs]. *)
Record told (f : Consensus -> Consensus) st c1 (evs : list Event) st' : Prop := {
  to_part : f st'.1 = f c1;
  to_budget : (budget st'.2.1 <= budget st.2.1)%nat;
  to_main : filter main st'.2.2 = filter main st.2.2 ++ evs
}.

Lemma told_kframe f st st' : kframe budget f st st' -> told f st st.1 [] st'.
Proof. intros [E1 E2 E3]. split; [done..|]. by rewrite app_nil_r. Qed.
Lemma told_trans f st c1 evs st1 c2 evs' st2 :
  told f st c1 evs st1 -> told f st1 c2 evs' st2 -> told f st c2 (evs ++ evs') st2.
Proof. intros [E1 E2 E3] [E4 E5 E6]. split; [done|lia|]. by rewrite E6, E3, app_assoc. Qed.
Lemma told_coarser f g st c1 evs st' : (forall c c', f c' = f c -> g c' = g c) ->
  told f st c1 evs st' -> told g st c1 evs st'.
Proof. intros Hfg []. split; auto. Qed.

(** *** Leaving *)

Definition bowed c r : ConsensusResult :=
  if isBowOut (our_position r) then r else set_position (bowOut (our_position r) (now_ c)) r.
Definition left_round c : Consensus :=
  if proposing c then set_mode Observing (set_result (bowed c <$> result_ c) c) else c.
Definition leave_events c : list Event :=
  if proposing c then
    (match result_ c with
     | Some r => if isBowOut (our_position r) then [] else [Propose (bowOut (our_position r) (now_ c))]
     | None => []
     end) ++ [OnModeChange Proposing Observing]
  else [].

Lemma leaveConsensus_total st :
  total leaveConsensus st (fun _ st' => told (fun c => c) st (left_round st.1) (leave_events st.1) st').
Proof using All.
  unfold leaveConsensus, left_round, leave_events. steps. unfold when.
  destruct (proposing st.1) eqn:Ep; [|apply total_ret; split; [done..|]; by rewrite app_nil_r].
  assert (mode_ st.1 = Proposing) as Em by (unfold proposing in Ep; by apply bool_decide_eq_true in Ep).
  apply total_bind. unfold bowed. destruct (result_ st.1) as [r|] eqn:Er; cbn [fmap option_fmap option_map].
  - destruct (isBowOut (our_position r)) eqn:Eb.
    + apply total_ret. unfold setMode. steps. split; cbn [fst snd].
      * rewrite <-Er. by destruct st.1.
      * apply tell_budget.
      * by rewrite filter_app, Em.
    + steps. unfold setMode. steps. split; cbn [fst snd]; [done| |].
      * etransitivity; apply tell_budget.
      * rewrite !filter_app, <-app_assoc. cbn. by rewrite Em.
  - apply total_ret. unfold setMode. steps. split; cbn [fst snd].
    + rewrite <-Er. by destruct st.1.
    + apply tell_budget.
    + by rewrite filter_app, Em.
Qed.

Lemma Inv_left c : Inv c -> Inv (left_round c) /\ mode_ (left_round c) <> Proposing.
Proof.
  intros [[Ha Hp Hrc] Hph HI]. unfold left_round, proposing. case_bool_decide as Em; [|done]. split; [|done].
  split; [by split| |].
  - unfold phase_ok in *. cbn. destruct (phase_ c); [by rewrite Hph|by apply fmap_is_Some|done].
  - cbn. intros r' (r & Hr & ->)%fmap_Some. specialize (HI r Hr). unfold bowed. destruct (isBowOut _); [done|].
    destruct HI. split; try done; cbn; unfold kSeqLeave; lia.
Qed.

(** *** Adopting a position *)

Lemma settled_posed c c' : settled c' = settled c -> posed c' = posed c.
Proof. intros E. exact (f_equal posed E). Qed.

Lemma adopt_vote s xs st r :
  Base st.1 -> phase_ok st.1 -> result_ st.1 = Some r ->
  RInv circ (pend s xs) (pend s xs) nobody (acquired_ st.1) (currPeerPositions_ st.1) r ->
  acquired_ st.1 !! set_id s = Some s -> (forall n p, (n, p) ∈ xs -> currPeerPositions_ st.1 !! n = Some p) ->
  total (for_each (fun x : N * PeerPosition_t =>
           when (their_position x.2 =? set_id s)%N (updateDisputes x.1 s)) xs) st
    (fun _ st' => Inv st'.1 /\ kframe budget frozen st st').
Proof using All.
  intros Hb Hph Hr HI Hs Hxs.
  eapply total_mono; [apply (vote_loop circ budget s xs st r (conj Hr HI) (i_acq _ _ Hb) Hs Hxs)|].
  intros [] st1 (F1 & r1 & Hh1). split; [|done].
  exact (Inv_frozen circ st.1 st1.1 r1 Hb Hph (kf_part _ _ _ _ F1) Hh1).
Qed.

(** Disputes and set change as in [RInv_adopt]. *)
Record adoptable (r r1 : ConsensusResult) (s : TxSet_t) : Prop := {
  ad_core : set_disputes ∅ r1 = set_disputes ∅ r;
  ad_disputes : forall k d', disputes r1 !! k = Some d' -> exists d, disputes r !! k = Some d /\ tx_ d' = tx_ d /\
     votes_ d' = votes_ d /\ tallied d' /\ ourVote_ d' = set_exists k s;
  ad_dom : forall k, is_Some (disputes r !! k) -> is_Some (disputes r1 !! k);
  ad_same : forall k, disputes r !! k = None -> contents s !! k = contents (txns r) !! k;
  ad_circ : circulates circ s
}.

Lemma adoptable_RInv pv pc pi acq cur r r1 s p :
  adoptable r r1 s -> RInv circ pv pc pi acq cur r -> is_Some (acq !! set_id s) ->
  position p = set_id s -> 0 <= proposeSeq p < 2 ^ 32 ->
  RInv circ pv pc pi acq cur (set_position p (set_txns s r1)).
Proof.
  intros [E Hd Hdom Hs Hc] HI Ho Hp Hsq.
  replace (set_position p (set_txns s r1)) with (set_position p (set_txns s (set_disputes (disputes r1) r))).
  - by apply RInv_adopt.
  - destruct r, r1. cbn in *. by injection E as -> -> -> -> -> ->.
Qed.

Lemma changePosition_seq p id t now : 0 <= proposeSeq p < 2 ^ 32 -> 0 <= proposeSeq (changePosition p id t now) < 2 ^ 32.
Proof. intros Hp. cbn. destruct (_ =? _); [done|]. apply Z.mod_pos_bound. lia. Qed.

Lemma adoptPosition_total s t st r r1 :
  Base st.1 -> phase_ok st.1 -> result_ st.1 = Some r1 -> adoptable r r1 s ->
  RInv0 (acquired_ st.1) (currPeerPositions_ st.1) r ->
  let p := changePosition (our_position r) (set_id s) t (now_ st.1) in
  total (adoptPosition s t) st (fun _ st' => Inv st'.1 /\
    told settled st (set_result (Some (set_position p (set_txns s r1))) st.1)
      (if negb (isBowOut p) && proposing st.1 then [Propose p] else []) st').
Proof using All.
  intros Hb Hph Hr1 Had HI p. unfold adoptPosition. steps.
  assert (our_position r1 = our_position r) as Ep by exact (f_equal our_position (ad_core _ _ _ Had)).
  rewrite Ep. fold p. set (r2 := set_position p (set_txns s r1)). set (c1 := set_result (Some r2) st.1).
  assert (0 <= proposeSeq p < 2 ^ 32) as Hsq by (apply changePosition_seq; by eapply r_seq).
  eapply (total_get_result r2); [done|]. apply total_bind.
  assert (total (match acquired_ st.1 !! set_id s with
    | Some _ => mret ()
    | None =>
        _ ← modify (set_acquired (<[set_id s := s]> (acquired_ st.1)));
        _ ← when (negb (isBowOut (our_position r2))) (notify (ShareTxSet s));
        for_each (fun x : N * PeerPosition_t => when (their_position x.2 =? set_id s)%N (updateDisputes x.1 s))
          (order (currPeerPositions_ st.1)) end) (c1, st.2)
    (fun _ st' => Inv st'.1 /\ kframe budget settled (c1, st.2) st')) as Hm.
  { destruct (acquired_ st.1 !! set_id s) as [s0|] eqn:Es.
    - apply total_ret. split; [|done]. split; [destruct Hb; by split| |].
      + unfold phase_ok in *. cbn. destruct (phase_ st.1); [congruence|done|done].
      + cbn. intros r' [= <-]. apply (adoptable_RInv _ _ _ _ _ r r1 s p Had HI); [by rewrite Es|done|done].
    - steps. set (c2 := set_acquired _ c1). apply total_bind.
      assert (exists e, total (when (negb (isBowOut (our_position r2))) (notify (ShareTxSet s))) (c2, st.2)
        (fun _ st' => st' = (c2, e)) /\ (budget e.1 <= budget st.2.1)%nat /\ filter main e.2 = filter main st.2.2)
        as (e & Hw & He1 & He2).
      { unfold when. destruct (negb _); eexists; (split; [by steps|]); [|done].
        split; [apply tell_budget|]. cbn. by rewrite filter_app, app_nil_r. }
      eapply total_mono; [exact Hw|]. intros [] ? ->.
      eapply total_mono; [apply (adopt_vote s _ (c2, e) r2)|].
      + destruct Hb as [Ha Hp Hrc]. split; [|done..]. cbn. intros id s0 [[<- <-]|[_ Hid]]%lookup_insert_Some; [|by apply Ha].
        split; [done|by eapply ad_circ].
      + unfold phase_ok in *. cbn. destruct (phase_ st.1); [congruence|done|done].
      + done.
      + cbn. apply (adoptable_RInv _ _ _ _ _ r r1 s p Had); [|by rewrite lookup_insert_eq|done|done].
        eapply RInv_weaken; [| | |exact (RInv_acquire _ _ _ _ _ _ r s HI Es)]; [| |done];
          (intros n [[]|(q & Hq & Eq)]; exists q; split; [by apply order_in|done]).
      + apply lookup_insert_eq.
      + intros n q Hq. by apply order_in in Hq.
      + intros [] st2 [Hi2 F2]. split; [done|]. etransitivity; [|eapply kframe_coarser; [exact settled_frozen|exact F2]].
        by split. }
  eapply total_mono; [exact Hm|]. cbn [fst snd]. intros [] st2 [Hi2 [F2 B2 M2]].
  destruct (settled_result _ _ r2 F2 eq_refl) as (r3 & Hr3 & E3).
  eapply (total_get_result r3); [done|].
  rewrite (f_equal our_position E3 : our_position r3 = p). unfold when.
  destruct (negb (isBowOut p) && proposing st.1); steps; (split; [done|]).
  - split; cbn [fst snd]; [done|etransitivity; [apply tell_budget|done]|]. by rewrite filter_app, M2.
  - split; [done..|]. by rewrite app_nil_r.
Qed.

(** *** Reconsidering *)

Lemma closeTimeConsensus_total votes r st :
  total (closeTimeConsensus votes r) st (fun x st' =>
    x = agreed st.1 r votes /\ st'.2 = st.2 /\ exists av, st'.1 = set_closeTimeAvalancheState av st.1).
Proof.
  assert (set_closeTimeAvalancheState (closeTimeAvalancheState_ st.1) st.1 = st.1) as Es by (by destruct st.1).
  unfold closeTimeConsensus, agreed, time_votes, participants. steps. case_bool_decide as Ee.
  { apply total_ret. split_and!; [done..|]. by exists (closeTimeAvalancheState_ st.1). }
  destruct (getNeededWeight _ _ _ _ _) as [w ns]. cbn [fst].
  assert (forall c' : Consensus * (A * list Event), (let '(votes0, participants) :=
      if proposing st.1 then (increment (asCloseTime st.1 (prop_closeTime (our_position r))) votes, numPositions st.1 + 1)
      else (votes, numPositions st.1) in
    let '(_, t, have) := foldl (pickCloseTime (participantsNeeded participants (avCtConsensusPct parms)))
      (participantsNeeded participants w, 0, false) (in_order votes0) in mret (t, have) : ST _ _) c' =
    Ok ((let '(_, t, have) := foldl (pickCloseTime (participantsNeeded (numPositions st.1 + self (proposing st.1)) (avCtConsensusPct parms)))
      (participantsNeeded (numPositions st.1 + self (proposing st.1)) w, 0, false)
      (in_order (if proposing st.1 then increment (asCloseTime st.1 (prop_closeTime (our_position r))) votes else votes)) in (t, have)),
      c')) as Hpure.
  { intros c'. destruct (proposing st.1); cbn [self]; rewrite ?Z.add_0_r; by destruct (foldl _ _ _) as [[? ?] ?]. }
  apply total_bind. destruct ns as [s|]; steps; unfold total; rewrite Hpure; (split_and!; [done..|]); eauto.
Qed.

(** The votes after the disputes have been reconsidered. *)
Lemma revote_adoptable c r ds m acq cur :
  RInv0 acq cur r ->
  foldl (revote c (txns r)) (disputes r, None) (order (disputes r)) = (ds, m) ->
  let s := match m with Some m => set_of m | None => txns r end in
  adoptable r (set_disputes ds r) s.
Proof using All.
  intros HI Ef s.
  pose proof (revote_spec c (txns r) (order (disputes r)) (disputes r) None (order_nodup _)) as Hs.
  rewrite Ef in Hs. destruct Hs as (R1 & R2 & _).
  { intros k d Hk. apply order_in in Hk. cbn in Hk. destruct (r_dispute _ _ _ _ _ _ _ HI k d Hk) as (H1 & _ & H3 & _).
    split; [done|]. by rewrite H3, exists_spec. }
  assert (edited (txns r) m = contents s) as Em by (subst s; destruct m; cbn; [by rewrite set_of_spec|done]).
  rewrite Em in *. cbn [edited] in *.
  assert (forall k, disputes r !! k = None -> k ∉ (order (disputes r)).*1) as Hno.
  { intros k Hk ([k' d] & -> & Hin)%list_elem_of_fmap. apply order_in in Hin. cbn in *. congruence. }
  split; cbn; [done| | | |].
  - intros k d' Hk. destruct (disputes r !! k) as [d|] eqn:Ek.
    + destruct (R1 k d) as (E1 & E2 & _); [by apply order_in|]. rewrite E1 in Hk. injection Hk as <-. exists d.
      destruct (updateVote_votes d (convergePercent_ c) (proposing c) parms) as (V1 & V2 & V3).
      destruct (r_dispute _ _ _ _ _ _ _ HI k d Ek) as (_ & [T1 T2] & _).
      split_and!; [done|apply updateVote_tx|exact V1| |by rewrite E2, exists_spec].
      unfold tallied, revoted. by rewrite V1, V2, V3.
    + destruct (R2 k) as [E1 _]; [by apply Hno|]. congruence.
  - intros k [d Hk]. destruct (R1 k d) as (E1 & _); [by apply order_in|]. by rewrite E1.
  - intros k Hk. by apply R2, Hno.
  - intros U HU. destruct (r_circ _ _ _ _ _ _ _ HI U HU) as [Hsub Hsz]. split; [|done].
    apply map_subseteq_spec. intros k x Hx. destruct (disputes r !! k) as [d|] eqn:Ek.
    + destruct (R1 k d) as (_ & _ & [E|[E|E]]); [by apply order_in|..]; rewrite E in Hx; [|done|].
      * by eapply lookup_weaken.
      * injection Hx as <-. by apply (r_dispute _ _ _ _ _ _ _ HI k d Ek).
    + destruct (R2 k) as [_ E]; [by apply Hno|]. rewrite E in Hx. by eapply lookup_weaken.
Qed.

(** Nobody votes against us on a set all share. *)
Lemma unanimous_votes acq cur r k d : RInv0 acq cur r ->
  (forall n p, cur !! n = Some p -> their_position p = position (our_position r)) ->
  (forall id s, acq !! id = Some s -> set_id s = id) -> disputes r !! k = Some d ->
  count_votes (negb (ourVote_ d)) (votes_ d) = 0.
Proof.
  intros HI Hall Hids Hk. destruct (r_own _ _ _ _ _ _ _ HI) as [s Hs]. pose proof (set_id_inj _ _ (Hids _ _ Hs)) as Ec.
  unfold count_votes. enough (filter (fun x : N * bool => x.2 = negb (ourVote_ d)) (votes_ d) = ∅) as ->
    by (by rewrite map_size_empty).
  apply map_empty. intros n. apply map_lookup_filter_None. right. intros v Hv. cbn.
  destruct (r_voters _ _ _ _ _ _ _ HI k d n v Hk Hv) as [p Hp].
  assert (acq !! their_position p = Some s) as Hp' by (by rewrite (Hall n p Hp), (r_pos _ _ _ _ _ _ _ HI)).
  pose proof (r_votes _ _ _ _ _ _ _ HI k d n p s ltac:(tauto) Hk Hp Hp') as Hv'.
  destruct (r_dispute _ _ _ _ _ _ _ HI k d Hk) as (_ & _ & Ho & _).
  rewrite !exists_spec in *. rewrite Ec in Hv'. rewrite Hv in Hv'. injection Hv' as ->. rewrite Ho. by destruct (bool_decide _).
Qed.

Lemma unanimous_unmoved c acq cur r : RInv0 acq cur r ->
  (forall n p, cur !! n = Some p -> their_position p = position (our_position r)) ->
  (forall id s, acq !! id = Some s -> set_id s = id) ->
  (foldl (revote c (txns r)) (disputes r, None) (order (disputes r))).2 = None.
Proof.
  intros HI Hall Hids.
  assert (forall k d, (k, d) ∈ order (disputes r) -> (updateVote d (convergePercent_ c) (proposing c) parms).1 = false) as Hu.
  { intros k d Hk. apply order_in in Hk. cbn in Hk. pose proof (unanimous_votes _ _ _ _ _ HI Hall Hids Hk) as Hz.
    destruct (r_dispute _ _ _ _ _ _ _ HI k d Hk) as (_ & [T1 T2] & _).
    unfold updateVote. rewrite T1, T2. by destruct (ourVote_ d); cbn [negb] in Hz; rewrite Hz. }
  generalize (disputes r) at 1. revert Hu. generalize (order (disputes r)).
  intros xs. induction xs as [|[k d] xs IH]; intros Hu ds; [done|].
  cbn [foldl]. unfold revote at 2. cbn [fst snd]. specialize (Hu k d ltac:(by left)) as Hd.
  destruct (updateVote d _ _ _) as [b d']. cbn in Hd. subst b. apply IH. intros k' d0 Hk'. apply (Hu k'). by right.
Qed.

(** The state in which the close time is decided. *)
Definition freshened c (cutoff : Z) : Consensus :=
  set_currPeerPositions (filter (fresh cutoff) (currPeerPositions_ c)) c.

(** What [updateOurPositions] leaves: the new close time is agreed from the
    fresh positions, and our position either stays or moves on by one. *)
Record reconsidered st r st' r' : Prop := {
  re_result : result_ st'.1 = Some r';
  re_rest : (roundTime r', state r', proposers r') = (roundTime r, state r, proposers r);
  re_peers : currPeerPositions_ st'.1 =
    filter (fresh (u32 (now_ st.1 - proposeFRESHNESS parms))) (currPeerPositions_ st.1);
  re_still : (forall n p, currPeerPositions_ st'.1 !! n = Some p -> their_position p = position (our_position r)) ->
    txns r' = txns r;
  re_time : exists votes,
    (forall t, default 0 (votes !! t) = count_times st.1 t (map_to_list (currPeerPositions_ st'.1))) /\
    let c1 := freshened st.1 (u32 (now_ st.1 - proposeFRESHNESS parms)) in
    haveCloseTimeConsensus_ st'.1 = (agreed c1 r votes).2 /\
    ((our_position r' = our_position r /\ txns r' = txns r /\
      (agreed c1 r votes).1 = asCloseTime st.1 (prop_closeTime (our_position r)) /\
      told posed st st.1 [] st') \/
     (our_position r' = changePosition (our_position r) (set_id (txns r')) (agreed c1 r votes).1 (now_ st.1) /\
      told posed st st.1 (if negb (isBowOut (our_position r')) && proposing st.1
                          then [Propose (our_position r')] else []) st'))
}.

Lemma count_times_perm c t xs ys : xs ≡ₚ ys -> count_times c t xs = count_times c t ys.
Proof. intros E. unfold count_times. by rewrite E. Qed.

(** The positions that are left, and the count of their close times. *)
Lemma freshen_all c cutoff r :
  Base c -> RInv0 (acquired_ c) (currPeerPositions_ c) r ->
  exists ds votes,
    foldl (freshen c cutoff) (disputes r, currPeerPositions_ c, ∅) (order (currPeerPositions_ c)) =
      (ds, filter (fresh cutoff) (currPeerPositions_ c), votes) /\
    RInv0 (acquired_ c) (filter (fresh cutoff) (currPeerPositions_ c)) (set_disputes ds r) /\
    (forall t, default 0 (votes !! t) =
       count_times c t (map_to_list (filter (fresh cutoff) (currPeerPositions_ c)))).
Proof using All.
  intros Hb HI.
  pose proof (freshen_spec circ c cutoff nobody nobody nobody (acquired_ c) r (order (currPeerPositions_ c))
    (disputes r) (currPeerPositions_ c) ∅) as Hs.
  destruct (foldl _ _ _) as [[ds cur] votes]. destruct Hs as (I1 & I2 & I3).
  { assert (set_disputes (disputes r) r = r) as -> by (by destruct r). done. }
  { intros n p Hn. apply order_in in Hn. by apply (i_peers _ _ Hb) in Hn as []. }
  assert (cur = filter (fresh cutoff) (currPeerPositions_ c)) as ->.
  { apply map_eq. intros n. apply option_eq. intros p. rewrite I2, map_lookup_filter_Some. split.
    - intros [Hn Hq]. split; [done|]. apply Hq. by apply order_in.
    - intros [Hn Hf]. split; [done|]. intros q Hq. apply order_in in Hq. cbn in Hq. by assert (q = p) as -> by congruence. }
  exists ds, votes. split_and!; [done..|]. intros t. rewrite I3. cbn. apply count_times_perm.
  rewrite (order_perm (currPeerPositions_ c)). apply NoDup_Permutation.
  - apply NoDup_filter, NoDup_map_to_list.
  - apply NoDup_map_to_list.
  - intros [n p]. rewrite list_elem_of_filter, !elem_of_map_to_list, map_lookup_filter_Some. tauto.
Qed.

Lemma updateOurPositions_total st r :
  Inv st.1 -> result_ st.1 = Some r ->
  total updateOurPositions st (fun _ st' => Inv st'.1 /\ exists r', reconsidered st r st' r').
Proof using All.
  intros [Hb Hph HI] Hr. specialize (HI r Hr). unfold updateOurPositions. steps.
  set (cutoff := u32 (now_ st.1 - proposeFRESHNESS parms)).
  destruct (freshen_all st.1 cutoff r Hb HI) as (ds & votes & -> & HI1 & Hvotes).
  destruct (foldl (revote _ _) _ _) as [ds' m] eqn:Erv.
  set (r1 := set_disputes ds r) in *. set (s := match m with Some m => set_of m | None => txns r end).
  pose proof (revote_adoptable st.1 r1 ds' m _ _ HI1 Erv) as Had. fold s in Had.
  assert ((forall n p, filter (fresh cutoff) (currPeerPositions_ st.1) !! n = Some p ->
    their_position p = position (our_position r)) -> s = txns r) as Hstill.
  { intros Hall. pose proof (unanimous_unmoved st.1 _ _ _ HI1 Hall) as Hm. change (disputes r1) with ds in Hm.
    change (txns r1) with (txns r) in Hm. rewrite Erv in Hm. cbn in Hm. unfold s. rewrite Hm; [done|].
    intros id s0 Hid. by apply (i_acq _ _ Hb). }
  steps. apply total_bind.
  set (c1 := set_haveCloseTimeConsensus false _).
  eapply total_mono; [apply closeTimeConsensus_total|]. cbn [fst snd]. intros x st2 (-> & E2 & av & Ec2).
  destruct st2 as [c2 e2]. cbn in E2, Ec2. subst e2 c2.
  assert (agreed c1 r votes = agreed (freshened st.1 cutoff) r votes) as -> by done.
  destruct (agreed (freshened st.1 cutoff) r votes) as [t have] eqn:Eag. cbn [fst snd]. steps.
  set (c3 := set_haveCloseTimeConsensus have _).
  assert (Base c3 /\ phase_ok c3 /\ result_ c3 = Some (set_disputes ds' r)) as (Hb3 & Hph3 & Hr3).
  { split_and!; [|unfold phase_ok in *; rewrite Hr in Hph; cbn; by destruct (phase_ st.1)|done].
    destruct Hb as [Ha Hp Hrc]. split; [done| |done].
    cbn. intros n p [Hn _]%map_lookup_filter_Some. by apply Hp. }
  assert (adoptable r1 (set_disputes ds' r) s) as Had' by exact Had.
  set (ourNewSet := match m with Some m => Some (set_of m) | None => _ end).
  destruct ourNewSet as [s'|] eqn:En.
  - assert (s' = s) as ->.
    { subst ourNewSet s. destruct m; [by injection En|]. by destruct (_ || _); [injection En|]. }
    eapply total_mono; [apply (adoptPosition_total s t (c3, st.2) r1 (set_disputes ds' r) Hb3 Hph3 Hr3 Had' HI1)|].
    cbn [fst snd]. intros [] st4 [Hi4 F4]. split; [done|].
    destruct (settled_result _ _ _ (to_part _ _ _ _ _ F4) eq_refl) as (r4 & Hr4 & E4).
    assert (our_position r4 = changePosition (our_position r) (set_id s) t (now_ st.1)) as Ep
      by exact (f_equal our_position E4).
    assert (txns r4 = s) as Es by exact (f_equal txns E4).
    exists r4. split; [done| | | |].
    + exact (f_equal (fun r => (roundTime r, state r, proposers r)) E4).
    + exact (f_equal currPeerPositions_ (to_part _ _ _ _ _ F4)).
    + rewrite (f_equal currPeerPositions_ (to_part _ _ _ _ _ F4) : currPeerPositions_ st4.1 = currPeerPositions_ c3).
      rewrite Es. exact Hstill.
    + exists votes. rewrite (f_equal currPeerPositions_ (to_part _ _ _ _ _ F4) : currPeerPositions_ st4.1 = currPeerPositions_ c3).
      split; [done|]. fold cutoff. cbv zeta. rewrite Eag. cbn [fst snd].
      split; [exact (f_equal haveCloseTimeConsensus_ (to_part _ _ _ _ _ F4))|]. right. rewrite Es. split; [done|].
      rewrite Ep. destruct F4 as [F4 B4 M4]. split; [|done..]. exact (settled_posed _ _ F4).
  - assert (m = None /\ t = asCloseTime st.1 (prop_closeTime (our_position r))) as [-> ->].
    { subst ourNewSet. destruct m; [done|]. destruct (Z.eqb_spec t (asCloseTime st.1 (prop_closeTime (our_position r))));
        [done|by cbn in En]. }
    apply total_ret. cbn [fst snd]. assert (RInv0 (acquired_ st.1) (filter (fresh cutoff) (currPeerPositions_ st.1)) (set_disputes ds' r)) as HI3.
    { pose proof (adoptable_RInv _ _ _ _ _ r1 (set_disputes ds' r) s (our_position r) Had' HI1) as Hx.
      assert (set_position (our_position r) (set_txns s (set_disputes ds' r)) = set_disputes ds' r) as E by done.
      rewrite E in Hx. apply Hx; apply HI. }
    split; [split; [done..|]; cbn; by intros r' [= <-]|].
    exists (set_disputes ds' r). split; [done..|]. exists votes. split; [done|]. fold cutoff. cbv zeta. rewrite Eag.
    cbn [fst snd]. split; [done|]. left. split_and!; [done..|]. split; [done..|]. by rewrite app_nil_r.
Qed.

(** *** Closing *)

Lemma compare_loop xs st r :
  holds circ nobody (fun n => n ∈ xs.*1) nobody st.1 r ->
  (forall id s, acquired_ st.1 !! id = Some s -> set_id s = id /\ circulates circ s) ->
  (forall n p, (n, p) ∈ xs -> currPeerPositions_ st.1 !! n = Some p) ->
  total (for_each (fun x : N * PeerPosition_t =>
    c ← get;
    match acquired_ c !! their_position x.2 with Some s => createDisputes s | None => mret () end) xs) st
    (fun _ st' => kframe budget frozen st st' /\ exists r', holds circ nobody nobody nobody st'.1 r').
Proof using All.
  revert st r. induction xs as [|[n p] xs IH]; intros st r [Hr HI] Hids Hxs; cbn [for_each].
  { apply total_ret. split; [done|]. exists r. split; [done|].
    eapply RInv_weaken; [| | |exact HI]; [done| |done]. intros m Hm. by apply elem_of_nil in Hm. }
  apply total_bind. steps. pose proof (Hxs n p ltac:(by left)) as Hn.
  assert (total (match acquired_ st.1 !! their_position p with Some s => createDisputes s | None => mret () end) st
    (fun _ st' => kframe budget frozen st st' /\ exists r', holds circ nobody (fun m => m ∈ xs.*1) nobody st'.1 r')) as Hx.
  { destruct (acquired_ st.1 !! their_position p) as [s|] eqn:Es.
    - destruct (Hids _ _ Es) as [Eid _].
      eapply total_mono; [apply (createDisputes_total circ budget s _ _ st r (conj Hr HI) Hids); by rewrite Eid|].
      intros [] st1 (F1 & r1 & [Hr1 HI1] & _). split; [done|]. exists r1. split; [done|].
      eapply RInv_weaken; [| | |exact HI1]; [done| |done]. cbn. intros m [[->|Hm]%elem_of_cons Hq]; [|done].
      exfalso. by apply (Hq p).
    - apply total_ret. split; [done|]. exists r. split; [done|]. destruct HI. split; try done.
      intros m q Hpc Hm Hs. apply (r_compared m q); [|done..]. cbn. intros [->|?]%elem_of_cons; [|done].
      destruct Hs as [s Hs]. congruence. }
  eapply total_mono; [exact Hx|]. intros [] st1 (F1 & r1 & Hh1).
  assert (acquired_ st1.1 = acquired_ st.1) as Ea by exact (frozen_acquired _ _ (kf_part _ _ _ _ F1)).
  assert (currPeerPositions_ st1.1 = currPeerPositions_ st.1) as Ec by exact (frozen_current _ _ (kf_part _ _ _ _ F1)).
  eapply total_mono; [apply (IH st1 r1); [done|by rewrite Ea|]|].
  - intros m q Hq. rewrite Ec. apply Hxs. by right.
  - intros [] st2 (F2 & r2 & Hh2). split; [by etransitivity|]. by exists r2.
Qed.

(** A position just taken, before it is compared with others. *)
Lemma RInv_new acq cur s p t :
  circulates circ s -> position p = set_id s -> 0 <= proposeSeq p < 2 ^ 32 -> is_Some (acq !! set_id s) ->
  RInv circ nobody (fun n => n ∈ (order cur).*1) nobody acq cur (set_roundTime t (newResult s p)).
Proof.
  intros Hc Hp Hsq Ho. split; cbn; try done. intros n q Hpc Hn. exfalso. apply Hpc, list_elem_of_fmap.
  exists (n, q). split; [done|by apply order_in].
Qed.

(** Where closing leads: our position is the one the adaptor made, and is
    proposed if we propose. *)
Definition closing c : Consensus :=
  set_establishCounter 0 (set_rawCloseTimes (mkCloseTimes (peers (rawCloseTimes_ c)) (now_ c)) (set_phase Establish c)).
Record closed st st' r' : Prop := {
  cl_result : result_ st'.1 = Some r';
  cl_new : (state r', read (roundTime r'), proposers r') = (No, 0, 0);
  cl_made : (txns r', our_position r') = (ask (onClose (previousLedger_ st.1) (now_ st.1) (mode_ st.1)) st.2.1).1;
  cl_peers : currPeerPositions_ st'.1 = currPeerPositions_ st.1;
  cl_told : told posed st (closing st.1) (if proposing st.1 then [Propose (our_position r')] else []) st'
}.

Lemma closeLedger_total st :
  Base st.1 -> total closeLedger st (fun _ st' => Inv st'.1 /\ phase_ st'.1 = Establish /\ exists r', closed st st' r').
Proof using All.
  intros Hb. unfold closeLedger. steps.
  pose proof (ask_budget _ (onClose (previousLedger_ st.1) (now_ st.1) (mode_ st.1)) st.2.1) as B1.
  destruct (ask (onClose _ _ _) st.2.1) as [[s p] a1] eqn:Ea. cbn [fst snd] in *. steps.
  pose proof (ask_budget _ clockNow a1) as B2. destruct (ask clockNow a1) as [t a2]. cbn [fst snd] in *.
  destruct (onClose_ok (previousLedger_ st.1) (now_ st.1) (mode_ st.1) st.2.1 s p) as (Hp & Hc & Hsq); [by rewrite Ea|].
  set (r0 := set_roundTime (reset t) (newResult s p)). set (c1 := set_result (Some r0) _). apply total_bind.
  assert (total (match acquired_ st.1 !! set_id s with
    | Some _ => mret ()
    | None => _ ← modify (set_acquired (<[set_id s := s]> (acquired_ st.1))); notify (ShareTxSet s) end)
    (c1, (a2, st.2.2)) (fun _ st' => exists acq, st'.1 = set_acquired acq c1 /\ is_Some (acq !! set_id s) /\
      (forall id s, acq !! id = Some s -> set_id s = id /\ circulates circ s) /\
      (budget st'.2.1 <= budget a2)%nat /\ filter main st'.2.2 = filter main st.2.2)) as Hm.
  { destruct (acquired_ st.1 !! set_id s) as [s0|] eqn:Es.
    - apply total_ret. exists (acquired_ st.1). split_and!; [done|by rewrite Es|apply Hb|done..].
    - steps. eexists. split_and!; [done|by rewrite lookup_insert_eq| |apply tell_budget|by rewrite filter_app, app_nil_r].
      intros id s0 [[<- <-]|[_ Hid]]%lookup_insert_Some; [done|by apply Hb]. }
  eapply total_mono; [exact Hm|]. cbn [fst snd]. intros [] [c2 [a3 lg3]] (acq & E & Hown & Hids & B3 & M3).
  cbn [fst snd] in *. subst c2. apply total_bind.
  assert (exists e, total (when (proposing (set_phase Establish st.1)) (notify (Propose p))) (set_acquired acq c1, (a3, lg3))
    (fun _ st' => st' = (set_acquired acq c1, e)) /\ (budget e.1 <= budget a3)%nat /\
    filter main e.2 = filter main st.2.2 ++ (if proposing st.1 then [Propose p] else [])) as (e & Hw & B4 & M4).
  { unfold when. change (proposing (set_phase Establish st.1)) with (proposing st.1).
    destruct (proposing st.1); eexists; (split; [by steps|]); cbn [fst snd].
    - split; [apply tell_budget|]. by rewrite filter_app, M3.
    - split; [done|]. by rewrite app_nil_r. }
  eapply total_mono; [exact Hw|]. intros [] ? ->.
  eapply total_mono; [apply (compare_loop _ (set_acquired acq c1, e) r0)|].
  - split; [done|]. by apply RInv_new.
  - done.
  - intros n q Hq. by apply order_in in Hq.
  - intros [] st5 (F5 & r5 & Hh5). assert (Base (set_acquired acq c1)) as Hb5 by (destruct Hb; by split).
    pose proof (kf_part _ _ _ _ F5) as E5. destruct (frozen_result _ _ r0 E5 eq_refl) as (r5' & Hr5 & Er5).
    assert (r5' = r5) as -> by (destruct Hh5; congruence).
    split_and!; [apply (Inv_frozen circ _ _ r5 Hb5); [by exists r0|done..]|exact (f_equal phase_ E5)|].
    exists r5. split; [done| | |exact (f_equal currPeerPositions_ E5)|].
    + exact (f_equal (fun r => (state r, read (roundTime r), proposers r)) Er5).
    + rewrite Ea. exact (f_equal (fun r => (txns r, our_position r)) Er5).
    + assert (our_position r5 = p) as -> by exact (f_equal our_position Er5). destruct F5 as [_ B5 M5].
      split; [exact (f_equal posed E5)|cbn in *; lia|]. by rewrite M5.
Qed.
End ops.
