(* ===== verification/ConsensusRun.v ===== *)
(** * Phases and rounds

    The operations that drive a round (Consensus.h): the open and the
    establish phase, the check of the previous ledger, the timer and the start
    of a round.  They keep the invariant of the state and of what the outside
    was told, and return. *)

From S2P Require Import Prelude StateMonad Serializer LedgerHeader Consensus ConsensusTypes ConsensusState ConsensusRound ConsensusLaws ConsensusDisputes ConsensusPosition.
Open Scope Z_scope.

(** ** What the outside was told *)

Section log.
Context `{T : Traits}.
Implicit Types (lg evs : list Event) (c : Consensus) (r : ConsensusResult).

Definition proposals lg : list ConsensusProposal :=
  omap (fun e => match e with Propose p => Some p | _ => None end) lg.
Definition accepts lg : list ConsensusResult :=
  omap (fun e => match e with OnAccept r _ _ _ _ _ | OnForceAccept r _ _ _ _ => Some r | _ => None end) lg.

Lemma proposals_main lg : proposals (filter main lg) = proposals lg.
Proof. unfold proposals. induction lg as [|e lg IH]; [done|]. rewrite filter_cons. by destruct e; cbn; rewrite <-IH. Qed.
Lemma accepts_main lg : accepts (filter main lg) = accepts lg.
Proof. unfold accepts. induction lg as [|e lg IH]; [done|]. rewrite filter_cons. by destruct e; cbn; rewrite <-IH. Qed.
Lemma proposals_told lg lg' evs : filter main lg' = filter main lg ++ evs -> proposals lg' = proposals lg ++ proposals evs.
Proof. intros E. rewrite <-(proposals_main lg'), E. unfold proposals. rewrite omap_app. f_equal. apply proposals_main. Qed.
Lemma accepts_told lg lg' evs : filter main lg' = filter main lg ++ evs -> accepts lg' = accepts lg ++ accepts evs.
Proof. intros E. rewrite <-(accepts_main lg'), E. unfold accepts. rewrite omap_app. f_equal. apply accepts_main. Qed.

(** Sequence numbers of our proposals increase, while we propose the last one
    is our position, and a round is accepted once. *)
Record LInv c lg : Prop := {
  l_range : Forall (fun p => 0 <= proposeSeq p < 2 ^ 32) (proposals lg);
  l_sorted : StronglySorted Z.lt (proposeSeq <$> proposals lg);
  l_proposing : mode_ c = Proposing ->
    match result_ c with
    | None => proposals lg = []
    | Some r => Forall (fun p => proposeSeq p <= proposeSeq (our_position r)) (proposals lg) /\
                (isBowOut (our_position r) = false -> last (proposals lg) = Some (our_position r))
    end;
  l_once : (length (accepts lg) <= 1)%nat;
  l_none : phase_ c <> Accepted -> accepts lg = []
}.

Lemma sorted_snoc_lt (l : list Z) x : StronglySorted Z.lt l -> Forall (fun y => y < x) l -> StronglySorted Z.lt (l ++ [x]).
Proof.
  induction 1 as [|y l Hs IH Hy]; intros Hx; cbn; [repeat constructor|]. inversion Hx; subst.
  constructor; [by apply IH|]. apply Forall_app. split; [done|]. by constructor.
Qed.

(** A new proposal with a larger number is sent. *)
Lemma LInv_propose c c' lg lg' r p :
  LInv c lg -> proposals lg' = proposals lg ++ [p] -> accepts lg' = accepts lg ->
  phase_ c' = phase_ c \/ phase_ c <> Accepted ->
  Forall (fun q => proposeSeq q < proposeSeq p) (proposals lg) -> 0 <= proposeSeq p < 2 ^ 32 ->
  (mode_ c' = Proposing -> result_ c' = Some r /\ our_position r = p) -> LInv c' lg'.
Proof.
  intros [H1 H2 H3 H4 H5] Ep Ea Hph Hlt Hp Hm. split; rewrite ?Ep, ?Ea.
  - apply Forall_app. split; [done|by constructor].
  - rewrite fmap_app. apply sorted_snoc_lt; [done|]. by apply Forall_fmap.
  - intros Em. destruct (Hm Em) as [-> ->]. split; [|by rewrite last_snoc].
    apply Forall_app. split; [|by constructor]. eapply Forall_impl; [exact Hlt|]. cbn. lia.
  - done.
  - intros Hacc. apply H5. destruct Hph; congruence.
Qed.

(** Nothing is sent. *)
Lemma LInv_quiet c c' lg lg' :
  LInv c lg -> proposals lg' = proposals lg -> accepts lg' = accepts lg ->
  phase_ c' = phase_ c \/ phase_ c <> Accepted ->
  (mode_ c' = Proposing -> mode_ c = Proposing /\
     (our_position <$> result_ c' = our_position <$> result_ c \/
      exists r r', result_ c = Some r /\ result_ c' = Some r' /\
        proposeSeq (our_position r) <= proposeSeq (our_position r') /\ isBowOut (our_position r') = true)) ->
  LInv c' lg'.
Proof.
  intros [H1 H2 H3 H4 H5] Ep Ea Hph Hm. split; rewrite ?Ep, ?Ea; try done.
  - intros Em. destruct (Hm Em) as [Em' [E|(r & r' & Er & Er' & Hle & Hb)]]; specialize (H3 Em').
    + destruct (result_ c) as [r|], (result_ c') as [r'|]; cbn in E; try done. by injection E as ->.
    + rewrite Er in H3. rewrite Er'. destruct H3 as [H3 _]. split; [|congruence].
      eapply Forall_impl; [exact H3|]. cbn. lia.
  - intros Hacc. apply H5. destruct Hph; congruence.
Qed.
End log.

(** ** The invariant of a round *)

Section run.
Context {A : Type} `{TL : TraitsLaws} `{!RoundAdaptor A} `{HashOrder}.
Context (circ : option (gmap N Tx_t)) (budget : A -> nat) `{RL : !RoundLaws A circ budget}.
Implicit Types (st : Consensus * (A * list Event)) (c : Consensus) (r : ConsensusResult).
Abbreviation Inv := (Inv circ).
Abbreviation Base := (Base circ).
Abbreviation told := (told budget).

(** Working from another ledger than the one known to be right is noticed. *)
Definition ledger_ok c : Prop := lgr_id (previousLedger_ c) <> prevLedgerID_ c -> mode_ c = WrongLedger.

Record Full st : Prop := {
  f_inv : Inv st.1;
  f_log : LInv st.1 st.2.2;
  f_ledger : ledger_ok st.1
}.

(** Operations that leave the mode, our position and the phase alone. *)
Lemma Full_kframe f st st' :
  Full st -> Inv st'.1 -> kframe budget f st st' ->
  (forall c, mode_ (f c) = mode_ c /\ phase_ (f c) = phase_ c /\ previousLedger_ (f c) = previousLedger_ c /\
     prevLedgerID_ (f c) = prevLedgerID_ c /\ our_position <$> result_ (f c) = our_position <$> result_ c) ->
  Full st'.
Proof.
  intros [Hi Hl Hg] Hi' [E _ Hm] Hf.
  destruct (Hf st.1) as (F1 & F2 & F3 & F4 & F5), (Hf st'.1) as (G1 & G2 & G3 & G4 & G5). rewrite E in *.
  assert (filter main st'.2.2 = filter main st.2.2 ++ []) as Hm' by (by rewrite app_nil_r).
  split; [done| |unfold ledger_ok in *; by rewrite <-G1, <-G3, <-G4, F1, F3, F4].
  apply (LInv_quiet st.1 _ st.2.2); [done|by rewrite (proposals_told _ _ _ Hm'), app_nil_r|
    by rewrite (accepts_told _ _ _ Hm'), app_nil_r|left; congruence|].
  intros Em. split; [congruence|]. left. congruence.
Qed.

Lemma core_view c : mode_ (core c) = mode_ c /\ phase_ (core c) = phase_ c /\
  previousLedger_ (core c) = previousLedger_ c /\ prevLedgerID_ (core c) = prevLedgerID_ c /\
  our_position <$> result_ (core c) = our_position <$> result_ c.
Proof. split_and!; try done. cbn. by destruct (result_ c). Qed.

(** *** Reconsidering our position *)

Lemma posed_mode c c' : posed c' = posed c -> mode_ c' = mode_ c.
Proof. intros E. exact (f_equal mode_ E). Qed.

Lemma Full_reconsidered st r st' r' :
  Full st -> result_ st.1 = Some r -> Inv st'.1 -> reconsidered budget st r st' r' -> phase_ st.1 <> Accepted -> Full st'.
Proof.
  intros [Hi Hl Hg] Hr Hi' [Hr' Hrest _ _ (votes & _ & _ & Hpos)] Hph.
  assert (posed st'.1 = posed st.1 /\ exists evs, filter main st'.2.2 = filter main st.2.2 ++ evs /\
    (our_position r' = our_position r /\ evs = [] \/
     exists id t, our_position r' = changePosition (our_position r) id t (now_ st.1) /\
       evs = if negb (isBowOut (our_position r')) && proposing st.1 then [Propose (our_position r')] else []))
    as [E (evs & Hm & Hcase)].
  { destruct Hpos as [(E & _ & _ & [F _ M])|(E & [F _ M])]; (split; [done|]); eexists; split; eauto 10. }
  assert (mode_ st'.1 = mode_ st.1 /\ phase_ st'.1 = phase_ st.1) as [Em Ep]
    by (split; [exact (f_equal mode_ E)|exact (f_equal phase_ E)]).
  split; [done| |].
  - pose proof (proposals_told _ _ _ Hm) as P1. pose proof (accepts_told _ _ _ Hm) as P2.
    destruct Hcase as [[Eq ->]|(id & t & Eq & ->)].
    { cbn in P1, P2. rewrite app_nil_r in P1, P2. apply (LInv_quiet st.1 _ st.2.2); auto. intros Em'.
      split; [congruence|]. left. rewrite Hr, Hr'. cbn. by rewrite Eq. }
    destruct (proposing st.1) eqn:Epr.
    + assert (mode_ st.1 = Proposing) as Em' by (unfold proposing in Epr; by apply bool_decide_eq_true in Epr).
      pose proof (l_proposing _ _ Hl Em') as Hlp. rewrite Hr in Hlp. destruct Hlp as [Hle Hlast].
      pose proof (r_seq _ _ _ _ _ _ _ (i_result _ _ Hi r Hr)) as Hsq.
      assert (proposeSeq (our_position r) <= proposeSeq (our_position r') /\ 0 <= proposeSeq (our_position r') < 2 ^ 32 /\
        (isBowOut (our_position r') = false -> proposeSeq (our_position r) < proposeSeq (our_position r'))) as (S1 & S2 & S3).
      { rewrite Eq. split; [|split].
        - cbn. destruct (Z.eqb_spec (proposeSeq (our_position r)) kSeqLeave); [lia|]. unfold kSeqLeave, u32 in *.
          rewrite Z.mod_small by lia. lia.
        - by apply changePosition_seq.
        - unfold isBowOut. cbn. destruct (Z.eqb_spec (proposeSeq (our_position r)) kSeqLeave) as [E0|E0];
            [by rewrite E0|]. unfold kSeqLeave, u32 in *. rewrite Z.mod_small by lia. lia. }
      destruct (isBowOut (our_position r')) eqn:Eb; cbn in P1, P2; rewrite ?app_nil_r in *.
      * apply (LInv_quiet st.1 _ st.2.2); auto. intros _. split; [done|]. right. exists r, r'. auto.
      * apply (LInv_propose st.1 _ st.2.2 _ r' (our_position r')); auto.
        eapply Forall_impl; [exact Hle|]. cbn. intros q Hq. specialize (S3 eq_refl). lia.
    + rewrite andb_false_r in *. cbn in P1, P2. rewrite app_nil_r in P1, P2.
      apply (LInv_quiet st.1 _ st.2.2); auto. intros Em'. exfalso.
      unfold proposing in Epr. apply bool_decide_eq_false in Epr. congruence.
  - unfold ledger_ok in *. rewrite Em. rewrite (f_equal previousLedger_ E : previousLedger_ st'.1 = previousLedger_ st.1).
    by rewrite (f_equal prevLedgerID_ E : prevLedgerID_ st'.1 = prevLedgerID_ st.1).
Qed.

(** *** Leaving the round *)

Lemma Full_left st st' :
  Full st -> told (fun c => c) st (left_round st.1) (leave_events st.1) st' -> Full st' /\ mode_ st'.1 <> Proposing.
Proof.
  intros [Hi Hl Hg] [E _ Hm]. destruct (Inv_left circ _ Hi) as [Hi' Hmode]. rewrite <-E in Hi', Hmode.
  split; [|done]. pose proof (proposals_told _ _ _ Hm) as P1. pose proof (accepts_told _ _ _ Hm) as P2.
  unfold leave_events, left_round in *. destruct (proposing st.1) eqn:Epr.
  - assert (mode_ st.1 = Proposing) as Em by (unfold proposing in Epr; by apply bool_decide_eq_true in Epr).
    split; [done| |].
    + destruct (result_ st.1) as [r|] eqn:Er; [destruct (isBowOut (our_position r)) eqn:Eb|];
        cbn in P1, P2; rewrite ?app_nil_r in *.
      * apply (LInv_quiet st.1 _ st.2.2); auto; [left; by rewrite E|done].
      * pose proof (l_proposing _ _ Hl Em) as Hlp. rewrite Er in Hlp. destruct Hlp as [Hle _].
        pose proof (r_seq _ _ _ _ _ _ _ (i_result _ _ Hi r Er)) as Hsq.
        apply (LInv_propose st.1 _ st.2.2 _ r (bowOut (our_position r) (now_ st.1))); auto; [left; by rewrite E| | |done].
        -- eapply Forall_impl; [exact Hle|]. cbn. unfold isBowOut, kSeqLeave in *. apply Z.eqb_neq in Eb. lia.
        -- cbn. unfold kSeqLeave. lia.
      * apply (LInv_quiet st.1 _ st.2.2); auto; [left; by rewrite E|done].
    + unfold ledger_ok in *. rewrite E. cbn. intros Hne. specialize (Hg Hne). congruence.
  - cbn in P1, P2. rewrite app_nil_r in P1, P2. split; [done| |by rewrite E].
    apply (LInv_quiet st.1 _ st.2.2); auto; [left; by rewrite E|]. intros Em'. done.
Qed.

(** *** Closing the ledger *)

Lemma Full_closed st st' r' :
  Full st -> phase_ st.1 = Open -> Inv st'.1 -> phase_ st'.1 = Establish -> closed budget st st' r' -> Full st'.
Proof.
  intros [Hi Hl Hg] Hph Hi' Hph' [Hr' _ Hmade _ [E _ Hm]].
  assert (result_ st.1 = None) as Hr by (pose proof (i_phase _ _ Hi) as Hp; unfold phase_ok in Hp; by rewrite Hph in Hp).
  assert (mode_ st'.1 = mode_ st.1) as Em by exact (f_equal mode_ E).
  split; [done| |].
  - pose proof (proposals_told _ _ _ Hm) as P1. pose proof (accepts_told _ _ _ Hm) as P2.
    destruct (proposing st.1) eqn:Epr; cbn in P1, P2; rewrite ?app_nil_r in *.
    + assert (mode_ st.1 = Proposing) as Em' by (unfold proposing in Epr; by apply bool_decide_eq_true in Epr).
      pose proof (l_proposing _ _ Hl Em') as Hlp. rewrite Hr in Hlp.
      apply (LInv_propose st.1 _ st.2.2 _ r' (our_position r')); auto.
      * right. by rewrite Hph.
      * by rewrite Hlp.
      * by eapply r_seq, (i_result _ _ Hi').
    + apply (LInv_quiet st.1 _ st.2.2); auto; [right; by rewrite Hph|]. intros Em'. exfalso.
      unfold proposing in Epr. apply bool_decide_eq_false in Epr. congruence.
  - unfold ledger_ok in *. rewrite Em. rewrite (f_equal previousLedger_ E : previousLedger_ st'.1 = previousLedger_ st.1).
    by rewrite (f_equal prevLedgerID_ E : prevLedgerID_ st'.1 = prevLedgerID_ st.1).
Qed.

(** *** The verdict *)

Definition agreeing c r : Z :=
  Z.of_nat (size (filter (fun x : N * PeerPosition_t => their_position x.2 = position (our_position r)) (currPeerPositions_ c))).
(** Every dispute is stalled, and the close time agreed. *)
Definition all_stalled c r : Prop :=
  haveCloseTimeConsensus_ c = true /\ disputes r <> ∅ /\
  forall k d, disputes r !! k = Some d -> stalled d parms (proposing c) (peerUnchangedCounter_ c) = true.
Definition verdict c r (finished : Z) (st : bool) : ConsensusState :=
  checkConsensus (prevProposers_ c) (numPositions c) (agreeing c r) finished (prevRoundTime_ c)
    (read (roundTime r)) st parms (proposing c).

Lemma length_filter_order {V} (P : N * V -> Prop) `{!forall x, Decision (P x)} (m : gmap N V) :
  length (filter P (order m)) = size (filter P m).
Proof.
  rewrite <-length_map_to_list. apply Permutation_length. rewrite (order_perm m).
  apply NoDup_Permutation; [apply NoDup_filter, NoDup_map_to_list|apply NoDup_map_to_list|].
  intros [n p]. rewrite list_elem_of_filter, !elem_of_map_to_list, map_lookup_filter_Some. tauto.
Qed.

Lemma haveConsensus_total st r :
  result_ st.1 = Some r ->
  total haveConsensus st (fun b st' => exists finished isStalled,
    let v := verdict st.1 r finished isStalled in
    let c1 := set_result (Some (set_state v r)) st.1 in
    (isStalled = true <-> all_stalled st.1 r) /\
    (b = true <-> v <> No /\ (v = Expired -> 4 * avMinRounds parms <= establishCounter_ st.1)) /\
    if b && bool_decide (v = Expired)
    then told (fun c => c) st (left_round c1) (leave_events c1) st'
    else told (fun c => c) st c1 [] st').
Proof using All.
  intros Hr. unfold haveConsensus. steps. rewrite length_filter_order.
  change (Z.of_nat (size (filter _ _))) with (agreeing st.1 r).
  replace (agreeing st.1 r + (numPositions st.1 - agreeing st.1 r)) with (numPositions st.1) by lia.
  pose proof (ask_budget _ (proposersFinished (previousLedger_ st.1) (prevLedgerID_ st.1)) st.2.1) as B1.
  destruct (ask (proposersFinished _ _) st.2.1) as [finished a]. cbn [fst snd] in *.
  set (isStalled := haveCloseTimeConsensus_ st.1 && _ && _).
  assert (isStalled = true <-> all_stalled st.1 r) as Hst.
  { unfold isStalled, all_stalled. rewrite !andb_true_iff, negb_true_iff, bool_decide_eq_false, forallb_forall. split.
    - intros [[H1 H2] H3]. split_and!; [done..|]. intros k d Hk. apply (H3 (k, d)). apply list_elem_of_In. by apply order_in.
    - intros (H1 & H2 & H3). split; [done|]. intros [k d] Hk. apply (H3 k). apply list_elem_of_In in Hk. by apply order_in in Hk. }
  change (checkConsensus _ _ _ _ _ _ _ _ _) with (verdict st.1 r finished isStalled).
  set (v := verdict st.1 r finished isStalled). steps. set (c1 := set_result (Some (set_state v r)) st.1).
  assert (told (fun c => c) st c1 [] (c1, (a, st.2.2))) as F by (split; [done..|by rewrite app_nil_r]).
  destruct v eqn:Ev; try (apply total_ret; exists finished, isStalled; fold v; rewrite Ev; naive_solver).
  destruct (Z.ltb_spec (establishCounter_ st.1) (4 * avMinRounds parms)) as [Hlt|Hge].
  - apply total_ret. exists finished, isStalled. fold v. rewrite Ev. split_and!; [done| |done]. split; [done|]. intros [_ Hx].
    specialize (Hx eq_refl). lia.
  - apply total_bind. eapply total_mono; [apply (leaveConsensus_total circ budget)|]. cbn [fst snd]. intros [] st2 F2. apply total_ret.
    exists finished, isStalled. fold v. rewrite Ev. split_and!; [done|naive_solver|]. cbn.
    destruct F2 as [F2 B2 M2]. split; [done|cbn in *; lia|done].
Qed.

(** *** Pausing *)

(** No trusted validator is behind. *)
Definition no_laggards : Prop := forall seq keys (a : A), (ask (laggards seq keys) a).1.1 = 0.

Lemma shouldPause_total st r :
  result_ st.1 = Some r ->
  total shouldPause st (fun b st' => told (fun c => c) st st.1 [] st' /\
    (b = true -> read (roundTime r) <= ledgerMaxConsensus parms /\ ~ no_laggards)).
Proof using All.
  intros Hr. unfold shouldPause. steps.
  pose proof (ask_budget _ getValidLedgerIndex st.2.1) as B1. destruct (ask getValidLedgerIndex st.2.1) as [vi a1]. cbn [fst snd] in *.
  pose proof (ask_budget _ getQuorumKeys a1) as B2. destruct (ask getQuorumKeys a1) as [[quorum keys] a2]. cbn [fst snd] in *. steps.
  pose proof (ask_budget _ (laggards (lgr_seq (previousLedger_ st.1)) keys) a2) as B3.
  assert (no_laggards -> (ask (laggards (lgr_seq (previousLedger_ st.1)) keys) a2).1.1 = 0) as Hlag by (intros Hno; apply Hno).
  destruct (ask (laggards _ _) a2) as [[lag rest] a3]. cbn [fst snd] in *. steps.
  assert (forall a, (budget a <= budget a3)%nat -> told (fun c => c) st st.1 [] (st.1, (a, st.2.2))) as F.
  { intros a Ha. split; cbn; [done|lia|by rewrite app_nil_r]. }
  destruct (_ || _ || _) eqn:E0; [apply total_ret; split; [apply F; lia|done]|]. steps.
  pose proof (ask_budget _ validator a3) as B4. destruct (ask validator a3) as [isv a4]. cbn [fst snd] in *.
  destruct isv; cbn [negb]; [|apply total_ret; split; [apply F; lia|done]]. steps.
  pose proof (ask_budget _ haveValidated a4) as B5. destruct (ask haveValidated a4) as [hv a5]. cbn [fst snd] in *.
  destruct (negb hv || _) eqn:E; apply total_ret; (split; [apply F; lia|]); [done|].
  apply orb_false_iff in E as [_ E%Z.ltb_ge]. split; [done|]. intros Hno. rewrite (Hlag Hno), orb_true_r in E0. done.
Qed.

(** *** The establish phase *)

Lemma RInv_rest pv pc pi acq cur r r' :
  (txns r', our_position r', disputes r', compares r') = (txns r, our_position r, disputes r, compares r) ->
  RInv circ pv pc pi acq cur r -> RInv circ pv pc pi acq cur r'.
Proof. intros [= E1 E2 E3 E4] []. split; rewrite ?E1, ?E2, ?E3, ?E4; done. Qed.

(** The state changes outside of what the invariant looks at. *)
Lemma Full_rest st st' r r' evs :
  Full st -> result_ st.1 = Some r -> result_ st'.1 = Some r' -> phase_ st'.1 = phase_ st.1 ->
  (txns r', our_position r', disputes r', compares r') = (txns r, our_position r, disputes r, compares r) ->
  (mode_ st'.1, acquired_ st'.1, currPeerPositions_ st'.1, recentPeerPositions_ st'.1) =
    (mode_ st.1, acquired_ st.1, currPeerPositions_ st.1, recentPeerPositions_ st.1) ->
  (prevLedgerID_ st'.1, previousLedger_ st'.1, deadNodes_ st'.1) =
    (prevLedgerID_ st.1, previousLedger_ st.1, deadNodes_ st.1) ->
  filter main st'.2.2 = filter main st.2.2 ++ evs -> proposals evs = [] -> accepts evs = [] -> Full st'.
Proof.
  intros [[Hb Hph HI] Hl Hg] Hr Hr' Eph Er [= E1 E2 E3 E4] [= E5 E6 E7] Hm P1 P2. split.
  - split; [| |].
    + destruct Hb as [Ha Hp Hrc]. split; rewrite ?E2, ?E3, ?E4, ?E5, ?E7; done.
    + unfold phase_ok in *. rewrite Eph, Hr'. rewrite Hr in Hph. by destruct (phase_ st.1).
    + intros r0 Hr0. assert (r0 = r') as -> by congruence. rewrite E2, E3. eapply RInv_rest; [exact Er|by apply HI].
  - pose proof (proposals_told _ _ _ Hm) as Q1. pose proof (accepts_told _ _ _ Hm) as Q2.
    rewrite P1, app_nil_r in Q1. rewrite P2, app_nil_r in Q2.
    apply (LInv_quiet st.1 _ st.2.2); auto. intros Em. split; [congruence|]. left. rewrite Hr, Hr'. cbn. congruence.
  - unfold ledger_ok in *. by rewrite E1, E5, E6.
Qed.

(** When a round may be accepted; [b] tells whether we were proposing when the
    verdict was reached. *)
Record verdict_of c r (b : bool) : Prop := {
  ac_times : haveCloseTimeConsensus_ c = true /\ ledgerMinConsensus parms <= read (roundTime r);
  ac_proposing : proposing c = if bool_decide (state r = Expired) then false else b;
  ac_verdict : state r <> No /\ exists prevProposers prevTime finished allStalled,
    state r = checkConsensus prevProposers (numPositions c) (agreeing c r) finished prevTime
                (read (roundTime r)) allStalled parms b /\
    (allStalled = true -> disputes r <> ∅ /\
      forall k d, disputes r !! k = Some d -> stalled d parms b (peerUnchangedCounter_ c) = true);
  ac_close : exists t,
    (t = prop_closeTime (our_position r) \/ t = asCloseTime c (prop_closeTime (our_position r))) /\
    (currPeerPositions_ c = ∅ \/
     participantsNeeded (numPositions c + self b) (avCtConsensusPct parms) <=
       count_times c t (map_to_list (currPeerPositions_ c)) + self b)
}.

(** A round has been accepted. *)
Record accept_of c (lg : list Event) r (b : bool) : Prop := {
  ac_phase : phase_ c = Accepted;
  ac_result : result_ c = Some r;
  ac_told : exists v, last lg =
    Some (OnAccept r (previousLedger_ c) (closeResolution_ c) (rawCloseTimes_ c) (mode_ c) v);
  ac_next : (prevProposers_ c, prevRoundTime_ c) = (numPositions c, read (roundTime r));
  ac_ok : verdict_of c r b
}.

(** The state once the clock has been read. *)
Definition ticked c r (t : Z) : ConsensusResult :=
  set_proposers (numPositions c) (set_roundTime (tick (roundTime r) t) r).
Definition progressed c r (t : Z) : Consensus :=
  set_convergePercent (int32 (Z.quot (read (roundTime (ticked c r t)) * 100)
      (Z.max (prevRoundTime_ c) (avMinConsensusTime parms))))
    (set_result (Some (ticked c r t))
      (set_establishCounter (size_t (establishCounter_ c + 1))
        (set_peerUnchangedCounter (size_t (peerUnchangedCounter_ c + 1)) c))).

(** After the minimal time and without laggards, the verdict on our
    reconsidered position decides. *)
Definition decides st st' : Prop := forall r, result_ st.1 = Some r ->
  let t := (ask clockNow st.2.1).1 in
  ledgerMinConsensus parms <= read (roundTime (ticked st.1 r t)) -> no_laggards ->
  exists st2 r2, Inv st2.1 /\
    reconsidered budget (progressed st.1 r t, ((ask clockNow st.2.1).2, st.2.2)) (ticked st.1 r t) st2 r2 /\
    (haveCloseTimeConsensus_ st2.1 = true -> (forall finished stl, verdict st2.1 r2 finished stl = Yes) ->
     phase_ st'.1 = Accepted /\ exists r', result_ st'.1 = Some r' /\ state r' = Yes /\ txns r' = txns r2 /\
       position (our_position r') = position (our_position r2)).

Definition establish_post st st' : Prop :=
  Full st' /\ (budget st'.2.1 <= budget st.2.1)%nat /\ (mode_ st'.1 = Proposing -> mode_ st.1 = Proposing) /\
  (phase_ st'.1 = Establish \/ exists r b, accept_of st'.1 st'.2.2 r b) /\ decides st st'.

(** The agreed time has the votes of the peers that are left. *)
Lemma reconsidered_close st r st' r' :
  reconsidered budget st r st' r' -> haveCloseTimeConsensus_ st'.1 = true ->
  exists t, (t = prop_closeTime (our_position r') \/ t = asCloseTime st'.1 (prop_closeTime (our_position r'))) /\
    (currPeerPositions_ st'.1 = ∅ \/
     participantsNeeded (numPositions st'.1 + self (proposing st'.1)) (avCtConsensusPct parms) <=
       count_times st'.1 t (map_to_list (currPeerPositions_ st'.1)) + self (proposing st'.1)).
Proof.
  intros [Hr' _ Hp _ (votes & Hv & Hh & Hpos)] Hct. cbv zeta in *.
  set (c1 := freshened _ _) in *. destruct (agreed c1 r votes) as [t have] eqn:Ea. cbn [fst snd] in *. subst have.
  assert (posed st'.1 = posed st.1) as E by (destruct Hpos as [(_ & _ & _ & [F _ _])|(_ & [F _ _])]; done).
  assert (proposing st'.1 = proposing st.1) as Epr by (unfold proposing; by rewrite (posed_mode _ _ E)).
  assert (forall x, asCloseTime st'.1 x = asCloseTime st.1 x) as Eas
    by (intros x; unfold asCloseTime; by rewrite (f_equal closeResolution_ E : closeResolution_ st'.1 = closeResolution_ st.1)).
  exists t. split.
  - destruct Hpos as [(E1 & _ & -> & _)|(E1 & _)]; rewrite E1; [right; by rewrite Eas|left; done].
  - pose proof (agreed_sound c1 r votes) as Hs. rewrite Ea in Hs. cbn [fst snd] in Hs.
    destruct (Hs Hct) as [[E0 _]|Hn]; [left; by rewrite Hp|]. right.
    unfold participants, numPositions, time_votes in Hn. change (proposing c1) with (proposing st.1) in Hn.
    unfold numPositions. rewrite Hp, Epr. cbn in Hn. etransitivity; [exact Hn|].
    assert (count_times st'.1 t (map_to_list (currPeerPositions_ st'.1)) =
      count_times st.1 t (map_to_list (currPeerPositions_ st'.1))) as Ec.
    { unfold count_times. do 2 f_equal. apply list_filter_iff. intros x. by rewrite Eas. }
    rewrite <-Hp, Ec, <-Hv. destruct (proposing st.1); cbn [self]; [|lia].
    rewrite increment_lookup. destruct (decide _); lia.
Qed.

Lemma Full_progressed st r t a : Full st -> result_ st.1 = Some r -> (budget a <= budget st.2.1)%nat ->
  Full (progressed st.1 r t, (a, st.2.2)).
Proof. intros Hf Hr Ha. apply (Full_rest st _ r (ticked st.1 r t) []); try done. by rewrite app_nil_r. Qed.

(** The outcome of [haveConsensus] keeps the invariant. *)
Lemma Full_verdict st r st' v b :
  Full st -> result_ st.1 = Some r ->
  let c1 := set_result (Some (set_state v r)) st.1 in
  (if b && bool_decide (v = Expired) then told (fun c => c) st (left_round c1) (leave_events c1) st'
   else told (fun c => c) st c1 [] st') ->
  Full st' /\ (budget st'.2.1 <= budget st.2.1)%nat /\
  (mode_ st'.1 = Proposing -> mode_ st.1 = Proposing) /\ phase_ st'.1 = phase_ st.1 /\
  proposing st'.1 = (if b && bool_decide (v = Expired) then false else proposing st.1) /\
  exists p, result_ st'.1 = Some (set_position p (set_state v r)) /\ position p = position (our_position r) /\
    prop_closeTime p = prop_closeTime (our_position r) /\
    posed st'.1 = posed (set_mode (mode_ st'.1) st.1) /\ currPeerPositions_ st'.1 = currPeerPositions_ st.1 /\
    haveCloseTimeConsensus_ st'.1 = haveCloseTimeConsensus_ st.1 /\ peerUnchangedCounter_ st'.1 = peerUnchangedCounter_ st.1.
Proof.
  intros Hf Hr c1. assert (Full (c1, st.2)) as Hf1.
  { apply (Full_rest st _ r (set_state v r) []); try done. by rewrite app_nil_r. }
  assert (set_position (our_position r) (set_state v r) = set_state v r) as Es by (by destruct r).
  destruct (b && _).
  - intros F. destruct (Full_left (c1, st.2) st') as [Hf' Hm']; [done|destruct F; by split|].
    destruct F as [E B _]. assert (mode_ st'.1 = Proposing -> mode_ st.1 = Proposing) as Hm by done.
    unfold left_round in E. change (proposing c1) with (proposing st.1) in E.
    split_and!; [done..|by rewrite E; destruct (proposing st.1)|by apply bool_decide_eq_false|].
    destruct (proposing st.1).
    + unfold bowed in E. cbn in E. destruct (isBowOut (our_position r)).
      * exists (our_position r). rewrite E, Es. done.
      * exists (bowOut (our_position r) (now_ st.1)). rewrite E. done.
    + exists (our_position r). rewrite E, Es. done.
  - intros [E B M]. split_and!; try (by rewrite E).
    + apply (Full_rest st _ r (set_state v r) []); try done; by rewrite E.
    + done.
    + exists (our_position r). rewrite E, Es. done.
Qed.

Lemma acceptRound_total st r b :
  Full st -> phase_ st.1 <> Accepted -> result_ st.1 = Some r -> verdict_of st.1 r b ->
  total acceptRound st (fun _ st' => Full st' /\ (budget st'.2.1 <= budget st.2.1)%nat /\
    mode_ st'.1 = mode_ st.1 /\ accept_of st'.1 st'.2.2 r b).
Proof using All.
  intros [[Hb Hph HI] Hl Hg] Hacc Hr Hok. unfold acceptRound. steps.
  pose proof (tell_budget (UpdateOperatingMode (numPositions st.1)) st.2.1) as B1.
  pose proof (ask_budget _ validating (tell (UpdateOperatingMode (numPositions st.1)) st.2.1)) as B2.
  destruct (ask validating _) as [vl a5]. cbn [fst snd] in *. set (e := OnAccept _ _ _ _ _ _).
  pose proof (tell_budget e a5) as B3.
  split_and!; [|cbn [fst snd]; lia|done|].
  - split; [split; [destruct Hb; by split|done|exact HI]| |exact Hg]. cbn [fst snd].
    destruct Hl as [H1 H2 H3 H4 H5]. specialize (H5 Hacc).
    assert (proposals ((st.2.2 ++ [UpdateOperatingMode (numPositions st.1)]) ++ [e]) = proposals st.2.2) as P1
      by (unfold proposals; by rewrite !omap_app, !app_nil_r).
    assert (accepts ((st.2.2 ++ [UpdateOperatingMode (numPositions st.1)]) ++ [e]) = [r]) as P2
      by (unfold accepts in *; by rewrite !omap_app, H5).
    split; rewrite ?P1, ?P2; done || (cbn; lia).
  - split; [done..| |done|destruct Hok; by split]. exists vl. cbn [fst snd]. by rewrite last_snoc.
Qed.

(** The verdict after our position has been reconsidered. *)
Lemma verdict_ok st2 r2 st4 v p finished isStalled :
  (haveCloseTimeConsensus_ st2.1 = true -> exists t,
     (t = prop_closeTime (our_position r2) \/ t = asCloseTime st2.1 (prop_closeTime (our_position r2))) /\
     (currPeerPositions_ st2.1 = ∅ \/
      participantsNeeded (numPositions st2.1 + self (proposing st2.1)) (avCtConsensusPct parms) <=
        count_times st2.1 t (map_to_list (currPeerPositions_ st2.1)) + self (proposing st2.1))) ->
  ledgerMinConsensus parms <= read (roundTime r2) ->
  (isStalled = true <-> all_stalled st2.1 r2) -> v = verdict st2.1 r2 finished isStalled -> v <> No ->
  position p = position (our_position r2) -> prop_closeTime p = prop_closeTime (our_position r2) ->
  posed st4.1 = posed (set_mode (mode_ st4.1) st2.1) -> currPeerPositions_ st4.1 = currPeerPositions_ st2.1 ->
  haveCloseTimeConsensus_ st4.1 = haveCloseTimeConsensus_ st2.1 -> peerUnchangedCounter_ st4.1 = peerUnchangedCounter_ st2.1 ->
  proposing st4.1 = (if bool_decide (v = Expired) then false else proposing st2.1) ->
  haveCloseTimeConsensus_ st4.1 = true ->
  verdict_of st4.1 (set_position p (set_state v r2)) (proposing st2.1).
Proof.
  intros Hclose Hge Hst Ev Hno Hp1 Hp2 Epo Ecur Ehc Epu Epr Hct.
  assert (forall x, asCloseTime st4.1 x = asCloseTime st2.1 x) as Eas
    by (intros x; unfold asCloseTime; by rewrite (f_equal closeResolution_ Epo : closeResolution_ st4.1 = closeResolution_ st2.1)).
  split; cbn [state our_position roundTime disputes set_position set_state]; [done..| |].
  - split; [done|]. exists (prevProposers_ st2.1), (prevRoundTime_ st2.1), finished, isStalled.
    split; [|rewrite Epu; intros Hs; by apply Hst in Hs as (_ & H1 & H2)].
    unfold verdict, agreeing, numPositions in *. rewrite Ecur. cbn. by rewrite Hp1.
  - rewrite Ehc in Hct. destruct (Hclose Hct) as (t & Ht & Hn). exists t. rewrite Hp2, Eas. split; [done|].
    unfold numPositions in *. rewrite Ecur. destruct Hn as [Hn|Hn]; [by left|right].
    etransitivity; [exact Hn|]. apply Z.eq_le_incl. f_equal. unfold count_times. do 2 f_equal.
    apply list_filter_iff. intros x. by rewrite Eas.
Qed.

(** Pausing, the verdict and the end of the round. *)
Lemma establish_verdict st2 r2 :
  Full st2 -> result_ st2.1 = Some r2 -> phase_ st2.1 = Establish ->
  (haveCloseTimeConsensus_ st2.1 = true -> exists t,
     (t = prop_closeTime (our_position r2) \/ t = asCloseTime st2.1 (prop_closeTime (our_position r2))) /\
     (currPeerPositions_ st2.1 = ∅ \/
      participantsNeeded (numPositions st2.1 + self (proposing st2.1)) (avCtConsensusPct parms) <=
        count_times st2.1 t (map_to_list (currPeerPositions_ st2.1)) + self (proposing st2.1))) ->
  ledgerMinConsensus parms <= read (roundTime r2) ->
  total (pause ← shouldPause;
         if (pause : bool) then mret ()
         else
           have ← haveConsensus;
           c ← get;
           if negb have || negb (haveCloseTimeConsensus_ c) then mret ()
           else acceptRound) st2 (fun _ st' =>
    Full st' /\ (budget st'.2.1 <= budget st2.2.1)%nat /\ (mode_ st'.1 = Proposing -> mode_ st2.1 = Proposing) /\
    (phase_ st'.1 = Establish \/ exists r b, accept_of st'.1 st'.2.2 r b) /\
    (no_laggards -> haveCloseTimeConsensus_ st2.1 = true -> (forall finished stl, verdict st2.1 r2 finished stl = Yes) ->
     phase_ st'.1 = Accepted /\ exists r', result_ st'.1 = Some r' /\ state r' = Yes /\ txns r' = txns r2 /\
       position (our_position r') = position (our_position r2))).
Proof using All.
  intros Hf2 Hr2 Eph2 Hclose Hge.
  apply total_bind. eapply total_mono; [by apply (shouldPause_total st2 r2)|].
  intros pause st3 [[E3 B3 M3] Hpause].
  assert (Full st3) as Hf3 by (apply (Full_rest st2 st3 r2 r2 []); rewrite ?E3; done).
  destruct pause.
  { apply total_ret. rewrite E3. split_and!; [done|lia|done|by left|]. intros Hno. by destruct (Hpause eq_refl) as [_ []]. }
  apply total_bind. eapply total_mono; [by apply (haveConsensus_total st3 r2); rewrite E3|].
  intros have st4 (finished & isStalled & Hst & Hb & Hv).
  destruct (Full_verdict st3 r2 st4 _ have Hf3 ltac:(by rewrite E3) Hv)
    as (Hf4 & B4 & Hm4 & Hph4 & Hpr4 & p & Hr4 & Hp1 & Hp2 & Epo & Ecur & Ehc & Epu).
  steps. rewrite E3 in *. set (v := verdict st2.1 r2 finished isStalled) in *.
  destruct (negb have || negb (haveCloseTimeConsensus_ st4.1)) eqn:Eh.
  { apply total_ret. split_and!; [done|lia|done|left; congruence|]. intros _ Hct Hyes. exfalso.
    assert (have = true) as -> by (apply Hb; unfold v; by rewrite Hyes). by rewrite Ehc, Hct in Eh. }
  apply orb_false_iff in Eh as [->%negb_false_iff Ect%negb_false_iff]. cbn [andb] in Hpr4.
  eapply total_mono; [apply (acceptRound_total st4 _ (proposing st2.1) Hf4 ltac:(congruence) Hr4)|].
  { apply (verdict_ok st2 r2 st4 v p finished isStalled); try done. by apply Hb. }
  intros [] st5 (Hf5 & B5 & Em5 & Hac). split_and!; [done|lia|by rewrite Em5|by eauto|].
  intros _ _ Hyes. split; [apply Hac|]. eexists. split; [apply Hac|]. split; [apply Hyes|done].
Qed.

Lemma phaseEstablish_total st :
  Full st -> phase_ st.1 = Establish -> total phaseEstablish st (fun _ st' => establish_post st st').
Proof using All.
  intros Hf Hph. assert (exists r, result_ st.1 = Some r) as [r Hr].
  { pose proof (i_phase _ _ (f_inv _ Hf)) as Hp. unfold phase_ok in Hp. by rewrite Hph in Hp. }
  unfold phaseEstablish, establish_post, decides. steps. pose proof (ask_budget _ clockNow st.2.1) as B1.
  destruct (ask clockNow st.2.1) as [t a1]. cbn [fst snd] in *. steps.
  eapply (total_get_result (ticked st.1 r t)); [done|]. steps.
  change (set_convergePercent _ _) with (progressed st.1 r t).
  pose proof (Full_progressed st r t a1 Hf Hr B1) as Hf1.
  destruct (Z.ltb_spec (read (roundTime (ticked st.1 r t))) (ledgerMinConsensus parms)) as [Hlt|Hge].
  { apply total_ret. split_and!; [done..|by left|]. intros r' Hr'. assert (r' = r) as -> by congruence. lia. }
  apply total_bind. eapply total_mono; [by apply (updateOurPositions_total circ budget _ (ticked st.1 r t)); [apply Hf1|]|].
  intros [] st2 (Hi2 & r2 & Hre).
  pose proof (Full_reconsidered _ _ _ _ Hf1 eq_refl Hi2 Hre ltac:(by change (phase_ st.1 <> Accepted); rewrite Hph)) as Hf2.
  assert (posed st2.1 = posed (progressed st.1 r t) /\ (budget st2.2.1 <= budget a1)%nat) as [Ep2 B2].
  { destruct (re_time _ _ _ _ _ Hre) as (votes & _ & _ & [(_ & _ & _ & [])|(_ & [])]); done. }
  eapply total_mono; [by apply (establish_verdict st2 r2); [|apply Hre|rewrite <-Hph; exact (f_equal phase_ Ep2)|
    by eapply reconsidered_close|rewrite (f_equal (fun x => x.1.1) (re_rest _ _ _ _ _ Hre) : roundTime r2 = _)]|].
  intros [] st3 (Hf3 & B3 & Hm3 & Hac & Hdec). rewrite (f_equal mode_ Ep2 : mode_ st2.1 = mode_ st.1) in Hm3.
  split_and!; [done|lia|done|done|]. intros r' Hr' _ Hno. assert (r' = r) as -> by congruence. exists st2, r2. eauto.
Qed.

(** *** The open phase *)

Lemma phaseOpen_total st :
  Full st -> phase_ st.1 = Open ->
  total phaseOpen st (fun _ st' => Full st' /\ (budget st'.2.1 <= budget st.2.1)%nat /\
    mode_ st'.1 = mode_ st.1 /\ phase_ st'.1 <> Accepted).
Proof using All.
  intros Hf Hph. unfold phaseOpen. steps. pose proof (ask_budget _ hasOpenTransactions st.2.1) as B1.
  destruct (ask hasOpenTransactions st.2.1) as [any a1]. cbn [fst snd] in *.
  pose proof (ask_budget _ (proposersValidated (prevLedgerID_ st.1)) a1) as B2.
  destruct (ask (proposersValidated _) a1) as [val a2]. cbn [fst snd] in *.
  pose proof (ask_budget _ clockNow a2) as B3. destruct (ask clockNow a2) as [t a3]. cbn [fst snd] in *.
  set (c1 := set_openTime _ st.1). assert (Full (c1, (a3, st.2.2))) as Hf1.
  { destruct Hf as [[[Ha Hp Hrc] Hq HI] [] Hg]. split; [split; [by split|exact Hq|exact HI]|by split|exact Hg]. }
  unfold when. destruct (shouldCloseLedger _ _ _ _ _ _ _ _ _).
  - eapply total_mono; [apply (closeLedger_total circ budget), Hf1|]. intros [] st2 (Hi2 & Hph2 & r2 & Hcl).
    pose proof (Full_closed _ _ _ Hf1 Hph Hi2 Hph2 Hcl) as Hf2. destruct (cl_told _ _ _ _ Hcl) as [E B _]. cbn in B.
    split_and!; [done|lia|exact (f_equal mode_ E)|by rewrite Hph2].
  - apply total_ret. cbn [fst snd]. split_and!; [done|lia|done|]. by change (phase_ st.1 <> Accepted); rewrite Hph.
Qed.

(** *** The start of a round *)

Definition timer_post st st' : Prop :=
  Full st' /\ (budget st'.2.1 <= budget st.2.1)%nat /\ (mode_ st'.1 = Proposing -> mode_ st.1 = Proposing) /\
  (phase_ st'.1 = Accepted -> phase_ st.1 = Accepted \/ exists r b, accept_of st'.1 st'.2.2 r b).

(** What a round starts from. *)
Record startable st (id : N) (l : Ledger_t) (mode : ConsensusMode) : Prop := {
  sa_recent : forall n ps, recentPeerPositions_ st.1 !! n = Some ps ->
    (length ps <= 10)%nat /\ Forall (fun p => nodeID (proposal p) = n) ps;
  sa_range : Forall (fun p => 0 <= proposeSeq p < 2 ^ 32) (proposals st.2.2);
  sa_sorted : StronglySorted Z.lt (proposeSeq <$> proposals st.2.2);
  sa_none : accepts st.2.2 = [];
  sa_fresh : mode = Proposing -> proposals st.2.2 = [];
  sa_ledger : lgr_id l <> id -> mode = WrongLedger
}.

Lemma startRoundInternal_total timer now id l mode st :
  startable st id l mode ->
  (forall t st1, Full st1 -> previousLedger_ st1.1 = l -> prevLedgerID_ st1.1 = id ->
     (budget st1.2.1 <= budget st.2.1)%nat -> total (timer t) st1 (fun _ st' => timer_post st1 st')) ->
  total (startRoundInternal timer now id l mode) st (fun _ st' =>
    Full st' /\ (budget st'.2.1 <= budget st.2.1)%nat /\ (mode_ st'.1 = Proposing -> mode = Proposing) /\
    (phase_ st'.1 = Accepted -> exists r b, accept_of st'.1 st'.2.2 r b)).
Proof using All.
  intros [Hrc H1 H2 H3 H4 H5] Htimer. unfold startRoundInternal. steps. set (e := OnModeChange _ _).
  pose proof (tell_budget e st.2.1) as B1. pose proof (ask_budget _ clockNow (tell e st.2.1)) as B2.
  destruct (ask clockNow _) as [t a1]. cbn [fst snd] in *. set (c1 := set_closeResolution _ _).
  assert (Full (c1, (a1, st.2.2 ++ [e]))) as Hf1.
  { assert (proposals (st.2.2 ++ [e]) = proposals st.2.2) as P1 by (unfold proposals; rewrite omap_app; by rewrite app_nil_r).
    assert (accepts (st.2.2 ++ [e]) = []) as P2 by (unfold accepts in *; rewrite omap_app; by rewrite H3).
    split; [split; [split; [done..|exact Hrc]|done|done]| |exact H5].
    split; cbn [fst snd]; rewrite ?P1, ?P2; [done|done|exact H4|cbn; lia|done]. }
  apply total_bind. eapply total_mono; [apply (playbackProposals_total circ budget), Hf1|]. intros [] st2 [Hi2 Hk2].
  assert (Full st2) as Hf2 by (apply (Full_kframe _ _ _ Hf1 Hi2 Hk2), core_view).
  destruct Hk2 as [E B _]. cbn [fst snd] in B. steps. unfold when. destruct (_ <? _).
  - eapply total_mono; [apply Htimer; [done|exact (f_equal previousLedger_ E)|exact (f_equal prevLedgerID_ E)|lia]|].
    intros [] st3 (Hf3 & B3 & Hm3 & Hac). split_and!; [done|lia| |].
    + intros Hm. specialize (Hm3 Hm). by rewrite <-Hm3, (f_equal mode_ E : mode_ st2.1 = _).
    + intros Hph. destruct (Hac Hph) as [Hph'|]; [|done]. by rewrite (f_equal phase_ E : phase_ st2.1 = Open) in Hph'.
  - apply total_ret. split_and!; [done|lia|by rewrite (f_equal mode_ E : mode_ st2.1 = _)|].
    by rewrite (f_equal phase_ E : phase_ st2.1 = Open).
Qed.
End run.
