(* ===== verification/ConsensusTimer.v ===== *)
(** * The previous ledger and the timer

    [handleWrongLedger], [checkLedger], [timerEntry], [startRound] and
    [simulate] (Consensus.h).  [timerEntry] calls itself through the start of
    a round on another ledger: enough fuel for the number of times the network
    changes its preferred ledger makes it return. *)

From S2P Require Import Prelude StateMonad Serializer LedgerHeader Consensus ConsensusTypes ConsensusState ConsensusRound ConsensusLaws ConsensusDisputes ConsensusPosition ConsensusRun.
Open Scope Z_scope.

Section timer.
Context {A : Type} `{TL : TraitsLaws} `{!RoundAdaptor A} `{HashOrder}.
Context (circ : option (gmap N Tx_t)) (budget : A -> nat) `{RL : !RoundLaws A circ budget}.
Implicit Types (st : Consensus * (A * list Event)) (c : Consensus) (r : ConsensusResult).

(** *** A wrong previous ledger *)

(** The round's peers and disputes are dropped for the ledger the network prefers. *)
Definition forgotten (id : N) c : Consensus :=
  set_deadNodes ∅ (set_rawCloseTimes (mkCloseTimes ∅ (self_time (rawCloseTimes_ c)))
    (set_currPeerPositions ∅
       (set_result ((fun r => set_compares ∅ (set_disputes ∅ r)) <$> result_ c) (set_prevLedgerID id c)))).

Lemma Inv_forgotten id c : Inv circ c -> Inv circ (forgotten id c).
Proof.
  assert (result_ (forgotten id c) = (fun r => set_compares ∅ (set_disputes ∅ r)) <$> result_ c) as Er by done.
  assert (phase_ (forgotten id c) = phase_ c) as Ep by done.
  assert (currPeerPositions_ (forgotten id c) = ∅) as Ec by done.
  assert (acquired_ (forgotten id c) = acquired_ c) as Ea by done.
  assert (recentPeerPositions_ (forgotten id c) = recentPeerPositions_ c) as Erc by done.
  revert Er Ep Ec Ea Erc. generalize (forgotten id c). intros c' Er Ep Ec Ea Erc [[Ha _ Hrc] Hp Hr]. split.
  - split; rewrite ?Ea, ?Ec, ?Erc; [done| |done]. intros n p. by rewrite lookup_empty.
  - unfold phase_ok in *. rewrite Ep, Er. destruct (phase_ c); [by rewrite Hp|by rewrite fmap_is_Some|done].
  - rewrite Er, Ea, Ec. intros r' (r & Hr' & ->)%fmap_Some. destruct (Hr r Hr') as [P1 P2 P3 P4 _ _ _ _ _ _].
    split; [exact P1|exact P2|exact P3|exact P4|..]; cbn; intros; set_solver.
Qed.

(** The state between rounds on different ledgers: not proposing, and nothing accepted. *)
Record adrift st : Prop := {
  ad_inv : Inv circ st.1;
  ad_log : LInv st.1 st.2.2;
  ad_mode : mode_ st.1 <> Proposing;
  ad_phase : phase_ st.1 <> Accepted
}.

Lemma leave_ledger_total {Y} lgrId st (k : ST _ Y) Q : Full circ st -> phase_ st.1 <> Accepted ->
  (forall st', adrift st' -> (budget st'.2.1 <= budget st.2.1)%nat -> prevLedgerID_ st'.1 = lgrId ->
     previousLedger_ st'.1 = previousLedger_ st.1 -> total k st' Q) ->
  total (_ ← leaveConsensus;
         c ← get;
         _ ← when (negb (prevLedgerID_ c =? lgrId)%N)
           (_ ← modify (set_prevLedgerID lgrId);
            _ ← modify (set_result ((fun r => set_compares ∅ (set_disputes ∅ r)) <$> result_ c));
            _ ← modify (fun c => set_deadNodes ∅ (set_rawCloseTimes
                          (mkCloseTimes ∅ (self_time (rawCloseTimes_ c))) (set_currPeerPositions ∅ c)));
            playbackProposals);
         k) st Q.
Proof using All.
  intros Hf Hph HQ. apply total_bind. eapply total_mono; [apply (leaveConsensus_total circ budget)|]. intros [] st1 Ht.
  destruct (Full_left circ budget _ _ Hf Ht) as [[Hi1 Hl1 _] Hm1]. destruct Ht as [E B _].
  assert (phase_ st1.1 <> Accepted) as Hph1 by (rewrite E; unfold left_round; by destruct (proposing st.1)).
  assert (previousLedger_ st1.1 = previousLedger_ st.1) as Hpl by (rewrite E; unfold left_round; by destruct (proposing st.1)).
  steps. apply total_bind. unfold when. destruct (prevLedgerID_ st1.1 =? lgrId)%N eqn:Eid; cbn [negb].
  { apply total_ret. apply N.eqb_eq in Eid. by apply HQ. }
  steps. change (set_deadNodes ∅ _) with (forgotten lgrId st1.1).
  eapply total_mono; [apply (playbackProposals_total circ budget), Inv_forgotten, Hi1|].
  intros [] st2 [Hi2 Hk]. pose proof Hk as [E2 B2 _]. cbn [fst snd] in *.
  assert (mode_ st2.1 = mode_ st1.1) as Em by exact (f_equal mode_ E2).
  assert (phase_ st2.1 = phase_ st1.1) as Ep by exact (f_equal phase_ E2).
  apply HQ; [|lia|exact (f_equal prevLedgerID_ E2)|rewrite <-Hpl; exact (f_equal previousLedger_ E2)].
  split; [done| |congruence..]. assert (filter main st2.2.2 = filter main st1.2.2 ++ []) as Hm'.
  { rewrite app_nil_r. apply Hk. }
  apply (LInv_quiet st1.1 _ st1.2.2); [done|by rewrite (proposals_told _ _ _ Hm'), app_nil_r|
    by rewrite (accepts_told _ _ _ Hm'), app_nil_r|by left|congruence].
Qed.

(** What the check of the ledger leaves of a round that was not over. *)
Definition check_post st st' : Prop :=
  Full circ st' /\ (budget st'.2.1 <= budget st.2.1)%nat /\ (mode_ st'.1 = Proposing -> mode_ st.1 = Proposing) /\
  (phase_ st'.1 = Accepted -> exists r b, accept_of st'.1 st'.2.2 r b).

(** The rounds a call of the timer can still start. *)
Definition switches st : nat :=
  budget st.2.1 + if (lgr_id (previousLedger_ st.1) =? prevLedgerID_ st.1)%N then 0 else 1.

Lemma handleWrongLedger_total timer lgrId st : Full circ st -> phase_ st.1 <> Accepted ->
  (forall t st1, Full circ st1 -> lgr_id (previousLedger_ st1.1) = prevLedgerID_ st1.1 ->
     (budget st1.2.1 <= budget st.2.1)%nat -> lgr_id (previousLedger_ st.1) <> lgrId ->
     total (timer t) st1 (fun _ st' => timer_post circ budget st1 st')) ->
  total (handleWrongLedger timer lgrId) st (fun _ st' => check_post st st').
Proof using All.
  intros Hf Hph Htimer. unfold handleWrongLedger. apply leave_ledger_total; [done..|].
  intros st1 [Hi Hl Hm Hp] B1 Hid Hpl. steps. rewrite Hid, Hpl.
  destruct (lgr_id (previousLedger_ st.1) =? lgrId)%N eqn:Eid.
  { apply N.eqb_eq in Eid. apply total_ret. split_and!; [|done..]. split; [done..|]. unfold ledger_ok. congruence. }
  apply N.eqb_neq in Eid. steps. pose proof (ask_budget _ (acquireLedger lgrId) st1.2.1) as B2.
  destruct (ask (acquireLedger lgrId) st1.2.1) as [[l|] a1] eqn:Ea; cbn [fst snd] in *.
  - assert (lgr_id l = lgrId) as El by (apply (acquireLedger_id lgrId st1.2.1); by rewrite Ea).
    eapply total_mono; [apply (startRoundInternal_total circ budget)|].
    + destruct Hl as [L1 L2 L3 L4 L5]. split; cbn [fst snd]; [apply Hi|done|done|by apply L5|done|congruence].
    + intros t st2 Hf2 E1 E2 B3. cbn in B3. apply Htimer; [done|congruence|lia|done].
    + cbn [fst snd]. intros [] st2 (Hf2 & B3 & Hm2 & Hac). split_and!; [done|lia|by intros; discriminate Hm2|done].
  - unfold setMode. steps. set (e := OnModeChange _ _). pose proof (tell_budget e a1). cbn [fst snd] in *.
    split_and!; cbn [fst snd]; [|lia|done|by intros ?%Hp]. split; [split; [destruct Hi as [[] ? ?]; by split|apply Hi|apply Hi]| |done].
    apply (LInv_quiet st1.1 _ st1.2.2); [done| | |by left|done]; cbn [fst snd]; unfold proposals, accepts; rewrite omap_app; by rewrite app_nil_r.
Qed.

Lemma Full_asked st (a : A) : Full circ st -> Full circ (st.1, (a, st.2.2)).
Proof. intros []. by split. Qed.

Lemma checkLedger_total timer st : Full circ st -> phase_ st.1 <> Accepted ->
  (forall t st1, Full circ st1 -> (switches st1 < switches st)%nat ->
     total (timer t) st1 (fun _ st' => timer_post circ budget st1 st')) ->
  total (checkLedger timer) st (fun _ st' => check_post st st').
Proof using All.
  intros Hf Hph Htimer. unfold checkLedger. steps.
  set (q := getPrevLedger (prevLedgerID_ st.1) (previousLedger_ st.1) (mode_ st.1)).
  pose proof (ask_budget _ q st.2.1) as B1.
  pose proof (getPrevLedger_budget (prevLedgerID_ st.1) (previousLedger_ st.1) (mode_ st.1) st.2.1) as B2. fold q in B2.
  destruct (ask q st.2.1) as [net a1]. cbn [fst snd] in *. pose proof (Full_asked _ a1 Hf) as Hf1.
  unfold when. destruct (_ || _) eqn:E; [|by apply total_ret].
  eapply total_mono; [apply handleWrongLedger_total; [done..|]|].
  - cbn [fst snd]. intros t st1 Hf2 El B3 Hne. apply Htimer; [done|]. unfold switches. rewrite El, N.eqb_refl.
    destruct (lgr_id (previousLedger_ st.1) =? prevLedgerID_ st.1)%N eqn:E2.
    + apply N.eqb_eq in E2. specialize (B2 ltac:(congruence)). lia.
    + lia.
  - intros [] st2 (H1 & H2 & H3 & H4). cbn [fst snd] in *. split_and!; [done|lia|done|done].
Qed.

(** The timer returns with fuel for one call more than it can start rounds. *)
Lemma timerEntry_total fuel now st : Full circ st -> (switches st < fuel)%nat ->
  total (timerEntry fuel now) st (fun _ st' => timer_post circ budget st st').
Proof using All.
  revert now st. induction fuel as [|fuel IH]; intros now st Hf Hlt; [lia|]. cbn [timerEntry]. steps.
  case_bool_decide as Hph. { apply total_ret. split_and!; auto. }
  steps. assert (Full circ (set_now now st.1, st.2)) as Hf1.
  { destruct Hf as [[[] ? ?] [] ?]. by split; [split; [split|..]|split|]. }
  apply total_bind. eapply total_mono; [apply checkLedger_total; [done|done|]|].
  { intros t st1 Hf2 Hlt2. apply IH; [done|]. unfold switches in *. cbn in *. lia. }
  intros [] st2 (Hf2 & B2 & Hm2 & Hac2). cbn [fst snd] in *. change (mode_ (set_now now st.1)) with (mode_ st.1) in *.
  steps. destruct (phase_ st2.1) eqn:Ep2.
  - eapply total_mono; [by apply (phaseOpen_total circ budget)|]. intros [] st3 (Hf3 & B3 & Hm3 & Hp3).
    split_and!; [done|lia|by rewrite Hm3|done].
  - eapply total_mono; [by apply (phaseEstablish_total circ budget)|]. intros [] st3 (Hf3 & B3 & Hm3 & Hp3).
    split_and!; [done|lia|auto|]. intros Hph3. right. destruct Hp3 as [[?|?] _]; [congruence|done].
  - apply total_ret. split_and!; [done|lia|done|]. intros _. right. by apply Hac2.
Qed.

(** *** A new round *)

Definition recents_ok c : Prop := forall n ps, recentPeerPositions_ c !! n = Some ps ->
  (length ps <= 10)%nat /\ Forall (fun p => nodeID (ConsensusTypes.proposal p) = n) ps.

Lemma lookup_foldl_delete {X} (m : gmap N X) ns n x :
  foldl (fun m n => delete n m) m ns !! n = Some x -> m !! n = Some x.
Proof. revert m. induction ns as [|n' ns IH]; intros m E; [done|]. by apply IH, lookup_delete_Some in E as [_ E]. Qed.

Lemma startRound_total fuel now id l nowUntrusted proposing st :
  recents_ok st.1 -> st.2.2 = [] -> (S (budget st.2.1) < fuel)%nat ->
  total (startRound fuel now id l nowUntrusted proposing) st (fun _ st' =>
    Full circ st' /\ (budget st'.2.1 <= budget st.2.1)%nat /\ (mode_ st'.1 = Proposing -> proposing = true) /\
    (phase_ st'.1 = Accepted -> exists r b, accept_of st'.1 st'.2.2 r b)).
Proof using All.
  intros Hrc Hlg Hfuel. unfold startRound. steps.
  assert (forall c1 (a : A) l' mode, recents_ok c1 -> (budget a <= budget st.2.1)%nat -> (lgr_id l' <> id -> mode = WrongLedger) ->
    (mode = Proposing -> proposing = true) ->
    total (startRoundInternal (timerEntry fuel) now id l' mode) (c1, (a, st.2.2)) (fun _ st' =>
      Full circ st' /\ (budget st'.2.1 <= budget st.2.1)%nat /\ (mode_ st'.1 = Proposing -> proposing = true) /\
      (phase_ st'.1 = Accepted -> exists r b, accept_of st'.1 st'.2.2 r b))) as Hstart.
  { intros c1 a l' mode Hrc1 Ba Hlm Hmp. eapply total_mono; [apply (startRoundInternal_total circ budget)|].
    - split; cbn [fst snd]; rewrite ?Hlg; [done|constructor|constructor|done..].
    - intros t st1 Hf1 _ _ B1. cbn in B1. apply timerEntry_total; [done|]. unfold switches. destruct (_ =? _)%N; lia.
    - intros [] st1 (H1 & H2 & H3 & H4). cbn in H2. split_and!; [done|lia|auto|done]. }
  assert (forall c1, recents_ok c1 ->
    recents_ok (set_recentPeerPositions (foldl (fun m n => delete n m) (recentPeerPositions_ c1) nowUntrusted) c1)) as Hdel.
  { intros c1 H1 n ps E%lookup_foldl_delete. by apply H1. }
  pose proof (ask_budget _ (acquireLedger id) st.2.1) as B. pose proof (acquireLedger_id id st.2.1) as Hid.
  destruct st as [c [a lg]]. cbn [fst snd] in *.
  apply total_bind. destruct (firstRound_ c); steps; (destruct (lgr_id l =? id)%N eqn:El;
    [apply N.eqb_eq in El; apply Hstart; [by apply Hdel|done|done|by destruct proposing]|]);
    steps; destruct (ask (acquireLedger id) a) as [[l'|] a1]; cbn [fst snd] in *;
    (apply Hstart; [by apply Hdel|done| |by destruct proposing]); try done; intros Hne; by destruct Hne; apply Hid.
Qed.

Lemma Full_recents st : Full circ st -> recents_ok st.1.
Proof. intros [[[] ? ?] ? ?]. done. Qed.

Lemma simulate_total now delay st : Full circ st -> phase_ st.1 = Open ->
  total (simulate now delay) st (fun _ st' => Full circ st' /\ (budget st'.2.1 <= budget st.2.1)%nat /\
    mode_ st'.1 = mode_ st.1 /\ phase_ st'.1 = Accepted /\ exists r, result_ st'.1 = Some r /\
      (txns r, our_position r) = (ask (onClose (previousLedger_ st.1) now (mode_ st.1)) st.2.1).1 /\
      (state r, read (roundTime r), proposers r) = (No, default 100 delay, numPositions st.1) /\
      last st'.2.2 = Some (OnForceAccept r (previousLedger_ st'.1) (closeResolution_ st'.1)
                             (rawCloseTimes_ st'.1) (mode_ st'.1))).
Proof using All.
  intros Hf Hph. unfold simulate. steps.
  assert (Full circ (set_now now st.1, st.2)) as Hf1.
  { destruct Hf as [[[] ? ?] [] ?]. by split; [split; [split|..]|split|]. }
  apply total_bind. eapply total_mono; [apply (closeLedger_total circ budget), Hf1|].
  intros [] st2 (Hi2 & Hph2 & r2 & Hcl).
  pose proof (Full_closed circ budget _ _ _ Hf1 Hph Hi2 Hph2 Hcl) as Hf2.
  destruct Hcl as [Hr2 [= Hs Hrd Hpr] Hmade Hcur [E B _]]. cbn [fst snd] in *. steps.
  set (r3 := set_proposers _ _). eapply (total_get_result r3); [done|]. steps. set (e := OnForceAccept _ _ _ _ _).
  pose proof (tell_budget e st2.2.1) as B2. destruct Hf2 as [[Hb Hp HI] [L1 L2 L3 L4 L5] Hg].
  assert (accepts st2.2.2 = []) as La by (apply L5; by rewrite Hph2).
  assert (accepts (st2.2.2 ++ [e]) = [r3]) as P2 by (unfold accepts in *; rewrite omap_app; by rewrite La).
  assert (proposals (st2.2.2 ++ [e]) = proposals st2.2.2) as P1 by (unfold proposals; rewrite omap_app; by rewrite app_nil_r).
  split_and!; cbn [fst snd]; [|lia|exact (f_equal mode_ E)|done|].
  - split; cbn [fst snd]; [split; [destruct Hb; by split|done|]| |exact Hg].
    + intros r [= <-]. by apply (RInv_rest circ _ _ _ _ _ r2), HI.
    + split; rewrite ?P1, ?P2; [done|done| |cbn; lia|done]. intros Hm. specialize (L3 Hm). by rewrite Hr2 in L3.
  - exists r3. split_and!; [done|exact Hmade| |by rewrite last_snoc].
    change (state r3) with (state r2). rewrite Hs. change (proposers r3) with (numPositions st2.1).
    change (read (roundTime r3)) with (read (roundTime r2) + default 100 delay). unfold numPositions. by rewrite Hrd, Hcur.
Qed.

(** *** Messages *)

Lemma gotTxSet_full now s st : Full circ st -> circulates circ s ->
  total (gotTxSet now s) st (fun _ st' => Full circ st' /\ (budget st'.2.1 <= budget st.2.1)%nat /\
    mode_ st'.1 = mode_ st.1 /\ phase_ st'.1 = phase_ st.1).
Proof using All.
  intros Hf Hs. eapply total_mono; [by apply (gotTxSet_total circ budget), Hs; apply Hf|]. intros [] st' [Hi Hk].
  split_and!; [apply (Full_kframe circ budget _ _ _ Hf Hi Hk)|apply Hk|exact (f_equal mode_ (kf_part _ _ _ _ Hk))|
    exact (f_equal phase_ (kf_part _ _ _ _ Hk))].
  intros c. split_and!; try done. cbn. by destruct (result_ c).
Qed.

Lemma recents_view x c : mode_ (set_recentPeerPositions x c) = mode_ c /\ phase_ (set_recentPeerPositions x c) = phase_ c /\
  previousLedger_ (set_recentPeerPositions x c) = previousLedger_ c /\
  prevLedgerID_ (set_recentPeerPositions x c) = prevLedgerID_ c /\ result_ (set_recentPeerPositions x c) = result_ c.
Proof. by split_and!. Qed.

Lemma peerProposal_full now pos st : Full circ st ->
  total (peerProposal now pos) st (fun b st' => Full circ st' /\ (budget st'.2.1 <= budget st.2.1)%nat /\
    mode_ st'.1 = mode_ st.1 /\ phase_ st'.1 = phase_ st.1).
Proof using All.
  intros Hf. eapply total_mono; [apply (peerProposal_total circ budget), Hf|]. intros b st' (Hi & Hk & _).
  split_and!; [apply (Full_kframe circ budget _ _ _ Hf Hi Hk)|apply Hk|exact (f_equal mode_ (kf_part _ _ _ _ Hk))|
    exact (f_equal phase_ (kf_part _ _ _ _ Hk))].
  intros c. destruct (recents_view ∅ (core c)) as (-> & -> & -> & -> & ->). apply core_view.
Qed.

(** ** Runs *)

(** The calls of the class from outside. *)
Inductive Operation : Type :=
| TimerEntry (now : Z)
| GotTxSet (now : Z) (s : TxSet_t)
| PeerProposal (now : Z) (p : PeerPosition_t)
| StartRound (now : Z) (id : N) (l : Ledger_t) (nowUntrusted : list N) (proposing : bool)
| Simulate (now : Z) (delay : option Z).

Definition perform (fuel : nat) (op : Operation) : ST (Consensus * (A * list Event)) () :=
  match op with
  | TimerEntry now => timerEntry fuel now
  | GotTxSet now s => gotTxSet now s
  | PeerProposal now p => _ ← peerProposal now p; mret ()
  | StartRound now id l nowUntrusted proposing => startRound fuel now id l nowUntrusted proposing
  | Simulate now delay => simulate now delay
  end.

(** The log is that of the round: a new round starts a new one. *)
Definition opened (op : Operation) st : Consensus * (A * list Event) :=
  match op with StartRound _ _ _ _ _ => (st.1, (st.2.1, [])) | _ => st end.

(** Sets handed over are in circulation; [simulate] is called on an open ledger. *)
Definition allowed (op : Operation) st : Prop :=
  match op with
  | GotTxSet _ s => circulates circ s
  | Simulate _ _ => phase_ st.1 = Open
  | _ => True
  end.

(** Between the calls the world outside changes at will. *)
Inductive reachable : Consensus * (A * list Event) -> Prop :=
| reach_new id l a : lgr_id l = id -> reachable (newConsensus id l, (a, []))
| reach_world c a a' lg : reachable (c, (a, lg)) -> reachable (c, (a', lg))
| reach_call fuel op st st' : reachable st -> allowed op st ->
    perform fuel op (opened op st) = Ok ((), st') -> reachable st'.

(** What a call leaves, by the call that was made. *)
Definition call_post (op : Operation) st st' : Prop :=
  Full circ st' /\ (budget st'.2.1 <= budget st.2.1)%nat /\
  (mode_ st'.1 = Proposing -> (exists now id l ns, op = StartRound now id l ns true) \/ mode_ st.1 = Proposing) /\
  (phase_ st'.1 = Accepted -> (phase_ st.1 = Accepted /\ forall now id l ns b, op <> StartRound now id l ns b) \/
     (exists now delay, op = Simulate now delay) \/ exists r b, accept_of st'.1 st'.2.2 r b).

Lemma perform_total fuel op st : Full circ st -> allowed op st -> (S (budget st.2.1) < fuel)%nat ->
  total (perform fuel op) (opened op st) (fun _ st' => call_post op st st').
Proof using All.
  intros Hf Hal Hfuel. unfold call_post. destruct op as [now|now s|now p|now id l ns b|now delay]; cbn [perform opened].
  - eapply total_mono; [apply timerEntry_total; [done|]|].
    { unfold switches. destruct (_ =? _)%N; lia. }
    intros [] st' (H1 & H2 & H3 & H4). split_and!; [done|done|by eauto|]. intros [Hp|?]%H4; [by left|by eauto].
  - eapply total_mono; [by apply gotTxSet_full|]. intros [] st' (H1 & H2 & H3 & H4).
    rewrite H3, H4. split_and!; [done|done|by right|by left].
  - apply total_bind. eapply total_mono; [by apply peerProposal_full|]. intros b st' (H1 & H2 & H3 & H4).
    apply total_ret. rewrite H3, H4. split_and!; [done|done|by right|by left].
  - eapply total_mono; [apply startRound_total; [exact (Full_recents _ Hf)|reflexivity|exact Hfuel]|]. intros [] st' (H1 & H2 & H3 & H4).
    split_and!; [done|done| |by eauto]. intros Hm. left. rewrite (H3 Hm). by eauto.
  - eapply total_mono; [by apply simulate_total|]. intros [] st' (H1 & H2 & H3 & H4 & _).
    rewrite H3. split_and!; [done|done|by right|]. by eauto.
Qed.

(** *** Fuel *)

(** [m'] returns what [m] returns. *)
Definition extends {X} (m m' : ST (Consensus * (A * list Event)) X) : Prop :=
  forall st x, m st = Ok x -> m' st = Ok x.
Lemma extends_bind {X Y} (m m' : ST _ X) (f f' : X -> ST _ Y) :
  extends m m' -> (forall x, extends (f x) (f' x)) -> extends (m ≫= f) (m' ≫= f').
Proof.
  intros Hm Hf st y. unfold mbind, ST_bind. destruct (m st) as [[x st1]|e] eqn:E; [|done].
  rewrite (Hm _ _ E). apply Hf.
Qed.
Lemma extends_refl {X} (m : ST _ X) : extends m m.
Proof. by intros st x. Qed.
Lemma extends_when (b : bool) m m' : extends m m' -> extends (when b m) (when b m').
Proof. by destruct b; [|intros; apply extends_refl]. Qed.
Lemma extends_startRoundInternal timer timer' now id l mode : (forall t, extends (timer t) (timer' t)) ->
  extends (startRoundInternal timer now id l mode) (startRoundInternal timer' now id l mode).
Proof. intros Ht. unfold startRoundInternal. repeat (apply extends_bind; [apply extends_refl|intros]). by apply extends_when. Qed.
Lemma extends_checkLedger timer timer' : (forall t, extends (timer t) (timer' t)) ->
  extends (checkLedger timer) (checkLedger timer').
Proof.
  intros Ht. unfold checkLedger, handleWrongLedger. repeat (apply extends_bind; [apply extends_refl|intros]).
  apply extends_when. repeat (apply extends_bind; [apply extends_refl|intros]). case_match; [apply extends_refl|].
  apply extends_bind; [apply extends_refl|intros [l|]]; [by apply extends_startRoundInternal|apply extends_refl].
Qed.
Lemma timerEntry_fuel fuel fuel' now : (fuel <= fuel')%nat -> extends (timerEntry fuel now) (timerEntry fuel' now).
Proof.
  revert fuel' now. induction fuel as [|fuel IH]; intros [|fuel'] now Hle; [done|done|lia|]. cbn [timerEntry].
  apply extends_bind; [apply extends_refl|intros c]. case_match; [apply extends_refl|].
  apply extends_bind; [apply extends_refl|intros []]. apply extends_bind; [|intros; apply extends_refl].
  apply extends_checkLedger. intros t. apply IH. lia.
Qed.
Lemma perform_fuel fuel fuel' op : (fuel <= fuel')%nat -> extends (perform fuel op) (perform fuel' op).
Proof.
  intros Hle. destruct op; try apply extends_refl; [by apply timerEntry_fuel|].
  cbn [perform]. unfold startRound. repeat (apply extends_bind; [apply extends_refl|intros]).
  case_match; [by apply extends_startRoundInternal; intros; apply timerEntry_fuel|].
  apply extends_bind; [apply extends_refl|intros [l'|]]; apply extends_startRoundInternal; intros; by apply timerEntry_fuel.
Qed.

(** What is returned with any fuel is what the call leaves. *)
Lemma perform_post fuel op st st' : Full circ st -> allowed op st ->
  perform fuel op (opened op st) = Ok ((), st') -> call_post op st st'.
Proof using All.
  intros Hf Hal E. apply (perform_fuel fuel (Nat.max fuel (S (S (budget st.2.1)))) op ltac:(lia)) in E.
  pose proof (perform_total (Nat.max fuel (S (S (budget st.2.1)))) op st Hf Hal ltac:(lia)) as Ht.
  unfold total in Ht. by rewrite E in Ht.
Qed.

Lemma reachable_full st : reachable st -> Full circ st.
Proof using All.
  induction 1 as [id l a Hl|c a a' lg _ IH|fuel op st st' _ IH Hal E].
  - split; [split; [split|..]|split|]; cbn [fst snd]; try done; [apply SSorted_nil|cbn; lia|by intros ?].
  - destruct IH. by split.
  - by destruct (perform_post _ _ _ _ IH Hal E).
Qed.
End timer.
