(* ===== verification/ConsensusLive.v ===== *)
(** * Agreement ends a round

    When every peer takes our position, nothing is left to wait for: the next
    call of the timer accepts the round.  Two nodes that see the same
    positions accept the same set of transactions.  The second part is about
    the order in which messages come. *)

From S2P Require Import Prelude Serializer LedgerHeader Consensus StateMonad ConsensusTypes ConsensusState ConsensusRound ConsensusLaws ConsensusDisputes ConsensusPosition ConsensusRun ConsensusTimer.
Open Scope Z_scope.

Section live.
Context {A : Type} `{TL : TraitsLaws} `{!RoundAdaptor A} `{HashOrder}.
Context (circ : option (gmap N Tx_t)) (budget : A -> nat) `{RL : !RoundLaws A circ budget}.
Context (Hparms : parms = defaultParms).
Implicit Types (st : Consensus * (A * list Event)) (c : Consensus) (r : ConsensusResult).

Lemma participantsNeeded_le n pct : 1 <= n -> 0 <= pct <= 100 -> participantsNeeded n pct <= n.
Proof.
  intros Hn Hp. unfold participantsNeeded. rewrite (Z.quot_div_nonneg pct) by lia.
  pose proof (Z.div_pos pct 2 ltac:(lia) ltac:(lia)). rewrite Z.quot_div_nonneg by nia.
  assert (pct / 2 <= 50) by (apply Z.div_le_upper_bound; lia).
  assert ((n * pct + pct / 2) / 100 < n + 1) by (apply Z.div_lt_upper_bound; nia).
  destruct (_ =? 0); lia.
Qed.

Lemma neededWeight_le s pct : 0 <= (getNeededWeight parms s pct 0 0).1 <= 100.
Proof using Hparms. rewrite Hparms. unfold getNeededWeight. destruct s; cbn; repeat (case_match; cbn); lia. Qed.

(** All the votes on the close time go to one. *)
Lemma agreed_unanimous c r votes tm : currPeerPositions_ c <> ∅ ->
  (forall t, default 0 (votes !! t) = if decide (t = tm) then numPositions c else 0) ->
  asCloseTime c (prop_closeTime (our_position r)) = tm -> agreed c r votes = (tm, true).
Proof using Hparms.
  intros Hne Hv Htm. unfold agreed. rewrite bool_decide_false by done.
  assert (1 <= numPositions c) as Hn.
  { unfold numPositions. apply map_size_non_empty_iff in Hne. lia. }
  assert (1 <= participants c) as Hp by (unfold participants, self; destruct (proposing c); lia).
  set (needed := (getNeededWeight _ _ _ _ _).1). assert (0 <= needed <= 100) as Hw by apply neededWeight_le.
  assert (forall t, default 0 (time_votes c r votes !! t) = if decide (t = tm) then participants c else 0) as Htv.
  { intros t. unfold time_votes, participants, self. destruct (proposing c); [|rewrite Hv; case_decide; lia].
    rewrite increment_lookup, Hv, Htm. repeat case_decide; subst; try congruence; lia. }
  assert (participantsNeeded (participants c) (avCtConsensusPct parms) <= participants c) as HC
    by (apply participantsNeeded_le; [done|rewrite Hparms; cbn; lia]).
  pose proof (participantsNeeded_le (participants c) needed Hp Hw) as HN.
  pose proof (pickCloseTime_spec (participantsNeeded (participants c) (avCtConsensusPct parms))
    (in_order (time_votes c r votes)) (participantsNeeded (participants c) needed) 0 false ltac:(done)) as Hs.
  destruct (foldl _ _ _) as [[thr t] h]. destruct Hs as (_ & Hmax & Hs).
  pose proof (Htv tm) as Hvt. rewrite decide_True in Hvt by done.
  destruct (time_votes c r votes !! tm) as [v|] eqn:Ev; cbn in Hvt; [|lia]. subst v.
  assert ((tm, participants c) ∈ in_order (time_votes c r votes)) as Hin by (by apply in_order_elem).
  specialize (Hmax _ Hin). cbn in Hmax. destruct Hs as [[_ Hs]|[Ht Hh]].
  { specialize (Hs _ Hin). cbn in Hs. lia. }
  apply in_order_elem in Ht. cbn in Ht. specialize (Htv t). rewrite Ht in Htv. cbn in Htv.
  case_decide as Et; [|lia]. subst t h thr. f_equal. by apply bool_decide_eq_true.
Qed.

Lemma verdict_unanimous c r finished stl :
  agreeing c r = numPositions c -> 0 < numPositions c < 2 ^ 32 -> ledgerMinConsensus parms < read (roundTime r) ->
  prevProposers_ c * 3 / 4 <= numPositions c -> 0 <= prevProposers_ c < 2 ^ 32 -> verdict c r finished stl = Yes.
Proof using Hparms.
  intros Ha Hn Ht Hpp Hp. unfold verdict, checkConsensus. rewrite Ha.
  destruct (Z.leb_spec (read (roundTime r)) (ledgerMinConsensus parms)); [lia|].
  assert (size_t (prevProposers_ c * 3) = prevProposers_ c * 3) as -> by (unfold size_t; apply Z.mod_small; lia).
  destruct (Z.ltb_spec (numPositions c) (prevProposers_ c * 3 / 4)); [lia|]. cbn [andb].
  assert (checkConsensusReached (numPositions c) (numPositions c) (proposing c) (minConsensusPct parms)
    (ledgerMaxConsensus parms <? read (roundTime r)) stl = true) as ->; [|done].
  unfold checkConsensusReached. destruct (Z.eqb_spec (numPositions c) 0) as [?|_]; [lia|]. destruct stl; [done|].
  rewrite Hparms. cbn [minConsensusPct defaultParms].
  assert (forall n, 0 < n <= 2 ^ 32 -> (80 <=? size_t (n * 100) / n) = true) as Hpct.
  { intros m Hr. unfold size_t. rewrite Z.mod_small by lia. rewrite Z.mul_comm, Z.div_mul by lia. done. }
  destruct (proposing c); [|apply Hpct; lia].
  assert (size_t (numPositions c + 1) = numPositions c + 1) as -> by (unfold size_t; apply Z.mod_small; lia).
  apply Hpct. lia.
Qed.

(** Every peer has our position and close time, and has said so lately. *)
Definition unanimous c r : Prop :=
  currPeerPositions_ c <> ∅ /\ forall n p, currPeerPositions_ c !! n = Some p ->
    their_position p = position (our_position r) /\
    asCloseTime c (prop_closeTime (proposal p)) = asCloseTime c (prop_closeTime (our_position r)) /\
    isStale (proposal p) (u32 (now_ c - proposeFRESHNESS parms)) = false.

Lemma filter_all_gmap {V} (P : N * V -> Prop) `{!forall x, Decision (P x)} (m : gmap N V) :
  (forall n p, m !! n = Some p -> P (n, p)) -> filter P m = m.
Proof. intros HP. apply map_filter_id. intros n p. apply HP. Qed.

Lemma reconsidered_unanimous st r st2 r2 :
  unanimous st.1 r -> RInv circ nobody nobody nobody (acquired_ st.1) (currPeerPositions_ st.1) r ->
  Inv circ st2.1 -> reconsidered budget st r st2 r2 ->
  haveCloseTimeConsensus_ st2.1 = true /\ currPeerPositions_ st2.1 = currPeerPositions_ st.1 /\ txns r2 = txns r /\
  agreeing st2.1 r2 = numPositions st2.1.
Proof using All.
  intros [Hne Hu] HI Hi2 [Hr2 Hrest Hp Hstill (votes & Hv & Hh & Hpos)]. cbv zeta in *.
  rewrite filter_all_gmap in Hp by (intros n p Hn; by apply (Hu n p)).
  set (cutoff := u32 _) in *. set (tm := asCloseTime st.1 (prop_closeTime (our_position r))).
  assert (txns r2 = txns r) as Et. { apply Hstill. intros n p Hn. rewrite Hp in Hn. by apply (Hu n p). }
  assert (position (our_position r2) = position (our_position r)) as Epos.
  { rewrite (r_pos _ _ _ _ _ _ _ (i_result _ _ Hi2 r2 Hr2)), Et. symmetry. apply HI. }
  split_and!; [|done|done|].
  - rewrite Hh. rewrite (agreed_unanimous (freshened st.1 cutoff) r votes tm); [done|..|done].
    + change (currPeerPositions_ (freshened st.1 cutoff)) with (filter (fresh cutoff) (currPeerPositions_ st.1)).
      rewrite filter_all_gmap; [done|]. intros n p Hn. by apply (Hu n p).
    + intros t. rewrite Hv, Hp. unfold count_times, numPositions.
      change (currPeerPositions_ (freshened st.1 cutoff)) with (filter (fresh cutoff) (currPeerPositions_ st.1)).
      rewrite filter_all_gmap by (intros n p Hn; by apply (Hu n p)). case_decide as Ed.
      * subst t. rewrite filter_all; [by rewrite length_map_to_list|].
        intros [n p] Hn%elem_of_map_to_list. by apply (Hu n p).
      * rewrite filter_none; [done|]. intros [n p] Hn%elem_of_map_to_list. cbn.
        destruct (Hu n p Hn) as (_ & E & _). fold tm in E. congruence.
  - unfold agreeing, numPositions. rewrite Hp, filter_all_gmap; [done|]. intros n p Hn. cbn. rewrite Epos. by apply (Hu n p).
Qed.

(** The timer goes on with the establish phase on the ledger the network is on. *)
Lemma timerEntry_establish fuel now st :
  phase_ st.1 = Establish -> lgr_id (previousLedger_ st.1) = prevLedgerID_ st.1 ->
  let q := getPrevLedger (prevLedgerID_ st.1) (previousLedger_ st.1) (mode_ st.1) in
  (ask q st.2.1).1 = prevLedgerID_ st.1 ->
  timerEntry (S fuel) now st = phaseEstablish (set_now now st.1, ((ask q st.2.1).2, st.2.2)).
Proof.
  intros Hph Hl q Hq. cbn [timerEntry]. unfold mbind, ST_bind at 1. unfold get at 1.
  rewrite bool_decide_false by (by rewrite Hph). unfold checkLedger, when.
  unfold mbind, ST_bind, get, modify, query, mret, ST_ret. cbn [fst snd set_now phase_ mode_ prevLedgerID_ previousLedger_].
  fold q. destruct (ask q st.2.1) as [id a]. cbn [fst snd] in *. subst id.
  rewrite Hl, N.eqb_refl. cbn [negb orb fst snd phase_ set_now]. by rewrite Hph.
Qed.

Lemma phaseEstablish_unanimous st r :
  Full circ st -> phase_ st.1 = Establish -> result_ st.1 = Some r -> unanimous st.1 r -> no_laggards (A := A) ->
  ledgerMinConsensus parms < read (tick (roundTime r) (ask clockNow st.2.1).1) ->
  numPositions st.1 < 2 ^ 32 -> 0 <= prevProposers_ st.1 < 2 ^ 32 -> prevProposers_ st.1 * 3 / 4 <= numPositions st.1 ->
  total phaseEstablish st (fun _ st' => phase_ st'.1 = Accepted /\ exists r', result_ st'.1 = Some r' /\
    state r' = Yes /\ txns r' = txns r).
Proof using All.
  intros Hf Hph Hr Hu Hno Hmin Hn Hpp Hp. eapply total_mono; [by apply (phaseEstablish_total circ budget)|].
  intros [] st' (_ & _ & _ & _ & Hd). unfold decides in Hd. specialize (Hd r Hr). cbv zeta in Hd.
  set (t := (ask clockNow st.2.1).1) in *. set (a := (ask clockNow st.2.1).2) in *.
  assert (read (roundTime (ticked st.1 r t)) = read (tick (roundTime r) t)) as Ert by done.
  destruct Hd as (st2 & r2 & Hi2 & Hre & Hd); [lia|done|].
  destruct (reconsidered_unanimous (progressed st.1 r t, (a, st.2.2)) (ticked st.1 r t) st2 r2) as (H1 & H2 & H3 & H4);
    [exact Hu|by apply (RInv_rest circ _ _ _ _ _ r), (i_result _ _ (f_inv _ _ Hf))|done|done|].
  change (currPeerPositions_ _) with (currPeerPositions_ st.1) in H2 at 2.
  assert (posed st2.1 = posed (progressed st.1 r t)) as Ep2.
  { destruct (re_time _ _ _ _ _ Hre) as (votes & _ & _ & [(_ & _ & _ & [])|(_ & [])]); done. }
  assert (roundTime r2 = roundTime (ticked st.1 r t)) as Er2 by exact (f_equal (fun x => x.1.1) (re_rest _ _ _ _ _ Hre)).
  assert (prevProposers_ st2.1 = prevProposers_ st.1) as Epp by exact (f_equal prevProposers_ Ep2).
  destruct Hu as [Hne _]. apply map_size_non_empty_iff in Hne.
  destruct Hd as [Hacc (r' & Hr' & Hs & Ht & _)]; [done| |].
  - intros finished stl. apply verdict_unanimous; [done|..]; unfold numPositions in *; rewrite ?H2, ?Epp, ?Er2, ?Ert; lia.
  - split; [done|]. exists r'. split_and!; [done|done|by rewrite Ht, H3].
Qed.

(** ** What acceptance means *)

(** Who decided: alone for long, disputes that no longer move, or enough agreement. *)
Definition decided c r (b : bool) : Prop :=
  (currPeerPositions_ c = ∅ /\ ledgerMaxConsensus parms < read (roundTime r)) \/
  (disputes r <> ∅ /\ forall k d, disputes r !! k = Some d -> stalled d parms b (peerUnchangedCounter_ c) = true) \/
  (currPeerPositions_ c <> ∅ /\
   minConsensusPct parms * (numPositions c + self b) <= (agreeing c r + self b) * 100).

Lemma agreeing_le c r : 0 <= agreeing c r <= numPositions c.
Proof. unfold agreeing, numPositions. pose proof (map_size_filter (fun x : N * PeerPosition_t => their_position x.2 = position (our_position r)) (currPeerPositions_ c)). lia. Qed.

Lemma reached_spec agree total b pct reachedMax stl : 0 <= agree <= total -> total < 2 ^ 32 ->
  checkConsensusReached agree total b pct reachedMax stl = true ->
  total = 0 /\ reachedMax = true \/ total <> 0 /\ (stl = true \/ pct * (total + self b) <= (agree + self b) * 100).
Proof.
  intros Ha Ht. unfold checkConsensusReached. destruct (Z.eqb_spec total 0) as [->|Hne]; [by left|].
  right. split; [done|]. destruct stl; [by left|right].
  assert (forall x y, 0 <= x <= y -> 0 < y <= 2 ^ 32 -> (pct <=? size_t (x * 100) / y) = true -> pct * y <= x * 100) as Hd.
  { intros x y Hx Hy. unfold size_t. rewrite Z.mod_small by lia. intros Hp%Z.leb_le.
    etransitivity; [apply Z.mul_le_mono_nonneg_r; [lia|exact Hp]|]. rewrite Z.mul_comm. apply Z.mul_div_le. lia. }
  destruct b; cbn [self]; rewrite ?Z.add_0_r.
  - assert (size_t (agree + 1) = agree + 1 /\ size_t (total + 1) = total + 1) as [E1 E2]
      by (unfold size_t; rewrite !Z.mod_small by lia; done).
    rewrite E1, E2 in *. apply Hd; lia.
  - apply Hd; lia.
Qed.

Lemma verdict_decided c r b : verdict_of c r b -> numPositions c < 2 ^ 32 -> state r = Yes -> decided c r b.
Proof.
  intros [_ _ (_ & pp & pt & fin & stl & Ev & Hst) _] Hn Hs. rewrite Hs in Ev. symmetry in Ev. unfold checkConsensus in Ev.
  destruct (_ <=? _); [done|]. destruct (_ && _); [done|].
  destruct (checkConsensusReached _ _ b _ _ stl) eqn:E; [|repeat (case_match; try done)].
  apply reached_spec in E; [|apply agreeing_le|done]. unfold decided, numPositions in *.
  destruct E as [[H1 H2%Z.ltb_lt]|[H1 [->|H2]]].
  - left. split; [|done]. apply map_size_empty_iff. lia.
  - right. left. by apply Hst.
  - right. right. split; [|done]. intros E. rewrite E, map_size_empty in H1. done.
Qed.

(** A round is given up only after the longest time. *)
Lemma verdict_expired c r b : verdict_of c r b -> state r = Expired ->
  ledgerMaxConsensus parms < read (roundTime r) /\ proposing c = false.
Proof using Hparms.
  intros [_ Hp (_ & pp & pt & fin & stl & Ev & _) _] Hs. rewrite Hs in *. rewrite bool_decide_true in Hp by done.
  split; [|done]. symmetry in Ev. unfold checkConsensus in Ev.
  destruct (_ <=? _); [done|]. destruct (_ && _); [done|]. destruct (checkConsensusReached _ _ _ _ _ _); [done|].
  destruct (checkConsensusReached _ _ _ _ _ _); [done|]. destruct (Z.ltb_spec (clamp (pt * ledgerAbandonConsensusFactor parms)
    (ledgerMaxConsensus parms) (ledgerAbandonConsensus parms)) (read (roundTime r))) as [Hlt|]; [|done].
  unfold clamp in Hlt. rewrite Hparms in *. cbn [defaultParms ledgerMaxConsensus ledgerAbandonConsensus] in *.
  repeat case_match; lia.
Qed.

(** ** After acceptance *)

Definition restarts (op : Operation) : bool :=
  match op with StartRound _ _ _ _ _ | Simulate _ _ => true | _ => false end.

(** Only messages of peers are kept, for later rounds. *)
Lemma accepted_frozen fuel op st st' : phase_ st.1 = Accepted -> restarts op = false ->
  perform fuel op st = Ok ((), st') -> exists rs, st' = (set_recentPeerPositions rs st.1, st.2).
Proof.
  intros Hph Hop E. assert (set_recentPeerPositions (recentPeerPositions_ st.1) st.1 = st.1) as Es by (by destruct st.1).
  destruct op as [now|now s|now p| |]; try done; cbn [perform] in E.
  - destruct fuel; [done|]. cbn [timerEntry] in E. unfold mbind, ST_bind, get in E.
    rewrite bool_decide_true in E by done. injection E as <-. exists (recentPeerPositions_ st.1). rewrite Es. by destruct st.
  - unfold gotTxSet, mbind, ST_bind, get in E. rewrite bool_decide_true in E by done. injection E as <-.
    exists (recentPeerPositions_ st.1). rewrite Es. by destruct st.
  - unfold peerProposal, peerProposalInternal, modify, get, mbind, ST_bind in E. cbn [fst snd] in E.
    rewrite bool_decide_true in E by done. injection E as <-. by eexists.
Qed.

(** The verdict stands until the next round. *)
Definition accepted_ok st : Prop := phase_ st.1 = Accepted -> forall r, result_ st.1 = Some r ->
  state r = No \/ exists b, verdict_of st.1 r b.

Lemma verdict_recents c r b rs : verdict_of c r b -> verdict_of (set_recentPeerPositions rs c) r b.
Proof. intros []. by split. Qed.

Lemma reachable_accepted st : reachable circ st -> accepted_ok st.
Proof using RL.
  induction 1 as [id l a Hl|c a a' lg _ IH|fuel op st st' Hreach IH Hal E]; [done|exact IH|].
  pose proof (reachable_full circ budget _ Hreach) as Hf.
  destruct (perform_post circ budget _ _ _ _ Hf Hal E) as (_ & _ & _ & Hacc). intros Hph r Hr.
  destruct (Hacc Hph) as [[Hph0 Hns]|[(now & delay & ->)|(r' & b & Ha)]].
  - destruct (restarts op) eqn:Er.
    + destruct op; try done; [by destruct (Hns now id l nowUntrusted proposing)|]. cbn in Hal. congruence.
    + assert (opened op st = st) as Eo by (by destruct op). rewrite Eo in E.
      destruct (accepted_frozen _ _ _ _ Hph0 Er E) as [rs ->]. destruct (IH Hph0 r Hr) as [?|[b Hb]]; [by left|right].
      exists b. by apply verdict_recents.
  - left. pose proof (simulate_total circ budget now delay st Hf Hal) as Ht. unfold total in Ht. cbn [perform opened] in E.
    rewrite E in Ht. destruct Ht as (_ & _ & _ & _ & r0 & Hr0 & _ & [= Hs _ _] & _). congruence.
  - right. exists b. destruct Ha as [_ Hr' _ _ Hok]. assert (r = r') as -> by congruence. done.
Qed.

(** ** Two nodes *)

(** The positions a node [me] counts: those of its peers, and its own if it proposes. *)
Definition view (me : N) c r (b : bool) : gmap N N :=
  let others := their_position <$> currPeerPositions_ c in
  if b then <[me := position (our_position r)]> others else others.

Definition supporters (w : gmap N N) (id : N) : gmap N N := filter (fun x : N * N => x.2 = id) w.

Lemma view_count me c r b : currPeerPositions_ c !! me = None ->
  Z.of_nat (size (view me c r b)) = numPositions c + self b /\
  Z.of_nat (size (supporters (view me c r b) (position (our_position r)))) = agreeing c r + self b.
Proof.
  intros Hme. set (pos := position (our_position r)).
  assert (size (supporters (their_position <$> currPeerPositions_ c) pos) =
    size (filter (fun x : N * PeerPosition_t => their_position x.2 = pos) (currPeerPositions_ c))) as E.
  { unfold supporters. rewrite map_filter_fmap. by rewrite map_size_fmap. }
  unfold view, agreeing, numPositions, self. fold pos. destruct b; rewrite ?Z.add_0_r.
  - assert ((their_position <$> currPeerPositions_ c) !! me = None) as Hme' by (by rewrite lookup_fmap, Hme).
    rewrite map_size_insert_None by done. rewrite map_size_fmap. split; [lia|].
    unfold supporters in *. rewrite map_filter_insert_True by done. rewrite map_size_insert_None; [lia|].
    apply map_lookup_filter_None. by left.
  - rewrite map_size_fmap. split; [done|]. by rewrite E.
Qed.

Lemma majorities_meet (w : gmap N N) (i j : N) :
  (size w < size (supporters w i) + size (supporters w j))%nat -> i = j.
Proof.
  intros Hs. destruct (decide (i = j)) as [|Hne]; [done|exfalso].
  assert (supporters w i ##ₘ supporters w j) as Hd.
  { apply map_disjoint_spec. intros n x y [Hx Ex]%map_lookup_filter_Some [Hy Ey]%map_lookup_filter_Some. cbn in *. congruence. }
  assert (supporters w i ∪ supporters w j ⊆ w) as Hsub.
  { apply map_union_least; apply map_filter_subseteq. }
  apply map_subseteq_size in Hsub. rewrite map_size_disj_union in Hsub by done. lia.
Qed.

Lemma same_view_position me1 me2 c1 c2 r1 r2 b1 b2 :
  currPeerPositions_ c1 !! me1 = None -> currPeerPositions_ c2 !! me2 = None ->
  view me1 c1 r1 b1 = view me2 c2 r2 b2 -> 0 < numPositions c1 + self b1 -> 50 < minConsensusPct parms ->
  minConsensusPct parms * (numPositions c1 + self b1) <= (agreeing c1 r1 + self b1) * 100 ->
  minConsensusPct parms * (numPositions c2 + self b2) <= (agreeing c2 r2 + self b2) * 100 ->
  position (our_position r1) = position (our_position r2).
Proof.
  intros H1 H2 E Hpos Hpct Ha1 Ha2. destruct (view_count me1 c1 r1 b1 H1) as [S1 C1], (view_count me2 c2 r2 b2 H2) as [S2 C2].
  rewrite E in S1, C1. apply (majorities_meet (view me2 c2 r2 b2)). apply Nat2Z.inj_lt. rewrite Nat2Z.inj_add, C1, C2, S2. nia.
Qed.
End live.

(** * The order of messages

    Positions of peers arrive in any order.  [peerProposal] and
    [playbackProposals] (Consensus.h) keep the newest position of every node
    and remember who has left, whatever the order: what is tracked after a
    batch of messages depends on the messages alone. *)

(** ** One message *)

Section follow.
Context `{T : Traits}.
Implicit Types (x y : gmap N PeerPosition_t * gset N) (p q : PeerPosition_t) (c : Consensus).
Abbreviation node p := (nodeID (proposal p)).
Abbreviation seqOf p := (proposeSeq (proposal p)).

Definition newer (old : option PeerPosition_t) p : bool :=
  match old with Some o => seqOf o <? seqOf p | None => true end.
(** A message counts if it is for our ledger, from a node that has not left, and newer. *)
Definition counts (id : N) x p : bool :=
  (prevLedger (proposal p) =? id)%N && negb (bool_decide (node p ∈ x.2)) && newer (x.1 !! node p) p.
Definition taken x p : gmap N PeerPosition_t * gset N :=
  if isBowOut (proposal p) then (delete (node p) x.1, {[node p]} ∪ x.2) else (<[node p := p]> x.1, x.2).
Definition follow (id : N) x p : gmap N PeerPosition_t * gset N := if counts id x p then taken x p else x.

Lemma follow_if id x p b : counts id x p = b -> follow id x p = if b then taken x p else x.
Proof. by intros <-. Qed.

Lemma track_follow c p : phase_ c <> Accepted ->
  ((track c p).1.2, (track c p).2) = follow (prevLedgerID_ c) (currPeerPositions_ c, deadNodes_ c) p.
Proof.
  intros Hph. unfold track, follow, taken, counts, newer. rewrite bool_decide_false by done. cbn [orb fst snd].
  destruct (prevLedger _ =? _)%N; cbn [negb orb andb]; [|done].
  destruct (bool_decide (node p ∈ _)); cbn [negb orb andb]; [done|].
  destruct (currPeerPositions_ c !! node p) as [o|]; [|by destruct (isBowOut _)].
  destruct (Z.leb_spec (seqOf p) (seqOf o)), (Z.ltb_spec (seqOf o) (seqOf p)); try lia; [done|]. by destruct (isBowOut _).
Qed.

(** *** Two messages *)

Lemma counts_other id x p q : node p <> node q -> counts id (follow id x p) q = counts id x q.
Proof.
  intros Hne. unfold follow. destruct (counts id x p); [|done]. unfold counts, taken.
  destruct (isBowOut _); cbn [fst snd].
  - rewrite lookup_delete_ne by done. do 3 f_equal. apply bool_decide_ext. set_solver.
  - by rewrite lookup_insert_ne.
Qed.

Lemma follow_other id x p q : node p <> node q -> follow id (follow id x p) q = follow id (follow id x q) p.
Proof.
  intros Hne. pose proof (counts_other id x p q Hne) as E1. pose proof (counts_other id x q p (not_eq_sym Hne)) as E2.
  rewrite (follow_if _ _ _ _ E1), (follow_if _ _ _ _ E2). unfold follow.
  destruct (counts id x p), (counts id x q); try done. unfold taken.
  destruct (isBowOut (proposal p)), (isBowOut (proposal q)); cbn [fst snd].
  - by rewrite delete_delete, !union_assoc_L, (union_comm_L {[node q]}).
  - by rewrite delete_insert_ne.
  - by rewrite delete_insert_ne.
  - by rewrite insert_insert_ne.
Qed.

(** The older of two messages of a node does not matter. *)
Lemma follow_older id x p q : node p = node q -> prevLedger (proposal p) = prevLedger (proposal q) ->
  seqOf p < seqOf q <= kSeqLeave ->
  follow id (follow id x p) q = follow id x q /\ follow id (follow id x q) p = follow id x q.
Proof.
  intros Hn Hl Hs. assert (isBowOut (proposal p) = false) as Hb by (unfold isBowOut; apply Z.eqb_neq; lia).
  assert (counts id x p = true -> counts id x q = true) as Hpq.
  { unfold counts, newer. rewrite Hn, Hl, !andb_true_iff. intros [H1 H2]. split; [done|].
    destruct (x.1 !! node q); [|done]. apply Z.ltb_lt in H2. apply Z.ltb_lt. lia. }
  assert (counts id (follow id x p) q = counts id x q) as E1.
  { destruct (counts id x p) eqn:Ep; rewrite (follow_if _ _ _ _ Ep); [|done]. rewrite Hpq by done.
    specialize (Hpq eq_refl). unfold counts in *. unfold taken. rewrite Hb. cbn [fst snd].
    rewrite Hn, lookup_insert_eq. apply andb_true_iff in Hpq as [-> _]. cbn. apply Z.ltb_lt. lia. }
  assert (counts id (follow id x q) p = false) as E2.
  { destruct (counts id x q) eqn:Eq; rewrite (follow_if _ _ _ _ Eq).
    - unfold counts, taken. rewrite Hn. destruct (isBowOut (proposal q)); cbn [fst snd].
      + rewrite bool_decide_true by set_solver. by rewrite andb_false_r.
      + rewrite lookup_insert_eq. cbn. apply andb_false_iff. right. apply Z.ltb_ge. lia.
    - by destruct (counts id x p); [specialize (Hpq eq_refl)|]. }
  rewrite (follow_if _ _ _ _ E1), (follow_if _ _ _ _ E2). split; [|done].
  unfold follow. destruct (counts id x q), (counts id x p); try done; [|by specialize (Hpq eq_refl)].
  unfold taken. rewrite Hb, Hn.
  destruct (isBowOut (proposal q)); cbn [fst snd]; [by rewrite delete_insert_eq|by rewrite insert_insert_eq].
Qed.

Lemma follow_elsewhere id x p : prevLedger (proposal p) <> id -> follow id x p = x.
Proof. intros Hl. apply (follow_if _ _ _ false). unfold counts. by rewrite (proj2 (N.eqb_neq _ _) Hl). Qed.

(** Messages that cannot be told apart by node and number are the same. *)
Definition distinct ps : Prop :=
  Forall (fun p => seqOf p <= kSeqLeave) ps /\
  forall p q, p ∈ ps -> q ∈ ps -> node p = node q -> seqOf p = seqOf q -> p = q.

Lemma follow_comm id x p q : distinct [p; q] -> follow id (follow id x p) q = follow id (follow id x q) p.
Proof.
  intros [Hr Hd]. destruct (decide (node p = node q)) as [Hn|Hn]; [|by apply follow_other].
  rewrite !Forall_cons in Hr. destruct Hr as (Hp & Hq & _).
  destruct (decide (prevLedger (proposal p) = prevLedger (proposal q))) as [Hl|Hl].
  - destruct (Z.lt_total (seqOf p) (seqOf q)) as [Hs|[Hs|Hs]].
    + destruct (follow_older id x p q) as [E1 E2]; [done..|lia|]. by rewrite E1, E2.
    + assert (p = q) as -> by (apply Hd; [set_solver..|done|done]). done.
    + destruct (follow_older id x q p) as [E1 E2]; [done..|lia|]. by rewrite E1, E2.
  - destruct (decide (prevLedger (proposal p) = id)) as [Hp'|Hp'].
    + rewrite !(follow_elsewhere id _ q) by congruence. done.
    + by rewrite !(follow_elsewhere id _ p).
Qed.

(** *** Any number of messages *)

Lemma distinct_perm ps qs : ps ≡ₚ qs -> distinct ps -> distinct qs.
Proof. intros E [H1 H2]. split; [by rewrite <-E|]. intros p q Hp Hq. apply H2; by rewrite E. Qed.

Lemma follow_perm id ps qs x : ps ≡ₚ qs -> distinct ps -> foldl (follow id) x ps = foldl (follow id) x qs.
Proof.
  intros E. revert x. induction E as [|p ps qs E IH|p q ps|ps qs rs E1 IH1 E2 IH2]; intros x Hd; cbn [foldl].
  - done.
  - apply IH. destruct Hd as [H1 H2]. inversion H1; subst. split; [done|]. intros a b Ha Hb. apply H2; by right.
  - f_equal. apply follow_comm. destruct Hd as [H1 H2]. rewrite !Forall_cons in H1.
    split; [rewrite !Forall_cons; by split_and!; try apply H1|]. intros a b Ha Hb. apply H2; set_solver.
  - rewrite IH1 by done. apply IH2. by apply (distinct_perm ps).
Qed.

(** What is tracked: the newest position of every node that has not left. *)
Record tracks (id : N) x (ps : list PeerPosition_t) y : Prop := {
  tr_dead : forall n, n ∈ y.2 <-> n ∈ x.2 \/
    exists p, p ∈ ps /\ node p = n /\ prevLedger (proposal p) = id /\ isBowOut (proposal p) = true;
  tr_from : forall n p, y.1 !! n = Some p -> x.1 !! n = Some p \/
    (p ∈ ps /\ node p = n /\ prevLedger (proposal p) = id);
  tr_newest : forall p, p ∈ ps -> prevLedger (proposal p) = id -> node p ∉ y.2 ->
    exists p', y.1 !! node p = Some p' /\ seqOf p <= seqOf p';
  tr_kept : forall n p, x.1 !! n = Some p -> n ∉ y.2 -> exists p', y.1 !! n = Some p' /\ seqOf p <= seqOf p';
  tr_alive : forall n p, y.1 !! n = Some p -> seqOf p < kSeqLeave
}.

(** One more message. *)
Lemma counts_false id y q : counts id y q = false ->
  prevLedger (proposal q) <> id \/ node q ∈ y.2 \/ exists o, y.1 !! node q = Some o /\ seqOf q <= seqOf o.
Proof.
  unfold counts, newer. rewrite !andb_false_iff, negb_false_iff, N.eqb_neq, bool_decide_eq_true.
  destruct (y.1 !! node q) as [o|] eqn:Eo; [|naive_solver]. rewrite Z.ltb_ge. naive_solver.
Qed.
Lemma counts_true id y q : counts id y q = true ->
  prevLedger (proposal q) = id /\ node q ∉ y.2 /\ (forall o, y.1 !! node q = Some o -> seqOf o < seqOf q).
Proof.
  unfold counts, newer. rewrite !andb_true_iff, negb_true_iff, N.eqb_eq, bool_decide_eq_false.
  intros [[H1 H2] H3]. split_and!; [done..|]. intros o Ho. rewrite Ho in H3. by apply Z.ltb_lt.
Qed.

Lemma tracks_ignored id x ps y q : tracks id x ps y -> counts id y q = false -> seqOf q <= kSeqLeave -> tracks id x (ps ++ [q]) y.
Proof.
  intros [D F W K B] Hc%counts_false Hq. split; [| |intros p| done|done].
  - intros n. rewrite D. split; [intros [?|(p & ? & ?)]; [by left|right; exists p; set_solver]|].
    intros [?|(p & [Hp| ->%list_elem_of_singleton]%elem_of_app & Hn & Hl & Hb)]; [by left|right; eauto|].
    destruct Hc as [?|[Hd|(o & Ho & Hs)]]; [done|rewrite Hn in Hd; by apply D|].
    apply B in Ho. unfold isBowOut in Hb. apply Z.eqb_eq in Hb. lia.
  - intros n p [?|(? & ?)]%F; [by left|right]. set_solver.
  - intros [Hp| ->%list_elem_of_singleton]%elem_of_app Hl Hn; [by apply W|].
    destruct Hc as [?|[Hd|?]]; done.
Qed.

Lemma tracks_left id x ps y q : tracks id x ps y -> counts id y q = true -> isBowOut (proposal q) = true ->
  tracks id x (ps ++ [q]) (delete (node q) y.1, {[node q]} ∪ y.2).
Proof.
  intros [D F W K B] (Hl & Hd & Hs)%counts_true Hb. split; cbn [fst snd].
  - intros n. rewrite elem_of_union, elem_of_singleton, D. split.
    + intros [->|[?|(p & ? & ?)]]; [right; exists q; set_solver|by left|right; exists p; set_solver].
    + intros [?|(p & [Hp| ->%list_elem_of_singleton]%elem_of_app & Hn & Hl' & Hb')]; [by auto|right; right; eauto|by left].
  - intros n p [_ [?|(? & ?)]%F]%lookup_delete_Some; [by left|right]. set_solver.
  - intros p [Hp| ->%list_elem_of_singleton]%elem_of_app Hl' Hn; [|set_solver].
    rewrite lookup_delete_ne by set_solver. apply W; [done..|set_solver].
  - intros n p Hp Hn. rewrite lookup_delete_ne by set_solver. apply (K n p Hp). set_solver.
  - intros n p [_ Hp]%lookup_delete_Some. by apply B in Hp.
Qed.

Lemma tracks_taken id x ps y q : tracks id x ps y -> counts id y q = true -> isBowOut (proposal q) = false ->
  seqOf q <= kSeqLeave -> tracks id x (ps ++ [q]) (<[node q := q]> y.1, y.2).
Proof.
  intros [D F W K B] (Hl & Hd & Hs)%counts_true Hb Hq. split; cbn [fst snd].
  - intros n. rewrite D. split; [intros [?|(p & ? & ?)]; [by left|right; exists p; set_solver]|].
    intros [?|(p & [Hp| ->%list_elem_of_singleton]%elem_of_app & Hn & Hl' & Hb')]; [by left|right; eauto|congruence].
  - intros n p [[<- <-]|[_ [?|(? & ?)]%F]]%lookup_insert_Some; [right; set_solver|by left|right; set_solver].
  - intros p [Hp| ->%list_elem_of_singleton]%elem_of_app Hl' Hn; [|exists q; by rewrite lookup_insert_eq].
    destruct (W p Hp Hl' Hn) as (p' & Hp' & Hle). destruct (decide (node p = node q)) as [E|E].
    + rewrite E in *. exists q. rewrite lookup_insert_eq. specialize (Hs p' Hp'). split; [done|lia].
    + rewrite lookup_insert_ne by done. eauto.
  - intros n p Hp Hn. destruct (K n p Hp Hn) as (p' & Hp' & Hle). destruct (decide (n = node q)) as [->|E].
    + exists q. rewrite lookup_insert_eq. specialize (Hs p' Hp'). split; [done|lia].
    + rewrite lookup_insert_ne by done. eauto.
  - intros n p [[<- <-]|[_ Hp]]%lookup_insert_Some; [|by apply B in Hp].
    unfold isBowOut in Hb. apply Z.eqb_neq in Hb. lia.
Qed.

Lemma tracks_perm id x ps qs y : ps ≡ₚ qs -> tracks id x ps y -> tracks id x qs y.
Proof.
  intros E [D F W K B]. split; [|intros n p [?|?]%F; [by left|right; by rewrite <-E]|intros p; rewrite <-E; apply W|done|done].
  intros n. rewrite D. by setoid_rewrite E.
Qed.

Lemma follow_tracks id x ps :
  (forall n p, x.1 !! n = Some p -> seqOf p < kSeqLeave) -> Forall (fun p => seqOf p <= kSeqLeave) ps ->
  tracks id x ps (foldl (follow id) x ps).
Proof.
  intros Hx. induction ps as [|q ps IH] using rev_ind; intros Hps.
  { split; cbn; [set_solver|by left|set_solver|intros n p Hp _; exists p; split; [done|lia]|done]. }
  apply Forall_app in Hps as [Hps [Hq _]%Forall_cons]. specialize (IH Hps). rewrite foldl_app. cbn [foldl].
  destruct (counts id (foldl (follow id) x ps) q) eqn:Ec; rewrite (follow_if _ _ _ _ Ec); [|by apply tracks_ignored].
  unfold taken. destruct (isBowOut (proposal q)) eqn:Eb; [by apply tracks_left|by apply tracks_taken].
Qed.
End follow.

(** ** The operations *)

Section order.
Context {A : Type} `{TL : TraitsLaws} `{!RoundAdaptor A} `{HashOrder}.
Context (circ : option (gmap N Tx_t)) (budget : A -> nat) `{RL : !RoundLaws A circ budget}.
Implicit Types (st : Consensus * (A * list Event)) (c : Consensus) (ps : list PeerPosition_t).

(** Messages received one after the other. *)
Definition deliver (now : Z) ps : ST (Consensus * (A * list Event)) () :=
  for_each (fun p => _ ← peerProposal now p; mret ()) ps.
Definition positions c : gmap N PeerPosition_t * gset N := (currPeerPositions_ c, deadNodes_ c).

Lemma deliver_total now ps st : Inv circ st.1 -> phase_ st.1 <> Accepted ->
  total (deliver now ps) st (fun _ st' => Inv circ st'.1 /\ phase_ st'.1 = phase_ st.1 /\
    positions st'.1 = foldl (follow (prevLedgerID_ st.1)) (positions st.1) ps).
Proof using All.
  revert st. induction ps as [|p ps IH]; intros st Hi Hph; [by apply total_ret|]. cbn [deliver for_each foldl].
  apply total_bind, total_bind. eapply total_mono; [by apply (peerProposal_total circ budget)|].
  intros b st1 (Hi1 & [E _ _] & Ht). apply total_ret.
  assert (phase_ st1.1 = phase_ st.1) as Ep by exact (f_equal phase_ E).
  assert (prevLedgerID_ st1.1 = prevLedgerID_ st.1) as El by exact (f_equal prevLedgerID_ E).
  eapply total_mono; [apply IH; [done|congruence]|]. intros [] st2 (Hi2 & Ep2 & Hp2).
  split_and!; [done|congruence|]. rewrite Hp2, El. f_equal. unfold positions. rewrite <-(track_follow st.1 p Hph), <-Ht. done.
Qed.

(** The messages kept of each node are played back. *)
Lemma playbackProposals_follow st : Inv circ st.1 -> phase_ st.1 <> Accepted ->
  total playbackProposals st (fun _ st' => Inv circ st'.1 /\
    positions st'.1 = foldl (follow (prevLedgerID_ st.1)) (positions st.1) (concat (order (recentPeerPositions_ st.1)).*2)).
Proof using All.
  intros Hi Hph. unfold playbackProposals. steps. generalize (order (recentPeerPositions_ st.1)). intros xs.
  assert (forall ps st1, Inv circ st1.1 -> phase_ st1.1 = phase_ st.1 -> prevLedgerID_ st1.1 = prevLedgerID_ st.1 ->
    total (for_each (playback_one (A := A)) ps) st1 (fun _ st' => Inv circ st'.1 /\ phase_ st'.1 = phase_ st.1 /\
      prevLedgerID_ st'.1 = prevLedgerID_ st.1 /\
      positions st'.1 = foldl (follow (prevLedgerID_ st.1)) (positions st1.1) ps)) as Hone.
  { induction ps as [|p ps IH]; intros st1 Hi1 Ep El; [by apply total_ret|]. cbn [for_each foldl]. apply total_bind.
    unfold playback_one. steps. rewrite El. unfold when. destruct (N.eqb_spec (prevLedger (proposal p)) (prevLedgerID_ st.1)) as [Hl|Hl].
    - apply total_bind. eapply total_mono; [by apply (peerProposalInternal_total circ budget)|].
      intros b st2 (Hi2 & [E _ _] & Ht).
      assert (positions st2.1 = follow (prevLedgerID_ st.1) (positions st1.1) p) as <-.
      { unfold positions. rewrite <-El, <-(track_follow st1.1 p), <-Ht by congruence. done. }
      assert (phase_ st2.1 = phase_ st.1) as Ep2 by (rewrite <-Ep; exact (f_equal phase_ E)).
      assert (prevLedgerID_ st2.1 = prevLedgerID_ st.1) as El2 by (rewrite <-El; exact (f_equal prevLedgerID_ E)).
      destruct b; steps; [by apply (IH (st2.1, _))|by apply IH].
    - apply total_ret. rewrite follow_elsewhere by done. by apply IH. }
  assert (forall st1, Inv circ st1.1 -> phase_ st1.1 = phase_ st.1 -> prevLedgerID_ st1.1 = prevLedgerID_ st.1 ->
    total (for_each (fun x : N * list PeerPosition_t => for_each (playback_one (A := A)) x.2) xs) st1 (fun _ st' => Inv circ st'.1 /\
      positions st'.1 = foldl (follow (prevLedgerID_ st.1)) (positions st1.1) (concat xs.*2))) as Hall; [|by apply Hall].
  induction xs as [|[n ps] xs IH]; intros st1 Hi1 Ep El; [by apply total_ret|]. cbn [for_each fmap list_fmap concat snd].
  apply total_bind. eapply total_mono; [by apply Hone|]. intros [] st2 (Hi2 & Ep2 & El2 & Hp2).
  eapply total_mono; [by apply IH|]. intros [] st3 (Hi3 & Hp3). split; [done|]. by rewrite foldl_app, Hp3, Hp2.
Qed.

Lemma concat_perm {X} (xs ys : list (list X)) : xs ≡ₚ ys -> concat xs ≡ₚ concat ys.
Proof.
  induction 1 as [|x xs ys _ IH|x y xs|xs ys zs _ IH1 _ IH2]; cbn; [done|by rewrite IH| |by rewrite IH1].
  rewrite !app_assoc. by rewrite (Permutation_app_comm x y).
Qed.

(** So the newest of the kept positions are tracked in a new round, in
    whatever order the container lists them. *)
Lemma playbackProposals_tracks st : Inv circ st.1 -> phase_ st.1 <> Accepted ->
  (forall n p, currPeerPositions_ st.1 !! n = Some p -> proposeSeq (proposal p) < kSeqLeave) ->
  let kept := concat (map_to_list (recentPeerPositions_ st.1)).*2 in
  Forall (fun p => proposeSeq (proposal p) <= kSeqLeave) kept ->
  total playbackProposals st (fun _ st' => tracks (prevLedgerID_ st.1) (positions st.1) kept (positions st'.1)).
Proof using All.
  intros Hi Hph Hseq kept Hk. eapply total_mono; [by apply playbackProposals_follow|]. intros [] st' [_ ->].
  assert (concat (order (recentPeerPositions_ st.1)).*2 ≡ₚ kept) as E by (by apply concat_perm; rewrite (order_perm _)).
  apply (tracks_perm _ _ _ _ _ E). apply follow_tracks; [done|by rewrite E].
Qed.
End order.
