(* ===== verification/ConsensusRoundProps.v ===== *)
(** * What a consensus round guarantees

    The properties of [Consensus] (Consensus.h) over every run of its
    operations: calls return, disputes are exactly the disagreements, our
    proposals are numbered in order, a round is accepted once and only on
    agreement, agreement is accepted, the order of messages does not matter,
    and two nodes with the same view accept the same set. *)

From S2P Require Import Prelude StateMonad Serializer LedgerHeader Consensus ConsensusTypes ConsensusState ConsensusRound ConsensusLaws ConsensusDisputes ConsensusPosition ConsensusRun ConsensusTimer ConsensusLive.
Open Scope Z_scope.

(** ** An example: numbers as transactions *)

Definition sample_contents (s : gset N) : gmap N N := map_imap (fun k _ => Some k) (gset_to_gmap () s).
Lemma sample_contents_lookup s k : sample_contents s !! k = if bool_decide (k ∈ s) then Some k else None.
Proof.
  unfold sample_contents. rewrite map_lookup_imap, lookup_gset_to_gmap. case_bool_decide.
  - by rewrite option_guard_True.
  - by rewrite option_guard_False.
Qed.

#[export] Instance sample_Traits : Traits := {|
  Ledger_t := N * Z; TxSet_t := gset N; MutableTxSet := gset N; Tx_t := N; PeerPosition_t := ConsensusProposal;
  lgr_id := fst; lgr_seq := snd; lgr_closeTimeResolution _ := 30; lgr_closeAgree _ := true;
  lgr_closeTime _ := 1000; lgr_parentCloseTime _ := 990;
  tx_id x := x; set_id s := Npos (encode s); set_exists k s := bool_decide (k ∈ s);
  set_find k s := if bool_decide (k ∈ s) then Some k else None;
  set_compare s o := (fun k => (k, bool_decide (k ∈ s))) <$> elements ((s ∖ o) ∪ (o ∖ s));
  mutable_of s := s; mset_insert x m := {[x]} ∪ m; mset_erase k m := m ∖ {[k]}; set_of m := m;
  ConsensusTypes.proposal p := p
|}.

Lemma sample_some s k : is_Some (sample_contents s !! k) <-> k ∈ s.
Proof. rewrite sample_contents_lookup. case_bool_decide; split; try done. Qed.
Lemma sample_none s k : sample_contents s !! k = None <-> k ∉ s.
Proof. rewrite eq_None_not_Some, sample_some. done. Qed.
Lemma sample_ext (s : gset N) m : (forall k, k ∈ s -> m !! k = Some k) -> (forall k, k ∉ s -> m !! k = None) -> sample_contents s = m.
Proof. intros H1 H2. apply map_eq. intros k. rewrite sample_contents_lookup. case_bool_decide; symmetry; auto. Qed.
Lemma sample_differ s o k : sample_contents s !! k <> sample_contents o !! k <-> k ∈ (s ∖ o) ∪ (o ∖ s).
Proof. rewrite !sample_contents_lookup. repeat case_bool_decide; set_solver. Qed.

#[export] Instance sample_TraitsLaws : TraitsLaws.
Proof.
  refine {| contents := sample_contents; mcontents := sample_contents; compare_limit := 100 |}; cbn.
  - intros k s. apply bool_decide_ext. by rewrite sample_some.
  - intros k s. by rewrite sample_contents_lookup.
  - intros s k x. rewrite sample_contents_lookup. case_bool_decide; [|done]. by intros [= ->].
  - intros s s' [= E%(inj encode)]. by rewrite E.
  - done.
  - done.
  - intros x m. destruct (sample_contents m !! x) as [y|] eqn:E.
    + f_equal. assert (x ∈ m) by (by apply sample_some; eauto). set_solver.
    + apply sample_none in E. apply sample_ext; intros k Hk; destruct (decide (k = x)) as [->|Hne].
      * by rewrite lookup_insert_eq.
      * rewrite lookup_insert_ne, sample_contents_lookup by done. rewrite bool_decide_true; [done|set_solver].
      * set_solver.
      * rewrite lookup_insert_ne, sample_contents_lookup by done. rewrite bool_decide_false; [done|set_solver].
  - intros x m. apply sample_ext; intros k Hk; destruct (decide (k = x)) as [->|Hne]; try set_solver.
    + rewrite lookup_delete_ne, sample_contents_lookup by done. rewrite bool_decide_true; [done|set_solver].
    + by rewrite lookup_delete_eq.
    + rewrite lookup_delete_ne, sample_contents_lookup by done. rewrite bool_decide_false; [done|set_solver].
  - intros s o k b (k' & [= -> ->] & Hk)%list_elem_of_fmap. apply elem_of_elements, sample_differ in Hk. split; [done|].
    apply bool_decide_ext. by rewrite sample_some.
  - intros s o k _ Hk. eexists. apply list_elem_of_fmap. exists k. split; [done|]. by apply elem_of_elements, sample_differ.
Defined.

(** The world around the node 7: its clock, the ledgers the network will
    prefer, the open transactions, and the sets to be had. *)
Record SampleWorld : Type := mkWorld { w_clock : Z; w_net : list N; w_open : gset N; w_sets : list (gset N) }.
Definition sample_all : gset N := {[1; 2; 3]}%N.

Definition sample_ask {X} (q : Query X) (a : SampleWorld) : X * SampleWorld :=
  match q in Query X return X * SampleWorld with
  | clockNow => (w_clock a, a)
  | acquireLedger id => (Some (id, 5), a)
  | acquireTxSet id =>
      (head (filter (fun s : gset N => Npos (encode s) = id /\ s ⊆ sample_all) (w_sets a)), a)
  | hasOpenTransactions => (true, a)
  | proposersValidated _ => (0, a)
  | proposersFinished _ _ => (0, a)
  | getPrevLedger id _ _ =>
      match w_net a with
      | [] => (id, a)
      | n :: ns => (n, mkWorld (w_clock a) ns (w_open a) (w_sets a))
      end
  | onClose l now _ =>
      let s := w_open a ∩ sample_all in (s, mkProposal l.1 (Npos (encode s)) now now 0 7, a)
  | getValidLedgerIndex => (5, a)
  | getQuorumKeys => (3, {[7; 11; 12; 13]}%N, a)
  | laggards _ _ => (0, ∅, a)
  | validator => (true, a)
  | haveValidated => (true, a)
  | validating => (true, a)
  end.

#[export] Instance sample_RoundAdaptor : RoundAdaptor SampleWorld := {|
  parms := defaultParms; ask X q a := sample_ask q a; tell _ a := a
|}.

Definition sample_circ : option (gmap N (@Tx_t sample_Traits)) := Some (sample_contents sample_all).
Definition sample_budget (a : SampleWorld) : nat := length (w_net a).

Lemma sample_circulates s : s ⊆ sample_all -> circulates sample_circ s.
Proof.
  intros Hs U [= <-]. split; [|by vm_compute; lia]. apply map_subseteq_spec. intros k x.
  cbn [contents sample_TraitsLaws]. rewrite !sample_contents_lookup.
  case_bool_decide; [|done]. rewrite bool_decide_true; [done|set_solver].
Qed.

#[export] Instance sample_RoundLaws : RoundLaws SampleWorld sample_circ sample_budget.
Proof.
  split.
  - intros X q a. unfold sample_budget. destruct q, a as [k [|n ns] o ss]; cbn; lia.
  - done.
  - intros id l m a. unfold sample_budget. destruct a as [k [|n ns] o ss]; cbn; [done|lia].
  - by intros id a l [= <-].
  - intros id a s Hs. cbn in Hs. apply head_Some_elem_of, list_elem_of_filter in Hs as [[Hid Hs] _].
    split; [done|by apply sample_circulates].
  - intros l t m a s p [= <- <-]. split_and!; [done|apply sample_circulates; set_solver|cbn; lia|cbn; lia].
Qed.

#[export] Instance sample_HashOrder : HashOrder := {| order K V _ _ m := map_to_list m; order_perm K V _ _ m := reflexivity _ |}.

(** Calls one after the other, each in a world of its own. *)
Fixpoint play (xs : list (SampleWorld * Operation)) (st : Consensus * (SampleWorld * list Event))
    : result (Consensus * (SampleWorld * list Event)) :=
  match xs with
  | [] => Ok st
  | (a, op) :: xs =>
      match perform 9 op (opened op (st.1, (a, st.2.2))) with
      | Ok (_, st') => play xs st'
      | Throw e => Throw e
      end
  end.

Definition sample_world (seconds : Z) : SampleWorld :=
  mkWorld (seconds * 1000000000) [] {[1; 2]}%N [{[1; 2]}%N; {[1]}%N].
Definition sample_proposal (n : N) (s : gset N) (now seq : Z) : ConsensusProposal :=
  mkProposal 100 (Npos (encode s)) 1000 now seq n.

(** Two peers share our set, the third does not at first. *)
Definition sample_run (i j k : N) : list (SampleWorld * Operation) :=
  [(sample_world 0, StartRound 1000 100%N (100%N, 5) [] true);
   (sample_world 1, PeerProposal 1001 (sample_proposal i {[1; 2]}%N 1001 0));
   (sample_world 1, PeerProposal 1001 (sample_proposal j {[1; 2]}%N 1001 0));
   (sample_world 2, PeerProposal 1002 (sample_proposal k {[1]}%N 1002 0));
   (sample_world 3, TimerEntry 1003);
   (sample_world 4, PeerProposal 1004 (sample_proposal k {[1; 2]}%N 1004 1))].
Definition sample_new : Consensus * (SampleWorld * list Event) :=
  (newConsensus 100%N (100%N, 5), (sample_world 0, [])).
Definition sample_result (x : result (Consensus * (SampleWorld * list Event))) := match x with Ok st => st | Throw _ => sample_new end.
Definition sample_st : Consensus * (SampleWorld * list Event) := sample_result (play (sample_run 11 12 13) sample_new).
Definition sample_last : Consensus * (SampleWorld * list Event) := (sample_st.1, (sample_world 6, sample_st.2.2)).

Lemma reachable_elsewhere st (a : SampleWorld) : reachable sample_circ st -> reachable sample_circ (st.1, (a, st.2.2)).
Proof. destruct st as [c [a0 lg]]. apply reach_world. Qed.
Lemma play_reachable xs st st' : Forall (fun x => forall st : Consensus * (SampleWorld * list Event), allowed sample_circ x.2 st) xs ->
  reachable sample_circ st -> play xs st = Ok st' -> reachable sample_circ st'.
Proof.
  revert st. induction xs as [|[a op] xs IH]; intros st Hal Hst E; [by injection E as <-|]. cbn [play] in E.
  apply Forall_cons in Hal as [Hop Hal]. destruct (perform 9 op _) as [[[] st1]|] eqn:Ep; [|done].
  apply (IH st1); [done| |done].
  eapply (reach_call sample_circ 9 op (st.1, (a, st.2.2))); [|apply Hop|exact Ep].
  by apply reachable_elsewhere.
Qed.

Lemma play_ends xs st : match play xs st with Ok _ => true | Throw _ => false end = true ->
  play xs st = Ok (sample_result (play xs st)).
Proof. by destruct (play xs st). Qed.

Lemma sample_st_reachable : reachable sample_circ sample_st.
Proof.
  apply (play_reachable (sample_run 11 12 13) sample_new); [by repeat constructor|by apply reach_new|].
  apply play_ends. by vm_compute.
Qed.
Lemma sample_last_reachable : reachable sample_circ sample_last.
Proof. apply reachable_elsewhere, sample_st_reachable. Qed.

(** ** Properties *)

Section props.
Context {A : Type} `{TL : TraitsLaws} `{!RoundAdaptor A} `{HashOrder}.
Context (circ : option (gmap N Tx_t)) (budget : A -> nat) `{RL : !RoundLaws A circ budget}.
Implicit Types (st : Consensus * (A * list Event)) (c : Consensus) (r : ConsensusResult).

(** C11. Every call of the class returns: after any sequence of calls, with the
    rest of the server changing at will in between, startRound, timerEntry,
    peerProposal, gotTxSet and simulate end without dereferencing an empty
    result, and timerEntry, which calls itself when it switches ledgers, ends
    after at most one call for each time the network changes its preferred
    ledger, and one more; further fuel makes no difference. *)
Theorem round_calls_return fuel op st :
  reachable circ st -> allowed circ op st -> (S (budget st.2.1) < fuel)%nat ->
  exists st', perform fuel op (opened op st) = Ok ((), st') /\ reachable circ st' /\
    forall fuel', (fuel <= fuel')%nat -> perform fuel' op (opened op st) = Ok ((), st').
Proof using RL.
  intros Hr Hal Hfuel. pose proof (perform_total circ budget fuel op st (reachable_full circ budget st Hr) Hal Hfuel) as Ht.
  unfold total in Ht. destruct (perform fuel op (opened op st)) as [[[] st']|] eqn:E; [|done].
  exists st'. split_and!; [done|by eapply reach_call|]. intros fuel' Hle. by apply (perform_fuel fuel fuel' op Hle).
Qed.

(** C8. At every point of a run the disputes are what the node and its peers
    disagree on: our position names our set; a dispute is about the transaction
    it is filed under, our vote is whether our set has it, the tallies count
    the votes, only current peers vote, and every peer whose set is at hand
    votes as its set says; and if the transactions in circulation are few
    enough for sets to be compared in full, every transaction that our set and
    the set of a peer do not share is disputed. *)
Theorem disputes_are_disagreements st r :
  reachable circ st -> result_ st.1 = Some r ->
  position (our_position r) = set_id (txns r) /\
  (forall k d, disputes r !! k = Some d ->
     tx_id (tx_ d) = k /\ ourVote_ d = set_exists k (txns r) /\
     yays_ d = count_votes true (votes_ d) /\ nays_ d = count_votes false (votes_ d) /\
     (forall n, is_Some (votes_ d !! n) -> is_Some (currPeerPositions_ st.1 !! n)) /\
     (forall n p s, currPeerPositions_ st.1 !! n = Some p -> acquired_ st.1 !! their_position p = Some s ->
        votes_ d !! n = Some (set_exists k s))) /\
  (circ <> None -> forall n p s k, currPeerPositions_ st.1 !! n = Some p ->
     acquired_ st.1 !! their_position p = Some s -> contents s !! k <> contents (txns r) !! k ->
     is_Some (disputes r !! k)).
Proof using RL.
  intros Hr%(reachable_full circ budget) Hres. destruct (i_result _ _ (f_inv _ _ Hr) r Hres) as [P1 _ _ _ Hd Hvr Hv Hcd _ Hcm].
  split_and!; [done| |].
  - intros k d Hk. destruct (Hd k d Hk) as (H1 & [H2 H3] & H4 & _). split_and!; try done.
    + intros n [v Hn]. by apply (Hvr k d n v).
    + intros n p s Hn Hs. by apply (Hv k d n p s); [intros []|..].
  - intros Hc n p s k Hn Hs Hne. apply (Hcm (their_position p) s k); [intros []|done| |done|done].
    apply (Hcd n p); [intros []|done|by rewrite Hs].
Qed.

(** C25. What a node tells the network in a round is in order: the numbers of
    its proposals increase and fit 32 bits, as long as it proposes and has not
    bowed out its last proposal is its position, and a round is accepted at
    most once, and not before the accepted phase. *)
Theorem round_told_in_order st :
  reachable circ st ->
  Forall (fun p => 0 <= proposeSeq p < 2 ^ 32) (proposals st.2.2) /\
  StronglySorted Z.lt (proposeSeq <$> proposals st.2.2) /\
  (forall r, mode_ st.1 = Proposing -> result_ st.1 = Some r -> isBowOut (our_position r) = false ->
     last (proposals st.2.2) = Some (our_position r)) /\
  (length (accepts st.2.2) <= 1)%nat /\ (phase_ st.1 <> Accepted -> accepts st.2.2 = []).
Proof using RL.
  intros Hr%(reachable_full circ budget). destruct Hr as [_ [H1 H2 H3 H4 H5] _]. split_and!; try done.
  intros r Hm Hres. specialize (H3 Hm). rewrite Hres in H3. apply H3.
Qed.

(** C9. A round is accepted only on agreement.  When a call other than
    simulate brings a node to the accepted phase: the round took at least the
    minimal time; there is consensus on the close time, that is, there are no
    peers or the close time of our position is named by at least
    [participantsNeeded n 75] of the n participants, ourselves included while
    we propose, which is three quarters of them to the nearest integer, halves down
    (1 of 2, 2 of 3, 3 of 4); the outcome is not "no";
    with the outcome "yes" either at least 80 per cent of the participants have
    our position, or every dispute is stalled, or we have been alone for longer
    than the maximal time; with the outcome "expired" the maximal time has
    passed and we no longer propose; and the adaptor is told of this outcome. *)
Theorem round_accepted_on_agreement fuel op st st' r :
  parms = defaultParms -> reachable circ st -> allowed circ op st ->
  perform fuel op (opened op st) = Ok ((), st') -> result_ st'.1 = Some r -> numPositions st'.1 < 2 ^ 32 ->
  phase_ st'.1 = Accepted -> (forall now delay, op <> Simulate now delay) ->
  phase_ st.1 <> Accepted \/ (exists now id l ns b, op = StartRound now id l ns b) ->
  1950 <= read (roundTime r) /\ state r <> No /\
  (exists v, last st'.2.2 = Some (OnAccept r (previousLedger_ st'.1) (closeResolution_ st'.1)
                                    (rawCloseTimes_ st'.1) (mode_ st'.1) v)) /\
  (state r = Expired -> 15000 < read (roundTime r) /\ proposing st'.1 = false) /\
  exists b, (state r <> Expired -> b = proposing st'.1) /\
    (exists t, (t = prop_closeTime (our_position r) \/ t = asCloseTime st'.1 (prop_closeTime (our_position r))) /\
       (currPeerPositions_ st'.1 = ∅ \/
        participantsNeeded (numPositions st'.1 + self b) 75 <=
          count_times st'.1 t (map_to_list (currPeerPositions_ st'.1)) + self b)) /\
    (state r = Yes ->
       (currPeerPositions_ st'.1 = ∅ /\ 15000 < read (roundTime r)) \/
       (disputes r <> ∅ /\ forall k d, disputes r !! k = Some d ->
          stalled d defaultParms b (peerUnchangedCounter_ st'.1) = true) \/
       (currPeerPositions_ st'.1 <> ∅ /\ 80 * (numPositions st'.1 + self b) <= (agreeing st'.1 r + self b) * 100)).
Proof using RL.
  intros Hp Hr Hal E Hres Hn Hacc Hsim Hfrom.
  destruct (perform_post circ budget _ _ _ _ (reachable_full circ budget _ Hr) Hal E) as (_ & _ & _ & Hpost).
  destruct (Hpost Hacc) as [[Hph Hns]|[(now & delay & ->)|(r' & b & [_ Hr' Htold _ Hok])]].
  { destruct Hfrom as [?|(now & id & l & ns & b & ->)]; [done|by destruct (Hns now id l ns b)]. }
  { by destruct (Hsim now delay). }
  assert (r' = r) as -> by congruence. pose proof (verdict_decided _ _ _ Hok Hn) as Hyes.
  pose proof (verdict_expired Hp _ _ _ Hok) as Hex. unfold decided in Hyes. destruct Hok as [[_ Hmin] Hpr [Hno _] Hct].
  rewrite Hp in *. cbn [defaultParms ledgerMinConsensus ledgerMaxConsensus avCtConsensusPct minConsensusPct] in *.
  split_and!; [done|done|done|done|]. exists b. split_and!; [|done|done].
  intros Hne. rewrite bool_decide_false in Hpr by done. done.
Qed.

(** C10. Agreement is accepted.  If every peer has our position and, up to
    rounding, our close time, none of them is stale, the minimal time has
    passed, no trusted validator lags behind, at least three quarters of the
    proposers of the last round are there, getPrevLedger answers the identifier
    of the ledger we work on and our previous ledger has this identifier (so
    that the timer does not turn to another ledger), then the next call of the
    timer accepts the round with the outcome "yes", for the set of transactions
    of our position. *)
Theorem unanimous_round_accepted fuel now st r :
  parms = defaultParms -> reachable circ st -> phase_ st.1 = Establish -> result_ st.1 = Some r ->
  lgr_id (previousLedger_ st.1) = prevLedgerID_ st.1 ->
  let q := getPrevLedger (prevLedgerID_ st.1) (previousLedger_ st.1) (mode_ st.1) in
  (ask q st.2.1).1 = prevLedgerID_ st.1 -> no_laggards (A := A) ->
  1950 < read (tick (roundTime r) (ask clockNow (ask q st.2.1).2).1) ->
  0 < numPositions st.1 < 2 ^ 32 -> 0 <= prevProposers_ st.1 < 2 ^ 32 ->
  prevProposers_ st.1 * 3 / 4 <= numPositions st.1 ->
  (forall n p, currPeerPositions_ st.1 !! n = Some p ->
     their_position p = position (our_position r) /\
     asCloseTime st.1 (prop_closeTime (ConsensusTypes.proposal p)) = asCloseTime st.1 (prop_closeTime (our_position r)) /\
     isStale (ConsensusTypes.proposal p) (u32 (now - 20)) = false) ->
  exists st' r', timerEntry (S fuel) now st = Ok ((), st') /\ phase_ st'.1 = Accepted /\
    result_ st'.1 = Some r' /\ state r' = Yes /\ txns r' = txns r.
Proof using RL.
  intros Hp Hr Hph Hres Hl q Hq Hno Hmin Hn Hpp H34 Hall. rewrite (timerEntry_establish fuel now st Hph Hl Hq). fold q.
  set (st1 := (set_now now st.1, ((ask q st.2.1).2, st.2.2))).
  assert (Full circ st1) as Hf1.
  { destruct (reachable_full circ budget _ Hr) as [[[] ? ?] [] ?]. by split; [split; [split|..]|split|]. }
  assert (unanimous st1.1 r) as Hu.
  { split; [|intros n p Hnp; rewrite Hp; by apply (Hall n p)]. intros E.
    change (currPeerPositions_ st1.1) with (currPeerPositions_ st.1) in E.
    unfold numPositions in Hn. rewrite E, map_size_empty in Hn. lia. }
  pose proof (phaseEstablish_unanimous circ budget Hp st1 r Hf1 Hph Hres Hu Hno) as Ht.
  rewrite Hp in Ht. specialize (Ht Hmin (proj2 Hn) Hpp H34). unfold total in Ht.
  destruct (phaseEstablish st1) as [[[] st']|] eqn:E; [|done]. destruct Ht as (H1 & r' & H2 & H3 & H4). eauto 8.
Qed.

(** The order in which the proposals of peers arrive does not matter.  In
    a round that is not over, the same proposals received in any two orders
    lead to the same tracked positions and the same departed nodes, provided
    two proposals of a node with the same number are the same: of every node
    that has not bowed out the newest proposal for our previous ledger is kept,
    and a node that bows out is out, whatever else it says. *)
Theorem proposals_in_any_order now ps qs st :
  reachable circ st -> phase_ st.1 <> Accepted -> ps ≡ₚ qs -> distinct ps ->
  (forall n p, currPeerPositions_ st.1 !! n = Some p -> proposeSeq (ConsensusTypes.proposal p) <= kSeqLeave) ->
  exists st1 st2, deliver now ps st = Ok ((), st1) /\ deliver now qs st = Ok ((), st2) /\
    currPeerPositions_ st1.1 = currPeerPositions_ st2.1 /\ deadNodes_ st1.1 = deadNodes_ st2.1 /\
    tracks (prevLedgerID_ st.1) (positions st.1) ps (positions st1.1).
Proof using RL.
  intros Hr%(reachable_full circ budget) Hph E Hd Hseq. pose proof (f_inv _ _ Hr) as Hi.
  pose proof (deliver_total circ budget now ps st Hi Hph) as T1. pose proof (deliver_total circ budget now qs st Hi Hph) as T2.
  unfold total in T1, T2. destruct (deliver now ps st) as [[[] st1]|]; [|done]. destruct (deliver now qs st) as [[[] st2]|]; [|done].
  destruct T1 as (_ & _ & P1), T2 as (_ & _ & P2). pose proof (follow_perm (prevLedgerID_ st.1) ps qs (positions st.1) E Hd) as Ef.
  assert (positions st1.1 = positions st2.1) as [= E1 E2] by congruence.
  exists st1, st2. split_and!; [done..|]. rewrite P1. apply follow_tracks; [|apply Hd].
  intros n p Hn. specialize (Hseq n p Hn). destruct (i_peers _ _ (i_base _ _ Hi) n p Hn) as (_ & _ & Hb & _).
  unfold isBowOut in Hb. apply Z.eqb_neq in Hb. lia.
Qed.

(** C24. Nodes that count the same votes accept the same transactions: if two
    nodes have accepted a round with the outcome "yes", neither because all its
    disputes were stalled nor for want of peers, and the positions each counted
    (those of its peers, and its own if it proposes) are the same, then their
    positions are the same and so are the sets of transactions they accepted. *)
Theorem same_view_same_set me1 me2 st1 st2 r1 r2 :
  parms = defaultParms -> reachable circ st1 -> reachable circ st2 ->
  phase_ st1.1 = Accepted -> phase_ st2.1 = Accepted -> result_ st1.1 = Some r1 -> result_ st2.1 = Some r2 ->
  state r1 = Yes -> state r2 = Yes ->
  0 < numPositions st1.1 < 2 ^ 32 -> 0 < numPositions st2.1 < 2 ^ 32 ->
  ~ (disputes r1 <> ∅ /\ forall k d, disputes r1 !! k = Some d ->
       stalled d defaultParms (proposing st1.1) (peerUnchangedCounter_ st1.1) = true) ->
  ~ (disputes r2 <> ∅ /\ forall k d, disputes r2 !! k = Some d ->
       stalled d defaultParms (proposing st2.1) (peerUnchangedCounter_ st2.1) = true) ->
  currPeerPositions_ st1.1 !! me1 = None -> currPeerPositions_ st2.1 !! me2 = None ->
  view me1 st1.1 r1 (proposing st1.1) = view me2 st2.1 r2 (proposing st2.1) ->
  position (our_position r1) = position (our_position r2) /\ contents (txns r1) = contents (txns r2).
Proof using RL.
  intros Hp R1 R2 A1 A2 E1 E2 Y1 Y2 N1 N2 S1 S2 M1 M2 Hv.
  assert (forall st r, reachable circ st -> phase_ st.1 = Accepted -> result_ st.1 = Some r -> state r = Yes ->
    0 < numPositions st.1 < 2 ^ 32 -> ~ (disputes r <> ∅ /\ forall k d, disputes r !! k = Some d ->
       stalled d defaultParms (proposing st.1) (peerUnchangedCounter_ st.1) = true) ->
    80 * (numPositions st.1 + self (proposing st.1)) <= (agreeing st.1 r + self (proposing st.1)) * 100) as Hq.
  { intros st r Hr Ha He Hy Hn Hs. destruct (reachable_accepted circ budget st Hr Ha r He) as [?|[b Hb]]; [congruence|].
    pose proof (verdict_decided _ _ _ Hb (proj2 Hn) Hy) as Hd. pose proof (ac_proposing _ _ _ Hb) as Hpr.
    rewrite Hy, bool_decide_false in Hpr by done. subst b. unfold decided in Hd. rewrite Hp in Hd.
    destruct Hd as [[E _]|[?|[_ Hd]]]; [|done|exact Hd]. unfold numPositions in Hn. rewrite E, map_size_empty in Hn. lia. }
  assert (position (our_position r1) = position (our_position r2)) as Epos.
  { apply (same_view_position me1 me2 st1.1 st2.1 r1 r2 (proposing st1.1) (proposing st2.1)); rewrite ?Hp; try done; [|by apply Hq..].
    unfold self. destruct (proposing st1.1); lia. }
  split; [done|]. apply set_id_inj.
  rewrite <-(r_pos _ _ _ _ _ _ _ (i_result _ _ (f_inv _ _ (reachable_full circ budget _ R1)) r1 E1)).
  by rewrite <-(r_pos _ _ _ _ _ _ _ (i_result _ _ (f_inv _ _ (reachable_full circ budget _ R2)) r2 E2)).
Qed.

(** A node proposes only on the ledger it means to build on, and only if
    the round was started for it to propose: when the previous ledger at hand
    is not the one wanted the mode is "wrong ledger", and no call makes a node
    propose that did not propose before, except startRound when asked to. *)
Theorem proposing_on_right_ledger fuel op st st' :
  reachable circ st -> allowed circ op st -> perform fuel op (opened op st) = Ok ((), st') ->
  (lgr_id (previousLedger_ st'.1) <> prevLedgerID_ st'.1 -> mode_ st'.1 = WrongLedger) /\
  (mode_ st'.1 = Proposing -> (exists now id l ns, op = StartRound now id l ns true) \/ mode_ st.1 = Proposing).
Proof using RL.
  intros Hr%(reachable_full circ budget) Hal E. destruct (perform_post circ budget _ _ _ _ Hr Hal E) as (Hf & _ & Hm & _).
  split; [apply Hf|done].
Qed.
End props.

(** *** Pausing *)

Definition thresholds_agree (total phase nonLaggards : Z) : bool :=
  let quorum := (4 * total + 4) / 5 in
  Bool.eqb (lagging nonLaggards total quorum phase)
    ((4 * nonLaggards <? 4 * quorum + (total - quorum) * phase) ||
     bool_decide ((total, phase, nonLaggards) ∈ [(14, 2, 13); (34, 2, 31)])).
Lemma thresholds_checked :
  forallb (fun total => forallb (fun phase => forallb (thresholds_agree total phase) (seqZ 0 (total + 1)))
    (seqZ 1 3)) (seqZ 1 60) = true.
Proof. by vm_compute. Qed.

(** C38. How long a node waits for laggards: with up to 60 trusted validators
    and a quorum of 80 per cent, in the phases 1 to 3 of shouldPause the node
    pauses exactly if fewer validators keep up than the quorum and phase/4 of
    the others, except in two cases in which exactly as many keep up as are
    needed and the rounding of the 32-bit floats makes it pause: 13 of 14 and
    31 of 34 validators in the phase 2. *)
Theorem pause_thresholds total phase nonLaggards :
  1 <= total <= 60 -> 1 <= phase <= 3 -> 0 <= nonLaggards <= total ->
  let quorum := (4 * total + 4) / 5 in
  lagging nonLaggards total quorum phase = true <->
  4 * nonLaggards < 4 * quorum + (total - quorum) * phase \/
  (total, phase, nonLaggards) = (14, 2, 13) \/ (total, phase, nonLaggards) = (34, 2, 31).
Proof.
  intros Ht Hp Hn quorum. pose proof thresholds_checked as Hc. rewrite forallb_forall in Hc.
  specialize (Hc total). rewrite forallb_forall in Hc.
  specialize (Hc ltac:(apply list_elem_of_In, elem_of_seqZ; lia) phase). rewrite forallb_forall in Hc.
  specialize (Hc ltac:(apply list_elem_of_In, elem_of_seqZ; lia) nonLaggards ltac:(apply list_elem_of_In, elem_of_seqZ; lia)).
  unfold thresholds_agree in Hc. fold quorum in Hc. apply eqb_prop in Hc. rewrite Hc.
  rewrite orb_true_iff, Z.ltb_lt, bool_decide_eq_true, !elem_of_cons, elem_of_nil. tauto.
Qed.

(** ** Witnesses *)

Lemma some_of {X} (o : option X) (x : X) : match o with Some _ => true | None => false end = true ->
  o = Some (match o with Some y => y | None => x end).
Proof. by destruct o. Qed.

Lemma moved_fst {X Y Z} (st : X * (Y * Z)) (a : Y) : (st.1, (a, st.2.2)).1 = st.1.
Proof. done. Qed.

Definition sample_none_r : ConsensusResult := newResult ∅ (sample_proposal 0 ∅ 0 0).
Definition sample_r : ConsensusResult := match result_ sample_st.1 with Some r => r | None => sample_none_r end.
Lemma sample_r_result : result_ sample_last.1 = Some sample_r.
Proof. unfold sample_last. rewrite moved_fst. unfold sample_r. apply some_of. by vm_compute. Qed.

(** The round accepted, by the node 7 and by the node 11. *)
Definition sample_full (i j k : N) : list (SampleWorld * Operation) :=
  sample_run i j k ++ [(sample_world 6, TimerEntry 1006)].
Definition sample_done (i j k : N) : Consensus * (SampleWorld * list Event) :=
  sample_result (play (sample_full i j k) sample_new).
Definition sample_done_r (i j k : N) : ConsensusResult :=
  match result_ (sample_done i j k).1 with Some r => r | None => sample_none_r end.
Lemma sample_done_reachable i j k : match play (sample_full i j k) sample_new with Ok _ => true | Throw _ => false end = true ->
  reachable sample_circ (sample_done i j k).
Proof.
  intros E. apply (play_reachable (sample_full i j k) sample_new); [by repeat constructor|by apply reach_new|].
  by apply play_ends.
Qed.
Lemma sample_done_step : perform 9 (TimerEntry 1006) sample_last = Ok ((), sample_done 11 12 13).
Proof.
  assert (forall a op xs st0, match play (xs ++ [(a, op)]) st0 with Ok _ => true | Throw _ => false end = true ->
    let st := sample_result (play xs st0) in
    perform 9 op (opened op (st.1, (a, st.2.2))) = Ok ((), sample_result (play (xs ++ [(a, op)]) st0))) as Hp.
  { intros a op xs. induction xs as [|[b o] xs IH]; intros st0; cbn [play app].
    - cbn [sample_result]. destruct (perform 9 op _) as [[[] st1]|]; [|done]. done.
    - destruct (perform 9 o _) as [[[] st1]|]; [|done]. apply IH. }
  apply (Hp (sample_world 6) (TimerEntry 1006) (sample_run 11 12 13) sample_new). by vm_compute.
Qed.

Lemma round_calls_return_witness :
  exists st', perform 9 (TimerEntry 1006) sample_last = Ok ((), st') /\ reachable sample_circ st' /\
    forall fuel', (9 <= fuel')%nat -> perform fuel' (TimerEntry 1006) sample_last = Ok ((), st').
Proof.
  apply (round_calls_return sample_circ sample_budget 9 (TimerEntry 1006) sample_last sample_last_reachable I). by vm_compute; lia.
Defined.

Lemma disputes_are_disagreements_witness :
  position (our_position sample_r) = set_id (txns sample_r) /\ disputes sample_r <> ∅.
Proof.
  split; [|by apply (bool_decide_unpack _); vm_compute].
  exact (proj1 (disputes_are_disagreements sample_circ sample_budget sample_last sample_r sample_last_reachable sample_r_result)).
Defined.

Lemma round_told_in_order_witness :
  last (proposals sample_last.2.2) = Some (our_position sample_r) /\ (length (accepts sample_last.2.2) <= 1)%nat.
Proof.
  destruct (round_told_in_order sample_circ sample_budget sample_last sample_last_reachable) as (_ & _ & H1 & H2 & _).
  split; [|done]. apply H1; [by vm_compute|exact sample_r_result|by vm_compute].
Defined.

Lemma round_accepted_on_agreement_witness :
  1950 <= read (roundTime (sample_done_r 11 12 13)) /\ state (sample_done_r 11 12 13) = Yes.
Proof.
  split; [|by vm_compute].
  refine (proj1 (round_accepted_on_agreement sample_circ sample_budget 9 (TimerEntry 1006) sample_last (sample_done 11 12 13)
    (sample_done_r 11 12 13) eq_refl sample_last_reachable I sample_done_step _ _ _ _ _)).
  - apply some_of. by vm_compute.
  - by vm_compute.
  - by vm_compute.
  - done.
  - left. by vm_compute.
Defined.

Lemma sample_peers_agree : map_Forall (fun _ p =>
    position p = position (our_position sample_r) /\
    asCloseTime sample_last.1 (prop_closeTime p) = asCloseTime sample_last.1 (prop_closeTime (our_position sample_r)) /\
    isStale p (u32 (1006 - 20)) = false) (currPeerPositions_ sample_last.1).
Proof. apply (bool_decide_unpack _). by vm_compute. Qed.

Lemma unanimous_round_accepted_witness :
  exists st' r', timerEntry 1 1006 sample_last = Ok ((), st') /\ phase_ st'.1 = Accepted /\
    result_ st'.1 = Some r' /\ state r' = Yes /\ txns r' = txns sample_r.
Proof.
  refine (unanimous_round_accepted sample_circ sample_budget 0 1006 sample_last sample_r eq_refl sample_last_reachable
    _ sample_r_result _ _ _ _ _ _ _ sample_peers_agree).
  - by vm_compute.
  - by vm_compute.
  - by vm_compute.
  - by intros seq keys a.
  - by vm_compute.
  - by vm_compute.
  - by vm_compute.
  - by vm_compute.
Defined.

(** A newer proposal, an older one, and a node that leaves. *)
Definition sample_messages : list (@PeerPosition_t sample_Traits) :=
  [sample_proposal 13 {[1]}%N 1005 3; sample_proposal 13 {[2]}%N 1005 2; sample_proposal 12 {[1]}%N 1005 kSeqLeave].
Lemma sample_messages_distinct : distinct sample_messages.
Proof.
  split; [repeat constructor; by vm_compute|]. intros p q Hp Hq. unfold sample_messages in *.
  rewrite !elem_of_cons, elem_of_nil in Hp, Hq. destruct Hp as [->|[->|[->|[]]]], Hq as [->|[->|[->|[]]]]; done.
Qed.
Lemma proposals_in_any_order_witness :
  exists st1 st2, deliver 1005 sample_messages sample_last = Ok ((), st1) /\
    deliver 1005 (reverse sample_messages) sample_last = Ok ((), st2) /\
    currPeerPositions_ st1.1 = currPeerPositions_ st2.1 /\ deadNodes_ st1.1 = deadNodes_ st2.1 /\
    tracks (prevLedgerID_ sample_last.1) (positions sample_last.1) sample_messages (positions st1.1).
Proof.
  refine (proposals_in_any_order sample_circ sample_budget 1005 sample_messages (reverse sample_messages) sample_last
    sample_last_reachable _ _ sample_messages_distinct _).
  - by vm_compute.
  - symmetry. apply reverse_Permutation.
  - assert (map_Forall (fun _ p => proposeSeq p <= kSeqLeave) (currPeerPositions_ sample_last.1)) as Hs
      by (apply (bool_decide_unpack _); by vm_compute). exact Hs.
Defined.

Lemma sample_done_r_result i j k : match result_ (sample_done i j k).1 with Some _ => true | None => false end = true ->
  result_ (sample_done i j k).1 = Some (sample_done_r i j k).
Proof. apply some_of. Qed.
Lemma sample_done_moving i j k :
  bool_decide (map_Forall (fun _ d => stalled d defaultParms (proposing (sample_done i j k).1)
    (peerUnchangedCounter_ (sample_done i j k).1) = true) (disputes (sample_done_r i j k))) = false ->
  ~ (disputes (sample_done_r i j k) <> ∅ /\ forall n d, disputes (sample_done_r i j k) !! n = Some d ->
       stalled d defaultParms (proposing (sample_done i j k).1) (peerUnchangedCounter_ (sample_done i j k).1) = true).
Proof. intros E%bool_decide_eq_false [_ Hs]. by apply E. Qed.

Lemma same_view_same_set_witness :
  position (our_position (sample_done_r 11 12 13)) = position (our_position (sample_done_r 7 12 13)) /\
  contents (txns (sample_done_r 11 12 13)) = contents (txns (sample_done_r 7 12 13)).
Proof.
  refine (same_view_same_set sample_circ sample_budget 7 11 (sample_done 11 12 13) (sample_done 7 12 13)
    (sample_done_r 11 12 13) (sample_done_r 7 12 13) eq_refl (sample_done_reachable _ _ _ _) (sample_done_reachable _ _ _ _)
    _ _ (sample_done_r_result _ _ _ _) (sample_done_r_result _ _ _ _) _ _ _ _
    (sample_done_moving _ _ _ _) (sample_done_moving _ _ _ _) _ _ _); by vm_compute.
Defined.

Lemma proposing_on_right_ledger_witness : mode_ (sample_done 11 12 13).1 = Proposing /\ mode_ sample_last.1 = Proposing.
Proof.
  assert (mode_ (sample_done 11 12 13).1 = Proposing) as Hm by (by vm_compute). split; [exact Hm|].
  destruct (proj2 (proposing_on_right_ledger sample_circ sample_budget 9 (TimerEntry 1006) sample_last (sample_done 11 12 13)
    sample_last_reachable I sample_done_step) Hm) as [(now & id & l & ns & E)|E]; [discriminate E|exact E].
Defined.

Lemma pause_thresholds_witness : lagging 13 14 12 2 = true /\ ~ 4 * 13 < 4 * 12 + (14 - 12) * 2.
Proof. split; [|lia]. apply (proj2 (pause_thresholds 14 2 13 ltac:(lia) ltac:(lia) ltac:(lia))). right. by left. Defined.
