(* ===== verification/RCLCxTx.v ===== *)
(** * The types of consensus in the ledger

    What RCLConsensus gives the template [Consensus] to work on: sets of
    transactions kept in a [SHAMap] (RCLCxTx.h), closed ledgers
    (RCLCxLedger.h) and the signed proposals of peers (RCLCxPeerPos.h/.cpp,
    with the hashes of ConsensusProposal.h).  The second part shows that they
    meet the laws of the rounds. *)

From S2P Require Import Prelude LedgerEntry Serializer LedgerHeader SHAMapNodeID SHAMap SHAMapSpec SHAMapMap SHAMapHash.
From S2P Require Import SHAMapDelta Consensus StateMonad ConsensusTypes ConsensusState ConsensusRound ConsensusLaws.
Local Open Scope N_scope.

(** ** Sets of transactions

    [RCLTxSet] and [MutableTxSet] wrap a map, [RCLCxTx] an item of it.  A
    snapshot shares no later change with the map it was taken of, so it is
    the same tree. *)

Definition RCLCxTx_id (t : item) : N := item_key t.

Definition RCLTxSet_exists (map : node) (entry : N) : result bool := hasItem map entry.
Definition RCLTxSet_find (map : node) (entry : N) : result (option item) := peekItem map entry.

Definition MutableTxSet_insert (map_ : node) (t : item) : result (node * bool) :=
  addGiveItem map_ TnTransactionNm t.
Definition MutableTxSet_erase (map_ : node) (entry : N) : result (node * bool) := delItem map_ entry.

Definition kCompareLimit : Z := 65536.

Section txset.
Context `{Digest}.

Definition RCLTxSet_id (map : node) : N := node_hash map.

Definition RCLTxSet_compare (map j : node) : result (list (N * bool)) :=
  '(_, delta) ← compare map j kCompareLimit;
  Ok ((fun kv => (kv.1, match kv.2.1 with Some _ => true | None => false end)) <$> ordered delta).
End txset.

(** ** Ledgers *)

Definition RCLCxLedger : Type := LedgerHeader.
Definition RCLCxLedger_seq (l : RCLCxLedger) : Z := seq l.
Definition RCLCxLedger_id (l : RCLCxLedger) : N := hash l.
Definition RCLCxLedger_parentID (l : RCLCxLedger) : N := parentHash l.
Definition RCLCxLedger_closeTimeResolution (l : RCLCxLedger) : Z := closeTimeResolution l.
Definition RCLCxLedger_closeAgree (l : RCLCxLedger) : bool := getCloseAgree l.
Definition RCLCxLedger_closeTime (l : RCLCxLedger) : Z := closeTime l.
Definition RCLCxLedger_parentCloseTime (l : RCLCxLedger) : Z := parentCloseTime l.

(** ** Proposals of peers *)

(** [HashPrefix::Proposal]: PRP. *)
Definition kPrefixProposal : Z := makeHashPrefix 80 82 80.

(** A proposal with the digest it keeps once it was asked for. *)
Record SignedProposal : Type := mkSigned { signed_proposal : ConsensusProposal; signingHash_ : option N }.

Record RCLCxPeerPos : Type := mkPeerPos {
  publicKey_ : Blob;
  suppression_ : N;
  proposal_ : SignedProposal;
  signature_ : Blob
}.

(** The constructor; a signature that does not fit is left out. *)
Definition makePeerPos (publicKey signature : Blob) (suppression : N) (proposal : SignedProposal) : RCLCxPeerPos :=
  mkPeerPos publicKey suppression proposal
    (if negb (bool_decide (signature = [])) && (blob_size signature <=? 72)%Z then signature else []).

Section signing.
Context `{Digest}.

Definition signing_image (p : ConsensusProposal) : Blob :=
  hash_append_int 4 kPrefixProposal ++ hash_append_int 4 (proposeSeq p) ++ hash_append_int 4 (prop_closeTime p) ++
  hash_append_uint256 (prevLedger p) ++ hash_append_uint256 (position p).

Definition signingHash (s : SignedProposal) : N * SignedProposal :=
  match signingHash_ s with
  | Some h => (h, s)
  | None => let h := sha512Half (signing_image (signed_proposal s)) in (h, mkSigned (signed_proposal s) (Some h))
  end.

Definition signed_changePosition (newPosition : N) (newCloseTime now : Z) (s : SignedProposal) : SignedProposal :=
  mkSigned (changePosition (signed_proposal s) newPosition newCloseTime now) None.
Definition signed_bowOut (now : Z) (s : SignedProposal) : SignedProposal := mkSigned (bowOut (signed_proposal s) now) None.

(** [checkSign], over the verification of a digest under a key. *)
Definition checkSign (verifyDigest : Blob -> N -> Blob -> bool -> bool) (p : RCLCxPeerPos) : bool * RCLCxPeerPos :=
  let '(h, s) := signingHash (proposal_ p) in
  (verifyDigest (publicKey_ p) h (signature_ p) false, mkPeerPos (publicKey_ p) (suppression_ p) s (signature_ p)).

Definition unique_image (proposeHash previousLedger : N) (proposeSeq closeTime : Z) (publicKey signature : Blob)
    : result Blob :=
  let s := empty_serializer in
  let s := add256 proposeHash s in
  let s := add256 previousLedger s in
  let s := (add32 proposeSeq s).2 in
  let s := (add32 closeTime s).2 in
  '(_, s) ← addVL publicKey s;
  '(_, s) ← addVL signature s;
  Ok (data_ s).

Definition proposalUniqueId (proposeHash previousLedger : N) (proposeSeq closeTime : Z) (publicKey signature : Blob)
    : result N :=
  image ← unique_image proposeHash previousLedger proposeSeq closeTime publicKey signature;
  Ok (sha512Half image).
End signing.

(** * Sets of transactions are finite maps

    Over a digest without collisions the operations of [RCLTxSet] are those
    of a finite map from identifiers to transactions; the types of
    RCLConsensus meet the laws the rounds of [Consensus] are verified
    against. *)

Section txset.
Context `{Digest}.

(** A transaction is filed under its digest. *)
Definition txn (i : item) : Prop :=
  item_key i < 2 ^ 256 /\ item_key i = sha512Half (leaf_preimage TnTransactionNm i).
Definition txset (r : node) : Prop := wf_map TnTransactionNm r /\ forall i, i ∈ items r -> txn i.

Lemma leaf_elem d p (n : node) i : wf TnTransactionNm d p n -> i ∈ items n -> leaf_preimage TnTransactionNm i ∈ preimages n.
Proof.
  intros Hwf. induction Hwf as [d p it|d p ch Hd Hl Hch IH Hb].
  - intros ->%list_elem_of_singleton. by left.
  - rewrite items_inner. intros (j & c & Hc & Hi)%elem_of_items_of. eapply preimages_child; [exact Hc|]. by eapply IH.
Qed.

Lemma txset_told r1 r2 : txset r1 -> txset r2 -> images_told TnTransactionNm (items r1 ++ items r2).
Proof.
  intros [_ H1] [_ H2] i1 i2 Hi1 Hi2 E. assert (forall i, i ∈ items r1 ++ items r2 -> txn i) as Ht.
  { intros i [Hi|Hi]%elem_of_app; auto. }
  apply item_eq; [by rewrite (proj2 (Ht _ Hi1)), (proj2 (Ht _ Hi2)), E|].
  cbn [leaf_preimage] in E. by apply app_inv_head in E.
Qed.

(** Two sets that have an identifier have the same transaction. *)
Lemma txset_agree r1 r2 i1 i2 : txset r1 -> txset r2 -> digest_good (preimages r1 ++ preimages r2) ->
  i1 ∈ items r1 -> i2 ∈ items r2 -> item_key i1 = item_key i2 -> i1 = i2.
Proof.
  intros H1 H2 [_ Hg] Hi1 Hi2 E. apply (txset_told r1 r2 H1 H2); [set_solver..|].
  apply Hg; [apply elem_of_app; left|apply elem_of_app; right|]; [by eapply leaf_elem; [apply H1|]|by eapply leaf_elem; [apply H2|]|].
  by rewrite <-(proj2 (proj2 H1 _ Hi1)), <-(proj2 (proj2 H2 _ Hi2)).
Qed.

(** The identifiers only one of two sets has. *)
Definition disagreement (r1 r2 : node) : gset N :=
  (dom (item_map r1) ∖ dom (item_map r2)) ∪ (dom (item_map r2) ∖ dom (item_map r1)).

Lemma differences_txset r1 r2 k v : txset r1 -> txset r2 -> digest_good (preimages r1 ++ preimages r2) ->
  differences (item_map r1) (item_map r2) !! k = Some v ->
  (exists i, v = (Some i, None) /\ k ∈ dom (item_map r1) /\ k ∉ dom (item_map r2)) \/
  (exists i, v = (None, Some i) /\ k ∉ dom (item_map r1) /\ k ∈ dom (item_map r2)).
Proof.
  intros H1 H2 Hg Hv. apply differences_lookup in Hv as [-> Hne]. unfold keyed in *. rewrite !map_lookup_imap in *.
  destruct (item_map r1 !! k) as [x|] eqn:E1, (item_map r2 !! k) as [y|] eqn:E2; cbn in *.
  - exfalso. apply Hne. f_equal. apply (item_map_Some TnTransactionNm) in E1, E2; [|apply H2|apply H1].
    by apply (txset_agree r1 r2).
  - left. eexists. split_and!; [done|by apply elem_of_dom_2 in E1|by apply not_elem_of_dom].
  - right. eexists. split_and!; [done|by apply not_elem_of_dom|by apply elem_of_dom_2 in E2].
  - done.
Qed.

Lemma differences_dom r1 r2 : txset r1 -> txset r2 -> digest_good (preimages r1 ++ preimages r2) ->
  dom (differences (item_map r1) (item_map r2)) = disagreement r1 r2.
Proof.
  intros H1 H2 Hg. apply set_eq. intros k. unfold disagreement. rewrite elem_of_dom, elem_of_union, !elem_of_difference. split.
  - intros [v Hv]. destruct (differences_txset _ _ _ _ H1 H2 Hg Hv) as [(i & _ & ?)|(i & _ & ?)]; tauto.
  - intros Hk. exists (keyed (item_map r1) !! k, keyed (item_map r2) !! k). apply differences_lookup. split; [done|].
    rewrite !not_elem_of_dom, !elem_of_dom in Hk. unfold keyed. rewrite !map_lookup_imap.
    destruct Hk as [[[x ->] ->]|[[x ->] ->]]; done.
Qed.

Lemma RCLTxSet_compare_spec r1 r2 : txset r1 -> txset r2 -> digest_good (preimages r1 ++ preimages r2) ->
  exists ret, RCLTxSet_compare r1 r2 = Ok ret /\ StronglySorted N.lt ret.*1 /\
    length ret = Nat.min (Z.to_nat kCompareLimit) (size (disagreement r1 r2)) /\
    forall k b, (k, b) ∈ ret -> k ∈ disagreement r1 r2 /\ b = bool_decide (k ∈ dom (item_map r1)).
Proof.
  intros H1 H2 Hg.
  destruct (@compare_map _ TnTransactionNm r1 r2 kCompareLimit) as (D & E & Hsub & Hsz);
    [apply H1|apply H2|by apply txset_told|done|done|].
  unfold RCLTxSet_compare. rewrite E. cbn [mbind result_bind]. eexists. split; [done|]. split_and!.
  - rewrite <-list_fmap_compose. change (fst ∘ _) with (@fst N (option item * option item)).
    pose proof (ordered_sorted D) as Hs. induction Hs as [|x l Hs IH Hall]; cbn; constructor; [done|].
    rewrite Forall_fmap. eapply Forall_impl; [exact Hall|done].
  - rewrite length_fmap. unfold ordered. rewrite merge_sort_Permutation, length_map_to_list, Hsz.
    by rewrite <-(size_dom (D := gset N) (differences _ _)), differences_dom.
  - intros k b ([k' v] & [= -> ->] & Hin)%list_elem_of_fmap. apply elem_of_ordered in Hin.
    apply (lookup_weaken _ _ _ _ Hin) in Hsub. cbn [fst snd].
    split; [rewrite <-differences_dom by done; apply elem_of_dom; eauto|].
    destruct (differences_txset _ _ _ _ H1 H2 Hg Hsub) as [(i & -> & Hd & _)|(i & -> & Hd & _)]; cbn.
    + by rewrite bool_decide_eq_true_2.
    + by rewrite bool_decide_eq_false_2.
Qed.
End txset.

(** ** The types of RCLConsensus as traits *)

(** Keys of 256 bits, where the operations do not throw. *)
Definition settled {X} (x : X) (r : result X) : X := match r with Ok y => y | Throw _ => x end.
Definition at_key {X} (k : N) (x y : X) : X := if (k <? 2 ^ 256)%N then y else x.

Section universe.
Context `{Digest} (L : list item).

(** Sets of the transactions [L]. *)
Definition over (r : node) : Prop :=
  wf_map TnTransactionNm r /\ forall k d, item_map r !! k = Some d -> mkItem k d ∈ L.

Context (L_txn : forall i, i ∈ L -> txn i).
Context (L_good : forall r1 r2, over r1 -> over r2 -> digest_good (preimages r1 ++ preimages r2)).

Record UTxSet : Type := mkUTxSet { ut_map : node; ut_over : over ut_map }.
Definition UTx : Type := dsig (fun i => i ∈ L).

Definition known (i : item) : option UTx :=
  match decide (i ∈ L) with left Hi => Some (dexist i Hi) | right _ => None end.
Lemma known_some (x : UTx) : known (`x) = Some x.
Proof.
  unfold known. destruct (decide _) as [Hi|Hn]; [|by destruct (Hn (proj2_dsig x))]. f_equal. by apply dsig_eq.
Qed.
Lemma known_in i : i ∈ L -> exists x, known i = Some x /\ `x = i.
Proof. intros Hi. unfold known. destruct (decide _) as [Hi'|?]; [|done]. by eexists. Qed.

Definition ut_contents (s : UTxSet) : gmap N UTx := omap known (keyed (item_map (ut_map s))).

Lemma ut_contents_lookup s k : ut_contents s !! k = (item_map (ut_map s) !! k) ≫= (fun d => known (mkItem k d)).
Proof. unfold ut_contents, keyed. rewrite lookup_omap, map_lookup_imap. by destruct (item_map _ !! k). Qed.
Lemma ut_contents_some s k x : ut_contents s !! k = Some x <-> item_map (ut_map s) !! k = Some (item_data (`x)) /\ item_key (`x) = k.
Proof.
  rewrite ut_contents_lookup. split.
  - destruct (item_map _ !! k) as [d|] eqn:Ed; [|done]. cbn. intros Hk.
    destruct (known_in (mkItem k d)) as (y & Ey & Ex); [by apply (ut_over s)|]. rewrite Hk in Ey. injection Ey as <-. by rewrite Ex.
  - intros [-> <-]. transitivity (known (`x)); [|apply known_some]. cbn. f_equal. by destruct (`x).
Qed.
Lemma ut_contents_none s k : ut_contents s !! k = None <-> item_map (ut_map s) !! k = None.
Proof.
  rewrite ut_contents_lookup. destruct (item_map _ !! k) as [d|] eqn:Ed; [|done]. cbn.
  destruct (known_in (mkItem k d)) as (y & -> & _); [by apply (ut_over s)|done].
Qed.
Lemma ut_contents_dom s : dom (ut_contents s) = dom (item_map (ut_map s)).
Proof.
  apply set_eq. intros k. destruct (ut_contents s !! k) as [x|] eqn:E.
  - pose proof E as E'. apply ut_contents_some in E' as [E' _]. apply elem_of_dom_2 in E, E'. done.
  - pose proof E as E'. apply ut_contents_none in E'. apply not_elem_of_dom in E, E'. done.
Qed.

Lemma over_txset s : txset (ut_map s).
Proof using L_txn.
  split; [apply (ut_over s)|]. intros [k d] Hi. apply L_txn, (ut_over s). by apply (item_map_Some TnTransactionNm); [apply (ut_over s)|].
Qed.
Lemma over_good s o : digest_good (preimages (ut_map s) ++ preimages (ut_map o)).
Proof using L_good. apply L_good; apply ut_over. Qed.

Definition ut_exists (k : N) (s : UTxSet) : bool := at_key k false (settled false (RCLTxSet_exists (ut_map s) k)).
Definition ut_find (k : N) (s : UTxSet) : option UTx :=
  at_key k None (settled None (RCLTxSet_find (ut_map s) k) ≫= known).
Definition ut_compare (s o : UTxSet) : list (N * bool) := settled [] (RCLTxSet_compare (ut_map s) (ut_map o)).

Lemma insert_over (x : UTx) m : over (settled (ut_map m, false) (MutableTxSet_insert (ut_map m) (`x))).1.
Proof using L_txn.
  destruct (ut_over m) as [Hwf Hin]. pose proof (proj2_dsig x) as Hx. unfold MutableTxSet_insert.
  pose proof (addGiveItem_map TnTransactionNm (ut_map m) (`x) Hwf (proj1 (L_txn _ Hx))) as Ha.
  destruct (item_map (ut_map m) !! _) as [d|]; [by rewrite Ha|]. destruct Ha as (r & -> & Hr & Em). cbn. split; [done|].
  intros k d. rewrite Em. intros [[<- <-]|[_ Hd]]%lookup_insert_Some; [|by apply Hin]. by destruct (`x).
Qed.
Definition ut_insert (x : UTx) (m : UTxSet) : UTxSet := mkUTxSet _ (insert_over x m).

Lemma erase_over k m : over (at_key k (ut_map m) (settled (ut_map m, false) (MutableTxSet_erase (ut_map m) k)).1).
Proof.
  destruct (ut_over m) as [Hwf Hin]. unfold at_key, MutableTxSet_erase. destruct (N.ltb_spec k (2 ^ 256)) as [Hk|Hk]; [|done].
  pose proof (delItem_map TnTransactionNm (ut_map m) k Hwf Hk) as Ha.
  destruct (item_map (ut_map m) !! k) as [d|]; [|by rewrite Ha]. destruct Ha as (r & -> & Hr & Em). cbn. split; [done|].
  intros k' d'. rewrite Em. intros [_ Hd]%lookup_delete_Some. by apply Hin.
Qed.
Definition ut_erase (k : N) (m : UTxSet) : UTxSet := mkUTxSet _ (erase_over k m).

Instance RCL_Traits : Traits := {|
  Ledger_t := RCLCxLedger; TxSet_t := UTxSet; MutableTxSet := UTxSet; Tx_t := UTx; PeerPosition_t := RCLCxPeerPos;
  lgr_id := RCLCxLedger_id; lgr_seq := RCLCxLedger_seq; lgr_closeTimeResolution := RCLCxLedger_closeTimeResolution;
  lgr_closeAgree := RCLCxLedger_closeAgree; lgr_closeTime := RCLCxLedger_closeTime;
  lgr_parentCloseTime := RCLCxLedger_parentCloseTime;
  tx_id x := RCLCxTx_id (`x); set_id s := RCLTxSet_id (ut_map s); set_exists := ut_exists; set_find := ut_find;
  set_compare := ut_compare; mutable_of s := s; mset_insert := ut_insert; mset_erase := ut_erase; set_of m := m;
  ConsensusTypes.proposal p := signed_proposal (proposal_ p)
|}.

Lemma ut_exists_spec k s : ut_exists k s = bool_decide (is_Some (ut_contents s !! k)).
Proof.
  assert (is_Some (ut_contents s !! k) <-> is_Some (item_map (ut_map s) !! k)) as E by (rewrite <-!elem_of_dom; by rewrite ut_contents_dom).
  rewrite (bool_decide_ext _ _ E). unfold ut_exists, at_key, RCLTxSet_exists. destruct (N.ltb_spec k (2 ^ 256)) as [Hk|Hk].
  - by rewrite (hasItem_map TnTransactionNm) by (done || apply (ut_over s)).
  - symmetry. apply bool_decide_eq_false. intros [d Hd].
    apply (item_map_bound TnTransactionNm) in Hd; [lia|apply (ut_over s)].
Qed.

Lemma ut_find_spec k s : ut_find k s = ut_contents s !! k.
Proof.
  rewrite ut_contents_lookup. unfold ut_find, at_key, RCLTxSet_find. destruct (N.ltb_spec k (2 ^ 256)) as [Hk|Hk].
  - rewrite (peekItem_map TnTransactionNm) by (done || apply (ut_over s)). by destruct (item_map _ !! k).
  - destruct (item_map _ !! k) as [d|] eqn:Hd; [|done].
    apply (item_map_bound TnTransactionNm) in Hd; [lia|apply (ut_over s)].
Qed.

Lemma ut_insert_spec x m : ut_contents (ut_insert x m) =
  match ut_contents m !! item_key (`x) with Some _ => ut_contents m | None => <[item_key (`x) := x]> (ut_contents m) end.
Proof.
  pose proof (proj2_dsig x) as Hx. destruct (ut_over m) as [Hwf _].
  pose proof (addGiveItem_map TnTransactionNm (ut_map m) (`x) Hwf (proj1 (L_txn _ Hx))) as Ha.
  assert (item_map (ut_map (ut_insert x m)) = match item_map (ut_map m) !! item_key (`x) with
    Some _ => item_map (ut_map m) | None => <[item_key (`x) := item_data (`x)]> (item_map (ut_map m)) end) as Em.
  { change (ut_map (ut_insert x m)) with (settled (ut_map m, false) (addGiveItem (ut_map m) TnTransactionNm (`x))).1.
    destruct (item_map (ut_map m) !! _) as [d|]; [by rewrite Ha|]. by destruct Ha as (r & -> & _ & ?). }
  apply map_eq. intros k. apply option_eq. intros y. rewrite ut_contents_some, Em.
  destruct (ut_contents m !! item_key (`x)) as [z|] eqn:Ez.
  - pose proof Ez as Ez'. apply ut_contents_some in Ez' as [-> _]. symmetry. apply ut_contents_some.
  - pose proof Ez as Ez'. apply ut_contents_none in Ez'. rewrite Ez', !lookup_insert_Some, ut_contents_some. split.
    + intros [[[<- Hd]|[Hne Hd]] Hk]; [left|by right]. split; [done|]. apply dsig_eq. by apply item_eq.
    + intros [[<- ->]|[Hne [Hd Hk]]]; [by split; [left|]|by split; [right|]].
Qed.

Lemma ut_erase_spec k m : ut_contents (ut_erase k m) = delete k (ut_contents m).
Proof.
  destruct (ut_over m) as [Hwf _].
  assert (item_map (ut_map (ut_erase k m)) = delete k (item_map (ut_map m))) as Em.
  { change (ut_map (ut_erase k m)) with (at_key k (ut_map m) (settled (ut_map m, false) (delItem (ut_map m) k)).1).
    unfold at_key. destruct (N.ltb_spec k (2 ^ 256)) as [Hk|Hk].
    - pose proof (delItem_map TnTransactionNm (ut_map m) k Hwf Hk) as Ha. destruct (item_map (ut_map m) !! k) as [d|] eqn:Ed.
      + by destruct Ha as (r & -> & _ & ?).
      + rewrite Ha. cbn. by rewrite delete_id.
    - rewrite delete_id; [done|]. destruct (item_map (ut_map m) !! k) as [d|] eqn:Ed; [|done].
      apply (item_map_bound TnTransactionNm) in Ed; [lia|done]. }
  apply map_eq. intros k'. apply option_eq. intros y. rewrite ut_contents_some, Em, !lookup_delete_Some, ut_contents_some. tauto.
Qed.

Lemma ut_compare_spec s o : StronglySorted N.lt (ut_compare s o).*1 /\
  length (ut_compare s o) = Nat.min (Z.to_nat kCompareLimit) (size (disagreement (ut_map s) (ut_map o))) /\
  forall k b, (k, b) ∈ ut_compare s o -> k ∈ disagreement (ut_map s) (ut_map o) /\ b = bool_decide (k ∈ dom (ut_contents s)).
Proof using L_txn L_good.
  destruct (RCLTxSet_compare_spec _ _ (over_txset s) (over_txset o) (over_good s o)) as (ret & E & Hret).
  unfold ut_compare. rewrite E. cbn [settled]. by rewrite ut_contents_dom.
Qed.

Lemma ut_disagree s o k : k ∈ disagreement (ut_map s) (ut_map o) <-> ut_contents s !! k <> ut_contents o !! k.
Proof using L_txn L_good.
  unfold disagreement. rewrite <-!ut_contents_dom, elem_of_union, !elem_of_difference, !not_elem_of_dom, !elem_of_dom. split.
  - intros [[[x ->] ->]|[[x ->] ->]]; done.
  - destruct (ut_contents s !! k) as [x|] eqn:Ex, (ut_contents o !! k) as [y|] eqn:Ey; [|by eauto..|done]. intros Hne.
    exfalso. apply Hne. f_equal. apply dsig_eq. apply ut_contents_some in Ex as [Ex Kx], Ey as [Ey Ky].
    apply (txset_agree (ut_map s) (ut_map o)); [apply over_txset|apply over_txset|apply over_good| | |congruence];
      apply (item_map_Some TnTransactionNm) in Ex, Ey; try apply ut_over; rewrite <-Kx in Ex; rewrite <-Ky in Ey;
      by destruct (`x), (`y).
Qed.

Lemma disagreement_sub s o : disagreement (ut_map s) (ut_map o) ⊆ dom (ut_contents s) ∪ dom (ut_contents o).
Proof. rewrite !ut_contents_dom. unfold disagreement. set_solver. Qed.

(** The laws of the rounds hold. *)
Definition RCL_TraitsLaws : @TraitsLaws RCL_Traits.
Proof using L_txn L_good.
  refine (@Build_TraitsLaws RCL_Traits ut_contents ut_contents (Z.to_nat kCompareLimit) ut_exists_spec ut_find_spec
    _ _ (fun _ => eq_refl) (fun _ => eq_refl) ut_insert_spec ut_erase_spec _ _).
  - by intros s k x [_ ?]%ut_contents_some.
  - intros s s' E. unfold ut_contents. f_equal. f_equal. f_equal.
    apply (@hash_differences _ TnTransactionNm); [apply ut_over|apply ut_over|done|by apply txset_told; apply over_txset|apply over_good].
  - intros s o k b Hin. destruct (ut_compare_spec s o) as (_ & _ & Hc). destruct (Hc _ _ Hin) as [Hd ->].
    split; [by apply ut_disagree|]. apply bool_decide_ext. by rewrite elem_of_dom.
  - intros s o k Hsz Hne. apply ut_disagree in Hne. destruct (ut_compare_spec s o) as (Hs & Hl & Hc).
    assert (size (disagreement (ut_map s) (ut_map o)) <= Z.to_nat kCompareLimit)%nat as Hle.
    { etransitivity; [|exact Hsz]. apply subseteq_size. apply disagreement_sub. }
    rewrite Nat.min_r in Hl by done.
    assert (list_to_set (ut_compare s o).*1 = disagreement (ut_map s) (ut_map o)) as Eq.
    { apply set_subseteq_size_eq; [|rewrite size_list_to_set, length_fmap; [lia|]].
      - intros k' ([? b] & -> & Hin)%elem_of_list_to_set%list_elem_of_fmap. by apply Hc in Hin as [? _].
      - clear -Hs. induction Hs as [|x l Hs IH Hall]; [apply NoDup_nil_2|]. apply NoDup_cons. split; [|done].
        intros Hin. rewrite Forall_forall in Hall. specialize (Hall _ Hin). lia. }
    rewrite <-Eq in Hne. apply elem_of_list_to_set, list_elem_of_fmap in Hne as ([? b] & -> & Hin). by exists b.
Defined.
End universe.
