(* ===== verification/RCLCxTxProps.v ===== *)
(** * Properties of the comparison of maps and of the types of RCLConsensus *)

From S2P Require Import Prelude LedgerEntry Serializer LedgerHeader SHAMapNodeID SHAMap SHAMapSpec SHAMapMap SHAMapHash.
From S2P Require Import SHAMapDelta Consensus SHAMapProps ConsensusTypes ConsensusLaws RCLCxTx.
Local Open Scope N_scope.

(** ** Images of proposals *)

Lemma be_bytes_inj n v w : (0 <= v < 2 ^ (8 * Z.of_nat n))%Z -> (0 <= w < 2 ^ (8 * Z.of_nat n))%Z ->
  be_bytes n v = be_bytes n w -> v = w.
Proof. intros Hv Hw E%(f_equal be_sum). by rewrite !be_sum_be_bytes, !Z.mod_small in E. Qed.
Lemma be_bytes_app_inj n v w r1 r2 : (0 <= v < 2 ^ (8 * Z.of_nat n))%Z -> (0 <= w < 2 ^ (8 * Z.of_nat n))%Z ->
  be_bytes n v ++ r1 = be_bytes n w ++ r2 -> v = w /\ r1 = r2.
Proof. intros Hv Hw [E ->]%app_inj_1; [|by rewrite !length_be_bytes]. by apply be_bytes_inj in E. Qed.

Lemma encoded_app_inj v w e f r1 r2 :
  encoded (blob_size v) = Ok e -> encoded (blob_size w) = Ok f -> e ++ v ++ r1 = f ++ w ++ r2 -> v = w /\ r1 = r2.
Proof.
  intros He Hf E. pose proof (getVLDataLength_spec [] _ e (v ++ r1) (blob_size_nonneg v) He) as H1.
  pose proof (getVLDataLength_spec [] _ f (w ++ r2) (blob_size_nonneg w) Hf) as H2. rewrite E, H2 in H1. injection H1 as Hs _ _.
  rewrite <-Hs, Hf in He. injection He as ->. apply app_inv_head in E. apply app_inj_1 in E; [done|].
  unfold blob_size in Hs. lia.
Qed.

Definition proposal_ok (p : ConsensusProposal) : Prop :=
  (0 <= proposeSeq p < 2 ^ 32)%Z /\ (0 <= prop_closeTime p < 2 ^ 32)%Z /\ is_uint256 (prevLedger p) /\ is_uint256 (position p).
Definition same_signed (p q : ConsensusProposal) : Prop :=
  proposeSeq p = proposeSeq q /\ prop_closeTime p = prop_closeTime q /\ prevLedger p = prevLedger q /\ position p = position q.

Lemma uint256_Z n : is_uint256 n -> (0 <= Z.of_N n < 2 ^ (8 * Z.of_nat 32))%Z.
Proof. unfold is_uint256. intros Hn. change (2 ^ (8 * Z.of_nat 32))%Z with (Z.of_N (2 ^ 256)). lia. Qed.

Lemma signing_image_inj p q : proposal_ok p -> proposal_ok q -> signing_image p = signing_image q -> same_signed p q.
Proof.
  intros (P1 & P2 & P3%uint256_Z & P4%uint256_Z) (Q1 & Q2 & Q3%uint256_Z & Q4%uint256_Z) E%app_inv_head. unfold hash_append_int, hash_append_uint256 in E.
  apply be_bytes_app_inj in E as [E1 E]; [|done..]. apply be_bytes_app_inj in E as [E2 E]; [|done..].
  apply be_bytes_app_inj in E as [E3 E]; [|done..]. apply be_bytes_inj in E; [|done..]. repeat split; lia.
Qed.

Definition proposal_image (p : ConsensusProposal) (publicKey signature : Blob) : result Blob :=
  unique_image (position p) (prevLedger p) (proposeSeq p) (prop_closeTime p) publicKey signature.
Lemma proposal_image_bytes p k s : (blob_size k <= 918744)%Z -> (blob_size s <= 918744)%Z ->
  exists e f, encoded (blob_size k) = Ok e /\ encoded (blob_size s) = Ok f /\
    proposal_image p k s = Ok (be_bytes 32 (Z.of_N (position p)) ++ be_bytes 32 (Z.of_N (prevLedger p)) ++
      be_bytes 4 (proposeSeq p) ++ be_bytes 4 (prop_closeTime p) ++ e ++ k ++ f ++ s).
Proof.
  intros Hk Hs. assert (forall v, (blob_size v <= 918744)%Z -> exists e, encoded (blob_size v) = Ok e) as He.
  { intros v Hv. pose proof (encoded_Ok _ (blob_size_nonneg v)) as Hok. destruct (encoded (blob_size v)); [by eexists|].
    symmetry in Hok. apply Z.leb_gt in Hok. lia. }
  destruct (He k Hk) as [e Ee], (He s Hs) as [f Ef]. exists e, f. split_and!; [done..|].
  pose proof (blob_size_nonneg k). pose proof (blob_size_nonneg s).
  unfold proposal_image, unique_image, addVL, addEncoded. rewrite !i32_small, Ee, Ef by lia. cbn [mbind result_bind addRaw snd].
  unfold push_back. cbn [data_]. rewrite !add32_bytes. cbn [add256 addBitString addRaw push_back data_ snd empty_serializer].
  by rewrite <-!app_assoc.
Qed.

Lemma proposal_image_inj p q k1 s1 k2 s2 i : proposal_ok p -> proposal_ok q ->
  (blob_size k1 <= 918744)%Z -> (blob_size s1 <= 918744)%Z -> (blob_size k2 <= 918744)%Z -> (blob_size s2 <= 918744)%Z ->
  proposal_image p k1 s1 = Ok i -> proposal_image q k2 s2 = Ok i -> same_signed p q /\ k1 = k2 /\ s1 = s2.
Proof.
  intros (P1 & P2 & P3%uint256_Z & P4%uint256_Z) (Q1 & Q2 & Q3%uint256_Z & Q4%uint256_Z) K1 S1 K2 S2 E1 E2.
  destruct (proposal_image_bytes p k1 s1 K1 S1) as (e1 & f1 & He1 & Hf1 & Ei1).
  destruct (proposal_image_bytes q k2 s2 K2 S2) as (e2 & f2 & He2 & Hf2 & Ei2).
  rewrite Ei1 in E1. rewrite Ei2 in E2. rewrite <-E1 in E2. pose proof (f_equal (settled []) E2) as E. cbn [settled] in E. clear Ei1 Ei2 E1 E2.
  apply be_bytes_app_inj in E as [A1 E]; [|done..]. apply be_bytes_app_inj in E as [A2 E]; [|done..].
  apply be_bytes_app_inj in E as [A3 E]; [|done..]. apply be_bytes_app_inj in E as [A4 E]; [|done..].
  apply (encoded_app_inj _ _ _ _ _ _ He2 He1) in E as [-> E].
  rewrite <-(app_nil_r s1), <-(app_nil_r s2) in E. apply (encoded_app_inj _ _ _ _ _ _ Hf2 Hf1) in E as [-> _].
  split; [|done]. repeat split; lia.
Qed.

Inductive ProposalEdit : Type :=
| EditChange (newPosition : N) (newCloseTime now : Z)
| EditBowOut (now : Z)
| EditSign.

Definition edit_proposal `{Digest} (s : SignedProposal) (e : ProposalEdit) : SignedProposal :=
  match e with
  | EditChange p c n => signed_changePosition p c n s
  | EditBowOut n => signed_bowOut n s
  | EditSign => (signingHash s).2
  end.

Lemma signing_current `{Digest} p es :
  let s := foldl edit_proposal (mkSigned p None) es in (signingHash s).1 = sha512Half (signing_image (signed_proposal s)).
Proof.
  assert (forall s, (forall h, signingHash_ s = Some h -> h = sha512Half (signing_image (signed_proposal s))) ->
    let s' := foldl edit_proposal s es in (signingHash s').1 = sha512Half (signing_image (signed_proposal s'))) as Hc; [|by apply Hc].
  induction es as [|e es IH]; intros s Hs; cbn.
  - unfold signingHash. destruct (signingHash_ s) eqn:E; [by apply Hs|done].
  - apply IH. destruct e; cbn; [done..|]. unfold signingHash. destruct (signingHash_ s) eqn:E; cbn; [intros h Hh; apply Hs; congruence|by intros ? [= <-]].
Qed.

(** ** A digest for examples *)

(** Horner's scheme modulo a prime of 255 bits. *)
Definition horner : Digest := fun b => foldl (fun a x => (a * 257 + Z.to_N x + 1) mod (2 ^ 255 - 19))%N 7%N b.

Definition collision_free (P : list Blob) : bool :=
  let D := (fun b => (horner b, b)) <$> P in
  forallb (fun x => negb (x.1 =? 0)%N && (x.1 <? 2 ^ 256)%N) D &&
  forallb (fun x => forallb (fun y => negb (x.1 =? y.1)%N || bool_decide (x.2 = y.2)) D) D.

Lemma collision_free_good P : collision_free P = true -> @digest_good horner P.
Proof.
  unfold collision_free. intros [H1 H2]%andb_prop. rewrite forallb_forall in H1, H2. split.
  - intros b Hb. specialize (H1 (horner b, b)). cbn [fst snd] in H1.
    assert (In (horner b, b) ((fun b => (horner b, b)) <$> P)) as Hin.
    { apply list_elem_of_In, list_elem_of_fmap. by exists b. }
    apply H1, andb_prop in Hin as [Hz Hu]. split; [|by apply N.ltb_lt].
    intros E. change (sha512Half b) with (horner b) in E. by rewrite E in Hz.
  - intros b1 b2 Hb1 Hb2 E.
    assert (forall b, b ∈ P -> In (horner b, b) ((fun b => (horner b, b)) <$> P)) as Hin.
    { intros b Hb. apply list_elem_of_In, list_elem_of_fmap. by exists b. }
    specialize (H2 _ (Hin b1 Hb1)). rewrite forallb_forall in H2. specialize (H2 _ (Hin b2 Hb2)). cbn [fst snd] in H2.
    change (horner b1 = horner b2) in E. rewrite E, N.eqb_refl in H2. cbn in H2. by apply bool_decide_eq_true in H2.
Qed.

Definition sample_txn (b : Z) : item :=
  let data := replicate 40 b in mkItem (horner (be_bytes 4 kPrefixTransactionId ++ data)) data.
Definition sample_map (ty : SHAMapNodeType) (l : list item) : node :=
  foldl (fun r i => (settled (r, false) (addGiveItem r ty i)).1) emptyMap l.

Lemma sample_map_wf ty l : ty <> TnInner -> forallb (fun i : item => item_key i <? 2 ^ 256)%N l = true -> wf_map ty (sample_map ty l).
Proof.
  intros Hty Hl. unfold sample_map. assert (wf_map ty (@emptyMap Blob)) as Hwf by (by apply emptyMap_wf).
  revert Hl Hwf. generalize (@emptyMap Blob). induction l as [|i l IH]; intros r Hl Hwf; [done|]. cbn in Hl.
  apply andb_prop in Hl as [Hi Hl]. cbn [foldl]. apply IH; [done|].
  pose proof (addGiveItem_map ty r i Hwf (proj1 (N.ltb_lt _ _) Hi)) as Ha.
  destruct (item_map r !! item_key i); [by rewrite Ha|]. by destruct Ha as (r' & -> & ? & _).
Qed.

(** ** Changes of a set *)

Lemma txset_changed `{Digest} s s' : txset s -> wf_map TnTransactionNm s' ->
  (forall k d, item_map s' !! k = Some d -> txn (mkItem k d) \/ item_map s !! k = Some d) -> txset s'.
Proof.
  intros [Hwf Ht] Hwf' Hd. split; [done|]. intros [k d] Hi. apply (item_map_Some TnTransactionNm) in Hi; [|done].
  destruct (Hd k d Hi) as [?|Hs]; [done|]. apply Ht. by apply (item_map_Some TnTransactionNm).
Qed.

Lemma txset_insert `{Digest} s t : txset s -> txn t ->
  exists s', MutableTxSet_insert s t = Ok (s', bool_decide (item_map s !! RCLCxTx_id t = None)) /\ txset s' /\
    item_map s' = match item_map s !! RCLCxTx_id t with
                  | Some _ => item_map s | None => <[RCLCxTx_id t := item_data t]> (item_map s) end.
Proof.
  intros Hs Ht. pose proof (addGiveItem_map TnTransactionNm s t (proj1 Hs) (proj1 Ht)) as Ha.
  unfold MutableTxSet_insert, RCLCxTx_id. destruct (item_map s !! item_key t) as [d|]; [by exists s|].
  destruct Ha as (s' & E & Hwf & Em). exists s'. split_and!; [done| |done]. apply (txset_changed s); [done..|].
  intros k d. rewrite Em. intros [[<- <-]|[_ ?]]%lookup_insert_Some; [left; by destruct t|by right].
Qed.

Lemma txset_erase `{Digest} s k : txset s -> k < 2 ^ 256 ->
  exists s', MutableTxSet_erase s k = Ok (s', bool_decide (is_Some (item_map s !! k))) /\ txset s' /\
    item_map s' = delete k (item_map s).
Proof.
  intros Hs Hk. pose proof (delItem_map TnTransactionNm s k (proj1 Hs) Hk) as Ha.
  unfold MutableTxSet_erase. destruct (item_map s !! k) as [d|] eqn:Ed.
  - destruct Ha as (s' & E & Hwf & Em). exists s'. split_and!; [done| |done]. apply (txset_changed s); [done..|].
    intros k' d'. rewrite Em. intros [_ ?]%lookup_delete_Some. by right.
  - exists s. split_and!; [done|done|]. by rewrite delete_id.
Qed.

Lemma sets_same_hash `{Digest} s o : txset s -> txset o -> digest_good (preimages s ++ preimages o) ->
  RCLTxSet_id s = RCLTxSet_id o -> s = o.
Proof. intros Hs Ho Hg E. eapply hash_differences; [apply Hs|apply Ho|done|by apply txset_told|done]. Qed.

(** ** Claims *)

(** C27. SHAMap::compare finds the differences of two maps: on well formed
    trees whose node images the digest tells apart, and with a positive limit,
    it returns without throwing a table of keys with the items of either map,
    all of which are differences, as many as there are up to the limit; it
    reports completeness exactly when there are fewer than the limit. *)
Theorem shamap_compare `{Digest} ty r1 r2 maxCount :
  wf_map ty r1 -> wf_map ty r2 -> images_told ty (items r1 ++ items r2) ->
  digest_good (preimages r1 ++ preimages r2) -> (0 < maxCount)%Z ->
  let full := differences (item_map r1) (item_map r2) in
  exists D, compare r1 r2 maxCount = Ok (bool_decide (Z.of_nat (size full) < maxCount)%Z, D) /\
    D ⊆ full /\ size D = Nat.min (Z.to_nat maxCount) (size full).
Proof. apply compare_map. Qed.

(** C26. The sets of transactions of consensus are finite maps from identifiers
    to transactions: for sets of transactions filed under their digest, over a
    digest without collisions, exists, find, insert and erase return and are
    the operations of the map, and leave such sets; two sets have the same
    identifier exactly when they have the same transactions; and compare
    returns, in the order of identifiers, transactions that one set has and
    the other has not, each with whether it is ours, all of them unless they
    are more than 65536. *)
Theorem rclTxSet_refines `{Digest} s o t k :
  txset s -> txset o -> digest_good (preimages s ++ preimages o) -> txn t -> k < 2 ^ 256 ->
  RCLTxSet_exists s k = Ok (bool_decide (is_Some (item_map s !! k))) /\
  RCLTxSet_find s k = Ok (mkItem k <$> item_map s !! k) /\
  (exists s', MutableTxSet_insert s t = Ok (s', bool_decide (item_map s !! RCLCxTx_id t = None)) /\ txset s' /\
    item_map s' = match item_map s !! RCLCxTx_id t with
                  | Some _ => item_map s | None => <[RCLCxTx_id t := item_data t]> (item_map s) end) /\
  (exists s', MutableTxSet_erase s k = Ok (s', bool_decide (is_Some (item_map s !! k))) /\ txset s' /\
    item_map s' = delete k (item_map s)) /\
  (RCLTxSet_id s = RCLTxSet_id o <-> item_map s = item_map o) /\
  (exists ret, RCLTxSet_compare s o = Ok ret /\ StronglySorted N.lt ret.*1 /\
    length ret = Nat.min (Z.to_nat kCompareLimit) (size (disagreement s o)) /\
    forall k b, (k, b) ∈ ret -> k ∈ disagreement s o /\ b = bool_decide (k ∈ dom (item_map s))).
Proof.
  intros Hs Ho Hg Ht Hk. split_and!.
  - apply (hasItem_map TnTransactionNm); [apply Hs|done].
  - apply (peekItem_map TnTransactionNm); [apply Hs|done].
  - by apply txset_insert.
  - by apply txset_erase.
  - split; [by intros ->%sets_same_hash|]. intros E. unfold RCLTxSet_id. f_equal.
    by apply (same_items_same_tree TnTransactionNm); [apply Hs|apply Ho|].
  - by apply RCLTxSet_compare_spec.
Qed.

(** The digests of a proposal name it: the digest a proposal is signed by
    is that of its present fields, however it was edited and asked for the
    digest before; over a digest without collisions on the images two
    proposals have the same signing digest exactly when they agree in sequence,
    close time, previous ledger and position; and the identifier by which
    duplicates are suppressed exists, and is the same exactly when key and
    signature agree, too. *)
Theorem proposal_digests `{Digest} p q es k1 s1 k2 s2 :
  proposal_ok p -> proposal_ok q ->
  (blob_size k1 <= 918744)%Z -> (blob_size s1 <= 918744)%Z -> (blob_size k2 <= 918744)%Z -> (blob_size s2 <= 918744)%Z ->
  (let s := foldl edit_proposal (mkSigned p None) es in
   (signingHash s).1 = sha512Half (signing_image (signed_proposal s))) /\
  (digest_good [signing_image p; signing_image q] ->
   (signingHash (mkSigned p None)).1 = (signingHash (mkSigned q None)).1 <-> same_signed p q) /\
  exists i j, proposal_image p k1 s1 = Ok i /\ proposal_image q k2 s2 = Ok j /\
    (digest_good [i; j] ->
     proposalUniqueId (position p) (prevLedger p) (proposeSeq p) (prop_closeTime p) k1 s1 =
     proposalUniqueId (position q) (prevLedger q) (proposeSeq q) (prop_closeTime q) k2 s2 <->
     same_signed p q /\ k1 = k2 /\ s1 = s2).
Proof.
  intros Hp Hq K1 S1 K2 S2. split_and!; [apply signing_current| |].
  - intros [_ Hg]. cbn. split.
    + intros E%Hg; [|set_solver..]. by apply signing_image_inj.
    + intros (E1 & E2 & E3 & E4). unfold signing_image. by rewrite E1, E2, E3, E4.
  - destruct (proposal_image_bytes p k1 s1 K1 S1) as (? & ? & _ & _ & Ei), (proposal_image_bytes q k2 s2 K2 S2) as (? & ? & _ & _ & Ej).
    eexists _, _. split_and!; [exact Ei|exact Ej|]. intros [_ Hg]. unfold proposalUniqueId.
    fold (proposal_image p k1 s1) (proposal_image q k2 s2). split.
    + rewrite Ei, Ej. intros E. pose proof (f_equal (settled 0) E) as E'. cbn [mbind result_bind settled] in E'.
      apply Hg in E'; [|by left|by right; left]. rewrite E' in Ei.
      by apply (proposal_image_inj p q k1 s1 k2 s2 _ Hp Hq K1 S1 K2 S2 Ei Ej).
    + intros ((E1 & E2 & E3 & E4) & -> & ->). unfold proposal_image. by rewrite E1, E2, E3, E4.
Qed.

(** ** Examples *)

Definition sample_r1 : node := sample_map TnAccountState [mkItem 0 [1]%Z; mkItem (2 ^ 254) [2]%Z; mkItem (2 ^ 255) [3]%Z].
Definition sample_r2 : node := sample_map TnAccountState [mkItem 0 [1]%Z; mkItem (2 ^ 254) [4]%Z; mkItem (2 ^ 254 + 2 ^ 250) [3]%Z].

Lemma shamap_compare_witness :
  exists D, @compare horner sample_r1 sample_r2 2 = Ok (false, D) /\
    D ⊆ differences (item_map sample_r1) (item_map sample_r2) /\ size D = 2%nat.
Proof.
  assert (size (differences (item_map sample_r1) (item_map sample_r2)) = 3%nat) as E3 by (vm_compute; reflexivity).
  assert (wf_map TnAccountState sample_r1 /\ wf_map TnAccountState sample_r2) as [W1 W2].
  { split; apply sample_map_wf; [discriminate|vm_compute; reflexivity|discriminate|vm_compute; reflexivity]. }
  assert (@digest_good horner (@preimages horner sample_r1 ++ @preimages horner sample_r2)) as Hg
    by (apply collision_free_good; vm_compute; reflexivity).
  pose proof (images_keyed _ 0 0 _ _ (or_introl eq_refl) (proj1 W1) (proj1 W2)) as Hi.
  pose proof (@shamap_compare horner TnAccountState sample_r1 sample_r2 2 W1 W2 Hi Hg eq_refl) as (D & E & Hsub & Hsz).
  rewrite E3 in E, Hsz. exists D. split; [exact E|]. split; [exact Hsub|exact Hsz].
Defined.

Definition sample_s1 : node := sample_map TnTransactionNm [sample_txn 1; sample_txn 2].
Definition sample_s2 : node := sample_map TnTransactionNm [sample_txn 2; sample_txn 3; sample_txn 4].

Definition txset_check (l : list item) : bool :=
  forallb (fun i : item => (item_key i <? 2 ^ 256)%N && (item_key i =? horner (leaf_preimage TnTransactionNm i))%N)
    (items (sample_map TnTransactionNm l)).
Lemma txset_checked l : forallb (fun i : item => item_key i <? 2 ^ 256)%N l = true -> txset_check l = true ->
  @txset horner (sample_map TnTransactionNm l).
Proof.
  intros Hl Hc. split; [by apply sample_map_wf|]. intros i Hi%list_elem_of_In. unfold txset_check in Hc.
  rewrite forallb_forall in Hc. apply Hc, andb_prop in Hi as [H1 H2]. split; [by apply N.ltb_lt|by apply N.eqb_eq].
Qed.

Lemma rclTxSet_refines_witness :
  exists ret, @RCLTxSet_compare horner sample_s1 sample_s2 = Ok ret /\ length ret = 3%nat.
Proof.
  assert (@txset horner sample_s1 /\ @txset horner sample_s2) as [H1 H2] by (split; apply txset_checked; vm_compute; reflexivity).
  assert (@digest_good horner (@preimages horner sample_s1 ++ @preimages horner sample_s2)) as Hg
    by (apply collision_free_good; vm_compute; reflexivity).
  assert (@txn horner (sample_txn 5)) as Ht by (split; vm_compute; reflexivity).
  assert (size (disagreement sample_s1 sample_s2) = 3%nat) as E3 by (vm_compute; reflexivity).
  pose proof (@rclTxSet_refines horner sample_s1 sample_s2 (sample_txn 5) 9 H1 H2 Hg Ht eq_refl)
    as (_ & _ & _ & _ & _ & ret & E & _ & Hl & _).
  exists ret. split; [exact E|]. rewrite E3, Nat.min_r in Hl by (unfold kCompareLimit; lia). exact Hl.
Defined.

Definition sample_proposal (pos : N) : ConsensusProposal := mkProposal 3 pos 100 101 0 7.
Lemma proposal_digests_witness :
  (@signingHash horner (mkSigned (sample_proposal 5) None)).1 = (@signingHash horner (mkSigned (sample_proposal 6) None)).1 <->
  same_signed (sample_proposal 5) (sample_proposal 6).
Proof.
  apply (@proposal_digests horner (sample_proposal 5) (sample_proposal 6) [] [1]%Z [2]%Z [1]%Z [2]%Z);
    [repeat split; vm_compute; done..|]. apply collision_free_good. by vm_compute.
Defined.

(** The laws of the rounds hold of the sets over two transactions. *)
Lemma sets_of_two (t1 t2 : item) r : over [t1; t2] r -> item_key t1 <> item_key t2 ->
  item_map r = ∅ \/ item_map r = {[item_key t1 := item_data t1]} \/ item_map r = {[item_key t2 := item_data t2]} \/
  item_map r = <[item_key t1 := item_data t1]> {[item_key t2 := item_data t2]}.
Proof.
  intros [_ Hin] Hne.
  assert (forall k d, item_map r !! k = Some d -> (k = item_key t1 /\ d = item_data t1) \/ (k = item_key t2 /\ d = item_data t2)) as Hd.
  { intros k d [<-|[<-|?%elem_of_nil]%elem_of_cons]%Hin%elem_of_cons; [by left|by right|done]. }
  assert (forall m, item_map r !! item_key t1 = m !! item_key t1 -> item_map r !! item_key t2 = m !! item_key t2 ->
    (forall k, k <> item_key t1 -> k <> item_key t2 -> m !! k = None) -> item_map r = m) as Hm.
  { intros m M1 M2 Mn. apply map_eq. intros k. destruct (decide (k = item_key t1)) as [->|H1]; [done|].
    destruct (decide (k = item_key t2)) as [->|H2]; [done|]. rewrite Mn by done.
    destruct (item_map r !! k) eqn:E; [|done]. by destruct (Hd _ _ E) as [[? _]|[? _]]. }
  destruct (item_map r !! item_key t1) as [d1|] eqn:D1, (item_map r !! item_key t2) as [d2|] eqn:D2;
    [right; right; right|right; left|right; right; left|left]; apply Hm.
  all: try (apply Hd in D1 as [[_ ->]|[? _]]; [|done]). all: try (apply Hd in D2 as [[? _]|[_ ->]]; [done|]).
  all: intros; by simplify_map_eq.
Qed.

Lemma sublists_of_two {A} (a b : A) l i : l ∈ [[]; [a]; [b]; [a; b]] -> i ∈ l -> i ∈ [a; b].
Proof.
  rewrite !elem_of_cons, elem_of_nil. intros [->|[->|[->|[->|[]]]]]; rewrite ?elem_of_cons, ?elem_of_nil; tauto.
Qed.

Lemma elem_of_flat_map {A B} (f : A -> list B) l x y : x ∈ l -> y ∈ f x -> y ∈ flat_map f l.
Proof. rewrite !list_elem_of_In, in_flat_map. eauto. Qed.

Definition sample_L : list item := [sample_txn 1; sample_txn 2].
Definition sample_sets : list node :=
  sample_map TnTransactionNm <$> [[]; [sample_txn 1]; [sample_txn 2]; [sample_txn 1; sample_txn 2]].

Lemma sample_L_txn i : i ∈ sample_L -> @txn horner i.
Proof. intros [->|[->|?%elem_of_nil]%elem_of_cons]%elem_of_cons; [split; vm_compute; reflexivity..|done]. Qed.
Lemma sample_sets_wf r : r ∈ sample_sets -> wf_map TnTransactionNm r.
Proof.
  intros (l & -> & Hl)%list_elem_of_fmap. apply sample_map_wf; [discriminate|]. apply forallb_forall. intros i Hi%list_elem_of_In.
  by apply N.ltb_lt, sample_L_txn, (sublists_of_two _ _ l).
Qed.

Lemma sample_over r : over sample_L r -> r ∈ sample_sets.
Proof.
  intros Ho. assert (exists c, c ∈ sample_sets /\ item_map c = item_map r) as (c & Hc & E).
  { assert (item_key (sample_txn 1) <> item_key (sample_txn 2)) as Hne by (vm_compute; discriminate).
    destruct (sets_of_two _ _ r Ho Hne) as [->|[->|[->| ->]]].
    - exists (sample_map TnTransactionNm []). split; [by apply list_elem_of_fmap_2; left|vm_compute; reflexivity].
    - exists (sample_map TnTransactionNm [sample_txn 1]). split; [by apply list_elem_of_fmap_2; right; left|vm_compute; reflexivity].
    - exists (sample_map TnTransactionNm [sample_txn 2]). split; [by apply list_elem_of_fmap_2; right; right; left|vm_compute; reflexivity].
    - exists (sample_map TnTransactionNm sample_L).
      split; [by apply list_elem_of_fmap_2; right; right; right; left|vm_compute; reflexivity]. }
  by rewrite <-(same_items_same_tree TnTransactionNm c r (sample_sets_wf c Hc) (proj1 Ho) E).
Qed.

Lemma sample_L_good r1 r2 : over sample_L r1 -> over sample_L r2 ->
  @digest_good horner (@preimages horner r1 ++ @preimages horner r2).
Proof.
  intros H1%sample_over H2%sample_over.
  apply (@digest_good_sub horner (flat_map (@preimages horner) sample_sets)).
  - intros b [Hb|Hb]%elem_of_app; [exact (elem_of_flat_map _ _ _ _ H1 Hb)|exact (elem_of_flat_map _ _ _ _ H2 Hb)].
  - apply collision_free_good. vm_compute. reflexivity.
Qed.

Definition sample_rcl_laws : @TraitsLaws (@RCL_Traits horner sample_L sample_L_txn) :=
  @RCL_TraitsLaws horner sample_L sample_L_txn sample_L_good.
