(* ===== verification/AgedMap.v ===== *)
(** * Containers whose elements age

    [AgedUnorderedContainer] (aged_unordered_container.h) as a map: every
    element carries the time it was last used, and a list keeps the elements
    in the order of these times.  The list is the model; a search by key looks
    through it. *)

From S2P Require Import Prelude.
Open Scope Z_scope.

(** In chronological order: the key, its time, its value. *)
Abbreviation AgedMap K V := (list (K * (Z * V))).

Section aged.
Context {K V : Type} `{EqDecision K}.

Implicit Types (m : AgedMap K V).

Fixpoint aged_find (k : K) m : option V :=
  match m with
  | [] => None
  | (k', (_, v)) :: m => if decide (k = k') then Some v else aged_find k m
  end.

(** [operator[]]: a new element is created at the end of the list. *)
Definition aged_index (now : Z) (k : K) (new : V) m : AgedMap K V :=
  match aged_find k m with Some _ => m | None => m ++ [(k, (now, new))] end.

(** An assignment through a reference to the element. *)
Definition aged_alter (f : V -> V) (k : K) m : AgedMap K V :=
  (fun x => if decide (k = x.1) then (x.1, (x.2.1, f x.2.2)) else x) <$> m.

Definition touch (now : Z) (k : K) m : AgedMap K V :=
  match aged_find k m with
  | Some v => filter (fun x => x.1 <> k) m ++ [(k, (now, v))]
  | None => m
  end.

(** [beast::expire] *)
Fixpoint aged_expire (now age : Z) m : AgedMap K V :=
  match m with
  | [] => []
  | (k, (when, v)) :: m' => if when <=? now - age then aged_expire now age m' else m
  end.

(** ** Well formed containers *)

(** Keys are distinct, and times increase and are not in the future. *)
Record aged_ok (now : Z) m : Prop := {
  aged_keys : NoDup m.*1;
  aged_sorted : StronglySorted Z.le (fst <$> m.*2);
  aged_past : Forall (fun t => t <= now) (fst <$> m.*2)
}.

Lemma aged_ok_nil now : aged_ok now [].
Proof. split; constructor. Qed.

Lemma aged_ok_later now now' m : aged_ok now m -> now <= now' -> aged_ok now' m.
Proof.
  intros [Hk Hs Hp] Hle. split; [done..|]. eapply Forall_impl; [exact Hp|]. intros t Ht; cbn in *; lia.
Qed.

Lemma aged_find_elem k v m : aged_find k m = Some v -> exists t, (k, (t, v)) ∈ m.
Proof.
  induction m as [|[k' [t v']] m IH]; cbn; [done|]. destruct (decide (k = k')) as [->|Hne].
  - intros [= ->]. exists t. by left.
  - intros Hf. destruct (IH Hf) as [t' Ht]. exists t'. by right.
Qed.

Lemma aged_find_None k m : aged_find k m = None <-> k ∉ m.*1.
Proof.
  induction m as [|[k' [t v']] m IH]; cbn; [set_solver|]. rewrite not_elem_of_cons.
  destruct (decide (k = k')); [naive_solver|]. tauto.
Qed.

Lemma aged_find_Some k v m : NoDup m.*1 -> aged_find k m = Some v <-> exists t, (k, (t, v)) ∈ m.
Proof.
  intros Hnd. split; [apply aged_find_elem|]. intros [t Ht].
  induction m as [|[k' [t' v']] m IH]; [by apply elem_of_nil in Ht|]. cbn in Hnd |- *.
  apply NoDup_cons in Hnd as [Hnin Hnd]. apply elem_of_cons in Ht as [[= -> -> ->]|Ht].
  - by rewrite decide_True.
  - rewrite decide_False; [by apply IH|]. intros ->. apply Hnin.
    apply list_elem_of_fmap. by exists (k', (t, v)).
Qed.

Lemma sorted_snoc (ts : list Z) now : StronglySorted Z.le ts -> Forall (fun t => t <= now) ts ->
  StronglySorted Z.le (ts ++ [now]).
Proof.
  induction 1 as [|t ts Hs IH Hf]; intros Hp; cbn; [by repeat constructor|].
  apply Forall_cons in Hp as [Ht Hp]. constructor; [by apply IH|]. apply Forall_app. split; [done|by repeat constructor].
Qed.

Lemma aged_snoc_ok now k v m : aged_ok now m -> k ∉ m.*1 -> aged_ok now (m ++ [(k, (now, v))]).
Proof.
  intros [Hk Hs Hp] Hn. split; rewrite !fmap_app; cbn.
  - apply NoDup_app. split_and!; [done|set_solver|apply NoDup_singleton].
  - by apply sorted_snoc.
  - apply Forall_app. split; [done|]. repeat constructor. lia.
Qed.

Lemma aged_index_ok now k new m : aged_ok now m -> aged_ok now (aged_index now k new m).
Proof.
  intros Hok. unfold aged_index. destruct (aged_find k m) eqn:E; [done|].
  apply aged_find_None in E. by apply aged_snoc_ok.
Qed.

Lemma aged_alter_keys f k m : (aged_alter f k m).*1 = m.*1.
Proof. induction m as [|[k' [t v]] m IH]; cbn; [done|]. by destruct (decide (k = k')); cbn; f_equal. Qed.
Lemma aged_alter_times f k m : fst <$> (aged_alter f k m).*2 = fst <$> m.*2.
Proof. induction m as [|[k' [t v]] m IH]; cbn; [done|]. by destruct (decide (k = k')); cbn; f_equal. Qed.

Lemma aged_alter_ok now f k m : aged_ok now m -> aged_ok now (aged_alter f k m).
Proof. intros [Hk Hs Hp]. split; rewrite ?aged_alter_keys, ?aged_alter_times; done. Qed.

Lemma aged_filter_ok now (P : K * (Z * V) -> Prop) `{forall x, Decision (P x)} m :
  aged_ok now m -> aged_ok now (filter P m).
Proof.
  intros [Hk Hs Hp]. induction m as [|[k [t v]] m IH]; [apply aged_ok_nil|].
  cbn in Hk, Hs, Hp. apply NoDup_cons in Hk as [Hn Hk]. inversion Hs as [|? ? Hs' Hle]; subst.
  apply Forall_cons in Hp as [Ht Hp]. destruct (IH Hk Hs' Hp) as [Ik Is Ip]. rewrite filter_cons.
  case_decide; [|done].
  assert (forall A (f : K * (Z * V) -> A) y, y ∈ f <$> filter P m -> y ∈ f <$> m) as Hsub.
  { intros A f y (x & -> & Hx)%list_elem_of_fmap. apply list_elem_of_filter in Hx as [_ Hx].
    apply list_elem_of_fmap. by exists x. }
  split; cbn; [constructor; [|done]|constructor; [done|]|by constructor].
  - intros Hin. by apply (Hsub _ fst) in Hin.
  - rewrite <-list_fmap_compose in *. apply Forall_forall. intros y Hy. apply Hsub in Hy.
    rewrite Forall_forall in Hle. by apply Hle.
Qed.

Lemma touch_ok now k m : aged_ok now m -> aged_ok now (touch now k m).
Proof.
  intros Hok. unfold touch. destruct (aged_find k m); [|done].
  apply aged_snoc_ok; [by apply aged_filter_ok|].
  intros ([k' ?] & -> & [Hne _]%list_elem_of_filter)%list_elem_of_fmap. done.
Qed.

(** In a well formed container exactly the old elements expire. *)
Lemma aged_expire_filter now age m : aged_ok now m ->
  aged_expire now age m = filter (fun x => now - age < x.2.1) m.
Proof.
  intros [_ Hs _]. induction m as [|[k [t v]] m IH]; [done|]. cbn in Hs.
  inversion Hs as [|? ? Hs' Hle]; subst. rewrite filter_cons. cbn [aged_expire fst snd].
  destruct (Z.leb_spec t (now - age)); case_decide; try lia; [by apply IH|].
  f_equal. symmetry. apply filter_all. intros x Hx.
  rewrite <-list_fmap_compose, Forall_fmap, Forall_forall in Hle. specialize (Hle _ Hx). cbn in Hle. lia.
Qed.

Lemma aged_expire_ok now age m : aged_ok now m -> aged_ok now (aged_expire now age m).
Proof. intros Hok. rewrite aged_expire_filter by done. by apply aged_filter_ok. Qed.

(** ** Elements *)

Lemma elem_unique now k t v t' v' m : aged_ok now m -> (k, (t, v)) ∈ m -> (k, (t', v')) ∈ m -> t = t' /\ v = v'.
Proof.
  intros [Hk _ _] H1 H2. apply list_elem_of_lookup in H1 as [i Hi], H2 as [j Hj].
  assert (i = j) as ->.
  { eapply NoDup_lookup; [exact Hk|by rewrite list_lookup_fmap, Hi|by rewrite list_lookup_fmap, Hj]. }
  rewrite Hi in Hj. by injection Hj as -> ->.
Qed.

Lemma elem_index now k new m x : x ∈ aged_index now k new m <-> x ∈ m \/ aged_find k m = None /\ x = (k, (now, new)).
Proof.
  unfold aged_index. destruct (aged_find k m) eqn:E; [naive_solver|].
  rewrite elem_of_app, list_elem_of_singleton. naive_solver.
Qed.

Lemma elem_alter f k m k' t v : (k', (t, v)) ∈ aged_alter f k m <->
  exists v0, (k', (t, v0)) ∈ m /\ v = if decide (k = k') then f v0 else v0.
Proof.
  unfold aged_alter. rewrite list_elem_of_fmap. split.
  - intros ([k1 [t1 v1]] & E & Hin). cbn in E. destruct (decide (k = k1)) as [->|Hne]; injection E as -> -> ->.
    + exists v1. by rewrite decide_True.
    + exists v1. by rewrite decide_False.
  - intros (v0 & Hin & ->). exists (k', (t, v0)). split; [cbn|done]. by case_decide.
Qed.

Lemma elem_touch now k m k' t v : aged_ok now m -> (k', (t, v)) ∈ touch now k m <->
  exists t0, (k', (t0, v)) ∈ m /\ t = if decide (k' = k) then now else t0.
Proof.
  intros Hok. unfold touch. destruct (aged_find k m) as [v1|] eqn:E.
  - apply aged_find_elem in E as [t1 E]. rewrite elem_of_app, list_elem_of_filter, list_elem_of_singleton. cbn. split.
    + intros [[Hne Hin]|[= -> -> ->]]; [exists t; by rewrite decide_False|exists t1; by rewrite decide_True].
    + intros (t0 & Hin & ->). case_decide as Hk; [right|by left]. subst k'.
      by destruct (elem_unique _ _ _ _ _ _ _ Hok Hin E) as [_ ->].
  - apply aged_find_None in E. split.
    + intros Hin. exists t. split; [done|]. rewrite decide_False; [done|]. intros ->. apply E, list_elem_of_fmap. by exists (k, (t, v)).
    + intros (t0 & Hin & ->). rewrite decide_False; [done|]. intros ->. apply E, list_elem_of_fmap. by exists (k, (t0, v)).
Qed.

(** A loop that touches some of the elements. *)
Lemma touch_loop {X} now (f : AgedMap K V -> X -> AgedMap K V) (P : X -> bool) (g : X -> K) xs m :
  (forall m x, f m x = if P x then touch now (g x) m else m) -> aged_ok now m ->
  let m' := foldl f m xs in
  aged_ok now m' /\ forall k t v, (k, (t, v)) ∈ m' <->
    exists t0, (k, (t0, v)) ∈ m /\ t = if existsb (fun x => P x && bool_decide (k = g x)) xs then now else t0.
Proof.
  intros Hf. revert m. induction xs as [|x xs IH]; intros m Hok; cbn; [naive_solver|]. rewrite Hf.
  assert (aged_ok now (if P x then touch now (g x) m else m)) as Hok1 by (destruct (P x); [by apply touch_ok|done]).
  destruct (IH _ Hok1) as [Hok' Hel]. split; [done|]. intros k t v. rewrite Hel.
  destruct (P x); cbn [andb orb]; [|done]. setoid_rewrite (elem_touch now (g x) m); [|done].
  destruct (decide (k = g x)) as [Ek|Ek]; [rewrite (bool_decide_true _ Ek)|rewrite (bool_decide_false _ Ek)]; cbn [orb]; split.
  - intros (t0 & (t1 & Hin & ->) & ->). exists t1. by destruct (existsb _ xs).
  - intros (t0 & Hin & ->). exists now. split; [by exists t0|]. by destruct (existsb _ xs).
  - intros (t0 & (t1 & Hin & ->) & ->). by exists t1.
  - intros (t0 & Hin & ->). exists t0. split; [by exists t0|done].
Qed.
End aged.
