(* ===== verification/Validations.v ===== *)
(** * Tracking validations

    [Validations] (Validations.h): the current validation of every listed
    node, recent validations by ledger and by sequence number, and the trie of
    the ledgers that trusted nodes validated last.  The template parameters
    are classes here: the ledger type ([LedgerHistory]) and the adaptor, which
    tells the time and acquires ledgers ([Adaptor]).  The order in which an
    unordered container is traversed is left open ([HashOrder]).  Each public
    operation takes the mutex for as long as it runs and is one step.  A
    [Validation] shares its trust flag with its copies in the code; as every
    change of trust goes to all containers that are asked for it, copies are
    plain values here. *)

From S2P Require Import AgedMap.
From S2P Require Import Prelude StateMonad LedgerTrie.
Open Scope Z_scope.

(** ** The interface to the environment *)

Class Adaptor (A L : Type) : Type := {
  adaptor_now : A -> Z;           (* network time, in seconds *)
  clock_now : A -> Z;             (* the clock of the aged containers, in seconds *)
  acquire : N -> A -> option L * A
}.

(** ** Parameters and sequence numbers *)

Record ValidationParms : Type := mkParms {
  validationCurrentWall : Z;
  validationCurrentLocal : Z;
  validationCurrentEarly : Z;
  validationSetExpires : Z;
  validationFRESHNESS : Z
}.
Definition defaultValidationParms : ValidationParms := mkParms 300 180 180 600 20.

Record SeqEnforcer : Type := mkSeqEnforcer { seq_ : nat; when_ : Z }.
Definition newSeqEnforcer : SeqEnforcer := mkSeqEnforcer 0 0.

(** [SeqEnforcer::operator()] *)
Definition enforce (e : SeqEnforcer) (now : Z) (s : nat) (p : ValidationParms) : SeqEnforcer * bool :=
  let seq := if when_ e + validationSetExpires p <? now then 0%nat else seq_ e in
  if (s <=? seq)%nat then (mkSeqEnforcer seq (when_ e), false)
  else (mkSeqEnforcer s now, true).
Definition largest (e : SeqEnforcer) : nat := seq_ e.

Definition isCurrent (p : ValidationParms) (now signTime seenTime : Z) : bool :=
  (now - validationCurrentEarly p <? signTime) &&
  (signTime <? now + validationCurrentWall p) &&
  ((seenTime =? 0) || (seenTime <? now + validationCurrentLocal p)).

Inductive ValStatus : Type := Current | Stale | BadSeq | Multiple | Conflicting.
#[export] Instance ValStatus_eq_dec : EqDecision ValStatus.
Proof. solve_decision. Defined.

Record Validation : Type := mkValidation {
  v_ledgerID : N;
  v_seq : nat;
  v_signTime : Z;
  v_seenTime : Z;
  v_key : N;
  v_trusted : bool;
  v_full : bool;
  v_loadFee : option N;
  v_cookie : N;
  v_unwrap : N                    (* the object wrapped *)
}.
Definition setTrust (b : bool) (v : Validation) : Validation :=
  let 'mkValidation id s t1 t2 k _ f fee c u := v in mkValidation id s t1 t2 k b f fee c u.
Definition setTrusted := setTrust true.
Definition setUntrusted := setTrust false.

(** ** The state *)

Record Validations (L : Type) `{LedgerHistory L} : Type := mkValidations {
  current_ : gmap N Validation;
  localSeqEnforcer_ : SeqEnforcer;
  seqEnforcers_ : gmap N SeqEnforcer;
  byLedger_ : AgedMap N (gmap N Validation);
  bySequence_ : AgedMap nat (gmap N Validation);
  toKeep_ : option (nat * nat);
  trie_ : LedgerTrie (L := L);
  lastLedger_ : gmap N L;
  acquiring_ : gmap (nat * N) (gset N);
  parms_ : ValidationParms;
  kRefreshTime : Z                (* a static variable of [expire] *)
}.
#[global] Arguments mkValidations {L _}.
#[global] Arguments current_ {L _}. #[global] Arguments localSeqEnforcer_ {L _}.
#[global] Arguments seqEnforcers_ {L _}. #[global] Arguments byLedger_ {L _}.
#[global] Arguments bySequence_ {L _}. #[global] Arguments toKeep_ {L _}.
#[global] Arguments trie_ {L _}. #[global] Arguments lastLedger_ {L _}.
#[global] Arguments acquiring_ {L _}. #[global] Arguments parms_ {L _}.
#[global] Arguments kRefreshTime {L _}.

Section validations.
Context {L A : Type} `{LedgerHistory L, Adaptor A L, HashOrder}.
Implicit Types (v : Validations L) (nodeID : N) (val : Validation) (l : L).

Definition newValidations (p : ValidationParms) : Validations L :=
  mkValidations ∅ newSeqEnforcer ∅ [] [] None emptyTrie ∅ ∅ p 0.

Definition set_current c v : Validations L :=
  let 'mkValidations _ b d e f g h i j k r := v in mkValidations c b d e f g h i j k r.
Definition set_local b v : Validations L :=
  let 'mkValidations c _ d e f g h i j k r := v in mkValidations c b d e f g h i j k r.
Definition set_enforcers d v : Validations L :=
  let 'mkValidations c b _ e f g h i j k r := v in mkValidations c b d e f g h i j k r.
Definition set_byLedger e v : Validations L :=
  let 'mkValidations c b d _ f g h i j k r := v in mkValidations c b d e f g h i j k r.
Definition set_bySequence f v : Validations L :=
  let 'mkValidations c b d e _ g h i j k r := v in mkValidations c b d e f g h i j k r.
Definition set_toKeep g v : Validations L :=
  let 'mkValidations c b d e f _ h i j k r := v in mkValidations c b d e f g h i j k r.
Definition set_trie h v : Validations L :=
  let 'mkValidations c b d e f g _ i j k r := v in mkValidations c b d e f g h i j k r.
Definition set_last i v : Validations L :=
  let 'mkValidations c b d e f g h _ j k r := v in mkValidations c b d e f g h i j k r.
Definition set_acquiring j v : Validations L :=
  let 'mkValidations c b d e f g h i _ k r := v in mkValidations c b d e f g h i j k r.
Definition set_refresh r v : Validations L :=
  let 'mkValidations c b d e f g h i j k _ := v in mkValidations c b d e f g h i j k r.

Abbreviation M := (ST (Validations L * A)).

Definition get : M (Validations L) := fun st => Ok (st.1, st).
Definition modify (f : Validations L -> Validations L) : M () := fun st => Ok ((), (f st.1, st.2)).
Definition now : M Z := fun st => Ok (adaptor_now st.2, st).
Definition steady : M Z := fun st => Ok (clock_now st.2, st).
Definition acquireM (id : N) : M (option L) := fun st =>
  let '(r, a) := acquire id st.2 in Ok (r, (st.1, a)).
Definition throws {X} (r : result X) : M X := fun st =>
  match r with Ok x => Ok (x, st) | Throw e => Throw e end.

(** ** The trie *)

Definition val_pair val : nat * N := (v_seq val, v_ledgerID val).

(** A node no longer waits for a ledger. *)
Definition stop_acquiring (key : nat * N) nodeID v : Validations L :=
  match acquiring_ v !! key with
  | None => v
  | Some nodes =>
      let nodes := nodes ∖ {[nodeID]} in
      set_acquiring (if decide (nodes = ∅) then delete key (acquiring_ v)
                     else <[key := nodes]> (acquiring_ v)) v
  end.

Definition removeTrie nodeID val : M () :=
  _ ← modify (stop_acquiring (val_pair val) nodeID);
  v ← get;
  match lastLedger_ v !! nodeID with
  | Some l =>
      if (led_id l =? v_ledgerID val)%N then
        '(t, _) ← throws (remove (trie_ v) l 1);
        modify (fun v => set_last (delete nodeID (lastLedger_ v)) (set_trie t v))
      else mret ()
  | None => mret ()
  end.

(** [updateTrie(lock, nodeID, ledger)] *)
Definition updateTrieLedger nodeID l : M () :=
  v ← get;
  t ← match lastLedger_ v !! nodeID with
      | Some old => '(t, _) ← throws (remove (trie_ v) old 1); mret t
      | None => mret (trie_ v)
      end;
  t ← throws (insert t l 1);
  modify (fun v => set_trie t (set_last (<[nodeID := l]> (lastLedger_ v)) v)).

Definition checkAcquired_entry (x : (nat * N) * gset N) : M () :=
  r ← acquireM x.1.2;
  match r with
  | Some l =>
      _ ← for_each (fun nodeID => updateTrieLedger nodeID l) (order_set x.2);
      modify (fun v => set_acquiring (delete x.1 (acquiring_ v)) v)
  | None => mret ()
  end.
Definition checkAcquired : M () := v ← get; for_each checkAcquired_entry (order (acquiring_ v)).

(** [updateTrie(lock, nodeID, val, prior)] *)
Definition updateTrie nodeID val (prior : option (nat * N)) : M () :=
  _ ← match prior with
      | Some key => modify (stop_acquiring key nodeID)
      | None => mret ()
      end;
  _ ← checkAcquired;
  v ← get;
  match acquiring_ v !! val_pair val with
  | Some nodes => modify (set_acquiring (<[val_pair val := {[nodeID]} ∪ nodes]> (acquiring_ v)))
  | None =>
      r ← acquireM (v_ledgerID val);
      match r with
      | Some l => updateTrieLedger nodeID l
      | None => modify (fun v => set_acquiring (<[val_pair val := {[nodeID]}]> (acquiring_ v)) v)
      end
  end.

(** [current]: flushes stale validations; the live ones are returned in the
    order in which the code hands them to its argument. *)
Definition current_entry (t : Z) (x : N * Validation) : M (list (N * Validation)) :=
  v ← get;
  if isCurrent (parms_ v) t (v_signTime x.2) (v_seenTime x.2) then mret [x]
  else
    _ ← removeTrie x.1 x.2;
    _ ← modify (fun v => set_current (delete x.1 (current_ v)) v);
    mret [].
Fixpoint current_loop (t : Z) (xs : list (N * Validation)) : M (list (N * Validation)) :=
  match xs with
  | [] => mret []
  | x :: xs => live ← current_entry t x; rest ← current_loop t xs; mret (live ++ rest)
  end.
Definition current : M (list (N * Validation)) := t ← now; v ← get; current_loop t (order (current_ v)).

Definition withTrie {X} (f : LedgerTrie (L := L) -> X) : M X :=
  _ ← current; _ ← checkAcquired; v ← get; mret (f (trie_ v)).

(** [byLedger]: the validations of one ledger, in the order of the loop. *)
Definition byLedger (ledgerID : N) : M (list (N * Validation)) :=
  v ← get;
  match aged_find ledgerID (byLedger_ v) with
  | None => mret []
  | Some m =>
      t ← steady;
      _ ← modify (fun v => set_byLedger (touch t ledgerID (byLedger_ v)) v);
      mret (order m)
  end.

(** ** Public operations *)

Definition canValidateSeq (s : nat) : M bool :=
  v ← get; t ← steady;
  let '(e, b) := enforce (localSeqEnforcer_ v) t s (parms_ v) in
  _ ← modify (set_local e); mret b.

(** The validation tracked for the sequence number of [val]. *)
Definition track (p : ValidationParms) nodeID val (m : gmap N Validation) : gmap N Validation :=
  match m !! nodeID with
  | None => <[nodeID := val]> m
  | Some old =>
      let diff := Z.max (v_signTime old) (v_signTime val) - Z.min (v_signTime old) (v_signTime val) in
      if (validationCurrentWall p <? diff) && (v_signTime old <? v_signTime val)
      then <[nodeID := val]> m else m
  end.

(** What a validation that repeats a sequence number is taken for. *)
Definition byzantine (tracked val : Validation) : ValStatus :=
  if (v_seq tracked =? v_seq val)%nat then
    if negb (v_ledgerID tracked =? v_ledgerID val)%N then Conflicting
    else if negb (v_signTime tracked =? v_signTime val) then Conflicting
    else if negb (v_cookie tracked =? v_cookie val)%N then Multiple
    else BadSeq
  else BadSeq.

Definition add nodeID val : M ValStatus :=
  v ← get; n ← now;
  if negb (isCurrent (parms_ v) n (v_signTime val) (v_seenTime val)) then mret Stale
  else
    t ← steady;
    let bySeq := aged_alter (track (parms_ v) nodeID val) (v_seq val)
                   (aged_index t (v_seq val) ∅ (bySequence_ v)) in
    _ ← modify (set_bySequence bySeq);
    let tracked := default val (aged_find (v_seq val) bySeq ≫= lookup nodeID) in
    let '(e, b) := enforce (default newSeqEnforcer (seqEnforcers_ v !! nodeID)) t (v_seq val) (parms_ v) in
    _ ← modify (set_enforcers (<[nodeID := e]> (seqEnforcers_ v)));
    if negb b then mret (byzantine tracked val)
    else
      _ ← modify (set_byLedger (aged_alter (fun m => <[nodeID := val]> m) (v_ledgerID val)
                                  (aged_index t (v_ledgerID val) ∅ (byLedger_ v))));
      match current_ v !! nodeID with
      | None =>
          _ ← modify (set_current (<[nodeID := val]> (current_ v)));
          _ ← (if v_trusted val then updateTrie nodeID val None else mret ());
          mret Current
      | Some oldVal =>
          if v_signTime oldVal <? v_signTime val then
            _ ← modify (set_current (<[nodeID := val]> (current_ v)));
            _ ← (if v_trusted val then updateTrie nodeID val (Some (val_pair oldVal)) else mret ());
            mret Current
          else mret Stale
      end.

Definition setSeqToKeep (low high : nat) : M () := modify (set_toKeep (Some (low, high))).

Definition kept (range : nat * nat) (s : nat) : bool := (range.1 <=? s)%nat && (s <? range.2)%nat.

(** The two loops of [expire]. *)
Definition keep_byLedger (t : Z) (range : nat * nat) (m : AgedMap N (gmap N Validation))
    : AgedMap N (gmap N Validation) :=
  foldl (fun m x =>
    match order x.2 with
    | (_, val) :: _ => if kept range (v_seq val) then touch t x.1 m else m
    | [] => m
    end) m (order (list_to_map ((fun x => (x.1, x.2.2)) <$> m) : gmap N (gmap N Validation))).
Definition keep_bySequence (t : Z) (range : nat * nat) (m : AgedMap nat (gmap N Validation))
    : AgedMap nat (gmap N Validation) :=
  foldl (fun m x => if kept range x.1 then touch t x.1 m else m) m
    (order (list_to_map ((fun x => (x.1, x.2.2)) <$> m) : gmap nat (gmap N Validation))).

Definition expire : M () :=
  v ← get; t ← steady;
  _ ← match toKeep_ v with
      | Some range =>
          if kRefreshTime v <=? t then
            _ ← modify (set_refresh (t + validationSetExpires (parms_ v) - validationFRESHNESS (parms_ v)));
            _ ← modify (set_byLedger (keep_byLedger t range (byLedger_ v)));
            modify (set_bySequence (keep_bySequence t range (bySequence_ v)))
          else mret ()
      | None => mret ()
      end;
  _ ← modify (fun v => set_byLedger (aged_expire t (validationSetExpires (parms_ v)) (byLedger_ v)) v);
  modify (fun v => set_bySequence (aged_expire t (validationSetExpires (parms_ v)) (bySequence_ v)) v).

Definition retrust (added removed : gset N) nodeID val : Validation :=
  if decide (nodeID ∈ added) then setTrusted val
  else if decide (nodeID ∈ removed) then setUntrusted val else val.

Definition retrust_map (added removed : gset N) (m : gmap N Validation) : gmap N Validation :=
  map_imap (fun n val => Some (retrust added removed n val)) m.

Definition trustChanged_entry (added removed : gset N) (x : N * Validation) : M () :=
  let val := retrust added removed x.1 x.2 in
  _ ← modify (fun v => set_current (<[x.1 := val]> (current_ v)) v);
  if decide (x.1 ∈ added) then updateTrie x.1 val None
  else if decide (x.1 ∈ removed) then removeTrie x.1 val else mret ().
Definition trustChanged (added removed : gset N) : M () :=
  v ← get;
  _ ← for_each (trustChanged_entry added removed) (order (current_ v));
  modify (fun v => set_byLedger
    (map (fun x => (x.1, (x.2.1, retrust_map added removed x.2.2))) (byLedger_ v)) v).

(** [std::max_element]: the first of the largest. *)
Definition max_element {X} (lt : X -> X -> bool) (xs : list X) : option X :=
  match xs with
  | [] => None
  | x :: xs =>
      (fix go (best : X) (xs : list X) : option X :=
         match xs with [] => Some best | y :: ys => go (if lt best y then y else best) ys end) x xs
  end.

(** [getPreferred(curr)] *)
Definition fallback_lt (a b : (nat * N) * gset N) : bool :=
  (size a.2 <? size b.2)%nat || ((size a.2 =? size b.2)%nat && (a.1.2 <? b.1.2)%N).
Definition getPreferred (curr : L) : M (option (nat * N)) :=
  v ← get;
  p ← withTrie (fun t => LedgerTrie.getPreferred t (largest (localSeqEnforcer_ v)));
  p ← throws p;
  match p with
  | None => v ← get; mret (fst <$> max_element fallback_lt (order (acquiring_ v)))
  | Some p =>
      if (tip_seq p =? led_seq curr + 1)%nat && (tip_ancestor p (led_seq curr) =? led_id curr)%N
      then mret (Some (led_seq curr, led_id curr))
      else if (led_seq curr <? tip_seq p)%nat then mret (Some (tip_seq p, tip_id p))
      else if negb (led_at curr (tip_seq p) =? tip_id p)%N then mret (Some (tip_seq p, tip_id p))
      else mret (Some (led_seq curr, led_id curr))
  end.

(** [getPreferred(curr, minValidSeq)] *)
Definition getPreferredValid (curr : L) (minValidSeq : nat) : M N :=
  p ← getPreferred curr;
  mret (match p with
        | Some p => if (minValidSeq <=? p.1)%nat then p.2 else led_id curr
        | None => led_id curr
        end).

Definition count_lt (a b : N * N) : bool := (a.2 <? b.2)%N || ((a.2 =? b.2)%N && (a.1 <? b.1)%N).
Definition getPreferredLCL (lcl : L) (minSeq : nat) (peerCounts : gmap N N) : M N :=
  p ← getPreferred lcl;
  mret (match p with
        | Some p => if (minSeq <=? p.1)%nat then p.2 else led_id lcl
        | None => match max_element count_lt (order peerCounts) with
                  | Some x => x.1
                  | None => led_id lcl
                  end
        end).

Definition getNodesAfter l (ledgerID : N) : M N :=
  if (led_id l =? ledgerID)%N then
    withTrie (fun t => wrap32 (branchSupportOf t l + 2 ^ 32 - tipSupportOf t l))
  else
    v ← get;
    mret (N.of_nat (length (filter
      (fun x => (0 < led_seq x.2)%nat /\ led_at x.2 (led_seq x.2 - 1) = ledgerID) (order (lastLedger_ v))))).

Definition currentTrusted : M (list N) :=
  xs ← current; mret (v_unwrap <$> filter (fun val => v_trusted val && v_full val) xs.*2).

Definition getCurrentNodeIDs : M (gset N) := xs ← current; mret (list_to_set xs.*1).

Definition trustedFull (xs : list (N * Validation)) : list Validation :=
  filter (fun val => v_trusted val && v_full val) xs.*2.
Definition numTrustedForLedger (ledgerID : N) : M nat :=
  xs ← byLedger ledgerID; mret (length (trustedFull xs)).
Definition getTrustedForLedger (ledgerID : N) (s : nat) : M (list N) :=
  xs ← byLedger ledgerID; mret (v_unwrap <$> filter (fun val => v_seq val = s) (trustedFull xs)).
Definition fees (ledgerID baseFee : N) : M (list N) :=
  xs ← byLedger ledgerID; mret ((fun val => default baseFee (v_loadFee val)) <$> trustedFull xs).

Definition flush : M () := modify (set_current ∅).

(** [laggards]: the trusted keys that are left are returned too. *)
Definition laggards_step (p : ValidationParms) (t : Z) (s : nat) (acc : nat * gset N) (x : N * Validation)
    : nat * gset N :=
  let '(n, trustedKeys) := acc in
  let val := x.2 in
  if (t <? v_seenTime val + validationFRESHNESS p) && bool_decide (v_key val ∈ trustedKeys)
  then (if (v_seq val <? s)%nat then S n else n, trustedKeys ∖ {[v_key val]})
  else (n, trustedKeys).
Definition laggards (s : nat) (trustedKeys : gset N) : M (nat * gset N) :=
  v ← get; t ← now; xs ← current; mret (foldl (laggards_step (parms_ v) t s) (0%nat, trustedKeys) xs).
End validations.
