(* ===== verification/ValidationsSpec.v ===== *)
(** * The votes behind the trie of validations

    The trie that [Validations] keeps (Validations.h) holds one vote per node
    in [lastLedger_]: the table of votes of LedgerTrieOps is the tally of
    that map, and every operation keeps it so. *)

From S2P Require Import AgedMap.
From S2P Require Import Prelude StateMonad LedgerTrie LedgerTrieSpec LedgerTrieOps LedgerTriePreferred Validations.
Open Scope nat_scope.

(** ** Counting votes *)

Section tally.
Context {L : Type} `{LedgerHistoryLaws L}.
Implicit Types (l : L) (v : votes) (m : gmap N L).

Definition tally m : votes := map_fold (fun _ l v => vote_insert l 1 v) ∅ m.

Lemma vote_insert_comm l l' v : vote_insert l 1 (vote_insert l' 1 v) = vote_insert l' 1 (vote_insert l 1 v).
Proof.
  unfold vote_insert. destruct (decide (hist l = hist l')) as [->|Hne]; [done|].
  rewrite (lookup_insert_ne _ (hist l') (hist l)), (lookup_insert_ne _ (hist l) (hist l')) by done.
  by apply insert_insert_ne.
Qed.

Lemma tally_insert m n l : m !! n = None -> tally (<[n := l]> m) = vote_insert l 1 (tally m).
Proof.
  intros Hn. unfold tally. rewrite map_fold_insert_L; [done| |done].
  intros. apply vote_insert_comm.
Qed.

Lemma vote_insert_remove l v : (forall h c, v !! h = Some c -> (0 < c)%N) ->
  vote_remove l 1 (vote_insert l 1 v) = (v, true).
Proof.
  intros Hpos. unfold vote_remove, vote_insert. rewrite lookup_insert_eq.
  destruct (v !! hist l) as [c|] eqn:E; cbn.
  - specialize (Hpos _ _ E). rewrite (proj2 (N.leb_gt (c + 1) 1)) by lia.
    rewrite insert_insert_eq, N.add_sub. f_equal. by apply insert_id.
  - rewrite delete_insert_eq. f_equal. by apply delete_id.
Qed.

Lemma tally_pos m h c : tally m !! h = Some c -> (0 < c)%N.
Proof.
  revert h c. induction m as [|n l m Hn IH] using map_ind; intros h c; [done|].
  rewrite tally_insert by done. unfold vote_insert. intros [[_ <-]|[_ Hc]]%lookup_insert_Some; [lia|]. by eapply IH.
Qed.

Lemma tally_delete m n l : m !! n = Some l -> vote_remove l 1 (tally m) = (tally (delete n m), true).
Proof.
  intros Hn. rewrite <-(insert_delete_id m n l Hn) at 1.
  rewrite tally_insert by apply lookup_delete_eq. apply vote_insert_remove. apply tally_pos.
Qed.

(** The votes of a kind are the nodes whose last ledger is of that kind. *)
Lemma tally_weight P m : vweight P (tally m) = N.of_nat (size (filter (fun x => P (hist x.2) = true) m)).
Proof.
  induction m as [|n l m Hn IH] using map_ind; [by rewrite map_filter_empty, map_size_empty|].
  rewrite tally_insert by done. unfold vote_insert.
  pose proof (vweight_insert P (tally m) (hist l) (default 0%N (tally m !! hist l) + 1)) as Hw.
  destruct (P (hist l)) eqn:HP.
  - rewrite map_filter_insert_True by done. rewrite map_size_insert_None; [lia|].
    apply map_lookup_filter_None. by left.
  - rewrite map_filter_insert_False by (cbn; congruence). rewrite delete_id by done. lia.
Qed.

Lemma tally_total m : vweight (fun _ => true) (tally m) = N.of_nat (size m).
Proof. rewrite tally_weight. by rewrite map_filter_id. Qed.

Lemma tally_empty m : tally m = ∅ <-> m = ∅.
Proof.
  split; [|by intros ->]. intros E. apply map_size_empty_inv.
  pose proof (tally_total m) as Ht. rewrite E in Ht. unfold vweight in Ht. rewrite map_to_list_empty, sum_with_nil in Ht. lia.
Qed.
End tally.

(** ** The invariant *)

(** What an acquired ledger is: the one asked for, of the tree of histories. *)
Class AdaptorLaws (A L : Type) `{LedgerHistory L, LedgerOk L, Adaptor A L} : Prop := {
  acquire_ok : forall id a l a', acquire id a = (Some l, a') -> ok l /\ led_id l = id
}.

Lemma map_size_dom {V} (m : gmap N V) : size (dom m) = size m.
Proof. apply size_dom. Qed.

Lemma size_without (X Y : gset N) n : X ⊆ Y -> n ∈ Y -> size (X ∖ {[n]}) + 1 <= size Y.
Proof.
  intros HX Hn. transitivity (size ({[n]} ∪ X ∖ {[n]})).
  - rewrite (size_union {[n]} (X ∖ {[n]})) by set_solver. rewrite size_singleton. lia.
  - apply subseteq_size. set_solver.
Qed.

Section inv.
Context {L A : Type} `{LedgerHistoryLaws L, Adaptor A L, !AdaptorLaws A L, HashOrder}.
(** The nodes that send validations; their votes fit a 32-bit counter. *)
Context (U : gset N) (HU : (N.of_nat (size U) < 2 ^ 32)%N).
(** Which node validated which ledger. *)
Context (sent : N -> N -> Prop) (HS : forall n id, sent n id -> n ∈ U).
Implicit Types (v : Validations L) (nodeID : N) (val : Validation) (l : L) (a : A).

Record VInv v : Prop := {
  vi_trie : Inv (trie_ v) (tally (lastLedger_ v));
  vi_ok : forall n l, lastLedger_ v !! n = Some l -> ok l;
  vi_last : forall n l, lastLedger_ v !! n = Some l -> sent n (led_id l);
  vi_current : forall n val, current_ v !! n = Some val -> sent n (v_ledgerID val);
  vi_acquiring : forall k X n, acquiring_ v !! k = Some X -> n ∈ X -> sent n k.2
}.

(** What the operations on the trie leave alone. *)
Record frame v v' : Prop := {
  fr_local : localSeqEnforcer_ v' = localSeqEnforcer_ v;
  fr_enforcers : seqEnforcers_ v' = seqEnforcers_ v;
  fr_byLedger : byLedger_ v' = byLedger_ v;
  fr_bySequence : bySequence_ v' = bySequence_ v;
  fr_parms : parms_ v' = parms_ v
}.
#[local] Instance frame_refl : Reflexive frame.
Proof. by split. Qed.
#[local] Instance frame_trans : Transitive frame.
Proof. intros x y z [] []. split; congruence. Qed.

(** Keeps the invariant, and what is outside the trie. *)
Abbreviation keeps v0 := (fun (st : Validations L * A) => VInv st.1 /\ frame v0 st.1).

Lemma newValidations_inv p : VInv (newValidations p).
Proof.
  split; cbn; try done.
  assert (tally (∅ : gmap N L) = ∅) as -> by done. apply empty_Inv.
Qed.

Lemma stop_acquiring_keeps key nodeID v : VInv v -> VInv (stop_acquiring key nodeID v) /\ frame v (stop_acquiring key nodeID v).
Proof.
  intros [Ht Ho Hl Hc Ha]. unfold stop_acquiring. destruct (acquiring_ v !! key) as [X|] eqn:E; [|by split].
  destruct v. cbn in *. split; [|by split]. split; cbn; try done. intros k Y n. case_decide.
  - intros [_ HY]%lookup_delete_Some. by apply Ha.
  - intros [[<- <-]|[_ HY]]%lookup_insert_Some; [|by apply Ha]. intros Hn. apply (Ha _ _ n E). set_solver.
Qed.

Lemma updateTrieLedger_keeps nodeID l v0 st : ok l -> sent nodeID (led_id l) -> keeps v0 st ->
  total (updateTrieLedger nodeID l) st (fun _ st' => keeps v0 st').
Proof using All.
  intros Hl Hsent [[Ht Ho Hd Hc Ha] Hf]. destruct st as [v a]. cbn in *.
  unfold total, updateTrieLedger, get, throws, modify, mbind, ST_bind, mret, ST_ret. cbn.
  assert (exists t, match lastLedger_ v !! nodeID with
      | Some old => match remove (trie_ v) old 1 with Ok (t, _) => Some t | Throw _ => None end
      | None => Some (trie_ v) end = Some t /\ Inv t (tally (delete nodeID (lastLedger_ v)))) as (t & Et & Hi).
  { destruct (lastLedger_ v !! nodeID) as [old|] eqn:E.
    - destruct (remove_Inv (trie_ v) _ old 1 Ht (Ho _ _ E)) as (t & Er & Hi). rewrite Er.
      exists t. split; [done|]. by rewrite (tally_delete _ _ _ E) in Hi.
    - exists (trie_ v). split; [done|]. by rewrite delete_id. }
  destruct (insert_Inv t _ l 1 Hi Hl) as (t' & Ei & Hi'); [lia| |].
  { rewrite tally_total. assert (size (delete nodeID (lastLedger_ v)) + 1 <= size U); [|lia].
    rewrite <-map_size_dom, dom_delete_L. apply size_without; [|by eapply HS].
    intros n [l' Hn]%elem_of_dom. by eapply HS, Hd. }
  assert (VInv (set_trie t' (set_last (<[nodeID := l]> (lastLedger_ v)) v))) as Hinv.
  { destruct v. cbn in *. split; cbn; try done.
    - rewrite <-insert_delete_eq, tally_insert by apply lookup_delete_eq. done.
    - intros n l'. intros [[_ <-]|[_ Hn]]%lookup_insert_Some; [done|]. by eapply Ho.
    - intros n l'. intros [[<- <-]|[_ Hn]]%lookup_insert_Some; [done|]. by eapply Hd. }
  assert (frame v0 (set_trie t' (set_last (<[nodeID := l]> (lastLedger_ v)) v))) as Hfr.
  { etransitivity; [exact Hf|]. destruct v. by split. }
  destruct (lastLedger_ v !! nodeID) as [old|].
  - destruct (remove (trie_ v) old 1) as [[t1 b]|e]; [|done]. injection Et as ->. by rewrite Ei.
  - injection Et as ->. by rewrite Ei.
Qed.

Lemma total_get st Q : Q st.1 st -> total (get : ST (Validations L * A) _) st Q.
Proof. done. Qed.
Lemma total_modify f st Q : Q () (f st.1, st.2) -> total (modify f : ST (Validations L * A) _) st Q.
Proof. done. Qed.
Lemma total_now st Q : Q (adaptor_now st.2) st -> total (now : ST (Validations L * A) _) st Q.
Proof. done. Qed.
Lemma total_steady st Q : Q (clock_now st.2) st -> total (steady : ST (Validations L * A) _) st Q.
Proof. done. Qed.
Lemma total_acquire id st Q :
  (forall r a, (forall l, r = Some l -> ok l /\ led_id l = id) -> Q r (st.1, a)) -> total (acquireM id) st Q.
Proof using All.
  intros HQ. unfold total, acquireM. destruct (acquire id st.2) as [r a] eqn:E. apply HQ.
  intros l ->. by eapply acquire_ok.
Qed.

Lemma removeTrie_keeps nodeID val v0 st : keeps v0 st ->
  total (removeTrie nodeID val) st (fun _ st' => keeps v0 st').
Proof using All.
  intros [Hi Hf]. unfold removeTrie. apply total_bind, total_modify. cbn.
  destruct (stop_acquiring_keeps (val_pair val) nodeID _ Hi) as [Hi' Hf'].
  set (v := stop_acquiring (val_pair val) nodeID st.1) in *. clearbody v.
  assert (frame v0 v) as Hfr by (by etransitivity). clear Hi Hf Hf'.
  apply total_bind, total_get. cbn. destruct (lastLedger_ v !! nodeID) as [l|] eqn:E; [|by apply total_ret].
  destruct (led_id l =? v_ledgerID val)%N; [|by apply total_ret].
  destruct (remove_Inv (trie_ v) _ l 1 (vi_trie _ Hi') (vi_ok _ Hi' _ _ E)) as (t & Er & Ht).
  apply total_bind. unfold total, throws. rewrite Er. rewrite (tally_delete _ _ _ E) in Ht. cbn in Ht |- *.
  destruct Hi' as [_ Ho Hl Hc Ha]. destruct v. cbn in *. split; [split; cbn; try done|etransitivity; [exact Hfr|by split]].
  - intros n l' [_ Hn]%lookup_delete_Some. by eapply Ho.
  - intros n l' [_ Hn]%lookup_delete_Some. by eapply Hl.
Qed.

Lemma acquiring_keeps f v0 st : (forall k X n, f (acquiring_ st.1) !! k = Some X -> n ∈ X -> sent n k.2) ->
  keeps v0 st -> keeps v0 (set_acquiring (f (acquiring_ st.1)) st.1, st.2).
Proof using All.
  intros HX [[Ht Ho Hl Hc Ha] Hf]. destruct st as [[] a]. cbn in *.
  split; [by split|]. etransitivity; [exact Hf|by split].
Qed.

Lemma checkAcquired_entry_keeps x v0 st : (forall n, n ∈ x.2 -> sent n x.1.2) -> keeps v0 st ->
  total (checkAcquired_entry x) st (fun _ st' => keeps v0 st').
Proof using All.
  intros Hx Hk. unfold checkAcquired_entry. apply total_bind, total_acquire. intros [l|] a Hl; [|by apply total_ret].
  destruct (Hl l eq_refl) as [Hok Hid]. apply total_bind.
  eapply total_mono; [apply (total_for_each _ (fun n => sent n x.1.2) (keeps v0))| ].
  - intros n st' Hn Hst'. apply updateTrieLedger_keeps; [done|by rewrite Hid|done].
  - apply Forall_forall. intros n Hn%order_set_in. by apply Hx.
  - exact Hk.
  - intros ? st' Hst'. apply total_modify. apply (acquiring_keeps (delete x.1)); [|done].
    intros k X n [_ HX]%lookup_delete_Some. by apply (vi_acquiring _ (proj1 Hst')).
Qed.

Lemma checkAcquired_keeps v0 st : keeps v0 st -> total checkAcquired st (fun _ st' => keeps v0 st').
Proof using All.
  intros Hk. unfold checkAcquired. apply total_bind, total_get.
  apply (total_for_each _ (fun x => forall n, n ∈ x.2 -> sent n x.1.2) (keeps v0)); [|..|done].
  - intros x st' Hx Hst'. by apply checkAcquired_entry_keeps.
  - apply Forall_forall. intros x Hx%order_in n. by apply (vi_acquiring _ (proj1 Hk)).
Qed.

Lemma updateTrie_keeps nodeID val prior v0 st : sent nodeID (v_ledgerID val) -> keeps v0 st ->
  total (updateTrie nodeID val prior) st (fun _ st' => keeps v0 st').
Proof using All.
  intros Hn Hk. unfold updateTrie. apply total_bind.
  assert (total (match prior with Some key => modify (stop_acquiring key nodeID) | None => mret () end) st
    (fun _ st' => keeps v0 st')) as Hp.
  { destruct prior as [key|]; [|done]. apply total_modify. destruct Hk as [Hi Hf].
    destruct (stop_acquiring_keeps key nodeID _ Hi). split; [done|]. by etransitivity. }
  eapply total_mono; [exact Hp|]. intros ? st1 H1'. apply total_bind.
  eapply total_mono; [by apply (checkAcquired_keeps v0)|]. intros ? st2 H2'. apply total_bind, total_get.
  destruct (acquiring_ st2.1 !! val_pair val) as [nodes|] eqn:E.
  - apply total_modify. apply (acquiring_keeps (fun m => <[val_pair val := {[nodeID]} ∪ nodes]> m)); [|done].
    intros k X n [[<- <-]|[_ HX]]%lookup_insert_Some; [|by apply (vi_acquiring _ (proj1 H2'))].
    intros [->%elem_of_singleton|Hx]%elem_of_union; [done|]. by apply (vi_acquiring _ (proj1 H2') _ _ n E).
  - apply total_bind, total_acquire. intros [l|] a Hl.
    + apply (updateTrieLedger_keeps _ _ v0); [by apply Hl|by destruct (Hl l eq_refl) as [_ ->]|done].
    + apply total_modify. apply (acquiring_keeps (fun m => <[val_pair val := {[nodeID]}]> m) v0 (st2.1, a)); [|done].
      intros k X n [[<- <-]|[_ HX]]%lookup_insert_Some; [by intros ->%elem_of_singleton|by apply (vi_acquiring _ (proj1 H2'))].
Qed.

Lemma current_entry_keeps t x v0 st : keeps v0 st -> total (current_entry t x) st (fun _ st' => keeps v0 st').
Proof using All.
  intros Hk. unfold current_entry. apply total_bind, total_get. destruct (isCurrent _ _ _ _); [done|].
  apply total_bind. eapply total_mono; [by apply (removeTrie_keeps _ _ v0)|]. intros ? st1 [Hi Hf].
  apply total_bind, total_modify. apply total_ret. destruct Hi as [Ht Ho Hl Hc Ha]. destruct st1 as [[] a]. cbn in *.
  split; [split; try done; cbn; intros n val [_ Hn]%lookup_delete_Some; by apply Hc|]. etransitivity; [exact Hf|by split].
Qed.

Lemma current_loop_keeps t xs v0 st : keeps v0 st -> total (current_loop t xs) st (fun _ st' => keeps v0 st').
Proof using All.
  revert st. induction xs as [|x xs IH]; intros st Hk; [done|]. cbn [current_loop]. apply total_bind.
  eapply total_mono; [by apply (current_entry_keeps _ _ v0)|]. intros live st1 H1'. apply total_bind.
  eapply total_mono; [by apply IH|]. by intros rest st2 H2'.
Qed.

Lemma current_keeps v0 st : keeps v0 st -> total current st (fun _ st' => keeps v0 st').
Proof using All. intros Hk. unfold current. apply total_bind, total_now, total_bind, total_get. by apply current_loop_keeps. Qed.

Lemma withTrie_keeps {X} (f : LedgerTrie -> X) v0 st : keeps v0 st ->
  total (withTrie f) st (fun x st' => keeps v0 st' /\ x = f (trie_ st'.1)).
Proof using All.
  intros Hk. unfold withTrie. apply total_bind. eapply total_mono; [by apply (current_keeps v0)|]. intros ? st1 H1'.
  apply total_bind. eapply total_mono; [by apply (checkAcquired_keeps v0)|]. intros ? st2 H2'. by apply total_bind, total_get, total_ret.
Qed.

(** ** Operations *)

(** Fields the invariant does not speak of. *)
Definition same_trie v v' : Prop :=
  trie_ v' = trie_ v /\ lastLedger_ v' = lastLedger_ v /\ acquiring_ v' = acquiring_ v /\
  (forall n val, current_ v' !! n = Some val -> sent n (v_ledgerID val)).
Lemma same_trie_inv v v' : VInv v -> same_trie v v' -> VInv v'.
Proof using All. intros [Ht Ho Hl Hc Ha] (Et & El & Ea & Ec). split; rewrite ?Et, ?El, ?Ea; done. Qed.

Definition enforcers_same v v' : Prop := seqEnforcers_ v' = seqEnforcers_ v /\ parms_ v' = parms_ v.

(** What [add] does to the enforcers, and when it answers [Current]. *)
Definition enforced nodeID val (t : Z) (r : ValStatus) v v' : Prop :=
  parms_ v' = parms_ v /\
  (seqEnforcers_ v' = seqEnforcers_ v /\ r = Stale \/
   exists e b, enforce (default newSeqEnforcer (seqEnforcers_ v !! nodeID)) t (v_seq val) (parms_ v) = (e, b) /\
     seqEnforcers_ v' = <[nodeID := e]> (seqEnforcers_ v) /\ (r = Current -> b = true)).

Lemma byzantine_not_current tracked val : byzantine tracked val <> Current.
Proof. unfold byzantine. by repeat case_match. Qed.

Lemma vote_keeps nodeID val prior v0 st : sent nodeID (v_ledgerID val) -> keeps v0 st ->
  total (if v_trusted val then updateTrie nodeID val prior else mret ()) st (fun _ st' => keeps v0 st').
Proof using All. intros Hn Hk. destruct (v_trusted val); [by apply updateTrie_keeps|done]. Qed.

Lemma add_keeps nodeID val st : VInv st.1 -> sent nodeID (v_ledgerID val) ->
  total (add nodeID val) st (fun r st' => VInv st'.1 /\ enforced nodeID val (clock_now st.2) r st.1 st'.1).
Proof using All.
  intros Hi Hn. unfold add. apply total_bind, total_get, total_bind, total_now.
  destruct (isCurrent _ _ _ _); cbn [negb]; [|split; [done|split; [done|by left]]].
  apply total_bind, total_steady. cbn zeta. apply total_bind, total_modify.
  destruct (enforce _ _ _ _) as [e b] eqn:Ee. apply total_bind, total_modify. cbn [fst snd].
  set (v := st.1) in *. set (bySeq := aged_alter _ _ _).
  set (v1 := set_enforcers _ _).
  assert (same_trie v v1 /\ parms_ v1 = parms_ v /\ seqEnforcers_ v1 = <[nodeID := e]> (seqEnforcers_ v)) as (Hs1 & Hp1 & He1).
  { unfold v1. destruct Hi as [_ _ _ Hc _]. destruct v. by split_and!. }
  destruct b; cbn [negb].
  2: { apply total_ret. split; [by eapply same_trie_inv|]. split; [done|]. right. exists e, false. split_and!; [done..|].
       intros E. by apply byzantine_not_current in E. }
  apply total_bind, total_modify. cbn [fst snd].
  set (v2 := set_byLedger _ v1).
  assert (same_trie v v2 /\ parms_ v2 = parms_ v /\ seqEnforcers_ v2 = <[nodeID := e]> (seqEnforcers_ v)) as (Hs2 & Hp2 & He2).
  { unfold v2. clearbody v1. clear v2. by destruct v1. }
  assert (forall r v', VInv v' -> frame v2 v' -> VInv v' /\ enforced nodeID val (clock_now st.2) r v v') as Hend.
  { intros r v' Hv' [_ Hfe _ _ Hfp]. split; [done|]. split; [congruence|]. right. exists e, true.
    split_and!; [done|congruence|done]. }
  assert (keeps v2 (set_current (<[nodeID := val]> (current_ v)) v2, st.2)) as Hk3.
  { split; [|clearbody v2; clear Hend; by destruct v2]. eapply (same_trie_inv v); [done|].
    destruct Hs2 as (Et & El & Ea & Ec). clearbody v2. clear Hend. destruct v2. cbn in *. split_and!; try done.
    intros n val'. cbn. intros [[<- <-]|[_ Hv]]%lookup_insert_Some; [done|]. by apply (vi_current _ Hi). }
  destruct (current_ v !! nodeID) as [oldVal|].
  - destruct (_ <? _)%Z.
    + apply total_bind, total_modify, total_bind. eapply total_mono; [by apply (vote_keeps _ _ _ v2)|].
      intros ? st' [? ?]. by apply total_ret, Hend.
    + apply total_ret. apply Hend; [by eapply same_trie_inv|done].
  - apply total_bind, total_modify, total_bind. eapply total_mono; [by apply (vote_keeps _ _ _ v2)|].
    intros ? st' [? ?]. by apply total_ret, Hend.
Qed.

(** Computations that keep the invariant and the enforcers. *)
Definition quiet {X} (m : ST (Validations L * A) X) : Prop :=
  forall st, VInv st.1 -> total m st (fun _ st' => VInv st'.1 /\ enforcers_same st.1 st'.1).

Lemma quiet_ret {X} (x : X) : quiet (mret x).
Proof. intros st Hi. by apply total_ret. Qed.
Lemma quiet_get : quiet get.
Proof. intros st Hi. by apply total_get. Qed.
Lemma quiet_now : quiet now.
Proof. intros st Hi. by apply total_now. Qed.
Lemma quiet_steady : quiet steady.
Proof. intros st Hi. by apply total_steady. Qed.
Lemma quiet_bind {X Y} (m : ST (Validations L * A) X) (f : X -> ST (Validations L * A) Y) :
  quiet m -> (forall x, quiet (f x)) -> quiet (m ≫= f).
Proof.
  intros Hm Hf st Hi. apply total_bind. eapply total_mono; [by apply Hm|]. intros x st1 [Hi1 [E1 P1]].
  eapply total_mono; [by apply Hf|]. intros y st2 [Hi2 [E2 P2]]. split; [done|split; congruence].
Qed.
Lemma quiet_keeps {X} (m : ST (Validations L * A) X) :
  (forall v0 st, keeps v0 st -> total m st (fun _ st' => keeps v0 st')) -> quiet m.
Proof.
  intros Hm st Hi. eapply total_mono; [by apply (Hm st.1)|]. intros x st' [? []]. by split.
Qed.
Lemma quiet_modify (f : Validations L -> Validations L) :
  (forall v, trie_ (f v) = trie_ v /\ lastLedger_ (f v) = lastLedger_ v /\ acquiring_ (f v) = acquiring_ v /\
     current_ (f v) ⊆ current_ v /\ enforcers_same v (f v)) -> quiet (modify f).
Proof using All.
  intros Hf st Hi. apply total_modify. cbn [fst]. destruct (Hf st.1) as (Et & El & Ea & Ec & Es). split; [|done].
  eapply same_trie_inv; [done|]. split_and!; [done..|]. intros n val Hv. by eapply (vi_current _ Hi), lookup_weaken.
Qed.

Lemma quiet_current : quiet current.
Proof using All. apply quiet_keeps. intros v0 st. apply current_keeps. Qed.
Lemma quiet_withTrie {X} (f : LedgerTrie -> X) : quiet (withTrie f).
Proof using All.
  apply quiet_keeps. intros v0 st Hk. eapply total_mono; [by apply (withTrie_keeps f v0)|]. by intros x st' [? _].
Qed.

(** A change of the fields outside the trie, and the steps of the rest. *)
Ltac quiet_field := apply quiet_modify; let v := fresh "v" in intros v; destruct v; by split_and!.
Ltac quiet_solve := repeat first
  [ progress intros | apply quiet_ret | apply quiet_get | apply quiet_now | apply quiet_steady
  | apply quiet_current | apply quiet_withTrie | apply quiet_bind | quiet_field | case_match ].

Lemma quiet_expire : quiet expire.
Proof using All. unfold expire. quiet_solve. Qed.
Lemma quiet_setSeqToKeep low high : quiet (setSeqToKeep low high).
Proof using All. unfold setSeqToKeep. quiet_solve. Qed.
Lemma quiet_canValidateSeq s : quiet (canValidateSeq s).
Proof using All. unfold canValidateSeq. quiet_solve. Qed.
Lemma quiet_byLedger id : quiet (byLedger id).
Proof using All. unfold byLedger. quiet_solve. Qed.
Lemma quiet_getNodesAfter l id : quiet (getNodesAfter l id).
Proof using All. unfold getNodesAfter. quiet_solve. Qed.
Lemma quiet_flush : quiet flush.
Proof using All.
  apply quiet_modify. intros []. split_and!; try done. apply map_empty_subseteq.
Qed.

Lemma trustChanged_entry_keeps added removed x v0 st : sent x.1 (v_ledgerID x.2) -> VInv st.1 /\ enforcers_same v0 st.1 ->
  total (trustChanged_entry added removed x) st (fun _ st' => VInv st'.1 /\ enforcers_same v0 st'.1).
Proof using All.
  intros Hx [Hi [He Hp]]. unfold trustChanged_entry. apply total_bind, total_modify.
  set (val := retrust added removed x.1 x.2). set (v1 := set_current _ _).
  assert (sent x.1 (v_ledgerID val)) as Hval by (unfold val, retrust; destruct x as [? []]; by repeat case_decide).
  assert (VInv v1 /\ enforcers_same v0 v1) as [Hi1 [He1 Hp1]].
  { split; [|unfold v1; destruct st as [[] a]; done]. apply (same_trie_inv st.1); [done|].
    pose proof (vi_current _ Hi). unfold v1. destruct st as [[] a]. cbn in *. split_and!; try done.
    intros n val'. cbn. intros [[<- <-]|[_ Hv]]%lookup_insert_Some; [done|auto]. }
  assert (forall m : ST (Validations L * A) (),
    (forall v0 st, keeps v0 st -> total m st (fun _ st' => keeps v0 st')) ->
    total m (v1, st.2) (fun _ st' => VInv st'.1 /\ enforcers_same v0 st'.1)) as Hm.
  { intros m Hk. eapply total_mono; [by apply (Hk v1)|]. intros ? st' [Hi' [_ E _ _ P]]. split; [done|split; congruence]. }
  case_decide; [apply Hm; intros; by apply updateTrie_keeps|].
  case_decide; [apply Hm; intros; by apply removeTrie_keeps|]. by apply total_ret.
Qed.

Lemma quiet_trustChanged added removed : quiet (trustChanged added removed).
Proof using All.
  intros st Hi. unfold trustChanged. apply total_bind, total_get, total_bind.
  eapply total_mono; [apply (total_for_each _ (fun x => sent x.1 (v_ledgerID x.2)) (fun st' => VInv st'.1 /\ enforcers_same st.1 st'.1))|].
  - intros x st'. apply trustChanged_entry_keeps.
  - apply Forall_forall. intros x Hx%order_in. by apply (vi_current _ Hi).
  - done.
  - intros ? st' [Hi' [E P]]. apply total_modify. cbn [fst]. destruct st' as [v' a]. cbn [fst] in *.
    split; [|destruct v'; split; done]. eapply same_trie_inv; [exact Hi'|].
    pose proof (vi_current _ Hi'). destruct v'; by split_and!.
Qed.
End inv.
