(* ===== verification/ValidationsRun.v ===== *)
(** * Runs of the operations on validations

    The ledger a node prefers to work on, and sequences of the operations of
    [Validations] (Validations.h) over an adaptor that may change in any way
    between them: the invariant of ValidationsSpec holds all along, and the
    enforcers of the sequence numbers do their work. *)

From S2P Require Import AgedMap.
From S2P Require Import Prelude StateMonad LedgerTrie LedgerTrieSpec LedgerTrieOps LedgerTriePreferred Validations ValidationsSpec.
Open Scope nat_scope.

(** ** The preferred working ledger *)

Section preferred.
Context {L A : Type} `{LedgerHistoryLaws L, Adaptor A L, !AdaptorLaws A L, HashOrder}.
Context (U : gset N) (HU : (N.of_nat (size U) < 2 ^ 32)%N).
Context (sent : N -> N -> Prop) (HS : forall n id, sent n id -> n ∈ U).
Implicit Types (v : Validations L) (curr : L).

(** The current ledger when the preferred history [h] leads to it or to a
    child of it, the tip of [h] otherwise. *)
Definition working curr (h : list N) : nat * N :=
  if bool_decide (h `prefix_of` hist curr) ||
     bool_decide (hist curr `prefix_of` h /\ length h = S (length (hist curr)))
  then (led_seq curr, led_id curr) else tip_of h.

Lemma prefix_is_take (h1 h2 : list N) : h1 `prefix_of` h2 <-> h1 = take (length h1) h2.
Proof.
  split.
  - intros [k ->]. by rewrite take_app_length.
  - intros ->. apply prefix_take.
Qed.

Lemma ancestor_prefix curr p h : ok curr -> ends_at p h -> led_seq curr <= tip_seq p ->
  tip_ancestor p (led_seq curr) = led_id curr <-> hist curr `prefix_of` h.
Proof using All.
  intros Hc [_ Hok Hseq ->] Hle. unfold tip_ancestor, led_id. rewrite prefix_is_take, hist_length, take_take, Nat.min_l by lia.
  split.
  - intros E. destruct (same_id_take (tip_ledger p) curr (led_seq curr) (led_seq curr)) as [_ Et]; [done..|lia|done|done|].
    rewrite Et, take_ge; [done|]. by rewrite hist_length.
  - intros E. assert (take (S (led_seq curr)) (hist curr) = take (S (led_seq curr)) (hist (tip_ledger p))) as E'.
    { rewrite <-E, take_ge; [done|]. by rewrite hist_length. }
    symmetry. eapply take_hist_ext; [| |exact E'|]; lia.
Qed.

Lemma tip_prefix curr p h : ok curr -> ends_at p h -> tip_seq p <= led_seq curr ->
  led_at curr (tip_seq p) = tip_id p <-> h `prefix_of` hist curr.
Proof using All.
  intros Hc He Hle. pose proof (ends_at_lookup p h (tip_seq p) He ltac:(lia)) as Ht.
  destruct He as [Htip Hok Hseq Eh]. unfold tip_ancestor in Ht.
  assert (tip_id p = led_at (tip_ledger p) (tip_seq p)) as Eid.
  { rewrite Eh in Htip. rewrite tip_of_take in Htip by lia. injection Htip as _ <-.
    by rewrite Nat.sub_0_r. }
  rewrite Eid. rewrite prefix_is_take. assert (length h = S (tip_seq p)) as El.
  { rewrite Eh, length_take, hist_length. lia. }
  rewrite El. split.
  - intros E. destruct (same_id_take curr (tip_ledger p) (tip_seq p) (tip_seq p)) as [_ Et]; [done..|lia|done|].
    by rewrite Et.
  - intros E. rewrite Eh in E at 1. symmetry. eapply take_hist_ext; [| |exact E|]; lia.
Qed.

(** The last steps of [getPreferred] choose the working ledger. *)
Lemma choose_working curr p h : ok curr -> ends_at p h ->
  (if (tip_seq p =? led_seq curr + 1) && (tip_ancestor p (led_seq curr) =? led_id curr)%N
   then (led_seq curr, led_id curr)
   else if led_seq curr <? tip_seq p then (tip_seq p, tip_id p)
   else if negb (led_at curr (tip_seq p) =? tip_id p)%N then (tip_seq p, tip_id p)
   else (led_seq curr, led_id curr)) = working curr h.
Proof using All.
  intros Hc He. assert (length h = S (tip_seq p)) as El.
  { destruct He as [_ _ Hseq ->]. rewrite length_take, hist_length. lia. }
  unfold working. rewrite (ends_tip _ _ He), hist_length, El.
  destruct (Nat.ltb_spec (led_seq curr) (tip_seq p)) as [Hlt|Hge].
  - rewrite (bool_decide_false (h `prefix_of` _)).
    2: { intros Hp%prefix_length. rewrite hist_length in Hp. lia. }
    cbn [orb]. pose proof (ancestor_prefix curr p h Hc He ltac:(lia)) as Ha.
    destruct (Nat.eqb_spec (tip_seq p) (led_seq curr + 1)) as [E|E]; cbn [andb].
    + destruct (N.eqb_spec (tip_ancestor p (led_seq curr)) (led_id curr)) as [E2|E2].
      * rewrite bool_decide_true; [done|]. split; [by apply Ha|lia].
      * rewrite bool_decide_false; [done|]. intros [Hp _]. by apply Ha in Hp.
    + rewrite bool_decide_false; [done|]. intros [_ Hl]. lia.
  - rewrite (proj2 (Nat.eqb_neq _ _)) by lia. cbn [andb].
    rewrite (bool_decide_false (_ /\ _)) by lia. rewrite orb_false_r.
    pose proof (tip_prefix curr p h Hc He Hge) as Ht.
    destruct (N.eqb_spec (led_at curr (tip_seq p)) (tip_id p)); cbn [negb].
    + by rewrite bool_decide_true by (by apply Ht).
    + by rewrite bool_decide_false by (by rewrite <-Ht).
Qed.

(** Without votes: the ledger most nodes wait for, larger identifiers first. *)
Definition most_awaited (m : gmap (nat * N) (gset N)) (r : option (nat * N)) : Prop :=
  match r with
  | None => m = ∅
  | Some k => exists X, m !! k = Some X /\ forall k' X', m !! k' = Some X' ->
      size X' < size X \/ size X' = size X /\ (k'.2 <= k.2)%N
  end.

Lemma max_element_best {X} (lt : X -> X -> bool) (le : X -> X -> Prop) xs :
  (forall a, le a a) -> (forall a b c, le a b -> le b c -> le a c) ->
  (forall a b, if lt a b then le a b else le b a) ->
  match max_element lt xs with None => xs = [] | Some x => x ∈ xs /\ forall y, y ∈ xs -> le y x end.
Proof.
  intros Hrefl Htrans Hlt. destruct xs as [|x xs]; [done|]. unfold max_element. revert x.
  induction xs as [|y xs IH]; intros x; [by split; [apply list_elem_of_here|intros y ->%list_elem_of_singleton]|].
  specialize (IH (if lt x y then y else x)). specialize (Hlt x y).
  destruct (_ (if lt x y then y else x) xs) as [b|]; [|done]. destruct IH as [Hin Hbest].
  assert (le x b /\ le y b) as [Hx Hy].
  { pose proof (Hbest _ (list_elem_of_here _ _)) as Hb. destruct (lt x y); eauto. }
  split.
  - destruct (lt x y); set_solver.
  - intros z. rewrite !elem_of_cons. intros [->|[->|Hz]]; [done..|]. apply Hbest. set_solver.
Qed.

Lemma fallback_most m : most_awaited m (fst <$> max_element fallback_lt (order m)).
Proof using All.
  pose proof (max_element_best fallback_lt
    (fun a b => size a.2 < size b.2 \/ size a.2 = size b.2 /\ (a.1.2 <= b.1.2)%N) (order m)) as Hm.
  specialize (Hm ltac:(cbv beta; lia) ltac:(cbv beta; lia)). cbv beta in Hm.
  assert (forall a b : (nat * N) * gset N, if fallback_lt a b
    then size a.2 < size b.2 \/ size a.2 = size b.2 /\ (a.1.2 <= b.1.2)%N
    else size b.2 < size a.2 \/ size b.2 = size a.2 /\ (b.1.2 <= a.1.2)%N) as Hlt.
  { intros a b. unfold fallback_lt. destruct (Nat.ltb_spec (size a.2) (size b.2)); cbn [orb]; [lia|].
    destruct (Nat.eqb_spec (size a.2) (size b.2)); cbn [andb]; [|lia]. destruct (N.ltb_spec a.1.2 b.1.2); lia. }
  specialize (Hm Hlt). destruct (max_element fallback_lt (order m)) as [[k X]|]; cbn.
  - destruct Hm as [Hin Hbest]. exists X. split; [by apply order_in in Hin|].
    intros k' X' Hk. by apply (Hbest (k', X')), order_in.
  - apply map_to_list_empty_iff, Permutation_nil_r. by rewrite <-order_perm, Hm.
Qed.

Lemma getPreferred_working curr st : VInv sent st.1 -> ok curr ->
  total (getPreferred curr) st (fun r st' =>
    VInv sent st'.1 /\ enforcers_same st.1 st'.1 /\
    (lastLedger_ st'.1 = ∅ -> most_awaited (acquiring_ st'.1) r) /\
    (lastLedger_ st'.1 <> ∅ -> exists h,
      preferred (tally (lastLedger_ st'.1)) (largest (localSeqEnforcer_ st.1)) [led_at led_genesis 0] h /\
      r = Some (working curr h))).
Proof using All.
  intros Hi Hc. unfold getPreferred. apply total_bind, total_get, total_bind.
  eapply total_mono; [by apply (withTrie_keeps U HU sent HS _ st.1)|]. intros r st1 [[Hi1 [_ E _ _ P]] ->].
  pose proof (vi_trie _ _ Hi1) as Ht.
  pose proof (getPreferred_spec _ _ (largest (localSeqEnforcer_ st.1)) Ht) as Hp.
  rewrite (empty_votes _ _ Ht) in Hp. apply total_bind. unfold total at 1, throws.
  destruct (decide (lastLedger_ st1.1 = ∅)) as [El|El].
  - rewrite bool_decide_true in Hp by (by apply tally_empty). rewrite Hp. apply total_bind, total_get, total_ret.
    split_and!; [done|by split|intros _; apply fallback_most|done].
  - rewrite bool_decide_false in Hp by (by rewrite tally_empty). destruct Hp as (h & p & Hh & -> & He).
    pose proof (choose_working curr p h Hc He) as Hw.
    assert (exists r, working curr h = r) as [r Er] by eauto. rewrite Er in Hw.
    repeat case_match; apply total_ret; (split_and!; [done|by split|done|]); intros _; exists h;
      (split; [done|by rewrite Er, Hw]).
Qed.
End preferred.

(** ** Runs *)

Section runs.
Context {L A : Type} `{LedgerHistoryLaws L, Adaptor A L, !AdaptorLaws A L, HashOrder}.
Implicit Types (v : Validations L) (l curr : L) (a : A).

(** The public operations. *)
Inductive vop : Type :=
| OpAdd (nodeID : N) (val : Validation)
| OpTrustChanged (added removed : gset N)
| OpExpire
| OpSetSeqToKeep (low high : nat)
| OpFlush
| OpCanValidateSeq (s : nat)
| OpGetPreferred curr
| OpGetPreferredValid curr (minValidSeq : nat)
| OpGetPreferredLCL curr (minSeq : nat) (peerCounts : gmap N N)
| OpGetNodesAfter l (ledgerID : N)
| OpCurrentTrusted
| OpGetCurrentNodeIDs
| OpNumTrustedForLedger (ledgerID : N)
| OpGetTrustedForLedger (ledgerID : N) (s : nat)
| OpFees (ledgerID baseFee : N)
| OpLaggards (s : nat) (trustedKeys : gset N).

(** The operation, and the status it returns if it is [add]. *)
Abbreviation silent m := (m ≫= fun _ => mret None).
Definition run_op (op : vop) : ST (Validations L * A) (option ValStatus) :=
  match op with
  | OpAdd nodeID val => r ← add nodeID val; mret (Some r)
  | OpTrustChanged added removed => silent (trustChanged added removed)
  | OpExpire => silent expire
  | OpSetSeqToKeep low high => silent (setSeqToKeep low high)
  | OpFlush => silent flush
  | OpCanValidateSeq s => silent (canValidateSeq s)
  | OpGetPreferred curr => silent (getPreferred curr)
  | OpGetPreferredValid curr minValidSeq => silent (getPreferredValid curr minValidSeq)
  | OpGetPreferredLCL curr minSeq peerCounts => silent (getPreferredLCL curr minSeq peerCounts)
  | OpGetNodesAfter l id => silent (getNodesAfter l id)
  | OpCurrentTrusted => silent currentTrusted
  | OpGetCurrentNodeIDs => silent getCurrentNodeIDs
  | OpNumTrustedForLedger id => silent (numTrustedForLedger id)
  | OpGetTrustedForLedger id s => silent (getTrustedForLedger id s)
  | OpFees id baseFee => silent (fees id baseFee)
  | OpLaggards s trustedKeys => silent (laggards s trustedKeys)
  end.

(** A validation that was added: when, by whom, and with what result. *)
Record event : Type := mkEvent { ev_time : Z; ev_node : N; ev_val : Validation; ev_status : ValStatus }.
Definition event_of a (op : vop) (r : option ValStatus) : list event :=
  match op, r with
  | OpAdd nodeID val, Some r => [mkEvent (clock_now a) nodeID val r]
  | _, _ => []
  end.

(** Before each operation the adaptor may have changed in any way. *)
Fixpoint vrun v (ops : list (A * vop)) : result (Validations L * list event) :=
  match ops with
  | [] => Ok (v, [])
  | (a, op) :: ops =>
      '(r, (v, _)) ← run_op op (v, a);
      '(v, evs) ← vrun v ops;
      Ok (v, event_of a op r ++ evs)
  end.

(** The nodes fit a 32-bit counter and the working ledgers are of the tree. *)
Definition senders (ops : list (A * vop)) : gset N :=
  list_to_set (omap (fun x => match x.2 with OpAdd nodeID _ => Some nodeID | _ => None end) ops).
Definition working_ok (op : vop) : Prop :=
  match op with
  | OpGetPreferred curr | OpGetPreferredValid curr _ | OpGetPreferredLCL curr _ _ => ok curr
  | _ => True
  end.
Definition vops_ok (ops : list (A * vop)) : Prop :=
  (N.of_nat (size (senders ops)) < 2 ^ 32)%N /\ Forall (fun x => working_ok x.2) ops.
(** The node sent a validation of the ledger. *)
Definition validated (ops : list (A * vop)) (n id : N) : Prop :=
  exists a val, (a, OpAdd n val) ∈ ops /\ v_ledgerID val = id.

Lemma validated_sender ops n id : validated ops n id -> n ∈ senders ops.
Proof.
  intros (a & val & Hin & _). unfold senders. rewrite elem_of_list_to_set, list_elem_of_omap. by exists (a, OpAdd n val).
Qed.

Section steps.
Context (U : gset N) (HU : (N.of_nat (size U) < 2 ^ 32)%N).
Context (sent : N -> N -> Prop) (HS : forall n id, sent n id -> n ∈ U).

Definition vop_ok (op : vop) : Prop :=
  working_ok op /\ match op with OpAdd nodeID val => sent nodeID (v_ledgerID val) | _ => True end.

(** What a step does to the invariant, the enforcers and the log. *)
Definition stepped a (op : vop) v (r : option ValStatus) v' : Prop :=
  match op, r with
  | OpAdd nodeID val, Some r => enforced nodeID val (clock_now a) r v v'
  | OpAdd _ _, None => False
  | _, _ => enforcers_same v v'
  end.

Lemma quiet_getPreferred curr : ok curr -> quiet (A := A) sent (getPreferred curr).
Proof using All.
  intros Hc st Hi. eapply total_mono; [by apply (getPreferred_working U HU sent HS)|]. by intros r st' (? & ? & _).
Qed.

Lemma run_op_keeps a op v : vop_ok op -> VInv sent v ->
  total (run_op op) (v, a) (fun r st' => VInv sent st'.1 /\ stepped a op v r st'.1).
Proof using All.
  intros [Hw Hop] Hi.
  assert (forall {X} (m : ST (Validations L * A) X), quiet sent m ->
    total (silent m) (v, a) (fun (r : option ValStatus) st' => VInv sent st'.1 /\ enforcers_same v st'.1)) as Hq.
  { intros X m Hm. apply total_bind. eapply total_mono; [by apply Hm|]. intros ? st' ?. by apply total_ret. }
  destruct op; cbn [run_op stepped]; cbn in Hw.
  { apply total_bind. eapply total_mono; [by apply (add_keeps U HU sent HS)|]. intros r st' ?. by apply total_ret. }
  all: apply Hq; eauto using quiet_trustChanged, quiet_expire, quiet_setSeqToKeep, quiet_flush, quiet_canValidateSeq,
    quiet_getPreferred, quiet_getNodesAfter; apply quiet_bind; intros;
    eauto using quiet_ret, quiet_current, quiet_byLedger, quiet_getPreferred, quiet_get, quiet_now, quiet_bind.
Qed.

Lemma run_op_stepped a op v r v1 a1 : vop_ok op -> VInv sent v ->
  run_op op (v, a) = Ok (r, (v1, a1)) -> VInv sent v1 /\ stepped a op v r v1.
Proof using All.
  intros Hop Hi E. pose proof (run_op_keeps a op v Hop Hi) as Hw. unfold total in Hw. by rewrite E in Hw.
Qed.

Lemma vrun_total ops v : Forall (fun x => vop_ok x.2) ops -> VInv sent v ->
  exists v' evs, vrun v ops = Ok (v', evs) /\ VInv sent v'.
Proof using All.
  intros Hops. revert v. induction Hops as [|[a op] ops Hop _ IH]; intros v Hi; [by exists v, []|].
  cbn [vrun]. pose proof (run_op_keeps a op v Hop Hi) as Hr. unfold total in Hr.
  destruct (run_op op (v, a)) as [[r [v1 a1]]|e]; [|done]. destruct Hr as [Hi1 _]. cbn.
  destruct (IH v1 Hi1) as (v' & evs & -> & Hi'). cbn. eauto.
Qed.

(** ** Sequence numbers *)

Lemma enforce_cases e t s p e' b : enforce e t s p = (e', b) ->
  (when_ e + validationSetExpires p < t)%Z \/
  (if b then seq_ e < s /\ seq_ e' = s /\ when_ e' = t else seq_ e' = seq_ e /\ when_ e' = when_ e).
Proof.
  unfold enforce. destruct (Z.ltb_spec (when_ e + validationSetExpires p) t); [by left|].
  destruct (Nat.leb_spec s (seq_ e)); intros [= <- <-]; right; [by destruct e|done].
Qed.
Lemma enforce_accepts e t s p e' : enforce e t s p = (e', true) -> seq_ e' = s /\ when_ e' = t.
Proof. unfold enforce. destruct (_ <=? _); [done|]. by intros [= <-]. Qed.

(** The enforcer of [n] remembers that [s] was accepted at [t], or it is too
    long ago. *)
Definition remembers (p : ValidationParms) (n : N) (t : Z) (s : nat) (T : Z) v : Prop :=
  parms_ v = p /\ (t <= T)%Z /\
  ((t + validationSetExpires p < T)%Z \/
   exists e, seqEnforcers_ v !! n = Some e /\ (t <= when_ e)%Z /\ s <= seq_ e).

Lemma stepped_remembers p n t s T a op v r v' : remembers p n t s T v -> stepped a op v r v' ->
  (T <= clock_now a)%Z ->
  remembers p n t s (clock_now a) v' /\
  (forall val, op = OpAdd n val -> r = Some Current -> (t + validationSetExpires p < clock_now a)%Z \/ s < v_seq val).
Proof.
  intros (Hp & HtT & Hr) Hst HT.
  assert (enforcers_same v v' -> remembers p n t s (clock_now a) v') as Hsame.
  { intros [E P]. split; [congruence|]. split; [lia|]. rewrite E. destruct Hr as [?|?]; [left; lia|by right]. }
  destruct op as [m val| | | | | | | | | | | | | | |]; cbn in Hst; try (split; [by apply Hsame|done]).
  destruct r as [r|]; [|done]. destruct Hst as [P Hst].
  destruct Hst as [[E ->]|(e' & b & Ee & E & Hb)]; [split; [by apply Hsame|done]|].
  destruct (decide (m = n)) as [->|Hne].
  2: { split; [|intros ? [= ? _]; congruence]. split; [congruence|]. split; [lia|].
       rewrite E, lookup_insert_ne by done. destruct Hr as [?|?]; [left; lia|by right]. }
  destruct Hr as [Hr|(e & He & Hwe & Hse)].
  { split; [|intros; left; lia]. split; [congruence|]. split; [lia|left; lia]. }
  rewrite He in Ee. cbn in Ee. rewrite Hp in Ee. apply enforce_cases in Ee as [Ho|Hc].
  { split; [|intros; left; lia]. split; [congruence|]. split; [lia|left; lia]. }
  split.
  - split; [congruence|]. split; [lia|]. right. exists e'. rewrite E, lookup_insert_eq.
    split; [done|]. destruct b; lia.
  - intros val' [= <-] [= ->]. right. rewrite (Hb eq_refl) in Hc. lia.
Qed.

Lemma vrun_remembers p n t s T ops v v' evs : Forall (fun x => vop_ok x.2) ops -> VInv sent v ->
  remembers p n t s T v -> StronglySorted Z.le (T :: (clock_now <$> ops.*1)) -> vrun v ops = Ok (v', evs) ->
  Forall (fun e => ev_node e = n -> ev_status e = Current ->
    (t + validationSetExpires p < ev_time e)%Z \/ s < v_seq (ev_val e)) evs.
Proof using All.
  intros Hops. revert v T evs. induction Hops as [|[a op] ops Hop _ IH]; intros v T evs Hi Hr Hs E.
  { injection E as _ <-. constructor. }
  cbn [vrun] in E. destruct (run_op op (v, a)) as [[r [v1 a1]]|] eqn:Er; [|done]. cbn in E.
  destruct (run_op_stepped _ _ _ _ _ _ Hop Hi Er) as [Hi1 Hst].
  destruct (vrun v1 ops) as [[v2 evs']|] eqn:E'; [|done]. cbn in E. injection E as <- <-.
  cbn in Hs. inversion Hs as [|? ? Hs' Hle]; subst. apply Forall_cons in Hle as [HT _].
  destruct (stepped_remembers p n t s T a op v r v1 Hr Hst HT) as [Hr1 Hev].
  apply Forall_app. split; [|by eapply (IH v1 (clock_now a))].
  destruct op as [m val| | | | | | | | | | | | | | |], r as [r|]; try constructor; [|constructor].
  cbn. intros -> ->. by apply Hev.
Qed.

Lemma vrun_increasing ops v v' evs i j e1 e2 : Forall (fun x => vop_ok x.2) ops -> VInv sent v ->
  StronglySorted Z.le (clock_now <$> ops.*1) -> vrun v ops = Ok (v', evs) ->
  evs !! i = Some e1 -> evs !! j = Some e2 -> i < j -> ev_node e1 = ev_node e2 ->
  ev_status e1 = Current -> ev_status e2 = Current ->
  (ev_time e2 <= ev_time e1 + validationSetExpires (parms_ v))%Z -> v_seq (ev_val e1) < v_seq (ev_val e2).
Proof using All.
  intros Hops. revert v evs i j. induction Hops as [|[a op] ops Hop Hops IH]; intros v evs i j Hi Hs E H1' H2' Hij Hn Hc1 Hc2 Ht.
  { injection E as _ <-. done. }
  cbn [vrun] in E. destruct (run_op op (v, a)) as [[r [v1 a1]]|] eqn:Er; [|done]. cbn in E.
  destruct (run_op_stepped _ _ _ _ _ _ Hop Hi Er) as [Hi1 Hst].
  destruct (vrun v1 ops) as [[v2 evs']|] eqn:E'; [|done]. cbn in E. injection E as <- <-.
  cbn in Hs. inversion Hs as [|? ? Hs' Hle]; subst.
  assert (parms_ v1 = parms_ v) as Hp.
  { destruct op, r; try done; by destruct Hst. }
  destruct (event_of a op r) as [|e [|]] eqn:Eev; cbn in H1', H2'.
  - by eapply (IH v1 evs' i j); try done; rewrite ?Hp.
  - destruct i as [|i], j as [|j]; [lia| |lia|]; cbn in H1', H2'.
    2: { eapply (IH v1 evs' i j); try done; [lia|by rewrite Hp]. }
    injection H1' as ->. destruct op as [m val| | | | | | | | | | | | | | |], r as [r|]; try done. cbn in Eev.
    injection Eev as <-. cbn in *. subst m r.
    assert (remembers (parms_ v) (ev_node e2) (clock_now a) (v_seq val) (clock_now a) v1) as Hr.
    { split; [done|]. split; [lia|]. right. destruct Hst as [_ [[_ ?]|(e' & b & Ee & -> & Hb)]]; [done|].
      rewrite (Hb eq_refl) in Ee. apply enforce_accepts in Ee as [<- <-]. exists e'.
      rewrite lookup_insert_eq. split_and!; [done|lia|lia]. }
    pose proof (vrun_remembers _ _ _ _ _ ops v1 v2 evs' Hops Hi1 Hr Hs E') as Hall.
    rewrite Forall_lookup in Hall. destruct (Hall j e2 H2' eq_refl Hc2); [lia|done].
  - destruct op, r; discriminate.
Qed.
End steps.

(** ** From the start *)

Lemma vops_ok_steps ops : vops_ok ops -> Forall (fun x => vop_ok (validated ops) x.2) ops.
Proof.
  intros [_ Hw]. apply Forall_forall. intros [a op] Hin. split; [by eapply (proj1 (Forall_forall _ _) Hw)|].
  destruct op; try done. by exists a, val.
Qed.

Lemma vrun_inv p ops : vops_ok ops ->
  exists v evs, vrun (newValidations p) ops = Ok (v, evs) /\ VInv (validated ops) v.
Proof.
  intros Hok. apply (vrun_total (senders ops) (proj1 Hok)); [apply validated_sender|by apply vops_ok_steps|].
  apply newValidations_inv.
Qed.
End runs.
