(* ===== verification/ValidationsAges.v ===== *)
(** * Acquired ledgers are counted

    A trusted validation whose ledger is not at hand waits in [acquiring_]
    (Validations.h).  Once the ledger can be acquired, the next use of the
    trie moves the vote of the node to it.  The second part is about how long
    validations are kept. *)

From S2P Require Import AgedMap.
From S2P Require Import Prelude LedgerTrie LedgerTrieSpec LedgerTrieOps StateMonad Validations ValidationsSpec ValidationsRun.
Open Scope nat_scope.

Section live.
Context {L A : Type} `{LedgerHistoryLaws L, Adaptor A L, !AdaptorLaws A L, HashOrder}.
Implicit Types (v : Validations L) (l : L) (st : Validations L * A).

Lemma post_get st Q : Q st.1 st -> post (get : ST (Validations L * A) _) st Q.
Proof. by intros HQ ? ? [= <- <-]. Qed.
Lemma post_modify f st Q : Q () (f st.1, st.2) -> post (modify f : ST (Validations L * A) _) st Q.
Proof. by intros HQ ? ? [= <- <-]. Qed.
Lemma post_throws {X} (r : result X) st Q : (forall x, r = Ok x -> Q x st) -> post (throws r : ST (Validations L * A) _) st Q.
Proof. intros HQ x st'. unfold throws. destruct r; [|done]. intros [= <- <-]. by apply HQ. Qed.

Context (n id : N).

(** The node [n] waits for the ledger [k]. *)
Definition waits (k : nat * N) v : Prop := exists X, acquiring_ v !! k = Some X /\ n ∈ X.
(** Its vote is for the ledger [id]. *)
Definition counted v : Prop := exists l, lastLedger_ v !! n = Some l /\ led_id l = id.
(** The adaptor has the ledger [id], and still has it after other requests. *)
Definition asks (ids : list N) (a : A) : A := foldl (fun a i => (acquire i a).2) a ids.
Definition supplies (a : A) : Prop := forall ids, exists l, (acquire id (asks ids a)).1 = Some l.

Lemma supplies_now a : supplies a -> (acquire id a).1 <> None.
Proof. intros Hs. destruct (Hs []) as [l E]. cbn in E. by rewrite E. Qed.
Lemma supplies_next i a : supplies a -> supplies (acquire i a).2.
Proof. intros Hs ids. apply (Hs (i :: ids)). Qed.

Lemma updateTrieLedger_effect m l st : post (updateTrieLedger m l) st (fun _ st' =>
  lastLedger_ st'.1 = <[m := l]> (lastLedger_ st.1) /\ acquiring_ st'.1 = acquiring_ st.1 /\ st'.2 = st.2).
Proof.
  unfold updateTrieLedger. apply post_bind, post_get, post_bind.
  apply (post_mono _ _ (fun _ st1 => st1 = st)).
  { destruct (lastLedger_ st.1 !! m); [|by apply post_ret].
    apply post_bind, post_throws. intros [t b] _. by apply post_ret. }
  intros t ? ->. apply post_bind, post_throws. intros t' _. apply post_modify. by destruct st as [[] a].
Qed.

Lemma nodes_effect l ns st : led_id l = id -> post (for_each (fun m => updateTrieLedger m l) ns) st (fun _ st' =>
  acquiring_ st'.1 = acquiring_ st.1 /\ st'.2 = st.2 /\
  (n ∈ ns \/ counted st.1 -> counted st'.1)).
Proof.
  intros Hl. revert st. induction ns as [|m ns IH]; intros st; cbn [for_each].
  { apply post_ret. split_and!; [done..|]. intros [Hn|?]; [by apply elem_of_nil in Hn|done]. }
  apply post_bind. eapply post_mono; [apply updateTrieLedger_effect|]. intros ? st1 (E1 & A1 & D1).
  eapply post_mono; [apply IH|]. intros ? st2 (A2 & D2 & C2). split_and!; [congruence..|]. intros Hn. apply C2.
  rewrite elem_of_cons in Hn. unfold counted in *. rewrite E1. destruct (decide (m = n)) as [->|Hne].
  - right. exists l. by rewrite lookup_insert_eq.
  - rewrite lookup_insert_ne by done. naive_solver.
Qed.

Lemma others_effect l ns st : n ∉ ns -> post (for_each (fun m => updateTrieLedger m l) ns) st (fun _ st' =>
  acquiring_ st'.1 = acquiring_ st.1 /\ st'.2 = st.2 /\ lastLedger_ st'.1 !! n = lastLedger_ st.1 !! n).
Proof.
  revert st. induction ns as [|m ns IH]; intros st Hn; cbn [for_each]; [by apply post_ret|].
  apply not_elem_of_cons in Hn as [Hne Hn].
  apply post_bind. eapply post_mono; [apply updateTrieLedger_effect|]. intros ? st1 (E1 & A1 & D1).
  eapply post_mono; [by apply IH|]. intros ? st2 (A2 & D2 & C2). split_and!; [congruence..|]. by rewrite C2, E1, lookup_insert_ne.
Qed.

(** One entry of [acquiring_]. *)
Lemma entry_effect x st : supplies st.2 -> (n ∈ x.2 -> x.1.2 = id) -> post (checkAcquired_entry x) st (fun _ st' =>
  supplies st'.2 /\ acquiring_ st'.1 ⊆ acquiring_ st.1 /\ (x.1.2 = id -> acquiring_ st'.1 !! x.1 = None) /\
  (n ∈ x.2 \/ counted st.1 -> counted st'.1)).
Proof using All.
  intros Hsup Hx. unfold checkAcquired_entry. apply post_bind. intros r [v1 a1] E. unfold acquireM in E.
  destruct (acquire x.1.2 st.2) as [r' a'] eqn:Ea. injection E as <- <- <-. 
  assert (supplies a') as Hsup' by (pose proof (supplies_next x.1.2 st.2 Hsup) as Hs; by rewrite Ea in Hs).
  destruct r' as [l|].
  - assert (led_id l = x.1.2) as Hl by (by eapply acquire_ok). apply post_bind.
    assert (forall v' : Validations L, acquiring_ (set_acquiring (delete x.1 (acquiring_ v')) v') = delete x.1 (acquiring_ v') /\
      lastLedger_ (set_acquiring (delete x.1 (acquiring_ v')) v') = lastLedger_ v') as Hset by (by intros []).
    destruct (decide (n ∈ x.2)) as [Hin|Hout].
    + eapply post_mono; [apply nodes_effect; rewrite Hl; by apply Hx|]. intros ? st2 (A2 & D2 & C2). apply post_modify. cbn [fst snd] in *.
      destruct (Hset st2.1) as [Ed El]. unfold counted. rewrite El, Ed, A2, D2.
      split_and!; [done|apply delete_subseteq|intros _; apply lookup_delete_eq|].
      intros _. apply C2. left. by apply order_set_in.
    + eapply post_mono; [apply others_effect; by rewrite order_set_in|]. intros ? st2 (A2 & D2 & C2). apply post_modify. cbn [fst snd] in *.
      destruct (Hset st2.1) as [Ed El]. unfold counted. rewrite El, Ed, A2, D2, C2.
      split_and!; [done|apply delete_subseteq|intros _; apply lookup_delete_eq|]. naive_solver.
  - pose proof (supplies_now st.2 Hsup) as Hnow. apply post_ret. split_and!; [done..| |].
    + intros E. by rewrite E, Ea in *.
    + intros [Hin|?]; [|done]. rewrite (Hx Hin) in Ea. by rewrite Ea in Hnow.
Qed.

Lemma entries_effect xs st : supplies st.2 -> Forall (fun x => n ∈ x.2 -> x.1.2 = id) xs ->
  post (for_each checkAcquired_entry xs) st (fun _ st' =>
    acquiring_ st'.1 ⊆ acquiring_ st.1 /\
    (forall k, k.2 = id -> k ∈ xs.*1 -> acquiring_ st'.1 !! k = None) /\
    (Exists (fun x => n ∈ x.2) xs \/ counted st.1 -> counted st'.1)).
Proof using All.
  intros Hsup Hxs. revert st Hsup. induction Hxs as [|x xs Hx _ IH]; intros st Hsup; cbn [for_each].
  { apply post_ret. split_and!; [done|by intros k _ Hk%elem_of_nil|]. rewrite Exists_nil. tauto. }
  apply post_bind. eapply post_mono; [by apply entry_effect|]. intros ? st1 (D1 & S1 & N1 & C1).
  eapply post_mono; [by apply IH|]. intros ? st2 (S2 & N2 & C2). split_and!.
  - by etransitivity.
  - intros k Hk [->|Hin]%elem_of_cons; [|by apply N2]. eapply lookup_weaken_None; [by apply N1|done].
  - rewrite Exists_cons. tauto.
Qed.

Lemma checkAcquired_counted k st : supplies st.2 -> k.2 = id -> waits k st.1 ->
  (forall k', waits k' st.1 -> k'.2 = id) ->
  post checkAcquired st (fun _ st' => counted st'.1 /\ forall k', k'.2 = id -> acquiring_ st'.1 !! k' = None).
Proof using All.
  intros Hsup Hk Hw Huniq. unfold checkAcquired. apply post_bind, post_get.
  eapply post_mono; [apply entries_effect; [done|]|].
  - apply Forall_forall. intros [k' X] Hx Hn. apply order_in in Hx. apply Huniq. by exists X.
  - intros ? st' (Hsub & Hnone & Hc). split.
    + apply Hc. left. destruct Hw as (X & HX & Hn). apply Exists_exists. exists (k, X). split; [by apply order_in|done].
    + intros k' Hk'. destruct (acquiring_ st.1 !! k') as [X|] eqn:E; [|by eapply lookup_weaken_None].
      apply Hnone; [done|]. apply list_elem_of_fmap. exists (k', X). split; [done|]. by apply order_in.
Qed.

(** Flushing the stale validations of other nodes does not matter to [n]. *)
Lemma stop_acquiring_waits key m v k : m <> n -> waits k (stop_acquiring key m v) <-> waits k v.
Proof.
  intros Hne. unfold stop_acquiring, waits. destruct (acquiring_ v !! key) as [X|] eqn:E; [|done].
  assert (forall acq, acquiring_ (set_acquiring acq v) = acq) as -> by (by destruct v).
  destruct (decide (k = key)) as [->|Hk].
  - rewrite E. case_decide as He.
    + rewrite lookup_delete_eq. split; [by intros (? & ? & ?)|]. intros (Y & [= <-] & Hn). set_solver.
    + rewrite lookup_insert_eq. split.
      * intros (Y & [= <-] & Hn). exists X. set_solver.
      * intros (Y & [= <-] & Hn). eexists. split; [done|]. set_solver.
  - case_decide; [by rewrite lookup_delete_ne|by rewrite lookup_insert_ne].
Qed.

Lemma removeTrie_waits m val st : m <> n -> post (removeTrie m val) st (fun _ st' =>
  parms_ st'.1 = parms_ st.1 /\ st'.2 = st.2 /\ forall k, waits k st'.1 <-> waits k st.1).
Proof.
  intros Hne. unfold removeTrie. apply post_bind, post_modify, post_bind, post_get. cbn [fst snd].
  assert (parms_ (stop_acquiring (val_pair val) m st.1) = parms_ st.1) as Hp.
  { unfold stop_acquiring. case_match; [|done]. by destruct (st.1). }
  pose proof (fun k => stop_acquiring_waits (val_pair val) m st.1 k Hne) as Hw.
  set (v1 := stop_acquiring (val_pair val) m st.1) in *. clearbody v1.
  destruct (lastLedger_ v1 !! m); [|by apply post_ret].
  destruct (_ =? _)%N; [|by apply post_ret]. apply post_bind, post_throws. intros [t b] _. apply post_modify.
  cbn [fst]. by destruct v1.
Qed.

Lemma current_waits t xs st p : parms_ st.1 = p ->
  Forall (fun x => x.1 = n -> isCurrent p t (v_signTime x.2) (v_seenTime x.2) = true) xs ->
  post (current_loop t xs) st (fun _ st' => st'.2 = st.2 /\ forall k, waits k st'.1 <-> waits k st.1).
Proof.
  intros Hp Hxs. revert st Hp. induction Hxs as [|x xs Hx _ IH]; intros st Hp; cbn [current_loop]; [by apply post_ret|].
  apply post_bind. apply (post_mono _ _ (fun _ st' => parms_ st'.1 = p /\ st'.2 = st.2 /\ forall k, waits k st'.1 <-> waits k st.1)).
  - unfold current_entry. apply post_bind, post_get. rewrite Hp.
    destruct (isCurrent p t _ _) eqn:E; [by apply post_ret|]. apply post_bind.
    eapply post_mono; [apply removeTrie_waits; intros En; by specialize (Hx En)|]. intros ? st1 (Hp1 & D1 & Hw1).
    apply post_bind, post_modify, post_ret. cbn [fst snd]. split_and!; [|done|intros k; rewrite <-Hw1; by destruct (st1.1)].
    rewrite <-Hp, <-Hp1. by destruct (st1.1).
  - intros live st1 (Hp1 & D1 & Hw1). apply post_bind. eapply post_mono; [by apply IH|]. intros rest st2 [D2 Hw2].
    apply post_ret. split; [congruence|]. intros k. rewrite <-Hw1. apply Hw2.
Qed.

Lemma withTrie_counted {X} (f : LedgerTrie -> X) k st : supplies st.2 -> k.2 = id -> waits k st.1 ->
  (forall k', waits k' st.1 -> k'.2 = id) ->
  (forall val, current_ st.1 !! n = Some val ->
     isCurrent (parms_ st.1) (adaptor_now st.2) (v_signTime val) (v_seenTime val) = true) ->
  post (withTrie f) st (fun _ st' => counted st'.1 /\ forall k', k'.2 = id -> acquiring_ st'.1 !! k' = None).
Proof using All.
  intros Hsup Hk Hw Hu Hcur. unfold withTrie. apply post_bind.
  apply (post_mono _ _ (fun _ st' => st'.2 = st.2 /\ forall k, waits k st'.1 <-> waits k st.1)).
  - unfold current. apply post_bind. intros t ? [= <- <-]. apply post_bind, post_get.
    eapply current_waits; [done|]. apply Forall_forall. intros [m val] Hx Em. apply order_in in Hx.
    cbn in *. subst m. by apply Hcur.
  - intros ? st1 [D1 Hw1]. apply post_bind. eapply post_mono; [apply (checkAcquired_counted k)|]; try done.
    + by rewrite D1.
    + by apply Hw1.
    + intros k' Hk'. by apply Hu, Hw1.
    + intros ? st2 Hc. by apply post_bind, post_get, post_ret.
Qed.

Lemma getPreferred_counted curr k st : supplies st.2 -> k.2 = id -> waits k st.1 ->
  (forall k', waits k' st.1 -> k'.2 = id) ->
  (forall val, current_ st.1 !! n = Some val ->
     isCurrent (parms_ st.1) (adaptor_now st.2) (v_signTime val) (v_seenTime val) = true) ->
  post (getPreferred curr) st (fun _ st' => counted st'.1 /\ forall k', k'.2 = id -> acquiring_ st'.1 !! k' = None).
Proof using All.
  intros Hsup Hk Hw Hu Hcur. unfold getPreferred. apply post_bind, post_get, post_bind.
  eapply post_mono; [by apply (withTrie_counted _ k)|]. intros r st1 Hc. apply post_bind, post_throws.
  intros [p|] _; [by repeat case_match; apply post_ret|]. by apply post_bind, post_get, post_ret.
Qed.
End live.

(** * How long validations are kept

    The two aged containers of [Validations] (Validations.h) along a run of
    the operations: their elements stay in the order of their times, [expire]
    removes what was not used for [validationSetExpires], and the validations
    of the sequence numbers to keep stay. *)

Section ages.
Context {L A : Type} `{LedgerHistoryLaws L, Adaptor A L, !AdaptorLaws A L, HashOrder}.
Implicit Types (v : Validations L) (st : Validations L * A).

(** The fields that matter here. *)
Definition ages v := (byLedger_ v, bySequence_ v, toKeep_ v, kRefreshTime v, parms_ v).

(** ** Computations that do not change them *)

Definition ageless {X} (m : ST (Validations L * A) X) : Prop :=
  forall st, post m st (fun _ st' => ages st'.1 = ages st.1).

Lemma ageless_ret {X} (x : X) : ageless (mret x).
Proof. intros st. by apply post_ret. Qed.
Lemma ageless_bind {X Y} (m : ST (Validations L * A) X) (f : X -> ST (Validations L * A) Y) :
  ageless m -> (forall x, ageless (f x)) -> ageless (m ≫= f).
Proof.
  intros Hm Hf st. apply post_bind. eapply post_mono; [apply Hm|]. intros x st1 E1.
  eapply post_mono; [apply Hf|]. cbn. congruence.
Qed.
Lemma ageless_get : ageless get.
Proof. intros st. by apply post_get. Qed.
Lemma ageless_now : ageless now.
Proof. by intros st x st' [= <- <-]. Qed.
Lemma ageless_steady : ageless steady.
Proof. by intros st x st' [= <- <-]. Qed.
Lemma ageless_acquire id : ageless (acquireM id).
Proof. intros st x st'. unfold acquireM. destruct (acquire id st.2). by intros [= <- <-]. Qed.
Lemma ageless_throws {X} (r : result X) : ageless (throws r).
Proof. intros st. by apply post_throws. Qed.
Lemma ageless_modify f : (forall v, ages (f v) = ages v) -> ageless (modify f).
Proof. intros Hf st. apply post_modify, Hf. Qed.
Lemma ageless_for_each {X} (f : X -> ST (Validations L * A) ()) xs : (forall x, ageless (f x)) -> ageless (for_each f xs).
Proof. intros Hf. induction xs; cbn [for_each]; [apply ageless_ret|by apply ageless_bind]. Qed.

Ltac ageless_field := apply ageless_modify; let v := fresh "v" in intros v; unfold stop_acquiring; repeat case_match; by destruct v.
Ltac ageless_solve := repeat first
  [ progress intros | apply ageless_ret | apply ageless_get | apply ageless_now | apply ageless_steady
  | apply ageless_acquire | apply ageless_throws | apply ageless_for_each | apply ageless_bind
  | ageless_field | case_match | done ].

Lemma ageless_removeTrie n val : ageless (removeTrie n val).
Proof. unfold removeTrie. ageless_solve. Qed.
Lemma ageless_checkAcquired : ageless checkAcquired.
Proof. unfold checkAcquired, checkAcquired_entry, updateTrieLedger. ageless_solve. Qed.
Lemma ageless_updateTrie n val prior : ageless (updateTrie n val prior).
Proof. unfold updateTrie, updateTrieLedger. ageless_solve; apply ageless_checkAcquired. Qed.
Lemma ageless_current_loop t xs : ageless (current_loop t xs).
Proof.
  induction xs as [|x xs IH]; cbn [current_loop]; [apply ageless_ret|].
  unfold current_entry. ageless_solve.
Qed.
Lemma ageless_current : ageless current.
Proof. apply ageless_bind; [apply ageless_now|intros t]. apply ageless_bind; [apply ageless_get|intros v]. apply ageless_current_loop. Qed.
Lemma ageless_withTrie {X} (f : LedgerTrie -> X) : ageless (withTrie f).
Proof.
  unfold withTrie. apply ageless_bind; [apply ageless_current|intros _].
  apply ageless_bind; [apply ageless_checkAcquired|intros _]. ageless_solve.
Qed.
Lemma ageless_getPreferred curr : ageless (getPreferred curr).
Proof.
  unfold getPreferred. apply ageless_bind; [apply ageless_get|intros v].
  apply ageless_bind; [apply ageless_withTrie|intros p]. ageless_solve.
Qed.

(** ** Steps *)

(** What an operation at the time [c] does to the validations by sequence
    number; [expire] apart. *)
Definition sequence_step (c : Z) (op : vop (L := L)) v v' : Prop :=
  kRefreshTime v' = kRefreshTime v /\ parms_ v' = parms_ v /\
  toKeep_ v' = match op with OpSetSeqToKeep low high => Some (low, high) | _ => toKeep_ v end /\
  (bySequence_ v' = bySequence_ v \/
   exists n val, bySequence_ v' = aged_alter (track (parms_ v) n val) (v_seq val)
                                   (aged_index c (v_seq val) ∅ (bySequence_ v))).
Definition ledger_step (c : Z) v v' : Prop := aged_ok c (byLedger_ v) -> aged_ok c (byLedger_ v').

Lemma ageless_step c op v v' : (forall low high, op <> OpSetSeqToKeep low high) -> ages v' = ages v ->
  sequence_step c op v v' /\ ledger_step c v v'.
Proof.
  intros Hop E. injection E as El Es Ek Er Ep. split; [|by unfold ledger_step; rewrite El].
  split_and!; [done..| |by left]. rewrite Ek. by destruct op; try done; destruct (Hop low high).
Qed.

Lemma add_step n val st : post (add n val) st (fun _ st' =>
  sequence_step (clock_now st.2) (OpAdd n val) st.1 st'.1 /\ ledger_step (clock_now st.2) st.1 st'.1).
Proof.
  set (c := clock_now st.2). unfold add. apply post_bind, post_get, post_bind. intros t ? [= <- <-].
  destruct (isCurrent _ _ _ _); cbn [negb]; [|apply post_ret; by apply ageless_step].
  apply post_bind. intros t ? [= <- <-]. cbn zeta. apply post_bind, post_modify.
  destruct (enforce _ _ _ _) as [e b]. apply post_bind, post_modify. cbn [fst snd].
  set (v1 := set_enforcers _ _).
  assert (forall v', toKeep_ v' = toKeep_ v1 -> kRefreshTime v' = kRefreshTime v1 -> parms_ v' = parms_ v1 ->
    bySequence_ v' = bySequence_ v1 -> sequence_step c (OpAdd n val) st.1 v') as Hseq.
  { intros v' Ek Er Ep Es. unfold v1 in *. split_and!; [rewrite Er|rewrite Ep|rewrite Ek|right; exists n, val; rewrite Es];
      by destruct (st.1). }
  assert (byLedger_ v1 = byLedger_ st.1) as El by (unfold v1; by destruct (st.1)).
  clearbody v1.
  destruct b; cbn [negb]; [|apply post_ret; split; [by apply Hseq|by unfold ledger_step; cbn [fst]; rewrite El]].
  apply post_bind, post_modify. cbn [fst snd]. set (v2 := set_byLedger _ v1).
  assert (forall v', ages v' = ages v2 -> sequence_step c (OpAdd n val) st.1 v' /\ ledger_step c st.1 v') as Hend.
  { intros v' E. injection E as E1 E2 E3 E4 E5. split.
    - apply Hseq; [rewrite E3|rewrite E4|rewrite E5|rewrite E2]; unfold v2; by destruct v1.
    - intros Hok. rewrite E1. unfold v2.
      assert (forall m v, byLedger_ (set_byLedger m v) = m) as -> by (by intros ? []). by apply aged_alter_ok, aged_index_ok. }
  clearbody v2.
  assert (forall prior, post (_ ← modify (set_current (<[n := val]> (current_ st.1)));
    _ ← (if v_trusted val then updateTrie n val prior else mret ()); mret Current) (v2, st.2)
    (fun _ st' => sequence_step c (OpAdd n val) st.1 st'.1 /\ ledger_step c st.1 st'.1)) as Hvote.
  { intros prior. apply (post_mono _ _ (fun _ st' => ages st'.1 = ages v2)); [|intros ? st' E; by apply Hend].
    revert v2 Hend. intros v2 _. apply (ageless_bind (modify _)); [ageless_field|intros _].
    apply ageless_bind; [|intros; apply ageless_ret]. destruct (v_trusted val); [apply ageless_updateTrie|apply ageless_ret]. }
  destruct (current_ st.1 !! n); [|apply Hvote]. destruct (_ <? _)%Z; [apply Hvote|]. by apply post_ret, Hend.
Qed.

(** [expire]: the range to refresh, if it is time to. *)
Definition due (c : Z) v : option (nat * nat) := if (kRefreshTime v <=? c)%Z then toKeep_ v else None.

Lemma expire_step st : post expire st (fun _ st' =>
  let v := st.1 in let c := clock_now st.2 in let age := validationSetExpires (parms_ v) in
  toKeep_ st'.1 = toKeep_ v /\ parms_ st'.1 = parms_ v /\
  kRefreshTime st'.1 = (match due c v with Some _ => c + age - validationFRESHNESS (parms_ v) | None => kRefreshTime v end)%Z /\
  bySequence_ st'.1 = aged_expire c age (match due c v with Some r => keep_bySequence c r (bySequence_ v) | None => bySequence_ v end) /\
  byLedger_ st'.1 = aged_expire c age (match due c v with Some r => keep_byLedger c r (byLedger_ v) | None => byLedger_ v end)).
Proof.
  destruct st as [[cu lo en bl bs tk tr la ac p r] a]. unfold due, expire. cbn [fst snd toKeep_ kRefreshTime parms_ bySequence_ byLedger_].
  apply post_bind, post_get, post_bind. intros t ? [= <- <-]. cbn [fst snd toKeep_ kRefreshTime parms_ bySequence_ byLedger_].
  apply post_bind. destruct tk as [range|]; [destruct (r <=? _)%Z|destruct (r <=? _)%Z].
  - apply post_bind, post_modify, post_bind, post_modify, post_modify. by apply post_bind, post_modify, post_modify.
  - apply post_ret. by apply post_bind, post_modify, post_modify.
  - apply post_ret. by apply post_bind, post_modify, post_modify.
  - apply post_ret. by apply post_bind, post_modify, post_modify.
Qed.

Lemma keep_byLedger_ok c range m : aged_ok c m -> aged_ok c (keep_byLedger c range m).
Proof.
  intros Hok. unfold keep_byLedger.
  set (P := fun x : N * gmap N Validation => match order x.2 with (_, val) :: _ => kept range (v_seq val) | [] => false end).
  eapply (touch_loop _ _ P fst); [|done]. intros m' x. unfold P. by repeat case_match.
Qed.

(** The sets of the range are refreshed, the others are left as they are. *)
Lemma keep_bySequence_elem c range m : aged_ok c m ->
  aged_ok c (keep_bySequence c range m) /\
  forall s t x, (s, (t, x)) ∈ keep_bySequence c range m <->
    exists t0, (s, (t0, x)) ∈ m /\ t = if kept range s then c else t0.
Proof.
  intros Hok. unfold keep_bySequence.
  set (xs := order (list_to_map ((fun x => (x.1, x.2.2)) <$> m) : gmap nat (gmap N Validation))).
  edestruct (touch_loop c _ (fun x => kept range x.1) fst xs m (fun _ _ => eq_refl) Hok) as [Hk Hel]. split; [done|].
  intros s t x. rewrite Hel. split; intros (t0 & Hin & ->); exists t0; (split; [done|]).
  all: assert (existsb (fun y => kept range y.1 && bool_decide (s = y.1)) xs = kept range s) as ->; [|done].
  all: apply eq_true_iff_eq; rewrite existsb_exists; split.
  1,3: intros (y & _ & [Hy Es]%andb_true_iff); apply bool_decide_eq_true in Es; by subst s.
  all: intros Hs; exists (s, x); split; [|cbn; by rewrite Hs, bool_decide_true].
  all: apply list_elem_of_In, order_in, elem_of_list_to_map_1; cbn;
    [rewrite <-list_fmap_compose; apply (aged_keys _ _ Hok)|apply list_elem_of_fmap; by exists (s, (t0, x))].
Qed.

Definition step c op v v' : Prop := sequence_step c op v v' /\ ledger_step c v v'.

Lemma retrusted_ok c added removed (m : AgedMap N (gmap N Validation)) : aged_ok c m ->
  aged_ok c (map (fun x => (x.1, (x.2.1, retrust_map added removed x.2.2))) m).
Proof.
  intros [Hk Hs Hp]. split.
  - rewrite <-list_fmap_compose. done.
  - rewrite <-!list_fmap_compose in *. done.
  - rewrite <-!list_fmap_compose in *. done.
Qed.

Lemma trustChanged_step added removed st : post (trustChanged added removed) st (fun _ st' =>
  step (clock_now st.2) (OpTrustChanged added removed) st.1 st'.1).
Proof.
  unfold trustChanged. apply post_bind, post_get, post_bind.
  apply (post_mono _ _ (fun _ st' => ages st'.1 = ages st.1)).
  - apply ageless_for_each. intros x. unfold trustChanged_entry. apply ageless_bind; [ageless_field|intros _].
    repeat case_match; [apply ageless_updateTrie|apply ageless_removeTrie|apply ageless_ret].
  - intros ? st1 E. injection E as El Es Ek Er Ep. apply post_modify. cbn [fst].
    destruct (st1.1) as [cu lo en bl bs tk tr la ac p r]. cbn in *. split.
    + split_and!; [done..|by left].
    + intros Hok. cbn. rewrite El. by apply retrusted_ok.
Qed.

Lemma byLedger_step id st : post (byLedger id) st (fun _ st' => forall op,
  (forall low high, op <> OpSetSeqToKeep low high) -> step (clock_now st.2) op st.1 st'.1).
Proof.
  unfold byLedger. apply post_bind, post_get. destruct (aged_find id (byLedger_ st.1)).
  2: { apply post_ret. intros op Hop. by apply ageless_step. }
  apply post_bind. intros t ? [= <- <-]. apply post_bind, post_modify, post_ret. intros op Hop. cbn [fst].
  destruct (st.1) as [cu lo en bl bs tk tr la ac p r]. cbn. split.
  - split_and!; [done..| |by left]. by destruct op; try done; destruct (Hop low high).
  - intros Hok. cbn in *. by apply touch_ok.
Qed.

Lemma post_silent {X} (m : ST (Validations L * A) X) st Q : post m st (fun _ st' => Q st'.1) ->
  post (m ≫= fun _ => mret (None : option ValStatus)) st (fun _ st' => Q st'.1).
Proof. intros Hm. apply post_bind. eapply post_mono; [exact Hm|]. intros. by apply post_ret. Qed.

Lemma run_op_step a op v : op <> OpExpire -> post (run_op op) (v, a) (fun _ st' => step (clock_now a) op v st'.1).
Proof using All.
  intros Hop.
  assert (forall {X} (m : ST (Validations L * A) X), ageless m -> (forall low high, op <> OpSetSeqToKeep low high) ->
    post (m ≫= fun _ => mret (None : option ValStatus)) (v, a) (fun _ st' => step (clock_now a) op v st'.1)) as Hq.
  { intros X m Hm Ho. apply post_silent. eapply post_mono; [apply Hm|]. intros ? st' E. by apply ageless_step. }
  assert (forall {X} id (f : list (N * Validation) -> X), (forall low high, op <> OpSetSeqToKeep low high) ->
    post ((byLedger id ≫= fun xs => mret (f xs)) ≫= fun _ => mret (None : option ValStatus)) (v, a)
      (fun _ st' => step (clock_now a) op v st'.1)) as Hb.
  { intros X id f Ho. apply post_silent, post_bind. eapply post_mono; [apply byLedger_step|].
    intros xs st' Hs. apply post_ret. by apply Hs. }
  destruct op; cbn [run_op]; try done; try (apply Hb; done).
  - apply post_bind. eapply post_mono; [apply add_step|]. intros ? st' Hs. by apply post_ret.
  - apply post_silent, trustChanged_step.
  - apply post_silent. unfold setSeqToKeep. apply post_modify. cbn [fst].
    destruct v. split; [split_and!; [done..|by left]|intros Hk; exact Hk].
  - apply Hq; [|done]. unfold flush. ageless_field.
  - apply Hq; [|done]. unfold canValidateSeq. ageless_solve.
  - apply Hq; [|done]. apply ageless_getPreferred.
  - apply Hq; [|done]. apply ageless_bind; [apply ageless_getPreferred|intros; apply ageless_ret].
  - apply Hq; [|done]. apply ageless_bind; [apply ageless_getPreferred|intros; apply ageless_ret].
  - apply Hq; [|done]. unfold getNodesAfter. case_match; [apply ageless_withTrie|ageless_solve].
  - apply Hq; [|done]. apply ageless_bind; [apply ageless_current|intros; apply ageless_ret].
  - apply Hq; [|done]. apply ageless_bind; [apply ageless_current|intros; apply ageless_ret].
  - apply Hq; [|done]. apply ageless_bind; [apply ageless_get|intros ?]. apply ageless_bind; [apply ageless_now|intros ?].
    apply ageless_bind; [apply ageless_current|intros; apply ageless_ret].
Qed.

(** ** Along a run *)

Definition aged (c : Z) v : Prop := aged_ok c (byLedger_ v) /\ aged_ok c (bySequence_ v).

Lemma aged_later c c' v : aged c v -> (c <= c')%Z -> aged c' v.
Proof. intros [Hl Hs] Hle. split; by eapply aged_ok_later. Qed.

Lemma is_expire (op : vop (L := L)) : op = OpExpire \/ op <> OpExpire.
Proof. destruct op; (by left) || by right. Qed.

Lemma run_op_aged a op v : aged (clock_now a) v -> post (run_op op) (v, a) (fun _ st' => aged (clock_now a) st'.1).
Proof using All.
  intros [Hl Hs]. destruct (is_expire op) as [->|Hne].
  - apply post_silent. eapply post_mono; [apply expire_step|]. cbn [fst snd]. intros ? st' (_ & _ & _ & Es & El).
    split; [rewrite El|rewrite Es]; apply aged_expire_ok; destruct (due _ _); try done;
      [by apply keep_byLedger_ok|by apply keep_bySequence_elem].
  - eapply post_mono; [by apply run_op_step|]. intros ? st' [(_ & _ & _ & Hq) Hld]. split; [by apply Hld|].
    destruct Hq as [->|(n & val & ->)]; [done|]. by apply aged_alter_ok, aged_index_ok.
Qed.

(** The node [n] is tracked for the sequence number [s]. *)
Definition tracks (s : nat) (n : N) v : Prop := exists t x, (s, (t, x)) ∈ bySequence_ v /\ is_Some (x !! n).

(** Everything in the range was used since the last refresh. *)
Record guarded (range : nat * nat) (c : Z) v : Prop := {
  gd_keep : toKeep_ v = Some range;
  gd_fresh : forall s t x, (s, (t, x)) ∈ bySequence_ v -> kept range s = true ->
    (kRefreshTime v <= t + validationSetExpires (parms_ v) - validationFRESHNESS (parms_ v))%Z;
  gd_start : (kRefreshTime v <= c + validationSetExpires (parms_ v) - validationFRESHNESS (parms_ v))%Z
}.

Lemma track_grows p m val (x : gmap N Validation) n : is_Some (x !! n) -> is_Some (track p m val x !! n).
Proof.
  intros Hn. unfold track. destruct (decide (m = n)) as [->|Hne].
  - repeat case_match; try done; rewrite lookup_insert_eq; eauto.
  - repeat case_match; rewrite ?lookup_insert_ne; done.
Qed.

Lemma step_guarded range c c' op v v' : (forall low high, op <> OpSetSeqToKeep low high) -> (c <= c')%Z ->
  sequence_step c' op v v' -> guarded range c v ->
  guarded range c' v' /\ forall s n, tracks s n v -> tracks s n v'.
Proof.
  intros Hop Hc (Er & Ep & Ek & Hs) [Hk Hf Hst].
  assert (toKeep_ v' = Some range) as Hk' by (rewrite Ek; destruct op; try done; by destruct (Hop low high)).
  destruct Hs as [E|(m & val & E)].
  { split; [|unfold tracks; by rewrite E]. split; rewrite ?Er, ?Ep, ?E; [done|done|lia]. }
  split.
  - split; rewrite ?Er, ?Ep, ?E; [done| |lia]. intros s t x (x0 & [Hin|[_ [= _ <- _]]]%elem_index & _)%elem_alter Hr; [by eapply Hf|lia].
  - intros s n (t & x & Hin & Hn). exists t, (if decide (v_seq val = s) then track (parms_ v) m val x else x).
    rewrite E. split; [|case_decide; [by apply track_grows|done]]. apply elem_alter. exists x. split; [|done]. apply elem_index. by left.
Qed.

Lemma expire_guarded range c v a : let p := parms_ v in (0 < validationSetExpires p)%Z -> (0 <= validationFRESHNESS p)%Z ->
  aged (clock_now a) v -> (c <= clock_now a)%Z -> due (clock_now a) v = Some range \/ guarded range c v ->
  post expire (v, a) (fun _ st' => guarded range (clock_now a) st'.1 /\
    forall s n, kept range s = true -> tracks s n v -> tracks s n st'.1).
Proof.
  intros p HE HF [_ Hok] Hc Hg. eapply post_mono; [apply expire_step|]. cbn [fst snd]. set (t := clock_now a) in *.
  intros u st' (Ek & Ep & Er & Es & _).
  set (m := match due t v with Some r => _ | None => _ end) in Es.
  assert (aged_ok t m /\ toKeep_ v = Some range /\
    (forall s t' x, (s, (t', x)) ∈ m -> kept range s = true ->
       (t < t' + validationSetExpires p)%Z /\ (kRefreshTime st'.1 <= t' + validationSetExpires p - validationFRESHNESS p)%Z) /\
    (kRefreshTime st'.1 <= t + validationSetExpires p - validationFRESHNESS p)%Z /\
    (forall s n, tracks s n v -> exists t' x, (s, (t', x)) ∈ m /\ is_Some (x !! n))) as (Hm & Hk & Hfresh & Hstart & Htr).
  { unfold due in *. destruct (Z.leb_spec (kRefreshTime v) t) as [Hle|Hgt].
    - assert (toKeep_ v = Some range) as Hk by (by destruct Hg as [?|[? _ _]]).
      unfold m. rewrite Hk in Er |- *. destruct (keep_bySequence_elem t range _ Hok) as [Hko Hel].
      cbn beta iota in Er. fold p in Er. split_and!; [done|done| |lia|].
      + intros s t' x Hin Hr. apply Hel in Hin as (t0 & _ & Et). rewrite Hr in Et. lia.
      + intros s n (t0 & x & Hin & Hn). eexists _, x. split; [|done]. apply Hel. by exists t0.
    - destruct Hg as [?|[Hk Hf Hs]]; [done|]. unfold m. split_and!; [done|done| |rewrite Er; unfold p in *; lia|done].
      intros s t' x Hin Hr. rewrite Er. specialize (Hf s t' x Hin Hr). fold p in Hf. lia. }
  rewrite aged_expire_filter in Es by done. clearbody m. split.
  - split; rewrite ?Ek, ?Ep, ?Es; [done| |done]. intros s t' x [_ Hin]%list_elem_of_filter Hr. by eapply Hfresh.
  - intros s n Hr (t' & x & Hin & Hn)%Htr. exists t', x. split; [|done]. rewrite Es. apply list_elem_of_filter.
    split; [cbn|done]. destruct (Hfresh s t' x Hin Hr). unfold p in *. lia.
Qed.

Lemma vrun_cons_inv a op (ops : list (A * vop)) v v' evs : vrun v ((a, op) :: ops) = Ok (v', evs) ->
  exists r v1 a1 evs', run_op op (v, a) = Ok (r, (v1, a1)) /\ vrun v1 ops = Ok (v', evs').
Proof.
  cbn [vrun]. destruct (run_op op (v, a)) as [[r [v1 a1]]|]; [|done]. cbn.
  destruct (vrun v1 ops) as [[v2 evs']|] eqn:E; [|done]. cbn. intros [= <- _]. by exists r, v1, a1, evs'.
Qed.

Lemma run_op_parms a op v : post (run_op op) (v, a) (fun _ st' => parms_ st'.1 = parms_ v).
Proof using All.
  destruct (is_expire op) as [->|Hne].
  - apply (post_silent _ _ (fun v' => parms_ v' = parms_ v)).
    eapply post_mono; [apply expire_step|]. cbn. by intros ? st' (_ & -> & _).
  - eapply post_mono; [by apply run_op_step|]. by intros ? st' [(_ & -> & _) _].
Qed.

Lemma vrun_aged ops v v' evs c c' : aged c v -> StronglySorted Z.le (c :: (clock_now <$> ops.*1)) ->
  Forall (fun t => t <= c')%Z (c :: (clock_now <$> ops.*1)) -> vrun v ops = Ok (v', evs) -> aged c' v' /\ parms_ v' = parms_ v.
Proof using All.
  revert v evs c. induction ops as [|[a op] ops IH]; intros v evs c Hg Hs Hle E.
  { injection E as <- _. apply Forall_cons in Hle as [Hle _]. split; [by eapply aged_later|done]. }
  apply vrun_cons_inv in E as (r & v1 & a1 & evs' & E1 & E). cbn in Hs, Hle.
  apply Forall_cons in Hle as [_ Hle]. inversion Hs as [|? ? Hs' Hc]; subst. apply Forall_cons in Hc as [Hc _].
  assert (aged (clock_now a) v) as Hg1 by (by eapply aged_later).
  pose proof (run_op_aged a op v Hg1 _ _ E1) as Hg2. pose proof (run_op_parms a op v _ _ E1) as Hp. cbn in Hg2, Hp.
  destruct (IH v1 evs' (clock_now a) Hg2 Hs' Hle E) as [? ->]. done.
Qed.

Lemma run_op_guarded range c a op v : let p := parms_ v in (0 < validationSetExpires p)%Z -> (0 <= validationFRESHNESS p)%Z ->
  aged (clock_now a) v -> (c <= clock_now a)%Z -> guarded range c v -> (forall low high, op <> OpSetSeqToKeep low high) ->
  post (run_op op) (v, a) (fun _ st' => guarded range (clock_now a) st'.1 /\
    forall s n, kept range s = true -> tracks s n v -> tracks s n st'.1).
Proof using All.
  intros p HE HF Hag Hc Hg Hop. destruct (is_expire op) as [->|Hne].
  - apply (post_silent _ _ (fun v' => guarded range (clock_now a) v' /\
      forall s n, kept range s = true -> tracks s n v -> tracks s n v')).
    apply (expire_guarded range c); [done..|by right].
  - eapply post_mono; [by apply run_op_step|]. intros ? st' [Hs _].
    destruct (step_guarded range c (clock_now a) op v st'.1 Hop Hc Hs Hg). auto.
Qed.

Lemma vrun_guarded range ops v v' evs c : (0 < validationSetExpires (parms_ v))%Z -> (0 <= validationFRESHNESS (parms_ v))%Z ->
  aged c v -> guarded range c v -> StronglySorted Z.le (c :: (clock_now <$> ops.*1)) ->
  Forall (fun x => forall low high, x.2 <> OpSetSeqToKeep low high) ops -> vrun v ops = Ok (v', evs) ->
  forall s n, kept range s = true -> tracks s n v -> tracks s n v'.
Proof using All.
  intros HE HF Hag Hg Hs Hops. revert v evs c HE HF Hag Hg Hs.
  induction Hops as [|[a op] ops Hop _ IH]; intros v evs c HE HF Hag Hg Hs E s n Hr Ht; [by injection E as <- _|].
  apply vrun_cons_inv in E as (r & v1 & a1 & evs' & E1 & E). cbn in Hs.
  inversion Hs as [|? ? Hs' Hc]; subst. apply Forall_cons in Hc as [Hc _].
  assert (aged (clock_now a) v) as Hg1 by (by eapply aged_later).
  pose proof (run_op_aged a op v Hg1 _ _ E1) as Hg2. pose proof (run_op_parms a op v _ _ E1) as Hp. cbn in Hg2, Hp.
  destruct (run_op_guarded range c a op v HE HF Hg1 Hc Hg Hop _ _ E1) as [Hg3 Ht3]. cbn in Hg3, Ht3.
  eapply (IH v1 evs' (clock_now a)); rewrite ?Hp; eauto.
Qed.

(** What [expire] leaves: nothing old, and everything that is not. *)
Lemma expire_young a v : aged (clock_now a) v -> post expire (v, a) (fun _ st' =>
  let young t := (clock_now a < t + validationSetExpires (parms_ v))%Z in
  (forall id t x, (id, (t, x)) ∈ byLedger_ st'.1 -> young t) /\
  (forall s t x, (s, (t, x)) ∈ bySequence_ st'.1 -> young t) /\
  (forall s t x, (s, (t, x)) ∈ bySequence_ v -> young t -> exists t', (s, (t', x)) ∈ bySequence_ st'.1)).
Proof.
  intros [Hl Hs]. eapply post_mono; [apply expire_step|]. cbn [fst snd]. set (c := clock_now a) in *.
  intros u st' (_ & _ & _ & Es & El).
  rewrite aged_expire_filter in El by (destruct (due c v); [by apply keep_byLedger_ok|done]).
  rewrite aged_expire_filter in Es by (destruct (due c v); [by apply keep_bySequence_elem|done]).
  split_and!.
  - intros id t x. rewrite El. intros [Ht _]%list_elem_of_filter. cbn in Ht. lia.
  - intros s t x. rewrite Es. intros [Ht _]%list_elem_of_filter. cbn in Ht. lia.
  - intros s t x Hin Ht. rewrite Es. destruct (due c v) as [range|].
    + destruct (keep_bySequence_elem c range _ Hs) as [_ Hel]. exists (if kept range s then c else t).
      apply list_elem_of_filter. split; [|apply Hel; by exists t]. cbn. destruct (kept range s); [|lia].
      pose proof (aged_past _ _ Hs) as Hp. rewrite <-list_fmap_compose, Forall_fmap, Forall_forall in Hp.
      specialize (Hp _ Hin). cbn in Hp. lia.
    + exists t. apply list_elem_of_filter. split; [cbn; lia|done].
Qed.

Lemma sorted_split (cs1 cs2 : list Z) c : StronglySorted Z.le (cs1 ++ c :: cs2) ->
  exists c0, StronglySorted Z.le (c0 :: cs1) /\ Forall (fun t => t <= c)%Z (c0 :: cs1) /\ StronglySorted Z.le (c :: cs2).
Proof.
  intros (Hle & Hs1 & Hs2)%StronglySorted_app.
  assert (Forall (fun t => t <= c)%Z cs1) as Hc by (apply Forall_forall; intros; apply Hle; set_solver).
  destruct cs1 as [|c0 cs1]; [exists c; split_and!; [by repeat constructor|by repeat constructor|done]|].
  exists c0. split_and!; [|constructor; [by apply Forall_cons in Hc as []|done]|done].
  constructor; [done|]. inversion Hs1; subst. constructor; [lia|done].
Qed.
End ages.
