(* ===== verification/ValidationsProps.v ===== *)
(** * What tracking validations guarantees

    The properties of [Validations] (Validations.h): the trie is the tally of
    the ledgers the nodes validated, sequence numbers increase, which ledger a
    node prefers to work on, that an acquired ledger is counted, what expires
    and what is kept, and the votes that outlive their validations. *)

From S2P Require Import AgedMap.
From S2P Require Import Prelude StateMonad LedgerTrie LedgerTrieSpec LedgerTrieOps LedgerTriePreferred RCLValidations LedgerTrieProps Validations ValidationsSpec ValidationsAges ValidationsRun.
Open Scope nat_scope.

(** ** An example: an adaptor that has some of the ledgers *)

Record ExampleAdaptor : Type := mkExample { ex_now : Z; ex_have : list N }.

#[export] Instance example_Adaptor : Adaptor ExampleAdaptor RCLValidatedLedger := {|
  adaptor_now := ex_now;
  clock_now := ex_now;
  acquire id a := (if bool_decide (id <> 0%N /\ id ∈ ex_have a) then Some (rcl_example id) else None, a)
|}.

Lemma example_led_id id : led_id (rcl_example id) = id.
Proof.
  unfold led_id. cbn [led_at led_seq RCL_LedgerHistory]. unfold ancestor.
  by rewrite Nat.leb_refl, Nat.eqb_refl, (proj2 (Nat.leb_le _ _)) by (unfold minSeq; lia).
Qed.

#[export] Instance example_AdaptorLaws : AdaptorLaws ExampleAdaptor RCLValidatedLedger.
Proof.
  split. intros id a l a'. cbn. case_bool_decide as Hid; [|done]. destruct Hid. intros [= <- <-].
  split; [by apply rcl_example_ok|apply example_led_id].
Qed.

#[export] Instance example_HashOrder : HashOrder := {| order K V _ _ m := map_to_list m; order_perm K V _ _ m := reflexivity _ |}.

(** A trusted, full validation of an example ledger. *)
Definition example_val (id : N) (t : Z) : Validation :=
  mkValidation id (led_seq (rcl_example id)) t t id true true None 0 id.

(** The nodes 1 and 2 validate the ledgers 14 and 15; 14 is not at hand when
    it is validated. *)
Definition example_vops : list (ExampleAdaptor * vop (L := RCLValidatedLedger)) :=
  [(mkExample 1000 [12; 13; 15]%N, OpAdd 1 (example_val 12 1000));
   (mkExample 1010 [12; 13; 15]%N, OpAdd 2 (example_val 15 1010));
   (mkExample 1020 [12; 13; 15]%N, OpAdd 1 (example_val 14 1020));
   (mkExample 1030 [12; 13; 15]%N, OpExpire)].

Lemma example_vops_ok : vops_ok example_vops.
Proof. split; [by vm_compute|]. repeat constructor. Qed.

(** What they lead to. *)
Definition example_end : Validations RCLValidatedLedger * list event :=
  match vrun (newValidations defaultValidationParms) example_vops with Ok x => x | Throw _ => (newValidations defaultValidationParms, []) end.
Lemma example_vrun : vrun (newValidations defaultValidationParms) example_vops = Ok example_end.
Proof. by vm_compute. Qed.
Lemma example_end_waits : acquiring_ example_end.1 = {[(3, 14%N) := {[1%N]}]} /\
  current_ example_end.1 !! 1%N = Some (example_val 14 1020) /\ parms_ example_end.1 = defaultValidationParms.
Proof. by vm_compute. Qed.

(** ** Properties *)

(** C6. The trie is the tally of what the nodes validated: any sequence of the
    operations, the adaptor changing in any way between them, runs without an
    exception (at most 2^32 - 1 nodes); the ledger a node is counted for is
    one it sent a validation of; the support of a ledger in the trie is the
    number of nodes counted for it, its branch support the number counted for
    it or for a descendant; and the invariants of the trie hold. *)
Theorem validations_votes {L A : Type} `{LedgerHistoryLaws L, Adaptor A L, !AdaptorLaws A L, HashOrder}
    (p : ValidationParms) (ops : list (A * vop (L := L))) : vops_ok ops ->
  exists v evs, vrun (newValidations p) ops = Ok (v, evs) /\
    (forall n l, lastLedger_ v !! n = Some l -> validated ops n (led_id l)) /\
    (forall l, ok l ->
      tipSupportOf (trie_ v) l = N.of_nat (size (filter (fun x => hist x.2 = hist l) (lastLedger_ v))) /\
      branchSupportOf (trie_ v) l = N.of_nat (size (filter (fun x => hist l `prefix_of` hist x.2) (lastLedger_ v)))) /\
    checkInvariants (trie_ v) = true.
Proof.
  intros Hok. destruct (vrun_inv p ops Hok) as (v & evs & E & Hi). exists v, evs.
  pose proof (vi_trie _ _ Hi) as Ht. split_and!; [done|apply (vi_last _ _ Hi)| |by eapply checkInvariants_Inv].
  intros l Hl. rewrite (tipSupportOf_votes _ _ l Ht Hl), (branchSupportOf_votes _ _ l Ht Hl), <-vweight_at.
  unfold support. rewrite !tally_weight. split; do 2 f_equal; apply map_filter_ext; intros n l' _; cbn; apply bool_decide_eq_true.
Qed.

Lemma validations_votes_witness : exists v evs, vrun (newValidations defaultValidationParms) example_vops = Ok (v, evs) /\
  tipSupportOf (trie_ v) (rcl_example 12) = 1%N /\ branchSupportOf (trie_ v) (rcl_example 13) = 1%N.
Proof.
  destruct (validations_votes defaultValidationParms example_vops example_vops_ok) as (v & evs & E & _ & Hs & _).
  exists v, evs. split; [done|].
  destruct (Hs (rcl_example 12)) as [-> _]; [by apply rcl_example_ok|].
  destruct (Hs (rcl_example 13)) as [_ ->]; [by apply rcl_example_ok|].
  rewrite example_vrun in E. apply (f_equal (fun r => match r with Ok x => x.1 | Throw _ => v end)) in E. cbn in E.
  subst v. by vm_compute.
Defined.

(** A node's sequence numbers increase: in any run whose clock does not go
    back, if [add] answers [Current] to two validations of a node at most
    [validationSetExpires] apart, the later one has the larger sequence
    number. *)
Theorem validations_increase {L A : Type} `{LedgerHistoryLaws L, Adaptor A L, !AdaptorLaws A L, HashOrder}
    (p : ValidationParms) (ops : list (A * vop (L := L))) :
  vops_ok ops -> StronglySorted Z.le (clock_now <$> ops.*1) ->
  exists v evs, vrun (newValidations p) ops = Ok (v, evs) /\
    forall i j e1 e2, evs !! i = Some e1 -> evs !! j = Some e2 -> i < j -> ev_node e1 = ev_node e2 ->
      ev_status e1 = Current -> ev_status e2 = Current ->
      (ev_time e2 <= ev_time e1 + validationSetExpires p)%Z -> v_seq (ev_val e1) < v_seq (ev_val e2).
Proof.
  intros Hok Hs. destruct (vrun_inv p ops Hok) as (v & evs & E & _). exists v, evs. split; [done|].
  intros i j e1 e2 H1' H2' Hij Hn Hc1 Hc2 Ht.
  eapply (vrun_increasing (senders ops) (proj1 Hok) (validated ops) (validated_sender ops) ops (newValidations p));
    [by apply vops_ok_steps|apply newValidations_inv|done..].
Qed.

Lemma validations_increase_witness : exists v evs,
  vrun (newValidations defaultValidationParms) example_vops = Ok (v, evs) /\
  (ev_status <$> evs) = [Current; Current; Current] /\
  (forall e1 e2, evs !! 0 = Some e1 -> evs !! 2 = Some e2 -> v_seq (ev_val e1) < v_seq (ev_val e2)).
Proof.
  destruct (validations_increase defaultValidationParms example_vops example_vops_ok) as (v & evs & E & Hs).
  { repeat constructor; cbn; lia. }
  exists v, evs. split; [done|].
  assert (exists w, vrun (newValidations defaultValidationParms) example_vops = w) as [w Ew] by eauto.
  rewrite Ew in E. subst w. assert (evs = [mkEvent 1000 1 (example_val 12 1000) Current;
    mkEvent 1010 2 (example_val 15 1010) Current; mkEvent 1020 1 (example_val 14 1020) Current]) as ->.
  { revert Ew. vm_compute. by intros [= _ <-]. }
  split; [done|]. intros e1 e2 H1 H2. apply (Hs 0 2); [done|done|lia|..]; injection H1 as <-; injection H2 as <-; done.
Defined.

(** C7. The preferred working ledger: after any run, [getPreferred] of a
    current ledger returns. If no node is counted for a ledger, it answers
    the ledger the most nodes wait for (larger identifiers first), or nothing
    if there is none. Otherwise there is the history preferred by branch
    given the votes: it answers the current ledger if that history
    leads to it or ends in a child of it, and the tip of the history
    otherwise. *)
Theorem preferred_working_ledger {L A : Type} `{LedgerHistoryLaws L, Adaptor A L, !AdaptorLaws A L, HashOrder}
    (p : ValidationParms) (ops : list (A * vop (L := L))) (curr : L) (a : A) : vops_ok ops -> ok curr ->
  exists v evs r v' a', vrun (newValidations p) ops = Ok (v, evs) /\ getPreferred curr (v, a) = Ok (r, (v', a')) /\
    (lastLedger_ v' = ∅ -> most_awaited (acquiring_ v') r) /\
    (lastLedger_ v' <> ∅ -> exists h,
      preferred (tally (lastLedger_ v')) (largest (localSeqEnforcer_ v)) [led_at led_genesis 0] h /\
      r = Some (working curr h)).
Proof.
  intros Hok Hc. destruct (vrun_inv p ops Hok) as (v & evs & E & Hi).
  pose proof (getPreferred_working (senders ops) (proj1 Hok) (validated ops) (validated_sender ops) curr (v, a) Hi Hc) as Hp.
  unfold total in Hp. destruct (getPreferred curr (v, a)) as [[r [v' a']]|e] eqn:Eg; [|done].
  destruct Hp as (_ & _ & Hnone & Hsome). exists v, evs, r, v', a'. by split_and!.
Qed.

(** With both ledgers at hand the two branches have one vote each, and the
    larger identifier wins. *)
Lemma preferred_working_ledger_witness : exists v evs r v' a',
  vrun (newValidations defaultValidationParms) example_vops = Ok (v, evs) /\
  getPreferred (rcl_example 11) (v, mkExample 1040 [12; 13; 14; 15]%N) = Ok (r, (v', a')) /\
  exists h, r = Some (working (rcl_example 11) h).
Proof.
  destruct (preferred_working_ledger defaultValidationParms example_vops (rcl_example 11)
    (mkExample 1040 [12; 13; 14; 15]%N) example_vops_ok (rcl_example_ok 11 ltac:(done)))
    as (v & evs & r & v' & a' & E & Ep & _ & Hs).
  exists v, evs, r, v', a'. split_and!; [done..|]. destruct Hs as (h & _ & ->); [|by exists h].
  assert (exists w, vrun (newValidations defaultValidationParms) example_vops = w) as [w Ew] by eauto.
  rewrite Ew in E. subst w. revert Ew. vm_compute. intros [= <- _]. revert Ep. vm_compute. by intros [= _ <- _].
Defined.

(** An acquired ledger is counted: after any run, let a node wait for a
    ledger (and for no other one) while its last validation is current. If
    the adaptor has the ledger now, then after the next [getPreferred] the
    node is counted for that ledger, and nobody waits for it any more. *)
Theorem acquired_counted {L A : Type} `{LedgerHistoryLaws L, Adaptor A L, !AdaptorLaws A L, HashOrder}
    (p : ValidationParms) (ops : list (A * vop (L := L))) (curr : L) (a : A) v evs n k :
  vops_ok ops -> ok curr -> vrun (newValidations p) ops = Ok (v, evs) ->
  waits n k v -> (forall k', waits n k' v -> k'.2 = k.2) ->
  (forall val, current_ v !! n = Some val ->
     isCurrent (parms_ v) (adaptor_now a) (v_signTime val) (v_seenTime val) = true) ->
  supplies k.2 a ->
  exists r v' a', getPreferred curr (v, a) = Ok (r, (v', a')) /\ counted n k.2 v' /\
    forall k', k'.2 = k.2 -> acquiring_ v' !! k' = None.
Proof.
  intros Hok Hc E Hw Hu Hcur Hsup. destruct (vrun_inv p ops Hok) as (v1 & evs1 & E1 & Hi).
  rewrite E in E1. injection E1 as <- <-.
  pose proof (getPreferred_working (senders ops) (proj1 Hok) (validated ops) (validated_sender ops) curr (v, a) Hi Hc) as Hp.
  pose proof (getPreferred_counted n k.2 curr k (v, a) Hsup eq_refl Hw Hu Hcur) as Hl.
  unfold total in Hp. unfold post in Hl. destruct (getPreferred curr (v, a)) as [[r [v' a']]|e]; [|done].
  exists r, v', a'. split; [done|]. by apply (Hl r (v', a')).
Qed.

Lemma acquired_counted_witness : exists r v' a',
  getPreferred (rcl_example 11) (example_end.1, mkExample 1040 [14]%N) = Ok (r, (v', a')) /\ counted 1 14 v'.
Proof.
  destruct example_end_waits as (Ea & Ec & Ep).
  destruct (acquired_counted defaultValidationParms example_vops (rcl_example 11) (mkExample 1040 [14]%N)
    example_end.1 example_end.2 1 (3, 14%N) example_vops_ok (rcl_example_ok 11 ltac:(done))) as (r & v' & a' & Eg & Hc & _).
  - rewrite example_vrun. by destruct example_end.
  - exists {[1%N]}. rewrite Ea, lookup_singleton_eq. split; [done|by apply elem_of_singleton].
  - intros k' (X & HX & _). rewrite Ea in HX. by apply lookup_singleton_Some in HX as [<- _].
  - intros val Hv. rewrite Ec in Hv. injection Hv as <-. rewrite Ep. by vm_compute.
  - intros ids. exists (rcl_example 14). by induction ids.
  - exists r, v', a'. exact (conj Eg Hc).
Defined.

(** What expires and what is kept: in any run whose clock does not go
    back, [expire] leaves only sets of validations that were used in the last
    [validationSetExpires], and among those by sequence number all of them. If
    it is time to refresh the range to keep, then from then on, as long as the
    range is not changed, whatever happens and however late [expire] is called
    again, the nodes tracked for a sequence number of the range stay. *)
Theorem kept_validations {L A : Type} `{LedgerHistoryLaws L, Adaptor A L, !AdaptorLaws A L, HashOrder}
    (p : ValidationParms) (ops1 ops2 : list (A * vop (L := L))) (a : A) :
  vops_ok (ops1 ++ (a, OpExpire) :: ops2) ->
  StronglySorted Z.le (clock_now <$> (ops1 ++ (a, OpExpire) :: ops2).*1) ->
  (0 < validationSetExpires p)%Z -> (0 <= validationFRESHNESS p)%Z ->
  let young t := (clock_now a < t + validationSetExpires p)%Z in
  exists v1 evs1 v a' v2 evs2,
    vrun (newValidations p) ops1 = Ok (v1, evs1) /\ expire (v1, a) = Ok ((), (v, a')) /\ vrun v ops2 = Ok (v2, evs2) /\
    (forall id t x, (id, (t, x)) ∈ byLedger_ v -> young t) /\
    (forall s t x, (s, (t, x)) ∈ bySequence_ v -> young t) /\
    (forall s t x, (s, (t, x)) ∈ bySequence_ v1 -> young t -> exists t', (s, (t', x)) ∈ bySequence_ v) /\
    (forall range, toKeep_ v1 = Some range -> (kRefreshTime v1 <= clock_now a)%Z ->
      Forall (fun x => forall low high, x.2 <> OpSetSeqToKeep low high) ops2 ->
      forall s n, kept range s = true -> tracks s n v1 -> tracks s n v2).
Proof.
  intros Hok Hs HE HF young. set (ops := ops1 ++ _) in Hok.
  pose proof (vops_ok_steps ops Hok) as Hops. unfold ops in Hops at 2. apply Forall_app in Hops as [Ho1 Ho2].
  apply Forall_cons in Ho2 as [_ Ho2].
  destruct (vrun_total (senders ops) (proj1 Hok) (validated ops) (validated_sender ops) ops1 (newValidations p) Ho1
    (newValidations_inv _ p)) as (v1 & evs1 & E1 & Hi1).
  rewrite !fmap_app in Hs. cbn in Hs. apply sorted_split in Hs as (c0 & Hs1 & Hle & Hs2).
  assert (aged c0 (newValidations (L := L) p)) as Hag0 by (split; apply aged_ok_nil).
  destruct (vrun_aged ops1 _ _ _ c0 (clock_now a) Hag0 Hs1 Hle E1) as [Hag1 Ep]. cbn in Ep.
  pose proof (quiet_expire (A := A) (senders ops) (proj1 Hok) (validated ops) (validated_sender ops) (v1, a) Hi1) as Hq.
  unfold total in Hq. destruct (expire (v1, a)) as [[[] [v a']]|] eqn:E; [|done]. cbn in Hq. destruct Hq as [Hi [_ Ep']].
  destruct (vrun_total (senders ops) (proj1 Hok) (validated ops) (validated_sender ops) ops2 v Ho2 Hi) as (v2 & evs2 & E2 & _).
  destruct (expire_young a v1 Hag1 _ _ E) as (Hl & Hsq & Hyoung). rewrite Ep in Hl, Hsq, Hyoung.
  exists v1, evs1, v, a', v2, evs2. split_and!; [done..|]. intros range Hk Hr Hno s n Hs' Ht.
  assert (due (clock_now a) v1 = Some range) as Hdue by (unfold due; by rewrite (proj2 (Z.leb_le _ _) Hr)).
  pose proof (expire_guarded range (clock_now a) v1 a) as Hx. cbn zeta in Hx. rewrite Ep in Hx.
  destruct (Hx HE HF Hag1 (Z.le_refl _) (or_introl Hdue) _ _ E) as [Hg Htr].
  eapply (vrun_guarded range ops2 v v2 evs2 (clock_now a)); rewrite ?Ep', ?Ep; try done; [|by apply Htr].
  assert (run_op OpExpire (v1, a) = Ok (None, (v, a'))) as Er by (cbn; unfold mbind, ST_bind; by rewrite E).
  exact (run_op_aged a OpExpire v1 Hag1 _ _ Er).
Qed.

Lemma kept_validations_witness :
  let ops1 := [(mkExample 1000 [12]%N, OpAdd 1 (example_val 12 1000)); (mkExample 1001 [12]%N, OpSetSeqToKeep 0 100)] in
  let ops2 := [(mkExample 5000 [], OpExpire); (mkExample 20000 [], OpExpire)] in
  exists v1 evs1 v a' v2 evs2, vrun (newValidations defaultValidationParms) ops1 = Ok (v1, evs1) /\
    expire (v1, mkExample 1010 []) = Ok ((), (v, a')) /\ vrun v ops2 = Ok (v2, evs2) /\ tracks 2 1 v2.
Proof.
  intros ops1 ops2. destruct (kept_validations defaultValidationParms ops1 ops2 (mkExample 1010 []))
    as (v1 & evs1 & v & a' & v2 & evs2 & E1 & E & E2 & _ & _ & _ & Hk).
  - split; [by vm_compute|]. by repeat constructor.
  - repeat constructor; cbn; lia.
  - done.
  - done.
  - exists v1, evs1, v, a', v2, evs2. split_and!; [exact E1|exact E|exact E2|].
    assert (toKeep_ v1 = Some (0, 100) /\ kRefreshTime v1 = 0%Z /\
      bySequence_ v1 = [(2, (1000%Z, {[1%N := example_val 12 1000]}))]) as (Ek & Er & Es).
    { clear -E1. revert E1. vm_compute. by intros [= <- _]. }
    clear E1 E E2. apply (Hk (0, 100)); [exact Ek|rewrite Er; cbn; lia|by repeat constructor|done|].
    exists 1000%Z, {[1%N := example_val 12 1000]}. rewrite Es. split; [by left|]. rewrite lookup_singleton_eq. by eexists.
Defined.

(** A range to keep can come too late: [setSeqToKeep] does not make
    [expire] refresh the new range at once. A set of validations that was
    outside the range at the last refresh and is asked to be kept afterwards
    expires before the next one. *)
Theorem kept_range_expires : exists v evs,
  vrun (newValidations defaultValidationParms)
    [(mkExample 1000 [12]%N, OpAdd 1 (example_val 12 1000));
     (mkExample 1100 [12]%N, OpSetSeqToKeep 50 60); (mkExample 1100 [12]%N, OpExpire);
     (mkExample 1500 [12]%N, OpSetSeqToKeep 0 100); (mkExample 1600 [12]%N, OpExpire)] = Ok (v, evs) /\
  toKeep_ v = Some (0, 100) /\ (ev_status <$> evs) = [Current] /\ (v_seq ∘ ev_val <$> evs) = [2] /\
  bySequence_ v = [] /\ byLedger_ v = [].
Proof. eexists _, _. split; [vm_compute; reflexivity|by vm_compute]. Qed.

(** A vote can outlive its validations: a node validates a ledger at hand
    and then one that is not. [removeTrie] takes back the vote only if it is
    for the ledger of the node's last validation; so when that validation
    becomes stale, or the node is no longer trusted, the vote for the first
    ledger stays in the trie, without any current trusted validation, and
    [getPreferred] goes by it. *)
Theorem vote_outlives_validations :
  let ops := [(mkExample 1000 [12]%N, OpAdd 7 (example_val 12 1000));
              (mkExample 1010 [12]%N, OpAdd 7 (example_val 14 1010))] in
  let later := mkExample 100000 [12]%N in
  (exists v evs, vrun (newValidations defaultValidationParms) (ops ++ [(later, OpCurrentTrusted)]) = Ok (v, evs) /\
     current_ v = ∅ /\ acquiring_ v = ∅ /\ tipSupportOf (trie_ v) (rcl_example 12) = 1%N /\
     (fst <$> getPreferred (rcl_example 13) (v, later)) = Ok (Some (2, 12%N))) /\
  (exists v evs, vrun (newValidations defaultValidationParms)
       (ops ++ [(mkExample 1020 [12]%N, OpTrustChanged ∅ {[7%N]})]) = Ok (v, evs) /\
     current_ v = {[7%N := setUntrusted (example_val 14 1010)]} /\ acquiring_ v = ∅ /\
     tipSupportOf (trie_ v) (rcl_example 12) = 1%N).
Proof. split; (eexists _, _; split; [vm_compute; reflexivity|by vm_compute]). Qed.
