(* ===== verification/Number.v ===== *)
(** * Decimal floating point numbers

    [Number] (Number.h, Number.cpp): a sign, a mantissa and a power of ten.
    The rounding mode and the mantissa range are thread-local settings of the
    code; here they are arguments ([Env]).  Mantissas are 64-bit or 128-bit
    unsigned integers whose wrap-around is written out; exponents stay far
    from the limits of [int] once the operands are normal, except for the
    exponent of zero, which is never added to. *)

From stdpp Require Import pretty.
From S2P Require Import Prelude.
Open Scope Z_scope.

(** ** Settings *)

Inductive RoundingMode : Type := ToNearest | TowardsZero | Downward | Upward.

Inductive MantissaScale : Type := Small | LargeLegacy | Large.

#[export] Instance RoundingMode_eq_dec : EqDecision RoundingMode.
Proof. solve_decision. Defined.
#[export] Instance MantissaScale_eq_dec : EqDecision MantissaScale.
Proof. solve_decision. Defined.

Definition getExponent (s : MantissaScale) : Z :=
  match s with Small => 15 | LargeLegacy | Large => 18 end.
Definition isCuspFixEnabled (s : MantissaScale) : bool :=
  match s with Small | LargeLegacy => false | Large => true end.

Record MantissaRange : Type := mkMantissaRange {
  scale : MantissaScale;
  log : Z;
  min : Z;
  max : Z;
  cuspRoundingFixEnabled : bool
}.

Definition getMantissaRange (s : MantissaScale) : MantissaRange :=
  let m := 10 ^ getExponent s in
  mkMantissaRange s (getExponent s) m (m * 10 - 1) (isCuspFixEnabled s).

Record Env : Type := mkEnv { mode : RoundingMode; kRange : MantissaScale }.
Definition range (env : Env) : MantissaRange := getMantissaRange (kRange env).

Definition kMinExponent : Z := -32768.
Definition kMaxExponent : Z := 32768.
Definition kMaxRep : Z := 2 ^ 63 - 1.

Record Number : Type := mkNumber { negative_ : bool; mantissa_ : Z; exponent_ : Z }.

Definition kZero : Number := mkNumber false 0 (- 2 ^ 31).

#[export] Instance Number_eq_dec : EqDecision Number.
Proof. solve_decision. Defined.

(** [operator==] *)
Definition number_eqb (x y : Number) : bool :=
  Bool.eqb (negative_ x) (negative_ y) && (mantissa_ x =? mantissa_ y) && (exponent_ x =? exponent_ y).

(** ** Guard digits *)

Definition wrap (w z : Z) : Z := z mod 2 ^ w.

(** [divu10]: the remainder and the quotient, in 128 bits; the remainder is
    computed in [unsigned]. *)
Definition divu10 (u : Z) : Z * Z :=
  let q := wrap 128 (Z.shiftr u 1 + Z.shiftr u 2) in
  let q := wrap 128 (q + Z.shiftr q 4) in
  let q := wrap 128 (q + Z.shiftr q 8) in
  let q := wrap 128 (q + Z.shiftr q 16) in
  let q := wrap 128 (q + Z.shiftr q 32) in
  let q := wrap 128 (q + Z.shiftr q 64) in
  let q := Z.shiftr q 3 in
  let r := wrap 32 (u - wrap 128 (wrap 128 (Z.shiftl q 3) + wrap 128 (Z.shiftl q 1))) in
  let c := Z.shiftr (wrap 32 (r + 6)) 4 in
  (wrap 32 (r - wrap 32 (c * 10)), wrap 128 (q + c)).

Record Guard : Type := mkGuard { digits_ : Z; xbit_ : bool; sbit_ : bool }.

Definition newGuard : Guard := mkGuard 0 false false.
Definition setNegative (g : Guard) : Guard := mkGuard (digits_ g) (xbit_ g) true.
Definition setDropped (g : Guard) : Guard := mkGuard (digits_ g) true (sbit_ g).

Definition push (d : Z) (g : Guard) : Guard :=
  mkGuard (Z.lor (Z.shiftr (digits_ g) 4) (wrap 64 (Z.shiftl (Z.land (wrap 32 d) 0xF) 60)))
    (xbit_ g || negb (Z.land (digits_ g) 0xF =? 0)) (sbit_ g).

Definition pop (g : Guard) : Z * Guard :=
  (Z.shiftr (Z.land (digits_ g) 0xF000000000000000) 60,
   mkGuard (wrap 64 (Z.shiftl (digits_ g) 4)) (xbit_ g) (sbit_ g)).

(** The mantissa types the guard is used with. *)
Inductive Width : Type := U64 | U128.
Definition bits (w : Width) : Z := match w with U64 => 64 | U128 => 128 end.

Definition doDropDigit (w : Width) (g : Guard) (mantissa exponent : Z) : Guard * Z * Z :=
  match w with
  | U64 => (push (mantissa mod 10) g, mantissa / 10, exponent + 1)
  | U128 => let '(r, q) := divu10 mantissa in (push r g, q, exponent + 1)
  end.

(** [Guard::round] *)
Definition round (md : RoundingMode) (g : Guard) : Z :=
  let some := (0 <? digits_ g) || xbit_ g in
  match md with
  | TowardsZero => -1
  | Downward => if sbit_ g && some then 1 else -1
  | Upward => if sbit_ g then -1 else if some then 1 else -1
  | ToNearest =>
      if 0x5000000000000000 <? digits_ g then 1
      else if digits_ g <? 0x5000000000000000 then -1
      else if xbit_ g then 1 else 0
  end.

(** Whether the mantissa moves away from the digits kept. *)
Definition rounds (md : RoundingMode) (g : Guard) (mantissa : Z) : bool :=
  let r := round md g in (r =? 1) || ((r =? 0) && (Z.land mantissa 1 =? 1)).

Definition bringIntoRange (w : Width) (negative : bool) (mantissa exponent minMantissa : Z) : Number :=
  let '(mantissa, exponent) :=
    if mantissa <? minMantissa then (wrap (bits w) (mantissa * 10), exponent - 1)
    else (mantissa, exponent) in
  if exponent <? kMinExponent then kZero else mkNumber negative mantissa exponent.

(** The end of [doRoundUp]. *)
Definition finishRound (w : Width) (negative : bool) (mantissa exponent minMantissa : Z)
    (location : string) : result Number :=
  let n := bringIntoRange w negative mantissa exponent minMantissa in
  if kMaxExponent <? exponent_ n then Throw location else Ok n.

(** [doRoundUp]; the code recurses at most once. *)
Fixpoint doRoundUp (fuel : nat) (w : Width) (md : RoundingMode) (g : Guard) (negative : bool)
    (mantissa exponent minMantissa maxMantissa : Z) (cuspFix : bool) (location : string)
    : result Number :=
  if rounds md g mantissa then
    if cuspFix then
      if (mantissa <? maxMantissa) && (mantissa <? kMaxRep)
      then finishRound w negative (mantissa + 1) exponent minMantissa location
      else
        match fuel with
        | O => Throw "out of fuel"
        | S fuel =>
            let '(g, mantissa, exponent) := doDropDigit w g mantissa exponent in
            doRoundUp fuel w md g negative mantissa exponent minMantissa maxMantissa cuspFix location
        end
    else
      let mantissa := wrap (bits w) (mantissa + 1) in
      if (maxMantissa <? mantissa) || (kMaxRep <? mantissa)
      then finishRound w negative (mantissa / 10) (exponent + 1) minMantissa location
      else finishRound w negative mantissa exponent minMantissa location
  else finishRound w negative mantissa exponent minMantissa location.

Definition doRoundDown (w : Width) (md : RoundingMode) (g : Guard) (negative : bool)
    (mantissa exponent minMantissa : Z) : Number :=
  let '(mantissa, exponent) :=
    if rounds md g mantissa then
      let mantissa := wrap (bits w) (mantissa - 1) in
      if mantissa <? minMantissa then (wrap (bits w) (mantissa * 10), exponent - 1)
      else (mantissa, exponent)
    else (mantissa, exponent) in
  bringIntoRange w negative mantissa exponent minMantissa.

(** [doRound], for the conversion to [rep]. *)
Definition doRound (md : RoundingMode) (g : Guard) (drops : Z) (location : string) : result Z :=
  drops ← (if rounds md g drops then
             if kMaxRep <=? drops then Throw location else Ok (drops + 1)
           else Ok drops);
  Ok (if sbit_ g then - drops else drops).

(** ** Normalization *)

(** The loops of [doNormalize]: a 128-bit mantissa has at most 39 digits. *)
Fixpoint grow (fuel : nat) (w : Width) (minMantissa m exponent : Z) : Z * Z :=
  match fuel with
  | O => (m, exponent)
  | S fuel =>
      if (m <? minMantissa) && (kMinExponent <? exponent)
      then grow fuel w minMantissa (wrap (bits w) (m * 10)) (exponent - 1)
      else (m, exponent)
  end.

Fixpoint shrink (fuel : nat) (w : Width) (maxMantissa : Z) (g : Guard) (m exponent : Z)
    : result (Guard * Z * Z) :=
  match fuel with
  | O => Throw "out of fuel"
  | S fuel =>
      if maxMantissa <? m then
        if kMaxExponent <=? exponent then Throw "Number::normalize 1"
        else
          let '(g, m, exponent) := doDropDigit w g m exponent in
          shrink fuel w maxMantissa g m exponent
      else Ok (g, m, exponent)
  end.

Definition doNormalize (w : Width) (md : RoundingMode) (negative : bool) (mantissa exponent : Z)
    (minMantissa maxMantissa : Z) (cuspFix dropped : bool) : result Number :=
  if mantissa =? 0 then Ok kZero
  else
    let '(m, exponent) := grow 40 w minMantissa mantissa exponent in
    let g := if negative then setNegative newGuard else newGuard in
    let g := if dropped then setDropped g else g in
    '(g, m, exponent) ← shrink 40 w maxMantissa g m exponent;
    if (exponent <? kMinExponent) || (m <? minMantissa) then Ok kZero
    else
      '(g, m, exponent) ←
        (if kMaxRep <? m then
           if kMaxExponent <=? exponent then Throw "Number::normalize 1.5"
           else Ok (doDropDigit w g m exponent)
         else Ok (g, m, exponent));
      doRoundUp 1 w md g negative m exponent minMantissa maxMantissa cuspFix "Number::normalize 2".

Section env.
Context (env : Env).
#[local] Abbreviation rng := (range env).

(** [Number::normalize(range)] *)
Definition normalize (x : Number) : result Number :=
  doNormalize U64 (mode env) (negative_ x) (mantissa_ x) (exponent_ x)
    (min rng) (max rng) (cuspRoundingFixEnabled rng) false.

(** ** Constructors and accessors *)

Definition externalToInternal (mantissa : Z) : Z := Z.abs mantissa.

Definition number_of (mantissa exponent : Z) : result Number :=
  normalize (mkNumber (mantissa <? 0) (externalToInternal mantissa) exponent).

Definition one : Number := mkNumber false (min rng) (- log rng).

Definition mantissa (x : Number) : Z :=
  let m := if kMaxRep <? mantissa_ x then mantissa_ x / 10 else mantissa_ x in
  if negative_ x then - m else m.
Definition exponent (x : Number) : Z :=
  if kMaxRep <? mantissa_ x then exponent_ x + 1 else exponent_ x.

Definition isnormal (x : Number) : bool :=
  number_eqb x kZero ||
  ((min rng <=? mantissa_ x) && (mantissa_ x <=? max rng) &&
   ((mantissa_ x <=? kMaxRep) || (mantissa_ x mod 10 =? 0)) &&
   (kMinExponent <=? exponent_ x) && (exponent_ x <=? kMaxExponent)).

Definition number_min : Number := mkNumber false (min rng) kMinExponent.
Definition number_max : Number := mkNumber false (Z.min (max rng) kMaxRep) kMaxExponent.
Definition number_lowest : Number := mkNumber true (Z.min (max rng) kMaxRep) kMaxExponent.

(** ** Comparison *)

Definition number_ltb (l r : Number) : bool :=
  if negb (Bool.eqb (negative_ l) (negative_ r)) then negative_ l
  else if mantissa_ l =? 0 then 0 <? mantissa_ r
  else if mantissa_ r =? 0 then false
  else if exponent_ r <? exponent_ l then negative_ l
  else if exponent_ l <? exponent_ r then negb (negative_ l)
  else if negative_ l then mantissa_ r <? mantissa_ l
  else mantissa_ l <? mantissa_ r.

Definition signum (x : Number) : Z :=
  if negative_ x then -1 else if mantissa_ x =? 0 then 0 else 1.

(** ** Arithmetic *)

Definition opp (x : Number) : Number :=
  if mantissa_ x =? 0 then kZero else mkNumber (negb (negative_ x)) (mantissa_ x) (exponent_ x).

(** The digits shifted off to meet the larger exponent. *)
Fixpoint align (n : nat) (g : Guard) (m e : Z) : Guard * Z * Z :=
  match n with
  | O => (g, m, e)
  | S n => let '(g, m, e) := doDropDigit U128 g m e in align n g m e
  end.

(** The digits taken back after a subtraction. *)
Fixpoint regrow (fuel : nat) (minMantissa : Z) (g : Guard) (m e : Z) : Guard * Z * Z :=
  match fuel with
  | O => (g, m, e)
  | S fuel =>
      if (m <? minMantissa) && (wrap 128 (m * 10) <=? kMaxRep) then
        let '(d, g) := pop g in
        regrow fuel minMantissa g (wrap 128 (wrap 128 (m * 10) - d)) (e - 1)
      else (g, m, e)
  end.

(** The digits of the operand with the smaller exponent are dropped until
    the exponents meet. *)
Definition alignOperands (x y : Number) : Guard * Z * Z * Z * Z :=
  let xe := exponent_ x in
  let ye := exponent_ y in
  if xe <? ye then
    let '(g, xm, xe) :=
      align (Z.to_nat (ye - xe)) (if negative_ x then setNegative newGuard else newGuard) (mantissa_ x) xe in
    (g, xm, mantissa_ y, xe, ye)
  else if ye <? xe then
    let '(g, ym, ye) :=
      align (Z.to_nat (xe - ye)) (if negative_ y then setNegative newGuard else newGuard) (mantissa_ y) ye in
    (g, mantissa_ x, ym, xe, ye)
  else (newGuard, mantissa_ x, mantissa_ y, xe, ye).

(** The branch of [operator+=] for operands of the same sign. *)
Definition addMantissas (g : Guard) (xn : bool) (xm ym xe : Z) : result Number :=
  let xm := wrap 128 (xm + ym) in
  let '(g, xm, xe) :=
    if (max rng <? xm) || (kMaxRep <? xm) then doDropDigit U128 g xm xe else (g, xm, xe) in
  doRoundUp 1 U128 (mode env) g xn xm xe (min rng) (max rng) (cuspRoundingFixEnabled rng)
    "Number::addition overflow".

(** The branch for operands of different signs. *)
Definition subMantissas (g : Guard) (xn yn : bool) (xm ym xe ye : Z) : Number :=
  let '(xn, xm, xe) := if ym <? xm then (xn, xm - ym, xe) else (yn, ym - xm, ye) in
  let '(g, xm, xe) := regrow 40 (min rng) g xm xe in
  doRoundDown U128 (mode env) g xn xm xe (min rng).

(** [operator+=] *)
Definition add (x y : Number) : result Number :=
  if number_eqb y kZero then Ok x
  else if number_eqb x kZero then Ok y
  else if number_eqb x (opp y) then Ok kZero
  else
    let xn := negative_ x in
    let yn := negative_ y in
    let '(g, xm, ym, xe, ye) := alignOperands x y in
    z ← (if Bool.eqb xn yn then addMantissas g xn xm ym xe
         else Ok (subMantissas g xn yn xm ym xe ye));
    normalize (mkNumber (negative_ z) (wrap 64 (mantissa_ z)) (exponent_ z)).

Definition sub (x y : Number) : result Number := add x (opp y).

(** [operator++] and [operator--] *)
Definition increment (x : Number) : result Number := add x one.
Definition decrement (x : Number) : result Number := sub x one.

Definition abs (x : Number) : Number := if number_ltb x kZero then opp x else x.
Definition squelch (x limit : Number) : Number := if number_ltb (abs x) limit then kZero else x.

(** The loop of [operator*=]. *)
Fixpoint reduce (fuel : nat) (maxMantissa : Z) (g : Guard) (m e : Z) : Guard * Z * Z :=
  match fuel with
  | O => (g, m, e)
  | S fuel =>
      if (maxMantissa <? m) || (kMaxRep <? m) then
        let '(g, m, e) := doDropDigit U128 g m e in reduce fuel maxMantissa g m e
      else (g, m, e)
  end.

(** [operator*=] *)
Definition mul (x y : Number) : result Number :=
  if number_eqb x kZero then Ok x
  else if number_eqb y kZero then Ok y
  else
    let zn := negb (Bool.eqb (negative_ x) (negative_ y)) in
    let zm := wrap 128 (mantissa_ x * mantissa_ y) in
    let ze := exponent_ x + exponent_ y in
    let g := if zn then setNegative newGuard else newGuard in
    let '(g, zm, ze) := reduce 40 (max rng) g zm ze in
    z ← doRoundUp 1 U64 (mode env) g zn (wrap 64 zm) ze (min rng) (max rng)
          (cuspRoundingFixEnabled rng)
          (String.append "Number::multiplication overflow : exponent is " (pretty ze));
    normalize z.

(** [operator/=] *)
Definition div (x y : Number) : result Number :=
  if number_eqb y kZero then Throw "Number: divide by 0"
  else if number_eqb x kZero then Ok x
  else
    let dm := mantissa_ y in
    let numerator := wrap 128 (mantissa_ x * 10 ^ 17) in
    let zm := numerator / dm in
    let ze := exponent_ x - exponent_ y - 17 in
    let zp := negb (Bool.eqb (negative_ x) (negative_ y)) in
    let '(zm, ze, dropped) :=
      if decide (scale rng <> Small) then
        let remainder := numerator mod dm in
        if negb (remainder =? 0) then
          let partialNumerator := wrap 128 (remainder * 10 ^ 5) in
          let correction := partialNumerator / dm in
          let '(zm, ze) :=
            if negb (correction =? 0)
            then (wrap 128 (wrap 128 (zm * 10 ^ 5) + correction), ze - 5) else (zm, ze) in
          (zm, ze, cuspRoundingFixEnabled rng && negb (partialNumerator mod dm =? 0))
        else (zm, ze, false)
      else (zm, ze, false) in
    doNormalize U128 (mode env) zp zm ze (min rng) (max rng) (cuspRoundingFixEnabled rng) dropped.

(** ** Conversions *)

Fixpoint rep_shrink (n : nat) (g : Guard) (drops : Z) : Guard * Z :=
  match n with
  | O => (g, drops)
  | S n => rep_shrink n (push (drops mod 10) g) (drops / 10)
  end.

Fixpoint rep_grow (n : nat) (drops : Z) : result Z :=
  match n with
  | O => Ok drops
  | S n => if kMaxRep / 10 <? drops then Throw "Number::operator rep() overflow"
           else rep_grow n (drops * 10)
  end.

(** [operator rep] *)
Definition to_rep (x : Number) : result Z :=
  let drops := mantissa x in
  let offset := exponent x in
  if drops =? 0 then Ok drops
  else
    let g := if negative_ x then setNegative newGuard else newGuard in
    let drops := if negative_ x then - drops else drops in
    let '(g, drops) := rep_shrink (Z.to_nat (- offset)) g drops in
    drops ← rep_grow (Z.to_nat offset) drops;
    doRound (mode env) g drops "Number::operator rep() rounding overflow".

Fixpoint truncate_loop (n : nat) (x : Number) : Number :=
  match n with
  | O => x
  | S n => if (exponent_ x <? 0) && negb (mantissa_ x =? 0)
           then truncate_loop n (mkNumber (negative_ x) (mantissa_ x / 10) (exponent_ x + 1))
           else x
  end.

Definition truncate (x : Number) : result Number :=
  if (0 <=? exponent_ x) || (mantissa_ x =? 0) then Ok x
  else normalize (truncate_loop (Z.to_nat (- exponent_ x)) x).

Definition shiftExponent (x : Number) (exponentDelta : Z) : result Number :=
  let newExponent := exponent_ x + exponentDelta in
  if kMaxExponent <=? newExponent then Throw "Number::shiftExponent"
  else if newExponent <? kMinExponent then Ok kZero
  else Ok (mkNumber (negative_ x) (mantissa_ x) newExponent).

(** [normalizeToRange] *)
Definition normalizeToRange (minMantissa maxMantissa : Z) (x : Number) : result (Z * Z) :=
  n ← doNormalize U64 (mode env) (negative_ x) (mantissa_ x) (exponent_ x) minMantissa maxMantissa
        false false;
  Ok ((if negative_ n then - mantissa_ n else mantissa_ n), exponent_ n).

(** [power(f, n)]: the exponent is halved until it is 1. *)
Fixpoint power_pos (f : Number) (n : positive) : result Number :=
  match n with
  | xH => Ok f
  | xO n => r ← power_pos f n; mul r r
  | xI n => r ← power_pos f n; r ← mul r r; mul r f
  end.
Definition power (f : Number) (n : N) : result Number :=
  match n with N0 => Ok one | Npos n => power_pos f n end.
End env.
