(* ===== verification/NumberSpec.v ===== *)
(** * Guard digits stand for a fraction

    The decimal digits a mantissa loses are kept in a [Guard]: up to sixteen
    of them, and one bit for the rest (Number.cpp).  [guards g f] says that a
    guard stands for the fraction [f] of one unit of the mantissa; dropping
    and taking back digits and the rounding decision are described in terms
    of that fraction.  The second part is about rounding with them. *)

From Stdlib Require Import QArith Qabs Lqa Qfield.
From Stdlib Require Import QArith Qabs Qpower Lqa Qfield.
From S2P Require Import Prelude Number.
Open Scope Z_scope.

(** ** Division by ten *)

Lemma shiftr_bounds u k : 0 <= k -> Z.shiftr u k * 2 ^ k <= u < Z.shiftr u k * 2 ^ k + 2 ^ k.
Proof.
  intros Hk. rewrite Z.shiftr_div_pow2 by done.
  pose proof (Z.div_mod u (2 ^ k)). pose proof (Z.mod_pos_bound u (2 ^ k)). lia.
Qed.

Lemma wrap_small w z : 0 <= z < 2 ^ w -> wrap w z = z.
Proof. apply Z.mod_small. Qed.

(** The shifts of [divu10] approximate the quotient from below by less than
    two. *)
Lemma divu10_estimate u : 0 <= u < 2 ^ 128 ->
  exists q, 0 <= u - 10 * q < 20 /\ 0 <= q /\
  divu10 u = (let c := Z.shiftr (wrap 32 (wrap 32 (u - 10 * q) + 6)) 4 in
              (wrap 32 (wrap 32 (u - 10 * q) - wrap 32 (c * 10)), wrap 128 (q + c))).
Proof.
  intros Hu. unfold divu10.
  pose proof (shiftr_bounds u 1 ltac:(lia)) as H1. pose proof (shiftr_bounds u 2 ltac:(lia)) as H2.
  set (a := Z.shiftr u 1) in *. set (b := Z.shiftr u 2) in *. rewrite (wrap_small 128 (a + b)) by lia.
  set (q0 := a + b) in *. pose proof (shiftr_bounds q0 4 ltac:(lia)) as H3.
  set (c0 := Z.shiftr q0 4) in *. rewrite (wrap_small 128 (q0 + c0)) by lia.
  set (q1 := q0 + c0) in *. pose proof (shiftr_bounds q1 8 ltac:(lia)) as H4.
  set (c1 := Z.shiftr q1 8) in *. rewrite (wrap_small 128 (q1 + c1)) by lia.
  set (q2 := q1 + c1) in *. pose proof (shiftr_bounds q2 16 ltac:(lia)) as H5.
  set (c2 := Z.shiftr q2 16) in *. rewrite (wrap_small 128 (q2 + c2)) by lia.
  set (q3 := q2 + c2) in *. pose proof (shiftr_bounds q3 32 ltac:(lia)) as H6.
  set (c3 := Z.shiftr q3 32) in *. rewrite (wrap_small 128 (q3 + c3)) by lia.
  set (q4 := q3 + c3) in *. pose proof (shiftr_bounds q4 64 ltac:(lia)) as H7.
  set (c4 := Z.shiftr q4 64) in *. rewrite (wrap_small 128 (q4 + c4)) by lia.
  set (q5 := q4 + c4) in *. pose proof (shiftr_bounds q5 3 ltac:(lia)) as H8.
  set (q := Z.shiftr q5 3) in *. exists q. rewrite !Z.shiftl_mul_pow2 by lia.
  change (2 ^ 3) with 8. change (2 ^ 1) with 2 in *.
  assert (0 <= u - 10 * q < 20) as Hr by lia. assert (0 <= q) as Hq by lia. split_and!; [lia..|].
  rewrite (wrap_small 128 (q * 8)), (wrap_small 128 (q * 2)), (wrap_small 128 (q * 8 + q * 2)) by lia.
  by replace (u - (q * 8 + q * 2)) with (u - 10 * q) by lia.
Qed.

Lemma divu10_divides u : 0 <= u < 2 ^ 128 -> divu10 u = (u mod 10, u / 10).
Proof.
  intros Hu. destruct (divu10_estimate u Hu) as (q & Hr & Hq & ->).
  set (r := u - 10 * q) in *. rewrite (wrap_small 32 r), (wrap_small 32 (r + 6)) by lia.
  assert (Z.shiftr (r + 6) 4 = if r <? 10 then 0 else 1) as ->.
  { pose proof (shiftr_bounds (r + 6) 4 ltac:(lia)). destruct (Z.ltb_spec r 10); lia. }
  pose proof (Z.div_mod u 10 ltac:(lia)). pose proof (Z.mod_pos_bound u 10 ltac:(lia)).
  cbn zeta. destruct (Z.ltb_spec r 10).
  - rewrite (wrap_small 32 (0 * 10)), (wrap_small 32), (wrap_small 128) by lia. f_equal; lia.
  - rewrite (wrap_small 32 (1 * 10)), (wrap_small 32), (wrap_small 128) by lia. f_equal; lia.
Qed.

(** ** Digits *)

(** The sixteen nibbles, the last digit dropped first. *)
Fixpoint hexval (ds : list Z) : Z :=
  match ds with [] => 0 | d :: ds => d * 16 ^ Z.of_nat (length ds) + hexval ds end.
Fixpoint decval (ds : list Z) : Z :=
  match ds with [] => 0 | d :: ds => d * 10 ^ Z.of_nat (length ds) + decval ds end.
#[local] Abbreviation digit d := (0 <= d < 10).

Lemma pow_S b (n : nat) : b ^ Z.of_nat (S n) = b * b ^ Z.of_nat n.
Proof. rewrite Nat2Z.inj_succ, Z.pow_succ_r by lia. done. Qed.

Lemma hexval_bound ds : Forall (fun d => digit d) ds ->
  0 <= hexval ds < 16 ^ Z.of_nat (length ds).
Proof.
  induction 1 as [|d ds Hd _ IH]; [done|]. cbn [hexval length]. rewrite pow_S.
  assert (0 < 16 ^ Z.of_nat (length ds)) by lia. nia.
Qed.
Lemma decval_bound ds : Forall (fun d => digit d) ds ->
  0 <= decval ds < 10 ^ Z.of_nat (length ds).
Proof.
  induction 1 as [|d ds Hd _ IH]; [done|]. cbn [decval length]. rewrite pow_S.
  assert (0 < 10 ^ Z.of_nat (length ds)) by lia. nia.
Qed.

Lemma hexval_app ds es : hexval (ds ++ es) = hexval ds * 16 ^ Z.of_nat (length es) + hexval es.
Proof.
  induction ds as [|d ds IH]; [done|]. cbn [hexval app]. rewrite IH, length_app, Nat2Z.inj_add, Z.pow_add_r by lia.
  ring.
Qed.
Lemma decval_app ds es : decval (ds ++ es) = decval ds * 10 ^ Z.of_nat (length es) + decval es.
Proof.
  induction ds as [|d ds IH]; [done|]. cbn [decval app]. rewrite IH, length_app, Nat2Z.inj_add, Z.pow_add_r by lia.
  ring.
Qed.
Lemma hexval_zeros n : hexval (replicate n 0) = 0.
Proof. induction n; [done|]. cbn [replicate hexval]. lia. Qed.

(** Both readings of a list of digits are zero, or compare with a half, at the
    same time. *)
Lemma hexval_decval_zero ds : Forall (fun d => digit d) ds -> hexval ds = 0 <-> decval ds = 0.
Proof.
  induction 1 as [|d ds Hd Hds IH]; [done|]. cbn [hexval decval].
  pose proof (hexval_bound ds Hds). pose proof (decval_bound ds Hds).
  assert (0 < 16 ^ Z.of_nat (length ds)) by lia. assert (0 < 10 ^ Z.of_nat (length ds)) by lia.
  destruct (decide (d = 0)) as [->|]; [rewrite !Z.mul_0_l, !Z.add_0_l; exact IH|].
  split; intros; exfalso; nia.
Qed.

(** ** What a guard stands for *)

Definition pow10 (k : nat) : Q := inject_Z (10 ^ Z.of_nat k).

(** [k] digits after the point and a rest below them. *)
Definition guards (g : Guard) (k : nat) (f : Q) : Prop :=
  exists (sig : list Z) (t : Q), length sig = k /\ (k <= 16)%nat /\ Forall (fun d => digit d) sig /\
    digits_ g = hexval (sig ++ replicate (16 - k) 0) /\
    (0 <= t < 1)%Q /\ (if xbit_ g then 0 < t else t == 0)%Q /\
    (f * pow10 k == inject_Z (decval sig) + t)%Q.

Lemma pow10_0 : (pow10 0 == 1)%Q.
Proof. reflexivity. Qed.
Lemma pow10_pos k : (0 < pow10 k)%Q.
Proof. unfold pow10, Qlt. cbn. lia. Qed.
Lemma pow10_S k : (pow10 (S k) == 10 * pow10 k)%Q.
Proof. unfold pow10. rewrite pow_S, inject_Z_mult. reflexivity. Qed.
Lemma pow10_ge1 k : (1 <= pow10 k)%Q.
Proof. unfold pow10, Qle. cbn. lia. Qed.

Lemma inject_Z_le a b : a <= b <-> (inject_Z a <= inject_Z b)%Q.
Proof. by rewrite Zle_Qle. Qed.
Lemma inject_Z_lt a b : a < b <-> (inject_Z a < inject_Z b)%Q.
Proof. by rewrite Zlt_Qlt. Qed.

Lemma newGuard_guards (negative : bool) :
  guards (if negative then setNegative newGuard else newGuard) 0 0.
Proof.
  exists [], 0%Q. destruct negative; split_and!; try done; try lia; try constructor.
Qed.

Lemma setDropped_guards (negative : bool) t : (0 < t < 1)%Q ->
  guards (setDropped (if negative then setNegative newGuard else newGuard)) 0 t.
Proof.
  intros Ht. exists [], t.
  destruct negative; split_and!; try done; try lra; try lia; try constructor; try (cbn; lra).
  all: rewrite pow10_0; change (inject_Z (decval [])) with 0%Q; ring.
Qed.

Lemma guards_range g k f : guards g k f -> (0 <= f < 1)%Q.
Proof.
  intros (sig & t & Hk & _ & Hd & _ & Ht & _ & Hf). pose proof (decval_bound sig Hd) as [Hl Hu].
  rewrite Hk in Hu. apply inject_Z_le in Hl.
  assert (inject_Z (decval sig) + 1 <= pow10 k)%Q as Hu'.
  { unfold pow10. change 1%Q with (inject_Z 1). rewrite <-inject_Z_plus. rewrite <-inject_Z_le. lia. }
  pose proof (pow10_pos k). change (inject_Z 0) with 0%Q in Hl. split; nra.
Qed.

Lemma guards_ext g k f f' : (f == f')%Q -> guards g k f -> guards g k f'.
Proof.
  intros E (sig & t & ? & ? & ? & ? & ? & ? & Hf). exists sig, t. split_and!; try done; try tauto.
  by rewrite <-E.
Qed.

Lemma hexval_snoc ds d : hexval (ds ++ [d]) = hexval ds * 16 + d.
Proof. rewrite hexval_app. cbn. lia. Qed.
Lemma decval_snoc ds d : decval (ds ++ [d]) = decval ds * 10 + d.
Proof. rewrite decval_app. cbn. lia. Qed.

(** The two halves of a push on sixteen digits. *)
Lemma push_digits g d ds e : digits_ g = hexval (ds ++ [e]) -> length ds = 15%nat ->
  Forall (fun d => digit d) ds -> digit e -> digit d ->
  push d g = mkGuard (hexval (d :: ds)) (xbit_ g || negb (e =? 0)) (sbit_ g).
Proof.
  intros Hg Hl Hds He Hd. unfold push. rewrite Hg, hexval_snoc. pose proof (hexval_bound ds Hds) as Hb.
  rewrite Hl in Hb. change (Z.of_nat 15) with 15 in Hb.
  assert (Z.shiftr (hexval ds * 16 + e) 4 = hexval ds) as ->.
  { rewrite Z.shiftr_div_pow2 by lia. change (2 ^ 4) with 16. rewrite Z.div_add_l by lia.
    rewrite Z.div_small by lia. lia. }
  assert (Z.land (hexval ds * 16 + e) 0xF = e) as ->.
  { change 0xF with (Z.ones 4). rewrite Z.land_ones by lia. change (2 ^ 4) with 16.
    rewrite Z.add_comm, Z_mod_plus_full. apply Z.mod_small. lia. }
  f_equal. cbn [hexval]. rewrite Hl. change (Z.of_nat 15) with 15.
  rewrite (wrap_small 32 d) by lia. change (Z.land d 0xF) with (Z.land d (Z.ones 4)). rewrite Z.land_ones by lia.
  rewrite (Z.mod_small d) by lia. rewrite Z.shiftl_mul_pow2 by lia. rewrite wrap_small by lia.
  change (16 ^ 15) with (2 ^ 60) in *. rewrite lor_above by lia. lia.
Qed.

Lemma push_guards g k f d : guards g k f -> digit d ->
  guards (push d g) (Nat.min 16 (S k)) ((inject_Z d + f) / 10)%Q.
Proof.
  intros (sig & t & Hk & H16 & Hds & Hg & Ht & Hx & Hf) Hd.
  destruct (decide (k = 16%nat)) as [E16|Hne].
  - replace (Nat.min 16 (S k)) with 16%nat by lia. subst k. rewrite E16 in *. cbn in Hg.
    rewrite app_nil_r in Hg. destruct sig as [|e ds _] using rev_ind; [done|].
    rewrite length_app in E16. cbn in E16. apply Forall_app in Hds as [Hds He].
    rewrite Forall_singleton in He. assert (length ds = 15%nat) as Hl by lia.
    rewrite (push_digits g d ds e) by done.
    exists (d :: ds), ((inject_Z e + t) / 10)%Q.
    pose proof (proj1 (inject_Z_le 0 e) ltac:(lia)) as He0.
    pose proof (proj1 (inject_Z_le e 9) ltac:(lia)) as He9.
    change (inject_Z 0) with 0%Q in He0. change (inject_Z 9) with 9%Q in He9. split_and!.
    + cbn. lia.
    + lia.
    + by constructor.
    + cbn [digits_]. by rewrite app_nil_r.
    + apply Qle_shift_div_l; lra.
    + apply Qlt_shift_div_r; lra.
    + cbn [xbit_]. destruct (Z.eqb_spec e 0) as [->|Hne].
      * rewrite orb_false_r. change (inject_Z 0) with 0%Q. destruct (xbit_ g).
        -- apply Qlt_shift_div_l; lra.
        -- rewrite Hx. reflexivity.
      * rewrite orb_true_r. apply Qlt_shift_div_l; [lra|].
        pose proof (proj1 (inject_Z_le 1 e) ltac:(lia)) as He1. change (inject_Z 1) with 1%Q in He1. lra.
    + cbn [decval]. rewrite Hl, inject_Z_plus, inject_Z_mult. fold (pow10 15).
      rewrite decval_snoc, inject_Z_plus, inject_Z_mult, (pow10_S 15) in Hf.
      rewrite (pow10_S 15). change (inject_Z 10) with 10%Q in Hf.
      assert (f * pow10 15 == inject_Z (decval ds) + (inject_Z e + t) / 10)%Q as E.
      { apply (Qmult_inj_r _ _ 10); [done|]. transitivity (f * (10 * pow10 15))%Q; [ring|]. rewrite Hf. field. }
      rewrite <-Qplus_assoc, <-E. field.
  - replace (Nat.min 16 (S k)) with (S k) by lia.
    assert (sig ++ replicate (16 - k) 0 = (sig ++ replicate (15 - k) 0) ++ [0]) as E.
    { rewrite <-app_assoc. f_equal. replace (16 - k)%nat with (S (15 - k)) by lia. by rewrite replicate_S_end. }
    rewrite E in Hg. rewrite (push_digits g d (sig ++ replicate (15 - k) 0) 0); [|done|..|lia|done].
    + exists (d :: sig), t. split_and!; try done; try tauto.
      * cbn. lia.
      * lia.
      * by constructor.
      * cbn [Z.eqb negb xbit_]. by rewrite orb_false_r.
      * cbn [decval]. rewrite Hk, inject_Z_plus, inject_Z_mult, (pow10_S k). fold (pow10 k).
        rewrite <-Qplus_assoc, <-Hf. field.
    + rewrite length_app, length_replicate. lia.
    + apply Forall_app. split; [done|]. apply Forall_replicate. lia.
Qed.

Lemma pop_digits g d ds : digits_ g = hexval (d :: ds) -> length ds = 15%nat ->
  Forall (fun d => digit d) ds -> digit d ->
  pop g = (d, mkGuard (hexval (ds ++ [0])) (xbit_ g) (sbit_ g)).
Proof.
  intros Hg Hl Hds Hd. unfold pop. rewrite Hg. cbn [hexval]. rewrite Hl.
  change (16 ^ Z.of_nat 15) with (2 ^ 60).
  pose proof (hexval_bound ds Hds) as Hb. rewrite Hl in Hb. change (16 ^ Z.of_nat 15) with (2 ^ 60) in Hb.
  f_equal; [|f_equal].
  - rewrite Z.shiftr_land. change (Z.shiftr 0xF000000000000000 60) with (Z.ones 4).
    rewrite Z.land_ones, Z.shiftr_div_pow2, Z.div_add_l, Z.div_small by lia.
    rewrite Z.add_0_r. apply Z.mod_small. lia.
  - rewrite hexval_snoc, Z.shiftl_mul_pow2 by lia. unfold wrap.
    replace ((d * 2 ^ 60 + hexval ds) * 2 ^ 4) with (hexval ds * 16 + d * 2 ^ 64) by lia.
    rewrite Z_mod_plus_full, Z.mod_small by lia. lia.
Qed.

Lemma pop_guards g k f : guards g (S k) f ->
  exists d, digit d /\ guards (pop g).2 k (10 * f - inject_Z d) /\ (pop g).1 = d /\
    sbit_ (pop g).2 = sbit_ g.
Proof.
  intros (sig & t & Hk & H16 & Hds & Hg & Ht & Hx & Hf). destruct sig as [|d sig]; [done|].
  apply Forall_cons in Hds as [Hd Hds]. cbn in Hk. exists d.
  rewrite (pop_digits g d (sig ++ replicate (15 - k) 0)); [| | |apply Forall_app; split; [done|]|done].
  - split; [done|]. split; [|done]. cbn [snd]. exists sig, t. split_and!; try done; try tauto; [lia|lia| |].
    + cbn [digits_]. rewrite <-app_assoc. do 2 f_equal. replace (16 - k)%nat with (S (15 - k)) by lia.
      by rewrite replicate_S_end.
    + cbn [decval] in Hf. rewrite inject_Z_plus, inject_Z_mult, (pow10_S k) in Hf.
      replace (length sig) with k in Hf by lia. fold (pow10 k) in Hf.
      transitivity (f * (10 * pow10 k) - inject_Z d * pow10 k)%Q; [ring|]. rewrite Hf. ring.
  - rewrite Hg. cbn [app]. do 3 f_equal. 
  - rewrite length_app, length_replicate. lia.
  - apply Forall_replicate. lia.
Qed.

Lemma pop_none g f : guards g 0 f -> (f == 0)%Q ->
  guards (pop g).2 0 0 /\ (pop g).1 = 0 /\ sbit_ (pop g).2 = sbit_ g.
Proof.
  intros (sig & t & Hk & H16 & Hds & Hg & Ht & Hx & Hf) Hz. destruct sig; [|done].
  unfold pop. cbn in Hg. rewrite Hg. split_and!; try done. cbn [snd].
  rewrite Hz in Hf. change (inject_Z (decval [])) with 0%Q in Hf.
  exists [], t. split_and!; try done; try tauto; try lia; try constructor.
Qed.

(** ** The rounding decision *)

Definition round_frac (md : RoundingMode) (neg : bool) (f : Q) : Z :=
  match md with
  | TowardsZero => -1
  | Downward => if neg && negb (Qle_bool f 0) then 1 else -1
  | Upward => if neg then -1 else if negb (Qle_bool f 0) then 1 else -1
  | ToNearest => match (f ?= 1 # 2)%Q with Gt => 1 | Lt => -1 | Eq => 0 end
  end.

Lemma Qle_bool_false x y : (y < x)%Q -> Qle_bool x y = false.
Proof. intros Hl. apply not_true_iff_false. rewrite Qle_bool_iff. lra. Qed.

Lemma guards_some g k f : guards g k f ->
  (0 <? digits_ g) || xbit_ g = negb (Qle_bool f 0).
Proof.
  intros (sig & t & Hk & H16 & Hds & Hg & Ht & Hx & Hf). pose proof (pow10_pos k) as Hp.
  pose proof (decval_bound sig Hds) as [Hl _]. pose proof (hexval_bound sig Hds) as [Hh _].
  rewrite hexval_app, hexval_zeros, Z.add_0_r, length_replicate in Hg.
  assert (0 < 16 ^ Z.of_nat (16 - k)) as Hpos by lia.
  destruct (decide (decval sig = 0)) as [Ez|Enz].
  - pose proof (proj2 (hexval_decval_zero sig Hds) Ez) as Eh. rewrite Eh in Hg. rewrite Ez in Hf.
    change (inject_Z 0) with 0%Q in Hf. rewrite Hg. cbn [Z.mul Z.ltb Z.compare orb].
    destruct (xbit_ g).
    + rewrite Qle_bool_false; [done|]. nra.
    + assert (Qle_bool f 0 = true) as ->; [|done]. apply Qle_bool_iff. nra.
  - assert (0 < hexval sig) as Hh'.
    { pose proof (hexval_decval_zero sig Hds). lia. }
    rewrite (proj2 (Z.ltb_lt 0 (digits_ g))) by (rewrite Hg; nia). cbn [orb].
    rewrite Qle_bool_false; [done|]. pose proof (proj1 (inject_Z_lt 0 (decval sig)) ltac:(lia)) as Hq.
    change (inject_Z 0) with 0%Q in Hq. nra.
Qed.

Lemma half_lt f P X : (0 < P -> f * (10 * P) == X -> X < 5 * P -> f < 1 # 2)%Q.
Proof.
  intros HP E HX. apply (Qmult_lt_r _ _ (10 * P)); [lra|]. rewrite E. lra.
Qed.
Lemma half_gt f P X : (0 < P -> f * (10 * P) == X -> 5 * P < X -> 1 # 2 < f)%Q.
Proof.
  intros HP E HX. apply (Qmult_lt_r _ _ (10 * P)); [lra|]. rewrite E. lra.
Qed.
Lemma half_eq f P X : (0 < P -> f * (10 * P) == X -> X == 5 * P -> f == 1 # 2)%Q.
Proof.
  intros HP E HX. apply (Qmult_inj_r _ _ (10 * P)); [lra|]. rewrite E. lra.
Qed.
Lemma mult_le_pos a b P : (0 < P -> a <= b -> a * P <= b * P)%Q.
Proof. intros. apply Qmult_le_compat_r; [done|lra]. Qed.

(** The first digit against five, then the rest against zero. *)
Lemma guards_half g k f : guards g (S k) f ->
  match (f ?= 1 # 2)%Q with
  | Gt => 0x5000000000000000 < digits_ g \/ digits_ g = 0x5000000000000000 /\ xbit_ g = true
  | Eq => digits_ g = 0x5000000000000000 /\ xbit_ g = false
  | Lt => digits_ g < 0x5000000000000000
  end.
Proof.
  intros (sig & t & Hk & H16 & Hds & Hg & Ht & Hx & Hf). destruct sig as [|d sig]; [done|].
  apply Forall_cons in Hds as [Hd Hds]. cbn in Hk. assert (length sig = k) as Hk' by lia.
  assert (digits_ g = d * 2 ^ 60 + hexval sig * 16 ^ Z.of_nat (15 - k)) as Eg.
  { rewrite Hg. cbn [app hexval]. rewrite hexval_app, hexval_zeros, length_app, !length_replicate, Hk'.
    replace (k + (16 - S k))%nat with 15%nat by lia. replace (16 - S k)%nat with (15 - k)%nat by lia.
    change (16 ^ Z.of_nat 15) with (2 ^ 60). lia. }
  pose proof (hexval_bound sig Hds) as Hh. rewrite Hk' in Hh.
  assert (0 < 16 ^ Z.of_nat (15 - k)) as Hpos by lia.
  assert (hexval sig * 16 ^ Z.of_nat (15 - k) < 2 ^ 60) as Hup.
  { assert (16 ^ Z.of_nat k * 16 ^ Z.of_nat (15 - k) = 2 ^ 60) as <-; [|nia].
    rewrite <-Z.pow_add_r by lia. change (2 ^ 60) with (16 ^ 15). f_equal. lia. }
  pose proof (decval_bound sig Hds) as Hdv. rewrite Hk' in Hdv.
  pose proof (hexval_decval_zero sig Hds) as Hz.
  cbn [decval] in Hf. rewrite Hk', inject_Z_plus, inject_Z_mult, (pow10_S k) in Hf. fold (pow10 k) in Hf.
  pose proof (pow10_pos k) as Hp.
  assert (0 <= inject_Z (decval sig) /\ inject_Z (decval sig) + 1 <= pow10 k)%Q as [Hd0 Hd1].
  { split; [change 0%Q with (inject_Z 0); rewrite <-inject_Z_le; lia|].
    unfold pow10. change 1%Q with (inject_Z 1). rewrite <-inject_Z_plus, <-inject_Z_le. lia. }
  change 0x5000000000000000 with (5 * 2 ^ 60). rewrite Eg.
  destruct (Z.lt_trichotomy d 5) as [Hlt|[->|Hgt]].
  - assert ((f ?= 1 # 2)%Q = Lt) as ->; [|nia]. apply Qlt_alt.
    pose proof (proj1 (inject_Z_le d 4) ltac:(lia)) as H4. change (inject_Z 4) with 4%Q in H4.
    apply (half_lt _ _ _ Hp Hf). pose proof (mult_le_pos _ _ _ Hp H4). lra.
  - change (inject_Z 5) with 5%Q in Hf. destruct (decide (decval sig = 0)) as [E0|Hn0].
    + rewrite (proj2 Hz E0). rewrite E0 in Hf. change (inject_Z 0) with 0%Q in Hf. destruct (xbit_ g).
      * assert ((f ?= 1 # 2)%Q = Gt) as -> by (apply Qgt_alt, (half_gt _ _ _ Hp Hf); lra). right. split; [lia|done].
      * assert ((f ?= 1 # 2)%Q = Eq) as -> by (apply Qeq_alt, (half_eq _ _ _ Hp Hf); lra). split; [lia|done].
    + assert ((f ?= 1 # 2)%Q = Gt) as ->; [apply Qgt_alt|left; assert (0 < hexval sig) by lia; nia].
      pose proof (proj1 (inject_Z_le 1 (decval sig)) ltac:(lia)) as H1. change (inject_Z 1) with 1%Q in H1.
      apply (half_gt _ _ _ Hp Hf). lra.
  - assert ((f ?= 1 # 2)%Q = Gt) as ->; [apply Qgt_alt|left; nia].
    pose proof (proj1 (inject_Z_le 6 d) ltac:(lia)) as H6. change (inject_Z 6) with 6%Q in H6.
    apply (half_gt _ _ _ Hp Hf). pose proof (mult_le_pos _ _ _ Hp H6). lra.
Qed.

Lemma round_guards md g k f : guards g k f -> (0 < k)%nat \/ (f < 1 # 2)%Q ->
  round md g = round_frac md (sbit_ g) f.
Proof.
  intros Hg Hk. unfold round, round_frac. pose proof (guards_some g k f Hg) as Hs.
  destruct md; rewrite ?Hs; try done.
  destruct k as [|k].
  - destruct Hk as [?|Hk]; [lia|]. assert ((f ?= 1 # 2)%Q = Lt) as -> by (by apply Qlt_alt).
    destruct Hg as (sig & t & E & _ & _ & Hd & _). destruct sig; [|done]. cbn in Hd. by rewrite Hd.
  - pose proof (guards_half g k f Hg) as Hh. destruct (f ?= 1 # 2)%Q.
    + destruct Hh as [-> ->]. done.
    + rewrite (proj2 (Z.ltb_ge _ _)) by lia. by rewrite (proj2 (Z.ltb_lt _ _)) by lia.
    + destruct Hh as [Hh|[-> ->]]; [|done]. by rewrite (proj2 (Z.ltb_lt _ _)) by lia.
Qed.

(** * Rounding and normalization

    What [doRoundUp], [doRoundDown] and [doNormalize] (Number.cpp) make of an
    exact magnitude: a normal number close to it, on the side the rounding
    mode asks for. *)

(** ** Shapes *)

Abbreviation rmin s := (min (getMantissaRange s)).
Abbreviation rmax s := (max (getMantissaRange s)).

(** A mantissa that a normal number may have. *)
Definition fits (s : MantissaScale) (m : Z) : Prop :=
  rmin s <= m <= rmax s /\ (m <= kMaxRep \/ m mod 10 = 0).

(** A mantissa that becomes one by rounding it. *)
Definition almost (s : MantissaScale) (m : Z) : Prop :=
  rmin s <= 10 * m /\ m <= rmax s /\ m <= kMaxRep.

Record normal (s : MantissaScale) (x : Number) : Prop := {
  normal_fits : fits s (mantissa_ x);
  normal_exp : kMinExponent <= exponent_ x <= kMaxExponent
}.

Lemma scale_cases s :
  min (getMantissaRange s) = 10 ^ 15 /\ max (getMantissaRange s) = 10 ^ 16 - 1 /\ s = Small \/
  min (getMantissaRange s) = 10 ^ 18 /\ max (getMantissaRange s) = 10 ^ 19 - 1 /\ s <> Small.
Proof. destruct s; [left|right..]; by vm_compute. Qed.

Ltac scale_lia s :=
  let Hs := fresh in
  destruct (scale_cases s) as [(? & ? & Hs)|(? & ? & Hs)];
    try (exfalso; discriminate Hs); try (exfalso; exact (Hs eq_refl));
  unfold fits, almost, kMaxRep, kMinExponent, kMaxExponent, wrap, bits in *; lia.

Lemma number_eqb_spec x y : number_eqb x y = true <-> x = y.
Proof.
  unfold number_eqb. destruct x as [a b c], y as [a' b' c']; cbn.
  rewrite !andb_true_iff, eqb_true_iff, !Z.eqb_eq. naive_solver.
Qed.

Lemma isnormal_spec md s x : isnormal (mkEnv md s) x = true <-> x = kZero \/ normal s x.
Proof.
  unfold isnormal, range. cbn [kRange]. rewrite orb_true_iff, number_eqb_spec.
  rewrite !andb_true_iff, orb_true_iff, !Z.leb_le, Z.eqb_eq.
  split; (intros [?|Hn]; [by left|right]).
  - split; [split; [lia|tauto]|lia].
  - destruct Hn as [[? ?] ?]. tauto.
Qed.

Lemma normal_nonzero s x : normal s x -> x <> kZero.
Proof. intros [Hf _] ->. cbn in Hf. scale_lia s. Qed.

(** ** Bringing a rounded mantissa into range *)

Lemma bringIntoRange_spec s w negative m e :
  rmin s <= 10 * m -> m <= rmax s -> (m <= kMaxRep \/ m mod 10 = 0) ->
  let z := bringIntoRange w negative m e (rmin s) in
  (z = kZero /\ (if m <? rmin s then e - 1 else e) < kMinExponent) \/
  (negative_ z = negative /\ fits s (mantissa_ z) /\ kMinExponent <= exponent_ z /\
   (mantissa_ z = m /\ exponent_ z = e \/ mantissa_ z = 10 * m /\ exponent_ z = e - 1)).
Proof.
  intros Hlo Hhi Hrep z. unfold z, bringIntoRange. destruct (Z.ltb_spec m (rmin s)) as [Hm|Hm].
  - assert (wrap (bits w) (m * 10) = 10 * m) as ->.
    { rewrite wrap_small; [lia|]. destruct w; scale_lia s. }
    destruct (Z.ltb_spec (e - 1) kMinExponent); [left; split; [done|lia]|right].
    cbn. split_and!; [done| |lia|by right]. split; [scale_lia s|].
    right. rewrite Z.mul_comm. apply Z.mod_mul. lia.
  - destruct (Z.ltb_spec e kMinExponent); [left; split; [done|lia]|right].
    cbn. split_and!; [done| |lia|by left]. split; [lia|done].
Qed.

Lemma finishRound_spec s w negative m e loc :
  rmin s <= 10 * m -> m <= rmax s -> (m <= kMaxRep \/ m mod 10 = 0) ->
  match finishRound w negative m e (rmin s) loc with
  | Throw _ => kMaxExponent < (if m <? rmin s then e - 1 else e)
  | Ok z =>
      (z = kZero /\ (if m <? rmin s then e - 1 else e) < kMinExponent) \/
      (negative_ z = negative /\ normal s z /\
       (mantissa_ z = m /\ exponent_ z = e \/ mantissa_ z = 10 * m /\ exponent_ z = e - 1))
  end.
Proof.
  intros Hlo Hhi Hrep. unfold finishRound.
  destruct (bringIntoRange_spec s w negative m e Hlo Hhi Hrep) as [[-> He]|(Hn & Hf & He & Hc)].
  - by left.
  - set (z := bringIntoRange w negative m e (rmin s)) in *.
    destruct (Z.ltb_spec kMaxExponent (exponent_ z)) as [Hlt|].
    + unfold fits in Hf. destruct (Z.ltb_spec m (rmin s)); lia.
    + right. split_and!; [done| |done]. by split; [|lia].
Qed.

(** ** Dropping digits *)

Lemma doDropDigit_eq w g m e : 0 <= m < 2 ^ bits w ->
  doDropDigit w g m e = (push (m mod 10) g, m / 10, e + 1).
Proof. intros Hm. destruct w; [done|]. unfold doDropDigit. by rewrite divu10_divides. Qed.

(** The exact magnitude, in units of the mantissa. *)
Definition stands (g : Guard) (k : nat) (m : Z) (X : Q) : Prop := guards g k (X - inject_Z m).

Lemma stands_drop g k m X : stands g k m X ->
  stands (push (m mod 10) g) (Nat.min 16 (S k)) (m / 10) (X / 10).
Proof.
  intros Hs. unfold stands. pose proof (Z.div_mod m 10 ltac:(lia)) as Em.
  eapply guards_ext; [|apply (push_guards g k _ (m mod 10) Hs); by apply Z.mod_pos_bound].
  assert (inject_Z m == 10 * inject_Z (m / 10) + inject_Z (m mod 10))%Q as ->; [|field].
  change 10%Q with (inject_Z 10). rewrite <-inject_Z_mult, <-inject_Z_plus. by rewrite <-Em.
Qed.

Lemma push_sbit d g : sbit_ (push d g) = sbit_ g.
Proof. done. Qed.

Lemma stands_bounds g k m X : stands g k m X -> (inject_Z m <= X < inject_Z m + 1)%Q.
Proof. intros Hs. apply guards_range in Hs. lra. Qed.

(** ** Rounding up *)

Lemma doRoundUp_cases s w md g negative m e loc : almost s m ->
  exists m' e', doRoundUp 1 w md g negative m e (rmin s) (rmax s) (isCuspFixEnabled s) loc
      = finishRound w negative m' e' (rmin s) loc /\
    almost s m' /\
    (e' = e /\ m' = (if rounds md g m then m + 1 else m) \/
     e' = e + 1 /\ rounds md g m = true /\
       (s = Large /\ m = kMaxRep /\
          m' = (if rounds md (push 7 g) (m / 10) then m / 10 + 1 else m / 10) \/
        s <> Large /\ m' = (m + 1) / 10)).
Proof.
  intros Ha. cbn [doRoundUp].
  destruct (rounds md g m) eqn:Hr; [|exists m, e; split_and!; [done|done|by left]].
  destruct (decide (s = Large)) as [->|Hs].
  - cbn [isCuspFixEnabled]. destruct (Z.ltb_spec m (rmax Large)) as [Hm|Hm]; [|scale_lia Large].
    destruct (Z.ltb_spec m kMaxRep) as [Hm2|Hm2]; cbn [andb].
    { exists (m + 1), e. split_and!; [done|scale_lia Large|by left]. }
    assert (m = kMaxRep) as -> by scale_lia Large.
    rewrite doDropDigit_eq by (unfold kMaxRep, bits; destruct w; lia).
    assert (exists m2, kMaxRep / 10 = m2 /\ m2 = 922337203685477580 /\ kMaxRep mod 10 = 7)
      as (m2 & Em2 & Hm2c & Em7).
    { eexists. split_and!; [reflexivity|vm_compute; reflexivity|vm_compute; reflexivity]. }
    rewrite Em2, Em7.
    destruct (rounds md (push 7 g) m2) eqn:Hr2.
    + rewrite (proj2 (Z.ltb_lt m2 (rmax Large))) by scale_lia Large.
      rewrite (proj2 (Z.ltb_lt m2 kMaxRep)) by scale_lia Large. cbn [andb].
      exists (m2 + 1), (e + 1). split_and!; [done|scale_lia Large|]. right. split_and!; [done..|].
      left. by split_and!.
    + exists m2, (e + 1). split_and!; [done|scale_lia Large|]. right. split_and!; [done..|].
      left. by split_and!.
  - assert (isCuspFixEnabled s = false) as -> by by destruct s.
    rewrite wrap_small by (destruct w; scale_lia s).
    destruct ((rmax s <? m + 1) || (kMaxRep <? m + 1)) eqn:Hc.
    + exists ((m + 1) / 10), (e + 1). split_and!; [done| |right; split_and!; [done..|by right]].
      rewrite orb_true_iff, !Z.ltb_lt in Hc. pose proof (Z.div_mod (m + 1) 10 ltac:(lia)).
      pose proof (Z.mod_pos_bound (m + 1) 10 ltac:(lia)).
      assert (m + 1 = 10 ^ 16 \/ m + 1 = 2 ^ 63) as [E|E] by scale_lia s;
        rewrite E in *; [|change (2 ^ 63 / 10) with 922337203685477580]; scale_lia s.
    + exists (m + 1), e. split_and!; [done| |by left].
      rewrite orb_false_iff, !Z.ltb_ge in Hc. scale_lia s.
Qed.

Lemma almost_finish s m : almost s m -> rmin s <= 10 * m /\ m <= rmax s /\ (m <= kMaxRep \/ m mod 10 = 0).
Proof. unfold almost. tauto. Qed.

(** On every scale the result is zero or normal. *)
Lemma doRoundUp_normal s w md g negative m e loc z : almost s m ->
  doRoundUp 1 w md g negative m e (rmin s) (rmax s) (isCuspFixEnabled s) loc = Ok z ->
  z = kZero \/ normal s z.
Proof.
  intros Ha E. destruct (doRoundUp_cases s w md g negative m e loc Ha) as (m' & e' & E' & Ha' & _).
  rewrite E' in E. apply almost_finish in Ha' as (H1 & H2 & H3).
  pose proof (finishRound_spec s w negative m' e' loc H1 H2 H3) as Hf. rewrite E in Hf. tauto.
Qed.

(** ** Accuracy *)

(** Half a unit to nearest, a unit otherwise. *)
Definition tol (md : RoundingMode) : Q := match md with ToNearest => 1 # 2 | _ => 1 end.

(** The side of the magnitude [X] a rounded magnitude [Y] is on. *)
Definition side (md : RoundingMode) (neg : bool) (X Y : Q) : Prop :=
  match md with
  | ToNearest => True
  | TowardsZero => (Y <= X)%Q
  | Downward => if neg then (X <= Y)%Q else (Y <= X)%Q
  | Upward => if neg then (Y <= X)%Q else (X <= Y)%Q
  end.

Definition close (md : RoundingMode) (neg : bool) (unit X Y : Q) : Prop :=
  (- (tol md * unit) <= Y - X <= tol md * unit)%Q /\ side md neg X Y.

Lemma Qle_bool_cases x : (x <= 0)%Q /\ Qle_bool x 0 = true \/ (0 < x)%Q /\ Qle_bool x 0 = false.
Proof.
  destruct (Qlt_le_dec 0 x) as [Hx|Hx]; [right|left]; (split; [done|]).
  - by apply Qle_bool_false.
  - by apply Qle_bool_iff.
Qed.

Lemma rounds_cases md g k f m : guards g k f -> (0 < k)%nat \/ (f < 1 # 2)%Q ->
  let r := rounds md g m in
  match md with
  | ToNearest => (if r then 1 # 2 <= f else f <= 1 # 2)%Q
  | TowardsZero => r = false
  | Downward => if sbit_ g then if r then (0 < f)%Q else (f <= 0)%Q else r = false
  | Upward => if sbit_ g then r = false else if r then (0 < f)%Q else (f <= 0)%Q
  end.
Proof.
  intros Hg Hk. unfold rounds. rewrite (round_guards md g k f Hg Hk). unfold round_frac.
  destruct md; try done.
  - assert ((f == 1 # 2)%Q \/ (f < 1 # 2)%Q \/ (1 # 2 < f)%Q) as [E|[E|E]] by lra.
    + assert ((f ?= 1 # 2)%Q = Eq) as -> by (by apply Qeq_alt). cbn [Z.eqb orb andb].
      destruct (Z.land m 1 =? 1); lra.
    + assert ((f ?= 1 # 2)%Q = Lt) as -> by (by apply Qlt_alt). cbn. lra.
    + assert ((f ?= 1 # 2)%Q = Gt) as -> by (by apply Qgt_alt). cbn. lra.
  - destruct (sbit_ g); cbn [andb]; [|done]. destruct (Qle_bool_cases f) as [[Hf ->]|[Hf ->]]; cbn; lra.
  - destruct (sbit_ g); [done|]. destruct (Qle_bool_cases f) as [[Hf ->]|[Hf ->]]; cbn; lra.
Qed.

Lemma inject_Z_S m : (inject_Z (m + 1) == inject_Z m + 1)%Q.
Proof. by rewrite inject_Z_plus. Qed.
Lemma inject_Z_P m : (inject_Z (m - 1) == inject_Z m - 1)%Q.
Proof. unfold Z.sub. by rewrite inject_Z_plus. Qed.

Lemma rounds_up_close md g k m X : stands g k m X -> (0 < k)%nat \/ (X - inject_Z m < 1 # 2)%Q ->
  close md (sbit_ g) 1 X (inject_Z (if rounds md g m then m + 1 else m)).
Proof.
  intros Hs Hk. pose proof (rounds_cases md g k _ m Hs Hk) as Hr. pose proof (stands_bounds _ _ _ _ Hs) as Hb.
  cbn zeta in Hr. unfold close, side, tol.
  destruct md, (sbit_ g), (rounds _ g m); try done; rewrite ?inject_Z_S; lra.
Qed.

(** Rounding down: the digits dropped are those of the number subtracted. *)
Lemma rounds_down_close md g k m X neg : guards g k (inject_Z m - X) ->
  (0 < k)%nat \/ (inject_Z m - X < 1 # 2)%Q -> md <> TowardsZero ->
  (sbit_ g = negb neg \/ (inject_Z m == X)%Q) ->
  close md neg 1 X (inject_Z (if rounds md g m then m - 1 else m)).
Proof.
  intros Hs Hk Hmd Hsb. pose proof (rounds_cases md g k _ m Hs Hk) as Hr.
  pose proof (guards_range _ _ _ Hs) as Hb. cbn zeta in Hr. unfold close, side, tol.
  destruct Hsb as [E|E].
  - rewrite E in Hr. destruct md, neg, (rounds _ g m); cbn [negb] in Hr; try done; rewrite ?inject_Z_P; lra.
  - destruct md, neg, (sbit_ g), (rounds _ g m); try done; rewrite ?inject_Z_P; lra.
Qed.

Lemma close_scale md neg u X Y c : (0 < c)%Q -> close md neg u X Y -> close md neg (c * u) (c * X) (c * Y).
Proof.
  intros Hc [Hb Hs]. unfold close, side in *.
  assert (forall a b, a <= b -> c * a <= c * b)%Q as Hm.
  { intros a b Hab. rewrite !(Qmult_comm c). apply Qmult_le_compat_r; lra. }
  pose proof (Hm _ _ (proj1 Hb)) as H1. pose proof (Hm _ _ (proj2 Hb)) as H2. split; [lra|].
  destruct md, neg; auto.
Qed.

Lemma close_unit md neg u u' X Y : (u <= u')%Q -> close md neg u X Y -> close md neg u' X Y.
Proof.
  intros Hu [Hb Hs]. split; [|done]. unfold tol in *. destruct md; lra.
Qed.

Lemma close_ext md neg u u' X X' Y Y' : (u == u')%Q -> (X == X')%Q -> (Y == Y')%Q ->
  close md neg u X Y -> close md neg u' X' Y'.
Proof.
  intros Eu EX EY [Hb Hs]. split; [rewrite <-Eu, <-EX, <-EY; done|].
  unfold side in *. destruct md, neg; rewrite <-?EX, <-?EY; done.
Qed.

(** ** Powers of ten *)

Definition p10 (e : Z) : Q := Qpower 10 e.

Lemma p10_plus a b : (p10 (a + b) == p10 a * p10 b)%Q.
Proof. unfold p10. by apply Qpower_plus. Qed.
Lemma p10_pos e : (0 < p10 e)%Q.
Proof. unfold p10. by apply Qpower_0_lt. Qed.
Lemma p10_S e : (p10 (e + 1) == 10 * p10 e)%Q.
Proof. rewrite p10_plus. change (p10 1) with 10%Q. ring. Qed.
Lemma p10_P e : (10 * p10 (e - 1) == p10 e)%Q.
Proof. rewrite <-p10_S. by replace (e - 1 + 1) with e by lia. Qed.
Lemma p10_Z k : 0 <= k -> (p10 k == inject_Z (10 ^ k))%Q.
Proof. intros Hk. symmetry. exact (Zpower_Qpower 10 k Hk). Qed.
Lemma p10_le a b : a <= b -> (p10 a <= p10 b)%Q.
Proof.
  intros Hab. replace b with (a + (b - a)) by lia. rewrite p10_plus, (p10_Z (b - a)) by lia.
  pose proof (p10_pos a). assert (1 <= inject_Z (10 ^ (b - a)))%Q; [|nra].
  change 1%Q with (inject_Z 1). rewrite <-inject_Z_le. lia.
Qed.

(** The magnitude and the value of a number. *)
Definition mag (x : Number) : Q := (inject_Z (mantissa_ x) * p10 (exponent_ x))%Q.
Definition val (x : Number) : Q := if negative_ x then (- mag x)%Q else mag x.

(** The smallest positive normal number. *)
Definition smallest : Q := (inject_Z (10 ^ 18) * p10 kMinExponent)%Q.

(** One unit of a mantissa of eighteen digits, relative to the magnitude. *)
Definition ulp (X : Q) : Q := (X / inject_Z (9 * 10 ^ 17))%Q.

(** What a correctly rounded result of exact magnitude [X] is: zero below the
    smallest number, otherwise close to [X] on the right side of it. *)
Definition rounded (md : RoundingMode) (neg : bool) (X : Q) (z : Number) : Prop :=
  z = kZero /\ (X < smallest)%Q \/
  normal Large z /\ negative_ z = neg /\ close md neg (ulp X) X (mag z).

(** Overflow is reported close to the largest number or above. *)
Definition largest : Q := (inject_Z (9 * 10 ^ 18) * p10 kMaxExponent)%Q.

Definition outcome (md : RoundingMode) (neg : bool) (X : Q) (r : result Number) : Prop :=
  match r with Ok z => rounded md neg X z | Throw _ => (largest <= X)%Q end.

Lemma ulp_ge (c : Z) X : (inject_Z (c * (9 * 10 ^ 17)) <= X)%Q -> (inject_Z c <= ulp X)%Q.
Proof.
  intros Hx. unfold ulp. apply Qle_shift_div_l; [by vm_compute|]. by rewrite <-inject_Z_mult.
Qed.
Lemma ulp_mult c X : (c * ulp X == ulp (c * X))%Q.
Proof. unfold ulp. field. by vm_compute. Qed.

#[global] Opaque p10.

Lemma inject_le a X b : (X <= inject_Z a)%Q -> a <= b -> (X <= inject_Z b)%Q.
Proof. intros Hx Hab. apply inject_Z_le in Hab. lra. Qed.

Lemma below_smallest X e (a b : Z) : (0 <= X)%Q -> (X < inject_Z a)%Q ->
  a <= 10 ^ 18 /\ e <= kMinExponent \/ a <= 10 ^ 19 /\ e < kMinExponent ->
  (X * p10 e < smallest)%Q.
Proof.
  intros HX0 HX Hc. unfold smallest. pose proof (p10_pos e) as Hp.
  assert (forall m d, (X < m)%Q -> (0 < d)%Q -> (p10 e <= d)%Q -> (X * p10 e < m * d)%Q) as Hm.
  { intros m d Hm Hd Hle. apply (Qlt_le_trans _ (m * p10 e)); [by apply Qmult_lt_r|].
    rewrite !(Qmult_comm m). apply Qmult_le_compat_r; lra. }
  destruct Hc as [[Ha He]|[Ha He]]; apply inject_Z_le in Ha.
  - apply Hm; [lra|apply p10_pos|by apply p10_le].
  - rewrite <-(p10_P kMinExponent). change (10 ^ 19) with (10 ^ 18 * 10) in Ha.
    rewrite inject_Z_mult in Ha. change (inject_Z 10) with 10%Q in Ha.
    rewrite Qmult_assoc. apply Hm; [lra|apply p10_pos|apply p10_le; lia].
Qed.

Lemma above_largest X e (a : Z) (j : nat) : (inject_Z a <= X)%Q -> 0 <= a ->
  9 * 10 ^ 18 <= a * 10 ^ Z.of_nat j -> kMaxExponent + Z.of_nat j <= e -> (largest <= X * p10 e)%Q.
Proof.
  intros HX Ha Hj He. unfold largest. pose proof (p10_pos kMaxExponent) as Hp.
  apply (Qle_trans _ (inject_Z a * p10 (kMaxExponent + Z.of_nat j))).
  - rewrite (Z.add_comm kMaxExponent), p10_plus, (p10_Z (Z.of_nat j)), Qmult_assoc, <-inject_Z_mult by lia.
    apply Qmult_le_compat_r; [by rewrite <-inject_Z_le|lra].
  - apply (Qle_trans _ (X * p10 (kMaxExponent + Z.of_nat j))).
    + apply Qmult_le_compat_r; [done|]. pose proof (p10_pos (kMaxExponent + Z.of_nat j)). lra.
    + rewrite !(Qmult_comm X). apply Qmult_le_compat_r; [by apply p10_le|].
      apply inject_Z_le in Ha. change (inject_Z 0) with 0%Q in Ha. lra.
Qed.

(** The result of [finishRound] has the magnitude it was given. *)
Lemma finish_mag (m e : Z) z :
  mantissa_ z = m /\ exponent_ z = e \/ mantissa_ z = 10 * m /\ exponent_ z = e - 1 ->
  (mag z == inject_Z m * p10 e)%Q.
Proof.
  unfold mag. intros [[-> ->]|[-> ->]]; [reflexivity|].
  rewrite inject_Z_mult, <-(p10_P e). change (inject_Z 10) with 10%Q. ring.
Qed.

Lemma close_finish md neg X m e z : (0 <= X)%Q -> (inject_Z 1 <= ulp X)%Q ->
  close md neg 1 X (inject_Z m) -> (mag z == inject_Z m * p10 e)%Q ->
  close md neg (ulp (X * p10 e)) (X * p10 e) (mag z).
Proof.
  intros HX Hu Hc Hz. apply (close_unit _ _ _ (ulp X)) in Hc; [|exact Hu].
  apply (close_scale _ _ _ _ _ (p10 e)) in Hc; [|apply p10_pos].
  eapply close_ext; [..|exact Hc]; [unfold ulp; field; by vm_compute|ring|rewrite Hz; ring].
Qed.

(** At the largest mantissa one digit less is kept. *)
Lemma cusp_close md g k m' e X z : stands g k kMaxRep X -> (0 <= X)%Q ->
  m' = (if rounds md (push 7 g) (kMaxRep / 10) then kMaxRep / 10 + 1 else kMaxRep / 10) ->
  mantissa_ z = m' /\ exponent_ z = e + 1 \/ mantissa_ z = 10 * m' /\ exponent_ z = e + 1 - 1 ->
  close md (sbit_ g) (ulp (X * p10 e)) (X * p10 e) (mag z).
Proof.
  intros Hs HX0 Em Hval. pose proof (stands_bounds _ _ _ _ Hs) as Hb.
  assert (stands (push 7 g) (Nat.min 16 (S k)) (kMaxRep / 10) (X / 10)) as Hs' by apply (stands_drop _ _ _ _ Hs).
  assert (close md (sbit_ g) 1 (X / 10) (inject_Z m')) as Hcl.
  { rewrite Em, <-(push_sbit 7 g). eapply rounds_up_close; [exact Hs'|left; lia]. }
  eapply close_ext; [| |reflexivity|eapply (close_finish md _ (X / 10) m' (e + 1) z)].
  - unfold ulp. rewrite p10_S. field. by vm_compute.
  - rewrite p10_S. field.
  - apply Qle_shift_div_l; lra.
  - apply ulp_ge, Qle_shift_div_l; [lra|].
    pose proof (proj1 (inject_Z_le (9 * 10 ^ 18) kMaxRep) ltac:(unfold kMaxRep; lia)) as Hk2.
    change (9 * 10 ^ 18) with (10 * (1 * (9 * 10 ^ 17))) in Hk2. rewrite inject_Z_mult in Hk2.
    change (inject_Z 10) with 10%Q in Hk2. lra.
  - exact Hcl.
  - by apply finish_mag.
Qed.

(** On the scale with the rounding fix, [doRoundUp] rounds as the mode asks. *)
Lemma doRoundUp_outcome w md g k m e X loc : almost Large m -> 9 * 10 ^ 17 <= m ->
  stands g k m X -> (0 < k)%nat \/ (X - inject_Z m < 1 # 2)%Q ->
  outcome md (sbit_ g) (X * p10 e)
    (doRoundUp 1 w md g (sbit_ g) m e (rmin Large) (rmax Large) true loc).
Proof.
  intros Ha Hm Hs Hk. pose proof (stands_bounds _ _ _ _ Hs) as Hb.
  assert (0 <= X)%Q as HX0.
  { pose proof (proj1 (inject_Z_le 0 m) ltac:(lia)) as H0. change (inject_Z 0) with 0%Q in H0. lra. }
  destruct (doRoundUp_cases Large w md g (sbit_ g) m e loc Ha) as (m' & e' & E' & Ha' & Hc).
  cbn [isCuspFixEnabled] in E'. rewrite E'. clear E'.
  pose proof (almost_finish _ _ Ha') as (Hf1 & Hf2 & Hf3).
  pose proof (finishRound_spec Large w (sbit_ g) m' e' loc Hf1 Hf2 Hf3) as Hf.
  destruct (finishRound w (sbit_ g) m' e' (rmin Large) loc) as [z|msg]; cbn [outcome].
  2: { clear -Hf Hc Hb Hm. destruct Hc as [[-> Em]|(-> & _ & [(_ & -> & Em)|[Hl _]])]; [..|done].
    - apply (above_largest _ _ m (if m' <? rmin Large then 2 else 1)); [lra|lia|..];
        destruct (Z.ltb_spec m' (rmin Large)); destruct (rounds md g m); scale_lia Large.
    - apply (above_largest _ _ kMaxRep 0); [lra|unfold kMaxRep; lia..|].
      destruct (Z.ltb_spec m' (rmin Large)); lia. }
  destruct Hc as [[-> Em]|(-> & Hr & [(_ & -> & Em)|[Hl _]])]; [..|done].
  - destruct Hf as [[-> He]|(Hn & Hnorm & Hval)]; [left; split; [done|]|right; split_and!; [done..|]].
    + apply (below_smallest _ _ (m + 1) 0); [done|rewrite inject_Z_S; lra|].
      destruct (Z.ltb_spec m' (rmin Large)); destruct (rounds md g m); scale_lia Large.
    + apply (close_finish _ _ _ m'); [done| |rewrite Em; by eapply rounds_up_close|by apply finish_mag].
      apply ulp_ge. apply inject_Z_le in Hm. change (1 * (9 * 10 ^ 17)) with (9 * 10 ^ 17). lra.
  - destruct Hf as [[-> He]|(Hn & Hnorm & Hval)]; [left; split; [done|]|right; split_and!; [done..|]].
    + apply (below_smallest _ _ (kMaxRep + 1) 0); [done|rewrite inject_Z_S; lra|].
      destruct (Z.ltb_spec m' (rmin Large)); scale_lia Large.
    + by eapply cusp_close.
Qed.

(** ** Rounding down *)

(** The mantissas a subtraction leaves: with all their digits, or as many as
    fit. *)
Definition regrown (s : MantissaScale) (m : Z) : Prop :=
  (rmin s <= m \/ kMaxRep < 10 * m) /\ m <= rmax s /\ m <= kMaxRep.

Lemma doRoundDown_cases s w md g negative m e : regrown s m ->
  let m' := if rounds md g m then m - 1 else m in
  let z := doRoundDown w md g negative m e (rmin s) in
  (z = kZero /\ (if m' <? rmin s then e - 1 else e) < kMinExponent) \/
  (negative_ z = negative /\ fits s (mantissa_ z) /\ kMinExponent <= exponent_ z <= e /\
   (mantissa_ z = m' /\ exponent_ z = e \/ mantissa_ z = 10 * m' /\ exponent_ z = e - 1)).
Proof.
  intros Hm m' z.
  assert (rmin s <= 10 * m' /\ m' <= rmax s /\ m' <= kMaxRep) as (H1 & H2 & H3).
  { unfold regrown, m' in *. destruct (rounds md g m); scale_lia s. }
  assert (z = bringIntoRange w negative m' e (rmin s)) as ->.
  { unfold z, doRoundDown, m'. destruct (rounds md g m) eqn:Hr; [|done].
    rewrite (wrap_small (bits w) (m - 1)) by (unfold regrown in Hm; destruct w; scale_lia s).
    unfold m' in *. destruct (Z.ltb_spec (m - 1) (rmin s)) as [Hlt|Hge]; [|done].
    unfold bringIntoRange. rewrite (proj2 (Z.ltb_lt (m - 1) (rmin s))) by done.
    assert (wrap (bits w) ((m - 1) * 10) = (m - 1) * 10) as -> by (rewrite wrap_small; [done|destruct w; scale_lia s]).
    by rewrite (proj2 (Z.ltb_ge ((m - 1) * 10) (rmin s))) by lia. }
  destruct (bringIntoRange_spec s w negative m' e H1 H2 (or_introl H3)) as [Hz|(Hn & Hf & He & Hc)]; [by left|].
  right. split_and!; try done. lia.
Qed.

Lemma doRoundDown_normal s w md g negative m e z : regrown s m -> e <= kMaxExponent ->
  doRoundDown w md g negative m e (rmin s) = z -> z = kZero \/ normal s z.
Proof.
  intros Hm He <-. destruct (doRoundDown_cases s w md g negative m e Hm) as [[-> _]|(_ & Hf & Hx & _)]; [by left|].
  right. split; [done|lia].
Qed.

Lemma doRoundDown_rounded w md g k m e X neg z : regrown Large m -> e <= kMaxExponent ->
  guards g k (inject_Z m - X) -> (0 < k)%nat \/ (inject_Z m - X < 1 # 2)%Q -> md <> TowardsZero ->
  (sbit_ g = negb neg \/ (inject_Z m == X)%Q) ->
  doRoundDown w md g neg m e (rmin Large) = z ->
  rounded md neg (X * p10 e) z.
Proof.
  intros Hm He Hg Hk Hmd Hsb <-. pose proof (guards_range _ _ _ Hg) as Hb.
  assert (922337203685477581 <= m) as Hlo by (unfold regrown in Hm; scale_lia Large).
  pose proof (proj1 (inject_Z_le _ _) Hlo) as Hlo'.
  assert (inject_Z (9 * 10 ^ 17) <= X)%Q as HX.
  { pose proof (proj1 (inject_Z_le (9 * 10 ^ 17) (922337203685477581 - 1)) ltac:(lia)) as H9.
    rewrite inject_Z_P in H9. lra. }
  assert (0 <= X)%Q as HX0. { pose proof (proj1 (inject_Z_le 0 (9 * 10 ^ 17)) ltac:(lia)) as H0. change (inject_Z 0) with 0%Q in H0. lra. }
  pose proof (rounds_down_close md g k m X neg Hg Hk Hmd Hsb) as Hcl.
  pose proof (rounds_cases md g k _ m Hg Hk) as Hr. cbn zeta in Hr.
  destruct (doRoundDown_cases Large w md g neg m e Hm) as [[-> Hz]|(Hn & Hf & Hx & Hc)].
  - left. split; [done|]. destruct (rounds md g m) eqn:Er.
    + apply (below_smallest _ _ m 0); [done| |unfold regrown in Hm; destruct (Z.ltb_spec (m - 1) (rmin Large)); scale_lia Large].
      destruct md, (sbit_ g); try done; lra.
    + apply (below_smallest _ _ (m + 1) 0); [done|rewrite inject_Z_S; lra|].
      unfold regrown in Hm. destruct (Z.ltb_spec m (rmin Large)); scale_lia Large.
  - right. split_and!; [split; [done|lia]|done|].
    eapply close_finish; [done| |exact Hcl|by apply finish_mag].
    apply ulp_ge. change (1 * (9 * 10 ^ 17)) with (9 * 10 ^ 17). done.
Qed.
