(* ===== verification/NumberOps.v ===== *)
(** * The arithmetic of numbers

    Normalization, addition, multiplication and division of [Number]
    (Number.cpp): on every scale the results are normal numbers, and on the
    scale with the rounding fix they are the exact results rounded. *)

From Stdlib Require Import QArith Qabs Qpower Lqa Qfield.
From S2P Require Import Prelude Number NumberSpec.
Open Scope Z_scope.

Lemma normal_eqb s x : normal s x -> number_eqb x kZero = false.
Proof. intros Hn. apply not_true_iff_false. rewrite number_eqb_spec. by eapply normal_nonzero. Qed.

(** ** Normalizing normal numbers *)

Lemma rounds_zero md g k f m : guards g k f -> (f == 0)%Q -> rounds md g m = false.
Proof.
  intros Hg Hz. pose proof (rounds_cases md g k f m Hg ltac:(right; lra)) as Hr. cbn zeta in Hr.
  destruct md, (sbit_ g), (rounds _ g m); try done; lra.
Qed.

Lemma doRoundUp_exact w md g negative m e mn mx cusp loc fuel : rounds md g m = false ->
  doRoundUp fuel w md g negative m e mn mx cusp loc = finishRound w negative m e mn loc.
Proof. intros Hr. destruct fuel; cbn [doRoundUp]; by rewrite Hr. Qed.

Lemma grow_done fuel w mn m e : mn <= m -> grow fuel w mn m e = (m, e).
Proof. intros Hm. destruct fuel; [done|]. cbn [grow]. by rewrite (proj2 (Z.ltb_ge m mn)). Qed.
Lemma shrink_done fuel w mx g m e : m <= mx -> shrink (S fuel) w mx g m e = Ok (g, m, e).
Proof. intros Hm. cbn [shrink]. by rewrite (proj2 (Z.ltb_ge mx m)). Qed.

Lemma finishRound_id w s neg m e loc : rmin s <= m -> kMinExponent <= e <= kMaxExponent ->
  finishRound w neg m e (rmin s) loc = Ok (mkNumber neg m e).
Proof.
  intros Hm He. unfold finishRound, bringIntoRange. rewrite (proj2 (Z.ltb_ge m (rmin s))) by lia.
  rewrite (proj2 (Z.ltb_ge e kMinExponent)) by lia. cbn [exponent_].
  by rewrite (proj2 (Z.ltb_ge kMaxExponent e)) by lia.
Qed.

Lemma normalize_range md s (neg : bool) m e : rmin s <= m <= rmax s -> kMinExponent <= e ->
  let g := if neg then setNegative newGuard else newGuard in
  normalize (mkEnv md s) (mkNumber neg m e) =
  if kMaxRep <? m then
    if kMaxExponent <=? e then Throw "Number::normalize 1.5"
    else doRoundUp 1 U64 md (push (m mod 10) g) neg (m / 10) (e + 1) (rmin s) (rmax s)
           (isCuspFixEnabled s) "Number::normalize 2"
  else doRoundUp 1 U64 md g neg m e (rmin s) (rmax s) (isCuspFixEnabled s) "Number::normalize 2".
Proof.
  intros Hm He g. unfold normalize, range, doNormalize. cbn [mantissa_ exponent_ negative_ kRange mode].
  rewrite (proj2 (Z.eqb_neq m 0)) by scale_lia s. rewrite grow_done by lia. cbn beta iota zeta.
  rewrite shrink_done by lia. cbn [mbind result_bind].
  rewrite (proj2 (Z.ltb_ge e kMinExponent)), (proj2 (Z.ltb_ge m (rmin s))) by lia. cbn [orb].
  destruct (kMaxRep <? m); [|done]. by destruct (kMaxExponent <=? e).
Qed.

Lemma normalize_normal md s x : normal s x ->
  normalize (mkEnv md s) x =
  if (kMaxRep <? mantissa_ x) && (kMaxExponent <=? exponent_ x) then Throw "Number::normalize 1.5"
  else Ok x.
Proof.
  intros [Hf He]. destruct x as [neg m e]. cbn [mantissa_ exponent_] in *.
  assert (rmin s <= m <= rmax s) as Hm by (unfold fits in Hf; tauto).
  rewrite normalize_range by lia. pose proof (newGuard_guards neg) as Hg.
  destruct (Z.ltb_spec kMaxRep m) as [Hbig|Hsmall]; cbn [andb].
  - destruct (Z.leb_spec kMaxExponent e); [done|].
    assert (m mod 10 = 0) as Hmod by (destruct Hf as [_ [?|?]]; lia).
    pose proof (push_guards _ _ _ 0 Hg ltac:(lia)) as Hg'. rewrite Hmod.
    rewrite doRoundUp_exact; [|eapply rounds_zero; [exact Hg'|reflexivity]].
    assert (m = m / 10 * 10) as Em by (pose proof (Z.div_mod m 10 ltac:(lia)); lia).
    unfold finishRound, bringIntoRange.
    rewrite (proj2 (Z.ltb_lt (m / 10) (rmin s))) by scale_lia s.
    rewrite <-Em, wrap_small by scale_lia s.
    replace (e + 1 - 1) with e by lia. rewrite (proj2 (Z.ltb_ge e kMinExponent)) by lia. cbn [exponent_].
    by rewrite (proj2 (Z.ltb_ge kMaxExponent e)) by lia.
  - rewrite doRoundUp_exact; [|eapply rounds_zero; [exact Hg|reflexivity]].
    apply finishRound_id; [lia|done].
Qed.

Lemma normalize_zero env : normalize env kZero = Ok kZero.
Proof. done. Qed.

Lemma normalize_closed md s x z : x = kZero \/ normal s x ->
  normalize (mkEnv md s) x = Ok z -> z = x.
Proof.
  intros [->|Hn]; [rewrite normalize_zero; congruence|]. rewrite (normalize_normal md s x Hn).
  case_match; congruence.
Qed.

Lemma narrow_normal s x : x = kZero \/ normal s x ->
  mkNumber (negative_ x) (wrap 64 (mantissa_ x)) (exponent_ x) = x.
Proof.
  intros [->|[Hf _]]; [done|]. rewrite wrap_small; [by destruct x|]. unfold fits in Hf. scale_lia s.
Qed.

Lemma ulp_times X : (inject_Z (9 * 10 ^ 17) * ulp X == X)%Q.
Proof. unfold ulp. field. by vm_compute. Qed.

Lemma rounded_normal md neg X z : rounded md neg X z -> z = kZero \/ normal Large z.
Proof. intros [[-> _]|[? _]]; auto. Qed.

Lemma rounded_normalize md neg X z : rounded md neg X z ->
  outcome md neg X (normalize (mkEnv md Large) z).
Proof.
  intros Hr. pose proof Hr as [[-> _]|(Hn & _ & [Hc _])]; [by rewrite normalize_zero|].
  rewrite (normalize_normal md Large z Hn).
  destruct (Z.ltb_spec kMaxRep (mantissa_ z)) as [Hm|]; cbn [andb]; [|exact Hr].
  destruct (Z.leb_spec kMaxExponent (exponent_ z)) as [He|]; [|exact Hr]. cbn [outcome].
  assert (inject_Z (kMaxRep + 1) * p10 kMaxExponent <= mag z)%Q as Hz.
  { unfold mag. replace (exponent_ z) with kMaxExponent by (destruct Hn as [_ ?]; lia).
    apply mult_le_pos; [apply p10_pos|rewrite <-inject_Z_le; lia]. }
  unfold largest. pose proof (p10_pos kMaxExponent) as Hp. set (P := p10 kMaxExponent) in *.
  pose proof (ulp_times X) as Hu. set (u := ulp X) in *.
  destruct (Qlt_le_dec X (inject_Z (9 * 10 ^ 18) * P)) as [Hlt|]; [exfalso|done].
  change (inject_Z (kMaxRep + 1)) with (9223372036854775808 # 1)%Q in Hz.
  change (inject_Z (9 * 10 ^ 18)) with (9000000000000000000 # 1)%Q in Hlt.
  change (inject_Z (9 * 10 ^ 17)) with (900000000000000000 # 1)%Q in Hu.
  unfold tol in Hc. destruct md; lra.
Qed.

Lemma outcome_ext md neg X X' r : (X == X')%Q -> outcome md neg X r -> outcome md neg X' r.
Proof.
  intros E. destruct r as [z|msg]; cbn [outcome]; [|by rewrite E].
  intros [[-> HX]|(Hn & Hneg & Hc)]; [left; by rewrite <-E|right; split_and!; [done..|]].
  eapply close_ext; [|exact E|reflexivity|exact Hc]. unfold ulp. by rewrite E.
Qed.

Lemma outcome_bind md neg X r : outcome md neg X r ->
  outcome md neg X (r ≫= normalize (mkEnv md Large)).
Proof. destruct r as [z|msg]; [|done]. apply rounded_normalize. Qed.

Lemma bind_closed md s (r : result Number) z :
  (forall y, r = Ok y -> y = kZero \/ normal s y) ->
  r ≫= normalize (mkEnv md s) = Ok z -> z = kZero \/ normal s z.
Proof.
  intros Hr E. destruct r as [y|msg]; [|done]. cbn in E.
  rewrite (normalize_closed md s y z); auto.
Qed.

(** ** Dropping digits until the mantissa fits *)

(** The same magnitude with its digits split elsewhere. *)
Definition shifted (g : Guard) (k : nat) (m e : Z) (X : Q) : Prop :=
  0 <= m /\ exists X', stands g k m X' /\ (X' * p10 e == X)%Q.

Lemma shifted_drop g k m e X : shifted g k m e X ->
  shifted (push (m mod 10) g) (Nat.min 16 (S k)) (m / 10) (e + 1) X.
Proof.
  intros (Hm & X' & Hs & E). split; [by apply Z.div_pos|]. exists (X' / 10)%Q.
  split; [by apply stands_drop|]. rewrite p10_S, <-E. field.
Qed.

Lemma reduce_spec s fuel g k m e X : shifted g k m e X -> m < 2 ^ 128 -> m < 10 ^ Z.of_nat fuel ->
  let '(g', m', e') := reduce fuel (rmax s) g m e in
  exists k', shifted g' k' m' e' X /\ sbit_ g' = sbit_ g /\ m' <= rmax s /\ m' <= kMaxRep /\
    (g' = g /\ k' = k /\ m' = m /\ e' = e \/
     (0 < k')%nat /\ exists p, m' = p / 10 /\ (rmax s < p \/ kMaxRep < p)).
Proof.
  revert g k m e. induction fuel as [|fuel IH]; intros g k m e Hs Hm Hf; cbn [reduce].
  - exists k. destruct Hs as [H0 Hs]. change (10 ^ Z.of_nat 0) with 1 in Hf.
    split_and!; [by split|done|scale_lia s|scale_lia s|by left].
  - destruct ((rmax s <? m) || (kMaxRep <? m)) eqn:Hc.
    + rewrite doDropDigit_eq by (destruct Hs; unfold bits; lia).
      rewrite orb_true_iff, !Z.ltb_lt in Hc. rewrite pow_S in Hf.
      specialize (IH (push (m mod 10) g) (Nat.min 16 (S k)) (m / 10) (e + 1) (shifted_drop _ _ _ _ _ Hs)
        ltac:(apply Z.div_lt_upper_bound; lia) ltac:(apply Z.div_lt_upper_bound; lia)).
      destruct (reduce fuel _ _ _ _) as [[g' m'] e']. destruct IH as (k' & Hs' & Hb & H1 & H2 & Hc').
      exists k'. split_and!; try done. right.
      destruct Hc' as [(-> & -> & -> & ->)|Hc']; [|done]. split; [lia|]. eauto.
    + exists k. rewrite orb_false_iff, !Z.ltb_ge in Hc. destruct Hc.
      split_and!; [done..|by left].
Qed.

(** ** Multiplication *)

Section mul.
Context (md : RoundingMode) (s : MantissaScale) (x y : Number).
Hypotheses (Hx : normal s x) (Hy : normal s y).

Lemma mul_bounds : 10 ^ 30 <= mantissa_ x * mantissa_ y < 10 ^ 38.
Proof using All.
  destruct Hx as [[Hx1 _] _], Hy as [[Hy1 _] _].
  split; [change (10 ^ 30) with (10 ^ 15 * 10 ^ 15); apply Z.mul_le_mono_nonneg; scale_lia s|].
  apply (Z.le_lt_trans _ (rmax s * rmax s)); [apply Z.mul_le_mono_nonneg; scale_lia s|].
  destruct (scale_cases s) as [(_ & -> & _)|(_ & -> & _)]; lia.
Qed.

(** What the product becomes before it is rounded. *)
Lemma mul_reduced : exists g k m e loc, let neg := negb (Bool.eqb (negative_ x) (negative_ y)) in
  mul (mkEnv md s) x y =
    (doRoundUp 1 U64 md g neg m e (rmin s) (rmax s) (isCuspFixEnabled s) loc
      ≫= normalize (mkEnv md s)) /\
  sbit_ g = neg /\ (0 < k)%nat /\ shifted g k m e (mag x * mag y) /\ almost s m /\
  (s = Large -> 9 * 10 ^ 17 <= m).
Proof using All.
  set (neg := negb (Bool.eqb (negative_ x) (negative_ y))). pose proof mul_bounds as Hb.
  unfold mul. rewrite !(normal_eqb s) by done. fold neg. rewrite wrap_small by lia.
  set (g0 := if neg then setNegative newGuard else newGuard).
  assert (shifted g0 0 (mantissa_ x * mantissa_ y) (exponent_ x + exponent_ y) (mag x * mag y)) as Hs0.
  { split; [scale_lia s|]. exists (inject_Z (mantissa_ x * mantissa_ y)).
    split; [eapply guards_ext; [|apply newGuard_guards]; ring|].
    unfold mag. rewrite inject_Z_mult, p10_plus. ring. }
  pose proof (reduce_spec s 40 _ _ _ _ _ Hs0 ltac:(lia) ltac:(change (Z.of_nat 40) with 40; lia)) as Hr.
  unfold range. cbn [kRange mode].
  destruct (reduce 40 (rmax s) g0 _ _) as [[g m] e]. destruct Hr as (k & Hs & Hsb & H1 & H2 & Hc).
  destruct Hc as [(-> & -> & -> & ->)|(Hk & p & -> & Hp)]; [scale_lia s|].
  eexists g, k, (p / 10), e, _. split_and!; [|rewrite Hsb; unfold g0; by destruct neg|done..| |].
  - rewrite wrap_small by (destruct Hs; unfold kMaxRep in *; lia). done.
  - pose proof (Z.div_mod p 10 ltac:(lia)). pose proof (Z.mod_pos_bound p 10 ltac:(lia)). scale_lia s.
  - intros ->. pose proof (Z.div_mod p 10 ltac:(lia)). pose proof (Z.mod_pos_bound p 10 ltac:(lia)). scale_lia Large.
Qed.

Lemma mul_closed z : mul (mkEnv md s) x y = Ok z -> z = kZero \/ normal s z.
Proof using All.
  destruct mul_reduced as (g & k & m & e & loc & -> & _ & _ & _ & Ha & _).
  apply bind_closed. intros z'. by apply doRoundUp_normal.
Qed.
End mul.

Lemma mul_outcome md x y : normal Large x -> normal Large y ->
  outcome md (negb (Bool.eqb (negative_ x) (negative_ y))) (mag x * mag y) (mul (mkEnv md Large) x y).
Proof.
  intros Hx Hy. destruct (mul_reduced md Large x y Hx Hy) as (g & k & m & e & loc & -> & Hsb & Hk & (_ & X & Hs & E) & Ha & Hm).
  apply outcome_bind. rewrite <-Hsb. eapply outcome_ext; [exact E|].
  eapply doRoundUp_outcome; eauto.
Qed.

(** ** Normalizing any mantissa *)

Lemma grow_spec s fuel w m e : 0 < m < 2 ^ bits w -> rmin s <= m * 10 ^ Z.of_nat fuel ->
  exists j : nat, grow fuel w (rmin s) m e = (m * 10 ^ Z.of_nat j, e - Z.of_nat j) /\
    (j = O \/ m * 10 ^ Z.of_nat j < 10 * rmin s) /\
    (rmin s <= m * 10 ^ Z.of_nat j \/ m * 10 ^ Z.of_nat j < rmin s /\ e - Z.of_nat j <= kMinExponent) /\
    (forall c : nat, rmin s <= m * 10 ^ Z.of_nat c -> (j <= c)%nat).
Proof.
  revert m e. induction fuel as [|fuel IH]; intros m e Hm Hf; cbn [grow].
  - exists O. change (10 ^ Z.of_nat 0) with 1 in *. rewrite !Z.mul_1_r, Z.sub_0_r in *.
    split_and!; [done|by left|by left|lia].
  - destruct (Z.ltb_spec m (rmin s)) as [Hlt|Hge]; cbn [andb].
    2: { exists O. change (10 ^ Z.of_nat 0) with 1. rewrite !Z.mul_1_r, Z.sub_0_r.
         split_and!; [done|by left|by left|lia]. }
    destruct (Z.ltb_spec kMinExponent e).
    2: { exists O. change (10 ^ Z.of_nat 0) with 1. rewrite !Z.mul_1_r, Z.sub_0_r.
         split_and!; [done|by left|by right|lia]. }
    assert (10 * rmin s < 2 ^ bits w) as Hw by (destruct w; scale_lia s).
    rewrite wrap_small by lia. rewrite pow_S in Hf.
    destruct (IH (m * 10) (e - 1) ltac:(lia) ltac:(lia)) as (j & -> & H1 & H2 & H3).
    exists (S j). rewrite pow_S, Z.mul_assoc. split_and!.
    + f_equal. lia.
    + right. destruct H1 as [->|?]; [change (10 ^ Z.of_nat 0) with 1|]; lia.
    + destruct H2 as [?|[? ?]]; [by left|right; lia].
    + intros [|c] Hc; [change (10 ^ Z.of_nat 0) with 1 in Hc; lia|].
      rewrite pow_S, Z.mul_assoc in Hc. apply H3 in Hc. lia.
Qed.

Lemma shifted_above g k m e X c : shifted g k m e X -> c <= m -> 0 <= c -> kMaxExponent <= e ->
  (inject_Z c * p10 kMaxExponent <= X)%Q.
Proof.
  intros (_ & X' & Hs & <-) Hc H0 He. apply stands_bounds in Hs. apply inject_Z_le in Hc, H0.
  change (inject_Z 0) with 0%Q in H0. pose proof (p10_le _ _ He). pose proof (p10_pos kMaxExponent).
  apply (Qle_trans _ (X' * p10 kMaxExponent)); [apply mult_le_pos; lra|].
  rewrite !(Qmult_comm X'). apply Qmult_le_compat_r; lra.
Qed.

Lemma shrink_S fuel w mx g m e : shrink (S fuel) w mx g m e =
  if mx <? m then
    if kMaxExponent <=? e then Throw "Number::normalize 1"
    else let '(g, m, e) := doDropDigit w g m e in shrink fuel w mx g m e
  else Ok (g, m, e).
Proof. done. Qed.

Lemma shrink_spec s fuel w g k m e X : shifted g k m e X -> m < 2 ^ bits w -> m < 10 ^ Z.of_nat fuel ->
  match shrink (S fuel) w (rmax s) g m e with
  | Throw _ => (inject_Z (rmax s + 1) * p10 kMaxExponent <= X)%Q
  | Ok (g', m', e') =>
      exists k', shifted g' k' m' e' X /\ sbit_ g' = sbit_ g /\ m' <= rmax s /\
      (g' = g /\ k' = k /\ m' = m /\ e' = e \/ (0 < k')%nat /\ rmin s <= m')
  end.
Proof.
  revert g k m e. induction fuel as [|fuel IH]; intros g k m e Hs Hw Hf.
  all: rewrite shrink_S; destruct (Z.ltb_spec (rmax s) m) as [Hlt|Hge].
  1: { change (10 ^ Z.of_nat 0) with 1 in Hf. scale_lia s. }
  1, 3: exists k; split_and!; [done..|by left].
  destruct (Z.leb_spec kMaxExponent e) as [He|He].
  { eapply shifted_above; [exact Hs|lia|scale_lia s|done]. }
  rewrite doDropDigit_eq by (destruct Hs; lia). rewrite pow_S in Hf.
  specialize (IH (push (m mod 10) g) (Nat.min 16 (S k)) (m / 10) (e + 1) (shifted_drop _ _ _ _ _ Hs)
    ltac:(destruct Hs; apply Z.div_lt_upper_bound; lia) ltac:(apply Z.div_lt_upper_bound; lia)).
  destruct (shrink (S fuel) _ _ _ _ _) as [[[g' m'] e']|msg]; [|done].
  destruct IH as (k' & Hs' & Hb & H1 & Hc). exists k'. split_and!; try done. right.
  destruct Hc as [(-> & -> & -> & ->)|Hc]; [|done]. split; [lia|].
  pose proof (Z.div_mod m 10 ltac:(lia)). pose proof (Z.mod_pos_bound m 10 ltac:(lia)). scale_lia s.
Qed.

Lemma guards_scale g f c : guards g 0 f -> (0 < c)%Q -> (c * f < 1)%Q -> guards g 0 (c * f).
Proof.
  intros (sig & t & Hk & H16 & Hds & Hg & Ht & Hx & Hf) Hc Hlt. destruct sig; [|done].
  rewrite pow10_0 in Hf. cbn [decval] in Hf. change (inject_Z 0) with 0%Q in Hf.
  exists [], (c * f)%Q. assert (f == t)%Q as E by lra.
  assert (0 <= c * f)%Q by (rewrite E; apply Qmult_le_0_compat; lra).
  split_and!; try done; [|rewrite pow10_0; cbn [decval]; change (inject_Z 0) with 0%Q; ring].
  destruct (xbit_ g); [apply Qmult_lt_0_compat; lra|]. rewrite E, Hx. ring.
Qed.

(** Digits that round to a normal number: there is a guard digit, or less
    than a half was lost. *)
Definition ready (s : MantissaScale) (g : Guard) (m e : Z) (X : Q) : Prop :=
  almost s m /\ (s = Large -> 9 * 10 ^ 17 <= m) /\
  exists k X', stands g k m X' /\ (X' * p10 e == X)%Q /\ ((0 < k)%nat \/ (X' - inject_Z m < 1 # 2)%Q).

(** What was lost before normalizing is less than half a unit after it. *)
Definition slight (s : MantissaScale) (m : Z) (X : Q) : Prop :=
  rmax s < m \/
  exists c : nat, rmin s <= m * 10 ^ Z.of_nat c /\ ((X - inject_Z m) * pow10 c < 1 # 2)%Q.

Definition least (s : MantissaScale) : Q := (inject_Z (rmin s) * p10 kMinExponent)%Q.

Lemma grow_slight s fuel w g m e X : 0 < m < 2 ^ bits w -> rmin s <= m * 10 ^ Z.of_nat fuel ->
  guards g 0 (X - inject_Z m) -> slight s m X ->
  exists m' e', grow fuel w (rmin s) m e = (m', e') /\ shifted g 0 m' e' (X * p10 e) /\
    (m' = m \/ m' < 10 * rmin s) /\ (rmin s <= m' \/ m' < rmin s /\ e' <= kMinExponent) /\
    (rmax s < m' \/ exists X', stands g 0 m' X' /\ (X' * p10 e' == X * p10 e)%Q /\ (X' - inject_Z m' < 1 # 2)%Q).
Proof.
  intros Hm Hf Hg [Hbig|(c & Hc & Hlt)].
  - exists m, e. rewrite grow_done by scale_lia s. split_and!; [done| |by left|left; scale_lia s|by left].
    split; [lia|]. by exists X.
  - destruct (grow_spec s fuel w m e Hm Hf) as (j & -> & H1 & H2 & H3). specialize (H3 c Hc).
    pose proof (guards_range _ _ _ Hg) as Hr.
    assert (pow10 j * (X - inject_Z m) < 1 # 2)%Q as Hj.
    { eapply Qle_lt_trans; [|exact Hlt]. rewrite (Qmult_comm (pow10 j)), !(Qmult_comm (X - inject_Z m)).
      apply Qmult_le_compat_r; [|lra]. unfold pow10. rewrite <-inject_Z_le. apply Z.pow_le_mono_r; lia. }
    assert (stands g 0 (m * 10 ^ Z.of_nat j) (X * pow10 j)) as Hs.
    { unfold stands. eapply guards_ext; [|exact (guards_scale g _ (pow10 j) Hg (pow10_pos j) ltac:(lra))].
      rewrite inject_Z_mult. unfold pow10. ring. }
    assert (X * pow10 j * p10 (e - Z.of_nat j) == X * p10 e)%Q as E.
    { replace (p10 e) with (p10 (Z.of_nat j + (e - Z.of_nat j))) by (f_equal; lia).
      rewrite p10_plus, (p10_Z (Z.of_nat j)) by lia. unfold pow10. ring. }
    assert (0 < 10 ^ Z.of_nat j) by lia.
    eexists _, _. split_and!; [done| | |exact H2|].
    + split; [nia|eauto].
    + destruct H1 as [->|?]; [left; change (10 ^ Z.of_nat 0) with 1; lia|by right].
    + right. exists (X * pow10 j)%Q. split_and!; [done..|].
      rewrite inject_Z_mult. unfold pow10 in *. lra.
Qed.

(** What normalizing the exact magnitude [X] comes to. *)
Definition normalizes (s : MantissaScale) (w : Width) (md : RoundingMode) (neg : bool) (X : Q)
    (r : result Number) : Prop :=
  (exists msg, r = Throw msg /\ (inject_Z (Z.min (rmax s) kMaxRep + 1) * p10 kMaxExponent <= X)%Q) \/
  (r = Ok kZero /\ (X < least s)%Q) \/
  exists g m e, r = doRoundUp 1 w md g neg m e (rmin s) (rmax s) (isCuspFixEnabled s) "Number::normalize 2" /\
    sbit_ g = neg /\ ready s g m e X.

Lemma shifted_below s g k m e X : shifted g k m e X -> m <= rmax s -> e <= kMinExponent ->
  m < rmin s \/ e < kMinExponent -> (X < least s)%Q.
Proof.
  intros (H0 & X' & Hs & <-) Hm He Hc. apply stands_bounds in Hs. unfold least.
  assert (forall c e', (X' < c)%Q -> e <= e' -> (X' * p10 e < c * p10 e')%Q) as Hle.
  { intros c e' Hlt Hee. apply p10_le in Hee. pose proof (p10_pos e).
    apply (Qlt_le_trans _ (c * p10 e)); [apply Qmult_lt_r; lra|].
    rewrite !(Qmult_comm c). apply Qmult_le_compat_r; [done|]. apply inject_Z_le in H0.
    change (inject_Z 0) with 0%Q in H0. lra. }
  destruct Hc as [Hc|Hc].
  - apply Hle; [|done]. assert (inject_Z (m + 1) <= inject_Z (rmin s))%Q as H1 by (rewrite <-inject_Z_le; lia).
    rewrite inject_Z_S in H1. lra.
  - rewrite <-(p10_P kMinExponent), Qmult_assoc. apply Hle; [|lia].
    assert (inject_Z (m + 1) <= inject_Z (rmin s * 10))%Q as H1 by (rewrite <-inject_Z_le; scale_lia s).
    rewrite inject_Z_S, inject_Z_mult in H1. change (inject_Z 10) with 10%Q in H1. lra.
Qed.

Lemma normalize_tail s w md neg g k m e X : shifted g k m e X -> sbit_ g = neg -> m <= rmax s ->
  (m < rmin s -> e <= kMinExponent) ->
  ((0 < k)%nat \/ exists X', stands g k m X' /\ (X' * p10 e == X)%Q /\ (X' - inject_Z m < 1 # 2)%Q) ->
  normalizes s w md neg X
    (if (e <? kMinExponent) || (m <? rmin s) then Ok kZero
     else '(g, m, e) ← (if kMaxRep <? m then
                          if kMaxExponent <=? e then Throw "Number::normalize 1.5"
                          else Ok (doDropDigit w g m e)
                        else Ok (g, m, e));
       doRoundUp 1 w md g neg m e (rmin s) (rmax s) (isCuspFixEnabled s) "Number::normalize 2").
Proof.
  intros Hs Hsb Hm Hlo Hfr. pose proof (proj1 Hs) as H0.
  destruct ((e <? kMinExponent) || (m <? rmin s)) eqn:Hz.
  { right. left. split; [done|]. rewrite orb_true_iff, !Z.ltb_lt in Hz.
    eapply shifted_below; [exact Hs|done|lia|tauto]. }
  rewrite orb_false_iff, !Z.ltb_ge in Hz. destruct Hz as [He Hge].
  destruct (Z.ltb_spec kMaxRep m) as [Hbig|Hsmall]; [destruct (Z.leb_spec kMaxExponent e)|]; cbn [mbind result_bind].
  - left. eexists. split; [done|]. eapply shifted_above; [exact Hs|unfold kMaxRep in *; lia|scale_lia s|done].
  - right. right. rewrite doDropDigit_eq by (destruct w; scale_lia s).
    pose proof (shifted_drop _ _ _ _ _ Hs) as (_ & X' & Hs' & E).
    pose proof (Z.div_mod m 10 ltac:(lia)). pose proof (Z.mod_pos_bound m 10 ltac:(lia)).
    eexists _, _, _. split_and!; [done|by rewrite push_sbit|]. split; [scale_lia s|].
    split; [unfold kMaxRep in *; lia|]. eexists _, X'. split_and!; [exact Hs'|done|left; lia].
  - right. right. eexists _, _, _. split_and!; [done..|]. split; [scale_lia s|]. split; [intros ->; scale_lia Large|].
    destruct Hfr as [Hk|(Y & HY)]; [|exists k, Y; naive_solver].
    destruct Hs as (_ & X' & Hs & E). exists k, X'. naive_solver.
Qed.

Lemma doNormalize_cases s w md (neg : bool) m e (dropped : bool) X : let g := if neg then setNegative newGuard else newGuard in
  0 < m < 2 ^ bits w -> guards (if dropped then setDropped g else g) 0 (X - inject_Z m) -> slight s m X ->
  normalizes s w md neg (X * p10 e)
    (doNormalize w md neg m e (rmin s) (rmax s) (isCuspFixEnabled s) dropped).
Proof.
  intros g Hm Hg Hsl. set (g0 := if dropped then setDropped g else g) in *.
  assert (2 ^ bits w < 10 ^ 39) as Hw by (destruct w; unfold bits; lia).
  assert (sbit_ g0 = neg) as Hsb by (unfold g0, g; by destruct dropped, neg).
  destruct (grow_slight s 40 w g0 m e X) as (m1 & e1 & E1 & Hs1 & Hm1 & Hlo1 & Hfr1); [done| |done..|].
  { change (Z.of_nat 40) with 40. scale_lia s. }
  unfold doNormalize. rewrite (proj2 (Z.eqb_neq m 0)) by lia. rewrite E1. fold g. fold g0.
  assert (10 * rmin s < 10 ^ 39 /\ 10 * rmin s < 2 ^ bits w) as [? ?] by (destruct w; scale_lia s).
  pose proof (shrink_spec s 39 w g0 0 m1 e1 _ Hs1 ltac:(lia) ltac:(change (Z.of_nat 39) with 39; lia)) as Hsh.
  destruct (shrink 40 w (rmax s) g0 m1 e1) as [[[g2 m2] e2]|msg]; cbn [mbind result_bind].
  2: { left. exists msg. split; [done|]. eapply Qle_trans; [|exact Hsh].
       apply mult_le_pos; [apply p10_pos|rewrite <-inject_Z_le; lia]. }
  destruct Hsh as (k2 & Hs2 & Hsb2 & Hm2 & Hc2).
  apply (normalize_tail s w md neg g2 k2 m2 e2); [done|congruence|done|..].
  - destruct Hc2 as [(-> & -> & -> & ->)|[_ Hc]]; lia.
  - destruct Hc2 as [(-> & -> & -> & ->)|[Hc _]]; [|by left]. right. destruct Hfr1 as [?|?]; [lia|done].
Qed.

Lemma ready_outcome w md g m e X loc : ready Large g m e X ->
  outcome md (sbit_ g) X (doRoundUp 1 w md g (sbit_ g) m e (rmin Large) (rmax Large) true loc).
Proof.
  intros (Ha & Hm & k & X' & Hs & E & Hk). eapply outcome_ext; [exact E|].
  eapply doRoundUp_outcome; eauto.
Qed.

Lemma normalizes_closed s w md neg X r z : normalizes s w md neg X r -> r = Ok z -> z = kZero \/ normal s z.
Proof.
  intros [(msg & -> & _)|[[-> _]|(g & m & e & -> & _ & [Ha _])]] E; [done|left; congruence|].
  by eapply doRoundUp_normal.
Qed.

Lemma normalizes_outcome w md neg X r : normalizes Large w md neg X r -> outcome md neg X r.
Proof.
  intros [(msg & -> & Hl)|[[-> Hz]|(g & m & e & -> & <- & Hr)]]; cbn [outcome isCuspFixEnabled].
  - unfold largest. eapply Qle_trans; [|exact Hl]. apply mult_le_pos; [apply p10_pos|].
    rewrite <-inject_Z_le. scale_lia Large.
  - by left.
  - by apply ready_outcome.
Qed.

(** ** Division *)

Definition frac (a d : Z) : Q := (inject_Z a / inject_Z d)%Q.

Lemma frac_rest a d : 0 < d -> (frac a d - inject_Z (a / d) == frac (a mod d) d)%Q.
Proof.
  intros Hd. unfold frac. apply inject_Z_lt in Hd as Hd'. change (inject_Z 0) with 0%Q in Hd'.
  rewrite (Z.div_mod a d) at 1 by lia. rewrite inject_Z_plus, inject_Z_mult. field. lra.
Qed.

Lemma frac_lt r d (c : Z) : 0 < d -> r * c < d -> (frac r d * inject_Z c < 1)%Q.
Proof.
  intros Hd Hr. apply inject_Z_lt in Hd as Hd'. change (inject_Z 0) with 0%Q in Hd'.
  assert (frac r d * inject_Z c == inject_Z (r * c) / inject_Z d)%Q as ->
    by (unfold frac; rewrite inject_Z_mult; field; lra).
  apply Qlt_shift_div_r; [done|]. rewrite Qmult_1_l, <-inject_Z_lt. done.
Qed.

Lemma dropped_guards (neg : bool) r d : let g := if neg then setNegative newGuard else newGuard in
  0 <= r < d -> guards (if negb (r =? 0) then setDropped g else g) 0 (frac r d).
Proof.
  intros g Hr. assert (0 < d) as Hd by lia. apply inject_Z_lt in Hd. change (inject_Z 0) with 0%Q in Hd.
  destruct (Z.eqb_spec r 0) as [->|Hne]; cbn [negb].
  - eapply guards_ext; [|apply newGuard_guards]. unfold frac. change (inject_Z 0) with 0%Q. field. lra.
  - apply setDropped_guards. unfold frac. split.
    + apply Qlt_shift_div_l; [done|]. rewrite Qmult_0_l. change 0%Q with (inject_Z 0). rewrite <-inject_Z_lt. lia.
    + apply Qlt_shift_div_r; [done|]. rewrite Qmult_1_l, <-inject_Z_lt. lia.
Qed.

Lemma slight_exact s m (X : Q) : 0 < m -> (X == inject_Z m)%Q -> slight s m X.
Proof.
  intros Hm E. right. exists 18%nat. split; [change (Z.of_nat 18) with 18; scale_lia s|].
  rewrite E. assert (inject_Z m - inject_Z m == 0)%Q as -> by ring. by rewrite Qmult_0_l.
Qed.

Section div.
Context (md : RoundingMode) (s : MantissaScale) (x y : Number).
Hypotheses (Hx : normal s x) (Hy : normal s y).
#[local] Abbreviation num := (mantissa_ x * 10 ^ 17).
#[local] Abbreviation dm := (mantissa_ y).
#[local] Abbreviation neg := (negb (Bool.eqb (negative_ x) (negative_ y))).

Lemma div_bounds : rmin s <= dm <= rmax s /\ 0 <= num < 2 ^ 128 /\ 10 ^ 16 <= num / dm <= 10 ^ 18.
Proof using All.
  destruct Hx as [[Hx1 _] _], Hy as [[Hy1 _] _]. split; [done|].
  assert (0 < dm) by scale_lia s. split; [scale_lia s|]. split.
  - apply Z.div_le_lower_bound; [done|]. scale_lia s.
  - apply Z.div_le_upper_bound; [done|]. scale_lia s.
Qed.

Lemma div_quotient : (frac num dm * p10 (exponent_ x - exponent_ y - 17) == mag x / mag y)%Q.
Proof using All.
  pose proof div_bounds as (Hd & _). assert (0 < dm) as Hd0 by scale_lia s.
  apply inject_Z_lt in Hd0. change (inject_Z 0) with 0%Q in Hd0.
  pose proof (p10_pos (exponent_ y)). pose proof (p10_pos 17).
  unfold frac, mag. rewrite inject_Z_mult, <-(p10_Z 17) by lia.
  assert (p10 (exponent_ x) == p10 (exponent_ x - exponent_ y - 17) * p10 17 * p10 (exponent_ y))%Q as ->.
  { rewrite <-!p10_plus.
    by replace (exponent_ x - exponent_ y - 17 + 17 + exponent_ y) with (exponent_ x) by lia. }
  field. split; lra.
Qed.

(** Without the rounding fix no rest of the division is kept. *)
Lemma div_truncated : s <> Large -> exists m e,
  0 < m < 2 ^ 128 /\
  div (mkEnv md s) x y = doNormalize U128 md neg m e (rmin s) (rmax s) (isCuspFixEnabled s) false.
Proof using All.
  intros Hs. pose proof div_bounds as (Hd & Hn & Hq). assert (0 < dm) as Hd0 by scale_lia s.
  unfold div, range. cbn [kRange mode]. rewrite !(normal_eqb s) by done. rewrite (wrap_small 128 num) by done.
  destruct (decide _) as [Hl|_]; [|eexists _, _; split; [|done]; lia].
  destruct (Z.eqb_spec (num mod dm) 0) as [_|Hr]; cbn [negb]; [eexists _, _; split; [|done]; lia|].
  pose proof (Z.mod_pos_bound num dm Hd0) as Hm. assert (dm < 10 ^ 19) as Hd19 by scale_lia s.
  rewrite (wrap_small 128 (num mod dm * 10 ^ 5)) by lia.
  assert (num mod dm * 10 ^ 5 / dm < 10 ^ 5) as Hc by (apply Z.div_lt_upper_bound; lia).
  pose proof (Z.div_pos (num mod dm * 10 ^ 5) dm ltac:(lia) Hd0).
  assert (cuspRoundingFixEnabled (getMantissaRange s) = false) as -> by (by destruct s).
  assert (isCuspFixEnabled s = false) as -> by (by destruct s). cbn [andb].
  destruct (Z.eqb_spec (num mod dm * 10 ^ 5 / dm) 0) as [_|Hr']; cbn [negb]; cbn beta iota zeta.
  - eexists _, _. split; [|done]. lia.
  - rewrite (wrap_small 128 (num / dm * 10 ^ 5)), wrap_small by lia. eexists _, _. split; [|done]. lia.
Qed.

(** With it the rest is kept as a guard digit. *)
Lemma div_exact : s = Large -> exists m e dropped X,
  let g := if neg then setNegative newGuard else newGuard in
  div (mkEnv md s) x y = doNormalize U128 md neg m e (rmin s) (rmax s) (isCuspFixEnabled s) dropped /\
  0 < m < 2 ^ 128 /\
  guards (if dropped then setDropped g else g) 0 (X - inject_Z m) /\ slight s m X /\
  (X * p10 e == mag x / mag y)%Q.
Proof using All.
  intros Hs. pose proof div_bounds as (Hd & Hn & Hq). assert (0 < dm) as Hd0 by scale_lia s.
  unfold div, range. cbn [kRange mode]. rewrite !(normal_eqb s) by done. rewrite (wrap_small 128 num) by done.
  pose proof div_quotient as HQ. pose proof (frac_rest num dm Hd0) as HR.
  pose proof (Z.mod_pos_bound num dm Hd0) as Hm. assert (dm < 10 ^ 19) as Hd19 by scale_lia s.
  destruct (decide _) as [_|Hl]; [|rewrite Hs in Hl; by exfalso; apply Hl].
  assert (cuspRoundingFixEnabled (getMantissaRange s) = true) as -> by (by rewrite Hs).
  assert (isCuspFixEnabled s = true) as -> by (by rewrite Hs).
  pose proof (dropped_guards neg (num mod dm) dm Hm) as Hg. cbn zeta in Hg.
  destruct (Z.eqb_spec (num mod dm) 0) as [Hr|Hr]; cbn [negb] in Hg |- *; cbn beta iota zeta.
  { eexists _, _, false, (frac num dm). split_and!; [done|lia|lia|by eapply guards_ext| |done].
    apply slight_exact; [lia|]. rewrite Hr in HR. unfold frac in HR at 2. change (inject_Z 0) with 0%Q in HR.
    unfold Qdiv in HR. rewrite Qmult_0_l in HR. lra. }
  rewrite (wrap_small 128 (num mod dm * 10 ^ 5)) by lia. cbn [andb].
  set (part := num mod dm * 10 ^ 5) in *. pose proof (Z.mod_pos_bound part dm Hd0) as Hpm.
  assert (part / dm < 10 ^ 5) as Hc by (unfold part; apply Z.div_lt_upper_bound; lia).
  pose proof (Z.div_pos part dm ltac:(lia) Hd0). pose proof (Z.div_mod part dm ltac:(lia)) as Hpd.
  destruct (Z.eqb_spec (part / dm) 0) as [Hr'|Hr']; cbn [negb]; cbn beta iota zeta.
  - assert ((part mod dm =? 0) = false) as -> by (apply Z.eqb_neq; lia). cbn [negb].
    eexists _, _, true, (frac num dm). split_and!; [done|lia|lia|by eapply guards_ext| |done].
    right. exists 2%nat. split; [change (Z.of_nat 2) with 2; rewrite Hs; scale_lia Large|].
    pose proof (frac_lt (num mod dm) dm (10 ^ 5) Hd0 ltac:(lia)) as Hlt. rewrite HR. unfold pow10.
    change (inject_Z (10 ^ 5)) with (100000)%Q in Hlt. change (inject_Z (10 ^ Z.of_nat 2)) with 100%Q. lra.
  - rewrite (wrap_small 128 (num / dm * 10 ^ 5)), wrap_small by lia.
    pose proof (dropped_guards neg (part mod dm) dm Hpm) as Hg2. cbn zeta in Hg2.
    eexists _, _, _, (frac num dm * inject_Z (10 ^ 5))%Q. split_and!; [done|lia|lia| |left; rewrite Hs; scale_lia Large|].
    + eapply guards_ext; [|exact Hg2]. rewrite <-(frac_rest part dm Hd0), inject_Z_plus, inject_Z_mult.
      assert (frac part dm == frac (num mod dm) dm * inject_Z (10 ^ 5))%Q as ->.
      { unfold frac, part. rewrite inject_Z_mult. unfold Qdiv. ring. }
      rewrite <-HR. ring.
    + rewrite <-HQ. replace (exponent_ x - exponent_ y - 17) with (5 + (exponent_ x - exponent_ y - 17 - 5)) at 2 by lia.
      rewrite p10_plus, (p10_Z 5) by lia. ring.
Qed.

Lemma div_closed z : div (mkEnv md s) x y = Ok z -> z = kZero \/ normal s z.
Proof using All.
  destruct (decide (s = Large)) as [Hs|Hs].
  - destruct (div_exact Hs) as (m & e & dropped & X & -> & Hm & Hg & Hsl & _).
    eapply normalizes_closed, doNormalize_cases; done.
  - destruct (div_truncated Hs) as (m & e & Hm & ->).
    eapply normalizes_closed, (doNormalize_cases _ _ _ _ _ _ _ (inject_Z m)); [done| |apply slight_exact; [lia|done]].
    eapply guards_ext; [|apply newGuard_guards]. ring.
Qed.
End div.

Lemma div_outcome md x y : normal Large x -> normal Large y ->
  outcome md (negb (Bool.eqb (negative_ x) (negative_ y))) (mag x / mag y) (div (mkEnv md Large) x y).
Proof.
  intros Hx Hy. destruct (div_exact md Large x y Hx Hy eq_refl) as (m & e & dropped & X & -> & Hm & Hg & Hsl & E).
  eapply outcome_ext; [exact E|]. eapply normalizes_outcome, doNormalize_cases; done.
Qed.
