(* ===== verification/NumberAdd.v ===== *)
(** * Addition and subtraction of numbers

    [operator+=] (Number.cpp) aligns its operands, adds or subtracts their
    mantissas and rounds with the digits that were shifted off. *)

From Stdlib Require Import QArith Qabs Qpower Lqa Qfield.
From S2P Require Import Prelude Number NumberSpec NumberOps.
Open Scope Z_scope.

(** ** Aligning the operands *)

Lemma align_spec n g k m e X : shifted g k m e X -> m < 2 ^ 128 ->
  exists g', align n g m e = (g', m / 10 ^ Z.of_nat n, e + Z.of_nat n) /\ sbit_ g' = sbit_ g /\
    shifted g' (Nat.min 16 (k + n)) (m / 10 ^ Z.of_nat n) (e + Z.of_nat n) X.
Proof.
  revert g k m e. induction n as [|n IH]; intros g k m e Hs Hm; cbn [align].
  - exists g. change (10 ^ Z.of_nat 0) with 1. rewrite Z.div_1_r, Z.add_0_r, Nat.add_0_r. split_and!; [done..|].
    destruct Hs as (? & X' & Hs & E). split; [done|]. exists X'. split; [|done].
    pose proof Hs as (sig & t & <- & H16 & _). by rewrite Nat.min_r.
  - rewrite doDropDigit_eq by (destruct Hs; unfold bits; lia).
    destruct (IH _ _ _ _ (shifted_drop _ _ _ _ _ Hs)) as (g' & -> & Hsb & Hs'); [destruct Hs; apply Z.div_lt_upper_bound; lia|].
    exists g'. rewrite pow_S, <-Z.div_div by lia.
    replace (e + Z.of_nat (S n)) with (e + 1 + Z.of_nat n) by lia. split_and!; [done..|].
    by replace (Nat.min 16 (k + S n)) with (Nat.min 16 (Nat.min 16 (S k) + n)) by lia.
Qed.

(** The operand [x] after its digits were dropped: [m], and the rest in [g]. *)
Record shed (x : Number) (g : Guard) (m e : Z) : Prop := {
  shed_sign : sbit_ g = negative_ x;
  shed_digits : exists k, shifted g k m e (mag x) /\ (k = 1%nat /\ xbit_ g = false \/ (2 <= k)%nat /\ 100 * m <= mantissa_ x);
  shed_small : 10 * m <= mantissa_ x
}.

Lemma align_shed s x (n : nat) g m e : normal s x -> (0 < n)%nat ->
  align n (if negative_ x then setNegative newGuard else newGuard) (mantissa_ x) (exponent_ x) = (g, m, e) ->
  e = exponent_ x + Z.of_nat n /\ shed x g m e.
Proof.
  intros Hx Hn E. set (g0 := if negative_ x then _ else _) in *.
  assert (shifted g0 0 (mantissa_ x) (exponent_ x) (mag x)) as Hs.
  { destruct Hx as [Hf _]. split; [scale_lia s|]. exists (inject_Z (mantissa_ x)). split; [|done].
    eapply guards_ext; [|apply newGuard_guards]. ring. }
  assert (mantissa_ x < 2 ^ 128) as Hm by (destruct Hx as [Hf _]; scale_lia s).
  destruct (align_spec n g0 0 _ _ _ Hs Hm) as (g' & E' & Hsb & Hs'). rewrite E' in E. injection E as <- <- <-.
  split; [done|]. destruct Hs as [H0 _].
  assert (forall j, 0 <= j <= Z.of_nat n -> 10 ^ j * (mantissa_ x / 10 ^ Z.of_nat n) <= mantissa_ x) as Hle.
  { intros j Hj. pose proof (Z.pow_le_mono_r 10 j (Z.of_nat n) ltac:(lia) ltac:(lia)).
    pose proof (Z.mul_div_le (mantissa_ x) (10 ^ Z.of_nat n) ltac:(lia)).
    pose proof (Z.div_pos (mantissa_ x) (10 ^ Z.of_nat n) H0 ltac:(lia)). nia. }
  split; [by rewrite Hsb; unfold g0; destruct (negative_ x)| |apply (Hle 1); lia].
  exists (Nat.min 16 n). split; [done|]. destruct (decide (n = 1%nat)) as [->|Hn1].
  - left. split; [done|]. cbn [align] in E'. rewrite doDropDigit_eq in E' by (unfold bits; lia).
    apply (f_equal (fun t => t.1.1)) in E'. cbn [fst] in E'. rewrite <-E'. unfold g0. by destruct (negative_ x).
  - right. split; [lia|]. apply (Hle 2). lia.
Qed.

Lemma alignOperands_spec s x y : normal s x -> normal s y ->
  let '(g, xm, ym, xe, ye) := alignOperands x y in
  xe = ye /\
  (shed x g xm xe /\ ym = mantissa_ y /\ ye = exponent_ y /\ exponent_ x < exponent_ y \/
   shed y g ym ye /\ xm = mantissa_ x /\ xe = exponent_ x /\ exponent_ y < exponent_ x \/
   g = newGuard /\ xm = mantissa_ x /\ ym = mantissa_ y /\ xe = exponent_ x /\ ye = exponent_ y).
Proof.
  intros Hx Hy. unfold alignOperands.
  destruct (Z.ltb_spec (exponent_ x) (exponent_ y)) as [Hlt|Hge]; [|destruct (Z.ltb_spec (exponent_ y) (exponent_ x))].
  - destruct (align _ _ _ _) as [[g xm] xe] eqn:E. eapply align_shed in E as [-> Hs]; [|done|lia].
    split; [lia|]. left. done.
  - destruct (align _ _ _ _) as [[g ym] ye] eqn:E. eapply align_shed in E as [-> Hs]; [|done|lia].
    split; [lia|]. right. left. done.
  - split; [lia|]. right. right. done.
Qed.

(** ** Operands of the same sign *)

(** The sign of the guard matters to the directed modes only. *)
Definition withSign (neg : bool) (g : Guard) : Guard := mkGuard (digits_ g) (xbit_ g) neg.

Lemma withSign_id g : withSign (sbit_ g) g = g.
Proof. by destruct g. Qed.

Lemma doRoundUp_sign fuel w md neg g neg' m e mn mx cusp loc : md = ToNearest \/ md = TowardsZero ->
  doRoundUp fuel w md (withSign neg g) neg' m e mn mx cusp loc = doRoundUp fuel w md g neg' m e mn mx cusp loc.
Proof.
  intros Hmd. assert (forall g m, rounds md (withSign neg g) m = rounds md g m) as Hr by (by destruct Hmd as [->| ->]).
  revert g m e. induction fuel as [|fuel IH]; intros g m e; cbn [doRoundUp]; rewrite Hr; [done|].
  assert (forall d, push d (withSign neg g) = withSign neg (push d g)) as Hp by done.
  destruct w; cbn [doDropDigit]; [by rewrite Hp, IH|]. destruct (divu10 m) as [r q]. by rewrite Hp, IH.
Qed.

Lemma ready_sign w md g neg m e X loc : ready Large g m e X ->
  sbit_ g = neg \/ (md = ToNearest \/ md = TowardsZero) \/ guards g 0 0 /\ (X == inject_Z m * p10 e)%Q ->
  outcome md neg X (doRoundUp 1 w md g neg m e (rmin Large) (rmax Large) true loc).
Proof.
  intros Hr Hs.
  assert (ready Large (withSign neg g) m e X) as Hr' by exact Hr.
  pose proof (ready_outcome w md (withSign neg g) m e X loc Hr') as Ho. cbn [withSign sbit_] in Ho.
  destruct Hs as [<-|[Hmd|[Hg E]]]; [by rewrite withSign_id in Ho|by rewrite <-doRoundUp_sign with (neg := neg)|].
  rewrite doRoundUp_exact in Ho |- *; [done|eapply rounds_zero; [exact Hg|done]..].
Qed.

Definition roundable (g : Guard) (m e : Z) (X : Q) : Prop :=
  exists k X', stands g k m X' /\ (X' * p10 e == X)%Q /\ ((0 < k)%nat \/ (X' - inject_Z m < 1 # 2)%Q).

Lemma addMantissas_ready md s g neg xm ym e X : rmin s <= xm + ym <= 2 * rmax s ->
  roundable g (xm + ym) e X ->
  exists g' m' e', addMantissas (mkEnv md s) g neg xm ym e =
      doRoundUp 1 U128 md g' neg m' e' (rmin s) (rmax s) (isCuspFixEnabled s) "Number::addition overflow" /\
    sbit_ g' = sbit_ g /\ ready s g' m' e' X /\
    (xm + ym <= kMaxRep -> s = Large -> g' = g /\ m' = xm + ym /\ e' = e).
Proof.
  intros Hm (k & X' & Hs & E & Hk). unfold addMantissas, range. cbn [kRange mode].
  rewrite wrap_small by scale_lia s. set (m := xm + ym) in *.
  destruct ((rmax s <? m) || (kMaxRep <? m)) eqn:Hc.
  - rewrite orb_true_iff, !Z.ltb_lt in Hc. rewrite doDropDigit_eq by (unfold bits; scale_lia s).
    pose proof (Z.div_mod m 10 ltac:(lia)). pose proof (Z.mod_pos_bound m 10 ltac:(lia)).
    eexists _, _, _. split_and!; [done|done| |intros ? ->; scale_lia Large].
    split; [scale_lia s|]. split; [intros ->; scale_lia Large|].
    eexists _, _. split_and!; [by apply stands_drop|rewrite p10_S, <-E; field|left; lia].
  - rewrite orb_false_iff, !Z.ltb_ge in Hc.
    eexists _, _, _. split_and!; [done..| |done].
    split; [scale_lia s|]. split; [intros ->; scale_lia Large|]. by exists k, X'.
Qed.

Section same.
Context (md : RoundingMode) (s : MantissaScale) (x y : Number).
Hypotheses (Hx : normal s x) (Hy : normal s y) (Hs : negative_ x = negative_ y).

Lemma add_same_sum : let '(g, xm, ym, xe, _) := alignOperands x y in
  rmin s <= xm + ym <= 2 * rmax s /\ roundable g (xm + ym) xe (mag x + mag y) /\
  (sbit_ g = negative_ x \/
   g = newGuard /\ xm + ym = mantissa_ x + mantissa_ y /\ exponent_ x = exponent_ y /\
   (mag x + mag y == inject_Z (xm + ym) * p10 xe)%Q).
Proof using All.
  pose proof (alignOperands_spec s x y Hx Hy) as Ha. destruct (alignOperands x y) as [[[[g xm] ym] xe] ye].
  destruct Ha as [<- [(Hsh & -> & -> & Hlt)|[(Hsh & -> & -> & Hlt)|(-> & -> & -> & -> & Ee)]]].
  3: { assert (mag x + mag y == inject_Z (mantissa_ x + mantissa_ y) * p10 (exponent_ x))%Q as E.
       { unfold mag. rewrite <-Ee, inject_Z_plus. ring. }
       split; [destruct Hx as [[? _] _], Hy as [[? _] _]; scale_lia s|]. split; [|right; done].
       exists O, (inject_Z (mantissa_ x + mantissa_ y)). split_and!; [|by symmetry|right; ring_simplify; by vm_compute].
       eapply guards_ext; [|apply (newGuard_guards false)]. ring. }
  all: destruct Hsh as [Hsb (k & (H0 & X' & Hst & E) & Hk) Hsm].
  all: split; [destruct Hx as [[? _] _], Hy as [[? _] _]; scale_lia s|]; split; [|left; congruence].
  - exists k, (X' + inject_Z (mantissa_ y))%Q. split_and!; [|rewrite <-E; unfold mag; ring|left; lia].
    eapply guards_ext; [|exact Hst]. rewrite inject_Z_plus. ring.
  - exists k, (X' + inject_Z (mantissa_ x))%Q. split_and!; [|rewrite <-E; unfold mag; ring|left; lia].
    eapply guards_ext; [|exact Hst]. rewrite inject_Z_plus. ring.
Qed.

Lemma same_not_opp : number_eqb x (opp y) = false.
Proof using All.
  apply not_true_iff_false. rewrite number_eqb_spec. intros E. pose proof Hs as Hs'. rewrite E in Hs'.
  unfold opp in Hs'. destruct Hy as [Hf _]. rewrite (proj2 (Z.eqb_neq (mantissa_ y) 0)) in Hs' by scale_lia s.
  cbn in Hs'. by destruct (negative_ y).
Qed.

Lemma add_same_rounds : exists g m e,
  add (mkEnv md s) x y =
    (doRoundUp 1 U128 md g (negative_ x) m e (rmin s) (rmax s) (isCuspFixEnabled s) "Number::addition overflow"
       ≫= normalize (mkEnv md s)) /\
  ready s g m e (mag x + mag y) /\
  (sbit_ g = negative_ x \/
   sbit_ g = false /\ exponent_ x = exponent_ y /\
   (mantissa_ x + mantissa_ y <= kMaxRep -> s = Large ->
    guards g 0 0 /\ (mag x + mag y == inject_Z m * p10 e)%Q)).
Proof using All.
  unfold add. rewrite !(normal_eqb s), same_not_opp by done. pose proof add_same_sum as Hsum.
  destruct (alignOperands x y) as [[[[g xm] ym] xe] ye]. destruct Hsum as (Hm & Hr & Hsg).
  rewrite <-Hs, eqb_reflx.
  destruct (addMantissas_ready md s g (negative_ x) xm ym xe _ Hm Hr) as (g' & m' & e' & -> & Hsb & Hrd & Hex).
  exists g', m', e'. split; [|split; [done|]].
  - destruct (doRoundUp _ _ _ _ _ _ _ _ _ _ _) as [z|msg] eqn:Ez; [|done]. cbn [mbind result_bind].
    rewrite (narrow_normal s); [done|]. eapply doRoundUp_normal; [|exact Ez]. apply Hrd.
  - destruct Hsg as [Hsg|(-> & Esum & Ee & E)]; [left; congruence|right].
    split_and!; [done..|]. intros Hle HL. rewrite <-Esum in Hle. destruct (Hex Hle HL) as (-> & -> & ->).
    split; [apply (newGuard_guards false)|done].
Qed.

Lemma add_same_closed z : add (mkEnv md s) x y = Ok z -> z = kZero \/ normal s z.
Proof using All.
  destruct add_same_rounds as (g & m & e & -> & [Ha _] & _).
  apply bind_closed. intros z'. by apply doRoundUp_normal.
Qed.
End same.

Lemma add_same_outcome md x y : normal Large x -> normal Large y -> negative_ x = negative_ y ->
  md = ToNearest \/ md = TowardsZero \/ negative_ x = false \/ exponent_ x <> exponent_ y \/
    mantissa_ x + mantissa_ y <= kMaxRep ->
  outcome md (negative_ x) (mag x + mag y) (add (mkEnv md Large) x y).
Proof.
  intros Hx Hy Hs Hc. destruct (add_same_rounds md Large x y Hx Hy Hs) as (g & m & e & -> & Hr & Hsg).
  apply outcome_bind, ready_sign; [done|].
  destruct Hsg as [Hsg|(Hsg & Ee & Hex)]; [by left|].
  destruct Hc as [?|[?|[?|[?|Hle]]]]; [right; left; by left|right; left; by right|left; congruence|done|].
  right. right. by apply Hex.
Qed.

(** ** Operands of different signs *)

Lemma guards_clean g f : guards g 1 f -> xbit_ g = false ->
  exists d, 0 <= d < 10 /\ (pop g).1 = d /\ guards (pop g).2 0 0 /\ sbit_ (pop g).2 = sbit_ g /\
    (10 * f == inject_Z d)%Q.
Proof.
  intros Hg Hxb. pose proof Hg as (sig & t & Hk & _ & _ & Hd & _ & Ht & Hf).
  destruct sig as [|d0 [|]]; [done| |done]. rewrite Hxb in Ht. cbn [decval] in Hf.
  destruct (pop_guards g 0 f Hg) as (d & Hdg & Hg' & Ep & Hsb). exists d.
  assert (10 * f == inject_Z d)%Q as Ef; [|split_and!; [lia..|done| |done|done];
    eapply guards_ext; [|exact Hg']; rewrite Ef; ring].
  destruct Hg' as (sig' & t' & Hk' & _ & _ & _ & Ht' & Hx' & Hf'). destruct sig'; [|done].
  assert (xbit_ (pop g).2 = false) as E by done. rewrite E in Hx'.
  rewrite pow10_0 in Hf'. cbn [decval] in Hf'. change (inject_Z 0) with 0%Q in Hf'. lra.
Qed.

Lemma regrow_S fuel mn g m e : regrow (S fuel) mn g m e =
  if (m <? mn) && (wrap 128 (m * 10) <=? kMaxRep) then
    regrow fuel mn (pop g).2 (wrap 128 (wrap 128 (m * 10) - (pop g).1)) (e - 1)
  else (g, m, e).
Proof. cbn [regrow]. by destruct (pop g). Qed.

(** The mantissa after digits were taken back. *)
Definition taken (s : MantissaScale) (m e m' e' : Z) : Prop :=
  (rmin s <= m' \/ kMaxRep < 10 * m') /\ m' <= rmax s /\ e' <= e /\ (m' = m /\ e' = e \/ m' <= kMaxRep).

Lemma regrow_exact s fuel g m e : guards g 0 0 -> 0 < m <= rmax s -> rmin s <= m * 10 ^ Z.of_nat fuel ->
  exists g' m' e', regrow fuel (rmin s) g m e = (g', m', e') /\ guards g' 0 0 /\ sbit_ g' = sbit_ g /\
    (inject_Z m' * p10 e' == inject_Z m * p10 e)%Q /\ taken s m e m' e'.
Proof.
  revert g m e. induction fuel as [|fuel IH]; intros g m e Hg Hm Hf.
  - exists g, m, e. change (10 ^ Z.of_nat 0) with 1 in Hf. split_and!; [done..|]. unfold taken. lia.
  - rewrite regrow_S. rewrite (wrap_small 128 (m * 10)) by scale_lia s.
    destruct ((m <? rmin s) && (m * 10 <=? kMaxRep)) eqn:Hc.
    + rewrite andb_true_iff, Z.ltb_lt, Z.leb_le in Hc. destruct (pop_none g 0 Hg ltac:(reflexivity)) as (Hg' & -> & Hsb).
      rewrite Z.sub_0_r, wrap_small by scale_lia s. rewrite pow_S in Hf.
      destruct (IH (pop g).2 (m * 10) (e - 1) Hg') as (g' & m' & e' & -> & Hg2 & Hsb2 & E & Ht); [scale_lia s|lia|].
      exists g', m', e'. split_and!; [done..|congruence| |unfold taken in *; lia].
      rewrite E, inject_Z_mult, <-(p10_P e). change (inject_Z 10) with 10%Q. ring.
    + rewrite andb_false_iff, Z.ltb_ge, Z.leb_gt in Hc. exists g, m, e. split_and!; [done..|]. unfold taken. lia.
Qed.

Lemma regrow_pop s g k m X : guards g k (inject_Z m - X) ->
  k = 1%nat /\ xbit_ g = false \/ (2 <= k)%nat /\ 9 * rmin s <= 10 * m ->
  exists d k', 0 <= d < 10 /\ (pop g).1 = d /\ sbit_ (pop g).2 = sbit_ g /\
    guards (pop g).2 k' (10 * (inject_Z m - X) - inject_Z d) /\
    (k' = O /\ (10 * (inject_Z m - X) == inject_Z d)%Q \/ (0 < k')%nat /\ 9 * rmin s <= 10 * m).
Proof.
  intros Hg [[-> Hxb]|[Hk Hlo]].
  - destruct (guards_clean g _ Hg Hxb) as (d & Hd & Ed & Hg' & Hsb & Ef). exists d, O.
    split_and!; try done; try lia; [|by left]. eapply guards_ext; [|exact Hg']. rewrite Ef. ring.
  - destruct k as [|k']; [lia|]. destruct (pop_guards g k' _ Hg) as (d & Hd & Hg' & Ed & Hsb).
    exists d, k'. split_and!; try done; lia.
Qed.

Lemma regrow_spec s g k m e X : guards g k (inject_Z m - X) -> 0 < m <= rmax s ->
  (inject_Z m == X)%Q /\ k = O \/ k = 1%nat /\ xbit_ g = false \/ (2 <= k)%nat /\ 9 * rmin s <= 10 * m ->
  exists g' k' m' e' X', regrow 40 (rmin s) g m e = (g', m', e') /\ sbit_ g' = sbit_ g /\
    guards g' k' (inject_Z m' - X') /\ ((0 < k')%nat \/ (inject_Z m' - X' < 1 # 2)%Q) /\
    (X' * p10 e' == X * p10 e)%Q /\ taken s m e m' e' /\ ((inject_Z m == X)%Q -> (inject_Z m' == X')%Q).
Proof.
  intros Hg Hm [[E ->]|Hk].
  { destruct (regrow_exact s 40 g m e) as (g' & m' & e' & Er & Hg' & Hsb & E' & Ht);
      [eapply guards_ext; [|exact Hg]; lra|done|change (Z.of_nat 40) with 40; scale_lia s|].
    exists g', O, m', e', (inject_Z m'). split_and!; try done; [|right; lra|rewrite E', E; reflexivity].
    eapply guards_ext; [|exact Hg']. ring. }
  rewrite (regrow_S 39), (wrap_small 128 (m * 10)) by scale_lia s.
  destruct ((m <? rmin s) && (m * 10 <=? kMaxRep)) eqn:Hc.
  2: { rewrite andb_false_iff, Z.ltb_ge, Z.leb_gt in Hc.
       exists g, k, m, e, X. split_and!; try done; [left; lia|unfold taken; lia]. }
  rewrite andb_true_iff, Z.ltb_lt, Z.leb_le in Hc.
  destruct (regrow_pop s g k m X Hg Hk) as (d & k' & Hd & Ed & Hsb & Hg' & Hk').
  rewrite Ed, wrap_small by scale_lia s.
  assert (inject_Z (m * 10 - d) == 10 * inject_Z m - inject_Z d)%Q as Em.
  { unfold Z.sub. rewrite inject_Z_plus, inject_Z_mult, inject_Z_opp. change (inject_Z 10) with 10%Q. ring. }
  assert (10 * X * p10 (e - 1) == X * p10 e)%Q as EX by (rewrite <-(p10_P e); ring).
  destruct Hk' as [[-> E0]|[Hk0 Hlo]].
  - destruct (regrow_exact s 39 (pop g).2 (m * 10 - d) (e - 1)) as (g' & m' & e' & Er & Hg2 & Hsb2 & E' & Ht);
      [eapply guards_ext; [|exact Hg']; rewrite E0; ring|scale_lia s|change (Z.of_nat 39) with 39; scale_lia s|].
    exists g', O, m', e', (inject_Z m'). split_and!; [done|congruence| |right; lra| |unfold taken in *; lia|done].
    + eapply guards_ext; [|exact Hg2]. ring.
    + rewrite E', Em, <-EX. apply Qmult_inj_r; [pose proof (p10_pos (e - 1)); lra|]. lra.
  - rewrite (regrow_S 38), (proj2 (Z.ltb_ge (m * 10 - d) (rmin s))) by scale_lia s. cbn [andb].
    eexists _, k', _, _, (10 * X)%Q. split_and!; [done|congruence| |by left|done|unfold taken; scale_lia s|].
    + eapply guards_ext; [|exact Hg']. rewrite Em. ring.
    + intros E. rewrite Em, E. pose proof (guards_range _ _ _ Hg').
      assert (0 <= inject_Z d)%Q by (change 0%Q with (inject_Z 0); rewrite <-inject_Z_le; lia). lra.
Qed.

Lemma doRoundDown_big s w md g neg m e : kMaxRep < m <= rmax s -> kMinExponent <= e ->
  doRoundDown w md g neg m e (rmin s) = mkNumber neg (if rounds md g m then m - 1 else m) e.
Proof.
  intros Hm He. unfold doRoundDown. destruct (rounds md g m).
  - rewrite (wrap_small (bits w) (m - 1)) by (destruct w; scale_lia s). rewrite (proj2 (Z.ltb_ge (m - 1) (rmin s))) by scale_lia s. unfold bringIntoRange.
    rewrite (proj2 (Z.ltb_ge (m - 1) (rmin s))) by scale_lia s. by rewrite (proj2 (Z.ltb_ge e kMinExponent)).
  - unfold bringIntoRange.
    rewrite (proj2 (Z.ltb_ge m (rmin s))) by scale_lia s. by rewrite (proj2 (Z.ltb_ge e kMinExponent)).
Qed.

Lemma normalize_any md s x : 0 < mantissa_ x < 2 ^ 64 ->
  normalizes s U64 md (negative_ x) (inject_Z (mantissa_ x) * p10 (exponent_ x)) (normalize (mkEnv md s) x).
Proof.
  intros Hm. apply doNormalize_cases; [done| |apply slight_exact; [lia|done]].
  eapply guards_ext; [|apply newGuard_guards]. ring.
Qed.

(** A difference of mantissas, before digits are taken back. *)
Record differs (s : MantissaScale) (x y : Number) (g : Guard) (neg : bool) (m e : Z) (X : Q) : Prop := {
  differs_value : (X * p10 e == if Bool.eqb neg (negative_ x) then mag x - mag y else mag y - mag x)%Q;
  differs_sign : neg = negative_ x \/ neg = negative_ y;
  differs_guard : sbit_ g = negb neg \/ (inject_Z m == X)%Q;
  differs_exp : kMinExponent <= e <= kMaxExponent;
  differs_max : m <= Z.max (mantissa_ x) (mantissa_ y)
}.

Section diff.
Context (md : RoundingMode) (s : MantissaScale) (x y : Number).
Hypotheses (Hx : normal s x) (Hy : normal s y).
Hypotheses (Hs : negative_ x = negb (negative_ y)) (Hne : number_eqb x (opp y) = false).

Lemma opp_mantissa : exponent_ x = exponent_ y -> mantissa_ x <> mantissa_ y.
Proof using All.
  intros Ee Em. rewrite <-not_true_iff_false, number_eqb_spec in Hne. apply Hne. unfold opp.
  destruct Hy as [Hf _]. rewrite (proj2 (Z.eqb_neq (mantissa_ y) 0)) by scale_lia s.
  rewrite <-Hs, <-Em, <-Ee. by destruct x.
Qed.

Lemma add_diff : let '(g, xm, ym, xe, ye) := alignOperands x y in
  exists neg m k X,
    (if ym <? xm then (negative_ x, xm - ym, xe) else (negative_ y, ym - xm, ye)) = (neg, m, xe) /\
    guards g k (inject_Z m - X) /\ 0 < m <= rmax s /\
    ((inject_Z m == X)%Q /\ k = O \/ k = 1%nat /\ xbit_ g = false \/ (2 <= k)%nat /\ 9 * rmin s <= 10 * m) /\
    differs s x y g neg m xe X.
Proof using All.
  pose proof (alignOperands_spec s x y Hx Hy) as Ha. pose proof opp_mantissa as Hom.
  destruct Hx as [[Hxm _] Hxe], Hy as [[Hym _] Hye].
  assert (Bool.eqb (negative_ y) (negative_ x) = false) as Hyx by (rewrite Hs; by destruct (negative_ y)).
  assert (forall a b, inject_Z (a - b) == inject_Z a - inject_Z b)%Q as Hsub.
  { intros a b. unfold Z.sub. by rewrite inject_Z_plus, inject_Z_opp. }
  destruct (alignOperands x y) as [[[[g xm] ym] xe] ye].
  destruct Ha as [<- [(Hsh & -> & -> & Hlt)|[(Hsh & -> & -> & Hlt)|(-> & -> & -> & -> & Ee)]]].
  - destruct Hsh as [Hsb (k & (H0 & X & Hst & E) & Hk) Hsm].
    rewrite (proj2 (Z.ltb_ge (mantissa_ y) xm)) by scale_lia s.
    eexists _, _, k, (inject_Z (mantissa_ y) - X)%Q. split_and!; [done| |scale_lia s..| |].
    + eapply guards_ext; [|exact Hst]. rewrite Hsub. ring.
    + right. destruct Hk as [?|[? ?]]; [by left|right]. split; [done|scale_lia s].
    + split; [rewrite Hyx, <-E; unfold mag; ring|by right|left; congruence|done|lia].
  - destruct Hsh as [Hsb (k & (H0 & X & Hst & E) & Hk) Hsm].
    rewrite (proj2 (Z.ltb_lt ym (mantissa_ x))) by scale_lia s.
    eexists _, _, k, (inject_Z (mantissa_ x) - X)%Q. split_and!; [done| |scale_lia s..| |].
    + eapply guards_ext; [|exact Hst]. rewrite Hsub. ring.
    + right. destruct Hk as [?|[? ?]]; [by left|right]. split; [done|scale_lia s].
    + split; [rewrite eqb_reflx, <-E; unfold mag; ring|by left|left; rewrite Hsb, Hs; by destruct (negative_ y)|done|lia].
  - specialize (Hom Ee).
    destruct (Z.ltb_spec (mantissa_ y) (mantissa_ x)) as [Hlt|Hge].
    + exists (negative_ x), (mantissa_ x - mantissa_ y), O, (inject_Z (mantissa_ x - mantissa_ y)).
      split_and!; [done|eapply guards_ext; [|apply (newGuard_guards false)]; ring|scale_lia s..|by left|].
      split; [rewrite eqb_reflx, Hsub; unfold mag; rewrite Ee; ring|by left|by right|done|scale_lia s].
    + exists (negative_ y), (mantissa_ y - mantissa_ x), O, (inject_Z (mantissa_ y - mantissa_ x)).
      split_and!; [by rewrite Ee|eapply guards_ext; [|apply (newGuard_guards false)]; ring|scale_lia s..|by left|].
      split; [rewrite Hyx, Hsub; unfold mag; rewrite Ee; ring|by right|by right|done|scale_lia s].
Qed.

Lemma add_diff_rounds : exists g k neg m e X,
  add (mkEnv md s) x y =
    (let z := doRoundDown U128 md g neg m e (rmin s) in
     normalize (mkEnv md s) (mkNumber (negative_ z) (wrap 64 (mantissa_ z)) (exponent_ z))) /\
  guards g k (inject_Z m - X) /\ ((0 < k)%nat \/ (inject_Z m - X < 1 # 2)%Q) /\
  (rmin s <= m \/ kMaxRep < 10 * m) /\ m <= rmax s /\ e <= kMaxExponent /\ (m <= kMaxRep \/ kMinExponent <= e /\ m <= Z.max (mantissa_ x) (mantissa_ y)) /\
  (X * p10 e == if Bool.eqb neg (negative_ x) then mag x - mag y else mag y - mag x)%Q /\
  (neg = negative_ x \/ neg = negative_ y) /\ (sbit_ g = negb neg \/ (inject_Z m == X)%Q).
Proof using All.
  unfold add. rewrite !(normal_eqb s), Hne by done. pose proof add_diff as Hd.
  destruct (alignOperands x y) as [[[[g xm] ym] xe] ye]. destruct Hd as (neg & m & k & X & E & Hg & Hm & Hk & Hd).
  assert (Bool.eqb (negative_ x) (negative_ y) = false) as -> by (rewrite Hs; by destruct (negative_ y)).
  cbn [mbind result_bind]. unfold subMantissas, range. cbn [kRange mode]. rewrite E.
  destruct (regrow_spec s g k m xe X Hg Hm Hk) as (g' & k' & m' & e' & X' & -> & Hsb & Hg' & Hk' & EX & Ht & Hex).
  destruct Hd as [Hv Hsg Hgd He Hmax]. unfold taken in Ht.
  exists g', k', neg, m', e', X'. split_and!; try done; try lia.
  - by rewrite EX.
  - rewrite Hsb. destruct Hgd; auto.
Qed.

Lemma add_diff_closed z : add (mkEnv md s) x y = Ok z -> z = kZero \/ normal s z.
Proof using All.
  destruct add_diff_rounds as (g & k & neg & m & e & X & -> & Hg & Hk & Hlo & Hhi & He & Hc & _). cbn zeta.
  destruct (Z.le_gt_cases m kMaxRep) as [Hle|Hgt].
  - assert (regrown s m) as Hr by done.
    pose proof (doRoundDown_normal s U128 md g neg m e _ Hr He eq_refl) as Hn.
    rewrite (narrow_normal s) by done. intros Ez. by rewrite (normalize_closed md s _ _ Hn Ez).
  - rewrite doRoundDown_big by lia. cbn [negative_ mantissa_ exponent_].
    rewrite wrap_small by (destruct (rounds md g m); scale_lia s).
    eapply normalizes_closed, normalize_any. cbn [mantissa_]. destruct (rounds md g m); scale_lia s.
Qed.
End diff.

(** Above the largest mantissa a digit is dropped after the difference was
    rounded; the directed modes round the same way twice. *)
Lemma directed_drop md (neg : bool) m : kMaxRep < m <= rmax Large -> md = Downward \/ md = Upward ->
  let g := if neg then setNegative newGuard else newGuard in
  let q := if rounds md (push (m mod 10) g) (m / 10) then m / 10 + 1 else m / 10 in
  -9 <= 10 * q - m <= 9 /\ side md neg (inject_Z m) (inject_Z (10 * q)).
Proof.
  intros Hm Hmd g q. pose proof (Z.mod_pos_bound m 10 ltac:(lia)) as Hr. pose proof (Z.div_mod m 10 ltac:(lia)) as Em.
  pose proof (push_guards g 0 0 (m mod 10) (newGuard_guards neg) Hr) as Hg.
  pose proof (rounds_cases md _ _ _ (m / 10) Hg ltac:(left; lia)) as Hc. cbn zeta in Hc. rewrite push_sbit in Hc.
  assert (sbit_ g = neg) as Hsb by (unfold g; by destruct neg). rewrite Hsb in Hc.
  assert (forall b, (0 < (inject_Z b + 0) / 10)%Q -> 0 < b) as Hpos.
  { intros b Hb. rewrite inject_Z_lt. change (inject_Z 0) with 0%Q. unfold Qdiv in Hb. change (/ 10)%Q with (1 # 10)%Q in Hb. lra. }
  assert (forall b, ((inject_Z b + 0) / 10 <= 0)%Q -> b <= 0) as Hneg.
  { intros b Hb. rewrite inject_Z_le. change (inject_Z 0) with 0%Q. unfold Qdiv in Hb. change (/ 10)%Q with (1 # 10)%Q in Hb. lra. }
  unfold q, side. destruct Hmd as [->| ->], neg, (rounds _ _ (m / 10)); try done;
    rewrite <-inject_Z_le; try apply Hpos in Hc; try apply Hneg in Hc; lia.
Qed.

Lemma directed_drop_outcome md (neg : bool) m e X : kMaxRep < m <= rmax Large ->
  kMinExponent <= e < kMaxExponent -> md = Downward \/ md = Upward -> (10 <= ulp X)%Q -> (0 <= X)%Q ->
  close md neg 1 X (inject_Z m) ->
  let g := if neg then setNegative newGuard else newGuard in
  outcome md neg (X * p10 e)
    (doRoundUp 1 U64 md (push (m mod 10) g) neg (m / 10) (e + 1) (rmin Large) (rmax Large) true
      "Number::normalize 2").
Proof.
  intros Hm He Hmd Hu HX [Hb Hsd] g.
  destruct (directed_drop md neg m Hm Hmd) as [Hq Hside]. fold g in Hq, Hside.
  pose proof (Z.div_mod m 10 ltac:(lia)). pose proof (Z.mod_pos_bound m 10 ltac:(lia)).
  assert (almost Large (m / 10)) as Ha by scale_lia Large.
  destruct (doRoundUp_cases Large U64 md (push (m mod 10) g) neg (m / 10) (e + 1) "Number::normalize 2" Ha)
    as (q & e' & E & Haq & Hc).
  cbn [isCuspFixEnabled] in E. rewrite E. destruct Hc as [[-> Eq]|(_ & _ & [(_ & Hbad & _)|[? _]])]; [|scale_lia Large|done].
  rewrite <-Eq in Hq, Hside. apply almost_finish in Haq as (H1 & H2 & H3).
  pose proof (finishRound_spec Large U64 neg q (e + 1) "Number::normalize 2" H1 H2 H3) as Hf.
  destruct (finishRound _ _ _ _ _ _) as [z|msg]; cbn [outcome]; [|destruct (q <? rmin Large); lia].
  destruct Hf as [[_ Hz]|(Hneg & Hn & Hv)]; [destruct (q <? rmin Large); lia|].
  right. split_and!; [done..|]. apply finish_mag in Hv.
  assert (close md neg (ulp X) X (inject_Z (10 * q))) as Hcl.
  { destruct Hq as [Hq1 Hq2]. rewrite inject_Z_le in Hq1, Hq2. unfold Z.sub in Hq1, Hq2.
    rewrite inject_Z_plus, inject_Z_opp in Hq1, Hq2. change (inject_Z (-9)) with (-9)%Q in Hq1. change (inject_Z 9) with 9%Q in Hq2.
    unfold close, side, tol in *. destruct Hmd as [->| ->]; destruct neg; lra. }
  apply (close_scale _ _ _ _ _ (p10 e)) in Hcl; [|apply p10_pos].
  eapply close_ext; [..|exact Hcl]; [unfold ulp; field; by vm_compute|ring|].
  rewrite Hv, p10_S, inject_Z_mult. change (inject_Z 10) with 10%Q. ring.
Qed.

Lemma cusp_down_outcome md g k neg m e X : kMaxRep < m <= rmax Large -> kMinExponent <= e <= kMaxExponent ->
  guards g k (inject_Z m - X) -> (0 < k)%nat \/ (inject_Z m - X < 1 # 2)%Q -> md = Downward \/ md = Upward ->
  sbit_ g = negb neg \/ (inject_Z m == X)%Q ->
  outcome md neg (X * p10 e)
    (normalize (mkEnv md Large) (mkNumber neg (if rounds md g m then m - 1 else m) e)).
Proof.
  intros Hm He Hg Hk Hmd Hsb.
  pose proof (rounds_down_close md g k m X neg Hg Hk ltac:(destruct Hmd; congruence) Hsb) as Hcl.
  pose proof (guards_range _ _ _ Hg) as Hf. set (m' := if rounds md g m then m - 1 else m) in *.
  assert (kMaxRep <= m' <= rmax Large) as Hm' by (unfold m'; destruct (rounds md g m); scale_lia Large).
  assert (inject_Z (9 * 10 ^ 18 + 2) <= inject_Z m)%Q as HmQ by (rewrite <-inject_Z_le; unfold kMaxRep in *; lia).
  rewrite inject_Z_plus in HmQ. change (inject_Z 2) with 2%Q in HmQ.
  assert (10 <= ulp X)%Q as Hu.
  { change 10%Q with (inject_Z 10). apply ulp_ge. change (10 * (9 * 10 ^ 17)) with (9 * 10 ^ 18). lra. }
  assert (0 <= X)%Q as HX0 by (pose proof (ulp_times X) as Eu; change (inject_Z (9 * 10 ^ 17)) with (900000000000000000 # 1)%Q in Eu; lra).
  rewrite normalize_range by scale_lia Large.
  destruct (Z.ltb_spec kMaxRep m') as [Hgt|Hle]; [destruct (Z.leb_spec kMaxExponent e) as [Hge|Hlt]|].
  - cbn [outcome]. apply (above_largest _ _ (9 * 10 ^ 18) 0); [lra|lia|lia|lia].
  - apply (directed_drop_outcome md neg m' e X); try done; lia.
  - rewrite doRoundUp_exact, finishRound_id; [|scale_lia Large|done|eapply rounds_zero; [apply newGuard_guards|done]].
    right. split_and!; [split; [cbn [mantissa_]; scale_lia Large|done]|done|].
    apply (close_finish _ _ _ m'); [done|change (inject_Z 1) with 1%Q; lra|done|done].
Qed.

Lemma add_diff_outcome md x y : normal Large x -> normal Large y -> negative_ x = negb (negative_ y) ->
  number_eqb x (opp y) = false ->
  md = Downward \/ md = Upward \/ md = ToNearest /\ mantissa_ x <= kMaxRep /\ mantissa_ y <= kMaxRep ->
  exists neg X, (neg = negative_ x \/ neg = negative_ y) /\
    (X == if Bool.eqb neg (negative_ x) then mag x - mag y else mag y - mag x)%Q /\ (0 < X)%Q /\
    outcome md neg X (add (mkEnv md Large) x y).
Proof.
  intros Hx Hy Hs Hne Hmd.
  destruct (add_diff_rounds md Large x y Hx Hy Hs Hne)
    as (g & k & neg & m & e & X & -> & Hg & Hk & Hlo & Hhi & He & Hc & EX & Hsg & Hsb).
  exists neg, (X * p10 e)%Q. split_and!; [done..| |].
  { apply Qmult_lt_0_compat; [|apply p10_pos]. apply guards_range in Hg.
    assert (inject_Z 1 < inject_Z m)%Q by (rewrite <-inject_Z_lt; scale_lia Large).
    change (inject_Z 1) with 1%Q in *. lra. }
  cbn zeta. destruct (Z.le_gt_cases m kMaxRep) as [Hle|Hgt].
  - assert (regrown Large m) as Hr by done.
    pose proof (doRoundDown_normal Large U128 md g neg m e _ Hr He eq_refl) as Hn.
    rewrite (narrow_normal Large) by done. apply rounded_normalize.
    eapply doRoundDown_rounded; try done. destruct Hmd as [->|[->|[-> _]]]; done.
  - rewrite doRoundDown_big by lia. cbn [negative_ mantissa_ exponent_].
    rewrite wrap_small by (destruct (rounds md g m); scale_lia Large).
    destruct Hmd as [Hmd|[Hmd|Hmd]]; [..|lia]; (eapply cusp_down_outcome; [lia|lia|done|done|auto|done]).
Qed.
