(* ===== verification/NumberProps.v ===== *)
(** * What the arithmetic of numbers guarantees

    Results are normal numbers on every scale, correctly rounded on the scale
    with the rounding fix; comparison is the order of the values, and integers
    survive the conversion in both directions. *)

From Stdlib Require Import QArith Qabs Qpower Lqa Qfield.
From S2P Require Import Prelude Number NumberSpec NumberOps NumberAdd.
Open Scope Z_scope.

(** ** Closure *)

Lemma opp_normal s y : y = kZero \/ normal s y -> opp y = kZero \/ normal s (opp y).
Proof.
  intros [->|[Hf He]]; [by left|]. unfold opp.
  destruct (Z.eqb_spec (mantissa_ y) 0); [by left|right; by split].
Qed.

Lemma add_closed md s x y z : x = kZero \/ normal s x -> y = kZero \/ normal s y ->
  add (mkEnv md s) x y = Ok z -> z = kZero \/ normal s z.
Proof.
  intros [->|Hx] [->|Hy].
  - cbn. intros [= <-]. by left.
  - unfold add. rewrite (normal_eqb s) by done. cbn. intros [= <-]. by right.
  - unfold add. cbn. intros [= <-]. by right.
  - destruct (number_eqb x (opp y)) eqn:Hne.
    { unfold add. rewrite !(normal_eqb s), Hne by done. intros [= <-]. by left. }
    destruct (Bool.eqb (negative_ x) (negative_ y)) eqn:Hs.
    + apply eqb_prop in Hs. by apply add_same_closed.
    + apply add_diff_closed; try done. destruct (negative_ x), (negative_ y); done.
Qed.

Lemma number_of_closed md s m e z : - 2 ^ 63 <= m < 2 ^ 63 ->
  number_of (mkEnv md s) m e = Ok z -> z = kZero \/ normal s z.
Proof.
  intros Hm. unfold number_of, externalToInternal. destruct (decide (m = 0)) as [->|Hne].
  - cbn. intros [= <-]. by left.
  - eapply normalizes_closed, normalize_any. cbn [mantissa_]. lia.
Qed.

(** C15. The operators of [Number] stay within the normal numbers, on every
    mantissa scale and in every rounding mode: what addition, subtraction,
    multiplication or division of normal numbers returns, and what a number
    is constructed to be from a 64-bit integer and any exponent, is again
    normal, that is zero or a mantissa in range with an exponent in range. *)
Theorem arithmetic_normal (env : Env) (x y z : Number) (m e : Z) :
  isnormal env x = true -> isnormal env y = true -> - 2 ^ 63 <= m < 2 ^ 63 ->
  In (Ok z) [add env x y; sub env x y; mul env x y; div env x y; number_of env m e] ->
  isnormal env z = true.
Proof.
  destruct env as [md s]. rewrite !isnormal_spec. intros Hx Hy Hm [E|[E|[E|[E|[E|[]]]]]].
  - exact (add_closed md s x y z Hx Hy E).
  - eapply add_closed; [exact Hx|apply opp_normal, Hy|exact E].
  - destruct Hx as [->|Hx]; [injection E as <-; by left|].
    destruct Hy as [->|Hy]; [|exact (mul_closed md s x y Hx Hy z E)].
    unfold mul in E. rewrite (normal_eqb s) in E by done. injection E as <-. by left.
  - destruct Hy as [->|Hy]; [done|].
    destruct Hx as [->|Hx]; [|exact (div_closed md s x y Hx Hy z E)].
    unfold div in E. rewrite (normal_eqb s) in E by done. injection E as <-. by left.
  - exact (number_of_closed md s m e z Hm E).
Qed.

(** ** Accuracy *)

(** What a rounded result of exact value [V] is.  A value below the smallest
    number gives zero; otherwise the result differs by at most a unit of an
    eighteen digit mantissa, half of it to nearest, on the side the mode asks
    for.  Overflow is thrown only above [largest]. *)
Definition faithful (md : RoundingMode) (V : Q) (r : result Number) : Prop :=
  match r with
  | Ok z =>
      z = kZero /\ (Qabs V < smallest)%Q \/
      normal Large z /\ (Qabs (val z - V) <= tol md * ulp (Qabs V))%Q /\
      match md with
      | ToNearest => True
      | TowardsZero => (Qabs (val z) <= Qabs V)%Q
      | Downward => (val z <= V)%Q
      | Upward => (V <= val z)%Q
      end
  | Throw _ => (largest <= Qabs V)%Q
  end.

Lemma mag_pos s z : normal s z -> (0 < mag z)%Q.
Proof.
  intros [Hf _]. apply Qmult_lt_0_compat; [|apply p10_pos].
  change 0%Q with (inject_Z 0). rewrite <-inject_Z_lt. scale_lia s.
Qed.

Lemma Qabs_sign (neg : bool) X V : (0 <= X)%Q -> (V == if neg then - X else X)%Q -> (Qabs V == X)%Q.
Proof.
  intros HX E. rewrite E. destruct neg; [rewrite Qabs_opp|]; by apply Qabs_pos.
Qed.

Lemma outcome_faithful md (neg : bool) X V r : (0 <= X)%Q -> (V == if neg then - X else X)%Q ->
  outcome md neg X r -> faithful md V r.
Proof.
  intros HX E Ho. pose proof (Qabs_sign neg X V HX E) as Ha. destruct r as [z|msg]; cbn [outcome faithful] in *; [|by rewrite Ha].
  destruct Ho as [[-> Hlt]|(Hn & Hneg & [Hb Hs])]; [left; split; [done|by rewrite Ha]|right].
  pose proof (mag_pos _ _ Hn) as Hz. split_and!; [done| |].
  - unfold ulp in *. rewrite Ha. apply Qabs_Qle_condition. rewrite E. unfold val. rewrite Hneg. destruct neg; lra.
  - unfold side in Hs. assert (Qabs (val z) == mag z)%Q as Hv.
    { apply (Qabs_sign neg); [lra|]. unfold val. by rewrite Hneg. }
    destruct md; [done|by rewrite Ha, Hv|..]; rewrite E; unfold val; rewrite Hneg; destruct neg; lra.
Qed.

Lemma faithful_exact md x : x = kZero \/ normal Large x -> faithful md (val x) (Ok x).
Proof.
  intros [->|Hn]; cbn [faithful].
  - left. split; [done|]. unfold val, mag. cbn [negative_ kZero mantissa_].
    assert (inject_Z 0 * p10 (exponent_ kZero) == 0)%Q as -> by ring.
    unfold smallest. apply Qmult_lt_0_compat; [done|apply p10_pos].
  - right. split; [done|].
    assert (val x - val x == 0)%Q as -> by ring.
    split; [|destruct md; apply Qle_refl || done].
    apply Qmult_le_0_compat; [by destruct md|]. unfold ulp. apply Qle_shift_div_l; [done|].
    rewrite Qmult_0_l. apply Qabs_nonneg.
Qed.

Lemma val_sign x : (val x == if negative_ x then - mag x else mag x)%Q.
Proof. done. Qed.
Lemma val_zero : (val kZero == 0)%Q.
Proof. unfold val, mag. cbn [negative_ kZero mantissa_]. ring. Qed.
Lemma faithful_ext md V V' r : (V == V')%Q -> faithful md V r -> faithful md V' r.
Proof.
  intros E. unfold faithful, ulp. destruct r as [z|msg]; [|by rewrite E].
  intros [[-> Hz]|(Hn & Hb & Hm)]; [left; by rewrite <-E|right].
  split_and!; [done|by rewrite <-E|]. destruct md; [done|by rewrite <-E..].
Qed.
Lemma faithful_zero md V : (V == 0)%Q -> faithful md V (Ok kZero).
Proof.
  intros E. eapply faithful_ext; [|apply (faithful_exact md kZero); by left]. rewrite E. apply val_zero.
Qed.

Lemma mul_faithful md x y : x = kZero \/ normal Large x -> y = kZero \/ normal Large y ->
  faithful md (val x * val y) (mul (mkEnv md Large) x y).
Proof.
  intros [->|Hx]; [intros _; apply faithful_zero; rewrite val_zero; ring|].
  intros [->|Hy].
  { unfold mul. rewrite (normal_eqb Large x Hx). apply faithful_zero. rewrite val_zero. ring. }
  eapply outcome_faithful; [| |by apply mul_outcome].
  - apply Qmult_le_0_compat; apply Qlt_le_weak; by eapply mag_pos.
  - unfold val. destruct (negative_ x), (negative_ y); cbn; ring.
Qed.

Lemma div_faithful md x y : x = kZero \/ normal Large x -> normal Large y ->
  faithful md (val x / val y) (div (mkEnv md Large) x y).
Proof.
  intros [->|Hx] Hy.
  { unfold div. rewrite (normal_eqb Large y Hy). apply faithful_zero. rewrite val_zero. unfold Qdiv. ring. }
  pose proof (mag_pos _ _ Hx). pose proof (mag_pos _ _ Hy).
  eapply outcome_faithful; [| |by apply div_outcome].
  - apply Qle_shift_div_l; [done|]. lra.
  - unfold val. destruct (negative_ x), (negative_ y); cbn; field; lra.
Qed.

(** C16. On the scale with the rounding fix, products and quotients of normal
    numbers are correctly rounded in every mode: the result is within a unit
    of an eighteen digit mantissa of the exact value (half a unit to
    nearest), and on the side of it that the rounding mode names, zero below
    the smallest number, and an exception only from the largest number on.
    Division by zero throws. *)
Theorem mul_div_rounded (md : RoundingMode) (x y : Number) :
  isnormal (mkEnv md Large) x = true -> isnormal (mkEnv md Large) y = true ->
  faithful md (val x * val y) (mul (mkEnv md Large) x y) /\
  (if number_eqb y kZero then div (mkEnv md Large) x y = Throw "Number: divide by 0"
   else faithful md (val x / val y) (div (mkEnv md Large) x y)).
Proof.
  rewrite !isnormal_spec. intros Hx Hy. split; [by apply mul_faithful|].
  destruct Hy as [->|Hy]; [done|]. rewrite (normal_eqb Large y Hy). by apply div_faithful.
Qed.

(** The sums whose rounding does not follow the mode: the sign of the guard is
    not set when the exponents are equal, the digits of a number subtracted
    are ignored towards zero, and a difference above [kMaxRep] is rounded to
    nearest twice. *)
Definition deviates (md : RoundingMode) (x y : Number) : bool :=
  if Bool.eqb (negative_ x) (negative_ y) then
    match md with
    | Downward | Upward =>
        negative_ x && (exponent_ x =? exponent_ y) && (kMaxRep <? mantissa_ x + mantissa_ y)
    | _ => false
    end
  else
    match md with
    | TowardsZero => true
    | ToNearest => (kMaxRep <? mantissa_ x) || (kMaxRep <? mantissa_ y)
    | _ => false
    end.

Lemma opp_val y : (val (opp y) == - val y)%Q.
Proof.
  unfold opp. destruct (Z.eqb_spec (mantissa_ y) 0) as [E|E].
  - rewrite val_zero. unfold val, mag. rewrite E. destruct (negative_ y); ring.
  - unfold val, mag. cbn. destruct (negative_ y); cbn; ring.
Qed.

Lemma add_faithful md x y : x = kZero \/ normal Large x -> y = kZero \/ normal Large y ->
  deviates md x y = false -> faithful md (val x + val y) (add (mkEnv md Large) x y).
Proof.
  intros Hx [->|Hy] Hd.
  { unfold add. cbn [number_eqb]. change (number_eqb kZero kZero) with true. cbn iota.
    eapply faithful_ext; [|by apply faithful_exact]. rewrite val_zero. ring. }
  destruct Hx as [->|Hx].
  { unfold add. rewrite (normal_eqb Large y Hy). change (number_eqb kZero kZero) with true. cbn iota.
    eapply faithful_ext; [|apply faithful_exact; by right]. rewrite val_zero. ring. }
  pose proof (mag_pos _ _ Hx). pose proof (mag_pos _ _ Hy).
  destruct (Bool.eqb (negative_ x) (negative_ y)) eqn:Hs.
  { apply eqb_prop in Hs. eapply (outcome_faithful _ (negative_ x) (mag x + mag y)); [lra| |apply add_same_outcome; try done].
    - unfold val. rewrite <-Hs. destruct (negative_ x); ring.
    - unfold deviates in Hd. rewrite <-Hs, eqb_reflx in Hd.
      destruct md; auto; rewrite !andb_false_iff, Z.eqb_neq, Z.ltb_ge in Hd; tauto. }
  assert (negative_ x = negb (negative_ y)) as Hn by (by destruct (negative_ x), (negative_ y)).
  destruct (number_eqb x (opp y)) eqn:Hne.
  { unfold add. rewrite !(normal_eqb Large), Hne by done. apply faithful_zero.
    apply number_eqb_spec in Hne. rewrite Hne, opp_val. ring. }
  destruct (add_diff_outcome md x y Hx Hy Hn Hne) as (neg & X & Hsg & EX & HX & Ho).
  { unfold deviates in Hd. rewrite Hs in Hd. destruct md; auto; [|done].
    rewrite orb_false_iff, !Z.ltb_ge in Hd. tauto. }
  eapply (outcome_faithful _ neg X); [lra| |done]. unfold val. rewrite Hn in EX, Hsg |- *.
  destruct (negative_ y); cbn [negb] in *; destruct Hsg as [-> | ->]; cbn in EX; rewrite EX; ring.
Qed.

(** C17. On the scale with the rounding fix, sums and differences of normal
    numbers are correctly rounded, outside the three families of operands
    that [deviates] names: within a unit of an eighteen digit mantissa of
    the exact value, on the side of it that the mode asks for, zero below the
    smallest number, and an exception only from the largest number on. *)
Theorem add_sub_rounded (md : RoundingMode) (x y : Number) :
  isnormal (mkEnv md Large) x = true -> isnormal (mkEnv md Large) y = true ->
  (deviates md x y = false -> faithful md (val x + val y) (add (mkEnv md Large) x y)) /\
  (deviates md x (opp y) = false -> faithful md (val x - val y) (sub (mkEnv md Large) x y)).
Proof.
  rewrite !isnormal_spec. intros Hx Hy. split; [by apply add_faithful|]. intros Hd.
  eapply faithful_ext; [|apply add_faithful; [done|by apply opp_normal|done]]. rewrite opp_val. ring.
Qed.

(** *** The sums that are left out

    Nothing but the sign of the result depends on the sign a sum is given. *)
Definition mirrored (r1 r2 : result Number) : Prop :=
  match r1, r2 with
  | Ok z1, Ok z2 => z1 = kZero /\ z2 = kZero \/ exists m e, z1 = mkNumber true m e /\ z2 = mkNumber false m e
  | Throw e1, Throw e2 => e1 = e2
  | _, _ => False
  end.

Lemma finishRound_mirrored w m e mn loc : mirrored (finishRound w true m e mn loc) (finishRound w false m e mn loc).
Proof.
  unfold finishRound, bringIntoRange. destruct (if m <? mn then _ else _) as [m' e'].
  destruct (e' <? kMinExponent); [by left|]. cbn [exponent_]. destruct (kMaxExponent <? e'); [done|]. right. by exists m', e'.
Qed.

Lemma doRoundUp_mirrored fuel w md g m e mn mx cusp loc :
  mirrored (doRoundUp fuel w md g true m e mn mx cusp loc) (doRoundUp fuel w md g false m e mn mx cusp loc).
Proof.
  revert g m e. induction fuel as [|fuel IH]; intros g m e; cbn [doRoundUp];
    (destruct (rounds md g m); [|apply finishRound_mirrored]); (destruct cusp; [|case_match; apply finishRound_mirrored]);
    (destruct (_ && _); [apply finishRound_mirrored|]); [done|].
  destruct (doDropDigit w g m e) as [[g' m'] e']. apply IH.
Qed.

Definition negated (r : result Number) : result Number := z ← r; Ok (opp z).

Lemma add_equal md x y : normal Large x -> normal Large y -> negative_ x = negative_ y -> exponent_ x = exponent_ y ->
  let r := addMantissas (mkEnv md Large) newGuard (negative_ x) (mantissa_ x) (mantissa_ y) (exponent_ x) in
  add (mkEnv md Large) x y = (r ≫= normalize (mkEnv md Large)) /\ forall z, r = Ok z -> z = kZero \/ normal Large z.
Proof.
  intros Hx Hy Hs He r. pose proof (add_same_sum md Large x y Hx Hy Hs) as Hsum.
  assert (alignOperands x y = (newGuard, mantissa_ x, mantissa_ y, exponent_ x, exponent_ y)) as Ea.
  { unfold alignOperands. by rewrite He, Z.ltb_irrefl. }
  rewrite Ea in Hsum. destruct Hsum as (Hm & Hr & _).
  destruct (addMantissas_ready md Large newGuard (negative_ x) _ _ _ _ Hm Hr) as (g & m & e & E & _ & [Ha _] & _).
  assert (forall z, r = Ok z -> z = kZero \/ normal Large z) as Hn.
  { intros z Ez. unfold r in Ez. rewrite E in Ez. eapply doRoundUp_normal; [exact Ha|exact Ez]. }
  split; [|exact Hn]. unfold add. rewrite !(normal_eqb Large), (same_not_opp md Large x y Hx Hy Hs), Ea, <-Hs, eqb_reflx by done.
  fold r. destruct r as [z|msg]; [|done]. cbn [mbind result_bind]. by rewrite (narrow_normal Large) by (by apply Hn).
Qed.

Lemma add_negated md x y : normal Large x -> normal Large y -> negative_ x = true -> negative_ y = true ->
  exponent_ x = exponent_ y -> add (mkEnv md Large) x y = negated (add (mkEnv md Large) (opp x) (opp y)).
Proof.
  intros Hx Hy Hnx Hny He.
  assert (forall z, normal Large z -> opp z = mkNumber (negb (negative_ z)) (mantissa_ z) (exponent_ z)) as Ho.
  { intros z [Hf _]. unfold opp. by rewrite (proj2 (Z.eqb_neq (mantissa_ z) 0)) by scale_lia Large. }
  destruct (add_equal md x y Hx Hy ltac:(congruence) He) as [-> Hc1].
  destruct (add_equal md (opp x) (opp y)) as [-> Hc2]; [rewrite Ho by done; destruct Hx; by split|rewrite Ho by done; destruct Hy; by split|rewrite !Ho by done; cbn; congruence|by rewrite !Ho|].
  rewrite !Ho in * by done. cbn [negative_ mantissa_ exponent_] in *. rewrite Hnx in *. cbn [negb] in *.
  set (r1 := addMantissas _ _ true _ _ _) in *. set (r2 := addMantissas _ _ false _ _ _) in *.
  assert (mirrored r1 r2) as Hm.
  { unfold r1, r2, addMantissas. destruct (if _ || _ then doDropDigit _ _ _ _ else _) as [[g m] e]. apply doRoundUp_mirrored. }
  clearbody r1 r2. destruct r1 as [z1|], r2 as [z2|]; cbn in Hm; [|done|done|by rewrite Hm].
  destruct Hm as [[-> ->]|(m & e & -> & ->)]; cbn [mbind result_bind]; [by rewrite normalize_zero|].
  destruct (Hc1 _ eq_refl) as [?|Hn1]; [done|]. destruct (Hc2 _ eq_refl) as [E0|Hn2].
  { destruct Hn1 as [Hf _]. injection E0 as -> ->. cbn in Hf. scale_lia Large. }
  rewrite !normalize_normal by done. cbn [mantissa_ exponent_]. unfold negated. destruct (_ && _); [done|]. cbn [mbind result_bind].
  by rewrite Ho.
Qed.

Lemma add_towards_zero x y z : normal Large x -> normal Large y -> negative_ x <> negative_ y ->
  mantissa_ x <= kMaxRep -> mantissa_ y <= kMaxRep ->
  add (mkEnv TowardsZero Large) x y = Ok z -> z <> kZero -> (Qabs (val x + val y) <= Qabs (val z))%Q.
Proof.
  intros Hx Hy Hs Hmx Hmy Ez Hz.
  assert (negative_ x = negb (negative_ y)) as Hn by (by destruct (negative_ x), (negative_ y)).
  destruct (number_eqb x (opp y)) eqn:Hne.
  { unfold add in Ez. rewrite !(normal_eqb Large), Hne in Ez by done. congruence. }
  destruct (add_diff_rounds TowardsZero Large x y Hx Hy Hn Hne)
    as (g & k & neg & m & e & X & E & Hg & _ & Hlo & Hhi & He & Hc & EX & Hsg & _).
  rewrite E in Ez. cbn zeta in Ez. assert (regrown Large m) as Hr by (split; lia).
  pose proof (doRoundDown_normal Large U128 TowardsZero g neg m e _ Hr He eq_refl) as Hnz.
  rewrite (narrow_normal Large) in Ez by done. apply normalize_closed in Ez; [|done]. subst z.
  destruct (doRoundDown_cases Large U128 TowardsZero g neg m e Hr) as [[E0 _]|(_ & _ & _ & Hv)]; [done|].
  change (rounds TowardsZero g m) with false in Hv. set (z := doRoundDown _ _ _ _ _ _ _) in *.
  assert (mag z == inject_Z m * p10 e)%Q as Emz.
  { unfold mag. destruct Hv as [[-> ->]|[-> ->]]; [done|]. rewrite <-(p10_P e), inject_Z_mult. change (inject_Z 10) with 10%Q. ring. }
  apply guards_range in Hg. pose proof (p10_pos e) as Hp.
  assert (X * p10 e <= inject_Z m * p10 e)%Q as Hle by (apply Qmult_le_compat_r; lra).
  assert (0 <= X * p10 e)%Q as H0.
  { assert (inject_Z 1 < inject_Z m)%Q by (rewrite <-inject_Z_lt; scale_lia Large). change (inject_Z 1) with 1%Q in *.
    apply Qmult_le_0_compat; lra. }
  assert (forall n (q : Q), 0 <= q -> Qabs (if n : bool then - q else q) == q)%Q as Ha.
  { intros [] q Hq; [rewrite Qabs_opp|]; by apply Qabs_pos. }
  assert (val x + val y == if neg then - (X * p10 e) else X * p10 e)%Q as Exy.
  { unfold val. rewrite Hn in EX, Hsg |- *. destruct (negative_ y), neg, Hsg; try done; rewrite EX; cbn; ring. }
  rewrite Exy. unfold val. rewrite !Ha, Emz; [done|rewrite Emz; lra|done].
Qed.

(** C37. What rounds against the mode in the sums that [deviates] names.  Two
    negative numbers with equal exponents are rounded as if they were positive,
    in every mode: the sum is the opposite of the sum of their opposites, so
    that [Downward] rounds it up and [Upward] rounds it down.  And in mode
    [TowardsZero] a difference is never rounded towards zero: unless it is
    below the smallest number, the result is at least as far from zero as the
    exact difference, for all operands with mantissas up to [kMaxRep]. *)
Theorem add_deviations (md : RoundingMode) (x y : Number) :
  isnormal (mkEnv md Large) x = true -> isnormal (mkEnv md Large) y = true ->
  (negative_ x = true -> negative_ y = true -> exponent_ x = exponent_ y ->
     add (mkEnv md Large) x y = negated (add (mkEnv md Large) (opp x) (opp y))) /\
  (md = TowardsZero -> negative_ x <> negative_ y -> mantissa_ x <= kMaxRep -> mantissa_ y <= kMaxRep ->
     forall z, add (mkEnv md Large) x y = Ok z -> z <> kZero -> (Qabs (val x + val y) <= Qabs (val z))%Q).
Proof.
  rewrite !isnormal_spec. intros Hx Hy. split.
  - intros Hnx Hny He. destruct Hx as [->|Hx], Hy as [->|Hy]; [done..|]. by apply add_negated.
  - intros -> Hs Hmx Hmy z Ez Hz. destruct Hx as [->|Hx].
    { unfold add in Ez. destruct Hy as [->|Hy]; [done|]. rewrite (normal_eqb Large y Hy) in Ez.
      change (number_eqb kZero kZero) with true in Ez. injection Ez as <-. rewrite val_zero, Qplus_0_l. apply Qle_refl. }
    destruct Hy as [->|Hy]; [|by eapply add_towards_zero].
    unfold add in Ez. change (number_eqb kZero kZero) with true in Ez. injection Ez as <-. rewrite val_zero, Qplus_0_r. apply Qle_refl.
Qed.

(** Both are strict: the sum is rounded up, the tiny number subtracted is lost. *)
Lemma add_deviations_witness :
  (let x := mkNumber true 9223372036854775807 0 in let y := mkNumber true 9223372036854775806 0 in
   exists z, add (mkEnv Downward Large) x y = Ok z /\
     negated (add (mkEnv Downward Large) (opp x) (opp y)) = Ok z /\ (val x + val y < val z)%Q) /\
  (let x := mkNumber false (10 ^ 18) 0 in let y := mkNumber true (10 ^ 18) (-20) in
   exists z, add (mkEnv TowardsZero Large) x y = Ok z /\
     (Qabs (val x + val y) <= Qabs (val z))%Q /\ (0 < val x + val y < val z)%Q).
Proof.
  split.
  - set (x := mkNumber true 9223372036854775807 0). set (y := mkNumber true 9223372036854775806 0).
    destruct (add_deviations Downward x y ltac:(by vm_compute) ltac:(by vm_compute)) as [H1 _].
    specialize (H1 eq_refl eq_refl eq_refl). cbv zeta. rewrite <-H1.
    eexists; split_and!; [vm_compute; reflexivity..|]. with_strategy transparent [p10] (vm_compute; done).
  - set (x := mkNumber false (10 ^ 18) 0). set (y := mkNumber true (10 ^ 18) (-20)). cbv zeta.
    destruct (add_deviations TowardsZero x y ltac:(by vm_compute) ltac:(by vm_compute)) as [_ H2].
    assert (add (mkEnv TowardsZero Large) x y = Ok x) as E by (vm_compute; reflexivity).
    exists x. split; [exact E|]. split.
    { apply (H2 eq_refl); [..|exact E|]; vm_compute; discriminate. }
    with_strategy transparent [p10] (split; vm_compute; reflexivity).
Defined.

(** Near [kMaxRep] the result to nearest is not the nearest number: the first
    operand is nearer. *)
Example add_rounded_twice :
  exists z, let x := mkNumber false 9223372036854775830 0 in let y := mkNumber true (46 * 10 ^ 17) (-18) in
    add (mkEnv ToNearest Large) x y = Ok z /\
    (Qabs (val x - (val x + val y)) < Qabs (val z - (val x + val y)))%Q.
Proof.
  eexists. cbv zeta. split; [vm_compute; reflexivity|]. with_strategy transparent [p10] (vm_compute; reflexivity).
Qed.

(** ** Order *)

Lemma mag_lt s x y : normal s x -> normal s y ->
  exponent_ x < exponent_ y \/ exponent_ x = exponent_ y /\ mantissa_ x < mantissa_ y -> (mag x < mag y)%Q.
Proof.
  intros [[Hx _] _] [[Hy _] _] [He|[He Hm]]; unfold mag.
  - apply (Qlt_le_trans _ (inject_Z (mantissa_ y) * p10 (exponent_ x + 1))).
    + rewrite p10_S, Qmult_assoc. apply Qmult_lt_r; [apply p10_pos|]. change 10%Q with (inject_Z 10).
      rewrite <-inject_Z_mult, <-inject_Z_lt. scale_lia s.
    + rewrite !(Qmult_comm (inject_Z _)). apply Qmult_le_compat_r; [apply p10_le; lia|].
      change 0%Q with (inject_Z 0). rewrite <-inject_Z_le. scale_lia s.
  - rewrite He. apply Qmult_lt_r; [apply p10_pos|]. by rewrite <-inject_Z_lt.
Qed.

(** Comparison of the magnitudes, by exponent and then by mantissa. *)
Lemma mag_compare s x y : normal s x -> normal s y ->
  (mag x < mag y)%Q /\ (exponent_ x < exponent_ y \/ exponent_ x = exponent_ y /\ mantissa_ x < mantissa_ y) \/
  (mag y < mag x)%Q /\ (exponent_ y < exponent_ x \/ exponent_ y = exponent_ x /\ mantissa_ y < mantissa_ x) \/
  (mag x == mag y)%Q /\ exponent_ x = exponent_ y /\ mantissa_ x = mantissa_ y.
Proof.
  intros Hx Hy.
  destruct (Z.lt_trichotomy (exponent_ x) (exponent_ y)) as [He|[He|He]];
    [left|destruct (Z.lt_trichotomy (mantissa_ x) (mantissa_ y)) as [Hm|[Hm|Hm]];
      [left|right; right|right; left]|right; left].
  3: { unfold mag. by rewrite He, Hm. }
  all: split; [eapply mag_lt; eauto|auto].
Qed.

Lemma order_zero s y : normal s y ->
  number_ltb kZero y = negb (negative_ y) /\ number_ltb y kZero = negative_ y.
Proof.
  intros [Hf _]. unfold number_ltb. cbn [negative_ mantissa_ kZero]. change (0 =? 0) with true. change (0 <? 0) with false.
  assert ((0 <? mantissa_ y) = true) as -> by (apply Z.ltb_lt; scale_lia s).
  rewrite (proj2 (Z.eqb_neq (mantissa_ y) 0)) by scale_lia s. by destruct (negative_ y).
Qed.

Lemma val_inj s x y : normal s x -> normal s y -> (val x == val y)%Q -> x = y.
Proof.
  intros Hx Hy E. pose proof (mag_pos _ _ Hx) as Px. pose proof (mag_pos _ _ Hy) as Py. rewrite !val_sign in E.
  assert (negative_ x = negative_ y /\ (mag x == mag y)%Q) as [Hn Em] by (destruct (negative_ x), (negative_ y); split; try done; lra).
  destruct (mag_compare s x y Hx Hy) as [[? _]|[[? _]|(_ & He & Hm)]]; [lra..|].
  destruct x, y. cbn in *. congruence.
Qed.

Lemma order_normal s x y : normal s x -> normal s y -> number_ltb x y = true <-> (val x < val y)%Q.
Proof.
  intros Hx Hy. pose proof (mag_pos _ _ Hx) as Px. pose proof (mag_pos _ _ Hy) as Py.
  pose proof (mag_compare s x y Hx Hy) as Hc.
  assert (mantissa_ x <> 0 /\ mantissa_ y <> 0) as [Nx Ny] by (destruct Hx as [Hf _], Hy as [Hf' _]; split; scale_lia s).
  rewrite !val_sign. unfold number_ltb. rewrite (proj2 (Z.eqb_neq _ _) Nx), (proj2 (Z.eqb_neq _ _) Ny).
  destruct (negative_ x), (negative_ y); cbn [Bool.eqb negb]; [|split; intros; done || lra..|];
    destruct (Z.ltb_spec (exponent_ y) (exponent_ x)), (Z.ltb_spec (exponent_ x) (exponent_ y)); rewrite ?Z.ltb_lt;
    destruct Hc as [[? ?]|[[? ?]|(? & ? & ?)]]; split; intros; try done; lra || lia.
Qed.

(** [operator<] and [operator==] on normal numbers of one scale are the
    order and the equality of the values they represent: a value has only one
    normal representation. *)
Theorem number_order (env : Env) (x y : Number) :
  isnormal env x = true -> isnormal env y = true ->
  (number_ltb x y = true <-> (val x < val y)%Q) /\ (number_eqb x y = true <-> (val x == val y)%Q).
Proof.
  destruct env as [md s]. rewrite !isnormal_spec, number_eqb_spec. intros [->|Hx] [->|Hy].
  - rewrite !val_zero. split; [cbn|]; split; intros; try done; lra.
  - pose proof (mag_pos _ _ Hy). pose proof (normal_nonzero _ _ Hy). rewrite val_zero, (val_sign y).
    rewrite (proj1 (order_zero s y Hy)). destruct (negative_ y); (split; split; intros; try done; try lra; congruence).
  - pose proof (mag_pos _ _ Hx). pose proof (normal_nonzero _ _ Hx). rewrite val_zero, (val_sign x).
    rewrite (proj2 (order_zero s x Hx)). destruct (negative_ x); (split; split; intros; try done; try lra; congruence).
  - split; [by apply (order_normal s)|]. split; [by intros ->|by apply (val_inj s)].
Qed.

(** ** Conversion to integers *)

Lemma rep_shrink_spec n g k m e X : shifted g k m e X ->
  exists g' m', rep_shrink n g m = (g', m') /\ sbit_ g' = sbit_ g /\ m' <= m /\
    shifted g' (Nat.min 16 (k + n)) m' (e + Z.of_nat n) X.
Proof.
  revert g k m e. induction n as [|n IH]; intros g k m e Hs; cbn [rep_shrink].
  - exists g, m. rewrite Z.add_0_r, Nat.add_0_r. split_and!; [done..|].
    destruct Hs as (? & X' & Hs & E). split; [done|]. exists X'. split; [|done].
    pose proof Hs as (sig & t & <- & H16 & _). by rewrite Nat.min_r.
  - destruct (IH _ _ _ _ (shifted_drop _ _ _ _ _ Hs)) as (g' & m' & -> & Hsb & Hle & Hs').
    exists g', m'. split_and!; [done..| |].
    + etransitivity; [exact Hle|]. destruct Hs as [H0 _]. apply Z.div_le_upper_bound; lia.
    + replace (e + Z.of_nat (S n)) with (e + 1 + Z.of_nat n) by lia.
      by replace (Nat.min 16 (k + S n)) with (Nat.min 16 (Nat.min 16 (S k) + n)) by lia.
Qed.

Lemma rep_grow_spec n m : 0 < m <= kMaxRep ->
  match rep_grow n m with
  | Ok m' => m' = m * 10 ^ Z.of_nat n /\ m' <= kMaxRep
  | Throw _ => kMaxRep < m * 10 ^ Z.of_nat n
  end.
Proof.
  revert m. induction n as [|n IH]; intros m Hm; cbn [rep_grow]; [change (10 ^ Z.of_nat 0) with 1; lia|].
  rewrite pow_S, Z.mul_assoc. assert (0 < 10 ^ Z.of_nat n) by lia.
  pose proof (Z.div_mod kMaxRep 10 ltac:(lia)). pose proof (Z.mod_pos_bound kMaxRep 10 ltac:(lia)).
  destruct (Z.ltb_spec (kMaxRep / 10) m); [nia|]. apply IH. lia.
Qed.

(** The magnitude as a 64-bit integer and an exponent. *)
Lemma mantissa_mag s x : normal s x -> exists m,
  mantissa x = (if negative_ x then - m else m) /\ 0 < m <= kMaxRep /\ (inject_Z m * p10 (exponent x) == mag x)%Q.
Proof.
  intros [Hf _]. unfold mantissa, exponent, mag. destruct (Z.ltb_spec kMaxRep (mantissa_ x)) as [Hgt|Hle].
  - exists (mantissa_ x / 10). pose proof (Z.div_mod (mantissa_ x) 10 ltac:(lia)) as Em.
    assert (mantissa_ x mod 10 = 0) as E0 by (destruct Hf as [_ [?|?]]; lia).
    assert (inject_Z (mantissa_ x) == 10 * inject_Z (mantissa_ x / 10))%Q as EQ.
    { change 10%Q with (inject_Z 10). rewrite <-inject_Z_mult. rewrite Em at 1. by rewrite E0, Z.add_0_r. }
    split_and!; [done|scale_lia s..|]. rewrite p10_S, EQ. ring.
  - exists (mantissa_ x). split_and!; [done|scale_lia s|done|done].
Qed.

Lemma to_rep_magnitude md s x : normal s x -> exists m g k X,
  to_rep (mkEnv md s) x = (m ← m; doRound md g m "Number::operator rep() rounding overflow") /\
  sbit_ g = negative_ x /\
  match m with
  | Ok m => 0 <= m <= kMaxRep /\ stands g k m X /\ (X == mag x)%Q /\ ((0 < k)%nat \/ (X - inject_Z m < 1 # 2)%Q)
  | Throw _ => (inject_Z kMaxRep < mag x)%Q
  end.
Proof.
  intros Hn. destruct (mantissa_mag s x Hn) as (m & Em & Hm & Hmag). unfold to_rep. rewrite Em.
  rewrite (proj2 (Z.eqb_neq _ 0)) by (destruct (negative_ x); lia).
  replace (if negative_ x then - (if negative_ x then - m else m) else if negative_ x then - m else m) with m
    by (destruct (negative_ x); lia).
  set (g0 := if negative_ x then setNegative newGuard else newGuard).
  assert (sbit_ g0 = negative_ x) as Hsb0 by (unfold g0; by destruct (negative_ x)).
  assert (shifted g0 0 m (exponent x) (mag x)) as Hs0.
  { split; [lia|]. exists (inject_Z m). split; [|done]. eapply guards_ext; [|apply newGuard_guards]. ring. }
  destruct (Z.le_gt_cases 0 (exponent x)) as [He|He].
  - replace (Z.to_nat (- exponent x)) with O by lia. cbn [rep_shrink].
    exists (rep_grow (Z.to_nat (exponent x)) m), g0, O, (mag x). split_and!; [done..|].
    pose proof (rep_grow_spec (Z.to_nat (exponent x)) m Hm) as Hg. rewrite Z2Nat.id in Hg by done.
    assert (inject_Z (m * 10 ^ exponent x) == mag x)%Q as EX by (rewrite <-Hmag, inject_Z_mult, p10_Z by done; done).
    destruct (rep_grow _ _) as [m'|msg]; [destruct Hg as [-> Hle]|rewrite <-EX, <-inject_Z_lt; done].
    split_and!; [lia|done| |done|right; rewrite EX; lra].
    eapply guards_ext; [|apply newGuard_guards]. rewrite EX. ring.
  - destruct (rep_shrink_spec (Z.to_nat (- exponent x)) _ _ _ _ _ Hs0) as (g & m' & -> & Hsb & Hle & Hs).
    replace (Z.to_nat (exponent x)) with O by lia. cbn [rep_grow].
    replace (exponent x + Z.of_nat (Z.to_nat (- exponent x))) with 0 in Hs by lia.
    destruct Hs as (H0 & X & Hst & EX). eexists (Ok m'), g, _, X.
    split_and!; [done|congruence|lia..|exact Hst| |left; lia].
    rewrite <-EX. change (p10 0) with 1%Q. ring.
Qed.

Lemma rounds_some md g k m X : stands g k m X -> (0 < k)%nat \/ (X - inject_Z m < 1 # 2)%Q ->
  rounds md g m = true -> (inject_Z m < X)%Q.
Proof.
  intros Hs Hk Hr. pose proof (rounds_cases md g k _ m Hs Hk) as Hc. cbn zeta in Hc. rewrite Hr in Hc.
  destruct md, (sbit_ g); done || lra.
Qed.

(** [doRound] adds the sign to the rounded magnitude. *)
Lemma doRound_spec md g k m X loc : stands g k m X -> (0 < k)%nat \/ (X - inject_Z m < 1 # 2)%Q ->
  0 <= m <= kMaxRep ->
  match doRound md g m loc with
  | Ok n => exists a, n = (if sbit_ g then - a else a) /\ 0 <= a <= kMaxRep /\ close md (sbit_ g) 1 X (inject_Z a)
  | Throw _ => (inject_Z kMaxRep < X)%Q
  end.
Proof.
  intros Hst Hk Hm. pose proof (rounds_up_close md g k m X Hst Hk) as Hc. unfold doRound.
  pose proof (rounds_some md g k m X Hst Hk) as Hsome. destruct (rounds md g m).
  - specialize (Hsome eq_refl). destruct (Z.leb_spec kMaxRep m); cbn [mbind result_bind].
    + by replace kMaxRep with m by lia.
    + exists (m + 1). split_and!; [done|lia..|done].
  - cbn [mbind result_bind]. exists m. split_and!; [done|lia..|done].
Qed.

(** The conversion of a number to a 64-bit integer rounds its value to an
    integer as the mode asks: within half a unit to nearest and less than or
    equal to a unit otherwise, downward, upward or towards zero; it throws
    only when the magnitude exceeds the largest 64-bit integer. *)
Theorem to_rep_rounded (env : Env) (x : Number) : isnormal env x = true ->
  match to_rep env x with
  | Ok n =>
      - kMaxRep <= n <= kMaxRep /\ (Qabs (inject_Z n - val x) <= tol (mode env))%Q /\
      match mode env with
      | ToNearest => True
      | TowardsZero => (Qabs (inject_Z n) <= Qabs (val x))%Q
      | Downward => (inject_Z n <= val x)%Q
      | Upward => (val x <= inject_Z n)%Q
      end
  | Throw _ => (inject_Z kMaxRep < Qabs (val x))%Q
  end.
Proof.
  destruct env as [md s]. rewrite isnormal_spec. cbn [mode]. intros [->|Hn].
  - cbn. split; [done|]. destruct md; rewrite ?val_zero; done.
  - destruct (to_rep_magnitude md s x Hn) as (m & g & k & X & -> & Hsb & Hm).
    pose proof (mag_pos _ _ Hn) as Hz. pose proof (Qabs_sign (negative_ x) (mag x) (val x) ltac:(lra) ltac:(done)) as Ha.
    destruct m as [m|msg]; cbn [mbind result_bind]; [|by rewrite Ha].
    destruct Hm as (Hb & Hst & EX & Hk).
    pose proof (doRound_spec md g k m X "Number::operator rep() rounding overflow" Hst Hk Hb) as Hd.
    destruct (doRound md g m _) as [n|msg]; [|rewrite Ha, <-EX; done].
    destruct Hd as (a & -> & Hab & [Hc Hs]). rewrite Hsb in *. rewrite EX in Hc.
    assert (0 <= inject_Z a)%Q as Ha0 by (change 0%Q with (inject_Z 0); rewrite <-inject_Z_le; lia).
    assert (inject_Z (if negative_ x then - a else a) == if negative_ x then - inject_Z a else inject_Z a)%Q as En
      by (destruct (negative_ x); [by rewrite inject_Z_opp|done]).
    split; [destruct (negative_ x); lia|]. split.
    + apply Qabs_Qle_condition. rewrite En, val_sign. destruct (negative_ x); lra.
    + unfold side in Hs. destruct md; [done| |rewrite En, val_sign; destruct (negative_ x); lra..].
      rewrite (Qabs_sign _ _ _ Ha0 En), Ha. lra.
Qed.

(** ** Integers *)

Lemma normalize_grown md s neg m e m' e' : m <> 0 -> m' <> 0 ->
  grow 40 U64 (rmin s) m e = (m', e') -> rmin s <= m' ->
  normalize (mkEnv md s) (mkNumber neg m e) = normalize (mkEnv md s) (mkNumber neg m' e').
Proof.
  intros Hm Hm' E Hr. unfold normalize, doNormalize, range. cbn [negative_ mantissa_ exponent_ kRange mode].
  rewrite (proj2 (Z.eqb_neq m 0) Hm), (proj2 (Z.eqb_neq m' 0) Hm'), E. by rewrite (grow_done 40 U64 (rmin s) m' e' Hr).
Qed.

Lemma number_of_exact md s n : s <> Small -> - kMaxRep <= n <= kMaxRep -> n <> 0 ->
  exists x, number_of (mkEnv md s) n 0 = Ok x /\ normal s x /\ negative_ x = (n <? 0) /\
    (mag x == inject_Z (Z.abs n))%Q.
Proof.
  intros Hs Hn H0. unfold number_of, externalToInternal.
  assert (rmin s = 10 ^ 18 /\ rmax s = 10 ^ 19 - 1) as [Emin Emax] by (by destruct s).
  destruct (grow_spec s 40 U64 (Z.abs n) 0) as (j & E & Hj & Hlo & Hmin);
    [unfold kMaxRep, bits in *; lia|change (Z.of_nat 40) with 40; scale_lia s|].
  specialize (Hmin 18%nat ltac:(change (Z.of_nat 18) with 18; scale_lia s)). rewrite Z.sub_0_l in E, Hlo.
  set (m := Z.abs n * 10 ^ Z.of_nat j) in *.
  destruct Hlo as [Hlo|[_ Hlo]]; [|unfold kMinExponent in Hlo; lia].
  assert (m <> 0) as Hm0 by (clearbody m; scale_lia s).
  rewrite (normalize_grown md s _ _ _ m (- Z.of_nat j)); [|lia|done..].
  assert (normal s (mkNumber (n <? 0) m (- Z.of_nat j))) as Hx.
  { split; cbn [mantissa_ exponent_]; [|unfold kMinExponent, kMaxExponent; lia]. destruct Hj as [->|Hj].
    - assert (m = Z.abs n) as Em by apply Z.mul_1_r. clearbody m. scale_lia s.
    - split; [clearbody m; scale_lia s|]. destruct j as [|j]; [left; unfold m; change (10 ^ Z.of_nat 0) with 1; lia|right].
      unfold m. rewrite pow_S. replace (Z.abs n * (10 * 10 ^ Z.of_nat j)) with (Z.abs n * 10 ^ Z.of_nat j * 10) by ring.
      apply Z.mod_mul. lia. }
  eexists. split; [rewrite (normalize_normal md s _ Hx)|split; [exact Hx|split; [done|]]].
  - cbn [mantissa_ exponent_]. rewrite (proj2 (Z.leb_gt kMaxExponent (- Z.of_nat j))) by (unfold kMaxExponent; lia).
    by rewrite andb_false_r.
  - unfold mag. cbn [mantissa_ exponent_]. unfold m. rewrite inject_Z_mult, <-p10_Z, <-Qmult_assoc, <-p10_plus by lia.
    rewrite Z.add_opp_diag_r. change (p10 0) with 1%Q. ring.
Qed.

Lemma to_rep_integer md s x n : normal s x -> negative_ x = (n <? 0) -> (mag x == inject_Z (Z.abs n))%Q ->
  - kMaxRep <= n <= kMaxRep -> to_rep (mkEnv md s) x = Ok n.
Proof.
  intros Hx Hneg Hmag Hn. destruct (to_rep_magnitude md s x Hx) as ([m|msg] & g & k & X & -> & Hsb & Hm).
  2: { rewrite Hmag, <-inject_Z_lt in Hm. lia. }
  destruct Hm as (Hb & Hst & EX & Hk). rewrite Hmag in EX. pose proof (stands_bounds _ _ _ _ Hst) as Hr.
  assert (m = Z.abs n) as ->.
  { rewrite EX, <-inject_Z_S, <-inject_Z_le, <-inject_Z_lt in Hr. lia. }
  cbn [mbind result_bind]. unfold doRound. rewrite (rounds_zero md g k _ _ Hst) by lra.
  cbn [mbind result_bind]. rewrite Hsb, Hneg. f_equal. destruct (Z.ltb_spec n 0); lia.
Qed.

(** Integers survive the conversion to a number and back: on the scales
    with eighteen digits every 64-bit integer other than the least one becomes
    a number, and converting that number to an integer gives it back, in
    every rounding mode. *)
Theorem integer_number_roundtrip (env : Env) (n : Z) : kRange env <> Small -> - kMaxRep <= n <= kMaxRep ->
  exists x, number_of env n 0 = Ok x /\ isnormal env x = true /\ to_rep env x = Ok n.
Proof.
  destruct env as [md s]. cbn [kRange]. intros Hs Hn. destruct (decide (n = 0)) as [->|H0].
  - exists kZero. split_and!; [done|by apply isnormal_spec; left|done].
  - destruct (number_of_exact md s n Hs Hn H0) as (x & E & Hx & Hneg & Hmag). exists x.
    split_and!; [done|apply isnormal_spec; by right|by apply to_rep_integer].
Qed.

(** The division by ten that the guard digits are taken with, written with
    shifts and additions, gives the remainder and the quotient of every
    128-bit integer. *)
Theorem divu10_correct (u : Z) : 0 <= u < 2 ^ 128 -> divu10 u = (u mod 10, u / 10).
Proof. apply divu10_divides. Qed.

(** ** Examples: one third, rounded down, and its relatives *)

Definition exOne : Number := mkNumber false (10 ^ 18) (-18).
Definition exThree : Number := mkNumber false (3 * 10 ^ 18) (-18).
Definition exMinusThird : Number := mkNumber true 3333333333333333334 (-19).

Lemma arithmetic_normal_witness :
  div (mkEnv Downward Large) (opp exOne) exThree = Ok exMinusThird /\
  isnormal (mkEnv Downward Large) exMinusThird = true.
Proof.
  split; [vm_compute; reflexivity|].
  apply (arithmetic_normal (mkEnv Downward Large) (opp exOne) exThree exMinusThird 7 0);
    [vm_compute; reflexivity..|lia|]. right. right. right. left. vm_compute. reflexivity.
Defined.

Lemma mul_div_rounded_witness :
  div (mkEnv Downward Large) (opp exOne) exThree = Ok exMinusThird /\
  faithful Downward (val (opp exOne) / val exThree) (div (mkEnv Downward Large) (opp exOne) exThree).
Proof.
  split; [vm_compute; reflexivity|].
  apply (mul_div_rounded Downward (opp exOne) exThree); vm_compute; reflexivity.
Defined.

Lemma add_sub_rounded_witness :
  deviates Upward exOne (opp exMinusThird) = false /\
  faithful Upward (val exOne - val exMinusThird) (sub (mkEnv Upward Large) exOne exMinusThird).
Proof.
  split; [vm_compute; reflexivity|].
  apply (add_sub_rounded Upward exOne exMinusThird); vm_compute; reflexivity.
Defined.

Lemma number_order_witness :
  number_ltb exMinusThird exOne = true /\ (val exMinusThird < val exOne)%Q.
Proof.
  split; [vm_compute; reflexivity|].
  apply (number_order (mkEnv ToNearest Large) exMinusThird exOne); vm_compute; reflexivity.
Defined.

Lemma to_rep_rounded_witness :
  to_rep (mkEnv Downward Large) exMinusThird = Ok (-1) /\ (inject_Z (-1) <= val exMinusThird)%Q.
Proof.
  assert (to_rep (mkEnv Downward Large) exMinusThird = Ok (-1)) as E by (vm_compute; reflexivity).
  split; [exact E|]. assert (isnormal (mkEnv Downward Large) exMinusThird = true) as Hn by (vm_compute; reflexivity).
  pose proof (to_rep_rounded (mkEnv Downward Large) exMinusThird Hn) as Hr. rewrite E in Hr. apply Hr.
Defined.

Lemma integer_number_roundtrip_witness : exists x,
  number_of (mkEnv Upward LargeLegacy) (-12) 0 = Ok x /\ isnormal (mkEnv Upward LargeLegacy) x = true /\
  to_rep (mkEnv Upward LargeLegacy) x = Ok (-12).
Proof.
  apply (integer_number_roundtrip (mkEnv Upward LargeLegacy) (-12)); [discriminate|unfold kMaxRep; lia].
Defined.

Lemma divu10_correct_witness : divu10 340282366920938463463374607431768211455 =
  (340282366920938463463374607431768211455 mod 10, 340282366920938463463374607431768211455 / 10).
Proof. apply (divu10_correct 340282366920938463463374607431768211455). lia. Defined.
